(* ===== verification/_CoqProject ===== *)
-Q . S2P
Prelude.v
APInt.v
ExprData.v
Samples.v
Bits.v
ExprCompare.v
ExprCreate.v
ExprCreateSound.v
ExprStructSound.v
ExprVisitor.v
ExprEvaluator.v
UnionFind.v
ArrayCache.v
ExprBuilder.v
ExprUtil.v
ExprWeight.v
Rewriters.v
Constraints.v
ConstraintsSound.v
ImmutableTree.v
Memory.v
MemorySound.v
MemoryAccess.v
MemoryPoison.v
Solver.v
AddressSpace.v
AddressSpaceSound.v
TaseMemory.v
Interp.v
Canonical.v
PossibleValues.v
MapOfSets.v
SolverChain.v
ValueRange.v
FastCex.v
CexCaching.v
ValidatingSolver.v
IndependentSolver.v
IndependentSound.v
ImpliedValue.v
ConstantDivision.v
VC.v
STPBuilder.v
STPBuilderSound.v
STPConstruct.v
Loops.v
EditDistance.v
Ukkonen.v
EditDistanceOracle.v
Exits.v
ClusterFiles.v
KTest.v
WorkerGroup.v
Manager.v
ManagerSound.v
WorkerFork.v
