(* ===== verification/Prelude.v ===== *)
(** * A verification library for the symbolic core of TASE

    TASE runs a program natively and falls back to a fork of KLEE when the program
    touches symbolic data.  The core of that fork is modelled and verified here: the
    expression language, its simplifying constructors and traversals, the path
    condition, the interface of the solvers, the memory of the program under test
    and the address space; and, on top of it, the handler of the traps by which native
    execution and interpretation alternate, the recording and playback of network
    sessions, and the scheduling of the worker processes that explore the paths of a
    client.  Paths are relative to [src/klee].

    ** The program's parts and how they interact

    Expressions ([include/klee/Expr.h]) are built by the simplifying [create]
    methods of [lib/Expr/Expr.cpp] and rewritten by visitors ([ExprVisitor.cpp]).
    Arrays are unique objects made by the [ArrayCache] and registered with the
    union-find managers, which group the arrays that constraints relate.  The
    [ConstraintManager] keeps the path condition, simplifies expressions against it
    and rewrites its own conjuncts when an equality is added.  A [Solver] answers
    queries (path condition, expression) through a chain of [SolverImpl]s; the
    executor asks it through the [TimingSolver].  An [ObjectState] holds the bytes
    of one memory object in three layers, the lowest of which is, for mapped
    objects, the memory of the running program; poison values stored there make
    native code stop at symbolic bytes.  The [AddressSpace] maps addresses to object
    states in an immutable balanced tree and resolves symbolic pointers with the
    solver's help.  When native code stops at poison or at a modelled function, the trap
    handler ([klee_interp] of [lib/Core/Executor.cpp]) counts the trap, retries, or
    interprets until no register holds a symbolic value.  The system calls of the
    program pass through, record into, or play back the sessions of [lib/Basic/KTest.cpp].
    A branch on symbolic data forks the process: a worker asks the
    manager ([lib/Tase/API_Alt.cpp]), which has an oracle rank the branches, tells the
    worker which of them get a process, and keeps the others as fragments that a spare
    process replays later.  The edit distance oracle ranks a path by its distance to
    fragments of training data near the message to verify.

    ** Files

    - [Prelude]: the failure monad of asserting code ([result], [massert],
      [returns]), fuel ([approx], [eventually], [settles]), machine words ([wrap],
      [u32], [u64], [inw], [sgn]), and the tactics the components share.
    - [APInt]: the operations of [llvm::APInt] the sources call, as a class with
      its documented laws, and a computable instance.
    - [ExprData]: [Expr.h]; typing ([wf]) and meaning ([eval]) of expressions.
    - [Samples]: concrete arrays and expressions for the witnesses.
    - [Bits]: [util/Bits.h], [util/BitArray.h], [Internal/Support/IntEvaluation.h].
    - [ExprCompare]: hashing and [Expr::compare].
    - [ExprCreate]: every [create] of [Expr.cpp]; [ExprCreateSound] and
      [ExprStructSound]: they build an expression with the meaning of the plain
      node ([builds]), and terminate.
    - [ExprVisitor]: memoised traversal, with its induction principle.
    - [ExprEvaluator]: [ExprEvaluator.cpp], [Assignment.h], [Assigment.cpp].
    - [UnionFind]: [UFManager]; [ArrayCache]: [ArrayCache.cpp] and the life of an
      array.
    - [ExprBuilder]: the builders of [ExprBuilder.cpp] against one interface.
    - [ExprUtil]: [findReads], [findSymbolicObjects].
    - [ExprWeight]: measures no constructor increases, used for termination.
    - [Rewriters], [Constraints], [ConstraintsSound]: [Constraints.cpp].
    - [ImmutableTree]: [ADT/ImmutableTree.h], [ImmutableMap.h], [ImmutableSet.h].
    - [Memory]: [lib/Core/Memory.cpp] and [tase_buf_has_taint] of [Executor.cpp];
      [MemorySound], [MemoryAccess], [MemoryPoison]: its contents and its poison.
    - [Solver]: [Solver.h], [SolverImpl.h], [Solver.cpp], [SolverImpl.cpp],
      [TimingSolver.cpp].
    - [MapOfSets]: [ADT/MapOfSets.h]; [SolverChain]: [CachingSolver.cpp],
      [IncompleteSolver.cpp], [DummySolver.cpp]; [CexCaching]: [CexCachingSolver.cpp];
      [IndependentSolver], [IndependentSound]: [IndependentSolver.cpp].
    - [ImpliedValue]: [lib/Core/ImpliedValue.cpp].
    - [ConstantDivision]: [ConstantDivision.cpp]; [VC]: the interface of STP;
      [STPBuilder], [STPBuilderSound], [STPConstruct]: [STPBuilder.cpp], its circuits and
      the translation of expressions.
    - [Canonical]: [CanonicalSolver.cpp]; [PossibleValues]: [getNPossibleValues] of
      [lib/Tase/TASETetriNETVerModels.cpp]; [ValueRange], [FastCex]:
      [ExprRangeEvaluator.h] and [FastCexSolver.cpp]; [ValidatingSolver]:
      [ValidatingSolver.cpp], [AssignmentValidatingSolver.cpp].
    - [AddressSpace], [AddressSpaceSound]: [AddressSpace.cpp]; [TaseMemory]: the accesses by
      address of [Executor.cpp] ([tase_helper_read], [tase_helper_write] and the tests of
      buffers and registers).
    - [Interp]: [klee_interp] and what it calls, [lib/Core/Executor.cpp], [Executor.h].
    - [KTest]: [lib/Basic/KTest.cpp], session files, recording and playback.
    - [Loops]: counting loops and checked arrays; [EditDistance], [Ukkonen]: the
      classes of [lib/Tase/EditDistance.h], by which workers are ranked.
    - [Exits]: code that may end the process ([io], [safe], [completes]).
    - [EditDistanceOracle], [ClusterFiles]: [lib/Tase/EditDistanceOracle.cpp], the
      priority of a worker and the files of training data.
    - [WorkerGroup]: [lib/Tase/WorkerGroup.h]; [Manager], [ManagerSound]: the manager of
      [lib/Tase/API_Alt.cpp] and its invariant; [WorkerFork]: the worker's side of a
      fork, the shared buffer and replays.

    ** How code becomes definitions

    A [ref<Expr>] is the tree it points to; an array is identified by its address.
    An [assert] that fails, [abort] and undefined behaviour (out of range accesses,
    a function that ends without a value) are the value [AssertFail].  A call that
    reports failure by returning false is an [option].  Machine integers are
    integers with their wrap-around written out ([u32], [u64], and [i32] for [int], whose
    overflow is taken to wrap around as on the targets of the program).  Statistics, timers, logging and
    reference counts are left out.  Virtual classes are records or classes of
    operations ([ExprVisitor], [ExprBuilder], [SolverImpl]), and what clients rely
    on is a class of laws ([InitialValues], [BuilderSpec], [SolverSpec]); clients
    are proved against the laws and implementations discharge them.  [llvm::APInt]
    and the decision procedures are not part of the repository: they appear only
    through [APIntOps]/[APIntSpec], [VCOps]/[VCSpec] and [SolverImpl]/[SolverSpec], with
    instances that show the laws can hold ([ZOps], [SemOps], [Oracle]).

    ** What the theorems show

    - Constructors, [rebuild], builders: the result is well typed and evaluates as
      the plain node would; no assertion fails and no recursion runs forever.
    - [compare] is a total order that decides equality; evaluation under an
      assignment returns the constant of the value; [findSymbolicObjects] finds
      exactly the arrays an expression depends on.
    - The path condition: [addConstraint] terminates and its solutions are exactly
      those of the old constraints and the new one; [simplifyExpr] keeps values.
    - Trees: updates and queries refine those of sorted lists, heights stay
      logarithmic, iterators walk the elements in both directions.
    - Memory: the three layers behave as one array of bytes ([contents]); stores
      followed by the poisoning pass keep the contract with native execution, and a
      load returns what was stored.
    - Solvers: the operations of [Solver] and [TimingSolver] answer what their
      documentation says, over any implementation that meets the laws; [getRange]
      is tight.
    - Layers of the chain: each keeps the laws of [SolverImpl] over any
      implementation below it; a session of queries through both caches is answered
      rightly ([solver_chain_session]); the searches of the trie are exact; leaving out
      the constraints that share no cell with a query never makes an answer of the
      independent solver wrong, and changes none if its closure loses no cell; renaming
      arrays, checking against an oracle and the fast counterexample solver give right
      answers, and the possible values of an expression are enumerated exactly.
    - The translation for STP: the term built for an expression has its value in every
      model, if the caches are correct for the nodes that exist, and a query has a model
      exactly if it has a solution; the circuits for shifts, products and quotients compute what they
      replace.
    - Edit distances: every algorithm returns the least cost of an edit script, and
      stays within its arrays (with the bounds where a class needs them).
    - Workers: training data is read back as printed and a worker's priority is its
      least distance to the selected fragments; with one worker at a time, different
      blocks in each fork and not in single-message mode, the manager keeps one slot for
      each worker and no process twice, loses no branch of a fork,
      and starts each message with the successful worker alone; both sides of a fork
      agree on which process takes which branch, and a replay ends where its fragment
      ends.
    - Traps: with bounceback the handler returns to native code with a budget left or
      only with concrete registers, its globals keep to their types, and each trap is
      counted once.
    - Sessions: recorded calls that succeed return the same when they are played back,
      multipass playback keeps the order of messages, and the reader of session files
      uses exactly the bytes of a session; files with messages that the writer makes
      are not read back.
    - Addresses: the address space is a map, and resolving a pointer finds exactly
      the objects it can point into.
    - Deviations of the code from its comments or its intention are stated as
      theorems or examples and listed with the findings.

    The comment before each theorem lists what it assumes of its inputs.  Where the
    code goes wrong outside an assumption, an example says so next to the theorem
    (for instance [concat_unsound], [merged_arrays], [same_key], [subset_trips],
    [single_message_records], [shared_block_shares_pid], [aligned_16bit_store_loses_byte],
    [odd_read_misses_poison], [literal_shift_truncated], [no_representative],
    [or_without_value], [table_too_large], [rows_too_large], [writer_not_read]).

    ** Fuel and bounds

    Recursions that are not structural take fuel and return [OutOfFuel] when it
    runs out; theorems show that it does not.  [ExtractExpr_create] and
    [ConcatExpr_create] start with the sizes of their operands ([esize]), visitors
    with the number of nodes reached through update lists ([vsize]), the open
    recursion of the folding builder with [CF_rank], [findReads] with the number of
    nodes.  Rewriting the path condition has no simple bound; it is stated with
    [eventually] and [settles] (enough fuel exists, and more changes nothing).  A
    tree of fewer than 2^64 nodes is at most 192 high, so [unsigned] heights cannot
    overflow.  Binary searches over 64-bit numbers take [search_fuel] = 66 rounds,
    loops over the objects of an address space one round per object and one to
    stop ([loop_fuel]).  The loop over the runs of ones of a 64-bit constant takes at
    most 33 rounds, those over wide literals one round for each 64 bits.  The manager's loop runs until its workers are done; it is a
    function of the signals and messages that arrive, and its theorems hold for every
    number of rounds.

    ** Not modelled

    The interpretation of LLVM code in [Executor.cpp], the LLVM passes and the TASE models of
    system calls and protocols drive native x86 code, LLVM objects, files and
    processes.  STP, Z3 and metaSMT are third-party solvers; of their back ends the
    translation for STP is modelled.  Printers, parsers, loggers and option parsing are
    input and output.  Of the parts that could follow, the translation for Z3, searchers
    and the verification of a written message ([CVAssignment.cpp]) are still missing.
    Of [API_Alt.cpp] the features sent with a fork, process creation and the older
    protocol are left out, of [KTest.cpp] [select] and the clock. *)

From Stdlib Require Export ZArith Lia Bool.
From Stdlib Require Import Btauto.
From stdpp Require Export base option list strings gmap.

Local Open Scope Z_scope.

(** ** The failure monad of asserting C++ code

    [assert(c)] either lets control through or aborts the process.  Functions
    whose recursion is not structural take fuel; [OutOfFuel] is then a value of
    its own and every component proves that it is never returned. *)
Inductive result (A : Type) : Type :=
| Ok (a : A)
| AssertFail
| OutOfFuel.
Arguments Ok {A} a.
Arguments AssertFail {A}.
Arguments OutOfFuel {A}.

#[export] Instance result_ret : MRet result := fun A a => Ok a.
#[export] Instance result_bind : MBind result := fun A B f m =>
  match m with Ok a => f a | AssertFail => AssertFail | OutOfFuel => OutOfFuel end.
#[export] Instance result_fmap : FMap result := fun A B f m =>
  match m with Ok a => Ok (f a) | AssertFail => AssertFail | OutOfFuel => OutOfFuel end.

(** The C [assert] macro. *)
Definition massert (b : bool) : result unit := if b then Ok tt else AssertFail.

Lemma massert_true b : b = true -> massert b = Ok tt.
Proof. by intros ->. Qed.

(** [m] returns, and what it returns satisfies [P]. *)
Definition returns {A} (m : result A) (P : A -> Prop) : Prop :=
  exists a, m = Ok a /\ P a.

Lemma returns_ok {A} (a : A) (P : A -> Prop) : P a -> returns (Ok a) P.
Proof. intros H. by exists a. Qed.

Lemma returns_bind {A B} (m : result A) (f : A -> result B) P Q :
  returns m P -> (forall a, P a -> returns (f a) Q) -> returns (m ≫= f) Q.
Proof. intros (a & -> & Ha) Hf. exact (Hf a Ha). Qed.

Lemma returns_weaken {A} (m : result A) (P Q : A -> Prop) :
  returns m P -> (forall a, P a -> Q a) -> returns m Q.
Proof. intros (a & -> & Ha) HPQ. exists a; auto. Qed.

Lemma returns_assert {A} b (k : result A) P :
  b = true -> returns k P -> returns (massert b ≫= fun _ => k) P.
Proof. by intros ->. Qed.

(** ** Fuel

    [approx m m']: [m'] is what [m] returns, unless [m] ran out of fuel. *)
Definition approx {A} (m m' : result A) : Prop := m = OutOfFuel \/ m = m'.

Lemma approx_refl {A} (m : result A) : approx m m.
Proof. by right. Qed.

Lemma approx_bind {A B} (m m' : result A) (f f' : A -> result B) :
  approx m m' -> (forall a, approx (f a) (f' a)) -> approx (m ≫= f) (m' ≫= f').
Proof. intros [->| ->] Hf; [by left|]. destruct m'; [apply Hf|by right|by left]. Qed.

Lemma approx_returns {A} (m m' : result A) P : approx m m' -> returns m P -> m' = m.
Proof. by intros [->| ->] (a & Ha & _). Qed.

Lemma approx_trans {A} (m1 m2 m3 : result A) : approx m1 m2 -> approx m2 m3 -> approx m1 m3.
Proof. intros [->| ->] H; [by left|done]. Qed.

(** ** Fixed-width unsigned arithmetic *)

(** The value kept by a [w]-bit unsigned register. *)
Definition wrap (w z : Z) : Z := z mod 2 ^ w.

(** C++ [unsigned] (32 bits) and [uint64_t]. *)
Definition u32 (z : Z) : Z := wrap 32 z.
Definition u64 (z : Z) : Z := wrap 64 z.

(** Two's complement reading of a [w]-bit pattern. *)
Definition sgn (w z : Z) : Z := if z <? 2 ^ (w - 1) then z else z - 2 ^ w.

(** [z] is a [w]-bit pattern. *)
Definition inw (w z : Z) : Prop := 0 <= z < 2 ^ w.

Lemma pow2_pos w : 0 <= w -> 0 < 2 ^ w.
Proof. intros. apply Z.pow_pos_nonneg; lia. Qed.

Lemma pow2_pos' w : 0 <= 2 ^ w.
Proof. apply Z.pow_nonneg; lia. Qed.

Lemma pow2_split a b : 0 <= a -> 0 <= b -> 2 ^ (a + b) = 2 ^ a * 2 ^ b.
Proof. intros. by rewrite Z.pow_add_r. Qed.

Lemma pow2_half w : 0 < w -> 2 ^ w = 2 * 2 ^ (w - 1).
Proof. intros. replace w with (1 + (w - 1)) at 1 by lia. by rewrite pow2_split by lia. Qed.

Lemma pow2_le a b : 0 <= a <= b -> 2 ^ a <= 2 ^ b.
Proof. intros. apply Z.pow_le_mono_r; lia. Qed.

Lemma wrap_inw w z : 0 <= w -> inw w (wrap w z).
Proof. intros. unfold inw, wrap. apply Z.mod_pos_bound, pow2_pos; lia. Qed.

Lemma wrap_small w z : inw w z -> wrap w z = z.
Proof. intros. by apply Z.mod_small. Qed.

Lemma wrap_wrap w z : 0 <= w -> wrap w (wrap w z) = wrap w z.
Proof. intros. apply wrap_small, wrap_inw; lia. Qed.

Lemma u32_small z : 0 <= z < 2 ^ 32 -> u32 z = z.
Proof. apply wrap_small. Qed.

Lemma u64_small z : 0 <= z < 2 ^ 64 -> u64 z = z.
Proof. apply wrap_small. Qed.

Lemma inw_0 w : 0 <= w -> inw w 0.
Proof. intros. pose proof (pow2_pos w). unfold inw; lia. Qed.

Lemma inw_1 w : 0 < w -> inw w 1.
Proof. intros. pose proof (pow2_pos (w - 1)). pose proof (pow2_half w). unfold inw; lia. Qed.

Lemma inw_mono w w' z : 0 <= w <= w' -> inw w z -> inw w' z.
Proof. unfold inw. intros ? ?. pose proof (pow2_le w w'). lia. Qed.

Lemma inw1_cases z : inw 1 z -> z = 0 \/ z = 1.
Proof. unfold inw. change (2 ^ 1) with 2. lia. Qed.

Lemma sgn_mod w z : 0 < w -> wrap w (sgn w z) = wrap w z.
Proof.
  intros. unfold sgn, wrap. case_match; [done|].
  replace (z - 2 ^ w) with (z + (-1) * 2 ^ w) by lia. by apply Z_mod_plus_full.
Qed.

Lemma sgn_range w z : 0 < w -> inw w z -> - 2 ^ (w - 1) <= sgn w z < 2 ^ (w - 1).
Proof.
  intros Hw [? ?]. pose proof (pow2_half w Hw). unfold sgn.
  destruct (Z.ltb_spec z (2 ^ (w - 1))); lia.
Qed.

Lemma sgn_wrap w z : 0 < w -> - 2 ^ (w - 1) <= z < 2 ^ (w - 1) -> sgn w (wrap w z) = z.
Proof.
  intros Hw Hz. pose proof (pow2_half w Hw). unfold sgn, wrap. destruct (Z.lt_ge_cases z 0).
  - rewrite <- (Z_mod_plus_full z 1), Z.mod_small by lia.
    destruct (Z.ltb_spec (z + 1 * 2 ^ w) (2 ^ (w - 1))); lia.
  - rewrite Z.mod_small by lia. destruct (Z.ltb_spec z (2 ^ (w - 1))); lia.
Qed.

(** An [int] computed from [z]: the arithmetic wraps around. *)
Definition i32 (z : Z) : Z := sgn 32 (wrap 32 z).
Lemma i32_small z : - 2 ^ 31 <= z < 2 ^ 31 -> i32 z = z.
Proof. intros H. by apply sgn_wrap. Qed.
Lemma i32_range z : - 2 ^ 31 <= i32 z < 2 ^ 31.
Proof. apply (sgn_range 32); [done|]. by apply wrap_inw. Qed.
Lemma sgn_inj w a b : 0 < w -> inw w a -> inw w b -> sgn w a = sgn w b -> a = b.
Proof.
  intros Hw Ha Hb E. rewrite <- (wrap_small w a), <- (wrap_small w b) by done.
  by rewrite <- (sgn_mod w a), <- (sgn_mod w b), E.
Qed.

(** ** Bit level facts *)

Lemma inw_testbit w z i : 0 <= w -> inw w z -> w <= i -> Z.testbit z i = false.
Proof.
  intros Hw Hz Hi. rewrite <- (wrap_small w z Hz). unfold wrap.
  by apply Z.mod_pow2_bits_high.
Qed.

Lemma inw_of_testbit w z :
  0 <= w -> 0 <= z -> (forall i, w <= i -> Z.testbit z i = false) -> inw w z.
Proof.
  intros Hw Hz Hi. split; [done|].
  replace z with (z mod 2 ^ w); [apply Z.mod_pos_bound, pow2_pos; lia|].
  apply Z.bits_inj'. intros n Hn. destruct (Z.lt_ge_cases n w).
  - by rewrite Z.mod_pow2_bits_low by lia.
  - rewrite Z.mod_pow2_bits_high by lia. by rewrite Hi.
Qed.

Lemma land_inw w a b : 0 <= w -> inw w a -> inw w b -> inw w (Z.land a b).
Proof.
  intros Hw Ha Hb. apply inw_of_testbit; [done|apply Z.land_nonneg; left; apply Ha|].
  intros i Hi. by rewrite Z.land_spec, (inw_testbit w a) by done.
Qed.

Lemma lor_inw w a b : 0 <= w -> inw w a -> inw w b -> inw w (Z.lor a b).
Proof.
  intros Hw Ha Hb. apply inw_of_testbit; [done|apply Z.lor_nonneg; split; [apply Ha|apply Hb]|].
  intros i Hi. by rewrite Z.lor_spec, (inw_testbit w a), (inw_testbit w b) by done.
Qed.

Lemma lxor_inw w a b : 0 <= w -> inw w a -> inw w b -> inw w (Z.lxor a b).
Proof.
  intros Hw Ha Hb.
  apply inw_of_testbit; [done|apply Z.lxor_nonneg; destruct Ha, Hb; lia|].
  intros i Hi. by rewrite Z.lxor_spec, (inw_testbit w a), (inw_testbit w b) by done.
Qed.

Lemma land_ones_wrap w z : 0 <= w -> Z.land z (2 ^ w - 1) = wrap w z.
Proof. intros. by rewrite Z.sub_1_r, <- Z.ones_equiv, Z.land_ones. Qed.

Lemma lor_ones w z : 0 <= w -> inw w z -> Z.lor z (2 ^ w - 1) = 2 ^ w - 1.
Proof.
  intros Hw Hz. rewrite Z.sub_1_r, <- Z.ones_equiv. apply Z.bits_inj'. intros n Hn.
  rewrite Z.lor_spec. destruct (Z.lt_ge_cases n w).
  - by rewrite Z.ones_spec_low, orb_true_r by lia.
  - rewrite Z.ones_spec_high by lia. by rewrite (inw_testbit w z).
Qed.

Lemma b2z_inw w (b : bool) : 0 < w -> inw w (Z.b2z b).
Proof. intros. destruct b; [by apply inw_1|apply inw_0; lia]. Qed.

Lemma eqb_iff a b c d : (a = b <-> c = d) -> (a =? b) = (c =? d).
Proof. intros. destruct (Z.eqb_spec a b), (Z.eqb_spec c d); tauto. Qed.

(** A boolean property of every number below [n], by computation. *)
Lemma forallb_below (f : Z -> bool) n :
  forallb (fun i => f (Z.of_nat i)) (seq 0 n) = true ->
  forall k, 0 <= k < Z.of_nat n -> f k = true.
Proof.
  intros H k Hk. rewrite forallb_forall in H. specialize (H (Z.to_nat k)).
  rewrite Z2Nat.id in H by lia. apply H. apply in_seq. lia.
Qed.

(** ** Option plumbing *)

Lemma bind_Some_inv {A B} (o : option A) (f : A -> option B) b :
  o ≫= f = Some b -> exists a, o = Some a /\ f a = Some b.
Proof. destruct o; simpl; [eauto|discriminate]. Qed.

(** Split every option bind, equation between [Some]s and conjunction in sight. *)
Ltac inv_option :=
  repeat match goal with
  | H : _ /\ _ |- _ => destruct H
  | H : exists _, _ |- _ => destruct H
  | H : (_ ≫= _) = Some _ |- _ => apply bind_Some_inv in H
  | H : mbind _ _ = Some _ |- _ => apply bind_Some_inv in H
  | H : Some _ = Some _ |- _ => apply (inj Some) in H; subst
  | H : None = Some _ |- _ => discriminate H
  end.

(** Turn boolean integer tests into propositions. *)
Ltac bool_to_prop :=
  repeat match goal with
  | H : (_ =? _) = true |- _ => apply Z.eqb_eq in H
  | H : (_ =? _) = false |- _ => apply Z.eqb_neq in H
  | H : (_ <? _) = true |- _ => apply Z.ltb_lt in H
  | H : (_ <? _) = false |- _ => apply Z.ltb_ge in H
  | H : (_ <=? _) = true |- _ => apply Z.leb_le in H
  | H : (_ <=? _) = false |- _ => apply Z.leb_gt in H
  | H : _ && _ = true |- _ => apply andb_true_iff in H; destruct H
  end.

(** ** Hint databases of the development *)
Create HintDb klee discriminated.
#[export] Hint Resolve approx_refl : klee.
#[export] Hint Resolve wrap_inw inw_0 inw_1 land_inw lor_inw lxor_inw b2z_inw : klee.
