(* ===== verification/APInt.v ===== *)
(** * Arbitrary-precision integers: the interface KLEE uses of [llvm::APInt]

    [ConstantExpr] stores an [llvm::APInt] and every constant fold of the
    expression engine is one of its operations.  LLVM is not part of the
    repository, so the operations are the members of the class [APIntOps] and
    what LLVM documents about them is the class [APIntSpec]; the development is
    proved against the two.  [ZOps] is a computable model of the interface: it
    shows that the laws can hold and lets the examples run.

    A division by zero fails an assertion of LLVM.  Nothing is assumed about
    operands of different widths (LLVM asserts) nor about [hash_value]. *)

From S2P Require Import Prelude.
Local Open Scope Z_scope.

(** An APInt is a bit width and the unsigned value of its bits. *)
Record apint := APInt { bw : Z; raw : Z }.

#[export] Instance apint_eq_dec : EqDecision apint.
Proof. solve_decision. Defined.

(** The representation invariant of LLVM: a positive width, no stray bits. *)
Definition apok (a : apint) : Prop := 0 < bw a < 2 ^ 32 /\ inw (bw a) (raw a).

#[export] Instance inw_dec w z : Decision (inw w z) := _.
#[export] Instance apok_dec a : Decision (apok a) := _.

(** ** Bit vector arithmetic on [w]-bit patterns *)
Definition bv_add (w a b : Z) : Z := wrap w (a + b).
Definition bv_sub (w a b : Z) : Z := wrap w (a - b).
Definition bv_mul (w a b : Z) : Z := wrap w (a * b).
Definition bv_udiv (w a b : Z) : Z := a / b.
Definition bv_sdiv (w a b : Z) : Z := wrap w (Z.quot (sgn w a) (sgn w b)).
Definition bv_urem (w a b : Z) : Z := a mod b.
Definition bv_srem (w a b : Z) : Z := wrap w (Z.rem (sgn w a) (sgn w b)).
Definition bv_not (w a : Z) : Z := 2 ^ w - 1 - a.
Definition bv_neg (w a : Z) : Z := wrap w (- a).
(** Shifts saturate: an amount of at least the width shifts every bit out. *)
Definition bv_shl (w a b : Z) : Z := if w <=? b then 0 else wrap w (a * 2 ^ b).
Definition bv_lshr (w a b : Z) : Z := if w <=? b then 0 else a / 2 ^ b.
Definition bv_ashr (w a b : Z) : Z := wrap w (sgn w a / 2 ^ Z.min b w).
Definition bv_slt (w a b : Z) : bool := sgn w a <? sgn w b.
Definition bv_sle (w a b : Z) : bool := sgn w a <=? sgn w b.
(** Change of width. *)
Definition bv_zext (w w' a : Z) : Z := wrap w' a.
Definition bv_sext (w w' a : Z) : Z := wrap w' (sgn w a).

(** ** The operations *)
Class APIntOps := {
  ap_of : Z -> Z -> apint;                  (* APInt(width, uint64_t) *)
  ap_hash : apint -> Z;                     (* llvm::hash_value *)
  ap_zext : apint -> Z -> apint;
  ap_zextOrTrunc : apint -> Z -> apint;
  ap_sextOrTrunc : apint -> Z -> apint;
  ap_shl_u : apint -> Z -> apint;           (* <<= unsigned *)
  ap_ashr_u : apint -> Z -> apint;          (* ashr(unsigned) *)
  ap_neg : apint -> apint;
  ap_not : apint -> apint;
  ap_add : apint -> apint -> apint;
  ap_sub : apint -> apint -> apint;
  ap_mul : apint -> apint -> apint;
  ap_udiv : apint -> apint -> result apint;   (* asserts a non-zero divisor *)
  ap_sdiv : apint -> apint -> result apint;   (* asserts a non-zero divisor *)
  ap_urem : apint -> apint -> result apint;   (* asserts a non-zero divisor *)
  ap_srem : apint -> apint -> result apint;   (* asserts a non-zero divisor *)
  ap_and : apint -> apint -> apint;
  ap_or : apint -> apint -> apint;
  ap_xor : apint -> apint -> apint;
  ap_shl : apint -> apint -> apint;
  ap_lshr : apint -> apint -> apint;
  ap_ashr : apint -> apint -> apint;
  ap_eq : apint -> apint -> bool;
  ap_ult : apint -> apint -> bool;
  ap_ule : apint -> apint -> bool;
  ap_ugt : apint -> apint -> bool;
  ap_uge : apint -> apint -> bool;
  ap_slt : apint -> apint -> bool;
  ap_sle : apint -> apint -> bool;
  ap_sgt : apint -> apint -> bool;
  ap_sge : apint -> apint -> bool;
  ap_isMinValue : apint -> bool;
  ap_isAllOnesValue : apint -> bool;
  ap_getBoolValue : apint -> bool;
  ap_getLimitedValue : apint -> Z -> Z;
  ap_getZExtValue : apint -> Z;             (* asserts at most 64 active bits *)
}.

(** Two operands of a binary operation: well formed, of one width. *)
Definition appair (a b : apint) : Prop := apok a /\ apok b /\ bw a = bw b.

(** ** What LLVM documents about them *)
Class APIntSpec (AP : APIntOps) : Prop := {
  ap_of_spec w v : 0 < w -> inw 64 v -> ap_of w v = APInt w (wrap w v);
  ap_zext_spec a w : apok a -> bw a <= w -> ap_zext a w = APInt w (raw a);
  ap_zextOrTrunc_spec a w :
    apok a -> 0 < w -> ap_zextOrTrunc a w = APInt w (bv_zext (bw a) w (raw a));
  ap_sextOrTrunc_spec a w :
    apok a -> 0 < w -> ap_sextOrTrunc a w = APInt w (bv_sext (bw a) w (raw a));
  ap_shl_u_spec a n :
    apok a -> 0 <= n <= bw a -> ap_shl_u a n = APInt (bw a) (bv_shl (bw a) (raw a) n);
  ap_ashr_u_spec a n :
    apok a -> 0 <= n <= bw a -> ap_ashr_u a n = APInt (bw a) (bv_ashr (bw a) (raw a) n);
  ap_neg_spec a : apok a -> ap_neg a = APInt (bw a) (bv_neg (bw a) (raw a));
  ap_not_spec a : apok a -> ap_not a = APInt (bw a) (bv_not (bw a) (raw a));
  ap_add_spec a b : appair a b -> ap_add a b = APInt (bw a) (bv_add (bw a) (raw a) (raw b));
  ap_sub_spec a b : appair a b -> ap_sub a b = APInt (bw a) (bv_sub (bw a) (raw a) (raw b));
  ap_mul_spec a b : appair a b -> ap_mul a b = APInt (bw a) (bv_mul (bw a) (raw a) (raw b));
  ap_udiv_spec a b : appair a b -> ap_udiv a b =
    if raw b =? 0 then AssertFail else Ok (APInt (bw a) (bv_udiv (bw a) (raw a) (raw b)));
  ap_sdiv_spec a b : appair a b -> ap_sdiv a b =
    if raw b =? 0 then AssertFail else Ok (APInt (bw a) (bv_sdiv (bw a) (raw a) (raw b)));
  ap_urem_spec a b : appair a b -> ap_urem a b =
    if raw b =? 0 then AssertFail else Ok (APInt (bw a) (bv_urem (bw a) (raw a) (raw b)));
  ap_srem_spec a b : appair a b -> ap_srem a b =
    if raw b =? 0 then AssertFail else Ok (APInt (bw a) (bv_srem (bw a) (raw a) (raw b)));
  ap_and_spec a b : appair a b -> ap_and a b = APInt (bw a) (Z.land (raw a) (raw b));
  ap_or_spec a b : appair a b -> ap_or a b = APInt (bw a) (Z.lor (raw a) (raw b));
  ap_xor_spec a b : appair a b -> ap_xor a b = APInt (bw a) (Z.lxor (raw a) (raw b));
  ap_shl_spec a b : appair a b -> ap_shl a b = APInt (bw a) (bv_shl (bw a) (raw a) (raw b));
  ap_lshr_spec a b : appair a b -> ap_lshr a b = APInt (bw a) (bv_lshr (bw a) (raw a) (raw b));
  ap_ashr_spec a b : appair a b -> ap_ashr a b = APInt (bw a) (bv_ashr (bw a) (raw a) (raw b));
  ap_eq_spec a b : appair a b -> ap_eq a b = (raw a =? raw b);
  ap_ult_spec a b : appair a b -> ap_ult a b = (raw a <? raw b);
  ap_ule_spec a b : appair a b -> ap_ule a b = (raw a <=? raw b);
  ap_ugt_spec a b : appair a b -> ap_ugt a b = (raw b <? raw a);
  ap_uge_spec a b : appair a b -> ap_uge a b = (raw b <=? raw a);
  ap_slt_spec a b : appair a b -> ap_slt a b = bv_slt (bw a) (raw a) (raw b);
  ap_sle_spec a b : appair a b -> ap_sle a b = bv_sle (bw a) (raw a) (raw b);
  ap_sgt_spec a b : appair a b -> ap_sgt a b = bv_slt (bw a) (raw b) (raw a);
  ap_sge_spec a b : appair a b -> ap_sge a b = bv_sle (bw a) (raw b) (raw a);
  ap_isMinValue_spec a : apok a -> ap_isMinValue a = (raw a =? 0);
  ap_isAllOnesValue_spec a : apok a -> ap_isAllOnesValue a = (raw a =? 2 ^ bw a - 1);
  ap_getBoolValue_spec a : apok a -> ap_getBoolValue a = negb (raw a =? 0);
  ap_getLimitedValue_spec a n :
    apok a -> inw 64 n -> ap_getLimitedValue a n = Z.min (raw a) n;
  ap_getZExtValue_spec a : apok a -> bw a <= 64 -> ap_getZExtValue a = raw a;
}.

(** ** A computable model of the interface

    The hash is an arbitrary fixed choice. *)
Definition ZOps : APIntOps := {|
  ap_of w v := APInt w (wrap w v);
  ap_hash a := u32 (raw a);
  ap_zext a w := APInt w (raw a);
  ap_zextOrTrunc a w := APInt w (bv_zext (bw a) w (raw a));
  ap_sextOrTrunc a w := APInt w (bv_sext (bw a) w (raw a));
  ap_shl_u a n := APInt (bw a) (bv_shl (bw a) (raw a) n);
  ap_ashr_u a n := APInt (bw a) (bv_ashr (bw a) (raw a) n);
  ap_neg a := APInt (bw a) (bv_neg (bw a) (raw a));
  ap_not a := APInt (bw a) (bv_not (bw a) (raw a));
  ap_add a b := APInt (bw a) (bv_add (bw a) (raw a) (raw b));
  ap_sub a b := APInt (bw a) (bv_sub (bw a) (raw a) (raw b));
  ap_mul a b := APInt (bw a) (bv_mul (bw a) (raw a) (raw b));
  ap_udiv a b :=
    if raw b =? 0 then AssertFail else Ok (APInt (bw a) (bv_udiv (bw a) (raw a) (raw b)));
  ap_sdiv a b :=
    if raw b =? 0 then AssertFail else Ok (APInt (bw a) (bv_sdiv (bw a) (raw a) (raw b)));
  ap_urem a b :=
    if raw b =? 0 then AssertFail else Ok (APInt (bw a) (bv_urem (bw a) (raw a) (raw b)));
  ap_srem a b :=
    if raw b =? 0 then AssertFail else Ok (APInt (bw a) (bv_srem (bw a) (raw a) (raw b)));
  ap_and a b := APInt (bw a) (Z.land (raw a) (raw b));
  ap_or a b := APInt (bw a) (Z.lor (raw a) (raw b));
  ap_xor a b := APInt (bw a) (Z.lxor (raw a) (raw b));
  ap_shl a b := APInt (bw a) (bv_shl (bw a) (raw a) (raw b));
  ap_lshr a b := APInt (bw a) (bv_lshr (bw a) (raw a) (raw b));
  ap_ashr a b := APInt (bw a) (bv_ashr (bw a) (raw a) (raw b));
  ap_eq a b := raw a =? raw b;
  ap_ult a b := raw a <? raw b;
  ap_ule a b := raw a <=? raw b;
  ap_ugt a b := raw b <? raw a;
  ap_uge a b := raw b <=? raw a;
  ap_slt a b := bv_slt (bw a) (raw a) (raw b);
  ap_sle a b := bv_sle (bw a) (raw a) (raw b);
  ap_sgt a b := bv_slt (bw a) (raw b) (raw a);
  ap_sge a b := bv_sle (bw a) (raw b) (raw a);
  ap_isMinValue a := raw a =? 0;
  ap_isAllOnesValue a := raw a =? 2 ^ bw a - 1;
  ap_getBoolValue a := negb (raw a =? 0);
  ap_getLimitedValue a n := Z.min (raw a) n;
  ap_getZExtValue a := raw a;
|}.

#[export] Instance ZOps_spec : APIntSpec ZOps.
Proof. by constructor. Qed.

(** ** The operations stay within the width *)
Section ranges.
Context (w a b : Z) (Hw : 0 < w) (Ha : inw w a) (Hb : inw w b).

Lemma bv_add_inw : inw w (bv_add w a b). Proof. apply wrap_inw; lia. Qed.
Lemma bv_sub_inw : inw w (bv_sub w a b). Proof. apply wrap_inw; lia. Qed.
Lemma bv_mul_inw : inw w (bv_mul w a b). Proof. apply wrap_inw; lia. Qed.
Lemma bv_sdiv_inw : inw w (bv_sdiv w a b). Proof. apply wrap_inw; lia. Qed.
Lemma bv_srem_inw : inw w (bv_srem w a b). Proof. apply wrap_inw; lia. Qed.
Lemma bv_neg_inw : inw w (bv_neg w a). Proof. apply wrap_inw; lia. Qed.
Lemma bv_ashr_inw : inw w (bv_ashr w a b). Proof. apply wrap_inw; lia. Qed.

Lemma bv_udiv_inw : b <> 0 -> inw w (bv_udiv w a b).
Proof.
  intros Hnz. unfold bv_udiv, inw in *. split; [apply Z.div_pos; lia|].
  apply Z.le_lt_trans with a; [|lia]. apply Z.div_le_upper_bound; nia.
Qed.

Lemma bv_urem_inw : b <> 0 -> inw w (bv_urem w a b).
Proof.
  intros Hnz. unfold bv_urem, inw in *. pose proof (Z.mod_pos_bound a b). lia.
Qed.

Lemma bv_not_inw : inw w (bv_not w a).
Proof. unfold bv_not, inw in *. lia. Qed.

Lemma bv_shl_inw : inw w (bv_shl w a b).
Proof. unfold bv_shl. case_match; [apply inw_0|apply wrap_inw]; lia. Qed.

Lemma bv_lshr_inw : inw w (bv_lshr w a b).
Proof.
  unfold bv_lshr. case_match; [apply inw_0; lia|]. unfold inw in *.
  pose proof (pow2_pos b). split; [apply Z.div_pos; lia|].
  apply Z.le_lt_trans with a; [|lia]. apply Z.div_le_upper_bound; nia.
Qed.
End ranges.

#[export] Hint Resolve bv_add_inw bv_sub_inw bv_mul_inw bv_sdiv_inw bv_srem_inw
  bv_neg_inw bv_ashr_inw bv_udiv_inw bv_urem_inw bv_not_inw bv_shl_inw bv_lshr_inw : klee.

(** ** Algebra of wrap-around arithmetic

    [wrap_solve] proves equations between nested wrapped sums, differences and
    negations by pushing every wrap outwards. *)
Lemma wrap_add_l w a b : 0 <= w -> wrap w (wrap w a + b) = wrap w (a + b).
Proof. intros. unfold wrap. by rewrite Zplus_mod_idemp_l. Qed.
Lemma wrap_add_r w a b : 0 <= w -> wrap w (a + wrap w b) = wrap w (a + b).
Proof. intros. unfold wrap. by rewrite Zplus_mod_idemp_r. Qed.
Lemma wrap_sub_l w a b : 0 <= w -> wrap w (wrap w a - b) = wrap w (a - b).
Proof. intros. unfold wrap. by rewrite Zminus_mod_idemp_l. Qed.
Lemma wrap_sub_r w a b : 0 <= w -> wrap w (a - wrap w b) = wrap w (a - b).
Proof. intros. unfold wrap. by rewrite Zminus_mod_idemp_r. Qed.

Ltac wrap_solve :=
  unfold bv_add, bv_sub, bv_neg;
  rewrite ?wrap_add_l, ?wrap_add_r, ?wrap_sub_l, ?wrap_sub_r by lia;
  rewrite ?wrap_add_l, ?wrap_add_r, ?wrap_sub_l, ?wrap_sub_r by lia;
  match goal with |- wrap ?w ?x = wrap ?w ?y => replace y with x by lia; reflexivity end.
