(* ===== verification/ExprData.v ===== *)
(** * Symbolic expressions: data, typing and meaning

    Models [klee/include/klee/Expr.h]: the expression kinds, arrays, update
    lists and the expression classes, with their [getWidth]/[getKid] methods.
    References ([ref<Expr>]) become the trees they point to.  On top of the data
    the file fixes two specification notions used by every theorem: [wf], the
    typing discipline the constructors assert, and [eval], the bit-vector meaning
    of an expression under an assignment of bytes to arrays. *)

From S2P Require Import Prelude APInt.
Local Open Scope Z_scope.

(** ** Expr::Kind *)
Module Kind.
(** The kinds from [BinaryKindFirst = Add] to [BinaryKindLast = Sge]. *)
Inductive bin :=
| Add | Sub | Mul | UDiv | SDiv | URem | SRem
| And | Or | Xor | Shl | LShr | AShr
| Eq | Ne | Ult | Ule | Ugt | Uge | Slt | Sle | Sgt | Sge.

#[export] Instance bin_eq_dec : EqDecision bin.
Proof. solve_decision. Defined.

Inductive t :=
| Constant | NotOptimized | Read | Select | Concat | Extract | ZExt | SExt | Not
| Binary (b : bin).

Definition bin_num (b : bin) : Z :=
  match b with
  | Add => 10 | Sub => 11 | Mul => 12 | UDiv => 13 | SDiv => 14 | URem => 15 | SRem => 16
  | And => 17 | Or => 18 | Xor => 19 | Shl => 20 | LShr => 21 | AShr => 22
  | Eq => 23 | Ne => 24 | Ult => 25 | Ule => 26 | Ugt => 27 | Uge => 28
  | Slt => 29 | Sle => 30 | Sgt => 31 | Sge => 32
  end.

(** The enumerators ([Read = NotOptimized + 2]). *)
Definition num (k : t) : Z :=
  match k with
  | Constant => 0 | NotOptimized => 1 | Read => 3 | Select => 4 | Concat => 5
  | Extract => 6 | ZExt => 7 | SExt => 8 | Not => 9 | Binary b => bin_num b
  end.

(** [CmpExpr::classof]: [CmpKindFirst <= k && k <= CmpKindLast]. *)
Definition isCmp (b : bin) : bool := (23 <=? bin_num b) && (bin_num b <=? 32).

Lemma bin_num_inj a b : bin_num a = bin_num b -> a = b.
Proof. destruct a, b; simpl; congruence. Qed.
End Kind.

(** ** Widths *)
Definition Bool : Z := 1.
Definition Int8 : Z := 8.
Definition Int16 : Z := 16.
Definition Int32 : Z := 32.
Definition Int64 : Z := 64.
Definition Fl80 : Z := 80.
Definition InvalidWidth : Z := 0.

Definition getMinBytesForWidth (w : Z) : Z := u32 (w + 7) / 8.

(** ** Arrays

    [arr_addr] is the address of the [Array] object: arrays are compared by
    identity.  [UFE] and [UFE_Cheat] are indices into the union-find managers. *)
Record Array := {
  arr_addr : Z;
  name : string;
  UFE : nat;
  UFE_Cheat : nat;
  arr_size : Z;
  domain : Z;
  range : Z;
  constantValues : list apint;
}.

#[export] Instance Array_eq_dec : EqDecision Array.
Proof. solve_decision. Defined.

Definition isSymbolicArray (a : Array) : bool :=
  match constantValues a with [] => true | _ => false end.
Definition isConstantArray (a : Array) : bool := negb (isSymbolicArray a).

(** ** Expressions and update nodes *)
Inductive expr : Type :=
| ConstantExpr (value : apint)
| NotOptimizedExpr (src : expr)
| ReadExpr (root : Array) (head : UpdateNode) (index : expr)
| SelectExpr (cond trueExpr falseExpr : expr)
| ConcatExpr (left right : expr)
| ExtractExpr (e : expr) (offset width : Z)
| ZExtExpr (src : expr) (width : Z)
| SExtExpr (src : expr) (width : Z)
| NotExpr (e : expr)
| BinExpr (k : Kind.bin) (left right : expr)
with UpdateNode : Type :=
| NullNode
| Node (next : UpdateNode) (index value : expr).

Scheme expr_mut := Induction for expr Sort Prop
  with UpdateNode_mut := Induction for UpdateNode Sort Prop.
Combined Scheme expr_node_ind from expr_mut, UpdateNode_mut.

(** [UpdateList]: an array and the most recent write to it. *)
Record UpdateList := { ul_root : Array; ul_head : UpdateNode }.

(** [UpdateNode::size], "size of this update sequence, including this update". *)
Fixpoint node_size (un : UpdateNode) : Z :=
  match un with NullNode => 0 | Node next _ _ => 1 + node_size next end.

Definition UpdateList_getSize (ul : UpdateList) : Z := node_size (ul_head ul).

Fixpoint getWidth (e : expr) : Z :=
  match e with
  | ConstantExpr v => bw v
  | NotOptimizedExpr src => getWidth src
  | ReadExpr root _ _ => range root
  | SelectExpr _ t _ => getWidth t
  | ConcatExpr l r => u32 (getWidth l + getWidth r)
  | ExtractExpr _ _ w => w
  | ZExtExpr _ w => w
  | SExtExpr _ w => w
  | NotExpr e => getWidth e
  | BinExpr k l _ => if Kind.isCmp k then Bool else getWidth l
  end.

Definition getKind (e : expr) : Kind.t :=
  match e with
  | ConstantExpr _ => Kind.Constant
  | NotOptimizedExpr _ => Kind.NotOptimized
  | ReadExpr _ _ _ => Kind.Read
  | SelectExpr _ _ _ => Kind.Select
  | ConcatExpr _ _ => Kind.Concat
  | ExtractExpr _ _ _ => Kind.Extract
  | ZExtExpr _ _ => Kind.ZExt
  | SExtExpr _ _ => Kind.SExt
  | NotExpr _ => Kind.Not
  | BinExpr k _ _ => Kind.Binary k
  end.

(** [getNumKids()] and [getKid(i)] at once: the kids in order. *)
Definition kids (e : expr) : list expr :=
  match e with
  | ConstantExpr _ => []
  | NotOptimizedExpr src => [src]
  | ReadExpr _ _ index => [index]
  | SelectExpr c t f => [c; t; f]
  | ConcatExpr l r => [l; r]
  | ExtractExpr e _ _ => [e]
  | ZExtExpr src _ => [src]
  | SExtExpr src _ => [src]
  | NotExpr e => [e]
  | BinExpr _ l r => [l; r]
  end.

Definition getNumKids (e : expr) : Z := Z.of_nat (length (kids e)).
Definition getKid (e : expr) (i : nat) : option expr := kids e !! i.

(** [isa<ConstantExpr>(e)] *)
Definition isConst (e : expr) : bool :=
  match e with ConstantExpr _ => true | _ => false end.

(** ** Typing *)
Definition wf_array (a : Array) : Prop :=
  0 < domain a <= 64 /\ 0 < range a < 2 ^ 32 /\
  0 <= arr_size a < 2 ^ 32 /\ arr_size a <= 2 ^ domain a /\
  (constantValues a = [] \/
   Z.of_nat (length (constantValues a)) = arr_size a /\
   Forall (fun c => apok c /\ bw c = range a) (constantValues a)).

(** The discipline asserted by the constructors of Expr.cpp: positive widths
    that fit an [unsigned], operands of equal width, extracts inside their
    operand, extensions that do not shrink, indices of the array's domain. *)
Fixpoint wf (e : expr) : Prop :=
  match e with
  | ConstantExpr v => apok v
  | NotOptimizedExpr src => wf src
  | ReadExpr root un index =>
      wf_array root /\ wf_node root un /\ wf index /\ getWidth index = domain root
  | SelectExpr c t f =>
      wf c /\ wf t /\ wf f /\ getWidth c = Bool /\ getWidth t = getWidth f
  | ConcatExpr l r => wf l /\ wf r /\ getWidth l + getWidth r < 2 ^ 32
  | ExtractExpr e o w => wf e /\ 0 <= o /\ 0 < w /\ o + w <= getWidth e
  | ZExtExpr src w => wf src /\ getWidth src <= w < 2 ^ 32
  | SExtExpr src w => wf src /\ getWidth src <= w < 2 ^ 32
  | NotExpr e => wf e
  | BinExpr k l r => wf l /\ wf r /\ getWidth l = getWidth r
  end
with wf_node (root : Array) (un : UpdateNode) : Prop :=
  match un with
  | NullNode => True
  | Node next index value =>
      wf_node root next /\ wf index /\ wf value /\
      getWidth index = domain root /\ getWidth value = range root
  end.

(** Typing is decidable. *)
#[export] Instance wf_array_dec a : Decision (wf_array a) := _.

Fixpoint wfb (e : expr) : bool :=
  match e with
  | ConstantExpr v => bool_decide (apok v)
  | NotOptimizedExpr src => wfb src
  | ReadExpr root un index =>
      bool_decide (wf_array root) && wfb_node root un && wfb index &&
      (getWidth index =? domain root)
  | SelectExpr c t f =>
      wfb c && wfb t && wfb f && (getWidth c =? Bool) && (getWidth t =? getWidth f)
  | ConcatExpr l r => wfb l && wfb r && (getWidth l + getWidth r <? 2 ^ 32)
  | ExtractExpr e o w => wfb e && (0 <=? o) && (0 <? w) && (o + w <=? getWidth e)
  | ZExtExpr src w => wfb src && (getWidth src <=? w) && (w <? 2 ^ 32)
  | SExtExpr src w => wfb src && (getWidth src <=? w) && (w <? 2 ^ 32)
  | NotExpr e => wfb e
  | BinExpr k l r => wfb l && wfb r && (getWidth l =? getWidth r)
  end
with wfb_node (root : Array) (un : UpdateNode) : bool :=
  match un with
  | NullNode => true
  | Node next index value =>
      wfb_node root next && wfb index && wfb value &&
      (getWidth index =? domain root) && (getWidth value =? range root)
  end.

Lemma wfb_spec_mut :
  (forall e, wfb e = true <-> wf e) /\
  (forall un root, wfb_node root un = true <-> wf_node root un).
Proof.
  apply expr_node_ind; intros; cbn [wf wfb wf_node wfb_node];
    rewrite ?andb_true_iff, ?Z.eqb_eq, ?Z.ltb_lt, ?Z.leb_le, ?bool_decide_eq_true;
    repeat match goal with H : forall root, wfb_node root _ = true <-> _ |- _ => rewrite H; clear H
           | H : wfb _ = true <-> _ |- _ => rewrite H; clear H end; tauto.
Qed.

#[export] Instance wf_dec e : Decision (wf e).
Proof.
  refine (cast_if (decide (wfb e = true))); abstract (by rewrite <- (proj1 wfb_spec_mut e)).
Defined.
#[export] Instance wf_node_dec root un : Decision (wf_node root un).
Proof.
  refine (cast_if (decide (wfb_node root un = true)));
    abstract (by rewrite <- (proj2 wfb_spec_mut un root)).
Defined.

(** ** Options of the command line that change what the engine does *)
Class Config := {
  ConstArrayOpt : bool;       (* -const-array-opt, Expr.cpp *)
  UseVisitorHash : bool;      (* -use-visitor-hash, ExprVisitor.cpp *)
  RewriteEqualities : bool;   (* -rewrite-equalities, Constraints.cpp *)
  useUF : bool;               (* Constraints.cpp *)
}.

(** The defaults of the sources. *)
Definition default_config : Config := {|
  ConstArrayOpt := false; UseVisitorHash := true;
  RewriteEqualities := true; useUF := true |}.

(** ** Meaning

    An environment gives every array its initial bytes.  Reading a constant
    array outside its bounds yields an unconstrained value, except that
    [-const-array-opt] takes such reads not to happen; a division by zero has
    no value. *)
Definition env := Array -> Z -> Z.

Definition sem_bin (k : Kind.bin) (w a b : Z) : option Z :=
  match k with
  | Kind.Add => Some (bv_add w a b)
  | Kind.Sub => Some (bv_sub w a b)
  | Kind.Mul => Some (bv_mul w a b)
  | Kind.UDiv => if b =? 0 then None else Some (bv_udiv w a b)
  | Kind.SDiv => if b =? 0 then None else Some (bv_sdiv w a b)
  | Kind.URem => if b =? 0 then None else Some (bv_urem w a b)
  | Kind.SRem => if b =? 0 then None else Some (bv_srem w a b)
  | Kind.And => Some (Z.land a b)
  | Kind.Or => Some (Z.lor a b)
  | Kind.Xor => Some (Z.lxor a b)
  | Kind.Shl => Some (bv_shl w a b)
  | Kind.LShr => Some (bv_lshr w a b)
  | Kind.AShr => Some (bv_ashr w a b)
  | Kind.Eq => Some (Z.b2z (a =? b))
  | Kind.Ne => Some (Z.b2z (negb (a =? b)))
  | Kind.Ult => Some (Z.b2z (a <? b))
  | Kind.Ule => Some (Z.b2z (a <=? b))
  | Kind.Ugt => Some (Z.b2z (b <? a))
  | Kind.Uge => Some (Z.b2z (b <=? a))
  | Kind.Slt => Some (Z.b2z (bv_slt w a b))
  | Kind.Sle => Some (Z.b2z (bv_sle w a b))
  | Kind.Sgt => Some (Z.b2z (bv_slt w b a))
  | Kind.Sge => Some (Z.b2z (bv_sle w b a))
  end.

(** Width of the result of a binary operation on [w]-bit operands. *)
Definition bin_width (k : Kind.bin) (w : Z) : Z := if Kind.isCmp k then Bool else w.

(** Meaning of the remaining constructors on values. *)
Definition sem_concat (wr a b : Z) : Z := a * 2 ^ wr + b.
Definition sem_extract (o w a : Z) : Z := wrap w (a / 2 ^ o).
Definition sem_select (c t f : Z) : Z := if c =? 0 then f else t.

Section eval.
Context {CFG : Config}.
Variable rho : env.

Definition initial (a : Array) (i : Z) : option Z :=
  if isSymbolicArray a then Some (wrap (range a) (rho a i))
  else if i <? arr_size a then raw <$> constantValues a !! Z.to_nat i
  else if ConstArrayOpt then None
  else Some (wrap (range a) (rho a i)).

Fixpoint eval (e : expr) : option Z :=
  match e with
  | ConstantExpr v => Some (raw v)
  | NotOptimizedExpr src => eval src
  | ReadExpr root un index => i ← eval index; eval_node root un i
  | SelectExpr c t f =>
      vc ← eval c; vt ← eval t; vf ← eval f; Some (sem_select vc vt vf)
  | ConcatExpr l r => a ← eval l; b ← eval r; Some (sem_concat (getWidth r) a b)
  | ExtractExpr e o w => a ← eval e; Some (sem_extract o w a)
  | ZExtExpr src w => a ← eval src; Some (bv_zext (getWidth src) w a)
  | SExtExpr src w => a ← eval src; Some (bv_sext (getWidth src) w a)
  | NotExpr e => a ← eval e; Some (bv_not (getWidth e) a)
  | BinExpr k l r => a ← eval l; b ← eval r; sem_bin k (getWidth l) a b
  end
with eval_node (root : Array) (un : UpdateNode) (i : Z) : option Z :=
  match un with
  | NullNode => initial root i
  | Node next index value =>
      j ← eval index; if j =? i then eval value else eval_node root next i
  end.
Lemma eval_node_inv root next index value i v :
  eval_node root (Node next index value) i = Some v ->
  exists j, eval index = Some j /\
    (if j =? i then eval value else eval_node root next i) = Some v.
Proof. simpl. intros H. by apply bind_Some_inv in H. Qed.
End eval.

(** ** Widths are positive and values fit them *)
Lemma wf_width e : wf e -> 0 < getWidth e < 2 ^ 32.
Proof.
  induction e; simpl; intros H; repeat match goal with H : _ /\ _ |- _ => destruct H end;
    unfold apok, wf_array, u32, wrap, Bool in *; try tauto; try lia.
  - rewrite Z.mod_small; intuition lia.
  - specialize (IHe ltac:(assumption)); lia.
  - specialize (IHe ltac:(assumption)); lia.
  - specialize (IHe ltac:(assumption)); lia.
  - case_match; intuition lia.
Qed.

Lemma getWidth_concat l r :
  wf (ConcatExpr l r) -> getWidth (ConcatExpr l r) = getWidth l + getWidth r.
Proof.
  intros (Hl & Hr & Hs). simpl. apply u32_small.
  pose proof (wf_width l Hl). pose proof (wf_width r Hr). lia.
Qed.

Lemma sem_bin_inw k w a b v :
  0 < w -> inw w a -> inw w b -> sem_bin k w a b = Some v -> inw (bin_width k w) v.
Proof.
  intros Hw Ha Hb.
  destruct k; simpl; unfold bin_width; simpl; try case_match; intros; inv_option; bool_to_prop;
    auto with klee; try (apply b2z_inw; unfold Bool; lia);
    first [apply land_inw|apply lor_inw|apply lxor_inw]; auto; lia.
Qed.

Lemma sem_concat_inw wl wr a b :
  0 <= wl -> 0 <= wr -> inw wl a -> inw wr b -> inw (wl + wr) (sem_concat wr a b).
Proof. unfold inw, sem_concat. intros. rewrite pow2_split by lia. nia. Qed.

Lemma sem_select_inw w c t f : inw w t -> inw w f -> inw w (sem_select c t f).
Proof. intros. unfold sem_select. by case_match. Qed.
#[export] Hint Resolve sem_concat_inw sem_select_inw : klee.

Section eval_range.
Context {CFG : Config} (rho : env).

Lemma initial_inw a i v :
  wf_array a -> 0 <= i -> initial rho a i = Some v -> inw (range a) v.
Proof.
  intros (_ & Hr & _ & _ & Hc) Hi. unfold initial, isSymbolicArray.
  destruct (constantValues a) as [|c cs] eqn:E.
  - intros [= <-]. apply wrap_inw; lia.
  - destruct Hc as [?|[_ Hc]]; [done|]. case_match.
    + intros (x & Hx & ->)%fmap_Some. eapply Forall_lookup_1 in Hc; [|done].
      destruct Hc as [[_ Hc] <-]. done.
    + case_match; [done|]. intros [= <-]. apply wrap_inw; lia.
Qed.

Lemma eval_inw_mut :
  (forall e, wf e -> forall v, eval rho e = Some v -> inw (getWidth e) v) /\
  (forall un root i v, wf_array root -> wf_node root un -> 0 <= i ->
     eval_node rho root un i = Some v -> inw (range root) v).
Proof.
  apply expr_node_ind; simpl.
  - intros v [_ H] ? [= <-]. done.
  - auto.
  - intros root un IHun idx IHi (Ha & Hn & Hi & Hd) v H. inv_option.
    apply IHi in H; [|done]. eapply IHun; eauto. apply H.
  - intros c IHc t IHt f IHf (Hc & Ht & Hf & _ & Hw) v H. inv_option.
    apply sem_select_inw; [eauto|rewrite Hw; eauto].
  - intros l IHl r IHr H v Hv. pose proof (getWidth_concat l r H) as E. simpl in E. rewrite E.
    destruct H as (Hl & Hr & _). inv_option.
    pose proof (wf_width l Hl). pose proof (wf_width r Hr).
    apply sem_concat_inw; eauto; lia.
  - intros e _ o w (_ & _ & Hpos & _) v Hv. inv_option. apply wrap_inw; lia.
  - intros e _ w (Hw & Hle) v Hv. inv_option. pose proof (wf_width e Hw). apply wrap_inw; lia.
  - intros e _ w (Hw & Hle) v Hv. inv_option. pose proof (wf_width e Hw). apply wrap_inw; lia.
  - intros e IH Hw v H. inv_option. pose proof (wf_width e Hw). apply bv_not_inw; eauto; lia.
  - intros k l IHl r IHr (Hl & Hr & E) v H. inv_option. pose proof (wf_width l Hl).
    eapply (sem_bin_inw k (getWidth l)); [lia|eauto|rewrite E; eauto|eassumption].
  - intros root i v Ha _ Hi Hv. by eapply initial_inw.
  - intros next IHn idx IHi val IHv root i v Ha (Hn & Hi & Hv & _ & E) Hi0 H. inv_option.
    case_match; [|eauto]. rewrite <- E. eauto.
Qed.

(** A well-typed expression evaluates to a pattern of its width. *)
Lemma eval_inw e v : wf e -> eval rho e = Some v -> inw (getWidth e) v.
Proof. intros. by apply eval_inw_mut. Qed.
End eval_range.
#[export] Hint Resolve eval_inw : klee.
