(* ===== verification/Samples.v ===== *)
(** * Sample expressions

    Concrete arrays and expressions on which the theorems of the development are
    instantiated, and the tactic that discharges their typing by computation. *)

From S2P Require Import Prelude APInt ExprData.
Local Open Scope Z_scope.

(** A symbolic buffer of eight bytes and a constant table of four. *)
Definition buf : Array := {|
  arr_addr := 4096; name := "buf"; UFE := 0; UFE_Cheat := 0;
  arr_size := 8; domain := Int32; range := Int8; constantValues := [] |}.
Definition table : Array := {|
  arr_addr := 8192; name := "table"; UFE := 1; UFE_Cheat := 1;
  arr_size := 4; domain := Int32; range := Int8;
  constantValues := [APInt Int8 7; APInt Int8 11; APInt Int8 7; APInt Int8 13] |}.

Definition cst (w v : Z) : expr := ConstantExpr (APInt w v).
Definition byte (i : Z) : expr := ReadExpr buf NullNode (cst Int32 i).
Definition flag : expr := BinExpr Kind.Eq (cst Int8 0) (byte 1).

(** Closes typing and side conditions about closed terms. *)
Ltac concrete := first [apply (bool_decide_unpack _); vm_compute; exact I|vm_compute; reflexivity].

(** The assignment whose arrays hold [i mod 256] at index [i]. *)
Definition ramp : env := fun _ i => i mod 256.
