(* ===== verification/Bits.v ===== *)
(** * Bit utilities: Bits.h, BitArray.h and IntEvaluation.h

    [Module bits32]/[Module bits64] model the two namespaces of
    [klee/util/Bits.h], [Module BitArray] the packed bit vector of
    [klee/util/BitArray.h] and [Module ints] the 64-bit evaluation functions of
    [klee/Internal/Support/IntEvaluation.h]. *)

From S2P Require Import Prelude APInt ExprData.
Local Open Scope Z_scope.

(** ** The lowest set bit

    A positive number is an odd number shifted left by the index of its lowest
    set bit; the two lemmas read off its bits and those of its predecessor. *)
Lemma testbit_odd_shift k m n :
  0 <= k -> 0 <= n ->
  Z.testbit ((2 * m + 1) * 2 ^ k) n =
    if n <? k then false else if n =? k then true else Z.testbit m (n - k - 1).
Proof.
  intros Hk Hn. rewrite <- Z.shiftl_mul_pow2 by lia.
  destruct (Z.ltb_spec n k); [by apply Z.shiftl_spec_low|].
  rewrite Z.shiftl_spec by lia. destruct (Z.eqb_spec n k) as [->|].
  - by rewrite Z.sub_diag, Z.testbit_odd_0.
  - replace (n - k) with (Z.succ (n - k - 1)) at 1 by lia. by rewrite Z.testbit_odd_succ by lia.
Qed.

Lemma testbit_odd_shift_pred k m n :
  0 <= k -> 0 <= n ->
  Z.testbit ((2 * m + 1) * 2 ^ k - 1) n =
    if n <? k then true else if n =? k then false else Z.testbit m (n - k - 1).
Proof.
  intros Hk Hn. pose proof (pow2_pos k Hk).
  replace ((2 * m + 1) * 2 ^ k - 1) with ((2 ^ k - 1) + (2 * m) * 2 ^ k) by lia.
  destruct (Z.ltb_spec n k).
  - rewrite <- (Z.mod_pow2_bits_low _ k n), Z_mod_plus_full, Z.mod_small by lia.
    rewrite Z.sub_1_r, <- Z.ones_equiv. apply Z.ones_spec_low. lia.
  - replace n with ((n - k) + k) at 1 by lia.
    rewrite <- Z.div_pow2_bits, Z_div_plus_full, Z.div_small by lia. rewrite Z.add_0_l.
    destruct (Z.eqb_spec n k) as [->|]; [by rewrite Z.sub_diag, Z.testbit_even_0|].
    replace (n - k) with (Z.succ (n - k - 1)) at 1 by lia. by rewrite Z.testbit_even_succ by lia.
Qed.

(** Every positive number is an odd number shifted by the index of its lowest set bit. *)
Lemma odd_pow2_decomposition x :
  0 < x -> exists k m, 0 <= k /\ 0 <= m /\ x = (2 * m + 1) * 2 ^ k.
Proof.
  induction x as [x IH] using (well_founded_induction (Z.lt_wf 0)). intros Hx.
  destruct (Z.Even_or_Odd x) as [[y Hy]|[y Hy]].
  - destruct (IH y) as (k & m & Hk & Hm & E); [lia|lia|].
    exists (k + 1), m. rewrite pow2_split by lia. change (2 ^ 1) with 2. nia.
  - exists 0, y. change (2 ^ 0) with 1. lia.
Qed.

Lemma clear_rightmost w k m :
  0 <= w -> 0 <= k -> 0 <= m -> (2 * m + 1) * 2 ^ k < 2 ^ w ->
  Z.land ((2 * m + 1) * 2 ^ k) (wrap w ((2 * m + 1) * 2 ^ k - 1)) = 2 * m * 2 ^ k.
Proof.
  intros Hw Hk Hm Hx. pose proof (pow2_pos k Hk).
  rewrite wrap_small by (unfold inw; nia). apply Z.bits_inj'. intros n Hn.
  rewrite Z.land_spec, testbit_odd_shift, testbit_odd_shift_pred by lia.
  rewrite <- Z.shiftl_mul_pow2 by lia. destruct (Z.ltb_spec n k); simpl.
  - by rewrite Z.shiftl_spec_low.
  - rewrite Z.shiftl_spec by lia. destruct (Z.eqb_spec n k) as [->|]; simpl.
    + by rewrite Z.sub_diag, Z.testbit_even_0.
    + replace (n - k) with (Z.succ (n - k - 1)) at 3 by lia.
      rewrite Z.testbit_even_succ by lia. by rewrite andb_diag.
Qed.

Lemma isolate_rightmost w k m :
  0 <= w -> 0 <= k -> 0 <= m -> (2 * m + 1) * 2 ^ k < 2 ^ w ->
  Z.land ((2 * m + 1) * 2 ^ k) (wrap w (- ((2 * m + 1) * 2 ^ k))) = 2 ^ k.
Proof.
  intros Hw Hk Hm Hx. pose proof (pow2_pos k Hk). unfold wrap.
  rewrite <- (Z.land_ones (- _) w) by lia. rewrite (Z.land_comm (- _)), Z.land_assoc.
  rewrite Z.land_ones, Z.mod_small by nia.
  replace (- ((2 * m + 1) * 2 ^ k)) with (Z.lnot ((2 * m + 1) * 2 ^ k - 1))
    by (unfold Z.lnot; lia).
  apply Z.bits_inj'. intros n Hn.
  rewrite Z.land_spec, Z.lnot_spec, testbit_odd_shift, testbit_odd_shift_pred, Z.pow2_bits_eqb by lia.
  destruct (Z.ltb_spec n k), (Z.eqb_spec n k), (Z.eqb_spec k n); simpl; try lia; try done.
  apply andb_negb_r.
Qed.

(** Bounds on the decomposition of a [w]-bit word. *)
Lemma rightmost_lt w k m : 0 <= k -> 0 <= m -> (2 * m + 1) * 2 ^ k < 2 ^ w -> k < w.
Proof.
  intros Hk Hm Hx. pose proof (pow2_pos k Hk). destruct (Z.lt_ge_cases k w); [done|].
  destruct (Z.lt_ge_cases w 0); [rewrite (Z.pow_neg_r 2 w) in Hx by lia; nia|].
  pose proof (pow2_le w k). nia.
Qed.

(** [x & (x-1) == 0] characterises powers of two. *)
Lemma clear_rightmost_zero w x :
  0 <= w -> 0 < x < 2 ^ w ->
  (Z.land x (wrap w (x - 1)) = 0 <-> exists k, 0 <= k < w /\ x = 2 ^ k).
Proof.
  intros Hw Hx. destruct (odd_pow2_decomposition x) as (k & m & Hk & Hm & ->); [lia|].
  pose proof (pow2_pos k Hk). rewrite clear_rightmost by lia. split.
  - intros E. exists k. assert (k < w) by (apply (rightmost_lt w k m); lia). nia.
  - intros (j & Hj & E). destruct (Z.eq_dec m 0) as [->|]; [lia|exfalso].
    destruct (Z.lt_trichotomy j k) as [?|[->|?]].
    + pose proof (Z.pow_lt_mono_r 2 j k). nia.
    + nia.
    + replace j with ((j - k - 1) + 1 + k) in E by lia. rewrite !pow2_split in E by lia.
      change (2 ^ 1) with 2 in E. apply Z.mul_reg_r in E; lia.
Qed.

Module bits32.
Definition maxValueOfNBits (N : Z) : result Z :=
  _ ← massert (N <=? 32);
  if N =? 0 then Ok 0 else Ok (Z.shiftr (u32 (-1)) (32 - N)).

Definition truncateToNBits (x N : Z) : result Z :=
  _ ← massert ((0 <? N) && (N <=? 32));
  Ok (Z.land x (Z.shiftr (u32 (-1)) (32 - N))).

Definition withoutRightmostBit (x : Z) : Z := Z.land x (u32 (x - 1)).

Definition isolateRightmostBit (x : Z) : Z := Z.land x (u32 (- x)).

Definition isPowerOfTwo (x : Z) : bool :=
  if x =? 0 then false else Z.land x (u32 (x - 1)) =? 0.

Definition indexOfSingleBit (x : Z) : result Z :=
  _ ← massert (withoutRightmostBit x =? 0);
  let res := (if Z.land x 0xFFFF0000 =? 0 then 0 else 16)
           + (if Z.land x 0xFF00FF00 =? 0 then 0 else 8)
           + (if Z.land x 0xF0F0F0F0 =? 0 then 0 else 4)
           + (if Z.land x 0xCCCCCCCC =? 0 then 0 else 2)
           + (if Z.land x 0xAAAAAAAA =? 0 then 0 else 1) in
  _ ← massert (res <? 32);
  _ ← massert (u32 (Z.shiftl 1 res) =? x);
  Ok res.

Definition indexOfRightmostBit (x : Z) : result Z :=
  indexOfSingleBit (isolateRightmostBit x).
End bits32.

Module bits64.
Definition maxValueOfNBits (N : Z) : result Z :=
  _ ← massert (N <=? 64);
  if N =? 0 then Ok 0 else Ok (Z.shiftr (u64 (-1)) (64 - N)).

Definition truncateToNBits (x N : Z) : result Z :=
  _ ← massert ((0 <? N) && (N <=? 64));
  Ok (Z.land x (Z.shiftr (u64 (-1)) (64 - N))).

Definition withoutRightmostBit (x : Z) : Z := Z.land x (u64 (x - 1)).

Definition isolateRightmostBit (x : Z) : Z := Z.land x (u64 (- x)).

Definition isPowerOfTwo (x : Z) : bool :=
  if x =? 0 then false else Z.land x (u64 (x - 1)) =? 0.

Definition indexOfSingleBit (x : Z) : result Z :=
  _ ← massert (Z.land x (u64 (x - 1)) =? 0);
  res0 ← bits32.indexOfSingleBit (u32 (Z.lor x (Z.shiftr x 32)));
  let res := if Z.land x (u64 (Z.shiftl 0xFFFFFFFF 32)) =? 0 then res0 else res0 + 32 in
  _ ← massert (res <? 64);
  _ ← massert (u64 (Z.shiftl 1 res) =? x);
  Ok res.

Definition indexOfRightmostBit (x : Z) : result Z :=
  indexOfSingleBit (isolateRightmostBit x).

Lemma ones_shiftr N : 0 < N <= 64 -> Z.shiftr (u64 (-1)) (64 - N) = 2 ^ N - 1.
Proof.
  intros HN. change (u64 (-1)) with (Z.ones 64).
  rewrite Z.shiftr_div_pow2, Z.ones_div_pow2 by lia.
  rewrite Z.ones_equiv, <- Z.sub_1_r. replace (64 - (64 - N)) with N by lia. done.
Qed.

Lemma truncateToNBits_eq x N :
  0 < N <= 64 -> truncateToNBits x N = Ok (wrap N x).
Proof.
  intros HN. unfold truncateToNBits.
  rewrite massert_true by (apply andb_true_iff; split; [apply Z.ltb_lt|apply Z.leb_le]; lia).
  simpl. by rewrite ones_shiftr, land_ones_wrap by lia.
Qed.

(** The sixty-four single-bit words, checked one by one. *)
Lemma indexOfSingleBit_pow2 k : 0 <= k < 64 -> indexOfSingleBit (2 ^ k) = Ok k.
Proof.
  intros Hk.
  pose (test n := match indexOfSingleBit (2 ^ n) with Ok r => r =? n | _ => false end).
  assert (H : test k = true) by (apply (forallb_below test 64); [by vm_compute|lia]).
  unfold test in H. destruct (indexOfSingleBit (2 ^ k)); try done. apply Z.eqb_eq in H. by subst.
Qed.

Lemma isPowerOfTwo_spec x :
  inw 64 x -> isPowerOfTwo x = true <-> exists k, 0 <= k < 64 /\ x = 2 ^ k.
Proof.
  intros Hx. unfold isPowerOfTwo. destruct (Z.eqb_spec x 0) as [->|].
  - split; [done|]. intros (k & Hk & E). pose proof (pow2_pos k). lia.
  - rewrite Z.eqb_eq. apply clear_rightmost_zero; unfold inw in Hx; lia.
Qed.

(** What [indexOfRightmostBit] returns divides the word, twice it does not. *)
Lemma indexOfRightmostBit_spec x :
  0 < x < 2 ^ 64 ->
  exists k, indexOfRightmostBit x = Ok k /\ 0 <= k < 64 /\ (2 ^ k | x) /\ ~ (2 ^ (k + 1) | x).
Proof.
  intros Hx. destruct (odd_pow2_decomposition x) as (k & m & Hk & Hm & ->); [lia|].
  assert (k < 64) by (apply (rightmost_lt 64 k m); lia). pose proof (pow2_pos k Hk).
  exists k. unfold indexOfRightmostBit, isolateRightmostBit, u64.
  rewrite isolate_rightmost, indexOfSingleBit_pow2 by lia.
  split_and!; [done|lia|lia|by exists (2 * m + 1)|].
  intros [z Hz]. rewrite pow2_split in Hz by lia. change (2 ^ 1) with 2 in Hz.
  assert (E : 2 * m + 1 = z * 2) by (apply (Z.mul_reg_r _ _ (2 ^ k)); lia). lia.
Qed.
End bits64.

Lemma maxValueOfNBits_eq n : 0 <= n <= 64 -> bits64.maxValueOfNBits n = Ok (2 ^ n - 1).
Proof.
  intros Hn. unfold bits64.maxValueOfNBits. rewrite massert_true by (apply Z.leb_le; lia). cbn [mbind result_bind].
  destruct (Z.eqb_spec n 0) as [->|]; [done|]. by rewrite bits64.ones_shiftr by lia.
Qed.

(** ** BitArray.h: a vector of bits packed in 32-bit words

    Reading or writing outside the allocated words is undefined in C++; the
    model answers [None]. *)
Module BitArray.
Definition length (size : Z) : Z := u32 (size + 31) / 32.

Definition create (size : Z) (value : bool) : list Z :=
  replicate (Z.to_nat (length size)) (if value then u32 (-1) else 0).

Definition copy (b : list Z) (size : Z) : option (list Z) :=
  if Z.of_nat (List.length b) <? length size then None
  else Some (take (Z.to_nat (length size)) b).

Definition get (bits : list Z) (idx : Z) : option bool :=
  w ← bits !! Z.to_nat (idx / 32);
  Some (negb (Z.land (Z.shiftr w (Z.land idx 0x1F)) 1 =? 0)).

Definition set (bits : list Z) (idx : Z) : option (list Z) :=
  w ← bits !! Z.to_nat (idx / 32);
  Some (<[Z.to_nat (idx / 32) := Z.lor w (u32 (Z.shiftl 1 (Z.land idx 0x1F)))]> bits).

Definition unset (bits : list Z) (idx : Z) : option (list Z) :=
  w ← bits !! Z.to_nat (idx / 32);
  Some (<[Z.to_nat (idx / 32) :=
            Z.land w (u32 (Z.lnot (u32 (Z.shiftl 1 (Z.land idx 0x1F)))))]> bits).

Definition set_to (bits : list Z) (idx : Z) (value : bool) : option (list Z) :=
  if value then set bits idx else unset bits idx.

(** The words hold 32-bit patterns. *)
Definition ok (bits : list Z) : Prop := Forall (inw 32) bits.

Lemma land31 i : Z.land i 0x1F = i mod 32.
Proof. change 0x1F with (Z.ones 5). by rewrite Z.land_ones. Qed.

Lemma get_testbit bits idx w :
  bits !! Z.to_nat (idx / 32) = Some w -> 
  get bits idx = Some (Z.testbit w (idx mod 32)).
Proof.
  intros E. unfold get. rewrite E, land31. simpl. f_equal.
  assert (0 <= idx mod 32 < 32) by (apply Z.mod_pos_bound; lia).
  change 1 with (Z.ones 1) at 1. rewrite Z.land_ones, <- Z.bit0_mod, Z.shiftr_spec by lia.
  rewrite Z.add_0_l. by destruct (Z.testbit w _).
Qed.

(** The word written by [set_to] differs from the old one in one bit. *)
Lemma set_to_lookup bits idx v bits' :
  ok bits -> 0 <= idx -> set_to bits idx v = Some bits' ->
  exists w w', bits !! Z.to_nat (idx / 32) = Some w /\ inw 32 w' /\
    bits' = <[Z.to_nat (idx / 32) := w']> bits /\
    forall n, 0 <= n < 32 -> Z.testbit w' n = if n =? idx mod 32 then v else Z.testbit w n.
Proof.
  intros Hok Hi. assert (Hm : 0 <= idx mod 32 < 32) by (apply Z.mod_pos_bound; lia).
  assert (Hb : u32 (Z.shiftl 1 (idx mod 32)) = 2 ^ (idx mod 32)).
  { rewrite Z.shiftl_mul_pow2, Z.mul_1_l by lia. apply u32_small.
    pose proof (pow2_pos (idx mod 32)). pose proof (Z.pow_lt_mono_r 2 (idx mod 32) 32). lia. }
  unfold set_to, set, unset. rewrite !land31, Hb.
  destruct v; intros H; inv_option; pose proof (Forall_lookup_1 _ _ _ _ Hok H) as Hw;
    eexists _, _; (split_and!; [done| |reflexivity|]).
  - apply lor_inw; [lia|done|]. split; [apply pow2_pos'|]. apply Z.pow_lt_mono_r; lia.
  - intros n Hn. rewrite Z.lor_spec, Z.pow2_bits_eqb by lia. rewrite Z.eqb_sym.
    case_match; [by rewrite orb_true_r|by rewrite orb_false_r].
  - apply land_inw; [lia|done|]. apply wrap_inw; lia.
  - intros n Hn. unfold u32, wrap.
    rewrite Z.land_spec, Z.mod_pow2_bits_low, Z.lnot_spec, Z.pow2_bits_eqb by lia.
    rewrite Z.eqb_sym. case_match; simpl; [by rewrite andb_false_r|by rewrite andb_true_r].
Qed.

Lemma set_to_ok bits idx v bits' :
  ok bits -> 0 <= idx -> set_to bits idx v = Some bits' -> ok bits'.
Proof.
  intros Hok Hi H. destruct (set_to_lookup _ _ _ _ Hok Hi H) as (w & w' & E & Hw & -> & _).
  by apply Forall_insert.
Qed.

Lemma set_to_get bits idx v bits' j :
  ok bits -> 0 <= idx -> 0 <= j -> set_to bits idx v = Some bits' ->
  get bits' j = if j =? idx then Some v else get bits j.
Proof.
  intros Hok Hi Hj H. destruct (set_to_lookup _ _ _ _ Hok Hi H) as (w & w' & E & Hw & -> & Hbit).
  pose proof (Z.div_mod idx 32). pose proof (Z.div_mod j 32).
  assert (0 <= j mod 32 < 32) by (apply Z.mod_pos_bound; lia).
  assert (0 <= j / 32 /\ 0 <= idx / 32) by (split; apply Z.div_pos; lia).
  destruct (Z.eq_dec (j / 32) (idx / 32)) as [Eq|Ne].
  - rewrite (get_testbit _ j w') by (rewrite Eq; by apply list_lookup_insert_eq, lookup_lt_Some with w).
    rewrite (get_testbit bits j w) by (by rewrite Eq). rewrite Hbit by done.
    destruct (Z.eqb_spec (j mod 32) (idx mod 32)), (Z.eqb_spec j idx); try done; lia.
  - destruct (Z.eqb_spec j idx) as [->|]; [done|].
    unfold get. rewrite list_lookup_insert_ne; [done|]. lia.
Qed.

Lemma create_get size v i :
  0 <= i < size -> size + 31 < 2 ^ 32 -> get (create size v) i = Some v.
Proof.
  intros Hi Hs. assert (Hd : i / 32 < (size + 31) / 32).
  { apply Z.lt_le_trans with ((i + 32) / 32); [|apply Z.div_le_mono; lia].
    replace (i + 32) with (i + 1 * 32) by lia. rewrite Z.div_add by lia. lia. }
  assert (0 <= i / 32) by (apply Z.div_pos; lia).
  assert (0 <= i mod 32 < 32) by (apply Z.mod_pos_bound; lia).
  erewrite get_testbit.
  2:{ unfold create, length. rewrite u32_small by lia. apply lookup_replicate_2. lia. }
  f_equal. destruct v; [|apply Z.bits_0].
  change (u32 (-1)) with (Z.ones 32). apply Z.ones_spec_low. lia.
Qed.
End BitArray.

(** ** IntEvaluation.h: operations on values kept in 64 bits *)
Module ints.
Definition MAX_BITS : Z := 64.

Definition add (l r inWidth : Z) : result Z := bits64.truncateToNBits (u64 (l + r)) inWidth.
Definition sub (l r inWidth : Z) : result Z := bits64.truncateToNBits (u64 (l - r)) inWidth.
Definition mul (l r inWidth : Z) : result Z := bits64.truncateToNBits (u64 (l * r)) inWidth.
Definition trunc (l outWidth inWidth : Z) : result Z := bits64.truncateToNBits l outWidth.
Definition zext (l outWidth inWidth : Z) : result Z := Ok l.

Definition sext (l outWidth inWidth : Z) : result Z :=
  let numInvalidBits := u32 (MAX_BITS - inWidth) in
  bits64.truncateToNBits
    (u64 (Z.shiftr (sgn 64 (u64 (Z.shiftl l numInvalidBits))) numInvalidBits)) outWidth.

Definition udiv (l r inWidth : Z) : result Z := bits64.truncateToNBits (l / r) inWidth.
Definition urem (l r inWidth : Z) : result Z := bits64.truncateToNBits (l mod r) inWidth.

(** [int64_t sl = sext(l, MAX_BITS, inWidth)] *)
Definition as_int64 (l inWidth : Z) : result Z := sgn 64 <$> sext l MAX_BITS inWidth.

Definition sdiv (l r inWidth : Z) : result Z :=
  sl ← as_int64 l inWidth; sr ← as_int64 r inWidth;
  bits64.truncateToNBits (u64 (Z.quot sl sr)) inWidth.
Definition srem (l r inWidth : Z) : result Z :=
  sl ← as_int64 l inWidth; sr ← as_int64 r inWidth;
  bits64.truncateToNBits (u64 (Z.rem sl sr)) inWidth.
Definition ashr (l shift inWidth : Z) : result Z :=
  sl ← as_int64 l inWidth; bits64.truncateToNBits (u64 (Z.shiftr sl shift)) inWidth.
Definition lshr (l shift inWidth : Z) : result Z := Ok (Z.shiftr l shift).
Definition shl (l shift inWidth : Z) : result Z :=
  bits64.truncateToNBits (u64 (Z.shiftl l shift)) inWidth.
Definition land (l r inWidth : Z) : result Z := Ok (Z.land l r).
Definition lor (l r inWidth : Z) : result Z := Ok (Z.lor l r).
Definition lxor (l r inWidth : Z) : result Z := Ok (Z.lxor l r).
Definition eq (l r inWidth : Z) : result Z := Ok (Z.b2z (l =? r)).
Definition ne (l r inWidth : Z) : result Z := Ok (Z.b2z (negb (l =? r))).
Definition ult (l r inWidth : Z) : result Z := Ok (Z.b2z (l <? r)).
Definition ule (l r inWidth : Z) : result Z := Ok (Z.b2z (l <=? r)).
Definition ugt (l r inWidth : Z) : result Z := Ok (Z.b2z (r <? l)).
Definition uge (l r inWidth : Z) : result Z := Ok (Z.b2z (r <=? l)).
Definition scmp (cmp : Z -> Z -> bool) (l r inWidth : Z) : result Z :=
  sl ← as_int64 l inWidth; sr ← as_int64 r inWidth; Ok (Z.b2z (cmp sl sr)).
Definition slt : Z -> Z -> Z -> result Z := scmp (fun a b => a <? b).
Definition sle : Z -> Z -> Z -> result Z := scmp (fun a b => a <=? b).
Definition sgt : Z -> Z -> Z -> result Z := scmp (fun a b => b <? a).
Definition sge : Z -> Z -> Z -> result Z := scmp (fun a b => b <=? a).

(** The function of each binary kind. *)
Definition op (k : Kind.bin) : Z -> Z -> Z -> result Z :=
  match k with
  | Kind.Add => add | Kind.Sub => sub | Kind.Mul => mul
  | Kind.UDiv => udiv | Kind.SDiv => sdiv | Kind.URem => urem | Kind.SRem => srem
  | Kind.And => land | Kind.Or => lor | Kind.Xor => lxor
  | Kind.Shl => shl | Kind.LShr => lshr | Kind.AShr => ashr
  | Kind.Eq => eq | Kind.Ne => ne | Kind.Ult => ult | Kind.Ule => ule
  | Kind.Ugt => ugt | Kind.Uge => uge | Kind.Slt => slt | Kind.Sle => sle
  | Kind.Sgt => sgt | Kind.Sge => sge
  end.

(** Operands on which the C++ expressions are defined: no zero divisor, shift
    amounts below 64, and not the overflowing signed division. *)
Definition defined (k : Kind.bin) (w l r : Z) : Prop :=
  match k with
  | Kind.UDiv | Kind.URem => r <> 0
  | Kind.SDiv | Kind.SRem => r <> 0 /\ ~ (w = 64 /\ sgn w l = - 2 ^ 63 /\ sgn w r = -1)
  | Kind.Shl | Kind.LShr | Kind.AShr => r < 64
  | _ => True
  end.

(** Cutting a wider word down twice is cutting it down once. *)
Lemma wrap_u64 w z : 0 < w <= 64 -> wrap w (u64 z) = wrap w z.
Proof.
  intros. unfold u64, wrap. replace (2 ^ 64) with (2 ^ w * 2 ^ (64 - w)).
  - rewrite Z.rem_mul_r by (pose proof (pow2_pos w); pose proof (pow2_pos (64 - w)); lia).
    rewrite Z.mul_comm, Z_mod_plus_full. apply Z.mod_mod. pose proof (pow2_pos w). lia.
  - rewrite <- pow2_split by lia. f_equal. lia.
Qed.

Lemma trunc_u64 w z : 0 < w <= 64 -> bits64.truncateToNBits (u64 z) w = Ok (wrap w z).
Proof. intros. by rewrite bits64.truncateToNBits_eq, wrap_u64. Qed.

Lemma sgn_scale w n z : 0 < w -> 0 <= n -> sgn (w + n) (z * 2 ^ n) = sgn w z * 2 ^ n.
Proof.
  intros. unfold sgn. pose proof (pow2_pos n). replace (w + n - 1) with ((w - 1) + n) by lia.
  rewrite !pow2_split by lia.
  destruct (Z.ltb_spec (z * 2 ^ n) (2 ^ (w - 1) * 2 ^ n)), (Z.ltb_spec z (2 ^ (w - 1))); nia.
Qed.

Lemma as_int64_eq l w : 0 < w <= 64 -> inw w l -> as_int64 l w = Ok (sgn w l).
Proof.
  intros Hw Hl. unfold as_int64, sext, MAX_BITS. rewrite (u32_small (64 - w)) by lia.
  pose proof (pow2_pos (64 - w)). rewrite (u64_small (Z.shiftl _ _)).
  2:{ rewrite Z.shiftl_mul_pow2 by lia.
      replace (2 ^ 64) with (2 ^ w * 2 ^ (64 - w)) by (rewrite <- pow2_split by lia; f_equal; lia).
      unfold inw in Hl. nia. }
  pose proof (sgn_scale w (64 - w) l ltac:(lia) ltac:(lia)) as E.
  replace (w + (64 - w)) with 64 in E by lia.
  rewrite Z.shiftl_mul_pow2, E, Z.shiftr_div_pow2, Z.div_mul by lia.
  rewrite trunc_u64 by lia. simpl. f_equal.
  pose proof (sgn_range w l ltac:(lia) Hl). pose proof (pow2_le (w - 1) 63).
  apply sgn_wrap; lia.
Qed.

Lemma shl_eq w l r : 0 < w <= 64 -> inw w l -> 0 <= r -> wrap w (Z.shiftl l r) = bv_shl w l r.
Proof.
  intros Hw Hl Hr. unfold bv_shl. rewrite Z.shiftl_mul_pow2 by lia.
  destruct (Z.leb_spec w r); [|done]. unfold wrap.
  replace r with (w + (r - w)) by lia. rewrite pow2_split by lia.
  replace (l * (2 ^ w * 2 ^ (r - w))) with (l * 2 ^ (r - w) * 2 ^ w) by lia. apply Z_mod_mult.
Qed.

Lemma lshr_eq w l r : 0 < w -> inw w l -> 0 <= r -> Z.shiftr l r = bv_lshr w l r.
Proof.
  intros Hw Hl Hr. unfold bv_lshr. rewrite Z.shiftr_div_pow2 by lia.
  destruct (Z.leb_spec w r); [|done]. apply Z.div_small.
  pose proof (pow2_le w r). unfold inw in Hl. lia.
Qed.

Lemma ashr_eq w l r : 0 < w -> inw w l -> 0 <= r -> wrap w (Z.shiftr (sgn w l) r) = bv_ashr w l r.
Proof.
  intros Hw Hl Hr. unfold bv_ashr. rewrite Z.shiftr_div_pow2 by lia. f_equal.
  destruct (Z.le_ge_cases r w) as [|Hge]; [by rewrite Z.min_l|].
  rewrite Z.min_r by lia. pose proof (sgn_range w l Hw Hl). pose proof (pow2_half w Hw).
  pose proof (pow2_le w r). destruct (Z.lt_ge_cases (sgn w l) 0).
  - rewrite <- (Z.div_unique (sgn w l) (2 ^ r) (-1) (sgn w l + 2 ^ r)) by lia.
    apply (Z.div_unique (sgn w l) (2 ^ w) (-1) (sgn w l + 2 ^ w)); lia.
  - rewrite !Z.div_small; lia.
Qed.

(** Every function of the [ints] namespace computes the bit-vector operation. *)
Lemma op_sem k w l r :
  0 < w <= 64 -> inw w l -> inw w r -> defined k w l r ->
  sem_bin k w l r = match op k l r w with Ok v => Some v | _ => None end.
Proof.
  intros Hw Hl Hr Hd.
  assert (Hwr : forall z, inw w z -> wrap w z = z) by (intros; by apply wrap_small).
  destruct k; cbn [op defined sem_bin] in *;
    unfold add, sub, mul, udiv, urem, sdiv, srem, ashr, lshr, shl, land, lor, lxor,
      eq, ne, ult, ule, ugt, uge, slt, sle, sgt, sge, scmp;
    rewrite ?as_int64_eq by done; simpl; rewrite ?trunc_u64 by done; try done;
    try (destruct (Z.eqb_spec r 0); [tauto|]; done || idtac).
  - rewrite bits64.truncateToNBits_eq, Hwr; [done|apply (bv_udiv_inw w l r); auto; lia|done].
  - rewrite bits64.truncateToNBits_eq, Hwr; [done|apply (bv_urem_inw w l r); auto; lia|done].
  - rewrite shl_eq by first [done|apply Hr|lia]. done.
  - rewrite (lshr_eq w) by first [done|apply Hr|lia]. done.
  - rewrite ashr_eq by first [done|apply Hr|lia]. done.
Qed.

End ints.

(** ** Theorems *)

(** The bit tricks of Bits.h on 64-bit words: [truncateToNBits] keeps the low
    [N] bits, [isPowerOfTwo] recognises exactly the powers of two, and
    [indexOfRightmostBit] returns (its assertion holds) the exponent of the
    largest power of two that divides the word. *)
Theorem bits64_correct x :
  inw 64 x ->
  (forall N, 0 < N <= 64 -> bits64.truncateToNBits x N = Ok (x mod 2 ^ N)) /\
  (bits64.isPowerOfTwo x = true <-> exists k, 0 <= k < 64 /\ x = 2 ^ k) /\
  (x <> 0 -> exists k, bits64.indexOfRightmostBit x = Ok k /\ 0 <= k < 64 /\
     (2 ^ k | x) /\ ~ (2 ^ (k + 1) | x)).
Proof.
  intros Hx. split_and!.
  - intros N HN. by apply bits64.truncateToNBits_eq.
  - by apply bits64.isPowerOfTwo_spec.
  - intros Hnz. apply bits64.indexOfRightmostBit_spec. unfold inw in Hx. lia.
Qed.

Lemma bits64_correct_witness :
  exists k, bits64.indexOfRightmostBit 0xFF0000 = Ok k /\ 0 <= k < 64 /\
    (2 ^ k | 0xFF0000) /\ ~ (2 ^ (k + 1) | 0xFF0000).
Proof. apply (bits64_correct 0xFF0000); [split; [discriminate|reflexivity]|discriminate]. Defined.

(** A [BitArray] is a map from indices to booleans: a fresh array holds the
    initial value everywhere, and [set(idx, value)] changes exactly the bit
    [idx], keeping every word a 32-bit pattern. *)
Theorem BitArray_map_laws bits idx v bits' :
  BitArray.ok bits -> 0 <= idx -> BitArray.set_to bits idx v = Some bits' ->
  BitArray.ok bits' /\
  (forall j, 0 <= j -> BitArray.get bits' j = if j =? idx then Some v else BitArray.get bits j) /\
  (forall size b i, 0 <= i < size -> size + 31 < 2 ^ 32 ->
     BitArray.get (BitArray.create size b) i = Some b).
Proof.
  intros Hok Hi H. split_and!.
  - by eapply BitArray.set_to_ok.
  - intros j Hj. by apply (BitArray.set_to_get bits idx v).
  - intros. by apply BitArray.create_get.
Qed.

Lemma BitArray_map_laws_witness :
  exists bits', BitArray.set_to (BitArray.create 40 false) 35 true = Some bits' /\
    BitArray.get bits' 35 = Some true /\ BitArray.get bits' 34 = Some false.
Proof.
  eexists. split; [vm_compute; reflexivity|].
  split; (etransitivity; [apply (BitArray_map_laws (BitArray.create 40 false) 35 true);
    [repeat constructor; discriminate|discriminate|vm_compute; reflexivity|discriminate]
   |vm_compute; reflexivity]).
Defined.

(** On widths up to 64 every function of IntEvaluation.h computes the
    bit-vector operation of the same name (two's complement for the signed ones),
    wherever C++ defines it. *)
Theorem ints_correct k w l r :
  0 < w <= 64 -> inw w l -> inw w r -> ints.defined k w l r ->
  sem_bin k w l r = match ints.op k l r w with Ok v => Some v | _ => None end.
Proof. apply ints.op_sem. Qed.

Lemma ints_correct_witness :
  sem_bin Kind.SDiv 8 0xF9 2 = match ints.op Kind.SDiv 0xF9 2 8 with Ok v => Some v | _ => None end.
Proof. apply (ints_correct Kind.SDiv 8 0xF9 2); vm_compute; intuition discriminate. Defined.
