(* ===== verification/ExprCompare.v ===== *)
(** * Hashing and ordering of expressions

    Models the [computeHash] methods of Expr.cpp and Updates.cpp and
    [Expr::compare] with the [compareContents] methods it dispatches to.
    [compare] decides the equality that [ref<Expr>::operator==] and every
    [std::map<ref<Expr>, _>] of the engine use. *)

From Stdlib Require Import OrdersEx.
From S2P Require Import Prelude APInt ExprData Samples.
Local Open Scope Z_scope.

Definition MAGIC_HASH_CONSTANT : Z := 39.

(** [(int) c] of a [char], which is signed on the targets of KLEE. *)
Definition char_val (c : Ascii.ascii) : Z := sgn 8 (Z.of_N (Ascii.N_of_ascii c)).

(** The loop over [root->name] shared by [UpdateList::hash] and [Array::computeHash]. *)
Fixpoint name_hash (s : string) (res : Z) : Z :=
  match s with
  | EmptyString => res
  | String c s' => name_hash s' (u32 (u32 (res * MAGIC_HASH_CONSTANT) + char_val c))
  end.

Definition Array_computeHash (a : Array) : Z :=
  u32 (u32 (name_hash (name a) 0 * MAGIC_HASH_CONSTANT) + arr_size a).

(** Three-way comparison of numbers, as in [if (x != y) return x < y ? -1 : 1]. *)
Definition c3 (x y : Z) : Z := if x =? y then 0 else if x <? y then -1 else 1.

(** [std::string] comparison by [!=] and [<]. *)
Definition string_c3 (x y : string) : Z :=
  match String_as_OT.compare x y with Eq => 0 | Lt => -1 | Gt => 1 end.

(** [if (int res = c) return res; d] *)
Definition lexc (c d : Z) : Z := if c =? 0 then d else c.

Create HintDb cmp discriminated.

Section compare.
Context {AP : APIntOps}.

(** One step of the loop of [Expr::computeHash]. *)
Definition hash_kid (res h : Z) : Z :=
  Z.lxor (u32 (Z.shiftl res 1)) (u32 (h * MAGIC_HASH_CONSTANT)).

Fixpoint hash (e : expr) : Z :=
  match e with
  | ConstantExpr v => u32 (Z.lxor (ap_hash v) (u32 (bw v * MAGIC_HASH_CONSTANT)))
  | ReadExpr root un index =>
      Z.lxor (u32 (hash index * MAGIC_HASH_CONSTANT))
             (match un with
              | NullNode => name_hash (name root) 0
              | Node _ _ _ => Z.lxor (name_hash (name root) 0) (node_hash un)
              end)
  | ExtractExpr e o w =>
      Z.lxor (Z.lxor (u32 (o * MAGIC_HASH_CONSTANT)) (u32 (w * MAGIC_HASH_CONSTANT)))
             (u32 (hash e * MAGIC_HASH_CONSTANT))
  | ZExtExpr src w | SExtExpr src w =>
      Z.lxor (u32 (w * MAGIC_HASH_CONSTANT)) (u32 (hash src * MAGIC_HASH_CONSTANT))
  | NotExpr e => u32 (u32 (hash e * MAGIC_HASH_CONSTANT) * Kind.num Kind.Not)
  | NotOptimizedExpr src =>
      hash_kid (u32 (Kind.num Kind.NotOptimized * MAGIC_HASH_CONSTANT)) (hash src)
  | SelectExpr c t f =>
      hash_kid (hash_kid (hash_kid (u32 (Kind.num Kind.Select * MAGIC_HASH_CONSTANT))
        (hash c)) (hash t)) (hash f)
  | ConcatExpr l r =>
      hash_kid (hash_kid (u32 (Kind.num Kind.Concat * MAGIC_HASH_CONSTANT)) (hash l)) (hash r)
  | BinExpr k l r =>
      hash_kid (hash_kid (u32 (Kind.bin_num k * MAGIC_HASH_CONSTANT)) (hash l)) (hash r)
  end
with node_hash (un : UpdateNode) : Z :=
  match un with
  | NullNode => 0
  | Node next index value =>
      let h := Z.lxor (hash index) (hash value) in
      match next with NullNode => h | Node _ _ _ => Z.lxor h (node_hash next) end
  end.

(** [ConstantExpr::compareContents] *)
Definition compare_const (x y : apint) : Z :=
  if negb (bw x =? bw y) then (if bw x <? bw y then -1 else 1)
  else if ap_eq x y then 0 else if ap_ult x y then -1 else 1.

(** [UpdateList::compare] up to the loop over the nodes. *)
Definition compare_root (ra rb : Array) : Z :=
  lexc (string_c3 (name ra) (name rb))
       (if decide (ra = rb) then 0 else if arr_addr ra <? arr_addr rb then -1 else 1).

(** [Expr::compare]: kind, hash, contents, kids.  Comparing a pair of objects
    that are the same object, or were found equal before, returns 0 early in the
    source; on trees this is what the comparison computes ([compare_refl]). *)
Fixpoint compare (a b : expr) : Z :=
  lexc (c3 (Kind.num (getKind a)) (Kind.num (getKind b)))
  (lexc (c3 (hash a) (hash b))
  (match a, b with
   | ConstantExpr x, ConstantExpr y => compare_const x y
   | NotOptimizedExpr a1, NotOptimizedExpr b1 => compare a1 b1
   | ReadExpr ra ua ia, ReadExpr rb ub ib =>
       lexc (lexc (compare_root ra rb)
              (lexc (c3 (node_size ua) (node_size ub)) (compare_node ua ub)))
            (compare ia ib)
   | SelectExpr a1 a2 a3, SelectExpr b1 b2 b3 =>
       lexc (compare a1 b1) (lexc (compare a2 b2) (compare a3 b3))
   | ConcatExpr a1 a2, ConcatExpr b1 b2 =>
       lexc (c3 (u32 (getWidth a1 + getWidth a2)) (u32 (getWidth b1 + getWidth b2)))
            (lexc (compare a1 b1) (compare a2 b2))
   | ExtractExpr a1 oa wa, ExtractExpr b1 ob wb =>
       lexc (lexc (c3 oa ob) (c3 wa wb)) (compare a1 b1)
   | ZExtExpr a1 wa, ZExtExpr b1 wb => lexc (c3 wa wb) (compare a1 b1)
   | SExtExpr a1 wa, SExtExpr b1 wb => lexc (c3 wa wb) (compare a1 b1)
   | NotExpr a1, NotExpr b1 => compare a1 b1
   | BinExpr _ a1 a2, BinExpr _ b1 b2 => lexc (compare a1 b1) (compare a2 b2)
   | _, _ => 0
   end))
with compare_node (an bn : UpdateNode) : Z :=
  match an, bn with
  | Node na ia va, Node nb ib vb =>
      lexc (lexc (compare ia ib) (compare va vb)) (compare_node na nb)
  | _, _ => 0
  end.

(** The part of [compare] after kind and hash: [compareContents], then the kids. *)
Definition compare_body (a b : expr) : Z :=
  match a, b with
  | ConstantExpr x, ConstantExpr y => compare_const x y
  | NotOptimizedExpr a1, NotOptimizedExpr b1 => compare a1 b1
  | ReadExpr ra ua ia, ReadExpr rb ub ib =>
      lexc (lexc (compare_root ra rb)
             (lexc (c3 (node_size ua) (node_size ub)) (compare_node ua ub)))
           (compare ia ib)
  | SelectExpr a1 a2 a3, SelectExpr b1 b2 b3 =>
      lexc (compare a1 b1) (lexc (compare a2 b2) (compare a3 b3))
  | ConcatExpr a1 a2, ConcatExpr b1 b2 =>
      lexc (c3 (u32 (getWidth a1 + getWidth a2)) (u32 (getWidth b1 + getWidth b2)))
           (lexc (compare a1 b1) (compare a2 b2))
  | ExtractExpr a1 oa wa, ExtractExpr b1 ob wb =>
      lexc (lexc (c3 oa ob) (c3 wa wb)) (compare a1 b1)
  | ZExtExpr a1 wa, ZExtExpr b1 wb => lexc (c3 wa wb) (compare a1 b1)
  | SExtExpr a1 wa, SExtExpr b1 wb => lexc (c3 wa wb) (compare a1 b1)
  | NotExpr a1, NotExpr b1 => compare a1 b1
  | BinExpr _ a1 a2, BinExpr _ b1 b2 => lexc (compare a1 b1) (compare a2 b2)
  | _, _ => 0
  end.

Lemma compare_unfold a b :
  compare a b = lexc (c3 (Kind.num (getKind a)) (Kind.num (getKind b)))
                  (lexc (c3 (hash a) (hash b)) (compare_body a b)).
Proof. by destruct a. Qed.

Lemma getKind_inj a b :
  Kind.num (getKind a) = Kind.num (getKind b) -> getKind a = getKind b.
Proof.
  destruct a, b; simpl; try done;
    try (match goal with k : Kind.bin |- _ => destruct k; done end).
  intros H. f_equal. by apply Kind.bin_num_inj.
Qed.

(** [ref<Expr>::operator==] and [operator<] *)
Definition expr_eqb (a b : expr) : bool := compare a b =? 0.
Definition expr_ltb (a b : expr) : bool := compare a b <? 0.

(** ** Consistent comparisons

    [T x y z]: the results [x] of comparing a with b, [y] of b with c and [z] of
    a with c fit together. *)
Definition T (x y z : Z) : Prop :=
  -1 <= x <= 1 /\ -1 <= y <= 1 /\ -1 <= z <= 1 /\
  (x = 0 -> z = y) /\ (y = 0 -> z = x) /\ (x = y -> z = x).

Lemma T_lexc x1 y1 z1 x2 y2 z2 :
  T x1 y1 z1 -> (x1 = 0 -> y1 = 0 -> T x2 y2 z2) ->
  -1 <= x2 <= 1 -> -1 <= y2 <= 1 -> -1 <= z2 <= 1 ->
  T (lexc x1 x2) (lexc y1 y2) (lexc z1 z2).
Proof.
  unfold T, lexc. intros.
  destruct (Z.eqb_spec x1 0), (Z.eqb_spec y1 0), (Z.eqb_spec z1 0); lia.
Qed.

Lemma T_c3 x y z : T (c3 x y) (c3 y z) (c3 x z).
Proof.
  unfold T, c3.
  destruct (Z.eqb_spec x y), (Z.eqb_spec y z), (Z.eqb_spec x z),
    (Z.ltb_spec x y), (Z.ltb_spec y z), (Z.ltb_spec x z); lia.
Qed.

Lemma string_c3_eq x y : string_c3 x y = 0 <-> x = y.
Proof.
  unfold string_c3. destruct (String_as_OT.compare_spec x y) as [->|H|H]; [done|..];
    split; try done; intros ->; by apply StrictOrder_Irreflexive in H.
Qed.

Lemma T_string x y z : T (string_c3 x y) (string_c3 y z) (string_c3 x z).
Proof.
  unfold T, string_c3.
  destruct (String_as_OT.compare_spec x y) as [E1|H1|H1],
    (String_as_OT.compare_spec y z) as [E2|H2|H2],
    (String_as_OT.compare_spec x z) as [E3|H3|H3];
    unfold String_as_OT.eq in *; subst; try lia; exfalso;
    repeat match goal with
    | H : String_as_OT.lt ?a ?a |- _ => by apply StrictOrder_Irreflexive in H
    | H : String_as_OT.lt ?a ?b, H' : String_as_OT.lt ?b ?c |- _ =>
        pose proof (StrictOrder_Transitive _ _ _ H H'); clear H
    end.
Qed.

Lemma zero_range : -1 <= 0 <= 1.
Proof. lia. Qed.
Lemma c3_range x y : -1 <= c3 x y <= 1.
Proof. unfold c3. repeat case_match; lia. Qed.
Lemma lexc_range c d : -1 <= c <= 1 -> -1 <= d <= 1 -> -1 <= lexc c d <= 1.
Proof. unfold lexc. case_match; lia. Qed.
Lemma string_c3_range x y : -1 <= string_c3 x y <= 1.
Proof. unfold string_c3. case_match; lia. Qed.
Lemma compare_const_range x y : -1 <= compare_const x y <= 1.
Proof. unfold compare_const. repeat case_match; lia. Qed.
Lemma compare_root_range x y : -1 <= compare_root x y <= 1.
Proof.
  apply lexc_range; [apply string_c3_range|]. repeat case_match; lia.
Qed.

Lemma compare_range_mut :
  (forall a b, -1 <= compare a b <= 1) /\ (forall an bn, -1 <= compare_node an bn <= 1).
Proof.
  apply expr_node_ind; intros; (destruct b || destruct bn); cbn [compare compare_node];
    auto 10 using lexc_range, c3_range, compare_const_range, compare_root_range, zero_range.
Qed.
Lemma compare_range a b : -1 <= compare a b <= 1.
Proof. apply compare_range_mut. Qed.
Lemma compare_node_range a b : -1 <= compare_node a b <= 1.
Proof. apply compare_range_mut. Qed.

Lemma compare_body_range a b : -1 <= compare_body a b <= 1.
Proof.
  destruct a, b; simpl; auto 10 using lexc_range, c3_range, compare_const_range,
    compare_root_range, zero_range, compare_range, compare_node_range.
Qed.

#[local] Hint Resolve zero_range c3_range lexc_range string_c3_range compare_const_range
  compare_root_range compare_range compare_node_range : cmp.

Lemma node_size_nonneg un : 0 <= node_size un.
Proof. induction un; simpl; lia. Qed.

Lemma lexc_0 c d : lexc c d = 0 <-> c = 0 /\ d = 0.
Proof. unfold lexc. destruct (Z.eqb_spec c 0); lia. Qed.
Lemma c3_0 x y : c3 x y = 0 <-> x = y.
Proof. unfold c3. destruct (Z.eqb_spec x y), (Z.ltb_spec x y); lia. Qed.
Lemma compare_root_0 x y : compare_root x y = 0 <-> x = y.
Proof.
  unfold compare_root. rewrite lexc_0, string_c3_eq. split.
  - intros [_ H]. repeat case_match; done.
  - intros ->. split; [done|]. by rewrite decide_True.
Qed.

(** ** Equality *)
Section equality.
Context {SP : APIntSpec AP}.

Lemma compare_const_0 x y : apok x -> apok y -> compare_const x y = 0 <-> x = y.
Proof.
  intros Hx Hy. unfold compare_const. destruct (Z.eqb_spec (bw x) (bw y)) as [E|]; simpl.
  - rewrite ap_eq_spec by done. destruct x, y; simpl in *; subst.
    destruct (Z.eqb_spec raw raw0) as [->|]; [done|]. repeat case_match; split; congruence.
  - split; [repeat case_match; done|by intros ->].
Qed.

Lemma compare_refl_mut :
  (forall a, wf a -> compare a a = 0) /\
  (forall an root, wf_node root an -> compare_node an an = 0).
Proof.
  apply expr_node_ind; simpl; intros; destruct_and?; rewrite ?lexc_0, ?c3_0, ?compare_root_0;
    repeat split; eauto; by apply compare_const_0.
Qed.

Lemma compare_refl a : wf a -> compare a a = 0.
Proof. apply compare_refl_mut. Qed.

Lemma compare_eq_mut :
  (forall a, wf a -> forall b, wf b -> compare a b = 0 -> a = b) /\
  (forall an ra, wf_node ra an -> forall bn rb, wf_node rb bn -> node_size an = node_size bn ->
     compare_node an bn = 0 -> an = bn).
Proof.
  apply expr_node_ind.
  1-10: intros; rewrite compare_unfold, !lexc_0, c3_0 in *; destruct_and?;
    match goal with H : Kind.num _ = Kind.num _ |- _ => apply getKind_inj in H end;
    destruct b; try discriminate; simplify_eq/=;
    rewrite ?lexc_0, ?c3_0, ?compare_root_0 in *; destruct_and?; simplify_eq.
  - f_equal. by apply compare_const_0.
  - f_equal. auto.
  - f_equal; [|auto]. eauto.
  - f_equal; auto.
  - f_equal; auto.
  - f_equal; auto.
  - f_equal; auto.
  - f_equal; auto.
  - f_equal; auto.
  - f_equal; auto.
  - intros ra _ bn rb _ E _. destruct bn; [done|]. simpl in E.
    pose proof (node_size_nonneg bn). lia.
  - intros next IHn idx IHi val IHv ra Ha bn rb Hb E H. simpl in *. destruct bn as [|nb ib vb].
    { pose proof (node_size_nonneg next). simpl in E. lia. }
    simpl in *. rewrite !lexc_0 in H. destruct_and?. f_equal; eauto. eapply IHn; eauto. lia.
Qed.

(** [ref<Expr>::operator==] holds of structurally equal expressions only. *)
Lemma expr_eqb_eq a b : wf a -> wf b -> expr_eqb a b = true -> a = b.
Proof. intros. unfold expr_eqb in *. bool_to_prop. by apply compare_eq_mut. Qed.

Lemma expr_eqb_spec a b : wf a -> wf b -> expr_eqb a b = true <-> a = b.
Proof.
  intros Ha Hb. split; [by apply expr_eqb_eq|]. intros ->. unfold expr_eqb.
  by rewrite compare_refl.
Qed.
End equality.

(** ** Order

    The address of an array object identifies it among the live arrays. *)
Section order.
Context {SP : APIntSpec AP} (live : Array -> Prop).
Hypothesis addr_inj :
  forall x y, live x -> live y -> arr_addr x = arr_addr y -> x = y.

Lemma T_root x y z : live x -> live y -> live z ->
  T (compare_root x y) (compare_root y z) (compare_root x z).
Proof.
  intros Hx Hy Hz. unfold compare_root.
  apply T_lexc; [apply T_string| |repeat case_match; lia..]. intros _ _.
  assert (E : forall a b, live a -> live b -> 
    (if decide (a = b) then 0 else if arr_addr a <? arr_addr b then -1 else 1)
      = c3 (arr_addr a) (arr_addr b)).
  { intros a b Ha Hb. unfold c3. case_decide; [subst; by rewrite Z.eqb_refl|].
    destruct (Z.eqb_spec (arr_addr a) (arr_addr b)); [|done]. by destruct H; apply addr_inj. }
  rewrite !E by done. apply T_c3.
Qed.

Lemma T_const x y z : apok x -> apok y -> apok z ->
  T (compare_const x y) (compare_const y z) (compare_const x z).
Proof.
  intros Hx Hy Hz.
  assert (E : forall a b, apok a -> apok b ->
    compare_const a b = lexc (c3 (bw a) (bw b)) (c3 (raw a) (raw b))).
  { intros a b Ha Hb. unfold compare_const, lexc, c3 at 1 3.
    destruct (Z.eqb_spec (bw a) (bw b)); simpl; [|by case_match].
    rewrite ap_eq_spec, ap_ult_spec by done. done. }
  rewrite !E by done. apply T_lexc; auto using T_c3, c3_range.
Qed.

(** Every array read by the expression is live. *)
Fixpoint arrays_live (e : expr) : Prop :=
  match e with
  | ConstantExpr _ => True
  | NotOptimizedExpr e | ExtractExpr e _ _ | ZExtExpr e _ | SExtExpr e _ | NotExpr e =>
      arrays_live e
  | ReadExpr root un i => live root /\ node_live un /\ arrays_live i
  | SelectExpr a b c => arrays_live a /\ arrays_live b /\ arrays_live c
  | ConcatExpr a b | BinExpr _ a b => arrays_live a /\ arrays_live b
  end
with node_live (un : UpdateNode) : Prop :=
  match un with
  | NullNode => True
  | Node n i v => node_live n /\ arrays_live i /\ arrays_live v
  end.

Lemma T_0 : T 0 0 0.
Proof. unfold T. lia. Qed.

Lemma compare_T_mut :
  (forall a, wf a -> arrays_live a -> forall b c, wf b -> arrays_live b -> wf c -> arrays_live c ->
     T (compare a b) (compare b c) (compare a c)) /\
  (forall an ra, wf_node ra an -> node_live an -> forall bn rb cn rc,
     wf_node rb bn -> node_live bn -> wf_node rc cn -> node_live cn ->
     node_size an = node_size bn -> node_size bn = node_size cn ->
     T (compare_node an bn) (compare_node bn cn) (compare_node an cn)).
Proof.
  apply expr_node_ind.
  1-10: intros; rewrite !compare_unfold;
    (apply T_lexc; [apply T_c3| |auto using lexc_range, c3_range, compare_body_range..]);
    intros E1 E2; rewrite !c3_0 in E1, E2; apply getKind_inj in E1, E2;
    (apply T_lexc; [apply T_c3| |auto using compare_body_range..]); intros _ _;
    destruct b; try discriminate; destruct c; try discriminate; simplify_eq/=; destruct_and?.
  - by apply T_const.
  - auto.
  - apply T_lexc; [|auto|auto with cmp..].
    apply T_lexc; [by apply T_root|intros _ _|auto with cmp..].
    apply T_lexc; [apply T_c3| |auto with cmp..]. rewrite !c3_0. eauto.
  - repeat (apply T_lexc; [by auto|intros _ _|auto with cmp..]). auto.
  - apply T_lexc; [apply T_c3|intros _ _|auto with cmp..].
    apply T_lexc; [by auto|intros _ _|auto with cmp..]. auto.
  - apply T_lexc; [|by auto|auto with cmp..]. apply T_lexc; auto using T_c3, c3_range.
  - apply T_lexc; [apply T_c3|by auto|auto with cmp..].
  - apply T_lexc; [apply T_c3|by auto|auto with cmp..].
  - auto.
  - apply T_lexc; [by auto|intros _ _|auto with cmp..]. auto.
  - intros ra _ _ bn rb cn rc _ _ _ _ E1 E2. simpl in E1.
    destruct bn as [|nb ? ?], cn as [|nc ? ?]; simpl in *; try apply T_0;
      try (pose proof (node_size_nonneg nb); lia).
  - intros next IHn idx IHi val IHv ra Ha La bn rb cn rc Hb Lb Hc Lc E1 E2. simpl in *.
    destruct bn as [|nb ib vb], cn as [|nc ic vc]; simpl in *; try apply T_0;
      try (pose proof (node_size_nonneg next); lia);
      try (pose proof (node_size_nonneg nb); lia).
    destruct_and?. apply T_lexc; [|intros _ _|auto with cmp..].
    + apply T_lexc; [by auto|intros _ _|auto with cmp..]. auto.
    + eapply IHn; eauto; lia.
Qed.

Lemma compare_T a b c :
  wf a -> arrays_live a -> wf b -> arrays_live b -> wf c -> arrays_live c ->
  T (compare a b) (compare b c) (compare a c).
Proof. intros. by apply compare_T_mut. Qed.
End order.

(** ** The implementation: identity tests and the set of pairs found equal

    [Expr::compare(b, equivs)] first tests whether the two objects are the same
    and whether the pair is in [equivs], and inserts the pair when everything
    compared equal.  [same] is object identity ([this == &b]); two objects that
    are the same denote the same tree.  Update nodes call the one-argument
    [Expr::compare], which shares the static set and clears it. *)
Section memo.
Variables (same : expr -> expr -> bool) (same_node : UpdateNode -> UpdateNode -> bool).

Definition equivs := list (expr * expr).

(** [equivs.count(ordered pair)] *)
Definition equivs_count (s : equivs) (a b : expr) : bool :=
  existsb (fun p => (same p.1 a && same p.2 b) || (same p.1 b && same p.2 a)) s.

(** [if (int res = m) return res; k] *)
Definition mseq (m : Z * equivs) (k : equivs -> Z * equivs) : Z * equivs :=
  let (r, s) := m in if r =? 0 then k s else (r, s).

Arguments mseq : simpl never.

(** [Expr::compare(b)]: clear the set on return. *)
Definition mclear (m : Z * equivs) : Z * equivs := (fst m, []).

Fixpoint mcompare (a b : expr) (s : equivs) : Z * equivs :=
  if same a b then (0, s)
  else if equivs_count s a b then (0, s)
  else
    mseq (c3 (Kind.num (getKind a)) (Kind.num (getKind b)), s) (fun s =>
    mseq (c3 (hash a) (hash b), s) (fun s =>
    mseq
      (match a, b with
       | ConstantExpr x, ConstantExpr y => (compare_const x y, s)
       | NotOptimizedExpr a1, NotOptimizedExpr b1 => mcompare a1 b1 s
       | ReadExpr ra ua ia, ReadExpr rb ub ib =>
           mseq (mseq (compare_root ra rb, s) (fun s =>
                 mseq (c3 (node_size ua) (node_size ub), s) (fun s => mcompare_node ua ub s)))
                (fun s => mcompare ia ib s)
       | SelectExpr a1 a2 a3, SelectExpr b1 b2 b3 =>
           mseq (mcompare a1 b1 s) (fun s => mseq (mcompare a2 b2 s) (fun s => mcompare a3 b3 s))
       | ConcatExpr a1 a2, ConcatExpr b1 b2 =>
           mseq (c3 (u32 (getWidth a1 + getWidth a2)) (u32 (getWidth b1 + getWidth b2)), s) (fun s =>
           mseq (mcompare a1 b1 s) (fun s => mcompare a2 b2 s))
       | ExtractExpr a1 oa wa, ExtractExpr b1 ob wb =>
           mseq (lexc (c3 oa ob) (c3 wa wb), s) (fun s => mcompare a1 b1 s)
       | ZExtExpr a1 wa, ZExtExpr b1 wb => mseq (c3 wa wb, s) (fun s => mcompare a1 b1 s)
       | SExtExpr a1 wa, SExtExpr b1 wb => mseq (c3 wa wb, s) (fun s => mcompare a1 b1 s)
       | NotExpr a1, NotExpr b1 => mcompare a1 b1 s
       | BinExpr _ a1 a2, BinExpr _ b1 b2 => mseq (mcompare a1 b1 s) (fun s => mcompare a2 b2 s)
       | _, _ => (0, s)
       end)
      (fun s => (0, (a, b) :: s))))
with mcompare_node (an bn : UpdateNode) (s : equivs) : Z * equivs :=
  match an, bn with
  | Node na ia va, Node nb ib vb =>
      if same_node an bn then (0, s)
      else
        mseq (mseq (mclear (mcompare ia ib s)) (fun s => mclear (mcompare va vb s)))
             (fun s => mcompare_node na nb s)
  | _, _ => (0, s)
  end.

(** [Expr::compare(b)], started with the empty set. *)
Definition Expr_compare (a b : expr) : Z := fst (mcompare a b []).

Context {SP : APIntSpec AP}.
Hypothesis same_eq : forall a b, same a b = true -> a = b.
Hypothesis same_node_eq : forall a b, same_node a b = true -> a = b.

(** Every pair in the set is a pair of equal expressions. *)
Definition equivs_ok (s : equivs) : Prop := Forall (fun p => p.1 = p.2) s.

(** [m] computes [c] and keeps the set valid. *)
Definition mok (m : Z * equivs) (c : Z) : Prop := fst m = c /\ equivs_ok (snd m).

Lemma mok_ret c s : equivs_ok s -> mok (c, s) c.
Proof. done. Qed.
Lemma mok_seq m k c d :
  mok m c -> (c = 0 -> forall s, equivs_ok s -> mok (k s) d) -> mok (mseq m k) (lexc c d).
Proof.
  destruct m as [r s]. intros [Hr Hs] Hk. simpl in *. subst r. unfold lexc, mseq.
  destruct (Z.eqb_spec c 0); [by apply Hk|done].
Qed.
Lemma mok_clear m c : mok m c -> mok (mclear m) c.
Proof. intros [? _]. split; [done|constructor]. Qed.

Lemma equivs_count_eq s a b : equivs_ok s -> equivs_count s a b = true -> a = b.
Proof.
  intros Hs Hc. apply existsb_exists in Hc as ((x & y) & Hin & H). simpl in *.
  unfold equivs_ok in Hs. rewrite List.Forall_forall in Hs. specialize (Hs _ Hin). simpl in Hs. subst y.
  apply orb_true_iff in H as [H|H]; apply andb_true_iff in H as [H1 H2];
    apply same_eq in H1, H2; congruence.
Qed.

Lemma lexc_r_0 c : lexc c 0 = c.
Proof. unfold lexc. by destruct (Z.eqb_spec c 0). Qed.

Lemma compare_0_eq a b : wf a -> wf b -> compare a b = 0 -> a = b.
Proof. intros Ha Hb H. apply expr_eqb_eq; try done. unfold expr_eqb. by rewrite H. Qed.

(** The steps common to all kinds. *)
Lemma mcompare_frame a b s m :
  wf a -> wf b -> equivs_ok s ->
  (getKind a = getKind b -> forall s, equivs_ok s -> mok (m s) (compare_body a b)) ->
  mok (if same a b then (0, s)
       else if equivs_count s a b then (0, s)
       else mseq (c3 (Kind.num (getKind a)) (Kind.num (getKind b)), s) (fun s =>
            mseq (c3 (hash a) (hash b), s) (fun s => mseq (m s) (fun s => (0, (a, b) :: s)))))
      (compare a b).
Proof.
  intros Ha Hb Hs Hm. destruct (same a b) eqn:E1.
  { apply same_eq in E1 as ->. rewrite compare_refl by done. by apply mok_ret. }
  destruct (equivs_count s a b) eqn:E2.
  { apply equivs_count_eq in E2 as ->; [|done]. rewrite compare_refl by done. by apply mok_ret. }
  pose proof (compare_unfold a b) as Hu. rewrite Hu.
  apply mok_seq; [by apply mok_ret|]. intros K s1 Hs1. rewrite c3_0 in K. apply getKind_inj in K.
  apply mok_seq; [by apply mok_ret|]. intros K2 s2 Hs2.
  rewrite <- (lexc_r_0 (compare_body a b)). apply mok_seq; [by apply Hm|].
  intros K3 s3 Hs3. split; [done|]. constructor; [|done]. simpl.
  apply compare_0_eq; try done. rewrite Hu, K3, K, K2, lexc_r_0. by apply c3_0.
Qed.

#[local] Arguments lexc : simpl never.

Lemma mcompare_ok_mut :
  (forall a, wf a -> forall b s, wf b -> equivs_ok s -> mok (mcompare a b s) (compare a b)) /\
  (forall an ra, wf_node ra an -> forall bn rb s, wf_node rb bn -> equivs_ok s ->
     node_size an = node_size bn -> mok (mcompare_node an bn s) (compare_node an bn)).
Proof.
  apply expr_node_ind.
  1-10: intros; (apply mcompare_frame; [done..|]); intros K s1 Hs1;
    destruct b; try discriminate K; simpl in *; destruct_and?;
    repeat match goal with
    | |- mok (mseq _ _) (lexc _ _) => apply mok_seq; [|intros ? ? ?]
    | |- mok (?c, _) ?c => by apply mok_ret
    end; eauto; try (by apply mok_ret).
  - match goal with H : c3 _ _ = 0 |- _ => rewrite c3_0 in H end. eauto.
  - intros ra _ bn rb s _ Hs E. destruct bn; by apply mok_ret.
  - intros next IHn idx IHi val IHv ra Ha bn rb s Hb Hs E. simpl in Ha. destruct_and?.
    destruct bn as [|nb ib vb]; [by apply mok_ret|]. simpl in Hb. destruct_and?.
    cbn [mcompare_node]. destruct (same_node _ _) eqn:Es.
    { apply same_node_eq in Es. injection Es as -> -> ->.
      rewrite (proj2 compare_refl_mut (Node nb ib vb) ra) by (simpl; tauto). by apply mok_ret. }
    simpl. apply mok_seq; [|intros; eapply IHn; eauto; simpl in E; lia].
    apply mok_seq; [apply mok_clear; eauto|intros; apply mok_clear; eauto].
Qed.
End memo.
End compare.

(** ** Theorems *)

(** [Expr::compare] with its object-identity shortcuts, its set of pairs
    already found equal and the nested calls that clear this set returns what the
    plain structural comparison returns; it is 0 exactly on structurally equal
    expressions, whatever the (non injective) hash function does. *)
Theorem Expr_compare_reference {AP : APIntOps} {SP : APIntSpec AP} same same_node a b :
  (forall a b, same a b = true -> a = b) -> (forall a b, same_node a b = true -> a = b) ->
  wf a -> wf b ->
  Expr_compare same same_node a b = compare a b /\ (compare a b = 0 <-> a = b).
Proof.
  intros Hs Hn Ha Hb. split.
  - by apply (proj1 (mcompare_ok_mut same same_node Hs Hn) a); [..|constructor].
  - pose proof (expr_eqb_spec a b Ha Hb) as H. unfold expr_eqb in H. by rewrite Z.eqb_eq in H.
Qed.

Lemma Expr_compare_reference_witness :
  Expr_compare (AP := ZOps)
    (fun a b => match a, b with ConstantExpr x, ConstantExpr y => bool_decide (x = y) | _, _ => false end)
    (fun _ _ => false) (BinExpr Kind.Add (byte 0) (byte 0)) (BinExpr Kind.Add (byte 0) (byte 1)) =
  compare (AP := ZOps) (BinExpr Kind.Add (byte 0) (byte 0)) (BinExpr Kind.Add (byte 0) (byte 1)).
Proof.
  apply (Expr_compare_reference (AP := ZOps)); [|done|concrete|concrete].
  intros [] []; try done. intros H%bool_decide_eq_true. congruence.
Defined.

(** Among expressions over live arrays (distinct array objects have distinct
    addresses), [compare] is a strict total order: antisymmetric, transitive and
    total up to structural equality, as the [std::map]s and [std::set]s keyed by
    [ref<Expr>] require. *)
Theorem compare_total_order {AP : APIntOps} {SP : APIntSpec AP} (live : Array -> Prop) a b c :
  (forall x y, live x -> live y -> arr_addr x = arr_addr y -> x = y) ->
  wf a -> arrays_live live a -> wf b -> arrays_live live b -> wf c -> arrays_live live c ->
  compare b a = - compare a b /\
  (expr_ltb a b = true -> expr_ltb b c = true -> expr_ltb a c = true) /\
  (expr_ltb a b = true \/ a = b \/ expr_ltb b a = true).
Proof.
  intros Hinj Ha La Hb Lb Hc Lc.
  pose proof (compare_T live Hinj a b c Ha La Hb Lb Hc Lc) as Habc.
  pose proof (compare_T live Hinj a b a Ha La Hb Lb Ha La) as Haba.
  rewrite (compare_refl a Ha) in Haba. unfold T in *.
  pose proof (expr_eqb_eq a b Ha Hb) as Heq. unfold expr_eqb, expr_ltb in *.
  rewrite Z.eqb_eq in Heq. rewrite !Z.ltb_lt. split_and!; [lia|lia|].
  destruct (Z.lt_trichotomy (compare a b) 0) as [?|[?|?]]; [by left|right; left; auto|right; right; lia].
Qed.

Lemma compare_total_order_witness :
  compare (AP := ZOps) (byte 1) (byte 0) = - compare (AP := ZOps) (byte 0) (byte 1) /\
  (expr_ltb (AP := ZOps) (byte 0) (byte 1) = true -> expr_ltb (AP := ZOps) (byte 1) flag = true ->
   expr_ltb (AP := ZOps) (byte 0) flag = true) /\
  (expr_ltb (AP := ZOps) (byte 0) (byte 1) = true \/ byte 0 = byte 1 \/
   expr_ltb (AP := ZOps) (byte 1) (byte 0) = true).
Proof.
  apply (compare_total_order (AP := ZOps) (fun x => x = buf)); try concrete.
  - intros x y -> -> _. reflexivity.
  - by simpl.
  - by simpl.
  - by simpl.
Defined.
