(* ===== verification/ExprCreate.v ===== *)
(** * The simplifying constructors of Expr.cpp

    Every [XExpr::create] of [klee/lib/Expr/Expr.cpp]: constant folding,
    the algebraic rewrites that keep expressions canonical, and the helpers
    built from them.  Assertions are [massert]; a constructor returns [Ok] with
    the new expression or [AssertFail].

    Recursion.  The rewrites of a constant against an expression
    ([AddExpr_createPartialR], [SubExpr_createPartialR], [EqExpr_createPartialR])
    are structural in the expression.  The remaining two recursions,
    [ExtractExpr::create]/[ConcatExpr::create] and
    [AddExpr::create]/[SubExpr::create] on two non-constant operands, take fuel;
    [ExprCreateSound] proves that the fuel supplied here is never exhausted. *)

From S2P Require Import Prelude APInt ExprData Bits ExprCompare.
Local Open Scope Z_scope.

Section create.
Context {AP : APIntOps} {CFG : Config}.

(** ** ConstantExpr *)

(** [ConstantExpr::alloc(uint64_t v, Width w)] *)
Definition ConstantExpr_alloc (v w : Z) : apint := ap_of w v.

(** [ConstantExpr::create(uint64_t v, Width w)] *)
Definition ConstantExpr_create (v w : Z) : result apint :=
  _ ← (if w <=? 64 then t ← bits64.truncateToNBits v w; massert (v =? t) else Ok tt);
  Ok (ConstantExpr_alloc v w).

Definition CE_getZExtValue (c : apint) (bits : Z) : result Z :=
  _ ← massert (bw c <=? bits); Ok (ap_getZExtValue c).
Definition CE_getLimitedValue (c : apint) (limit : Z) : Z := ap_getLimitedValue c limit.

Definition CE_isZero (c : apint) : bool := ap_isMinValue c.
Definition CE_isOne (c : apint) : bool := CE_getLimitedValue c (2 ^ 64 - 1) =? 1.
Definition CE_isTrue (c : apint) : bool := (bw c =? Bool) && ap_getBoolValue c.
Definition CE_isFalse (c : apint) : bool := (bw c =? Bool) && negb (ap_getBoolValue c).
Definition CE_isAllOnes (c : apint) : bool := ap_isAllOnesValue c.

Definition CE_Concat (c rhs : apint) : apint :=
  let W := u32 (bw c + bw rhs) in
  ap_or (ap_shl_u (ap_zext c W) (bw rhs)) (ap_zext rhs W).
Definition CE_Extract (c : apint) (Offset W : Z) : apint := ap_zextOrTrunc (ap_ashr_u c Offset) W.
Definition CE_ZExt (c : apint) (W : Z) : apint := ap_zextOrTrunc c W.
Definition CE_SExt (c : apint) (W : Z) : apint := ap_sextOrTrunc c W.
Definition CE_Add (c rhs : apint) : apint := ap_add c rhs.
Definition CE_Neg (c : apint) : apint := ap_neg c.
Definition CE_Sub (c rhs : apint) : apint := ap_sub c rhs.
Definition CE_Mul (c rhs : apint) : apint := ap_mul c rhs.
Definition CE_UDiv (c rhs : apint) : result apint := ap_udiv c rhs.
Definition CE_SDiv (c rhs : apint) : result apint := ap_sdiv c rhs.
Definition CE_URem (c rhs : apint) : result apint := ap_urem c rhs.
Definition CE_SRem (c rhs : apint) : result apint := ap_srem c rhs.
Definition CE_And (c rhs : apint) : apint := ap_and c rhs.
Definition CE_Or (c rhs : apint) : apint := ap_or c rhs.
Definition CE_Xor (c rhs : apint) : apint := ap_xor c rhs.
Definition CE_Shl (c rhs : apint) : apint := ap_shl c rhs.
Definition CE_LShr (c rhs : apint) : apint := ap_lshr c rhs.
Definition CE_AShr (c rhs : apint) : apint := ap_ashr c rhs.
Definition CE_Not (c : apint) : apint := ap_not c.
Definition CE_Eq (c rhs : apint) : apint := ConstantExpr_alloc (Z.b2z (ap_eq c rhs)) Bool.
Definition CE_Ne (c rhs : apint) : apint := ConstantExpr_alloc (Z.b2z (negb (ap_eq c rhs))) Bool.
Definition CE_Ult (c rhs : apint) : apint := ConstantExpr_alloc (Z.b2z (ap_ult c rhs)) Bool.
Definition CE_Ule (c rhs : apint) : apint := ConstantExpr_alloc (Z.b2z (ap_ule c rhs)) Bool.
Definition CE_Ugt (c rhs : apint) : apint := ConstantExpr_alloc (Z.b2z (ap_ugt c rhs)) Bool.
Definition CE_Uge (c rhs : apint) : apint := ConstantExpr_alloc (Z.b2z (ap_uge c rhs)) Bool.
Definition CE_Slt (c rhs : apint) : apint := ConstantExpr_alloc (Z.b2z (ap_slt c rhs)) Bool.
Definition CE_Sle (c rhs : apint) : apint := ConstantExpr_alloc (Z.b2z (ap_sle c rhs)) Bool.
Definition CE_Sgt (c rhs : apint) : apint := ConstantExpr_alloc (Z.b2z (ap_sgt c rhs)) Bool.
Definition CE_Sge (c rhs : apint) : apint := ConstantExpr_alloc (Z.b2z (ap_sge c rhs)) Bool.

(** An operation that fails no assertion. *)
Definition pure2 (f : apint -> apint -> apint) (a b : apint) : result apint := Ok (f a b).

(** The constant operation of each binary kind. *)
Definition CE_op (k : Kind.bin) : apint -> apint -> result apint :=
  match k with
  | Kind.Add => pure2 CE_Add | Kind.Sub => pure2 CE_Sub | Kind.Mul => pure2 CE_Mul
  | Kind.UDiv => CE_UDiv | Kind.SDiv => CE_SDiv | Kind.URem => CE_URem | Kind.SRem => CE_SRem
  | Kind.And => pure2 CE_And | Kind.Or => pure2 CE_Or | Kind.Xor => pure2 CE_Xor
  | Kind.Shl => pure2 CE_Shl | Kind.LShr => pure2 CE_LShr | Kind.AShr => pure2 CE_AShr
  | Kind.Eq => pure2 CE_Eq | Kind.Ne => pure2 CE_Ne
  | Kind.Ult => pure2 CE_Ult | Kind.Ule => pure2 CE_Ule
  | Kind.Ugt => pure2 CE_Ugt | Kind.Uge => pure2 CE_Uge
  | Kind.Slt => pure2 CE_Slt | Kind.Sle => pure2 CE_Sle
  | Kind.Sgt => pure2 CE_Sgt | Kind.Sge => pure2 CE_Sge
  end.

(** ** Expr::isZero, isTrue, isFalse *)
Definition Expr_isZero (e : expr) : bool :=
  match e with ConstantExpr c => CE_isZero c | _ => false end.
Definition Expr_isTrue (e : expr) : result bool :=
  _ ← massert (getWidth e =? Bool);
  Ok (match e with ConstantExpr c => CE_isTrue c | _ => false end).
Definition Expr_isFalse (e : expr) : result bool :=
  _ ← massert (getWidth e =? Bool);
  Ok (match e with ConstantExpr c => CE_isFalse c | _ => false end).

(** ** The BCREATE_R, BCREATE, CMPCREATE and CMPCREATE_T macros *)
Definition BCREATE_R (op : apint -> apint -> result apint) (partialL : expr -> apint -> result expr)
    (partialR : apint -> expr -> result expr) (create : expr -> expr -> result expr)
    (l r : expr) : result expr :=
  _ ← massert (getWidth l =? getWidth r);
  match l, r with
  | ConstantExpr cl, ConstantExpr cr => c ← op cl cr; Ok (ConstantExpr c)
  | ConstantExpr cl, _ => partialR cl r
  | _, ConstantExpr cr => partialL l cr
  | _, _ => create l r
  end.

Definition BCREATE (op : apint -> apint -> result apint) (create : expr -> expr -> result expr)
    (l r : expr) : result expr :=
  _ ← massert (getWidth l =? getWidth r);
  match l, r with
  | ConstantExpr cl, ConstantExpr cr => c ← op cl cr; Ok (ConstantExpr c)
  | _, _ => create l r
  end.

Definition CMPCREATE := BCREATE.
Definition CMPCREATE_T := BCREATE_R.

(** ** And, Or *)
Definition AndExpr_createPartial (l : expr) (cr : apint) : result expr :=
  if CE_isAllOnes cr then Ok l
  else if CE_isZero cr then Ok (ConstantExpr cr)
  else Ok (BinExpr Kind.And l (ConstantExpr cr)).
Definition AndExpr_createPartialR (cl : apint) (r : expr) : result expr :=
  AndExpr_createPartial r cl.
Definition AndExpr_create' (l r : expr) : result expr := Ok (BinExpr Kind.And l r).
Definition AndExpr_create : expr -> expr -> result expr :=
  BCREATE_R (pure2 CE_And) AndExpr_createPartial AndExpr_createPartialR AndExpr_create'.

Definition OrExpr_createPartial (l : expr) (cr : apint) : result expr :=
  if CE_isAllOnes cr then Ok (ConstantExpr cr)
  else if CE_isZero cr then Ok l
  else Ok (BinExpr Kind.Or l (ConstantExpr cr)).
Definition OrExpr_createPartialR (cl : apint) (r : expr) : result expr :=
  OrExpr_createPartial r cl.
Definition OrExpr_create' (l r : expr) : result expr := Ok (BinExpr Kind.Or l r).
Definition OrExpr_create : expr -> expr -> result expr :=
  BCREATE_R (pure2 CE_Or) OrExpr_createPartial OrExpr_createPartialR OrExpr_create'.

(** ** Mul *)
Definition MulExpr_createPartialR (cl : apint) (r : expr) : result expr :=
  if bw cl =? Bool then AndExpr_createPartialR cl r
  else if CE_isOne cl then Ok r
  else if CE_isZero cl then Ok (ConstantExpr cl)
  else Ok (BinExpr Kind.Mul (ConstantExpr cl) r).
Definition MulExpr_createPartial (l : expr) (cr : apint) : result expr :=
  MulExpr_createPartialR cr l.
Definition MulExpr_create' (l r : expr) : result expr :=
  if getWidth l =? Bool then Ok (BinExpr Kind.And l r) else Ok (BinExpr Kind.Mul l r).
Definition MulExpr_create : expr -> expr -> result expr :=
  BCREATE_R (pure2 CE_Mul) MulExpr_createPartial MulExpr_createPartialR MulExpr_create'.

(** ** Eq *)

(** [EqExpr_create] on two operands that are not both constant. *)
Definition EqExpr_create' (l r : expr) : result expr :=
  if expr_eqb l r then Ok (ConstantExpr (ConstantExpr_alloc 1 Bool))
  else Ok (BinExpr Kind.Eq l r).

(** The loop of [TryConstArrayOpt]: [mayBe i] is the comparison of the index
    with position [i], [fallback] the plain equality. *)
Fixpoint TryConstArrayOpt_loop (cl : apint) (mayBe : Z -> result expr)
    (fallback : result expr) (values : list apint) (i numMatches : Z) (res : expr) : result expr :=
  match values with
  | [] => Ok res
  | v :: values' =>
      if expr_eqb (ConstantExpr cl) (ConstantExpr v) then
        if 100 <? numMatches + 1 then fallback
        else
          m ← mayBe i;
          res' ← OrExpr_create res m;
          TryConstArrayOpt_loop cl mayBe fallback values' (i + 1) (numMatches + 1) res'
      else TryConstArrayOpt_loop cl mayBe fallback values' (i + 1) numMatches res
  end.

Fixpoint EqExpr_createPartialR (cl : apint) (r : expr) {struct r} : result expr :=
  (* EqExpr::create(l, c) for a constant c, and Expr::createIsZero(l) *)
  let EqExpr_create_c (l : expr) (c : apint) : result expr :=
    _ ← massert (getWidth l =? bw c);
    match l with
    | ConstantExpr cl => Ok (ConstantExpr (CE_Eq cl c))
    | _ => EqExpr_createPartialR c l
    end in
  let createIsZero (e : expr) : result expr :=
    z ← ConstantExpr_create 0 (getWidth e); EqExpr_create_c e z in
  let width := bw cl in
  if width =? Bool then
    if CE_isTrue cl then Ok r
    else
      match r with
      | BinExpr Kind.Eq (ConstantExpr CE) rt =>
          if (bw CE =? Bool) && CE_isFalse CE then Ok rt
          else EqExpr_create' (ConstantExpr cl) r
      | BinExpr Kind.Or lf rt =>
          a ← createIsZero lf; b ← createIsZero rt; AndExpr_create a b
      | _ => EqExpr_create' (ConstantExpr cl) r
      end
  else
    match r with
    | SExtExpr src _ =>
        let trunc := CE_ZExt cl (getWidth src) in
        if expr_eqb (ConstantExpr cl) (ConstantExpr (CE_SExt trunc width))
        then EqExpr_create_c src trunc
        else c ← ConstantExpr_create 0 Bool; Ok (ConstantExpr c)
    | ZExtExpr src _ =>
        let trunc := CE_ZExt cl (getWidth src) in
        if expr_eqb (ConstantExpr cl) (ConstantExpr (CE_ZExt trunc width))
        then EqExpr_create_c src trunc
        else c ← ConstantExpr_create 0 Bool; Ok (ConstantExpr c)
    | BinExpr Kind.Add (ConstantExpr k) rt =>
        _ ← massert (bw cl =? bw k); EqExpr_createPartialR (CE_Sub cl k) rt
    | BinExpr Kind.Sub (ConstantExpr k) rt =>
        _ ← massert (bw k =? bw cl); EqExpr_createPartialR (CE_Sub k cl) rt
    | ReadExpr root un index =>
        if ConstArrayOpt then
          if isSymbolicArray root || negb (node_size un =? 0)
          then EqExpr_create' (ConstantExpr cl) r
          else
            TryConstArrayOpt_loop cl
              (fun i => EqExpr_create_c index (ConstantExpr_alloc i (getWidth index)))
              (EqExpr_create' (ConstantExpr cl) r)
              (constantValues root) 0 0 (ConstantExpr (ConstantExpr_alloc 0 Bool))
        else EqExpr_create' (ConstantExpr cl) r
    | _ => EqExpr_create' (ConstantExpr cl) r
    end.

Definition EqExpr_createPartial (l : expr) (cr : apint) : result expr :=
  EqExpr_createPartialR cr l.
Definition EqExpr_create : expr -> expr -> result expr :=
  CMPCREATE_T (pure2 CE_Eq) EqExpr_createPartial EqExpr_createPartialR EqExpr_create'.

Definition createIsZero (e : expr) : result expr :=
  z ← ConstantExpr_create 0 (getWidth e); EqExpr_create e (ConstantExpr z).
Definition createImplies (hyp conc : expr) : result expr :=
  z ← createIsZero hyp; OrExpr_create z conc.

(** ** Xor *)
Definition XorExpr_createPartialR (cl : apint) (r : expr) : result expr :=
  if CE_isZero cl then Ok r
  else if bw cl =? Bool then
    z ← ConstantExpr_create 0 Bool; EqExpr_createPartial r z
  else Ok (BinExpr Kind.Xor (ConstantExpr cl) r).
Definition XorExpr_createPartial (l : expr) (cr : apint) : result expr :=
  XorExpr_createPartialR cr l.
Definition XorExpr_create' (l r : expr) : result expr := Ok (BinExpr Kind.Xor l r).
Definition XorExpr_create : expr -> expr -> result expr :=
  BCREATE_R (pure2 CE_Xor) XorExpr_createPartial XorExpr_createPartialR XorExpr_create'.

(** ** Add and Sub: a constant against an expression *)
Fixpoint AddExpr_createPartialR (cl : apint) (r : expr) {struct r} : result expr :=
  (* AddExpr::create(c, e) and SubExpr::create(c, e) for a constant c *)
  let AddExpr_create_c (c : apint) (e : expr) : result expr :=
    _ ← massert (bw c =? getWidth e);
    match e with
    | ConstantExpr cr => Ok (ConstantExpr (CE_Add c cr))
    | _ => AddExpr_createPartialR c e
    end in
  let SubExpr_create_c (c : apint) (e : expr) : result expr :=
    _ ← massert (bw c =? getWidth e);
    match e with
    | ConstantExpr cr => Ok (ConstantExpr (CE_Sub c cr))
    | _ => SubExpr_createPartialR c e
    end in
  if bw cl =? Bool then XorExpr_createPartialR cl r
  else if CE_isZero cl then Ok r
  else
    match r with
    | BinExpr Kind.Add (ConstantExpr k) c =>    (* A + (B+c) == (A+B) + c *)
        _ ← massert (bw cl =? bw k); AddExpr_create_c (CE_Add cl k) c
    | BinExpr Kind.Sub (ConstantExpr k) c =>    (* A + (B-c) == (A+B) - c *)
        _ ← massert (bw cl =? bw k); SubExpr_create_c (CE_Add cl k) c
    | _ => Ok (BinExpr Kind.Add (ConstantExpr cl) r)
    end
with SubExpr_createPartialR (cl : apint) (r : expr) {struct r} : result expr :=
  let AddExpr_create_c (c : apint) (e : expr) : result expr :=
    _ ← massert (bw c =? getWidth e);
    match e with
    | ConstantExpr cr => Ok (ConstantExpr (CE_Add c cr))
    | _ => AddExpr_createPartialR c e
    end in
  let SubExpr_create_c (c : apint) (e : expr) : result expr :=
    _ ← massert (bw c =? getWidth e);
    match e with
    | ConstantExpr cr => Ok (ConstantExpr (CE_Sub c cr))
    | _ => SubExpr_createPartialR c e
    end in
  if bw cl =? Bool then XorExpr_createPartialR cl r
  else
    match r with
    | BinExpr Kind.Add (ConstantExpr k) c =>    (* A - (B+c) == (A-B) - c *)
        _ ← massert (bw cl =? bw k); SubExpr_create_c (CE_Sub cl k) c
    | BinExpr Kind.Sub (ConstantExpr k) c =>    (* A - (B-c) == (A-B) + c *)
        _ ← massert (bw cl =? bw k); AddExpr_create_c (CE_Sub cl k) c
    | _ => Ok (BinExpr Kind.Sub (ConstantExpr cl) r)
    end.

Definition AddExpr_createPartial (l : expr) (cr : apint) : result expr :=
  AddExpr_createPartialR cr l.
Definition SubExpr_createPartial (l : expr) (cr : apint) : result expr :=
  AddExpr_createPartial l (CE_Sub (ConstantExpr_alloc 0 (bw cr)) cr).

(** ** Add and Sub: two expressions; [Add] and [Sub] are the recursive creates *)
Definition AddExpr_create' (Add Sub : expr -> expr -> result expr) (l r : expr) : result expr :=
  if getWidth l =? Bool then XorExpr_create' l r
  else
    match l, r with
    | BinExpr Kind.Add (ConstantExpr k) a, _ =>    (* (k+a)+b = k+(a+b) *)
        x ← Add a r; Add (ConstantExpr k) x
    | BinExpr Kind.Sub (ConstantExpr k) a, _ =>    (* (k-a)+b = k+(b-a) *)
        x ← Sub r a; Add (ConstantExpr k) x
    | _, BinExpr Kind.Add (ConstantExpr k) b =>    (* a + (k+b) = k+(a+b) *)
        x ← Add l b; Add (ConstantExpr k) x
    | _, BinExpr Kind.Sub (ConstantExpr k) b =>    (* a + (k-b) = k+(a-b) *)
        x ← Sub l b; Add (ConstantExpr k) x
    | _, _ => Ok (BinExpr Kind.Add l r)
    end.

Definition SubExpr_create' (Add Sub : expr -> expr -> result expr) (l r : expr) : result expr :=
  if getWidth l =? Bool then XorExpr_create' l r
  else if expr_eqb l r then Ok (ConstantExpr (ConstantExpr_alloc 0 (getWidth l)))
  else
    match l, r with
    | BinExpr Kind.Add (ConstantExpr k) a, _ =>    (* (k+a)-b = k+(a-b) *)
        x ← Sub a r; Add (ConstantExpr k) x
    | BinExpr Kind.Sub (ConstantExpr k) a, _ =>    (* (k-a)-b = k-(a+b) *)
        x ← Add a r; Sub (ConstantExpr k) x
    | _, BinExpr Kind.Add (ConstantExpr k) b =>    (* a - (k+b) = (a-b) - k *)
        x ← Sub l b; Sub x (ConstantExpr k)
    | _, BinExpr Kind.Sub (ConstantExpr k) b =>    (* a - (k-b) = (a+b) - k *)
        x ← Add l b; Sub x (ConstantExpr k)
    | _, _ => Ok (BinExpr Kind.Sub l r)
    end.

Fixpoint AddExpr_go (fuel : nat) (l r : expr) : result expr :=
  match fuel with
  | O => OutOfFuel
  | S n => BCREATE_R (pure2 CE_Add) AddExpr_createPartial AddExpr_createPartialR
             (AddExpr_create' (AddExpr_go n) (SubExpr_go n)) l r
  end
with SubExpr_go (fuel : nat) (l r : expr) : result expr :=
  match fuel with
  | O => OutOfFuel
  | S n => BCREATE_R (pure2 CE_Sub) SubExpr_createPartial SubExpr_createPartialR
             (SubExpr_create' (AddExpr_go n) (SubExpr_go n)) l r
  end.

(** Number of expression nodes, the measure of the recursions. *)
Fixpoint esize (e : expr) : nat :=
  match e with
  | ConstantExpr _ | ReadExpr _ _ _ => 1
  | NotOptimizedExpr e | ExtractExpr e _ _ | ZExtExpr e _ | SExtExpr e _ | NotExpr e =>
      S (esize e)
  | SelectExpr c t f => S (esize c + esize t + esize f)
  | ConcatExpr l r | BinExpr _ l r => S (esize l + esize r)
  end.

Definition AddExpr_create (l r : expr) : result expr := AddExpr_go (esize l + esize r) l r.
Definition SubExpr_create (l r : expr) : result expr := SubExpr_go (esize l + esize r) l r.

(** ** Division, remainder and shifts *)
Definition UDivExpr_create' (l r : expr) : result expr :=
  if getWidth l =? Bool then Ok l else Ok (BinExpr Kind.UDiv l r).
Definition SDivExpr_create' (l r : expr) : result expr :=
  if getWidth l =? Bool then Ok l else Ok (BinExpr Kind.SDiv l r).
Definition URemExpr_create' (l r : expr) : result expr :=
  if getWidth l =? Bool then z ← ConstantExpr_create 0 Bool; Ok (ConstantExpr z)
  else Ok (BinExpr Kind.URem l r).
Definition SRemExpr_create' (l r : expr) : result expr :=
  if getWidth l =? Bool then z ← ConstantExpr_create 0 Bool; Ok (ConstantExpr z)
  else Ok (BinExpr Kind.SRem l r).
Definition ShlExpr_create' (l r : expr) : result expr :=
  if getWidth l =? Bool then z ← createIsZero r; AndExpr_create l z
  else Ok (BinExpr Kind.Shl l r).
Definition LShrExpr_create' (l r : expr) : result expr :=
  if getWidth l =? Bool then z ← createIsZero r; AndExpr_create l z
  else Ok (BinExpr Kind.LShr l r).
Definition AShrExpr_create' (l r : expr) : result expr :=
  if getWidth l =? Bool then Ok l else Ok (BinExpr Kind.AShr l r).

Definition UDivExpr_create := BCREATE CE_UDiv UDivExpr_create'.
Definition SDivExpr_create := BCREATE CE_SDiv SDivExpr_create'.
Definition URemExpr_create := BCREATE CE_URem URemExpr_create'.
Definition SRemExpr_create := BCREATE CE_SRem SRemExpr_create'.
Definition ShlExpr_create := BCREATE (pure2 CE_Shl) ShlExpr_create'.
Definition LShrExpr_create := BCREATE (pure2 CE_LShr) LShrExpr_create'.
Definition AShrExpr_create := BCREATE (pure2 CE_AShr) AShrExpr_create'.

(** ** Comparisons *)
Definition NeExpr_create (l r : expr) : result expr :=
  z ← ConstantExpr_create 0 Bool; e ← EqExpr_create l r; EqExpr_create (ConstantExpr z) e.

Definition UltExpr_create' (l r : expr) : result expr :=
  if getWidth l =? Bool then z ← createIsZero l; AndExpr_create z r
  else Ok (BinExpr Kind.Ult l r).
Definition UleExpr_create' (l r : expr) : result expr :=
  if getWidth l =? Bool then z ← createIsZero l; OrExpr_create z r
  else Ok (BinExpr Kind.Ule l r).
Definition SltExpr_create' (l r : expr) : result expr :=
  if getWidth l =? Bool then z ← createIsZero r; AndExpr_create l z
  else Ok (BinExpr Kind.Slt l r).
Definition SleExpr_create' (l r : expr) : result expr :=
  if getWidth l =? Bool then z ← createIsZero r; OrExpr_create l z
  else Ok (BinExpr Kind.Sle l r).

Definition UltExpr_create := CMPCREATE (pure2 CE_Ult) UltExpr_create'.
Definition UleExpr_create := CMPCREATE (pure2 CE_Ule) UleExpr_create'.
Definition SltExpr_create := CMPCREATE (pure2 CE_Slt) SltExpr_create'.
Definition SleExpr_create := CMPCREATE (pure2 CE_Sle) SleExpr_create'.
Definition UgtExpr_create (l r : expr) : result expr := UltExpr_create r l.
Definition UgeExpr_create (l r : expr) : result expr := UleExpr_create r l.
Definition SgtExpr_create (l r : expr) : result expr := SltExpr_create r l.
Definition SgeExpr_create (l r : expr) : result expr := SleExpr_create r l.

(** The create of each binary kind. *)
Definition bin_create (k : Kind.bin) : expr -> expr -> result expr :=
  match k with
  | Kind.Add => AddExpr_create | Kind.Sub => SubExpr_create | Kind.Mul => MulExpr_create
  | Kind.UDiv => UDivExpr_create | Kind.SDiv => SDivExpr_create
  | Kind.URem => URemExpr_create | Kind.SRem => SRemExpr_create
  | Kind.And => AndExpr_create | Kind.Or => OrExpr_create | Kind.Xor => XorExpr_create
  | Kind.Shl => ShlExpr_create | Kind.LShr => LShrExpr_create | Kind.AShr => AShrExpr_create
  | Kind.Eq => EqExpr_create | Kind.Ne => NeExpr_create
  | Kind.Ult => UltExpr_create | Kind.Ule => UleExpr_create
  | Kind.Ugt => UgtExpr_create | Kind.Uge => UgeExpr_create
  | Kind.Slt => SltExpr_create | Kind.Sle => SleExpr_create
  | Kind.Sgt => SgtExpr_create | Kind.Sge => SgeExpr_create
  end.

(** ** Concat and Extract *)
Definition ConcatExpr_create' (Extract : expr -> Z -> Z -> result expr) (l r : expr) : result expr :=
  let w := u32 (getWidth l + getWidth r) in
  match l, r with
  | ConstantExpr lCE, ConstantExpr rCE => Ok (ConstantExpr (CE_Concat lCE rCE))
  | ExtractExpr el ol wl, ExtractExpr er or wr =>
      if expr_eqb el er && (u32 (or + wr) =? ol) then Extract el or w
      else Ok (ConcatExpr l r)
  | _, _ => Ok (ConcatExpr l r)
  end.

(** [ExtractExpr::create]; [Extract] is the recursive call. *)
Definition ExtractExpr_create' (Extract : expr -> Z -> Z -> result expr)
    (e : expr) (off w : Z) : result expr :=
  let kw := getWidth e in
  _ ← massert ((0 <? w) && (u32 (off + w) <=? kw));
  if w =? kw then Ok e
  else
    match e with
    | ConstantExpr CE => Ok (ConstantExpr (CE_Extract CE off w))
    | ConcatExpr x y =>
        if getWidth y <=? off then Extract x (u32 (off - getWidth y)) w
        else if u32 (off + w) <=? getWidth y then Extract y off w
        else
          a ← Extract x 0 (u32 (u32 (w - getWidth y) + off));
          b ← Extract y off (u32 (getWidth y - off));
          ConcatExpr_create' Extract a b
    | _ => Ok (ExtractExpr e off w)
    end.

Fixpoint ExtractExpr_go (fuel : nat) : expr -> Z -> Z -> result expr :=
  match fuel with
  | O => fun _ _ _ => OutOfFuel
  | S n => ExtractExpr_create' (ExtractExpr_go n)
  end.

Definition ExtractExpr_create (e : expr) (off w : Z) : result expr :=
  ExtractExpr_go (esize e) e off w.
Definition ConcatExpr_create (l r : expr) : result expr :=
  ConcatExpr_create' ExtractExpr_create l r.

(** The loop [for (int i=n_kids-3; i>=0; i--) r = create(kids[i], r)] runs over
    the kids from the last but two to the first. *)
Definition ConcatExpr_createN (kids : list expr) : result expr :=
  match reverse kids with
  | [] => AssertFail
  | [k] => Ok k
  | last :: prev :: rest =>
      r ← ConcatExpr_create prev last;
      foldl (fun acc k => r ← acc; ConcatExpr_create k r) (Ok r) rest
  end.
Definition ConcatExpr_create4 (k1 k2 k3 k4 : expr) : result expr :=
  a ← ConcatExpr_create k3 k4; b ← ConcatExpr_create k2 a; ConcatExpr_create k1 b.
Definition ConcatExpr_create8 (k1 k2 k3 k4 k5 k6 k7 k8 : expr) : result expr :=
  a ← ConcatExpr_create4 k5 k6 k7 k8; b ← ConcatExpr_create k4 a;
  c ← ConcatExpr_create k3 b; d ← ConcatExpr_create k2 c; ConcatExpr_create k1 d.

(** ** NotOptimized, Not, ZExt, SExt *)
Definition NotOptimizedExpr_create (src : expr) : result expr := Ok (NotOptimizedExpr src).
Definition NotExpr_create (e : expr) : result expr :=
  match e with ConstantExpr CE => Ok (ConstantExpr (CE_Not CE)) | _ => Ok (NotExpr e) end.
Definition ZExtExpr_create (e : expr) (w : Z) : result expr :=
  let kBits := getWidth e in
  if w =? kBits then Ok e
  else if w <? kBits then ExtractExpr_create e 0 w
  else match e with
       | ConstantExpr CE => Ok (ConstantExpr (CE_ZExt CE w))
       | _ => Ok (ZExtExpr e w)
       end.
Definition SExtExpr_create (e : expr) (w : Z) : result expr :=
  let kBits := getWidth e in
  if w =? kBits then Ok e
  else if w <? kBits then ExtractExpr_create e 0 w
  else match e with
       | ConstantExpr CE => Ok (ConstantExpr (CE_SExt CE w))
       | _ => Ok (SExtExpr e w)
       end.

(** Context.cpp: [pw] is the pointer width of the context. *)
Definition createSExtToPointerWidth (pw : Z) (e : expr) : result expr := SExtExpr_create e pw.
Definition createZExtToPointerWidth (pw : Z) (e : expr) : result expr := ZExtExpr_create e pw.
Definition createPointer (pw v : Z) : result apint := ConstantExpr_create v pw.

(** ** Select *)
Definition SelectExpr_create (c t f : expr) : result expr :=
  let kt := getWidth t in
  _ ← massert (getWidth c =? Bool);
  _ ← massert (kt =? getWidth f);
  match c with
  | ConstantExpr CE => Ok (if CE_isTrue CE then t else f)
  | _ =>
      if expr_eqb t f then Ok t
      else if kt =? Bool then
        match t, f with
        | ConstantExpr CE, _ =>
            if CE_isTrue CE then OrExpr_create c f
            else z ← createIsZero c; AndExpr_create z f
        | _, ConstantExpr CE =>
            if CE_isTrue CE then z ← createIsZero c; OrExpr_create z t
            else AndExpr_create c t
        | _, _ => Ok (SelectExpr c t f)
        end
      else Ok (SelectExpr c t f)
  end.

(** ** Read *)

(** The rollback loop of [ReadExpr::create]: the value of the first node known
    to be written at [index], or whether a node may alias it. *)
Inductive rollback := Found (value : expr) | SymbolicWrite | NoWrite.

Fixpoint ReadExpr_rollback (index : expr) (un : UpdateNode) : result rollback :=
  match un with
  | NullNode => Ok NoWrite
  | Node next ui value =>
      cond ← EqExpr_create index ui;
      match cond with
      | ConstantExpr CE => if CE_isTrue CE then Ok (Found value) else ReadExpr_rollback index next
      | _ => Ok SymbolicWrite
      end
  end.

Definition ReadExpr_create (ul : UpdateList) (index : expr) : result expr :=
  rb ← ReadExpr_rollback index (ul_head ul);
  match rb with
  | Found value => Ok value
  | _ =>
      let alloc := Ok (ReadExpr (ul_root ul) (ul_head ul) index) in
      match rb, index with
      | NoWrite, ConstantExpr CE =>
          if isConstantArray (ul_root ul) then
            _ ← massert (bw CE <=? 64);
            concreteIndex ← CE_getZExtValue CE 64;
            if concreteIndex <? arr_size (ul_root ul) then
              match constantValues (ul_root ul) !! Z.to_nat concreteIndex with
              | Some v => Ok (ConstantExpr v)
              | None => AssertFail
              end
            else alloc
          else alloc
      | _, _ => alloc
      end
  end.

(** [UpdateList::extend] *)
Definition UpdateList_extend (ul : UpdateList) (index value : expr) : result UpdateList :=
  _ ← massert (domain (ul_root ul) =? getWidth index);
  _ ← massert (range (ul_root ul) =? getWidth value);
  Ok {| ul_root := ul_root ul; ul_head := Node (ul_head ul) index value |}.

(** [Expr::createTempRead] *)
Definition createTempRead (array : Array) (w : Z) : result expr :=
  let rd i := ReadExpr_create {| ul_root := array; ul_head := NullNode |}
                (ConstantExpr (ConstantExpr_alloc i Int32)) in
  if w =? Bool then r0 ← rd 0; ZExtExpr_create r0 Bool
  else if w =? Int8 then rd 0
  else if w =? Int16 then r1 ← rd 1; r0 ← rd 0; ConcatExpr_create r1 r0
  else if w =? Int32 then
    r3 ← rd 3; r2 ← rd 2; r1 ← rd 1; r0 ← rd 0; ConcatExpr_create4 r3 r2 r1 r0
  else if w =? Int64 then
    r7 ← rd 7; r6 ← rd 6; r5 ← rd 5; r4 ← rd 4; r3 ← rd 3; r2 ← rd 2; r1 ← rd 1; r0 ← rd 0;
    ConcatExpr_create8 r7 r6 r5 r4 r3 r2 r1 r0
  else AssertFail.

(** ** createFromKind and rebuild *)
Inductive CreateArg := ArgExpr (e : expr) | ArgWidth (w : Z).

Definition createFromKind (k : Kind.t) (args : list CreateArg) : result expr :=
  match k, args with
  | Kind.NotOptimized, [ArgExpr e] => NotOptimizedExpr_create e
  | Kind.Select, [ArgExpr c; ArgExpr t; ArgExpr f] => SelectExpr_create c t f
  | Kind.Concat, [ArgExpr l; ArgExpr r] => ConcatExpr_create l r
  | Kind.ZExt, [ArgExpr e; ArgWidth w] =>
      _ ← massert (negb (w =? InvalidWidth)); ZExtExpr_create e w
  | Kind.SExt, [ArgExpr e; ArgWidth w] =>
      _ ← massert (negb (w =? InvalidWidth)); SExtExpr_create e w
  | Kind.Binary b, [ArgExpr l; ArgExpr r] => bin_create b l r
  | _, _ => AssertFail
  end.

(** [rebuild(kids)]: the same node over other kids. *)
Definition rebuild (e : expr) (ks : list expr) : result expr :=
  match e, ks with
  | NotOptimizedExpr _, [k] => NotOptimizedExpr_create k
  | ReadExpr root un _, [k] => ReadExpr_create {| ul_root := root; ul_head := un |} k
  | SelectExpr _ _ _, [c; t; f] => SelectExpr_create c t f
  | ConcatExpr _ _, [l; r] => ConcatExpr_create l r
  | ExtractExpr _ o w, [k] => ExtractExpr_create k o w
  | ZExtExpr _ w, [k] => ZExtExpr_create k w
  | SExtExpr _ w, [k] => SExtExpr_create k w
  | NotExpr _, [k] => NotExpr_create k
  | BinExpr b _ _, [l; r] => bin_create b l r
  | _, _ => AssertFail
  end.
End create.
