(* ===== verification/ExprCreateSound.v ===== *)
(** * The simplifying constructors preserve meaning

    The reference for [XExpr::create l r] is the plain node [XExpr l r] that a
    constructor without rewrites would allocate.  [builds m e] says that [m]
    returns (no assertion fails, no fuel runs out) an expression that is well
    typed, has the width of [e] and evaluates to what [e] evaluates to under
    every assignment.  Each constructor is shown to build its reference. *)

From S2P Require Import Prelude APInt ExprData Samples Bits ExprCompare ExprCreate.
Local Open Scope Z_scope.

Section refinement.
Context {CFG : Config}.

(** [e'] has a value, the same one, wherever [e] has one. *)
Definition refines (e' e : expr) : Prop :=
  forall rho v, eval rho e = Some v -> eval rho e' = Some v.

(** [e'] is a well-typed stand-in for [e]. *)
Definition impl (e' e : expr) : Prop :=
  wf e' /\ getWidth e' = getWidth e /\ refines e' e.

Definition builds (m : result expr) (e : expr) : Prop := returns m (fun e' => impl e' e).

#[global] Instance refines_preorder : PreOrder refines.
Proof. split; [by intros e rho v|]. intros a b c Hab Hbc rho v Hv. auto. Qed.

Lemma impl_refl e : wf e -> impl e e.
Proof. intros. split_and!; done. Qed.

Lemma impl_trans a b c : impl a b -> impl b c -> impl a c.
Proof. intros (? & E & H) (? & E' & H'). split_and!; [done|congruence|by transitivity b]. Qed.

Lemma builds_ok e' e : impl e' e -> builds (Ok e') e.
Proof. intros. by apply returns_ok. Qed.

Lemma builds_trans m e1 e2 : builds m e1 -> impl e1 e2 -> builds m e2.
Proof. intros H H'. eapply returns_weaken; [exact H|]. intros x Hx. by apply impl_trans with e1. Qed.

Lemma builds_bind m f e1 e2 :
  builds m e1 -> (forall x, impl x e1 -> builds (f x) e2) -> builds (m ≫= f) e2.
Proof. intros. eapply returns_bind; eauto. Qed.

Lemma builds_assert b (k : result expr) e :
  b = true -> builds k e -> builds (massert b ≫= fun _ => k) e.
Proof. apply returns_assert. Qed.

(** ** Congruence *)
Lemma impl_bin k l' r' l r :
  impl l' l -> impl r' r -> getWidth l = getWidth r ->
  impl (BinExpr k l' r') (BinExpr k l r).
Proof.
  intros (Hl & El & Rl) (Hr & Er & Rr) E. split_and!; simpl.
  - split_and!; [done|done|congruence].
  - by rewrite El.
  - intros rho v H; simpl in *. inv_option.
    rewrite (Rl _ _ H), (Rr _ _ H0). simpl. by rewrite El.
Qed.

Lemma impl_bin_l k l' l r :
  impl l' l -> wf r -> getWidth l = getWidth r -> impl (BinExpr k l' r) (BinExpr k l r).
Proof. intros. apply impl_bin; auto using impl_refl. Qed.

Lemma impl_bin_r k l r' r :
  impl r' r -> wf l -> getWidth l = getWidth r -> impl (BinExpr k l r') (BinExpr k l r).
Proof. intros. apply impl_bin; auto using impl_refl. Qed.

Lemma impl_concat l' r' l r :
  impl l' l -> impl r' r -> getWidth l + getWidth r < 2 ^ 32 ->
  impl (ConcatExpr l' r') (ConcatExpr l r).
Proof.
  intros (Hl & El & Rl) (Hr & Er & Rr) E. split_and!; simpl.
  - split_and!; [done|done|congruence].
  - by rewrite El, Er.
  - intros rho v H; simpl in *. inv_option. rewrite (Rl _ _ H), (Rr _ _ H0). simpl. by rewrite Er.
Qed.

Lemma impl_select c' t' f' c t f :
  impl c' c -> impl t' t -> impl f' f -> getWidth c = Bool -> getWidth t = getWidth f ->
  impl (SelectExpr c' t' f') (SelectExpr c t f).
Proof.
  intros (Hc & Ec & Rc) (Ht & Et & Rt) (Hf & Ef & Rf) Hb E. split_and!; simpl.
  - split_and!; congruence.
  - done.
  - intros rho v H; simpl in *. inv_option. by rewrite (Rc _ _ H), (Rt _ _ H0), (Rf _ _ H1).
Qed.
End refinement.
#[export] Hint Resolve impl_refl builds_ok : klee.

(** Decompose evaluations on both sides of a refinement goal. *)
Ltac refine_eval :=
  let rho := fresh "rho" in let v := fresh "v" in let H := fresh "Hev" in
  intros rho v H; simpl in H; inv_option; simpl;
  repeat match goal with E : eval _ _ = Some _ |- _ => rewrite E; simpl end;
  repeat match goal with E : eval _ ?e = Some ?x, W : wf ?e |- _ =>
    lazymatch goal with
    | _ : inw (getWidth e) x |- _ => fail
    | _ => pose proof (eval_inw _ e x W E)
    end end.

(** Case analysis on every one-bit value. *)
Ltac bit_cases :=
  repeat match goal with
  | H : inw Bool ?x |- _ => destruct (inw1_cases x H) as [-> | ->]; clear H
  end; try done.

Section sound.
Context {AP : APIntOps} {SP : APIntSpec AP} {CFG : Config}.

(** ** Constants *)
Lemma alloc_eq v w :
  0 < w -> inw 64 v -> ConstantExpr_alloc v w = APInt w (wrap w v).
Proof. apply ap_of_spec. Qed.

Lemma alloc_apok v w : 0 < w < 2 ^ 32 -> inw 64 v -> apok (ConstantExpr_alloc v w).
Proof. intros. rewrite alloc_eq by (done || lia). split; [done|]. apply wrap_inw; simpl; lia. Qed.

Lemma create_eq v w :
  0 < w -> inw 64 v -> (w <= 64 -> inw w v) ->
  ConstantExpr_create v w = Ok (ConstantExpr_alloc v w).
Proof.
  intros Hw Hv Hs. unfold ConstantExpr_create. destruct (Z.leb_spec w 64); [|done].
  rewrite bits64.truncateToNBits_eq by lia. simpl. rewrite wrap_small by auto.
  by rewrite Z.eqb_refl.
Qed.

(** The only constants the rewrites allocate are 0 and 1. *)
Lemma alloc0_eq w : 0 < w -> ConstantExpr_alloc 0 w = APInt w 0.
Proof. intros. by rewrite alloc_eq. Qed.
Lemma alloc1_eq w : 0 < w -> ConstantExpr_alloc 1 w = APInt w 1.
Proof. intros. rewrite alloc_eq by done. by rewrite wrap_small by (apply inw_1; lia). Qed.
Lemma create0_eq w : 0 < w -> ConstantExpr_create 0 w = Ok (APInt w 0).
Proof. intros. rewrite create_eq by (auto with klee lia; done). by rewrite alloc0_eq. Qed.
Lemma apok0 w : 0 < w < 2 ^ 32 -> apok (APInt w 0).
Proof. intros. split; [done|]. apply inw_0. simpl; lia. Qed.
Lemma apok1 w : 0 < w < 2 ^ 32 -> apok (APInt w 1).
Proof. intros. split; [done|]. apply inw_1. simpl; lia. Qed.

Lemma isZero_eq c : apok c -> CE_isZero c = (raw c =? 0).
Proof. apply ap_isMinValue_spec. Qed.
Lemma isAllOnes_eq c : apok c -> CE_isAllOnes c = (raw c =? 2 ^ bw c - 1).
Proof. apply ap_isAllOnesValue_spec. Qed.
Lemma isTrue_eq c : apok c -> bw c = Bool -> CE_isTrue c = (raw c =? 1).
Proof.
  intros H E. unfold CE_isTrue. rewrite E, ap_getBoolValue_spec by done. simpl.
  destruct H as [_ H]. rewrite E in H. by destruct (inw1_cases _ H) as [-> | ->].
Qed.
Lemma isFalse_eq c : apok c -> bw c = Bool -> CE_isFalse c = (raw c =? 0).
Proof.
  intros H E. unfold CE_isFalse. rewrite E, ap_getBoolValue_spec by done. simpl.
  by rewrite negb_involutive.
Qed.
Lemma isOne_eq c : apok c -> CE_isOne c = (raw c =? 1).
Proof.
  intros H. unfold CE_isOne, CE_getLimitedValue.
  rewrite ap_getLimitedValue_spec by (done || (unfold inw; lia)).
  destruct (Z.eqb_spec (raw c) 1) as [-> |]; [done|].
  destruct (Z.eqb_spec (Z.min (raw c) (2 ^ 64 - 1)) 1); lia.
Qed.

(** Division of constants is folded by LLVM, which asserts a non-zero divisor. *)
Definition isDiv (k : Kind.bin) : bool :=
  match k with Kind.UDiv | Kind.SDiv | Kind.URem | Kind.SRem => true | _ => false end.
Definition zero_fold (k : Kind.bin) (l r : expr) : bool :=
  isDiv k && match l, r with ConstantExpr _, ConstantExpr c => raw c =? 0 | _, _ => false end.
Definition div_ok (k : Kind.bin) (l r : expr) : Prop := zero_fold k l r = false.

Lemma not_div_ok k l r : isDiv k = false -> div_ok k l r.
Proof. unfold div_ok, zero_fold. by intros ->. Qed.

Lemma alloc_bool_eq b : ConstantExpr_alloc (Z.b2z b) Bool = APInt Bool (Z.b2z b).
Proof. destruct b; [by apply alloc1_eq|by apply alloc0_eq]. Qed.

(** Constant folding computes the bit-vector operation. *)
Lemma CE_op_eq k l r v :
  appair l r -> sem_bin k (bw l) (raw l) (raw r) = Some v ->
  CE_op k l r = Ok (APInt (bin_width k (bw l)) v).
Proof.
  intros H Hs. pose proof H as (Hl & Hr & E).
  destruct k; simpl in *; unfold pure2;
    unfold CE_Add, CE_Sub, CE_Mul, CE_UDiv, CE_SDiv, CE_URem, CE_SRem, CE_And, CE_Or, CE_Xor,
      CE_Shl, CE_LShr, CE_AShr, CE_Eq, CE_Ne, CE_Ult, CE_Ule, CE_Ugt, CE_Uge, CE_Slt, CE_Sle,
      CE_Sgt, CE_Sge, bin_width; rewrite ?alloc_bool_eq;
    rewrite ?ap_udiv_spec, ?ap_sdiv_spec, ?ap_urem_spec, ?ap_srem_spec by done;
    try case_match; inv_option; bool_to_prop;
    first [done|by rewrite ap_add_spec|by rewrite ap_sub_spec|by rewrite ap_mul_spec
      |by rewrite ap_and_spec|by rewrite ap_or_spec
      |by rewrite ap_xor_spec|by rewrite ap_shl_spec|by rewrite ap_lshr_spec
      |by rewrite ap_ashr_spec|by rewrite ap_eq_spec|by rewrite ap_ult_spec
      |by rewrite ap_ule_spec|by rewrite ap_ugt_spec|by rewrite ap_uge_spec
      |by rewrite ap_slt_spec|by rewrite ap_sle_spec|by rewrite ap_sgt_spec
      |by rewrite ap_sge_spec].
Qed.

Lemma bin_width_range k w : 0 < w < 2 ^ 32 -> 0 < bin_width k w < 2 ^ 32.
Proof. unfold bin_width, Bool. case_match; lia. Qed.

Lemma sem_bin_total k w a b : (isDiv k = true -> b <> 0) -> exists v, sem_bin k w a b = Some v.
Proof.
  intros H. destruct k; simpl in *; eauto; destruct (Z.eqb_spec b 0); eauto; by destruct H.
Qed.

Lemma CE_op_builds k l r :
  appair l r -> div_ok k (ConstantExpr l) (ConstantExpr r) ->
  builds (c ← CE_op k l r; Ok (ConstantExpr c)) (BinExpr k (ConstantExpr l) (ConstantExpr r)).
Proof.
  intros H Hd. pose proof H as ((Wl & Vl) & (Wr & Vr) & E).
  destruct (sem_bin_total k (bw l) (raw l) (raw r)) as [v Hv].
  { intros Hk Hz. unfold div_ok, zero_fold in Hd. by rewrite Hk, Hz in Hd. }
  rewrite (CE_op_eq k l r v) by done. apply builds_ok. split_and!; simpl.
  - split; simpl; [by apply bin_width_range|].
    eapply sem_bin_inw; [|exact Vl| |exact Hv]; [lia|]. by rewrite E.
  - done.
  - intros rho v' H'. simpl in *. congruence.
Qed.

(** The operations that are not divisions. *)
Lemma CE_pure_impl k f l r :
  CE_op k = pure2 f -> isDiv k = false -> appair l r ->
  impl (ConstantExpr (f l r)) (BinExpr k (ConstantExpr l) (ConstantExpr r)).
Proof.
  intros Hf Hk H. destruct (CE_op_builds k l r H) as (e & He & HI); [by apply not_div_ok|].
  rewrite Hf in He. simpl in He. by injection He as <-.
Qed.

(** A literal division by zero is caught by LLVM's assertion. *)
Lemma CE_op_zero k l r :
  appair l r -> isDiv k = true -> raw r = 0 -> CE_op k l r = AssertFail.
Proof.
  intros H Hk Hz. destruct k; try discriminate; simpl; unfold CE_UDiv, CE_SDiv, CE_URem, CE_SRem;
    first [by rewrite ap_udiv_spec, Hz|by rewrite ap_sdiv_spec, Hz
          |by rewrite ap_urem_spec, Hz|by rewrite ap_srem_spec, Hz].
Qed.

(** ** The macros *)
Lemma BCREATE_R_builds k pL pR cr l r :
  wf l -> wf r -> getWidth l = getWidth r -> div_ok k l r ->
  (forall c, l = ConstantExpr c -> builds (pR c r) (BinExpr k l r)) ->
  (forall c, r = ConstantExpr c -> isConst l = false -> builds (pL l c) (BinExpr k l r)) ->
  (isConst l = false -> isConst r = false -> builds (cr l r) (BinExpr k l r)) ->
  builds (BCREATE_R (CE_op k) pL pR cr l r) (BinExpr k l r).
Proof.
  intros Hl Hr E Hd HR HL HC. unfold BCREATE_R. apply builds_assert; [by apply Z.eqb_eq|].
  destruct l, r; auto. by apply CE_op_builds.
Qed.

Lemma BCREATE_builds k cr l r :
  wf l -> wf r -> getWidth l = getWidth r -> div_ok k l r ->
  builds (cr l r) (BinExpr k l r) ->
  builds (BCREATE (CE_op k) cr l r) (BinExpr k l r).
Proof.
  intros Hl Hr E Hd HC. unfold BCREATE. apply builds_assert; [by apply Z.eqb_eq|].
  destruct l, r; auto. by apply CE_op_builds.
Qed.

(** ** Commutativity *)
Definition isComm (k : Kind.bin) : bool :=
  match k with
  | Kind.Add | Kind.Mul | Kind.And | Kind.Or | Kind.Xor | Kind.Eq => true | _ => false end.

Lemma impl_comm k l r :
  isComm k = true -> wf l -> wf r -> getWidth l = getWidth r ->
  impl (BinExpr k r l) (BinExpr k l r).
Proof.
  intros Hk Hl Hr E. split_and!; simpl; [done| |].
  - by rewrite E.
  - refine_eval. match goal with H : sem_bin _ _ _ _ = Some _ |- _ => rewrite <- E, <- H end.
    destruct k; try discriminate; simpl; unfold bv_add, bv_mul;
      f_equal; first [by rewrite Z.add_comm|by rewrite Z.mul_comm|apply Z.land_comm
        |apply Z.lor_comm|apply Z.lxor_comm|by rewrite Z.eqb_sym].
Qed.

(** ** And, Or, Mul *)
Lemma AndExpr_createPartial_builds l c :
  wf l -> apok c -> getWidth l = bw c ->
  builds (AndExpr_createPartial l c) (BinExpr Kind.And l (ConstantExpr c)).
Proof.
  intros Hl Hc E. unfold AndExpr_createPartial. rewrite isAllOnes_eq, isZero_eq by done.
  destruct (Z.eqb_spec (raw c) (2 ^ bw c - 1)) as [Ho|]; [|destruct (Z.eqb_spec (raw c) 0) as [Hz|]];
    apply builds_ok; split_and!; simpl; try done.
  - refine_eval. rewrite Ho, land_ones_wrap, wrap_small; [done|by rewrite <- E|].
    destruct Hc; lia.
  - refine_eval. by rewrite Hz, Z.land_0_r.
Qed.

Lemma AndExpr_create_builds l r :
  wf l -> wf r -> getWidth l = getWidth r ->
  builds (AndExpr_create l r) (BinExpr Kind.And l r).
Proof.
  intros Hl Hr E. apply (BCREATE_R_builds Kind.And); auto using not_div_ok.
  - intros c ->. eapply builds_trans; [by apply AndExpr_createPartial_builds|by apply impl_comm].
  - intros c ->. by intros; apply AndExpr_createPartial_builds.
  - intros _ _. apply builds_ok, impl_refl. done.
Qed.

Lemma OrExpr_createPartial_builds l c :
  wf l -> apok c -> getWidth l = bw c ->
  builds (OrExpr_createPartial l c) (BinExpr Kind.Or l (ConstantExpr c)).
Proof.
  intros Hl Hc E. unfold OrExpr_createPartial. rewrite isAllOnes_eq, isZero_eq by done.
  destruct (Z.eqb_spec (raw c) (2 ^ bw c - 1)) as [Ho|]; [|destruct (Z.eqb_spec (raw c) 0) as [Hz|]];
    apply builds_ok; split_and!; simpl; try done.
  - refine_eval. rewrite Ho, lor_ones; [done|destruct Hc; lia|by rewrite <- E].
  - refine_eval. by rewrite Hz, Z.lor_0_r.
Qed.

Lemma OrExpr_create_builds l r :
  wf l -> wf r -> getWidth l = getWidth r ->
  builds (OrExpr_create l r) (BinExpr Kind.Or l r).
Proof.
  intros Hl Hr E. apply (BCREATE_R_builds Kind.Or); auto using not_div_ok.
  - intros c ->. eapply builds_trans; [by apply OrExpr_createPartial_builds|by apply impl_comm].
  - intros c ->. by intros; apply OrExpr_createPartial_builds.
  - intros _ _. apply builds_ok, impl_refl. done.
Qed.

(** On one bit, multiplication is conjunction. *)
Lemma impl_and_mul l r :
  wf l -> wf r -> getWidth l = Bool -> getWidth r = Bool ->
  impl (BinExpr Kind.And l r) (BinExpr Kind.Mul l r).
Proof.
  intros Hl Hr El Er. split_and!; simpl; [split_and!; congruence|done|].
  refine_eval. rewrite El, Er in *. bit_cases.
Qed.

Lemma MulExpr_createPartialR_builds c r :
  wf r -> apok c -> bw c = getWidth r ->
  builds (MulExpr_createPartialR c r) (BinExpr Kind.Mul (ConstantExpr c) r).
Proof.
  intros Hr Hc E. unfold MulExpr_createPartialR. rewrite isOne_eq, isZero_eq by done.
  destruct (Z.eqb_spec (bw c) Bool) as [Eb|].
  { eapply builds_trans; [by apply AndExpr_createPartial_builds|].
    apply impl_trans with (BinExpr Kind.And (ConstantExpr c) r); [by apply impl_comm|].
    apply impl_and_mul; auto; congruence. }
  destruct (Z.eqb_spec (raw c) 1) as [H1|]; [|destruct (Z.eqb_spec (raw c) 0) as [H0|]];
    apply builds_ok; split_and!; simpl; try done.
  - refine_eval. unfold bv_mul. rewrite H1, Z.mul_1_l, wrap_small; [done|by rewrite E].
  - refine_eval. unfold bv_mul. by rewrite H0.
Qed.

Lemma MulExpr_create_builds l r :
  wf l -> wf r -> getWidth l = getWidth r ->
  builds (MulExpr_create l r) (BinExpr Kind.Mul l r).
Proof.
  intros Hl Hr E. apply (BCREATE_R_builds Kind.Mul); auto using not_div_ok.
  - intros c ->. by apply MulExpr_createPartialR_builds.
  - intros c -> _. eapply builds_trans; [by apply MulExpr_createPartialR_builds|by apply impl_comm].
  - intros _ _. unfold MulExpr_create'. destruct (Z.eqb_spec (getWidth l) Bool);
      apply builds_ok; [apply impl_and_mul; congruence|by apply impl_refl].
Qed.

(** ** Eq *)
Lemma EqExpr_create'_builds l r :
  wf l -> wf r -> getWidth l = getWidth r ->
  builds (EqExpr_create' l r) (BinExpr Kind.Eq l r).
Proof.
  intros Hl Hr E. unfold EqExpr_create'. destruct (expr_eqb l r) eqn:Eq; apply builds_ok.
  - apply expr_eqb_eq in Eq; [subst r|done..]. rewrite alloc1_eq by done.
    split_and!; [by apply apok1|done|]. refine_eval. simplify_eq. by rewrite Z.eqb_refl.
  - by apply impl_refl.
Qed.

(** The local [EqExpr_create_c] of [EqExpr_createPartialR]. *)
Lemma Eq_c_builds l c :
  (forall c, apok c -> bw c = getWidth l ->
     builds (EqExpr_createPartialR c l) (BinExpr Kind.Eq (ConstantExpr c) l)) ->
  wf l -> apok c -> getWidth l = bw c ->
  builds (_ ← massert (getWidth l =? bw c);
          match l with
          | ConstantExpr cl => Ok (ConstantExpr (CE_Eq cl c))
          | _ => EqExpr_createPartialR c l
          end) (BinExpr Kind.Eq l (ConstantExpr c)).
Proof.
  intros IH Hl Hc E. apply builds_assert; [by apply Z.eqb_eq|].
  assert (builds (EqExpr_createPartialR c l) (BinExpr Kind.Eq l (ConstantExpr c))) as Hn.
  { eapply builds_trans; [by apply IH|by apply impl_comm]. }
  destruct l; try exact Hn.
  by apply builds_ok, (CE_pure_impl Kind.Eq CE_Eq).
Qed.

Lemma isZero_c_builds e (rec : apint -> result expr) :
  wf e ->
  (forall c, apok c -> getWidth e = bw c -> builds (rec c) (BinExpr Kind.Eq e (ConstantExpr c))) ->
  builds (z ← ConstantExpr_create 0 (getWidth e); rec z)
    (BinExpr Kind.Eq e (ConstantExpr (APInt (getWidth e) 0))).
Proof.
  intros He Hrec. pose proof (wf_width e He).
  rewrite create0_eq by lia. simpl. apply Hrec; [by apply apok0|done].
Qed.

(** Not of a disjunction is the conjunction of the negations. *)
Lemma impl_not_or a b :
  wf a -> wf b -> getWidth a = Bool -> getWidth b = Bool ->
  impl (BinExpr Kind.And (BinExpr Kind.Eq a (ConstantExpr (APInt Bool 0)))
                         (BinExpr Kind.Eq b (ConstantExpr (APInt Bool 0))))
       (BinExpr Kind.Eq (ConstantExpr (APInt Bool 0)) (BinExpr Kind.Or a b)).
Proof.
  intros Ha Hb Ea Eb. pose proof (apok0 Bool ltac:(done)) as Hz.
  split_and!; simpl; [split_and!; done|done|].
  refine_eval. rewrite Ea, Eb in *. bit_cases.
Qed.

(** Not of not. *)
Lemma impl_not_not a :
  wf a -> getWidth a = Bool ->
  impl a (BinExpr Kind.Eq (ConstantExpr (APInt Bool 0))
           (BinExpr Kind.Eq (ConstantExpr (APInt Bool 0)) a)).
Proof.
  intros Ha Ea. split_and!; [done|done|]. refine_eval. rewrite Ea in *. bit_cases.
Qed.

Lemma apint_eta c : c = APInt (bw c) (raw c).
Proof. by destruct c. Qed.

(** Truncating an extension gives back the extended value. *)
Lemma zext_trunc ws w a : 0 < ws <= w -> inw ws a -> wrap ws (bv_zext ws w a) = a.
Proof.
  intros Hw Ha. unfold bv_zext. rewrite (wrap_small w a); [by apply wrap_small|].
  eapply inw_mono; [|exact Ha]. lia.
Qed.

Lemma sext_trunc ws w a : 0 < ws <= w -> inw ws a -> wrap ws (bv_sext ws w a) = a.
Proof.
  intros Hw Ha. unfold bv_sext, wrap. replace (2 ^ w) with (2 ^ ws * 2 ^ (w - ws)).
  2:{ rewrite <- pow2_split by lia. f_equal. lia. }
  pose proof (pow2_pos ws). pose proof (pow2_pos (w - ws)).
  rewrite Z.rem_mul_r, Z.mul_comm, Z_mod_plus_full, Z.mod_mod by lia.
  pose proof (sgn_mod ws a ltac:(lia)) as E. unfold wrap in E. rewrite E. by apply Z.mod_small.
Qed.

(** [ext(a) == c] iff [a] is the truncation of [c], when [c] is the extension of
    its truncation; otherwise never.  [ext] is either extension. *)
Lemma impl_eq_ext (ext : Z -> Z -> Z -> Z) (mk : expr -> Z -> expr) c src w :
  (forall rho, eval rho (mk src w) = (a ← eval rho src; Some (ext (getWidth src) w a))) ->
  getWidth (mk src w) = w -> wf (mk src w) ->
  (forall a, inw (getWidth src) a -> wrap (getWidth src) (ext (getWidth src) w a) = a) ->
  wf src -> apok c -> bw c = w ->
  let t := APInt (getWidth src) (wrap (getWidth src) (raw c)) in
  if raw c =? ext (getWidth src) w (raw t)
  then impl (BinExpr Kind.Eq src (ConstantExpr t)) (BinExpr Kind.Eq (ConstantExpr c) (mk src w))
  else impl (ConstantExpr (APInt Bool 0)) (BinExpr Kind.Eq (ConstantExpr c) (mk src w)).
Proof.
  intros Hev Hw Hmk Ht Hs Hc E t. pose proof (wf_width src Hs) as Hws.
  assert (Htok : apok t) by (split; [done|apply wrap_inw; simpl; lia]).
  destruct (Z.eqb_spec (raw c) (ext (getWidth src) w (raw t))) as [Eq|Ne]; split_and!; simpl; try done.
  - intros rho v H; simpl in *. rewrite Hev in H.
    destruct (eval rho src) as [a|] eqn:Ea; [|done]. simpl in H. injection H as <-. simpl.
    pose proof (eval_inw rho src a Hs Ea) as Hx. do 2 f_equal.
    destruct (Z.eqb_spec a (wrap (getWidth src) (raw c))) as [-> |N].
    + by rewrite <- Eq, Z.eqb_refl.
    + destruct (Z.eqb_spec (raw c) (ext (getWidth src) w a)) as [E'|]; [|done].
      destruct N. by rewrite E', Ht.
  - intros rho v H; simpl in *. rewrite Hev in H.
    destruct (eval rho src) as [a|] eqn:Ea; [|done]. simpl in H. injection H as <-.
    pose proof (eval_inw rho src a Hs Ea) as Hx.
    destruct (Z.eqb_spec (raw c) (ext (getWidth src) w a)) as [E'|]; [|done].
    destruct Ne. by rewrite E', Ht.
Qed.

Lemma const_eqb_eq c d : apok c -> apok d -> bw c = bw d ->
  expr_eqb (ConstantExpr c) (ConstantExpr d) = (raw c =? raw d).
Proof.
  intros Hc Hd E. pose proof (expr_eqb_spec (ConstantExpr c) (ConstantExpr d) Hc Hd) as H.
  destruct (Z.eqb_spec (raw c) (raw d)).
  - apply H. destruct c, d; simpl in *; congruence.
  - destruct (expr_eqb _ _); [|done]. destruct H as [H _]. specialize (H eq_refl). congruence.
Qed.

Lemma CE_ZExt_eq c w : apok c -> 0 < w -> CE_ZExt c w = APInt w (wrap w (raw c)).
Proof. apply ap_zextOrTrunc_spec. Qed.
Lemma CE_SExt_eq c w : apok c -> 0 < w -> CE_SExt c w = APInt w (bv_sext (bw c) w (raw c)).
Proof. apply ap_sextOrTrunc_spec. Qed.
Lemma CE_Sub_eq c d : appair c d -> CE_Sub c d = APInt (bw c) (bv_sub (bw c) (raw c) (raw d)).
Proof. apply ap_sub_spec. Qed.
Lemma CE_Add_eq c d : appair c d -> CE_Add c d = APInt (bw c) (bv_add (bw c) (raw c) (raw d)).
Proof. apply ap_add_spec. Qed.

Lemma CE_Sub_apok c d : appair c d -> apok (CE_Sub c d) /\ bw (CE_Sub c d) = bw c.
Proof.
  intros H. rewrite CE_Sub_eq by done. destruct H as ((? & ?) & _). split; [|done].
  split; [done|]. apply bv_sub_inw; simpl; lia.
Qed.
Lemma CE_Add_apok c d : appair c d -> apok (CE_Add c d) /\ bw (CE_Add c d) = bw c.
Proof.
  intros H. rewrite CE_Add_eq by done. destruct H as ((? & ?) & _). split; [|done].
  split; [done|]. apply bv_add_inw; simpl; lia.
Qed.

(** Moving a constant across an equation. *)
Lemma impl_eq_add c k b :
  appair c k -> wf b -> getWidth b = bw k ->
  impl (BinExpr Kind.Eq (ConstantExpr (CE_Sub c k)) b)
       (BinExpr Kind.Eq (ConstantExpr c) (BinExpr Kind.Add (ConstantExpr k) b)).
Proof.
  intros Hp Hb E. destruct (CE_Sub_apok c k Hp) as [Hok Hw]. pose proof Hp as (Hc & Hk & Ek).
  split_and!; simpl; [split_and!; congruence|done|]. refine_eval.
  rewrite CE_Sub_eq by done. simpl. do 2 f_equal. unfold bv_sub, bv_add. rewrite Ek.
  assert (0 < bw k) by (destruct Hk; lia). assert (inw (bw k) (raw c)) by (rewrite <- Ek; apply Hc).
  match goal with H : eval _ b = Some ?x |- _ => rename x into b' end.
  assert (inw (bw k) b') by (by rewrite <- E). apply eqb_iff. split.
  - intros <-. rewrite wrap_add_r by lia. rewrite <- (wrap_small (bw k) (raw c)) at 1 by done.
    f_equal. lia.
  - intros ->. rewrite wrap_sub_l by lia. rewrite <- (wrap_small (bw k) b') at 2 by done.
    f_equal. lia.
Qed.

Lemma impl_eq_sub c k b :
  appair k c -> wf b -> getWidth b = bw k ->
  impl (BinExpr Kind.Eq (ConstantExpr (CE_Sub k c)) b)
       (BinExpr Kind.Eq (ConstantExpr c) (BinExpr Kind.Sub (ConstantExpr k) b)).
Proof.
  intros Hp Hb E. destruct (CE_Sub_apok k c Hp) as [Hok Hw]. pose proof Hp as (Hk & Hc & Ek).
  split_and!; simpl; [split_and!; congruence|done|]. refine_eval.
  rewrite CE_Sub_eq by done. simpl. do 2 f_equal. unfold bv_sub. rewrite <- ?Ek.
  assert (0 < bw k) by (destruct Hk; lia). assert (inw (bw k) (raw c)) by (rewrite Ek; apply Hc).
  match goal with H : eval _ b = Some ?x |- _ => rename x into b' end.
  assert (inw (bw k) b') by (by rewrite <- E). apply eqb_iff. split.
  - intros <-. rewrite wrap_sub_r by lia. rewrite <- (wrap_small (bw k) (raw c)) at 1 by done.
    f_equal. lia.
  - intros ->. rewrite wrap_sub_r by lia. rewrite <- (wrap_small (bw k) b') at 2 by done.
    f_equal. lia.
Qed.

(** ** TryConstArrayOpt *)
Definition hit (cl : apint) (vs : list apint) (i : Z) : bool :=
  match vs !! Z.to_nat i with Some c => raw cl =? raw c | None => false end.

Lemma hit_snoc cl pre v i :
  0 <= i ->
  hit cl (pre ++ [v]) i = hit cl pre i || ((i =? Z.of_nat (length pre)) && (raw cl =? raw v)).
Proof.
  intros Hi. unfold hit. destruct (Z.lt_trichotomy i (Z.of_nat (length pre))) as [H|[H|H]].
  - rewrite lookup_app_l by lia. destruct (Z.eqb_spec i (Z.of_nat (length pre))); [lia|].
    by rewrite orb_false_r.
  - rewrite lookup_app_r, H, Nat2Z.id, Nat.sub_diag, Z.eqb_refl by lia.
    rewrite (lookup_ge_None_2 pre) by lia. done.
  - rewrite lookup_app_r by lia. destruct (Z.eqb_spec i (Z.of_nat (length pre))); [lia|].
    rewrite !lookup_ge_None_2 by (simpl; lia). done.
Qed.

Lemma const_array_dom root :
  wf_array root -> isSymbolicArray root = false ->
  Z.of_nat (length (constantValues root)) = arr_size root /\
  Forall (fun c => apok c /\ bw c = range root) (constantValues root).
Proof.
  intros (_ & _ & _ & _ & Hc) Hs. unfold isSymbolicArray in Hs.
  destruct Hc as [E|Hc]; [by rewrite E in Hs|done].
Qed.

Lemma TryConstArrayOpt_loop_builds root idx cl mayBe fallback :
  ConstArrayOpt = true -> wf (ReadExpr root NullNode idx) -> isSymbolicArray root = false ->
  apok cl -> bw cl = range root ->
  builds fallback (BinExpr Kind.Eq (ConstantExpr cl) (ReadExpr root NullNode idx)) ->
  (forall i, 0 <= i < arr_size root ->
     builds (mayBe i) (BinExpr Kind.Eq idx (ConstantExpr (APInt (getWidth idx) i)))) ->
  forall values pre res n,
  constantValues root = pre ++ values ->
  wf res -> getWidth res = Bool ->
  (forall rho vi, eval rho idx = Some vi -> eval rho res = Some (Z.b2z (hit cl pre vi))) ->
  builds (TryConstArrayOpt_loop cl mayBe fallback values (Z.of_nat (length pre)) n res)
    (BinExpr Kind.Eq (ConstantExpr cl) (ReadExpr root NullNode idx)).
Proof.
  intros Hopt Hwf Hs Hcl Ew Hfb Hmay. pose proof Hwf as (Ha & _ & Hi & _).
  destruct (const_array_dom root Ha Hs) as [Hlen Hvals].
  induction values as [|v values IH]; intros pre res n Epre Hres Wres Eres; simpl.
  - apply builds_ok. rewrite app_nil_r in Epre. split_and!; [done|done|].
    intros rho v H. simpl in H. inv_option. rewrite (Eres rho _ H). simpl in *.
    unfold initial in *. rewrite Hs, Hopt in *. case_match; [|done]. bool_to_prop.
    match goal with H : raw <$> _ = Some _ |- _ => apply fmap_Some in H as (c & Hc & ->) end.
    unfold hit. by rewrite Hc.
  - assert (Hv : apok v /\ bw v = range root).
    { rewrite Epre in Hvals. apply Forall_app in Hvals as [_ Hvals]. by inversion Hvals. }
    assert (Hpos : Z.of_nat (length pre) < arr_size root)
      by (rewrite <- Hlen, Epre, length_app; simpl; lia).
    rewrite const_eqb_eq by (tauto || destruct Hv; congruence).
    replace (Z.of_nat (length pre) + 1) with (Z.of_nat (length (pre ++ [v])))
      by (rewrite length_app; simpl; lia).
    destruct (Z.eqb_spec (raw cl) (raw v)) as [Eq|Ne].
    + case_match; [done|]. eapply builds_bind; [apply Hmay; lia|]. intros m Hm.
      eapply builds_bind.
      { apply OrExpr_create_builds; [done|apply Hm|]. destruct Hm as (_ & -> & _). done. }
      intros res' (Wr & Er & Rr). apply IH; [by rewrite <- app_assoc|done|by rewrite Er|].
      intros rho vi Hvi. apply Rr. simpl. rewrite (Eres rho vi Hvi). simpl.
      pose proof (eval_inw rho idx vi Hi Hvi) as [Hvi0 _].
      destruct Hm as (_ & _ & Rm). rewrite (Rm rho (Z.b2z (vi =? Z.of_nat (length pre)))).
      2:{ simpl. by rewrite Hvi. }
      simpl. rewrite hit_snoc, Eq, Z.eqb_refl, andb_true_r by done.
      by destruct (hit cl pre vi), (vi =? Z.of_nat (length pre)).
    + apply IH; [by rewrite <- app_assoc|done|done|]. intros rho vi Hvi.
      pose proof (eval_inw rho idx vi Hi Hvi) as [Hvi0 _].
      rewrite (Eres rho vi Hvi), hit_snoc by done.
      destruct (Z.eqb_spec (raw cl) (raw v)); [done|]. by rewrite andb_false_r, orb_false_r.
Qed.

(** ** EqExpr_createPartialR *)

(** A false one-bit constant is zero. *)
Lemma false_const c : apok c -> bw c = Bool -> CE_isTrue c = false -> c = APInt Bool 0.
Proof.
  intros Hc E H. rewrite isTrue_eq in H by done. bool_to_prop.
  destruct c as [w v]; simpl in *; subst. f_equal. destruct Hc as [_ Hv].
  destruct (inw1_cases v Hv); done.
Qed.

Lemma Eq_bool_builds c r :
  wf r -> apok c -> bw c = getWidth r -> bw c = Bool ->
  (forall k a b, r = BinExpr k a b ->
     (forall d, apok d -> bw d = getWidth a -> builds (EqExpr_createPartialR d a) (BinExpr Kind.Eq (ConstantExpr d) a)) /\
     (forall d, apok d -> bw d = getWidth b -> builds (EqExpr_createPartialR d b) (BinExpr Kind.Eq (ConstantExpr d) b))) ->
  builds (EqExpr_createPartialR c r) (BinExpr Kind.Eq (ConstantExpr c) r).
Proof.
  intros Hr Hc E Eb IH.
  assert (Hplain : builds (EqExpr_create' (ConstantExpr c) r) (BinExpr Kind.Eq (ConstantExpr c) r))
    by (by apply EqExpr_create'_builds).
  destruct (CE_isTrue c) eqn:Ht.
  - assert (builds (Ok r) (BinExpr Kind.Eq (ConstantExpr c) r)) as Hid.
    { rewrite isTrue_eq in Ht by done. bool_to_prop. apply builds_ok. split_and!; [done|by rewrite <- E|].
      refine_eval. rewrite Ht, <- E, Eb in *. bit_cases. }
    destruct r; simpl; rewrite Eb, Z.eqb_refl, Ht; exact Hid.
  - pose proof (false_const c Hc Eb Ht) as ->. 
    destruct r as [| | | | | | | | |k a b]; simpl; rewrite ?Z.eqb_refl, ?Ht; try exact Hplain.
    destruct k; try exact Hplain; simpl in Hr, E; destruct Hr as (Ha & Hb & Ew).
    + unfold bin_width in E. simpl in E.
      destruct (IH _ _ _ eq_refl) as [IHa IHb].
      eapply builds_bind.
      { apply (isZero_c_builds a); [done|]. intros. by apply Eq_c_builds. }
      intros x Hx. eapply builds_bind.
      { apply (isZero_c_builds b); [done|]. intros. by apply Eq_c_builds. }
      intros y Hy. rewrite <- Ew in Hy. rewrite <- E in Hx, Hy, Ew.
      eapply builds_trans.
      { apply AndExpr_create_builds; [apply Hx|apply Hy|].
        destruct Hx as (_ & -> & _), Hy as (_ & -> & _). done. }
      eapply impl_trans; [apply impl_bin; [exact Hx|exact Hy|done]|]. by apply impl_not_or.
    + destruct a; try exact Hplain. case_match eqn:Hf; [|exact Hplain]. apply builds_ok.
      apply andb_true_iff in Hf as [Hf1 Hf2]. apply Z.eqb_eq in Hf1. simpl in Ha, Ew.
      rewrite isFalse_eq in Hf2 by done. bool_to_prop.
      rewrite (apint_eta value), Hf1, Hf2. apply impl_not_not; congruence.
Qed.

Lemma EqExpr_createPartialR_builds r :
  forall c, wf r -> apok c -> bw c = getWidth r ->
  builds (EqExpr_createPartialR c r) (BinExpr Kind.Eq (ConstantExpr c) r).
Proof.
  induction r as [v|src IH|root un idx IH|c0 IHc t IHt f IHf|a IHa b IHb|e IH o w|src IH w
    |src IH w|e IH|k a IHa b IHb]; intros c Hr Hc E;
    (destruct (Z.eqb_spec (bw c) Bool) as [Eb|Nb];
     [apply Eq_bool_builds; auto;
      intros k' a' b' Er; simplify_eq; simpl in Hr; destruct_and?; split; intros; auto|]);
    pose proof (EqExpr_create'_builds (ConstantExpr c) _ Hc Hr E) as Hplain;
    simpl; rewrite (proj2 (Z.eqb_neq _ _) Nb); try exact Hplain.
  - (* Read *)
    destruct ConstArrayOpt eqn:Hopt; [|exact Hplain].
    destruct (isSymbolicArray root) eqn:Hs; simpl; [exact Hplain|].
    destruct (Z.eqb_spec (node_size un) 0) as [Hn|]; simpl; [|exact Hplain].
    destruct un; [|simpl in Hn; pose proof (node_size_nonneg un); lia].
    pose proof Hr as (Ha & _ & Hi & Ed). pose proof (wf_width idx Hi).
    destruct Ha as (Hd & Hrg & Hsz & Hsd & Hcv).
    apply (TryConstArrayOpt_loop_builds root idx c) with (pre := []); try done.
    + intros i Hi'. rewrite alloc_eq by (lia || (unfold inw; lia)).
      rewrite wrap_small by (unfold inw; rewrite Ed; lia).
      apply Eq_c_builds; auto. split; [done|]. unfold inw; simpl. rewrite Ed. lia.
    + rewrite alloc0_eq by done. by apply apok0.
    + by rewrite alloc0_eq.
    + intros rho vi _. rewrite alloc0_eq by done. done.
  - (* ZExt *)
    simpl in E, Hr. destruct Hr as [Hs Hw]. pose proof (wf_width src Hs).
    assert (Ht : apok (APInt (getWidth src) (wrap (getWidth src) (raw c))))
      by (split; [done|apply wrap_inw; simpl; lia]).
    assert (Hcw : 0 < bw c < 2 ^ 32) by apply Hc.
    rewrite (CE_ZExt_eq c (getWidth src)), (CE_ZExt_eq (APInt _ _)), const_eqb_eq
      by first [done|lia|split; [done|apply wrap_inw; simpl; lia]].
    cbn [bw raw]. pose proof (impl_eq_ext bv_zext ZExtExpr c src w) as H'. simpl in H'.
    specialize (H' ltac:(done) ltac:(done) ltac:(done) ltac:(intros; apply zext_trunc; auto; lia)
      ltac:(done) ltac:(done) ltac:(done)). unfold bv_zext in H'. rewrite <- E in H'.
    case_match.
    + eapply builds_trans; [|rewrite <- E; exact H']. apply Eq_c_builds; auto.
    + rewrite alloc0_eq by done. apply builds_ok. by rewrite <- E.
  - (* SExt *)
    simpl in E, Hr. destruct Hr as [Hs Hw]. pose proof (wf_width src Hs).
    assert (Ht : apok (APInt (getWidth src) (wrap (getWidth src) (raw c))))
      by (split; [done|apply wrap_inw; simpl; lia]).
    assert (Hcw : 0 < bw c < 2 ^ 32) by apply Hc.
    rewrite (CE_ZExt_eq c (getWidth src)), CE_SExt_eq, const_eqb_eq
      by first [done|lia|split; [done|apply wrap_inw; simpl; lia]].
    cbn [bw raw]. pose proof (impl_eq_ext bv_sext SExtExpr c src w) as H'. simpl in H'.
    specialize (H' ltac:(done) ltac:(done) ltac:(done) ltac:(intros; apply sext_trunc; auto; lia)
      ltac:(done) ltac:(done) ltac:(done)). rewrite <- E in H'.
    case_match.
    + eapply builds_trans; [|rewrite <- E; exact H']. apply Eq_c_builds; auto.
    + rewrite alloc0_eq by done. apply builds_ok. by rewrite <- E.
  - (* Add and Sub of a constant *)
    destruct k; try exact Hplain; destruct a as [ka| | | | | | | | |]; try exact Hplain;
      simpl in E, Hr; destruct Hr as (Hk & Hb & Ew);
      (apply builds_assert; [by apply Z.eqb_eq|]).
    + destruct (CE_Sub_apok c ka) as [? ?]; [done|].
      eapply builds_trans; [apply IHb; auto; congruence|by apply impl_eq_add].
    + destruct (CE_Sub_apok ka c) as [? ?]; [done|].
      eapply builds_trans; [apply IHb; auto; congruence|by apply impl_eq_sub].
Qed.

Lemma EqExpr_create_builds l r :
  wf l -> wf r -> getWidth l = getWidth r ->
  builds (EqExpr_create l r) (BinExpr Kind.Eq l r).
Proof.
  intros Hl Hr E. apply (BCREATE_R_builds Kind.Eq); auto using not_div_ok.
  - intros c ->. by apply EqExpr_createPartialR_builds.
  - intros c -> _. eapply builds_trans; [by apply EqExpr_createPartialR_builds|by apply impl_comm].
  - intros _ _. by apply EqExpr_create'_builds.
Qed.

Lemma createIsZero_builds e :
  wf e -> builds (createIsZero e) (BinExpr Kind.Eq e (ConstantExpr (APInt (getWidth e) 0))).
Proof. intros He. apply (isZero_c_builds e); [done|]. intros. by apply EqExpr_create_builds. Qed.

(** A one-bit [createIsZero] is the negation. *)
Definition notb (e : expr) : expr := BinExpr Kind.Eq e (ConstantExpr (APInt Bool 0)).

Lemma createIsZero_notb e : wf e -> getWidth e = Bool -> builds (createIsZero e) (notb e).
Proof. intros He Hw. pose proof (createIsZero_builds e He) as H. by rewrite Hw in H. Qed.

Lemma notb_wf e : wf e -> getWidth e = Bool -> wf (notb e).
Proof. intros. simpl. split_and!; auto. by apply apok0. Qed.

Lemma createImplies_builds h c :
  wf h -> wf c -> getWidth h = Bool -> getWidth c = Bool ->
  builds (createImplies h c) (BinExpr Kind.Or (notb h) c).
Proof.
  intros Hh Hc Eh Ec. eapply builds_bind; [by apply createIsZero_notb|].
  intros x Hx. eapply builds_trans.
  - apply OrExpr_create_builds; [apply Hx|done|]. by destruct Hx as (_ & -> & _).
  - by apply impl_bin_l.
Qed.

(** ** Xor *)
Lemma XorExpr_createPartialR_builds c r :
  wf r -> apok c -> bw c = getWidth r ->
  builds (XorExpr_createPartialR c r) (BinExpr Kind.Xor (ConstantExpr c) r).
Proof.
  intros Hr Hc E. unfold XorExpr_createPartialR. rewrite isZero_eq by done.
  destruct (Z.eqb_spec (raw c) 0) as [Hz|Hz].
  { apply builds_ok. split_and!; [done|done|]. refine_eval. by rewrite Hz. }
  destruct (Z.eqb_spec (bw c) Bool) as [Eb|]; [|by apply builds_ok, impl_refl].
  rewrite create0_eq by done. eapply builds_trans.
  { apply EqExpr_createPartialR_builds; [done|by apply apok0|simpl; congruence]. }
  split_and!; [simpl; split_and!; [by apply apok0|done|simpl; congruence]|by simpl|].
  refine_eval. destruct Hc as [_ Hc]. rewrite <- E, Eb in *.
  destruct (inw1_cases _ Hc) as [?|Hone]; [done|]. rewrite Hone. bit_cases.
Qed.

Lemma XorExpr_create_builds l r :
  wf l -> wf r -> getWidth l = getWidth r ->
  builds (XorExpr_create l r) (BinExpr Kind.Xor l r).
Proof.
  intros Hl Hr E. apply (BCREATE_R_builds Kind.Xor); auto using not_div_ok.
  - intros c ->. by apply XorExpr_createPartialR_builds.
  - intros c -> _. eapply builds_trans; [by apply XorExpr_createPartialR_builds|by apply impl_comm].
  - intros _ _. by apply builds_ok, impl_refl.
Qed.

(** On one bit, addition and subtraction are exclusive or. *)
Lemma impl_xor_addsub k l r :
  (k = Kind.Add \/ k = Kind.Sub) -> wf l -> wf r -> getWidth l = Bool -> getWidth r = Bool ->
  impl (BinExpr Kind.Xor l r) (BinExpr k l r).
Proof.
  intros [-> | ->] Hl Hr El Er; (split_and!; simpl; [split_and!; congruence|done|]);
    refine_eval; rewrite El, Er in *; bit_cases.
Qed.

(** ** Linear rewrites *)

(** Closes [impl] goals between sums and differences of the same terms. *)
Ltac linear :=
  split_and!; simpl; [split_and!; congruence|congruence|];
  refine_eval;
  repeat match goal with E : getWidth ?x = getWidth _ |- context [getWidth ?x] => rewrite E end;
  f_equal; wrap_solve.

(** The rewrites of two operands, [k] the constant that moves outwards. *)
Section linear_rules.
Context (k a b : expr) (Hk : wf k) (Ha : wf a) (Hb : wf b).
Context (Ea : getWidth a = getWidth k) (Eb : getWidth b = getWidth k).

Lemma impl_add_l :
  impl (BinExpr Kind.Add k (BinExpr Kind.Add a b)) (BinExpr Kind.Add (BinExpr Kind.Add k a) b).
Proof. pose proof (wf_width k Hk). linear. Qed.
Lemma impl_add_sub_l :
  impl (BinExpr Kind.Add k (BinExpr Kind.Sub b a)) (BinExpr Kind.Add (BinExpr Kind.Sub k a) b).
Proof. pose proof (wf_width k Hk). linear. Qed.
Lemma impl_add_r :
  impl (BinExpr Kind.Add k (BinExpr Kind.Add a b)) (BinExpr Kind.Add a (BinExpr Kind.Add k b)).
Proof. pose proof (wf_width k Hk). linear. Qed.
Lemma impl_add_sub_r :
  impl (BinExpr Kind.Add k (BinExpr Kind.Sub a b)) (BinExpr Kind.Add a (BinExpr Kind.Sub k b)).
Proof. pose proof (wf_width k Hk). linear. Qed.
Lemma impl_sub_add_l :
  impl (BinExpr Kind.Add k (BinExpr Kind.Sub a b)) (BinExpr Kind.Sub (BinExpr Kind.Add k a) b).
Proof. pose proof (wf_width k Hk). linear. Qed.
Lemma impl_sub_l :
  impl (BinExpr Kind.Sub k (BinExpr Kind.Add a b)) (BinExpr Kind.Sub (BinExpr Kind.Sub k a) b).
Proof. pose proof (wf_width k Hk). linear. Qed.
Lemma impl_sub_add_r :
  impl (BinExpr Kind.Sub (BinExpr Kind.Sub a b) k) (BinExpr Kind.Sub a (BinExpr Kind.Add k b)).
Proof. pose proof (wf_width k Hk). linear. Qed.
Lemma impl_sub_r :
  impl (BinExpr Kind.Sub (BinExpr Kind.Add a b) k) (BinExpr Kind.Sub a (BinExpr Kind.Sub k b)).
Proof. pose proof (wf_width k Hk). linear. Qed.
End linear_rules.

(** The rewrites of a constant [A] against an operand that carries one, [B]. *)
Section const_rules.
Context (A B : apint) (c : expr) (HAB : appair A B) (Hc : wf c) (Ec : getWidth c = bw A).

Ltac const_linear :=
  destruct (CE_Add_apok A B HAB) as [? ?]; destruct (CE_Sub_apok A B HAB) as [? ?];
  pose proof HAB as (? & ? & ?); pose proof (wf_width c Hc);
  split_and!; simpl; [split_and!; congruence|congruence|];
  refine_eval; rewrite ?CE_Add_eq, ?CE_Sub_eq by done; simpl;
  repeat match goal with E : bw A = bw B |- _ => rewrite <- E end;
  f_equal; wrap_solve.

Lemma impl_addc_add :
  impl (BinExpr Kind.Add (ConstantExpr (CE_Add A B)) c)
       (BinExpr Kind.Add (ConstantExpr A) (BinExpr Kind.Add (ConstantExpr B) c)).
Proof. const_linear. Qed.
Lemma impl_addc_sub :
  impl (BinExpr Kind.Sub (ConstantExpr (CE_Add A B)) c)
       (BinExpr Kind.Add (ConstantExpr A) (BinExpr Kind.Sub (ConstantExpr B) c)).
Proof. const_linear. Qed.
Lemma impl_subc_add :
  impl (BinExpr Kind.Sub (ConstantExpr (CE_Sub A B)) c)
       (BinExpr Kind.Sub (ConstantExpr A) (BinExpr Kind.Add (ConstantExpr B) c)).
Proof. const_linear. Qed.
Lemma impl_subc_sub :
  impl (BinExpr Kind.Add (ConstantExpr (CE_Sub A B)) c)
       (BinExpr Kind.Sub (ConstantExpr A) (BinExpr Kind.Sub (ConstantExpr B) c)).
Proof. const_linear. Qed.
End const_rules.

(** ** Add and Sub of a constant *)

(** A create whose left operand is a constant. *)
Lemma create_c_builds k f (pR : apint -> expr -> result expr) c e :
  CE_op k = pure2 f -> isDiv k = false -> wf e -> apok c -> bw c = getWidth e ->
  builds (pR c e) (BinExpr k (ConstantExpr c) e) ->
  builds (_ ← massert (bw c =? getWidth e);
          match e with
          | ConstantExpr cr => Ok (ConstantExpr (f c cr))
          | _ => pR c e
          end) (BinExpr k (ConstantExpr c) e).
Proof.
  intros Hf Hk He Hc E H. apply builds_assert; [by apply Z.eqb_eq|].
  destruct e; try exact H. by apply builds_ok, (CE_pure_impl k f).
Qed.

Lemma Xor_AddSub_builds k c r :
  (k = Kind.Add \/ k = Kind.Sub) -> wf r -> apok c -> bw c = getWidth r -> bw c = Bool ->
  builds (XorExpr_createPartialR c r) (BinExpr k (ConstantExpr c) r).
Proof.
  intros Hk Hr Hc E Eb. eapply builds_trans; [by apply XorExpr_createPartialR_builds|].
  apply impl_xor_addsub; auto; congruence.
Qed.

Lemma impl_add_0 c r :
  wf r -> bw c = getWidth r -> raw c = 0 -> impl r (BinExpr Kind.Add (ConstantExpr c) r).
Proof.
  intros Hr E Ez. split_and!; [exact Hr|by simpl|]. refine_eval.
  unfold bv_add. rewrite Ez, Z.add_0_l, wrap_small; [done|by rewrite E].
Qed.

Lemma AddSub_createPartialR_builds r :
  forall c, wf r -> apok c -> bw c = getWidth r ->
  builds (AddExpr_createPartialR c r) (BinExpr Kind.Add (ConstantExpr c) r) /\
  builds (SubExpr_createPartialR c r) (BinExpr Kind.Sub (ConstantExpr c) r).
Proof.
  assert (Hstop : forall c r k, wf r -> apok c -> bw c = getWidth r ->
    builds (Ok (BinExpr k (ConstantExpr c) r)) (BinExpr k (ConstantExpr c) r))
    by (intros; by apply builds_ok, impl_refl).
  induction r as [v|src IH|root un idx IH|c0 IHc t IHt f IHf|a IHa b IHb|e IH o w|src IH w
    |src IH w|e IH|k a IHa b IHb]; intros c Hr Hc E; split; simpl;
    (destruct (Z.eqb_spec (bw c) Bool) as [Eb|Nb]; [by apply Xor_AddSub_builds; auto|]);
    rewrite ?isZero_eq by done;
    try (destruct (Z.eqb_spec (raw c) 0) as [Ez|_]; [by apply builds_ok, impl_add_0|]);
    try (by apply Hstop);
    destruct k; try (by apply Hstop); destruct a as [ka| | | | | | | | |]; try (by apply Hstop);
    simpl in E, Hr; destruct Hr as (Hk & Hb & Ew);
    (apply builds_assert; [by apply Z.eqb_eq|]);
    destruct (CE_Sub_apok c ka) as [? ?]; try done; destruct (CE_Add_apok c ka) as [? ?]; try done.
  - eapply builds_trans; [|apply impl_addc_add; [done|done|congruence]].
    apply (create_c_builds Kind.Add CE_Add); try done; [congruence|]. apply IHb; auto; congruence.
  - eapply builds_trans; [|apply impl_addc_sub; [done|done|congruence]].
    apply (create_c_builds Kind.Sub CE_Sub); try done; [congruence|]. apply IHb; auto; congruence.
  - eapply builds_trans; [|apply impl_subc_add; [done|done|congruence]].
    apply (create_c_builds Kind.Sub CE_Sub); try done; [congruence|]. apply IHb; auto; congruence.
  - eapply builds_trans; [|apply impl_subc_sub; [done|done|congruence]].
    apply (create_c_builds Kind.Add CE_Add); try done; [congruence|]. apply IHb; auto; congruence.
Qed.

(** [e - c] is built as [(0 - c) + e]. *)
Lemma SubExpr_createPartial_builds l c :
  wf l -> apok c -> getWidth l = bw c ->
  builds (SubExpr_createPartial l c) (BinExpr Kind.Sub l (ConstantExpr c)).
Proof.
  intros Hl Hc E. pose proof (wf_width l Hl). unfold SubExpr_createPartial, AddExpr_createPartial.
  rewrite alloc0_eq by lia.
  assert (Hp : appair (APInt (bw c) 0) c) by (split_and!; [apply apok0; lia|done|done]).
  destruct (CE_Sub_apok _ _ Hp) as [? Ew]. simpl in Ew.
  eapply builds_trans; [apply AddSub_createPartialR_builds; auto; congruence|].
  split_and!; simpl; [split_and!; congruence|congruence|]. refine_eval.
  rewrite CE_Sub_eq by done. simpl. rewrite E. f_equal. wrap_solve.
Qed.

(** ** Add and Sub of two expressions *)
Lemma AddExpr_go_const n c x :
  wf x -> apok c -> bw c = getWidth x ->
  builds (AddExpr_go (S n) (ConstantExpr c) x) (BinExpr Kind.Add (ConstantExpr c) x).
Proof.
  intros Hx Hc E. apply (BCREATE_R_builds Kind.Add); auto using not_div_ok; try done.
  intros c' [= <-]. by apply AddSub_createPartialR_builds.
Qed.

Lemma SubExpr_go_const n c x :
  wf x -> apok c -> bw c = getWidth x ->
  builds (SubExpr_go (S n) (ConstantExpr c) x) (BinExpr Kind.Sub (ConstantExpr c) x).
Proof.
  intros Hx Hc E. apply (BCREATE_R_builds Kind.Sub); auto using not_div_ok; try done.
  intros c' [= <-]. by apply AddSub_createPartialR_builds.
Qed.

Lemma SubExpr_go_const_r n x c :
  wf x -> apok c -> getWidth x = bw c ->
  builds (SubExpr_go (S n) x (ConstantExpr c)) (BinExpr Kind.Sub x (ConstantExpr c)).
Proof.
  intros Hx Hc E. apply (BCREATE_R_builds Kind.Sub); auto using not_div_ok; try done.
  - intros c' ->. by apply AddSub_createPartialR_builds.
  - intros c' [= <-] _. by apply SubExpr_createPartial_builds.
Qed.

(** One step of the recursion: the inner result [x] stands for [i], the outer
    create puts the constant [k] back, and the whole stands for [e]. *)
Lemma outer_l_builds (m : result expr) (mk : expr -> expr -> result expr) k o i e :
  builds m i -> apok k -> getWidth i = bw k ->
  (forall x, wf x -> bw k = getWidth x ->
     builds (mk (ConstantExpr k) x) (BinExpr o (ConstantExpr k) x)) ->
  impl (BinExpr o (ConstantExpr k) i) e ->
  builds (x ← m; mk (ConstantExpr k) x) e.
Proof.
  intros Hm Hk E Hmk He. eapply builds_bind; [exact Hm|]. intros x Hx.
  pose proof Hx as (Wx & Ex & _). eapply builds_trans; [apply Hmk; [done|congruence]|].
  eapply impl_trans; [|exact He]. apply impl_bin_r; [done|done|by simpl; congruence].
Qed.

Lemma outer_r_builds (m : result expr) (mk : expr -> expr -> result expr) k o i e :
  builds m i -> apok k -> getWidth i = bw k ->
  (forall x, wf x -> getWidth x = bw k ->
     builds (mk x (ConstantExpr k)) (BinExpr o x (ConstantExpr k))) ->
  impl (BinExpr o i (ConstantExpr k)) e ->
  builds (x ← m; mk x (ConstantExpr k)) e.
Proof.
  intros Hm Hk E Hmk He. eapply builds_bind; [exact Hm|]. intros x Hx.
  pose proof Hx as (Wx & Ex & _). eapply builds_trans; [apply Hmk; [done|congruence]|].
  eapply impl_trans; [|exact He]. apply impl_bin_l; [done|done|by simpl; congruence].
Qed.

Lemma esize_pos e : (1 <= esize e)%nat.
Proof. destruct e; simpl; lia. Qed.

(** What the two recursive creates are assumed to do on smaller operands. *)
Definition builds_upto (k : Kind.bin) (mk : expr -> expr -> result expr) (n : nat) : Prop :=
  forall l r, (esize l + esize r <= n)%nat -> wf l -> wf r -> getWidth l = getWidth r ->
  builds (mk l r) (BinExpr k l r).

Lemma AddExpr_create'_builds n l r :
  builds_upto Kind.Add (AddExpr_go (S n)) (S n) -> builds_upto Kind.Sub (SubExpr_go (S n)) (S n) ->
  (esize l + esize r <= S (S n))%nat -> wf l -> wf r -> getWidth l = getWidth r ->
  builds (AddExpr_create' (AddExpr_go (S n)) (SubExpr_go (S n)) l r) (BinExpr Kind.Add l r).
Proof.
  intros IA IS Hsz Hl Hr E. unfold AddExpr_create'. destruct (Z.eqb_spec (getWidth l) Bool) as [Eb|Nb].
  { apply builds_ok, impl_xor_addsub; auto; congruence. }
  assert (Hplain : builds (Ok (BinExpr Kind.Add l r)) (BinExpr Kind.Add l r))
    by (by apply builds_ok, impl_refl).
  assert (Hright : builds (match r with
    | BinExpr Kind.Add (ConstantExpr k) b => x ← AddExpr_go (S n) l b; AddExpr_go (S n) (ConstantExpr k) x
    | BinExpr Kind.Sub (ConstantExpr k) b => x ← SubExpr_go (S n) l b; AddExpr_go (S n) (ConstantExpr k) x
    | _ => Ok (BinExpr Kind.Add l r) end) (BinExpr Kind.Add l r)).
  { destruct r as [| | | | | | | | |k a b]; try exact Hplain.
    destruct k; try exact Hplain; destruct a as [k| | | | | | | | |]; try exact Hplain;
      simpl in Hr, E, Hsz; destruct Hr as (Hk & Hb & Ew).
    - eapply outer_l_builds; [apply IA; [lia|done|done|congruence]|done|by simpl
        |by intros; apply AddExpr_go_const|apply impl_add_r; simpl; congruence].
    - eapply outer_l_builds; [apply IS; [lia|done|done|congruence]|done|by simpl
        |by intros; apply AddExpr_go_const|apply impl_add_sub_r; simpl; congruence]. }
  destruct l as [| | | | | | | | |k a b]; try exact Hright.
  destruct k; try exact Hright; destruct a as [k| | | | | | | | |]; try exact Hright;
    simpl in Hl, E, Hsz; destruct Hl as (Hk & Hb & Ew).
  - eapply outer_l_builds; [apply IA; [lia|done|done|congruence]|done|by simpl
      |by intros; apply AddExpr_go_const|apply impl_add_l; simpl; congruence].
  - eapply outer_l_builds; [apply IS; [lia|done|done|congruence]|done|by simpl
      |by intros; apply AddExpr_go_const|apply impl_add_sub_l; simpl; congruence].
Qed.

Lemma SubExpr_create'_builds n l r :
  builds_upto Kind.Add (AddExpr_go (S n)) (S n) -> builds_upto Kind.Sub (SubExpr_go (S n)) (S n) ->
  (esize l + esize r <= S (S n))%nat -> wf l -> wf r -> getWidth l = getWidth r ->
  builds (SubExpr_create' (AddExpr_go (S n)) (SubExpr_go (S n)) l r) (BinExpr Kind.Sub l r).
Proof.
  intros IA IS Hsz Hl Hr E. unfold SubExpr_create'. destruct (Z.eqb_spec (getWidth l) Bool) as [Eb|Nb].
  { apply builds_ok, impl_xor_addsub; auto; congruence. }
  destruct (expr_eqb l r) eqn:Eq.
  { apply expr_eqb_eq in Eq; [subst r|done..]. pose proof (wf_width l Hl).
    rewrite alloc0_eq by lia. apply builds_ok. split_and!; [by apply apok0|done|].
    refine_eval. simplify_eq. unfold bv_sub. by rewrite Z.sub_diag. }
  assert (Hplain : builds (Ok (BinExpr Kind.Sub l r)) (BinExpr Kind.Sub l r))
    by (by apply builds_ok, impl_refl).
  assert (Hright : builds (match r with
    | BinExpr Kind.Add (ConstantExpr k) b => x ← SubExpr_go (S n) l b; SubExpr_go (S n) x (ConstantExpr k)
    | BinExpr Kind.Sub (ConstantExpr k) b => x ← AddExpr_go (S n) l b; SubExpr_go (S n) x (ConstantExpr k)
    | _ => Ok (BinExpr Kind.Sub l r) end) (BinExpr Kind.Sub l r)).
  { destruct r as [| | | | | | | | |k a b]; try exact Hplain.
    destruct k; try exact Hplain; destruct a as [k| | | | | | | | |]; try exact Hplain;
      simpl in Hr, E, Hsz; destruct Hr as (Hk & Hb & Ew).
    - eapply outer_r_builds; [apply IS; [lia|done|done|congruence]|done|by simpl
        |by intros; apply SubExpr_go_const_r|apply impl_sub_add_r; simpl; congruence].
    - eapply outer_r_builds; [apply IA; [lia|done|done|congruence]|done|by simpl
        |by intros; apply SubExpr_go_const_r|apply impl_sub_r; simpl; congruence]. }
  destruct l as [| | | | | | | | |k a b]; try exact Hright.
  destruct k; try exact Hright; destruct a as [k| | | | | | | | |]; try exact Hright;
    simpl in Hl, E, Hsz; destruct Hl as (Hk & Hb & Ew).
  - eapply outer_l_builds; [apply IS; [lia|done|done|congruence]|done|by simpl
      |by intros; apply AddExpr_go_const|apply impl_sub_add_l; simpl; congruence].
  - eapply outer_l_builds; [apply IA; [lia|done|done|congruence]|done|by simpl
      |by intros; apply SubExpr_go_const|apply impl_sub_l; simpl; congruence].
Qed.

Lemma AddSub_go_builds n :
  builds_upto Kind.Add (AddExpr_go n) n /\ builds_upto Kind.Sub (SubExpr_go n) n.
Proof.
  induction n as [|[|n] [IA IS]];
    [split; intros l r Hsz; pose proof (esize_pos l); lia
    |split; intros l r Hsz; pose proof (esize_pos l); pose proof (esize_pos r); lia|].
  split; intros l r Hsz Hl Hr E.
  - apply (BCREATE_R_builds Kind.Add); auto using not_div_ok.
    + intros c ->. by apply AddSub_createPartialR_builds.
    + intros c -> _. eapply builds_trans; [by apply AddSub_createPartialR_builds|by apply impl_comm].
    + intros _ _. by apply AddExpr_create'_builds.
  - apply (BCREATE_R_builds Kind.Sub); auto using not_div_ok.
    + intros c ->. by apply AddSub_createPartialR_builds.
    + intros c -> _. by apply SubExpr_createPartial_builds.
    + intros _ _. by apply SubExpr_create'_builds.
Qed.

(** ** Division, shifts and comparisons *)

(** One-bit division and arithmetic shift return the left operand. *)
Lemma impl_bool_id k l r :
  (k = Kind.UDiv \/ k = Kind.SDiv \/ k = Kind.AShr) ->
  wf l -> wf r -> getWidth l = Bool -> getWidth r = Bool -> impl l (BinExpr k l r).
Proof.
  intros Hk Hl Hr El Er. split_and!; [done|by destruct Hk as [->|[->| ->]]|].
  destruct Hk as [->|[->| ->]]; refine_eval; rewrite El, Er in *; bit_cases.
Qed.

(** One-bit remainders are zero. *)
Lemma impl_bool_rem k l r :
  (k = Kind.URem \/ k = Kind.SRem) -> wf l -> wf r -> getWidth l = Bool -> getWidth r = Bool ->
  impl (ConstantExpr (APInt Bool 0)) (BinExpr k l r).
Proof.
  intros Hk Hl Hr El Er. split_and!; [by apply apok0|by destruct Hk as [->| ->]|].
  destruct Hk as [->| ->]; refine_eval; rewrite El, Er in *; bit_cases.
Qed.

(** The one-bit forms of shifts and comparisons: one operand is negated. *)
Lemma impl_bool_not_r k o l r :
  (k, o) ∈ [(Kind.Shl, Kind.And); (Kind.LShr, Kind.And); (Kind.Slt, Kind.And); (Kind.Sle, Kind.Or)] ->
  wf l -> wf r -> getWidth l = Bool -> getWidth r = Bool ->
  impl (BinExpr o l (notb r)) (BinExpr k l r).
Proof.
  intros Hk Hl Hr El Er. pose proof (apok0 Bool ltac:(done)) as Hz.
  repeat (apply elem_of_cons in Hk as [[= -> ->]|Hk]); try (by apply elem_of_nil in Hk);
    (split_and!; simpl; [split_and!; done|done|]); refine_eval; rewrite El, Er in *; bit_cases.
Qed.

Lemma impl_bool_not_l k o l r :
  (k, o) ∈ [(Kind.Ult, Kind.And); (Kind.Ule, Kind.Or)] ->
  wf l -> wf r -> getWidth l = Bool -> getWidth r = Bool ->
  impl (BinExpr o (notb l) r) (BinExpr k l r).
Proof.
  intros Hk Hl Hr El Er. pose proof (apok0 Bool ltac:(done)) as Hz.
  repeat (apply elem_of_cons in Hk as [[= -> ->]|Hk]); try (by apply elem_of_nil in Hk);
    (split_and!; simpl; [split_and!; done|done|]); refine_eval; rewrite El, Er in *; bit_cases.
Qed.

(** [z ← createIsZero r; mk l z] and its mirror image. *)
Lemma not_r_builds mk o e l r :
  (forall a b, wf a -> wf b -> getWidth a = getWidth b -> builds (mk a b) (BinExpr o a b)) ->
  wf l -> wf r -> getWidth l = Bool -> getWidth r = Bool -> impl (BinExpr o l (notb r)) e ->
  builds (z ← createIsZero r; mk l z) e.
Proof.
  intros Hmk Hl Hr El Er He. eapply builds_bind; [by apply createIsZero_notb|].
  intros z Hz. pose proof Hz as (Wz & Ez & _). eapply builds_trans; [apply Hmk; [done|done|by rewrite Ez]|].
  eapply impl_trans; [|exact He]. by apply impl_bin_r.
Qed.

Lemma not_l_builds mk o e l r :
  (forall a b, wf a -> wf b -> getWidth a = getWidth b -> builds (mk a b) (BinExpr o a b)) ->
  wf l -> wf r -> getWidth l = Bool -> getWidth r = Bool -> impl (BinExpr o (notb l) r) e ->
  builds (z ← createIsZero l; mk z r) e.
Proof.
  intros Hmk Hl Hr El Er He. eapply builds_bind; [by apply createIsZero_notb|].
  intros z Hz. pose proof Hz as (Wz & Ez & _). eapply builds_trans; [apply Hmk; [done|done|by rewrite Ez]|].
  eapply impl_trans; [|exact He]. by apply impl_bin_l.
Qed.

(** The creates that only fold constants and simplify booleans. *)
Lemma simple_create_builds k l r cr :
  wf l -> wf r -> getWidth l = getWidth r -> div_ok k l r ->
  (getWidth l <> Bool -> cr l r = Ok (BinExpr k l r)) ->
  (getWidth l = Bool -> getWidth r = Bool -> builds (cr l r) (BinExpr k l r)) ->
  builds (BCREATE (CE_op k) cr l r) (BinExpr k l r).
Proof.
  intros Hl Hr E Hd Hw Hb. apply BCREATE_builds; try done.
  destruct (decide (getWidth l = Bool)) as [Eb|Nb]; [apply Hb; congruence|].
  rewrite (Hw Nb). by apply builds_ok, impl_refl.
Qed.

(** [a > b] is [b < a]. *)
Lemma impl_mirror k k' l r :
  (k, k') ∈ [(Kind.Ult, Kind.Ugt); (Kind.Ule, Kind.Uge); (Kind.Slt, Kind.Sgt); (Kind.Sle, Kind.Sge)] ->
  wf l -> wf r -> getWidth l = getWidth r -> impl (BinExpr k r l) (BinExpr k' l r).
Proof.
  intros Hk Hl Hr E.
  repeat (apply elem_of_cons in Hk as [[= -> ->]|Hk]); try (by apply elem_of_nil in Hk);
    (split_and!; simpl; [split_and!; done|done|]); refine_eval; by rewrite ?E.
Qed.

Lemma NeExpr_create_builds l r :
  wf l -> wf r -> getWidth l = getWidth r ->
  builds (NeExpr_create l r) (BinExpr Kind.Ne l r).
Proof.
  intros Hl Hr E. unfold NeExpr_create. rewrite create0_eq by done. simpl.
  pose proof (apok0 Bool ltac:(done)) as Hz.
  eapply outer_l_builds; [by apply EqExpr_create_builds|done|done|by intros; apply EqExpr_create_builds|].
  split_and!; [done|done|]. refine_eval. by destruct (_ =? _).
Qed.

(** The creates of division, remainder, shifts and the four basic comparisons. *)
Lemma basic_create_builds k l r :
  k ∈ [Kind.UDiv; Kind.SDiv; Kind.URem; Kind.SRem; Kind.Shl; Kind.LShr; Kind.AShr;
       Kind.Ult; Kind.Ule; Kind.Slt; Kind.Sle] ->
  wf l -> wf r -> getWidth l = getWidth r -> div_ok k l r ->
  builds (bin_create k l r) (BinExpr k l r).
Proof.
  intros Hk Hl Hr E Hd.
  repeat (apply elem_of_cons in Hk as [->|Hk]); try (by apply elem_of_nil in Hk); simpl;
    [apply (simple_create_builds Kind.UDiv)|apply (simple_create_builds Kind.SDiv)
    |apply (simple_create_builds Kind.URem)|apply (simple_create_builds Kind.SRem)
    |apply (simple_create_builds Kind.Shl)|apply (simple_create_builds Kind.LShr)
    |apply (simple_create_builds Kind.AShr)|apply (simple_create_builds Kind.Ult)
    |apply (simple_create_builds Kind.Ule)|apply (simple_create_builds Kind.Slt)
    |apply (simple_create_builds Kind.Sle)]; auto;
    (intros Nb; unfold UDivExpr_create', SDivExpr_create', URemExpr_create', SRemExpr_create',
       ShlExpr_create', LShrExpr_create', AShrExpr_create', UltExpr_create', UleExpr_create',
       SltExpr_create', SleExpr_create'; destruct (Z.eqb_spec (getWidth l) Bool); try done);
    intros Er;
    first [by apply builds_ok, impl_bool_id; auto
      |by rewrite create0_eq by done; apply builds_ok, impl_bool_rem; auto
      |eapply not_r_builds; [by intros; apply AndExpr_create_builds|done..|by apply impl_bool_not_r; [set_solver|..]]
      |eapply not_r_builds; [by intros; apply OrExpr_create_builds|done..|by apply impl_bool_not_r; [set_solver|..]]
      |eapply not_l_builds; [by intros; apply AndExpr_create_builds|done..|by apply impl_bool_not_l; [set_solver|..]]
      |eapply not_l_builds; [by intros; apply OrExpr_create_builds|done..|by apply impl_bool_not_l; [set_solver|..]]].
Qed.

Lemma mirror_create_builds k k' l r :
  (k, k') ∈ [(Kind.Ult, Kind.Ugt); (Kind.Ule, Kind.Uge); (Kind.Slt, Kind.Sgt); (Kind.Sle, Kind.Sge)] ->
  wf l -> wf r -> getWidth l = getWidth r ->
  builds (bin_create k r l) (BinExpr k' l r).
Proof.
  intros Hk Hl Hr E. eapply builds_trans; [|by apply (impl_mirror k k')].
  repeat (apply elem_of_cons in Hk as [[= -> ->]|Hk]); try (by apply elem_of_nil in Hk);
    apply basic_create_builds; auto using not_div_ok; set_solver.
Qed.

(** Every [create] of a binary kind builds its node. *)
Lemma bin_create_builds k l r :
  wf l -> wf r -> getWidth l = getWidth r -> div_ok k l r ->
  builds (bin_create k l r) (BinExpr k l r).
Proof.
  intros Hl Hr E Hd.
  destruct k; simpl;
    first [by apply MulExpr_create_builds|by apply AndExpr_create_builds
      |by apply OrExpr_create_builds|by apply XorExpr_create_builds
      |by apply EqExpr_create_builds|by apply NeExpr_create_builds
      |by apply (AddSub_go_builds (esize l + esize r))
      |match goal with |- builds _ (BinExpr ?k _ _) => apply (basic_create_builds k); [set_solver|done..] end
      |by apply (mirror_create_builds Kind.Ult); [set_solver|..]
      |by apply (mirror_create_builds Kind.Ule); [set_solver|..]
      |by apply (mirror_create_builds Kind.Slt); [set_solver|..]
      |by apply (mirror_create_builds Kind.Sle); [set_solver|..]].
Qed.

Lemma bin_create_zero k l r :
  wf l -> wf r -> getWidth l = getWidth r -> zero_fold k l r = true ->
  bin_create k l r = AssertFail.
Proof.
  intros Hl Hr E Hz. apply andb_true_iff in Hz as [Hk Hz].
  destruct l as [cl| | | | | | | | |]; try discriminate;
    destruct r as [cr| | | | | | | | |]; try discriminate.
  apply Z.eqb_eq in Hz. pose proof (CE_op_zero k cl cr ltac:(done) Hk Hz) as H. simpl in E.
  destruct k; try discriminate; simpl in *; unfold UDivExpr_create, SDivExpr_create,
    URemExpr_create, SRemExpr_create, BCREATE; rewrite massert_true by (by apply Z.eqb_eq);
    simpl; by rewrite H.
Qed.
End sound.

(** ** Theorems *)

(** C1. Every [XExpr::create] of a binary kind (constant folding, the partial
    rewrites with one constant operand and the full rewrites), called with
    operands of one width, returns without failing an assertion an expression of
    the right type and width that has the value of the plain [X] node under every
    assignment.  The one exception is the division of two constants by zero,
    which always fails LLVM's assertion. *)
Theorem bin_create_sound {AP : APIntOps} {SP : APIntSpec AP} {CFG : Config} k l r :
  wf l -> wf r -> getWidth l = getWidth r ->
  if zero_fold k l r then bin_create k l r = AssertFail
  else returns (bin_create k l r) (fun e =>
    wf e /\ getWidth e = getWidth (BinExpr k l r) /\
    forall rho v, eval rho (BinExpr k l r) = Some v -> eval rho e = Some v).
Proof.
  intros Hl Hr E. destruct (zero_fold k l r) eqn:Hz; [by apply bin_create_zero|].
  by apply bin_create_builds.
Qed.

Lemma bin_create_sound_witness :
  returns (bin_create (AP := ZOps) (CFG := default_config) Kind.Add
             (BinExpr Kind.Add (cst Int8 3) (byte 0)) (BinExpr Kind.Sub (cst Int8 4) (byte 1)))
    (fun e => wf e /\ getWidth e = 8 /\ forall rho v,
       eval (CFG := default_config) rho (BinExpr Kind.Add
         (BinExpr Kind.Add (cst Int8 3) (byte 0)) (BinExpr Kind.Sub (cst Int8 4) (byte 1))) = Some v ->
       eval (CFG := default_config) rho e = Some v).
Proof.
  apply (bin_create_sound (AP := ZOps) (CFG := default_config) Kind.Add
    (BinExpr Kind.Add (cst Int8 3) (byte 0)) (BinExpr Kind.Sub (cst Int8 4) (byte 1))); concrete.
Defined.
