(* ===== verification/ExprStructSound.v ===== *)
(** * Soundness of the structural constructors of Expr.cpp

    [ConcatExpr::create], [ExtractExpr::create], the extensions, [NotExpr],
    [SelectExpr], [ReadExpr] and the derived constructors ([createTempRead],
    [createFromKind], [rebuild]) build their reference node; the fuel of the
    mutually recursive extract and concat is never exhausted. *)

From S2P Require Import Prelude APInt ExprData Samples Bits ExprCompare ExprCreate ExprCreateSound.
Local Open Scope Z_scope.

(** ** Concatenation and extraction, bit by bit *)
Lemma sem_concat_testbit wr a b i :
  0 <= wr -> inw wr b -> 0 <= i ->
  Z.testbit (sem_concat wr a b) i = if i <? wr then Z.testbit b i else Z.testbit a (i - wr).
Proof.
  intros Hw Hb Hi. unfold sem_concat.
  assert (Hlor : a * 2 ^ wr + b = Z.lor (Z.shiftl a wr) b).
  { rewrite <- Z.shiftl_mul_pow2, <- Z.add_lor_land by done.
    enough (Z.land (Z.shiftl a wr) b = 0) as -> by lia. apply Z.bits_inj'. intros n Hn.
    rewrite Z.land_spec, Z.shiftl_spec, Z.bits_0 by done. destruct (Z.lt_ge_cases n wr).
    - by rewrite Z.testbit_neg_r by lia.
    - by rewrite (inw_testbit wr b n), andb_false_r. }
  rewrite Hlor, Z.lor_spec, Z.shiftl_spec by done. destruct (Z.ltb_spec i wr).
  - by rewrite Z.testbit_neg_r by lia.
  - by rewrite (inw_testbit wr b i), orb_false_r.
Qed.

Lemma sem_extract_testbit o w a i :
  0 <= o -> 0 <= w -> 0 <= i ->
  Z.testbit (sem_extract o w a) i = (i <? w) && Z.testbit a (i + o).
Proof.
  intros Ho Hw Hi. unfold sem_extract, wrap. destruct (Z.ltb_spec i w).
  - rewrite Z.mod_pow2_bits_low, Z.div_pow2_bits by lia. done.
  - by rewrite Z.mod_pow2_bits_high by lia.
Qed.

(** Decides equations between concatenations and extractions of patterns. *)
Ltac bits_solve :=
  apply Z.bits_inj'; let i := fresh "i" in intros i ?;
  repeat (first [rewrite sem_extract_testbit by lia
                |rewrite sem_concat_testbit by (first [assumption|lia|apply wrap_inw; lia])
                |match goal with |- context [?a <? ?b] => destruct (Z.ltb_spec a b) end]);
  try lia; simpl; try reflexivity;
  try (f_equal; lia).

Section semantics.
Context (wr a b o w : Z) (Hwr : 0 < wr) (Ho : 0 <= o) (Hw : 0 < w) (Hb : inw wr b).

Lemma extract_concat_left :
  wr <= o -> sem_extract (o - wr) w a = sem_extract o w (sem_concat wr a b).
Proof. intros. bits_solve. Qed.

Lemma extract_concat_right :
  o + w <= wr -> sem_extract o w b = sem_extract o w (sem_concat wr a b).
Proof. intros. bits_solve. Qed.

Lemma extract_concat_both :
  o < wr -> wr < o + w ->
  sem_concat (wr - o) (sem_extract 0 (w - wr + o) a) (sem_extract o (wr - o) b) =
  sem_extract o w (sem_concat wr a b).
Proof. intros. bits_solve. Qed.
End semantics.

Lemma concat_extracts o wl wr a :
  0 <= o -> 0 < wl -> 0 < wr ->
  sem_concat wr (sem_extract (o + wr) wl a) (sem_extract o wr a) = sem_extract o (wl + wr) a.
Proof. intros. bits_solve. Qed.

Lemma extract_full w a : inw w a -> sem_extract 0 w a = a.
Proof. intros. unfold sem_extract. rewrite Z.div_1_r. by apply wrap_small. Qed.

Lemma sgn_testbit w a i : 0 < w -> i < w -> Z.testbit (sgn w a) i = Z.testbit a i.
Proof.
  intros Hw Hi. destruct (Z.lt_ge_cases i 0); [by rewrite !Z.testbit_neg_r by lia|].
  rewrite <- (Z.mod_pow2_bits_low (sgn w a) w), <- (Z.mod_pow2_bits_low a w) by lia.
  pose proof (sgn_mod w a Hw) as E. unfold wrap in E. by rewrite E.
Qed.

(** Shifting in copies of the sign does not reach an extract that ends in the operand. *)
Lemma extract_ashr w o w' a :
  0 < w -> 0 <= o -> 0 < w' -> o + w' <= w -> wrap w' (bv_ashr w a o) = sem_extract o w' a.
Proof.
  intros. unfold bv_ashr. rewrite Z.min_l by lia. apply Z.bits_inj'. intros i Hi.
  rewrite sem_extract_testbit by lia. unfold wrap. destruct (Z.ltb_spec i w').
  - rewrite !Z.mod_pow2_bits_low, Z.div_pow2_bits by lia. by apply sgn_testbit; lia.
  - by rewrite Z.mod_pow2_bits_high by lia.
Qed.

Section sound.
Context {AP : APIntOps} {SP : APIntSpec AP} {CFG : Config}.

(** ** Constants *)
Lemma CE_Extract_impl c o w :
  apok c -> 0 <= o -> 0 < w -> o + w <= bw c ->
  impl (ConstantExpr (CE_Extract c o w)) (ExtractExpr (ConstantExpr c) o w).
Proof.
  intros Hc Ho Hw Hin. pose proof Hc as [Hb Hv]. unfold CE_Extract.
  rewrite ap_ashr_u_spec by (done || lia). rewrite ap_zextOrTrunc_spec; [|split; simpl; [done|apply bv_ashr_inw; lia]|done].
  simpl. unfold bv_zext. rewrite extract_ashr by lia. split_and!; simpl; [|done|by intros rho v].
  split; simpl; [lia|]. apply wrap_inw; lia.
Qed.

Lemma CE_Concat_impl c d :
  apok c -> apok d -> bw c + bw d < 2 ^ 32 ->
  impl (ConstantExpr (CE_Concat c d)) (ConcatExpr (ConstantExpr c) (ConstantExpr d)).
Proof.
  intros Hc Hd Hs. pose proof Hc as [Wc Vc]. pose proof Hd as [Wd Vd]. unfold CE_Concat.
  rewrite u32_small by lia. set (W := bw c + bw d).
  assert (Hcin : inw W (raw c)) by (eapply inw_mono; [|exact Vc]; lia).
  assert (Hdin : inw W (raw d)) by (eapply inw_mono; [|exact Vd]; lia).
  rewrite !ap_zext_spec by (done || lia).
  assert (Hok : apok (APInt W (raw c))) by (split; simpl; [lia|done]).
  rewrite ap_shl_u_spec by (done || (simpl; lia)). simpl.
  assert (Hcat : inw W (sem_concat (bw d) (raw c) (raw d))) by (apply sem_concat_inw; try done; lia).
  assert (Hpart : inw W (raw c * 2 ^ bw d)).
  { unfold inw, sem_concat in *. pose proof (pow2_pos' (bw d)). nia. }
  assert (Hsh : bv_shl W (raw c) (bw d) = raw c * 2 ^ bw d).
  { unfold bv_shl. destruct (Z.leb_spec W (bw d)); [lia|]. by apply wrap_small. }
  rewrite Hsh, ap_or_spec by (split_and!; try (split; simpl; [lia|]); done). simpl.
  assert (Z.lor (raw c * 2 ^ bw d) (raw d) = sem_concat (bw d) (raw c) (raw d)) as ->.
  { apply Z.bits_inj'. intros i Hi. rewrite sem_concat_testbit by (done || lia).
    rewrite Z.lor_spec. rewrite <- Z.shiftl_mul_pow2, Z.shiftl_spec by lia.
    destruct (Z.ltb_spec i (bw d)).
    - by rewrite Z.testbit_neg_r by lia.
    - by rewrite (inw_testbit (bw d) (raw d) i), orb_false_r by (done || lia). }
  split_and!; simpl; [split; simpl; [lia|done]|by rewrite u32_small by lia|by intros rho v].
Qed.

(** ** Concat and Extract *)

(** The operand of an extract is no larger than [n]. *)
Definition base_le (n : nat) (e : expr) : Prop :=
  match e with ExtractExpr el _ _ => (esize el <= n)%nat | _ => True end.

Lemma base_le_mono n m e : (n <= m)%nat -> base_le n e -> base_le m e.
Proof. destruct e; simpl; lia. Qed.

(** [m] builds [ref], and if it returns an extract then one of a small operand. *)
Definition builds_base (m : result expr) (ref : expr) (n : nat) : Prop :=
  returns m (fun e' => impl e' ref /\ base_le n e').

Lemma builds_base_builds m ref n : builds_base m ref n -> builds m ref.
Proof. intros H. eapply returns_weaken; [exact H|]. by intros a []. Qed.

Lemma builds_base_trans m e1 e2 n k :
  (n <= k)%nat -> builds_base m e1 n -> impl e1 e2 -> builds_base m e2 k.
Proof.
  intros Hn H HI. eapply returns_weaken; [exact H|]. intros a [Ha Hb].
  split; [by eapply impl_trans|by eapply base_le_mono].
Qed.

(** What [Extract] does on operands of size at most [n]. *)
Definition extracts_upto (Extract : expr -> Z -> Z -> result expr) (n : nat) : Prop :=
  forall e o w, (esize e <= n)%nat -> wf (ExtractExpr e o w) ->
  builds_base (Extract e o w) (ExtractExpr e o w) (esize e).

Lemma impl_concat_extracts e o wl wr :
  wf (ExtractExpr e o (wl + wr)) -> 0 < wl -> 0 < wr ->
  impl (ExtractExpr e o (wl + wr)) (ConcatExpr (ExtractExpr e (o + wr) wl) (ExtractExpr e o wr)).
Proof.
  intros Hwf Hl Hr. pose proof Hwf as (He & Ho & Hw & Hin). pose proof (wf_width e He).
  split_and!; [done|by simpl; rewrite u32_small by lia|].
  refine_eval. inv_option. simplify_eq. by rewrite concat_extracts by lia.
Qed.

Lemma ConcatExpr_create'_builds Extract n l r :
  extracts_upto Extract n -> base_le n r -> wf (ConcatExpr l r) ->
  builds_base (ConcatExpr_create' Extract l r) (ConcatExpr l r) n.
Proof.
  intros HE Hb Hwf. pose proof Hwf as (Hl & Hr & Hs). unfold ConcatExpr_create'.
  assert (Hplain : builds_base (Ok (ConcatExpr l r)) (ConcatExpr l r) n)
    by (apply returns_ok; split; [by apply impl_refl|done]).
  destruct l as [cl| | | | |el ol wl| | | |]; try exact Hplain;
    destruct r as [cr| | | | |er or wr| | | |]; try exact Hplain.
  - apply returns_ok. split; [by apply CE_Concat_impl|done].
  - case_match eqn:Eq; [|exact Hplain]. apply andb_true_iff in Eq as [Eq Eo].
    simpl in Hl, Hr, Hs, Hb. destruct Hl as (Hel & ? & ? & ?), Hr as (Her & ? & ? & ?).
    apply expr_eqb_eq in Eq; [subst er|done..]. pose proof (wf_width el Hel).
    rewrite u32_small in Eo by lia. apply Z.eqb_eq in Eo. subst ol. simpl. rewrite u32_small by lia.
    assert (Hwf' : wf (ExtractExpr el or (wl + wr))) by (simpl; split_and!; done || lia).
    eapply builds_base_trans; [exact Hb|by apply HE|]. by apply impl_concat_extracts.
Qed.

(** The three positions of an extract relative to the two halves of a concat. *)
Lemma impl_extract_left x y o w :
  wf (ConcatExpr x y) -> getWidth y <= o -> 0 < w -> o + w <= getWidth x + getWidth y ->
  impl (ExtractExpr x (o - getWidth y) w) (ExtractExpr (ConcatExpr x y) o w).
Proof.
  intros (Hx & Hy & Hs) Ho Hw Hin. pose proof (wf_width x Hx). pose proof (wf_width y Hy).
  split_and!; simpl; [split_and!; done || lia|done|]. refine_eval.
  f_equal. apply extract_concat_left; done || lia.
Qed.

Lemma impl_extract_right x y o w :
  wf (ConcatExpr x y) -> 0 <= o -> 0 < w -> o + w <= getWidth y ->
  impl (ExtractExpr y o w) (ExtractExpr (ConcatExpr x y) o w).
Proof.
  intros (Hx & Hy & Hs) Ho Hw Hin. pose proof (wf_width x Hx). pose proof (wf_width y Hy).
  split_and!; simpl; [split_and!; done || lia|done|]. refine_eval.
  f_equal. apply extract_concat_right; done || lia.
Qed.

Lemma impl_extract_both x y o w :
  wf (ConcatExpr x y) -> 0 <= o -> 0 < w -> o < getWidth y -> getWidth y < o + w ->
  o + w <= getWidth x + getWidth y ->
  impl (ConcatExpr (ExtractExpr x 0 (w - getWidth y + o)) (ExtractExpr y o (getWidth y - o)))
       (ExtractExpr (ConcatExpr x y) o w).
Proof.
  intros (Hx & Hy & Hs) Ho Hw Hlo Hhi Hin. pose proof (wf_width x Hx). pose proof (wf_width y Hy).
  split_and!; simpl; [split_and!; done || lia|rewrite u32_small; lia|]. refine_eval.
  f_equal. apply extract_concat_both; done || lia.
Qed.

Lemma u32_sub_add a b c : 0 <= a - b + c < 2 ^ 32 -> u32 (u32 (a - b) + c) = a - b + c.
Proof. intros. unfold u32. rewrite wrap_add_l by lia. by apply wrap_small. Qed.

Lemma ExtractExpr_go_concat n x y o w :
  extracts_upto (ExtractExpr_go n) n -> (esize x + esize y <= n)%nat ->
  wf (ConcatExpr x y) -> 0 <= o -> 0 < w -> o + w <= getWidth x + getWidth y ->
  builds_base
    (if getWidth y <=? o then ExtractExpr_go n x (u32 (o - getWidth y)) w
     else if u32 (o + w) <=? getWidth y then ExtractExpr_go n y o w
     else
       a ← ExtractExpr_go n x 0 (u32 (u32 (w - getWidth y) + o));
       b ← ExtractExpr_go n y o (u32 (getWidth y - o));
       ConcatExpr_create' (ExtractExpr_go n) a b)
    (ExtractExpr (ConcatExpr x y) o w) (esize x + esize y).
Proof.
  intros IH Hsz Hwf Ho Hw Hin. pose proof Hwf as (Hx & Hy & Hs).
  pose proof (wf_width x Hx). pose proof (wf_width y Hy).
  destruct (Z.leb_spec (getWidth y) o).
  { rewrite u32_small by lia. eapply builds_base_trans; [|apply IH|by apply impl_extract_left];
      simpl; try split_and!; done || lia. }
  rewrite u32_small by lia. destruct (Z.leb_spec (o + w) (getWidth y)).
  { eapply builds_base_trans; [|apply IH|by apply impl_extract_right];
      simpl; try split_and!; done || lia. }
  rewrite u32_sub_add, (u32_small (getWidth y - o)) by lia.
  eapply returns_bind; [apply (IH x); [lia|simpl; split_and!; done || lia]|].
  intros a [Ha Ba]. eapply returns_bind; [apply (IH y); [lia|simpl; split_and!; done || lia]|].
  intros b [Hb Bb].
  assert (Hcat : impl (ConcatExpr a b) (ConcatExpr (ExtractExpr x 0 (w - getWidth y + o))
                                          (ExtractExpr y o (getWidth y - o))))
    by (apply impl_concat; [done|done|simpl; lia]).
  eapply builds_base_trans; [reflexivity|apply (ConcatExpr_create'_builds _ (esize x + esize y))|].
  - intros e o' w' He. apply IH. lia.
  - eapply base_le_mono; [|exact Bb]. lia.
  - apply Hcat.
  - eapply impl_trans; [exact Hcat|]. by apply impl_extract_both.
Qed.

Lemma ExtractExpr_go_builds n : extracts_upto (ExtractExpr_go n) n.
Proof.
  induction n as [|n IH]; intros e o w Hsz Hwf; [pose proof (esize_pos e); lia|].
  pose proof Hwf as (He & Ho & Hw & Hin). pose proof (wf_width e He).
  change (ExtractExpr_go (S n)) with (ExtractExpr_create' (ExtractExpr_go n)). unfold ExtractExpr_create'.
  rewrite massert_true.
  2:{ rewrite u32_small by lia. apply andb_true_iff. split; [by apply Z.ltb_lt|by apply Z.leb_le]. }
  cbn [mbind result_bind]. destruct (Z.eqb_spec w (getWidth e)) as [Ew|Nw].
  { apply returns_ok. split.
    - assert (o = 0) as -> by lia. split_and!; [done|done|]. refine_eval. f_equal.
      by rewrite extract_full.
    - destruct e; simpl; lia. }
  assert (Hplain : builds_base (Ok (ExtractExpr e o w)) (ExtractExpr e o w) (esize e))
    by (apply returns_ok; split; [by apply impl_refl|by simpl]).
  destruct e as [c| | | |x y| | | | |]; try exact Hplain.
  - apply returns_ok. split; [by apply CE_Extract_impl|done].
  - pose proof He as (_ & _ & Hs). rewrite getWidth_concat in Hin by done.
    simpl in Hsz. eapply builds_base_trans; [|apply ExtractExpr_go_concat; done || lia|by apply impl_refl].
    simpl. lia.
Qed.

Lemma ExtractExpr_create_builds_base e o w :
  wf (ExtractExpr e o w) -> builds_base (ExtractExpr_create e o w) (ExtractExpr e o w) (esize e).
Proof. intros. by apply (ExtractExpr_go_builds (esize e)). Qed.

Lemma ExtractExpr_create_builds e o w :
  wf (ExtractExpr e o w) -> builds (ExtractExpr_create e o w) (ExtractExpr e o w).
Proof. intros. by eapply builds_base_builds, ExtractExpr_create_builds_base. Qed.

Lemma ConcatExpr_create_builds l r :
  wf (ConcatExpr l r) -> builds (ConcatExpr_create l r) (ConcatExpr l r).
Proof.
  intros. eapply builds_base_builds, (ConcatExpr_create'_builds _ (esize r)); [| |done].
  - intros e o w _. apply ExtractExpr_create_builds_base.
  - destruct r; simpl; lia.
Qed.

(** More fuel does not change the result, so [ExtractExpr_create] satisfies the
    recursion of the source. *)
Lemma ConcatExpr_create'_approx X X' l r :
  (forall e o w, approx (X e o w) (X' e o w)) ->
  approx (ConcatExpr_create' X l r) (ConcatExpr_create' X' l r).
Proof.
  intros H. unfold ConcatExpr_create'.
  destruct l; auto with klee; destruct r; auto with klee. case_match; auto with klee.
Qed.

Lemma ExtractExpr_create'_approx X X' :
  (forall e o w, approx (X e o w) (X' e o w)) ->
  forall e o w, approx (ExtractExpr_create' X e o w) (ExtractExpr_create' X' e o w).
Proof.
  intros H e o w. unfold ExtractExpr_create'.
  apply approx_bind; [apply approx_refl|]. intros _. case_match; [apply approx_refl|].
  destruct e; try apply approx_refl. case_match; [apply H|]. case_match; [apply H|].
  apply approx_bind; [apply H|]. intros a. apply approx_bind; [apply H|]. intros b.
  by apply ConcatExpr_create'_approx.
Qed.

Lemma ExtractExpr_go_approx n : forall e o w,
  approx (ExtractExpr_go n e o w) (ExtractExpr_go (S n) e o w).
Proof. induction n as [|n IH]; [by left|]. by apply ExtractExpr_create'_approx. Qed.

Lemma ExtractExpr_go_more n k e o w :
  approx (ExtractExpr_go n e o w) (ExtractExpr_go (k + n) e o w).
Proof.
  induction k as [|k IH]; [apply approx_refl|].
  eapply approx_trans; [exact IH|apply ExtractExpr_go_approx].
Qed.

Lemma ExtractExpr_go_enough n e o w :
  (esize e <= n)%nat -> wf (ExtractExpr e o w) -> ExtractExpr_go n e o w = ExtractExpr_create e o w.
Proof.
  intros Hn Hwf. unfold ExtractExpr_create. replace n with ((n - esize e) + esize e)%nat by lia.
  eapply approx_returns; [apply ExtractExpr_go_more|]. by apply ExtractExpr_create_builds.
Qed.
Lemma ConcatExpr_create'_enough n l r :
  wf (ConcatExpr l r) -> base_le n r ->
  ConcatExpr_create' (ExtractExpr_go n) l r = ConcatExpr_create l r.
Proof.
  intros (Hl & Hr & Hs) Hb. unfold ConcatExpr_create, ConcatExpr_create'.
  destruct l as [| | | | |el ol wl| | | |]; try done; destruct r as [| | | | |er or wr| | | |]; try done.
  case_match eqn:Eq; [|done]. apply andb_true_iff in Eq as [Eq Eo].
  simpl in Hl, Hr, Hs, Hb. destruct Hl as (Hel & ? & ? & ?), Hr as (Her & ? & ? & ?).
  apply expr_eqb_eq in Eq; [subst er|done..]. pose proof (wf_width el Hel).
  rewrite u32_small in Eo by lia. apply Z.eqb_eq in Eo. subst ol. simpl. rewrite u32_small by lia.
  apply ExtractExpr_go_enough; [done|]. simpl. split_and!; done || lia.
Qed.

(** [ExtractExpr_create] satisfies the recursive equation of the source. *)
Lemma ExtractExpr_create_unfold e o w :
  wf (ExtractExpr e o w) ->
  ExtractExpr_create e o w = ExtractExpr_create' ExtractExpr_create e o w.
Proof.
  intros Hwf. pose proof Hwf as (He & Ho & Hw & Hin).
  rewrite <- (ExtractExpr_go_enough (S (esize e))) by (done || lia).
  change (ExtractExpr_go (S (esize e))) with (ExtractExpr_create' (ExtractExpr_go (esize e))).
  unfold ExtractExpr_create'. destruct (massert _) as [[]| |]; [|done|done]. cbn [mbind result_bind].
  case_match; [done|]. destruct e as [| | | |x y| | | | |]; try done.
  rewrite getWidth_concat in Hin by done. pose proof He as (Hx & Hy & Hs).
  pose proof (wf_width x Hx). pose proof (wf_width y Hy).
  set (n := esize (ConcatExpr x y)) in *. assert (n = S (esize x + esize y)) by done.
  assert (Henough : forall z o w, z = x \/ z = y -> wf (ExtractExpr z o w) ->
    ExtractExpr_go n z o w = ExtractExpr_create z o w)
    by (intros z o' w' [->| ->] Hz; apply ExtractExpr_go_enough; done || lia).
  destruct (Z.leb_spec (getWidth y) o).
  { rewrite u32_small by lia. apply Henough; [by left|]. simpl; split_and!; done || lia. }
  rewrite u32_small by lia. destruct (Z.leb_spec (o + w) (getWidth y)).
  { apply Henough; [by right|]. simpl; split_and!; done || lia. }
  rewrite u32_sub_add, (u32_small (getWidth y - o)) by lia.
  assert (Hxw : wf (ExtractExpr x 0 (w - getWidth y + o))) by (simpl; split_and!; done || lia).
  assert (Hyw : wf (ExtractExpr y o (getWidth y - o))) by (simpl; split_and!; done || lia).
  rewrite !Henough by auto.
  destruct (ExtractExpr_create_builds_base _ _ _ Hxw) as (a & -> & Ha & _).
  destruct (ExtractExpr_create_builds_base _ _ _ Hyw) as (b & -> & Hb & Bb). cbn [mbind result_bind].
  apply ConcatExpr_create'_enough; [|eapply base_le_mono; [|exact Bb]; lia].
  apply (impl_concat a b _ _ Ha Hb). simpl. lia.
Qed.

(** ** createN, create4 and create8 *)

(** The reference of [createN] on [k1 .. kn] is [k1 . (k2 . (.. . kn))]. *)
Lemma create_onto_builds k (m : result expr) e :
  builds m e -> wf (ConcatExpr k e) ->
  builds (r ← m; ConcatExpr_create k r) (ConcatExpr k e).
Proof.
  intros Hm (Hk & He & Hs). eapply builds_bind; [exact Hm|]. intros r Hr.
  assert (impl (ConcatExpr k r) (ConcatExpr k e)) as Hc by (apply impl_concat; [by apply impl_refl|done..]).
  eapply builds_trans; [apply ConcatExpr_create_builds, Hc|exact Hc].
Qed.

Lemma createN_loop_builds pre m e :
  builds m e -> wf (foldr ConcatExpr e pre) ->
  builds (foldl (fun acc k => r ← acc; ConcatExpr_create k r) m (reverse pre)) (foldr ConcatExpr e pre).
Proof.
  intros Hm. induction pre as [|k pre IH]; intros Hwf; [done|].
  rewrite reverse_cons, foldl_app. simpl. apply create_onto_builds; [|done]. apply IH, Hwf.
Qed.

Lemma wf_foldr_concat e pre : wf (foldr ConcatExpr e pre) -> wf e.
Proof. induction pre as [|k pre IH]; [done|]. intros (_ & H & _). auto. Qed.

Lemma ConcatExpr_createN_builds ks last :
  wf (foldr ConcatExpr last ks) ->
  builds (ConcatExpr_createN (ks ++ [last])) (foldr ConcatExpr last ks).
Proof.
  intros Hwf. unfold ConcatExpr_createN. rewrite reverse_snoc.
  destruct ks as [|prev ks _] using rev_ind; [by apply builds_ok, impl_refl|].
  rewrite reverse_snoc. rewrite foldr_snoc in *. pose proof (wf_foldr_concat _ _ Hwf) as Hp.
  destruct (ConcatExpr_create_builds prev last Hp) as (r & -> & Hr). cbn [mbind result_bind].
  by apply createN_loop_builds; [apply builds_ok|].
Qed.

Lemma ConcatExpr_create4_builds k1 k2 k3 k4 :
  wf (foldr ConcatExpr k4 [k1; k2; k3]) ->
  builds (ConcatExpr_create4 k1 k2 k3 k4) (foldr ConcatExpr k4 [k1; k2; k3]).
Proof. apply (ConcatExpr_createN_builds [k1; k2; k3] k4). Qed.

Lemma bind_assoc {A B C} (m : result A) (f : A -> result B) (g : B -> result C) :
  (m ≫= f) ≫= g = m ≫= (fun a => f a ≫= g).
Proof. by destruct m. Qed.

Lemma ConcatExpr_create8_builds k1 k2 k3 k4 k5 k6 k7 k8 :
  let ref := foldr ConcatExpr k8 [k1; k2; k3; k4; k5; k6; k7] in
  wf ref -> builds (ConcatExpr_create8 k1 k2 k3 k4 k5 k6 k7 k8) ref.
Proof.
  intros ref Hwf. pose proof (ConcatExpr_createN_builds [k1; k2; k3; k4; k5; k6; k7] k8 Hwf) as H.
  unfold ConcatExpr_create8, ConcatExpr_create4. rewrite !bind_assoc.
  unfold ConcatExpr_createN in H. cbn in H.
  destruct (ConcatExpr_create k7 k8); [|exact H..]. cbn [mbind result_bind] in *.
  rewrite <- !bind_assoc. exact H.
Qed.

(** ** Not, ZExt, SExt *)
Lemma NotExpr_create_builds e : wf e -> builds (NotExpr_create e) (NotExpr e).
Proof.
  intros He. destruct e; try (by apply builds_ok, impl_refl). apply builds_ok.
  unfold CE_Not. rewrite ap_not_spec by done. destruct He as [Hw Hv].
  split_and!; simpl; [split; simpl; [done|by apply bv_not_inw]|done|by intros rho v].
Qed.

(** The reference of the width changes: an extension, or the low bits. *)
Definition zext_ref (e : expr) (w : Z) : expr :=
  if w <? getWidth e then ExtractExpr e 0 w else ZExtExpr e w.
Definition sext_ref (e : expr) (w : Z) : expr :=
  if w <? getWidth e then ExtractExpr e 0 w else SExtExpr e w.

Lemma sext_same w a : 0 < w -> inw w a -> bv_sext w w a = a.
Proof. intros. unfold bv_sext. rewrite sgn_mod by done. by apply wrap_small. Qed.

Lemma ZExtExpr_create_builds e w :
  wf e -> 0 < w < 2 ^ 32 -> builds (ZExtExpr_create e w) (zext_ref e w).
Proof.
  intros He Hw. pose proof (wf_width e He). unfold ZExtExpr_create, zext_ref.
  destruct (Z.eqb_spec w (getWidth e)) as [->|N].
  { rewrite Z.ltb_irrefl. apply builds_ok. split_and!; [done|done|]. refine_eval.
    unfold bv_zext. by rewrite wrap_small. }
  destruct (Z.ltb_spec w (getWidth e)).
  { apply ExtractExpr_create_builds. simpl. split_and!; done || lia. }
  destruct e; try (by apply builds_ok, impl_refl; split; [done|lia]). apply builds_ok.
  rewrite CE_ZExt_eq by (done || lia).
  split_and!; simpl; [split; simpl; [done|apply wrap_inw; lia]|done|by intros rho v].
Qed.

Lemma SExtExpr_create_builds e w :
  wf e -> 0 < w < 2 ^ 32 -> builds (SExtExpr_create e w) (sext_ref e w).
Proof.
  intros He Hw. pose proof (wf_width e He). unfold SExtExpr_create, sext_ref.
  destruct (Z.eqb_spec w (getWidth e)) as [->|N].
  { rewrite Z.ltb_irrefl. apply builds_ok. split_and!; [done|done|]. refine_eval.
    rewrite sext_same by (done || lia). done. }
  destruct (Z.ltb_spec w (getWidth e)).
  { apply ExtractExpr_create_builds. simpl. split_and!; done || lia. }
  destruct e; try (by apply builds_ok, impl_refl; split; [done|lia]). apply builds_ok.
  rewrite CE_SExt_eq by (done || lia).
  split_and!; simpl; [split; simpl; [done|apply wrap_inw; lia]|done|by intros rho v].
Qed.

(** ** Select *)
Lemma bool_const c : apok c -> bw c = Bool -> c = APInt Bool (Z.b2z (CE_isTrue c)).
Proof.
  intros Hc E. rewrite isTrue_eq by done. destruct c as [w v]; simpl in *; subst. f_equal.
  destruct Hc as [_ Hv]. by destruct (inw1_cases v Hv) as [-> | ->].
Qed.

Lemma SelectExpr_create_builds c t f :
  wf (SelectExpr c t f) -> builds (SelectExpr_create c t f) (SelectExpr c t f).
Proof.
  intros Hwf. pose proof Hwf as (Hc & Ht & Hf & Ec & E). unfold SelectExpr_create.
  apply builds_assert; [by apply Z.eqb_eq|]. apply builds_assert; [by apply Z.eqb_eq|].
  assert (Hplain : builds (Ok (SelectExpr c t f)) (SelectExpr c t f)) by (by apply builds_ok, impl_refl).
  assert (Hsel : builds (if expr_eqb t f then Ok t
      else if getWidth t =? Bool then
        match t, f with
        | ConstantExpr CE, _ =>
            if CE_isTrue CE then OrExpr_create c f else z ← createIsZero c; AndExpr_create z f
        | _, ConstantExpr CE =>
            if CE_isTrue CE then z ← createIsZero c; OrExpr_create z t else AndExpr_create c t
        | _, _ => Ok (SelectExpr c t f)
        end
      else Ok (SelectExpr c t f)) (SelectExpr c t f)).
  { destruct (expr_eqb t f) eqn:Eq.
    { apply expr_eqb_eq in Eq; [subst f|done..]. apply builds_ok. split_and!; [done|done|].
      refine_eval. simplify_eq. unfold sem_select. by case_match. }
    destruct (Z.eqb_spec (getWidth t) Bool) as [Eb|]; [|exact Hplain].
    assert (Hct : forall k, t = ConstantExpr k -> builds
      (if CE_isTrue k then OrExpr_create c f else z ← createIsZero c; AndExpr_create z f) (SelectExpr c t f)).
    { intros k ->. rewrite (bool_const k Ht Eb) at 2. destruct (CE_isTrue k).
      - eapply builds_trans; [apply OrExpr_create_builds; [done|done|congruence]|].
        split_and!; simpl; [split_and!; congruence|done|].
        refine_eval. rewrite Ec, <- E, Eb in *. bit_cases.
      - eapply not_l_builds; [by intros; apply AndExpr_create_builds|done|done|done|congruence|].
        pose proof (apok0 Bool ltac:(done)).
        split_and!; simpl; [split_and!; try done; congruence|done|].
        refine_eval. rewrite Ec, <- E, Eb in *. bit_cases. }
    assert (Hcf : forall k, f = ConstantExpr k -> builds
      (if CE_isTrue k then z ← createIsZero c; OrExpr_create z t else AndExpr_create c t) (SelectExpr c t f)).
    { intros k ->. simpl in E, Hf. rewrite (bool_const k) at 2 by congruence. destruct (CE_isTrue k).
      - eapply not_l_builds; [by intros; apply OrExpr_create_builds|done|done|done|congruence|].
        pose proof (apok0 Bool ltac:(done)).
        split_and!; simpl; [split_and!; try done; congruence|done|].
        refine_eval. rewrite Ec, Eb in *. bit_cases.
      - eapply builds_trans; [apply AndExpr_create_builds; [done|done|congruence]|].
        split_and!; simpl; [split_and!; congruence|congruence|].
        refine_eval. rewrite Ec, Eb in *. bit_cases. }
    destruct t; first [by apply Hct|destruct f; first [by apply Hcf|exact Hplain]]. }
  destruct c as [k| | | | | | | | |]; try exact Hsel. apply builds_ok.
  simpl in Hc, Ec. rewrite (bool_const k) at 2 by done.
  destruct (CE_isTrue k); (split_and!; simpl; [done|done|]); refine_eval; done.
Qed.

(** ** Read *)

(** What the rollback loop concludes, under an assignment that gives the read
    index the value [i]. *)
Definition rollback_ok (root : Array) (un : UpdateNode) (idx : expr) (rb : rollback) : Prop :=
  match rb with
  | Found value =>
      wf value /\ getWidth value = range root /\
      forall rho i v, eval rho idx = Some i -> eval_node rho root un i = Some v ->
      eval rho value = Some v
  | SymbolicWrite => True
  | NoWrite =>
      forall rho i v, eval rho idx = Some i -> eval_node rho root un i = Some v ->
      initial rho root i = Some v
  end.

Lemma ReadExpr_rollback_ok root un idx :
  wf idx -> getWidth idx = domain root -> wf_node root un ->
  returns (ReadExpr_rollback idx un) (rollback_ok root un idx).
Proof.
  intros Hi Ed. induction un as [|next IH ui value] using UpdateNode_ind; intros Hn; simpl.
  { apply returns_ok. by intros rho i v _ H. }
  destruct Hn as (Hn & Hui & Hv & Eui & Ev).
  destruct (EqExpr_create_builds idx ui Hi Hui) as (cond & -> & Hc & Wc & Rc); [congruence|].
  simpl in Wc. destruct cond as [k| | | | | | | | |]; try (by apply returns_ok).
  simpl in Hc, Wc. rewrite (bool_const k) in Rc by done. simpl. destruct (CE_isTrue k) eqn:Ht.
  - apply returns_ok. split_and!; [done|done|]. intros rho i v Ei Hev. simpl in Hev. inv_option.
    specialize (Rc rho (Z.b2z (i =? x))). simpl in Rc. rewrite Ei, H in Rc. simpl in Rc.
    specialize (Rc eq_refl). rewrite Z.eqb_sym in H0. by destruct (i =? x).
  - eapply returns_weaken; [by apply IH|].
    assert (Hskip : forall rho i v, eval rho idx = Some i ->
      eval_node rho root (Node next ui value) i = Some v -> eval_node rho root next i = Some v).
    { intros rho i v Ei Hev. simpl in Hev. inv_option.
      specialize (Rc rho (Z.b2z (i =? x))). simpl in Rc. rewrite Ei, H in Rc. simpl in Rc.
      specialize (Rc eq_refl). rewrite Z.eqb_sym in H0. by destruct (i =? x). }
    intros [v'| |]; simpl; [|done|].
    + intros (? & ? & Hr). split_and!; [done|done|]. intros; eapply Hr; [done|]. by eapply Hskip.
    + intros Hr rho i v Ei Hev. apply Hr; [done|]. by eapply Hskip.
Qed.

(** The value stored in a constant array. *)
Lemma const_array_read root k :
  wf_array root -> apok k -> bw k = domain root -> isConstantArray root = true ->
  raw k < arr_size root ->
  exists v, constantValues root !! Z.to_nat (raw k) = Some v /\ apok v /\ bw v = range root /\
    forall rho, initial rho root (raw k) = Some (raw v).
Proof.
  intros Ha [_ Hk] Ek Hc Hlt. unfold isConstantArray in Hc. apply negb_true_iff in Hc.
  destruct (const_array_dom root Ha Hc) as [Hlen Hall]. destruct Hk as [Hk0 _].
  destruct (lookup_lt_is_Some_2 (constantValues root) (Z.to_nat (raw k))) as [v Hv]; [lia|].
  pose proof (Forall_lookup_1 _ _ _ _ Hall Hv) as [? ?].
  exists v. split_and!; try done. intros rho. unfold initial. rewrite Hc.
  rewrite (proj2 (Z.ltb_lt _ _) Hlt), Hv. done.
Qed.

Lemma ReadExpr_create_builds ul idx :
  let ref := ReadExpr (ul_root ul) (ul_head ul) idx in
  wf ref -> builds (ReadExpr_create ul idx) ref.
Proof.
  intros ref Hwf. pose proof Hwf as (Ha & Hn & Hi & Ed). unfold ReadExpr_create.
  assert (Hplain : builds (Ok ref) ref) by (by apply builds_ok, impl_refl).
  eapply returns_bind; [by apply (ReadExpr_rollback_ok (ul_root ul))|].
  intros [value| |] Hrb; simpl in Hrb; [|exact Hplain|].
  - destruct Hrb as (? & ? & Hr). apply builds_ok. split_and!; [done|done|].
    intros rho v Hev. simpl in Hev. inv_option. eauto.
  - destruct idx as [k| | | | | | | | |]; try exact Hplain.
    destruct (isConstantArray (ul_root ul)) eqn:Hc; [|exact Hplain]. simpl in Hi, Ed.
    assert (bw k <= 64) by (destruct Ha; lia).
    apply returns_assert; [by apply Z.leb_le|]. unfold CE_getZExtValue.
    rewrite massert_true by (by apply Z.leb_le). cbn [mbind result_bind].
    rewrite ap_getZExtValue_spec by done. destruct (Z.ltb_spec (raw k) (arr_size (ul_root ul))); [|exact Hplain].
    destruct (const_array_read (ul_root ul) k) as (v & -> & ? & ? & Hv); try done.
    apply builds_ok. split_and!; [done|done|]. intros rho x Hev. simpl in Hev.
    specialize (Hrb rho (raw k) x eq_refl Hev). rewrite Hv in Hrb. done.
Qed.

(** [UpdateList::extend] is a write: reading the extended list at the written
    index gives the value, at any other index what the list held before. *)
Lemma UpdateList_extend_ok ul idx val :
  wf_node (ul_root ul) (ul_head ul) -> wf idx -> wf val ->
  getWidth idx = domain (ul_root ul) -> getWidth val = range (ul_root ul) ->
  returns (UpdateList_extend ul idx val) (fun ul' =>
    ul_root ul' = ul_root ul /\ wf_node (ul_root ul') (ul_head ul') /\
    UpdateList_getSize ul' = UpdateList_getSize ul + 1 /\
    forall rho i j, eval rho idx = Some j ->
    eval_node rho (ul_root ul') (ul_head ul') i =
      if j =? i then eval rho val else eval_node rho (ul_root ul) (ul_head ul) i).
Proof.
  intros Hn Hi Hv Ei Ev. unfold UpdateList_extend.
  apply returns_assert; [by apply Z.eqb_eq|]. apply returns_assert; [by apply Z.eqb_eq|].
  apply returns_ok. simpl. split_and!; try done.
  - unfold UpdateList_getSize; simpl. lia.
  - intros rho i j Hj. by rewrite Hj.
Qed.

(** ** createTempRead *)
Definition read_byte (a : Array) (i : Z) : expr :=
  ReadExpr a NullNode (ConstantExpr (APInt Int32 i)).

(** The little-endian number formed by the first [n] bytes of [a]. *)
Fixpoint le_bytes (rho : env) (a : Array) (n : nat) : Z :=
  match n with
  | O => 0
  | S m => wrap 8 (rho a (Z.of_nat m)) * 2 ^ (8 * Z.of_nat m) + le_bytes rho a m
  end.

Lemma read_byte_builds a i :
  wf_array a -> domain a = Int32 -> 0 <= i < 2 ^ 32 ->
  builds (ReadExpr_create {| ul_root := a; ul_head := NullNode |}
            (ConstantExpr (ConstantExpr_alloc i Int32))) (read_byte a i).
Proof.
  intros Ha Hd Hi. rewrite alloc_eq by (done || (unfold inw; lia)).
  rewrite wrap_small by done. apply (ReadExpr_create_builds {| ul_root := a; ul_head := NullNode |}).
  by simpl; split_and!.
Qed.

(** Reads built one after the other, then combined. *)
Lemma builds_reads2 m1 m0 e1 e0 :
  builds m1 e1 -> builds m0 e0 -> wf (ConcatExpr e1 e0) ->
  builds (r1 ← m1; r0 ← m0; ConcatExpr_create r1 r0) (ConcatExpr e1 e0).
Proof.
  intros H1 H0 Hwf. eapply builds_bind; [exact H1|]. intros r1 I1.
  eapply builds_bind; [exact H0|]. intros r0 I0.
  assert (Hc : impl (ConcatExpr r1 r0) (ConcatExpr e1 e0)) by (apply impl_concat; [done|done|apply Hwf]).
  eapply builds_trans; [apply ConcatExpr_create_builds, Hc|exact Hc].
Qed.

(** A symbolic byte array read at the constant offsets [n-1 .. 0]. *)
Fixpoint reads (a : Array) (n : nat) : expr :=
  match n with
  | O => read_byte a 0
  | S m => ConcatExpr (read_byte a (Z.of_nat n)) (reads a m)
  end.

Section temp_read.
Context (a : Array) (Ha : wf_array a) (Hd : domain a = Int32) (Hr : range a = Int8).
Context (Hs : isSymbolicArray a = true).

Lemma read_byte_wf i : 0 <= i < 2 ^ 32 -> wf (read_byte a i).
Proof using Ha Hd. intros. by simpl; split_and!. Qed.

Lemma reads_ok n :
  (n <= 7)%nat -> wf (reads a n) /\ getWidth (reads a n) = 8 * Z.of_nat (S n) /\
  forall rho, eval rho (reads a n) = Some (le_bytes rho a (S n)).
Proof using Ha Hd Hr Hs.
  induction n as [|n IH]; intros Hn.
  - split_and!; [by apply read_byte_wf|by simpl|]. intros rho.
    cbn [reads read_byte eval mbind option_bind raw eval_node le_bytes]. unfold initial.
    rewrite Hs, Hr. change (Z.of_nat 0) with 0. f_equal. unfold Int8. rewrite Z.pow_0_r. lia.
  - destruct IH as (W & E & V); [lia|].
    assert (Hwf : wf (reads a (S n))).
    { split_and!; [apply read_byte_wf; lia|done|]. rewrite E. simpl. rewrite Hr. unfold Int8. lia. }
    split_and!; [done| |].
    + change (reads a (S n)) with (ConcatExpr (read_byte a (Z.of_nat (S n))) (reads a n)) in *.
      rewrite getWidth_concat by done. rewrite E. simpl. rewrite Hr. unfold Int8. lia.
    + intros rho. cbn [reads eval]. rewrite V, E. cbn [read_byte eval mbind option_bind raw eval_node].
      unfold initial. rewrite Hs, Hr. cbn [mbind option_bind]. f_equal.
Qed.

Lemma reads_impl rs n : 
  (n <= 7)%nat -> Forall2 (fun r i => impl r (read_byte a (Z.of_nat i))) rs (reverse (seq 0 (S n))) ->
  exists ks last, rs = ks ++ [last] /\ impl (foldr ConcatExpr last ks) (reads a n).
Proof using Ha Hd Hr Hs.
  revert rs. induction n as [|n IH]; intros rs Hn H.
  - apply Forall2_cons_inv_r in H as (r & rs' & Hr0 & H & ->). apply Forall2_nil_inv_r in H as ->.
    by exists [], r.
  - rewrite seq_S, reverse_snoc in H. apply Forall2_cons_inv_r in H as (r & rs' & Hr0 & H & ->).
    destruct (IH rs') as (ks & last & -> & HI); [lia|done|]. exists (r :: ks), last. split; [done|].
    destruct (reads_ok n) as (_ & E & _); [lia|].
    simpl. apply impl_concat; [exact Hr0|exact HI|]. simpl getWidth at 1. rewrite Hr, E. unfold Int8. lia.
Qed.
(** The expression over the byte reads [rs], most significant first. *)
Lemma concat_reads_builds m ks last n :
  (n <= 7)%nat ->
  Forall2 (fun r i => impl r (read_byte a (Z.of_nat i))) (ks ++ [last]) (reverse (seq 0 (S n))) ->
  (wf (foldr ConcatExpr last ks) -> builds m (foldr ConcatExpr last ks)) ->
  builds m (reads a n).
Proof using Ha Hd Hr Hs.
  intros Hn HF Hm. destruct (reads_impl (ks ++ [last]) n Hn HF) as (ks' & last' & E & HI).
  apply app_inj_tail in E as [<- <-]. eapply builds_trans; [apply Hm, HI|exact HI].
Qed.

Lemma createTempRead_builds w n :
  (w, n) ∈ [(Int8, 0%nat); (Int16, 1%nat); (Int32, 3%nat); (Int64, 7%nat)] ->
  builds (createTempRead a w) (reads a n).
Proof using Ha Hd Hr Hs SP.
  intros H. unfold createTempRead.
  repeat (apply elem_of_cons in H as [[= -> ->]|H]); try (by apply elem_of_nil in H); cbn [Z.eqb Pos.eqb].
  - by apply read_byte_builds.
  - repeat (eapply builds_bind; [by apply read_byte_builds|intros ? ?]).
    eapply (concat_reads_builds _ [_] _); [lia|cbn; repeat (eapply Forall2_cons_2; [eassumption|]); by apply Forall2_nil_2|].
    apply ConcatExpr_create_builds.
  - repeat (eapply builds_bind; [by apply read_byte_builds|intros ? ?]).
    eapply (concat_reads_builds _ [_; _; _] _); [lia|cbn; repeat (eapply Forall2_cons_2; [eassumption|]); by apply Forall2_nil_2|].
    apply ConcatExpr_create4_builds.
  - repeat (eapply builds_bind; [by apply read_byte_builds|intros ? ?]).
    eapply (concat_reads_builds _ [_; _; _; _; _; _; _] _); [lia|cbn; repeat (eapply Forall2_cons_2; [eassumption|]); by apply Forall2_nil_2|].
    apply ConcatExpr_create8_builds.
Qed.
End temp_read.

(** ** createFromKind and rebuild *)

(** The node of kind [k] over [args], the reference of [createFromKind]. *)
Definition kind_ref (k : Kind.t) (args : list CreateArg) : option expr :=
  match k, args with
  | Kind.NotOptimized, [ArgExpr e] => Some (NotOptimizedExpr e)
  | Kind.Select, [ArgExpr c; ArgExpr t; ArgExpr f] => Some (SelectExpr c t f)
  | Kind.Concat, [ArgExpr l; ArgExpr r] => Some (ConcatExpr l r)
  | Kind.ZExt, [ArgExpr e; ArgWidth w] => Some (ZExtExpr e w)
  | Kind.SExt, [ArgExpr e; ArgWidth w] => Some (SExtExpr e w)
  | Kind.Binary b, [ArgExpr l; ArgExpr r] => Some (BinExpr b l r)
  | _, _ => None
  end.

(** The node of [e] over other kids, the reference of [rebuild]. *)
Definition with_kids (e : expr) (ks : list expr) : option expr :=
  match e, ks with
  | NotOptimizedExpr _, [k] => Some (NotOptimizedExpr k)
  | ReadExpr root un _, [k] => Some (ReadExpr root un k)
  | SelectExpr _ _ _, [c; t; f] => Some (SelectExpr c t f)
  | ConcatExpr _ _, [l; r] => Some (ConcatExpr l r)
  | ExtractExpr _ o w, [k] => Some (ExtractExpr k o w)
  | ZExtExpr _ w, [k] => Some (ZExtExpr k w)
  | SExtExpr _ w, [k] => Some (SExtExpr k w)
  | NotExpr _, [k] => Some (NotExpr k)
  | BinExpr b _ _, [l; r] => Some (BinExpr b l r)
  | _, _ => None
  end.

(** No division by a literal zero at the root. *)
Definition root_div_ok (e : expr) : Prop :=
  match e with BinExpr k l r => div_ok k l r | _ => True end.

Lemma ZExtExpr_create_builds_up e w :
  wf (ZExtExpr e w) -> builds (ZExtExpr_create e w) (ZExtExpr e w).
Proof.
  intros [He Hw]. pose proof (wf_width e He). pose proof (ZExtExpr_create_builds e w He ltac:(lia)) as H'.
  unfold zext_ref in H'. destruct (Z.ltb_spec w (getWidth e)); [lia|done].
Qed.
Lemma SExtExpr_create_builds_up e w :
  wf (SExtExpr e w) -> builds (SExtExpr_create e w) (SExtExpr e w).
Proof.
  intros [He Hw]. pose proof (wf_width e He). pose proof (SExtExpr_create_builds e w He ltac:(lia)) as H'.
  unfold sext_ref in H'. destruct (Z.ltb_spec w (getWidth e)); [lia|done].
Qed.

Lemma rebuild_builds e ks e' :
  with_kids e ks = Some e' -> wf e' -> root_div_ok e' -> builds (rebuild e ks) e'.
Proof.
  intros H Hwf Hd.
  destruct e; simpl in H; repeat (case_match; try discriminate); simplify_eq; simpl;
    first [by apply builds_ok, impl_refl|by apply (ReadExpr_create_builds {| ul_root := _; ul_head := _ |})
      |by apply SelectExpr_create_builds|by apply ConcatExpr_create_builds
      |by apply ExtractExpr_create_builds|by apply ZExtExpr_create_builds_up
      |by apply SExtExpr_create_builds_up|by apply NotExpr_create_builds
      |by apply bin_create_builds; [apply Hwf..|]].
Qed.

Lemma createFromKind_builds k args e' :
  kind_ref k args = Some e' -> wf e' -> root_div_ok e' -> builds (createFromKind k args) e'.
Proof.
  intros H Hwf Hd.
  assert (Hwidth : forall e w, (e' = ZExtExpr e w \/ e' = SExtExpr e w) -> negb (w =? InvalidWidth) = true).
  { intros e w He. apply negb_true_iff, Z.eqb_neq. unfold InvalidWidth.
    destruct He as [->| ->]; destruct Hwf as [He Hw]; pose proof (wf_width e He); lia. }
  destruct k; simpl in H; repeat (case_match; try discriminate); simplify_eq; simpl;
    try (apply builds_assert; [by eapply Hwidth; auto|]);
    first [by apply builds_ok, impl_refl
      |by apply SelectExpr_create_builds|by apply ConcatExpr_create_builds
      |by apply ZExtExpr_create_builds_up|by apply SExtExpr_create_builds_up
      |by apply bin_create_builds; [apply Hwf..|]].
Qed.

(** Every other kind or argument list is rejected. *)
Lemma createFromKind_rejects k args :
  kind_ref k args = None -> createFromKind k args = AssertFail.
Proof. intros H. destruct k; simpl in *; repeat (case_match; try discriminate); done. Qed.
End sound.

(** ** Theorems *)

(** C3. [ExtractExpr::create] and [ConcatExpr::create], which call each other,
    terminate on every well-typed input (the fuel of the model is never
    exhausted), fail no assertion and return an expression of the requested
    width that has the value of the plain extract, respectively concat, under
    every assignment. *)
Theorem extract_concat_create_sound {AP : APIntOps} {SP : APIntSpec AP} {CFG : Config} :
  (forall e off w, wf (ExtractExpr e off w) ->
     returns (ExtractExpr_create e off w) (fun e' =>
       wf e' /\ getWidth e' = w /\ refines e' (ExtractExpr e off w))) /\
  (forall l r, wf (ConcatExpr l r) ->
     returns (ConcatExpr_create l r) (fun e' =>
       wf e' /\ getWidth e' = getWidth l + getWidth r /\ refines e' (ConcatExpr l r))).
Proof.
  split; intros.
  - by apply ExtractExpr_create_builds.
  - rewrite <- getWidth_concat by done. by apply ConcatExpr_create_builds.
Qed.

Lemma extract_concat_create_sound_witness :
  returns (ExtractExpr_create (AP := ZOps)
             (ConcatExpr (ConcatExpr (byte 3) (byte 2)) (ConcatExpr (byte 1) (byte 0))) 4 24)
    (fun e' => wf e' /\ getWidth e' = 24 /\ refines (CFG := default_config) e' (ExtractExpr
       (ConcatExpr (ConcatExpr (byte 3) (byte 2)) (ConcatExpr (byte 1) (byte 0))) 4 24)).
Proof. apply (extract_concat_create_sound (AP := ZOps) (CFG := default_config)). concrete. Defined.

(** [ConcatExpr::createN] on [n] kids returns an expression with the value of
    the kids joined from the first (most significant) to the last; [create4] and
    [create8] are its instances for four and eight kids. *)
Theorem createN_sound {AP : APIntOps} {SP : APIntSpec AP} {CFG : Config} ks last :
  wf (foldr ConcatExpr last ks) ->
  builds (ConcatExpr_createN (ks ++ [last])) (foldr ConcatExpr last ks) /\
  (forall k1 k2 k3, ks = [k1; k2; k3] ->
     builds (ConcatExpr_create4 k1 k2 k3 last) (foldr ConcatExpr last ks)) /\
  (forall k1 k2 k3 k4 k5 k6 k7, ks = [k1; k2; k3; k4; k5; k6; k7] ->
     builds (ConcatExpr_create8 k1 k2 k3 k4 k5 k6 k7 last) (foldr ConcatExpr last ks)).
Proof.
  intros H. split_and!; [by apply ConcatExpr_createN_builds| |]; intros; subst.
  - by apply ConcatExpr_create4_builds.
  - by apply ConcatExpr_create8_builds.
Qed.

Lemma createN_sound_witness :
  builds (CFG := default_config) (ConcatExpr_create4 (AP := ZOps) (byte 3) (byte 2) (byte 1) (byte 0))
    (ConcatExpr (byte 3) (ConcatExpr (byte 2) (ConcatExpr (byte 1) (byte 0)))).
Proof.
  apply (createN_sound (AP := ZOps) (CFG := default_config) [byte 3; byte 2; byte 1] (byte 0));
    [concrete|reflexivity].
Defined.

(** [SelectExpr::create] (constant condition, equal branches, boolean
    branches turned into and/or) returns an expression with the value of the
    plain select. *)
Theorem select_create_sound {AP : APIntOps} {SP : APIntSpec AP} {CFG : Config} c t f :
  wf (SelectExpr c t f) -> builds (SelectExpr_create c t f) (SelectExpr c t f).
Proof. apply SelectExpr_create_builds. Qed.

Lemma select_create_sound_witness :
  builds (CFG := default_config) (SelectExpr_create (AP := ZOps) (CFG := default_config) flag (cst Bool 0) flag)
    (SelectExpr flag (cst Bool 0) flag).
Proof. apply (select_create_sound (AP := ZOps) (CFG := default_config)). concrete. Defined.

(** [ReadExpr::create] may skip the writes of the update list that provably
    hit another index, return the value of a write that provably hits the read
    index, and fold reads of constant arrays: the expression it returns has the
    value of a read through the whole update list. *)
Theorem read_create_sound {AP : APIntOps} {SP : APIntSpec AP} {CFG : Config} ul index :
  wf (ReadExpr (ul_root ul) (ul_head ul) index) ->
  builds (ReadExpr_create ul index) (ReadExpr (ul_root ul) (ul_head ul) index).
Proof. apply ReadExpr_create_builds. Qed.

Lemma read_create_sound_witness :
  builds (CFG := default_config)
    (ReadExpr_create (AP := ZOps) (CFG := default_config)
       {| ul_root := table; ul_head := Node NullNode (cst Int32 2) (byte 5) |} (cst Int32 3))
    (ReadExpr table (Node NullNode (cst Int32 2) (byte 5)) (cst Int32 3)).
Proof.
  apply (read_create_sound (AP := ZOps) (CFG := default_config)
    {| ul_root := table; ul_head := Node NullNode (cst Int32 2) (byte 5) |}). concrete.
Defined.

(** [ZExtExpr::create] and [SExtExpr::create] to any width return an
    expression with the value of the extension, or of the low bits when the
    requested width is smaller than the operand's. *)
Theorem ext_create_sound {AP : APIntOps} {SP : APIntSpec AP} {CFG : Config} e w :
  wf e -> 0 < w < 2 ^ 32 ->
  builds (ZExtExpr_create e w) (if w <? getWidth e then ExtractExpr e 0 w else ZExtExpr e w) /\
  builds (SExtExpr_create e w) (if w <? getWidth e then ExtractExpr e 0 w else SExtExpr e w).
Proof. split; [by apply ZExtExpr_create_builds|by apply SExtExpr_create_builds]. Qed.

Lemma ext_create_sound_witness :
  builds (CFG := default_config) (ZExtExpr_create (AP := ZOps) (byte 0) 32) (ZExtExpr (byte 0) 32) /\
  builds (CFG := default_config) (SExtExpr_create (AP := ZOps) (byte 0) 32) (SExtExpr (byte 0) 32).
Proof. apply (ext_create_sound (AP := ZOps) (CFG := default_config) (byte 0) 32); concrete. Defined.

(** [rebuild(kids)], the method every visitor uses, returns an expression
    with the value of the node over the new kids, for every class of
    expressions that has kids. *)
Theorem rebuild_sound {AP : APIntOps} {SP : APIntSpec AP} {CFG : Config} e ks e' :
  with_kids e ks = Some e' -> wf e' -> root_div_ok e' -> builds (rebuild e ks) e'.
Proof. apply rebuild_builds. Qed.

Lemma rebuild_sound_witness :
  builds (CFG := default_config) (rebuild (AP := ZOps) (CFG := default_config) (BinExpr Kind.Ult (byte 0) (byte 1)) [byte 2; cst Int8 9])
    (BinExpr Kind.Ult (byte 2) (cst Int8 9)).
Proof.
  apply (rebuild_sound (AP := ZOps) (CFG := default_config)); [reflexivity|concrete|].
  by apply not_div_ok.
Defined.

(** [Expr::createFromKind] builds the node of the requested kind and fails an
    assertion on every other kind and argument list. *)
Theorem createFromKind_sound {AP : APIntOps} {SP : APIntSpec AP} {CFG : Config} k args :
  match kind_ref k args with
  | Some e' => wf e' -> root_div_ok e' -> builds (createFromKind k args) e'
  | None => createFromKind k args = AssertFail
  end.
Proof.
  destruct (kind_ref k args) eqn:E; [intros; by apply createFromKind_builds|].
  by apply createFromKind_rejects.
Qed.

Lemma createFromKind_sound_witness :
  builds (CFG := default_config)
    (createFromKind (AP := ZOps) (CFG := default_config) Kind.ZExt [ArgExpr (byte 0); ArgWidth 16]) (ZExtExpr (byte 0) 16).
Proof.
  apply (createFromKind_sound (AP := ZOps) (CFG := default_config) Kind.ZExt
    [ArgExpr (byte 0); ArgWidth 16]); [concrete|exact I].
Defined.

(** [Expr::createTempRead] of [n] bytes of a symbolic byte array reads them
    in little-endian order. *)
Theorem createTempRead_little_endian {AP : APIntOps} {SP : APIntSpec AP} {CFG : Config} a n :
  wf_array a -> domain a = Int32 -> range a = Int8 -> isSymbolicArray a = true ->
  n ∈ [1; 2; 4; 8]%nat ->
  returns (createTempRead a (8 * Z.of_nat n)) (fun e =>
    wf e /\ getWidth e = 8 * Z.of_nat n /\
    forall rho, eval rho e = Some (le_bytes rho a n)).
Proof.
  intros Ha Hd Hr Hs Hn. destruct n as [|m].
  { repeat (apply elem_of_cons in Hn as [Hn|Hn]; [done|]). by apply elem_of_nil in Hn. }
  destruct (reads_ok a Ha Hd Hr Hs m) as (_ & Hw & Hv).
  { repeat (apply elem_of_cons in Hn as [Hn|Hn]; [lia|]). by apply elem_of_nil in Hn. }
  eapply returns_weaken; [apply (createTempRead_builds a Ha Hd Hr Hs _ m)|].
  - repeat (apply elem_of_cons in Hn as [[= ->]|Hn]; [set_solver|]). by apply elem_of_nil in Hn.
  - intros e (We & Ee & Re). split_and!; [done|congruence|]. intros rho. apply Re, Hv.
Qed.

Lemma createTempRead_little_endian_witness :
  returns (createTempRead (AP := ZOps) (CFG := default_config) buf 32) (fun e =>
    wf e /\ getWidth e = 32 /\
    forall rho, eval (CFG := default_config) rho e = Some (le_bytes rho buf 4)).
Proof.
  apply (createTempRead_little_endian (AP := ZOps) (CFG := default_config) buf 4); concrete.
Defined.

(** [UpdateList::extend] is a write: it fails an assertion on a wrong index
    or value width and otherwise lengthens the list by one, keeps it well typed,
    and a later read sees the value at the written index and the former contents
    everywhere else. *)
Theorem UpdateList_extend_write {CFG : Config} ul index value :
  wf_node (ul_root ul) (ul_head ul) -> wf index -> wf value ->
  if (domain (ul_root ul) =? getWidth index) && (range (ul_root ul) =? getWidth value)
  then returns (UpdateList_extend ul index value) (fun ul' =>
    ul_root ul' = ul_root ul /\ wf_node (ul_root ul') (ul_head ul') /\
    UpdateList_getSize ul' = UpdateList_getSize ul + 1 /\
    forall rho i j, eval rho index = Some j ->
    eval_node rho (ul_root ul') (ul_head ul') i =
      if j =? i then eval rho value else eval_node rho (ul_root ul) (ul_head ul) i)
  else UpdateList_extend ul index value = AssertFail.
Proof.
  intros. destruct (_ && _) eqn:E.
  - apply andb_true_iff in E as [E1%Z.eqb_eq E2%Z.eqb_eq]. by apply UpdateList_extend_ok.
  - unfold UpdateList_extend. by destruct (_ =? _), (_ =? _).
Qed.

Lemma UpdateList_extend_write_witness :
  returns (UpdateList_extend {| ul_root := buf; ul_head := NullNode |} (cst Int32 2) (byte 0))
    (fun ul' => ul_root ul' = buf /\ wf_node (ul_root ul') (ul_head ul') /\
       UpdateList_getSize ul' = 1 /\
       forall rho i j, eval (CFG := default_config) rho (cst Int32 2) = Some j ->
       eval_node (CFG := default_config) rho (ul_root ul') (ul_head ul') i =
         if j =? i then eval (CFG := default_config) rho (byte 0)
         else eval_node (CFG := default_config) rho buf NullNode i).
Proof.
  apply (UpdateList_extend_write (CFG := default_config) {| ul_root := buf; ul_head := NullNode |}
    (cst Int32 2) (byte 0)); concrete.
Defined.
