(* ===== verification/ExprVisitor.v ===== *)
(** * ExprVisitor: memoised rewriting of expressions

    Models [klee/lib/Expr/ExprVisitor.cpp].  A visitor is an object with virtual
    methods and a memo table; here it is a record of methods (its vtable), and
    [visit] threads the memo table and a state of the derived class through a
    state-and-failure monad.  The methods receive [visit] itself, since derived
    classes call it back.  Every visit consumes one unit of fuel.

    [visit_sound] is the induction principle of visitors: whatever relation
    between an expression and its rewritten form the methods maintain locally,
    [visit] maintains globally, through the memo table and [rebuild]. *)

From S2P Require Import Prelude APInt ExprData Bits ExprCompare ExprCreate ExprCreateSound ExprStructSound.
Local Open Scope Z_scope.

(** [ExprVisitor::Action] *)
Inductive Action :=
| SkipChildren
| DoChildren
| ChangeTo (argument : expr).

(** [ExprHashMap< ref<Expr> >]: keyed by structural equality. *)
Definition visited_ty := list (expr * expr).

(** State of a visitor: the memo table and the fields [U] of the derived class. *)
Definition M (U A : Type) : Type := visited_ty * U -> result (A * (visited_ty * U)).

#[export] Instance M_ret U : MRet (M U) := fun A a s => Ok (a, s).
#[export] Instance M_bind U : MBind (M U) := fun A B f m s =>
  match m s with
  | Ok (a, s') => f a s'
  | AssertFail => AssertFail
  | OutOfFuel => OutOfFuel
  end.

(** A computation that does not touch the state of the visitor. *)
Definition lift {U A} (m : result A) : M U A := fun s =>
  match m with Ok a => Ok (a, s) | AssertFail => AssertFail | OutOfFuel => OutOfFuel end.

(** The virtual methods; [visitKind k] is [visitX] for the kind [X] = [k]. *)
Record ExprVisitor (U : Type) := {
  recursive : bool;
  visitExpr : (expr -> M U expr) -> expr -> M U Action;
  visitKind : Kind.t -> (expr -> M U expr) -> expr -> M U Action;
  visitExprPost : expr -> M U Action;
}.
Arguments recursive {U}.
Arguments visitExpr {U}.
Arguments visitKind {U}.
Arguments visitExprPost {U}.

(** The methods of the base class. *)
Definition base_visitExpr {U} (visit : expr -> M U expr) (e : expr) : M U Action := mret DoChildren.
Definition base_visitKind {U} (k : Kind.t) (visit : expr -> M U expr) (e : expr) : M U Action :=
  mret DoChildren.
Definition base_visitExprPost {U} (e : expr) : M U Action := mret SkipChildren.

Section visitor.
Context {AP : APIntOps} {CFG : Config} {U : Type}.

Fixpoint visited_find (t : visited_ty) (e : expr) : option expr :=
  match t with
  | [] => None
  | (k, r) :: t' => if expr_eqb k e then Some r else visited_find t' e
  end.

(** [visited.insert]: an existing entry is kept. *)
Definition visited_insert (t : visited_ty) (e r : expr) : visited_ty :=
  match visited_find t e with Some _ => t | None => (e, r) :: t end.

(** The loop over the kids: the visited kids, and whether one changed. *)
Fixpoint visit_kids (visit : expr -> M U expr) (ks : list expr) : M U (list expr * bool) :=
  match ks with
  | [] => mret ([], false)
  | kid :: ks' =>
      kid' ← visit kid;
      rest ← visit_kids visit ks';
      mret (kid' :: fst rest, negb (expr_eqb kid' kid) || snd rest)
  end.

Definition visitActual (V : ExprVisitor U) (visit : expr -> M U expr) (e : expr) : M U expr :=
  if isConst e then mret e
  else
    act ← visitExpr V visit e;
    match act with
    | SkipChildren => mret e
    | ChangeTo a => mret a
    | DoChildren =>
        act ← visitKind V (getKind e) visit e;
        match act with
        | DoChildren =>
            ks ← visit_kids visit (kids e);
            e' ← (if snd ks : bool then
                    e' ← lift (rebuild e (fst ks));
                    if recursive V then visit e' else mret e'
                  else mret e);
            if isConst e' then mret e'
            else
              act ← visitExprPost V e';
              mret (match act with ChangeTo a => a | _ => e' end)
        | SkipChildren => mret e
        | ChangeTo a => mret a
        end
    end.

Definition visit' (V : ExprVisitor U) (visit : expr -> M U expr) (e : expr) : M U expr :=
  if negb UseVisitorHash || isConst e then visitActual V visit e
  else fun s =>
    match visited_find (fst s) e with
    | Some r => Ok (r, s)
    | None =>
        match visitActual V visit e s with
        | Ok (res, s') => Ok (res, (visited_insert (fst s') e res, snd s'))
        | AssertFail => AssertFail
        | OutOfFuel => OutOfFuel
        end
    end.

Fixpoint visit (V : ExprVisitor U) (fuel : nat) (e : expr) : M U expr :=
  match fuel with
  | O => fun _ => OutOfFuel
  | S n => visit' V (visit V n) e
  end.
End visitor.

(** ** Size of everything a visitor may reach, update lists included *)
Fixpoint vsize (e : expr) : nat :=
  match e with
  | ConstantExpr _ => 1
  | ReadExpr _ un i => S (vsize_node un + vsize i)
  | NotOptimizedExpr e | ExtractExpr e _ _ | ZExtExpr e _ | SExtExpr e _ | NotExpr e => S (vsize e)
  | SelectExpr c t f => S (vsize c + vsize t + vsize f)
  | ConcatExpr l r | BinExpr _ l r => S (vsize l + vsize r)
  end
with vsize_node (un : UpdateNode) : nat :=
  match un with
  | NullNode => 0
  | Node n i v => vsize_node n + vsize i + vsize v
  end.

Lemma vsize_pos e : (1 <= vsize e)%nat.
Proof. destruct e; simpl; lia. Qed.

Lemma vsize_kids e : Forall (fun k => (vsize k < vsize e)%nat) (kids e).
Proof. destruct e; simpl; rewrite ?Forall_cons, ?Forall_nil; split_and?; lia || done. Qed.

(** ** Specifications of computations that may fail

    [runs F G m P]: [m] returns a value satisfying [P]; an assertion may fail
    only if [F] holds and the fuel may run out only if [G] holds. *)
Definition runs (F G : Prop) {A} (m : result A) (P : A -> Prop) : Prop :=
  (exists a, m = Ok a /\ P a) \/ (F /\ m = AssertFail) \/ (G /\ m = OutOfFuel).

Lemma runs_ok F G {A} (a : A) (P : A -> Prop) : P a -> runs F G (Ok a) P.
Proof. intros. left. eauto. Qed.

Lemma returns_runs F G {A} (m : result A) P : returns m P -> runs F G m P.
Proof. intros H. by left. Qed.

Lemma runs_returns {A} (m : result A) P : runs False False m P -> returns m P.
Proof. by intros [H|[[[] _]|[[] _]]]. Qed.

Lemma runs_weaken F G {A} (m : result A) (P Q : A -> Prop) :
  runs F G m P -> (forall a, P a -> Q a) -> runs F G m Q.
Proof. intros [(a & -> & H)|H] HPQ; [left; eauto|by right]. Qed.

Lemma M_bind_runs F G {U A B} (m : M U A) (f : A -> M U B) s P Q :
  runs F G (m s) P -> (forall a s', P (a, s') -> runs F G (f a s') Q) -> runs F G ((m ≫= f) s) Q.
Proof.
  intros H Hf. unfold mbind, M_bind. destruct H as [([a s'] & -> & H)|[[HF ->]|[HG ->]]];
    [by apply Hf|by right; left|by right; right].
Qed.

Lemma lift_bind_runs F G {U A B} (m : result A) (f : A -> M U B) s P Q :
  runs F G m P -> (forall a, P a -> runs F G (f a s) Q) -> runs F G ((lift m ≫= f) s) Q.
Proof.
  unfold mbind, M_bind, lift. intros [(a & -> & H)|[[HF ->]|[HG ->]]] Hf;
    [by apply Hf|by right; left|by right; right].
Qed.

Lemma runs_bind F G {A B} (m : result A) (f : A -> result B) P R :
  runs F G m P -> (forall a, P a -> runs F G (f a) R) -> runs F G (m ≫= f) R.
Proof. intros [(a & -> & H)|[[HF ->]|[HG ->]]] Hf; [by apply Hf|by right; left|by right; right]. Qed.

(** ** Computations with fuel that settle

    From some amount of fuel on, [f] returns one and the same result, which is not
    [OutOfFuel]; it is a failure only if [F] holds, and otherwise satisfies [P]. *)
Definition settles (F : Prop) {A} (f : nat -> result A) (P : A -> Prop) : Prop :=
  exists r n, (forall k, (n <= k)%nat -> f k = r) /\ runs F False r P.

Lemma settles_const F {A} (r : result A) P : runs F False r P -> settles F (fun _ => r) P.
Proof. intros H. by exists r, 0%nat. Qed.

Lemma settles_at F {A} (f : nat -> result A) (r : result A) P :
  (forall n, f n = r) -> runs F False r P -> settles F f P.
Proof. intros E H. by exists r, 0%nat. Qed.

Lemma settles_bind F {A B} (f : nat -> result A) (g : nat -> A -> result B) P Q :
  settles F f P -> (forall a, P a -> settles F (fun n => g n a) Q) ->
  settles F (fun n => f n ≫= g n) Q.
Proof.
  intros (r & n & Hf & Hr) Hg. destruct Hr as [(a & -> & Ha)|[[HF ->]|[[] _]]].
  - destruct (Hg a Ha) as (r' & n' & Hg' & Hr'). exists r', (n `max` n')%nat. split; [|done].
    intros k Hk. rewrite Hf by lia. simpl. apply Hg'. lia.
  - exists AssertFail, n. split; [|by right; left]. intros k Hk. by rewrite Hf.
Qed.

Lemma settles_S F {A} (f : nat -> result A) (g : nat -> result A) P :
  (forall n, f (S n) = g n) -> settles F g P -> settles F f P.
Proof.
  intros E (r & n & Hg & Hr). exists r, (S n). split; [|done]. intros [|k] Hk; [lia|].
  rewrite E. apply Hg. lia.
Qed.

Lemma settles_weaken F {A} (f : nat -> result A) (P Q : A -> Prop) :
  settles F f P -> (forall a, P a -> Q a) -> settles F f Q.
Proof. intros (r & n & Hf & Hr) HPQ. exists r, n. split; [done|]. by eapply runs_weaken. Qed.

Lemma settles_M_bind F {U A B} (m : nat -> M U A) (f : nat -> A -> M U B) s P Q :
  settles F (fun n => m n s) P -> (forall a s', P (a, s') -> settles F (fun n => f n a s') Q) ->
  settles F (fun n => (m n ≫= f n) s) Q.
Proof.
  intros (r & n & Hm & Hr) Hf. unfold mbind, M_bind. destruct Hr as [([a s'] & -> & Ha)|[[HF ->]|[[] _]]].
  - destruct (Hf a s' Ha) as (r' & n' & Hf' & Hr'). exists r', (n `max` n')%nat. split; [|done].
    intros k Hk. rewrite Hm by lia. apply Hf'. lia.
  - exists AssertFail, n. split; [|by right; left]. intros k Hk. by rewrite Hm.
Qed.

(** ** The induction principle of visitors *)
Section visit_sound.
Context {AP : APIntOps} {SP : APIntSpec AP} {CFG : Config} {U : Type}.
Variables (F G : Prop) (V : ExprVisitor U).
(** [J]: invariant of the derived class.  [dom]: the expressions it is applied to.
    [Good e r]: [r] is a correct result for [e]; [Pre e r]: likewise, before
    [visitExprPost].  [dc e]: what is known of [e] when [visitExpr] asks for the
    children to be visited; [canRebuild e]: when [visitX] asks for it too. *)
Variables (J : U -> Prop) (dom : expr -> Prop) (Good Pre : expr -> expr -> Prop).
Variables (dc canRebuild : expr -> Prop).

Definition memo_ok (t : visited_ty) : Prop := Forall (fun p => wf p.1 /\ Good p.1 p.2) t.
Definition st_ok (s : visited_ty * U) : Prop := memo_ok (fst s) /\ J (snd s).

(** What the recursive calls on [e] do. *)
Definition visit_spec (vis : expr -> M U expr) (e : expr) : Prop :=
  forall s, dom e -> st_ok s -> runs F G (vis e s) (fun p => Good e p.1 /\ st_ok p.2).

Definition smaller_spec (vis : expr -> M U expr) (e : expr) : Prop :=
  forall x, (vsize x < vsize e)%nat -> visit_spec vis x.

Definition act_spec (m : M U Action) (P : Action -> Prop) : Prop :=
  forall s, st_ok s -> runs F G (m s) (fun p => P p.1 /\ st_ok p.2).

Definition act_ok (e : expr) (do_children : Prop) (a : Action) : Prop :=
  match a with SkipChildren => Good e e | ChangeTo x => Good e x | DoChildren => do_children end.

Hypothesis Hrec : recursive V = false \/ G.
Hypothesis Hdom : forall e, dom e -> wf e /\ Forall dom (kids e).
Hypothesis Hwf : forall e r, dom e -> Good e r -> wf r.
Hypothesis Hconst : forall c, dom (ConstantExpr c) -> Good (ConstantExpr c) (ConstantExpr c).
Hypothesis Hexpr : forall vis e, dom e -> isConst e = false -> smaller_spec vis e ->
  act_spec (visitExpr V vis e) (act_ok e (dc e)).
Hypothesis Hkind : forall vis e, dom e -> isConst e = false -> dc e -> smaller_spec vis e ->
  act_spec (visitKind V (getKind e) vis e) (act_ok e (canRebuild e)).
Hypothesis Hsame : forall e, dom e -> isConst e = false -> canRebuild e ->
  Forall2 Good (kids e) (kids e) -> Pre e e.
Hypothesis Hrebuild : forall e ks, dom e -> isConst e = false -> canRebuild e ->
  Forall2 Good (kids e) ks -> ks <> kids e ->
  runs F G (rebuild e ks) (fun e' => Pre e e' /\ wf e' /\ (recursive V = true -> dom e')).
Hypothesis Hpost : forall e e', dom e -> Pre e e' -> wf e' -> isConst e' = false ->
  act_spec (visitExprPost V e')
    (fun a => match a with ChangeTo x => Good e x | _ => Good e e' end).
Hypothesis Hpost_const : forall e c, dom e -> Pre e (ConstantExpr c) -> Good e (ConstantExpr c).
Hypothesis Htrans : recursive V = true -> forall e e' e'', dom e -> dom e' ->
  Pre e e' -> Good e' e'' -> Pre e e''.

Lemma visited_find_ok t e r : memo_ok t -> wf e -> visited_find t e = Some r -> Good e r.
Proof.
  intros Ht He. induction Ht as [|[k x] t [Hk HG] Ht IH]; simpl; [done|].
  destruct (expr_eqb k e) eqn:E; [|done]. intros [= <-].
  apply expr_eqb_eq in E; [by subst|done..].
Qed.

Lemma visited_insert_ok t e r : memo_ok t -> wf e -> Good e r -> memo_ok (visited_insert t e r).
Proof. intros. unfold visited_insert. case_match; [done|]. by constructor. Qed.

Lemma visit_kids_ok vis ks :
  Forall dom ks -> Forall (visit_spec vis) ks -> forall s, st_ok s ->
  runs F G (visit_kids vis ks s) (fun p =>
    Forall2 Good ks p.1.1 /\ (p.1.2 = false <-> p.1.1 = ks) /\ st_ok p.2).
Proof.
  intros Hks Hv. induction ks as [|k ks IH]; intros s Hs; cbn [visit_kids].
  { apply runs_ok. by simpl. }
  inversion Hks; inversion Hv; simplify_eq.
  eapply M_bind_runs; [by match goal with H : visit_spec _ k |- _ => apply H end|].
  intros k' s1 [HG Hs1]. simpl in HG. eapply M_bind_runs; [by apply IH|].
  intros [ks' ch] s2 (HGs & Heq & Hs2). simpl in HGs, Heq. apply runs_ok. simpl.
  split_and!; [by constructor| |done].
  assert (Hk : wf k) by (by apply Hdom).
  rewrite orb_false_iff, negb_false_iff, expr_eqb_spec, Heq by (done || by eapply Hwf).
  split; [by intros [-> ->]|by intros [= -> ->]].
Qed.

Lemma rebuilt_ok vis e ks (changed : bool) s :
  dom e -> isConst e = false -> canRebuild e -> (recursive V = true -> forall x, visit_spec vis x) ->
  Forall2 Good (kids e) ks -> (changed = false <-> ks = kids e) -> st_ok s ->
  runs F G ((if changed then
               e' ← lift (rebuild e ks); if recursive V then vis e' else mret e'
             else mret e : M U expr) s)
    (fun p => Pre e p.1 /\ wf p.1 /\ st_ok p.2).
Proof.
  intros He Hc Hcan Hvis Hks Hch Hs. destruct changed.
  - eapply lift_bind_runs; [apply Hrebuild; try done; by intros ?%Hch|].
    intros e' (HP & We & Hd). destruct (recursive V) eqn:Er.
    + specialize (Hd eq_refl). eapply runs_weaken; [by apply Hvis|].
      intros [e'' s2] [HG Hs2]. simpl in *. split_and!; [by eapply Htrans|by eapply Hwf|done].
    + by apply runs_ok.
  - apply runs_ok. simpl. split_and!; [|by apply Hdom|done]. apply Hsame; try done. by rewrite <- (proj1 Hch eq_refl) at 2.
Qed.

Lemma visitActual_ok vis e :
  smaller_spec vis e -> (recursive V = true -> forall x, visit_spec vis x) ->
  visit_spec (visitActual V vis) e.
Proof.
  intros Hsm Hvis s He Hs. unfold visitActual. destruct (isConst e) eqn:Hc.
  { apply runs_ok. simpl. split; [|done]. destruct e; try discriminate. by apply Hconst. }
  eapply M_bind_runs; [by apply Hexpr|]. intros act s1 [Ha Hs1]. simpl in Ha.
  destruct act as [| |a]; [by apply runs_ok| |by apply runs_ok].
  eapply M_bind_runs; [by apply Hkind|]. clear Ha. intros act s2 [Ha Hs2]. simpl in Ha.
  destruct act as [| |a]; [by apply runs_ok| |by apply runs_ok].
  eapply M_bind_runs.
  { apply visit_kids_ok; [by apply Hdom| |done].
    eapply Forall_impl; [apply vsize_kids|]. intros x Hx. by apply Hsm. }
  intros [ks ch] s3 (Hks & Hch & Hs3). simpl in Hks, Hch.
  eapply M_bind_runs; [by apply (rebuilt_ok vis e ks ch)|].
  intros e' s4 (HP & We & Hs4). simpl in HP, We. destruct (isConst e') eqn:Hc'.
  - apply runs_ok. simpl. split; [|done]. destruct e'; try discriminate. by apply Hpost_const.
  - eapply M_bind_runs; [by apply (Hpost e)|]. intros act s5 [Ha' Hs5]. apply runs_ok. simpl in *.
    by destruct act.
Qed.

(** [visit] with enough fuel (or any fuel, where running out is allowed). *)
Lemma visit_sound n e : G \/ (vsize e <= n)%nat -> visit_spec (visit V n) e.
Proof.
  revert e. induction n as [|n IH]; intros e Hn s He Hs.
  { destruct Hn as [HG|Hn]; [by right; right|]. pose proof (vsize_pos e). lia. }
  assert (HA : visit_spec (visitActual V (visit V n)) e).
  { apply visitActual_ok.
    - intros x Hx. apply IH. destruct Hn as [|Hn]; [by left|right; lia].
    - intros Hr x. apply IH. left. destruct Hrec; [congruence|done]. }
  cbn [visit]. unfold visit'. destruct (negb UseVisitorHash || isConst e); [by apply HA|].
  destruct (visited_find (fst s) e) as [r|] eqn:Hf.
  { apply runs_ok. simpl. split; [|done]. eapply visited_find_ok; [apply Hs|by apply Hdom|done]. }
  destruct (HA s He Hs) as [([r s'] & -> & [Hr [Hm HJ]])|[[HF ->]|[HG ->]]];
    [|by right; left|by right; right].
  apply runs_ok. simpl in *. split; [done|]. split; [|done]. by apply visited_insert_ok; [|apply Hdom|].
Qed.
End visit_sound.

(** ** Rebuilding over rewritten kids *)
Lemma with_kids_total e ks :
  isConst e = false -> length ks = length (kids e) -> exists e', with_kids e ks = Some e'.
Proof.
  destruct e; try done; simpl; intros _ Hl;
    destruct ks as [|? [|? [|? [|? ?]]]]; simpl in Hl; try lia; eauto.
Qed.

Lemma with_kids_same e : isConst e = false -> with_kids e (kids e) = Some e.
Proof. by destruct e. Qed.

(** The kids on both sides of [with_kids], one by one. *)
Ltac split_kids :=
  repeat match goal with
  | H : Forall2 _ [] _ |- _ => apply Forall2_nil_inv_l in H; subst
  | H : Forall2 _ (_ :: _) _ |- _ =>
      let k := fresh "k" in let ks := fresh "ks" in let Hk := fresh "Hk" in
      apply Forall2_cons_inv_l in H as (k & ks & Hk & H & ->)
  end.

Lemma with_kids_wf e ks e' :
  wf e -> with_kids e ks = Some e' ->
  Forall2 (fun k k' => wf k' /\ getWidth k' = getWidth k) (kids e) ks ->
  wf e' /\ getWidth e' = getWidth e.
Proof.
  intros He Hw HF. destruct e; simpl in *; split_kids; simplify_eq; simpl; destruct_and?; try done;
    split_and?; try done; try congruence.
  all: repeat match goal with E : getWidth ?k = getWidth _ |- _ => rewrite E; clear E end; done || lia.
Qed.

Lemma with_kids_eval {CFG : Config} rho e ks e' v :
  with_kids e ks = Some e' ->
  Forall2 (fun k k' => getWidth k' = getWidth k /\
    forall v, eval rho k = Some v -> eval rho k' = Some v) (kids e) ks ->
  eval rho e = Some v -> eval rho e' = Some v.
Proof.
  intros Hw HF Hv. destruct e; simpl in *; split_kids; simplify_eq; simpl; destruct_and?; inv_option;
    repeat match goal with
    | H : forall v, eval rho ?x = Some v -> _, E : eval rho ?x = Some _ |- _ =>
        rewrite (H _ E); clear H; simpl
    | E : getWidth _ = getWidth _ |- _ => rewrite E; clear E
    end; auto.
Qed.

Section rebuild_const.
Context {AP : APIntOps} {CFG : Config}.

Lemma bin_create_const k c d r :
  bin_create k (ConstantExpr c) (ConstantExpr d) = Ok r -> isConst r = true.
Proof.
  intros H. destruct k; simpl in H;
    unfold AddExpr_create, SubExpr_create, MulExpr_create, AndExpr_create, OrExpr_create,
      XorExpr_create, UDivExpr_create, SDivExpr_create, URemExpr_create, SRemExpr_create,
      ShlExpr_create, LShrExpr_create, AShrExpr_create, NeExpr_create, UgtExpr_create,
      UgeExpr_create, SgtExpr_create, SgeExpr_create, UltExpr_create, UleExpr_create,
      SltExpr_create, SleExpr_create, EqExpr_create, CMPCREATE, CMPCREATE_T in H; simpl in H;
    unfold BCREATE_R, BCREATE in H;
    repeat (match type of H with
            | context [massert ?b] => destruct b; simpl in H; try discriminate
            | context [ConstantExpr_create ?a ?b] => destruct (ConstantExpr_create a b); simpl in H; try discriminate
            | context [CE_UDiv ?a ?b] => destruct (CE_UDiv a b); simpl in H; try discriminate
            | context [CE_SDiv ?a ?b] => destruct (CE_SDiv a b); simpl in H; try discriminate
            | context [CE_URem ?a ?b] => destruct (CE_URem a b); simpl in H; try discriminate
            | context [CE_SRem ?a ?b] => destruct (CE_SRem a b); simpl in H; try discriminate
            end); by simplify_eq.
Qed.

(** Rebuilding a node other than a read over constants folds it. *)
Lemma rebuild_const e ks r :
  Forall (fun k => isConst k = true) ks -> rebuild e ks = Ok r ->
  match e with
  | ReadExpr _ _ _ => True
  | NotOptimizedExpr _ => exists c, r = NotOptimizedExpr (ConstantExpr c)
  | _ => isConst r = true
  end.
Proof.
  intros HF H. destruct e; try done; simpl in H;
    destruct ks as [|k1 [|k2 [|k3 [|? ?]]]]; try discriminate;
    repeat match goal with H : Forall _ (_ :: _) |- _ => apply Forall_cons in H as [? H] end;
    repeat match goal with H : isConst ?k = true |- _ => destruct k; try discriminate; clear H end.
  - unfold NotOptimizedExpr_create in H. simplify_eq. eauto.
  - unfold SelectExpr_create in H. do 2 (destruct (massert _); try discriminate).
    simpl in H. simplify_eq. by case_match.
  - unfold ConcatExpr_create in H. simpl in H. by simplify_eq.
  - unfold ExtractExpr_create in H. simpl in H. unfold ExtractExpr_create' in H.
    destruct (massert _); try discriminate. simpl in H. case_match; by simplify_eq.
  - unfold ZExtExpr_create, ExtractExpr_create in H. simpl in H. unfold ExtractExpr_create' in H.
    repeat case_match; try (by simplify_eq); destruct (massert _); try discriminate; by simplify_eq/=.
  - unfold SExtExpr_create, ExtractExpr_create in H. simpl in H. unfold ExtractExpr_create' in H.
    repeat case_match; try (by simplify_eq); destruct (massert _); try discriminate; by simplify_eq/=.
  - unfold NotExpr_create in H. by simplify_eq.
  - by eapply bin_create_const.
Qed.
End rebuild_const.
