(* ===== verification/ExprEvaluator.v ===== *)
(** * ExprEvaluator and Assignment: evaluating expressions under bindings

    Models [klee/lib/Expr/ExprEvaluator.cpp], [klee/include/klee/util/Assignment.h]
    and [klee/lib/Expr/Assigment.cpp].  [ExprEvaluator] is a visitor with a pure
    virtual [getInitialValue]; [InitialValues] states what a derived class
    promises about it, and [evaluator_sound] what the evaluator then computes.
    [Assignment] is the derived class the solvers use. *)

From S2P Require Import Prelude APInt ExprData Samples Bits ExprCompare ExprCreate ExprCreateSound ExprStructSound ExprVisitor.
Local Open Scope Z_scope.

Section evaluator.
Context {AP : APIntOps} {CFG : Config} {U : Type}.
Variable getInitialValue : Array -> Z -> result expr.

(** [ExprEvaluator::evalRead]; the loop over the update nodes. *)
Fixpoint evalRead (visit : expr -> M U expr) (root : Array) (un : UpdateNode) (index : Z)
    : M U Action :=
  match un with
  | Node next ui_ value =>
      ui ← visit ui_;
      match ui with
      | ConstantExpr CE =>
          z ← lift (CE_getZExtValue CE 64);
          if z =? index then v ← visit value; mret (ChangeTo v)
          else evalRead visit root next index
      | _ =>
          r ← lift (ReadExpr_create {| ul_root := root; ul_head := un |}
                      (ConstantExpr (ConstantExpr_alloc index (domain root))));
          mret (ChangeTo r)
      end
  | NullNode =>
      if isConstantArray root && (index <? arr_size root) then
        match constantValues root !! Z.to_nat index with
        | Some v => mret (ChangeTo (ConstantExpr v))
        | None => lift AssertFail
        end
      else v ← lift (getInitialValue root index); mret (ChangeTo v)
  end.

(** [ExprEvaluator::visitExpr] *)
Definition eval_visitExpr (visit : expr -> M U expr) (e : expr) : M U Action :=
  match e with
  | ReadExpr _ _ _ => mret DoChildren
  | _ =>
      if negb (getNumKids e =? 0) && forallb isConst (kids e) then
        _ ← lift (massert (getNumKids e <=? 3));
        r ← lift (rebuild e (kids e)); mret (ChangeTo r)
      else mret DoChildren
  end.

(** [ExprEvaluator::visitRead]; the index is passed on as an [unsigned]. *)
Definition eval_visitRead (visit : expr -> M U expr) (root : Array) (un : UpdateNode)
    (index : expr) : M U Action :=
  v ← visit index;
  match v with
  | ConstantExpr CE => z ← lift (CE_getZExtValue CE 64); evalRead visit root un (u32 z)
  | _ => mret DoChildren
  end.

(** [ExprEvaluator::protectedDivOperation] *)
Definition protectedDivOperation (visit : expr -> M U expr) (k : Kind.bin) (left right : expr)
    : M U Action :=
  k0 ← visit left;
  k1 ← visit right;
  let k1 := match k1 with ConstantExpr CE => if CE_isZero CE then right else k1 | _ => k1 end in
  if negb (expr_eqb k0 left) || negb (expr_eqb k1 right) then
    r ← lift (rebuild (BinExpr k left right) [k0; k1]); mret (ChangeTo r)
  else mret SkipChildren.

Definition eval_visitKind (k : Kind.t) (visit : expr -> M U expr) (e : expr) : M U Action :=
  match e with
  | ReadExpr root un index => eval_visitRead visit root un index
  | BinExpr ((Kind.UDiv | Kind.SDiv | Kind.URem | Kind.SRem) as b) l r =>
      protectedDivOperation visit b l r
  | _ => mret DoChildren
  end.

(** [ExprEvaluator::visitExprPost] *)
Definition eval_visitExprPost (e : expr) : M U Action :=
  match e with
  | NotOptimizedExpr src => mret (ChangeTo src)
  | _ => mret SkipChildren
  end.

Definition ExprEvaluator : ExprVisitor U := {|
  recursive := false;
  visitExpr := eval_visitExpr;
  visitKind := eval_visitKind;
  visitExprPost := eval_visitExprPost;
|}.
End evaluator.

(** ** What the evaluator is applied to

    Arrays are indexed by at most 32 bits (the evaluator passes the index on as
    an [unsigned]); no divisor is literally zero and no [NotOptimizedExpr] wraps a
    literal: the evaluator folds neither (see [evaluate_div_zero_fails] and
    [evaluate_not_optimized_constant]). *)
Fixpoint evaluable (e : expr) : bool :=
  match e with
  | ConstantExpr _ => true
  | NotOptimizedExpr src => negb (isConst src) && evaluable src
  | ReadExpr root un i => (domain root <=? 32) && evaluable_node un && evaluable i
  | SelectExpr c t f => evaluable c && evaluable t && evaluable f
  | ConcatExpr l r => evaluable l && evaluable r
  | ExtractExpr e _ _ | ZExtExpr e _ | SExtExpr e _ | NotExpr e => evaluable e
  | BinExpr k l r =>
      negb (isDiv k && match r with ConstantExpr c => raw c =? 0 | _ => false end) &&
      evaluable l && evaluable r
  end
with evaluable_node (un : UpdateNode) : bool :=
  match un with
  | NullNode => true
  | Node n i v => evaluable_node n && evaluable i && evaluable v
  end.

Definition edom (e : expr) : Prop := wf e /\ evaluable e = true.

Ltac split_andb :=
  repeat match goal with H : _ && _ = true |- _ => apply andb_true_iff in H as [? ?] end.

Lemma edom_kids e : edom e -> wf e /\ Forall edom (kids e).
Proof.
  intros [He Hv]. split; [done|]. unfold edom.
  destruct e; simpl in *; split_andb; destruct_and?; rewrite ?Forall_cons, ?Forall_nil; done.
Qed.

(** ** The promise of a derived class

    [adm]: the environments the class stands for; [complete]: it has a value for
    every byte. *)
Class InitialValues `{AP : APIntOps} `{CFG : Config}
    (getInitialValue : Array -> Z -> result expr) (adm : env -> Prop) (complete : Prop) : Prop := {
  initial_value root i :
    wf_array root -> 0 <= i < 2 ^ domain root -> isSymbolicArray root = true \/ arr_size root <= i ->
    returns (getInitialValue root i) (fun x =>
      wf x /\ getWidth x = range root /\ (complete -> isConst x = true) /\
      forall rho, adm rho -> eval rho x = initial rho root i \/ initial rho root i = None) }.

Section evaluator_sound.
Context {AP : APIntOps} {SP : APIntSpec AP} {CFG : Config} {U : Type} (J : U -> Prop).
Context (gIV : Array -> Z -> result expr) (adm : env -> Prop) (complete : Prop).
Context {HIV : InitialValues gIV adm complete}.

(** [e] has a value under some admissible environment. *)
Definition valued (e : expr) : Prop := exists rho v, adm rho /\ eval rho e = Some v.

(** [r] is a correct evaluation of [e]: same width, same value under the
    admissible environments, and a constant if the bindings are complete. *)
Definition same_value (e r : expr) : Prop :=
  wf r /\ getWidth r = getWidth e /\
  forall rho v, adm rho -> eval rho e = Some v -> eval rho r = Some v.
Definition evaluates (e r : expr) : Prop :=
  same_value e r /\ (complete -> valued e -> isConst r = true).

(** Before [visitExprPost] a constant may still be wrapped. *)
Definition unwrapped (r : expr) : bool :=
  match r with NotOptimizedExpr src => isConst src | _ => isConst r end.
Definition pre_evaluates (e r : expr) : Prop :=
  same_value e r /\ (complete -> valued e -> unwrapped r = true).

Definition dc (e : expr) : Prop :=
  match e with ReadExpr _ _ _ => True | _ => forallb isConst (kids e) = false end.
Definition canRebuild (e : expr) : Prop :=
  dc e /\
  match e with
  | ReadExpr _ _ i => complete -> ~ valued i
  | BinExpr k _ _ => isDiv k = false
  | _ => True
  end.

(** A node that has a value has kids that have values. *)
Lemma valued_kids e : valued e -> Forall valued (kids e).
Proof.
  intros (rho & v & Ha & Hv). unfold valued.
  destruct e; simpl in Hv; inv_option; simpl; rewrite ?Forall_cons, ?Forall_nil; split_and?; eauto 8.
Qed.

Lemma evaluates_kids_const e ks :
  complete -> valued e -> Forall2 evaluates (kids e) ks -> Forall (fun k => isConst k = true) ks.
Proof.
  intros Hc Hv HF. apply valued_kids in Hv. revert Hv.
  induction HF as [|k k' l l' [_ Hk] HF IH]; intros Hv; [constructor|].
  apply Forall_cons in Hv as [? ?]. constructor; auto.
Qed.

Lemma forallb_isConst ks : Forall (fun k => isConst k = true) ks <-> forallb isConst ks = true.
Proof. rewrite forallb_forall, List.Forall_forall. done. Qed.

(** Rebuilding over evaluated kids. *)
Lemma rebuild_same_value e ks e' :
  wf e -> with_kids e ks = Some e' -> root_div_ok e' -> Forall2 same_value (kids e) ks ->
  returns (rebuild e ks) (fun r => same_value e r /\ wf r).
Proof.
  intros He Hw Hd HF. destruct (with_kids_wf e ks e' He Hw) as [We Ee].
  { eapply Forall2_impl; [exact HF|]. by intros ? ? (? & ? & _). }
  eapply returns_weaken; [by apply (rebuild_builds e ks e')|]. intros r (Wr & Er & Rr).
  split; [|done]. split_and!; [done|congruence|]. intros rho v Ha Hv. apply Rr.
  eapply with_kids_eval; [exact Hw| |exact Hv].
  eapply Forall2_impl; [exact HF|]. intros k k' (_ & ? & Hk). split; [done|]. eauto.
Qed.

Lemma same_value_refl e : wf e -> same_value e e.
Proof. done. Qed.

Lemma Forall2_same_value ks ks' : Forall2 evaluates ks ks' -> Forall2 same_value ks ks'.
Proof. intros H. eapply Forall2_impl; [exact H|]. by intros ? ? []. Qed.

(** ** evalRead *)
Lemma zext_index c : apok c -> bw c <= 64 -> CE_getZExtValue c 64 = Ok (raw c).
Proof.
  intros. unfold CE_getZExtValue. rewrite massert_true by (by apply Z.leb_le). simpl.
  by rewrite ap_getZExtValue_spec.
Qed.

(** The index constant the evaluator allocates. *)
Lemma index_const root i :
  wf_array root -> 0 <= i < 2 ^ domain root ->
  ConstantExpr_alloc i (domain root) = APInt (domain root) i /\ apok (APInt (domain root) i).
Proof.
  intros (Hd & _) Hi. pose proof (pow2_le (domain root) 64).
  rewrite alloc_eq, wrap_small by (unfold inw; lia). split; [done|]. split; [simpl; lia|done].
Qed.

Abbreviation spec := (visit_spec False False J edom evaluates).
Abbreviation sok := (st_ok J evaluates).

(** What [evalRead] concludes about reading [un] at [i]. *)
Definition read_result (root : Array) (un : UpdateNode) (i : Z) (a : Action) : Prop :=
  exists x, a = ChangeTo x /\ wf x /\ getWidth x = range root /\
    (forall rho v, adm rho -> eval_node rho root un i = Some v -> eval rho x = Some v) /\
    (complete -> (exists rho v, adm rho /\ eval_node rho root un i = Some v) -> isConst x = true).

Lemma evalRead_null vis root i s :
  wf_array root -> 0 <= i < 2 ^ domain root -> sok s ->
  runs False False (evalRead gIV vis root NullNode i s)
    (fun p => read_result root NullNode i p.1 /\ sok p.2).
Proof.
  intros Ha Hi Hs. cbn [evalRead]. destruct (isConstantArray root && (i <? arr_size root)) eqn:Hc.
  - apply andb_true_iff in Hc as [Hc Hlt%Z.ltb_lt]. unfold isConstantArray in Hc.
    apply negb_true_iff in Hc. destruct (const_array_dom root Ha Hc) as [Hlen Hall].
    destruct (lookup_lt_is_Some_2 (constantValues root) (Z.to_nat i)) as [c Hv]; [lia|].
    rewrite Hv. pose proof (Forall_lookup_1 _ _ _ _ Hall Hv) as [? ?]. apply runs_ok. split; [|done].
    exists (ConstantExpr c). split_and!; try done. intros rho v _. cbn [eval_node]. unfold initial.
    by rewrite Hc, (proj2 (Z.ltb_lt _ _) Hlt), Hv.
  - assert (isSymbolicArray root = true \/ arr_size root <= i) as Hor.
    { unfold isConstantArray in Hc. destruct (isSymbolicArray root); [by left|right].
      simpl in Hc. by apply Z.ltb_ge in Hc. }
    eapply lift_bind_runs; [by apply returns_runs, initial_value|].
    intros x (Wx & Ex & Cx & Hx). apply runs_ok. split; [|done]. exists x. split_and!; try done.
    + intros rho v Had Hv. simpl in Hv. destruct (Hx rho Had) as [->|E]; congruence.
    + intros Hcm _. auto.
Qed.

Lemma evalRead_ok vis root un i s :
  wf_array root -> domain root <= 32 -> wf_node root un -> evaluable_node un = true ->
  0 <= i < 2 ^ domain root ->
  (forall x, (vsize x <= vsize_node un)%nat -> spec vis x) -> sok s ->
  runs False False (evalRead gIV vis root un i s)
    (fun p => read_result root un i p.1 /\ sok p.2).
Proof.
  intros Ha Hd Hn He Hi Hvis Hs. revert Hn He Hvis s Hs.
  induction un as [|next IH ui val] using UpdateNode_ind; intros Hn He Hvis s Hs.
  { by apply evalRead_null. }
  pose proof Hn as (Hn' & Hui & Hval & Eui & Eval). simpl in He. split_andb.
  destruct (index_const root i Ha Hi) as [Halloc Hok].
  cbn [evalRead]. eapply M_bind_runs; [apply (Hvis ui); [simpl; lia|done|done]|].
  intros ui' s1 [[(Wu & Eu & Vu) Cu] Hs1]. simpl in Wu, Eu, Vu, Cu.
  destruct ui' as [c| | | | | | | | |].
  2-10: (eapply lift_bind_runs;
    [apply returns_runs, (ReadExpr_create_builds {| ul_root := root; ul_head := Node next ui val |});
     simpl; rewrite Halloc; by split_and!
    |]; intros x (Wx & Ex & Rx); apply runs_ok; split; [|done]; exists x;
    (split_and!; [done|done|done| |]);
    [intros rho v Had Hv; apply Rx; cbn [eval];
     rewrite Halloc; exact Hv
    |intros Hc (rho & v & Had & Hv); exfalso;
     apply eval_node_inv in Hv as (j & Hj & Hv); enough (false = true) by done; apply Cu; [done|]; by exists rho; eauto]).
  simpl in Wu, Eu. assert (bw c <= 64) by (destruct Ha; lia).
  rewrite (zext_index c) by done.
  eapply lift_bind_runs; [by apply (runs_ok _ _ (raw c) (fun z => z = raw c))|]. intros z ->.
  assert (Hui' : forall rho j, adm rho -> eval rho ui = Some j -> j = raw c).
  { intros rho j Had Hj. specialize (Vu rho j Had Hj). simpl in Vu. congruence. }
  destruct (Z.eqb_spec (raw c) i) as [Eq|Ne].
  - eapply M_bind_runs; [apply (Hvis val); [simpl; lia|done|done]|].
    intros v' s3 [[(Wv & Ev & Vv) Cv] Hs3]. simpl in Wv, Ev, Vv, Cv. apply runs_ok. split; [|done].
    exists v'. split_and!; [done|done|congruence| |].
    + intros rho v Had Hv. apply eval_node_inv in Hv as (j & Hj & Hv).
      rewrite (Hui' rho _ Had Hj), Eq, Z.eqb_refl in Hv. eauto.
    + intros Hc (rho & v & Had & Hv). apply eval_node_inv in Hv as (j & Hj & Hv).
      rewrite (Hui' rho _ Had Hj), Eq, Z.eqb_refl in Hv. apply Cv; [done|]. by exists rho; eauto.
  - eapply runs_weaken; [apply IH; try done; intros x Hx; apply Hvis; simpl; lia|].
    assert (Hskip : forall rho v, adm rho -> eval_node rho root (Node next ui val) i = Some v ->
      eval_node rho root next i = Some v).
    { intros rho v Had Hv. apply eval_node_inv in Hv as (j & Hj & Hv). pose proof (Hui' rho _ Had Hj) as ->.
      by rewrite (proj2 (Z.eqb_neq _ _) Ne) in Hv. }
    intros [a s3] [(x & -> & Wx & Ex & Vx & Cx) Hs3]. split; [|done]. exists x. split_and!; try done.
    + eauto.
    + intros Hc (rho & v & Had & Hv). apply Cx; [done|]. by exists rho; eauto.
Qed.

(** ** The methods of the evaluator *)
Abbreviation aspec := (act_spec False False J evaluates).
Abbreviation sspec := (smaller_spec False False J edom evaluates).

Lemma act_spec_ret a (P : Action -> Prop) : P a -> aspec (mret a) P.
Proof. intros H s Hs. by apply runs_ok. Qed.

(** [r ← lift m; mret (ChangeTo r)] *)
Lemma act_spec_change (m : result expr) e D :
  returns m (fun r => evaluates e r) ->
  aspec (r ← lift m; mret (ChangeTo r)) (act_ok evaluates e D).
Proof.
  intros H s Hs. eapply lift_bind_runs; [by apply returns_runs|]. intros r Hr. by apply runs_ok.
Qed.

(** Rebuilding over literal kids: the result is constant unless it is a wrapper. *)
Lemma rebuild_literal e :
  edom e -> isConst e = false -> (match e with ReadExpr _ _ _ => False | _ => True end) ->
  forallb isConst (kids e) = true -> returns (rebuild e (kids e)) (fun r => evaluates e r).
Proof.
  intros [He Hev] Hc Hread Hk. rewrite <- forallb_isConst in Hk.
  destruct (rebuild_same_value e (kids e) e) as (r & Hr & Hsv & _); [done|by apply with_kids_same| | |].
  - destruct e as [| | | | | | | | |k a b]; try done. simpl. simpl in Hev. split_andb.
    unfold div_ok, zero_fold. destruct a; rewrite ?andb_false_r; try done.
    destruct b; rewrite ?andb_false_r; try done. by apply negb_true_iff.
  - pose proof (edom_kids e (conj He Hev)) as [_ HF]. clear -HF.
    induction HF as [|k ks [? _]]; by constructor.
  - exists r. split; [done|]. split; [done|]. intros _ _.
    pose proof (rebuild_const e (kids e) r Hk Hr) as H. destruct e; try done.
    simpl in Hev. split_andb. apply Forall_cons in Hk as [Hk _]. by rewrite Hk in *.
Qed.

Lemma eval_visitExpr_ok vis e :
  edom e -> isConst e = false -> aspec (eval_visitExpr vis e) (act_ok evaluates e (dc e)).
Proof.
  intros He Hc. pose proof (rebuild_literal e He Hc) as Hlit.
  destruct e; try done; unfold eval_visitExpr;
    try (by apply act_spec_ret);
    (destruct (forallb isConst (kids _)) eqn:Hk;
     [by apply act_spec_change, Hlit|by apply act_spec_ret]).
Qed.

Lemma eval_visitRead_ok vis root un i :
  let e := ReadExpr root un i in
  edom e -> sspec vis e -> aspec (eval_visitRead gIV vis root un i) (act_ok evaluates e (canRebuild e)).
Proof.
  intros e [He Hev] Hsm s Hs. pose proof He as (Ha & Hn & Hi & Ei). simpl in Hev. split_andb.
  bool_to_prop. unfold eval_visitRead.
  eapply M_bind_runs; [apply (Hsm i); [simpl; lia|done|done]|].
  intros i' s1 [[(Wi & Wd & Vi) Ci] Hs1]. simpl in Wi, Wd, Vi, Ci.
  destruct i' as [c| | | | | | | | |].
  2-10: (apply runs_ok; split; [|done]; split; [done|]; intros Hc Hv; by specialize (Ci Hc Hv)).
  simpl in Wi, Wd. assert (bw c <= 32) by congruence. rewrite (zext_index c) by (done || lia).
  eapply lift_bind_runs; [by apply (runs_ok _ _ (raw c) (fun z => z = raw c))|]. intros z ->.
  assert (Hrc : 0 <= raw c < 2 ^ domain root) by (destruct Wi as [_ Wi]; rewrite <- Ei, <- Wd; exact Wi).
  pose proof (pow2_le (domain root) 32). rewrite u32_small by (destruct Ha; lia).
  eapply runs_weaken; [apply (evalRead_ok vis root un (raw c)); try done; intros x Hx; apply Hsm; simpl; lia|].
  intros [a s2] [(x & -> & Wx & Ex & Vx & Cx) Hs2]. split; [|done]. simpl.
  assert (Hri : forall rho v, adm rho -> eval rho e = Some v -> eval_node rho root un (raw c) = Some v).
  { intros rho v Had Hv. simpl in Hv. apply bind_Some_inv in Hv as (j & Hj & Hv).
    specialize (Vi rho j Had Hj). simpl in Vi. congruence. }
  split; [split_and!; [done|done|by eauto]|]. intros Hc (rho & v & Had & Hv).
  apply Cx; [done|]. exists rho, v. eauto.
Qed.

(** A constant that [e] evaluates to is its value. *)
Lemma same_value_const e c rho v :
  same_value e (ConstantExpr c) -> adm rho -> eval rho e = Some v -> raw c = v.
Proof. intros (_ & _ & H) Had Hv. specialize (H rho v Had Hv). simpl in H. congruence. Qed.

Lemma protectedDivOperation_ok vis k l r :
  let e := BinExpr k l r in
  isDiv k = true -> edom e -> dc e -> sspec vis e ->
  aspec (protectedDivOperation vis k l r) (act_ok evaluates e (canRebuild e)).
Proof.
  intros e Hk [He Hev] Hdc Hsm s Hs. pose proof He as (Hl & Hr & Ew). simpl in Hev. split_andb.
  unfold protectedDivOperation.
  eapply M_bind_runs; [apply (Hsm l); [simpl; lia|done|done]|]. intros k0 s1 [[S0 C0] Hs1].
  eapply M_bind_runs; [apply (Hsm r); [simpl; lia|done|done]|]. intros k1 s2 [[S1 C1] Hs2].
  simpl in S0, C0, S1, C1.
  set (k1' := match k1 with ConstantExpr CE => if CE_isZero CE then r else k1 | _ => k1 end).
  assert (Hz : match r with ConstantExpr c => raw c =? 0 | _ => false end = false).
  { rewrite Hk in *. by apply negb_true_iff. }
  assert (S1' : same_value r k1' /\ (forall c, k1' = ConstantExpr c -> raw c <> 0)).
  { unfold k1'. destruct k1 as [c| | | | | | | | |]; try (by split).
    pose proof S1 as (Wc & _). rewrite isZero_eq by done.
    destruct (Z.eqb_spec (raw c) 0); [|split; [done|by intros ? [= <-]]].
    split; [done|]. intros c' ->. by apply Z.eqb_neq. }
  assert (C1' : complete -> valued e -> k1' = k1).
  { intros Hc (rho & v & Had & Hv). unfold k1'. destruct k1 as [c| | | | | | | | |]; try done.
    pose proof S1 as (Wc & _). rewrite isZero_eq by done. simpl in Hv. inv_option.
    rewrite (same_value_const r c rho x0 S1 Had) by done. destruct (Z.eqb_spec x0 0) as [->|]; [|done].
    by destruct k. }
  destruct S1' as [S1' Hnz]. clearbody k1'. destruct (negb _ || negb _) eqn:Hch.
  - revert s2 Hs2. eapply act_spec_change.
    destruct (rebuild_same_value e [k0; k1'] (BinExpr k k0 k1')) as (x & Hx & Sx & _); try done.
    + simpl. unfold div_ok, zero_fold. rewrite Hk. destruct k0, k1'; try done. simpl.
      by apply Z.eqb_neq, Hnz.
    + apply Forall2_cons_2; [done|]. apply Forall2_cons_2; [done|by apply Forall2_nil_2].
    + exists x. split; [done|]. split; [done|]. intros Hc Hv.
      pose proof (valued_kids e Hv) as HF. apply Forall_cons in HF as [Hvl HF].
      apply Forall_cons in HF as [Hvr _]. rewrite (C1' Hc Hv) in Hx.
      refine (rebuild_const e [k0; k1] x _ Hx). constructor; [auto|]. constructor; auto.
  - apply runs_ok. split; [|done]. simpl. split; [done|]. intros Hc Hv. exfalso.
    apply orb_false_iff in Hch as [E0%negb_false_iff E1%negb_false_iff].
    apply expr_eqb_eq in E0; [|apply S0|done]. apply expr_eqb_eq in E1; [|apply S1'|done].
    pose proof (valued_kids e Hv) as HF. apply Forall_cons in HF as [Hvl HF].
    apply Forall_cons in HF as [Hvr _]. rewrite (C1' Hc Hv) in E1. simpl in Hdc.
    by rewrite <- E0, <- E1, (C0 Hc Hvl), (C1 Hc Hvr) in Hdc.
Qed.

Lemma eval_visitKind_ok vis e :
  edom e -> isConst e = false -> dc e -> sspec vis e ->
  aspec (eval_visitKind gIV (getKind e) vis e) (act_ok evaluates e (canRebuild e)).
Proof.
  intros He Hc Hdc Hsm. destruct e as [| |root un i| | | | | | |k l r]; try done;
    try (by apply act_spec_ret; split).
  - by apply eval_visitRead_ok.
  - destruct k; try (by apply act_spec_ret; split); by apply protectedDivOperation_ok.
Qed.

(** ** The evaluator *)
Lemma evaluator_sound n e s :
  edom e -> (vsize e <= n)%nat -> sok s ->
  returns (visit (ExprEvaluator gIV) n e s) (fun p => evaluates e p.1 /\ sok p.2).
Proof.
  intros He Hn Hs. apply runs_returns.
  apply (visit_sound False False (ExprEvaluator gIV) J edom evaluates pre_evaluates dc canRebuild);
    try done.
  - by left.
  - by apply edom_kids.
  - by intros ? ? _ [(? & _) _].
  - intros c [Hc _]. by split.
  - intros. by apply eval_visitExpr_ok.
  - intros. by apply eval_visitKind_ok.
  - intros e' [He' _] Hc' [Hdc Hcr] HF. split; [done|]. intros Hcm Hv. exfalso.
    pose proof (evaluates_kids_const e' _ Hcm Hv HF) as Hk. rewrite forallb_isConst in Hk.
    destruct e'; try done; simpl in Hdc, Hk; try congruence. apply Hcr; [done|].
    apply valued_kids in Hv. by apply Forall_cons in Hv as [? _].
  - intros e' ks He' Hc' [Hdc Hcr] HF _. pose proof (Forall2_length _ _ _ HF) as Hlen.
    destruct (with_kids_total e' ks Hc' (eq_sym Hlen)) as [e'' Hw].
    apply returns_runs. destruct (rebuild_same_value e' ks e'') as (r & Hr & Sr & Wr);
      [apply He'|done| |by apply Forall2_same_value|].
    { destruct e'; simpl in *; split_kids; simplify_eq; try done. by apply not_div_ok. }
    exists r. split; [done|]. split; [|done]. split; [done|]. intros Hcm Hv.
    pose proof (evaluates_kids_const e' ks Hcm Hv HF) as Hk.
    pose proof (rebuild_const e' ks r Hk Hr) as Hrc. destruct e'; try (by destruct r).
    + destruct Hrc as [c ->]. done.
    + exfalso. apply Hcr; [done|]. apply valued_kids in Hv. by apply Forall_cons in Hv as [? _].
  - intros e' r _ [Sr Cr] Wr Hcr. unfold visitExprPost, ExprEvaluator, eval_visitExprPost.
    destruct r as [|src| | | | | | | |]; try done; apply act_spec_ret; by split.
  - by right.
Qed.
End evaluator_sound.

(** ** Assignment *)

(** [bindings] is a [std::map] from array objects to byte vectors, kept here as
    the sequence of its entries in the order of the objects' addresses. *)
Record Assignment := {
  allowFreeValues : bool;
  bindings : list (Array * list Z);
}.

Fixpoint bindings_find (b : list (Array * list Z)) (a : Array) : option (list Z) :=
  match b with
  | [] => None
  | (k, v) :: b' => if decide (k = a) then Some v else bindings_find b' a
  end.

(** [std::map::insert]: an existing entry is kept. *)
Fixpoint bindings_insert (b : list (Array * list Z)) (a : Array) (v : list Z)
    : list (Array * list Z) :=
  match b with
  | [] => [(a, v)]
  | (k, w) :: b' =>
      if decide (k = a) then (k, w) :: b'
      else if arr_addr a <? arr_addr k then (a, v) :: (k, w) :: b'
      else (k, w) :: bindings_insert b' a v
  end.

(** The constructor; reading past the end of [values] is undefined. *)
Fixpoint insert_all (b : list (Array * list Z)) (objects : list Array) (values : list (list Z))
    : result (list (Array * list Z)) :=
  match objects, values with
  | [], _ => Ok b
  | o :: os, v :: vs => insert_all (bindings_insert b o v) os vs
  | _ :: _, [] => AssertFail
  end.
Definition Assignment_create (objects : list Array) (values : list (list Z)) (allow : bool)
    : result Assignment :=
  b ← insert_all [] objects values; Ok {| allowFreeValues := allow; bindings := b |}.

(** The byte bound at [arr[i]]. *)
Definition binds (a : Assignment) (arr : Array) (i : Z) : option Z :=
  bytes ← bindings_find (bindings a) arr; bytes !! Z.to_nat i.

Section assignment.
Context {AP : APIntOps} {CFG : Config}.

(** [Assignment::evaluate(const Array *, unsigned)] *)
Definition Assignment_evaluate_byte (a : Assignment) (array : Array) (index : Z) : result expr :=
  match bindings_find (bindings a) array with
  | Some bytes =>
      match bytes !! Z.to_nat index with
      | Some b => Ok (ConstantExpr (ConstantExpr_alloc b (range array)))
      | None =>
          if allowFreeValues a then
            ReadExpr_create {| ul_root := array; ul_head := NullNode |}
              (ConstantExpr (ConstantExpr_alloc index (domain array)))
          else Ok (ConstantExpr (ConstantExpr_alloc 0 (range array)))
      end
  | None =>
      if allowFreeValues a then
        ReadExpr_create {| ul_root := array; ul_head := NullNode |}
          (ConstantExpr (ConstantExpr_alloc index (domain array)))
      else Ok (ConstantExpr (ConstantExpr_alloc 0 (range array)))
  end.

(** [AssignmentEvaluator] *)
Definition AssignmentEvaluator (a : Assignment) : ExprVisitor unit :=
  ExprEvaluator (Assignment_evaluate_byte a).

(** [Assignment::evaluate(ref<Expr>)]: a fresh visitor. *)
Definition Assignment_evaluate (a : Assignment) (e : expr) : result expr :=
  fst <$> visit (AssignmentEvaluator a) (vsize e) e ([], tt).

(** [Assignment::satisfies]: one visitor for all constraints. *)
Fixpoint satisfies_loop (a : Assignment) (cs : list expr) (s : visited_ty * unit) : result bool :=
  match cs with
  | [] => Ok true
  | c :: cs' =>
      p ← visit (AssignmentEvaluator a) (vsize c) c s;
      t ← Expr_isTrue (fst p);
      if t : bool then satisfies_loop a cs' (snd p) else Ok false
  end.
Definition satisfies (a : Assignment) (cs : list expr) : result bool :=
  satisfies_loop a cs ([], tt).

(** [Assignment::createConstraintsFromAssignment] *)
Definition byte_constraint (array : Array) (index value : Z) : result expr :=
  rd ← ReadExpr_create {| ul_root := array; ul_head := NullNode |}
         (ConstantExpr (ConstantExpr_alloc index (domain array)));
  EqExpr_create rd (ConstantExpr (ConstantExpr_alloc value (range array))).

(** The loop over the indices of one array, [n] of them from [index] on. *)
Fixpoint array_constraints (array : Array) (values : list Z) (n : nat) (index : Z)
    : result (list expr) :=
  match n with
  | O => Ok []
  | S m =>
      value ← match values !! Z.to_nat index with Some v => Ok v | None => AssertFail end;
      c ← byte_constraint array index value;
      cs ← array_constraints array values m (index + 1);
      Ok (c :: cs)
  end.

Fixpoint createConstraintsFromAssignment_loop (b : list (Array * list Z)) : result (list expr) :=
  match b with
  | [] => Ok []
  | (array, values) :: b' =>
      cs ← array_constraints array values (Z.to_nat (arr_size array)) 0;
      rest ← createConstraintsFromAssignment_loop b';
      Ok (cs ++ rest)
  end.
Definition createConstraintsFromAssignment (a : Assignment) : result (list expr) :=
  createConstraintsFromAssignment_loop (bindings a).

(** The environments an assignment stands for. *)
Definition adm (a : Assignment) (rho : env) : Prop :=
  forall arr i, 0 <= i ->
  match binds a arr i with
  | Some b => rho arr i = b
  | None => allowFreeValues a = false -> rho arr i = 0
  end.
(** The one with zero for every unbound byte. *)
Definition env_of (a : Assignment) : env := fun arr i => default 0 (binds a arr i).

Definition bytes_ok (a : Assignment) : Prop :=
  Forall (fun p => Forall (inw 8) p.2) (bindings a).

Lemma env_of_adm a : adm a (env_of a).
Proof. intros arr i Hi. unfold env_of. by destruct (binds a arr i). Qed.

Lemma binds_inw a arr i b : bytes_ok a -> binds a arr i = Some b -> inw 8 b.
Proof.
  intros Hok. unfold binds. destruct (bindings_find (bindings a) arr) as [bytes|] eqn:Hf; [|done].
  simpl. intros Hb. unfold bytes_ok in Hok. induction Hok as [|[k v] l Hv Hl IH]; [done|].
  simpl in Hf. case_decide; [simplify_eq; by eapply Forall_lookup_1|auto].
Qed.
End assignment.

Section assignment_sound.
Context {AP : APIntOps} {SP : APIntSpec AP} {CFG : Config}.

(** [AssignmentEvaluator] keeps the promise of [ExprEvaluator]. *)
#[export] Instance assignment_initial_values a :
  bytes_ok a ->
  InitialValues (Assignment_evaluate_byte a) (adm a) (allowFreeValues a = false).
Proof.
  intros Hok. constructor. intros root i Ha Hi Hor.
  assert (Hcst : forall v, inw 8 v -> (forall rho, adm a rho -> rho root i = v) ->
    returns (Ok (ConstantExpr (ConstantExpr_alloc v (range root)))) (fun x =>
      wf x /\ getWidth x = range root /\ (allowFreeValues a = false -> isConst x = true) /\
      forall rho, adm a rho -> eval rho x = initial rho root i \/ initial rho root i = None)).
  { intros v Hv Hrho. destruct Ha as (_ & Hr & _). apply returns_ok.
    assert (inw 64 v) by (eapply inw_mono; [|exact Hv]; lia).
    split_and!; [by apply alloc_apok|by rewrite alloc_eq by (done || lia)|done|].
    intros rho Had. cbn [eval]. rewrite alloc_eq by (done || lia). unfold initial. rewrite (Hrho rho Had).
    destruct Hor as [->|Hge]; [by left|]. rewrite (proj2 (Z.ltb_ge _ _) Hge).
    destruct (isSymbolicArray root), ConstArrayOpt; auto. }
  assert (Hfree : returns (ReadExpr_create {| ul_root := root; ul_head := NullNode |}
      (ConstantExpr (ConstantExpr_alloc i (domain root)))) (fun x =>
      wf x /\ getWidth x = range root /\ 
      forall rho, adm a rho -> eval rho x = initial rho root i \/ initial rho root i = None)).
  { destruct (index_const root i Ha Hi) as [-> Hc].
    eapply returns_weaken; [apply (ReadExpr_create_builds {| ul_root := root; ul_head := NullNode |}); by simpl|].
    intros x (Wx & Ex & Rx). split_and!; try done. intros rho _.
    destruct (initial rho root i) as [v|] eqn:E; [|by right]. left. by apply Rx. }
  assert (Hnone : binds a root i = None ->
    returns (if allowFreeValues a then ReadExpr_create {| ul_root := root; ul_head := NullNode |}
               (ConstantExpr (ConstantExpr_alloc i (domain root)))
             else Ok (ConstantExpr (ConstantExpr_alloc 0 (range root)))) (fun x =>
      wf x /\ getWidth x = range root /\ (allowFreeValues a = false -> isConst x = true) /\
      forall rho, adm a rho -> eval rho x = initial rho root i \/ initial rho root i = None)).
  { intros Hb. destruct (allowFreeValues a) eqn:Hf.
    - eapply returns_weaken; [exact Hfree|]. intros x (? & ? & ?). by split_and!.
    - apply Hcst; [by apply inw_0|]. intros rho Had. specialize (Had root i ltac:(lia)).
      rewrite Hb in Had. auto. }
  unfold Assignment_evaluate_byte. unfold binds in Hnone.
  destruct (bindings_find (bindings a) root) as [bytes|] eqn:Hf; [|by apply Hnone].
  simpl in Hnone. destruct (bytes !! Z.to_nat i) as [b|] eqn:Hb; [|by apply Hnone].
  assert (Hbind : binds a root i = Some b) by (unfold binds; by rewrite Hf).
  apply Hcst; [by eapply binds_inw|]. intros rho Had. specialize (Had root i ltac:(lia)).
  by rewrite Hbind in Had.
Qed.

(** [Assignment::evaluate] returns a correct evaluation. *)
Lemma Assignment_evaluate_ok a e :
  bytes_ok a -> edom e ->
  returns (Assignment_evaluate a e) (evaluates (adm a) (allowFreeValues a = false) e).
Proof.
  intros Hok He. pose proof (assignment_initial_values a Hok) as HIV.
  destruct (evaluator_sound (fun _ : unit => True) (Assignment_evaluate_byte a) (adm a)
    (allowFreeValues a = false) (vsize e) e ([], tt)) as ([r s] & Hr & Hg & _); [done|lia| |].
  { split; [constructor|done]. }
  unfold Assignment_evaluate, AssignmentEvaluator. rewrite Hr. simpl. by exists r.
Qed.

(** Under complete bindings the evaluation is the constant of the value. *)
Lemma evaluates_value a e r v :
  allowFreeValues a = false -> evaluates (adm a) (allowFreeValues a = false) e r ->
  eval (env_of a) e = Some v -> r = ConstantExpr (APInt (getWidth e) v).
Proof.
  intros Hf [Hs Hc] Hv.
  assert (isConst r = true) as Hr.
  { apply Hc; [done|]. exists (env_of a), v. split; [apply env_of_adm|done]. }
  destruct r as [c| | | | | | | | |]; try discriminate.
  pose proof (same_value_const _ e c _ v Hs (env_of_adm a) Hv) as E.
  destruct Hs as (_ & Hw & _). simpl in Hw. destruct c; simpl in *; congruence.
Qed.

Lemma isTrue_const w v : w = Bool -> inw w v -> Expr_isTrue (ConstantExpr (APInt w v)) = Ok (v =? 1).
Proof.
  intros -> Hv. unfold Expr_isTrue. simpl. f_equal. by apply isTrue_eq.
Qed.

Lemma satisfies_loop_ok a cs :
  bytes_ok a -> allowFreeValues a = false ->
  Forall (fun c => edom c /\ getWidth c = Bool /\ is_Some (eval (env_of a) c)) cs ->
  forall s, st_ok (fun _ : unit => True) (evaluates (adm a) (allowFreeValues a = false)) s ->
  satisfies_loop a cs s = Ok (forallb (fun c => bool_decide (eval (env_of a) c = Some 1)) cs).
Proof.
  intros Hok Hf Hcs. pose proof (assignment_initial_values a Hok) as HIV.
  induction Hcs as [|c cs (He & Hw & [v Hv]) Hcs IH]; intros s Hs; [done|]. cbn [satisfies_loop forallb].
  destruct (evaluator_sound (fun _ : unit => True) (Assignment_evaluate_byte a) (adm a)
    (allowFreeValues a = false) (vsize c) c s) as ([r s'] & Hr & Hg & Hs'); [done|lia|done|].
  unfold AssignmentEvaluator at 1. rewrite Hr. simpl in Hg, Hs'. cbn [mbind result_bind fst snd].
  pose proof (evaluates_value a c r v Hf Hg Hv) as ->.
  pose proof (eval_inw _ c v (proj1 He) Hv) as Hin.
  rewrite isTrue_const by done. cbn [mbind result_bind]. rewrite Hv.
  destruct (Z.eqb_spec v 1) as [->|Hne].
  - rewrite bool_decide_true by done. by apply IH.
  - by rewrite bool_decide_false by congruence.
Qed.

(** ** Division by a literal zero *)
Lemma protectedDiv_zero vis k l w c s s' :
  isDiv k = true -> isConst l = false -> wf l -> getWidth l = w -> apok c -> bw c = w ->
  vis l s = Ok (ConstantExpr c, s') ->
  vis (ConstantExpr (APInt w 0)) s' = Ok (ConstantExpr (APInt w 0), s') ->
  protectedDivOperation (U := unit) vis k l (ConstantExpr (APInt w 0)) s = AssertFail.
Proof.
  intros Hk Hl Wl Ew Hc Ec H1 H2. pose proof (wf_width l Wl). pose proof (apok0 w ltac:(lia)) as Hz.
  unfold protectedDivOperation, mbind, M_bind. rewrite H1, H2, isZero_eq by done. simpl.
  assert (expr_eqb (ConstantExpr c) l = false) as ->.
  { destruct (expr_eqb (ConstantExpr c) l) eqn:E; [|done].
    apply expr_eqb_eq in E; [|done|done]. by subst l. }
  simpl. rewrite (bin_create_zero k (ConstantExpr c)); try done. unfold zero_fold. by rewrite Hk.
Qed.

Lemma evaluate_div_zero a k l v :
  bytes_ok a -> allowFreeValues a = false -> isDiv k = true ->
  wf l -> evaluable l = true -> isConst l = false -> eval (env_of a) l = Some v ->
  Assignment_evaluate a (BinExpr k l (ConstantExpr (APInt (getWidth l) 0))) = AssertFail.
Proof.
  intros Hok Hf Hk Hl Hev Hlc Hv. pose proof (assignment_initial_values a Hok) as HIV.
  set (e := BinExpr k l _). set (n := (vsize l + 1)%nat).
  destruct (evaluator_sound (fun _ : unit => True) (Assignment_evaluate_byte a) (adm a)
    (allowFreeValues a = false) n l ([], tt)) as ([r s] & Hr & Hg & _);
    [done|unfold n; lia|by split; [constructor|]|].
  pose proof (evaluates_value a l r v Hf Hg Hv) as Er. simpl in Er. subst r.
  assert (Hp : protectedDivOperation (visit (AssignmentEvaluator a) n) k l
    (ConstantExpr (APInt (getWidth l) 0)) ([], tt) = AssertFail).
  { apply (protectedDiv_zero _ k l (getWidth l) (APInt (getWidth l) v) _ s); try done.
    - split; [by apply wf_width|by eapply eval_inw].
    - unfold n. rewrite Nat.add_1_r. simpl. unfold visit'. by rewrite orb_true_r. }
  assert (Ha : visitActual (AssignmentEvaluator a) (visit (AssignmentEvaluator a) n) e ([], tt) = AssertFail).
  { unfold visitActual. replace (isConst e) with false by done. unfold mbind, M_bind. cbv beta iota.
    assert (visitExpr (AssignmentEvaluator a) (visit (AssignmentEvaluator a) n) e ([], tt) =
      Ok (DoChildren, ([], tt))) as ->.
    { simpl. unfold eval_visitExpr, e. cbn [kids forallb]. by rewrite Hlc. }
    assert (visitKind (AssignmentEvaluator a) (getKind e) (visit (AssignmentEvaluator a) n) e ([], tt) =
      AssertFail) as ->; [|done].
    simpl. unfold eval_visitKind, e. destruct k; try discriminate Hk; exact Hp. }
  unfold Assignment_evaluate. assert (vsize e = S n) as -> by (unfold n, e; simpl; lia).
  cbn [visit]. unfold visit'. rewrite orb_false_r. destruct (negb UseVisitorHash); [by rewrite Ha|].
  simpl. by rewrite Ha.
Qed.

(** ** The constraints that pin an assignment down *)

(** [rho] gives the symbolic byte [array[i]] the value [b]. *)
Lemma byte_constraint_ok array i b :
  wf_array array -> isSymbolicArray array = true -> range array = Int8 ->
  0 <= i < 2 ^ domain array -> inw 8 b ->
  returns (byte_constraint array i b) (fun c => wf c /\ getWidth c = Bool /\
    forall rho, eval rho c = Some (Z.b2z (wrap 8 (rho array i) =? b))).
Proof.
  intros Ha Hs Hr Hi Hb. destruct (index_const array i Ha Hi) as [Hal Hok].
  unfold byte_constraint. rewrite Hal.
  eapply returns_bind.
  { apply (ReadExpr_create_builds {| ul_root := array; ul_head := NullNode |}). by simpl. }
  intros rd (Wr & Er & Rr). simpl in Er.
  assert (Hc : ConstantExpr_alloc b (range array) = APInt Int8 b).
  { rewrite Hr, alloc_eq, wrap_small by (first [done|eapply inw_mono; [|exact Hb]; unfold Int8; lia]). done. }
  rewrite Hc. eapply returns_weaken.
  { apply EqExpr_create_builds; [done|by split|by rewrite Er, Hr]. }
  intros c (Wc & Ec & Rc). split_and!; [done|done|]. intros rho. apply Rc. cbn [eval].
  rewrite (Rr rho (wrap 8 (rho array i))).
  - done.
  - cbn [eval mbind option_bind raw eval_node ul_root ul_head]. unfold initial. by rewrite Hs, Hr.
Qed.

Lemma array_constraints_ok array vs n i :
  wf_array array -> isSymbolicArray array = true -> range array = Int8 -> Forall (inw 8) vs ->
  0 <= i -> (Z.to_nat i + n <= length vs)%nat -> i + Z.of_nat n <= 2 ^ domain array ->
  returns (array_constraints array vs n i) (fun cs =>
    Forall (fun c => wf c /\ getWidth c = Bool) cs /\
    forall rho, Forall (fun c => eval rho c = Some 1) cs <->
      forall k b, (k < n)%nat -> vs !! (Z.to_nat i + k)%nat = Some b ->
        wrap 8 (rho array (i + Z.of_nat k)) = b).
Proof.
  intros Ha Hs Hr Hvs. revert i. induction n as [|n IH]; intros i Hi Hlen Hdom; cbn [array_constraints].
  { apply returns_ok. split; [constructor|]. intros rho. split; [intros; lia|constructor]. }
  destruct (lookup_lt_is_Some_2 vs (Z.to_nat i)) as [b Hb]; [lia|]. rewrite Hb. cbn [mbind result_bind].
  pose proof (Forall_lookup_1 _ _ _ _ Hvs Hb) as Hb8.
  eapply returns_bind; [by apply (byte_constraint_ok array i b); [..|lia|]|].
  intros c (Wc & Ec & Hc). eapply returns_bind; [apply (IH (i + 1)); lia|].
  intros cs (Wcs & Hcs). apply returns_ok. split; [by constructor|]. intros rho.
  rewrite Forall_cons, Hcs, (Hc rho). split.
  - intros [H1 H2] k x Hk Hx. destruct k as [|k].
    + rewrite Nat.add_0_r in Hx. rewrite Z.add_0_r. simplify_eq. by destruct (Z.eqb_spec (wrap 8 (rho array i)) b).
    + replace (i + Z.of_nat (S k)) with (i + 1 + Z.of_nat k) by lia. apply H2; [lia|].
      by replace (Z.to_nat (i + 1) + k)%nat with (Z.to_nat i + S k)%nat by lia.
  - intros H. split.
    + specialize (H 0%nat b ltac:(lia)). rewrite Nat.add_0_r, Z.add_0_r in H. rewrite (H Hb).
      by rewrite Z.eqb_refl.
    + intros k x Hk Hx. replace (i + 1 + Z.of_nat k) with (i + Z.of_nat (S k)) by lia.
      apply H; [lia|]. by replace (Z.to_nat i + S k)%nat with (Z.to_nat (i + 1) + k)%nat by lia.
Qed.

(** Bindings of whole symbolic byte arrays. *)
Definition bindings_ok (b : list (Array * list Z)) : Prop :=
  Forall (fun p => wf_array p.1 /\ isSymbolicArray p.1 = true /\ range p.1 = Int8 /\
    Forall (inw 8) p.2 /\ arr_size p.1 <= Z.of_nat (length p.2)) b.

Lemma createConstraints_ok b :
  bindings_ok b ->
  returns (createConstraintsFromAssignment_loop b) (fun cs =>
    Forall (fun c => wf c /\ getWidth c = Bool) cs /\
    forall rho, Forall (fun c => eval rho c = Some 1) cs <->
      Forall (fun p => forall k x, Z.of_nat k < arr_size p.1 -> p.2 !! k = Some x ->
        wrap 8 (rho p.1 (Z.of_nat k)) = x) b).
Proof.
  intros Hb. induction Hb as [|[array vs] b (Ha & Hs & Hr & Hv & Hl) Hb IH];
    cbn [createConstraintsFromAssignment_loop].
  { apply returns_ok. split; [constructor|]. done. }
  simpl in *. pose proof Ha as (_ & _ & Hsz & Hdom & _).
  eapply returns_bind; [apply (array_constraints_ok array vs (Z.to_nat (arr_size array)) 0); try done; lia|].
  intros cs (Wcs & Hcs). eapply returns_bind; [exact IH|]. intros rest (Wrest & Hrest).
  apply returns_ok. split; [by apply Forall_app|]. intros rho.
  rewrite Forall_app, Forall_cons, Hcs, Hrest. simpl. split; intros [H1 H2]; (split; [|done]).
  - intros k x Hk Hx. apply (H1 k x); [lia|done].
  - intros k x Hk Hx. apply (H1 k x); [lia|done].
Qed.
End assignment_sound.

(** ** Theorems *)

(** C35. Evaluating an [evaluable] expression under an assignment of bytes
    terminates, fails no assertion, and returns an expression of the same width
    that has the same value under every environment compatible with the
    bindings; if the assignment is complete (no free values) and the expression
    has a value there, the result is exactly the constant of this value.  The
    memo table of the visitor, the rollback through update lists and the guarded
    divisions are all part of the statement's [Assignment_evaluate].
    [evaluable]: the expression is well typed, its arrays are indexed by at most 32
    bits, no divisor is the literal zero (there evaluation ends in an assertion:
    [evaluate_div_zero_fails]) and no [NotOptimizedExpr] wraps a literal (which is
    not folded: [evaluate_not_optimized_constant]). *)
Theorem evaluate_correct {AP : APIntOps} {SP : APIntSpec AP} {CFG : Config} a e :
  bytes_ok a -> wf e -> evaluable e = true ->
  returns (Assignment_evaluate a e) (fun r =>
    wf r /\ getWidth r = getWidth e /\
    (forall rho v, adm a rho -> eval rho e = Some v -> eval rho r = Some v) /\
    (forall v, allowFreeValues a = false -> eval (env_of a) e = Some v ->
       r = ConstantExpr (APInt (getWidth e) v))).
Proof.
  intros Hok He Hev. eapply returns_weaken; [by apply Assignment_evaluate_ok|].
  intros r Hr. pose proof Hr as [(Wr & Er & Vr) _]. split_and!; try done.
  intros v Hf Hv. by eapply evaluates_value.
Qed.

Lemma evaluate_correct_witness :
  returns (Assignment_evaluate (AP := ZOps) (CFG := default_config)
     {| allowFreeValues := false; bindings := [(buf, [1; 2; 3; 4; 5; 6; 7; 8])] |}
     (BinExpr Kind.UDiv (cst Int8 200) (ReadExpr buf (Node NullNode (cst Int32 3) (byte 1)) (cst Int32 3))))
    (fun r => r = cst Int8 100).
Proof.
  eapply returns_weaken.
  - apply (evaluate_correct (AP := ZOps) (CFG := default_config)
      {| allowFreeValues := false; bindings := [(buf, [1; 2; 3; 4; 5; 6; 7; 8])] |}
      (BinExpr Kind.UDiv (cst Int8 200) (ReadExpr buf (Node NullNode (cst Int32 3) (byte 1)) (cst Int32 3)))).
    + unfold bytes_ok, bindings. repeat constructor; simpl; lia.
    + concrete.
    + reflexivity.
  - intros r (_ & _ & _ & H). apply (H 100); reflexivity.
Defined.

(** [Assignment::satisfies] on constraints that have a value under the
    assignment answers whether all of them are true there. *)
Theorem satisfies_correct {AP : APIntOps} {SP : APIntSpec AP} {CFG : Config} a cs :
  bytes_ok a -> allowFreeValues a = false ->
  Forall (fun c => (wf c /\ evaluable c = true) /\ getWidth c = Bool /\ is_Some (eval (env_of a) c)) cs ->
  returns (satisfies a cs) (fun b => b = true <-> Forall (fun c => eval (env_of a) c = Some 1) cs).
Proof.
  intros Hok Hf Hcs. unfold satisfies. rewrite satisfies_loop_ok; try done; [|by split; [constructor|]].
  apply returns_ok. rewrite forallb_forall, List.Forall_forall.
  split; intros H x Hx; specialize (H x Hx); by apply bool_decide_eq_true in H || apply bool_decide_eq_true.
Qed.

Lemma satisfies_correct_witness :
  returns (satisfies (AP := ZOps) (CFG := default_config)
     {| allowFreeValues := false; bindings := [(buf, [1; 0])] |} [flag])
    (fun b => b = true <-> Forall (fun c => eval (CFG := default_config)
       (env_of {| allowFreeValues := false; bindings := [(buf, [1; 0])] |}) c = Some 1) [flag]).
Proof.
  apply (satisfies_correct (AP := ZOps) (CFG := default_config)).
  - unfold bytes_ok, bindings. repeat constructor; simpl; lia.
  - reflexivity.
  - constructor; [|constructor]. split; [split; [concrete|reflexivity]|]. split; [reflexivity|].
    vm_compute. eauto.
Defined.

(** The constraints created from an assignment of whole symbolic byte arrays
    are well typed, and an environment satisfies them all exactly if it gives
    every array byte its bound value; in particular the assignment satisfies
    its own constraints. *)
Theorem assignment_constraints_roundtrip {AP : APIntOps} {SP : APIntSpec AP} {CFG : Config} a :
  bindings_ok (bindings a) ->
  returns (createConstraintsFromAssignment a) (fun cs =>
    Forall (fun c => wf c /\ getWidth c = Bool) cs /\
    forall rho, Forall (fun c => eval rho c = Some 1) cs <->
      Forall (fun p => forall k x, Z.of_nat k < arr_size p.1 -> p.2 !! k = Some x ->
        wrap 8 (rho p.1 (Z.of_nat k)) = x) (bindings a)).
Proof. apply createConstraints_ok. Qed.

Lemma assignment_constraints_roundtrip_witness :
  returns (createConstraintsFromAssignment (AP := ZOps) (CFG := default_config)
     {| allowFreeValues := false; bindings := [(buf, [1; 2; 3; 4; 5; 6; 7; 8])] |})
    (fun cs => Forall (fun c => wf c /\ getWidth c = Bool) cs /\
      forall rho, Forall (fun c => eval (CFG := default_config) rho c = Some 1) cs <->
        Forall (fun p => forall k x, Z.of_nat k < arr_size p.1 -> p.2 !! k = Some x ->
          wrap 8 (rho p.1 (Z.of_nat k)) = x) [(buf, [1; 2; 3; 4; 5; 6; 7; 8])]).
Proof.
  apply (assignment_constraints_roundtrip (AP := ZOps) (CFG := default_config)
    {| allowFreeValues := false; bindings := [(buf, [1; 2; 3; 4; 5; 6; 7; 8])] |}).
  constructor; [|constructor]. simpl. split; [concrete|]. split; [reflexivity|]. split; [reflexivity|].
  split; [|lia]. repeat constructor; simpl; lia.
Defined.

(** The guard of [protectedDivOperation] replaces a divisor that evaluates to
    zero by the original divisor; if the original divisor is the literal zero and
    the dividend has a value, the division by zero it wants to avoid is performed
    and LLVM's assertion fails. *)
Theorem evaluate_div_zero_fails {AP : APIntOps} {SP : APIntSpec AP} {CFG : Config} a k l v :
  bytes_ok a -> allowFreeValues a = false -> isDiv k = true ->
  wf l -> evaluable l = true -> isConst l = false -> eval (env_of a) l = Some v ->
  Assignment_evaluate a (BinExpr k l (ConstantExpr (APInt (getWidth l) 0))) = AssertFail.
Proof. intros. by eapply evaluate_div_zero. Qed.

Lemma evaluate_div_zero_fails_witness :
  Assignment_evaluate (AP := ZOps) (CFG := default_config)
    {| allowFreeValues := false; bindings := [(buf, [7])] |}
    (BinExpr Kind.URem (byte 0) (cst Int8 0)) = AssertFail.
Proof.
  apply (evaluate_div_zero_fails (AP := ZOps) (CFG := default_config)
    {| allowFreeValues := false; bindings := [(buf, [7])] |} Kind.URem (byte 0) 7);
    try reflexivity; [|concrete].
  unfold bytes_ok, bindings. repeat constructor; simpl; lia.
Defined.

(** A [NotOptimizedExpr] that wraps a literal survives evaluation: the
    constant-kids shortcut of [visitExpr] rebuilds the wrapper and returns before
    [visitExprPost] could fold it. *)
Theorem evaluate_not_optimized_constant {AP : APIntOps} {CFG : Config} a c :
  Assignment_evaluate a (NotOptimizedExpr (ConstantExpr c)) = Ok (NotOptimizedExpr (ConstantExpr c)).
Proof.
  unfold Assignment_evaluate. cbn [vsize visit]. unfold visit'. simpl.
  by destruct UseVisitorHash.
Qed.
