(* ===== verification/UnionFind.v ===== *)
(** * UFManager: the union-find structure over symbolic arrays

    Models [UFElement] and [UFManager] of [klee/include/klee/Expr.h] and
    [klee/lib/Expr/Expr.cpp].  Every array object has an index into the vector of
    elements; an element points to its parent, and the representative of a class
    collects the constraints over the arrays of the class.  Reading the vector
    out of range, erasing the end iterator and falling off the end of a function
    that returns a value are undefined in C++; the model fails there. *)

From S2P Require Import Prelude APInt ExprData Samples.
Local Open Scope Z_scope.

Record UFElement := {
  parent : nat;
  uf_arr : Z;                     (* address of the array object *)
  rank : Z;
  uf_size : Z;
  uf_constraints : list expr;
}.

Abbreviation UFManager := (list UFElement).

Definition UFElement_create (x : Z) (idx : nat) : UFElement :=
  {| parent := idx; uf_arr := x; rank := 0; uf_size := 1; uf_constraints := [] |}.

Definition set_parent (p : nat) (x : UFElement) : UFElement :=
  {| parent := p; uf_arr := uf_arr x; rank := rank x; uf_size := uf_size x;
     uf_constraints := uf_constraints x |}.
Definition set_constraints (cs : list expr) (x : UFElement) : UFElement :=
  {| parent := parent x; uf_arr := uf_arr x; rank := rank x; uf_size := uf_size x;
     uf_constraints := cs |}.

(** [elements[i]] *)
Definition get (m : UFManager) (i : nat) : result UFElement :=
  match m !! i with Some x => Ok x | None => AssertFail end.

(** [UFManager::create] *)
Definition create (m : UFManager) (x : Z) : nat * UFManager :=
  (length m, m ++ [UFElement_create x (length m)]).

(** [UFManager::destroy]: [erase(it)] of a single iterator, the first position
    after the elements that [remove_if] keeps. *)
Definition destroy (m : UFManager) (x : Z) : result UFManager :=
  let kept := filter (fun z => uf_arr z <> x) m in
  let tail := drop (length kept) m in
  match tail with
  | [] => AssertFail
  | _ :: rest => Ok (kept ++ rest)
  end.

(** [UFManager::find]: follow the parents, compressing the path. *)
Fixpoint find_go (fuel : nat) (m : UFManager) (i : nat) : result (nat * UFManager) :=
  match fuel with
  | O => OutOfFuel
  | S n =>
      x ← get m i;
      if decide (parent x = i) then Ok (i, m)
      else
        p ← find_go n m (parent x);
        Ok (fst p, alter (set_parent (fst p)) i (snd p))
  end.
Definition find (m : UFManager) (i : nat) : result (nat * UFManager) := find_go (length m) m i.

(** [UFManager::join].  Nothing is returned if [x.rank < y.rank]. *)
Definition join (m : UFManager) (a b : nat) : result (nat * UFManager) :=
  p ← find m a;
  let i := fst p in
  q ← find (snd p) b;
  let j := fst q in
  let m := snd q in
  if decide (i = j) then Ok (i, m)
  else
    x ← get m a;
    y ← get m b;
    if rank y <=? rank x then
      let m := alter (set_parent (parent x)) b m in
      if rank x =? rank y then
        Ok (i, alter (set_constraints []) b
                 (alter (set_constraints (uf_constraints x ++ uf_constraints y)) a m))
      else
        Ok (j, alter (set_constraints []) a
                 (alter (set_constraints (uf_constraints y ++ uf_constraints x)) b m))
    else AssertFail.

(** ** Classes *)

(** [r] is the representative of [i], [n] parents away. *)
Inductive root_in (m : UFManager) : nat -> nat -> nat -> Prop :=
| root_here i x : m !! i = Some x -> parent x = i -> root_in m 0 i i
| root_step n i x r :
    m !! i = Some x -> parent x <> i -> root_in m n (parent x) r -> root_in m (S n) i r.

Definition root_of (m : UFManager) (i r : nat) : Prop := exists n, root_in m n i r.

(** Every element has a representative. *)
Definition uf_ok (m : UFManager) : Prop := forall i, (i < length m)%nat -> exists r, root_of m i r.

(** The vector up to parents: what [find] must not change. *)
Definition same_payload (m m' : UFManager) : Prop :=
  length m' = length m /\
  forall i x, m !! i = Some x -> exists y, m' !! i = Some y /\
    uf_arr y = uf_arr x /\ rank y = rank x /\ uf_size y = uf_size x /\
    uf_constraints y = uf_constraints x.

Lemma root_in_det m n n' i r r' : root_in m n i r -> root_in m n' i r' -> n = n' /\ r = r'.
Proof.
  intros H. revert n' r'. induction H as [i x Hx Hp|n i x r Hx Hp H IH]; intros n' r' H';
    inversion H' as [? y Hy Hq|? ? y ? Hy Hq H'']; simplify_eq; try done.
  destruct (IH _ _ H'') as [-> ->]. done.
Qed.

Lemma root_of_det m i r r' : root_of m i r -> root_of m i r' -> r = r'.
Proof. intros [n H] [n' H']. by eapply root_in_det. Qed.

Lemma root_in_lt m n i r : root_in m n i r -> (i < length m)%nat /\ (r < length m)%nat.
Proof.
  induction 1 as [i x Hx Hp|n i x r Hx Hp H [_ IH]]; split; eauto using lookup_lt_Some.
Qed.

Lemma root_in_root m n i r : root_in m n i r -> exists x, m !! r = Some x /\ parent x = r.
Proof. induction 1; eauto. Qed.

(** The elements on the path are distinct, so the path is short. *)
Lemma root_in_path m n i r :
  root_in m n i r -> exists l, length l = S n /\ NoDup l /\
    Forall (fun j => exists k, (k <= n)%nat /\ root_in m k j r) l.
Proof.
  induction 1 as [i x Hx Hp|n i x r Hx Hp H (l & Hlen & Hnd & Hall)].
  - exists [i]. split_and!; [done|apply NoDup_singleton|]. constructor; [|done].
    exists 0%nat. split; [lia|]. by econstructor.
  - exists (i :: l). split_and!; [by simpl; rewrite Hlen| |].
    + constructor; [|done]. intros Hin. rewrite Forall_forall in Hall.
      destruct (Hall i Hin) as (k & Hk & Hr).
      assert (Hi : root_in m (S n) i r) by (by econstructor).
      destruct (root_in_det _ _ _ _ _ _ Hi Hr). lia.
    + constructor.
      * exists (S n). split; [lia|]. by econstructor.
      * eapply Forall_impl; [exact Hall|]. intros j (k & Hk & Hr). exists k. split; [lia|done].
Qed.

Lemma root_in_depth m n i r : root_in m n i r -> (n < length m)%nat.
Proof.
  intros H. destruct (root_in_path m n i r H) as (l & Hlen & Hnd & Hall).
  assert (Hle : (length l <= length (seq 0 (length m)))%nat).
  { apply NoDup_incl_length; [by apply NoDup_ListNoDup|]. intros j Hj.
    apply in_seq. rewrite List.Forall_forall in Hall. destruct (Hall j Hj) as (k & _ & Hr).
    apply root_in_lt in Hr. lia. }
  rewrite length_seq in Hle. lia.
Qed.

(** ** Path compression *)
Lemma lookup_set_parent (m : UFManager) (i p j : nat) :
  alter (set_parent p) i m !! j =
    if decide (j = i) then set_parent p <$> m !! j else m !! j.
Proof.
  case_decide as E; [subst; by rewrite list_lookup_alter_eq|by rewrite list_lookup_alter_ne].
Qed.

Lemma compress_root (m : UFManager) (i r j s : nat) :
  root_of m i r -> i <> r -> root_of m j s -> root_of (alter (set_parent r) i m) j s.
Proof.
  intros [k Hi] Hir [n Hj]. pose proof (root_in_root _ _ _ _ Hi) as (xr & Hxr & Hpr).
  assert (Hroot : root_in (alter (set_parent r) i m) 0 r r).
  { econstructor; [|exact Hpr]. rewrite lookup_set_parent. by rewrite decide_False. }
  induction Hj as [j x Hx Hp|n j x s Hx Hp Hj IH].
  - exists 0%nat. econstructor; [|exact Hp]. rewrite lookup_set_parent.
    rewrite decide_False; [done|]. intros ->. destruct Hir.
    assert (root_in m 0 i i) by (by econstructor). by eapply root_of_det; eexists.
  - destruct (decide (j = i)) as [->|Hne].
    + assert (s = r) as ->. { apply (root_of_det m i); [|by exists k]. exists (S n). by econstructor. }
      exists 1%nat. eapply (root_step _ _ i (set_parent r x)).
      * rewrite lookup_set_parent, decide_True by done. by rewrite Hx.
      * by intros [= E].
      * exact Hroot.
    + destruct IH as [n' IH]. exists (S n'). econstructor; [|exact Hp|exact IH].
      by rewrite lookup_set_parent, decide_False.
Qed.

Lemma same_payload_refl m : same_payload m m.
Proof. split; [done|]. intros i x Hx. by exists x. Qed.

Lemma same_payload_trans m1 m2 m3 : same_payload m1 m2 -> same_payload m2 m3 -> same_payload m1 m3.
Proof.
  intros [L1 H1] [L2 H2]. split; [congruence|]. intros i x Hx.
  destruct (H1 i x Hx) as (y & Hy & ? & ? & ? & ?). destruct (H2 i y Hy) as (z & Hz & ? & ? & ? & ?).
  exists z. split_and!; congruence.
Qed.

Lemma same_payload_set_parent (m : UFManager) (i p : nat) : same_payload m (alter (set_parent p) i m).
Proof.
  split; [by rewrite length_alter|]. intros j x Hx. rewrite lookup_set_parent, Hx.
  case_decide; eexists; by split_and!.
Qed.

(** [find] on an element [n] parents away from its representative. *)
Lemma find_go_ok m n i r fuel :
  root_in m n i r -> (n < fuel)%nat ->
  exists m', find_go fuel m i = Ok (r, m') /\ same_payload m m' /\
    (forall j s, root_of m j s -> root_of m' j s) /\ exists y, m' !! i = Some y /\ parent y = r.
Proof.
  intros H. revert fuel. induction H as [i x Hx Hp|n i x r Hx Hp H IH]; intros fuel Hf;
    (destruct fuel as [|fuel]; [lia|]); cbn [find_go]; unfold get; rewrite Hx; cbn [mbind result_bind].
  - rewrite decide_True by done. exists m. split_and!; eauto using same_payload_refl.
  - rewrite decide_False by done. destruct (IH fuel) as (m' & -> & Hs & Hr & _); [lia|].
    cbn [mbind result_bind fst snd]. eexists. split; [reflexivity|]. split_and!.
    + eapply same_payload_trans; [exact Hs|apply same_payload_set_parent].
    + intros j s Hj. apply Hr in Hj. destruct (decide (i = r)) as [->|Hne].
      * exfalso. pose proof (root_in_root _ _ _ _ H) as (y & Hy & Hpy). simplify_eq.
      * apply compress_root; [|done|done]. apply Hr. exists (S n). by econstructor.
    + destruct Hs as [_ Hs]. destruct (Hs i x Hx) as (y & Hy & _). exists (set_parent r y).
      by rewrite lookup_set_parent, decide_True, Hy.
Qed.

Lemma find_ok m i r :
  root_of m i r -> exists m', find m i = Ok (r, m') /\ same_payload m m' /\
    (forall j s, root_of m j s -> root_of m' j s) /\ exists y, m' !! i = Some y /\ parent y = r.
Proof. intros [n H]. apply (find_go_ok m n i r); [done|by eapply root_in_depth]. Qed.

(** A representative is found at once. *)
Lemma find_root (m : UFManager) i x : m !! i = Some x -> parent x = i -> find m i = Ok (i, m).
Proof.
  intros Hx Hp. unfold find. pose proof (lookup_lt_Some _ _ _ Hx).
  destruct (length m) as [|n]; [lia|]. simpl. unfold get. rewrite Hx. simpl. by rewrite decide_True.
Qed.

(** A single change of payload at one element keeps the classes. *)
Lemma root_of_alter (f : UFElement -> UFElement) (m : UFManager) (i j s : nat) :
  (forall x, parent (f x) = parent x) -> root_of m j s -> root_of (alter f i m) j s.
Proof.
  intros Hf [n H]. exists n.
  assert (Hl : forall k x, m !! k = Some x ->
    exists y, alter f i m !! k = Some y /\ parent y = parent x).
  { intros k x Hx. destruct (decide (k = i)) as [->|].
    - exists (f x). by rewrite list_lookup_alter_eq, Hx.
    - exists x. by rewrite list_lookup_alter_ne. }
  induction H as [k x Hx Hp|n k x r Hx Hp H IH]; destruct (Hl k x Hx) as (y & Hy & E).
  - econstructor; [exact Hy|congruence].
  - econstructor; [exact Hy|congruence|by rewrite E].
Qed.

(** Hanging a representative [b] below another representative [i]. *)
Lemma link_root (m : UFManager) (i b j s : nat) :
  root_of m i i -> root_of m b b -> i <> b -> root_of m j s ->
  root_of (alter (set_parent i) b m) j (if decide (s = b) then i else s).
Proof.
  intros [ni Hi] [nb Hb] Hne [n Hj].
  assert (Hroot : forall r x, m !! r = Some x -> parent x = r -> r <> b ->
    root_in (alter (set_parent i) b m) 0 r r).
  { intros r x Hx Hp Hr. econstructor; [|exact Hp]. by rewrite lookup_set_parent, decide_False. }
  destruct (root_in_root _ _ _ _ Hi) as (xi & Hxi & Hpi).
  destruct (root_in_root _ _ _ _ Hb) as (xb & Hxb & Hpb).
  assert (Hbi : root_in (alter (set_parent i) b m) 1 b i).
  { apply (root_step _ 0 b (set_parent i xb)); [|done|by eapply Hroot].
    by rewrite lookup_set_parent, decide_True, Hxb. }
  induction Hj as [j x Hx Hp|n j x s Hx Hp Hj [n' IH]].
  - case_decide as E; [rewrite E; exists 1%nat; exact Hbi|]. exists 0%nat. by eapply Hroot.
  - exists (S n'). econstructor; [|exact Hp|exact IH]. rewrite lookup_set_parent, decide_False; [done|].
    intros ->. congruence.
Qed.

(** What [join a b] promises when [b] represents its class: the class of [b] goes
    into that of [a], and its constraints to the element [a]. *)
Definition joined (m m' : UFManager) (a i b : nat) : Prop :=
  length m' = length m /\
  (forall j s, root_of m j s -> root_of m' j (if decide (s = b) then i else s)) /\
  (forall j x, m !! j = Some x -> exists y, m' !! j = Some y /\
     uf_arr y = uf_arr x /\ rank y = rank x /\ uf_size y = uf_size x /\
     uf_constraints y =
       if decide (j = b) then []
       else uf_constraints x ++ (if decide (j = a) then from_option uf_constraints [] (m !! b) else [])).

Lemma lookup_joined (m : UFManager) (a b i : nat) (ca : list expr) j x :
  a <> b -> m !! j = Some x ->
  exists y, alter (set_constraints []) b (alter (set_constraints ca) a (alter (set_parent i) b m)) !! j = Some y /\
    uf_arr y = uf_arr x /\ rank y = rank x /\ uf_size y = uf_size x /\
    uf_constraints y = if decide (j = b) then [] else if decide (j = a) then ca else uf_constraints x.
Proof.
  intros Hab Hx. destruct (decide (j = b)) as [->|Hb]; [|destruct (decide (j = a)) as [->|Ha]].
  - rewrite list_lookup_alter_eq, list_lookup_alter_ne, list_lookup_alter_eq, Hx by done. simpl. by eexists.
  - rewrite list_lookup_alter_ne, list_lookup_alter_eq, list_lookup_alter_ne, Hx by done. simpl. by eexists.
  - rewrite !list_lookup_alter_ne, Hx by done. by eexists.
Qed.

Lemma join_ok m a i b xa xb :
  root_of m a i -> root_of m b b -> i <> b ->
  m !! a = Some xa -> m !! b = Some xb -> rank xa = rank xb ->
  exists m', join m a b = Ok (i, m') /\ joined m m' a i b.
Proof.
  intros Ha Hb Hne Hxa Hxb Hrk. assert (Hab : a <> b).
  { intros ->. destruct Hne. by eapply root_of_det. }
  destruct (find_ok m a i Ha) as (m1 & E1 & [L HP] & R1 & ya & Hya & Hpa).
  destruct (HP a xa Hxa) as (? & ? & _ & Rya & _ & Cya). simplify_eq.
  destruct (HP b xb Hxb) as (yb & Hyb & _ & Ryb & _ & Cyb).
  assert (Hpb : parent yb = b).
  { destruct (R1 _ _ Hb) as [n Hn]. destruct (root_in_root _ _ _ _ Hn) as (z & Hz & ?). congruence. }
  unfold join. rewrite E1. cbn [mbind result_bind fst snd].
  rewrite (find_root m1 b yb Hyb Hpb). cbn [mbind result_bind fst snd].
  rewrite decide_False by done. unfold get. rewrite Hya, Hyb. cbn [mbind result_bind].
  rewrite Rya, Ryb, Hrk, Z.leb_refl, Z.eqb_refl. eexists. split; [reflexivity|].
  split_and!; [by rewrite !length_alter| |].
  - intros j s Hj. do 2 (apply root_of_alter; [done|]). apply link_root; auto.
    destruct Ha as [n Ha]. destruct (root_in_root _ _ _ _ Ha) as (x & Hx & Hp).
    apply R1. exists 0%nat. by econstructor.
  - intros j x Hx. destruct (HP j x Hx) as (y & Hy & ? & ? & ? & Cy).
    destruct (lookup_joined m1 a b (parent ya) (uf_constraints ya ++ uf_constraints yb) j y Hab Hy)
      as (z & Hz & ? & ? & ? & Cz).
    exists z. split_and!; try congruence. rewrite Cz. case_decide; [done|]. case_decide.
    + subst. rewrite Hxb. simpl. congruence.
    + by rewrite app_nil_r.
Qed.

(** ** Invariant of the manager

    Every element has a representative and no rank was ever raised. *)
Definition uf_inv (m : UFManager) : Prop := uf_ok m /\ Forall (fun x => rank x = 0) m.

(** All constraints recorded anywhere. *)
Definition all_constraints (m : UFManager) : list expr := concat (map uf_constraints m).

(** Moving one element below an element of another class leaves no element
    without a representative. *)
Lemma relink_root (m : UFManager) (p i b j k s : nat) :
  root_of m p i -> root_of m b j -> i <> j -> root_of m k s ->
  exists s', root_of (alter (set_parent p) b m) k s'.
Proof.
  intros [np Hp] Hb Hij [n Hk].
  assert (Hroot : forall n q r, root_in m n q r -> r <> j -> root_in (alter (set_parent p) b m) n q r).
  { induction 1 as [q x Hx Hq|n' q x r Hx Hq H IH]; intros Hr;
      (econstructor; [|done|..]); auto; rewrite lookup_set_parent, decide_False; try done; intros ->;
      apply Hr; (eapply root_of_det; [|exact Hb]); eexists; by econstructor. }
  induction Hk as [k x Hx Hq|n k x s Hx Hq H [s' [n' IH]]];
    (destruct (decide (k = b)) as [->|Hne];
     [exists i, (S np); econstructor;
        [by rewrite lookup_set_parent, decide_True, Hx| |by apply Hroot]|]).
  - simpl. intros ->. apply Hij. eapply root_of_det; [|exact Hb]. by exists np.
  - exists k, 0%nat. econstructor; [|exact Hq]. by rewrite lookup_set_parent, decide_False.
  - simpl. intros ->. apply Hij. eapply root_of_det; [|exact Hb]. by exists np.
  - exists s', (S n'). econstructor; [|exact Hq|exact IH]. by rewrite lookup_set_parent, decide_False.
Qed.

Lemma uf_ok_alter f (m : UFManager) i :
  (forall x, parent (f x) = parent x) -> uf_ok m -> uf_ok (alter f i m).
Proof.
  intros Hf Hm j Hj. rewrite length_alter in Hj. destruct (Hm j Hj) as [s Hs].
  exists s. by apply root_of_alter.
Qed.

Lemma all_constraints_alter (f : UFElement -> UFElement) (m : UFManager) i x :
  m !! i = Some x ->
  all_constraints (alter f i m) ++ uf_constraints x ≡ₚ all_constraints m ++ uf_constraints (f x).
Proof.
  intros Hx. rewrite <- (take_drop_middle m i x Hx) at 2. rewrite <- (take_drop_middle m i x Hx) at 1.
  pose proof (lookup_lt_Some _ _ _ Hx).
  rewrite alter_app_r_alt by (rewrite length_take; lia).
  replace (i - length (take i m))%nat with 0%nat by (rewrite length_take; lia).
  unfold all_constraints. simpl. rewrite !map_app, !concat_app. simpl. solve_Permutation.
Qed.

Lemma all_constraints_same (m m' : UFManager) : same_payload m m' -> all_constraints m' = all_constraints m.
Proof.
  intros [L H]. unfold all_constraints. f_equal. apply list_eq. intros i.
  rewrite !list_lookup_fmap. destruct (m !! i) as [x|] eqn:E.
  - destruct (H i x E) as (y & -> & _ & _ & _ & Hc). simpl. by rewrite Hc.
  - apply lookup_ge_None in E. rewrite <- L in E. by rewrite (proj2 (lookup_ge_None m' i) E).
Qed.

Lemma Forall_rank_alter f (m : UFManager) i :
  (forall x, rank (f x) = rank x) -> Forall (fun x => rank x = 0) m -> Forall (fun x => rank x = 0) (alter f i m).
Proof.
  intros Hf Hm. apply Forall_lookup. intros j y Hy. rewrite Forall_lookup in Hm.
  destruct (decide (j = i)) as [->|Hne].
  - rewrite list_lookup_alter_eq in Hy. apply fmap_Some in Hy as (x & Hx & ->). rewrite Hf. eauto.
  - rewrite list_lookup_alter_ne in Hy by done. eauto.
Qed.

Lemma find_inv m i :
  uf_inv m -> (i < length m)%nat ->
  exists r m', find m i = Ok (r, m') /\ uf_inv m' /\ length m' = length m /\ root_of m i r /\
    (forall j s, root_of m j s -> root_of m' j s) /\ all_constraints m' = all_constraints m.
Proof.
  intros [Hm Hr] Hi. destruct (Hm i Hi) as [r Hri]. destruct (find_ok m i r Hri) as (m' & E & P & R & _).
  exists r, m'. pose proof P as [L HP]. split_and!; auto using all_constraints_same. split.
  - intros j Hj. rewrite L in Hj. destruct (Hm j Hj) as [s Hs]. eauto.
  - apply Forall_lookup. intros j y Hy. rewrite Forall_lookup in Hr.
    destruct (lookup_lt_is_Some_2 m j) as [x Hx]; [rewrite <- L; by eapply lookup_lt_Some|].
    destruct (HP j x Hx) as (y' & Hy' & _ & Rk & _). simplify_eq. rewrite Rk. eauto.
Qed.

(** [join] always returns and loses no constraint. *)
Lemma join_inv m a b :
  uf_inv m -> (a < length m)%nat -> (b < length m)%nat ->
  exists i m', join m a b = Ok (i, m') /\ uf_inv m' /\ length m' = length m /\ (i < length m)%nat /\
    all_constraints m' ≡ₚ all_constraints m.
Proof.
  intros Hm Ha Hb.
  destruct (find_inv m a Hm Ha) as (i & m1 & E1 & Hm1 & L1 & Ri & R1 & C1).
  destruct (find_inv m1 b Hm1) as (j & m2 & E2 & Hm2 & L2 & Rj & R2 & C2); [by rewrite L1|].
  assert (Hil : (i < length m)%nat) by (destruct Ri as [n Ri]; by apply root_in_lt in Ri as [_ ?]).
  unfold join. rewrite E1. cbn [mbind result_bind fst snd]. rewrite E2. cbn [mbind result_bind fst snd].
  case_decide as Hij.
  { exists i, m2. split_and!; auto; [congruence|]. by rewrite C2, C1. }
  destruct (lookup_lt_is_Some_2 m2 a) as [x Hx]; [lia|].
  destruct (lookup_lt_is_Some_2 m2 b) as [y Hy]; [lia|].
  assert (Hab : a <> b).
  { intros ->. apply Hij. eapply root_of_det; [|exact Rj]. auto. }
  unfold get. rewrite Hx, Hy. cbn [mbind result_bind].
  destruct Hm2 as [Hok2 Hrk2]. pose proof Hrk2 as Hrk. rewrite Forall_lookup in Hrk.
  rewrite (Hrk a x Hx), (Hrk b y Hy). cbn [Z.leb Z.eqb Z.compare].
  eexists i, _. split_and!; [reflexivity| |by rewrite !length_alter; congruence|done|].
  - split; [|by repeat apply Forall_rank_alter]. do 2 (apply uf_ok_alter; [done|]).
    intros k Hk. rewrite length_alter in Hk. destruct (Hok2 k Hk) as [s Hs].
    eapply (relink_root m2 (parent x) i b j); eauto.
    destruct (R2 _ _ (R1 _ _ Ri)) as [n Hn]. inversion Hn as [? z Hz Hp|? ? z ? Hz Hp Hr]; simplify_eq.
    + exists 0%nat. by econstructor.
    + by eexists.
  - set (m3 := alter (set_parent (parent x)) b m2).
    assert (H3a : m3 !! a = Some x) by (unfold m3; by rewrite list_lookup_alter_ne).
    set (m4 := alter (set_constraints (uf_constraints x ++ uf_constraints y)) a m3).
    assert (H4b : m4 !! b = Some (set_parent (parent x) y)).
    { unfold m4, m3. by rewrite list_lookup_alter_ne, list_lookup_alter_eq, Hy. }
    pose proof (all_constraints_alter (set_constraints []) m4 b _ H4b) as P5.
    pose proof (all_constraints_alter (set_constraints (uf_constraints x ++ uf_constraints y)) m3 a x H3a) as P4.
    pose proof (all_constraints_same m2 m3 (same_payload_set_parent m2 b (parent x))) as P3.
    fold m4 in P4. simpl in P5, P4. rewrite P3, C2, C1 in P4. rewrite app_nil_r in P5.
    apply (Permutation_app_inv_r (uf_constraints y)). rewrite P5.
    apply (Permutation_app_inv_r (uf_constraints x)). rewrite P4. solve_Permutation.
Qed.

(** The vector built by [n] calls of [create]. *)
Fixpoint fresh_uf (n : nat) : UFManager :=
  match n with
  | O => []
  | S k => snd (create (fresh_uf k) (Z.of_nat k))
  end.

(** Registering arrays keeps every class and adds a singleton one. *)
Lemma create_root_of (m : UFManager) x j s : root_of m j s -> root_of (create m x).2 j s.
Proof.
  intros [n H]. exists n. simpl. induction H as [j y Hy Hp|n j y s Hy Hp H IH];
    (econstructor; [|done..]); by apply lookup_app_l_Some.
Qed.

Lemma create_new (m : UFManager) x :
  root_of (create m x).2 (length m) (length m).
Proof. exists 0%nat. econstructor; [by apply list_lookup_middle|done]. Qed.

(** [UFManager::create] appends an element that is the representative of a
    class of its own, without constraints, returns its index and leaves the
    existing elements and classes as they are; so a manager in which every
    element has a representative stays so. *)
Lemma create_ok (m : UFManager) (x : Z) (Hm : uf_ok m) :
  let i := (create m x).1 in
  let m' := (create m x).2 in
  m' !! i = Some (UFElement_create x i) /\ m !! i = None /\ root_of m' i i /\
  (forall j y, m !! j = Some y -> m' !! j = Some y) /\
  (forall j s, root_of m j s -> root_of m' j s) /\ uf_ok m'.
Proof.
  simpl. split_and!.
  - by apply list_lookup_middle.
  - by apply lookup_ge_None.
  - apply (create_new m x).
  - intros j y Hy. by apply lookup_app_l_Some.
  - intros j s. apply (create_root_of m x).
  - intros j Hj. rewrite length_app in Hj. simpl in Hj.
    destruct (decide (j = length m)) as [->|]; [exists (length m); apply (create_new m x)|].
    destruct (Hm j) as [r Hr]; [lia|]. exists r. by apply (create_root_of m x).
Qed.

Lemma fresh_uf_inv n : uf_inv (fresh_uf n) /\ length (fresh_uf n) = n.
Proof.
  induction n as [|n [[Hok Hrk] IH]]; simpl.
  - split; [|done]. split; [|constructor]. intros i Hi. simpl in Hi. lia.
  - split; [split|].
    + by apply (create_ok (fresh_uf n) (Z.of_nat n)).
    + apply Forall_app. split; [done|by repeat constructor].
    + rewrite length_app. simpl. lia.
Qed.

(** [UFManager::find] terminates on every element that has a representative
    and returns it; path compression changes no class, no constraint list and no
    other field than the parents, and leaves the element below its
    representative. *)
Theorem find_correct (m : UFManager) (i r : nat) (Hm : uf_ok m) (H : root_of m i r) :
  exists m', find m i = Ok (r, m') /\ same_payload m m' /\ uf_ok m' /\
    (forall j s, root_of m' j s <-> root_of m j s) /\
    exists y, m' !! i = Some y /\ parent y = r.
Proof.
  destruct (find_ok m i r H) as (m' & E & P & R & Hy). exists m'.
  split_and!; try done.
  - intros j Hj. destruct P as [L _]. rewrite L in Hj. destruct (Hm j Hj) as [s Hs]. eauto.
  - intros j s. split; [|by apply R]. intros Hs. destruct (Hm j) as [s' Hs'].
    + destruct P as [<- _]. destruct Hs as [n Hs]. by apply root_in_lt in Hs as [? _].
    + by rewrite (root_of_det m' j s s' Hs (R _ _ Hs')).
Qed.

(** Four arrays in a chain 3 -> 2 -> 1, and 0 alone. *)
Definition chain : UFManager := alter (set_parent 2) 3%nat (alter (set_parent 1) 2%nat (fresh_uf 4)).

Lemma chain_root_1 : root_in chain 0 1 1.
Proof. by econstructor. Qed.
Lemma chain_root_2 : root_in chain 1 2 1.
Proof. econstructor; [done|done|apply chain_root_1]. Qed.
Lemma chain_root_3 : root_in chain 2 3 1.
Proof. econstructor; [done|done|apply chain_root_2]. Qed.

Lemma chain_ok : uf_ok chain.
Proof.
  intros i Hi. simpl in Hi.
  destruct i as [|[|[|[|i]]]]; [exists 0%nat, 0%nat; by econstructor|eexists; eexists..|lia].
  - apply chain_root_1.
  - apply chain_root_2.
  - apply chain_root_3.
Qed.

Lemma find_correct_witness :
  exists m', find chain 3 = Ok (1%nat, m') /\ (parent <$> m' !! 3%nat) = Some 1%nat.
Proof.
  destruct (find_correct chain 3 1 chain_ok (ex_intro _ _ chain_root_3)) as (m' & E & _ & _ & _ & y & Hy & Hp).
  exists m'. split; [exact E|]. rewrite Hy. simpl. by rewrite Hp.
Defined.

(** [UFManager::join a b] when [b] represents its class, [a] is in the class
    of another representative [i] and the two ranks are equal (they always are:
    no operation changes a rank): it returns [i], the two classes and no others
    are united under [i], every element keeps a representative, the constraints
    of [b] are appended to those of the element [a] and [b] has none left, and no
    other constraint list changes. *)
Theorem join_representatives (m : UFManager) (a i b : nat) (xa xb : UFElement)
    (Hm : uf_ok m) (Ha : root_of m a i) (Hb : root_of m b b) (Hne : i <> b)
    (Hxa : m !! a = Some xa) (Hxb : m !! b = Some xb) (Hrk : rank xa = rank xb) :
  exists m', join m a b = Ok (i, m') /\ joined m m' a i b /\ uf_ok m'.
Proof.
  destruct (join_ok m a i b xa xb) as (m' & E & J); try done. exists m'. split_and!; try done.
  destruct J as (L & R & _). intros j Hj. rewrite L in Hj. destruct (Hm j Hj) as [s Hs]. eauto.
Qed.

Lemma join_representatives_witness :
  exists m', join chain 3 0 = Ok (1%nat, m') /\ root_of m' 0 1.
Proof.
  destruct (join_representatives chain 3 1 0 {| parent := 2; uf_arr := 3; rank := 0; uf_size := 1; uf_constraints := [] |}
    (UFElement_create 0 0) chain_ok) as (m' & E & (_ & R & _) & _); try done.
  - by exists 2%nat; apply chain_root_3.
  - by exists 0%nat; eapply root_here.
  - exists m'. split; [exact E|]. apply (R 0%nat 0%nat). by exists 0%nat; eapply root_here.
Defined.

(** When the second argument is not a representative, [join] moves that
    single element instead of its class: after [join 0 1] and [join 2 1] the
    arrays 0 and 1, related by a constraint, are in different classes, and the
    constraint recorded for the class of 0 and 1 is no longer found from 1. *)
Theorem join_splits_class :
  exists m1 m2, join (fresh_uf 3) 0 1 = Ok (0%nat, m1) /\ fst <$> find m1 1 = Ok 0%nat /\
    join m1 2 1 = Ok (2%nat, m2) /\ fst <$> find m2 0 = Ok 0%nat /\ fst <$> find m2 1 = Ok 2%nat.
Proof. do 2 eexists. split_and!; vm_compute; reflexivity. Qed.

Lemma filter_other (m : UFManager) x :
  Forall (fun z => uf_arr z <> x) m -> filter (fun z => uf_arr z <> x) m = m.
Proof. induction 1 as [|z m Hz Hm IH]; [done|]. by rewrite filter_cons_True, IH. Qed.

(** [UFManager::destroy] of a registered array removes its element and moves
    the later ones down by one, so that their indices, which the arrays keep, and
    the parents no longer name them; of an array that is not registered it erases
    the end iterator. *)
Theorem destroy_behaviour (m1 m2 : UFManager) (e : UFElement) (x : Z)
    (H1 : Forall (fun z => uf_arr z <> x) m1) (H2 : Forall (fun z => uf_arr z <> x) m2)
    (He : uf_arr e = x) :
  destroy (m1 ++ e :: m2) x = Ok (m1 ++ m2) /\ destroy (m1 ++ m2) x = AssertFail.
Proof.
  unfold destroy. rewrite !filter_app, filter_cons_False, !filter_other by (done || naive_solver). split.
  - rewrite length_app, drop_app_add by done.
    destruct (drop (length m2) (e :: m2)) as [|z rest] eqn:E.
    + apply (f_equal length) in E. rewrite length_drop in E. simpl in E. lia.
    + assert (rest = []) as ->.
      { apply (f_equal length) in E. rewrite length_drop in E. simpl in E.
        destruct rest; simpl in E; [done|lia]. }
      by rewrite app_nil_r.
  - by rewrite drop_all.
Qed.

Lemma destroy_behaviour_witness :
  destroy (fresh_uf 3) 1 = Ok [UFElement_create 0 0; UFElement_create 2 2].
Proof.
  apply (destroy_behaviour [UFElement_create 0 0] [UFElement_create 2 2] (UFElement_create 1 1) 1);
    repeat constructor; done.
Defined.
