(* ===== verification/ArrayCache.v ===== *)
(** * ArrayCache: the arrays of the program under test

    Models [Array::Array] and [Array::~Array] of [klee/lib/Expr/Expr.cpp] and
    [ArrayCache] of [klee/lib/Expr/ArrayCache.cpp].  Constructing an array
    registers it with the union-find managers, destroying it unregisters it.  The
    address of a new object is a parameter; so is the value of [UFE_Cheat] when
    the constructor leaves it uninitialised. *)

From S2P Require Import Prelude APInt ExprData Samples UnionFind.
Local Open Scope Z_scope.

Record ACState := {
  cachedSymbolicArrays : list Array;
  concreteArrays : list Array;
  ac_uf : UFManager;
  ac_uf_cheat : UFManager;
}.

Definition with_managers (m mc : UFManager) (st : ACState) : ACState :=
  {| cachedSymbolicArrays := cachedSymbolicArrays st; concreteArrays := concreteArrays st;
     ac_uf := m; ac_uf_cheat := mc |}.
Definition cache_array (a : Array) (st : ACState) : ACState :=
  {| cachedSymbolicArrays := cachedSymbolicArrays st ++ [a]; concreteArrays := concreteArrays st;
     ac_uf := ac_uf st; ac_uf_cheat := ac_uf_cheat st |}.
Definition keep_concrete (a : Array) (st : ACState) : ACState :=
  {| cachedSymbolicArrays := cachedSymbolicArrays st; concreteArrays := concreteArrays st ++ [a];
     ac_uf := ac_uf st; ac_uf_cheat := ac_uf_cheat st |}.

Section cache.
Variable useCheatCons : bool.
Variable uninitialised : nat.

(** [new Array(...)] at the address [addr] *)
Definition Array_new (addr : Z) (name : string) (size : Z) (values : list apint) (dom rng : Z)
    (st : ACState) : result (Array * ACState) :=
  let '(ufe, m) := create (ac_uf st) addr in
  let '(ufe_cheat, mc) :=
    if useCheatCons then create (ac_uf_cheat st) addr else (uninitialised, ac_uf_cheat st) in
  let a := {| arr_addr := addr; ExprData.name := name; UFE := ufe; UFE_Cheat := ufe_cheat;
              arr_size := size; domain := dom; range := rng; constantValues := values |} in
  _ ← massert (isSymbolicArray a || (Z.of_nat (length values) =? size));
  _ ← massert (forallb (fun c => bw c =? rng) values);
  Ok (a, with_managers m mc st).

(** [Array::~Array] *)
Definition Array_delete (a : Array) (st : ACState) : result ACState :=
  m ← destroy (ac_uf st) (arr_addr a);
  mc ← destroy (ac_uf_cheat st) (arr_addr a);
  Ok (with_managers m mc st).

(** [EquivArrayCmpFn] *)
Definition EquivArrayCmp (a b : Array) : bool :=
  (arr_size a =? arr_size b) && bool_decide (name a = name b).

(** [cachedSymbolicArrays.find] *)
Definition cache_find (cache : list Array) (a : Array) : option Array :=
  snd <$> list_find (fun b => EquivArrayCmp b a = true) cache.

Definition CreateArray (addr : Z) (name : string) (size : Z) (values : list apint) (dom rng : Z)
    (st : ACState) : result (Array * ACState) :=
  p ← Array_new addr name size values dom rng st;
  let '(array, st) := p in
  if isSymbolicArray array then
    match cache_find (cachedSymbolicArrays st) array with
    | None => Ok (array, cache_array array st)
    | Some cached =>
        st ← Array_delete array st;
        _ ← massert (isSymbolicArray cached);
        Ok (cached, st)
    end
  else
    _ ← massert (isConstantArray array);
    Ok (array, keep_concrete array st).

(** [ArrayCache::~ArrayCache] *)
Fixpoint delete_all (l : list Array) (st : ACState) : result ACState :=
  match l with
  | [] => Ok st
  | a :: l' => st ← Array_delete a st; delete_all l' st
  end.
Definition ArrayCache_delete (st : ACState) : result ACState :=
  st ← delete_all (cachedSymbolicArrays st) st; delete_all (concreteArrays st) st.
End cache.

(** ** Invariant

    The arrays of the cache are symbolic and pairwise distinguished by name and
    size, and every array is registered under its address. *)
Definition registered_at (m : UFManager) (i : nat) (a : Array) : Prop :=
  exists x, m !! i = Some x /\ uf_arr x = arr_addr a.

Record ac_inv (st : ACState) : Prop := {
  ac_symbolic : Forall (fun a => isSymbolicArray a = true) (cachedSymbolicArrays st);
  ac_distinct : forall i j a b, cachedSymbolicArrays st !! i = Some a ->
    cachedSymbolicArrays st !! j = Some b -> EquivArrayCmp a b = true -> i = j;
  ac_constant : Forall (fun a => isConstantArray a = true) (concreteArrays st);
  ac_registered : Forall (fun a => registered_at (ac_uf st) (UFE a) a /\
    registered_at (ac_uf_cheat st) (UFE_Cheat a) a) (cachedSymbolicArrays st ++ concreteArrays st);
}.

(** No live array has the address. *)
Definition fresh_addr (addr : Z) (m : UFManager) : Prop := Forall (fun x => uf_arr x <> addr) m.

Lemma destroy_last (m : UFManager) addr :
  fresh_addr addr m -> destroy (create m addr).2 addr = Ok m.
Proof.
  intros H. unfold destroy, create. cbn [snd].
  rewrite filter_app, filter_cons_False, filter_nil, app_nil_r, filter_other by (done || naive_solver).
  by rewrite drop_app_length, app_nil_r.
Qed.

Lemma destroy_fresh (m : UFManager) addr : fresh_addr addr m -> destroy m addr = AssertFail.
Proof.
  intros H. unfold destroy. by rewrite filter_other, drop_all.
Qed.

Lemma cache_find_Some cache a b :
  cache_find cache a = Some b -> b ∈ cache /\ name b = name a /\ arr_size b = arr_size a.
Proof.
  unfold cache_find. intros ([i x] & Hf & ->)%fmap_Some. apply list_find_Some in Hf as (Hi & He & _).
  split; [by eapply list_elem_of_lookup_2|]. unfold EquivArrayCmp in He.
  apply andb_true_iff in He as [He%Z.eqb_eq Hn%bool_decide_eq_true]. done.
Qed.

(** The symbolic array the constructor makes. *)
Definition symbolic_array (useCheatCons : bool) (garbage : nat) addr nm size dom rng (st : ACState) : Array :=
  {| arr_addr := addr; name := nm; UFE := length (ac_uf st);
     UFE_Cheat := if useCheatCons then length (ac_uf_cheat st) else garbage;
     arr_size := size; domain := dom; range := rng; constantValues := [] |}.

Lemma Array_new_symbolic useCheatCons garbage addr nm size dom rng st :
  Array_new useCheatCons garbage addr nm size [] dom rng st =
    Ok (symbolic_array useCheatCons garbage addr nm size dom rng st,
        with_managers (create (ac_uf st) addr).2
          (if useCheatCons then (create (ac_uf_cheat st) addr).2 else ac_uf_cheat st) st).
Proof. by destruct useCheatCons. Qed.

(** With the cheat managers in use, creating a symbolic array of a name and
    size already in the cache returns the cached array and leaves the cache and
    both union-find managers as they were: the object made for the look-up has
    been registered and unregistered again. *)
Theorem CreateArray_hit (addr : Z) (nm : string) (size dom rng : Z) (garbage : nat)
    (st : ACState) (cached : Array)
    (Hst : ac_inv st) (Ha : fresh_addr addr (ac_uf st)) (Hac : fresh_addr addr (ac_uf_cheat st))
    (Hc : cached ∈ cachedSymbolicArrays st) (Hn : name cached = nm) (Hs : arr_size cached = size) :
  CreateArray true garbage addr nm size [] dom rng st = Ok (cached, st).
Proof.
  unfold CreateArray. rewrite Array_new_symbolic. cbn [mbind result_bind].
  set (a := symbolic_array _ _ _ _ _ _ _ _). change (isSymbolicArray a) with true. cbn match.
  destruct (cache_find (cachedSymbolicArrays st) a) as [b|] eqn:E; cbn [with_managers cachedSymbolicArrays]; rewrite E.
  - apply cache_find_Some in E as (Hb & En & Es).
    assert (b = cached) as ->.
    { apply list_elem_of_lookup in Hb as [i Hi]. apply list_elem_of_lookup in Hc as [j Hj].
      assert (i = j) as ->; [|congruence]. eapply (ac_distinct st Hst); try done.
      unfold EquivArrayCmp. apply andb_true_iff. rewrite Z.eqb_eq, bool_decide_eq_true. simpl in En, Es. split; congruence. }
    unfold Array_delete. cbn [with_managers ac_uf ac_uf_cheat arr_addr a symbolic_array].
    rewrite (destroy_last (ac_uf st)) by done. cbn [mbind result_bind].
    rewrite (destroy_last (ac_uf_cheat st)) by done. cbn [mbind result_bind].
    pose proof (ac_symbolic st Hst) as Hsym. rewrite Forall_forall in Hsym. rewrite (Hsym _ Hc). by destruct st.
  - exfalso. unfold cache_find in E. apply fmap_None, list_find_None in E. rewrite Forall_forall in E.
    apply (E cached Hc). unfold EquivArrayCmp. apply andb_true_iff. rewrite Z.eqb_eq, bool_decide_eq_true. done.
Qed.

(** A cache holding [buf], and a request for its name and size. *)
Definition buf_cached : ACState :=
  {| cachedSymbolicArrays := [buf]; concreteArrays := [];
     ac_uf := (create [] (arr_addr buf)).2; ac_uf_cheat := (create [] (arr_addr buf)).2 |}.

Lemma buf_cached_inv : ac_inv buf_cached.
Proof.
  split; simpl.
  - by repeat constructor.
  - intros i j a b Hi Hj _. destruct i, j; try done; simpl in *; simplify_eq.
  - constructor.
  - constructor; [|constructor]. split; by eexists.
Qed.

Lemma CreateArray_hit_witness :
  CreateArray true 0 12288 "buf" 8 [] Int32 Int8 buf_cached = Ok (buf, buf_cached).
Proof.
  apply (CreateArray_hit 12288 "buf" 8 Int32 Int8 0 buf_cached buf);
    [apply buf_cached_inv|by repeat constructor|by repeat constructor|by left|done|done].
Defined.

Lemma registered_at_create (m : UFManager) i a addr :
  registered_at m i a -> registered_at (create m addr).2 i a.
Proof. intros (x & Hx & E). exists x. split; [by apply lookup_app_l_Some|done]. Qed.

Lemma registered_at_new (m : UFManager) a :
  registered_at (create m (arr_addr a)).2 (length m) a.
Proof. exists (UFElement_create (arr_addr a) (length m)). split; [by apply list_lookup_middle|done]. Qed.

(** With the cheat managers in use, creating a symbolic array of a name and
    size not in the cache caches and returns a new array of the requested shape,
    registered in both managers; the arrays of the cache stay distinguished by
    name and size, and registered. *)
Theorem CreateArray_miss (addr : Z) (nm : string) (size dom rng : Z) (garbage : nat) (st : ACState)
    (Hst : ac_inv st)
    (Hc : Forall (fun b => ~ (name b = nm /\ arr_size b = size)) (cachedSymbolicArrays st)) :
  exists a st', CreateArray true garbage addr nm size [] dom rng st = Ok (a, st') /\ ac_inv st' /\
    cachedSymbolicArrays st' = cachedSymbolicArrays st ++ [a] /\
    arr_addr a = addr /\ name a = nm /\ arr_size a = size /\ domain a = dom /\ range a = rng /\
    isSymbolicArray a = true.
Proof.
  unfold CreateArray. rewrite Array_new_symbolic. cbn [mbind result_bind].
  set (a := symbolic_array _ _ _ _ _ _ _ _). change (isSymbolicArray a) with true. cbn match.
  assert (Hdiff : forall b, b ∈ cachedSymbolicArrays st -> EquivArrayCmp b a = true -> False).
  { intros b Hb He. rewrite Forall_forall in Hc. apply (Hc b Hb). unfold EquivArrayCmp in He.
    apply andb_true_iff in He as [He%Z.eqb_eq Hn%bool_decide_eq_true]. done. }
  destruct (cache_find (cachedSymbolicArrays st) a) as [b|] eqn:E; cbn [with_managers cachedSymbolicArrays]; rewrite E.
  { exfalso. apply cache_find_Some in E as (Hb & En & Es). rewrite Forall_forall in Hc. by apply (Hc b Hb). }
  eexists a, _. split; [reflexivity|]. split; [|done]. destruct Hst as [Hsym Hdis Hcon Hreg].
  split; cbn [cache_array with_managers cachedSymbolicArrays concreteArrays ac_uf ac_uf_cheat].
  - apply Forall_app. split; [done|by repeat constructor].
  - intros i j x y Hi Hj He. apply lookup_app_Some in Hi, Hj.
    destruct Hi as [Hi|[Hli Hi]], Hj as [Hj|[Hlj Hj]]; [by eapply Hdis|..];
      repeat match goal with H : [a] !! _ = Some _ |- _ => apply list_lookup_singleton_Some in H as [? <-] end; [..|lia].
    + exfalso. eapply Hdiff; [by eapply list_elem_of_lookup_2|done].
    + exfalso. eapply Hdiff; [by eapply list_elem_of_lookup_2|].
      unfold EquivArrayCmp in *. rewrite Z.eqb_sym. apply andb_true_iff in He as [-> He%bool_decide_eq_true].
      apply bool_decide_eq_true. by rewrite He.
  - done.
  - rewrite <- app_assoc. rewrite Forall_app in *. destruct Hreg as [H1 H2]. split; [|constructor].
    + eapply Forall_impl; [exact H1|]. intros x [? ?]. split; by apply registered_at_create.
    + split; [apply (registered_at_new (ac_uf st) a)|apply (registered_at_new (ac_uf_cheat st) a)].
    + eapply Forall_impl; [exact H2|]. intros x [? ?]. split; by apply registered_at_create.
Qed.

Lemma CreateArray_miss_witness :
  exists a st', CreateArray true 0 12288 "tmp" 8 [] Int32 Int8 buf_cached = Ok (a, st') /\
    cachedSymbolicArrays st' = [buf; a].
Proof.
  destruct (CreateArray_miss 12288 "tmp" 8 Int32 Int8 0 buf_cached buf_cached_inv) as (a & st' & E & _ & Hl & _).
  - constructor; [|constructor]. by intros [? _].
  - exists a, st'. split; [exact E|exact Hl].
Defined.

(** When the cheat managers are not in use, a cache hit is undefined: the
    temporary object was registered with one manager only, but its destructor
    unregisters it from both, which erases the end iterator. *)
Theorem CreateArray_hit_no_cheat (addr : Z) (nm : string) (size dom rng : Z) (garbage : nat)
    (st : ACState) (cached : Array) (Hac : fresh_addr addr (ac_uf_cheat st))
    (Hc : cached ∈ cachedSymbolicArrays st) (Hn : name cached = nm) (Hs : arr_size cached = size) :
  CreateArray false garbage addr nm size [] dom rng st = AssertFail.
Proof.
  unfold CreateArray. rewrite Array_new_symbolic. cbn [mbind result_bind].
  set (a := symbolic_array _ _ _ _ _ _ _ _). change (isSymbolicArray a) with true. cbn match.
  destruct (cache_find (cachedSymbolicArrays st) a) as [b|] eqn:E; cbn [with_managers cachedSymbolicArrays]; rewrite E.
  - unfold Array_delete. cbn [with_managers ac_uf ac_uf_cheat arr_addr a symbolic_array].
    rewrite (destroy_fresh (ac_uf_cheat st)) by done.
    destruct (destroy (create (ac_uf st) addr).2 addr) eqn:Ed; try done.
    unfold destroy in Ed. by case_match.
  - exfalso. unfold cache_find in E. apply fmap_None, list_find_None in E. rewrite Forall_forall in E.
    apply (E cached Hc). unfold EquivArrayCmp. apply andb_true_iff. rewrite Z.eqb_eq, bool_decide_eq_true. done.
Qed.

Lemma CreateArray_hit_no_cheat_witness :
  CreateArray false 0 12288 "buf" 8 [] Int32 Int8 buf_cached = AssertFail.
Proof.
  apply (CreateArray_hit_no_cheat 12288 "buf" 8 Int32 Int8 0 buf_cached buf);
    [by repeat constructor|by left|done|done].
Defined.

(** The cache compares name and size only: a request for an array indexed by
    64 bits with elements of 32 bits is answered with the cached array of bytes
    indexed by 32 bits. *)
Theorem CreateArray_ignores_shape :
  exists a st', CreateArray true 0 12288 "buf" 8 [] Int64 Int32 buf_cached = Ok (a, st') /\
    domain a = Int32 /\ range a = Int8.
Proof. do 2 eexists. split; [vm_compute; reflexivity|done]. Qed.
