(* ===== verification/ExprBuilder.v ===== *)
(** * ExprBuilder: interchangeable factories of expressions

    Models [klee/lib/Expr/ExprBuilder.cpp].  [ExprBuilder] is an abstract class;
    here it is a record of methods.  [DefaultExprBuilder] allocates the plain
    node.  [ConstantSpecializedExprBuilder<S>] folds constant operands itself and
    dispatches the rest to a helper [S], which may call back the builder it is
    part of ([Builder->], open recursion) or the one below ([Base->]).
    [ConstantFoldingBuilder] and [SimplifyingBuilder] are the two helpers; what
    they do not define they inherit from [ChainedBuilder], which forwards to the
    base.  [BuilderSpec] states what a builder promises; it is proved of the
    default builder, and of either specialised builder over a base that keeps it. *)

From S2P Require Import Prelude APInt ExprData Samples Bits ExprCompare ExprCreate ExprCreateSound ExprStructSound ExprVisitor.
Local Open Scope Z_scope.

(** The virtual methods; [bBin k] is the method of the binary kind [k]. *)
Record ExprBuilder := {
  bConstant : apint -> result expr;
  bNotOptimized : expr -> result expr;
  bRead : UpdateList -> expr -> result expr;
  bSelect : expr -> expr -> expr -> result expr;
  bConcat : expr -> expr -> result expr;
  bExtract : expr -> Z -> Z -> result expr;
  bZExt : expr -> Z -> result expr;
  bSExt : expr -> Z -> result expr;
  bNot : expr -> result expr;
  bBin : Kind.bin -> expr -> expr -> result expr;
}.

(** ** DefaultExprBuilder *)
Definition Default_bin (k : Kind.bin) (l r : expr) : result expr := Ok (BinExpr k l r).

Definition DefaultExprBuilder : ExprBuilder := {|
  bConstant := fun v => Ok (ConstantExpr v);
  bNotOptimized := fun e => Ok (NotOptimizedExpr e);
  bRead := fun ul i => Ok (ReadExpr (ul_root ul) (ul_head ul) i);
  bSelect := fun c t f => Ok (SelectExpr c t f);
  bConcat := fun l r => Ok (ConcatExpr l r);
  bExtract := fun e o w => Ok (ExtractExpr e o w);
  bZExt := fun e w => Ok (ZExtExpr e w);
  bSExt := fun e w => Ok (SExtExpr e w);
  bNot := fun e => Ok (NotExpr e);
  bBin := Default_bin;
|}.

(** ** ChainedBuilder: every method is that of the base *)
Definition ChainedBuilder (Base : ExprBuilder) : ExprBuilder := {|
  bConstant := fun v => bConstant Base v;
  bNotOptimized := fun e => bNotOptimized Base e;
  bRead := fun ul i => bRead Base ul i;
  bSelect := fun c t f => bSelect Base c t f;
  bConcat := fun l r => bConcat Base l r;
  bExtract := fun e o w => bExtract Base e o w;
  bZExt := fun e w => bZExt Base e w;
  bSExt := fun e w => bSExt Base e w;
  bNot := fun e => bNot Base e;
  bBin := fun k l r => bBin Base k l r;
|}.

Section builders.
Context {AP : APIntOps}.

(** ** ConstantSpecializedExprBuilder

    [hBin] and [hNot] are the methods of the helper; every other method of both
    helpers is inherited: [Base] is then the [ChainedBuilder] below them. *)
Section specialized.
Variables (hBin : Kind.bin -> expr -> expr -> result expr) (hNot : expr -> result expr).
Variable Base : ExprBuilder.

Definition Spec_bin (k : Kind.bin) (l r : expr) : result expr :=
  match l, r with
  | ConstantExpr LCE, ConstantExpr RCE => c ← CE_op k LCE RCE; Ok (ConstantExpr c)
  | _, _ => hBin k l r
  end.

Definition Spec_Not (e : expr) : result expr :=
  match e with
  | NotExpr e' => Ok e'
  | ConstantExpr CE => Ok (ConstantExpr (CE_Not CE))
  | _ => hNot e
  end.

(** [while (UN && Eq(Index, UN->index)->isFalse()) UN = UN->next] *)
Fixpoint Spec_rollback (index : expr) (un : UpdateNode) : result UpdateNode :=
  match un with
  | NullNode => Ok NullNode
  | Node next ui _ =>
      e ← Spec_bin Kind.Eq index ui;
      f ← Expr_isFalse e;
      if f : bool then Spec_rollback index next else Ok un
  end.

Definition Spec_Read (ul : UpdateList) (index : expr) : result expr :=
  un ← Spec_rollback index (ul_head ul);
  bRead Base {| ul_root := ul_root ul; ul_head := un |} index.

Definition Spec_Select (c t f : expr) : result expr :=
  match c with
  | ConstantExpr CE => Ok (if CE_isTrue CE then t else f)
  | _ => bSelect Base c t f
  end.

Definition Spec_Concat (l r : expr) : result expr :=
  match l, r with
  | ConstantExpr LCE, ConstantExpr RCE => Ok (ConstantExpr (CE_Concat LCE RCE))
  | _, _ => bConcat Base l r
  end.

Definition Spec_Extract (e : expr) (off w : Z) : result expr :=
  match e with
  | ConstantExpr CE => Ok (ConstantExpr (CE_Extract CE off w))
  | _ => bExtract Base e off w
  end.

Definition Spec_ZExt (e : expr) (w : Z) : result expr :=
  match e with
  | ConstantExpr CE => Ok (ConstantExpr (CE_ZExt CE w))
  | _ => bZExt Base e w
  end.

Definition Spec_SExt (e : expr) (w : Z) : result expr :=
  match e with
  | ConstantExpr CE => Ok (ConstantExpr (CE_SExt CE w))
  | _ => bSExt Base e w
  end.

Definition ConstantSpecializedExprBuilder : ExprBuilder := {|
  bConstant := bConstant Base;
  bNotOptimized := bNotOptimized Base;
  bRead := Spec_Read;
  bSelect := Spec_Select;
  bConcat := Spec_Concat;
  bExtract := Spec_Extract;
  bZExt := Spec_ZExt;
  bSExt := Spec_SExt;
  bNot := Spec_Not;
  bBin := Spec_bin;
|}.
End specialized.

(** [dyn_cast<ConstantExpr>(e)] *)
Definition dyn_const (e : expr) : option apint :=
  match e with ConstantExpr c => Some c | _ => None end.

(** ** ConstantFoldingBuilder: [Add] and [Sub] are those of [Builder] *)
Section folding.
Variables (Base : ExprBuilder) (Add Sub : expr -> expr -> result expr).

(** [Add(ConstantExpr, NonConstantExpr)] *)
Definition CF_Add_c (LHS : apint) (RHS : expr) : result expr :=
  let plain := bBin Base Kind.Add (ConstantExpr LHS) RHS in
  if CE_isZero LHS then Ok RHS
  else
    match RHS with
    | BinExpr Kind.Add lhs rhs =>
        match dyn_const lhs, dyn_const rhs with
        | Some CE, _ => Add (ConstantExpr (CE_Add LHS CE)) rhs
        | None, Some CE => Add (ConstantExpr (CE_Add LHS CE)) lhs
        | None, None => plain
        end
    | BinExpr Kind.Sub lhs rhs =>
        match dyn_const lhs, dyn_const rhs with
        | Some CE, _ => Sub (ConstantExpr (CE_Add LHS CE)) rhs
        | None, Some CE => Add (ConstantExpr (CE_Sub LHS CE)) lhs
        | None, None => plain
        end
    | _ => plain
    end.

(** [Add(NonConstantExpr, NonConstantExpr)]: the switch on the right operand, *)
Definition CF_Add_r (LHS RHS : expr) : result expr :=
  let plain := bBin Base Kind.Add LHS RHS in
  match RHS with
  | BinExpr Kind.Add lhs rhs =>
      match dyn_const lhs, dyn_const rhs with
      | Some CE, _ => x ← Add LHS rhs; Add (ConstantExpr CE) x
      | None, Some CE => x ← Add LHS lhs; Add (ConstantExpr CE) x
      | None, None => plain
      end
  | BinExpr Kind.Sub lhs rhs =>
      match dyn_const lhs, dyn_const rhs with
      | Some CE, _ => x ← Sub LHS rhs; Add (ConstantExpr CE) x
      | None, Some CE => x ← Add LHS lhs; Add (ConstantExpr (CE_Neg CE)) x
      | None, None => plain
      end
  | _ => plain
  end.
(** which follows the one on the left operand. *)
Definition CF_Add (LHS RHS : expr) : result expr :=
  match LHS with
  | BinExpr Kind.Add lhs rhs => x ← Add rhs RHS; Add lhs x
  | BinExpr Kind.Sub lhs rhs => x ← Sub RHS rhs; Add lhs x
  | _ => CF_Add_r LHS RHS
  end.

(** [Sub(ConstantExpr, NonConstantExpr)] *)
Definition CF_Sub_c (LHS : apint) (RHS : expr) : result expr :=
  let plain := bBin Base Kind.Sub (ConstantExpr LHS) RHS in
  match RHS with
  | BinExpr Kind.Add lhs rhs =>
      match dyn_const lhs, dyn_const rhs with
      | Some CE, _ => Sub (ConstantExpr (CE_Sub LHS CE)) rhs
      | None, Some CE => Sub (ConstantExpr (CE_Sub LHS CE)) lhs
      | None, None => plain
      end
  | BinExpr Kind.Sub lhs rhs =>
      match dyn_const lhs, dyn_const rhs with
      | Some CE, _ => Add (ConstantExpr (CE_Sub LHS CE)) rhs
      | None, Some CE => Sub (ConstantExpr (CE_Add LHS CE)) lhs
      | None, None => plain
      end
  | _ => plain
  end.

(** [Sub(NonConstantExpr, NonConstantExpr)], in the same two parts *)
Definition CF_Sub_r (LHS RHS : expr) : result expr :=
  let plain := bBin Base Kind.Sub LHS RHS in
  match RHS with
  | BinExpr Kind.Add lhs rhs =>
      match dyn_const lhs, dyn_const rhs with
      | Some CE, _ => x ← Sub LHS rhs; Add (ConstantExpr (CE_Neg CE)) x
      | None, Some CE => x ← Sub LHS lhs; Add (ConstantExpr (CE_Neg CE)) x
      | None, None => plain
      end
  | BinExpr Kind.Sub lhs rhs =>
      match dyn_const lhs, dyn_const rhs with
      | Some CE, _ => x ← Add LHS rhs; Add (ConstantExpr (CE_Neg CE)) x
      | None, Some CE => x ← Sub LHS lhs; Add (ConstantExpr CE) x
      | None, None => plain
      end
  | _ => plain
  end.
Definition CF_Sub (LHS RHS : expr) : result expr :=
  match LHS with
  | BinExpr Kind.Add lhs rhs => x ← Sub rhs RHS; Add lhs x
  | BinExpr Kind.Sub lhs rhs => x ← Add rhs RHS; Sub lhs x
  | _ => CF_Sub_r LHS RHS
  end.

Definition CF_Mul_c (LHS : apint) (RHS : expr) : result expr :=
  if CE_isZero LHS then Ok (ConstantExpr LHS)
  else if CE_isOne LHS then Ok RHS
  else bBin Base Kind.Mul (ConstantExpr LHS) RHS.
Definition CF_And_c (LHS : apint) (RHS : expr) : result expr :=
  if CE_isZero LHS then Ok (ConstantExpr LHS)
  else if CE_isAllOnes LHS then Ok RHS
  else bBin Base Kind.And (ConstantExpr LHS) RHS.
Definition CF_Or_c (LHS : apint) (RHS : expr) : result expr :=
  if CE_isZero LHS then Ok RHS
  else if CE_isAllOnes LHS then Ok (ConstantExpr LHS)
  else bBin Base Kind.Or (ConstantExpr LHS) RHS.
Definition CF_Xor_c (LHS : apint) (RHS : expr) : result expr :=
  if CE_isZero LHS then Ok RHS
  else bBin Base Kind.Xor (ConstantExpr LHS) RHS.
Definition CF_Eq_c (LHS : apint) (RHS : expr) : result expr :=
  if bw LHS =? Bool then
    if CE_isTrue LHS then Ok RHS else bNot Base RHS
  else bBin Base Kind.Eq (ConstantExpr LHS) RHS.

(** The overloads: the constant operand is moved to the left. *)
Definition comm_bin (k : Kind.bin) (on_const : apint -> expr -> result expr) (l r : expr) : result expr :=
  match dyn_const l, dyn_const r with
  | Some c, _ => on_const c r
  | None, Some c => on_const c l
  | None, None => bBin Base k l r
  end.

Definition CF_bin (k : Kind.bin) (l r : expr) : result expr :=
  match k with
  | Kind.Add =>
      match dyn_const l, dyn_const r with
      | Some c, _ => CF_Add_c c r
      | None, Some c => CF_Add_c c l
      | None, None => CF_Add l r
      end
  | Kind.Sub =>
      match dyn_const l, dyn_const r with
      | Some c, _ => CF_Sub_c c r
      | None, Some c => CF_Add_c (CE_Neg c) l
      | None, None => CF_Sub l r
      end
  | Kind.Mul => comm_bin Kind.Mul CF_Mul_c l r
  | Kind.And => comm_bin Kind.And CF_And_c l r
  | Kind.Or => comm_bin Kind.Or CF_Or_c l r
  | Kind.Xor => comm_bin Kind.Xor CF_Xor_c l r
  | Kind.Eq => comm_bin Kind.Eq CF_Eq_c l r
  | _ => bBin Base k l r
  end.
End folding.

(** [Builder->Add] and [Builder->Sub] call back the helper: open recursion, here
    with fuel. *)
Fixpoint ConstantFolding_bin (Base : ExprBuilder) (fuel : nat) (k : Kind.bin) (l r : expr) : result expr :=
  match fuel with
  | O => OutOfFuel
  | S n => Spec_bin (CF_bin Base (ConstantFolding_bin Base n Kind.Add) (ConstantFolding_bin Base n Kind.Sub)) k l r
  end.

(** Decreases at every call: the sizes of the operands first; at equal sizes a
    constant operand first, then the size of the left one. *)
Definition CF_rank (l r : expr) : nat :=
  ((esize l + esize r) * (esize l + esize r + 2) +
   (if isConst l || isConst r then 0 else esize l))%nat.

Definition ConstantFolding_hBin (Base : ExprBuilder) (k : Kind.bin) (l r : expr) : result expr :=
  let rec := ConstantFolding_bin Base (CF_rank l r) in CF_bin Base (rec Kind.Add) (rec Kind.Sub) k l r.

Definition ConstantFoldingExprBuilder (Base : ExprBuilder) : ExprBuilder :=
  ConstantSpecializedExprBuilder (ConstantFolding_hBin Base) (bNot (ChainedBuilder Base)) (ChainedBuilder Base).

(** ** SimplifyingBuilder *)
Section simplifying.
Variable Base : ExprBuilder.

(** A method of [Builder] that the helper does not define. *)
Definition Simplifying_fwd (k : Kind.bin) : expr -> expr -> result expr := Spec_bin (bBin Base) k.

(** [Not(NonConstantExpr)]; [Not] is that of [Builder]. *)
Definition Simplifying_hNot (Not : expr -> result expr) (e : expr) : result expr :=
  match e with
  | BinExpr Kind.Or lhs rhs => a ← Not lhs; b ← Not rhs; Simplifying_fwd Kind.And a b
  | _ => bNot Base e
  end.

Fixpoint Simplifying_Not (e : expr) : result expr := Spec_Not (Simplifying_hNot Simplifying_Not) e.

Definition Simplifying_Eq_c (LHS : apint) (RHS : expr) : result expr :=
  if bw LHS =? Bool then
    if CE_isTrue LHS then Ok RHS else bNot Base RHS
  else bBin Base Kind.Eq (ConstantExpr LHS) RHS.

Definition Simplifying_Eq (l r : expr) : result expr :=
  match dyn_const l, dyn_const r with
  | Some c, _ => Simplifying_Eq_c c r
  | None, Some c => Simplifying_Eq_c c l
  | None, None =>
      if expr_eqb l r then Ok (ConstantExpr (ConstantExpr_alloc 1 Bool))
      else bBin Base Kind.Eq l r
  end.

Definition Simplifying_bin (k : Kind.bin) (l r : expr) : result expr :=
  match k with
  | Kind.Eq => Simplifying_Eq l r
  | Kind.Ne => e ← Spec_bin (fun _ => Simplifying_Eq) Kind.Eq l r; Simplifying_Not e
  | Kind.Ugt => Simplifying_fwd Kind.Ult r l
  | Kind.Uge => Simplifying_fwd Kind.Ule r l
  | Kind.Sgt => Simplifying_fwd Kind.Slt r l
  | Kind.Sge => Simplifying_fwd Kind.Sle r l
  | _ => bBin Base k l r
  end.

Definition SimplifyingExprBuilder : ExprBuilder :=
  ConstantSpecializedExprBuilder Simplifying_bin (Simplifying_hNot Simplifying_Not) (ChainedBuilder Base).
End simplifying.

(** [build B e] asks [B] for the node [e]: the method of its kind, on its kids. *)
Definition build (B : ExprBuilder) (e : expr) : result expr :=
  match e with
  | ConstantExpr v => bConstant B v
  | NotOptimizedExpr src => bNotOptimized B src
  | ReadExpr root un index => bRead B {| ul_root := root; ul_head := un |} index
  | SelectExpr c t f => bSelect B c t f
  | ConcatExpr l r => bConcat B l r
  | ExtractExpr e o w => bExtract B e o w
  | ZExtExpr src w => bZExt B src w
  | SExtExpr src w => bSExt B src w
  | NotExpr e => bNot B e
  | BinExpr k l r => bBin B k l r
  end.
End builders.

(** ** What a builder promises *)
Section promise.
Context {AP : APIntOps} {SP : APIntSpec AP} {CFG : Config}.

(** LLVM asserts that the divisor of two constants is not zero. *)
Definition foldable (e : expr) : Prop :=
  match e with BinExpr k l r => div_ok k l r | _ => True end.

Definition isLinear (k : Kind.bin) : bool :=
  match k with Kind.Add | Kind.Sub => true | _ => false end.

(** A sum or difference is not larger than the plain node. *)
Definition compact (e' e : expr) : Prop :=
  match e with
  | BinExpr k _ _ => isLinear k = true -> (esize e' <= esize e)%nat
  | _ => True
  end.

Definition makes (m : result expr) (e : expr) : Prop :=
  returns m (fun e' => impl e' e /\ compact e' e).

(** Every method returns a stand-in for the node it is asked for. *)
Class BuilderSpec (B : ExprBuilder) : Prop :=
  build_makes e : wf e -> foldable e -> makes (build B e) e.

Lemma makes_builds m e : makes m e -> builds m e.
Proof. intros H. eapply returns_weaken; [exact H|]. by intros x []. Qed.
Lemma makes_ok e : wf e -> makes (Ok e) e.
Proof. intros. apply returns_ok. split; [by apply impl_refl|]. by destruct e; simpl. Qed.

(** Nodes that are not sums or differences carry no bound. *)
Definition unbounded (e : expr) : bool := match e with BinExpr k _ _ => negb (isLinear k) | _ => true end.
Lemma builds_makes m e : unbounded e = true -> builds m e -> makes m e.
Proof.
  intros Hu H. eapply returns_weaken; [exact H|]. intros x Hx. split; [done|].
  destruct e as [| | | | | | | | |k l r]; try done. simpl in *. by destruct (isLinear k).
Qed.

Lemma build_builds B {HB : BuilderSpec B} e : wf e -> foldable e -> builds (build B e) e.
Proof. intros. by apply makes_builds, build_makes. Qed.

#[export] Instance Default_spec : BuilderSpec DefaultExprBuilder.
Proof. intros e He _. destruct e; simpl; unfold Default_bin; apply makes_ok. all: exact He. Qed.

#[export] Instance Chained_spec Base : BuilderSpec Base -> BuilderSpec (ChainedBuilder Base).
Proof. intros HB e He Hf. specialize (HB e He Hf). by destruct e. Qed.

(** ** The dispatch on constants *)
Section specialized.
Context (hBin : Kind.bin -> expr -> expr -> result expr) (hNot : expr -> result expr).
Context (Base : ExprBuilder) {HB : BuilderSpec Base}.
Context (HhBin : forall k l r, isConst l && isConst r = false -> wf (BinExpr k l r) ->
  makes (hBin k l r) (BinExpr k l r)).
Context (HhNot : forall e, wf e -> builds (hNot e) (NotExpr e)).

Lemma Spec_bin_makes k l r :
  wf (BinExpr k l r) -> div_ok k l r -> makes (Spec_bin hBin k l r) (BinExpr k l r).
Proof.
  intros He Hd. destruct l as [cl| | | | | | | | |]; try (by apply HhBin).
  destruct r as [cr| | | | | | | | |]; try (by apply HhBin). simpl.
  destruct (CE_op_builds k cl cr) as (e & E & HI); [by destruct He as (? & ? & ?)|done|].
  simpl in E. destruct (CE_op k cl cr) as [c| |]; try discriminate. injection E as <-. apply returns_ok.
  split; [done|]. simpl. lia.
Qed.

Lemma Spec_bin_var h k l r : isConst l && isConst r = false -> Spec_bin h k l r = h k l r.
Proof. by destruct l, r. Qed.

Lemma double_not e : wf e -> impl e (NotExpr (NotExpr e)).
Proof. intros He. split_and!; [done|done|]. refine_eval. f_equal. unfold bv_not. lia. Qed.

Lemma Spec_Not_builds e : wf e -> builds (Spec_Not hNot e) (NotExpr e).
Proof.
  intros He. destruct e; try (by apply HhNot).
  - by apply (NotExpr_create_builds (ConstantExpr value)).
  - by apply builds_ok, double_not.
Qed.

(** What the walk over the writes skips does not concern the index. *)
Lemma Spec_rollback_ok root un idx :
  wf idx -> getWidth idx = domain root -> wf_node root un ->
  returns (Spec_rollback hBin idx un) (fun un' => wf_node root un' /\
    forall rho i v, eval rho idx = Some i -> eval_node rho root un i = Some v ->
      eval_node rho root un' i = Some v).
Proof.
  intros Hi Ed. induction un as [|next IH ui value] using UpdateNode_ind; intros Hn; simpl.
  { by apply returns_ok. }
  destruct Hn as (Hn' & Hui & Hv & Eui & Ev).
  destruct (makes_builds _ _ (Spec_bin_makes Kind.Eq idx ui ltac:(simpl; split_and!; congruence)
    ltac:(by apply not_div_ok))) as (c & -> & Hc & Wc & Rc).
  simpl in Wc, Rc. simpl. unfold Expr_isFalse. rewrite Wc. simpl.
  destruct c as [k| | | | | | | | |]; try (by apply returns_ok).
  simpl in Hc, Wc. destruct (CE_isFalse k) eqn:Hf; [|by apply returns_ok].
  rewrite isFalse_eq in Hf by done. apply Z.eqb_eq in Hf.
  eapply returns_weaken; [by apply IH|]. intros un' [Hu Hr]. split; [done|].
  intros rho i v Ei Hev. apply Hr; [done|]. simpl in Hev. inv_option. specialize (Rc rho (Z.b2z (i =? x))).
  simpl in Rc. rewrite Ei, H, Hf in Rc. specialize (Rc eq_refl). rewrite Z.eqb_sym in H0.
  by destruct (i =? x).
Qed.

Lemma Spec_Read_builds root un idx :
  wf (ReadExpr root un idx) ->
  builds (Spec_Read hBin Base {| ul_root := root; ul_head := un |} idx) (ReadExpr root un idx).
Proof.
  intros (Ha & Hn & Hi & Ed). unfold Spec_Read. simpl.
  eapply returns_bind; [by apply Spec_rollback_ok|]. intros un' [Hu Hr].
  eapply builds_trans; [apply (build_builds Base (ReadExpr root un' idx)); done|].
  split_and!; [done|done|]. intros rho v Hev. simpl in *. inv_option. rewrite H. simpl. eauto.
Qed.

Lemma Spec_Select_builds c t f :
  wf (SelectExpr c t f) -> builds (Spec_Select Base c t f) (SelectExpr c t f).
Proof.
  intros Hw. destruct c as [k| | | | | | | | |]; try (by apply (build_builds Base (SelectExpr _ t f))).
  destruct Hw as (Hk & Ht & Hf & Ek & E). simpl in *. apply builds_ok.
  rewrite (bool_const k) at 2 by done.
  destruct (CE_isTrue k); (split_and!; simpl; [done|done|]); refine_eval; done.
Qed.

Lemma Spec_Concat_builds l r :
  wf (ConcatExpr l r) -> builds (Spec_Concat Base l r) (ConcatExpr l r).
Proof.
  intros Hw. pose proof (build_builds Base (ConcatExpr l r) Hw I) as Hb.
  destruct l; try exact Hb. destruct r; try exact Hb. destruct Hw as (? & ? & ?).
  by apply builds_ok, CE_Concat_impl.
Qed.

Lemma Spec_Extract_builds e o w :
  wf (ExtractExpr e o w) -> builds (Spec_Extract Base e o w) (ExtractExpr e o w).
Proof.
  intros Hw. pose proof (build_builds Base (ExtractExpr e o w) Hw I) as Hb.
  destruct e; try exact Hb. destruct Hw as (? & ? & ? & ?). by apply builds_ok, CE_Extract_impl.
Qed.

Lemma Spec_ext_builds e w :
  (wf (ZExtExpr e w) -> builds (Spec_ZExt Base e w) (ZExtExpr e w)) /\
  (wf (SExtExpr e w) -> builds (Spec_SExt Base e w) (SExtExpr e w)).
Proof.
  split; intros Hw;
    [pose proof (build_builds Base (ZExtExpr e w) Hw I) as Hb
    |pose proof (build_builds Base (SExtExpr e w) Hw I) as Hb];
    (destruct e; try exact Hb); destruct Hw as (Hc & ? & ?); pose proof (wf_width _ Hc);
    simpl in *; apply builds_ok; rewrite ?CE_ZExt_eq, ?CE_SExt_eq by (done || lia);
    (split_and!; simpl; [split; simpl; [lia|]|done|by intros rho v]);
    apply wrap_inw; lia.
Qed.

Lemma ConstantSpecialized_spec : BuilderSpec (ConstantSpecializedExprBuilder hBin hNot Base).
Proof.
  intros e He Hf. destruct e; try (apply builds_makes; [done|]); simpl.
  - by apply (build_builds Base (ConstantExpr _)).
  - by apply (build_builds Base (NotOptimizedExpr _)).
  - by apply Spec_Read_builds.
  - by apply Spec_Select_builds.
  - by apply Spec_Concat_builds.
  - by apply Spec_Extract_builds.
  - by apply Spec_ext_builds.
  - by apply Spec_ext_builds.
  - by apply Spec_Not_builds.
  - by apply Spec_bin_makes.
Qed.
End specialized.

Lemma Base_makes Base {HB : BuilderSpec Base} k l r :
  wf (BinExpr k l r) -> isConst l && isConst r = false -> makes (bBin Base k l r) (BinExpr k l r).
Proof.
  intros Hw Hc. apply (build_makes (BinExpr k l r)); [done|]. simpl. unfold div_ok, zero_fold.
  destruct l, r; try done; by rewrite andb_false_r.
Qed.

(** ** ConstantFoldingBuilder *)
Lemma dyn_const_cases e :
  (exists c, e = ConstantExpr c /\ dyn_const e = Some c) \/ isConst e = false /\ dyn_const e = None.
Proof. destruct e; simpl; eauto. Qed.

Lemma CE_Neg_apok c : apok c -> apok (CE_Neg c) /\ bw (CE_Neg c) = bw c.
Proof.
  intros Hc. pose proof Hc as [? ?]. unfold CE_Neg. rewrite ap_neg_spec by done.
  split; [split; simpl; [done|apply bv_neg_inw; lia]|done].
Qed.

(** The rewrites beyond those of the [create] functions: [A] and [B] are
    constants, [x] and [y] expressions, of one width. *)
Ltac fold_linear :=
  split_and!; simpl; [split_and!; congruence|congruence|];
  refine_eval; rewrite ?CE_Add_eq, ?CE_Sub_eq by done;
  unfold CE_Neg in *; rewrite ?ap_neg_spec in * by done; simpl;
  repeat match goal with
  | E : getWidth _ = bw _ |- _ => rewrite E in *; clear E
  | E : bw _ = bw _ |- _ => rewrite E in *; clear E
  end;
  f_equal; wrap_solve.

Section two_constants.
Context (A B : apint) (x : expr) (HA : apok A) (HB : apok B) (EB : bw B = bw A).
Context (Hx : wf x) (Ex : getWidth x = bw A).
Ltac fold_pair :=
  destruct (CE_Add_apok A B) as [? ?]; [done|]; destruct (CE_Sub_apok A B) as [? ?]; [done|];
  pose proof (wf_width x Hx); fold_linear.

Lemma fold_add_add_r :
  impl (BinExpr Kind.Add (ConstantExpr (CE_Add A B)) x)
       (BinExpr Kind.Add (ConstantExpr A) (BinExpr Kind.Add x (ConstantExpr B))).
Proof. fold_pair. Qed.
Lemma fold_add_sub_r :
  impl (BinExpr Kind.Add (ConstantExpr (CE_Sub A B)) x)
       (BinExpr Kind.Add (ConstantExpr A) (BinExpr Kind.Sub x (ConstantExpr B))).
Proof. fold_pair. Qed.
Lemma fold_sub_add_r :
  impl (BinExpr Kind.Sub (ConstantExpr (CE_Sub A B)) x)
       (BinExpr Kind.Sub (ConstantExpr A) (BinExpr Kind.Add x (ConstantExpr B))).
Proof. fold_pair. Qed.
Lemma fold_sub_sub_r :
  impl (BinExpr Kind.Sub (ConstantExpr (CE_Add A B)) x)
       (BinExpr Kind.Sub (ConstantExpr A) (BinExpr Kind.Sub x (ConstantExpr B))).
Proof. fold_pair. Qed.
End two_constants.

Section one_constant.
Context (A : apint) (HA : apok A) (x : expr) (Hx : wf x) (Ex : getWidth x = bw A).
Ltac fold_one :=
  destruct (CE_Neg_apok A) as [? ?]; [done|]; pose proof (wf_width x Hx); fold_linear.

Lemma fold_sub_const :
  impl (BinExpr Kind.Add (ConstantExpr (CE_Neg A)) x) (BinExpr Kind.Sub x (ConstantExpr A)).
Proof. fold_one. Qed.
Context (y : expr) (Hy : wf y) (Ey : getWidth y = bw A).
Lemma fold_x_add_r :
  impl (BinExpr Kind.Add (ConstantExpr A) (BinExpr Kind.Add x y))
       (BinExpr Kind.Add x (BinExpr Kind.Add y (ConstantExpr A))).
Proof. fold_one. Qed.
Lemma fold_x_add_sub_r :
  impl (BinExpr Kind.Add (ConstantExpr (CE_Neg A)) (BinExpr Kind.Add x y))
       (BinExpr Kind.Add x (BinExpr Kind.Sub y (ConstantExpr A))).
Proof. fold_one. Qed.
Lemma fold_x_sub_add_l :
  impl (BinExpr Kind.Add (ConstantExpr (CE_Neg A)) (BinExpr Kind.Sub x y))
       (BinExpr Kind.Sub x (BinExpr Kind.Add (ConstantExpr A) y)).
Proof. fold_one. Qed.
Lemma fold_x_sub_add_r :
  impl (BinExpr Kind.Add (ConstantExpr (CE_Neg A)) (BinExpr Kind.Sub x y))
       (BinExpr Kind.Sub x (BinExpr Kind.Add y (ConstantExpr A))).
Proof. fold_one. Qed.
Lemma fold_x_sub_sub_l :
  impl (BinExpr Kind.Add (ConstantExpr (CE_Neg A)) (BinExpr Kind.Add x y))
       (BinExpr Kind.Sub x (BinExpr Kind.Sub (ConstantExpr A) y)).
Proof. fold_one. Qed.
Lemma fold_x_sub_sub_r :
  impl (BinExpr Kind.Add (ConstantExpr A) (BinExpr Kind.Sub x y))
       (BinExpr Kind.Sub x (BinExpr Kind.Sub y (ConstantExpr A))).
Proof. fold_one. Qed.
End one_constant.

Section folding.
Context (Base : ExprBuilder) {HB : BuilderSpec Base}.

(** [m] returns a stand-in for [e] of size at most [s]. *)
Definition within (m : result expr) (e : expr) (s : nat) : Prop :=
  returns m (fun e' => impl e' e /\ (esize e' <= s)%nat).

Lemma within_ok e' e s : impl e' e -> (esize e' <= s)%nat -> within (Ok e') e s.
Proof. intros. by apply returns_ok. Qed.
Lemma within_trans m e1 e2 s1 s2 : within m e1 s1 -> impl e1 e2 -> (s1 <= s2)%nat -> within m e2 s2.
Proof.
  intros H Hi Hs. eapply returns_weaken; [exact H|]. intros x [Hx Hz].
  split; [by apply impl_trans with e1|lia].
Qed.
(** An inner result [x] that stands for [i], then the outer call on it. *)
Lemma within_bind m f (mk : expr -> expr) i si e s :
  within m i si ->
  (forall x, impl x i -> (esize x <= si)%nat -> within (f x) (mk x) s /\ impl (mk x) e) ->
  within (m ≫= f) e s.
Proof.
  intros Hm Hf. eapply returns_bind; [exact Hm|]. intros x [Hx Hs].
  destruct (Hf x Hx Hs) as [Hw Hi]. by eapply within_trans.
Qed.

Lemma Base_linear k l r :
  isLinear k = true -> wf (BinExpr k l r) ->
  within (bBin Base k l r) (BinExpr k l r) (S (esize l + esize r)).
Proof.
  intros Hk Hw. eapply returns_weaken; [apply (build_makes (BinExpr k l r)); [done|]|].
  - apply not_div_ok. by destruct k.
  - intros x [Hi Hc]. split; [done|]. by apply Hc.
Qed.

Lemma CF_rank_lt l r l' r' :
  (esize l' + esize r' < esize l + esize r)%nat -> (CF_rank l' r' < CF_rank l r)%nat.
Proof. intros. unfold CF_rank. do 2 case_match; nia. Qed.
Lemma CF_rank_le l r l' r' :
  (esize l' + esize r' <= esize l + esize r)%nat -> isConst l || isConst r = false ->
  (isConst l' = true \/ esize l' < esize l)%nat -> (CF_rank l' r' < CF_rank l r)%nat.
Proof.
  intros Hs Hc Hd. unfold CF_rank. rewrite Hc. pose proof (esize_pos l).
  assert ((if isConst l' || isConst r' then 0 else esize l') < esize l)%nat
    by (destruct Hd as [-> |]; [simpl; lia|case_match; lia]).
  nia.
Qed.

Section calls.
Context (rec : Kind.bin -> expr -> expr -> result expr) (n : nat).
Context (Hrec : forall k l r, isLinear k = true -> (CF_rank l r < n)%nat -> wf (BinExpr k l r) ->
  within (rec k l r) (BinExpr k l r) (S (esize l + esize r))).

Lemma CF_const_within c r :
  isConst r = false -> apok c -> wf r -> bw c = getWidth r ->
  (CF_rank (ConstantExpr c) r <= n)%nat ->
  within (CF_Add_c Base (rec Kind.Add) (rec Kind.Sub) c r)
    (BinExpr Kind.Add (ConstantExpr c) r) (S (S (esize r))) /\
  within (CF_Sub_c Base (rec Kind.Add) (rec Kind.Sub) c r)
    (BinExpr Kind.Sub (ConstantExpr c) r) (S (S (esize r))).
Proof.
  intros Hn Hc Hr E Hrk. unfold CF_Add_c, CF_Sub_c. rewrite isZero_eq by done.
  pose proof (fun k H => Base_linear k (ConstantExpr c) r H (conj Hc (conj Hr E))) as Hbase.
  split; [destruct (Z.eqb_spec (raw c) 0); [apply within_ok; [by apply impl_add_0|lia]|]|];
    (destruct r as [| | | | | | | | |k a b]; try (by apply Hbase));
    (destruct k; try (by apply Hbase)); destruct Hr as (Ha & Hb & Ew); simpl in E;
    pose proof (esize_pos a); pose proof (esize_pos b);
    (destruct (dyn_const_cases a) as [(ka & -> & ->)|(Na & ->)];
      [|destruct (dyn_const_cases b) as [(kb & -> & ->)|(Nb & ->)]; [|by apply Hbase]]);
    simpl in Ha, Hb, E, Ew;
    match goal with |- context [rec _ (ConstantExpr (_ c ?d)) _] =>
      assert (appair c d) as HP by (split_and!; congruence);
      destruct (CE_Add_apok c d HP) as [? ?], (CE_Sub_apok c d HP) as [? ?] end;
    (eapply within_trans; [apply Hrec; [done| |split_and!; simpl in *; congruence]| |simpl; lia]);
    try (eapply Nat.lt_le_trans; [apply CF_rank_lt|exact Hrk]; simpl; lia);
    simpl in *; first [apply impl_addc_add|apply impl_addc_sub|apply impl_subc_add|apply impl_subc_sub
         |apply fold_add_add_r|apply fold_add_sub_r|apply fold_sub_add_r|apply fold_sub_sub_r];
    done || congruence.
Qed.

(** Two nested calls that stay within the sizes of the operands. *)
Lemma two_calls_within l r k1 u v k2 w e :
  (CF_rank l r <= n)%nat -> isConst l || isConst r = false ->
  isLinear k1 = true -> isLinear k2 = true ->
  (S (esize u + esize v) + esize w <= esize l + esize r)%nat ->
  (isConst w = true \/ esize w < esize l)%nat ->
  wf (BinExpr k1 u v) -> wf w -> getWidth w = getWidth u ->
  impl (BinExpr k2 w (BinExpr k1 u v)) e ->
  within (x ← rec k1 u v; rec k2 w x) e (S (esize l + esize r)).
Proof.
  intros Hrk Hc Hk1 Hk2 Hs Hw Huv Ww Ew Hi.
  assert (Eu : getWidth (BinExpr k1 u v) = getWidth u) by (by destruct k1).
  eapply (within_bind _ _ (BinExpr k2 w)).
  { apply Hrec; [done| |done]. eapply Nat.lt_le_trans; [apply CF_rank_lt|exact Hrk]. lia. }
  intros x Hx Hsx. pose proof Hx as (Wx & Exw & _). split.
  - eapply within_trans; [apply Hrec| |]; [done| |split_and!; congruence|by apply impl_refl; split_and!; congruence|lia].
    eapply Nat.lt_le_trans; [apply (CF_rank_le l r)|exact Hrk]; [lia|done|done].
  - eapply impl_trans; [|exact Hi]. apply impl_bin_r; [done|done|congruence].
Qed.

(** The constant of the right operand is moved outwards. *)
Lemma CF_right_within l r :
  isConst l = false -> isConst r = false -> wf l -> wf r -> getWidth l = getWidth r ->
  (CF_rank l r <= n)%nat ->
  within (CF_Add_r Base (rec Kind.Add) (rec Kind.Sub) l r)
    (BinExpr Kind.Add l r) (S (esize l + esize r)) /\
  within (CF_Sub_r Base (rec Kind.Add) (rec Kind.Sub) l r)
    (BinExpr Kind.Sub l r) (S (esize l + esize r)).
Proof.
  intros Nl Nr Hl Hr E Hrk. assert (Hc : isConst l || isConst r = false) by (by rewrite Nl, Nr).
  pose proof (fun k H => Base_linear k l r H (conj Hl (conj Hr E))) as Hbase.
  unfold CF_Add_r, CF_Sub_r. split;
    (destruct r as [| | | | | | | | |k a b]; try (by apply Hbase));
    (destruct k; try (by apply Hbase)); destruct Hr as (Ha & Hb & Ew);
    (destruct (dyn_const_cases a) as [(ka & -> & ->)|(Na & ->)];
      [|destruct (dyn_const_cases b) as [(kb & -> & ->)|(Nb & ->)]; [|by apply Hbase]]);
    simpl in Ha, Hb, E, Ew;
    match goal with Hd : apok ?d |- _ => destruct (CE_Neg_apok d Hd) as [? ?] end;
    eapply (two_calls_within _ _ _ _ _ _ _ _ Hrk Hc); try done; try (by left);
    simpl; try lia; try (split_and!; congruence); try congruence.
  all: first [apply impl_add_r|apply impl_add_sub_r|apply fold_x_add_r|apply fold_x_add_sub_r
             |apply fold_x_sub_add_l|apply fold_x_sub_add_r|apply fold_x_sub_sub_l|apply fold_x_sub_sub_r];
    simpl; congruence.
Qed.

Lemma CF_var_within l r :
  isConst l = false -> isConst r = false -> wf l -> wf r -> getWidth l = getWidth r ->
  (CF_rank l r <= n)%nat ->
  within (CF_Add Base (rec Kind.Add) (rec Kind.Sub) l r)
    (BinExpr Kind.Add l r) (S (esize l + esize r)) /\
  within (CF_Sub Base (rec Kind.Add) (rec Kind.Sub) l r)
    (BinExpr Kind.Sub l r) (S (esize l + esize r)).
Proof.
  intros Nl Nr Hl Hr E Hrk. assert (Hc : isConst l || isConst r = false) by (by rewrite Nl, Nr).
  pose proof (CF_right_within l r Nl Nr Hl Hr E Hrk) as Hright.
  unfold CF_Add, CF_Sub. split;
    (destruct l as [| | | | | | | | |k a b]; try (by apply Hright));
    (destruct k; try (by apply Hright)); destruct Hl as (Ha & Hb & Ew); simpl in E;
    eapply (two_calls_within _ _ _ _ _ _ _ _ Hrk Hc); try done;
    simpl; try lia; try (split_and!; congruence); try congruence.
  all: first [apply impl_add_l|apply impl_add_sub_l|apply impl_sub_add_l|apply impl_sub_l]; congruence.
Qed.

Lemma CF_bin_within k l r :
  isLinear k = true -> isConst l && isConst r = false -> (CF_rank l r <= n)%nat ->
  wf (BinExpr k l r) ->
  within (CF_bin Base (rec Kind.Add) (rec Kind.Sub) k l r) (BinExpr k l r) (S (esize l + esize r)).
Proof.
  intros Hk Hc Hrk (Hl & Hr & E).
  destruct k; try discriminate; simpl;
    (destruct (dyn_const_cases l) as [(c & -> & ->)|(Nl & ->)]; [by apply CF_const_within|]);
    (destruct (dyn_const_cases r) as [(c & -> & ->)|(Nr & ->)]; [|by apply CF_var_within]);
    simpl in Hr, E; destruct (CE_Neg_apok c Hr) as [? ?];
    (assert (Hsym : forall c', (CF_rank (ConstantExpr c') l <= n)%nat);
      [intros c'; etrans; [|exact Hrk]; unfold CF_rank; rewrite Nl; simpl; lia|]);
    (eapply within_trans; [apply CF_const_within; auto; congruence| |simpl; lia]).
  - apply impl_comm; simpl; auto.
  - by apply fold_sub_const.
Qed.
End calls.

(** Enough fuel: the rank of the operands. *)
Lemma ConstantFolding_bin_within n k l r :
  isLinear k = true -> (CF_rank l r < n)%nat -> wf (BinExpr k l r) ->
  within (ConstantFolding_bin Base n k l r) (BinExpr k l r) (S (esize l + esize r)).
Proof.
  revert k l r. induction n as [|n IH]; intros k l r Hk Hrk Hw; [lia|]. cbn [ConstantFolding_bin].
  assert (Hh : isConst l && isConst r = false ->
    within (CF_bin Base (ConstantFolding_bin Base n Kind.Add) (ConstantFolding_bin Base n Kind.Sub) k l r)
      (BinExpr k l r) (S (esize l + esize r)))
    by (intros; apply (CF_bin_within (ConstantFolding_bin Base n) n); auto; lia).
  destruct l as [cl| | | | | | | | |]; try (by apply Hh).
  destruct r as [cr| | | | | | | | |]; try (by apply Hh). simpl.
  destruct (CE_op_builds k cl cr) as (e & E & HI);
    [by destruct Hw as (? & ? & ?)|apply not_div_ok; by destruct k|].
  simpl in E. destruct (CE_op k cl cr) as [c| |]; try discriminate. injection E as <-.
  apply within_ok; [done|simpl; lia].
Qed.

(** [true == X] and [false == X] on one bit, shared by both helpers. *)
Lemma Eq_c_Base c r :
  apok c -> wf r -> bw c = getWidth r ->
  builds (if bw c =? Bool then if CE_isTrue c then Ok r else bNot Base r
          else bBin Base Kind.Eq (ConstantExpr c) r) (BinExpr Kind.Eq (ConstantExpr c) r).
Proof.
  intros Hc Hr E. destruct (Z.eqb_spec (bw c) Bool) as [Eb|].
  - destruct (CE_isTrue c) eqn:Ht.
    + rewrite isTrue_eq in Ht by done. apply Z.eqb_eq in Ht. apply builds_ok.
      split_and!; [done|simpl; congruence|]. refine_eval. rewrite <- E, Eb, Ht in *. bit_cases.
    + pose proof (false_const c Hc Eb Ht) as ->. eapply builds_trans; [by apply (build_builds Base (NotExpr r))|].
      split_and!; [done|simpl; congruence|]. refine_eval. rewrite <- E in *. simpl in *. bit_cases.
  - apply (build_builds Base (BinExpr Kind.Eq _ r)); [done|by apply not_div_ok].
Qed.

(** The operations with a constant on the left. *)
Lemma CF_const_builds k f c r :
  (k, f) ∈ [(Kind.Mul, CF_Mul_c); (Kind.And, CF_And_c); (Kind.Or, CF_Or_c); (Kind.Xor, CF_Xor_c);
            (Kind.Eq, CF_Eq_c)] ->
  apok c -> wf r -> bw c = getWidth r ->
  builds (f Base c r) (BinExpr k (ConstantExpr c) r).
Proof.
  intros Hk Hc Hr E. pose proof Hc as [Wc _].
  assert (Hb : forall k, isDiv k = false ->
    builds (bBin Base k (ConstantExpr c) r) (BinExpr k (ConstantExpr c) r)).
  { intros k' Hd. apply (build_builds Base (BinExpr k' _ r)); [done|by apply not_div_ok]. }
  repeat (apply elem_of_cons in Hk as [[= -> ->]|Hk]); try (by apply elem_of_nil in Hk);
    unfold CF_Mul_c, CF_And_c, CF_Or_c, CF_Xor_c; try (by apply Eq_c_Base);
    rewrite ?isZero_eq, ?isOne_eq, ?isAllOnes_eq by done;
    (destruct (Z.eqb_spec (raw c) 0) as [Hz|];
      [apply builds_ok; split_and!; simpl; [done|done|]; refine_eval; rewrite Hz|]);
    try (destruct (Z.eqb_spec (raw c) (2 ^ bw c - 1)) as [Ho|];
      [apply builds_ok; split_and!; simpl; [done|done|]; refine_eval; rewrite Ho|]);
    try (destruct (Z.eqb_spec (raw c) 1) as [Ho|];
      [apply builds_ok; split_and!; simpl; [done|done|]; refine_eval; rewrite Ho|]);
    try (by apply Hb); try done.
  - unfold bv_mul. by rewrite Z.mul_1_l, wrap_small by (by rewrite E).
  - rewrite Z.land_comm, land_ones_wrap, wrap_small; [done|by rewrite E|lia].
  - by rewrite Z.lor_comm, lor_ones; [done|lia|rewrite E].
Qed.

Lemma comm_bin_builds k f l r :
  isComm k = true -> isDiv k = false ->
  (forall c r, apok c -> wf r -> bw c = getWidth r -> builds (f c r) (BinExpr k (ConstantExpr c) r)) ->
  wf (BinExpr k l r) -> builds (comm_bin Base k f l r) (BinExpr k l r).
Proof.
  intros Hk Hd Hf Hw. pose proof Hw as (Hl & Hr & E). unfold comm_bin.
  destruct (dyn_const_cases l) as [(c & -> & ->)|(Nl & ->)]; [by apply Hf|].
  destruct (dyn_const_cases r) as [(c & -> & ->)|(Nr & ->)].
  - eapply builds_trans; [by apply Hf|by apply impl_comm].
  - apply (build_builds Base (BinExpr k l r)); [done|by apply not_div_ok].
Qed.

Lemma ConstantFolding_hBin_makes k l r :
  isConst l && isConst r = false -> wf (BinExpr k l r) ->
  makes (ConstantFolding_hBin Base k l r) (BinExpr k l r).
Proof.
  intros Hc Hw. unfold ConstantFolding_hBin. destruct (isLinear k) eqn:Hk.
  { eapply returns_weaken.
    - apply (CF_bin_within (ConstantFolding_bin Base (CF_rank l r)) (CF_rank l r)); try done.
      intros. by apply ConstantFolding_bin_within.
    - intros x [? Hs]. split; [done|by intros _]. }
  pose proof (Base_makes Base k l r Hw Hc) as Hb.
  destruct k; try discriminate; try exact Hb; apply builds_makes; try done;
    (apply comm_bin_builds; [done|done| |done]); intros; apply (CF_const_builds _ _ c);
    rewrite ?elem_of_cons; auto 10.
Qed.

#[export] Instance ConstantFolding_spec : BuilderSpec (ConstantFoldingExprBuilder Base).
Proof.
  apply ConstantSpecialized_spec; [apply _|apply ConstantFolding_hBin_makes|].
  intros e He. by apply (build_builds Base (NotExpr e)).
Qed.
End folding.

(** ** SimplifyingBuilder *)
Section simplifying.
Context (Base : ExprBuilder) {HB : BuilderSpec Base}.

Lemma bv_not_lor w a b :
  0 < w -> inw w a -> inw w b -> Z.land (bv_not w a) (bv_not w b) = bv_not w (Z.lor a b).
Proof.
  intros Hw Ha Hb. assert (Hn : forall x, inw w x -> bv_not w x = Z.ldiff (Z.ones w) x).
  { intros x Hx. unfold bv_not. rewrite <- Z.sub_nocarry_ldiff, Z.ones_equiv; [lia|].
    apply Z.bits_inj'. intros i Hi. rewrite Z.ldiff_spec, Z.bits_0, Z.testbit_ones by lia.
    destruct (Z.ltb_spec i w).
    - rewrite (proj2 (Z.leb_le 0 i)) by lia. by rewrite andb_false_r.
    - rewrite (inw_testbit w x i) by (done || lia). done. }
  rewrite !Hn by (done || (apply lor_inw; done || lia)). apply Z.bits_inj'. intros i Hi.
  rewrite Z.land_spec, !Z.ldiff_spec, Z.lor_spec. by destruct (Z.testbit a i), (Z.testbit b i), (Z.testbit (Z.ones w) i).
Qed.

Lemma de_morgan a b :
  wf a -> wf b -> getWidth a = getWidth b ->
  impl (BinExpr Kind.And (NotExpr a) (NotExpr b)) (NotExpr (BinExpr Kind.Or a b)).
Proof.
  intros Ha Hb E. pose proof (wf_width a Ha). split_and!; simpl; [split_and!; congruence|done|].
  refine_eval. rewrite <- E in *. f_equal. by apply bv_not_lor.
Qed.

Lemma Simplifying_fwd_builds k l r :
  isDiv k = false -> wf (BinExpr k l r) -> builds (Simplifying_fwd Base k l r) (BinExpr k l r).
Proof.
  intros Hk Hw. apply makes_builds, Spec_bin_makes; [|done|by apply not_div_ok].
  intros. by apply Base_makes.
Qed.

Lemma Simplifying_Not_builds e : wf e -> builds (Simplifying_Not Base e) (NotExpr e).
Proof.
  induction e as [v|src IH|root un idx IH|c0 IHc t IHt f IHf|a IHa b IHb|e IH o w|src IH w
    |src IH w|e IH|k a IHa b IHb]; intros Hw; try (by apply (build_builds Base (NotExpr _))).
  - by apply (NotExpr_create_builds (ConstantExpr v)).
  - by apply builds_ok, double_not.
  - destruct k; try (by apply (build_builds Base (NotExpr _))). destruct Hw as (Ha & Hb & E). simpl.
    eapply builds_bind; [by apply IHa|]. intros x Hx. eapply builds_bind; [by apply IHb|]. intros y Hy.
    eapply builds_trans; [apply Simplifying_fwd_builds; [done|]|].
    + destruct Hx as (? & Ex & _), Hy as (? & Ey & _). simpl in *. split_and!; congruence.
    + eapply impl_trans; [by apply impl_bin; [exact Hx|exact Hy|]|by apply de_morgan].
Qed.

Lemma Simplifying_Eq_builds l r :
  wf (BinExpr Kind.Eq l r) -> builds (Simplifying_Eq Base l r) (BinExpr Kind.Eq l r).
Proof.
  intros Hw. pose proof Hw as (Hl & Hr & E). unfold Simplifying_Eq, Simplifying_Eq_c.
  destruct (dyn_const_cases l) as [(c & -> & ->)|(Nl & ->)]; [by apply Eq_c_Base|].
  destruct (dyn_const_cases r) as [(c & -> & ->)|(Nr & ->)].
  { eapply builds_trans; [by apply Eq_c_Base|by apply impl_comm]. }
  destruct (expr_eqb l r) eqn:Hq; [|apply makes_builds, Base_makes; [done|done|by rewrite Nl]].
  apply expr_eqb_eq in Hq as ->; [|done..]. apply builds_ok. rewrite alloc1_eq by done.
  split_and!; [by apply apok1|done|]. refine_eval. simplify_eq. by rewrite Z.eqb_refl.
Qed.

Lemma Simplifying_bin_makes k l r :
  isConst l && isConst r = false -> wf (BinExpr k l r) ->
  makes (Simplifying_bin Base k l r) (BinExpr k l r).
Proof.
  intros Hc Hw. pose proof Hw as (Hl & Hr & E).
  assert (Hm : forall k', (k', k) ∈ [(Kind.Ult, Kind.Ugt); (Kind.Ule, Kind.Uge); (Kind.Slt, Kind.Sgt);
    (Kind.Sle, Kind.Sge)] -> isDiv k' = false -> builds (Simplifying_fwd Base k' r l) (BinExpr k l r)).
  { intros k' Hk Hd. eapply builds_trans; [by apply Simplifying_fwd_builds|by apply impl_mirror]. }
  destruct k; try (by apply Base_makes); (apply builds_makes; [done|]);
    try (by apply Hm; [rewrite ?elem_of_cons; auto 10|]).
  - by apply Simplifying_Eq_builds.
  - simpl. rewrite Spec_bin_var by done. eapply builds_bind; [by apply Simplifying_Eq_builds|].
    intros x Hx. pose proof Hx as (Wx & Ex & Rx).
    eapply builds_trans; [by apply Simplifying_Not_builds|].
    split_and!; [done|simpl in *; congruence|]. intros rho v Hev. simpl in Hev. inv_option.
    specialize (Rx rho (Z.b2z (x0 =? x1))). simpl. rewrite Rx by (simpl; by rewrite H, H0). simpl.
    rewrite Ex. simpl. by destruct (x0 =? x1).
Qed.

#[export] Instance Simplifying_spec : BuilderSpec (SimplifyingExprBuilder Base).
Proof.
  apply ConstantSpecialized_spec; [apply _|apply Simplifying_bin_makes|].
  intros e He. destruct e as [| | | | | | | | |k a b]; try (by apply (build_builds Base (NotExpr _))).
  destruct k; try (by apply (build_builds Base (NotExpr _))).
  by apply (Simplifying_Not_builds (BinExpr Kind.Or a b)).
Qed.
End simplifying.
End promise.

(** ** Theorems *)

(** The builders kleaver offers ([-builder=...]). *)
Definition folding_builder {AP : APIntOps} : ExprBuilder := ConstantFoldingExprBuilder DefaultExprBuilder.
Definition simplifying_builder {AP : APIntOps} : ExprBuilder := SimplifyingExprBuilder folding_builder.

(** Over any base builder that keeps its promise, every method of the constant
    folding builder terminates (the callbacks of [Add] and [Sub] into the builder
    included), fails no assertion and returns a well-typed expression of the width
    and the value of the plain node; a sum or a difference is not larger than the
    plain node.  Only the division of two constants by zero is excluded. *)
Theorem ConstantFolding_correct {AP : APIntOps} {SP : APIntSpec AP} {CFG : Config}
    (Base : ExprBuilder) {HB : BuilderSpec Base} e :
  wf e -> foldable e ->
  returns (build (ConstantFoldingExprBuilder Base) e) (fun e' =>
    wf e' /\ getWidth e' = getWidth e /\ refines e' e /\ compact e' e).
Proof.
  intros He Hf. eapply returns_weaken; [by apply ConstantFolding_spec|].
  by intros e' ((? & ? & ?) & ?).
Qed.

(** [(x + 200) - (y + 100)] becomes [156 + (200 + (x - y))], and its constants fold. *)
Definition sum_sample : expr :=
  BinExpr Kind.Sub (BinExpr Kind.Add (byte 0) (cst Int8 200)) (BinExpr Kind.Add (byte 1) (cst Int8 100)).

Lemma ConstantFolding_correct_witness :
  build (folding_builder (AP := ZOps)) sum_sample =
    Ok (BinExpr Kind.Add (cst Int8 100) (BinExpr Kind.Sub (byte 0) (byte 1))) /\
  returns (build (folding_builder (AP := ZOps)) sum_sample) (fun e' =>
    wf e' /\ getWidth e' = getWidth sum_sample /\
    refines (CFG := default_config) e' sum_sample /\ compact e' sum_sample).
Proof.
  split; [vm_compute; reflexivity|].
  apply (ConstantFolding_correct (AP := ZOps) (CFG := default_config) DefaultExprBuilder); concrete.
Defined.

(** Over any base builder that keeps its promise, every method of the
    simplifying builder terminates, fails no assertion and returns a well-typed
    expression of the width and the value of the plain node: comparisons turned
    round, [!=] as the negation of [==], negations pushed through disjunctions. *)
Theorem Simplifying_correct {AP : APIntOps} {SP : APIntSpec AP} {CFG : Config}
    (Base : ExprBuilder) {HB : BuilderSpec Base} e :
  wf e -> foldable e ->
  returns (build (SimplifyingExprBuilder Base) e) (fun e' =>
    wf e' /\ getWidth e' = getWidth e /\ refines e' e).
Proof.
  intros He Hf. eapply returns_weaken; [by apply Simplifying_spec|]. by intros e' ((? & ? & ?) & ?).
Qed.

Definition not_or_sample : expr := NotExpr (BinExpr Kind.Or flag (NotExpr (BinExpr Kind.Ult (byte 2) (byte 3)))).

Lemma Simplifying_correct_witness :
  build (simplifying_builder (AP := ZOps)) not_or_sample =
    Ok (BinExpr Kind.And (NotExpr flag) (BinExpr Kind.Ult (byte 2) (byte 3))) /\
  returns (build (simplifying_builder (AP := ZOps)) not_or_sample) (fun e' =>
    wf e' /\ getWidth e' = Bool /\ refines (CFG := default_config) e' not_or_sample).
Proof.
  split; [vm_compute; reflexivity|].
  refine (Simplifying_correct (AP := ZOps) (CFG := default_config) folding_builder not_or_sample _ _);
    concrete.
Defined.
