(* ===== verification/ExprUtil.v ===== *)
(** * ExprUtil: the reads and the symbolic objects of an expression

    Models [klee/lib/Expr/ExprUtil.cpp].  [findReads] is a work-list traversal of
    the expression DAG that remembers what it has pushed; [findSymbolicObjects]
    is a visitor whose state is the set of arrays seen and the vector it fills.
    Every iteration of the work list pops an expression that was pushed once, so
    the number of nodes of the expression is fuel enough. *)

From S2P Require Import Prelude APInt ExprData Samples Bits ExprCompare ExprCreate ExprCreateSound ExprStructSound ExprVisitor.
Local Open Scope Z_scope.

(** ** Structural identity of expressions and update nodes *)
Fixpoint expr_eq_dec (a b : expr) {struct a} : {a = b} + {a <> b}
with node_eq_dec (a b : UpdateNode) {struct a} : {a = b} + {a <> b}.
Proof.
  - decide equality; try apply Z.eq_dec; try apply apint_eq_dec; try apply Array_eq_dec; apply Kind.bin_eq_dec.
  - decide equality.
Defined.
#[export] Instance expr_EqDecision : EqDecision expr := expr_eq_dec.
#[export] Instance node_EqDecision : EqDecision UpdateNode := node_eq_dec.

(** ** findReads *)

(** The indices and values of an update list, from its head. *)
Fixpoint node_exprs (un : UpdateNode) : list expr :=
  match un with
  | NullNode => []
  | Node next index value => index :: value :: node_exprs next
  end.

Section findReads.
Context {AP : APIntOps}.

(** [visited] and [stack] *)
Definition push (k : expr) (vs : list expr * list expr) : list expr * list expr :=
  if negb (isConst k) && negb (existsb (fun x => expr_eqb x k) (fst vs))
  then (k :: fst vs, k :: snd vs)
  else vs.

Definition push_all (ks : list expr) (vs : list expr * list expr) : list expr * list expr :=
  fold_left (fun vs k => push k vs) ks vs.

Definition is_read (e : expr) : bool := match e with ReadExpr _ _ _ => true | _ => false end.

(** The [while] loop of [findReads]. *)
Fixpoint findReads_loop (fuel : nat) (visitUpdates : bool) (vs : list expr * list expr)
    (updates : list UpdateNode) (results : list expr) : result (list expr) :=
  match snd vs with
  | [] => Ok results
  | top :: stack =>
      match fuel with
      | O => OutOfFuel
      | S n =>
          let vs := (fst vs, stack) in
          match top with
          | ReadExpr root head index =>
              let vs := push index vs in
              if visitUpdates && negb (bool_decide (head ∈ updates)) then
                findReads_loop n visitUpdates (push_all (node_exprs head) vs) (head :: updates)
                  (results ++ [top])
              else findReads_loop n visitUpdates vs updates (results ++ [top])
          | _ => findReads_loop n visitUpdates (push_all (kids top) vs) updates results
          end
      end
  end.

Definition findReads (e : expr) (visitUpdates : bool) (results : list expr) : result (list expr) :=
  findReads_loop (vsize e) visitUpdates (push e ([], [])) [] results.
End findReads.

(** *** What is reachable *)
Definition succs (visitUpdates : bool) (e : expr) : list expr :=
  match e with
  | ReadExpr _ head index => index :: if visitUpdates then node_exprs head else []
  | _ => kids e
  end.

Inductive reach (visitUpdates : bool) (e : expr) : expr -> Prop :=
| reach_here : reach visitUpdates e e
| reach_step x y : reach visitUpdates e x -> y ∈ succs visitUpdates x -> reach visitUpdates e y.

(** All expressions inside [e], with repetitions. *)
Fixpoint subs (e : expr) : list expr :=
  e :: match e with
       | ConstantExpr _ => []
       | ReadExpr _ un i => subs_node un ++ subs i
       | NotOptimizedExpr e | ExtractExpr e _ _ | ZExtExpr e _ | SExtExpr e _ | NotExpr e => subs e
       | SelectExpr c t f => subs c ++ subs t ++ subs f
       | ConcatExpr l r | BinExpr _ l r => subs l ++ subs r
       end
with subs_node (un : UpdateNode) : list expr :=
  match un with
  | NullNode => []
  | Node n i v => subs_node n ++ subs i ++ subs v
  end.

Lemma subs_length_mut :
  (forall e, length (subs e) = vsize e) /\ (forall un, length (subs_node un) = vsize_node un).
Proof. apply expr_node_ind; intros; simpl; rewrite ?length_app; simpl; rewrite ?length_app; lia. Qed.

Lemma subs_self e : e ∈ subs e.
Proof. destruct e; simpl; by left. Qed.

Lemma node_exprs_subs un x : x ∈ node_exprs un -> x ∈ subs_node un.
Proof.
  induction un as [|n IH i v] using UpdateNode_ind; simpl; [done|].
  rewrite !elem_of_cons, !elem_of_app. intros [->|[->|H]]; auto using subs_self.
Qed.

Lemma succs_subs vU e x : x ∈ succs vU e -> x ∈ subs e.
Proof.
  destruct e; simpl; rewrite ?elem_of_cons, ?elem_of_app, ?elem_of_nil;
    try (by intuition (subst; auto using subs_self)).
  intros [->|H]; [by right; right; apply subs_self|]. right; left.
  destruct vU; [by apply node_exprs_subs|by apply elem_of_nil in H].
Qed.

Lemma subs_trans_mut :
  (forall e x, x ∈ subs e -> forall y, y ∈ subs x -> y ∈ subs e) /\
  (forall un x, x ∈ subs_node un -> forall y, y ∈ subs x -> y ∈ subs_node un).
Proof.
  apply expr_node_ind; intros; simpl in *;
    repeat match goal with
    | H : _ ∈ _ :: _ |- _ => apply elem_of_cons in H as [->|H]; [assumption|]
    | H : _ ∈ _ ++ _ |- _ => apply elem_of_app in H as [H|H]
    end; rewrite ?elem_of_cons, ?elem_of_app; try (by apply elem_of_nil in H); eauto 6.
Qed.

Lemma reach_subs vU e x : reach vU e x -> x ∈ subs e.
Proof.
  induction 1 as [|x y H IH Hy]; [apply subs_self|].
  eapply (proj1 subs_trans_mut); [exact IH|]. by eapply succs_subs.
Qed.

Lemma subs_wf_mut :
  (forall e, wf e -> Forall wf (subs e)) /\
  (forall un root, wf_node root un -> Forall wf (subs_node un)).
Proof.
  apply expr_node_ind; intros; simpl in *; destruct_and?;
    rewrite ?Forall_cons, ?Forall_app; simpl; split_and?; eauto.
Qed.

Section findReads_correct.
Context {AP : APIntOps} {SP : APIntSpec AP}.
Variables (vU : bool) (e0 : expr) (results0 : list expr).
Hypothesis He0 : wf e0.

Definition found (x : expr) : Prop := isConst x = false /\ reach vU e0 x.

Lemma reach_wf x : reach vU e0 x -> wf x.
Proof.
  intros H. pose proof (proj1 subs_wf_mut e0 He0) as HF. rewrite Forall_forall in HF.
  by eapply HF, reach_subs.
Qed.

(** Pushing reachable expressions adds those that are new. *)
Lemma push_ok k V S :
  reach vU e0 k -> NoDup V -> Forall found V ->
  exists new, push k (V, S) = (new ++ V, new ++ S) /\ NoDup (new ++ V) /\ Forall found (new ++ V) /\
    (isConst k = false -> k ∈ new ++ V).
Proof.
  intros Hk Hnd HV. unfold push. cbn [fst snd]. destruct (isConst k) eqn:Hc; [by exists []|].
  assert (Hm : existsb (fun x => expr_eqb x k) V = true <-> k ∈ V).
  { rewrite existsb_exists. setoid_rewrite list_elem_of_In. rewrite Forall_forall in HV. split.
    - intros (x & Hx & E). apply expr_eqb_eq in E; [by subst| |by apply reach_wf].
      by apply reach_wf, HV, list_elem_of_In.
    - intros Hx. exists k. split; [done|]. apply expr_eqb_spec; try done; by apply reach_wf. }
  destruct (existsb _ V) eqn:Ex; simpl.
  - exists []. split_and!; try done. intros _. by apply Hm.
  - exists [k]. split_and!; try done.
    + constructor; [|done]. by rewrite <- Hm.
    + by constructor.
    + intros _. by left.
Qed.

Lemma push_all_ok ks V S :
  Forall (reach vU e0) ks -> NoDup V -> Forall found V ->
  exists new, push_all ks (V, S) = (new ++ V, new ++ S) /\ NoDup (new ++ V) /\ Forall found (new ++ V) /\
    forall k, k ∈ ks -> isConst k = false -> k ∈ new ++ V.
Proof.
  intros Hks. revert V S. induction Hks as [|k ks Hk Hks IH]; intros V S Hnd HV.
  { exists []. split_and!; try done. intros k Hk. by apply elem_of_nil in Hk. }
  destruct (push_ok k V S Hk Hnd HV) as (new & E & Hnd' & HV' & Hin).
  destruct (IH (new ++ V) (new ++ S) Hnd' HV') as (new' & E' & Hnd'' & HV'' & Hin').
  exists (new' ++ new). rewrite <- !app_assoc. split_and!; try done.
  - unfold push_all in *. simpl. by rewrite E, E'.
  - intros x [->|Hx]%elem_of_cons Hc; [|auto]. apply elem_of_app. auto.
Qed.

(** [popped]: what has been popped. *)
Record loop_inv (V S : list expr) (updates : list UpdateNode) (results popped : list expr) : Prop := {
  inv_perm : V ≡ₚ popped ++ S;
  inv_nodup : NoDup V;
  inv_found : Forall found V;
  inv_results : results = results0 ++ filter (fun x => is_read x = true) popped;
  inv_closed : forall x y, x ∈ popped -> y ∈ succs vU x -> isConst y = false -> y ∈ V;
  inv_updates : forall un y, un ∈ updates -> y ∈ node_exprs un -> isConst y = false -> y ∈ V;
}.

(** Popping [top] and pushing expressions [ks] that, with what the update lists
    already gave, are its successors. *)
Lemma loop_inv_step V top S updates updates' results results' popped ks :
  loop_inv V (top :: S) updates results popped ->
  results' = results ++ (if is_read top then [top] else []) ->
  (forall y, y ∈ ks -> y ∈ succs vU top) ->
  (forall y, y ∈ succs vU top -> y ∈ ks \/ exists un, un ∈ updates /\ y ∈ node_exprs un) ->
  (forall un, un ∈ updates' -> un ∈ updates \/ forall y, y ∈ node_exprs un -> y ∈ ks) ->
  exists V' S', push_all ks (V, S) = (V', S') /\
    loop_inv V' S' updates' results' (popped ++ [top]) /\ forall x, x ∈ V -> x ∈ V'.
Proof.
  intros [Hp Hnd HV Hres Hcl Hup] Hr' Hks Hsuc Hupd.
  assert (Htop : reach vU e0 top).
  { rewrite Forall_forall in HV. apply (HV top). rewrite Hp. apply elem_of_app. right. by left. }
  destruct (push_all_ok ks V S) as (new & E & Hnd' & HV' & Hin); try done.
  { apply Forall_forall. intros y Hy. by eapply reach_step, Hks. }
  exists (new ++ V), (new ++ S). split; [done|].
  assert (Hold : forall y, y ∈ V -> y ∈ new ++ V) by (intros; apply elem_of_app; by right).
  split; [|done]. constructor; try done.
  - rewrite Hp. rewrite <- app_assoc. simpl. rewrite !app_assoc, (Permutation_app_comm new popped).
    rewrite <- !app_assoc. by rewrite Permutation_middle.
  - rewrite Hr', Hres, filter_app, <- app_assoc. do 2 f_equal. by destruct top.
  - intros x y [Hx|Hx]%elem_of_app Hy Hc; [by eauto|]. apply list_elem_of_singleton in Hx as ->.
    destruct (Hsuc y Hy) as [|(un & Hu & Hy')]; eauto.
  - intros un y Hu Hy Hc. destruct (Hupd un Hu) as [|H]; eauto.
Qed.

Lemma done_bound V S updates results popped :
  loop_inv V S updates results popped -> (length popped + length S <= vsize e0)%nat.
Proof.
  intros [Hp Hnd HV _ _ _]. rewrite <- length_app, <- Hp, <- (proj1 subs_length_mut e0).
  apply NoDup_incl_length; [by apply NoDup_ListNoDup|]. intros x Hx. apply list_elem_of_In.
  rewrite List.Forall_forall in HV. destruct (HV x Hx) as [_ Hr]. by eapply reach_subs.
Qed.

(** The popped expressions at the end: closed under successors. *)
Definition closed_set (V : list expr) : Prop :=
  NoDup V /\ Forall found V /\
  forall x y, x ∈ V -> y ∈ succs vU x -> isConst y = false -> y ∈ V.

Lemma loop_inv_end V updates results popped :
  loop_inv V [] updates results popped -> closed_set popped /\ forall x, x ∈ V <-> x ∈ popped.
Proof.
  intros [Hp Hnd HV _ Hcl _]. rewrite app_nil_r in Hp.
  assert (HE : forall x, x ∈ V <-> x ∈ popped) by (intros; by rewrite Hp).
  split; [|done]. split_and!; [by rewrite <- Hp|by rewrite <- Hp|]. intros x y Hx Hy Hc. apply HE; eauto.
Qed.

Lemma findReads_loop_ok n V S updates results popped :
  loop_inv V S updates results popped -> (vsize e0 <= n + length popped)%nat ->
  exists final, closed_set final /\ (forall x, x ∈ V -> x ∈ final) /\
    findReads_loop n vU (V, S) updates results = Ok (results0 ++ filter (fun x => is_read x = true) final).
Proof.
  revert V S updates results popped. induction n as [|n IH]; intros V S updates results popped HI Hn;
    pose proof (done_bound _ _ _ _ _ HI) as Hb; (destruct S as [|top S];
    [destruct (loop_inv_end _ _ _ _ HI) as [? HE]; exists popped;
     rewrite <- (inv_results _ _ _ _ _ HI); split_and!; [done|by intros; apply HE|done]|]).
  { simpl in *. lia. }
  assert (Hgo : forall ks updates' results',
    results' = results ++ (if is_read top then [top] else []) ->
    (forall y, y ∈ ks -> y ∈ succs vU top) ->
    (forall y, y ∈ succs vU top -> y ∈ ks \/ exists un, un ∈ updates /\ y ∈ node_exprs un) ->
    (forall un, un ∈ updates' -> un ∈ updates \/ forall y, y ∈ node_exprs un -> y ∈ ks) ->
    exists final, closed_set final /\ (forall x, x ∈ V -> x ∈ final) /\
      findReads_loop n vU (push_all ks (V, S)) updates' results'
        = Ok (results0 ++ filter (fun x => is_read x = true) final)).
  { intros ks updates' results' H1 H2 H3 H4.
    destruct (loop_inv_step V top S updates updates' results results' popped ks HI H1 H2 H3 H4)
      as (V' & S' & E & HI' & Hsub). rewrite E.
    destruct (IH V' S' updates' results' _ HI') as (final & Hf & HV' & ->).
    - rewrite length_app. simpl. lia.
    - exists final. split_and!; auto. }
  destruct top as [| |root head index| | | | | | |]; cbn [findReads_loop snd fst];
    try (apply Hgo; simpl; [by rewrite app_nil_r|done|by left|by left]).
  destruct vU eqn:EvU; cbn [andb]; [case_bool_decide as Hin; cbn [negb]|].
  - apply (Hgo [index]); simpl; [done| | |by left].
    { intros y Hy%list_elem_of_singleton. subst. by left. }
    rewrite ?EvU. intros y [->|Hy]%elem_of_cons; [left; by left|right; eauto].
  - apply (Hgo (index :: node_exprs head)); simpl; rewrite ?EvU; [done|done|by left|].
    intros un [->|Hu]%elem_of_cons; [right; by right|by left].
  - apply (Hgo [index]); simpl; rewrite ?EvU; [done|done|by left|by left].
Qed.

Lemma findReads_ok :
  exists final, closed_set final /\ (isConst e0 = false -> e0 ∈ final) /\
    findReads e0 vU results0 = Ok (results0 ++ filter (fun x => is_read x = true) final).
Proof.
  unfold findReads. destruct (push_ok e0 [] []) as (new & E & Hnd & HV & Hin);
    [constructor|constructor|constructor|].
  rewrite E. destruct (findReads_loop_ok (vsize e0) (new ++ []) (new ++ []) [] results0 []) as (final & Hf & HV' & ->).
  - constructor; try done; [by rewrite app_nil_r|..]; intros ? ? H; by apply elem_of_nil in H.
  - lia.
  - exists final. split_and!; auto.
Qed.
End findReads_correct.

(** [findReads] terminates and appends to the vector, without repetition,
    exactly the [ReadExpr]s reachable from the expression: through operands, and
    through the update lists of reads if [visitUpdates] is set. *)
Theorem findReads_correct {AP : APIntOps} {SP : APIntSpec AP}
    (e : expr) (visitUpdates : bool) (results : list expr) (He : wf e) :
  exists reads, findReads e visitUpdates results = Ok (results ++ reads) /\ NoDup reads /\
    forall x, x ∈ reads <-> is_read x = true /\ reach visitUpdates e x.
Proof.
  destruct (findReads_ok visitUpdates e results He) as (final & (Hnd & HF & Hcl) & H0 & ->).
  eexists. split; [done|]. split; [by apply NoDup_filter|].
  assert (Hall : forall x, reach visitUpdates e x -> isConst x = false -> x ∈ final).
  { induction 1 as [|x y Hx IH Hy]; [done|]. apply (Hcl x); [|done].
    apply IH. destruct x; try done. by apply elem_of_nil in Hy. }
  intros x. rewrite list_elem_of_filter. rewrite Forall_forall in HF. split.
  - intros [Hr Hx]. split; [done|]. by apply HF.
  - intros [Hr Hx]. split; [done|]. apply Hall; [done|]. by destruct x.
Qed.

(** [buf] written at a symbolic index with a byte of [buf], then read. *)
Definition written : expr :=
  ReadExpr buf (Node NullNode (ZExtExpr (byte 2) Int32) (byte 3)) (ZExtExpr (byte 1) Int32).

Lemma findReads_correct_witness :
  findReads (AP := ZOps) written true [] = Ok [written; byte 3; byte 2; byte 1] /\
  exists reads, findReads (AP := ZOps) written true [] = Ok ([] ++ reads) /\ byte 3 ∈ reads.
Proof.
  split; [vm_compute; reflexivity|].
  destruct (findReads_correct (AP := ZOps) written true [] ltac:(concrete)) as (reads & E & _ & H).
  exists reads. split; [exact E|]. apply H. split; [done|].
  apply (reach_step _ _ written); [apply reach_here|]. right. right. by left.
Defined.

(** ** findSymbolicObjects *)

(** [results] and [objects] *)
Definition finder_state : Type := list Array * list Array.

(** An assignment to the fields of the derived class. *)
Definition modify {U} (f : U -> U) : M U unit := fun s => Ok (tt, (fst s, f (snd s))).

Section finder.
Context {AP : APIntOps} {CFG : Config}.

Definition add_object (root : Array) (u : finder_state) : finder_state :=
  if decide (root ∈ fst u) then u else (root :: fst u, snd u ++ [root]).

(** The loop over the update nodes. *)
Fixpoint visit_updates (visit : expr -> M finder_state expr) (un : UpdateNode) : M finder_state unit :=
  match un with
  | NullNode => mret tt
  | Node next index value =>
      _ ← visit index;
      _ ← visit value;
      visit_updates visit next
  end.

(** [SymbolicObjectFinder::visitRead] *)
Definition finder_visitKind (k : Kind.t) (visit : expr -> M finder_state expr) (e : expr)
    : M finder_state Action :=
  match e with
  | ReadExpr root un _ =>
      _ ← visit_updates visit un;
      _ ← modify (if isSymbolicArray root then add_object root else id);
      mret DoChildren
  | _ => mret DoChildren
  end.

Definition SymbolicObjectFinder : ExprVisitor finder_state := {|
  recursive := false;
  visitExpr := base_visitExpr;
  visitKind := finder_visitKind;
  visitExprPost := base_visitExprPost;
|}.

(** [findSymbolicObjects(begin, end, results)] *)
Fixpoint find_objects (es : list expr) (s : visited_ty * finder_state)
    : result (visited_ty * finder_state) :=
  match es with
  | [] => Ok s
  | e :: es' => p ← visit SymbolicObjectFinder (vsize e) e s; find_objects es' (snd p)
  end.
Definition findSymbolicObjects (es : list expr) (results : list Array) : result (list Array) :=
  s ← find_objects es ([], ([], results)); Ok (snd (snd s)).
End finder.

(** The symbolic arrays an expression mentions, anywhere. *)
Fixpoint syms (e : expr) : list Array :=
  match e with
  | ConstantExpr _ => []
  | ReadExpr root un i => (if isSymbolicArray root then [root] else []) ++ syms_node un ++ syms i
  | NotOptimizedExpr e | ExtractExpr e _ _ | ZExtExpr e _ | SExtExpr e _ | NotExpr e => syms e
  | SelectExpr c t f => syms c ++ syms t ++ syms f
  | ConcatExpr l r | BinExpr _ l r => syms l ++ syms r
  end
with syms_node (un : UpdateNode) : list Array :=
  match un with
  | NullNode => []
  | Node n i v => syms_node n ++ syms i ++ syms v
  end.

Lemma syms_kids e k a : k ∈ kids e -> a ∈ syms k -> a ∈ syms e.
Proof.
  destruct e; simpl; rewrite ?elem_of_cons, ?elem_of_nil, ?elem_of_app; intuition (subst; auto).
Qed.

Lemma elem_of_syms_list a ks : a ∈ concat (map syms ks) <-> exists k, k ∈ ks /\ a ∈ syms k.
Proof.
  rewrite list_elem_of_In, in_concat. setoid_rewrite in_map_iff. setoid_rewrite list_elem_of_In.
  split; [intros (x & (k & <- & Hk) & Ha)|intros (k & Hk & Ha)]; eauto.
Qed.

(** What [e] mentions outside its kids. *)
Definition own_syms (e : expr) : list Array :=
  match e with
  | ReadExpr root un _ => (if isSymbolicArray root then [root] else []) ++ syms_node un
  | _ => []
  end.

Lemma syms_split e a : a ∈ syms e <-> a ∈ own_syms e \/ exists k, k ∈ kids e /\ a ∈ syms k.
Proof.
  split.
  - destruct e; simpl; rewrite ?elem_of_app, ?elem_of_nil; try done; intros;
      repeat match goal with H : _ \/ _ |- _ => destruct H end; auto;
      right; eexists; (split; [|eassumption]); rewrite !elem_of_cons; auto.
  - intros [H|(k & Hk & H)]; [|by eapply syms_kids]. destruct e; simpl in *; try (by apply elem_of_nil in H).
    rewrite !elem_of_app in *. tauto.
Qed.

Section finder_correct.
Context {AP : APIntOps} {SP : APIntSpec AP} {CFG : Config}.
Variable objs0 : list Array.

Abbreviation St := (visited_ty * finder_state)%type.

(** The expressions in the memo table are mapped to themselves and their arrays
    are known; [objects] is extended by the arrays known, once each. *)
Definition fin_ok (s : St) : Prop :=
  Forall (fun p => wf p.1 /\ p.2 = p.1 /\ forall a, a ∈ syms p.1 -> a ∈ s.2.1) s.1 /\
  exists new, s.2.2 = objs0 ++ new /\ NoDup new /\ forall a, a ∈ s.2.1 <-> a ∈ new.

(** [s'] knows what [s] knows and the arrays of [X]. *)
Definition grows (s : St) (X : list Array) (s' : St) : Prop :=
  fin_ok s' /\ forall a, a ∈ s'.2.1 <-> a ∈ s.2.1 \/ a ∈ X.

Lemma grows_nil s : fin_ok s -> grows s [] s.
Proof. intros H. split; [done|]. intros a. rewrite elem_of_nil. tauto. Qed.

Lemma grows_trans s X s1 Y s2 Z :
  (forall a, a ∈ Z <-> a ∈ X \/ a ∈ Y) -> grows s X s1 -> grows s1 Y s2 -> grows s Z s2.
Proof. intros HZ [_ H1] [Ok2 H2]. split; [done|]. intros a. rewrite H2, H1, HZ. tauto. Qed.

Lemma add_object_grows t u root :
  fin_ok (t, u) -> grows (t, u) [root] (t, add_object root u).
Proof.
  destruct u as [res objs]. intros [Hm (new & Ho & Hnd & HE)]. cbn [fst snd] in *.
  unfold add_object. cbn [fst snd]. case_decide as Hin.
  - split; [by split; eauto|]. cbn [fst snd]. intros a. rewrite list_elem_of_singleton.
    split; [tauto|by intros [?| ->]].
  - assert (Hg : forall a, a ∈ root :: res <-> a ∈ res \/ a = root) by (intros; rewrite elem_of_cons; tauto).
    split; [|intros a; simpl; rewrite Hg, list_elem_of_singleton; tauto]. split.
    + eapply Forall_impl; [exact Hm|]. simpl. intros p (? & ? & H). split_and!; try done.
      intros a Ha. apply Hg. auto.
    + exists (new ++ [root]). cbn [fst snd]. subst objs. split_and!; [by rewrite app_assoc| |].
      * apply NoDup_app. split_and!; [done| |apply NoDup_singleton].
        intros x Hx ->%list_elem_of_singleton. by apply Hin, HE.
      * intros a. rewrite Hg, HE, elem_of_app, list_elem_of_singleton. tauto.
Qed.

Lemma visited_insert_fin t u e :
  fin_ok (t, u) -> wf e -> (forall a, a ∈ syms e -> a ∈ u.1) -> fin_ok (visited_insert t e e, u).
Proof.
  intros [Hm Ho] He Ha. split; [|done]. simpl in *. unfold visited_insert. case_match; [done|]. by constructor.
Qed.

Lemma visited_find_syms (t : visited_ty) (known : list Array) e r :
  Forall (fun p => wf p.1 /\ p.2 = p.1 /\ forall a, a ∈ syms p.1 -> a ∈ known) t -> wf e ->
  visited_find t e = Some r -> r = e /\ forall a, a ∈ syms e -> a ∈ known.
Proof.
  intros Ht He. induction Ht as [|[k x] t (Hk & Hx & Ha) Ht IH]; simpl; [done|].
  destruct (expr_eqb k e) eqn:E; [|done]. intros [= <-]. simpl in *.
  apply expr_eqb_eq in E; [by subst|done..].
Qed.

(** What a visit does. *)
Definition fin_spec (vis : expr -> M finder_state expr) (e : expr) : Prop :=
  forall s, wf e -> fin_ok s -> returns (vis e s) (fun p => p.1 = e /\ grows s (syms e) p.2).

Lemma M_bind_returns {U A B} (m : M U A) (f : A -> M U B) s P Q :
  returns (m s) P -> (forall a s', P (a, s') -> returns (f a s') Q) -> returns ((m ≫= f) s) Q.
Proof. intros ([a s'] & E & H) Hf. unfold mbind, M_bind. rewrite E. by apply Hf. Qed.

Lemma visit_updates_ok vis root un :
  wf_node root un -> (forall x, x ∈ node_exprs un -> fin_spec vis x) ->
  forall s, fin_ok s -> returns (visit_updates vis un s) (fun p => grows s (syms_node un) p.2).
Proof.
  induction un as [|n IH i v] using UpdateNode_ind; intros Hw Hv s Hs; cbn [visit_updates].
  { apply returns_ok. by apply grows_nil. }
  destruct Hw as (Hn & Hi & Hva & _).
  eapply M_bind_returns; [by apply (Hv i); [left|..]|]. intros ? s1 [_ G1].
  eapply M_bind_returns; [by apply (Hv v); [right; left|apply Hva|apply G1]|]. intros ? s2 [_ G2].
  eapply returns_weaken; [apply IH; [done|intros x Hx; apply Hv; by do 2 right|apply G2]|].
  intros [? s3] G3. cbn [fst snd] in *.
  eapply (grows_trans s (syms i ++ syms v)); [|by eapply grows_trans; [apply elem_of_app|..]|exact G3].
  intros b. cbn [syms_node]. rewrite !elem_of_app. tauto.
Qed.

Lemma finder_visitKind_ok vis e :
  wf e -> (forall x, (vsize x < vsize e)%nat -> fin_spec vis x) -> forall s, fin_ok s ->
  returns (finder_visitKind (getKind e) vis e s) (fun p => p.1 = DoChildren /\ grows s (own_syms e) p.2).
Proof.
  intros He Hv s Hs. destruct e as [| |root un i| | | | | | |];
    try (by apply returns_ok; split; [|apply grows_nil]).
  destruct He as (_ & Hn & _ & _). cbn [finder_visitKind].
  eapply M_bind_returns; [apply (visit_updates_ok vis root); [done| |done]|].
  { intros x Hx. apply Hv. simpl. clear -Hx. induction un as [|n IH a b] using UpdateNode_ind; simpl in *.
    - by apply elem_of_nil in Hx.
    - apply elem_of_cons in Hx as [->|[->|Hx]%elem_of_cons]; [lia..|]. specialize (IH Hx). lia. }
  intros [] [t u] G1. apply returns_ok. split; [done|]. simpl in *. destruct (isSymbolicArray root).
  - eapply grows_trans; [|exact G1|by apply add_object_grows, G1]. intros a. rewrite elem_of_app. tauto.
  - done.
Qed.

Lemma visit_kids_fin vis ks :
  Forall wf ks -> (forall x, x ∈ ks -> fin_spec vis x) -> forall s, fin_ok s ->
  returns (visit_kids vis ks s) (fun p => p.1 = (ks, false) /\ grows s (concat (map syms ks)) p.2).
Proof.
  intros Hw. induction Hw as [|k ks Hk Hw IH]; intros Hv s Hs; cbn [visit_kids].
  { apply returns_ok. split; [done|]. by apply grows_nil. }
  eapply M_bind_returns; [by apply (Hv k); [left|..]|]. intros ? s1 [E1 G1]; simpl in E1; subst.
  eapply M_bind_returns; [apply IH; [intros x Hx; apply Hv; by right|apply G1]|].
  intros ? s2 [E2 G2]; simpl in E2; subst. apply returns_ok. simpl. rewrite (proj2 (expr_eqb_spec k k Hk Hk)) by done.
  split; [done|]. eapply grows_trans; [|exact G1|exact G2]. intros a. by rewrite elem_of_app.
Qed.

Lemma kids_wf e : wf e -> Forall wf (kids e).
Proof. destruct e; simpl; intros; destruct_and?; rewrite ?Forall_cons, ?Forall_nil; done. Qed.

Lemma finder_visitActual_ok vis e :
  (forall x, (vsize x < vsize e)%nat -> fin_spec vis x) ->
  fin_spec (visitActual SymbolicObjectFinder vis) e.
Proof.
  intros Hv s He Hs. unfold visitActual. destruct (isConst e) eqn:Hc.
  { apply returns_ok. split; [done|]. destruct e; try done. by apply grows_nil. }
  eapply M_bind_returns; [by apply (returns_ok (DoChildren, s) (fun p => p = (DoChildren, s)))|].
  intros ? ? [= -> ->]. eapply M_bind_returns; [by apply finder_visitKind_ok|]. intros ? s1 [E1 G1]; simpl in E1; subst.
  eapply M_bind_returns; [apply visit_kids_fin; [by apply kids_wf| |apply G1]|].
  { intros x Hx. apply Hv. pose proof (vsize_kids e) as HF. rewrite Forall_forall in HF. auto. }
  intros ? s2 [E2 G2]; simpl in E2; subst. cbn [fst snd]. eapply M_bind_returns; [by apply (returns_ok (e, s2) (fun p => p = (e, s2)))|].
  intros ? ? [= -> ->]. rewrite Hc. apply returns_ok. split; [done|]. cbn [snd].
  eapply grows_trans; [|exact G1|exact G2]. intros a. rewrite syms_split.
  by rewrite elem_of_syms_list.
Qed.

Lemma finder_visit_ok n e : (vsize e <= n)%nat -> fin_spec (visit SymbolicObjectFinder n) e.
Proof.
  revert e. induction n as [|n IH]; intros e Hn s He Hs; [pose proof (vsize_pos e); lia|].
  assert (HA : fin_spec (visitActual SymbolicObjectFinder (visit SymbolicObjectFinder n)) e).
  { apply finder_visitActual_ok. intros x Hx. apply IH. lia. }
  cbn [visit]. unfold visit'. destruct (negb UseVisitorHash || isConst e); [by apply HA|].
  destruct (visited_find (fst s) e) as [r|] eqn:Hf.
  - apply returns_ok. cbn [fst snd]. pose proof Hs as [Hm _].
    destruct (visited_find_syms (fst s) (snd s).1 e r Hm He Hf) as [-> Ha].
    split; [done|]. split; [done|]. intros a. split; [by left|intros [?|?]; auto].
  - destruct (HA s He Hs) as ([r [t u]] & -> & [Er [Hok Hg]]). apply returns_ok. cbn [fst snd] in *. subst r.
    split; [done|]. split; [|done]. apply visited_insert_fin; [done..|].
    intros a Ha. apply Hg. by right.
Qed.

Lemma find_objects_ok es s :
  Forall wf es -> fin_ok s -> returns (find_objects es s) (grows s (concat (map syms es))).
Proof.
  intros Hw. revert s. induction Hw as [|e es He Hw IH]; intros s Hs; cbn [find_objects].
  { apply returns_ok. by apply grows_nil. }
  destruct (finder_visit_ok (vsize e) e (le_n _) s He Hs) as ([r s1] & -> & _ & G1).
  cbn [mbind result_bind snd]. eapply returns_weaken; [apply IH, G1|]. intros s2 G2.
  eapply grows_trans; [|exact G1|exact G2]. intros a. cbn [map concat]. by rewrite elem_of_app.
Qed.
End finder_correct.

(** Two environments that give the same bytes to the arrays of [X], and to the
    constant arrays (whose contents outside their bounds are unknown). *)
Definition agree_on (X : list Array) (rho rho' : env) : Prop :=
  forall a i, a ∈ X \/ isSymbolicArray a = false -> rho a i = rho' a i.

Lemma agree_on_sub X Y rho rho' : (forall a, a ∈ X -> a ∈ Y) -> agree_on Y rho rho' -> agree_on X rho rho'.
Proof. intros HX H a i [Ha|Ha]; apply H; auto. Qed.

Lemma agree_on_app X Y rho rho' :
  agree_on (X ++ Y) rho rho' <-> agree_on X rho rho' /\ agree_on Y rho rho'.
Proof.
  split.
  - intros H. split; (eapply agree_on_sub; [|exact H]); intros; apply elem_of_app; auto.
  - intros [HX HY] a i [[Ha|Ha]%elem_of_app|Ha]; auto.
Qed.

Lemma eval_agree_mut {CFG : Config} rho rho' :
  (forall e, agree_on (syms e) rho rho' -> eval rho e = eval rho' e) /\
  (forall un root i, agree_on ((if isSymbolicArray root then [root] else []) ++ syms_node un) rho rho' ->
     eval_node rho root un i = eval_node rho' root un i).
Proof.
  apply expr_node_ind; intros; simpl in *;
    repeat match goal with
    | H : agree_on (_ ++ _) _ _ |- _ => apply agree_on_app in H as [? H]
    | H : agree_on ?X _ _ -> eval _ _ = _, H' : agree_on ?X _ _ |- _ => rewrite (H H'); clear H
    end; try done.
  - destruct (eval rho' index); simpl; [|done]. apply H. by apply agree_on_app.
  - unfold initial. destruct (isSymbolicArray root) eqn:Es.
    + rewrite (H0 root i); [done|]. left. by left.
    + by rewrite (H0 root i); [|by right].
  - by rewrite H by (by apply agree_on_app).
Qed.

Lemma findSymbolicObjects_ok {AP : APIntOps} {SP : APIntSpec AP} {CFG : Config}
    (es : list expr) (results : list Array) :
  Forall wf es ->
  exists new, findSymbolicObjects es results = Ok (results ++ new) /\ NoDup new /\
    forall a, a ∈ new <-> exists e, e ∈ es /\ a ∈ syms e.
Proof.
  intros Hes.
  destruct (find_objects_ok results es ([], ([], results)) Hes) as ([t u] & E & (_ & new & Ho & Hnd & HE) & Hg).
  { split; [constructor|]. exists []. split_and!; [by rewrite app_nil_r|constructor|done]. }
  exists new. unfold findSymbolicObjects. rewrite E. cbn [mbind result_bind snd fst] in *. rewrite Ho.
  split_and!; try done. intros a. rewrite <- HE, Hg, elem_of_nil, elem_of_syms_list. tauto.
Qed.

(** [findSymbolicObjects] terminates on every range of expressions and appends
    to the vector, without repetition, exactly the symbolic arrays the expressions
    mention, in operands and in update lists. *)
Theorem findSymbolicObjects_correct {AP : APIntOps} {SP : APIntSpec AP} {CFG : Config}
    (es : list expr) (results : list Array) (Hes : Forall wf es) :
  exists new, findSymbolicObjects es results = Ok (results ++ new) /\ NoDup new /\
    forall a, a ∈ new <-> exists e, e ∈ es /\ a ∈ syms e.
Proof. by apply findSymbolicObjects_ok. Qed.

Lemma findSymbolicObjects_correct_witness :
  exists new, findSymbolicObjects (AP := ZOps) (CFG := default_config) [flag; written] [] = Ok ([] ++ new) /\ buf ∈ new.
Proof.
  destruct (findSymbolicObjects_correct (AP := ZOps) (CFG := default_config) [flag; written] [] ltac:(concrete))
    as (new & E & _ & H).
  exists new. split; [exact E|]. apply H. exists flag. split; [by left|]. by left.
Defined.

(** The objects found are all an expression depends on: environments that
    agree on them (and on constant arrays outside their bounds) give it the same
    value, or none alike. *)
Theorem findSymbolicObjects_sufficient {AP : APIntOps} {SP : APIntSpec AP} {CFG : Config}
    (e : expr) (objects : list Array) (rho rho' : env) (He : wf e)
    (Hf : findSymbolicObjects [e] [] = Ok objects) (Hag : agree_on objects rho rho') :
  eval rho e = eval rho' e.
Proof.
  destruct (findSymbolicObjects_ok [e] []) as (new & E & _ & HE); [by repeat constructor|].
  rewrite E in Hf. simplify_eq. apply (proj1 (eval_agree_mut rho rho')). intros a i [Ha|Ha]; apply Hag; [left|by right].
  apply HE. exists e. split; [by left|done].
Qed.

Lemma findSymbolicObjects_sufficient_witness :
  eval (CFG := default_config) ramp flag =
  eval (CFG := default_config) (fun a i => if decide (a = buf) then i mod 256 else ramp a i) flag.
Proof.
  apply (findSymbolicObjects_sufficient (AP := ZOps) (CFG := default_config) flag [buf]); [concrete|concrete|].
  intros a i _. unfold ramp. by case_decide.
Defined.
