(* ===== verification/ExprWeight.v ===== *)
(** * Weights: what the simplifying constructors cannot increase

    Every constructor of Expr.cpp rearranges its operands without duplicating
    them.  A weight counts, in an expression with its update lists, the reads
    (each array with a weight of its own) and the nodes whose operands are all
    constant; no constructor returns more weight than it was given.  Two
    instances are used later: the number of reads bounds how often the constraint
    manager can rewrite, and the weight that only counts reads of arrays outside
    a set shows that simplification introduces no array.  [-const-array-opt],
    which is off by default, does duplicate an operand. *)

From S2P Require Import Prelude APInt ExprData Samples Bits ExprCompare ExprCreate ExprCreateSound ExprStructSound ExprVisitor.

Section weight.
(** [mo]: weight of a [NotOptimizedExpr]; [mz]: weight of a division by a literal
    zero; [m]: weight of a node over constants; [wa]: weight of a read of an array. *)
Variables (mo mz m : nat) (wa : Array -> nat).

Definition zero_divisor (k : Kind.bin) (r : expr) : bool :=
  isDiv k && match r with ConstantExpr c => (raw c =? 0)%Z | _ => false end.

Fixpoint wt (e : expr) : nat :=
  match e with
  | ConstantExpr _ => 0
  | NotOptimizedExpr src => mo + wt src
  | ReadExpr root un index => wa root + wt_node un + wt index
  | SelectExpr c t f => m `max` (wt c + wt t + wt f)
  | ConcatExpr l r => m `max` (wt l + wt r)
  | BinExpr k l r => (if zero_divisor k r then mz else 0) + m `max` (wt l + wt r)
  | ExtractExpr e _ _ | ZExtExpr e _ | SExtExpr e _ | NotExpr e => m `max` wt e
  end
with wt_node (un : UpdateNode) : nat :=
  match un with
  | NullNode => 0
  | Node next index value => wt_node next + wt index + wt value
  end.

(** What [x] returns weighs at most [n]. *)
Definition light (x : result expr) (n : nat) : Prop := forall r, x = Ok r -> wt r <= n.

Lemma light_ok e n : wt e <= n -> light (Ok e) n.
Proof. by intros H r [= <-]. Qed.

Lemma light_const c n : light (Ok (ConstantExpr c)) n.
Proof. apply light_ok. simpl. lia. Qed.

Lemma light_weaken x a b : light x a -> a <= b -> light x b.
Proof. intros H ? r Hr. specialize (H r Hr). lia. Qed.

Lemma light_bind x f a b :
  light x a -> (forall e, wt e <= a -> light (f e) b) -> light (x ≫= f) b.
Proof. intros Hx Hf r Hr. destruct x as [e| |]; try discriminate. apply (Hf e); auto. Qed.

Lemma light_any {A} (x : result A) f b : (forall a, light (f a) b) -> light (x ≫= f) b.
Proof. intros Hf r Hr. destruct x as [a| |]; try discriminate. by apply (Hf a). Qed.

Hypothesis Hwa : forall a, m <= wa a.
Hypothesis Hmo : m <= mo.

Lemma wt_nonconst e : isConst e = false -> m <= wt e.
Proof. destruct e; simpl; try done; intros _; try lia. pose proof (Hwa root). lia. Qed.

Context {AP : APIntOps} {CFG : Config}.
Hypothesis Hopt : ConstArrayOpt = false.

Abbreviation sum l r := (wt l + wt r).

(** Case analysis of the macros: the operands are not both constant. *)
Lemma BCREATE_light op cr l r n :
  (isConst l = false \/ isConst r = false -> light (cr l r) n) -> light (BCREATE op cr l r) n.
Proof.
  intros H. unfold BCREATE. apply light_any. intros _.
  destruct l, r; try (by apply H; auto). apply light_any. intros c. apply light_const.
Qed.

Lemma BCREATE_R_light op pL pR cr l r n :
  (forall c, l = ConstantExpr c -> isConst r = false -> light (pR c r) n) ->
  (forall c, r = ConstantExpr c -> isConst l = false -> light (pL l c) n) ->
  (isConst l = false -> isConst r = false -> light (cr l r) n) ->
  light (BCREATE_R op pL pR cr l r) n.
Proof.
  intros HR HL H. unfold BCREATE_R. apply light_any. intros _.
  destruct l, r; try (by apply H); try (by apply HR); try (by apply HL).
  apply light_any. intros c. apply light_const.
Qed.

(** A node over operands of which one is not constant. *)
Lemma light_node e n : m <= n -> wt e <= m `max` n -> light (Ok e) n.
Proof. intros. apply light_ok. lia. Qed.

Lemma sum_nonconst l r : isConst l = false \/ isConst r = false -> m <= sum l r.
Proof. intros [H|H]; apply wt_nonconst in H; lia. Qed.

Lemma light_bin k l r :
  isDiv k = false \/ mz = 0 -> isConst l = false \/ isConst r = false -> light (Ok (BinExpr k l r)) (sum l r).
Proof.
  intros Hk H. apply light_node; [by apply sum_nonconst|]. simpl. unfold zero_divisor.
  destruct Hk as [Hk|Hk]; rewrite Hk; simpl; [|case_match]; lia.
Qed.

Lemma AndExpr_createPartial_light l c :
  isConst l = false -> light (AndExpr_createPartial l c) (wt l).
Proof.
  intros H. apply wt_nonconst in H. unfold AndExpr_createPartial.
  repeat case_match; apply light_ok; simpl; lia.
Qed.

Lemma OrExpr_createPartial_light l c :
  isConst l = false -> light (OrExpr_createPartial l c) (wt l).
Proof.
  intros H. apply wt_nonconst in H. unfold OrExpr_createPartial.
  repeat case_match; apply light_ok; simpl; lia.
Qed.

Lemma AndExpr_create_light l r : light (AndExpr_create l r) (sum l r).
Proof.
  apply BCREATE_R_light; [intros c -> H..|intros H _]; simpl.
  - by apply AndExpr_createPartial_light.
  - rewrite Nat.add_0_r. by apply AndExpr_createPartial_light.
  - by apply light_bin; [left|left].
Qed.

Lemma OrExpr_create_light l r : light (OrExpr_create l r) (sum l r).
Proof.
  apply BCREATE_R_light; [intros c -> H..|intros H _]; simpl.
  - by apply OrExpr_createPartial_light.
  - rewrite Nat.add_0_r. by apply OrExpr_createPartial_light.
  - by apply light_bin; [left|left].
Qed.

Lemma MulExpr_createPartialR_light c r :
  isConst r = false -> light (MulExpr_createPartialR c r) (wt r).
Proof.
  intros H. unfold MulExpr_createPartialR. case_match; [by apply AndExpr_createPartial_light|].
  apply wt_nonconst in H. repeat case_match; apply light_ok; simpl; lia.
Qed.

Lemma MulExpr_create_light l r : light (MulExpr_create l r) (sum l r).
Proof.
  apply BCREATE_R_light; [intros c -> H..|intros H _]; simpl.
  - by apply MulExpr_createPartialR_light.
  - rewrite Nat.add_0_r. by apply MulExpr_createPartialR_light.
  - unfold MulExpr_create'. case_match; by apply light_bin; [left|left].
Qed.

(** ** Eq *)
Lemma EqExpr_create'_light l r : light (EqExpr_create' l r) (m `max` sum l r).
Proof. unfold EqExpr_create'. case_match; [apply light_const|by apply light_ok]. Qed.

Lemma Eq_c_light l c :
  light (EqExpr_createPartialR c l) (m `max` wt l) ->
  light (_ ← massert (getWidth l =? bw c)%Z;
         match l with ConstantExpr cl => Ok (ConstantExpr (CE_Eq cl c)) | _ => EqExpr_createPartialR c l end)
    (wt l).
Proof.
  intros H. apply light_any. intros _. destruct (isConst l) eqn:Hl.
  - destruct l; try done. apply light_const.
  - pose proof (wt_nonconst l Hl). rewrite Nat.max_r in H by done. by destruct l.
Qed.

Lemma EqExpr_createPartialR_light r c : light (EqExpr_createPartialR c r) (m `max` wt r).
Proof.
  revert c. induction r as [v|src IH|root un idx IH|c0 IHc t IHt f IHf|a IHa b IHb|e IH o w|src IH w
    |src IH w|e IH|k a IHa b IHb]; intros c;
    match goal with |- light (EqExpr_createPartialR _ ?r) _ =>
      pose proof (EqExpr_create'_light (ConstantExpr c) r) as Hplain end;
    simpl in Hplain; cbn [EqExpr_createPartialR]; rewrite ?Hopt;
    (destruct (bw c =? Bool)%Z; [destruct (CE_isTrue c); [apply light_ok; lia|]|]);
    try exact Hplain.
  - case_match; [|apply light_any; intros; apply light_const].
    eapply light_weaken; [apply Eq_c_light; auto|simpl; lia].
  - case_match; [|apply light_any; intros; apply light_const].
    eapply light_weaken; [apply Eq_c_light; auto|simpl; lia].
  - destruct k; cbn [zero_divisor isDiv andb plus] in Hplain; try exact Hplain.
    + eapply light_bind; [apply light_any; intros; apply Eq_c_light; auto|]. intros x Hx.
      eapply light_bind; [apply light_any; intros; apply Eq_c_light; auto|]. intros y Hy.
      eapply light_weaken; [apply AndExpr_create_light|simpl; lia].
    + destruct a; try exact Hplain. case_match; [apply light_ok; simpl; lia|exact Hplain].
  - destruct k; cbn [zero_divisor isDiv andb plus] in Hplain; try exact Hplain; destruct a; try exact Hplain; apply light_any; intros _;
      (eapply light_weaken; [apply IHb|simpl; lia]).
Qed.

Lemma EqPartialR_nonconst r c : isConst r = false -> light (EqExpr_createPartialR c r) (wt r).
Proof.
  intros H. apply wt_nonconst in H. eapply light_weaken; [apply EqExpr_createPartialR_light|lia].
Qed.

Lemma EqExpr_create_light l r : light (EqExpr_create l r) (sum l r).
Proof.
  apply BCREATE_R_light; [intros c -> H..|intros H _]; simpl.
  - by apply EqPartialR_nonconst.
  - rewrite Nat.add_0_r. by apply EqPartialR_nonconst.
  - eapply light_weaken; [apply EqExpr_create'_light|]. apply wt_nonconst in H. lia.
Qed.

Lemma createIsZero_light e : light (createIsZero e) (wt e).
Proof.
  apply light_any. intros z. eapply light_weaken; [apply EqExpr_create_light|simpl; lia].
Qed.

(** ** Xor, Add and Sub *)
Lemma XorExpr_createPartialR_light c r : light (XorExpr_createPartialR c r) (m `max` wt r).
Proof.
  unfold XorExpr_createPartialR. repeat case_match; [apply light_ok; lia| |apply light_ok; simpl; lia].
  apply light_any. intros. apply EqExpr_createPartialR_light.
Qed.

Lemma XorExpr_create_light l r : light (XorExpr_create l r) (sum l r).
Proof.
  apply BCREATE_R_light; [intros c -> H..|intros H _]; simpl.
  - apply wt_nonconst in H. eapply light_weaken; [apply XorExpr_createPartialR_light|lia].
  - apply wt_nonconst in H. eapply light_weaken; [apply XorExpr_createPartialR_light|lia].
  - by apply light_bin; [left|left].
Qed.

(** [c + e] and [c - e] by the partial create [pR]. *)
Lemma create_c_light (pR : apint -> expr -> result expr) (f : apint -> apint -> apint) c e :
  light (pR c e) (m `max` wt e) ->
  light (_ ← massert (bw c =? getWidth e)%Z;
         match e with ConstantExpr cr => Ok (ConstantExpr (f c cr)) | _ => pR c e end) (m `max` wt e).
Proof. intros H. apply light_any. intros _. destruct e; try exact H. apply light_const. Qed.

Lemma AddSub_createPartialR_light r :
  forall c, light (AddExpr_createPartialR c r) (m `max` wt r) /\
            light (SubExpr_createPartialR c r) (m `max` wt r).
Proof.
  induction r as [v|src IH|root un idx IH|c0 IHc t IHt f IHf|a IHa b IHb|e IH o w|src IH w
    |src IH w|e IH|k a IHa b IHb]; intros c; split;
    cbn [AddExpr_createPartialR SubExpr_createPartialR];
    (case_match; [apply XorExpr_createPartialR_light|]);
    try (case_match; [apply light_ok; lia|]);
    try (apply light_ok; cbn [wt zero_divisor isDiv andb]; lia);
    (destruct k; try (apply light_ok; cbn [wt zero_divisor isDiv andb]; lia)); destruct a; try (apply light_ok; cbn [wt zero_divisor isDiv andb]; lia);
    apply light_any; intros _;
    (eapply light_weaken; [first [apply (create_c_light AddExpr_createPartialR CE_Add)
                                 |apply (create_c_light SubExpr_createPartialR CE_Sub)]; apply IHb|simpl; lia]).
Qed.
(** Two creates in a row. *)
Lemma light_bind2 x f a b :
  light x a -> (forall e, light (f e) (wt e)) -> a <= b -> light (x ≫= f) b.
Proof. intros Hx Hf Hle. eapply light_bind; [exact Hx|]. intros e He. eapply light_weaken; [apply Hf|lia]. Qed.

Lemma AddSub_go_light n :
  (forall l r, light (AddExpr_go n l r) (sum l r)) /\ (forall l r, light (SubExpr_go n l r) (sum l r)).
Proof.
  induction n as [|n [IHA IHS]]; [split; by intros ? ? ?|].
  assert (HA : forall k e, light (AddExpr_go n (ConstantExpr k) e) (wt e)) by (intros; apply IHA).
  assert (HS : forall k e, light (SubExpr_go n (ConstantExpr k) e) (wt e)) by (intros; apply IHS).
  assert (HS' : forall k e, light (SubExpr_go n e (ConstantExpr k)) (wt e)).
  { intros. eapply light_weaken; [apply IHS|simpl; lia]. }
  split; intros l r; cbn [AddExpr_go SubExpr_go];
    (apply BCREATE_R_light; [intros c -> H|intros c -> H|intros H H']; apply wt_nonconst in H as Hm).
  - eapply light_weaken; [apply AddSub_createPartialR_light|simpl; lia].
  - eapply light_weaken; [apply AddSub_createPartialR_light|simpl; lia].
  - pose proof (light_bin Kind.Add l r (or_introl eq_refl) (or_introl H)) as Hplain.
    pose proof (light_bin Kind.Xor l r (or_introl eq_refl) (or_introl H)) as Hx. unfold AddExpr_create'. case_match; [exact Hx|].
    assert (Hr : light (match r with
        | BinExpr Kind.Add (ConstantExpr k) b => x ← AddExpr_go n l b; AddExpr_go n (ConstantExpr k) x
        | BinExpr Kind.Sub (ConstantExpr k) b => x ← SubExpr_go n l b; AddExpr_go n (ConstantExpr k) x
        | _ => Ok (BinExpr Kind.Add l r) end) (sum l r)).
    { destruct r as [| | | | | | | | |k a b]; try exact Hplain; destruct k; try exact Hplain;
        destruct a; try exact Hplain; (eapply light_bind2; [first [apply IHA|apply IHS]|auto|simpl; lia]). }
    destruct l as [| | | | | | | | |k a b]; try exact Hr; destruct k; try exact Hr;
      destruct a; try exact Hr; (eapply light_bind2; [first [apply IHA|apply IHS]|auto|simpl; lia]).
  - eapply light_weaken; [apply AddSub_createPartialR_light|simpl; lia].
  - eapply light_weaken; [apply AddSub_createPartialR_light|simpl; lia].
  - pose proof (light_bin Kind.Sub l r (or_introl eq_refl) (or_introl H)) as Hplain.
    pose proof (light_bin Kind.Xor l r (or_introl eq_refl) (or_introl H)) as Hx. unfold SubExpr_create'. case_match; [exact Hx|].
    case_match; [apply light_const|].
    assert (Hr : light (match r with
        | BinExpr Kind.Add (ConstantExpr k) b => x ← SubExpr_go n l b; SubExpr_go n x (ConstantExpr k)
        | BinExpr Kind.Sub (ConstantExpr k) b => x ← AddExpr_go n l b; SubExpr_go n x (ConstantExpr k)
        | _ => Ok (BinExpr Kind.Sub l r) end) (sum l r)).
    { destruct r as [| | | | | | | | |k a b]; try exact Hplain; destruct k; try exact Hplain;
        destruct a; try exact Hplain; (eapply light_bind2; [first [apply IHA|apply IHS]|auto|simpl; lia]). }
    destruct l as [| | | | | | | | |k a b]; try exact Hr; destruct k; try exact Hr;
      destruct a; try exact Hr; (eapply light_bind2; [first [apply IHA|apply IHS]|auto|simpl; lia]).
Qed.
(** ** The other binary creates *)
Lemma NeExpr_create_light l r : light (NeExpr_create l r) (sum l r).
Proof.
  apply light_any. intros z. eapply light_bind; [apply EqExpr_create_light|]. intros e He.
  eapply light_weaken; [apply EqExpr_create_light|simpl; lia].
Qed.

(** [createIsZero] of one operand combined with the other. *)
Lemma not_r_light (f : expr -> expr -> result expr) l r :
  (forall a b, light (f a b) (sum a b)) -> light (z ← createIsZero r; f l z) (sum l r).
Proof.
  intros Hf. eapply light_bind; [apply createIsZero_light|]. intros z Hz.
  eapply light_weaken; [apply Hf|lia].
Qed.
Lemma not_l_light (f : expr -> expr -> result expr) l r :
  (forall a b, light (f a b) (sum a b)) -> light (z ← createIsZero l; f z r) (sum l r).
Proof.
  intros Hf. eapply light_bind; [apply createIsZero_light|]. intros z Hz.
  eapply light_weaken; [apply Hf|lia].
Qed.

Lemma simple_create_light op k (g : expr -> expr -> result expr) l r :
  isDiv k = false \/ mz = 0 -> (forall l r, light (g l r) (sum l r)) ->
  light (BCREATE op (fun l r => if (getWidth l =? Bool)%Z then g l r else Ok (BinExpr k l r)) l r) (sum l r).
Proof. intros Hk Hg. apply BCREATE_light. intros H. case_match; [apply Hg|by apply light_bin]. Qed.

Lemma Ult_light l r : light (UltExpr_create l r) (sum l r).
Proof. apply simple_create_light; [by left|]. intros. apply not_l_light, AndExpr_create_light. Qed.
Lemma Ule_light l r : light (UleExpr_create l r) (sum l r).
Proof. apply simple_create_light; [by left|]. intros. apply not_l_light, OrExpr_create_light. Qed.
Lemma Slt_light l r : light (SltExpr_create l r) (sum l r).
Proof. apply simple_create_light; [by left|]. intros. apply not_r_light, AndExpr_create_light. Qed.
Lemma Sle_light l r : light (SleExpr_create l r) (sum l r).
Proof. apply simple_create_light; [by left|]. intros. apply not_r_light, OrExpr_create_light. Qed.

Lemma bin_create_light k l r : isDiv k = false \/ mz = 0 -> light (bin_create k l r) (sum l r).
Proof.
  intros Hk. destruct k; simpl;
    first [apply AndExpr_create_light|apply OrExpr_create_light|apply XorExpr_create_light
      |apply MulExpr_create_light|apply EqExpr_create_light|apply NeExpr_create_light
      |apply (AddSub_go_light (esize l + esize r))
      |apply Ult_light|apply Ule_light|apply Slt_light|apply Sle_light
      |rewrite Nat.add_comm; first [apply Ult_light|apply Ule_light|apply Slt_light|apply Sle_light]
      |apply simple_create_light; [exact Hk|]; intros;
       first [apply not_r_light, AndExpr_create_light|apply light_any; intros; apply light_const
             |apply light_ok; lia]].
Qed.

(** ** Concat and Extract *)
Section extract.
Variable Extract : expr -> Z -> Z -> result expr.
Hypothesis HX : forall e o w, light (Extract e o w) (wt e).

Lemma ConcatExpr_create'_light l r : light (ConcatExpr_create' Extract l r) (sum l r).
Proof.
  assert (Hplain : isConst l = false \/ isConst r = false -> light (Ok (ConcatExpr l r)) (sum l r)).
  { intros H. apply light_node; [by apply sum_nonconst|simpl; lia]. }
  unfold ConcatExpr_create'. destruct l; try (by apply Hplain; left); destruct r; try (by apply Hplain; auto).
  - apply light_const.
  - case_match; [|by apply Hplain; left]. eapply light_weaken; [apply HX|simpl; lia].
Qed.

Lemma ExtractExpr_create'_light e o w : light (ExtractExpr_create' Extract e o w) (wt e).
Proof.
  unfold ExtractExpr_create'. apply light_any. intros _. case_match; [by apply light_ok|].
  destruct e; try (apply light_ok; match goal with |- wt (ExtractExpr ?e _ _) <= _ =>
    pose proof (wt_nonconst e eq_refl); cbn [wt zero_divisor isDiv andb] in *; lia end).
  - apply light_const.
  - repeat case_match; [eapply light_weaken; [apply HX|simpl; lia]..|].
    eapply light_bind; [apply HX|]. intros a Ha. eapply light_bind; [apply HX|]. intros b Hb.
    eapply light_weaken; [apply ConcatExpr_create'_light|simpl; lia].
Qed.
End extract.

Lemma ExtractExpr_go_light n : forall e o w, light (ExtractExpr_go n e o w) (wt e).
Proof. induction n as [|n IH]; [by intros e o w ?|]. intros. by apply ExtractExpr_create'_light. Qed.

Lemma ExtractExpr_create_light e o w : light (ExtractExpr_create e o w) (wt e).
Proof. apply ExtractExpr_go_light. Qed.

Lemma ConcatExpr_create_light l r : light (ConcatExpr_create l r) (sum l r).
Proof. apply ConcatExpr_create'_light, ExtractExpr_create_light. Qed.

(** ** The unary creates, Select and Read *)
Lemma NotExpr_create_light e : light (NotExpr_create e) (wt e).
Proof.
  destruct e; [apply light_const|..];
    (apply light_ok; match goal with |- wt (NotExpr ?e) <= _ => pose proof (wt_nonconst e eq_refl); cbn [wt zero_divisor isDiv andb] in *; lia end).
Qed.

Lemma ZExtExpr_create_light e w : light (ZExtExpr_create e w) (wt e).
Proof.
  unfold ZExtExpr_create. case_match; [by apply light_ok|]. case_match; [apply ExtractExpr_create_light|].
  destruct e; [apply light_const|..];
    (apply light_ok; match goal with |- wt (ZExtExpr ?e _) <= _ => pose proof (wt_nonconst e eq_refl); cbn [wt zero_divisor isDiv andb] in *; lia end).
Qed.

Lemma SExtExpr_create_light e w : light (SExtExpr_create e w) (wt e).
Proof.
  unfold SExtExpr_create. case_match; [by apply light_ok|]. case_match; [apply ExtractExpr_create_light|].
  destruct e; [apply light_const|..];
    (apply light_ok; match goal with |- wt (SExtExpr ?e _) <= _ => pose proof (wt_nonconst e eq_refl); cbn [wt zero_divisor isDiv andb] in *; lia end).
Qed.

Lemma SelectExpr_create_light c t f : light (SelectExpr_create c t f) (wt c + wt t + wt f).
Proof.
  unfold SelectExpr_create. do 2 (apply light_any; intros _). destruct (isConst c) eqn:Hc.
  { destruct c; try done. apply light_ok. case_match; simpl; lia. }
  assert (Hplain : light (Ok (SelectExpr c t f)) (wt c + wt t + wt f)).
  { apply wt_nonconst in Hc. apply light_ok. simpl. lia. }
  assert (Hand : light (AndExpr_create c t) (wt c + wt t + wt f)).
  { eapply light_weaken; [apply AndExpr_create_light|lia]. }
  assert (Hor : light (OrExpr_create c f) (wt c + wt t + wt f)).
  { eapply light_weaken; [apply OrExpr_create_light|lia]. }
  assert (Hnand : light (z ← createIsZero c; AndExpr_create z f) (wt c + wt t + wt f)).
  { eapply light_weaken; [apply (not_l_light AndExpr_create), AndExpr_create_light|lia]. }
  assert (Hnor : light (z ← createIsZero c; OrExpr_create z t) (wt c + wt t + wt f)).
  { eapply light_weaken; [apply (not_l_light OrExpr_create), OrExpr_create_light|lia]. }
  assert (H : light (if expr_eqb t f then Ok t
    else if (getWidth t =? Bool)%Z then
      match t, f with
      | ConstantExpr CE, _ => if CE_isTrue CE then OrExpr_create c f else z ← createIsZero c; AndExpr_create z f
      | _, ConstantExpr CE => if CE_isTrue CE then z ← createIsZero c; OrExpr_create z t else AndExpr_create c t
      | _, _ => Ok (SelectExpr c t f)
      end
    else Ok (SelectExpr c t f)) (wt c + wt t + wt f)).
  { case_match; [apply light_ok; lia|]. case_match; [|exact Hplain].
    destruct t; [case_match; done|..]; destruct f; try exact Hplain; case_match; done. }
  by destruct c.
Qed.

Lemma ReadExpr_rollback_light index un v :
  ReadExpr_rollback index un = Ok (Found v) -> wt v <= wt_node un.
Proof.
  induction un as [|n IH i x] using UpdateNode_ind; simpl; [done|].
  destruct (EqExpr_create index i) as [e| |]; simpl; try done. destruct e; try done.
  case_match; [intros [= <-]; lia|]. intros Hr. apply IH in Hr. lia.
Qed.

Lemma ReadExpr_create_light ul index :
  light (ReadExpr_create ul index) (wa (ul_root ul) + wt_node (ul_head ul) + wt index).
Proof.
  set (n := wa (ul_root ul) + wt_node (ul_head ul) + wt index). unfold ReadExpr_create.
  destruct (ReadExpr_rollback index (ul_head ul)) as [rb| |] eqn:E; try done. cbn [mbind result_bind].
  assert (Ha : light (Ok (ReadExpr (ul_root ul) (ul_head ul) index)) n) by (by apply light_ok).
  destruct rb as [v| |]; [|exact Ha|].
  - apply light_ok. apply ReadExpr_rollback_light in E. lia.
  - destruct index; try exact Ha. case_match; [|exact Ha]. do 2 (apply light_any; intros ?).
    case_match; [|exact Ha]. case_match; [apply light_const|done].
Qed.

(** ** rebuild *)
Definition wts (ks : list expr) : nat := foldr (fun k n => wt k + n) 0 ks.

(** What a node weighs besides its kids. *)
Definition own_wt (e : expr) : nat :=
  match e with
  | ReadExpr root un _ => wa root + wt_node un
  | NotOptimizedExpr _ => mo
  | _ => 0
  end.

Lemma rebuild_light e ks : mz = 0 -> light (rebuild e ks) (own_wt e + wts ks).
Proof.
  intros Hz. destruct e; simpl; try (intros ?; discriminate);
    destruct ks as [|k1 [|k2 [|k3 [|? ?]]]]; try (intros ?; discriminate); simpl;
    (eapply light_weaken; [first [apply ReadExpr_create_light|apply SelectExpr_create_light
      |apply ConcatExpr_create_light|apply ExtractExpr_create_light|apply ZExtExpr_create_light
      |apply SExtExpr_create_light|apply NotExpr_create_light|by apply bin_create_light; right
      |apply light_ok; reflexivity]|simpl; lia]).
Qed.

Lemma wt_own e : own_wt e + wts (kids e) <= wt e.
Proof. clear. destruct e; simpl; lia. Qed.

Lemma wts_const ks : 0 < m -> wts ks = 0 -> Forall (fun k => isConst k = true) ks.
Proof.
  intros Hm. induction ks as [|k ks IH]; simpl; [constructor|]. intros H. constructor; [|apply IH; lia].
  destruct (isConst k) eqn:E; [done|]. apply wt_nonconst in E. lia.
Qed.
End weight.
