(* ===== verification/Rewriters.v ===== *)
(** * The rewriting visitors of the constraint manager

    Models the visitor classes of [klee/lib/Expr/Constraints.cpp]: replacing an
    expression by a constant it is known to equal, replacing several, and the
    three visitors of the exclusive-or optimisation.  [rewriter_sound] is what
    they share: a visitor whose methods exchange an expression for one of the
    same width and value does so globally, and fails an assertion only on an
    expression that has no value (a division by a divisor rewritten to zero). *)

From S2P Require Import Prelude APInt ExprData Samples Bits ExprCompare ExprCreate ExprCreateSound ExprStructSound ExprVisitor ExprWeight.
Local Open Scope Z_scope.

Section classes.
Context {AP : APIntOps} {CFG : Config}.

(** [ExprReplaceVisitor]: both methods. *)
Definition replace_act (src dst e : expr) : Action :=
  if expr_eqb e src then ChangeTo dst else DoChildren.

Definition ExprReplaceVisitor (src dst : expr) : ExprVisitor unit := {|
  recursive := false;
  visitExpr := fun _ e => mret (replace_act src dst e);
  visitKind := base_visitKind;
  visitExprPost := fun e => mret (replace_act src dst e);
|}.

(** [ExtractExprVisitor::visitExtract] *)
Definition visitExtract (e : expr) (off w : Z) : result Action :=
  if getNumKids e =? 2 then
    match e with
    | BinExpr Kind.Xor k0 k1 =>
        left ← ExtractExpr_create k0 off w;
        right ← ExtractExpr_create k1 off w;
        res ← XorExpr_create left right;
        Ok (ChangeTo res)
    | _ => Ok DoChildren
    end
  else Ok DoChildren.

Definition ExtractExprVisitor : ExprVisitor unit := {|
  recursive := false;
  visitExpr := base_visitExpr;
  visitKind := fun _ _ e =>
    match e with ExtractExpr e off w => lift (visitExtract e off w) | _ => mret DoChildren end;
  visitExprPost := base_visitExprPost;
|}.

(** [XorLiftVisitor::visitEq] *)
Definition visitEq (l r : expr) : result Action :=
  match l, r with
  | ConstantExpr _, BinExpr Kind.Xor (ConstantExpr c) _ =>
      left ← XorExpr_create (ConstantExpr c) l;
      right ← XorExpr_create (ConstantExpr c) r;
      res ← EqExpr_create left right;
      Ok (ChangeTo res)
  | _, _ => Ok DoChildren
  end.

Definition XorLiftVisitor : ExprVisitor unit := {|
  recursive := false;
  visitExpr := base_visitExpr;
  visitKind := fun _ _ e =>
    match e with BinExpr Kind.Eq l r => lift (visitEq l r) | _ => mret DoChildren end;
  visitExprPost := base_visitExprPost;
|}.

(** [XorPropagateVisitor::visitXor] *)
Definition visitXor (l r : expr) : Action :=
  match l, r with
  | ConstantExpr _, BinExpr Kind.Xor k0 k1 => if expr_eqb k0 l then ChangeTo k1 else DoChildren
  | _, _ => DoChildren
  end.

Definition XorPropagateVisitor : ExprVisitor unit := {|
  recursive := false;
  visitExpr := base_visitExpr;
  visitKind := fun _ _ e =>
    match e with BinExpr Kind.Xor l r => mret (visitXor l r) | _ => mret DoChildren end;
  visitExprPost := base_visitExprPost;
|}.

(** [ExprReplaceVisitor2]; [replacements] is an ordered map, searched by
    structural equality. *)
Definition ExprReplaceVisitor2 (replacements : visited_ty) : ExprVisitor unit := {|
  recursive := true;
  visitExpr := base_visitExpr;
  visitKind := base_visitKind;
  visitExprPost := fun e =>
    mret (match visited_find replacements e with Some r => ChangeTo r | None => DoChildren end);
|}.
End classes.

(** ** What rewriters promise *)
Section rewriter.
Context {AP : APIntOps} {SP : APIntSpec AP} {CFG : Config}.
(** [F]: whether expressions without a value are visited too.  [Q]: what the
    values depend on; a visitor that substitutes equals relies on the equation. *)
Variables (rho : env) (F G Q : Prop).
Hypothesis HQ : F \/ Q.

Definition has_value (e : expr) : Prop := exists v, eval rho e = Some v.
Definition rdom (e : expr) : Prop := wf e /\ (F \/ has_value e).

(** [r] may stand for [e] under [rho]. *)
Definition stands_for (e r : expr) : Prop :=
  wf r /\ getWidth r = getWidth e /\ (Q -> forall v, eval rho e = Some v -> eval rho r = Some v).

(** [X]: what else a visitor maintains between an expression and its rewriting. *)
Variable X : expr -> expr -> Prop.
Definition rewritten (e r : expr) : Prop := stands_for e r /\ X e r.

Class Congruence : Prop := {
  X_refl e : X e e;
  X_trans a b c : X a b -> X b c -> X a c;
  X_rebuild e ks r : isConst e = false -> Forall2 X (kids e) ks -> ks <> kids e -> rebuild e ks = Ok r -> X e r;
}.
Context {HX : Congruence}.

Lemma rewritten_refl e : wf e -> rewritten e e.
Proof. split; [done|apply X_refl]. Qed.

Lemma stands_for_trans a b c : stands_for a b -> stands_for b c -> stands_for a c.
Proof. intros (? & ? & H) (? & ? & H'). split_and!; [done|congruence|auto]. Qed.

Lemma rewritten_trans a b c : rewritten a b -> rewritten b c -> rewritten a c.
Proof. intros [S1 ?] [S2 ?]. split; [by eapply stands_for_trans|by eapply X_trans]. Qed.

Lemma impl_stands_for e e' : impl e' e -> stands_for e e'.
Proof. intros (? & ? & H). split_and!; try done. intros _ v. apply H. Qed.

Lemma stands_for_value e r : stands_for e r -> F \/ has_value e -> F \/ has_value r.
Proof. intros (_ & _ & H) [HF|[v Hv]]; [by left|]. destruct HQ; [by left|right]. exists v. auto. Qed.

Lemma has_value_kids e : has_value e -> Forall has_value (kids e).
Proof.
  intros [v Hv]. unfold has_value.
  destruct e; simpl in Hv; inv_option; simpl; rewrite ?Forall_cons, ?Forall_nil; split_and?; eauto.
Qed.

Lemma wf_kids e : wf e -> Forall wf (kids e).
Proof. destruct e; simpl; intros; destruct_and?; rewrite ?Forall_cons, ?Forall_nil; done. Qed.

Lemma rdom_kids e : rdom e -> wf e /\ Forall rdom (kids e).
Proof.
  intros [He Hv]. split; [done|]. apply Forall_forall. intros k Hk.
  pose proof (wf_kids e He) as Hw. rewrite Forall_forall in Hw. split; [auto|].
  destruct Hv as [Hv|Hv]; [by left|right]. apply has_value_kids in Hv. rewrite Forall_forall in Hv. auto.
Qed.

(** A value rules out a literal zero divisor. *)
Lemma value_div_ok e : has_value e -> root_div_ok e.
Proof.
  intros [v Hv]. destruct e as [| | | | | | | | |k l r]; try done. simpl in *.
  unfold div_ok, zero_fold. destruct (isDiv k) eqn:Hk; [|done].
  destruct l as [c| | | | | | | | |]; try done. destruct r as [d| | | | | | | | |]; try done.
  simpl in *. destruct (raw d =? 0) eqn:Hd; [|done]. bool_to_prop. rewrite Hd in Hv. by destruct k.
Qed.

Lemma rebuild_rewritten e ks :
  rdom e -> isConst e = false -> Forall2 rewritten (kids e) ks -> ks <> kids e ->
  runs F G (rebuild e ks) (fun r => rewritten e r /\ wf r /\ rdom r).
Proof.
  intros [He Hv] Hc HF Hne. destruct (with_kids_total e ks Hc) as [e' Hw].
  { by rewrite (Forall2_length _ _ _ HF). }
  destruct (with_kids_wf e ks e' He Hw) as [We Ee].
  { eapply Forall2_impl; [exact HF|]. by intros ? ? ((? & ? & _) & _). }
  assert (HR : stands_for e e').
  { split_and!; try done. intros Hq v. eapply with_kids_eval; [exact Hw|].
    eapply Forall2_impl; [exact HF|]. intros ? ? ((_ & ? & ?) & _). auto. }
  assert (HB : root_div_ok e' \/ F /\ rebuild e ks = AssertFail).
  { destruct (stands_for_value e e' HR Hv) as [HFF|Hv']; [|left; by apply value_div_ok].
    destruct e' as [| | | | | | | | |k l r]; try (by left). unfold root_div_ok, div_ok.
    destruct (zero_fold k l r) eqn:Hz; [right|by left]. split; [done|].
    destruct e; try done; simpl in Hw; repeat case_match; simplify_eq.
    simpl. destruct We as (? & ? & ?). by apply bin_create_zero. }
  destruct HB as [Hd|[HFF ->]]; [|by right; left].
  apply returns_runs. destruct (rebuild_builds e ks e' Hw We Hd) as (r & Er & Hr%impl_stands_for).
  exists r. split; [done|]. pose proof (stands_for_trans _ _ _ HR Hr) as H.
  assert (X e r).
  { eapply X_rebuild; try done. eapply Forall2_impl; [exact HF|]. by intros ? ? [_ ?]. }
  split_and!; [done|apply H|]. split; [apply H|]. by eapply stands_for_value.
Qed.

Variable V : ExprVisitor unit.

Definition any (_ : unit) : Prop := True.

Hypothesis Hrec : recursive V = false \/ G.
Hypothesis HvisitExpr : forall vis e, rdom e -> isConst e = false ->
  act_spec F G any rewritten (visitExpr V vis e) (act_ok rewritten e True).
Hypothesis HvisitKind : forall vis e, rdom e -> isConst e = false ->
  act_spec F G any rewritten (visitKind V (getKind e) vis e) (act_ok rewritten e True).
Hypothesis HvisitExprPost : forall e, wf e -> isConst e = false ->
  act_spec F G any rewritten (visitExprPost V e)
    (fun a => match a with ChangeTo x => rewritten e x | _ => True end).

Lemma rewriter_sound n e :
  G \/ (vsize e <= n)%nat -> visit_spec F G any rdom rewritten (visit V n) e.
Proof.
  apply (visit_sound F G V any rdom rewritten rewritten (fun _ => True) (fun _ => True)); try done.
  - by apply rdom_kids.
  - by intros ? ? _ ((? & _) & _).
  - intros c [Hc _]. by apply rewritten_refl.
  - intros. by apply HvisitExpr.
  - intros. by apply HvisitKind.
  - intros x [Hx _] _ _ _. by apply rewritten_refl.
  - intros x ks Hx Hc _ HF Hne. eapply runs_weaken; [by apply rebuild_rewritten|].
    intros r (? & ? & ?). by split_and!.
  - intros x x' Hx HP Wx Hc s Hs. eapply runs_weaken; [by apply HvisitExprPost|].
    intros [a s'] [Ha Hs']. split; [|done]. simpl in *. destruct a; try done. by eapply rewritten_trans.
  - intros _ x x' x'' _ _. apply rewritten_trans.
Qed.
End rewriter.

(** ** Weights under rewriting *)
Section lighter.
Context {AP : APIntOps} {CFG : Config}.

(** Nothing gained, whatever is counted. *)
Definition lighter (e r : expr) : Prop :=
  ConstArrayOpt = false -> forall m wa, (forall a, m <= wa a)%nat -> (wt m 0 m wa r <= wt m 0 m wa e)%nat.

(** The count of reads and of nodes over constants. *)
Definition mass : expr -> nat := wt 1 0 1 (fun _ => 1%nat).

(** Nothing changed, or something lost. *)
Definition shrinks (e r : expr) : Prop :=
  lighter e r /\ (ConstArrayOpt = false -> r = e \/ (mass r < mass e)%nat).

Lemma wts_lighter m wa ks ks' :
  ConstArrayOpt = false -> (forall a, m <= wa a)%nat -> Forall2 lighter ks ks' ->
  (wts m 0 m wa ks' <= wts m 0 m wa ks)%nat.
Proof.
  intros Ho Hwa HF. induction HF as [|k k' ks ks' Hk HF IH]; simpl; [done|].
  specialize (Hk Ho m wa Hwa). lia.
Qed.

Lemma wts_shrinks ks ks' :
  ConstArrayOpt = false -> Forall2 shrinks ks ks' -> ks' <> ks ->
  (wts 1 0 1 (fun _ => 1%nat) ks' < wts 1 0 1 (fun _ => 1%nat) ks)%nat.
Proof.
  intros Ho HF. induction HF as [|k k' ks ks' [Hl Hs] HF IH]; simpl; [done|]. intros Hne.
  pose proof (Hl Ho 1%nat (fun _ => 1%nat) (fun _ => le_n 1)) as Hle.
  assert (Hle' : (wts 1 0 1 (fun _ => 1%nat) ks' <= wts 1 0 1 (fun _ => 1%nat) ks)%nat).
  { apply wts_lighter; [done|done|]. eapply Forall2_impl; [exact HF|]. by intros ? ? []. }
  destruct (Hs Ho) as [->|Hlt]; [|unfold mass in Hlt; lia].
  assert (ks' <> ks) by congruence. specialize (IH ltac:(done)). lia.
Qed.

(** A rebuilt expression is strictly lighter. *)
Lemma rebuild_mass e ks r :
  ConstArrayOpt = false -> Forall2 shrinks (kids e) ks -> ks <> kids e -> rebuild e ks = Ok r ->
  (mass r < mass e)%nat.
Proof.
  intros Ho HF Hne Hr. pose proof (rebuild_light 1 0 1 (fun _ => 1%nat) (fun _ => le_n 1) (le_n 1) Ho e ks eq_refl r Hr).
  pose proof (wt_own 1 0 1 (fun _ => 1%nat) e). pose proof (wts_shrinks _ _ Ho HF Hne). unfold mass. lia.
Qed.

Lemma mass_kids e : Forall (fun k => (mass k <= mass e)%nat) (kids e).
Proof. unfold mass. destruct e; simpl; rewrite ?Forall_cons, ?Forall_nil; split_and?; done || lia. Qed.

#[export] Instance lighter_congruence : Congruence lighter.
Proof.
  split.
  - by intros e _ m wa.
  - intros a b c H1 H2 Ho m wa Hwa. specialize (H1 Ho m wa Hwa). specialize (H2 Ho m wa Hwa). lia.
  - intros e ks r Hc HF _ Hr Ho m wa Hwa. pose proof (rebuild_light m 0 m wa Hwa (le_n m) Ho e ks eq_refl r Hr).
    pose proof (wt_own m 0 m wa e). pose proof (wts_lighter m wa _ _ Ho Hwa HF). lia.
Qed.

#[export] Instance shrinks_congruence : Congruence shrinks.
Proof.
  split.
  - intros e. split; [apply (X_refl lighter)|by left].
  - intros a b c [L1 H1] [L2 H2]. split; [by eapply (X_trans lighter)|]. intros Ho.
    destruct (H1 Ho) as [->|?], (H2 Ho) as [->|?]; auto. right. lia.
  - intros e ks r Hc HF Hne Hr. split.
    + eapply (X_rebuild lighter); [done| |done|done]. eapply Forall2_impl; [exact HF|]. by intros ? ? [].
    + intros Ho. right. by eapply rebuild_mass.
Qed.

(** A constant for something else. *)
Lemma shrinks_const e c : isConst e = false -> shrinks e (ConstantExpr c).
Proof.
  intros Hc. split.
  - intros _ m wa _. simpl. lia.
  - intros _. right. unfold mass. simpl. apply (wt_nonconst 1 0 1 (fun _ => 1%nat) (fun _ => le_n 1) (le_n 1)) in Hc. lia.
Qed.
End lighter.

Section visitors.
Context {AP : APIntOps} {SP : APIntSpec AP} {CFG : Config}.
Variables (rho : env) (F G Q : Prop).
Hypothesis HQ : F \/ Q.

Abbreviation rspec X V := (visit_spec F G any (rdom rho F) (rewritten rho Q X) V).
Abbreviation aspec X := (act_spec F G any (rewritten rho Q X)).

Lemma act_ret X a (P : Action -> Prop) : P a -> aspec X (mret a) P.
Proof. intros H s Hs. by apply runs_ok. Qed.

Lemma act_lift X m (P : Action -> Prop) : returns m P -> aspec X (lift m) P.
Proof. intros (a & -> & Ha) s Hs. by apply runs_ok. Qed.

(** A result known to stand for [e] by its construction. *)
Lemma change_builds m e e' D :
  builds m e' -> impl e' e -> (forall r, m = Ok r -> lighter e r) ->
  returns (r ← m; Ok (ChangeTo r)) (act_ok (rewritten rho Q lighter) e D).
Proof.
  intros (r & -> & Hr) He Hl. apply returns_ok. split; [|by apply Hl].
  apply impl_stands_for. exact (impl_trans _ _ _ Hr He).
Qed.

(** ** ExprReplaceVisitor *)
Lemma replace_act_ok src dst e D :
  wf e -> isConst e = false -> wf src -> stands_for rho Q src (ConstantExpr dst) -> (D : Prop) ->
  act_ok (rewritten rho Q shrinks) e D (replace_act src (ConstantExpr dst) e).
Proof.
  intros He Hc Hs Hd HD. unfold replace_act. destruct (expr_eqb e src) eqn:E; [|done].
  apply expr_eqb_eq in E; [subst|done..]. split; [done|by apply shrinks_const].
Qed.

Lemma replace_sound src dst n e :
  wf src -> stands_for rho Q src (ConstantExpr dst) -> (vsize e <= n)%nat ->
  rspec shrinks (visit (ExprReplaceVisitor src (ConstantExpr dst)) n) e.
Proof.
  intros Hs Hd Hn. apply (rewriter_sound rho F G Q); [done|apply _|by left|..|by right].
  - intros ? x [Hx _] ?. apply act_ret. by apply replace_act_ok.
  - intros ? x ? ?. by apply act_ret.
  - intros x Hx Hc. apply act_ret. pose proof (replace_act_ok src dst x True Hx Hc Hs Hd I). by destruct replace_act.
Qed.

(** ** ExtractExprVisitor *)
Lemma extract_lxor o w a b :
  0 <= o -> 0 <= w -> sem_extract o w (Z.lxor a b) = Z.lxor (sem_extract o w a) (sem_extract o w b).
Proof.
  intros Ho Hw. apply Z.bits_inj'. intros i Hi.
  rewrite Z.lxor_spec, !sem_extract_testbit, Z.lxor_spec by lia. by destruct (i <? w).
Qed.

Lemma impl_extract_xor a b o w :
  wf (ExtractExpr (BinExpr Kind.Xor a b) o w) ->
  wf (ExtractExpr a o w) /\ wf (ExtractExpr b o w) /\
  impl (BinExpr Kind.Xor (ExtractExpr a o w) (ExtractExpr b o w)) (ExtractExpr (BinExpr Kind.Xor a b) o w).
Proof.
  intros ((Ha & Hb & E) & Ho & Hw & Hle). simpl in Hle. split_and!; simpl; [done|by rewrite <- E|].
  split_and!; simpl; [split_and!; try done; by rewrite <- E|done|].
  refine_eval. by rewrite extract_lxor by lia.
Qed.

Lemma visitExtract_ok x o w :
  wf (ExtractExpr x o w) ->
  returns (visitExtract x o w) (act_ok (rewritten rho Q lighter) (ExtractExpr x o w) True).
Proof.
  intros Hx. unfold visitExtract. case_match; [|by apply returns_ok].
  destruct x as [| | | | | | | | |k a b]; try (by apply returns_ok). destruct k; try (by apply returns_ok).
  destruct (impl_extract_xor a b o w Hx) as (Wa & Wb & HI).
  destruct (ExtractExpr_create_builds a o w Wa) as (l & El & Hl).
  destruct (ExtractExpr_create_builds b o w Wb) as (r & Er & Hr). rewrite El, Er. cbn [mbind result_bind].
  assert (HB : impl (BinExpr Kind.Xor l r) (ExtractExpr (BinExpr Kind.Xor a b) o w)).
  { exact (impl_trans _ _ _ (impl_bin _ _ _ _ _ Hl Hr eq_refl) HI). }
  eapply change_builds; [|exact HB|]; [destruct HB as ((? & ? & ?) & _); by apply XorExpr_create_builds|].
  intros res Hres Ho m wa Hwa. pose proof (XorExpr_create_light m 0 m wa Hwa (le_n m) Ho l r res Hres).
  pose proof (ExtractExpr_create_light m 0 m wa Hwa (le_n m) a o w l El).
  pose proof (ExtractExpr_create_light m 0 m wa Hwa (le_n m) b o w r Er). simpl. lia.
Qed.

Lemma extract_visitor_sound n e : (vsize e <= n)%nat -> rspec lighter (visit ExtractExprVisitor n) e.
Proof.
  intros Hn. apply (rewriter_sound rho F G Q); [done|apply _|by left|..|by right].
  - intros ? x ? ?. by apply act_ret.
  - intros ? x [Hx _] ?. destruct x; try (by apply act_ret). by apply act_lift, visitExtract_ok.
  - intros x _ _. by apply act_ret.
Qed.

(** ** XorLiftVisitor *)
Lemma lxor_cancel c a b : (Z.lxor c a =? Z.lxor c b) = (a =? b).
Proof.
  apply eqb_iff. split; [|by intros ->]. intros H.
  by rewrite <- (Z.lxor_0_l a), <- (Z.lxor_0_l b), <- (Z.lxor_nilpotent c), !Z.lxor_assoc, H.
Qed.

Lemma impl_xor_lift c l r :
  wf c -> wf (BinExpr Kind.Eq l r) -> getWidth c = getWidth l -> (forall rho, has_value rho c) ->
  impl (BinExpr Kind.Eq (BinExpr Kind.Xor c l) (BinExpr Kind.Xor c r)) (BinExpr Kind.Eq l r).
Proof.
  intros Hc (Hl & Hr & E) Ec Hv. split_and!; simpl; [split_and!; try done; congruence|done|].
  intros sigma v H. destruct (Hv sigma) as [vc Hvc]. simpl in H. inv_option. simpl.
  rewrite Hvc, H, H0. simpl. by rewrite lxor_cancel.
Qed.

Lemma visitEq_ok l r :
  wf (BinExpr Kind.Eq l r) -> returns (visitEq l r) (act_ok (rewritten rho Q lighter) (BinExpr Kind.Eq l r) True).
Proof.
  intros H. unfold visitEq. destruct l as [cl| | | | | | | | |]; try (by apply returns_ok).
  destruct r as [| | | | | | | | |[] [c| | | | | | | | |] y]; try (by apply returns_ok).
  pose proof H as (Wl & Wr & E). pose proof Wr as (Wc & Wy & Ey). simpl in E, Ey.
  destruct (XorExpr_create_builds (ConstantExpr c) (ConstantExpr cl)) as (a & Ea & Ha); try done.
  destruct (XorExpr_create_builds (ConstantExpr c) (BinExpr Kind.Xor (ConstantExpr c) y)) as (b & Eb & Hb); try done.
  rewrite Ea, Eb. cbn [mbind result_bind].
  assert (HB : impl (BinExpr Kind.Eq a b)
    (BinExpr Kind.Eq (ConstantExpr cl) (BinExpr Kind.Xor (ConstantExpr c) y))).
  { refine (impl_trans _ _ _ (impl_bin _ _ _ _ _ Ha Hb _) (impl_xor_lift (ConstantExpr c) _ _ _ H _ _)); try done.
    intros sigma. by eexists. }
  eapply change_builds; [|exact HB|]; [destruct HB as ((? & ? & ?) & _); by apply EqExpr_create_builds|].
  intros res Hres Ho m wa Hwa. pose proof (EqExpr_create_light m 0 m wa Hwa (le_n m) Ho a b res Hres).
  pose proof (XorExpr_create_light m 0 m wa Hwa (le_n m) Ho _ _ a Ea).
  pose proof (XorExpr_create_light m 0 m wa Hwa (le_n m) Ho _ _ b Eb). simpl in *. lia.
Qed.

Lemma xor_lift_sound n e : (vsize e <= n)%nat -> rspec lighter (visit XorLiftVisitor n) e.
Proof.
  intros Hn. apply (rewriter_sound rho F G Q); [done|apply _|by left|..|by right].
  - intros ? x ? ?. by apply act_ret.
  - intros ? x [Hx _] ?. destruct x as [| | | | | | | | |k l r]; try (by apply act_ret).
    destruct k; try (by apply act_ret). by apply act_lift, visitEq_ok.
  - intros x _ _. by apply act_ret.
Qed.

(** ** XorPropagateVisitor *)
Lemma visitXor_ok l r :
  wf (BinExpr Kind.Xor l r) -> act_ok (rewritten rho Q lighter) (BinExpr Kind.Xor l r) True (visitXor l r).
Proof.
  intros (Wl & Wr & E). unfold visitXor. destruct l as [c| | | | | | | | |]; try done.
  destruct r as [| | | | | | | | |[] k0 k1]; try done. destruct Wr as (W0 & W1 & E1).
  destruct (expr_eqb k0 (ConstantExpr c)) eqn:Ek; [|done]. apply expr_eqb_eq in Ek; [subst|done..].
  simpl in *. split; [|intros _ m wa _; simpl; lia]. split_and!; [done|by simpl|]. intros _ v Hv. simpl in Hv. inv_option.
  rewrite H. by rewrite <- Z.lxor_assoc, Z.lxor_nilpotent, Z.lxor_0_l.
Qed.

Lemma xor_propagate_sound n e : (vsize e <= n)%nat -> rspec lighter (visit XorPropagateVisitor n) e.
Proof.
  intros Hn. apply (rewriter_sound rho F G Q); [done|apply _|by left|..|by right].
  - intros ? x ? ?. by apply act_ret.
  - intros ? x [Hx _] ?. destruct x as [| | | | | | | | |k l r]; try (by apply act_ret).
    destruct k; try (by apply act_ret). by apply act_ret, visitXor_ok.
  - intros x _ _. by apply act_ret.
Qed.

(** ** ExprReplaceVisitor2

    A changed expression is visited again, but it is lighter, so that the
    recursion settles. *)
Section replace2.
Hypothesis Hopt : ConstArrayOpt = false.
Variable replacements : visited_ty.
Hypothesis Hrep : Forall (fun p => wf p.1 /\ stands_for rho Q p.1 p.2 /\ isConst p.2 = true) replacements.

Abbreviation V := (ExprReplaceVisitor2 replacements).
Abbreviation sok := (st_ok any (rewritten rho Q shrinks)).
Abbreviation spec e f := (settles F f (fun p => rewritten rho Q shrinks e p.1 /\ sok p.2)).

Lemma replace2_post e r :
  wf r -> isConst r = false -> rewritten rho Q shrinks e r ->
  rewritten rho Q shrinks e (match visited_find replacements r with Some x => x | None => r end).
Proof.
  intros Hr Hc He. destruct (visited_find replacements r) as [x|] eqn:E; [|done].
  destruct (visited_find_ok (fun e r => stands_for rho Q e r /\ isConst r = true) replacements r x) as [? ?]; try done.
  apply (rewritten_trans rho Q shrinks) with r; [done|]. split; [done|]. destruct x; try done. by apply shrinks_const.
Qed.

Lemma visit_kids_settles ks :
  Forall (rdom rho F) ks -> Forall (fun k => forall s, sok s -> spec k (fun n => visit V n k s)) ks ->
  forall s, sok s -> settles F (fun n => visit_kids (visit V n) ks s) (fun p =>
    Forall2 (rewritten rho Q shrinks) ks p.1.1 /\ (p.1.2 = false <-> p.1.1 = ks) /\ sok p.2).
Proof.
  intros Hd HF. induction ks as [|k ks IH]; intros s Hs; cbn [visit_kids].
  { by apply settles_const, runs_ok. }
  apply Forall_cons in Hd as [[Hk _] Hd]. apply Forall_cons in HF as [Hv HF].
  eapply settles_M_bind; [by apply Hv|]. intros k' s1 [HG Hs1]. simpl in HG.
  eapply settles_M_bind; [by apply IH|]. intros [ks' ch] s2 (HGs & Heq & Hs2). simpl in HGs, Heq.
  apply settles_const, runs_ok. simpl. split_and!; [by constructor| |done].
  rewrite orb_false_iff, negb_false_iff, expr_eqb_spec, Heq by (done || apply HG).
  split; [by intros [-> ->]|by intros [= -> ->]].
Qed.

Lemma replace2_actual e :
  rdom rho F e -> Forall (fun k => forall s, sok s -> spec k (fun n => visit V n k s)) (kids e) ->
  (forall x, (mass x < mass e)%nat -> rdom rho F x -> forall s, sok s -> spec x (fun n => visit V n x s)) ->
  forall s, sok s -> spec e (fun n => visitActual V (visit V n) e s).
Proof.
  intros He Hk Hsm s Hs. unfold visitActual. destruct (isConst e) eqn:Hc.
  { apply settles_const, runs_ok. split; [|done]. apply rewritten_refl; [apply _|apply He]. }
  eapply settles_M_bind; [by apply (settles_at F _ (Ok (DoChildren, s))), (runs_ok _ _ _ (fun p => p = (DoChildren, s)))|].
  intros ? ? [= -> ->].
  eapply settles_M_bind; [by apply (settles_at F _ (Ok (DoChildren, s))), (runs_ok _ _ _ (fun p => p = (DoChildren, s)))|].
  intros ? ? [= -> ->].
  eapply settles_M_bind; [by apply visit_kids_settles; [apply (rdom_kids rho F e)|..]|].
  intros [ks ch] s1 (Hks & Hch & Hs1). cbn [fst snd] in *.
  eapply (settles_M_bind F _ _ _ (fun p => rewritten rho Q shrinks e p.1 /\ wf p.1 /\ sok p.2)).
  - destruct ch.
    + assert (Hne : ks <> kids e) by (by intros ?%Hch).
      destruct (rebuild_rewritten rho F False Q HQ shrinks e ks He Hc Hks Hne) as [(x & Ex & Hx & Wx & Dx)|[[HF Ex]|[[] _]]].
      * eapply settles_M_bind; [apply settles_const; unfold lift; rewrite Ex; by apply (runs_ok _ _ (x, s1) (fun p => p = (x, s1)))|].
        intros ? ? [= -> ->]. eapply settles_weaken; [apply Hsm; try done|].
        { eapply rebuild_mass; try done. eapply Forall2_impl; [exact Hks|]. by intros ? ? []. }
        intros [r s2] [Hr Hs2]. simpl in *. split_and!; [|apply Hr|done].
        by eapply (rewritten_trans rho Q shrinks).
      * eapply (settles_M_bind F _ _ _ (fun _ => False)); [|done].
        apply settles_const. unfold lift. rewrite Ex. by right; left.
    + apply settles_const, runs_ok. split_and!; [|apply He|done]. apply rewritten_refl; [apply _|apply He].
  - intros r s2 (Hr & Wr & Hs2). simpl in Hr, Wr, Hs2. destruct (isConst r) eqn:Hcr; [by apply settles_const, runs_ok|].
    apply settles_const, runs_ok. split; [|done]. cbn [fst]. pose proof (replace2_post e r Wr Hcr Hr). by destruct visited_find.
Qed.

Lemma replace2_settles T : forall k e s,
  (mass e <= T)%nat -> (vsize e <= k)%nat -> rdom rho F e -> sok s -> spec e (fun n => visit V n e s).
Proof.
  induction T as [T IHT] using lt_wf_ind. induction k as [|k IHk]; intros e s HT Hk He Hs.
  { pose proof (vsize_pos e). lia. }
  assert (HA : spec e (fun n => visitActual V (visit V n) e s)).
  { apply replace2_actual; try done.
    - apply Forall_forall. intros x Hx s' Hs'. pose proof (mass_kids e) as H1. pose proof (vsize_kids e) as H2.
      pose proof (rdom_kids rho F e He) as [_ H3]. rewrite Forall_forall in H1, H2, H3.
      specialize (H1 x Hx). specialize (H2 x Hx). apply IHk; auto; lia.
    - intros x Hx Dx s' Hs'. apply (IHT (mass x)) with (k := vsize x); try done. lia. }
  eapply settles_S; [reflexivity|]. cbn [visit]. unfold visit'.
  destruct (negb UseVisitorHash || isConst e); [exact HA|].
  destruct (visited_find (fst s) e) as [r|] eqn:Hf.
  { apply settles_const, runs_ok. simpl. split; [|done]. eapply visited_find_ok; [apply Hs|apply He|done]. }
  destruct HA as (r & n & Hn & Hr). destruct Hr as [([x s'] & -> & Hx & Hm & HJ)|[[HF ->]|[[] _]]].
  - eexists _, n. split; [intros j Hj; unfold visit'; rewrite (Hn j Hj); reflexivity|]. apply runs_ok. simpl in *.
    split; [done|]. split; [|done]. apply visited_insert_ok; [done|apply He|done].
  - exists AssertFail, n. split; [intros j Hj; unfold visit'; by rewrite (Hn j Hj)|]. by right; left.
Qed.
End replace2.
End visitors.
