(* ===== verification/Constraints.v ===== *)
(** * ConstraintManager: the path condition

    Models [klee/lib/Expr/Constraints.cpp] and [klee/include/klee/Constraints.h].
    The manager keeps the path condition as a vector of conjuncts, and a second
    vector of "cheat" conjuncts; adding an equality with a constant rewrites the
    conjuncts already there, which adds the rewritten ones again, recursively.
    The two global union-find managers, which group the arrays of the constraints,
    are part of the state.  Every call of [addConstraintInternal] consumes one
    unit of fuel. *)

From S2P Require Import Prelude APInt ExprData Samples Bits ExprCompare ExprCreate ExprCreateSound ExprStructSound ExprVisitor UnionFind ExprUtil Rewriters.
Local Open Scope Z_scope.

(** [ConstraintManager] with the globals [ufmanager] and [ufmanager_cheat]. *)
Record CState := {
  constraints : list expr;
  cheatConstraints : list expr;
  ufmanager : UFManager;
  ufmanager_cheat : UFManager;
}.

Definition with_constraints (cs : list expr) (st : CState) : CState :=
  {| constraints := cs; cheatConstraints := cheatConstraints st;
     ufmanager := ufmanager st; ufmanager_cheat := ufmanager_cheat st |}.
Definition with_cheat (cs : list expr) (st : CState) : CState :=
  {| constraints := constraints st; cheatConstraints := cs;
     ufmanager := ufmanager st; ufmanager_cheat := ufmanager_cheat st |}.
Definition with_uf (cheat : bool) (m : UFManager) (st : CState) : CState :=
  {| constraints := constraints st; cheatConstraints := cheatConstraints st;
     ufmanager := if cheat then ufmanager st else m;
     ufmanager_cheat := if cheat then m else ufmanager_cheat st |}.

(** [cs.push_back(e)] on the vector the flag selects. *)
Definition push_back (cheat : bool) (e : expr) (st : CState) : CState :=
  if cheat then with_cheat (cheatConstraints st ++ [e]) st
  else with_constraints (constraints st ++ [e]) st.

(** ** updateUFStructures *)

(** [ufmanager[rep].constraints.push_back(e)] *)
Definition record_at (m : UFManager) (rep : nat) (e : expr) : result UFManager :=
  x ← get m rep; Ok (alter (set_constraints (uf_constraints x ++ [e])) rep m).

(** The [while] loop: [it1] points to [i], [it2] to the head of [rest]. *)
Fixpoint join_loop (m : UFManager) (i : nat) (rest : list nat) (e : expr) : result UFManager :=
  match rest with
  | [] => Ok m
  | j :: rest' =>
      p ← join m i j;
      match rest' with
      | [] => record_at (snd p) (fst p) e
      | _ => join_loop (snd p) j rest' e
      end
  end.

Definition update_uf (m : UFManager) (ufes : list nat) (e : expr) : result UFManager :=
  match ufes with
  | [] => Ok m
  | [i] => p ← find m i; record_at (snd p) (fst p) e
  | i :: rest => join_loop m i rest e
  end.

Definition updateUFStructures (arrs : list Array) (e : expr) (cheat : bool) (st : CState)
    : result CState :=
  if cheat then m ← update_uf (ufmanager_cheat st) (map UFE_Cheat arrs) e; Ok (with_uf true m st)
  else m ← update_uf (ufmanager st) (map UFE arrs) e; Ok (with_uf false m st).

Section manager.
Context {AP : APIntOps} {CFG : Config}.

(** ** rewriteConstraints *)

(** The loop over the old constraints; [add] is [addConstraint]. *)
Fixpoint rewrite_loop (add : expr -> CState -> result CState) (V : ExprVisitor unit)
    (old : list expr) (s : visited_ty * unit) (changed : bool) (st : CState)
    : result (bool * CState) :=
  match old with
  | [] => Ok (changed, st)
  | ce :: old' =>
      p ← visit V (vsize ce) ce s;
      if negb (expr_eqb (fst p) ce) then
        st ← add (fst p) st;
        rewrite_loop add V old' (snd p) true st
      else rewrite_loop add V old' (snd p) changed (push_back false ce st)
  end.

Definition rewriteConstraints (add : expr -> CState -> result CState) (V : ExprVisitor unit)
    (st : CState) : result (bool * CState) :=
  rewrite_loop add V (constraints st) ([], tt) false (with_constraints [] st).

(** ** addConstraint *)

(** Registers [e] in the union-find structure and appends it. *)
Definition record_constraint (e : expr) (symNames : option (list Array)) (cheat : bool) (st : CState)
    : result CState :=
  st ← (if useUF then
          arrays ← match symNames with
                   | Some names => Ok names
                   | None => findSymbolicObjects [e] []
                   end;
          updateUFStructures arrays e cheat st
        else Ok st);
  Ok (push_back cheat e st).

Fixpoint addConstraintInternal (fuel : nat) (e : expr) (symNames : option (list Array))
    (cheat : bool) (st : CState) : result CState :=
  match fuel with
  | O => OutOfFuel
  | S n =>
      match e with
      | ConstantExpr c => _ ← massert (CE_isTrue c); Ok st
      | BinExpr Kind.And l r =>
          st ← addConstraintInternal n l None cheat st;
          addConstraintInternal n r None cheat st
      | BinExpr Kind.Eq l r =>
          st ← (if RewriteEqualities then
                  match l with
                  | ConstantExpr _ =>
                      p ← rewriteConstraints (fun e st => addConstraintInternal n e None false st)
                            (ExprReplaceVisitor r l) st;
                      Ok (snd p)
                  | _ => Ok st
                  end
                else Ok st);
          record_constraint e symNames cheat st
      | _ => record_constraint e symNames cheat st
      end
  end.

Definition addConstraint (fuel : nat) (e : expr) (symNames : option (list Array)) (st : CState)
    : result CState := addConstraintInternal fuel e symNames false st.
Definition addCheatConstraint (fuel : nat) (e : expr) (st : CState) : result CState :=
  addConstraintInternal fuel e None true st.

(** ** Simplification against the constraints *)

(** [DoXorOptimization] *)
Definition DoXorOptimization (fuel : nat) (st : CState) : result CState :=
  let add := fun e st => addConstraint fuel e None st in
  p ← rewriteConstraints add ExtractExprVisitor st;
  p ← rewriteConstraints add XorLiftVisitor (snd p);
  p ← rewriteConstraints add XorPropagateVisitor (snd p);
  Ok (snd p).

(** One visit with a fresh visitor. *)
Definition visit_once (V : ExprVisitor unit) (fuel : nat) (e : expr) : result expr :=
  fst <$> visit V fuel e ([], tt).

Definition simplifyWithXorOptimization (e : expr) : result expr :=
  e ← visit_once ExtractExprVisitor (vsize e) e;
  e ← visit_once XorLiftVisitor (vsize e) e;
  visit_once XorPropagateVisitor (vsize e) e.

(** The [std::map] of [simplifyExpr]: an existing entry is kept. *)
Definition add_equality (equalities : visited_ty) (it : expr) : visited_ty :=
  match it with
  | BinExpr Kind.Eq (ConstantExpr c) r => visited_insert equalities r (ConstantExpr c)
  | _ => visited_insert equalities it (ConstantExpr (ConstantExpr_alloc 1 Bool))
  end.

Definition simplifyExpr (fuel : nat) (e : expr) (st : CState) : result expr :=
  if isConst e then Ok e
  else visit_once (ExprReplaceVisitor2 (fold_left add_equality (constraints st) [])) fuel e.
End manager.
