(* ===== verification/ConstraintsSound.v ===== *)
(** * The path condition means what was added to it

    Soundness and termination of [ConstraintManager]: adding a constraint always
    returns, loses no assignment that satisfies the old constraints and the new
    one, and admits no other; it keeps the union-find managers consistent and
    loses none of the constraints recorded there. *)

From S2P Require Import Prelude APInt ExprData Samples Bits ExprCompare ExprCreate ExprCreateSound ExprStructSound ExprVisitor UnionFind ExprUtil ExprWeight Rewriters Constraints.

(** ** updateUFStructures *)
Lemma get_lt (m : UFManager) i : i < length m -> exists x, get m i = Ok x /\ m !! i = Some x.
Proof. intros H. destruct (lookup_lt_is_Some_2 m i H) as [x Hx]. exists x. unfold get. by rewrite Hx. Qed.

Lemma record_at_inv (m : UFManager) rep e :
  uf_inv m -> rep < length m ->
  exists m', record_at m rep e = Ok m' /\ uf_inv m' /\ length m' = length m /\
    all_constraints m' ≡ₚ all_constraints m ++ [e].
Proof.
  intros [Hok Hrk] Hr. destruct (get_lt m rep Hr) as (x & Hg & Hx). unfold record_at. rewrite Hg.
  eexists. split; [reflexivity|]. split_and!.
  - split; [by apply uf_ok_alter|by apply Forall_rank_alter].
  - by rewrite length_alter.
  - apply (Permutation_app_inv_r (uf_constraints x)).
    rewrite (all_constraints_alter (set_constraints (uf_constraints x ++ [e])) m rep x Hx). simpl. solve_Permutation.
Qed.

Lemma join_loop_inv rest : forall (m : UFManager) i e,
  uf_inv m -> i < length m -> Forall (fun j => j < length m) rest -> rest <> [] ->
  exists m', join_loop m i rest e = Ok m' /\ uf_inv m' /\ length m' = length m /\
    all_constraints m' ≡ₚ all_constraints m ++ [e].
Proof.
  induction rest as [|j rest IH]; intros m i e Hm Hi HF Hne; [done|]. apply Forall_cons in HF as [Hj HF].
  destruct (join_inv m i j Hm Hi Hj) as (r & m1 & E & Hm1 & L1 & Hr & P1).
  cbn [join_loop]. rewrite E. cbn [mbind result_bind fst snd]. destruct rest as [|j' rest].
  - destruct (record_at_inv m1 r e Hm1) as (m2 & -> & Hm2 & L2 & P2); [by rewrite L1|].
    exists m2. split_and!; [done|done|congruence|]. by rewrite P2, P1.
  - destruct (IH m1 j e Hm1) as (m2 & -> & Hm2 & L2 & P2); [by rewrite L1|by rewrite L1|done|].
    exists m2. split_and!; [done|done|congruence|]. by rewrite P2, P1.
Qed.

Lemma update_uf_inv (m : UFManager) ufes e :
  uf_inv m -> Forall (fun j => j < length m) ufes ->
  exists m', update_uf m ufes e = Ok m' /\ uf_inv m' /\ length m' = length m /\
    all_constraints m' ≡ₚ all_constraints m ++ (if decide (ufes = []) then [] else [e]).
Proof.
  intros Hm HF. destruct ufes as [|i [|j rest]].
  - exists m. split_and!; auto. simpl. by rewrite app_nil_r.
  - apply Forall_cons in HF as [Hi _]. destruct (find_inv m i Hm Hi) as (r & m1 & E & Hm1 & L1 & Hr & _ & C1).
    simpl. rewrite E. cbn [mbind result_bind fst snd].
    destruct (record_at_inv m1 r e Hm1) as (m2 & -> & Hm2 & L2 & P2).
    { rewrite L1. destruct Hr as [n Hr]. by apply root_in_lt in Hr as [_ ?]. }
    exists m2. split_and!; [done|done|congruence|]. by rewrite P2, C1.
  - apply Forall_cons in HF as [Hi HF]. rewrite decide_False by done. by apply (join_loop_inv (j :: rest)).
Qed.

(** ** Registered arrays *)
Section registered.
Variables (N N' : nat).

(** The arrays of [e] have elements in managers of [N] and [N'] elements. *)
Definition in_managers (a : Array) : Prop := UFE a < N /\ UFE_Cheat a < N'.
Definition registered (e : expr) : Prop := Forall in_managers (syms e).

(** Counts the reads of symbolic arrays that are not registered. *)
Definition wreg (a : Array) : nat :=
  if isSymbolicArray a && negb (bool_decide (in_managers a)) then 1 else 0.

Lemma wreg_0 a : wreg a = 0 <-> Forall in_managers (if isSymbolicArray a then [a] else []).
Proof.
  unfold wreg. destruct (isSymbolicArray a); simpl; [|done].
  rewrite Forall_singleton. case_bool_decide; simpl; by split.
Qed.

Lemma wt_wreg_mut :
  (forall e, wt 0 0 0 wreg e = 0 <-> registered e) /\
  (forall un, wt_node 0 0 0 wreg un = 0 <-> Forall in_managers (syms_node un)).
Proof.
  unfold registered. apply expr_node_ind; intros; cbn [wt wt_node syms syms_node];
    try match goal with |- context [if ?b then 0 else 0] => replace (if b then 0 else 0) with 0 by (by destruct b) end;
    rewrite ?Nat.add_0_l, ?Nat.max_0_l, ?Forall_app, ?Nat.eq_add_0, ?wreg_0; try done; tauto.
Qed.

Lemma registered_lighter {CFG : Config} e r :
  ConstArrayOpt = false -> lighter e r -> registered e -> registered r.
Proof.
  intros Ho Hl He%wt_wreg_mut. apply wt_wreg_mut.
  specialize (Hl Ho 0 wreg (fun a => Nat.le_0_l (wreg a))). lia.
Qed.
End registered.

(** ** Assignments and constraints *)
Definition true_under {CFG : Config} (rho : env) (e : expr) : Prop := eval rho e = Some 1%Z.
(** [e] has a value, and it is not true. *)
Definition false_under {CFG : Config} (rho : env) (e : expr) : Prop := eval rho e = Some 0%Z.
Definition sat {CFG : Config} (rho : env) (st : CState) : Prop := Forall (true_under rho) (constraints st).
(** Some constraint is false: [rho] is excluded. *)
Definition excluded {CFG : Config} (rho : env) (st : CState) : Prop := Exists (false_under rho) (constraints st).

Section sound.
Context {AP : APIntOps} {SP : APIntSpec AP} {CFG : Config}.
Hypothesis Hopt : ConstArrayOpt = false.
Variables (N N' : nat).

(** A well-typed condition over registered arrays. *)
Definition condition (e : expr) : Prop := wf e /\ getWidth e = Bool /\ registered N N' e.

Record st_inv (st : CState) : Prop := {
  inv_constraints : Forall condition (constraints st);
  inv_uf : uf_inv (ufmanager st);
  inv_uf_len : length (ufmanager st) = N;
  inv_cheat : uf_inv (ufmanager_cheat st);
  inv_cheat_len : length (ufmanager_cheat st) = N';
}.

Lemma st_inv_constraints st cs : st_inv st -> Forall condition cs -> st_inv (with_constraints cs st).
Proof. by intros []. Qed.

Lemma condition_value rho e v : condition e -> eval rho e = Some v -> v = 0%Z \/ v = 1%Z.
Proof.
  intros (He & Hw & _) Hv. pose proof (eval_inw rho e v He Hv) as H. rewrite Hw in H. by apply inw1_cases.
Qed.

(** Registering and appending a condition. *)
Definition names_ok (symNames : option (list Array)) : Prop :=
  match symNames with Some names => Forall (in_managers N N') names | None => True end.

Lemma update_st_inv arrs e cheat st :
  st_inv st -> Forall (in_managers N N') arrs ->
  exists st', updateUFStructures arrs e cheat st = Ok st' /\ st_inv st' /\
    constraints st' = constraints st /\ cheatConstraints st' = cheatConstraints st.
Proof.
  intros [Hc Hu Lu Hch Lch] HF. unfold updateUFStructures. destruct cheat.
  - destruct (update_uf_inv (ufmanager_cheat st) (map UFE_Cheat arrs) e Hch) as (m' & -> & Hm & L & _).
    { apply Forall_fmap. rewrite Lch. eapply Forall_impl; [exact HF|]. by intros a []. }
    eexists. split; [reflexivity|]. split_and!; try done. split; simpl; try done. congruence.
  - destruct (update_uf_inv (ufmanager st) (map UFE arrs) e Hu) as (m' & -> & Hm & L & _).
    { apply Forall_fmap. rewrite Lu. eapply Forall_impl; [exact HF|]. by intros a []. }
    eexists. split; [reflexivity|]. split_and!; try done. split; simpl; try done. congruence.
Qed.

Lemma record_constraint_ok e symNames cheat st :
  st_inv st -> condition e -> names_ok symNames ->
  exists st', record_constraint e symNames cheat st = Ok st' /\ st_inv st' /\
    constraints st' = (if cheat then constraints st else constraints st ++ [e]).
Proof.
  intros Hst He Hn. unfold record_constraint.
  assert (H : exists st1, (if useUF then
      arrays ← match symNames with Some names => Ok names | None => findSymbolicObjects [e] [] end;
      updateUFStructures arrays e cheat st else Ok st) = Ok st1 /\ st_inv st1 /\ constraints st1 = constraints st).
  { destruct useUF; [|by exists st]. destruct symNames as [names|].
    - cbn [mbind result_bind]. destruct (update_st_inv names e cheat st Hst Hn) as (st' & -> & ? & ? & _). by exists st'.
    - destruct (findSymbolicObjects_ok [e] []) as (new & -> & _ & HE); [by repeat constructor; apply He|].
      cbn [mbind result_bind app].
      destruct (update_st_inv new e cheat st Hst) as (st' & -> & ? & ? & _); [|by exists st'].
      apply Forall_forall. intros a (x & ->%list_elem_of_singleton & Ha)%HE.
      destruct He as (_ & _ & Hr). unfold registered in Hr. rewrite Forall_forall in Hr. auto. }
  destruct H as (st1 & -> & Hst1 & E). cbn [mbind result_bind]. eexists. split; [reflexivity|].
  destruct cheat; simpl; split; try (by rewrite ?E).
  - by destruct Hst1.
  - destruct Hst1. split; simpl; try done. apply Forall_app. split; [done|by constructor].
Qed.
(** ** Rewriting the constraints with an equation *)
Definition masses (es : list expr) : nat := foldr (fun e n => mass e + n) 0 es.

Lemma masses_app xs ys : masses (xs ++ ys) = masses xs + masses ys.
Proof. induction xs as [|x xs IH]; simpl; lia. Qed.

Section run.
Variables (rho : env) (F : Prop).

(** What adding [e] does. *)
Record add_post (cheat : bool) (e : expr) (st st' : CState) : Prop := {
  post_inv : st_inv st';
  post_sat : sat rho st -> true_under rho e -> sat rho st';
  post_excluded : cheat = false -> excluded rho st \/ false_under rho e -> excluded rho st';
  post_mass : masses (constraints st') <= masses (constraints st) + mass e;
}.

Definition add_settles (add : nat -> expr -> CState -> result CState) (cheat : bool) (e : expr) (st : CState) : Prop :=
  st_inv st -> condition e -> F \/ sat rho st /\ true_under rho e ->
  settles F (fun n => add n e st) (add_post cheat e st).

(** A visitor [V] that preserves values where [Q] holds, [d] the mass it removes
    from a constraint it changes; [M] bounds the mass of the constraints. *)
Section rewrite.
Variables (add : nat -> expr -> CState -> result CState) (V : ExprVisitor unit).
Variables (Q : Prop) (X : expr -> expr -> Prop) (d M : nat).
Abbreviation memo s := (st_ok any (rewritten rho Q X) s).

Definition visit_condition : Prop := forall ce s,
  condition ce -> F \/ has_value rho ce -> memo s ->
  runs F False (visit V (vsize ce) ce s)
    (fun p => condition p.1 /\ stands_for rho Q ce p.1 /\ (p.1 = ce \/ mass p.1 + d <= mass ce) /\ memo p.2).

Hypothesis HV : visit_condition.
Hypothesis Hadd : forall e st, mass e + d + masses (constraints st) <= M -> add_settles add false e st.

(** Before and after a step of the loop. *)
Definition loop_pre (old : list expr) (st : CState) : Prop :=
  st_inv st /\ Forall condition old /\
  (F \/ sat rho st /\ Forall (true_under rho) old /\ Q) /\
  masses old + masses (constraints st) <= M.

Record loop_post (old : list expr) (st st' : CState) : Prop := {
  lpost_inv : st_inv st';
  lpost_sat : sat rho st -> Forall (true_under rho) old -> Q -> sat rho st';
  lpost_excluded : Q -> excluded rho st \/ Exists (false_under rho) old -> excluded rho st';
  lpost_mass : masses (constraints st') <= masses (constraints st) + masses old;
}.

(** What is known of the rewritten constraint under [rho]. *)
Lemma rewritten_truth ce r :
  stands_for rho Q ce r -> Q ->
  (true_under rho ce -> true_under rho r) /\ (false_under rho ce -> false_under rho r).
Proof. intros (_ & _ & H) Hq. split; exact (H Hq _). Qed.

(** One constraint handled, by adding it again ([old] are those left). *)
Lemma loop_pre_add ce old st r st2 :
  loop_pre (ce :: old) st -> stands_for rho Q ce r -> mass r <= mass ce ->
  add_post false r st st2 -> loop_pre old st2.
Proof.
  intros (Hst & Hc & HFF & HM) Hr Hm [Hi Hs He Hms]. apply Forall_cons in Hc as [Hce Hold].
  split_and!; try done; [|simpl in HM; lia].
  destruct HFF as [|(Hsat & HT & Hq)]; [by left|right]. apply Forall_cons in HT as [Ht HT].
  split_and!; try done. apply Hs; [done|]. by apply (rewritten_truth ce r Hr).
Qed.

Lemma loop_post_add ce old st r st2 st' :
  stands_for rho Q ce r -> mass r <= mass ce -> add_post false r st st2 -> loop_post old st2 st' ->
  loop_post (ce :: old) st st'.
Proof.
  intros Hr Hm [Hi Hs He Hms] [Li Ls Le Lm]. pose proof (rewritten_truth ce r Hr) as HT. split; try done.
  - intros Hsat Hall Hq. apply Forall_cons in Hall as [Ht Hall]. destruct (HT Hq). apply Ls; auto.
  - intros Hq Hex. apply Le; [done|]. destruct (HT Hq). destruct Hex as [Hex|Hex]; [auto|].
    apply Exists_cons in Hex as [Hex|Hex]; auto.
  - simpl. lia.
Qed.

(** Keeping a constraint is what adding it without rewriting does. *)
Lemma push_back_post ce st : st_inv st -> condition ce -> add_post false ce st (push_back false ce st).
Proof.
  intros Hst Hc. split; simpl.
  - destruct Hst. split; simpl; try done. apply Forall_app. split; [done|by constructor].
  - intros Hs Ht. apply Forall_app. split; [done|by constructor].
  - intros _ Hx. apply Exists_app. destruct Hx; [by left|right; by constructor].
  - rewrite masses_app. simpl. lia.
Qed.

Lemma rewrite_loop_ok old : forall s changed st,
  loop_pre old st -> memo s ->
  settles F (fun n => rewrite_loop (add n) V old s changed st) (fun p => loop_post old st p.2).
Proof.
  induction old as [|ce old IH]; intros s changed st Hpre Hs; cbn [rewrite_loop].
  { apply settles_const, runs_ok. destruct Hpre as (Hst & _). split; simpl; try done; [|lia].
    intros _ [|Hx]; [done|]. by apply Exists_nil in Hx. }
  pose proof Hpre as (Hst & Hc & HFF & HM). apply Forall_cons in Hc as [Hce Hold].
  eapply settles_bind.
  { apply settles_const, HV; try done. destruct HFF as [|(_ & HT & _)]; [by left|right].
    apply Forall_cons in HT as [Ht _]. by eexists. }
  intros [r s'] (Hr & Hst' & Hm & Hs'). cbn [fst snd] in *.
  destruct (expr_eqb r ce) eqn:E; cbn [negb].
  - apply expr_eqb_eq in E; [subst r|apply Hr|apply Hce].
    pose proof (push_back_post ce st Hst Hce) as Hp.
    eapply settles_weaken; [by apply IH; [eapply loop_pre_add|]|].
    intros p Hl. by eapply loop_post_add.
  - assert (Hlt : mass r + d <= mass ce).
    { destruct Hm as [->|]; [|done]. rewrite (proj2 (expr_eqb_spec ce ce (proj1 Hce) (proj1 Hce))) in E by done. done. }
    assert (Hle : mass r <= mass ce) by lia.
    eapply settles_bind.
    { apply Hadd; [simpl in HM; lia|done|done|]. destruct HFF as [|(Hsat & HT & Hq)]; [by left|right].
      apply Forall_cons in HT as [Ht _]. split; [done|]. by apply (rewritten_truth ce r Hst'). }
    intros st2 Hp. eapply settles_weaken; [by apply IH; [eapply loop_pre_add|]|].
    intros p Hl. by eapply loop_post_add.
Qed.

Lemma rewriteConstraints_ok st :
  st_inv st -> masses (constraints st) <= M -> F \/ sat rho st /\ Q ->
  settles F (fun n => rewriteConstraints (add n) V st)
    (fun p => loop_post (constraints st) (with_constraints [] st) p.2).
Proof.
  intros Hst HM HFF. apply rewrite_loop_ok; [|by split; [constructor|]].
  pose proof Hst as [Hc _ _ _ _]. split_and!; [by apply st_inv_constraints|done| |simpl; lia].
  destruct HFF as [|[? ?]]; [by left|right]. split_and!; [by apply Forall_nil|done|done].
Qed.
End rewrite.

(** ** Rewriting with an equation *)
Section equation.
Variables (src : expr) (c : apint).
Abbreviation eqn := (BinExpr Kind.Eq (ConstantExpr c) src).
Abbreviation Q := (forall v, eval rho src = Some v -> v = raw c).
Hypothesis Heqn : condition eqn.
Hypothesis HQ : F \/ true_under rho eqn.

Lemma eqn_true : true_under rho eqn -> Q.
Proof.
  unfold true_under. intros H v Hv. simpl in H. rewrite Hv in H. simpl in H.
  destruct (Z.eqb_spec (raw c) v); simpl in H; congruence.
Qed.

Lemma src_stands : stands_for rho Q src (ConstantExpr c).
Proof.
  destruct Heqn as ((Hc & Hs & E) & _). split_and!; [done|done|]. intros Hq v Hv. simpl. by rewrite (Hq v Hv).
Qed.

Lemma replace_condition : visit_condition (ExprReplaceVisitor src (ConstantExpr c)) Q shrinks 1.
Proof.
  intros ce s (Hc & Hw & Hr) Hv Hs. eapply runs_weaken.
  - apply (replace_sound rho F False Q) with (src := src) (dst := c); try done.
    + destruct HQ; [by left|right; by apply eqn_true].
    + by destruct Heqn as ((_ & ? & _) & _).
    + apply src_stands.
  - intros [r s'] [[(Wr & Er & Vr) [Hl Hsh]] Hs']. simpl in *. split_and!; try done.
    + split_and!; [done|congruence|by eapply registered_lighter].
    + destruct (Hsh Hopt); [by left|right; lia].
Qed.

(** Either the equation holds where it has a meaning, or it is false. *)
Lemma eqn_cases : Q \/ false_under rho eqn.
Proof.
  destruct (eval rho src) as [v|] eqn:Hv.
  - destruct (Z.eqb_spec (raw c) v) as [E|E].
    + left. intros v' Hv'. congruence.
    + right. unfold false_under. simpl. rewrite Hv. simpl. by rewrite (proj2 (Z.eqb_neq _ _) E).
  - left. intros v' Hv'. congruence.
Qed.

(** Appending the equation after the rewriting. *)
Lemma eqn_post (cheat : bool) st st1 st' :
  loop_post Q (constraints st) (with_constraints [] st) st1 -> st_inv st' ->
  constraints st' = (if cheat then constraints st1 else constraints st1 ++ [eqn]) ->
  add_post cheat eqn st st'.
Proof.
  intros [Li Ls Le Lm] Hi E. split; [done|..]; unfold sat, excluded in *; rewrite ?E; simpl in *.
  - intros Hs Ht. specialize (Ls (Forall_nil_2 _) Hs (eqn_true Ht)). destruct cheat; [done|].
    apply Forall_app. split; [done|by constructor].
  - intros -> Hx. apply Exists_app. destruct eqn_cases as [Hq|Hf]; [|right; by constructor].
    destruct Hx as [Hx|Hf]; [left|right; by constructor]. apply Le; auto.
  - destruct cheat; [lia|]. rewrite masses_app. simpl. lia.
Qed.
End equation.

(** ** addConstraintInternal *)
Abbreviation addI symNames cheat := (fun n e st => addConstraintInternal n e symNames cheat st).

Lemma mass_nonconst e : isConst e = false -> 1 <= mass e.
Proof. apply (wt_nonconst 1 0 1 (fun _ => 1) (fun _ => le_n 1) (le_n 1)). Qed.

Lemma recorded_post (cheat : bool) e st st' :
  st_inv st' -> constraints st' = (if cheat then constraints st else constraints st ++ [e]) ->
  add_post cheat e st st'.
Proof.
  intros Hi E. split; [done|..]; unfold sat, excluded; rewrite E.
  - intros Hs Ht. destruct cheat; [done|]. apply Forall_app. split; [done|by constructor].
  - intros -> Hx. apply Exists_app. destruct Hx; [by left|right; by constructor].
  - destruct cheat; [lia|]. rewrite masses_app. simpl. lia.
Qed.

Lemma record_settles e symNames cheat st :
  st_inv st -> condition e -> names_ok symNames ->
  settles F (fun _ => record_constraint e symNames cheat st) (add_post cheat e st).
Proof.
  intros Hst He Hn. apply settles_const.
  destruct (record_constraint_ok e symNames cheat st Hst He Hn) as (st' & -> & Hi & E).
  apply runs_ok. by apply recorded_post.
Qed.

Lemma constant_settles c cheat st :
  st_inv st -> condition (ConstantExpr c) -> F \/ sat rho st /\ true_under rho (ConstantExpr c) ->
  settles F (fun _ => _ ← massert (CE_isTrue c); Ok st) (add_post cheat (ConstantExpr c) st).
Proof.
  intros Hst (Hc & Hw & _) HFF. apply settles_const. rewrite isTrue_eq by done.
  destruct (Z.eqb_spec (raw c) 1) as [E|E]; simpl.
  - apply runs_ok. split; [done|done| |lia]. intros _ [Hx|Hx]; [done|].
    unfold false_under in Hx. simpl in Hx. congruence.
  - right. left. split; [|done]. destruct HFF as [|[_ Ht]]; [done|]. unfold true_under in Ht. simpl in Ht. congruence.
Qed.

Lemma and_condition l r :
  condition (BinExpr Kind.And l r) -> condition l /\ condition r.
Proof.
  intros ((Hl & Hr & E) & Hw & Hreg). simpl in Hw. unfold registered in Hreg. simpl in Hreg.
  apply Forall_app in Hreg as [? ?]. split; split_and!; try done. congruence.
Qed.

Lemma and_truth l r :
  condition (BinExpr Kind.And l r) ->
  (true_under rho (BinExpr Kind.And l r) -> true_under rho l /\ true_under rho r) /\
  (false_under rho (BinExpr Kind.And l r) -> false_under rho l \/ false_under rho r).
Proof.
  intros [Hl Hr]%and_condition. unfold true_under, false_under. simpl. split; intros H; inv_option;
    match goal with Ha : eval rho l = Some ?a, Hb : eval rho r = Some ?b |- _ =>
      destruct (condition_value rho l a Hl Ha) as [->| ->], (condition_value rho r b Hr Hb) as [->| ->] end;
    simpl in *; auto; discriminate.
Qed.

Lemma and_post cheat l r st st1 st2 :
  condition (BinExpr Kind.And l r) -> add_post cheat l st st1 -> add_post cheat r st1 st2 ->
  add_post cheat (BinExpr Kind.And l r) st st2.
Proof.
  intros Hc [I1 S1 E1 M1] [I2 S2 E2 M2]. destruct (and_truth l r Hc) as [HT HFl]. split; [done|..].
  - intros Hs Ht. destruct (HT Ht). auto.
  - intros Hch [Hx|Hx]; [auto|]. destruct (HFl Hx); auto.
  - unfold mass in *. simpl. lia.
Qed.

Lemma addConstraintInternal_ok T : forall k e st symNames cheat,
  masses (constraints st) + mass e <= T -> vsize e <= k -> names_ok symNames ->
  add_settles (addI symNames cheat) cheat e st.
Proof.
  induction T as [T IHT] using lt_wf_ind. induction k as [|k IHk]; intros e st symNames cheat HT Hk Hn Hst He HFF.
  { pose proof (vsize_pos e). lia. }
  pose proof (record_settles e symNames cheat st Hst He Hn) as Hrec.
  destruct e as [c| | | | | | | | |b l r]; try (by eapply settles_S; [reflexivity|]).
  { eapply settles_S; [reflexivity|]. by apply constant_settles. }
  destruct b; try (by eapply settles_S; [reflexivity|]).
  - (* And *)
    destruct (and_condition l r He) as [Hl Hr]. destruct (and_truth l r He) as [Htr _].
    eapply settles_S; [reflexivity|]. cbn [addConstraintInternal]. unfold mass in HT. simpl in HT, Hk. eapply settles_bind.
    { apply (IHk l st None cheat); [unfold mass; lia|lia|done|done|done|]. destruct HFF as [|[? Ht%Htr]]; [by left|right]. by destruct Ht. }
    intros st1 P1. pose proof (post_mass _ _ _ _ P1) as M1. unfold mass in M1.
    eapply settles_weaken.
    { apply (IHk r st1 None cheat); [unfold mass; lia|lia|done|apply P1|done|].
      destruct HFF as [|[Hs Ht]]; [by left|right]. destruct (Htr Ht). split; [by apply P1|done]. }
    intros st2 P2. by eapply and_post.
  - (* Eq *)
    eapply settles_S; [reflexivity|]. cbn [addConstraintInternal]. destruct RewriteEqualities; [|exact Hrec].
    destruct l as [c| | | | | | | | |]; try exact Hrec.
    pose proof (mass_nonconst (BinExpr Kind.Eq (ConstantExpr c) r) eq_refl) as Hpos.
    set (Q := forall v, eval rho r = Some v -> v = raw c).
    eapply (settles_bind _ _ _ (fun st1 => loop_post Q (constraints st) (with_constraints [] st) st1)).
    { eapply settles_bind.
      - apply (rewriteConstraints_ok (addI None false) _ Q shrinks 1 (masses (constraints st))); try done.
        + apply replace_condition; [done|]. destruct HFF as [|[_ ?]]; [by left|by right].
        + intros x st' Hx. apply (IHT (masses (constraints st') + mass x)) with (k := vsize x); [lia|lia|done|done].
        + destruct HFF as [|[? ?]]; [by left|right]. split; [done|by refine (eqn_true r c _)].
      - intros p Hp. by apply settles_const, runs_ok. }
    intros st1 P1. apply settles_const.
    destruct (record_constraint_ok (BinExpr Kind.Eq (ConstantExpr c) r) symNames cheat st1) as (st' & -> & Hi & E); [apply P1|done|done|].
    apply runs_ok. by eapply eqn_post.
Qed.
(** ** DoXorOptimization *)
Lemma lighter_condition V :
  (forall n e, vsize e <= n -> visit_spec F False any (rdom rho F) (rewritten rho True lighter) (visit V n) e) ->
  visit_condition V True lighter 0.
Proof.
  intros HV ce s (Hc & Hw & Hr) Hv Hs. eapply runs_weaken; [by apply HV|].
  intros [r s'] [[(Wr & Er & Vr) Hl] Hs']. simpl in *. split_and!; try done.
  - split_and!; [done|congruence|by eapply registered_lighter].
  - right. pose proof (Hl Hopt 1 (fun _ => 1) (fun _ => le_n 1)). unfold mass. lia.
Qed.

(** What a simplification of the state keeps. *)
Definition kept (st st' : CState) : Prop :=
  st_inv st' /\ (sat rho st -> sat rho st') /\ (excluded rho st -> excluded rho st').

Lemma kept_trans st st1 st2 : kept st st1 -> kept st1 st2 -> kept st st2.
Proof. intros (_ & ? & ?) (? & ? & ?). split_and!; auto. Qed.

Lemma rewriteConstraints_kept V st :
  visit_condition V True lighter 0 -> st_inv st -> F \/ sat rho st ->
  settles F (fun n => rewriteConstraints (fun e st => addConstraint n e None st) V st) (fun p => kept st p.2).
Proof.
  intros HV Hst HFF. eapply settles_weaken.
  - apply (rewriteConstraints_ok (addI None false) V True lighter 0 (masses (constraints st))); try done.
    + intros x st' _. by apply (addConstraintInternal_ok (masses (constraints st') + mass x) (vsize x)).
    + destruct HFF; [by left|by right].
  - intros p [Hi Hs Hx _]. split_and!; [done|..].
    + intros Hsat. apply Hs; [by apply Forall_nil|done|done].
    + intros Hex. apply Hx; [done|by right].
Qed.

Lemma DoXorOptimization_ok st :
  st_inv st -> F \/ sat rho st -> settles F (fun n => DoXorOptimization n st) (kept st).
Proof.
  intros Hst HFF. unfold DoXorOptimization.
  assert (Hnext : forall st1, kept st st1 -> st_inv st1 /\ (F \/ sat rho st1)).
  { intros st1 (? & ? & _). split; [done|]. destruct HFF; auto. }
  eapply settles_bind.
  { apply rewriteConstraints_kept; try done. apply lighter_condition. intros. by apply extract_visitor_sound; [right|]. }
  intros p1 K1. destruct (Hnext _ K1). eapply settles_bind.
  { apply rewriteConstraints_kept; try done. apply lighter_condition. intros. by apply xor_lift_sound; [right|]. }
  intros p2 K2. pose proof (kept_trans _ _ _ K1 K2) as K12. destruct (Hnext _ K12). eapply settles_bind.
  { apply rewriteConstraints_kept; try done. apply lighter_condition. intros. by apply xor_propagate_sound; [right|]. }
  intros p3 K3. apply settles_const, runs_ok. by eapply kept_trans.
Qed.

(** ** simplifyWithXorOptimization *)
Lemma visit_once_ok V e :
  (forall n e, vsize e <= n -> visit_spec F False any (rdom rho F) (rewritten rho True lighter) (visit V n) e) ->
  rdom rho F e -> runs F False (visit_once V (vsize e) e) (fun r => stands_for rho True e r /\ rdom rho F r).
Proof.
  intros HV He. unfold visit_once.
  assert (Hs : st_ok any (rewritten rho True lighter) ([], tt)) by (by split; [constructor|]).
  destruct (HV (vsize e) e (le_n _) ([], tt) He Hs) as [([r s'] & -> & [Hr _] & _)|[[HF ->]|[[] _]]];
    [|by right; left].
  apply runs_ok. split; [done|]. split; [apply Hr|]. apply (stands_for_value rho F True (or_intror I) e); [exact Hr|apply He].
Qed.

Lemma simplifyWithXor_ok e :
  rdom rho F e -> runs F False (simplifyWithXorOptimization e) (fun r => stands_for rho True e r).
Proof.
  intros He. unfold simplifyWithXorOptimization.
  eapply runs_bind. { apply visit_once_ok; [|done]. intros. by apply extract_visitor_sound; [right|]. }
  intros e1 [S1 D1]. eapply runs_bind. { apply visit_once_ok; [|done]. intros. by apply xor_lift_sound; [right|]. }
  intros e2 [S2 D2]. eapply runs_weaken. { apply visit_once_ok; [|done]. intros. by apply xor_propagate_sound; [right|]. }
  intros e3 [S3 _]. eapply stands_for_trans; [|exact S3]. by eapply stands_for_trans.
Qed.

(** ** simplifyExpr *)
Lemma add_equality_ok Q eqs it :
  condition it -> (Q -> true_under rho it) ->
  Forall (fun p => wf p.1 /\ stands_for rho Q p.1 p.2 /\ isConst p.2 = true) eqs ->
  Forall (fun p => wf p.1 /\ stands_for rho Q p.1 p.2 /\ isConst p.2 = true) (add_equality eqs it).
Proof.
  intros (Hi & Hw & _) Ht Hall.
  assert (Hins : forall k r, wf k -> stands_for rho Q k r -> isConst r = true ->
    Forall (fun p => wf p.1 /\ stands_for rho Q p.1 p.2 /\ isConst p.2 = true) (visited_insert eqs k r)).
  { intros k r ? ? ?. unfold visited_insert. case_match; [done|]. by constructor. }
  assert (Hplain : Forall (fun p => wf p.1 /\ stands_for rho Q p.1 p.2 /\ isConst p.2 = true)
    (visited_insert eqs it (ConstantExpr (ConstantExpr_alloc 1 Bool)))).
  { apply Hins; [done| |done]. rewrite alloc1_eq by done. split_and!; [by apply apok1|done|].
    intros Hq v Hv. specialize (Ht Hq). unfold true_under in Ht. simpl. congruence. }
  unfold add_equality. destruct it as [| | | | | | | | |k l r]; try done. destruct k; try done.
  destruct l as [c| | | | | | | | |]; try done. destruct Hi as (Hc & Hr & E).
  apply Hins; [done| |done]. split_and!; [done|done|]. intros Hq v Hv. specialize (Ht Hq).
  simpl. by rewrite (eqn_true r c Ht v Hv).
Qed.

Lemma equalities_ok Q cs : forall eqs,
  Forall condition cs -> (Q -> Forall (true_under rho) cs) ->
  Forall (fun p => wf p.1 /\ stands_for rho Q p.1 p.2 /\ isConst p.2 = true) eqs ->
  Forall (fun p => wf p.1 /\ stands_for rho Q p.1 p.2 /\ isConst p.2 = true) (fold_left add_equality cs eqs).
Proof.
  induction cs as [|it cs IH]; intros eqs Hc Ht He; [done|]. apply Forall_cons in Hc as [Hit Hc]. simpl.
  apply IH; [done| |].
  - intros Hq. specialize (Ht Hq). by apply Forall_cons in Ht as [_ ?].
  - apply add_equality_ok; try done. intros Hq. specialize (Ht Hq). by apply Forall_cons in Ht as [? _].
Qed.

Lemma simplifyExpr_ok e st :
  st_inv st -> wf e -> F \/ sat rho st /\ has_value rho e ->
  settles F (fun n => simplifyExpr n e st) (fun r => rewritten rho (sat rho st) shrinks e r).
Proof.
  intros Hst He HFF. unfold simplifyExpr. destruct (isConst e) eqn:Hc.
  { apply settles_const, runs_ok. by apply rewritten_refl; [apply _|]. }
  assert (HQ : F \/ sat rho st) by (destruct HFF as [|[? ?]]; auto).
  assert (Hs : settles F
    (fun n => visit (ExprReplaceVisitor2 (fold_left add_equality (constraints st) [])) n e ([], tt))
    (fun p => rewritten rho (sat rho st) shrinks e p.1 /\ st_ok any (rewritten rho (sat rho st) shrinks) p.2)).
  { apply (replace2_settles rho F _ HQ Hopt) with (T := mass e) (k := vsize e); try done.
    - apply equalities_ok; [by apply inv_constraints|done|constructor].
    - split; [done|]. destruct HFF as [|[? ?]]; auto.
    - by split; [constructor|]. }
  destruct Hs as (r & n & Hn & Hr). unfold visit_once.
  destruct Hr as [([x s'] & -> & Hx & _)|[[HF ->]|[[] _]]].
  - exists (Ok x), n. split; [|by apply runs_ok]. intros k Hk. by rewrite Hn.
  - exists AssertFail, n. split; [|by right; left]. intros k Hk. by rewrite Hn.
Qed.

End run.
End sound.

(** ** From one assignment to all

    [f] returns [r] whatever fuel it has, from some amount on. *)
Definition eventually {A} (f : nat -> result A) (r : result A) : Prop := exists n, forall k, n <= k -> f k = r.

Lemma settles_all {A} (f : nat -> result A) (Pre : env -> Prop) (P : env -> A -> Prop) :
  (forall rho, settles True f (P rho)) -> (forall rho, Pre rho -> settles False f (P rho)) ->
  exists r, eventually f r /\ r <> OutOfFuel /\ ((exists rho, Pre rho) -> exists a, r = Ok a) /\
    forall a, r = Ok a -> forall rho, P rho a.
Proof.
  intros HT HF. destruct (HT (fun _ _ => 0%Z)) as (r & n & Hn & Hr). exists r.
  assert (Hsame : forall F Q r' n', (forall k, n' <= k -> f k = r') -> runs F False r' Q -> r' = r).
  { intros F Q r' n' Hn' _. rewrite <- (Hn (n `max` n')) by lia. symmetry. apply Hn'. lia. }
  split; [by exists n|]. split_and!.
  - destruct Hr as [(a & -> & _)|[[_ ->]|[[] _]]]; done.
  - intros [rho Hp]. destruct (HF rho Hp) as (r' & n' & Hn' & Hr').
    rewrite <- (Hsame _ _ _ _ Hn' Hr'). destruct Hr' as [(a & -> & _)|[[[] _]|[[] _]]]. by exists a.
  - intros a -> rho. destruct (HT rho) as (r' & n' & Hn' & Hr'). pose proof (Hsame _ _ _ _ Hn' Hr') as ->.
    destruct Hr' as [(a' & [= <-] & H)|[[_ ?]|[[] _]]]; done.
Qed.

(** Constraints that have values are all true, or one is false. *)
Lemma sat_or_excluded {CFG : Config} N N' rho st :
  Forall (condition N N') (constraints st) -> Forall (has_value rho) (constraints st) -> sat rho st \/ excluded rho st.
Proof.
  unfold sat, excluded. generalize (constraints st). intros cs Hc Hv.
  induction cs as [|e cs IH]; [left; constructor|].
  apply Forall_cons in Hc as [He Hc]. apply Forall_cons in Hv as [[v Hv] Hvs].
  destruct (condition_value N N' rho e v He Hv) as [->| ->]; [right; by left|].
  destruct (IH Hc Hvs); [left; by constructor|right; by right].
Qed.

Lemma sat_not_excluded {CFG : Config} rho st : sat rho st -> excluded rho st -> False.
Proof.
  unfold sat, excluded. intros Hs Hx. apply Exists_exists in Hx as (e & He & Hf). rewrite Forall_forall in Hs.
  specialize (Hs e He). unfold true_under, false_under in *. congruence.
Qed.

(** C2. Adding a constraint to the path condition is total and exact.  For any
    well-typed state and condition over registered arrays, [addConstraint] with
    enough fuel returns one result that does not depend on the fuel: the mutual
    recursion of [addConstraintInternal] and [rewriteConstraints] terminates.  It
    succeeds if the old constraints and the new one can be satisfied together;
    the new state is well-formed, and among the assignments that give every
    constraint a value it is satisfied exactly by those that satisfied the old
    constraints and satisfy the new one. *)
Theorem addConstraint_correct {AP : APIntOps} {SP : APIntSpec AP} {CFG : Config}
    (N N' : nat) (e : expr) (symNames : option (list Array)) (st : CState)
    (Hopt : ConstArrayOpt = false) (Hst : st_inv N N' st) (He : condition N N' e)
    (Hn : names_ok N N' symNames) :
  exists r, eventually (fun fuel => addConstraint fuel e symNames st) r /\ r <> OutOfFuel /\
    ((exists rho, sat rho st /\ true_under rho e) -> exists st', r = Ok st') /\
    forall st', r = Ok st' -> st_inv N N' st' /\
      forall rho, Forall (has_value rho) (constraints st) -> has_value rho e ->
        (sat rho st' <-> sat rho st /\ true_under rho e).
Proof.
  assert (Hall : forall rho F, F \/ sat rho st /\ true_under rho e ->
    settles F (fun fuel => addConstraint fuel e symNames st) (add_post N N' rho false e st)).
  { intros rho F HF.
    by apply (addConstraintInternal_ok Hopt N N' rho F (masses (constraints st) + mass e) (vsize e)). }
  destruct (settles_all _ (fun rho => sat rho st /\ true_under rho e) _
    (fun rho => Hall rho True (or_introl I)) (fun rho Hp => Hall rho False (or_intror Hp))) as (r & Hr & Hne & Hok & HP).
  exists r. split_and!; try done. intros st' E. specialize (HP st' E). split; [apply (HP (fun _ _ => 0%Z))|].
  intros rho Hv [v Hve]. destruct (HP rho) as [_ Hs Hx _]. split; [|by intros [? ?]; apply Hs].
  intros Hs'. assert (Hnx : ~ (excluded rho st \/ false_under rho e)).
  { intros H. by apply (sat_not_excluded rho st'), Hx. }
  split.
  - destruct (sat_or_excluded N N' rho st) as [|H]; [apply Hst|done|done|]. destruct Hnx. by left.
  - destruct (condition_value N N' rho e v He Hve) as [->| ->]; [|done]. destruct Hnx. by right.
Qed.

(** [buf[0] + buf[1] = 3] and [buf[0] = 1] *)
Definition sum_is_3 : expr := BinExpr Kind.Eq (cst Int8 3) (BinExpr Kind.Add (byte 0) (byte 1)).
Definition first_is_1 : expr := BinExpr Kind.Eq (cst Int8 1) (byte 0).
Definition st_with (cs : list expr) : CState :=
  {| constraints := cs; cheatConstraints := []; ufmanager := fresh_uf 2; ufmanager_cheat := fresh_uf 2 |}.

#[export] Instance condition_dec N N' e : Decision (condition N N' e).
Proof. unfold condition, registered, in_managers. apply _. Defined.

Lemma st_with_inv cs : Forall (condition 2 2) cs -> st_inv 2 2 (st_with cs).
Proof. intros H. destruct (fresh_uf_inv 2). by split. Qed.

Lemma addConstraint_correct_witness :
  exists r, eventually (fun fuel => addConstraint (AP := ZOps) (CFG := default_config) fuel first_is_1 None (st_with [sum_is_3])) r /\
    exists st', r = Ok st' /\ constraints st' = [BinExpr Kind.Eq (cst Int8 2) (byte 1); first_is_1].
Proof.
  destruct (addConstraint_correct (AP := ZOps) (CFG := default_config) 2 2 first_is_1 None (st_with [sum_is_3])
    eq_refl ltac:(apply st_with_inv; concrete) ltac:(concrete) I) as (r & [n Hn] & _ & Hok & _).
  exists r. split; [by exists n|]. destruct Hok as [st' E].
  - exists (fun _ i => if (i =? 0)%Z then 1%Z else 2%Z). split; [repeat constructor; vm_compute; reflexivity|vm_compute; reflexivity].
  - exists st'. split; [done|].
    assert (Hrun : addConstraint (AP := ZOps) (CFG := default_config) (10 `max` n) first_is_1 None (st_with [sum_is_3]) = Ok st').
    { rewrite <- E. apply Hn. lia. }
    destruct (Nat.max_spec 10 n) as [[? Hm]|[? Hm]]; rewrite Hm in Hrun.
    + destruct n as [|[|[|n]]]; [lia..|]. revert Hrun. vm_compute. by intros [= <-].
    + revert Hrun. vm_compute. by intros [= <-].
Defined.

(** A cheat constraint is meant to steer, not to constrain, the path; but an
    equality with a constant rewrites the path condition itself.  After the cheat
    constraint [buf[0] = 1] the path condition [buf[0] + buf[1] = 3] has become
    [buf[1] = 2], which excludes the assignment [buf[0] = 2, buf[1] = 1]. *)
Theorem addCheatConstraint_leaks :
  exists st' rho,
    addCheatConstraint (AP := ZOps) (CFG := default_config) 10 first_is_1 (st_with [sum_is_3]) = Ok st' /\
    constraints st' = [BinExpr Kind.Eq (cst Int8 2) (byte 1)] /\
    sat (CFG := default_config) rho (st_with [sum_is_3]) /\ ~ sat (CFG := default_config) rho st'.
Proof.
  eexists _, (fun _ i => if (i =? 0)%Z then 2%Z else 1%Z).
  split; [vm_compute; reflexivity|]. split; [done|]. split.
  - repeat constructor; vm_compute; reflexivity.
  - intros H. apply Forall_cons in H as [H _]. by vm_compute in H.
Qed.

(** A cheat constraint never loses an assignment that satisfies it: it always
    returns, and what satisfied the path condition and satisfies the cheat
    constraint satisfies the path condition after. *)
Theorem addCheatConstraint_keeps {AP : APIntOps} {SP : APIntSpec AP} {CFG : Config}
    (N N' : nat) (e : expr) (st : CState)
    (Hopt : ConstArrayOpt = false) (Hst : st_inv N N' st) (He : condition N N' e) :
  exists r, eventually (fun fuel => addCheatConstraint fuel e st) r /\ r <> OutOfFuel /\
    ((exists rho, sat rho st /\ true_under rho e) -> exists st', r = Ok st') /\
    forall st', r = Ok st' -> st_inv N N' st' /\
      forall rho, sat rho st -> true_under rho e -> sat rho st'.
Proof.
  assert (Hall : forall rho F, F \/ sat rho st /\ true_under rho e ->
    settles F (fun fuel => addCheatConstraint fuel e st) (add_post N N' rho true e st)).
  { intros rho F HF.
    by apply (addConstraintInternal_ok Hopt N N' rho F (masses (constraints st) + mass e) (vsize e)). }
  destruct (settles_all _ (fun rho => sat rho st /\ true_under rho e) _
    (fun rho => Hall rho True (or_introl I)) (fun rho Hp => Hall rho False (or_intror Hp))) as (r & Hr & Hne & Hok & HP).
  exists r. split_and!; try done. intros st' E. specialize (HP st' E). split; [apply (HP (fun _ _ => 0%Z))|].
  intros rho. apply HP.
Qed.

Lemma addCheatConstraint_keeps_witness :
  exists r, eventually (fun fuel => addCheatConstraint (AP := ZOps) (CFG := default_config) fuel first_is_1 (st_with [sum_is_3])) r /\
    r <> OutOfFuel.
Proof.
  destruct (addCheatConstraint_keeps (AP := ZOps) (CFG := default_config) 2 2 first_is_1 (st_with [sum_is_3])
    eq_refl ltac:(apply st_with_inv; concrete) ltac:(concrete)) as (r & Hr & Hne & _).
  by exists r.
Defined.

(** [DoXorOptimization] terminates, succeeds on satisfiable constraints, and
    the constraints it leaves are satisfied by the same assignments, among those
    that give every constraint a value. *)
Theorem DoXorOptimization_correct {AP : APIntOps} {SP : APIntSpec AP} {CFG : Config}
    (N N' : nat) (st : CState) (Hopt : ConstArrayOpt = false) (Hst : st_inv N N' st) :
  exists r, eventually (fun fuel => DoXorOptimization fuel st) r /\ r <> OutOfFuel /\
    ((exists rho, sat rho st) -> exists st', r = Ok st') /\
    forall st', r = Ok st' -> st_inv N N' st' /\
      forall rho, Forall (has_value rho) (constraints st) -> (sat rho st' <-> sat rho st).
Proof.
  assert (Hall : forall rho F, F \/ sat rho st ->
    settles F (fun fuel => DoXorOptimization fuel st) (kept N N' rho st)).
  { intros rho F HF. by apply DoXorOptimization_ok. }
  destruct (settles_all _ (fun rho => sat rho st) _
    (fun rho => Hall rho True (or_introl I)) (fun rho Hp => Hall rho False (or_intror Hp))) as (r & Hr & Hne & Hok & HP).
  exists r. split_and!; try done. intros st' E. specialize (HP st' E). split; [apply (HP (fun _ _ => 0%Z))|].
  intros rho Hv. destruct (HP rho) as (_ & Hs & Hx). split; [|done]. intros Hs'.
  destruct (sat_or_excluded N N' rho st) as [|H]; [apply Hst|done|done|].
  destruct (sat_not_excluded rho st'); auto.
Qed.

(** [5 = (7 ^ buf[0])] *)
Definition masked : expr := BinExpr Kind.Eq (cst Int8 5) (BinExpr Kind.Xor (cst Int8 7) (byte 0)).

Lemma DoXorOptimization_correct_witness :
  exists r, eventually (fun fuel => DoXorOptimization (AP := ZOps) (CFG := default_config) fuel (st_with [masked])) r /\
    exists st', r = Ok st' /\ constraints st' = [BinExpr Kind.Eq (cst Int8 2) (byte 0)].
Proof.
  destruct (DoXorOptimization_correct (AP := ZOps) (CFG := default_config) 2 2 (st_with [masked])
    eq_refl ltac:(apply st_with_inv; concrete)) as (r & [n Hn] & _ & Hok & _).
  exists r. split; [by exists n|].
  assert (Hrun : DoXorOptimization (AP := ZOps) (CFG := default_config) (S (S (S n))) (st_with [masked]) = r).
  { apply Hn. lia. }
  rewrite <- Hrun. eexists. split; [vm_compute; reflexivity|reflexivity].
Defined.

(** [simplifyWithXorOptimization] of an expression that has a value under some
    assignment returns an expression of the same width with the same value under
    every assignment. *)
Theorem simplifyWithXor_correct {AP : APIntOps} {SP : APIntSpec AP} {CFG : Config}
    (e : expr) (rho0 : env) (He : wf e) (Hv : has_value rho0 e) :
  returns (simplifyWithXorOptimization e) (fun r => impl r e).
Proof.
  destruct (simplifyWithXor_ok rho0 False e) as [(r & E & Hr)|[[[] _]|[[] _]]]; [by split; [|right]|].
  exists r. split; [done|]. destruct Hr as (Wr & Wd & _). split_and!; [done|done|]. intros rho v Hvr.
  destruct (simplifyWithXor_ok rho True e) as [(r' & E' & (_ & _ & Hr'))|[[_ E']|[[] _]]]; [by split; [|left]| |congruence].
  rewrite E in E'. simplify_eq. by apply Hr'.
Qed.

Lemma simplifyWithXor_correct_witness :
  returns (simplifyWithXorOptimization (AP := ZOps) (CFG := default_config) masked)
    (fun r => impl (CFG := default_config) r masked).
Proof.
  apply (simplifyWithXor_correct (AP := ZOps) (CFG := default_config) masked ramp); [concrete|].
  eexists. vm_compute. reflexivity.
Defined.

(** C34. [simplifyExpr] terminates, although it visits what it has rewritten again;
    it succeeds if some assignment satisfies the constraints and gives the
    expression a value; and its result has the width of the expression and the
    same value under every assignment that satisfies the constraints. *)
Theorem simplifyExpr_correct {AP : APIntOps} {SP : APIntSpec AP} {CFG : Config}
    (N N' : nat) (e : expr) (st : CState) (Hopt : ConstArrayOpt = false) (Hst : st_inv N N' st) (He : wf e) :
  exists r, eventually (fun fuel => simplifyExpr fuel e st) r /\ r <> OutOfFuel /\
    ((exists rho, sat rho st /\ has_value rho e) -> exists e', r = Ok e') /\
    forall e', r = Ok e' -> wf e' /\ getWidth e' = getWidth e /\
      forall rho v, sat rho st -> eval rho e = Some v -> eval rho e' = Some v.
Proof.
  assert (Hall : forall rho F, F \/ sat rho st /\ has_value rho e ->
    settles F (fun fuel => simplifyExpr fuel e st) (fun r => rewritten rho (sat rho st) shrinks e r)).
  { intros rho F HF. by apply (simplifyExpr_ok Hopt N N'). }
  destruct (settles_all _ (fun rho => sat rho st /\ has_value rho e) _
    (fun rho => Hall rho True (or_introl I)) (fun rho Hp => Hall rho False (or_intror Hp))) as (r & Hr & Hne & Hok & HP).
  exists r. split_and!; try done. intros e' E. specialize (HP e' E).
  destruct (HP (fun _ _ => 0%Z)) as [(? & ? & _) _]. split_and!; try done.
  intros rho v Hs Hv. destruct (HP rho) as [(_ & _ & Hval) _]. auto.
Qed.

Lemma simplifyExpr_correct_witness :
  exists r, eventually (fun fuel => simplifyExpr (AP := ZOps) (CFG := default_config) fuel sum_is_3 (st_with [first_is_1])) r /\
    r = Ok (BinExpr Kind.Eq (cst Int8 2) (byte 1)).
Proof.
  destruct (simplifyExpr_correct (AP := ZOps) (CFG := default_config) 2 2 sum_is_3 (st_with [first_is_1])
    eq_refl ltac:(apply st_with_inv; concrete) ltac:(concrete)) as (r & [n Hn] & _).
  exists r. split; [by exists n|]. rewrite <- (Hn (10 + n)) by lia. vm_compute. reflexivity.
Defined.

(** [updateUFStructures] for registered arrays always returns, keeps every
    element under a representative, records the constraint once if it mentions an
    array, and loses none of the constraints recorded before. *)
Theorem updateUF_correct (m : UFManager) (ufes : list nat) (e : expr)
    (Hm : uf_inv m) (HF : Forall (fun j => j < length m) ufes) :
  exists m', update_uf m ufes e = Ok m' /\ uf_inv m' /\ length m' = length m /\
    all_constraints m' ≡ₚ all_constraints m ++ (if decide (ufes = []) then [] else [e]).
Proof. by apply update_uf_inv. Qed.

Lemma updateUF_correct_witness :
  exists m', update_uf (fresh_uf 3) [0; 2; 1] first_is_1 = Ok m' /\ all_constraints m' ≡ₚ [first_is_1].
Proof.
  destruct (updateUF_correct (fresh_uf 3) [0; 2; 1] first_is_1) as (m' & E & _ & _ & P).
  - apply fresh_uf_inv.
  - repeat constructor; simpl; lia.
  - exists m'. split; [exact E|]. by rewrite P.
Defined.
