(* ===== verification/ImmutableTree.v ===== *)
(** * ImmutableTree: persistent balanced search trees

    Models [klee/include/klee/Internal/ADT/ImmutableTree.h] with the wrappers
    [ImmutableMap.h] and [ImmutableSet.h]: the tree that backs the address space.
    A node keeps its height in an [unsigned]; the empty tree is the static
    [terminator] node, whose children are itself.  Operations return a new tree
    and share what they keep, so the model uses trees as values; the reference
    counts, which only decide when a node is freed, are left out.

    An iterator is a stack of nodes of a fixed capacity, the height of the tree.
    Overflowing that stack is undefined in C++ and fails here.  Two nodes of one
    tree are the same object when they are equal: distinct subtrees of a search
    tree hold different keys. *)

From S2P Require Import Prelude.
From Stdlib Require Import Sorting.Sorted.
Local Open Scope Z_scope.

Module Tree.

(** [KOV] and [CMP]: the key of a value and the comparison of keys. *)
Class TreeOrder (K V : Type) := {
  key_of_value : V -> K;
  key_compare : K -> K -> bool;
  terminator_value : V;    (* the default-constructed value of [terminator] *)
}.

(** What [std::map]-like containers require of a comparison: a strict weak order. *)
Class StrictWeakOrder {K} (lt : K -> K -> bool) : Prop := {
  swo_irrefl a : lt a a = false;
  swo_trans a b c : lt a b = true -> lt b c = true -> lt a c = true;
  swo_split a b c : lt a c = true -> lt a b = true \/ lt b c = true;
}.

(** The node classes. *)
Inductive node (V : Type) : Type :=
| Terminator
| TNode (left right : node V) (value : V) (height : Z).
Arguments Terminator {V}.
Arguments TNode {V} _ _ _ _.

#[export] Instance node_eq_dec {V} `{EqDecision V} : EqDecision (node V).
Proof. solve_decision. Defined.

Definition isTerminator {V} (n : node V) : bool := match n with Terminator => true | _ => false end.
Definition nleft {V} (n : node V) : node V := match n with Terminator => Terminator | TNode l _ _ _ => l end.
Definition nright {V} (n : node V) : node V := match n with Terminator => Terminator | TNode _ r _ _ => r end.
Definition height {V} (n : node V) : Z := match n with Terminator => 0 | TNode _ _ _ h => h end.

Section tree.
Context {K V : Type} {TO : TreeOrder K V}.
Abbreviation klt := key_compare.
Abbreviation kov := (key_of_value (V := V)).

Definition nvalue (n : node V) : V := match n with Terminator => terminator_value | TNode _ _ v _ => v end.

(** [Node::Node(_left, _right, _value)] *)
Definition new_Node (l r : node V) (v : V) : node V :=
  TNode l r v (u32 (Z.max (height l) (height r) + 1)).

Definition balance (left : node V) (value : V) (right : node V) : node V :=
  if u32 (height right + 2) <? height left then
    let ll := nleft left in
    let lr := nright left in
    if height lr <=? height ll then
      let nlr := new_Node lr right value in
      new_Node ll nlr (nvalue left)
    else
      let nll := new_Node ll (nleft lr) (nvalue left) in
      let nlr := new_Node (nright lr) right value in
      new_Node nll nlr (nvalue lr)
  else if u32 (height left + 2) <? height right then
    let rl := nleft right in
    let rr := nright right in
    if height rl <=? height rr then
      let nrl := new_Node left rl value in
      new_Node nrl rr (nvalue right)
    else
      let nrl := new_Node left (nleft rl) value in
      let nrr := new_Node (nright rl) rr (nvalue right) in
      new_Node nrl nrr (nvalue rl)
  else new_Node left right value.

Fixpoint size (t : node V) : Z :=
  match t with Terminator => 0 | TNode l r _ _ => size l + 1 + size r end.

(** The out-parameter [valueOut] is the second component. *)
Fixpoint popMin (t : node V) : node V * V :=
  match t with
  | Terminator => (Terminator, terminator_value)
  | TNode l r v _ =>
      if isTerminator l then (r, v)
      else let '(l', out) := popMin l in (balance l' v r, out)
  end.

Fixpoint popMax (t : node V) : node V * V :=
  match t with
  | Terminator => (Terminator, terminator_value)
  | TNode l r v _ =>
      if isTerminator r then (l, v)
      else let '(r', out) := popMax r in (balance l v r', out)
  end.

Fixpoint insert (v : V) (t : node V) : node V :=
  match t with
  | Terminator => new_Node Terminator Terminator v
  | TNode l r x _ =>
      if klt (kov v) (kov x) then balance (insert v l) x r
      else if klt (kov x) (kov v) then balance l x (insert v r)
      else t
  end.

Fixpoint replace (v : V) (t : node V) : node V :=
  match t with
  | Terminator => new_Node Terminator Terminator v
  | TNode l r x _ =>
      if klt (kov v) (kov x) then balance (replace v l) x r
      else if klt (kov x) (kov v) then balance l x (replace v r)
      else new_Node l r v
  end.

Fixpoint remove (k : K) (t : node V) : node V :=
  match t with
  | Terminator => Terminator
  | TNode l r x _ =>
      if klt k (kov x) then balance (remove k l) x r
      else if klt (kov x) k then balance l x (remove k r)
      else if isTerminator l then r
      else if isTerminator r then l
      else let '(nr, min) := popMin r in balance l min nr
  end.

(** ** ImmutableTree *)
Definition empty (t : node V) : bool := isTerminator t.

Fixpoint count (t : node V) (k : K) : Z :=
  match t with
  | Terminator => 0
  | TNode l r x _ =>
      if klt k (kov x) then count l k else if klt (kov x) k then count r k else 1
  end.

Fixpoint lookup (t : node V) (k : K) : option V :=
  match t with
  | Terminator => None
  | TNode l r x _ =>
      if klt k (kov x) then lookup l k else if klt (kov x) k then lookup r k else Some x
  end.

Fixpoint lookup_previous_loop (t : node V) (k : K) (res : option V) : option V :=
  match t with
  | Terminator => res
  | TNode l r x _ =>
      if klt k (kov x) then lookup_previous_loop l k res
      else if klt (kov x) k then lookup_previous_loop r k (Some x)
      else Some x
  end.
Definition lookup_previous (t : node V) (k : K) : option V := lookup_previous_loop t k None.

Fixpoint min_loop (t : node V) : V :=
  match t with
  | Terminator => terminator_value
  | TNode l _ x _ => if isTerminator l then x else min_loop l
  end.
Definition min (t : node V) : result V := _ ← massert (negb (isTerminator t)); Ok (min_loop t).

Fixpoint max_loop (t : node V) : V :=
  match t with
  | Terminator => terminator_value
  | TNode _ r x _ => if isTerminator r then x else max_loop r
  end.
Definition max (t : node V) : result V := _ ← massert (negb (isTerminator t)); Ok (max_loop t).
End tree.

(** ** FixedStack *)
Record FixedStack (T : Type) := { fs_max : Z; elts : list T (* the top first *) }.
Arguments fs_max {T}. Arguments elts {T}. Arguments Build_FixedStack {T}.

Section stack.
Context {T : Type}.
Definition FixedStack_new (max : Z) : FixedStack T := {| fs_max := max; elts := [] |}.
Definition push_back (s : FixedStack T) (x : T) : result (FixedStack T) :=
  _ ← massert (Z.of_nat (length (elts s)) <? fs_max s);
  Ok {| fs_max := fs_max s; elts := x :: elts s |}.
Definition pop_back (s : FixedStack T) : FixedStack T :=
  {| fs_max := fs_max s; elts := tail (elts s) |}.
Definition fs_empty (s : FixedStack T) : bool := match elts s with [] => true | _ => false end.
Definition back (s : FixedStack T) : result T := match elts s with [] => AssertFail | x :: _ => Ok x end.
Definition fs_assign (a b : FixedStack T) : result (FixedStack T) :=
  _ ← massert (fs_max a =? fs_max b); Ok b.
End stack.

(** ** Iterators *)
Record iterator (V : Type) := { it_root : node V; it_stack : FixedStack (node V) }.
Arguments it_root {V}. Arguments it_stack {V}. Arguments Build_iterator {V}.

Section iterators.
Context {K V : Type} {TO : TreeOrder K V} `{EqDecision V}.
Abbreviation klt := key_compare.
Abbreviation kov := (key_of_value (V := V)).

(** [for (n = ...; !n->isTerminator(); n = n->left) stack.push_back(n)] *)
Fixpoint push_left (n : node V) (s : FixedStack (node V)) : result (FixedStack (node V)) :=
  match n with
  | Terminator => Ok s
  | TNode l _ _ _ => s ← push_back s n; push_left l s
  end.
Fixpoint push_right (n : node V) (s : FixedStack (node V)) : result (FixedStack (node V)) :=
  match n with
  | Terminator => Ok s
  | TNode _ r _ _ => s ← push_back s n; push_right r s
  end.

Definition new_iterator (root : node V) (atBeginning : bool) : result (iterator V) :=
  let s := FixedStack_new (height root) in
  s ← (if atBeginning then push_left root s else Ok s);
  Ok {| it_root := root; it_stack := s |}.

Definition deref (it : iterator V) : result V := n ← back (it_stack it); Ok (nvalue n).

(** [stack == b.stack]: the same nodes. *)
Definition it_eqb (a b : iterator V) : bool := bool_decide (elts (it_stack a) = elts (it_stack b)).

(** The assignment of one iterator to another, of stacks of equal capacity. *)
Definition it_assign (a b : iterator V) : result (iterator V) :=
  s ← fs_assign (it_stack a) (it_stack b); Ok {| it_root := it_root b; it_stack := s |}.

(** The loop that climbs until the node came from the left; [prev] was popped. *)
Fixpoint climb_left (prev : node V) (st : list (node V)) : list (node V) :=
  match st with
  | [] => []
  | n :: rest => if decide (prev = nleft n) then st else climb_left n rest
  end.
Fixpoint climb_right (prev : node V) (st : list (node V)) : list (node V) :=
  match st with
  | [] => []
  | n :: rest => if decide (prev = nright n) then st else climb_right n rest
  end.

Definition with_elts (s : FixedStack (node V)) (l : list (node V)) : FixedStack (node V) :=
  {| fs_max := fs_max s; elts := l |}.

(** [operator++] *)
Definition it_next (it : iterator V) : result (iterator V) :=
  let s := it_stack it in
  match elts s with
  | [] => AssertFail
  | n :: st =>
      s' ← (if isTerminator (nright n) then Ok (with_elts s (climb_left n st))
            else s ← push_back s (nright n); push_left (nleft (nright n)) s);
      Ok {| it_root := it_root it; it_stack := s' |}
  end.

(** [operator--] *)
Definition it_prev (it : iterator V) : result (iterator V) :=
  let s := it_stack it in
  s' ← match elts s with
       | [] => push_right (it_root it) s
       | n :: st =>
           if isTerminator (nleft n) then Ok (with_elts s (climb_right n st))
           else s ← push_back s (nleft n); push_right (nright (nleft n)) s
       end;
  Ok {| it_root := it_root it; it_stack := s' |}.

Definition begin (t : node V) : result (iterator V) := new_iterator t true.
Definition end_ (t : node V) : result (iterator V) := new_iterator t false.

(** The descent of [lower_bound]; the flag says that the key was met. *)
Fixpoint descend (n : node V) (k : K) (s : FixedStack (node V)) : result (FixedStack (node V) * bool) :=
  match n with
  | Terminator => Ok (s, false)
  | TNode l r x _ =>
      s ← push_back s n;
      if klt k (kov x) then descend l k s
      else if klt (kov x) k then descend r k s
      else Ok (s, true)
  end.

Definition lower_bound (t : node V) (k : K) : result (iterator V) :=
  it ← new_iterator t false;
  p ← descend t k (it_stack it);
  let it := {| it_root := t; it_stack := fst p |} in
  if snd p : bool then Ok it
  else
    match elts (fst p) with
    | [] => Ok it
    | last :: _ => if klt (kov (nvalue last)) k then it_next it else Ok it
    end.

Definition find (t : node V) (k : K) : result (iterator V) :=
  e ← end_ t;
  it ← lower_bound t k;
  if it_eqb it e then Ok e
  else v ← deref it; Ok (if klt k (kov v) then e else it).

Definition upper_bound (t : node V) (k : K) : result (iterator V) :=
  e ← end_ t;
  it ← lower_bound t k;
  if it_eqb it e then Ok it
  else v ← deref it; if klt k (kov v) then Ok it else it_next it.
End iterators.

(** ** Balance *)
#[local] Arguments new_Node : simpl never.
#[local] Arguments balance : simpl never.

Section avl.
Context {K V : Type} {TO : TreeOrder K V}.

Lemma isTerminator_true (t : node V) : isTerminator t = true -> t = Terminator.
Proof. by destruct t. Qed.
Lemma isTerminator_false (t : node V) : isTerminator t = false -> t <> Terminator.
Proof. by destruct t. Qed.

(** Heights are recorded truthfully and differ by at most two. *)
Fixpoint avl (t : node V) : Prop :=
  match t with
  | Terminator => True
  | TNode l r _ h =>
      avl l /\ avl r /\ h = Z.max (height l) (height r) + 1 /\ -2 <= height l - height r <= 2
  end.

Lemma height_nonneg t : avl t -> 0 <= height t.
Proof. induction t as [|l IHl r IHr v h]; simpl; [lia|]. intros (Hl & Hr & -> & _). specialize (IHl Hl). lia. Qed.

Lemma height_0 t : avl t -> height t = 0 -> t = Terminator.
Proof.
  destruct t as [|l r v h]; simpl; [done|]. intros (Hl & Hr & -> & _).
  pose proof (height_nonneg l Hl). lia.
Qed.

(** An AVL tree with slack two holds exponentially many nodes. *)
Lemma cube_step hl hr a b :
  0 <= hr <= hl -> hl - hr <= 2 -> 1 <= a -> 1 <= b -> 2 ^ hl <= a ^ 3 -> 2 ^ hr <= b ^ 3 ->
  2 ^ (hl + 1) <= (a + b) ^ 3.
Proof.
  intros Hr Hd Ha Hb HA HB. set (y := 2 ^ hr) in *.
  assert (Hm : y <= a * b * (a + b)).
  { assert (y <= a ^ 3) by (etrans; [|exact HA]; apply Z.pow_le_mono_r; lia).
    destruct (Z.le_ge_cases b a); nia. }
  replace (2 ^ (hl + 1)) with (2 ^ (hl - hr + 1) * y) by (unfold y; rewrite <- Z.pow_add_r by lia; f_equal; lia).
  replace (2 ^ hl) with (2 ^ (hl - hr) * y) in HA by (unfold y; rewrite <- Z.pow_add_r by lia; f_equal; lia).
  assert (0 < y) by (apply Z.pow_pos_nonneg; lia).
  replace ((a + b) ^ 3) with (a ^ 3 + b ^ 3 + 3 * (a * b * (a + b))) by ring.
  assert (hl - hr = 0 \/ hl - hr = 1 \/ hl - hr = 2) as [E|[E|E]] by lia; rewrite E in *; simpl in *; lia.
Qed.

Lemma size_nonneg (t : node V) : 0 <= size t.
Proof. induction t; simpl; lia. Qed.

Lemma height_size t : avl t -> 2 ^ height t <= (size t + 1) ^ 3.
Proof.
  induction t as [|l IHl r IHr v h]; [done|]. intros (Hl & Hr & Hh & Hd). cbn [height size].
  specialize (IHl Hl). specialize (IHr Hr). pose proof (height_nonneg l Hl). pose proof (height_nonneg r Hr).
  pose proof (size_nonneg l). pose proof (size_nonneg r). subst h.
  destruct (Z.le_ge_cases (height r) (height l)).
  - rewrite Z.max_l by lia. replace (size l + 1 + size r + 1) with ((size l + 1) + (size r + 1)) by lia.
    apply (cube_step _ (height r)); lia.
  - rewrite Z.max_r by lia. replace (size l + 1 + size r + 1) with ((size r + 1) + (size l + 1)) by lia.
    apply (cube_step _ (height l)); lia.
Qed.

(** A tree that fits the address space is at most 192 high. *)
Lemma height_bound t : avl t -> size t < 2 ^ 64 -> height t <= 192.
Proof.
  intros Ht Hs. pose proof (height_size t Ht). pose proof (size_nonneg t).
  destruct (Z.le_gt_cases (height t) 192); [done|exfalso].
  assert (2 ^ 193 <= 2 ^ height t) by (apply Z.pow_le_mono_r; lia).
  assert ((size t + 1) ^ 3 <= (2 ^ 64) ^ 3) by (apply Z.pow_le_mono_l; lia).
  assert ((2 ^ 64) ^ 3 < 2 ^ 193) by (vm_compute; reflexivity). lia.
Qed.

(** The heights that [balance] meets stay far from the limit of an [unsigned]. *)
Definition low (t : node V) : Prop := height t < 2 ^ 31.

Lemma new_Node_avl l r v :
  avl l -> avl r -> low l -> low r -> -2 <= height l - height r <= 2 ->
  avl (new_Node l r v) /\ height (new_Node l r v) = Z.max (height l) (height r) + 1.
Proof.
  unfold low. intros Hl Hr Bl Br Hd. pose proof (height_nonneg l Hl). pose proof (height_nonneg r Hr).
  unfold new_Node. rewrite u32_small by lia. done.
Qed.

Lemma balance_avl l v r :
  avl l -> avl r -> low l -> low r -> -3 <= height l - height r <= 3 ->
  avl (balance l v r) /\
  (if decide (-2 <= height l - height r <= 2)
   then height (balance l v r) = Z.max (height l) (height r) + 1
   else Z.max (height l) (height r) <= height (balance l v r) <= Z.max (height l) (height r) + 1).
Proof.
  unfold low. intros Hl Hr Bl Br Hd. pose proof (height_nonneg l Hl). pose proof (height_nonneg r Hr).
  unfold balance. rewrite !u32_small by lia.
  destruct (Z.ltb_spec (height r + 2) (height l)) as [Hh|Hh].
  { destruct l as [|ll lr lv h]; simpl in Bl, Hd, Hh; [lia|]; cbn [nleft nright nvalue height]. destruct Hl as (Hll & Hlr & -> & Hd').
    pose proof (height_nonneg ll Hll). pose proof (height_nonneg lr Hlr).
    rewrite decide_False by lia. destruct (Z.leb_spec (height lr) (height ll)) as [Hc|Hc].
    - destruct (new_Node_avl lr r v) as [A1 N1]; try (done || unfold low; lia).
      destruct (new_Node_avl ll (new_Node lr r v) lv) as [A2 N2]; try (done || unfold low; lia). split; [done|lia].
    - destruct lr as [|a b lrv h']; simpl in Hlr, Hc, Hd', Bl, Hd, Hh; [lia|]; cbn [nleft nright nvalue height]. destruct Hlr as (Ha & Hb & -> & Hd'').
      pose proof (height_nonneg a Ha). pose proof (height_nonneg b Hb).
      destruct (new_Node_avl ll a lv) as [A1 N1]; try (done || unfold low; lia).
      destruct (new_Node_avl b r v) as [A2 N2]; try (done || unfold low; lia).
      destruct (new_Node_avl (new_Node ll a lv) (new_Node b r v) lrv) as [A3 N3]; try (done || unfold low; lia).
      split; [done|lia]. }
  destruct (Z.ltb_spec (height l + 2) (height r)) as [Hh'|Hh'].
  { destruct r as [|rl rr rv h]; simpl in Br, Hd, Hh'; [lia|]; cbn [nleft nright nvalue height]. destruct Hr as (Hrl & Hrr & -> & Hd').
    pose proof (height_nonneg rl Hrl). pose proof (height_nonneg rr Hrr).
    rewrite decide_False by lia. destruct (Z.leb_spec (height rl) (height rr)) as [Hc|Hc].
    - destruct (new_Node_avl l rl v) as [A1 N1]; try (done || unfold low; lia).
      destruct (new_Node_avl (new_Node l rl v) rr rv) as [A2 N2]; try (done || unfold low; lia). split; [done|lia].
    - destruct rl as [|a b rlv h']; simpl in Hrl, Hc, Hd', Br, Hd, Hh'; [lia|]; cbn [nleft nright nvalue height]. destruct Hrl as (Ha & Hb & -> & Hd'').
      pose proof (height_nonneg a Ha). pose proof (height_nonneg b Hb).
      destruct (new_Node_avl l a v) as [A1 N1]; try (done || unfold low; lia).
      destruct (new_Node_avl b rr rv) as [A2 N2]; try (done || unfold low; lia).
      destruct (new_Node_avl (new_Node l a v) (new_Node b rr rv) rlv) as [A3 N3]; try (done || unfold low; lia).
      split; [done|lia]. }
  rewrite decide_True by lia. apply new_Node_avl; done || lia.
Qed.

Lemma insert_avl v t :
  avl t -> height t < 2 ^ 31 - 1 ->
  avl (insert v t) /\ height t <= height (insert v t) <= height t + 1.
Proof.
  induction t as [|l IHl r IHr x h].
  { intros _ _. cbn [insert replace]. by destruct (new_Node_avl Terminator Terminator v) as [? ->]; try (done || unfold low; simpl; lia). }
  intros Ht Hb. pose proof Ht as (Hl & Hr & Hh & Hd). cbn [insert height] in *.
  pose proof (height_nonneg l Hl). pose proof (height_nonneg r Hr).
  destruct (key_compare _ _).
  { destruct IHl as [A N1]; [done|lia|]. destruct (balance_avl (insert v l) x r) as [? Hc]; try (done || unfold low; lia).
    split; [done|]. case_decide; lia. }
  destruct (key_compare _ _).
  { destruct IHr as [A N1]; [done|lia|]. destruct (balance_avl l x (insert v r)) as [? Hc]; try (done || unfold low; lia).
    split; [done|]. case_decide; lia. }
  split; [done|]. simpl. lia.
Qed.

Lemma replace_avl v t :
  avl t -> height t < 2 ^ 31 - 1 ->
  avl (replace v t) /\ height t <= height (replace v t) <= height t + 1.
Proof.
  induction t as [|l IHl r IHr x h].
  { intros _ _. cbn [insert replace]. by destruct (new_Node_avl Terminator Terminator v) as [? ->]; try (done || unfold low; simpl; lia). }
  intros Ht Hb. pose proof Ht as (Hl & Hr & Hh & Hd). cbn [replace height] in *.
  pose proof (height_nonneg l Hl). pose proof (height_nonneg r Hr).
  destruct (key_compare _ _).
  { destruct IHl as [A N1]; [done|lia|]. destruct (balance_avl (replace v l) x r) as [? Hc]; try (done || unfold low; lia).
    split; [done|]. case_decide; lia. }
  destruct (key_compare _ _).
  { destruct IHr as [A N1]; [done|lia|]. destruct (balance_avl l x (replace v r)) as [? Hc]; try (done || unfold low; lia).
    split; [done|]. case_decide; lia. }
  destruct (new_Node_avl l r v) as [? ->]; try (done || unfold low; lia). split; [done|lia].
Qed.

Lemma pop_avl t :
  avl t -> low t -> t <> Terminator ->
  (avl (popMin t).1 /\ height t - 1 <= height (popMin t).1 <= height t) /\
  (avl (popMax t).1 /\ height t - 1 <= height (popMax t).1 <= height t).
Proof.
  unfold low. induction t as [|l IHl r IHr x h]; [done|].
  intros Ht Hb _. pose proof Ht as (Hl & Hr & Hh & Hd). cbn [popMin popMax height] in *.
  pose proof (height_nonneg l Hl). pose proof (height_nonneg r Hr). split.
  - destruct (isTerminator l) eqn:El; [apply isTerminator_true in El as ->; simpl in *; split; [done|lia]|].
    destruct IHl as [[A N1] _]; [done|lia|by apply isTerminator_false|].
    destruct (popMin l) as [l' out]; cbn [fst] in *.
    destruct (balance_avl l' x r) as [? Hc]; try (done || unfold low; lia). split; [done|]. case_decide; lia.
  - destruct (isTerminator r) eqn:Er; [apply isTerminator_true in Er as ->; simpl in *; split; [done|lia]|].
    destruct IHr as [_ [A N1]]; [done|lia|by apply isTerminator_false|].
    destruct (popMax r) as [r' out]; cbn [fst] in *.
    destruct (balance_avl l x r') as [? Hc]; try (done || unfold low; lia). split; [done|]. case_decide; lia.
Qed.

Lemma remove_avl k t :
  avl t -> low t -> avl (remove k t) /\ height t - 1 <= height (remove k t) <= height t.
Proof.
  unfold low. induction t as [|l IHl r IHr x h]; [simpl; split; [done|lia]|].
  intros Ht Hb. pose proof Ht as (Hl & Hr & Hh & Hd). cbn [remove height] in *.
  pose proof (height_nonneg l Hl). pose proof (height_nonneg r Hr).
  destruct (key_compare _ _).
  { destruct IHl as [A N1]; [done|lia|]. destruct (balance_avl (remove k l) x r) as [? Hc]; try (done || unfold low; lia).
    split; [done|]. case_decide; lia. }
  destruct (key_compare _ _).
  { destruct IHr as [A N1]; [done|lia|]. destruct (balance_avl l x (remove k r)) as [? Hc]; try (done || unfold low; lia).
    split; [done|]. case_decide; lia. }
  destruct (isTerminator l) eqn:El; [apply isTerminator_true in El as ->; simpl in *; split; [done|lia]|].
  destruct (isTerminator r) eqn:Er; [apply isTerminator_true in Er as ->; simpl in *; split; [done|lia]|].
  destruct (pop_avl r) as [[A N1] _]; [done|unfold low; lia|by apply isTerminator_false|].
  destruct (popMin r) as [nr m]; cbn [fst] in *.
  destruct (balance_avl l m nr) as [? Hc]; try (done || unfold low; lia).
  split; [done|]. case_decide; lia.
Qed.
End avl.

(** ** The abstract container: a sorted list *)
Section refinement.
Context {K V : Type} {TO : TreeOrder K V} {SW : StrictWeakOrder (key_compare (V := V))}.
Abbreviation klt := (key_compare (V := V)).
Abbreviation kov := (key_of_value (V := V)).

Definition vlt (x y : V) : Prop := klt (kov x) (kov y) = true.

Fixpoint elements (t : node V) : list V :=
  match t with Terminator => [] | TNode l r v _ => elements l ++ v :: elements r end.

Definition bst (t : node V) : Prop := StronglySorted vlt (elements t).

(** The operations of a sorted list without equivalent keys. *)
Fixpoint l_insert (v : V) (l : list V) : list V :=
  match l with
  | [] => [v]
  | x :: l' => if klt (kov v) (kov x) then v :: l
               else if klt (kov x) (kov v) then x :: l_insert v l' else l
  end.
Fixpoint l_replace (v : V) (l : list V) : list V :=
  match l with
  | [] => [v]
  | x :: l' => if klt (kov v) (kov x) then v :: l
               else if klt (kov x) (kov v) then x :: l_replace v l' else v :: l'
  end.
Definition equiv (k : K) (v : V) : bool := negb (klt k (kov v)) && negb (klt (kov v) k).
Definition l_remove (k : K) (l : list V) : list V := List.filter (fun v => negb (equiv k v)) l.
Definition l_lookup (k : K) (l : list V) : option V := List.find (equiv k) l.

(** *** Order *)
Lemma klt_asym a b : klt a b = true -> klt b a = false.
Proof.
  intros H. destruct (klt b a) eqn:E; [|done].
  pose proof (swo_trans a b a H E). pose proof (swo_irrefl (lt := klt) a). congruence.
Qed.
Lemma klt_le_trans a b c : klt a b = true -> klt c b = false -> klt a c = true.
Proof. intros H Hc. destruct (swo_split a c b H) as [|E]; [done|]. congruence. Qed.
Lemma le_klt_trans a b c : klt b a = false -> klt b c = true -> klt a c = true.
Proof. intros Ha H. destruct (swo_split b a c H) as [E|]; [congruence|done]. Qed.

Lemma sorted_app a x b :
  StronglySorted vlt (a ++ x :: b) <->
  StronglySorted vlt a /\ StronglySorted vlt b /\ Forall (fun y => vlt y x) a /\ Forall (vlt x) b.
Proof.
  induction a as [|y a IH]; simpl.
  - split; [intros H; inversion_clear H; split_and!; [constructor|done..]|intros (? & ? & ? & ?); by constructor].
  - split.
    + intros H. inversion_clear H as [|? ? H1 H2]. apply IH in H1 as (? & ? & ? & ?).
      apply Forall_app in H2 as [? H2]. inversion_clear H2. split_and!; try done; by constructor.
    + intros (H1 & H2 & H3 & H4). inversion_clear H1. inversion_clear H3. constructor; [by apply IH|].
      apply Forall_app; split; [done|]. constructor; [done|].
      eapply Forall_impl; [exact H4|]. intros z Hz. by eapply swo_trans.
Qed.

(** *** Rotations keep the order of the elements *)
Lemma elements_new_Node l r v : elements (new_Node l r v) = elements l ++ v :: elements r.
Proof. done. Qed.

Lemma elements_balance l v r :
  avl l -> avl r -> low l -> low r -> elements (balance l v r) = elements l ++ v :: elements r.
Proof.
  intros Hl Hr Bl Br. unfold low in *. pose proof (height_nonneg l Hl). pose proof (height_nonneg r Hr).
  unfold balance. rewrite !u32_small by lia.
  destruct (Z.ltb_spec (height r + 2) (height l)) as [Hh|Hh].
  { destruct l as [|ll lr lv h]; simpl in Hh; [lia|]; cbn [nleft nright nvalue].
    destruct (Z.leb_spec (height lr) (height ll)) as [Hc|Hc].
    - rewrite !elements_new_Node. cbn [elements]. by repeat progress (simpl; rewrite <- ?app_assoc).
    - destruct lr as [|a b lrv h'].
      { simpl in Hc. destruct Hl as (Hll & _). pose proof (height_nonneg ll Hll). lia. }
      cbn [nleft nright nvalue]. rewrite !elements_new_Node. cbn [elements]. by repeat progress (simpl; rewrite <- ?app_assoc). }
  destruct (Z.ltb_spec (height l + 2) (height r)) as [Hh'|Hh']; [|done].
  destruct r as [|rl rr rv h]; simpl in Hh'; [lia|]; cbn [nleft nright nvalue].
  destruct (Z.leb_spec (height rl) (height rr)) as [Hc|Hc].
  - rewrite !elements_new_Node. cbn [elements]. by repeat progress (simpl; rewrite <- ?app_assoc).
  - destruct rl as [|a b rlv h'].
    { simpl in Hc. destruct Hr as (_ & Hrr & _). pose proof (height_nonneg rr Hrr). lia. }
    cbn [nleft nright nvalue]. rewrite !elements_new_Node. cbn [elements]. by repeat progress (simpl; rewrite <- ?app_assoc).
Qed.

(** *** The list operations at a node [a ++ x :: b] *)
Lemma below_lt a x k : Forall (fun y => vlt y x) a -> klt k (kov x) = false ->
  Forall (fun y => klt (kov y) k = true) a.
Proof. intros H Hk. eapply Forall_impl; [exact H|]. intros y Hy. exact (klt_le_trans _ _ _ Hy Hk). Qed.
Lemma above_gt b x k : Forall (vlt x) b -> klt (kov x) k = false ->
  Forall (fun y => klt k (kov y) = true) b.
Proof. intros H Hk. eapply Forall_impl; [exact H|]. intros y Hy. exact (le_klt_trans _ _ _ Hk Hy). Qed.

Section node_rules.
Context (a : list V) (x : V) (b : list V).
Context (Ha : Forall (fun y => vlt y x) a) (Hb : Forall (vlt x) b).

Lemma l_insert_node v :
  l_insert v (a ++ x :: b) =
  if klt (kov v) (kov x) then l_insert v a ++ x :: b
  else if klt (kov x) (kov v) then a ++ x :: l_insert v b else a ++ x :: b.
Proof.
  destruct (klt (kov v) (kov x)) eqn:Hv.
  { clear Ha. induction a as [|y a' IH]; simpl; [by rewrite Hv|]. rewrite IH. by repeat case_match. }
  pose proof (below_lt _ _ _ Ha Hv) as Hlt. clear Ha. induction Hlt as [|y a' Hy _ IH]; simpl.
  { rewrite Hv. by case_match. }
  rewrite (klt_asym _ _ Hy), Hy, IH. by case_match.
Qed.

Lemma l_replace_node v :
  l_replace v (a ++ x :: b) =
  if klt (kov v) (kov x) then l_replace v a ++ x :: b
  else if klt (kov x) (kov v) then a ++ x :: l_replace v b else a ++ v :: b.
Proof.
  destruct (klt (kov v) (kov x)) eqn:Hv.
  { clear Ha. induction a as [|y a' IH]; simpl; [by rewrite Hv|]. rewrite IH. by repeat case_match. }
  pose proof (below_lt _ _ _ Ha Hv) as Hlt. clear Ha. induction Hlt as [|y a' Hy _ IH]; simpl.
  { rewrite Hv. by case_match. }
  rewrite (klt_asym _ _ Hy), Hy, IH. by case_match.
Qed.

Lemma not_equiv_above k : klt (kov x) k = false -> Forall (fun y => equiv k y = false) b.
Proof.
  intros Hk. eapply Forall_impl; [by apply (above_gt b x)|]. intros y Hy. unfold equiv. by rewrite Hy.
Qed.
Lemma not_equiv_below k : klt k (kov x) = false -> Forall (fun y => equiv k y = false) a.
Proof.
  intros Hk. eapply Forall_impl; [by apply (below_lt a x)|]. intros y Hy. unfold equiv. by rewrite Hy, andb_false_r.
Qed.

Lemma l_remove_id k l : Forall (fun y => equiv k y = false) l -> l_remove k l = l.
Proof. induction 1 as [|y l Hy _ IH]; simpl; [done|]. rewrite Hy. simpl. f_equal. exact IH. Qed.

Lemma l_remove_node k :
  l_remove k (a ++ x :: b) =
  if klt k (kov x) then l_remove k a ++ x :: b
  else if klt (kov x) k then a ++ x :: l_remove k b else a ++ b.
Proof.
  unfold l_remove. rewrite List.filter_app. simpl. fold (l_remove k a) (l_remove k b). unfold equiv at 1.
  destruct (klt k (kov x)) eqn:Hk; simpl.
  { rewrite (l_remove_id k b); [done|]. apply not_equiv_above. by apply klt_asym. }
  rewrite (l_remove_id k a) by (by apply not_equiv_below).
  destruct (klt (kov x) k) eqn:Hk'; simpl; [done|]. by rewrite (l_remove_id k b) by (by apply not_equiv_above).
Qed.

Lemma l_lookup_none k l : Forall (fun y => equiv k y = false) l -> l_lookup k l = None.
Proof. induction 1 as [|y l Hy _ IH]; simpl; [done|]. by rewrite Hy. Qed.

Lemma l_lookup_app k l l' :
  l_lookup k (l ++ l') = match l_lookup k l with Some y => Some y | None => l_lookup k l' end.
Proof. induction l as [|y l IH]; simpl; [done|]. unfold l_lookup in *. simpl. by destruct (equiv k y). Qed.

Lemma l_lookup_node k :
  l_lookup k (a ++ x :: b) =
  if klt k (kov x) then l_lookup k a else if klt (kov x) k then l_lookup k b else Some x.
Proof.
  rewrite l_lookup_app. unfold l_lookup at 2. simpl. fold (l_lookup k b). unfold equiv at 1.
  destruct (klt k (kov x)) eqn:Hk; simpl.
  { rewrite (l_lookup_none k b); [by case_match|]. apply not_equiv_above. by apply klt_asym. }
  rewrite (l_lookup_none k a) by (by apply not_equiv_below). by destruct (klt (kov x) k).
Qed.
End node_rules.

(** *** The tree operations refine those of the list *)
Lemma elements_insert v t :
  avl t -> bst t -> height t < 2 ^ 31 - 1 -> elements (insert v t) = l_insert v (elements t).
Proof.
  induction t as [|l IHl r IHr x h]; [done|]. intros Ht Hs Hb. pose proof Ht as (Hl & Hr & Hh & Hd).
  apply sorted_app in Hs as (Sl & Sr & Fl & Fr). cbn [insert elements height] in *.
  pose proof (height_nonneg l Hl). pose proof (height_nonneg r Hr).
  rewrite l_insert_node by done. destruct (klt (kov v) (kov x)).
  { destruct (insert_avl v l) as [? ?]; [done|lia|]. rewrite elements_balance, IHl; done || unfold low; lia. }
  destruct (klt (kov x) (kov v)); [|done].
  destruct (insert_avl v r) as [? ?]; [done|lia|]. rewrite elements_balance, IHr; done || unfold low; lia.
Qed.

Lemma elements_replace v t :
  avl t -> bst t -> height t < 2 ^ 31 - 1 -> elements (replace v t) = l_replace v (elements t).
Proof.
  induction t as [|l IHl r IHr x h]; [done|]. intros Ht Hs Hb. pose proof Ht as (Hl & Hr & Hh & Hd).
  apply sorted_app in Hs as (Sl & Sr & Fl & Fr). cbn [replace elements height] in *.
  pose proof (height_nonneg l Hl). pose proof (height_nonneg r Hr).
  rewrite l_replace_node by done. destruct (klt (kov v) (kov x)).
  { destruct (replace_avl v l) as [? ?]; [done|lia|]. rewrite elements_balance, IHl; done || unfold low; lia. }
  destruct (klt (kov x) (kov v)); [|done].
  destruct (replace_avl v r) as [? ?]; [done|lia|]. rewrite elements_balance, IHr; done || unfold low; lia.
Qed.

Lemma elements_pop t :
  avl t -> low t -> t <> Terminator ->
  elements t = (popMin t).2 :: elements (popMin t).1 /\
  elements t = elements (popMax t).1 ++ [(popMax t).2].
Proof.
  unfold low. induction t as [|l IHl r IHr x h]; [done|]. intros Ht Hb _. pose proof Ht as (Hl & Hr & Hh & Hd).
  pose proof (height_nonneg l Hl). pose proof (height_nonneg r Hr). cbn [popMin popMax elements height] in *. split.
  - destruct (isTerminator l) eqn:El; [by apply isTerminator_true in El as ->|]. apply isTerminator_false in El.
    destruct IHl as [E _]; [done|lia|done|]. destruct (pop_avl l) as [[? ?] _]; [done|unfold low; lia|done|].
    destruct (popMin l) as [l' out]; cbn [fst snd] in *. rewrite elements_balance by (done || unfold low; lia).
    by rewrite E.
  - destruct (isTerminator r) eqn:Er; [by apply isTerminator_true in Er as ->|]. apply isTerminator_false in Er.
    destruct IHr as [_ E]; [done|lia|done|]. destruct (pop_avl r) as [_ [? ?]]; [done|unfold low; lia|done|].
    destruct (popMax r) as [r' out]; cbn [fst snd] in *. rewrite elements_balance by (done || unfold low; lia).
    by rewrite E, <- app_assoc.
Qed.

Lemma elements_remove k t :
  avl t -> bst t -> low t -> elements (remove k t) = l_remove k (elements t).
Proof.
  unfold low. induction t as [|l IHl r IHr x h]; [done|]. intros Ht Hs Hb. pose proof Ht as (Hl & Hr & Hh & Hd).
  apply sorted_app in Hs as (Sl & Sr & Fl & Fr). cbn [remove elements height] in *.
  pose proof (height_nonneg l Hl). pose proof (height_nonneg r Hr).
  rewrite l_remove_node by done. destruct (klt k (kov x)).
  { destruct (remove_avl k l) as [? ?]; [done|unfold low; lia|]. rewrite elements_balance, IHl; done || unfold low; lia. }
  destruct (klt (kov x) k).
  { destruct (remove_avl k r) as [? ?]; [done|unfold low; lia|]. rewrite elements_balance, IHr; done || unfold low; lia. }
  destruct (isTerminator l) eqn:El; [by apply isTerminator_true in El as ->|].
  destruct (isTerminator r) eqn:Er; [apply isTerminator_true in Er as ->; simpl; by rewrite app_nil_r|].
  apply isTerminator_false in Er. destruct (pop_avl r) as [[? ?] _]; [done|unfold low; lia|done|].
  destruct (elements_pop r) as [E _]; [done|unfold low; lia|done|].
  destruct (popMin r) as [nr m]; cbn [fst snd] in *. rewrite elements_balance by (done || unfold low; lia).
  by rewrite E.
Qed.

Lemma lookup_elements k t : bst t -> lookup t k = l_lookup k (elements t).
Proof.
  induction t as [|l IHl r IHr x h]; [done|]. intros (Sl & Sr & Fl & Fr)%sorted_app. cbn [lookup elements].
  rewrite l_lookup_node by done. repeat case_match; auto.
Qed.

Lemma count_lookup k t : count t k = match lookup t k with Some _ => 1 | None => 0 end.
Proof. induction t; simpl; [done|]. by repeat case_match. Qed.

(** [lookup_previous]: the last element that is not above the key. *)
Definition l_previous (k : K) (l : list V) : option V :=
  last (List.filter (fun y => negb (klt k (kov y))) l).

Lemma filter_none k l : Forall (fun y => klt k (kov y) = true) l ->
  List.filter (fun y => negb (klt k (kov y))) l = [].
Proof. induction 1 as [|y l Hy _ IH]; simpl; [done|]. by rewrite Hy. Qed.

Lemma lookup_previous_loop_ok k t res :
  bst t -> lookup_previous_loop t k res = match l_previous k (elements t) with Some x => Some x | None => res end.
Proof.
  revert res. induction t as [|l IHl r IHr x h]; intros res; [done|].
  intros (Sl & Sr & Fl & Fr)%sorted_app. cbn [lookup_previous_loop elements]. unfold l_previous.
  rewrite List.filter_app. simpl. destruct (klt k (kov x)) eqn:Hk; simpl.
  { rewrite (filter_none k (elements r)), app_nil_r by (eapply above_gt; [done|by apply klt_asym]). by apply IHl. }
  destruct (klt (kov x) k) eqn:Hk'.
  - rewrite IHr by done. unfold l_previous. rewrite last_app_cons, last_cons. by destruct (last _).
  - rewrite (filter_none k (elements r)) by (by eapply above_gt). by rewrite last_snoc.
Qed.
End refinement.

(** ** Positions of iterators *)
Section positions.
Context {K V : Type} {TO : TreeOrder K V} {SW : StrictWeakOrder (key_compare (V := V))} `{EqDecision V}.
Abbreviation klt := (key_compare (V := V)).
Abbreviation kov := (key_of_value (V := V)).

(** The stack is a path from a node up to the root. *)
Definition child_of (root n : node V) (up : list (node V)) : Prop :=
  match up with [] => n = root | m :: _ => n = nleft m \/ n = nright m end.
Fixpoint path (root : node V) (st : list (node V)) : Prop :=
  match st with
  | [] => True
  | n :: up => n <> Terminator /\ child_of root n up /\ path root up
  end.

(** The elements before and after the subtree [n] in the tree it is part of. *)
Fixpoint below (n : node V) (up : list (node V)) : list V :=
  match up with
  | [] => []
  | m :: up' => below m up' ++ (if decide (n = nleft m) then [] else elements (nleft m) ++ [nvalue m])
  end.
Fixpoint above (n : node V) (up : list (node V)) : list V :=
  match up with
  | [] => []
  | m :: up' => (if decide (n = nleft m) then nvalue m :: elements (nright m) else []) ++ above m up'
  end.

(** The elements before the position, and those from it on. *)
Definition before (root : node V) (st : list (node V)) : list V :=
  match st with [] => elements root | n :: up => below n up ++ elements (nleft n) end.
Definition rest (st : list (node V)) : list V :=
  match st with [] => [] | n :: up => nvalue n :: elements (nright n) ++ above n up end.

Lemma elements_node n : n <> Terminator -> elements n = elements (nleft n) ++ nvalue n :: elements (nright n).
Proof. by destruct n. Qed.

Lemma kids_differ n : bst n -> n <> Terminator -> nleft n = nright n -> nleft n = Terminator.
Proof.
  intros Hb Hn E. unfold bst in Hb. rewrite elements_node, <- E in Hb by done.
  apply sorted_app in Hb as (_ & _ & Fl & Fr). destruct (nleft n) as [|l r v h]; [done|]. exfalso.
  simpl in Fl, Fr. apply Forall_app in Fl as [_ Fl], Fr as [_ Fr].
  apply Forall_cons in Fl as [Fl _], Fr as [Fr _]. unfold vlt in *.
  rewrite (klt_asym _ _ Fl) in Fr. done.
Qed.

Section tree_of.
Context (root : node V) (Havl : avl root) (Hbst : bst root).

Lemma path_node n up : path root (n :: up) ->
  avl n /\ bst n /\ height n + Z.of_nat (length up) <= height root.
Proof.
  revert n. induction up as [|m up IH]; intros n (Hn & Hc & Hp); simpl in Hc.
  { subst. split_and!; [done|done|simpl; lia]. }
  destruct (IH m Hp) as (Am & Bm & Hm). destruct Hp as (Nm & _ & _).
  unfold bst in Bm. rewrite elements_node in Bm by done. apply sorted_app in Bm as (Bl & Br & _ & _).
  destruct m as [|l r v h]; [done|]. destruct Am as (Al & Ar & Eh & _). simpl in Hc, Bl, Br, Hm |- *.
  destruct Hc as [-> | ->]; split_and!; try done; lia.
Qed.

Lemma child_side n m up : path root (n :: m :: up) -> n = nright m -> n <> nleft m.
Proof.
  intros Hp E1 E2. pose proof Hp as (Hn & _ & Hp'). destruct (path_node m up Hp') as (_ & Bm & _).
  destruct Hp' as (Nm & _ & _). apply Hn. rewrite E2. apply (kids_differ m); congruence.
Qed.

Lemma path_total n up : path root (n :: up) -> below n up ++ elements n ++ above n up = elements root.
Proof.
  revert n. induction up as [|m up IH]; intros n Hp; pose proof Hp as (Hn & Hc & Hp').
  { simpl in *. subst. by rewrite app_nil_r. }
  rewrite <- (IH m Hp'). destruct Hp' as (Nm & _ & _). rewrite (elements_node m) by done. simpl.
  destruct (decide (n = nleft m)) as [-> |Hl].
  - by rewrite app_nil_r, <- !app_assoc.
  - destruct Hc as [|E]; [done|]. rewrite <- E. by rewrite <- !app_assoc; simpl; rewrite <- ?app_assoc.
Qed.

Lemma before_rest st : path root st -> before root st ++ rest st = elements root.
Proof.
  destruct st as [|n up]; [by rewrite app_nil_r|]. intros Hp. rewrite <- (path_total n up Hp).
  destruct Hp as (Hn & _ & _). rewrite (elements_node n) by done. simpl. by rewrite <- !app_assoc.
Qed.

(** Room for one more node. *)
Lemma push_back_ok n st :
  n <> Terminator -> child_of root n st -> path root st ->
  push_back {| fs_max := height root; elts := st |} n = Ok {| fs_max := height root; elts := n :: st |} /\
  path root (n :: st).
Proof.
  intros Hn Hc Hp. assert (Hp' : path root (n :: st)) by done.
  destruct (path_node n st Hp') as (An & _ & Hh). split; [|done]. unfold push_back. simpl.
  rewrite (proj2 (Z.ltb_lt _ _)); [done|]. pose proof (height_nonneg n An).
  destruct (Z.eq_dec (height n) 0) as [E|]; [by apply height_0 in E|lia].
Qed.

Lemma push_left_ok n st :
  n <> Terminator -> child_of root n st -> path root st ->
  exists st', push_left n {| fs_max := height root; elts := st |} = Ok {| fs_max := height root; elts := st' |} /\
    path root st' /\ rest st' = elements n ++ above n st.
Proof.
  revert st. induction n as [|l IHl r IHr v h]; intros st Hn Hc Hp; [done|].
  destruct (push_back_ok _ _ Hn Hc Hp) as [E Hp']. cbn [push_left]. rewrite E. cbn [mbind result_bind].
  destruct (decide (l = Terminator)) as [-> |Nl].
  { exists (TNode Terminator r v h :: st). split_and!; done. }
  destruct (IHl (TNode l r v h :: st)) as (st' & -> & Hst & Hr); [done|by left|done|].
  exists st'. split_and!; [done|done|]. rewrite Hr. simpl. by rewrite decide_True, <- app_assoc.
Qed.

Lemma push_right_ok n st :
  n <> Terminator -> child_of root n st -> path root st ->
  exists m up, push_right n {| fs_max := height root; elts := st |} = Ok {| fs_max := height root; elts := m :: up |} /\
    path root (m :: up) /\ before root (m :: up) ++ [nvalue m] = below n st ++ elements n.
Proof.
  revert st. induction n as [|l IHl r IHr v h]; intros st Hn Hc Hp; [done|].
  destruct (push_back_ok _ _ Hn Hc Hp) as [E Hp']. cbn [push_right]. rewrite E. cbn [mbind result_bind].
  destruct (decide (r = Terminator)) as [-> |Nr].
  { exists (TNode l Terminator v h), st. split_and!; [done|done|]. simpl. by rewrite <- app_assoc. }
  destruct (IHr (TNode l r v h :: st)) as (m & up & -> & Hst & Hr); [done|by right|done|].
  exists m, up. split_and!; [done|done|]. rewrite Hr. cbn [below elements nleft nvalue].
  rewrite decide_False by (apply (child_side r (TNode l r v h) st); [by split_and!; [|right|]|done]).
  by rewrite <- !app_assoc.
Qed.

Lemma climb_left_ok n up : path root (n :: up) ->
  path root (climb_left n up) /\ rest (climb_left n up) = above n up.
Proof.
  revert n. induction up as [|m up IH]; intros n Hp; [done|]. pose proof Hp as (_ & _ & Hp'). simpl.
  destruct (decide (n = nleft m)) as [-> |]; [done|]. by apply IH.
Qed.

Lemma climb_right_ok n up : path root (n :: up) ->
  path root (climb_right n up) /\
  match climb_right n up with
  | [] => below n up = []
  | m :: up' => before root (m :: up') ++ [nvalue m] = below n up
  end.
Proof.
  revert n. induction up as [|m up IH]; intros n Hp; [done|]. pose proof Hp as (_ & Hc & Hp').
  cbn [climb_right below]. destruct (decide (n = nright m)) as [E|E].
  - split; [done|]. rewrite decide_False by (by eapply child_side). simpl. by rewrite <- app_assoc.
  - destruct Hc as [E'|]; [|done]. rewrite (decide_True _ _ E'), app_nil_r. by apply IH.
Qed.
End tree_of.

(** *** A valid iterator, its moves *)
Definition it_ok (t : node V) (it : iterator V) : Prop :=
  it_root it = t /\ fs_max (it_stack it) = height t /\ path t (elts (it_stack it)).
Definition it_before (it : iterator V) : list V := before (it_root it) (elts (it_stack it)).
Definition it_rest (it : iterator V) : list V := rest (elts (it_stack it)).

Lemma it_total t it : avl t -> bst t -> it_ok t it -> it_before it ++ it_rest it = elements t.
Proof. intros Ha Hb (<- & _ & Hp). by apply before_rest. Qed.

Lemma new_iterator_ok t b : avl t -> bst t ->
  returns (new_iterator t b) (fun it => it_ok t it /\ it_rest it = if b then elements t else []).
Proof.
  intros Ha Hb. unfold new_iterator, FixedStack_new. destruct b; [|by apply returns_ok].
  destruct (decide (t = Terminator)) as [-> |Nt]; [by apply returns_ok|].
  destruct (push_left_ok t Ha Hb t [] Nt eq_refl I) as (st & E & Hp & Hr). rewrite E.
  apply returns_ok. split; [done|]. unfold it_rest. simpl. by rewrite Hr, app_nil_r.
Qed.

Lemma it_next_ok t it v l : avl t -> bst t -> it_ok t it -> it_rest it = v :: l ->
  returns (it_next it) (fun it' => it_ok t it' /\ it_rest it' = l).
Proof.
  destruct it as [root [mx st]]. intros Ha Hb (E1 & E2 & Hp) Hr. simpl in E1, E2, Hp. subst.
  unfold it_rest, it_next in *. simpl in *. destruct st as [|n up]; [done|]. simpl in Hr. injection Hr as _ <-.
  destruct (isTerminator (nright n)) eqn:Er.
  - apply isTerminator_true in Er as ->. destruct (climb_left_ok t n up Hp) as [? Hc].
    apply returns_ok. split; [done|]. simpl. by rewrite Hc.
  - apply isTerminator_false in Er.
    destruct (push_left_ok t Ha Hb (nright n) (n :: up)) as (st & E & Hp' & Hr); [done|by right|done|].
    destruct (nright n) as [|rl rr rv rh] eqn:Enr; [done|]. cbn [push_left] in E. cbn [nleft].
    destruct (push_back _ (TNode rl rr rv rh)) as [s'| |]; try discriminate. cbn [mbind result_bind] in E |- *.
    rewrite E. apply returns_ok. split; [done|]. simpl. rewrite Hr. simpl. rewrite decide_False; [done|].
    rewrite <- Enr. apply (child_side t Ha Hb _ _ up); [|done].
    split_and!; [by rewrite Enr|by right|done].
Qed.

Lemma it_prev_ok t it : avl t -> bst t -> it_ok t it ->
  returns (it_prev it) (fun it' => it_ok t it' /\
    match elts (it_stack it') with
    | [] => it_before it = []
    | n :: _ => it_before it = it_before it' ++ [nvalue n] /\ it_rest it' = nvalue n :: it_rest it
    end).
Proof.
  intros Ha Hb Hok. pose proof (it_total t it Ha Hb Hok) as Htot.
  assert (Hstep : forall m up, path t (m :: up) -> before t (m :: up) ++ [nvalue m] = it_before it ->
    it_before it = before t (m :: up) ++ [nvalue m] /\ rest (m :: up) = nvalue m :: it_rest it).
  { intros m up Hp E. split; [done|]. pose proof (before_rest t (m :: up) Hp) as Ht.
    rewrite <- Htot, <- E, <- app_assoc in Ht. by apply app_inv_head in Ht. }
  destruct it as [root [mx st]]. destruct Hok as (E1 & E2 & Hp). simpl in E1, E2, Hp. subst.
  unfold it_prev. unfold it_before in *. simpl in *. destruct st as [|n up].
  - destruct (decide (t = Terminator)) as [-> |Nt]; [by apply returns_ok|].
    destruct (push_right_ok t Ha Hb t [] Nt eq_refl I) as (m & up & E & Hp' & Hr). rewrite E.
    apply returns_ok. split; [done|]. by apply Hstep.
  - destruct (isTerminator (nleft n)) eqn:El.
    + apply isTerminator_true in El. destruct (climb_right_ok t Ha Hb n up Hp) as [Hc Hm].
      apply returns_ok. split; [done|]. unfold it_rest. simpl. destruct (climb_right n up) as [|m up'].
      { by rewrite El, Hm. }
      apply Hstep; [done|]. simpl in Hm |- *. by rewrite Hm, El, app_nil_r.
    + apply isTerminator_false in El.
      destruct (push_right_ok t Ha Hb (nleft n) (n :: up)) as (m & up' & E & Hp' & Hr); [done|by left|done|].
      destruct (nleft n) as [|ll lr lv lh] eqn:Enl; [done|]. cbn [push_right] in E. cbn [nright].
      destruct (push_back _ (TNode ll lr lv lh)) as [s'| |]; try discriminate. cbn [mbind result_bind] in E |- *.
      rewrite E. apply returns_ok. split; [done|]. apply Hstep; [done|]. etrans; [exact Hr|]. simpl.
      rewrite decide_True by done. by rewrite Enl, app_nil_r.
Qed.

(** *** Searches *)

(** The elements around the top of the stack. *)
Lemma around_top t n up : avl t -> bst t -> path t (n :: up) ->
  Forall (fun y => vlt y (nvalue n)) (before t (n :: up)) /\
  Forall (vlt (nvalue n)) (elements (nright n) ++ above n up).
Proof.
  intros Ha Hb Hp. unfold bst in Hb. rewrite <- (before_rest t (n :: up) Hp) in Hb. simpl in Hb.
  apply sorted_app in Hb as (_ & _ & ? & ?). done.
Qed.

Lemma descend_ok t k n st : avl t -> bst t -> n <> Terminator -> child_of t n st -> path t st ->
  Forall (fun y => klt (kov y) k = true) (below n st) ->
  Forall (fun y => klt k (kov y) = true) (above n st) ->
  exists m up found,
    descend n k {| fs_max := height t; elts := st |} = Ok ({| fs_max := height t; elts := m :: up |}, found) /\
    path t (m :: up) /\
    if found : bool then klt k (kov (nvalue m)) = false /\ klt (kov (nvalue m)) k = false
    else if klt (kov (nvalue m)) k then nright m = Terminator /\ Forall (fun y => klt k (kov y) = true) (above m up)
    else klt k (kov (nvalue m)) = true /\ nleft m = Terminator /\ Forall (fun y => klt (kov y) k = true) (below m up).
Proof.
  intros Ha Hb. revert st. induction n as [|l IHl r IHr v h]; intros st Hn Hc Hp Hlo Hhi; [done|].
  destruct (push_back_ok t Ha Hb _ _ Hn Hc Hp) as [E Hp']. cbn [descend]. rewrite E. cbn [mbind result_bind].
  pose proof (around_top t _ _ Ha Hb Hp') as [Fl Fr]. simpl in Fl, Fr.
  apply Forall_app in Fl as [_ Fl], Fr as [Fr _].
  destruct (klt k (kov v)) eqn:Hk.
  { destruct (decide (l = Terminator)) as [-> |Nl].
    { exists (TNode Terminator r v h), st, false. simpl. rewrite (klt_asym _ _ Hk). done. }
    apply IHl; [done|by left|done| |].
    - cbn [below nleft]. by rewrite decide_True, app_nil_r.
    - cbn [above nleft nvalue nright]. rewrite decide_True by done. simpl. constructor; [done|].
      apply Forall_app. split; [|done]. eapply above_gt; [done|]. by apply klt_asym. }
  destruct (klt (kov v) k) eqn:Hk'.
  { destruct (decide (r = Terminator)) as [-> |Nr].
    { exists (TNode l Terminator v h), st, false. simpl. by rewrite Hk'. }
    assert (Hside : r <> l) by (apply (child_side t Ha Hb r (TNode l r v h) st); [by split_and!; [|right|]|done]).
    apply IHr; [done|by right|done| |].
    - cbn [below nleft nvalue]. rewrite decide_False by done. rewrite !Forall_app, Forall_singleton.
      split_and!; [done| |done]. by eapply below_lt.
    - cbn [above nleft]. by rewrite decide_False. }
  exists (TNode l r v h), st, true. done.
Qed.

(** [it] stands between the elements that satisfy [p] and those that do not. *)
Definition splits (p : V -> bool) (it : iterator V) : Prop :=
  Forall (fun y => p y = true) (it_before it) /\ Forall (fun y => p y = false) (it_rest it).

Lemma lower_bound_ok t k : avl t -> bst t ->
  returns (lower_bound t k) (fun it => it_ok t it /\ splits (fun y => klt (kov y) k) it).
Proof.
  intros Ha Hb. unfold lower_bound, new_iterator, FixedStack_new. cbn [mbind result_bind it_stack].
  destruct (decide (t = Terminator)) as [-> |Nt]; [by apply returns_ok; split_and!|].
  destruct (descend_ok t k t []) as (m & up & found & -> & Hp & Hm); try done. cbn [mbind result_bind fst snd elts].
  set (it := {| it_root := t; it_stack := _ |}).
  assert (Hok : it_ok t it) by done. pose proof (around_top t m up Ha Hb Hp) as [Fb Fr].
  assert (Hstay : klt (kov (nvalue m)) k = false -> Forall (fun y => klt (kov y) k = true) (it_before it) ->
    returns (Ok it) (fun it => it_ok t it /\ splits (fun y => klt (kov y) k) it)).
  { intros Hk Hlt. apply returns_ok. split; [done|]. split; [done|]. constructor; [done|].
    eapply Forall_impl; [by eapply above_gt|]. intros y Hy. by apply klt_asym. }
  destruct found; [apply Hstay; [apply Hm|by eapply below_lt; [|apply Hm]]|].
  destruct (klt (kov (nvalue m)) k) eqn:Hk.
  - destruct Hm as [Er Hab].
    eapply returns_weaken; [by apply (it_next_ok t it (nvalue m) (elements (nright m) ++ above m up))|].
    intros it' (Hok' & Hr'). split; [done|]. rewrite Er in Hr'. simpl in Hr'.
    pose proof (it_total t it Ha Hb Hok) as T1. pose proof (it_total t it' Ha Hb Hok') as T2.
    assert (Hb' : it_before it' = it_before it ++ [nvalue m]).
    { rewrite <- T1, Hr' in T2. unfold it_rest in T2. simpl in T2. rewrite Er in T2. simpl in T2.
      rewrite (cons_middle (nvalue m)), app_assoc in T2. by apply app_inv_tail in T2. }
    split; rewrite ?Hb', ?Hr'.
    + rewrite Forall_app, Forall_singleton. split; [|done].
      eapply Forall_impl; [exact Fb|]. intros y Hy. exact (swo_trans _ _ _ Hy Hk).
    + eapply Forall_impl; [exact Hab|]. intros y Hy. by apply klt_asym.
  - destruct Hm as (Hk' & El & Hlt). apply Hstay; [done|]. unfold it_before. simpl. by rewrite El, app_nil_r.
Qed.

(** An iterator is at the end when no element follows. *)
Lemma it_eqb_end t it e : it_ok t it -> it_ok t e -> it_rest e = [] -> it_eqb it e = bool_decide (it_rest it = []).
Proof.
  intros _ _ He. unfold it_eqb, it_rest in *. destruct (elts (it_stack e)); [|done].
  destruct (elts (it_stack it)); [by rewrite !bool_decide_eq_true_2|by rewrite !bool_decide_eq_false_2].
Qed.

(** An iterator is at the beginning when no element precedes it. *)
Fixpoint left_spine (n : node V) (st : list (node V)) : list (node V) :=
  match n with Terminator => st | TNode l _ _ _ => left_spine l (n :: st) end.

Lemma left_spine_path t n up : path t (n :: up) -> below n up = [] -> left_spine t [] = left_spine (nleft n) (n :: up).
Proof.
  revert n. induction up as [|m up IH]; intros n (Hn & Hc & Hp) Hb.
  - simpl in Hc. subst. by destruct t.
  - simpl in Hc, Hb. case_decide as Hd; [|by destruct (below m up), (elements (nleft m))].
    rewrite app_nil_r in Hb. rewrite (IH m Hp Hb), <- Hd. by destruct n.
Qed.

Lemma before_nil t it : avl t -> bst t -> it_ok t it -> it_before it = [] -> elts (it_stack it) = left_spine t [].
Proof.
  intros Ha Hb Hok Hn. pose proof (it_total t it Ha Hb Hok) as Ht. rewrite Hn in Ht.
  destruct it as [root [mx st]]. destruct Hok as (E1 & E2 & Hp). simpl in E1, E2, Hp. subst.
  unfold it_before, it_rest in *. simpl in *. destruct st as [|n up].
  - simpl in Ht. destruct t as [|l r v h]; [done|]. simpl in Ht. by destruct (elements l).
  - simpl in Hn. apply app_eq_nil in Hn as [Hbel Hl]. rewrite (left_spine_path t n up Hp Hbel).
    destruct (nleft n) as [|a b x h]; [done|]. simpl in Hl. by destruct (elements a).
Qed.

Lemma it_eqb_begin t it b : avl t -> bst t -> it_ok t it -> it_ok t b -> it_rest b = elements t ->
  it_eqb it b = bool_decide (it_before it = []).
Proof.
  intros Ha Hb Hok Hob Hrb. unfold it_eqb.
  assert (Hbb : it_before b = []).
  { pose proof (it_total t b Ha Hb Hob) as Ht. rewrite Hrb in Ht. by apply (app_inv_tail (elements t) _ []) in Ht. }
  apply bool_decide_ext. split.
  - intros E. unfold it_before. destruct Hok as (-> & _). rewrite E. destruct Hob as (<- & _). exact Hbb.
  - intros E. by rewrite (before_nil t it), (before_nil t b).
Qed.

Lemma deref_ok it v l : it_rest it = v :: l -> deref it = Ok v.
Proof. unfold it_rest, deref, back. destruct (elts (it_stack it)); [done|]. simpl. by intros [= -> _]. Qed.

Lemma upper_bound_ok t k : avl t -> bst t ->
  returns (upper_bound t k) (fun it => it_ok t it /\ splits (fun y => negb (klt k (kov y))) it).
Proof.
  intros Ha Hb. unfold upper_bound, end_.
  eapply returns_bind; [by apply (new_iterator_ok t false)|]. intros e (He & Hre).
  eapply returns_bind; [by apply lower_bound_ok|]. intros it (Hok & Hlt & Hge).
  pose proof (it_total t it Ha Hb Hok) as Htot. unfold bst in Hb. rewrite (it_eqb_end t it e) by done.
  assert (Hlo : Forall (fun y => negb (klt k (kov y)) = true) (it_before it)).
  { eapply Forall_impl; [exact Hlt|]. intros y Hy. by rewrite klt_asym. }
  destruct (it_rest it) as [|v l] eqn:Er; cbn [bool_decide decide_rel decide].
  { rewrite bool_decide_eq_true_2 by done. apply returns_ok. split; [done|]. split; [done|by rewrite Er]. }
  rewrite bool_decide_eq_false_2 by done. rewrite (deref_ok it v l) by done. cbn [mbind result_bind].
  rewrite <- Htot in Hb. pose proof Hb as Hs. apply sorted_app in Hs as (_ & _ & Fb & Fr).
  destruct (klt k (kov v)) eqn:Hk.
  { apply returns_ok. split; [done|]. split; [done|]. rewrite Er. constructor; [by rewrite Hk|].
    eapply Forall_impl; [by eapply above_gt; [exact Fr|apply klt_asym]|]. intros y Hy. simpl in Hy. by rewrite Hy. }
  rewrite Htot in Hb. eapply returns_weaken; [by apply (it_next_ok t it v l)|]. intros it' (Hok' & Hr').
  split; [done|]. pose proof (it_total t it' Ha Hb Hok') as T2. rewrite <- Htot, Hr' in T2.
  rewrite (cons_middle v), app_assoc in T2. apply app_inv_tail in T2. split; rewrite ?T2, ?Hr'.
  - rewrite Forall_app, Forall_singleton. by rewrite Hk.
  - inversion_clear Hge as [|? ? Hv _]. eapply Forall_impl; [by eapply above_gt|]. intros y Hy. simpl in Hy. by rewrite Hy.
Qed.

Lemma find_iter_ok t k : avl t -> bst t ->
  returns (find t k) (fun it => it_ok t it /\ head (it_rest it) = lookup t k).
Proof.
  intros Ha Hb. unfold find, end_. rewrite lookup_elements by done.
  eapply returns_bind; [by apply (new_iterator_ok t false)|]. intros e (He & Hre).
  eapply returns_bind; [by apply lower_bound_ok|]. intros it (Hok & Hlt & Hge).
  pose proof (it_total t it Ha Hb Hok) as Htot. rewrite (it_eqb_end t it e) by done. rewrite <- Htot, l_lookup_app.
  rewrite (l_lookup_none k (it_before it)).
  2:{ eapply Forall_impl; [exact Hlt|]. intros y Hy. unfold equiv. by rewrite Hy, andb_false_r. }
  destruct (it_rest it) as [|v l] eqn:Er.
  { rewrite bool_decide_eq_true_2 by done. apply returns_ok. split; [done|]. by rewrite Hre. }
  rewrite bool_decide_eq_false_2 by done. rewrite (deref_ok it v l) by done. cbn [mbind result_bind].
  inversion_clear Hge as [|? ? Hv Hl]. unfold bst in Hb. rewrite <- Htot in Hb.
  apply sorted_app in Hb as (_ & _ & Fb & Fr). apply returns_ok.
  unfold l_lookup. simpl. unfold equiv at 1. rewrite Hv. destruct (klt k (kov v)) eqn:Hk; simpl; [|by rewrite Er].
  split; [done|]. rewrite Hre. symmetry. apply (l_lookup_none k l). eapply not_equiv_above; [exact Fr|]. done.
Qed.
End positions.

(** ** ImmutableMap and ImmutableSet: the key is the first component, or the value *)
Definition ImmutableMap_order {K D} (lt : K -> K -> bool) (k0 : K) (d0 : D) : TreeOrder K (K * D) :=
  {| key_of_value := fst; key_compare := lt; terminator_value := (k0, d0) |}.
Definition ImmutableSet_order {T} (lt : T -> T -> bool) (t0 : T) : TreeOrder T T :=
  {| key_of_value := fun x => x; key_compare := lt; terminator_value := t0 |}.

(** ** The invariant of the trees a program can build *)
Section invariant.
Context {K V : Type} {TO : TreeOrder K V} {SW : StrictWeakOrder (key_compare (V := V))}.
Abbreviation klt := (key_compare (V := V)).
Abbreviation kov := (key_of_value (V := V)).

(** Fewer nodes than a [size_t] counts. *)
Definition tree_ok (t : node V) : Prop := avl t /\ bst t /\ size t < 2 ^ 64.

Lemma tree_low t : tree_ok t -> height t <= 192.
Proof. intros (Ha & _ & Hs). by apply height_bound. Qed.

Lemma size_elements (t : node V) : size t = Z.of_nat (length (elements t)).
Proof. induction t; simpl; [done|]. rewrite length_app. simpl. lia. Qed.

Lemma l_insert_sorted v l : StronglySorted vlt l -> StronglySorted vlt (l_insert v l).
Proof.
  assert (Hin : forall x l, Forall (vlt x) l -> vlt x v -> Forall (vlt x) (l_insert v l)).
  { intros x l'. induction 1 as [|y l' Hy Hl IH]; simpl; intros Hv; [by constructor|]. repeat case_match; auto. }
  induction 1 as [|x l Hs IH Hx]; simpl; [by repeat constructor|].
  destruct (klt (kov v) (kov x)) eqn:E1.
  { constructor; [by constructor|]. constructor; [done|]. eapply above_gt; [exact Hx|]. by apply klt_asym. }
  destruct (klt (kov x) (kov v)) eqn:E2; [|by constructor]. constructor; [done|]. by apply Hin.
Qed.

Lemma l_replace_sorted v l : StronglySorted vlt l -> StronglySorted vlt (l_replace v l).
Proof.
  assert (Hin : forall x l, Forall (vlt x) l -> vlt x v -> Forall (vlt x) (l_replace v l)).
  { intros x l'. induction 1 as [|y l' Hy Hl IH]; simpl; intros Hv; [by constructor|]. repeat case_match; auto. }
  induction 1 as [|x l Hs IH Hx]; simpl; [by repeat constructor|].
  destruct (klt (kov v) (kov x)) eqn:E1.
  { constructor; [by constructor|]. constructor; [done|]. eapply above_gt; [exact Hx|]. by apply klt_asym. }
  destruct (klt (kov x) (kov v)) eqn:E2; (constructor; [done|]); [by apply Hin|]. by eapply above_gt.
Qed.

Lemma filter_sorted (f : V -> bool) l : StronglySorted vlt l -> StronglySorted vlt (List.filter f l).
Proof.
  induction 1 as [|x l Hs IH Hx]; simpl; [constructor|]. destruct (f x); [|done]. constructor; [done|].
  clear -Hx. induction Hx; simpl; [constructor|]. case_match; [by constructor|done].
Qed.

Lemma l_insert_length v l : (length (l_insert v l) <= S (length l))%nat.
Proof. induction l; simpl; repeat case_match; simpl; lia. Qed.
Lemma l_replace_length v l : (length (l_replace v l) <= S (length l))%nat.
Proof. induction l; simpl; repeat case_match; simpl; lia. Qed.

Lemma min_head (t : node V) : min t = match head (elements t) with Some v => Ok v | None => AssertFail end.
Proof.
  destruct (isTerminator t) eqn:Nt; [by apply isTerminator_true in Nt as ->|].
  apply isTerminator_false in Nt.
  assert (E : head (elements t) = Some (min_loop t)); [|rewrite E; by destruct t].
  induction t as [|l IHl r IHr v h]; [done|]. simpl. destruct (isTerminator l) eqn:El.
  - by apply isTerminator_true in El as ->.
  - specialize (IHl (isTerminator_false l El)). by destruct (elements l).
Qed.
Lemma max_last (t : node V) : max t = match last (elements t) with Some v => Ok v | None => AssertFail end.
Proof.
  destruct (isTerminator t) eqn:Nt; [by apply isTerminator_true in Nt as ->|].
  apply isTerminator_false in Nt.
  assert (E : last (elements t) = Some (max_loop t)); [|rewrite E; by destruct t].
  induction t as [|l IHl r IHr v h]; [done|]. simpl. rewrite last_app_cons. destruct (isTerminator r) eqn:Er.
  - by apply isTerminator_true in Er as ->.
  - specialize (IHr (isTerminator_false r Er)). by rewrite last_cons, IHr.
Qed.

(** Every update keeps the invariant and acts on the sorted elements. *)
Section updates.
Context (t : node V) (Hok : tree_ok t).

Lemma tree_is_low : low t.
Proof. pose proof (tree_low t Hok). unfold low. lia. Qed.

Lemma insert_ok v : size t + 1 < 2 ^ 64 ->
  tree_ok (insert v t) /\ elements (insert v t) = l_insert v (elements t).
Proof.
  intros Hsz. pose proof (tree_low t Hok). destruct Hok as (Ha & Hb & Hs).
  destruct (insert_avl v t) as [? _]; [done|lia|]. assert (E := elements_insert v t Ha Hb ltac:(lia)).
  split; [|done]. split_and!; [done|unfold bst; rewrite E; by apply l_insert_sorted|].
  rewrite size_elements, E. pose proof (l_insert_length v (elements t)). rewrite size_elements in Hsz. lia.
Qed.

Lemma replace_ok v : size t + 1 < 2 ^ 64 ->
  tree_ok (replace v t) /\ elements (replace v t) = l_replace v (elements t).
Proof.
  intros Hsz. pose proof (tree_low t Hok). destruct Hok as (Ha & Hb & Hs).
  destruct (replace_avl v t) as [? _]; [done|lia|]. assert (E := elements_replace v t Ha Hb ltac:(lia)).
  split; [|done]. split_and!; [done|unfold bst; rewrite E; by apply l_replace_sorted|].
  rewrite size_elements, E. pose proof (l_replace_length v (elements t)). rewrite size_elements in Hsz. lia.
Qed.

Lemma remove_ok k : tree_ok (remove k t) /\ elements (remove k t) = l_remove k (elements t).
Proof.
  pose proof tree_is_low as Hlow. destruct Hok as (Ha & Hb & Hs).
  destruct (remove_avl k t) as [? _]; [done|done|]. assert (E := elements_remove k t Ha Hb Hlow).
  split; [|done]. split_and!; [done|unfold bst; rewrite E; by apply filter_sorted|].
  rewrite size_elements, E. pose proof (List.filter_length_le (fun v => negb (equiv k v)) (elements t)).
  rewrite size_elements in Hs. unfold l_remove. lia.
Qed.

Lemma pop_ok : elements t <> [] ->
  (tree_ok (popMin t).1 /\ elements t = (popMin t).2 :: elements (popMin t).1) /\
  (tree_ok (popMax t).1 /\ elements t = elements (popMax t).1 ++ [(popMax t).2]).
Proof.
  pose proof tree_is_low as Hlow. destruct Hok as (Ha & Hb & Hs).
  intros Hne. assert (Nt : t <> Terminator) by (by intros ->).
    destruct (pop_avl t Ha Hlow Nt) as [[A1 _] [A2 _]]. destruct (elements_pop t Ha Hlow Nt) as [E1 E2].
    unfold bst in Hb. rewrite size_elements in Hs. split.
    + split; [|done]. rewrite E1 in Hb, Hs. inversion_clear Hb. split_and!; [done|done|]. rewrite size_elements. simpl in Hs. lia.
    + split; [|done]. rewrite E2 in Hb, Hs. apply sorted_app in Hb as (? & _). split_and!; [done|done|].
      rewrite size_elements. rewrite length_app in Hs. lia.
Qed.
End updates.
End invariant.

(** ** Theorems *)

(** A map from addresses to sizes. *)
Definition sample_order : TreeOrder Z (Z * Z) := ImmutableMap_order Z.ltb 0 0.
#[export] Instance Zltb_order : StrictWeakOrder Z.ltb.
Proof. split; intros; rewrite ?Z.ltb_lt, ?Z.ltb_ge in *; lia. Qed.
Definition sample : node (Z * Z) :=
  foldl (fun t v => insert (TO := sample_order) v t) Terminator
    [(10, 1); (20, 2); (30, 3); (40, 4); (50, 5); (60, 6); (70, 7)].

Lemma sample_ok : tree_ok (TO := sample_order) sample.
Proof.
  split; [|split].
  - vm_compute. repeat split; discriminate.
  - unfold bst. replace (elements sample) with
      [(10, 1); (20, 2); (30, 3); (40, 4); (50, 5); (60, 6); (70, 7)] by (vm_compute; reflexivity).
    repeat constructor.
  - vm_compute. reflexivity.
Qed.

(** C40. Every update of an [ImmutableTree] keeps its invariant (truthful heights, a
    balance of at most two, strictly increasing keys) and is the update of the
    sorted list of its elements: [insert] keeps an equivalent element, [replace]
    exchanges it, [remove] deletes it and nothing else, [popMin] and [popMax] take
    the first and the last. *)
Theorem update_refines {K V : Type} {TO : TreeOrder K V} {SW : StrictWeakOrder (key_compare (V := V))}
    (t : node V) (v : V) (k : K) :
  tree_ok t -> size t + 1 < 2 ^ 64 ->
  (tree_ok (insert v t) /\ elements (insert v t) = l_insert v (elements t)) /\
  (tree_ok (replace v t) /\ elements (replace v t) = l_replace v (elements t)) /\
  (tree_ok (remove k t) /\ elements (remove k t) = l_remove k (elements t)) /\
  (elements t <> [] ->
   (tree_ok (popMin t).1 /\ elements t = (popMin t).2 :: elements (popMin t).1) /\
   (tree_ok (popMax t).1 /\ elements t = elements (popMax t).1 ++ [(popMax t).2])).
Proof.
  intros Hok Hsz. split; [by apply insert_ok|]. split; [by apply replace_ok|]. split; [by apply remove_ok|].
  intros Hne. by apply pop_ok.
Qed.

Lemma update_refines_witness :
  elements (remove (TO := sample_order) 40 (replace (TO := sample_order) (20, 9) sample)) =
    [(10, 1); (20, 9); (30, 3); (50, 5); (60, 6); (70, 7)] /\
  elements (remove (TO := sample_order) 40 sample) =
    l_remove (TO := sample_order) 40 (elements sample).
Proof.
  split; [vm_compute; reflexivity|].
  destruct (update_refines (TO := sample_order) (SW := Zltb_order) sample (20, 9) 40 sample_ok) as (_ & _ & [_ E] & _).
  { vm_compute. reflexivity. }
  exact E.
Defined.

(** The queries of an [ImmutableTree] answer as those of the sorted list of its
    elements: [lookup] finds the element with an equivalent key if there is one,
    [count] is 1 exactly then, [lookup_previous] is the last element whose key is
    not above the given one, [min] and [max] are the ends (and assert that there
    are any), [size] is the number of elements. *)
Theorem query_refines {K V : Type} {TO : TreeOrder K V} {SW : StrictWeakOrder (key_compare (V := V))}
    (t : node V) (k : K) :
  bst t ->
  lookup t k = l_lookup k (elements t) /\
  count t k = match l_lookup k (elements t) with Some _ => 1 | None => 0 end /\
  lookup_previous t k = l_previous k (elements t) /\
  min t = match head (elements t) with Some v => Ok v | None => AssertFail end /\
  max t = match last (elements t) with Some v => Ok v | None => AssertFail end /\
  size t = Z.of_nat (length (elements t)) /\
  empty t = match elements t with [] => true | _ => false end.
Proof.
  intros Hb. rewrite count_lookup, lookup_elements by done. unfold lookup_previous.
  rewrite lookup_previous_loop_ok by done. split_and!; auto using min_head, max_last, size_elements.
  - by case_match.
  - destruct t as [|l r v h]; [done|]. simpl. by destruct (elements l).
Qed.

Lemma query_refines_witness :
  lookup_previous (TO := sample_order) sample 45 = Some (40, 4) /\
  lookup_previous (TO := sample_order) sample 45 = l_previous (TO := sample_order) 45 (elements sample).
Proof.
  split; [vm_compute; reflexivity|].
  destruct (query_refines (TO := sample_order) (SW := Zltb_order) sample 45) as (_ & _ & E & _); [apply sample_ok|].
  exact E.
Defined.

(** A tree that keeps its invariant is logarithmic in its size, so with fewer
    than 2^64 nodes it is at most 192 high: the [unsigned] heights, and the sums
    [height + 2] of [balance], never wrap around. *)
Theorem height_logarithmic {K V : Type} {TO : TreeOrder K V} (t : node V) :
  avl t -> 2 ^ height t <= (size t + 1) ^ 3 /\ (size t < 2 ^ 64 -> u32 (height t + 2) = height t + 2).
Proof.
  intros Ha. split; [by apply height_size|]. intros Hs. pose proof (height_bound t Ha Hs).
  pose proof (height_nonneg t Ha). apply u32_small. lia.
Qed.

Lemma height_logarithmic_witness : 2 ^ height sample <= (size sample + 1) ^ 3.
Proof.
  destruct (height_logarithmic (TO := sample_order) sample) as [E _]; [apply sample_ok|]. exact E.
Defined.

(** Iteration visits the elements in order and never overflows its stack, whose
    capacity is the height of the tree: [begin] stands before all elements, [end]
    behind them, [++] steps over one element and fails its assertion only at the
    end, [--] steps back over one, from the end to the last element; at the
    beginning [--] goes to the end. *)
Theorem iteration {K V : Type} {TO : TreeOrder K V} {SW : StrictWeakOrder (key_compare (V := V))}
    `{EqDecision V} (t : node V) (it : iterator V) :
  avl t -> bst t -> it_ok t it ->
  it_before it ++ it_rest it = elements t /\
  returns (begin t) (fun b => it_ok t b /\ it_rest b = elements t) /\
  returns (end_ t) (fun e => it_ok t e /\ it_rest e = []) /\
  match it_rest it with
  | [] => it_next it = AssertFail
  | v :: l => deref it = Ok v /\ returns (it_next it) (fun it' => it_ok t it' /\ it_rest it' = l)
  end /\
  returns (it_prev it) (fun it' => it_ok t it' /\
    match last (it_before it) with
    | None => it_rest it' = []
    | Some v => it_rest it' = v :: it_rest it
    end).
Proof.
  intros Ha Hb Hok. split_and!; [by apply it_total|by apply (new_iterator_ok t true)|by apply (new_iterator_ok t false)| |].
  - destruct (it_rest it) as [|v l] eqn:Er.
    + unfold it_rest, it_next in *. by destruct (elts (it_stack it)).
    + split; [by eapply deref_ok|by eapply it_next_ok].
  - eapply returns_weaken; [by apply (it_prev_ok t it)|]. intros it' (Hok' & Hm). split; [done|].
    unfold it_rest in *. destruct (elts (it_stack it')) as [|n up]; [by rewrite Hm|].
    destruct Hm as [-> Hr]. by rewrite last_snoc.
Qed.

Lemma iteration_witness :
  let e := {| it_root := sample; it_stack := FixedStack_new (height sample) |} in
  it_prev e ≫= deref (TO := sample_order) = Ok (70, 7) /\
  returns (begin sample) (fun b => it_ok sample b /\ it_rest (TO := sample_order) b = elements sample).
Proof.
  intros e. split; [vm_compute; reflexivity|].
  destruct (iteration (TO := sample_order) (SW := Zltb_order) sample e) as (_ & E & _); [apply sample_ok..| |].
  { by split_and!. }
  exact E.
Defined.

(** [lower_bound] stands before the first element not below the key,
    [upper_bound] before the first element above it, [find] at the element with an
    equivalent key, or at the end if there is none. *)
Theorem searches {K V : Type} {TO : TreeOrder K V} {SW : StrictWeakOrder (key_compare (V := V))}
    `{EqDecision V} (t : node V) (k : K) :
  avl t -> bst t ->
  returns (lower_bound t k) (fun it => it_ok t it /\ splits (fun y => key_compare (key_of_value y) k) it) /\
  returns (upper_bound t k) (fun it => it_ok t it /\ splits (fun y => negb (key_compare k (key_of_value y))) it) /\
  returns (find t k) (fun it => it_ok t it /\ head (it_rest it) = lookup t k).
Proof.
  intros Ha Hb. split_and!; [by apply lower_bound_ok|by apply upper_bound_ok|by apply find_iter_ok].
Qed.

Lemma searches_witness :
  lower_bound (TO := sample_order) sample 40 ≫= deref (TO := sample_order) = Ok (40, 4) /\
  upper_bound (TO := sample_order) sample 40 ≫= deref (TO := sample_order) = Ok (50, 5) /\
  returns (find (TO := sample_order) sample 40) (fun it =>
    it_ok sample it /\ head (it_rest (TO := sample_order) it) = lookup (TO := sample_order) sample 40).
Proof.
  split_and!; [vm_compute; reflexivity..|].
  destruct (searches (TO := sample_order) (SW := Zltb_order) sample 40) as (_ & _ & E); [apply sample_ok..|].
  exact E.
Defined.
End Tree.
