(* ===== verification/Memory.v ===== *)
(** * Memory: memory objects and their symbolic contents

    Models [klee/lib/Core/Memory.cpp] and [Memory.h].  An [ObjectState] keeps the
    bytes of one memory object in three layers: the concrete store (for objects
    TASE maps, the memory of the running program itself), the cache of known
    symbolic bytes, and the list of updates over an array; two bit masks say which
    layer holds a byte and whether it has been written through to the updates.

    The store is an address in the memory of the machine, so that the poison
    values TASE writes there alias it.  The array cache and the counter of the
    names of constant arrays are part of the state; the addresses of new objects
    are chosen by the allocator, a parameter.  Accesses outside a mask, a table or
    a vector are undefined in C++ and fail.  Reference counts, printing and
    warnings are left out. *)

From stdpp Require Import pretty.
From S2P Require Import Prelude APInt ExprData Samples Bits ExprCompare ExprCreate ExprCreateSound ExprStructSound UnionFind ArrayCache.
Local Open Scope Z_scope.

(** ** MemoryObject *)
Record MemoryObject := {
  mo_address : Z;
  mo_size : Z;
  isUserSpecified : bool;
}.

Section memory_object.
Context {AP : APIntOps} {CFG : Config}.
Variable pw : Z.   (* Context::get().getPointerWidth() *)

Definition getBaseExpr (mo : MemoryObject) : result expr :=
  c ← ConstantExpr_create (mo_address mo) pw; Ok (ConstantExpr c).
Definition getSizeExpr (mo : MemoryObject) : result expr :=
  c ← ConstantExpr_create (mo_size mo) pw; Ok (ConstantExpr c).
Definition getOffsetExpr (mo : MemoryObject) (pointer : expr) : result expr :=
  b ← getBaseExpr mo; bin_create Kind.Sub pointer b.
Definition getBoundsCheckOffset (mo : MemoryObject) (offset : expr) : result expr :=
  if mo_size mo =? 0 then bin_create Kind.Eq offset (ConstantExpr (ConstantExpr_alloc 0 pw))
  else s ← getSizeExpr mo; bin_create Kind.Ult offset s.
Definition getBoundsCheckPointer (mo : MemoryObject) (pointer : expr) : result expr :=
  o ← getOffsetExpr mo pointer; getBoundsCheckOffset mo o.
(** The overloads for an access of [bytes] bytes. *)
Definition getBoundsCheckOffset_n (mo : MemoryObject) (offset : expr) (bytes : Z) : result expr :=
  if bytes <=? mo_size mo then
    bin_create Kind.Ult offset (ConstantExpr (ConstantExpr_alloc (u32 (mo_size mo - bytes + 1)) pw))
  else Ok (ConstantExpr (ConstantExpr_alloc 0 Bool)).
Definition getBoundsCheckPointer_n (mo : MemoryObject) (pointer : expr) (bytes : Z) : result expr :=
  o ← getOffsetExpr mo pointer; getBoundsCheckOffset_n mo o bytes.
End memory_object.

(** ** The machine *)
Definition memory := Z -> Z.
Definition store8 (m : memory) (a v : Z) : memory := fun b => if b =? a then v else m b.
Definition store16 (m : memory) (a v : Z) : memory :=
  store8 (store8 m a (v mod 256)) (a + 1) (v / 256).
Fixpoint memset (m : memory) (a v : Z) (n : nat) : memory :=
  match n with O => m | S k => memset (store8 m a v) (a + 1) v k end.
Fixpoint memcpy (m : memory) (dst src : Z) (n : nat) : memory :=
  match n with O => m | S k => memcpy (store8 m dst (m src)) (dst + 1) (src + 1) k end.
(** A little-endian load of [n] bytes. *)
Fixpoint load (m : memory) (a : Z) (n : nat) : Z :=
  match n with O => 0 | S k => m a + 256 * load m (a + 1) k end.

Definition poison_val : Z := 0xDEAD.

(** The globals the operations touch. *)
Record World := {
  mem : memory;
  arrays : ACState;
  const_id : Z;    (* the static [id] of getUpdates *)
  tmp_id : Z;      (* the static [id] of the constructor *)
}.
Definition with_mem (m : memory) (w : World) : World :=
  {| mem := m; arrays := arrays w; const_id := const_id w; tmp_id := tmp_id w |}.

(** ** ObjectState *)
Record ObjectState := {
  object : MemoryObject;
  concreteStore : Z;
  concreteMask : option (list Z);
  flushMask : option (list Z);
  knownSymbolics : option (list (option expr));
  upd_root : option Array;
  upd_head : UpdateNode;
  os_size : Z;
  readOnly : bool;
}.

Definition with_concreteMask (m : option (list Z)) (os : ObjectState) : ObjectState :=
  {| object := object os; concreteStore := concreteStore os; concreteMask := m; flushMask := flushMask os;
     knownSymbolics := knownSymbolics os; upd_root := upd_root os; upd_head := upd_head os;
     os_size := os_size os; readOnly := readOnly os |}.
Definition with_flushMask (m : option (list Z)) (os : ObjectState) : ObjectState :=
  {| object := object os; concreteStore := concreteStore os; concreteMask := concreteMask os; flushMask := m;
     knownSymbolics := knownSymbolics os; upd_root := upd_root os; upd_head := upd_head os;
     os_size := os_size os; readOnly := readOnly os |}.
Definition with_knownSymbolics (k : option (list (option expr))) (os : ObjectState) : ObjectState :=
  {| object := object os; concreteStore := concreteStore os; concreteMask := concreteMask os;
     flushMask := flushMask os; knownSymbolics := k; upd_root := upd_root os; upd_head := upd_head os;
     os_size := os_size os; readOnly := readOnly os |}.
Definition with_updates (r : option Array) (h : UpdateNode) (os : ObjectState) : ObjectState :=
  {| object := object os; concreteStore := concreteStore os; concreteMask := concreteMask os;
     flushMask := flushMask os; knownSymbolics := knownSymbolics os; upd_root := r; upd_head := h;
     os_size := os_size os; readOnly := readOnly os |}.

Definition or_fail {A} (o : option A) : result A := match o with Some a => Ok a | None => AssertFail end.

(** *** The masks *)
Definition isByteConcrete (os : ObjectState) (offset : Z) : result bool :=
  match concreteMask os with None => Ok true | Some m => or_fail (BitArray.get m offset) end.
Definition isByteFlushed (os : ObjectState) (offset : Z) : result bool :=
  match flushMask os with None => Ok false | Some m => b ← or_fail (BitArray.get m offset); Ok (negb b) end.
(** [knownSymbolics[offset]], a possibly null pointer. *)
Definition knownSymbolic (os : ObjectState) (offset : Z) : result (option expr) :=
  match knownSymbolics os with None => Ok None | Some l => or_fail (l !! Z.to_nat offset) end.
Definition isByteKnownSymbolic (os : ObjectState) (offset : Z) : result bool :=
  k ← knownSymbolic os offset; Ok (match k with Some _ => true | None => false end).

Definition markByteConcrete (offset : Z) (os : ObjectState) : result ObjectState :=
  match concreteMask os with
  | None => Ok os
  | Some m => m ← or_fail (BitArray.set m offset); Ok (with_concreteMask (Some m) os)
  end.
Definition markByteSymbolic (offset : Z) (os : ObjectState) : result ObjectState :=
  let m := match concreteMask os with Some m => m | None => BitArray.create (os_size os) true end in
  m ← or_fail (BitArray.unset m offset); Ok (with_concreteMask (Some m) os).
Definition markByteUnflushed (offset : Z) (os : ObjectState) : result ObjectState :=
  match flushMask os with
  | None => Ok os
  | Some m => m ← or_fail (BitArray.set m offset); Ok (with_flushMask (Some m) os)
  end.
Definition markByteFlushed (offset : Z) (os : ObjectState) : result ObjectState :=
  match flushMask os with
  | None => Ok (with_flushMask (Some (BitArray.create (os_size os) false)) os)
  | Some m => m ← or_fail (BitArray.unset m offset); Ok (with_flushMask (Some m) os)
  end.
Definition setKnownSymbolic (offset : Z) (value : option expr) (os : ObjectState) : result ObjectState :=
  match knownSymbolics os, value with
  | None, None => Ok os
  | k, _ =>
      let l := match k with Some l => l | None => replicate (Z.to_nat (os_size os)) None end in
      _ ← or_fail (l !! Z.to_nat offset);
      Ok (with_knownSymbolics (Some (<[Z.to_nat offset := value]> l)) os)
  end.

Definition makeConcrete (os : ObjectState) : ObjectState :=
  with_knownSymbolics None (with_flushMask None (with_concreteMask None os)).

(** The [n] offsets from [i] on, in turn. *)
Fixpoint for_range {A} (body : Z -> A -> result A) (n : nat) (i : Z) (a : A) : result A :=
  match n with O => Ok a | S k => a ← body i a; for_range body k (i + 1) a end.

Definition makeSymbolic_byte (i : Z) (os : ObjectState) : result ObjectState :=
  os ← markByteSymbolic i os;
  os ← setKnownSymbolic i None os;
  markByteFlushed i os.
Definition makeSymbolic (os : ObjectState) : result ObjectState :=
  _ ← massert (match upd_head os with NullNode => true | _ => false end);
  for_range makeSymbolic_byte (Z.to_nat (os_size os)) 0 os.

(** [UpdateList::extend]: without a root nothing is asserted. *)
Definition os_extend (index value : expr) (os : ObjectState) : result ObjectState :=
  _ ← match upd_root os with
      | Some root => _ ← massert (domain root =? getWidth index); massert (range root =? getWidth value)
      | None => Ok tt
      end;
  Ok (with_updates (upd_root os) (Node (upd_head os) index value) os).

(** What the process supplies: the options and globals the operations read, the
    allocator, and the meaning of the difference of misaligned pointers. *)
Class Process := {
  useCheatCons : bool;
  uninitialised : nat;            (* [UFE_Cheat] of an array when it is not set *)
  new_address : World -> Z;       (* where the allocator puts a new [Array] *)
  UseConstantArrays : bool;
  poisonSize : Z;                 (* target_ctx.poisonSize *)
  IsLittleEndian : bool;          (* Context::get().isLittleEndian() *)
  ptrdiff16 : Z -> Z;             (* [p - q] of two [uint16_t *] that many bytes apart: *)
                                  (* C++ defines it for even differences only *)
}.

Section object_state.
Context {AP : APIntOps} {CFG : Config} {PR : Process}.

Definition World_CreateArray (name : string) (size : Z) (values : list apint) (w : World)
    : result (Array * World) :=
  p ← CreateArray useCheatCons uninitialised (new_address w) name size values Int32 Int8 (arrays w);
  Ok (fst p, {| mem := mem w; arrays := snd p; const_id := const_id w; tmp_id := tmp_id w |}).

(** *** Constructors; [heap] is the address [new uint8_t[mo->size]] returned. *)
Definition blank (mo : MemoryObject) (store : Z) (root : option Array) : ObjectState :=
  {| object := mo; concreteStore := store; concreteMask := None; flushMask := None; knownSymbolics := None;
     upd_root := root; upd_head := NullNode; os_size := mo_size mo; readOnly := false |}.

Definition ObjectState_new (mo : MemoryObject) (forTASE : bool) (heap : Z) (w : World)
    : result (ObjectState * World) :=
  let os := blank mo (if forTASE then 0 else heap) None in
  p ← (if UseConstantArrays then Ok (os, w)
       else
         let id := u32 (tmp_id w + 1) in
         let w := {| mem := mem w; arrays := arrays w; const_id := const_id w; tmp_id := id |} in
         p ← World_CreateArray ("tmp_arr" +:+ pretty (Z.to_N id)) (os_size os) [] w;
         Ok (with_updates (Some (fst p)) NullNode os, snd p));
  let '(os, w) := p in
  Ok (os, if forTASE then w else with_mem (memset (mem w) (concreteStore os) 0 (Z.to_nat (os_size os))) w).

Definition ObjectState_symbolic (mo : MemoryObject) (array : Array) (forTASE : bool) (heap : Z) (w : World)
    : result (ObjectState * World) :=
  let os := blank mo (if forTASE then mo_address mo else heap) (Some array) in
  let w := with_mem (memset (mem w) (concreteStore os) 0 (Z.to_nat (os_size os))) w in
  os ← makeSymbolic os; Ok (os, w).

Definition copy_mask (m : option (list Z)) (size : Z) : result (option (list Z)) :=
  match m with None => Ok None | Some b => b ← or_fail (BitArray.copy b size); Ok (Some b) end.
Definition copy_known (k : option (list (option expr))) (size : Z) : result (option (list (option expr))) :=
  match k with
  | None => Ok None
  | Some l => _ ← massert (size <=? Z.of_nat (length l)); Ok (Some (take (Z.to_nat size) l))
  end.
Definition ObjectState_copy (os : ObjectState) (heap : Z) (w : World) : result (ObjectState * World) :=
  cm ← copy_mask (concreteMask os) (os_size os);
  fm ← copy_mask (flushMask os) (os_size os);
  _ ← massert (negb (readOnly os));
  ks ← copy_known (knownSymbolics os) (os_size os);
  Ok ({| object := object os; concreteStore := heap; concreteMask := cm; flushMask := fm;
         knownSymbolics := ks; upd_root := upd_root os; upd_head := upd_head os;
         os_size := os_size os; readOnly := false |},
      with_mem (memcpy (mem w) heap (concreteStore os) (Z.to_nat (os_size os))) w).

Definition initializeToZero (os : ObjectState) (w : World) : ObjectState * World :=
  (makeConcrete os, with_mem (memset (mem w) (concreteStore os) 0 (Z.to_nat (os_size os))) w).
Definition initializeToRandom (os : ObjectState) (w : World) : ObjectState * World :=
  (makeConcrete os, with_mem (memset (mem w) (concreteStore os) 0xAB (Z.to_nat (os_size os))) w).

(** *** getUpdates *)

(** The writes, the oldest first. *)
Fixpoint writes_of (un : UpdateNode) : list (expr * expr) :=
  match un with NullNode => [] | Node next i v => writes_of next ++ [(i, v)] end.

(** Concrete writes are pulled into the contents until the first other one. *)
Fixpoint pull_writes (writes : list (expr * expr)) (contents : list apint)
    : result (list apint * list (expr * expr)) :=
  match writes with
  | (ConstantExpr i, ConstantExpr v) :: rest =>
      z ← CE_getZExtValue i 64;
      _ ← or_fail (contents !! Z.to_nat z);
      pull_writes rest (<[Z.to_nat z := v]> contents)
  | _ => Ok (contents, writes)
  end.

Fixpoint extend_all (writes : list (expr * expr)) (os : ObjectState) : result ObjectState :=
  match writes with [] => Ok os | (i, v) :: rest => os ← os_extend i v os; extend_all rest os end.

Definition getUpdates (os : ObjectState) (w : World) : result (UpdateList * ObjectState * World) :=
  match upd_root os with
  | Some root => Ok ({| ul_root := root; ul_head := upd_head os |}, os, w)
  | None =>
      zero ← ConstantExpr_create 0 Int8;
      p ← pull_writes (writes_of (upd_head os)) (replicate (Z.to_nat (os_size os)) zero);
      let '(contents, rest) := p in
      let id := u32 (const_id w + 1) in
      let w := {| mem := mem w; arrays := arrays w; const_id := id; tmp_id := tmp_id w |} in
      q ← World_CreateArray ("const_arr" +:+ pretty (Z.to_N id)) (os_size os) contents w;
      let '(array, w) := q in
      os ← extend_all rest (with_updates (Some array) NullNode os);
      Ok ({| ul_root := array; ul_head := upd_head os |}, os, w)
  end.

(** *** Flushing *)
Definition concreteByte (os : ObjectState) (w : World) (offset : Z) : Z := mem w (concreteStore os + offset).

Definition extend_byte (offset : Z) (value : expr) (os : ObjectState) : result ObjectState :=
  i ← ConstantExpr_create offset Int32; os_extend (ConstantExpr i) value os.

(** [flushMask->unset(offset)] *)
Definition flush_unset (offset : Z) (os : ObjectState) : result ObjectState :=
  match flushMask os with
  | None => AssertFail
  | Some m => m ← or_fail (BitArray.unset m offset); Ok (with_flushMask (Some m) os)
  end.

Definition new_flushMask (os : ObjectState) : ObjectState :=
  match flushMask os with
  | None => with_flushMask (Some (BitArray.create (os_size os) true)) os
  | Some _ => os
  end.

Definition flush_read_byte (w : World) (offset : Z) (os : ObjectState) : result ObjectState :=
  f ← isByteFlushed os offset;
  if f : bool then Ok os
  else
    c ← isByteConcrete os offset;
    os ← (if c : bool then
            v ← ConstantExpr_create (concreteByte os w offset) Int8; extend_byte offset (ConstantExpr v) os
          else
            k ← knownSymbolic os offset;
            match k with Some e => extend_byte offset e os | None => AssertFail end);
    flush_unset offset os.

Definition flushRangeForRead (base size : Z) (w : World) (os : ObjectState) : result ObjectState :=
  for_range (flush_read_byte w) (Z.to_nat size) base (new_flushMask os).

Definition flush_write_byte (w : World) (offset : Z) (os : ObjectState) : result ObjectState :=
  f ← isByteFlushed os offset;
  c ← isByteConcrete os offset;
  k ← knownSymbolic os offset;
  if f : bool then
    if c : bool then markByteSymbolic offset os
    else match k with Some _ => setKnownSymbolic offset None os | None => Ok os end
  else
    os ← (if c : bool then
            v ← ConstantExpr_create (concreteByte os w offset) Int8;
            os ← extend_byte offset (ConstantExpr v) os;
            markByteSymbolic offset os
          else
            match k with
            | Some e => os ← extend_byte offset e os; setKnownSymbolic offset None os
            | None => AssertFail
            end);
    flush_unset offset os.

Definition flushRangeForWrite (base size : Z) (w : World) (os : ObjectState) : result ObjectState :=
  for_range (flush_write_byte w) (Z.to_nat size) base (new_flushMask os).

Definition fastRangeCheckOffset (offset : expr) (os : ObjectState) : Z * Z := (0, os_size os).

(** *** Bytes *)
Definition read8 (offset : Z) (os : ObjectState) (w : World) : result (expr * ObjectState * World) :=
  c ← isByteConcrete os offset;
  if c : bool then
    v ← ConstantExpr_create (concreteByte os w offset) Int8; Ok (ConstantExpr v, os, w)
  else
    k ← knownSymbolic os offset;
    match k with
    | Some e => Ok (e, os, w)
    | None =>
        f ← isByteFlushed os offset;
        _ ← massert f;
        p ← getUpdates os w;
        let '(ul, os, w) := p in
        i ← ConstantExpr_create offset Int32;
        e ← ReadExpr_create ul (ConstantExpr i);
        Ok (e, os, w)
    end.

Definition read8_sym (offset : expr) (os : ObjectState) (w : World) : result (expr * ObjectState * World) :=
  _ ← massert (negb (isConst offset));
  let '(base, size) := fastRangeCheckOffset offset os in
  os ← flushRangeForRead base size w os;
  p ← getUpdates os w;
  let '(ul, os, w) := p in
  i ← ZExtExpr_create offset Int32;
  e ← ReadExpr_create ul i;
  Ok (e, os, w).

(** [write8(unsigned, uint8_t)] *)
Definition write8_byte (offset value : Z) (os : ObjectState) (w : World) : result (ObjectState * World) :=
  let w := with_mem (store8 (mem w) (concreteStore os + offset) (value mod 256)) w in
  os ← setKnownSymbolic offset None os;
  os ← markByteConcrete offset os;
  os ← markByteUnflushed offset os;
  Ok (os, w).

Definition write8AsExpr (offset : Z) (value : expr) (os : ObjectState) : result ObjectState :=
  os ← setKnownSymbolic offset (Some value) os;
  os ← markByteSymbolic offset os;
  markByteUnflushed offset os.

(** [write8(unsigned, ref<Expr>)] *)
Definition write8 (offset : Z) (value : expr) (os : ObjectState) (w : World) : result (ObjectState * World) :=
  match value with
  | ConstantExpr CE => v ← CE_getZExtValue CE 8; write8_byte offset v os w
  | _ => os ← write8AsExpr offset value os; Ok (os, w)
  end.

(** [write8(ref<Expr>, ref<Expr>)] *)
Definition write8_sym (offset value : expr) (os : ObjectState) (w : World) : result (ObjectState * World) :=
  _ ← massert (negb (isConst offset));
  let '(base, size) := fastRangeCheckOffset offset os in
  os ← flushRangeForWrite base size w os;
  i ← ZExtExpr_create offset Int32;
  os ← os_extend i value os;
  Ok (os, w).

(** *** Wider accesses *)
Definition load16 (m : memory) (a : Z) : Z := load m a 2.

(** [tase_buf_has_taint] of Executor.cpp *)
Fixpoint taint_loop2 (m : memory) (fin : Z) (fuel : nat) (x : Z) : result bool :=
  match fuel with
  | O => OutOfFuel
  | S k =>
      if 0 <? ptrdiff16 (fin - x) then
        if load16 m x =? poison_val then Ok true else taint_loop2 m fin k (x + 2)
      else Ok false
  end.
Fixpoint taint_loop4 (m : memory) (fin : Z) (fuel : nat) (x : Z) : result bool :=
  match fuel with
  | O => OutOfFuel
  | S k =>
      if 0 <? ptrdiff16 (fin - x) then
        if (load16 m x =? poison_val) && (load16 m (x + 2) =? poison_val) then Ok true
        else taint_loop4 m fin k (x + 4)
      else Ok false
  end.
Definition tase_buf_has_taint (m : memory) (ptr size : Z) : result bool :=
  let fin := ptr + size in
  let start := if ptr mod 2 =? 1 then ptr - 1 else ptr in
  if poisonSize =? 2 then taint_loop2 m fin (S (Z.to_nat size)) start
  else taint_loop4 m fin (S (Z.to_nat size)) start.

Definition byte_index (NumBytes i : Z) : Z := if IsLittleEndian then i else NumBytes - i - 1.

(** [Res = i ? ConcatExpr::create(Byte, Res) : Byte] *)
Definition join_byte (Byte : expr) (Res : option expr) : result expr :=
  match Res with None => Ok Byte | Some r => ConcatExpr_create Byte r end.

Fixpoint read_bytes (NumBytes offset : Z) (n : nat) (i : Z) (Res : option expr) (os : ObjectState) (w : World)
    : result (option expr * ObjectState * World) :=
  match n with
  | O => Ok (Res, os, w)
  | S k =>
      '(Byte, os, w) ← read8 (u32 (offset + byte_index NumBytes i)) os w;
      Res ← join_byte Byte Res;
      read_bytes NumBytes offset k (i + 1) (Some Res) os w
  end.
Fixpoint read_bytes_sym (NumBytes : Z) (offset : expr) (n : nat) (i : Z) (Res : option expr)
    (os : ObjectState) (w : World) : result (option expr * ObjectState * World) :=
  match n with
  | O => Ok (Res, os, w)
  | S k =>
      idx ← ConstantExpr_create (byte_index NumBytes i) Int32;
      a ← bin_create Kind.Add offset (ConstantExpr idx);
      '(Byte, os, w) ← read8_sym a os w;
      Res ← join_byte Byte Res;
      read_bytes_sym NumBytes offset k (i + 1) (Some Res) os w
  end.

(** [read(unsigned, Expr::Width)]: a null reference for a read of no bits. *)
Definition read (offset width : Z) (os : ObjectState) (w : World)
    : result (option expr * ObjectState * World) :=
  if width =? Bool then
    '(b, os, w) ← read8 offset os w;
    e ← ExtractExpr_create b 0 Bool; Ok (Some e, os, w)
  else
    let NumBytes := width / 8 in
    _ ← massert (width =? NumBytes * 8);
    fast ← (if (NumBytes =? 2) || (NumBytes =? 4) || (NumBytes =? 8) then
              t ← tase_buf_has_taint (mem w) (concreteStore os + offset) NumBytes; Ok (negb t)
            else Ok false);
    if fast : bool then
      v ← ConstantExpr_create (load (mem w) (concreteStore os + offset) (Z.to_nat NumBytes)) width;
      Ok (Some (ConstantExpr v), os, w)
    else read_bytes NumBytes offset (Z.to_nat NumBytes) 0 None os w.

(** [read(ref<Expr>, Expr::Width)] *)
Definition read_expr (offset : expr) (width : Z) (os : ObjectState) (w : World)
    : result (option expr * ObjectState * World) :=
  offset ← ZExtExpr_create offset Int32;
  match offset with
  | ConstantExpr CE => o ← CE_getZExtValue CE 32; read o width os w
  | _ =>
      if width =? Bool then
        '(b, os, w) ← read8_sym offset os w;
        e ← ExtractExpr_create b 0 Bool; Ok (Some e, os, w)
      else
        let NumBytes := width / 8 in
        _ ← massert (width =? NumBytes * 8);
        read_bytes_sym NumBytes offset (Z.to_nat NumBytes) 0 None os w
  end.

(** [write16], [write32] and [write64]: the bytes of [value], the lowest first. *)
Definition write_le_byte (NumBytes offset value i : Z) (p : ObjectState * World) : result (ObjectState * World) :=
  write8_byte (u32 (offset + byte_index NumBytes i)) (Z.shiftr value (8 * i) mod 256) (fst p) (snd p).
Definition write16 (offset value : Z) (os : ObjectState) (w : World) : result (ObjectState * World) :=
  for_range (write_le_byte 2 offset (value mod 2 ^ 16)) 2 0 (os, w).
Definition write32 (offset value : Z) (os : ObjectState) (w : World) : result (ObjectState * World) :=
  for_range (write_le_byte 4 offset (value mod 2 ^ 32)) 4 0 (os, w).
Definition write64 (offset value : Z) (os : ObjectState) (w : World) : result (ObjectState * World) :=
  for_range (write_le_byte 8 offset value) 8 0 (os, w).

Definition write_byte (NumBytes offset : Z) (value : expr) (i : Z) (p : ObjectState * World)
    : result (ObjectState * World) :=
  b ← ExtractExpr_create value (8 * i) Int8;
  write8 (u32 (offset + byte_index NumBytes i)) b (fst p) (snd p).

(** The general case of [write(unsigned, ref<Expr>)]. *)
Definition write_general (offset : Z) (value : expr) (os : ObjectState) (w : World)
    : result (ObjectState * World) :=
  if getWidth value =? Bool then
    v ← ZExtExpr_create value Int8; write8 offset v os w
  else
    let NumBytes := getWidth value / 8 in
    _ ← massert (getWidth value =? NumBytes * 8);
    for_range (write_byte NumBytes offset value) (Z.to_nat NumBytes) 0 (os, w).

(** [write(unsigned, ref<Expr>)] *)
Definition write (offset : Z) (value : expr) (os : ObjectState) (w : World) : result (ObjectState * World) :=
  match value with
  | ConstantExpr CE =>
      if (bw CE <=? 64) && bits64.isPowerOfTwo (bw CE) then
        val ← CE_getZExtValue CE 64;
        if (bw CE =? Bool) || (bw CE =? Int8) then write8_byte offset (val mod 256) os w
        else if bw CE =? Int16 then write16 offset val os w
        else if bw CE =? Int32 then write32 offset val os w
        else if bw CE =? Int64 then write64 offset val os w
        else AssertFail
      else write_general offset value os w
  | _ => write_general offset value os w
  end.

Definition write_byte_sym (NumBytes : Z) (offset value : expr) (i : Z) (p : ObjectState * World)
    : result (ObjectState * World) :=
  idx ← ConstantExpr_create (byte_index NumBytes i) Int32;
  a ← bin_create Kind.Add offset (ConstantExpr idx);
  b ← ExtractExpr_create value (8 * i) Int8;
  write8_sym a b (fst p) (snd p).

(** [write(ref<Expr>, ref<Expr>)] *)
Definition write_expr (offset value : expr) (os : ObjectState) (w : World) : result (ObjectState * World) :=
  offset ← ZExtExpr_create offset Int32;
  match offset with
  | ConstantExpr CE => o ← CE_getZExtValue CE 32; write o value os w
  | _ =>
      if getWidth value =? Bool then
        v ← ZExtExpr_create value Int8; write8_sym offset v os w
      else
        let NumBytes := getWidth value / 8 in
        _ ← massert (getWidth value =? NumBytes * 8);
        for_range (write_byte_sym NumBytes offset value) (Z.to_nat NumBytes) 0 (os, w)
  end.

(** *** Poison *)

(** The [n] halfwords from [a] on. *)
Fixpoint poison_all (m : memory) (a : Z) (n : nat) : memory :=
  match n with O => m | S k => poison_all (store16 m a poison_val) (a + 2) k end.

(** [std::exit] ends the process. *)
Definition applyPsnOnMakeSymbolic (os : ObjectState) (w : World) : result World :=
  let addr := mo_address (object os) in
  let size := mo_size (object os) in
  _ ← massert (addr mod 2 =? 0);
  _ ← massert (size mod 2 =? 0);
  Ok (with_mem (poison_all (mem w) addr (Z.to_nat (size / 2))) w).

(** A byte is read and cached as an expression. *)
Definition psn_read_byte (i : Z) (p : ObjectState * World) : result (ObjectState * World) :=
  '(byteVal, os, w) ← read8 i (fst p) (snd p);
  os ← write8AsExpr i byteVal os; Ok (os, w).
Definition applyPsnOnRead (offset : expr) (os : ObjectState) (w : World) : result (ObjectState * World) :=
  match offset with
  | ConstantExpr _ => Ok (os, w)
  | _ => for_range psn_read_byte (Z.to_nat (os_size os)) 0 (os, w)
  end.

(** Both bytes of a halfword are read and cached as expressions, then the halfword
    at [addr] is poisoned. *)
Definition cache_and_poison (off1 off2 addr : Z) (p : ObjectState * World) : result (ObjectState * World) :=
  '(b1, os, w) ← read8 off1 (fst p) (snd p);
  '(b2, os, w) ← read8 off2 os w;
  os ← write8AsExpr off1 b1 os;
  os ← write8AsExpr off2 b2 os;
  Ok (os, with_mem (store16 (mem w) addr poison_val) w).

Fixpoint cache_and_poison_all (off addr : Z) (n : nat) (p : ObjectState * World) : result (ObjectState * World) :=
  match n with
  | O => Ok p
  | S k => p ← cache_and_poison (u32 off) (u32 (off + 1)) addr p; cache_and_poison_all (off + 2) (addr + 2) k p
  end.

(** [isByteConcrete(i) && !isByteFlushed(i)] for the two bytes of a halfword, with
    the early exits of the conjunction. *)
Definition nice_byte (os : ObjectState) (i : Z) : result bool :=
  c ← isByteConcrete os i; if c : bool then f ← isByteFlushed os i; Ok (negb f) else Ok false.
Definition nice_pair (os : ObjectState) (i j : Z) : result bool :=
  a ← nice_byte os i; if a : bool then nice_byte os j else Ok false.

Definition psn_middle (valWidth firstOff firstAddr : Z) (aligned : bool) (p : ObjectState * World)
    : result (ObjectState * World) :=
  if valWidth =? Int16 then
    if aligned then Ok (fst p, with_mem (store16 (mem (snd p)) firstAddr poison_val) (snd p)) else Ok p
  else if valWidth =? Int32 then
    if aligned then cache_and_poison_all firstOff firstAddr 2 p
    else cache_and_poison_all (firstOff + 1) (firstAddr + 1) 1 p
  else if valWidth =? Int64 then
    if aligned then cache_and_poison_all firstOff firstAddr 4 p
    else cache_and_poison_all (firstOff + 1) (firstAddr + 1) 3 p
  else Ok p.

Definition psn_low_end (firstOff firstAddr : Z) (p : ObjectState * World) : result (ObjectState * World) :=
  if firstAddr mod 2 =? 1 then
    let sibIdx := u32 (firstOff - 1) in
    nice ← nice_pair (fst p) firstOff sibIdx;
    if nice : bool then Ok p else cache_and_poison sibIdx firstOff (firstAddr - 1) p
  else Ok p.
Definition psn_high_end (endOff endAddr : Z) (p : ObjectState * World) : result (ObjectState * World) :=
  if endAddr mod 2 =? 0 then
    let sibIdx := u32 (endOff + 1) in
    nice ← nice_pair (fst p) endOff sibIdx;
    if nice : bool then Ok p else cache_and_poison endOff sibIdx endAddr p
  else Ok p.

Definition psn_bytes (valWidth : Z) : result Z :=
  if (valWidth =? Bool) || (valWidth =? Int8) then Ok 1
  else if valWidth =? Int16 then Ok 2
  else if valWidth =? Int32 then Ok 4
  else if valWidth =? Int64 then Ok 8
  else AssertFail.

Definition applyPsnOnWrite (offset value : expr) (os : ObjectState) (w : World)
    : result (ObjectState * World) :=
  offset ← ZExtExpr_create offset Int32;
  match offset with
  | ConstantExpr CE =>
      firstOff ← CE_getZExtValue CE 32;
      n ← psn_bytes (getWidth value);
      let endOff := u32 (firstOff + n - 1) in
      let firstAddr := u64 (mo_address (object os) + firstOff) in
      let endAddr := u64 (mo_address (object os) + endOff) in
      let aligned := (firstAddr mod 2 =? 0) && (endAddr mod 2 =? 1) in
      p ← (if isConst value then Ok (os, w)
           else psn_middle (getWidth value) firstOff firstAddr aligned (os, w));
      p ← psn_low_end firstOff firstAddr p;
      psn_high_end endOff endAddr p
  | _ =>
      _ ← massert (negb (negb (os_size os mod 2 =? 0) || negb (mo_address (object os) mod 2 =? 0)));
      Ok (os, with_mem (poison_all (mem w) (mo_address (object os)) (Z.to_nat (os_size os / 2))) w)
  end.

Fixpoint entirely_concrete (os : ObjectState) (n : nat) (j : Z) : result bool :=
  match n with
  | O => Ok true
  | S k => c ← isByteConcrete os j; if c : bool then entirely_concrete os k (j + 1) else Ok false
  end.
Definition isObjectEntirelyConcrete (os : ObjectState) : result bool :=
  entirely_concrete os (Z.to_nat (os_size os)) 0.
End object_state.
