(* ===== verification/MemorySound.v ===== *)
(** * The contents of a memory object

    The three layers of an [ObjectState] are read through one abstraction:
    [contents] is the byte an object holds at an offset, under an assignment of
    the symbolic arrays.  [os_ok] collects the cache invariants that
    [klee/lib/Core/Memory.cpp] documents.  Every operation is shown to return, to
    keep the invariants and to act on the contents as an array of bytes would. *)

From stdpp Require Import pretty.
From S2P Require Import Prelude APInt ExprData Samples Bits ExprCompare ExprCreate ExprCreateSound ExprStructSound UnionFind ArrayCache Memory.
Local Open Scope Z_scope.

(** ** Loops *)
Lemma for_range_inv {A} (I : Z -> A -> Prop) (body : Z -> A -> result A) n i a :
  I i a -> (forall j a, i <= j < i + Z.of_nat n -> I j a -> returns (body j a) (I (j + 1))) ->
  returns (for_range body n i a) (I (i + Z.of_nat n)).
Proof.
  revert i a. induction n as [|n IH]; intros i a Ha Hb; simpl.
  { apply returns_ok. by rewrite Z.add_0_r. }
  eapply returns_bind; [apply Hb; [lia|done]|]. intros a' Ha'.
  replace (i + Z.of_nat (S n)) with (i + 1 + Z.of_nat n) by lia.
  apply IH; [done|]. intros j a'' Hj. apply Hb. lia.
Qed.

Lemma or_fail_Some {A} (o : option A) a : o = Some a -> or_fail o = Ok a.
Proof. by intros ->. Qed.

(** ** The layers as functions of the offset *)
Record view := View {
  v_conc : Z -> bool;
  v_flush : Z -> bool;
  v_known : Z -> option expr;
  v_root : option Array;
  v_head : UpdateNode;
}.

Definition upd {A} (i : Z) (a : A) (f : Z -> A) : Z -> A := fun j => if j =? i then a else f j.
Definition set_conc (i : Z) (b : bool) (v : view) : view :=
  View (upd i b (v_conc v)) (v_flush v) (v_known v) (v_root v) (v_head v).
Definition set_flush (i : Z) (b : bool) (v : view) : view :=
  View (v_conc v) (upd i b (v_flush v)) (v_known v) (v_root v) (v_head v).
Definition set_known (i : Z) (k : option expr) (v : view) : view :=
  View (v_conc v) (v_flush v) (upd i k (v_known v)) (v_root v) (v_head v).
Definition set_updates (r : option Array) (h : UpdateNode) (v : view) : view :=
  View (v_conc v) (v_flush v) (v_known v) r h.

Lemma upd_eq {A} i (a : A) f : upd i a f i = a.
Proof. unfold upd. by rewrite Z.eqb_refl. Qed.
Lemma upd_ne {A} i j (a : A) f : j <> i -> upd i a f j = f j.
Proof. intros. unfold upd. by rewrite (proj2 (Z.eqb_neq j i)). Qed.

(** A mask has the words the constructor allocates. *)
Definition mask_ok (size : Z) (m : option (list Z)) : Prop :=
  match m with Some b => BitArray.ok b /\ Z.of_nat (length b) = BitArray.length size | None => True end.

(** [os] is laid out as its size asks, and its layers are those of [v]. *)
Record shows (os : ObjectState) (v : view) : Prop := {
  sh_size : 0 < os_size os < 2 ^ 32 - 31;
  sh_cmask : mask_ok (os_size os) (concreteMask os);
  sh_fmask : mask_ok (os_size os) (flushMask os);
  sh_table : match knownSymbolics os with Some l => Z.of_nat (length l) = os_size os | None => True end;
  sh_conc i : 0 <= i < os_size os -> isByteConcrete os i = Ok (v_conc v i);
  sh_flush i : 0 <= i < os_size os -> isByteFlushed os i = Ok (v_flush v i);
  sh_known i : 0 <= i < os_size os -> knownSymbolic os i = Ok (v_known v i);
  sh_root : upd_root os = v_root v;
  sh_head : upd_head os = v_head v;
}.

(** What no operation on the layers changes. *)
Definition frame (os os' : ObjectState) : Prop :=
  object os' = object os /\ concreteStore os' = concreteStore os /\ os_size os' = os_size os /\
  readOnly os' = readOnly os /\ (flushMask os <> None -> flushMask os' <> None).

#[export] Instance frame_preorder : PreOrder frame.
Proof. split; [by intros os|]. intros a b c (? & ? & ? & ? & ?) (? & ? & ? & ? & ?). split_and!; try congruence; auto. Qed.

(** [m] returns a state with the layers [v], the rest unchanged. *)
Definition yields (m : result ObjectState) (os : ObjectState) (v : view) : Prop :=
  returns m (fun os' => frame os os' /\ shows os' v).

Lemma yields_bind m f os v v' :
  yields m os v -> (forall os', frame os os' -> shows os' v -> yields (f os') os' v') ->
  yields (m ≫= f) os v'.
Proof.
  intros Hm Hf. eapply returns_bind; [exact Hm|]. intros os' [Hfr Hs].
  eapply returns_weaken; [by apply Hf|]. intros os'' [Hfr' Hs']. split; [by transitivity os'|done].
Qed.

(** *** Masks of the right length *)
Lemma mask_set b size i v :
  mask_ok size (Some b) -> 0 <= i < size -> size < 2 ^ 32 - 31 ->
  exists b', BitArray.set_to b i v = Some b' /\ mask_ok size (Some b') /\
    forall j, 0 <= j -> BitArray.get b' j = if j =? i then Some v else BitArray.get b j.
Proof.
  intros [Hok Hlen] Hi Hs. assert (Hw : exists w, b !! Z.to_nat (i / 32) = Some w).
  { apply lookup_lt_is_Some_2. unfold BitArray.length in Hlen. rewrite u32_small in Hlen by lia.
    assert (i / 32 < (size + 31) / 32).
    { apply Z.lt_le_trans with ((i + 1 * 32) / 32); [rewrite Z.div_add; lia|apply Z.div_le_mono; lia]. }
    assert (0 <= i / 32) by (apply Z.div_pos; lia). lia. }
  destruct Hw as [w Hw].
  assert (Hb : exists b', BitArray.set_to b i v = Some b').
  { unfold BitArray.set_to, BitArray.set, BitArray.unset. rewrite Hw. destruct v; eauto. }
  destruct Hb as [b' Hb]. exists b'. split_and!; [done| |].
  - split; [by eapply BitArray.set_to_ok; [..|exact Hb]; [|lia]|].
    destruct (BitArray.set_to_lookup b i v b' Hok) as (? & ? & _ & _ & -> & _); [lia|done|].
    by rewrite length_insert.
  - intros j Hj. eapply BitArray.set_to_get; [exact Hok|lia|done|done].
Qed.

Lemma mask_create size v :
  0 < size < 2 ^ 32 - 31 -> mask_ok size (Some (BitArray.create size v)).
Proof.
  intros Hs. unfold mask_ok, BitArray.create. split.
  - apply Forall_replicate. destruct v; [apply wrap_inw; lia|apply inw_0; lia].
  - rewrite length_replicate. unfold BitArray.length. rewrite u32_small by lia.
    pose proof (Z.div_pos (size + 31) 32). lia.
Qed.

Lemma mask_get b size i :
  mask_ok size (Some b) -> 0 <= i < size -> size < 2 ^ 32 - 31 -> exists x, BitArray.get b i = Some x.
Proof.
  intros Hm Hi Hs. destruct (mask_set b size i true Hm Hi Hs) as (b' & Hb & _).
  unfold BitArray.set_to, BitArray.set in Hb. unfold BitArray.get. apply bind_Some_inv in Hb as (y & -> & _). simpl. eauto.
Qed.

(** *** The marks act on the view *)
Section marks.
Context (os : ObjectState) (v : view) (Hs : shows os v) (i : Z) (Hi : 0 <= i < os_size os).

Ltac shows_tac := destruct Hs as [? ? ? ? Hc Hf Hk ? ?]; split_and!; try done; constructor; simpl; try done.

Lemma markByteConcrete_ok : yields (markByteConcrete i os) os (set_conc i true v).
Proof.
  unfold markByteConcrete. destruct (concreteMask os) as [b|] eqn:E.
  - destruct (mask_set b (os_size os) i true) as (b' & Hb & Hm & Hg);
      [rewrite <- E; apply Hs|done|apply Hs|].
    simpl in Hb. rewrite Hb. simpl. apply returns_ok. shows_tac. intros j Hj.
    unfold isByteConcrete in *. simpl. rewrite Hg by lia. specialize (Hc j Hj). rewrite E in Hc.
    unfold upd. by destruct (j =? i).
  - apply returns_ok. shows_tac. intros j Hj. specialize (Hc j Hj). rewrite Hc. f_equal.
    unfold upd. destruct (Z.eqb_spec j i) as [->|]; [|done]. unfold isByteConcrete in Hc. rewrite E in Hc. congruence.
Qed.

Lemma markByteSymbolic_ok : yields (markByteSymbolic i os) os (set_conc i false v).
Proof.
  unfold markByteSymbolic. set (b := match concreteMask os with Some m => m | None => _ end).
  destruct (mask_set b (os_size os) i false) as (b' & Hb & Hm & Hg);
    [|done|apply Hs|].
  { unfold b. pose proof (sh_cmask _ _ Hs) as Hm. destruct (concreteMask os); [done|]. apply mask_create, Hs. }
  simpl in Hb. rewrite Hb. simpl. apply returns_ok. shows_tac. intros j Hj.
  unfold isByteConcrete in *. simpl. rewrite Hg by lia. unfold upd. destruct (Z.eqb_spec j i) as [->|]; [done|].
  specialize (Hc j Hj). unfold b. destruct (concreteMask os); [done|].
  rewrite BitArray.create_get by lia. done.
Qed.

Lemma markByteUnflushed_ok : yields (markByteUnflushed i os) os (set_flush i false v).
Proof.
  unfold markByteUnflushed. destruct (flushMask os) as [b|] eqn:E.
  - destruct (mask_set b (os_size os) i true) as (b' & Hb & Hm & Hg);
      [rewrite <- E; apply Hs|done|apply Hs|].
    simpl in Hb. rewrite Hb. simpl. apply returns_ok. shows_tac. intros j Hj.
    unfold isByteFlushed in *. simpl. rewrite Hg by lia. specialize (Hf j Hj). rewrite E in Hf.
    unfold upd. by destruct (j =? i).
  - apply returns_ok. shows_tac. intros j Hj. specialize (Hf j Hj). rewrite Hf. f_equal.
    unfold upd. destruct (Z.eqb_spec j i) as [->|]; [|done]. unfold isByteFlushed in Hf. rewrite E in Hf. congruence.
Qed.

Lemma flush_unset_ok : flushMask os <> None -> yields (flush_unset i os) os (set_flush i true v).
Proof.
  intros Hn. unfold flush_unset. destruct (flushMask os) as [b|] eqn:E; [|done].
  destruct (mask_set b (os_size os) i false) as (b' & Hb & Hm & Hg);
    [rewrite <- E; apply Hs|done|apply Hs|].
  simpl in Hb. rewrite Hb. simpl. apply returns_ok. shows_tac. intros j Hj.
  unfold isByteFlushed in *. simpl. rewrite Hg by lia. specialize (Hf j Hj). rewrite E in Hf.
  unfold upd. by destruct (j =? i).
Qed.

Lemma setKnownSymbolic_ok k : yields (setKnownSymbolic i k os) os (set_known i k v).
Proof.
  assert (Ht : forall l, Z.of_nat (length l) = os_size os ->
    (forall j, 0 <= j < os_size os -> l !! Z.to_nat j = Some (v_known v j)) ->
    yields (_ ← or_fail (l !! Z.to_nat i); Ok (with_knownSymbolics (Some (<[Z.to_nat i := k]> l)) os)) os
      (set_known i k v)).
  { intros l Hl Hv. rewrite Hv by done. simpl. apply returns_ok. shows_tac.
    - by rewrite length_insert.
    - intros j Hj. unfold knownSymbolic. simpl. unfold upd. destruct (Z.eqb_spec j i) as [->|].
      + by rewrite list_lookup_insert_eq by lia.
      + rewrite list_lookup_insert_ne by lia. by rewrite Hv. }
  unfold setKnownSymbolic. destruct (knownSymbolics os) as [l|] eqn:E.
  - apply Ht; [pose proof (sh_table _ _ Hs) as H; by rewrite E in H|].
    intros j Hj. pose proof (sh_known _ _ Hs j Hj) as H. unfold knownSymbolic in H. rewrite E in H.
    destruct (l !! Z.to_nat j); simpl in H; congruence.
  - assert (Hnone : forall j, 0 <= j < os_size os -> v_known v j = None).
    { intros j Hj. pose proof (sh_known _ _ Hs j Hj) as H. unfold knownSymbolic in H. rewrite E in H. congruence. }
    destruct k as [e|].
    + apply Ht; [rewrite length_replicate; lia|]. intros j Hj. rewrite Hnone by done.
      apply lookup_replicate_2. lia.
    + apply returns_ok. shows_tac. intros j Hj. rewrite Hk by done. f_equal. unfold upd.
      destruct (Z.eqb_spec j i) as [->|]; [by apply Hnone|done].
Qed.

Lemma with_updates_ok r h : frame os (with_updates r h os) /\ shows (with_updates r h os) (set_updates r h v).
Proof. shows_tac. Qed.

Lemma new_flushMask_ok : frame os (new_flushMask os) /\ shows (new_flushMask os) v /\ flushMask (new_flushMask os) <> None.
Proof.
  unfold new_flushMask. destruct (flushMask os) as [b|] eqn:E; [by rewrite E; split_and!|].
  split; [done|]. split; [|done]. destruct Hs as [? ? ? ? Hc Hf Hk ? ?]. constructor; simpl; try done.
  - by apply mask_create.
  - intros j Hj. specialize (Hf j Hj). unfold isByteFlushed in *. simpl. rewrite BitArray.create_get by lia.
    simpl. rewrite E in Hf. done.
Qed.
End marks.

(** ** Contents *)
Section contents.
Context {AP : APIntOps} {SP : APIntSpec AP} {CFG : Config} {PR : Process}.

(** The value the writes give to index [i], over [base]. *)
Fixpoint eval_writes (rho : env) (base : option Z) (un : UpdateNode) (i : Z) : option Z :=
  match un with
  | NullNode => base
  | Node next index value =>
      j ← eval rho index; if j =? i then eval rho value else eval_writes rho base next i
  end.

(** An object without a root array lies over zeroes. *)
Definition base_byte (rho : env) (root : option Array) (i : Z) : option Z :=
  match root with Some a => initial rho a i | None => Some 0 end.

Definition written (rho : env) (root : option Array) (head : UpdateNode) (i : Z) : option Z :=
  eval_writes rho (base_byte rho root i) head i.

Lemma eval_node_writes rho a un i : eval_node rho a un i = eval_writes rho (initial rho a i) un i.
Proof. induction un as [|next IH ? ?] using UpdateNode_ind; simpl; [done|]. by rewrite IH. Qed.

(** The byte the object holds at offset [i]. *)
Definition contents (rho : env) (os : ObjectState) (m : memory) (i : Z) : option Z :=
  match isByteConcrete os i, knownSymbolic os i with
  | Ok true, _ => Some (m (concreteStore os + i))
  | _, Ok (Some e) => eval rho e
  | _, _ => written rho (upd_root os) (upd_head os) i
  end.

Definition vbyte (rho : env) (v : view) (m : memory) (s i : Z) : option Z :=
  if v_conc v i then Some (m (s + i))
  else match v_known v i with Some e => eval rho e | None => written rho (v_root v) (v_head v) i end.

Lemma contents_view rho os v m i :
  shows os v -> 0 <= i < os_size os -> contents rho os m i = vbyte rho v m (concreteStore os) i.
Proof.
  intros Hs Hi. unfold contents, vbyte.
  rewrite (sh_conc _ _ Hs), (sh_known _ _ Hs), (sh_root _ _ Hs), (sh_head _ _ Hs) by done.
  by destruct (v_conc v i), (v_known v i).
Qed.

(** *** The cache invariants *)

Fixpoint wf_writes (un : UpdateNode) : Prop :=
  match un with
  | NullNode => True
  | Node next index value =>
      wf_writes next /\ wf index /\ wf value /\ getWidth index = Int32 /\ getWidth value = Int8
  end.

(** Writes at constant indices are inside the object. *)
Fixpoint writes_inside (size : Z) (un : UpdateNode) : Prop :=
  match un with
  | NullNode => True
  | Node next index _ =>
      writes_inside size next /\ match index with ConstantExpr c => raw c < size | _ => True end
  end.

Definition root_ok (size : Z) (root : option Array) (head : UpdateNode) : Prop :=
  match root with
  | Some a => wf_array a /\ domain a = Int32 /\ range a = Int8
  | None => writes_inside size head
  end.

(** The layers agree: the documented invariants, the agreement of a flushed byte
    with the updates, and the typing of what the layers hold. *)
Record coherent (m : memory) (s size : Z) (v : view) : Prop := {
  co_mem i : 0 <= i < size -> inw 8 (m (s + i));
  co_known i e : 0 <= i < size -> v_known v i = Some e ->
    wf e /\ getWidth e = Int8 /\ v_conc v i = false;
  co_unflushed i : 0 <= i < size -> v_flush v i = false -> v_conc v i = true \/ v_known v i <> None;
  co_flushed i : 0 <= i < size -> v_flush v i = true ->
    forall rho, written rho (v_root v) (v_head v) i = vbyte rho v m s i;
  co_root : root_ok size (v_root v) (v_head v);
  co_writes : wf_writes (v_head v);
}.

Definition os_ok (os : ObjectState) (m : memory) : Prop :=
  exists v, shows os v /\ coherent m (concreteStore os) (os_size os) v.

Lemma wf_node_writes a un : domain a = Int32 -> range a = Int8 -> wf_writes un -> wf_node a un.
Proof.
  intros Hd Hr. induction un as [|next IH ? ?] using UpdateNode_ind; simpl; [done|].
  intros (? & ? & ? & ? & ?). rewrite Hd, Hr. split_and!; auto.
Qed.

(** *** Extending the updates *)

(** Only the contents and the typing matter in what follows. *)
Definition same_bytes (m : memory) (s size : Z) (v v' : view) : Prop :=
  forall rho i, 0 <= i < size -> vbyte rho v' m s i = vbyte rho v m s i.

#[local] Instance same_bytes_preorder m s size : PreOrder (same_bytes m s size).
Proof. split; [by intros v rho i|]. intros a b c Hab Hbc rho i Hi. by rewrite Hbc, Hab. Qed.

Lemma os_extend_ok os v index value n :
  shows os v -> root_ok n (v_root v) (v_head v) -> getWidth index = Int32 -> getWidth value = Int8 ->
  yields (os_extend index value os) os (set_updates (v_root v) (Node (v_head v) index value) v).
Proof.
  intros Hs Hr Wi Wv. unfold os_extend.
  rewrite (sh_root _ _ Hs), (sh_head _ _ Hs). unfold root_ok in Hr.
  assert (Hend : yields (Ok (with_updates (v_root v) (Node (v_head v) index value) os)) os
    (set_updates (v_root v) (Node (v_head v) index value) v)).
  { apply returns_ok. by apply with_updates_ok. }
  destruct (v_root v) as [a|] eqn:Er; [|exact Hend].
  destruct Hr as (_ & Hd & Hrg). rewrite Hd, Hrg, Wi, Wv, !Z.eqb_refl. exact Hend.
Qed.

Lemma create32_eq i : 0 <= i < 2 ^ 32 -> ConstantExpr_create i Int32 = Ok (APInt Int32 i).
Proof.
  intros. rewrite create_eq; [|done|unfold inw; lia|intros _; done].
  rewrite alloc_eq by (done || (unfold inw; lia)). by rewrite wrap_small.
Qed.

Lemma create8_eq x : inw 8 x -> ConstantExpr_create x Int8 = Ok (APInt Int8 x).
Proof.
  intros [? ?]. assert (inw 64 x) by (unfold inw; lia). rewrite create_eq by done.
  rewrite alloc_eq by done. by rewrite wrap_small.
Qed.

Lemma const_apok w x : 0 < w < 2 ^ 32 -> inw w x -> apok (APInt w x).
Proof. by split. Qed.

(** Flushing a byte: its value [e] becomes the newest write at its offset. *)
Definition flushed_view (i : Z) (e : expr) (v : view) : view :=
  set_flush i true (set_updates (v_root v) (Node (v_head v) (ConstantExpr (APInt Int32 i)) e) v).

Lemma written_flushed rho i e v j :
  written rho (v_root v) (Node (v_head v) (ConstantExpr (APInt Int32 i)) e) j =
    if i =? j then eval rho e else written rho (v_root v) (v_head v) j.
Proof. done. Qed.

Lemma flush_coherent m s size v i e :
  coherent m s size v -> 0 <= i < size -> size < 2 ^ 32 - 31 -> v_flush v i = false ->
  wf e -> getWidth e = Int8 -> (forall rho, eval rho e = vbyte rho v m s i) ->
  coherent m s size (flushed_view i e v) /\ same_bytes m s size v (flushed_view i e v).
Proof.
  intros Hc Hi Hsz Hf He We Hev.
  assert (Hsame : same_bytes m s size v (flushed_view i e v)).
  { intros rho j Hj. unfold vbyte. cbn [flushed_view set_flush set_updates v_conc v_known v_root v_head].
    destruct (v_conc v j) eqn:E; [done|]. destruct (v_known v j) eqn:E'; [done|].
    rewrite written_flushed. destruct (Z.eqb_spec i j) as [->|]; [|done].
    destruct (co_unflushed _ _ _ _ Hc j) as [?|?]; congruence. }
  split; [|exact Hsame]. constructor; cbn [flushed_view set_flush set_updates v_conc v_known v_root v_head v_flush].
  - apply Hc.
  - apply Hc.
  - intros j Hj. unfold upd. destruct (Z.eqb_spec j i); [done|]. by apply Hc.
  - intros j Hj Hfj rho. rewrite (Hsame rho j Hj), written_flushed. unfold upd in Hfj.
    destruct (Z.eqb_spec i j) as [->|]; [done|].
    apply (co_flushed _ _ _ _ Hc); [done|]. destruct (Z.eqb_spec j i); congruence.
  - pose proof (co_root _ _ _ _ Hc) as Hr. destruct (v_root v); simpl in *; [done|]. split; [done|lia].
  - simpl. split_and!; try done; [apply Hc|apply const_apok; [done|unfold inw, Int32; lia]].
Qed.


(** *** Flushing *)

(** A state reached from [os] with the same bytes, whose layers satisfy [P]. *)
Definition keeps (m : memory) (os : ObjectState) (v : view) (P : view -> Prop) (os' : ObjectState) : Prop :=
  frame os os' /\ exists v', shows os' v' /\ coherent m (concreteStore os) (os_size os) v' /\
    same_bytes m (concreteStore os) (os_size os) v v' /\ P v'.

Lemma keeps_intro m os v (P : view -> Prop) v' r :
  yields r os v' -> coherent m (concreteStore os) (os_size os) v' ->
  same_bytes m (concreteStore os) (os_size os) v v' -> P v' -> returns r (keeps m os v P).
Proof. intros H ? ? ?. eapply returns_weaken; [exact H|]. intros os' [? ?]. split; [done|]. by exists v'. Qed.

Lemma shows_ext os v v' :
  shows os v -> (forall i, 0 <= i < os_size os -> v_conc v' i = v_conc v i /\ v_flush v' i = v_flush v i /\
    v_known v' i = v_known v i) -> v_root v' = v_root v -> v_head v' = v_head v -> shows os v'.
Proof.
  intros [? ? ? ? Hc Hf Hk ? ?] He Hr Hh.
  constructor; try done; try congruence; intros i Hi; destruct (He i Hi) as (E1 & E2 & E3); rewrite ?E1, ?E2, ?E3; auto.
Qed.

Lemma yields_ext r os v v' :
  yields r os v -> (forall i, 0 <= i < os_size os -> v_conc v' i = v_conc v i /\ v_flush v' i = v_flush v i /\
    v_known v' i = v_known v i) -> v_root v' = v_root v -> v_head v' = v_head v -> yields r os v'.
Proof.
  intros H He Hr Hh. eapply returns_weaken; [exact H|]. intros os' [Hf Hs]. split; [done|].
  eapply shows_ext; try done. destruct Hf as (_ & _ & -> & _). done.
Qed.

(** The expression flushed for an unflushed byte is its contents. *)
Lemma unflushed_expr os v w i :
  shows os v -> coherent (mem w) (concreteStore os) (os_size os) v -> 0 <= i < os_size os ->
  v_flush v i = false ->
  exists e, wf e /\ getWidth e = Int8 /\
    (forall rho, eval rho e = vbyte rho v (mem w) (concreteStore os) i) /\
    (v_conc v i = true /\ ConstantExpr_create (concreteByte os w i) Int8 = Ok (APInt Int8 (concreteByte os w i)) /\
       e = ConstantExpr (APInt Int8 (concreteByte os w i)) \/
     v_conc v i = false /\ v_known v i = Some e).
Proof.
  intros Hs Hc Hi Hf. pose proof (co_mem _ _ _ _ Hc i Hi) as Hb. destruct (v_conc v i) eqn:E.
  - eexists. split_and!; [| | |left; split_and!; [done| |reflexivity]].
    + by apply const_apok.
    + done.
    + intros rho. unfold vbyte. by rewrite E.
    + by apply create8_eq.
  - destruct (v_known v i) as [e|] eqn:Ek.
    + destruct (co_known _ _ _ _ Hc i e Hi Ek) as (? & ? & _). exists e. split_and!; try done; [|by right].
      intros rho. unfold vbyte. by rewrite E, Ek.
    + destruct (co_unflushed _ _ _ _ Hc i Hi Hf) as [?|?]; congruence.
Qed.

Lemma extend_byte_ok os v m s i e :
  shows os v -> coherent m s (os_size os) v -> 0 <= i < os_size os -> wf e -> getWidth e = Int8 ->
  yields (extend_byte i e os) os (set_updates (v_root v) (Node (v_head v) (ConstantExpr (APInt Int32 i)) e) v).
Proof.
  intros Hs Hc Hi He We. pose proof (sh_size _ _ Hs). unfold extend_byte. rewrite create32_eq by lia.
  cbn [mbind result_bind]. eapply os_extend_ok; [done|apply Hc|done|done].
Qed.

Lemma flush_read_byte_ok os v w i :
  shows os v -> coherent (mem w) (concreteStore os) (os_size os) v -> 0 <= i < os_size os ->
  flushMask os <> None ->
  returns (flush_read_byte w i os) (keeps (mem w) os v (fun v' =>
    forall j, v_flush v' j = if j =? i then true else v_flush v j)).
Proof.
  intros Hs Hc Hi Hm. unfold flush_read_byte.
  rewrite (sh_flush _ _ Hs), (sh_conc _ _ Hs), (sh_known _ _ Hs) by done. cbn [mbind result_bind].
  destruct (v_flush v i) eqn:Ef.
  { eapply keeps_intro; [by apply returns_ok|done|done|]. intros j. by destruct (Z.eqb_spec j i) as [->|]. }
  destruct (unflushed_expr os v w i Hs Hc Hi Ef) as (e & He & We & Hev & Hcase).
  assert (Hgo : yields (os' ← extend_byte i e os; flush_unset i os') os (flushed_view i e v)).
  { eapply yields_bind; [by eapply extend_byte_ok|]. intros os' (_ & _ & Hsz & _ & Hm') Hs'.
    apply flush_unset_ok; [done|by rewrite Hsz|auto]. }
  destruct (flush_coherent (mem w) (concreteStore os) (os_size os) v i e) as [? ?]; try done.
  { apply Hs. }
  destruct Hcase as [(-> & Hcr & ->)|(-> & ->)]; [rewrite Hcr|]; cbn [mbind result_bind];
    (eapply keeps_intro; [exact Hgo|done|done|done]).
Qed.

(** A flushed byte is left to the updates. *)
Definition forget_view (i : Z) (v : view) : view := set_conc i false (set_known i None v).

Lemma forget_coherent m s size v i :
  coherent m s size v -> 0 <= i < size -> v_flush v i = true ->
  coherent m s size (forget_view i v) /\ same_bytes m s size v (forget_view i v).
Proof.
  intros Hc Hi Hf.
  assert (Hsame : same_bytes m s size v (forget_view i v)).
  { intros rho j Hj. destruct (Z.eqb_spec j i) as [->|N].
    - rewrite <- (co_flushed _ _ _ _ Hc i Hi Hf). unfold vbyte. simpl. by rewrite !upd_eq.
    - unfold vbyte. simpl. by rewrite !upd_ne. }
  split; [|done]. constructor; try apply Hc; simpl.
  - intros j e Hj. unfold upd. destruct (Z.eqb_spec j i); [done|]. by apply Hc.
  - intros j Hj Hfj. unfold upd. destruct (Z.eqb_spec j i) as [->|]; [congruence|]. by apply Hc.
  - intros j Hj Hfj rho. rewrite (Hsame rho j Hj). by apply Hc.
Qed.

Lemma flush_write_byte_ok os v w i :
  shows os v -> coherent (mem w) (concreteStore os) (os_size os) v -> 0 <= i < os_size os ->
  flushMask os <> None ->
  returns (flush_write_byte w i os) (keeps (mem w) os v (fun v' => forall j,
    v_flush v' j = (if j =? i then true else v_flush v j) /\
    v_conc v' j = (if j =? i then false else v_conc v j) /\
    v_known v' j = (if j =? i then None else v_known v j))).
Proof.
  intros Hs Hc Hi Hm. unfold flush_write_byte.
  rewrite (sh_flush _ _ Hs), (sh_conc _ _ Hs), (sh_known _ _ Hs) by done. cbn [mbind result_bind].
  assert (Hknown : v_conc v i = true -> v_known v i = None).
  { intros E. destruct (v_known v i) as [e|] eqn:Ek; [|done].
    destruct (co_known _ _ _ _ Hc i e Hi Ek) as (_ & _ & ?). congruence. }
  destruct (v_flush v i) eqn:Ef.
  - destruct (forget_coherent (mem w) (concreteStore os) (os_size os) v i) as [? ?]; try done.
    eapply (keeps_intro _ _ _ _ (forget_view i v)); [|done|done|].
    + destruct (v_conc v i) eqn:E; [eapply yields_ext; [by apply markByteSymbolic_ok|..]; try done|
        destruct (v_known v i) eqn:E'; [eapply yields_ext; [by apply setKnownSymbolic_ok|..]; try done|
        eapply yields_ext; [by apply returns_ok|..]; try done]];
        intros j Hj; simpl; unfold upd; destruct (Z.eqb_spec j i) as [->|]; split_and!; first [congruence|symmetry; by apply Hknown].
    + intros j. simpl. unfold upd. destruct (Z.eqb_spec j i) as [->|]; done.
  - destruct (unflushed_expr os v w i Hs Hc Hi Ef) as (e & He & We & Hev & Hcase).
    destruct (flush_coherent (mem w) (concreteStore os) (os_size os) v i e) as [Hc1 Hb1]; try done.
    { apply Hs. }
    destruct (forget_coherent (mem w) (concreteStore os) (os_size os) (flushed_view i e v) i) as [? ?]; try done.
    { simpl. apply upd_eq. }
    eapply (keeps_intro _ _ _ _ (forget_view i (flushed_view i e v))); [|done|by etransitivity|].
    2:{ intros j. simpl. unfold upd. destruct (Z.eqb_spec j i) as [->|]; done. }
    assert (Hfin : forall f v1, (forall os1 v0, shows os1 v0 -> os_size os1 = os_size os -> yields (f os1) os1 (v1 v0)) ->
      yields (os1 ← (os2 ← extend_byte i e os; f os2); flush_unset i os1) os
        (set_flush i true (v1 (set_updates (v_root v) (Node (v_head v) (ConstantExpr (APInt Int32 i)) e) v)))).
    { intros f v1 Hf1. eapply yields_bind.
      - eapply yields_bind; [by eapply extend_byte_ok|]. intros os' (_ & _ & Hsz & _) Hs'. by apply Hf1.
      - intros os' (_ & _ & Hsz & _ & Hm') Hs'. apply flush_unset_ok; [done|by rewrite Hsz|auto]. }
    destruct Hcase as [(E & Hcr & ->)|(E & Ek)]; rewrite E.
    + rewrite Hcr. cbn [mbind result_bind]. eapply yields_ext.
      { apply (Hfin (markByteSymbolic i) (set_conc i false)). intros. apply markByteSymbolic_ok; [done|lia]. }
      2,3: done.
      intros j Hj; simpl; unfold upd; destruct (Z.eqb_spec j i) as [->|]; split_and!; first [congruence|symmetry; by apply Hknown].
    + rewrite Ek. eapply yields_ext.
      { apply (Hfin (setKnownSymbolic i None) (set_known i None)). intros. apply setKnownSymbolic_ok; [done|lia]. }
      2,3: done.
      intros j Hj; simpl; unfold upd; destruct (Z.eqb_spec j i) as [->|]; split_and!; first [congruence|symmetry; by apply Hknown].
Qed.

Section flush_loop.
Context (body : World -> Z -> ObjectState -> result ObjectState) (Q : view -> Z -> Prop).
Hypothesis body_ok : forall os v w i,
  shows os v -> coherent (mem w) (concreteStore os) (os_size os) v -> 0 <= i < os_size os ->
  flushMask os <> None ->
  returns (body w i os) (keeps (mem w) os v (fun v' => Q v' i /\ forall j, j <> i -> Q v j -> Q v' j)).

Lemma flush_loop_ok os v w :
  shows os v -> coherent (mem w) (concreteStore os) (os_size os) v ->
  returns (for_range (body w) (Z.to_nat (os_size os)) 0 (new_flushMask os))
    (keeps (mem w) os v (fun v' => forall i, 0 <= i < os_size os -> Q v' i)).
Proof.
  intros Hs Hc. destruct (new_flushMask_ok os v Hs) as (Hf0 & Hs0 & Hm0).
  pose proof (sh_size _ _ Hs) as Hsz.
  assert (Hl := for_range_inv (fun i os' => flushMask os' <> None /\
    keeps (mem w) os v (fun v' => forall j, 0 <= j < i -> Q v' j) os')
    (body w) (Z.to_nat (os_size os)) 0 (new_flushMask os)).
  eapply returns_weaken; [apply Hl|].
  - split; [done|]. split; [done|]. exists v. split_and!; try done. intros j Hj. lia.
  - intros i os' Hi (Hm & Hf & v' & Hs' & Hc' & Hb & HQ). pose proof Hf as (_ & Est & Esz & _).
    assert (0 <= i < os_size os') by lia. rewrite <- Est, <- Esz in Hc', Hb.
    eapply returns_weaken; [by apply (body_ok os' v' w i)|].
    intros os'' (Hf' & v'' & Hs'' & Hc'' & Hb' & HQi & HQj). rewrite Est, Esz in *.
    split; [by apply Hf'|]. split; [by transitivity os'|]. exists v''. split_and!; try done.
    + by transitivity v'.
    + intros j Hj. destruct (Z.eq_dec j i) as [->|]; [done|]. apply HQj; [done|]. apply HQ. lia.
  - intros os' (_ & Hf & v' & Hs' & Hc' & Hb & HQ). split; [done|]. exists v'. split_and!; try done.
    intros i Hi. apply HQ. lia.
Qed.
End flush_loop.

Lemma flushRangeForRead_ok os v w :
  shows os v -> coherent (mem w) (concreteStore os) (os_size os) v ->
  returns (flushRangeForRead 0 (os_size os) w os)
    (keeps (mem w) os v (fun v' => forall i, 0 <= i < os_size os -> v_flush v' i = true)).
Proof.
  apply (flush_loop_ok flush_read_byte (fun v i => v_flush v i = true)).
  intros os' v' w' i Hs Hc Hi Hm. eapply returns_weaken; [by apply flush_read_byte_ok|].
  intros os'' (? & v'' & ? & ? & ? & Hfl). split; [done|]. exists v''. split_and!; try done.
  - rewrite Hfl. by rewrite Z.eqb_refl.
  - intros j Hj Hv. rewrite Hfl. by case_match.
Qed.

Lemma flushRangeForWrite_ok os v w :
  shows os v -> coherent (mem w) (concreteStore os) (os_size os) v ->
  returns (flushRangeForWrite 0 (os_size os) w os)
    (keeps (mem w) os v (fun v' => forall i, 0 <= i < os_size os ->
       v_flush v' i = true /\ v_conc v' i = false /\ v_known v' i = None)).
Proof.
  apply (flush_loop_ok flush_write_byte (fun v i => v_flush v i = true /\ v_conc v i = false /\ v_known v i = None)).
  intros os' v' w' i Hs Hc Hi Hm. eapply returns_weaken; [by apply flush_write_byte_ok|].
  intros os'' (? & v'' & ? & ? & ? & Hfl). split; [done|]. exists v''. split; [done|]. split; [done|].
  split; [done|]. split.
  - destruct (Hfl i) as (-> & -> & ->). by rewrite Z.eqb_refl.
  - intros j Hj Hv. destruct (Hfl j) as (-> & -> & ->). by rewrite (proj2 (Z.eqb_neq j i)).
Qed.

(** *** getUpdates *)

(** The writes oldest first. *)
Definition apply_write (rho : env) (i : Z) (acc : option Z) (p : expr * expr) : option Z :=
  j ← eval rho (fst p); if j =? i then eval rho (snd p) else acc.
Definition eval_list (rho : env) (base : option Z) (ws : list (expr * expr)) (i : Z) : option Z :=
  foldl (apply_write rho i) base ws.

Lemma eval_writes_list rho base un i : eval_writes rho base un i = eval_list rho base (writes_of un) i.
Proof.
  unfold eval_list. induction un as [|next IH ? ?] using UpdateNode_ind; simpl; [done|].
  by rewrite IH, foldl_app.
Qed.

Definition add_writes (ws : list (expr * expr)) (un : UpdateNode) : UpdateNode :=
  foldl (fun un p => Node un (fst p) (snd p)) un ws.

Lemma eval_add_writes rho base ws un i :
  eval_writes rho base (add_writes ws un) i = eval_list rho (eval_writes rho base un i) ws i.
Proof. revert un. induction ws as [|p ws IH]; intros un; [done|]. by apply IH. Qed.

Definition write_ok (size : Z) (p : expr * expr) : Prop :=
  wf (fst p) /\ wf (snd p) /\ getWidth (fst p) = Int32 /\ getWidth (snd p) = Int8 /\
  match fst p with ConstantExpr c => raw c < size | _ => True end.

Lemma writes_of_ok size un : wf_writes un -> writes_inside size un -> Forall (write_ok size) (writes_of un).
Proof.
  induction un as [|next IH ? ?] using UpdateNode_ind; simpl; [done|].
  intros (? & ? & ? & ? & ?) (? & ?). apply Forall_app. split; [auto|]. by repeat constructor.
Qed.

Lemma add_writes_wf size ws un : Forall (write_ok size) ws -> wf_writes un -> wf_writes (add_writes ws un).
Proof.
  intros H. revert un. induction H as [|p ws (? & ? & ? & ? & ?) Hws IH]; intros un Hun; [done|].
  apply IH. simpl. by split_and!.
Qed.

Lemma extend_all_ok size ws : forall os v n,
  shows os v -> root_ok n (v_root v) (v_head v) -> v_root v <> None -> Forall (write_ok size) ws ->
  yields (extend_all ws os) os (set_updates (v_root v) (add_writes ws (v_head v)) v).
Proof.
  induction ws as [|[i e] ws IH]; intros os v n Hs Hr Hn Hws; simpl.
  { apply returns_ok. split; [done|]. by eapply shows_ext. }
  inversion Hws as [|? ? (? & ? & ? & ? & ?) Hws']; subst. simpl in *.
  eapply yields_bind; [by eapply os_extend_ok|]. intros os' _ Hs'.
  apply (IH os' _ n Hs'); [|done|done]. simpl. by destruct (v_root v).
Qed.

(** The constants pulled into the array's initial contents stand for the writes. *)
Definition byte_consts (size : Z) (cs : list apint) : Prop :=
  Z.of_nat (length cs) = size /\ Forall (fun c => apok c /\ bw c = Int8) cs.

Lemma pull_writes_ok size ws : forall cs,
  Forall (write_ok size) ws -> byte_consts size cs ->
  returns (pull_writes ws cs) (fun p => byte_consts size (fst p) /\ Forall (write_ok size) (snd p) /\
    forall rho i, 0 <= i < size ->
    eval_list rho (raw <$> cs !! Z.to_nat i) ws i = eval_list rho (raw <$> fst p !! Z.to_nat i) (snd p) i).
Proof.
  induction ws as [|[idx e] ws IH]; intros cs Hws [Hlen Hcs]; [by apply returns_ok|].
  inversion Hws as [|? ? (Hwi & Hwe & Wi & We & Hin) Hws']; subst. simpl in Hwi, Hwe, Wi, We, Hin.
  assert (Hstop : returns (Ok (cs, (idx, e) :: ws)) (fun p => byte_consts (Z.of_nat (length cs)) (fst p) /\
    Forall (write_ok (Z.of_nat (length cs))) (snd p) /\ forall rho i, 0 <= i < Z.of_nat (length cs) ->
    eval_list rho (raw <$> cs !! Z.to_nat i) ((idx, e) :: ws) i =
    eval_list rho (raw <$> fst p !! Z.to_nat i) (snd p) i)) by (by apply returns_ok).
  destruct idx as [c| | | | | | | | |]; try exact Hstop. destruct e as [d| | | | | | | | |]; try exact Hstop.
  clear Hstop. simpl in Hwi, Hwe, Wi, We. simpl. unfold CE_getZExtValue.
  rewrite massert_true by (rewrite Wi; done). cbn [mbind result_bind].
  rewrite ap_getZExtValue_spec by (done || (rewrite Wi; done)). destruct Hwi as [_ [Hc0 _]].
  destruct (lookup_lt_is_Some_2 cs (Z.to_nat (raw c))) as [x Hx]; [lia|].
  rewrite (or_fail_Some _ x Hx). cbn [mbind result_bind].
  eapply returns_weaken; [apply IH|].
  - done.
  - split; [by rewrite length_insert|]. by apply Forall_insert.
  - intros p (? & ? & Hev). split_and!; try done. intros rho i Hi. rewrite <- Hev by done.
    unfold eval_list. cbn [foldl]. f_equal. unfold apply_write. simpl.
    destruct (Z.eqb_spec (raw c) i) as [<-|N].
    + by rewrite list_lookup_insert_eq by (by eapply lookup_lt_Some).
    + by rewrite list_lookup_insert_ne by lia.
Qed.

(** The layers after the array has been created: the same, over another array. *)
Definition rebased (size : Z) (v v' : view) : Prop :=
  v_conc v' = v_conc v /\ v_flush v' = v_flush v /\ v_known v' = v_known v /\
  forall rho i, 0 <= i < size -> written rho (v_root v') (v_head v') i = written rho (v_root v) (v_head v) i.

Lemma rebased_same m s size v v' : rebased size v v' -> same_bytes m s size v v'.
Proof. intros (Hc & _ & Hk & Hw) rho i Hi. unfold vbyte. by rewrite Hc, Hk, Hw. Qed.

Lemma rebased_coherent m s size v v' :
  coherent m s size v -> rebased size v v' -> root_ok size (v_root v') (v_head v') -> wf_writes (v_head v') ->
  coherent m s size v'.
Proof.
  intros Hc Hr Hrt Hw. pose proof (rebased_same m s size v v' Hr) as Hs. destruct Hr as (Ec & Ef & Ek & Ew).
  constructor; rewrite ?Ec, ?Ef, ?Ek; try apply Hc; try done.
  intros i Hi Hf rho. rewrite (Hs rho i Hi), Ew by done. by apply Hc.
Qed.

(** The array [getUpdates] makes holds the constants. *)
Lemma World_CreateArray_const nm size cs w :
  byte_consts size cs -> 0 < size < 2 ^ 32 ->
  returns (World_CreateArray nm size cs w) (fun p => mem (snd p) = mem w /\ wf_array (fst p) /\
    domain (fst p) = Int32 /\ range (fst p) = Int8 /\
    forall rho i, 0 <= i < size -> initial rho (fst p) i = raw <$> cs !! Z.to_nat i).
Proof.
  intros [Hlen Hcs] Hs. unfold World_CreateArray, CreateArray, Array_new.
  destruct (create (ac_uf (arrays w)) (new_address w)) as [ufe uf].
  destruct (if useCheatCons then create (ac_uf_cheat (arrays w)) (new_address w) else _) as [ufec ufc].
  destruct cs as [|c cs]; [simpl in Hlen; lia|]. cbn [isSymbolicArray constantValues orb].
  rewrite (proj2 (Z.eqb_eq _ _) Hlen). cbn [massert mbind result_bind].
  rewrite massert_true.
  2:{ apply forallb_forall. intros x Hx. apply Z.eqb_eq.
      rewrite Forall_forall in Hcs. apply Hcs. by apply list_elem_of_In. }
  cbn [mbind result_bind isSymbolicArray constantValues isConstantArray negb massert fst snd].
  apply returns_ok. cbn [fst snd mem]. split_and!; try done.
  - unfold wf_array. cbn [domain range arr_size constantValues]. unfold Int32, Int8. split_and!; try lia. by right.
  - intros rho i Hi. unfold initial. cbn [isSymbolicArray constantValues arr_size].
    by rewrite (proj2 (Z.ltb_lt _ _)) by lia.
Qed.

Lemma getUpdates_ok os v w :
  shows os v -> coherent (mem w) (concreteStore os) (os_size os) v ->
  returns (getUpdates os w) (fun p => let '(ul, os', w') := p in mem w' = mem w /\
    keeps (mem w) os v (fun v' => rebased (os_size os) v v' /\
      v_root v' = Some (ul_root ul) /\ v_head v' = ul_head ul) os').
Proof.
  intros Hs Hc. pose proof (sh_size _ _ Hs) as Hsz. unfold getUpdates. pose proof (co_root _ _ _ _ Hc) as Hr.
  rewrite (sh_root _ _ Hs), (sh_head _ _ Hs). destruct (v_root v) as [a|] eqn:Er.
  { apply returns_ok. split; [done|]. split; [done|]. by exists v. }
  simpl in Hr. rewrite create8_eq by (apply inw_0; lia). cbn [mbind result_bind].
  pose proof (writes_of_ok _ _ (co_writes _ _ _ _ Hc) Hr) as Hws.
  eapply returns_bind; [apply (pull_writes_ok (os_size os)); [exact Hws|]|].
  { split; [rewrite length_replicate; lia|]. apply Forall_replicate. split; [|done].
    apply const_apok; [done|by apply inw_0]. }
  intros [cs rest] (Hcs & Hrest & Hev). simpl in Hcs, Hrest, Hev.
  eapply returns_bind; [apply World_CreateArray_const; [exact Hcs|lia]|].
  intros [array w'] (Hmem & Hwa & Hd & Hrg & Hinit). simpl in Hmem, Hwa, Hd, Hrg, Hinit.
  set (v0 := set_updates (Some array) NullNode v). set (v1 := set_updates (Some array) (add_writes rest NullNode) v).
  assert (Hreb : rebased (os_size os) v v1).
  { unfold rebased. split_and!; try done. intros rho i Hi. unfold written, v1. cbn [set_updates v_root v_head base_byte].
    rewrite eval_add_writes, Er. cbn [eval_writes base_byte]. rewrite Hinit, <- Hev, eval_writes_list by done.
    by rewrite lookup_replicate_2 by lia. }
  assert (Hwf : wf_writes (v_head v1)) by (by eapply add_writes_wf).
  destruct (with_updates_ok os v Hs (Some array) NullNode) as [Hf0 Hs0].
  eapply returns_bind; [eapply (extend_all_ok _ rest _ v0 (os_size os)); try done|].
  intros os' [Hf1 Hs1]. apply returns_ok. split; [done|]. split; [by transitivity (with_updates (Some array) NullNode os)|].
  exists v1. split_and!; try done.
  - eapply rebased_coherent; [exact Hc|done|by split_and!|done].
  - by apply rebased_same.
  - simpl. symmetry. apply (sh_head _ _ Hs1).
Qed.

(** ** Reading and writing bytes *)

(** What an operation that only reads leaves: the invariants, the memory and every
    byte. *)
Definition unchanged (os : ObjectState) (w : World) (os' : ObjectState) (w' : World) : Prop :=
  frame os os' /\ os_ok os' (mem w') /\ mem w' = mem w /\
  forall rho i, 0 <= i < os_size os -> contents rho os' (mem w') i = contents rho os (mem w) i.

Lemma keeps_unchanged os v w os' w' P :
  shows os v -> mem w' = mem w -> keeps (mem w) os v P os' -> unchanged os w os' w'.
Proof.
  intros Hs Hm (Hf & v' & Hs' & Hc' & Hb & _). pose proof Hf as (_ & Est & Esz & _). split; [done|].
  split; [exists v'; by rewrite Hm, Est, Esz|]. split; [done|]. intros rho i Hi.
  rewrite (contents_view rho os v), (contents_view rho os' v'), Est, Hm by (done || lia). by apply Hb.
Qed.

Lemma unchanged_refl os w : os_ok os (mem w) -> unchanged os w os w.
Proof. intros H. split; [done|]. split; [exact H|]. by split. Qed.

Lemma unchanged_trans os w os1 w1 os2 w2 :
  unchanged os w os1 w1 -> unchanged os1 w1 os2 w2 -> unchanged os w os2 w2.
Proof.
  intros (Hf & _ & Hm & Hb) (Hf' & Ho & Hm' & Hb'). split_and!; [by transitivity os1|done|congruence|].
  intros rho i Hi. rewrite Hb', Hb; [done|done|]. destruct Hf as (_ & _ & -> & _). done.
Qed.

(** The expression read stands for the byte. *)
Definition byte_expr (os : ObjectState) (w : World) (i : Z) (e : expr) : Prop :=
  wf e /\ getWidth e = Int8 /\ forall rho x, contents rho os (mem w) i = Some x -> eval rho e = Some x.

Lemma read8_ok os w i :
  os_ok os (mem w) -> 0 <= i < os_size os ->
  returns (read8 i os w) (fun p => let '(e, os', w') := p in
    byte_expr os w i e /\ unchanged os w os' w').
Proof.
  intros (v & Hs & Hc) Hi. pose proof (sh_size _ _ Hs) as Hsz. unfold read8, byte_expr.
  rewrite (sh_conc _ _ Hs), (sh_known _ _ Hs), (sh_flush _ _ Hs) by done. cbn [mbind result_bind].
  assert (Hu : unchanged os w os w) by (apply unchanged_refl; by exists v).
  destruct (v_conc v i) eqn:E.
  { unfold concreteByte. pose proof (co_mem _ _ _ _ Hc i Hi). rewrite create8_eq by done.
    cbn [mbind result_bind]. apply returns_ok. split; [|exact Hu]. split; [by apply const_apok|]. split; [done|].
    intros rho x. rewrite (contents_view rho os v) by done. unfold vbyte. by rewrite E. }
  destruct (v_known v i) as [e|] eqn:Ek.
  { destruct (co_known _ _ _ _ Hc i e Hi Ek) as (? & ? & _). apply returns_ok. split; [|exact Hu].
    split; [done|]. split; [done|]. intros rho x. rewrite (contents_view rho os v) by done. unfold vbyte. by rewrite E, Ek. }
  apply returns_assert.
  { destruct (v_flush v i) eqn:Ef; [done|]. destruct (co_unflushed _ _ _ _ Hc i Hi Ef); congruence. }
  eapply returns_bind; [by apply getUpdates_ok|]. intros [[ul os'] w'] (Hm & Hk).
  pose proof (keeps_unchanged _ _ _ _ _ _ Hs Hm Hk) as Hu'.
  destruct Hk as (Hf & v' & Hs' & Hc' & Hb & Hreb & Er & Eh).
  rewrite create32_eq by lia. cbn [mbind result_bind].
  pose proof (co_root _ _ _ _ Hc') as Hr. rewrite Er in Hr. destruct Hr as (Hwa & Hd & Hrg).
  destruct (ReadExpr_create_builds ul (ConstantExpr (APInt Int32 i))) as (e & -> & He & We & Re).
  { simpl. split_and!; try done.
    - rewrite <- Eh. apply wf_node_writes; [done|done|apply Hc'].
    - apply const_apok; [done|unfold inw, Int32; lia]. }
  cbn [mbind result_bind]. apply returns_ok. split; [|exact Hu']. split; [done|].
  split; [simpl in We; congruence|]. intros rho x. rewrite (contents_view rho os v) by done. unfold vbyte. rewrite E, Ek.
  intros Hx. apply Re. change (eval_node rho (ul_root ul) (ul_head ul) i = Some x). rewrite eval_node_writes.
  destruct Hreb as (_ & _ & _ & Hw). rewrite <- (Hw rho i Hi), Er, Eh in Hx. exact Hx.
Qed.

(** The masks at offset [j] are the same. *)
Definition same_flags (os os' : ObjectState) (j : Z) : Prop :=
  isByteConcrete os' j = isByteConcrete os j /\ isByteFlushed os' j = isByteFlushed os j.

(** The byte [i] is [x] now, not flushed, and in the concrete store when [c] says so.
    The bytes at other offsets are as they were, and so is the other memory. *)
Record replaces (os : ObjectState) (w : World) (i : Z) (c : bool) (x : env -> option Z)
    (os' : ObjectState) (w' : World) : Prop := {
  rp_frame : frame os os';
  rp_ok : os_ok os' (mem w');
  rp_contents rho j : 0 <= j < os_size os ->
    contents rho os' (mem w') j = if j =? i then x rho else contents rho os (mem w) j;
  rp_mem a : a <> concreteStore os + i -> mem w' a = mem w a;
  rp_conc : isByteConcrete os' i = Ok c;
  rp_flush : isByteFlushed os' i = Ok false;
  rp_flags j : j <> i -> 0 <= j < os_size os -> same_flags os os' j;
}.

(** A byte is put in the store or in the cache of known bytes, unflushed. *)
Lemma put_coherent m m' s size v v' i :
  coherent m s size v -> 0 <= i < size ->
  (forall j, j <> i -> v_conc v' j = v_conc v j /\ v_flush v' j = v_flush v j /\ v_known v' j = v_known v j) ->
  (forall j, j <> i -> m' (s + j) = m (s + j)) ->
  v_root v' = v_root v -> v_head v' = v_head v -> v_flush v' i = false -> inw 8 (m' (s + i)) ->
  (v_conc v' i = true /\ v_known v' i = None \/
   v_conc v' i = false /\ exists e, v_known v' i = Some e /\ wf e /\ getWidth e = Int8) ->
  coherent m' s size v' /\
  (forall rho j, j <> i -> vbyte rho v' m' s j = vbyte rho v m s j).
Proof.
  intros Hc Hi Hv Hm Er Eh Hf Hb Hcase.
  assert (Hother : forall rho j, j <> i -> vbyte rho v' m' s j = vbyte rho v m s j).
  { intros rho j N. unfold vbyte. destruct (Hv j N) as (-> & _ & ->). by rewrite Hm, Er, Eh. }
  split; [|done]. constructor.
  - intros j Hj. destruct (Z.eq_dec j i) as [->|N]; [done|]. rewrite Hm by done. by apply Hc.
  - intros j e Hj Hk. destruct (Z.eq_dec j i) as [->|N].
    + destruct Hcase as [[? ?]|[? (? & ? & ? & ?)]]; [congruence|]. split_and!; congruence.
    + destruct (Hv j N) as (Ec & _ & Ek). rewrite Ek in Hk. rewrite Ec. by apply (co_known _ _ _ _ Hc).
  - intros j Hj Hfj. destruct (Z.eq_dec j i) as [->|N].
    + destruct Hcase as [[? ?]|[? (? & ? & ? & ?)]]; [by left|right; congruence].
    + destruct (Hv j N) as (-> & Ef & ->). rewrite Ef in Hfj. by apply Hc.
  - intros j Hj Hfj rho. destruct (Z.eq_dec j i) as [->|N]; [congruence|].
    destruct (Hv j N) as (_ & Ef & _). rewrite Ef in Hfj. rewrite Hother, Er, Eh by done. by apply Hc.
  - rewrite Er, Eh. apply Hc.
  - rewrite Eh. apply Hc.
Qed.

(** The masks of a state of which only the byte [i] was marked. *)
Lemma shows_flags os v os' v' i c :
  shows os v -> shows os' v' -> os_size os' = os_size os -> 0 <= i < os_size os ->
  (forall j, j <> i -> v_conc v' j = v_conc v j /\ v_flush v' j = v_flush v j) ->
  v_conc v' i = c -> v_flush v' i = false ->
  isByteConcrete os' i = Ok c /\ isByteFlushed os' i = Ok false /\
  (forall j, j <> i -> 0 <= j < os_size os -> same_flags os os' j).
Proof.
  intros Hs Hs' Esz Hi Hv Hc Hf. rewrite (sh_conc _ _ Hs'), (sh_flush _ _ Hs'), Hc, Hf by lia.
  split_and!; try done. intros j N Hj. unfold same_flags.
  rewrite (sh_conc _ _ Hs'), (sh_conc _ _ Hs), (sh_flush _ _ Hs'), (sh_flush _ _ Hs) by lia.
  by destruct (Hv j N) as [-> ->].
Qed.

Lemma write8_byte_ok os w i x :
  os_ok os (mem w) -> 0 <= i < os_size os ->
  returns (write8_byte i x os w) (fun p => replaces os w i true (fun _ => Some (x mod 256)) (fst p) (snd p)).
Proof.
  intros (v & Hs & Hc) Hi. unfold write8_byte. set (m' := store8 (mem w) (concreteStore os + i) (x mod 256)).
  set (v' := set_flush i false (set_conc i true (set_known i None v))).
  assert (Hy : yields (os ← setKnownSymbolic i None os; os ← markByteConcrete i os; markByteUnflushed i os) os v').
  { eapply yields_bind; [by apply setKnownSymbolic_ok|]. intros os1 (_ & _ & E1 & _) Hs1.
    eapply yields_bind; [apply markByteConcrete_ok; [done|lia]|]. intros os2 (_ & _ & E2 & _) Hs2.
    apply markByteUnflushed_ok; [done|lia]. }
  assert (Hm : forall a, a <> concreteStore os + i -> m' a = mem w a).
  { intros a Ha. unfold m', store8. by rewrite (proj2 (Z.eqb_neq _ _) Ha). }
  destruct (put_coherent (mem w) m' (concreteStore os) (os_size os) v v' i) as [Hc' Hb]; try done.
  { intros j N. simpl. by rewrite !upd_ne. }
  { intros j N. apply Hm. lia. }
  { simpl. apply upd_eq. }
  { unfold m', store8. rewrite Z.eqb_refl. apply (wrap_inw 8 x). lia. }
  { left. simpl. by rewrite !upd_eq. }
  eapply returns_weaken with (P := fun p => frame os (fst p) /\ shows (fst p) v' /\ mem (snd p) = m').
  { destruct Hy as (os' & Hy & Hf & Hs'). exists (os', with_mem m' w). split; [|done].
    destruct (setKnownSymbolic i None os) as [os1| |]; [|done|done]. cbn [mbind result_bind] in *.
    destruct (markByteConcrete i os1) as [os2| |]; [|done|done]. cbn [mbind result_bind] in *. by rewrite Hy. }
  intros [os' w'] (Hf & Hs' & Em). simpl in *. pose proof Hf as (_ & Est & Esz & _).
  destruct (shows_flags os v os' v' i true Hs Hs' Esz Hi) as (? & ? & ?);
    [intros j N; simpl; by rewrite !upd_ne|simpl; by rewrite upd_eq..|].
  constructor; [done| | | |done|done|done].
  - exists v'. by rewrite Em, Est, Esz.
  - intros rho j Hj. rewrite (contents_view rho os v), (contents_view rho os' v'), Est, Em by (done || lia).
    destruct (Z.eqb_spec j i) as [->|N]; [|by apply Hb].
    unfold vbyte. simpl. rewrite upd_eq. unfold m', store8. by rewrite Z.eqb_refl.
  - intros a Ha. rewrite Em. by apply Hm.
Qed.

Lemma write8AsExpr_ok os w i e :
  os_ok os (mem w) -> 0 <= i < os_size os -> wf e -> getWidth e = Int8 ->
  returns (write8AsExpr i e os) (fun os' => replaces os w i false (fun rho => eval rho e) os' w).
Proof.
  intros (v & Hs & Hc) Hi He We. unfold write8AsExpr.
  set (v' := set_flush i false (set_conc i false (set_known i (Some e) v))).
  eapply returns_weaken with (P := fun os' => frame os os' /\ shows os' v').
  { eapply yields_bind; [by apply setKnownSymbolic_ok|]. intros os1 (_ & _ & E1 & _) Hs1.
    eapply yields_bind; [apply markByteSymbolic_ok; [done|lia]|]. intros os2 (_ & _ & E2 & _) Hs2.
    apply markByteUnflushed_ok; [done|lia]. }
  intros os' (Hf & Hs'). pose proof Hf as (_ & Est & Esz & _).
  destruct (put_coherent (mem w) (mem w) (concreteStore os) (os_size os) v v' i) as [Hc' Hb]; try done.
  { intros j N. simpl. by rewrite !upd_ne. }
  { simpl. apply upd_eq. }
  { by apply Hc. }
  { right. simpl. rewrite !upd_eq. eauto. }
  destruct (shows_flags os v os' v' i false Hs Hs' Esz Hi) as (? & ? & ?);
    [intros j N; simpl; by rewrite !upd_ne|simpl; by rewrite upd_eq..|].
  constructor; [done| | |done|done|done|done].
  - exists v'. by rewrite Est, Esz.
  - intros rho j Hj. rewrite (contents_view rho os v), (contents_view rho os' v'), Est by (done || lia).
    destruct (Z.eqb_spec j i) as [->|N]; [|by apply Hb]. unfold vbyte. simpl. by rewrite !upd_eq.
Qed.

Lemma write8_ok os w i e :
  os_ok os (mem w) -> 0 <= i < os_size os -> wf e -> getWidth e = Int8 ->
  returns (write8 i e os w) (fun p => replaces os w i (isConst e) (fun rho => eval rho e) (fst p) (snd p)).
Proof.
  intros Hok Hi He We.
  assert (Hsym : returns (os' ← write8AsExpr i e os; Ok (os', w))
    (fun p => replaces os w i false (fun rho => eval rho e) (fst p) (snd p))).
  { eapply returns_bind; [by apply write8AsExpr_ok|]. intros os' Hr. by apply returns_ok. }
  destruct e as [c| | | | | | | | |]; try exact Hsym. simpl in He, We. unfold write8, CE_getZExtValue.
  rewrite massert_true by (rewrite We; done). cbn [mbind result_bind].
  rewrite ap_getZExtValue_spec by (done || (rewrite We; done)).
  eapply returns_weaken; [by apply write8_byte_ok|]. intros [os' w'] [? ? Hr ? ? ? ?]. constructor; try done.
  intros rho j Hj. rewrite Hr by done. simpl. destruct He as [_ Hx]. rewrite We in Hx.
  by rewrite Z.mod_small.
Qed.

(** *** At a symbolic offset *)
Lemma ZExt_same e w : getWidth e = w -> ZExtExpr_create e w = Ok e.
Proof. intros <-. unfold ZExtExpr_create. by rewrite Z.eqb_refl. Qed.

Lemma read8_sym_ok os w offset :
  os_ok os (mem w) -> isConst offset = false -> wf offset -> getWidth offset = Int32 ->
  returns (read8_sym offset os w) (fun p => let '(e, os', w') := p in
    wf e /\ getWidth e = Int8 /\ unchanged os w os' w' /\
    forall rho i x, eval rho offset = Some i -> 0 <= i < os_size os ->
      contents rho os (mem w) i = Some x -> eval rho e = Some x).
Proof.
  intros (v & Hs & Hc) Hn Ho Wo. unfold read8_sym. rewrite Hn. cbn [negb massert mbind result_bind fastRangeCheckOffset].
  eapply returns_bind; [by apply flushRangeForRead_ok|]. intros os1 Hk1.
  pose proof (keeps_unchanged _ _ _ _ w _ Hs eq_refl Hk1) as Hu1.
  destruct Hk1 as (Hf1 & v1 & Hs1 & Hc1 & Hb1 & Hfl1). pose proof Hf1 as (_ & Est & Esz & _).
  rewrite <- Est, <- Esz in Hc1.
  eapply returns_bind; [by apply getUpdates_ok|]. intros [[ul os2] w2] (Hm & Hk2).
  pose proof (keeps_unchanged _ _ _ _ _ _ Hs1 Hm Hk2) as Hu2.
  destruct Hk2 as (Hf2 & v2 & Hs2 & Hc2 & Hb2 & Hreb & Er & Eh). rewrite Est, Esz in *.
  rewrite (ZExt_same offset Int32 Wo). cbn [mbind result_bind].
  pose proof (co_root _ _ _ _ Hc2) as Hr. rewrite Er in Hr. destruct Hr as (Hwa & Hd & Hrg).
  destruct (ReadExpr_create_builds ul offset) as (e & -> & He & We & Re).
  { simpl. split_and!; try done; [|congruence]. rewrite <- Eh. apply wf_node_writes; [done|done|apply Hc2]. }
  cbn [mbind result_bind]. apply returns_ok. split; [done|]. split; [simpl in We; congruence|].
  split; [by eapply unchanged_trans|].
  intros rho i x Ei Hi. rewrite (contents_view rho os v), <- (Hb1 rho i Hi) by done.
  rewrite <- (co_flushed _ _ _ _ Hc1) by auto. destruct Hreb as (_ & _ & _ & Hw).
  rewrite <- (Hw rho i Hi), Er, Eh. intros Hx. apply Re. simpl. rewrite Ei.
  change (eval_node rho (ul_root ul) (ul_head ul) i = Some x). rewrite eval_node_writes. exact Hx.
Qed.

(** The byte the offset evaluates to is replaced, whichever it is. *)
Record replaces_at (os : ObjectState) (w : World) (offset value : expr) (os' : ObjectState) (w' : World) : Prop := {
  ra_frame : frame os os';
  ra_ok : os_ok os' (mem w');
  ra_contents rho j : 0 <= j < os_size os ->
    contents rho os' (mem w') j =
      (i ← eval rho offset; if i =? j then eval rho value else contents rho os (mem w) j);
  ra_mem : mem w' = mem w;
}.

Lemma write8_sym_ok os w offset value :
  os_ok os (mem w) -> isConst offset = false -> wf offset -> getWidth offset = Int32 ->
  wf value -> getWidth value = Int8 ->
  returns (write8_sym offset value os w) (fun p => replaces_at os w offset value (fst p) (snd p) /\
    forall j, 0 <= j < os_size os -> isByteConcrete (fst p) j = Ok false).
Proof.
  intros (v & Hs & Hc) Hn Ho Wo Hv Wv. unfold write8_sym. rewrite Hn.
  cbn [negb massert mbind result_bind fastRangeCheckOffset].
  eapply returns_bind; [by apply flushRangeForWrite_ok|]. intros os1 Hk1.
  destruct Hk1 as (Hf1 & v1 & Hs1 & Hc1 & Hb1 & Hfl1). pose proof Hf1 as (_ & Est & Esz & _).
  rewrite (ZExt_same offset Int32 Wo). cbn [mbind result_bind].
  eapply returns_bind; [apply (os_extend_ok os1 v1 _ _ (os_size os)); [done|apply Hc1|done|done]|].
  intros os2 [Hf2 Hs2]. apply returns_ok. pose proof Hf2 as (_ & Est2 & Esz2 & _). rewrite Est, Esz in *.
  assert (Hbyte : forall rho j, 0 <= j < os_size os ->
    vbyte rho (set_updates (v_root v1) (Node (v_head v1) offset value) v1) (mem w) (concreteStore os) j =
    (i ← eval rho offset; if i =? j then eval rho value else contents rho os (mem w) j)).
  { intros rho j Hj. rewrite (contents_view rho os v), <- (Hb1 rho j Hj) by done. unfold vbyte. simpl.
    destruct (Hfl1 j Hj) as (_ & -> & ->). done. }
  split.
  - constructor; simpl; [by transitivity os1| |intros rho j Hj; rewrite <- Hbyte, <- Est2 by done; apply contents_view; done || lia|done].
    eexists. split; [exact Hs2|]. rewrite Est2, Esz2. constructor; simpl.
    + apply Hc1.
    + apply Hc1.
    + apply Hc1.
    + intros j Hj _ rho. unfold vbyte. simpl. by destruct (Hfl1 j Hj) as (_ & -> & ->).
    + pose proof (co_root _ _ _ _ Hc1) as Hr. destruct (v_root v1); simpl in *; [done|]. by destruct offset.
    + split_and!; try done. apply Hc1.
  - intros j Hj. simpl. rewrite (sh_conc _ _ Hs2) by lia. simpl. by destruct (Hfl1 j Hj) as (_ & -> & _).
Qed.

(** ** Constructors *)
Lemma memset_spec v n : forall m a b,
  memset m a v n b = if (a <=? b) && (b <? a + Z.of_nat n) then v else m b.
Proof.
  induction n as [|n IH]; intros m a b; cbn [memset].
  - destruct (Z.leb_spec a b), (Z.ltb_spec b (a + Z.of_nat 0)); try done; lia.
  - rewrite IH. unfold store8. destruct (Z.leb_spec (a + 1) b), (Z.ltb_spec b (a + 1 + Z.of_nat n)),
      (Z.leb_spec a b), (Z.ltb_spec b (a + Z.of_nat (S n))), (Z.eqb_spec b a); cbn [andb]; try done; lia.
Qed.

Lemma memset_in m a v n i : 0 <= i < Z.of_nat n -> memset m a v n (a + i) = v.
Proof. intros. rewrite memset_spec. by rewrite (proj2 (Z.leb_le _ _)), (proj2 (Z.ltb_lt _ _)) by lia. Qed.

Lemma memcpy_spec n : forall m dst src b,
  (dst + Z.of_nat n <= src \/ src + Z.of_nat n <= dst) ->
  memcpy m dst src n b = if (dst <=? b) && (b <? dst + Z.of_nat n) then m (src + (b - dst)) else m b.
Proof.
  induction n as [|n IH]; intros m dst src b Hd; cbn [memcpy].
  - destruct (Z.leb_spec dst b), (Z.ltb_spec b (dst + Z.of_nat 0)); try done; lia.
  - rewrite IH by lia. unfold store8.
    destruct (Z.leb_spec (dst + 1) b), (Z.ltb_spec b (dst + 1 + Z.of_nat n)), (Z.leb_spec dst b),
      (Z.ltb_spec b (dst + Z.of_nat (S n))), (Z.eqb_spec b dst); cbn [andb]; try lia; try done.
    + destruct (Z.eqb_spec (src + 1 + (b - (dst + 1))) dst); [lia|]. f_equal. lia.
    + subst. f_equal. lia.
Qed.

(** Every byte concrete: the object after [makeConcrete] or its construction. *)
Definition concrete_view (root : option Array) (head : UpdateNode) : view :=
  View (fun _ => true) (fun _ => false) (fun _ => None) root head.

Lemma all_concrete_ok os m :
  concreteMask os = None -> flushMask os = None -> knownSymbolics os = None ->
  0 < os_size os < 2 ^ 32 - 31 -> root_ok (os_size os) (upd_root os) (upd_head os) -> wf_writes (upd_head os) ->
  (forall i, 0 <= i < os_size os -> inw 8 (m (concreteStore os + i))) ->
  os_ok os m /\ forall rho i, contents rho os m i = Some (m (concreteStore os + i)).
Proof.
  intros Hc Hf Hk Hs Hr Hw Hm. split.
  - exists (concrete_view (upd_root os) (upd_head os)). split; constructor; try done.
    + by rewrite Hc.
    + by rewrite Hf.
    + by rewrite Hk.
    + intros i _. unfold isByteConcrete. by rewrite Hc.
    + intros i _. unfold isByteFlushed. by rewrite Hf.
    + intros i _. unfold knownSymbolic. by rewrite Hk.
    + by left.
  - intros rho i. unfold contents, isByteConcrete. by rewrite Hc.
Qed.

Lemma ObjectState_new_ok mo heap w :
  UseConstantArrays = true -> 0 < mo_size mo < 2 ^ 32 - 31 ->
  returns (ObjectState_new mo false heap w) (fun p => let '(os, w') := p in
    os_ok os (mem w') /\ os_size os = mo_size mo /\ concreteStore os = heap /\
    forall rho i, 0 <= i < mo_size mo -> contents rho os (mem w') i = Some 0).
Proof.
  intros Hu Hs. unfold ObjectState_new. rewrite Hu. cbn [mbind result_bind]. apply returns_ok.
  destruct (all_concrete_ok (blank mo heap None) (memset (mem w) heap 0 (Z.to_nat (mo_size mo)))) as [Hok Hc]; try done.
  { simpl. intros i Hi. rewrite memset_in by lia. by apply inw_0. }
  simpl. split_and!; try done. intros rho i Hi. rewrite Hc. simpl. by rewrite memset_in by lia.
Qed.

Lemma makeConcrete_ok os m v :
  shows os v -> root_ok (os_size os) (v_root v) (v_head v) -> wf_writes (v_head v) ->
  (forall i, 0 <= i < os_size os -> inw 8 (m (concreteStore os + i))) ->
  os_ok (makeConcrete os) m /\ forall rho i, contents rho (makeConcrete os) m i = Some (m (concreteStore os + i)).
Proof.
  intros Hs Hr Hw Hm. apply (all_concrete_ok (makeConcrete os) m); simpl; try done.
  - apply Hs.
  - by rewrite (sh_root _ _ Hs), (sh_head _ _ Hs).
  - by rewrite (sh_head _ _ Hs).
Qed.

Lemma fill_ok os m b :
  os_ok os m -> inw 8 b -> let m' := memset m (concreteStore os) b (Z.to_nat (os_size os)) in
  os_ok (makeConcrete os) m' /\ forall rho i, 0 <= i < os_size os -> contents rho (makeConcrete os) m' i = Some b.
Proof.
  intros (v & Hs & Hc) Hb m'.
  assert (Hm : forall i, 0 <= i < os_size os -> m' (concreteStore os + i) = b).
  { intros i Hi. apply memset_in. lia. }
  destruct (makeConcrete_ok os m' v) as [? Hx]; [done|apply Hc|apply Hc|intros i Hi; by rewrite Hm|].
  split; [done|]. intros rho i Hi. by rewrite Hx, Hm.
Qed.

(** Once a flush mask exists a byte is marked alone; the first mark covers all. *)
Lemma markByteFlushed_ok os v i :
  shows os v -> 0 <= i < os_size os ->
  exists f, yields (markByteFlushed i os) os (View (v_conc v) f (v_known v) (v_root v) (v_head v)) /\
    f i = true /\ forall j, v_flush v j = true -> f j = true.
Proof.
  intros Hs Hi. unfold markByteFlushed. destruct (flushMask os) as [b|] eqn:E.
  - exists (upd i true (v_flush v)). split_and!; [|apply upd_eq|].
    + pose proof (flush_unset_ok os v Hs i Hi) as H. unfold flush_unset in H. rewrite E in H. by apply H.
    + intros j Hj. unfold upd. by case_match.
  - exists (fun _ => true). split_and!; try done. apply returns_ok.
    destruct Hs as [? ? ? ? ? ? ? ? ?]. split; [done|]. constructor; simpl; try done.
    + by apply mask_create.
    + intros j Hj. unfold isByteFlushed. simpl. by rewrite BitArray.create_get by lia.
Qed.

Lemma makeSymbolic_ok os v :
  shows os v -> v_head v = NullNode ->
  exists v', yields (makeSymbolic os) os v' /\ v_root v' = v_root v /\ v_head v' = NullNode /\
    forall j, 0 <= j < os_size os -> v_conc v' j = false /\ v_flush v' j = true /\ v_known v' j = None.
Proof.
  intros Hs Hh. unfold makeSymbolic. rewrite (sh_head _ _ Hs), Hh. cbn [massert mbind result_bind].
  pose proof (sh_size _ _ Hs) as Hsz.
  assert (Hl := for_range_inv (fun i os' => frame os os' /\ exists v', shows os' v' /\
    v_root v' = v_root v /\ v_head v' = NullNode /\
    forall j, 0 <= j < i -> v_conc v' j = false /\ v_flush v' j = true /\ v_known v' j = None)
    makeSymbolic_byte (Z.to_nat (os_size os)) 0 os).
  destruct Hl as (os' & Hl & Hf & v' & Hs' & Hr' & Hh' & Hj).
  - split; [done|]. exists v. split_and!; try done. intros j Hj. lia.
  - intros i os1 Hi (Hf & v1 & Hs1 & Hr1 & Hh1 & Hj1). pose proof Hf as (_ & _ & Esz & _).
    unfold makeSymbolic_byte. eapply returns_bind; [apply markByteSymbolic_ok; [exact Hs1|lia]|].
    intros os2 [Hf2 Hs2]. pose proof Hf2 as (_ & _ & Esz2 & _).
    eapply returns_bind; [apply setKnownSymbolic_ok; [exact Hs2|lia]|].
    intros os3 [Hf3 Hs3]. pose proof Hf3 as (_ & _ & Esz3 & _).
    destruct (markByteFlushed_ok os3 _ i Hs3) as (f & Hy & Hfi & Hfj); [lia|].
    eapply returns_weaken; [exact Hy|]. intros os4 [Hf4 Hs4].
    split; [by transitivity os3; [transitivity os2; [by transitivity os1|]|]|].
    eexists. split; [exact Hs4|]. simpl. split_and!; try done. intros j Hj. unfold upd.
    destruct (Z.eqb_spec j i) as [->|]; [done|].
    destruct (Hj1 j ltac:(lia)) as (? & ? & ?). split_and!; auto.
  - exists v'. rewrite Hl. split_and!; try done.
    + by apply returns_ok.
    + intros j ?. apply Hj. lia.
Qed.

Lemma ObjectState_symbolic_ok mo array forTASE heap w :
  0 < mo_size mo < 2 ^ 32 - 31 -> wf_array array -> domain array = Int32 -> range array = Int8 ->
  returns (ObjectState_symbolic mo array forTASE heap w) (fun p => let '(os, w') := p in
    os_ok os (mem w') /\ os_size os = mo_size mo /\
    forall rho i, 0 <= i < mo_size mo ->
      contents rho os (mem w') i = initial rho array i /\ isByteConcrete os i = Ok false).
Proof.
  intros Hsz Ha Hd Hr. unfold ObjectState_symbolic. set (store := if forTASE then _ else _).
  set (os := blank mo store (Some array)). set (m' := memset _ _ _ _).
  assert (Hs : shows os (concrete_view (Some array) NullNode)) by (by constructor).
  destruct (makeSymbolic_ok os _ Hs eq_refl) as (v' & (os' & -> & Hf & Hs') & Er & Eh & Hj).
  cbn [mbind result_bind]. apply returns_ok. pose proof Hf as (_ & Est & Esz & _). simpl in Esz, Est.
  assert (Hb : forall rho i, 0 <= i < mo_size mo -> vbyte rho v' m' (concreteStore os') i = initial rho array i).
  { intros rho i Hi. unfold vbyte. destruct (Hj i) as (-> & _ & ->); [done|]. by rewrite Er, Eh. }
  split_and!; [|done|].
  - exists v'. split; [done|]. constructor; rewrite ?Esz.
    + intros i Hi. simpl. unfold m'. simpl. rewrite Est, memset_in by lia. by apply inw_0.
    + intros i e Hi. destruct (Hj i) as (_ & _ & ->); done.
    + intros i Hi. destruct (Hj i) as (_ & -> & _); done.
    + intros i Hi _ rho. simpl. rewrite Hb by done. by rewrite Er, Eh.
    + by rewrite Er.
    + by rewrite Eh.
  - intros rho i Hi. rewrite (contents_view rho os' v') by (done || lia). split; [by apply Hb|].
    rewrite (sh_conc _ _ Hs') by lia. by destruct (Hj i) as (-> & _).
Qed.

Lemma copy_mask_ok m size : mask_ok size m -> 0 <= size < 2 ^ 32 - 31 -> copy_mask m size = Ok m.
Proof.
  intros Hm Hs. destruct m as [b|]; [|done]. destruct Hm as [_ Hl]. unfold copy_mask, BitArray.copy.
  rewrite Hl, Z.ltb_irrefl. simpl. rewrite take_ge; [done|]. lia.
Qed.

Lemma ObjectState_copy_ok os heap w :
  os_ok os (mem w) -> readOnly os = false ->
  heap + os_size os <= concreteStore os \/ concreteStore os + os_size os <= heap ->
  returns (ObjectState_copy os heap w) (fun p => let '(os', w') := p in
    os_ok os' (mem w') /\ os_size os' = os_size os /\ concreteStore os' = heap /\
    forall rho i, 0 <= i < os_size os -> contents rho os' (mem w') i = contents rho os (mem w) i).
Proof.
  intros (v & Hs & Hc) Hro Hd. pose proof (sh_size _ _ Hs) as Hsz. unfold ObjectState_copy.
  rewrite (copy_mask_ok (concreteMask os)), (copy_mask_ok (flushMask os)) by (apply Hs || lia).
  rewrite Hro. cbn [massert negb mbind result_bind].
  assert (Hk : copy_known (knownSymbolics os) (os_size os) = Ok (knownSymbolics os)).
  { unfold copy_known. pose proof (sh_table _ _ Hs) as Ht. destruct (knownSymbolics os); [|done].
    rewrite Ht, Z.leb_refl. simpl. rewrite take_ge; [done|]. lia. }
  rewrite Hk. cbn [mbind result_bind]. apply returns_ok. set (os' := {| object := _ |}). simpl.
  assert (Hs' : shows os' v) by (destruct Hs; by constructor).
  assert (Hm : forall i, 0 <= i < os_size os ->
    memcpy (mem w) heap (concreteStore os) (Z.to_nat (os_size os)) (heap + i) = mem w (concreteStore os + i)).
  { intros i Hi. rewrite memcpy_spec by lia. rewrite (proj2 (Z.leb_le _ _)), (proj2 (Z.ltb_lt _ _)) by lia.
    simpl. f_equal. lia. }
  assert (Hb : forall rho i, 0 <= i < os_size os ->
    vbyte rho v (memcpy (mem w) heap (concreteStore os) (Z.to_nat (os_size os))) heap i =
    vbyte rho v (mem w) (concreteStore os) i).
  { intros rho i Hi. unfold vbyte. by rewrite Hm. }
  split_and!; try done.
  - exists v. split; [done|]. simpl. constructor; try apply Hc.
    + intros i Hi. rewrite Hm by done. by apply Hc.
    + intros i Hi Hf rho. rewrite Hb by done. by apply Hc.
  - intros rho i Hi. rewrite (contents_view rho os v), (contents_view rho os' v) by done. by apply Hb.
Qed.
End contents.

(** ** Theorems *)

(** A byte [ObjectState::read8] returns is the object's contents at that offset. *)
Definition reads_at (os : ObjectState) (w : World) (offset : Z) {CFG : Config} (p : expr * ObjectState * World) : Prop :=
  let '(e, os', w') := p in byte_expr os w offset e /\ unchanged os w os' w'.

(** Reading a byte of an object returns, never failing an assertion, an
    expression of eight bits that evaluates to the byte the object holds, at a
    constant offset ([read8(unsigned)]) and at whatever offset a symbolic one
    evaluates to ([read8(ref<Expr>)], which flushes the object into the updates and
    creates its constant array); neither changes the contents of the object, the
    memory or the cache invariants. *)
Theorem reads_see_contents {AP : APIntOps} {SP : APIntSpec AP} {CFG : Config} {PR : Process} os w :
  os_ok os (mem w) ->
  (forall i, 0 <= i < os_size os -> returns (read8 i os w) (reads_at os w i)) /\
  (forall offset, isConst offset = false -> wf offset -> getWidth offset = Int32 ->
   returns (read8_sym offset os w) (fun p => let '(e, os', w') := p in
     wf e /\ getWidth e = Int8 /\ unchanged os w os' w' /\
     forall rho i x, eval rho offset = Some i -> 0 <= i < os_size os ->
       contents rho os (mem w) i = Some x -> eval rho e = Some x)).
Proof.
  intros Hok. split; intros.
  - eapply returns_weaken; [by apply read8_ok|]. by intros [[e os'] w'].
  - by apply read8_sym_ok.
Qed.

(** Writing a byte at a constant offset ([write8(unsigned, ref<Expr>)]) makes it
    the contents at that offset, in the concrete store exactly if it is a constant;
    writing one at a symbolic offset ([write8(ref<Expr>, ref<Expr>)]) changes the
    contents at the offset it evaluates to.  All other bytes stay as they were, no
    assertion fails and the cache invariants are kept. *)
Theorem writes_update_contents {AP : APIntOps} {SP : APIntSpec AP} {CFG : Config} {PR : Process} os w value :
  os_ok os (mem w) -> wf value -> getWidth value = Int8 ->
  (forall i, 0 <= i < os_size os -> returns (write8 i value os w) (fun p =>
     replaces os w i (isConst value) (fun rho => eval rho value) (fst p) (snd p))) /\
  (forall offset, isConst offset = false -> wf offset -> getWidth offset = Int32 ->
     returns (write8_sym offset value os w) (fun p => replaces_at os w offset value (fst p) (snd p))).
Proof.
  intros Hok Hv Wv. split; intros.
  - by apply write8_ok.
  - eapply returns_weaken; [by apply write8_sym_ok|]. by intros p [? _].
Qed.

(** The constructors establish the cache invariants: a fresh object holds
    zeroes, a symbolic one the bytes of its array, none of them concrete, and a copy
    what the original held; [initializeToZero] and [initializeToRandom] fill every
    byte. *)
Theorem constructors_establish {AP : APIntOps} {SP : APIntSpec AP} {CFG : Config} {PR : Process} mo array heap w os :
  UseConstantArrays = true -> 0 < mo_size mo < 2 ^ 32 - 31 ->
  wf_array array -> domain array = Int32 -> range array = Int8 ->
  os_ok os (mem w) -> readOnly os = false ->
  heap + os_size os <= concreteStore os \/ concreteStore os + os_size os <= heap ->
  returns (ObjectState_new mo false heap w) (fun p => let '(o, w') := p in os_ok o (mem w') /\
    forall rho i, 0 <= i < mo_size mo -> contents rho o (mem w') i = Some 0) /\
  (forall forTASE, returns (ObjectState_symbolic mo array forTASE heap w) (fun p => let '(o, w') := p in
    os_ok o (mem w') /\ forall rho i, 0 <= i < mo_size mo ->
      contents rho o (mem w') i = initial rho array i /\ isByteConcrete o i = Ok false)) /\
  returns (ObjectState_copy os heap w) (fun p => let '(o, w') := p in os_ok o (mem w') /\
    forall rho i, 0 <= i < os_size os -> contents rho o (mem w') i = contents rho os (mem w) i) /\
  (let '(o, w') := initializeToZero os w in os_ok o (mem w') /\
    forall rho i, 0 <= i < os_size os -> contents rho o (mem w') i = Some 0) /\
  (let '(o, w') := initializeToRandom os w in os_ok o (mem w') /\
    forall rho i, 0 <= i < os_size os -> contents rho o (mem w') i = Some 0xAB).
Proof.
  intros Hu Hs Ha Hd Hr Hok Hro Hdis. split; [|split; [|split; [|split]]].
  - eapply returns_weaken; [by apply ObjectState_new_ok|]. intros [o w'] (? & _ & _ & ?). done.
  - intros forTASE. eapply returns_weaken; [by apply ObjectState_symbolic_ok|]. intros [o w'] (? & _ & ?). done.
  - eapply returns_weaken; [by apply ObjectState_copy_ok|]. intros [o w'] (? & _ & _ & ?). done.
  - apply (fill_ok os (mem w) 0 Hok). done.
  - apply (fill_ok os (mem w) 0xAB Hok). done.
Qed.

(** ** A sample object: eight concrete bytes mapped at address 4096 *)
Module SampleObject.
Definition process : Process := {|
  useCheatCons := true; uninitialised := 0%nat; new_address := fun w => 65536 + const_id w;
  UseConstantArrays := true; poisonSize := 2; IsLittleEndian := true; ptrdiff16 := fun d => d / 2 |}.
Definition mo : MemoryObject := {| mo_address := 4096; mo_size := 8; isUserSpecified := false |}.
Definition os : ObjectState := blank mo 4096 None.
Definition world : World := {|
  mem := fun a => a mod 16; const_id := 0; tmp_id := 0;
  arrays := {| cachedSymbolicArrays := []; concreteArrays := []; ac_uf := []; ac_uf_cheat := [] |} |}.

Lemma bytes : forall i, inw 8 (mem world i).
Proof. intros i. simpl. pose proof (Z.mod_pos_bound i 16). unfold inw. lia. Qed.

Lemma ok {CFG : Config} : os_ok os (mem world).
Proof. apply all_concrete_ok; try done. intros i _. apply bytes. Qed.
End SampleObject.

Lemma reads_see_contents_witness :
  returns (@read8 ZOps default_config SampleObject.process 3 SampleObject.os SampleObject.world)
    (@reads_at SampleObject.os SampleObject.world 3 default_config).
Proof.
  destruct (@reads_see_contents ZOps ZOps_spec default_config SampleObject.process _ _ SampleObject.ok) as [H _].
  apply H. done.
Defined.

Lemma writes_update_contents_witness :
  returns (@write8_sym ZOps (ZExtExpr (byte 0) Int32) (byte 1) SampleObject.os SampleObject.world) (fun p =>
    @replaces_at default_config SampleObject.os SampleObject.world (ZExtExpr (byte 0) Int32) (byte 1) (fst p) (snd p)).
Proof.
  destruct (@writes_update_contents ZOps ZOps_spec default_config SampleObject.process _ _ (byte 1)
    SampleObject.ok ltac:(concrete) eq_refl) as [_ H].
  apply H; concrete.
Defined.

Lemma constructors_establish_witness :
  returns (@ObjectState_copy SampleObject.os 8192 SampleObject.world) (fun p => let '(o, w') := p in
    @os_ok default_config o (mem w') /\ forall rho i, 0 <= i < 8 ->
      @contents default_config rho o (mem w') i = @contents default_config rho SampleObject.os (mem SampleObject.world) i).
Proof.
  destruct (@constructors_establish ZOps ZOps_spec default_config SampleObject.process SampleObject.mo buf 8192
    SampleObject.world SampleObject.os eq_refl ltac:(done) ltac:(concrete) eq_refl eq_refl SampleObject.ok eq_refl)
    as (_ & _ & H & _); [right; done|]. exact H.
Defined.
