(* ===== verification/MemoryAccess.v ===== *)
(** * Wider accesses and poison

    Accesses of several bytes ([ObjectState::read], [write], [write16], ...) as
    sequences of the byte accesses, the fast path that TASE adds to [read], and
    the operations that keep the poison values in memory in step with the layers
    ([applyPsnOnRead], [applyPsnOnWrite], [applyPsnOnMakeSymbolic]). *)

From stdpp Require Import pretty.
From S2P Require Import Prelude APInt ExprData Samples Bits ExprCompare ExprCreate ExprCreateSound ExprStructSound UnionFind ArrayCache Memory MemorySound.
Local Open Scope Z_scope.

(** The number whose [n] bytes are [f 0], [f 1], ..., the lowest first. *)
Fixpoint le_num (f : Z -> Z) (n : nat) : Z :=
  match n with O => 0 | S k => f (Z.of_nat k) * 2 ^ (8 * Z.of_nat k) + le_num f k end.

(** Byte [i] of a number. *)
Definition byte_of (x i : Z) : Z := x / 2 ^ (8 * i) mod 256.

Lemma le_num_ext f g n : (forall i, 0 <= i < Z.of_nat n -> f i = g i) -> le_num f n = le_num g n.
Proof. induction n as [|n IH]; intros H; cbn [le_num]; [done|]. rewrite H, IH by (intros; apply H || lia; lia). done. Qed.

Lemma le_num_bytes x n : 0 <= x -> le_num (byte_of x) n = x mod 2 ^ (8 * Z.of_nat n).
Proof.
  intros Hx. induction n as [|n IH]; cbn [le_num].
  { change (2 ^ (8 * Z.of_nat 0)) with 1. by rewrite Z.mod_1_r. }
  rewrite IH. unfold byte_of. replace (8 * Z.of_nat (S n)) with (8 * Z.of_nat n + 8) by lia.
  rewrite pow2_split by lia. change (2 ^ 8) with 256.
  pose proof (pow2_pos (8 * Z.of_nat n)). rewrite Z.rem_mul_r by lia. lia.
Qed.

Lemma le_num_inw f n : (forall i, 0 <= i < Z.of_nat n -> inw 8 (f i)) -> inw (8 * Z.of_nat n) (le_num f n).
Proof.
  induction n as [|n IH]; intros H; cbn [le_num]; [done|].
  replace (8 * Z.of_nat (S n)) with (8 + 8 * Z.of_nat n) by lia.
  apply (sem_concat_inw 8 (8 * Z.of_nat n)); [lia|lia|apply H; lia|apply IH; intros; apply H; lia].
Qed.

(** [load] reads the bytes in the order of [le_num]. *)
Lemma load_snoc m n : forall a, load m a (S n) = m (a + Z.of_nat n) * 2 ^ (8 * Z.of_nat n) + load m a n.
Proof.
  induction n as [|n IH]; intros a; [simpl; rewrite !Z.add_0_r; lia|].
  change (load m a (S (S n))) with (m a + 256 * load m (a + 1) (S n)). rewrite IH.
  change (load m a (S n)) with (m a + 256 * load m (a + 1) n).
  replace (a + 1 + Z.of_nat n) with (a + Z.of_nat (S n)) by lia.
  replace (8 * Z.of_nat (S n)) with (8 + 8 * Z.of_nat n) by lia. rewrite pow2_split by lia.
  change (2 ^ 8) with 256. lia.
Qed.

Lemma load_le_num m a n : load m a n = le_num (fun i => m (a + i)) n.
Proof. induction n as [|n IH]; [done|]. rewrite load_snoc, IH. done. Qed.

Section access.
Context {AP : APIntOps} {SP : APIntSpec AP} {CFG : Config} {PR : Process}.

Lemma byte_index_range n i : 0 <= i < n -> 0 <= byte_index n i < n.
Proof. intros. unfold byte_index. case_match; lia. Qed.

Lemma byte_index_inj n i j : byte_index n i = byte_index n j -> i = j.
Proof. unfold byte_index. case_match; lia. Qed.

(** The bytes of the value at [offset], in the order of their significance. *)
Definition bytes_at (rho : env) (os : ObjectState) (m : memory) (offset NumBytes : Z) (f : Z -> Z) (n : Z) : Prop :=
  forall i, 0 <= i < n -> contents rho os m (offset + byte_index NumBytes i) = Some (f i).

(** An expression for the [n] lowest bytes. *)
Definition value_expr (os : ObjectState) (w : World) (offset NumBytes n : Z) (e : expr) : Prop :=
  wf e /\ getWidth e = 8 * n /\
  forall rho f, bytes_at rho os (mem w) offset NumBytes f n -> eval rho e = Some (le_num f (Z.to_nat n)).

Lemma bytes_at_unchanged os w os' w' rho offset NumBytes f n :
  unchanged os w os' w' -> 0 <= offset -> n <= NumBytes -> offset + NumBytes <= os_size os ->
  bytes_at rho os (mem w) offset NumBytes f n <-> bytes_at rho os' (mem w') offset NumBytes f n.
Proof.
  intros (_ & _ & _ & Hb) Ho Hn Hs. split; intros H i Hi; pose proof (byte_index_range NumBytes i ltac:(lia));
    specialize (H i Hi); rewrite Hb in * by lia; done.
Qed.

Lemma join_byte_ok os w offset NumBytes i b Res :
  byte_expr os w (offset + byte_index NumBytes i) b -> 0 <= i -> 8 * (i + 1) < 2 ^ 32 ->
  match Res with None => i = 0 | Some r => value_expr os w offset NumBytes i r /\ 0 < i end ->
  returns (join_byte b Res) (value_expr os w offset NumBytes (i + 1)).
Proof.
  intros (Hb & Wb & Eb) Hi Hsz HR. destruct Res as [r|]; cbn [join_byte].
  - destruct HR as [(Hr & Wr & Er) Hpos].
    assert (Hwf : wf (ConcatExpr b r)) by (simpl; split_and!; try done; rewrite Wb, Wr; unfold Int8; lia).
    destruct (ConcatExpr_create_builds b r Hwf) as (e & -> & He & We & Re). apply returns_ok.
    rewrite (getWidth_concat _ _ Hwf), Wb, Wr in We.
    split_and!; [done|rewrite We; unfold Int8; lia|]. intros rho f Hf.
    rewrite Z2Nat.inj_add by lia. change (Z.to_nat 1) with 1%nat. rewrite Nat.add_1_r. apply Re.
    simpl. rewrite (Eb rho (f i)) by (apply Hf; lia). rewrite (Er rho f) by (intros j Hj; apply Hf; lia).
    simpl. unfold sem_concat. by rewrite Wr, Z2Nat.id by lia.
  - subst i. apply returns_ok. split_and!; [done|done|]. intros rho f Hf. rewrite (Eb rho (f 0)) by (apply Hf; lia).
    simpl. f_equal. change (2 ^ (8 * Z.of_nat 0)) with 1. change (Z.of_nat 0) with 0. lia.
Qed.

Lemma read_bytes_ok NumBytes offset n : forall os w i Res,
  os_ok os (mem w) -> 0 <= offset -> offset + NumBytes <= os_size os -> 8 * NumBytes < 2 ^ 32 ->
  0 <= i -> i + Z.of_nat n = NumBytes ->
  match Res with None => i = 0 | Some r => value_expr os w offset NumBytes i r /\ 0 < i end ->
  returns (read_bytes NumBytes offset n i Res os w) (fun p => let '(r, os', w') := p in
    unchanged os w os' w' /\
    match r with None => NumBytes = 0 | Some e => value_expr os w offset NumBytes NumBytes e end).
Proof.
  induction n as [|n IH]; intros os w i Res Hok Ho Hsz Hw Hi Hn HR; cbn [read_bytes].
  { apply returns_ok. split; [by apply unchanged_refl|]. replace i with NumBytes in HR by lia.
    destruct Res; [apply HR|done]. }
  pose proof (byte_index_range NumBytes i ltac:(lia)) as Hix.
  assert (Hmax : os_size os < 2 ^ 32 - 31) by (destruct Hok as (v & Hs & _); apply Hs).
  rewrite u32_small by lia.
  eapply returns_bind; [apply read8_ok; [done|lia]|]. intros [[b os1] w1] [Hb Hu1].
  eapply returns_bind; [by eapply (join_byte_ok os w offset NumBytes i); try done; lia|].
  intros r Hr. pose proof Hu1 as (Hf1 & Hok1 & Hm1 & Hb1). pose proof Hf1 as (_ & _ & Esz & _).
  eapply returns_weaken; [apply (IH os1 w1 (i + 1) (Some r)); try done; try lia|].
  - split; [|lia]. destruct Hr as (? & ? & Hr). split_and!; try done. intros rho f Hf. apply Hr.
    eapply bytes_at_unchanged; [exact Hu1|lia|lia|lia|done].
  - intros [[r' os2] w2] [Hu2 Hr']. split; [by eapply unchanged_trans|]. destruct r' as [e|]; [|done].
    destruct Hr' as (? & ? & Hr'). split_and!; try done. intros rho f Hf. apply Hr'.
    eapply (bytes_at_unchanged os w os1 w1); [exact Hu1|lia|lia|lia|done].
Qed.

(** ** Writing *)

Lemma byte_index_invol n i : byte_index n (byte_index n i) = i.
Proof. unfold byte_index. case_match; lia. Qed.

(** [NumBytes] bytes from [offset] on hold the bytes [x], the rest is as before. *)
Record stores (os : ObjectState) (w : World) (offset NumBytes : Z) (c : Z -> bool) (x : Z -> env -> option Z)
    (os' : ObjectState) (w' : World) : Prop := {
  st_frame : frame os os';
  st_ok : os_ok os' (mem w');
  st_byte rho i : 0 <= i < NumBytes -> contents rho os' (mem w') (offset + byte_index NumBytes i) = x i rho;
  st_other rho j : 0 <= j < os_size os -> (j < offset \/ offset + NumBytes <= j) ->
    contents rho os' (mem w') j = contents rho os (mem w) j;
  st_mem a : (a < concreteStore os + offset \/ concreteStore os + offset + NumBytes <= a) -> mem w' a = mem w a;
  st_flags i : 0 <= i < NumBytes -> isByteConcrete os' (offset + byte_index NumBytes i) = Ok (c i) /\
    isByteFlushed os' (offset + byte_index NumBytes i) = Ok false;
  st_others j : 0 <= j < os_size os -> (j < offset \/ offset + NumBytes <= j) -> same_flags os os' j;
}.

Section store_loop.
Context (NumBytes offset : Z) (c : Z -> bool) (x : Z -> env -> option Z)
  (step : Z -> ObjectState * World -> result (ObjectState * World)).
Context (os : ObjectState) (w : World) (Hok : os_ok os (mem w)).
Context (Ho : 0 <= offset) (Hfit : offset + NumBytes <= os_size os).
Hypothesis step_ok : forall i os w, os_ok os (mem w) -> 0 <= i < NumBytes -> offset + NumBytes <= os_size os ->
  returns (step i (os, w)) (fun p => replaces os w (offset + byte_index NumBytes i) (c i) (x i) (fst p) (snd p)).

Lemma store_loop_ok :
  returns (for_range step (Z.to_nat NumBytes) 0 (os, w)) (fun p => stores os w offset NumBytes c x (fst p) (snd p)).
Proof.
  destruct (Z.le_gt_cases NumBytes 0) as [Hneg|Hpos].
  { replace (Z.to_nat NumBytes) with O by lia. apply returns_ok. constructor; try done; intros; lia. }
  pose proof (for_range_inv (fun k p => frame os (fst p) /\ os_ok (fst p) (mem (snd p)) /\
    (forall rho i, 0 <= i < k -> contents rho (fst p) (mem (snd p)) (offset + byte_index NumBytes i) = x i rho) /\
    (forall rho j, 0 <= j < os_size os -> (j < offset \/ offset + NumBytes <= j) ->
       contents rho (fst p) (mem (snd p)) j = contents rho os (mem w) j) /\
    (forall a, (a < concreteStore os + offset \/ concreteStore os + offset + NumBytes <= a) ->
       mem (snd p) a = mem w a) /\
    (forall i, 0 <= i < k -> isByteConcrete (fst p) (offset + byte_index NumBytes i) = Ok (c i) /\
       isByteFlushed (fst p) (offset + byte_index NumBytes i) = Ok false) /\
    (forall j, 0 <= j < os_size os -> (j < offset \/ offset + NumBytes <= j) -> same_flags os (fst p) j)) step (Z.to_nat NumBytes) 0 (os, w)) as Hl.
  eapply returns_weaken; [apply Hl|].
  - simpl. split_and!; try done; intros; lia.
  - intros k [os1 w1] Hk (Hf & Hok1 & Hb & Hother & Hmem & Hfl & Hfo). simpl in *. pose proof Hf as (_ & Est & Esz & _).
    eapply returns_weaken; [apply step_ok; [done|lia|lia]|]. intros [os2 w2] [Hf2 Hok2 Hc2 Hm2 Hk2 Hu2 Hfl2]. simpl in *.
    pose proof (byte_index_range NumBytes k ltac:(lia)).
    split; [by transitivity os1|]. split; [done|]. split; [|split; [|split; [|split]]].
    + intros rho i Hi. pose proof (byte_index_range NumBytes i ltac:(lia)). rewrite Hc2 by lia.
      destruct (Z.eqb_spec (offset + byte_index NumBytes i) (offset + byte_index NumBytes k)) as [E|N].
      * assert (byte_index NumBytes i = byte_index NumBytes k) as ->%byte_index_inj by lia. done.
      * apply Hb. assert (i <> k) by congruence. lia.
    + intros rho j Hj Hout. rewrite Hc2 by lia. destruct (Z.eqb_spec j (offset + byte_index NumBytes k)); [lia|].
      by apply Hother.
    + intros a Ha. rewrite Hm2 by lia. by apply Hmem.
    + intros i Hi. pose proof (byte_index_range NumBytes i ltac:(lia)). destruct (Z.eq_dec i k) as [->|N]; [done|].
      assert (byte_index NumBytes i <> byte_index NumBytes k) by (by intros ?%byte_index_inj).
      destruct (Hfl2 (offset + byte_index NumBytes i)) as [-> ->]; [lia|lia|]. apply Hfl. lia.
    + intros j Hj Hout. destruct (Hfl2 j) as [Ec Ef]; [lia|lia|]. destruct (Hfo j Hj Hout) as [Ec' Ef'].
      split; congruence.
  - intros [os' w'] (Hf & Hok' & Hb & Hother & Hmem & Hfl & Hfo). constructor; try done; intros; [apply Hb|apply Hfl]; lia.
Qed.
End store_loop.

(** [value] is written in [n] bytes at [offset]. *)
Record writes (os : ObjectState) (w : World) (offset n : Z) (value : expr)
    (os' : ObjectState) (w' : World) : Prop := {
  wr_frame : frame os os';
  wr_ok : os_ok os' (mem w');
  wr_bytes rho x : eval rho value = Some x -> bytes_at rho os' (mem w') offset n (byte_of x) n;
  wr_other rho j : 0 <= j < os_size os -> (j < offset \/ offset + n <= j) ->
    contents rho os' (mem w') j = contents rho os (mem w) j;
  wr_mem a : (a < concreteStore os + offset \/ concreteStore os + offset + n <= a) -> mem w' a = mem w a;
  wr_const : isConst value = true -> forall j, offset <= j < offset + n ->
    isByteConcrete os' j = Ok true /\ isByteFlushed os' j = Ok false;
  wr_extract : isConst value = false -> getWidth value = 8 * n -> forall i b, 0 <= i < n ->
    ExtractExpr_create value (8 * i) Int8 = Ok b ->
    isByteConcrete os' (offset + byte_index n i) = Ok (isConst b);
  wr_flags j : 0 <= j < os_size os -> (j < offset \/ offset + n <= j) -> same_flags os os' j;
}.

Lemma stores_writes os w offset n c x value os' w' :
  stores os w offset n c x os' w' ->
  (forall rho v, eval rho value = Some v -> forall i, 0 <= i < n -> x i rho = Some (byte_of v i)) ->
  (forall i, 0 <= i < n -> isConst value = true -> c i = true) ->
  (forall i b, 0 <= i < n -> isConst value = false -> ExtractExpr_create value (8 * i) Int8 = Ok b -> c i = isConst b) ->
  writes os w offset n value os' w'.
Proof.
  intros [? ? Hb ? ? Hfl ?] Hx Hc1 Hc2. constructor; try done.
  - intros rho v Hv i Hi. rewrite Hb by done. by apply Hx.
  - intros Hv j Hj. pose proof (byte_index_range n (j - offset) ltac:(lia)) as Hr.
    specialize (Hfl _ Hr). rewrite byte_index_invol, (Hc1 _ Hr Hv) in Hfl.
    by replace (offset + (j - offset)) with j in Hfl by lia.
  - intros Hv _ i b Hi Hb'. rewrite (proj1 (Hfl i Hi)). by rewrite (Hc2 i b).
Qed.

(** Whether the slow path keeps byte [i] in the concrete store. *)
Definition byte_is_const (value : expr) (i : Z) : bool :=
  match ExtractExpr_create value (8 * i) Int8 with Ok b => isConst b | _ => false end.

Lemma ExtractExpr_create_const c o w :
  apok c -> 0 <= o -> 0 < w -> o + w <= bw c ->
  exists d, ExtractExpr_create (ConstantExpr c) o w = Ok (ConstantExpr d).
Proof.
  intros Hc Ho Hw Hs. assert (Hwf : wf (ExtractExpr (ConstantExpr c) o w)) by (by simpl; split_and!).
  destruct (ExtractExpr_create_builds _ _ _ Hwf) as (e & He & _).
  rewrite ExtractExpr_create_unfold in * by done. unfold ExtractExpr_create' in *.
  destruct (massert _) as [[]| |]; [|done|done]. cbn [mbind result_bind] in *. case_match; eauto.
Qed.

(** The [i]th byte of [value] as the slow path computes it. *)
Definition value_byte (value : expr) (i : Z) (rho : env) : option Z :=
  match ExtractExpr_create value (8 * i) Int8 with Ok b => eval rho b | _ => None end.

Lemma value_byte_of value n i rho v :
  wf value -> getWidth value = 8 * n -> 0 <= i < n -> eval rho value = Some v ->
  value_byte value i rho = Some (byte_of v i).
Proof.
  intros Hv Wv Hi Ev. unfold value_byte.
  destruct (ExtractExpr_create_builds value (8 * i) Int8) as (b & -> & _ & _ & Rb).
  { simpl. split_and!; try done; unfold Int8; lia. }
  apply Rb. simpl. by rewrite Ev.
Qed.

Lemma size_bound os m : os_ok os m -> 0 < os_size os < 2 ^ 32 - 31.
Proof. intros (v & Hs & _). apply Hs. Qed.

Lemma write_byte_step NumBytes offset value i os w :
  wf value -> getWidth value = 8 * NumBytes -> 0 <= offset -> os_ok os (mem w) ->
  0 <= i < NumBytes -> offset + NumBytes <= os_size os ->
  returns (write_byte NumBytes offset value i (os, w)) (fun p =>
    replaces os w (offset + byte_index NumBytes i) (byte_is_const value i) (value_byte value i) (fst p) (snd p)).
Proof.
  intros Hv Wv Ho Hok Hi Hfit. unfold write_byte, value_byte, byte_is_const.
  destruct (ExtractExpr_create_builds value (8 * i) Int8) as (b & -> & Hb & Wb & _).
  { simpl. split_and!; try done; unfold Int8; lia. }
  cbn [mbind result_bind fst snd]. pose proof (byte_index_range NumBytes i Hi).
  pose proof (size_bound os _ Hok). rewrite u32_small by lia. apply write8_ok; try done; lia.
Qed.

Lemma write_le_byte_step NumBytes offset value i os w :
  0 <= offset -> os_ok os (mem w) -> 0 <= i < NumBytes -> offset + NumBytes <= os_size os ->
  returns (write_le_byte NumBytes offset value i (os, w)) (fun p =>
    replaces os w (offset + byte_index NumBytes i) true (fun _ => Some (byte_of value i)) (fst p) (snd p)).
Proof.
  intros Ho Hok Hi Hfit. unfold write_le_byte. pose proof (byte_index_range NumBytes i Hi).
  pose proof (size_bound os _ Hok). rewrite u32_small by lia. cbn [fst snd].
  eapply returns_weaken; [apply write8_byte_ok; [done|lia]|]. intros p [? ? Hc ? ? ? ?]. constructor; try done.
  intros rho j Hj. rewrite Hc by done. unfold byte_of. rewrite Z.shiftr_div_pow2, Z.mod_mod by lia. done.
Qed.

(** How many bytes a value of width [w] takes. *)
Definition store_bytes (w : Z) : Z := if w =? Bool then 1 else w / 8.
Definition byte_sized (w : Z) : Prop := w = Bool \/ 0 < w /\ w mod 8 = 0.

Lemma byte_of_low x : inw 8 x -> byte_of x 0 = x.
Proof. intros Hx. unfold byte_of. change (2 ^ (8 * 0)) with 1. rewrite Z.div_1_r. by apply Z.mod_small. Qed.

Lemma replaces_writes os w offset c x value os' w' :
  replaces os w offset c x os' w' -> 0 <= offset < os_size os ->
  (forall rho v, eval rho value = Some v -> x rho = Some v /\ inw 8 v) ->
  (isConst value = true -> c = true) -> (getWidth value = Int8 -> isConst value = true) ->
  writes os w offset 1 value os' w'.
Proof.
  intros [? ? Hc Hm Hk Hu Hfl] Ho Hx Hcv Hnc. constructor; try done.
  - intros rho v Hv i Hi. destruct (Hx rho v Hv) as [Hxv Hi8]. assert (i = 0) as -> by lia.
    replace (byte_index 1 0) with 0 by (unfold byte_index; by case_match). rewrite Z.add_0_r.
    rewrite Hc, Z.eqb_refl, Hxv by done. by rewrite byte_of_low.
  - intros rho j Hj Hout. rewrite Hc by done. by rewrite (proj2 (Z.eqb_neq j offset)) by lia.
  - intros a Ha. apply Hm. lia.
  - intros Hv j Hj. assert (j = offset) as -> by lia. by rewrite Hk, Hcv.
  - intros Hv E i b Hi Hb. exfalso. rewrite Hnc in Hv; [done|]. rewrite E. done.
  - intros j Hj Hout. apply Hfl; lia.
Qed.

Lemma write_general_ok os w offset value :
  os_ok os (mem w) -> wf value -> byte_sized (getWidth value) -> 0 <= offset ->
  offset + store_bytes (getWidth value) <= os_size os ->
  returns (write_general offset value os w) (fun p =>
    writes os w offset (store_bytes (getWidth value)) value (fst p) (snd p)).
Proof.
  intros Hok Hv Wv Ho Hfit. unfold write_general, store_bytes in *.
  destruct (Z.eqb_spec (getWidth value) Bool) as [Eb|Nb].
  - destruct (ZExtExpr_create_builds value Int8) as (e & Hcr & He & We & Re); [done|done|]. rewrite Hcr.
    assert (Hz : zext_ref value Int8 = ZExtExpr value Int8) by (unfold zext_ref; by rewrite Eb).
    rewrite Hz in *. cbn [mbind result_bind].
    eapply returns_weaken; [apply write8_ok; try done; lia|]. intros p Hp.
    eapply replaces_writes; [exact Hp|lia| | |].
    2:{ intros Hcv. destruct value; try done. simpl in Eb. unfold ZExtExpr_create in Hcr. simpl in Hcr.
        rewrite Eb in Hcr. simpl in Hcr. by injection Hcr as <-. }
    2:{ rewrite Eb. done. }
    intros rho v Ev.
    pose proof (eval_inw rho _ _ Hv Ev) as Hr. rewrite Eb in Hr. pose proof (inw_mono 1 8 v ltac:(lia) Hr) as Hr8.
    split; [|done]. apply Re. simpl. rewrite Ev. simpl. unfold bv_zext, Int8. by rewrite wrap_small.
  - destruct Wv as [?|[Hpos Hmod]]; [done|].
    assert (Hd : getWidth value = 8 * (getWidth value / 8)) by (apply Z_div_exact_full_2; lia).
    apply returns_assert; [apply Z.eqb_eq; lia|].
    eapply returns_weaken; [apply (store_loop_ok _ offset (byte_is_const value) (value_byte value)); try done|].
    + intros i os' w' Hok' Hi Hfit'. by apply write_byte_step.
    + intros p Hp. eapply stores_writes; [exact Hp| | |].
      * intros rho v Ev i Hi. by eapply value_byte_of.
      * intros i Hi Hcv. destruct value as [c| | | | | | | | |]; try done. simpl in Hd, Hv, Hi. unfold byte_is_const.
        destruct (ExtractExpr_create_const c (8 * i) Int8) as [d ->]; try done; unfold Int8; lia.
      * intros i b Hi _ Hb. unfold byte_is_const. by rewrite Hb.
Qed.

Lemma write_ok os w offset value :
  os_ok os (mem w) -> wf value -> byte_sized (getWidth value) -> 0 <= offset ->
  offset + store_bytes (getWidth value) <= os_size os ->
  returns (write offset value os w) (fun p =>
    writes os w offset (store_bytes (getWidth value)) value (fst p) (snd p)).
Proof.
  intros Hok Hv Wv Ho Hfit. pose proof (write_general_ok os w offset value Hok Hv Wv Ho Hfit) as Hgen.
  destruct value as [c| | | | | | | | |]; try exact Hgen. unfold write.
  destruct ((bw c <=? 64) && bits64.isPowerOfTwo (bw c)) eqn:Hp; [|exact Hgen]. clear Hgen.
  apply andb_true_iff in Hp as [Hle%Z.leb_le Hp]. simpl in Hv, Wv, Hfit. unfold CE_getZExtValue.
  rewrite massert_true by (by apply Z.leb_le). cbn [mbind result_bind]. rewrite ap_getZExtValue_spec by done.
  pose proof Hv as [Hw Hr]. cbn [getWidth].
  assert (Hsmall : forall n, bw c = n -> raw c mod 2 ^ n = raw c) by (intros n <-; by apply Z.mod_small).
  assert (Hloop : forall n y, bw c = 8 * n -> n <> 0 -> y = raw c -> returns (for_range (write_le_byte n offset y) (Z.to_nat n) 0 (os, w))
    (fun p => writes os w offset (store_bytes (bw c)) (ConstantExpr c) (fst p) (snd p))).
  { intros n y E Hn ->. unfold store_bytes in *. rewrite E in *.
    destruct (Z.eqb_spec (8 * n) Bool); [unfold Bool in *; lia|].
    rewrite Z.mul_comm, Z.div_mul in * by lia.
    eapply returns_weaken; [apply (store_loop_ok n offset (fun _ => true) (fun i _ => Some (byte_of (raw c) i))); try done|].
    - intros i os' w' Hok' Hi Hfit'. by apply write_le_byte_step.
    - intros p Hp'. eapply stores_writes; [exact Hp'| |done|done]. intros rho v [= <-] i Hi. done. }
  destruct ((bw c =? Bool) || (bw c =? Int8)) eqn:E1.
  { assert (Hn : store_bytes (bw c) = 1 /\ inw 8 (raw c)).
    { apply orb_true_iff in E1 as [E1%Z.eqb_eq|E1%Z.eqb_eq]; rewrite E1 in *; (split; [done|]);
        unfold inw, Bool, Int8 in *; lia. }
    destruct Hn as [Hn Hr8]. rewrite Hn in *.
    eapply returns_weaken; [apply write8_byte_ok; [done|lia]|]. intros p Hp'.
    eapply replaces_writes; [exact Hp'|lia| |done|done]. intros rho v [= <-]. rewrite !Z.mod_small by (apply Hr8 || (rewrite Z.mod_small; apply Hr8)). done. }
  destruct (Z.eqb_spec (bw c) Int16) as [E|]; [apply (Hloop 2); [done|done|by apply Hsmall]|].
  destruct (Z.eqb_spec (bw c) Int32) as [E|]; [apply (Hloop 4); [done|done|by apply Hsmall]|].
  destruct (Z.eqb_spec (bw c) Int64) as [E|]; [by apply (Hloop 8)|].
  exfalso. apply orb_false_iff in E1 as [E1%Z.eqb_neq E2%Z.eqb_neq]. unfold Bool, Int8, Int16, Int32, Int64 in *.
  destruct Wv as [?|[_ Hm]]; [done|].
  assert (Hin : 0 <= bw c < 65) by lia.
  pose proof (forallb_below (fun k => negb (bits64.isPowerOfTwo k) || negb (k mod 8 =? 0) ||
    (k =? 8) || (k =? 16) || (k =? 32) || (k =? 64)) 65 ltac:(vm_compute; reflexivity) (bw c) Hin) as Hall.
  cbn beta in Hall. rewrite Hp, Hm in Hall. simpl in Hall. rewrite !orb_true_iff, !Z.eqb_eq in Hall. tauto.
Qed.

(** ** The invariants TASE adds

    The program under test runs natively on the concrete store and stops at a
    halfword that holds the poison value.  So, as Memory.cpp documents, a byte
    outside the poisoned halfwords is concrete, and a concrete byte is not flushed. *)
Definition nice (os : ObjectState) (i : Z) : Prop :=
  isByteConcrete os i = Ok true /\ isByteFlushed os i = Ok false.

Definition poisoned (m : memory) (a : Z) : Prop := load16 m a = poison_val.

(** The halfword of index [k] keeps to the first invariant. *)
Definition halfword_ok (os : ObjectState) (m : memory) (k : Z) : Prop :=
  poisoned m (concreteStore os + 2 * k) \/ nice os (2 * k) /\ nice os (2 * k + 1).

Record tase_mapped (os : ObjectState) : Prop := {
  ta_store : concreteStore os = mo_address (object os);
  ta_even : concreteStore os mod 2 = 0;
  ta_size : os_size os mod 2 = 0;
  ta_space : 0 <= concreteStore os /\ concreteStore os + os_size os <= 2 ^ 64;
}.

Record tase_ok (os : ObjectState) (m : memory) : Prop := {
  ta_mapped : tase_mapped os;
  ta_poison k : 0 <= 2 * k < os_size os -> halfword_ok os m k;
}.

(** The standard's meaning of pointer differences. *)
Definition ptrdiff16_ok : Prop := forall k, ptrdiff16 (2 * k) = k.

Lemma taint_loop2_ok m (Hd : ptrdiff16_ok) k : forall fuel x, (k < fuel)%nat ->
  returns (taint_loop2 m (x + 2 * Z.of_nat k) fuel x) (fun t => t = false ->
    forall j, 0 <= j < Z.of_nat k -> load16 m (x + 2 * j) <> poison_val).
Proof.
  induction k as [|k IH]; intros [|fuel] x Hf; try lia; cbn [taint_loop2].
  - replace (x + 2 * Z.of_nat 0 - x) with (2 * 0) by lia. rewrite Hd. apply returns_ok. intros _ j Hj. lia.
  - replace (x + 2 * Z.of_nat (S k) - x) with (2 * Z.of_nat (S k)) by lia. rewrite Hd.
    rewrite (proj2 (Z.ltb_lt 0 _)) by lia. destruct (Z.eqb_spec (load16 m x) poison_val) as [E|N].
    { by apply returns_ok. }
    replace (x + 2 * Z.of_nat (S k)) with (x + 2 + 2 * Z.of_nat k) by lia.
    eapply returns_weaken; [apply IH; lia|]. intros t Ht E j Hj. destruct (Z.eq_dec j 0) as [->|].
    + by rewrite Z.add_0_r.
    + replace (x + 2 * j) with (x + 2 + 2 * (j - 1)) by lia. apply Ht; [done|lia].
Qed.

Lemma tase_buf_has_taint_ok m ptr k :
  ptrdiff16_ok -> poisonSize = 2 -> ptr mod 2 = 0 -> 0 <= k ->
  returns (tase_buf_has_taint m ptr (2 * k)) (fun t => t = false ->
    forall j, 0 <= j < k -> load16 m (ptr + 2 * j) <> poison_val).
Proof.
  intros Hd Hp He Hk. unfold tase_buf_has_taint. rewrite He, Hp. cbn [Z.eqb].
  pose proof (taint_loop2_ok m Hd (Z.to_nat k) (S (Z.to_nat (2 * k))) ptr ltac:(lia)) as H.
  rewrite Z2Nat.id in H by lia. exact H.
Qed.

(** Untainted bytes of a mapped object are concrete. *)
Lemma untainted_concrete os m offset k :
  tase_ok os m -> 0 <= offset -> offset mod 2 = 0 -> offset + 2 * k <= os_size os ->
  (forall j, 0 <= j < k -> load16 m (concreteStore os + offset + 2 * j) <> poison_val) ->
  forall i, 0 <= i < 2 * k -> isByteConcrete os (offset + i) = Ok true.
Proof.
  intros Ht Ho Hm Hfit Hun i Hi. pose proof (Z_div_exact_full_2 offset 2 ltac:(lia) Hm) as Eo.
  pose proof (Z.div_mod i 2 ltac:(lia)) as Ei. pose proof (Z.mod_pos_bound i 2 ltac:(lia)) as Hr.
  assert (0 <= i / 2 < k) by lia.
  destruct (ta_poison _ _ Ht (offset / 2 + i / 2)) as [Hp|[[H0 _] [H1 _]]]; [lia| |].
  - exfalso. apply (Hun (i / 2)); [lia|]. unfold poisoned in Hp. by replace (concreteStore os + offset + 2 * (i / 2))
      with (concreteStore os + 2 * (offset / 2 + i / 2)) by lia.
  - assert (i mod 2 = 0 \/ i mod 2 = 1) as [E|E] by lia.
    + by replace (offset + i) with (2 * (offset / 2 + i / 2)) by lia.
    + by replace (offset + i) with (2 * (offset / 2 + i / 2) + 1) by lia.
Qed.

(** The fast path of [read] is sound on the objects it is meant for. *)
Definition fast_path_ok (os : ObjectState) (m : memory) (offset : Z) : Prop :=
  ptrdiff16_ok /\ poisonSize = 2 /\ IsLittleEndian = true /\ tase_ok os m /\ offset mod 2 = 0.

Lemma read_fast_ok os w offset k :
  os_ok os (mem w) -> fast_path_ok os (mem w) offset -> 0 <= offset -> 0 < k <= 4 -> offset + 2 * k <= os_size os ->
  (forall j, 0 <= j < k -> load16 (mem w) (concreteStore os + offset + 2 * j) <> poison_val) ->
  returns (ConstantExpr_create (load (mem w) (concreteStore os + offset) (Z.to_nat (2 * k))) (8 * (2 * k)))
    (fun v => value_expr os w offset (2 * k) (2 * k) (ConstantExpr v)).
Proof.
  intros Hok (Hd & Hp & Hle & Ht & Hm) Ho Hk Hfit Hun.
  pose proof (untainted_concrete os (mem w) offset k Ht Ho Hm Hfit Hun) as Hconc.
  assert (Hbytes : forall i, 0 <= i < 2 * k -> inw 8 (mem w (concreteStore os + offset + i))).
  { intros i Hi. destruct Hok as (v & Hs & Hc). rewrite <- Z.add_assoc. apply Hc. lia. }
  set (x := load _ _ _). assert (Hx : inw (8 * (2 * k)) x).
  { unfold x. rewrite load_le_num. pose proof (le_num_inw (fun i => mem w (concreteStore os + offset + i)) (Z.to_nat (2 * k))) as H.
    rewrite Z2Nat.id in H by lia. by apply H. }
  assert (inw 64 x) by (eapply inw_mono; [|exact Hx]; lia).
  rewrite create_eq by (done || lia). rewrite alloc_eq by (done || lia). rewrite wrap_small by done.
  apply returns_ok. split_and!; [apply const_apok; [lia|done]|done|]. intros rho f Hf. simpl. f_equal.
  unfold x. rewrite load_le_num. apply le_num_ext. intros i Hi. specialize (Hf i ltac:(lia)).
  unfold byte_index in Hf. rewrite Hle in Hf. unfold contents in Hf. rewrite Hconc in Hf by lia.
  replace (concreteStore os + offset + i) with (concreteStore os + (offset + i)) by lia. congruence.
Qed.

Lemma read_ok os w offset width :
  os_ok os (mem w) -> byte_sized width -> width < 2 ^ 32 -> 0 <= offset -> offset + store_bytes width <= os_size os ->
  (width = 16 \/ width = 32 \/ width = 64 -> fast_path_ok os (mem w) offset) ->
  returns (read offset width os w) (fun p => let '(r, os', w') := p in
    unchanged os w os' w' /\ exists e, r = Some e /\ wf e /\ getWidth e = width /\
    forall rho f, bytes_at rho os (mem w) offset (store_bytes width) f (store_bytes width) ->
      eval rho e = Some (wrap width (le_num f (Z.to_nat (store_bytes width))))).
Proof.
  intros Hok Hsz Hmax Ho Hfit Hfast. unfold read, store_bytes in *.
  destruct (Z.eqb_spec width Bool) as [->|Nb].
  - eapply returns_bind; [apply read8_ok; [done|lia]|]. intros [[b os'] w'] [(Hb & Wb & Eb) Hu].
    destruct (ExtractExpr_create_builds b 0 Bool) as (e & -> & He & We & Re).
    { simpl. rewrite Wb. by split_and!. }
    cbn [mbind result_bind]. apply returns_ok. split; [done|]. exists e. split_and!; try done.
    intros rho f Hf. apply Re. specialize (Hf 0 ltac:(lia)).
    replace (byte_index 1 0) with 0 in Hf by (unfold byte_index; by case_match). rewrite Z.add_0_r in Hf.
    simpl. rewrite (Eb rho (f 0)) by done. simpl. unfold sem_extract. rewrite Z.div_1_r.
    do 2 f_equal. change (Z.of_nat 0) with 0. change (2 ^ (8 * 0)) with 1. lia.
  - destruct Hsz as [?|[Hpos Hmod]]; [done|]. set (n := width / 8) in *.
    assert (Ew : width = 8 * n) by (apply Z_div_exact_full_2; lia).
    rewrite massert_true by (apply Z.eqb_eq; lia). cbn [mbind result_bind].
    assert (Hfin : forall e, value_expr os w offset n n e -> wf e /\ getWidth e = width /\
      forall rho f, bytes_at rho os (mem w) offset n f n -> eval rho e = Some (wrap width (le_num f (Z.to_nat n)))).
    { intros e (He & We & Re). split_and!; [done|lia|]. intros rho f Hf. specialize (Re rho f Hf). rewrite Re.
      f_equal. symmetry. apply wrap_small. rewrite Ew, <- We. by eapply eval_inw. }
    assert (Hslow : returns (read_bytes n offset (Z.to_nat n) 0 None os w) (fun p => let '(r, os', w') := p in
      unchanged os w os' w' /\ exists e, r = Some e /\ wf e /\ getWidth e = width /\
      forall rho f, bytes_at rho os (mem w) offset n f n -> eval rho e = Some (wrap width (le_num f (Z.to_nat n))))).
    { eapply returns_weaken; [apply read_bytes_ok; try done; lia|]. intros [[r os'] w'] [Hu Hr]. split; [done|].
      destruct r as [e|]; [|lia]. exists e. split; [done|]. by apply Hfin. }
    destruct ((n =? 2) || (n =? 4) || (n =? 8)) eqn:Hn; [|exact Hslow].
    assert (Hk : exists k, n = 2 * k /\ 0 < k <= 4).
    { rewrite !orb_true_iff, !Z.eqb_eq in Hn. destruct Hn as [[->| ->]| ->]; [exists 1|exists 2|exists 4]; lia. }
    destruct Hk as (k & -> & Hk).
    assert (Hfp : fast_path_ok os (mem w) offset).
    { apply Hfast. rewrite !orb_true_iff, !Z.eqb_eq in Hn. lia. }
    pose proof Hfp as (Hd & Hp & _ & Ht & Hm).
    destruct (tase_buf_has_taint_ok (mem w) (concreteStore os + offset) k Hd Hp) as (t & -> & Hun); [|lia|].
    { rewrite Z.add_mod, Hm, (ta_even _ (ta_mapped _ _ Ht)) by lia. done. }
    cbn [mbind result_bind]. destruct t; cbn [negb]; [exact Hslow|].
    rewrite Ew. eapply returns_bind; [apply (read_fast_ok os w offset k); try done; auto; lia|].
    intros v Hv. apply returns_ok. split; [by apply unchanged_refl|]. exists (ConstantExpr v). split; [done|].
    rewrite <- Ew. by apply Hfin.
Qed.
End access.
