(* ===== verification/MemoryPoison.v ===== *)
(** * Poison and native execution

    TASE runs the program under test natively on the concrete store of the mapped
    objects; a halfword that holds the poison value makes it stop and hand over to
    the interpreter.  [tase_ok] is the documented contract between the two: here it
    is shown to be what native stores and the interpreter's accesses, followed by
    the poison operations of [klee/lib/Core/Memory.cpp], preserve. *)

From stdpp Require Import pretty.
From S2P Require Import Prelude APInt ExprData Samples Bits ExprCompare ExprCreate ExprCreateSound ExprStructSound UnionFind ArrayCache Memory MemorySound MemoryAccess.
Local Open Scope Z_scope.

Section poison.
Context {AP : APIntOps} {SP : APIntSpec AP} {CFG : Config} {PR : Process}.

(** ** Changes of the memory under an object *)

(** Memory that no concrete byte uses does not matter. *)
Lemma mem_change_ok os m m' :
  os_ok os m ->
  (forall i, 0 <= i < os_size os -> isByteConcrete os i = Ok true -> m' (concreteStore os + i) = m (concreteStore os + i)) ->
  (forall i, 0 <= i < os_size os -> inw 8 (m' (concreteStore os + i))) ->
  os_ok os m' /\ forall rho i, 0 <= i < os_size os -> contents rho os m' i = contents rho os m i.
Proof.
  intros (v & Hs & Hc) Hm Hb.
  assert (Hsame : forall rho i, 0 <= i < os_size os ->
    vbyte rho v m' (concreteStore os) i = vbyte rho v m (concreteStore os) i).
  { intros rho i Hi. unfold vbyte. destruct (v_conc v i) eqn:E; [|done]. rewrite Hm; [done|done|].
    by rewrite (sh_conc _ _ Hs), E. }
  split.
  - exists v. split; [done|]. constructor; try apply Hc; [done|]. intros i Hi Hf rho.
    rewrite Hsame by done. by apply Hc.
  - intros rho i Hi. rewrite !(contents_view rho os v) by done. by apply Hsame.
Qed.

(** A native store to a byte that is concrete and not flushed is a write. *)
Lemma native_store_ok os m i x :
  os_ok os m -> 0 <= i < os_size os -> nice os i -> inw 8 x ->
  os_ok os (store8 m (concreteStore os + i) x) /\
  forall rho j, 0 <= j < os_size os ->
    contents rho os (store8 m (concreteStore os + i) x) j = if j =? i then Some x else contents rho os m j.
Proof.
  intros (v & Hs & Hc) Hi [Hcon Hfl] Hx. set (m' := store8 m (concreteStore os + i) x).
  rewrite (sh_conc _ _ Hs) in Hcon by done. rewrite (sh_flush _ _ Hs) in Hfl by done.
  injection Hcon as Hcon. injection Hfl as Hfl.
  assert (Hother : forall j, j <> i -> m' (concreteStore os + j) = m (concreteStore os + j)).
  { intros j N. unfold m', store8. by rewrite (proj2 (Z.eqb_neq _ _)) by lia. }
  assert (Hself : m' (concreteStore os + i) = x) by (unfold m', store8; by rewrite Z.eqb_refl).
  destruct (put_coherent m m' (concreteStore os) (os_size os) v v i) as [Hc' Hb]; try done.
  { by rewrite Hself. }
  { left. split; [done|]. destruct (v_known v i) as [e|] eqn:E; [|done].
    destruct (co_known _ _ _ _ Hc i e Hi E) as (_ & _ & ?). congruence. }
  split; [by exists v|]. intros rho j Hj. rewrite !(contents_view rho os v) by done.
  destruct (Z.eqb_spec j i) as [->|N]; [|by apply Hb]. unfold vbyte. by rewrite Hcon, Hself.
Qed.

Lemma store16_at m a v b :
  store16 m a v b = if b =? a + 1 then v / 256 else if b =? a then v mod 256 else m b.
Proof. done. Qed.

Lemma poison_stored m a : poisoned (store16 m a poison_val) a.
Proof.
  unfold poisoned, load16. cbn [load]. rewrite !store16_at, Z.eqb_refl.
  rewrite (proj2 (Z.eqb_neq a (a + 1))), Z.eqb_refl by lia. done.
Qed.

Lemma poison_other m a v b : b + 1 < a \/ a + 1 < b -> load16 (store16 m a v) b = load16 m b.
Proof.
  intros H. unfold load16. cbn [load]. rewrite !store16_at.
  by rewrite !(proj2 (Z.eqb_neq _ _)) by lia.
Qed.

Lemma poison_byte m a b : inw 8 (m b) -> inw 8 (store16 m a poison_val b).
Proof. intros H. rewrite store16_at. by repeat case_match. Qed.

(** ** What reading a byte does to the masks *)
Definition same_masks (os os' : ObjectState) : Prop :=
  concreteMask os' = concreteMask os /\ flushMask os' = flushMask os.

Lemma extend_all_masks ws : forall os os', extend_all ws os = Ok os' -> same_masks os os'.
Proof.
  induction ws as [|[i e] ws IH]; intros os os'; simpl; [by intros [= <-]|]. unfold os_extend.
  destruct (match upd_root os with Some _ => _ | None => _ end) as [[]| |]; [|done|done].
  cbn [mbind result_bind]. intros H. apply IH in H. done.
Qed.

Lemma getUpdates_masks os w ul os' w' : getUpdates os w = Ok (ul, os', w') -> same_masks os os'.
Proof.
  unfold getUpdates. destruct (upd_root os); [by intros [= <- <- <-]|].
  destruct (ConstantExpr_create 0 Int8) as [z| |]; [|done|done]. cbn [mbind result_bind].
  destruct (pull_writes _ _) as [[cs rest]| |]; [|done|done]. cbn [mbind result_bind].
  destruct (World_CreateArray _ _ _ _) as [[arr w1]| |]; [|done|done]. cbn [mbind result_bind].
  destruct (extend_all _ _) as [os1| |] eqn:E; [|done|done]. cbn [mbind result_bind]. intros [= <- <- <-].
  by apply extend_all_masks in E.
Qed.

Lemma read8_masks i os w e os' w' : read8 i os w = Ok (e, os', w') -> same_masks os os'.
Proof.
  unfold read8. destruct (isByteConcrete os i) as [[]| |]; [..|done|done]; cbn [mbind result_bind].
  { destruct (ConstantExpr_create _ _) as [x| |]; [|done|done]. by intros [= <- <- <-]. }
  destruct (knownSymbolic os i) as [[k|]| |]; [..|done|done]; cbn [mbind result_bind]; [by intros [= <- <- <-]|].
  destruct (isByteFlushed os i) as [f| |]; [|done|done]. destruct f; [|done]. cbn [massert mbind result_bind].
  destruct (getUpdates os w) as [[[ul os1] w1]| |] eqn:E; [|done|done]. cbn [mbind result_bind].
  destruct (ConstantExpr_create _ _) as [x| |]; [|done|done]. cbn [mbind result_bind].
  destruct (ReadExpr_create _ _) as [r| |]; [|done|done]. cbn [mbind result_bind]. intros [= <- <- <-].
  by apply getUpdates_masks in E.
Qed.

Lemma masks_flags os os' i : same_masks os os' -> same_flags os os' i.
Proof. intros [E1 E2]. unfold same_flags, isByteConcrete, isByteFlushed. by rewrite E1, E2. Qed.

Lemma same_flags_trans os os1 os2 i : same_flags os os1 i -> same_flags os1 os2 i -> same_flags os os2 i.
Proof. intros [? ?] [? ?]. split; congruence. Qed.

(** ** The poison operations *)

(** The address [a] is not one of the object's. *)
Definition outside (os : ObjectState) (a : Z) : Prop := a < concreteStore os \/ concreteStore os + os_size os <= a.

Lemma outside_frame os os' a : frame os os' -> outside os' a <-> outside os a.
Proof. intros (_ & Es & Ez & _). unfold outside. by rewrite Es, Ez. Qed.

(** Where [bad] does not hold the halfwords keep to the contract; no byte is lost,
    and nothing outside the object changes. *)
Record psn_state (os0 : ObjectState) (w0 : World) (bad : Z -> Prop) (p : ObjectState * World) : Prop := {
  ps_frame : frame os0 (fst p);
  ps_ok : os_ok (fst p) (mem (snd p));
  ps_keeps rho i x : 0 <= i < os_size os0 ->
    contents rho os0 (mem w0) i = Some x -> contents rho (fst p) (mem (snd p)) i = Some x;
  ps_halfword k : 0 <= 2 * k < os_size os0 -> ~ bad k -> halfword_ok (fst p) (mem (snd p)) k;
  ps_mem a : outside os0 a -> mem (snd p) a = mem w0 a;
}.

Lemma psn_weaken os0 w0 (bad bad' : Z -> Prop) p :
  (forall k, 0 <= 2 * k < os_size os0 -> bad k -> bad' k) -> psn_state os0 w0 bad p -> psn_state os0 w0 bad' p.
Proof. intros H [? ? ? Hh ?]. constructor; try done. intros k Hk Hb. apply Hh; [done|]. intros ?. apply Hb. auto. Qed.

(** A halfword whose bytes have the masks they had, in memory left alone. *)
Lemma halfword_keep os os' m m' k :
  concreteStore os' = concreteStore os -> same_flags os os' (2 * k) -> same_flags os os' (2 * k + 1) ->
  load16 m' (concreteStore os + 2 * k) = load16 m (concreteStore os + 2 * k) ->
  halfword_ok os m k -> halfword_ok os' m' k.
Proof.
  intros Es [Ec Ef] [Ec' Ef'] Hm [Hp|[[? ?] [? ?]]]; [left|right].
  - unfold poisoned in *. congruence.
  - split; split; congruence.
Qed.

(** A byte is read and cached: [read8(i)] then [write8AsExpr(i, ...)] of the value. *)
Lemma cache_byte_ok os w i e :
  os_ok os (mem w) -> 0 <= i < os_size os -> byte_expr os w i e ->
  returns (write8AsExpr i e os) (fun os' => replaces os w i false (fun rho => eval rho e) os' w /\
    forall rho j x, 0 <= j < os_size os -> contents rho os (mem w) j = Some x ->
      contents rho os' (mem w) j = Some x).
Proof.
  intros Hok Hi (He & We & Ee). eapply returns_weaken; [by apply write8AsExpr_ok|].
  intros os' Hr. split; [done|]. intros rho j x Hj Hx. rewrite (rp_contents _ _ _ _ _ _ _ Hr) by done.
  destruct (Z.eqb_spec j i) as [->|]; auto.
Qed.

Lemma cache_and_poison_ok os0 w0 bad os w k :
  psn_state os0 w0 bad (os, w) -> 0 <= 2 * k < os_size os0 -> os_size os0 mod 2 = 0 ->
  returns (cache_and_poison (2 * k) (2 * k + 1) (concreteStore os0 + 2 * k) (os, w))
    (psn_state os0 w0 (fun j => bad j /\ j <> k)).
Proof.
  intros [Hf0 Hok0 Hkeep0 Hh0 Hout0] Hk Hev. simpl in *. unfold cache_and_poison. cbn [fst snd].
  pose proof Hf0 as (_ & Est0 & Esz0 & _).
  assert (Hk1 : 2 * k + 1 < os_size os0).
  { pose proof (Z.div_mod (os_size os0) 2). lia. }
  destruct (read8_ok os w (2 * k) Hok0) as ([[b1 os1] w1] & R1 & Hb1 & Hu1); [lia|]. rewrite R1. cbn [mbind result_bind].
  pose proof (read8_masks _ _ _ _ _ _ R1) as Hm1. pose proof Hu1 as (Hf1 & Hok1 & Hmem1 & Hc1).
  pose proof Hf1 as (_ & Est1 & Esz1 & _).
  destruct (read8_ok os1 w1 (2 * k + 1) Hok1) as ([[b2 os2] w2] & R2 & Hb2 & Hu2); [lia|]. rewrite R2. cbn [mbind result_bind].
  pose proof (read8_masks _ _ _ _ _ _ R2) as Hm2. pose proof Hu2 as (Hf2 & Hok2 & Hmem2 & Hc2).
  pose proof Hf2 as (_ & Est2 & Esz2 & _).
  destruct (cache_byte_ok os2 w2 (2 * k) b1) as (os3 & -> & H3 & K3); [done|lia| |].
  { destruct Hb1 as (? & ? & He). split_and!; try done. intros rho x. rewrite Hc2, Hc1 by lia. apply He. }
  cbn [mbind result_bind]. destruct H3 as [Hf3 Hok3 Hc3 _ Hcon3 Hfl3 Hfo3]. pose proof Hf3 as (_ & Est3 & Esz3 & _).
  destruct (cache_byte_ok os3 w2 (2 * k + 1) b2) as (os4 & -> & H4 & K4); [done|lia| |].
  { destruct Hb2 as (? & ? & He). split_and!; try done. intros rho x. rewrite Hc3 by lia.
    rewrite (proj2 (Z.eqb_neq _ _)) by lia. rewrite Hc2 by lia. apply He. }
  cbn [mbind result_bind]. destruct H4 as [Hf4 Hok4 Hc4 _ Hcon4 Hfl4 Hfo4]. pose proof Hf4 as (_ & Est4 & Esz4 & _).
  apply returns_ok.
  assert (Est : concreteStore os4 = concreteStore os0) by congruence.
  assert (Esz : os_size os4 = os_size os0) by congruence.
  assert (Hcon4' : isByteConcrete os4 (2 * k) = Ok false) by (destruct (Hfo4 (2 * k)) as [-> _]; [lia|lia|done]).
  destruct (mem_change_ok os4 (mem w2) (store16 (mem w2) (concreteStore os0 + 2 * k) poison_val)) as [Hok5 Hc5].
  - done.
  - intros i Hi Hcon. rewrite store16_at, Est.
    destruct (Z.eqb_spec (concreteStore os0 + i) (concreteStore os0 + 2 * k + 1)) as [E|].
    { replace i with (2 * k + 1) in Hcon by lia. congruence. }
    destruct (Z.eqb_spec (concreteStore os0 + i) (concreteStore os0 + 2 * k)) as [E|]; [|done].
    replace i with (2 * k) in Hcon by lia. congruence.
  - intros i Hi. apply poison_byte. destruct Hok4 as (v & Hs & Hc). by apply Hc.
  - constructor; cbn [fst snd with_mem mem].
    + by transitivity os; [|transitivity os1; [|transitivity os2; [|transitivity os3]]].
    + done.
    + intros rho i x Hi Hx. rewrite Hc5 by lia. apply K4; [lia|]. apply K3; [lia|]. rewrite Hc2, Hc1 by lia. auto.
    + intros j Hj Hb. destruct (Z.eq_dec j k) as [->|N].
      { left. rewrite Est. apply poison_stored. }
      assert (Hfl : forall i, i <> 2 * k -> i <> 2 * k + 1 -> 0 <= i < os_size os0 -> same_flags os os4 i).
      { intros i N1 N2 Hi. eapply same_flags_trans; [by apply masks_flags|]. eapply same_flags_trans; [by apply masks_flags|].
        eapply same_flags_trans; [apply Hfo3; lia|apply Hfo4; lia]. }
      pose proof (Z.div_mod (os_size os0) 2).
      eapply (halfword_keep os os4 (mem w)); [congruence|apply Hfl; lia|apply Hfl; lia| |apply Hh0; [done|tauto]].
      rewrite poison_other by lia. by rewrite Hmem2, Hmem1.
    + intros a Ha. rewrite store16_at, !(proj2 (Z.eqb_neq _ _)) by (unfold outside in Ha; lia).
      rewrite Hmem2, Hmem1. auto.
Qed.

(** A constant offset of any width is a constant of 32 bits. *)
Lemma ZExt_const c w : apok c -> 0 < w ->
  exists d, ZExtExpr_create (ConstantExpr c) w = Ok (ConstantExpr d).
Proof.
  intros Hc Hw. unfold ZExtExpr_create. cbn [getWidth]. destruct (w =? bw c); [eauto|].
  destruct (Z.ltb_spec w (bw c)); [|eauto]. apply ExtractExpr_create_const; [done|lia|lia|lia].
Qed.

Lemma const_offset c : apok c -> raw c < 2 ^ 32 ->
  exists d, ZExtExpr_create (ConstantExpr c) Int32 = Ok (ConstantExpr d) /\ apok d /\ bw d = Int32 /\ raw d = raw c.
Proof.
  intros Hc Hr. destruct (ZExt_const c Int32 Hc) as [d Hd]; [done|]. exists d.
  destruct (ZExtExpr_create_builds (ConstantExpr c) Int32) as (e & He & Hwe & We & Re); [done|done|].
  rewrite Hd in He. injection He as <-. split_and!; try done.
  - simpl in We. rewrite We. unfold zext_ref. by case_match.
  - specialize (Re (fun _ _ => 0) (raw c)). simpl in Re. assert (Some (raw d) = Some (raw c)); [|congruence].
    apply Re. unfold zext_ref. destruct Hc as [_ [Hc0 _]].
    assert (wrap 32 (raw c) = raw c) by (apply wrap_small; unfold inw; lia).
    case_match; simpl; unfold sem_extract, bv_zext; try change (2 ^ 0) with 1; unfold Int32 in *; rewrite ?Z.div_1_r; congruence.
Qed.

Section apply_poison.
Context (os0 : ObjectState) (w0 : World) (Hmap : tase_mapped os0) (Hmax : os_size os0 < 2 ^ 32 - 31).

Lemma cache_and_poison_all_ok n : forall bad p k,
  psn_state os0 w0 bad p -> 0 <= k -> 2 * (k + Z.of_nat n) <= os_size os0 ->
  returns (cache_and_poison_all (2 * k) (concreteStore os0 + 2 * k) n p)
    (psn_state os0 w0 (fun j => bad j /\ ~ (k <= j < k + Z.of_nat n))).
Proof.
  induction n as [|n IH]; intros bad p k Hp Hk Hn; cbn [cache_and_poison_all].
  { apply returns_ok. eapply psn_weaken; [|exact Hp]. intros j Hj Hb. split; [done|lia]. }
  rewrite !u32_small by lia. destruct p as [os w].
  eapply returns_bind; [apply cache_and_poison_ok; [exact Hp|lia|apply Hmap]|]. intros p' Hp'.
  replace (2 * k + 2) with (2 * (k + 1)) by lia.
  replace (concreteStore os0 + 2 * k + 2) with (concreteStore os0 + 2 * (k + 1)) by lia.
  eapply returns_weaken; [apply (IH (fun j => bad j /\ j <> k) p' (k + 1)); [exact Hp'|lia|lia]|]. intros p''.
  apply psn_weaken. intros j Hj [[Hb N] N']. split; [done|]. lia.
Qed.

(** The test that decides whether a halfword has to be poisoned. *)
Lemma nice_pair_ok os m i j :
  os_ok os m -> 0 <= i < os_size os -> 0 <= j < os_size os ->
  returns (nice_pair os i j) (fun b => b = true -> nice os i /\ nice os j).
Proof.
  intros (v & Hs & _) Hi Hj. unfold nice_pair, nice_byte, nice.
  rewrite !(sh_conc _ _ Hs), !(sh_flush _ _ Hs) by done. cbn [mbind result_bind].
  destruct (v_conc v i), (v_flush v i), (v_conc v j), (v_flush v j); by apply returns_ok.
Qed.

(** Either end of a write: the halfword it shares with a byte outside the write. *)
Lemma end_ok bad os w k i j :
  psn_state os0 w0 bad (os, w) -> 0 <= 2 * k < os_size os0 ->
  (i = 2 * k + 1 /\ j = 2 * k \/ i = 2 * k /\ j = 2 * k + 1) ->
  returns (n ← nice_pair os i j;
           if n : bool then Ok (os, w) else cache_and_poison (2 * k) (2 * k + 1) (concreteStore os0 + 2 * k) (os, w))
    (psn_state os0 w0 (fun j => bad j /\ j <> k)).
Proof.
  intros Hp Hk Hij. pose proof (ta_size _ Hmap) as Hev. pose proof (Z.div_mod (os_size os0) 2).
  pose proof (ps_frame _ _ _ _ Hp) as (_ & _ & Esz & _). simpl in Esz.
  destruct (nice_pair_ok os (mem w) i j) as (b & -> & Hb); [apply Hp|lia|lia|]. cbn [mbind result_bind].
  destruct b.
  - apply returns_ok. destruct Hp as [? ? ? Hh ?]. constructor; try done. intros j' Hj' Hbad. simpl in *.
    destruct (Z.eq_dec j' k) as [->|N]; [|apply Hh; tauto]. right.
    destruct Hb as [? ?]; [done|]. by destruct Hij as [[-> ->]|[-> ->]].
  - apply cache_and_poison_ok; done.
Qed.

(** *** A write at a constant offset *)
Context (firstOff n : Z) (Hfirst : 0 <= firstOff) (Hn : 0 < n <= 8) (Hend : firstOff + n <= os_size os0).

(** The halfwords of which some bytes, but not all, are written. *)
Definition partial (k : Z) : Prop :=
  2 * k + 1 = firstOff \/ 2 * k = firstOff + n - 1.
Definition touched (k : Z) : Prop := firstOff <= 2 * k + 1 /\ 2 * k < firstOff + n.

Let firstAddr : Z := u64 (mo_address (object os0) + firstOff).
Let endAddr : Z := u64 (mo_address (object os0) + u32 (firstOff + n - 1)).

Lemma firstAddr_eq : firstAddr = concreteStore os0 + firstOff.
Proof. unfold firstAddr. destruct Hmap as [Es _ _ [? ?]]. rewrite <- Es. apply u64_small. lia. Qed.
Lemma endAddr_eq : endAddr = concreteStore os0 + (firstOff + n - 1).
Proof. unfold endAddr. destruct Hmap as [Es _ _ [? ?]]. rewrite <- Es, u32_small by lia. apply u64_small. lia. Qed.

Lemma addr_parity x : (concreteStore os0 + x) mod 2 = x mod 2.
Proof.
  rewrite Z.add_mod, (ta_even _ Hmap), Z.add_0_l by lia. apply Z.mod_small, Z.mod_pos_bound. lia.
Qed.

Lemma psn_low_end_ok bad p :
  psn_state os0 w0 bad p ->
  returns (psn_low_end firstOff firstAddr p) (psn_state os0 w0 (fun j => bad j /\ 2 * j + 1 <> firstOff)).
Proof.
  intros Hp. unfold psn_low_end. rewrite firstAddr_eq, addr_parity. pose proof (Z.div_mod firstOff 2).
  pose proof (Z.mod_pos_bound firstOff 2). destruct (Z.eqb_spec (firstOff mod 2) 1) as [E|N].
  - destruct p as [os w]. rewrite (u32_small (firstOff - 1)) by lia. set (k := firstOff / 2) in *.
    replace (firstOff - 1) with (2 * k) by lia. replace firstOff with (2 * k + 1) by lia.
    replace (concreteStore os0 + (2 * k + 1) - 1) with (concreteStore os0 + 2 * k) by lia.
    eapply returns_weaken; [apply (end_ok bad os w k); [done|lia|by left]|]. intros p'. apply psn_weaken.
    intros j Hj [? ?]. split; [done|lia].
  - apply returns_ok. eapply psn_weaken; [|exact Hp]. intros j Hj Hb. split; [done|]. intros E.
    apply N. rewrite <- E, (Z.mul_comm 2 j), Z.add_comm, Z.mod_add by lia. done.
Qed.

Lemma psn_high_end_ok bad p :
  psn_state os0 w0 bad p ->
  returns (psn_high_end (u32 (firstOff + n - 1)) endAddr p)
    (psn_state os0 w0 (fun j => bad j /\ 2 * j <> firstOff + n - 1)).
Proof.
  intros Hp. unfold psn_high_end. rewrite endAddr_eq, addr_parity, (u32_small (firstOff + n - 1)) by lia.
  set (e := firstOff + n - 1) in *. pose proof (Z.div_mod e 2).
  pose proof (Z.mod_pos_bound e 2). destruct (Z.eqb_spec (e mod 2) 0) as [E|N].
  - destruct p as [os w]. rewrite (u32_small (e + 1)) by lia. set (k := e / 2) in *.
    replace e with (2 * k) by lia.
    eapply returns_weaken; [apply (end_ok bad os w k); [done|lia|by right]|]. intros p'. apply psn_weaken.
    intros j Hj [? ?]. split; [done|lia].
  - apply returns_ok. eapply psn_weaken; [|exact Hp]. intros j Hj Hb. split; [done|]. intros E.
    apply N. rewrite <- E, (Z.mul_comm 2 j). apply Z.mod_mul. lia.
Qed.

(** The halfword of a 16-bit write is poisoned without caching its bytes, which is
    right only when neither of them is concrete. *)
Lemma store16_ok bad os w k :
  psn_state os0 w0 bad (os, w) -> 0 <= 2 * k < os_size os0 ->
  isByteConcrete os (2 * k) = Ok false -> isByteConcrete os (2 * k + 1) = Ok false ->
  psn_state os0 w0 (fun j => bad j /\ j <> k) (os, with_mem (store16 (mem w) (concreteStore os0 + 2 * k) poison_val) w).
Proof.
  intros [Hf Hok Hkeep Hh Hout] Hk H0 H1. simpl in *. pose proof Hf as (_ & Est & Esz & _).
  pose proof (ta_size _ Hmap). pose proof (Z.div_mod (os_size os0) 2).
  destruct (mem_change_ok os (mem w) (store16 (mem w) (concreteStore os0 + 2 * k) poison_val)) as [Hok' Hc'].
  - done.
  - intros i Hi Hcon. rewrite store16_at, Est.
    destruct (Z.eqb_spec (concreteStore os0 + i) (concreteStore os0 + 2 * k + 1)) as [E|].
    { replace i with (2 * k + 1) in Hcon by lia. congruence. }
    destruct (Z.eqb_spec (concreteStore os0 + i) (concreteStore os0 + 2 * k)) as [E|]; [|done].
    replace i with (2 * k) in Hcon by lia. congruence.
  - intros i Hi. apply poison_byte. destruct Hok as (v & Hs & Hc). by apply Hc.
  - constructor; simpl; try done.
    + intros rho i x Hi Hx. rewrite Hc' by lia. auto.
    + intros j Hj Hb. destruct (Z.eq_dec j k) as [->|N]; [left; rewrite Est; apply poison_stored|].
      eapply (halfword_keep os os (mem w)); try done; [|apply Hh; [done|tauto]].
      rewrite Est. apply poison_other. lia.
    + intros a Ha. rewrite store16_at, !(proj2 (Z.eqb_neq _ _)) by (unfold outside in Ha; lia). auto.
Qed.

Definition covered (k : Z) : Prop := firstOff <= 2 * k /\ 2 * k + 1 < firstOff + n.

Definition psn_width (w : Z) : Prop :=
  (w = Bool \/ w = Int8) /\ n = 1 \/ w = Int16 /\ n = 2 \/ w = Int32 /\ n = 4 \/ w = Int64 /\ n = 8.

Lemma psn_middle_ok valWidth bad os w :
  psn_width valWidth -> psn_state os0 w0 bad (os, w) ->
  (n = 2 -> firstOff mod 2 = 0 -> isByteConcrete os firstOff = Ok false /\ isByteConcrete os (firstOff + 1) = Ok false) ->
  returns (psn_middle valWidth firstOff firstAddr ((firstAddr mod 2 =? 0) && (endAddr mod 2 =? 1)) (os, w))
    (psn_state os0 w0 (fun j => bad j /\ ~ covered j)).
Proof.
  intros Hw Hp H16. rewrite firstAddr_eq, endAddr_eq, !addr_parity. unfold covered.
  pose proof (Z.div_mod firstOff 2). pose proof (Z.mod_pos_bound firstOff 2). set (k := firstOff / 2) in *.
  assert (Hall : forall i m, 0 <= i -> 2 * (i + Z.of_nat m) <= os_size os0 ->
    (forall j, firstOff <= 2 * j /\ 2 * j + 1 < firstOff + n -> i <= j < i + Z.of_nat m) ->
    returns (cache_and_poison_all (2 * i) (concreteStore os0 + 2 * i) m (os, w))
      (psn_state os0 w0 (fun j => bad j /\ ~ (firstOff <= 2 * j /\ 2 * j + 1 < firstOff + n)))).
  { intros i m Hi Hm Hj. eapply returns_weaken; [by apply (cache_and_poison_all_ok m bad)|]. intros p.
    apply psn_weaken. intros j Hj' [? N]. split; [done|]. intros ?. apply N. by apply Hj. }
  assert (Hpar : forall x, n = 2 * x -> (firstOff + n - 1) mod 2 = if firstOff mod 2 =? 0 then 1 else 0).
  { intros x ->. replace (firstOff + 2 * x - 1) with (firstOff mod 2 + 1 + (k + x - 1) * 2) by lia.
    rewrite Z.mod_add by lia. destruct (Z.eqb_spec (firstOff mod 2) 0) as [->|]; [done|].
    by replace (firstOff mod 2) with 1 by lia. }
  pose proof (Z.div_mod (os_size os0) 2). pose proof (ta_size _ Hmap). unfold psn_middle.
  assert (Hodd : firstOff mod 2 <> 0 -> firstOff + 1 = 2 * (k + 1) /\
    concreteStore os0 + firstOff + 1 = concreteStore os0 + 2 * (k + 1)) by lia.
  destruct Hw as [[Hw En]|[[-> En]|[[-> En]|[-> En]]]].
  - assert ((valWidth =? Int16) = false /\ (valWidth =? Int32) = false /\ (valWidth =? Int64) = false) as (-> & -> & ->).
    { by destruct Hw as [-> | ->]. }
    apply returns_ok. eapply psn_weaken; [|exact Hp]. intros j Hj Hb. split; [done|]. lia.
  - cbn [Z.eqb Pos.eqb Int16]. rewrite (Hpar 1) by lia. destruct (Z.eqb_spec (firstOff mod 2) 0) as [E|N]; cbn [andb Z.eqb Pos.eqb].
    + destruct (H16 En E) as [Hc0 Hc1]. apply returns_ok. replace firstOff with (2 * k) in * by lia.
      eapply psn_weaken; [|by apply store16_ok; try done; lia]. intros j Hj [? ?]. split; [done|]. lia.
    + apply returns_ok. eapply psn_weaken; [|exact Hp]. intros j Hj Hb. split; [done|]. lia.
  - cbn [Z.eqb Pos.eqb Int16 Int32]. rewrite (Hpar 2) by lia. destruct (Z.eqb_spec (firstOff mod 2) 0) as [E|N]; cbn [andb Z.eqb Pos.eqb].
    + replace firstOff with (2 * k) at 1 2 by lia. apply Hall; lia.
    + destruct (Hodd N) as [-> ->]. apply Hall; lia.
  - cbn [Z.eqb Pos.eqb Int16 Int32 Int64]. rewrite (Hpar 4) by lia. destruct (Z.eqb_spec (firstOff mod 2) 0) as [E|N]; cbn [andb Z.eqb Pos.eqb].
    + replace firstOff with (2 * k) at 1 2 by lia. apply Hall; lia.
    + destruct (Hodd N) as [-> ->]. apply Hall; lia.
Qed.

(** The three parts together leave no halfword behind. *)
Lemma psn_parts_ok value :
  psn_width (getWidth value) -> os_ok os0 (mem w0) ->
  (forall k, 0 <= 2 * k < os_size os0 -> ~ touched k -> halfword_ok os0 (mem w0) k) ->
  (isConst value = true -> forall j, firstOff <= j < firstOff + n -> nice os0 j) ->
  (isConst value = false -> n = 2 -> firstOff mod 2 = 0 ->
    isByteConcrete os0 firstOff = Ok false /\ isByteConcrete os0 (firstOff + 1) = Ok false) ->
  returns (p ← (if isConst value then Ok (os0, w0)
                else psn_middle (getWidth value) firstOff firstAddr
                       ((firstAddr mod 2 =? 0) && (endAddr mod 2 =? 1)) (os0, w0));
           p ← psn_low_end firstOff firstAddr p;
           psn_high_end (u32 (firstOff + n - 1)) endAddr p)
    (psn_state os0 w0 (fun _ => False)).
Proof.
  intros Hw Hok Hrest Hconst H16.
  eapply returns_bind with (P := psn_state os0 w0 (fun k => touched k /\ ~ covered k)).
  - destruct (isConst value).
    + apply returns_ok. constructor; simpl; try done. intros k Hk Hb.
      destruct (decide (firstOff <= 2 * k)), (decide (2 * k + 1 < firstOff + n));
        [right; split; apply Hconst; done || lia|..];
        (apply Hrest; [done|]; intros Ht; apply Hb; unfold covered; split; [done|lia]).
    + apply psn_middle_ok; auto. constructor; simpl; try done.
  - intros p Hp. eapply returns_bind; [by apply psn_low_end_ok|]. intros p' Hp'.
    eapply returns_weaken; [by apply psn_high_end_ok|]. intros p''. apply psn_weaken.
    intros k Hk [[[[Ht1 Ht2] Hc] N1] N2]. apply Hc. unfold covered. lia.
Qed.

Lemma applyPsnOnWrite_const_ok c value :
  apok c -> raw c = firstOff -> psn_width (getWidth value) -> os_ok os0 (mem w0) ->
  (forall k, 0 <= 2 * k < os_size os0 -> ~ touched k -> halfword_ok os0 (mem w0) k) ->
  (isConst value = true -> forall j, firstOff <= j < firstOff + n -> nice os0 j) ->
  (isConst value = false -> n = 2 -> firstOff mod 2 = 0 ->
    isByteConcrete os0 firstOff = Ok false /\ isByteConcrete os0 (firstOff + 1) = Ok false) ->
  returns (applyPsnOnWrite (ConstantExpr c) value os0 w0) (psn_state os0 w0 (fun _ => False)).
Proof.
  intros Hc Ec Hw Hok Hrest Hconst H16. unfold applyPsnOnWrite.
  destruct (const_offset c Hc ltac:(lia)) as (d & -> & Hd & Wd & Rd). rewrite Ec in Rd.
  cbn [mbind result_bind]. unfold CE_getZExtValue.
  rewrite massert_true by (by rewrite Wd). cbn [mbind result_bind].
  rewrite ap_getZExtValue_spec, Rd by (done || (by rewrite Wd)).
  assert (Hn' : psn_bytes (getWidth value) = Ok n).
  { unfold psn_bytes. destruct Hw as [[[-> | ->] ->]|[[-> ->]|[[-> ->]|[-> ->]]]]; done. }
  rewrite Hn'. cbn [mbind result_bind]. by apply psn_parts_ok.
Qed.
End apply_poison.

Lemma tase_mapped_frame os os' : frame os os' -> tase_mapped os -> tase_mapped os'.
Proof. intros (Eo & Es & Ez & _) [? ? ? ?]. constructor; rewrite ?Eo, ?Es, ?Ez; done. Qed.

Lemma psn_state_tase os w p : psn_state os w (fun _ => False) p -> tase_mapped os -> tase_ok (fst p) (mem (snd p)).
Proof.
  intros [Hf _ _ Hh _] Hm. constructor; [by eapply tase_mapped_frame|]. intros k Hk. apply Hh; [|tauto].
  destruct Hf as (_ & _ & <- & _). done.
Qed.

(** *** Poisoning a whole object *)
Lemma poison_all_at n : forall m a b,
  poison_all m a n b = m b \/ a <= b < a + 2 * Z.of_nat n.
Proof.
  induction n as [|n IH]; intros m a b; cbn [poison_all]; [by left|].
  destruct (IH (store16 m a poison_val) (a + 2) b) as [->|]; [|right; lia]. rewrite store16_at.
  destruct (Z.eqb_spec b (a + 1)); [right; lia|]. destruct (Z.eqb_spec b a); [right; lia|by left].
Qed.

Lemma poison_all_byte n : forall m a b, inw 8 (m b) -> inw 8 (poison_all m a n b).
Proof. induction n as [|n IH]; intros m a b Hb; cbn [poison_all]; [done|]. apply IH. by apply poison_byte. Qed.

Lemma poison_all_poisons n : forall m a j, 0 <= j < Z.of_nat n -> poisoned (poison_all m a n) (a + 2 * j).
Proof.
  induction n as [|n IH]; intros m a j Hj; cbn [poison_all]; [lia|].
  destruct (Z.eq_dec j 0) as [->|].
  - rewrite Z.add_0_r. pose proof (poison_stored m a) as Hp. unfold poisoned, load16 in *. cbn [load] in *.
    destruct (poison_all_at n (store16 m a poison_val) (a + 2) a) as [->|]; [|lia].
    destruct (poison_all_at n (store16 m a poison_val) (a + 2) (a + 1)) as [->|]; [done|lia].
  - replace (a + 2 * j) with (a + 2 + 2 * (j - 1)) by lia. apply IH. lia.
Qed.

Lemma poison_object_ok os w :
  os_ok os (mem w) -> tase_mapped os ->
  (forall i, 0 <= i < os_size os -> isByteConcrete os i = Ok false) ->
  let m' := poison_all (mem w) (concreteStore os) (Z.to_nat (os_size os / 2)) in
  os_ok os m' /\ tase_ok os m' /\
  forall rho i, 0 <= i < os_size os -> contents rho os m' i = contents rho os (mem w) i.
Proof.
  intros Hok Hm Hsym m'. destruct (mem_change_ok os (mem w) m' Hok) as [Hok' Hc].
  - intros i Hi Hcon. rewrite Hsym in Hcon; done.
  - intros i Hi. apply poison_all_byte. destruct Hok as (v & _ & Hc). by apply Hc.
  - split_and!; [done| |done]. constructor; [done|]. intros k Hk. left. apply poison_all_poisons.
    pose proof (ta_size _ Hm). pose proof (Z.div_mod (os_size os) 2). lia.
Qed.

Lemma applyPsnOnWrite_sym_ok os w offset value :
  os_ok os (mem w) -> tase_mapped os -> isConst offset = false -> getWidth offset = Int32 ->
  (forall i, 0 <= i < os_size os -> isByteConcrete os i = Ok false) ->
  returns (applyPsnOnWrite offset value os w) (fun p => fst p = os /\ os_ok os (mem (snd p)) /\ tase_ok os (mem (snd p)) /\
    forall rho i, 0 <= i < os_size os -> contents rho os (mem (snd p)) i = contents rho os (mem w) i).
Proof.
  intros Hok Hm Hn Wo Hsym. unfold applyPsnOnWrite. rewrite (ZExt_same offset Int32 Wo). cbn [mbind result_bind].
  destruct (poison_object_ok os w Hok Hm Hsym) as (? & ? & ?). rewrite <- (ta_store _ Hm).
  rewrite (ta_size _ Hm), (ta_even _ Hm). destruct offset; try done; by apply returns_ok.
Qed.

(** *** applyPsnOnRead *)
Lemma applyPsnOnRead_ok os w offset :
  os_ok os (mem w) -> isConst offset = false ->
  returns (applyPsnOnRead offset os w) (fun p => let '(os', w') := p in
    frame os os' /\ os_ok os' (mem w') /\ mem w' = mem w /\
    (forall rho i x, 0 <= i < os_size os -> contents rho os (mem w) i = Some x -> contents rho os' (mem w') i = Some x) /\
    (forall i, 0 <= i < os_size os -> isByteConcrete os' i = Ok false /\ isByteFlushed os' i = Ok false)).
Proof.
  intros Hok Hn. pose proof (size_bound _ _ Hok) as Hsz.
  assert (Hl := for_range_inv (fun i p => frame os (fst p) /\ os_ok (fst p) (mem (snd p)) /\ mem (snd p) = mem w /\
    (forall rho j x, 0 <= j < os_size os -> contents rho os (mem w) j = Some x -> contents rho (fst p) (mem (snd p)) j = Some x) /\
    (forall j, 0 <= j < i -> isByteConcrete (fst p) j = Ok false /\ isByteFlushed (fst p) j = Ok false))
    psn_read_byte (Z.to_nat (os_size os)) 0 (os, w)).
  assert (Hgo : returns (for_range psn_read_byte (Z.to_nat (os_size os)) 0 (os, w)) (fun p => let '(os', w') := p in
    frame os os' /\ os_ok os' (mem w') /\ mem w' = mem w /\
    (forall rho i x, 0 <= i < os_size os -> contents rho os (mem w) i = Some x -> contents rho os' (mem w') i = Some x) /\
    (forall i, 0 <= i < os_size os -> isByteConcrete os' i = Ok false /\ isByteFlushed os' i = Ok false))).
  { eapply returns_weaken; [apply Hl|].
    - simpl. split; [done|]. split; [done|]. split; [done|]. split; [done|]. intros j Hj. lia.
    - intros i [os1 w1] Hi (Hf & Hok1 & Hm & Hk & Hfl). simpl in *. pose proof Hf as (_ & _ & Esz & _).
      unfold psn_read_byte. cbn [fst snd].
      destruct (read8_ok os1 w1 i Hok1) as ([[b os2] w2] & R & Hb & Hu); [lia|]. rewrite R. cbn [mbind result_bind].
      pose proof (read8_masks _ _ _ _ _ _ R) as Hma. pose proof Hu as (Hf2 & Hok2 & Hm2 & Hc2).
      pose proof Hf2 as (_ & _ & Esz2 & _).
      destruct (cache_byte_ok os2 w2 i b) as (os3 & -> & [Hf3 Hok3 _ _ Hcon Hflu Hoth] & K); [done|lia| |].
      { destruct Hb as (? & ? & He). split; [done|]. split; [done|]. intros rho x. rewrite Hc2 by lia. apply He. }
      cbn [mbind result_bind]. apply returns_ok. cbn [fst snd].
      split; [by transitivity os1; [|transitivity os2]|]. split; [done|]. split; [congruence|]. split.
      + intros rho j x Hj Hx. apply K; [lia|]. rewrite Hc2 by lia. by apply Hk.
      + intros j Hj. destruct (Z.eq_dec j i) as [->|N]; [done|]. destruct (Hoth j N) as [-> ->]; [lia|].
        destruct (masks_flags _ _ j Hma) as [-> ->]. apply Hfl. lia.
    - intros [os' w'] (? & ? & ? & ? & Hfl). split; [done|]. split; [done|]. split; [done|]. split; [done|].
      intros i Hi. apply Hfl. lia. }
  destruct offset; try done.
Qed.
End poison.

(** ** Theorems *)

(** The interpreter's store at a constant offset: [write], then [applyPsnOnWrite]. *)
Definition write_and_poison {AP : APIntOps} {CFG : Config} {PR : Process} (c : apint) (value : expr)
    (os : ObjectState) (w : World) : result (ObjectState * World) :=
  '(os, w) ← write_expr (ConstantExpr c) value os w;
  applyPsnOnWrite (ConstantExpr c) value os w.

(** The 16-bit writes that [applyPsnOnWrite] handles. *)
Definition sixteen_ok {AP : APIntOps} {CFG : Config} (offset : Z) (value : expr) : Prop :=
  isConst value = false -> getWidth value = Int16 -> offset mod 2 = 0 ->
  forall i b, 0 <= i < 2 -> ExtractExpr_create value (8 * i) Int8 = Ok b -> isConst b = false.

Section compose.
Context {AP : APIntOps} {SP : APIntSpec AP} {CFG : Config} {PR : Process}.

(** The state after the store: the bytes of the value, the other bytes, the contract. *)
Record stored (os : ObjectState) (w : World) (offset n : Z) (value : expr) (p : ObjectState * World) : Prop := {
  sd_frame : frame os (fst p);
  sd_ok : os_ok (fst p) (mem (snd p));
  sd_tase : tase_ok (fst p) (mem (snd p));
  sd_bytes rho x : eval rho value = Some x -> bytes_at rho (fst p) (mem (snd p)) offset n (byte_of x) n;
  sd_other rho j x : 0 <= j < os_size os -> (j < offset \/ offset + n <= j) ->
    contents rho os (mem w) j = Some x -> contents rho (fst p) (mem (snd p)) j = Some x;
  sd_mem a : outside os a -> mem (snd p) a = mem w a;
}.

Lemma halfword_outside os w offset n value os' w' k :
  writes os w offset n value os' w' -> tase_ok os (mem w) -> 0 <= 2 * k < os_size os ->
  ~ touched offset n k -> halfword_ok os' (mem w') k.
Proof.
  intros Hw Ht Hk Hn. pose proof (wr_frame _ _ _ _ _ _ _ Hw) as (_ & Es & _).
  pose proof (ta_size _ (ta_mapped _ _ Ht)) as Hev. pose proof (Z.div_mod (os_size os) 2).
  unfold touched in Hn. apply (halfword_keep os os' (mem w)); [done|..].
  - apply (wr_flags _ _ _ _ _ _ _ Hw); lia.
  - apply (wr_flags _ _ _ _ _ _ _ Hw); lia.
  - unfold load16. cbn [load]. by rewrite !(wr_mem _ _ _ _ _ _ _ Hw) by lia.
  - by apply (ta_poison _ _ Ht).
Qed.

Lemma write_and_poison_ok os w c value n :
  os_ok os (mem w) -> tase_ok os (mem w) -> apok c -> wf value -> psn_width n (getWidth value) ->
  raw c + n <= os_size os -> sixteen_ok (raw c) value ->
  returns (write_and_poison c value os w) (stored os w (raw c) n value).
Proof.
  intros Hok Ht Hc Hv Hw Hfit H16. pose proof (size_bound _ _ Hok) as Hsz. destruct Hc as [Hcw [Hc0 Hc1]].
  assert (Hc : apok c) by done.
  assert (Hn : store_bytes (getWidth value) = n /\ byte_sized (getWidth value) /\ 0 < n <= 8).
  { unfold store_bytes, byte_sized. destruct Hw as [[[-> | ->] ->]|[[-> ->]|[[-> ->]|[-> ->]]]];
      (split; [done|]); (split; [|lia]); (by left) || (by right). }
  destruct Hn as (En & Hbs & Hn). unfold write_and_poison, write_expr.
  destruct (const_offset c Hc ltac:(lia)) as (d & -> & Hd & Wd & Rd). cbn [mbind result_bind]. unfold CE_getZExtValue.
  rewrite massert_true by (by rewrite Wd). cbn [mbind result_bind]. rewrite ap_getZExtValue_spec, Rd by (done || (by rewrite Wd)).
  eapply returns_bind; [apply write_ok; try done; rewrite En; lia|]. rewrite En.
  intros [os1 w1] Hw1. simpl in Hw1. pose proof (wr_frame _ _ _ _ _ _ _ Hw1) as Hf1.
  pose proof Hf1 as (_ & _ & Esz & _). pose proof (tase_mapped_frame _ _ Hf1 (ta_mapped _ _ Ht)) as Hm1.
  eapply returns_weaken; [apply (applyPsnOnWrite_const_ok os1 w1 Hm1 ltac:(lia) (raw c) n); try done; try lia|].
  - apply Hw1.
  - intros k Hk Hk'. eapply halfword_outside; try done. lia.
  - intros Hcv j Hj. by apply (wr_const _ _ _ _ _ _ _ Hw1).
  - intros Hcv E2 Hev. assert (E16 : getWidth value = Int16).
    { destruct Hw as [[_ ?]|[[? _]|[[_ ?]|[_ ?]]]]; (done || lia). }
    assert (Hb : forall i, 0 <= i < 2 -> isByteConcrete os1 (raw c + byte_index n i) = Ok false).
    { intros i Hi. destruct (ExtractExpr_create_builds value (8 * i) Int8) as (b & Hb & _).
      { simpl. rewrite E16. split_and!; try done; unfold Int8, Int16; lia. }
      rewrite (wr_extract _ _ _ _ _ _ _ Hw1 Hcv) with (b := b); [|rewrite E16, E2; done|lia|done].
      by rewrite (H16 Hcv E16 Hev i b). }
    assert (Hall : forall j, 0 <= j < 2 -> isByteConcrete os1 (raw c + j) = Ok false).
    { intros j Hj. rewrite <- (byte_index_invol n j). apply Hb. rewrite E2. apply byte_index_range. lia. }
    split; [rewrite <- (Z.add_0_r (raw c))|]; apply Hall; lia.
  - intros p Hp. pose proof (psn_state_tase _ _ _ Hp Hm1) as Ht'. destruct Hp as [Hf2 Hok2 Hkeep _ Hmo].
    constructor; try done.
    + by transitivity os1.
    + intros rho x Ev i Hi. pose proof (byte_index_range n i Hi). apply Hkeep; [lia|].
      by apply (wr_bytes _ _ _ _ _ _ _ Hw1).
    + intros rho j x Hj Hout Hx. apply Hkeep; [lia|]. by rewrite (wr_other _ _ _ _ _ _ _ Hw1).
    + intros a Ha. rewrite Hmo by (by rewrite (outside_frame _ _ _ Hf1)). apply (wr_mem _ _ _ _ _ _ _ Hw1).
      unfold outside in Ha. lia.
Qed.
End compose.

(** C33. A store of the interpreter, [write] followed by [applyPsnOnWrite], keeps the
    contract with native execution: afterwards a halfword of the object that does
    not hold the poison value consists of two concrete, unflushed bytes.  The object
    holds the bytes of the value in the target's byte order, no other byte is lost,
    and nothing fails.  An aligned 16-bit value must not have a constant byte
    ([sixteen_ok]). *)
Theorem store_keeps_contract {AP : APIntOps} {SP : APIntSpec AP} {CFG : Config} {PR : Process} os w c value n :
  os_ok os (mem w) -> tase_ok os (mem w) -> apok c -> wf value -> psn_width n (getWidth value) ->
  raw c + n <= os_size os -> sixteen_ok (raw c) value ->
  returns (write_and_poison c value os w) (stored os w (raw c) n value).
Proof. apply write_and_poison_ok. Qed.

(** A value stored by the interpreter is read back: the expression
    [ObjectState::read] returns for the same offset and width, by its fast path or
    byte by byte, has the value of the expression written, for the widths of 8, 16,
    32 and 64 bits at even offsets. *)
Theorem store_load_roundtrip {AP : APIntOps} {SP : APIntSpec AP} {CFG : Config} {PR : Process} os w c value n :
  os_ok os (mem w) -> tase_ok os (mem w) -> apok c -> wf value -> psn_width n (getWidth value) -> getWidth value <> Bool ->
  raw c + n <= os_size os -> sixteen_ok (raw c) value ->
  ptrdiff16_ok -> poisonSize = 2 -> IsLittleEndian = true -> raw c mod 2 = 0 ->
  returns ('(os', w') ← write_and_poison c value os w; read (raw c) (getWidth value) os' w') (fun p =>
    let '(r, _, _) := p in exists e, r = Some e /\ wf e /\ getWidth e = getWidth value /\
    forall rho x, eval rho value = Some x -> eval rho e = Some x).
Proof.
  intros Hok Ht Hc Hv Hw Hb Hfit H16 Hd Hp Hle Hev.
  eapply returns_bind; [by apply write_and_poison_ok|]. intros [os1 w1] [Hf Hok1 Ht1 Hby _ _]. simpl in *.
  pose proof Hf as (_ & _ & Esz & _).
  assert (Hn : store_bytes (getWidth value) = n /\ byte_sized (getWidth value) /\ getWidth value = 8 * n).
  { unfold store_bytes, byte_sized. destruct Hw as [[[E| E] ->]|[[E ->]|[[E ->]|[E ->]]]];
      rewrite E in *; try done; (split; [done|]); (split; [by right|done]). }
  destruct Hn as (En & Hbs & Ew). destruct Hc as [_ [Hc0 _]].
  eapply returns_weaken; [apply read_ok; try done; try (rewrite ?En; lia)|].
  { apply wf_width in Hv. lia. }
  intros [[r os2] w2] [_ (e & -> & He & We & Re)]. exists e. split_and!; try done. intros rho x Ev.
  specialize (Re rho (byte_of x)). rewrite En in Re. rewrite Re by (by apply Hby).
  pose proof (eval_inw rho _ _ Hv Ev) as Hx. pose proof Hx as [Hx0 _]. f_equal.
  rewrite le_num_bytes by done. assert (0 < n) by (apply wf_width in Hv; lia). rewrite Z2Nat.id, <- Ew by lia.
  change (x mod 2 ^ getWidth value) with (wrap (getWidth value) x). rewrite !wrap_small; done || (by rewrite wrap_small).
Qed.

(** Native execution and the interpreter agree on memory: storing a byte into a
    halfword that does not hold the poison value, which is all native code does
    between two calls of the interpreter, makes it the object's contents at that
    offset, leaves every other byte, and keeps the cache invariants and the
    contract. *)
Theorem native_store_coherent {CFG : Config} os m k i x :
  os_ok os m -> tase_ok os m -> 0 <= 2 * k < os_size os -> i = 2 * k \/ i = 2 * k + 1 ->
  load16 m (concreteStore os + 2 * k) <> poison_val -> inw 8 x ->
  let m' := store8 m (concreteStore os + i) x in
  os_ok os m' /\ tase_ok os m' /\
  forall rho j, 0 <= j < os_size os -> contents rho os m' j = if j =? i then Some x else contents rho os m j.
Proof.
  intros Hok Ht Hk Hi Hp Hx m'. pose proof (ta_size _ (ta_mapped _ _ Ht)). pose proof (Z.div_mod (os_size os) 2).
  destruct (ta_poison _ _ Ht k Hk) as [?|[Hn0 Hn1]]; [done|].
  destruct (native_store_ok os m i x) as [Hok' Hc]; [done|lia|by destruct Hi as [-> | ->]|done|].
  split_and!; [done| |done]. constructor; [apply Ht|]. intros j Hj. destruct (Z.eq_dec j k) as [->|N]; [by right|].
  apply (halfword_keep os os m); try done; [|by apply (ta_poison _ _ Ht)].
  unfold load16, m', store8. cbn [load]. by rewrite !(proj2 (Z.eqb_neq _ _)) by lia.
Qed.

(** ** Witnesses *)
Module SampleStore.
Export SampleObject.

Lemma tase : tase_ok os (mem world).
Proof.
  constructor; [by constructor|]. intros k Hk. right. by split.
Qed.

Definition at2 : apint := APInt Int64 2.
End SampleStore.

Lemma store_keeps_contract_witness :
  returns (@write_and_poison ZOps default_config SampleObject.process SampleStore.at2 (ZExtExpr (byte 0) Int32)
    SampleObject.os SampleObject.world)
    (@stored default_config SampleObject.process SampleObject.os SampleObject.world 2 4 (ZExtExpr (byte 0) Int32)).
Proof.
  apply (@store_keeps_contract ZOps ZOps_spec default_config SampleObject.process SampleObject.os SampleObject.world
    SampleStore.at2 (ZExtExpr (byte 0) Int32) 4).
  - apply SampleObject.ok.
  - apply SampleStore.tase.
  - concrete.
  - concrete.
  - right. right. left. done.
  - done.
  - intros _ E. discriminate E.
Defined.

Lemma store_load_roundtrip_witness :
  returns ('(os', w') ← @write_and_poison ZOps default_config SampleObject.process SampleStore.at2 (ZExtExpr (byte 0) Int32)
      SampleObject.os SampleObject.world; @read ZOps default_config SampleObject.process 2 Int32 os' w') (fun p =>
    let '(r, _, _) := p in exists e, r = Some e /\ wf e /\ getWidth e = Int32 /\
    forall rho x, @eval default_config rho (ZExtExpr (byte 0) Int32) = Some x -> @eval default_config rho e = Some x).
Proof.
  apply (@store_load_roundtrip ZOps ZOps_spec default_config SampleObject.process SampleObject.os SampleObject.world
    SampleStore.at2 (ZExtExpr (byte 0) Int32) 4).
  - apply SampleObject.ok.
  - apply SampleStore.tase.
  - concrete.
  - concrete.
  - right. right. left. done.
  - done.
  - done.
  - intros _ E. discriminate E.
  - intros k. unfold ptrdiff16, SampleObject.process. rewrite Z.mul_comm. apply Z.div_mul. done.
  - done.
  - done.
  - done.
Defined.

Lemma native_store_coherent_witness :
  let m' := store8 (mem SampleObject.world) (4096 + 3) 200 in
  @os_ok default_config SampleObject.os m' /\
  forall rho, @contents default_config rho SampleObject.os m' 3 = Some 200.
Proof.
  destruct (@native_store_coherent default_config SampleObject.os (mem SampleObject.world) 1 3 200
    SampleObject.ok SampleStore.tase) as (H1 & _ & H2);
    [done|by right|vm_compute; discriminate|done|]. split; [exact H1|]. intros rho. by rewrite H2.
Defined.

(** ** Where the contract is not kept *)
Module Flaws.
Definition run_process (poison : Z) : Process := {|
  useCheatCons := true; uninitialised := 0%nat; new_address := fun w => 65536 + const_id w;
  UseConstantArrays := true; poisonSize := poison; IsLittleEndian := true; ptrdiff16 := fun d => d / 2 |}.
#[local] Existing Instances ZOps default_config.

(** What [read] of [width] bits at [offset] evaluates to, arrays holding [i mod 256] at [i]. *)
Definition reads {PR : Process} (offset width : Z) (p : result (ObjectState * World)) : result (option Z) :=
  '(os, w) ← p; '(r, _, _) ← read offset width os w;
  Ok (match r with Some e => eval ramp e | None => None end).

(** [applyPsnOnWrite] poisons an aligned halfword without caching its bytes: the
    constant high byte of a 16-bit value is lost, reading back 0xDE. *)
Definition half_constant : expr := ConcatExpr (cst Int8 5) (byte 3).
Lemma aligned_16bit_store_loses_byte :
  eval ramp half_constant = Some 0x0503 /\
  @reads (run_process 2) 0 Int16 (@write_and_poison _ _ (run_process 2) (APInt Int64 0) half_constant
    SampleObject.os SampleObject.world) = Ok (Some 0xDE03).
Proof. split; vm_compute; reflexivity. Qed.

(** [applyPsnOnRead] after a read at a symbolic offset leaves every byte in the cache
    of known bytes, but the memory unpoisoned: a store of native code is not seen. *)
Lemma symbolic_read_breaks_contract :
  exists os w, (e ← @read_expr _ _ (run_process 2) (ZExtExpr (byte 0) Int32) Int8 SampleObject.os SampleObject.world;
                @applyPsnOnRead _ _ (run_process 2) (ZExtExpr (byte 0) Int32) (snd (fst e)) (snd e)) = Ok (os, w) /\
    load16 (mem w) 4096 <> poison_val /\ isByteConcrete os 0 = Ok false /\
    @reads (run_process 2) 0 Int8 (Ok (os, with_mem (store8 (mem w) 4096 77) w)) = Ok (Some 0).
Proof. eexists _, _. split; [vm_compute; reflexivity|]. split; [vm_compute; discriminate|]. split; vm_compute; reflexivity. Qed.

(** The fast path of [read] at an odd address does not look at the last halfword when
    the difference of the misaligned pointers is rounded down. *)
Lemma odd_read_misses_poison :
  @reads (run_process 2) 1 Int16 (@write_and_poison _ _ (run_process 2) (APInt Int64 2) (byte 3)
    SampleObject.os SampleObject.world) = Ok (Some 0xAD01) /\
  @reads (run_process 2) 2 Int8 (@write_and_poison _ _ (run_process 2) (APInt Int64 2) (byte 3)
    SampleObject.os SampleObject.world) = Ok (Some 3).
Proof. split; vm_compute; reflexivity. Qed.

(** With a poison size of 4 the fast path takes a single poisoned halfword for data. *)
Lemma dword_poison_not_seen :
  @reads (run_process 4) 0 Int16 (@write_and_poison _ _ (run_process 4) (APInt Int64 0) (byte 3)
    SampleObject.os SampleObject.world) = Ok (Some 0xDEAD) /\
  @reads (run_process 4) 0 Int8 (@write_and_poison _ _ (run_process 4) (APInt Int64 0) (byte 3)
    SampleObject.os SampleObject.world) = Ok (Some 3).
Proof. split; vm_compute; reflexivity. Qed.
End Flaws.
