(* ===== verification/Solver.v ===== *)
(** * Solver: queries and the interface of the decision procedures

    Models [klee/include/klee/Solver.h], [SolverImpl.h], [klee/lib/Solver/Solver.cpp],
    [SolverImpl.cpp] and [klee/lib/Core/TimingSolver.cpp].  The virtual class
    [SolverImpl] is the class [SolverImpl] over a type of states (the caches of an
    implementation), what its documentation promises is the class [SolverSpec].
    A call that fails (a timeout, an error of the back end) answers [None].  Timers,
    statistics and logging are left out. *)

From Stdlib Require Import ClassicalEpsilon.
From S2P Require Import Prelude APInt ExprData Samples Bits ExprCompare ExprCreate ExprCreateSound ExprStructSound ExprVisitor UnionFind ExprUtil ExprWeight Rewriters Constraints ConstraintsSound.
Local Open Scope Z_scope.

(** ** Queries *)
Record Query := { q_constraints : list expr; q_expr : expr }.
Definition withExpr (q : Query) (e : expr) : Query := {| q_constraints := q_constraints q; q_expr := e |}.

Inductive Validity := VTrue | VFalse | VUnknown.

Section query.
Context {AP : APIntOps} {CFG : Config}.
Definition withFalse (q : Query) : Query := withExpr q (ConstantExpr (ConstantExpr_alloc 0 Bool)).
Definition negateExpr (q : Query) : result Query := z ← createIsZero (q_expr q); Ok (withExpr q z).
End query.

(** ** SolverImpl *)
Class SolverImpl (St : Type) := {
  computeTruth : Query -> St -> result (option bool * St);
  computeValidity : Query -> St -> result (option Validity * St);
  computeValue : Query -> St -> result (option expr * St);
  (** the values of the objects, and whether there is a solution *)
  computeInitialValues : Query -> list Array -> St -> result (option (list (list Z) * bool) * St);
}.

Section default.
Context {AP : APIntOps} {CFG : Config} {St : Type} (truth : Query -> St -> result (option bool * St)).

(** [SolverImpl::computeValidity], which implementations may override. *)
Definition default_computeValidity (q : Query) (s : St) : result (option Validity * St) :=
  '(isTrue, s) ← truth q s;
  match isTrue with
  | None => Ok (None, s)
  | Some true => Ok (Some VTrue, s)
  | Some false =>
      nq ← negateExpr q;
      '(isFalse, s) ← truth nq s;
      Ok (match isFalse with
          | None => None
          | Some true => Some VFalse
          | Some false => Some VUnknown
          end, s)
  end.
End default.

(** ** Solver *)
Section solver.
Context {AP : APIntOps} {CFG : Config} {St : Type} {SI : SolverImpl St}.

Definition evaluate (q : Query) (s : St) : result (option Validity * St) :=
  _ ← massert (getWidth (q_expr q) =? Bool);
  match q_expr q with
  | ConstantExpr CE => Ok (Some (if CE_isTrue CE then VTrue else VFalse), s)
  | _ => computeValidity q s
  end.

Definition mustBeTrue (q : Query) (s : St) : result (option bool * St) :=
  _ ← massert (getWidth (q_expr q) =? Bool);
  match q_expr q with
  | ConstantExpr CE => Ok (Some (CE_isTrue CE), s)
  | _ => computeTruth q s
  end.
Definition mustBeFalse (q : Query) (s : St) : result (option bool * St) :=
  nq ← negateExpr q; mustBeTrue nq s.
Definition mayBeTrue (q : Query) (s : St) : result (option bool * St) :=
  '(res, s) ← mustBeFalse q s; Ok (negb <$> (res : option bool), s).
Definition mayBeFalse (q : Query) (s : St) : result (option bool * St) :=
  '(res, s) ← mustBeTrue q s; Ok (negb <$> (res : option bool), s).

(** [cast<ConstantExpr>] asserts. *)
Definition getValue (q : Query) (s : St) : result (option apint * St) :=
  match q_expr q with
  | ConstantExpr CE => Ok (Some CE, s)
  | _ =>
      '(tmp, s) ← computeValue q s;
      match tmp with
      | None => Ok (None, s)
      | Some (ConstantExpr c) => Ok (Some c, s)
      | Some _ => AssertFail
      end
  end.

Definition getInitialValues (q : Query) (objects : list Array) (s : St) : result (option (list (list Z)) * St) :=
  '(r, s) ← computeInitialValues q objects s;
  Ok (match r with Some (values, true) => Some values | _ => None end, s).

(** *** getRange *)

(** The three binary searches of the source: the smallest number in [lo, hi] that
    passes the test. *)
Fixpoint search (fuel : nat) (test : Z -> St -> result (bool * St)) (lo hi : Z) (s : St) : result (Z * St) :=
  match fuel with
  | O => OutOfFuel
  | S k =>
      if lo <? hi then
        let mid := lo + (hi - lo) / 2 in
        '(res, s) ← test mid s;
        if res : bool then search k test lo mid s else search k test (mid + 1) hi s
      else Ok (lo, s)
  end.

(** [assert(success)] *)
Definition succeeds (p : result (option bool * St)) : result (bool * St) :=
  '(r, s) ← p; match r with Some b => Ok (b, s) | None => AssertFail end.

(** [EqExpr::create(LShrExpr::create(e, mid), 0)] *)
Definition fits_test (q : Query) (mid : Z) (s : St) : result (bool * St) :=
  let e := q_expr q in let width := getWidth e in
  m ← ConstantExpr_create mid width;
  sh ← bin_create Kind.LShr e (ConstantExpr m);
  z ← ConstantExpr_create 0 width;
  t ← bin_create Kind.Eq sh (ConstantExpr z);
  succeeds (mustBeTrue (withExpr q t) s).
(** [UleExpr::create(e, mid)] *)
Definition ule_expr (q : Query) (mid : Z) : result expr :=
  m ← ConstantExpr_create mid (getWidth (q_expr q)); bin_create Kind.Ule (q_expr q) (ConstantExpr m).
Definition min_test (q : Query) (mid : Z) (s : St) : result (bool * St) :=
  t ← ule_expr q mid; succeeds (mayBeTrue (withExpr q t) s).
Definition max_test (q : Query) (mid : Z) (s : St) : result (bool * St) :=
  t ← ule_expr q mid; succeeds (mustBeTrue (withExpr q t) s).

(** Sixty-six rounds halve any interval of 64-bit numbers to a point. *)
Definition search_fuel : nat := 66.

Definition useful_bits (q : Query) (s : St) : result (Z * St) :=
  search search_fuel (fits_test q) 0 (getWidth (q_expr q)) s.
Definition range_min (q : Query) (bits : Z) (s : St) : result (Z * St) :=
  z ← ConstantExpr_create 0 (getWidth (q_expr q));
  '(res, s) ← (t ← bin_create Kind.Eq (q_expr q) (ConstantExpr z); succeeds (mayBeTrue (withExpr q t) s));
  if res : bool then Ok (0, s)
  else hi ← bits64.maxValueOfNBits bits; search search_fuel (min_test q) 0 hi s.
Definition range_max (q : Query) (bits mn : Z) (s : St) : result (Z * St) :=
  hi ← bits64.maxValueOfNBits bits; search search_fuel (max_test q) mn hi s.

Definition range_search (q : Query) (s : St) : result (Z * Z * St) :=
  '(bits, s) ← useful_bits q s;
  '(mn, s) ← range_min q bits s;
  '(mx, s) ← range_max q bits mn s;
  Ok (mn, mx, s).

Definition getRange (q : Query) (s : St) : result (apint * apint * St) :=
  let width := getWidth (q_expr q) in
  '(mn, mx, s) ← (if width =? 1 then
                    '(r, s) ← evaluate q s;
                    match r with
                    | None => AssertFail
                    | Some VTrue => Ok (1, 1, s)
                    | Some VFalse => Ok (0, 0, s)
                    | Some VUnknown => Ok (0, 1, s)
                    end
                  else match q_expr q with
                       | ConstantExpr CE => v ← CE_getZExtValue CE 64; Ok (v, v, s)
                       | _ => range_search q s
                       end);
  a ← ConstantExpr_create mn width;
  b ← ConstantExpr_create mx width;
  Ok (a, b, s).
End solver.

(** ** What the documentation promises

    The solutions of a query assign bytes to the symbolic arrays; outside an array
    a read gives 0, as [Assignment::evaluate] has it.  Queries are well typed, and
    their expression has a value under every solution of the constraints (no
    division by zero). *)

(** The expressions an implementation supports.  The clients build their queries
    from supported ones with the simplifying constructors other than the divisions. *)
Class Supported {AP : APIntOps} {CFG : Config} := {
  supported : expr -> Prop;
  supported_const c : supported (ConstantExpr c);
  supported_bin k l r e : isDiv k = false -> wf l -> wf r -> supported l -> supported r ->
    bin_create k l r = Ok e -> supported e;
}.

Definition everything {AP : APIntOps} {CFG : Config} : Supported :=
  {| supported := fun _ => True; supported_const := fun _ => I;
     supported_bin := fun _ _ _ _ _ _ _ _ _ _ => I |}.

Section meaning.
Context {AP : APIntOps} {CFG : Config} {SUP : Supported}.

Definition env_ok (rho : env) : Prop :=
  forall a i, 0 <= rho a i < 256 /\ (isSymbolicArray a = false \/ arr_size a <= i -> rho a i = 0).

Definition models (q : Query) (rho : env) : Prop := env_ok rho /\ Forall (true_under rho) (q_constraints q).

Record q_ok (q : Query) : Prop := {
  qk_constraints : Forall (fun c => wf c /\ getWidth c = Bool /\ supported c) (q_constraints q);
  qk_wf : wf (q_expr q);
  qk_supported : supported (q_expr q);
  qk_value rho : models q rho -> has_value rho (q_expr q);
}.

Definition valid (q : Query) : Prop := forall rho, models q rho -> true_under rho (q_expr q).
Definition refuted (q : Query) : Prop := forall rho, models q rho -> false_under rho (q_expr q).
Definition satisfiable (q : Query) : Prop := exists rho, models q rho.

(** The constraints admit an assignment that makes the expression true, or false. *)
Definition may_hold (q : Query) : Prop := exists rho, models q rho /\ true_under rho (q_expr q).
Definition may_fail (q : Query) : Prop := exists rho, models q rho /\ false_under rho (q_expr q).

Definition truth_answer (q : Query) (r : option bool) : Prop :=
  match r with Some true => valid q | Some false => may_fail q | None => True end.
Definition falsity_answer (q : Query) (r : option bool) : Prop :=
  match r with Some true => refuted q | Some false => may_hold q | None => True end.
Definition validity_answer (q : Query) (r : option Validity) : Prop :=
  match r with
  | Some VTrue => valid q
  | Some VFalse => refuted q
  | Some VUnknown => may_hold q /\ may_fail q
  | None => True
  end.
Definition value_answer (q : Query) (r : option expr) : Prop :=
  match r with
  | Some e => exists c, e = ConstantExpr c /\ apok c /\ bw c = getWidth (q_expr q) /\
      exists rho, models q rho /\ eval rho (q_expr q) = Some (raw c)
  | None => True
  end.
(** The bytes of the objects in some counterexample of the query, if there is one. *)
Definition object_bytes (rho : env) (a : Array) : list Z :=
  map (fun i => wrap 8 (rho a (Z.of_nat i))) (seq 0 (Z.to_nat (arr_size a))).
Definition initial_answer (q : Query) (objects : list Array) (r : option (list (list Z) * bool)) : Prop :=
  match r with
  | Some (values, true) => exists rho, models q rho /\ false_under rho (q_expr q) /\
      values = map (object_bytes rho) objects
  | Some (_, false) => valid q
  | None => True
  end.
End meaning.

(** An answer together with a state that keeps the invariant. *)
Definition answers {St A} (inv : St -> Prop) (P : A -> Prop) (m : result (A * St)) : Prop :=
  returns m (fun p => P (fst p) /\ inv (snd p)).

(** [Solver] never passes a constant expression on, but a layer of the chain can,
    when a negation folds; so the laws cover them. *)
Class SolverSpec {AP : APIntOps} {CFG : Config} {SUP : Supported} {St : Type} (SI : SolverImpl St) (inv : St -> Prop) : Prop := {
  computeTruth_spec q s : inv s -> q_ok q -> satisfiable q -> getWidth (q_expr q) = Bool ->
    answers inv (truth_answer q) (computeTruth q s);
  computeValidity_spec q s : inv s -> q_ok q -> satisfiable q -> getWidth (q_expr q) = Bool ->
    answers inv (validity_answer q) (computeValidity q s);
  computeValue_spec q s : inv s -> q_ok q -> satisfiable q ->
    answers inv (value_answer q) (computeValue q s);
  computeInitialValues_spec q objects s : inv s -> q_ok q -> getWidth (q_expr q) = Bool ->
    answers inv (initial_answer q objects) (computeInitialValues q objects s);
}.

(** ** The operations of Solver *)
Section sound.
Context {AP : APIntOps} {SP : APIntSpec AP} {CFG : Config} {SUP : Supported}.

Lemma bool_value rho e : wf e -> getWidth e = Bool -> has_value rho e -> true_under rho e \/ false_under rho e.
Proof.
  intros He We [v Hv]. pose proof (eval_inw rho e v He Hv) as Hi. rewrite We in Hi.
  destruct (inw1_cases v Hi) as [-> | ->]; [by right|by left].
Qed.

Lemma not_both rho e : true_under rho e -> false_under rho e -> False.
Proof. unfold true_under, false_under. congruence. Qed.

(** Replacing the expression by one that has its values. *)
Lemma withExpr_ok q e :
  q_ok q -> wf e -> supported e -> (forall rho, models q rho -> has_value rho e) -> q_ok (withExpr q e).
Proof. intros [? ? ? ?] He Hs Hv. by constructor. Qed.

Lemma builds_query q e m :
  q_ok q -> (forall rho, models q rho -> has_value rho e) -> builds m e -> (forall e', m = Ok e' -> supported e') ->
  returns m (fun e' => q_ok (withExpr q e') /\ getWidth e' = getWidth e /\
    forall rho v, models q rho -> eval rho e = Some v -> eval rho e' = Some v).
Proof.
  intros Hq Hv (e' & Em & He' & We & Re) Hs. exists e'. split; [done|]. split_and!; try done.
  - apply withExpr_ok; [done|done|by apply Hs|]. intros rho Hm. destruct (Hv rho Hm) as [v Hev]. exists v. by apply Re.
  - intros rho v _ Hev. by apply Re.
Qed.

Lemma negate_supported e z : wf e -> supported e -> createIsZero e = Ok z -> supported z.
Proof.
  intros He Hs. unfold createIsZero. destruct (ConstantExpr_create 0 (getWidth e)) as [c| |] eqn:Ec; [|done|done].
  cbn [mbind result_bind]. intros E. apply (supported_bin Kind.Eq e (ConstantExpr c)); try done.
  - pose proof (wf_width e He) as Hw. rewrite create_eq in Ec by (lia || apply inw_0 || (intros; apply inw_0); lia).
    injection Ec as <-. apply alloc_apok; [done|apply inw_0; lia].
  - apply supported_const.
Qed.

Lemma negate_ok q :
  q_ok q -> getWidth (q_expr q) = Bool ->
  returns (negateExpr q) (fun nq => q_ok nq /\ getWidth (q_expr nq) = Bool /\ q_constraints nq = q_constraints q /\
    forall rho, models q rho -> true_under rho (q_expr nq) <-> false_under rho (q_expr q)).
Proof.
  intros Hq Hw. pose proof (qk_wf _ Hq) as He. unfold negateExpr.
  assert (Hev : forall rho v, models q rho -> eval rho (q_expr q) = Some v ->
    eval rho (notb (q_expr q)) = Some (Z.b2z (v =? 0))).
  { intros rho v _ Hv. simpl. by rewrite Hv. }
  eapply returns_bind; [apply (builds_query q (notb (q_expr q)) _ Hq)|].
  - intros rho Hm. destruct (qk_value _ Hq rho Hm) as [v Hv]. eexists. by apply Hev.
  - by apply createIsZero_notb.
  - intros z. apply negate_supported; [done|apply Hq].
  - intros e (Hqe & We & Re). apply returns_ok. split_and!; try done. intros rho Hm. simpl.
    destruct (qk_value _ Hq rho Hm) as [v Hv]. unfold true_under, false_under.
    rewrite (Re rho _ Hm (Hev rho v Hm Hv)), Hv. destruct (Z.eqb_spec v 0); simpl; naive_solver.
Qed.

Section operations.
Context {St : Type} {SI : SolverImpl St} {inv : St -> Prop} {SS : SolverSpec SI inv}.

Lemma const_truth q c :
  q_ok q -> satisfiable q -> q_expr q = ConstantExpr c -> bw c = Bool -> truth_answer q (Some (CE_isTrue c)).
Proof.
  intros Hq [rho Hm] Ee Wc. pose proof (qk_wf _ Hq) as Hc. rewrite Ee in Hc.
  simpl. rewrite isTrue_eq by done. destruct Hc as [_ Hi]. rewrite Wc in Hi.
  destruct (inw1_cases _ Hi) as [E|E]; rewrite E; simpl.
  - exists rho. split; [done|]. unfold false_under. rewrite Ee. simpl. by rewrite E.
  - intros rho' _. unfold true_under. rewrite Ee. simpl. by rewrite E.
Qed.

Lemma mustBeTrue_ok q s :
  inv s -> q_ok q -> satisfiable q -> getWidth (q_expr q) = Bool ->
  answers inv (truth_answer q) (mustBeTrue q s).
Proof.
  intros Hs Hq Hsat Hw. unfold mustBeTrue. rewrite Hw. change (Bool =? Bool) with true.
  cbn [massert mbind result_bind]. pose proof (computeTruth_spec q s Hs Hq Hsat Hw) as Hi.
  destruct (q_expr q) as [c| | | | | | | | |] eqn:Ee; try (by apply Hi).
  apply returns_ok. split; [|done]. by apply const_truth.
Qed.

Lemma mustBeFalse_ok q s :
  inv s -> q_ok q -> satisfiable q -> getWidth (q_expr q) = Bool ->
  answers inv (falsity_answer q) (mustBeFalse q s).
Proof.
  intros Hs Hq Hsat Hw. unfold mustBeFalse. eapply returns_bind; [by apply negate_ok|].
  intros nq (Hnq & Wn & En & Hn).
  assert (Hm : forall rho, models nq rho <-> models q rho) by (intros rho; unfold models; by rewrite En).
  eapply returns_weaken; [apply mustBeTrue_ok; try done|].
  - destruct Hsat as [rho Hr]. exists rho. by apply Hm.
  - intros [[[]|] s'] [Hr Hs']; simpl in *; split; try done.
    + intros rho Hrho. apply Hn; [done|]. apply Hr. by apply Hm.
    + destruct Hr as (rho & Hrho & Hf). exists rho. rewrite Hm in Hrho. split; [done|].
      destruct (bool_value rho (q_expr q)) as [?|H]; try done; [apply Hq|by apply Hq|].
      apply Hn in H; [|done]. by destruct (not_both _ _ H Hf).
Qed.

Definition may_answer (q : Query) (r : option bool) : Prop :=
  match r with Some true => may_hold q | Some false => refuted q | None => True end.

Lemma mayBeTrue_ok q s :
  inv s -> q_ok q -> satisfiable q -> getWidth (q_expr q) = Bool ->
  answers inv (may_answer q) (mayBeTrue q s).
Proof.
  intros Hs Hq Hsat Hw. unfold mayBeTrue. eapply returns_bind; [by apply mustBeFalse_ok|].
  intros [[[]|] s'] [Hr Hs']; by apply returns_ok.
Qed.

Lemma mayBeFalse_ok q s :
  inv s -> q_ok q -> satisfiable q -> getWidth (q_expr q) = Bool ->
  answers inv (fun r => match r with Some true => may_fail q | Some false => valid q | None => True end) (mayBeFalse q s).
Proof.
  intros Hs Hq Hsat Hw. unfold mayBeFalse. eapply returns_bind; [by apply mustBeTrue_ok|].
  intros [[[]|] s'] [Hr Hs']; by apply returns_ok.
Qed.

Lemma evaluate_ok q s :
  inv s -> q_ok q -> satisfiable q -> getWidth (q_expr q) = Bool ->
  answers inv (validity_answer q) (evaluate q s).
Proof.
  intros Hs Hq Hsat Hw. unfold evaluate. rewrite Hw. change (Bool =? Bool) with true.
  cbn [massert mbind result_bind]. pose proof (computeValidity_spec q s Hs Hq Hsat Hw) as Hi.
  destruct (q_expr q) as [c| | | | | | | | |] eqn:Ee; try (by apply Hi).
  apply returns_ok. split; [|done]. pose proof (const_truth q c Hq Hsat Ee Hw) as Ht. simpl in *.
  destruct (CE_isTrue c); [done|]. destruct Ht as (rho & _ & Hf). intros rho' _.
  unfold false_under in *. by rewrite Ee in *.
Qed.

Lemma getValue_ok q s :
  inv s -> q_ok q -> satisfiable q ->
  answers inv (fun r => match r with Some c => value_answer q (Some (ConstantExpr c)) | None => True end) (getValue q s).
Proof.
  intros Hs Hq Hsat. unfold getValue. pose proof (computeValue_spec q s Hs Hq Hsat) as Hi.
  assert (Hgo : isConst (q_expr q) = false -> answers inv
    (fun r => match r with Some c => value_answer q (Some (ConstantExpr c)) | None => True end)
    ('(tmp, s) ← computeValue q s;
      match tmp with None => Ok (None, s) | Some (ConstantExpr c) => Ok (Some c, s) | Some _ => AssertFail end)).
  { intros Hc. eapply returns_bind; [by apply Hi|]. intros [[e|] s'] [Hr Hs']; simpl in Hr; [|by apply returns_ok].
    destruct Hr as (c & -> & Hr). apply returns_ok. split; [|done]. simpl. eauto. }
  destruct (q_expr q) as [c| | | | | | | | |] eqn:Ee; try (by apply Hgo).
  apply returns_ok. split; [|done]. destruct Hsat as [rho Hm]. exists c. rewrite Ee. split_and!; try done.
  - pose proof (qk_wf _ Hq) as H. by rewrite Ee in H.
  - by exists rho.
Qed.

Lemma getInitialValues_ok q objects s :
  inv s -> q_ok q -> getWidth (q_expr q) = Bool ->
  answers inv (fun r => match r with
    | Some values => exists rho, models q rho /\ false_under rho (q_expr q) /\ values = map (object_bytes rho) objects
    | None => True end) (getInitialValues q objects s).
Proof.
  intros Hs Hq Hw. unfold getInitialValues. eapply returns_bind; [by apply computeInitialValues_spec|].
  intros [[[values []]|] s'] [Hr Hs']; by apply returns_ok.
Qed.
End operations.

(** The default of [computeValidity] meets its specification. *)
Lemma default_computeValidity_ok {St} (truth : Query -> St -> result (option bool * St)) (inv : St -> Prop) q s :
  (forall q s, inv s -> q_ok q -> getWidth (q_expr q) = Bool -> answers inv (truth_answer q) (truth q s)) ->
  inv s -> q_ok q -> getWidth (q_expr q) = Bool ->
  answers inv (validity_answer q) (default_computeValidity truth q s).
Proof.
  intros Ht Hs Hq Hw. unfold default_computeValidity. eapply returns_bind; [by apply Ht|].
  intros [[[]|] s1] [Hr Hs1]; simpl in Hr; [by apply returns_ok| |by apply returns_ok].
  eapply returns_bind; [by apply negate_ok|]. intros nq (Hnq & Wn & En & Hn).
  assert (Hm : forall rho, models nq rho <-> models q rho) by (intros rho; unfold models; by rewrite En).
  eapply returns_bind; [by apply Ht|]. intros [[[]|] s2] [Hr2 Hs2]; apply returns_ok; (split; [|done]); simpl in *.
  - intros rho Hrho. apply Hn; [done|]. apply Hr2. by apply Hm.
  - split; [|done]. destruct Hr2 as (rho & Hrho & Hf). rewrite Hm in Hrho. exists rho. split; [done|].
    destruct (bool_value rho (q_expr q)) as [?|H]; try done; [apply Hq|by apply Hq|].
    apply Hn in H; [|done]. by destruct (not_both _ _ H Hf).
  - done.
Qed.
End sound.

(** *** Binary search *)
Section binary_search.
Context {St : Type} (inv : St -> Prop) (test : Z -> St -> result (bool * St)) (P N : Z -> Prop).
Hypothesis N_mono : forall m m', m' <= m -> N m -> N m'.

Lemma search_ok k : forall lo hi s,
  inv s -> lo <= hi -> hi - lo < 2 ^ Z.of_nat k -> P hi ->
  (forall m s, inv s -> lo <= m < hi -> answers inv (fun b : bool => if b then P m else N m) (test m s)) ->
  answers inv (fun x => lo <= x <= hi /\ P x /\ forall m, lo <= m < x -> N m) (search (S k) test lo hi s).
Proof.
  induction k as [|k IH]; intros lo hi s Hs Hle Hk HP Ht; cbn [search].
  - change (2 ^ Z.of_nat 0) with 1 in Hk. rewrite (proj2 (Z.ltb_ge lo hi)) by lia. apply returns_ok.
    simpl. split; [|done]. split_and!; [lia|lia|by replace lo with hi by lia|]. intros m Hm. lia.
  - destruct (Z.ltb_spec lo hi) as [Hlt|Hge].
    2:{ apply returns_ok. simpl. split; [|done]. split_and!; [lia|lia|by replace lo with hi by lia|]. intros m Hm. lia. }
    set (mid := lo + (hi - lo) / 2).
    assert (Hmid : lo <= mid < hi).
    { unfold mid. pose proof (Z.div_pos (hi - lo) 2). pose proof (Z.div_lt (hi - lo) 2). lia. }
    assert (Hhalf : mid - lo < 2 ^ Z.of_nat k /\ hi - (mid + 1) < 2 ^ Z.of_nat k).
    { replace (2 ^ Z.of_nat (S k)) with (2 * 2 ^ Z.of_nat k) in Hk
        by (rewrite Nat2Z.inj_succ, Z.pow_succ_r; lia).
      unfold mid. pose proof (Z.div_mod (hi - lo) 2). pose proof (Z.mod_pos_bound (hi - lo) 2). lia. }
    destruct Hhalf as [Hk1 Hk2].
    eapply returns_bind; [by apply Ht|]. intros [[] s'] [Hr Hs']; simpl in Hr, Hs'.
    + eapply returns_weaken; [apply (IH lo mid s' Hs'); try done; try lia|].
      { intros m s'' Hs'' Hm. apply Ht; [done|lia]. }
      intros [x s''] [(? & ? & ?) ?]. simpl in *. split; [|done]. split_and!; done || lia.
    + eapply returns_weaken; [apply (IH (mid + 1) hi s' Hs'); try done; try lia|].
      { intros m s'' Hs'' Hm. apply Ht; [done|lia]. }
      intros [x s''] [(? & ? & HN) ?]. simpl in *. split; [|done]. split_and!; try done; try lia.
      intros m Hm. destruct (Z.le_gt_cases m mid); [by apply (N_mono mid)|]. apply HN. lia.
Qed.

Lemma search64_ok lo hi s :
  inv s -> lo <= hi -> hi - lo <= 2 ^ 64 -> P hi ->
  (forall m s, inv s -> lo <= m < hi -> answers inv (fun b : bool => if b then P m else N m) (test m s)) ->
  answers inv (fun x => lo <= x <= hi /\ P x /\ forall m, lo <= m < x -> N m) (search search_fuel test lo hi s).
Proof.
  intros Hs Hle Hk. apply (search_ok 65); [done|done|]. change (2 ^ Z.of_nat 65) with (2 * 2 ^ 64). lia.
Qed.
End binary_search.

(** *** getRange *)
Section range.
Context {AP : APIntOps} {SP : APIntSpec AP} {CFG : Config} {SUP : Supported}.
Context {St : Type} {SI : SolverImpl St} {inv : St -> Prop} {SS : SolverSpec SI inv}.
(** getRange asserts that the queries succeed. *)
Hypothesis never_fails : forall q s s', computeTruth q s <> Ok (None, s').
Context (q : Query) (Hq : q_ok q) (Hsat : satisfiable q).
Let width : Z := getWidth (q_expr q).
Hypothesis Hw : 1 < width <= 64.

(** The values the expression takes under the constraints. *)
Definition takes (v : Z) : Prop := exists rho, models q rho /\ eval rho (q_expr q) = Some v.

Lemma takes_range v : takes v -> inw width v.
Proof. intros (rho & _ & Hv). eapply eval_inw; [apply Hq|done]. Qed.

Lemma takes_some : exists v, takes v.
Proof. destruct Hsat as [rho Hm]. destruct (qk_value _ Hq rho Hm) as [v Hv]. exists v. by exists rho. Qed.

Lemma must_total q' s p : mustBeTrue q' s = Ok p -> fst p <> None.
Proof.
  unfold mustBeTrue. destruct (massert _) as [[]| |]; [|done|done]. cbn [mbind result_bind].
  pose proof (never_fails q' s) as Hn. destruct p as [[b|] s']; [done|]. intros E _. revert E.
  destruct (q_expr q'); try (apply Hn). done.
Qed.

(** The answers about a test that is built for the value of the expression. *)
Section test.
Context (m : result expr) (t : expr) (f : Z -> bool).
Hypothesis Hb : builds m t.
Hypothesis Ht : getWidth t = Bool.
Hypothesis Hf : forall rho v, models q rho -> eval rho (q_expr q) = Some v -> eval rho t = Some (Z.b2z (f v)).
Hypothesis Hsup : forall e, m = Ok e -> supported e.

Lemma test_query : returns m (fun e => q_ok (withExpr q e) /\ satisfiable (withExpr q e) /\ getWidth e = Bool /\
  forall rho v, models q rho -> eval rho (q_expr q) = Some v -> eval rho e = Some (Z.b2z (f v))).
Proof.
  eapply returns_weaken; [apply (builds_query q t m Hq); [|done|done]|].
  - intros rho Hm. destruct (qk_value _ Hq rho Hm) as [v Hv]. eexists. by apply Hf.
  - intros e (Hqe & We & Re). split_and!; [done|done|congruence|]. intros rho v Hm Hv. apply Re; [done|]. by apply Hf.
Qed.

Lemma b2z_1 b : Some (Z.b2z b) = Some 1 -> b = true.
Proof. by destruct b. Qed.
Lemma b2z_0 b : Some (Z.b2z b) = Some 0 -> b = false.
Proof. by destruct b. Qed.

Lemma must_test s : inv s ->
  answers inv (fun b : bool => if b then forall v, takes v -> f v = true else exists v, takes v /\ f v = false)
    (e ← m; succeeds (mustBeTrue (withExpr q e) s)).
Proof.
  intros Hs. eapply returns_bind; [exact test_query|]. intros e (Hqe & Hse & We & He).
  destruct (mustBeTrue_ok (withExpr q e) s Hs Hqe Hse We) as ([r s'] & E & Hr & Hs').
  pose proof (must_total _ _ _ E) as Hn. unfold succeeds. rewrite E. cbn [mbind result_bind].
  destruct r as [b|]; [|done]. apply returns_ok. split; [|done]. simpl in *. destruct b.
  - intros v (rho & Hm & Hv). specialize (Hr rho Hm). unfold true_under in Hr. simpl in Hr.
    rewrite (He rho v Hm Hv) in Hr. by apply b2z_1.
  - destruct Hr as (rho & Hm & Hr). unfold false_under in Hr. simpl in Hr.
    destruct (qk_value _ Hq rho Hm) as [v Hv]. rewrite (He rho v Hm Hv) in Hr. apply b2z_0 in Hr.
    exists v. split; [by exists rho|done].
Qed.

Lemma may_test s : inv s ->
  answers inv (fun b : bool => if b then exists v, takes v /\ f v = true else forall v, takes v -> f v = false)
    (e ← m; succeeds (mayBeTrue (withExpr q e) s)).
Proof.
  intros Hs. eapply returns_bind; [exact test_query|]. intros e (Hqe & Hse & We & He).
  destruct (mayBeTrue_ok (withExpr q e) s Hs Hqe Hse We) as ([r s'] & E & Hr & Hs').
  unfold succeeds. rewrite E. cbn [mbind result_bind]. destruct r as [b|].
  2:{ exfalso. unfold mayBeTrue, mustBeFalse in E. destruct (negateExpr (withExpr q e)) as [nq| |]; [|done|done].
      cbn [mbind result_bind] in E. destruct (mustBeTrue nq s) as [[[b|] s'']| |] eqn:Em; cbn [mbind result_bind] in E;
        [injection E; done| |done|done]. by apply must_total in Em. }
  apply returns_ok. split; [|done]. simpl in *. destruct b.
  - destruct Hr as (rho & Hm & Hr). unfold true_under in Hr. simpl in Hr.
    destruct (qk_value _ Hq rho Hm) as [v Hv]. rewrite (He rho v Hm Hv) in Hr. apply b2z_1 in Hr.
    exists v. split; [by exists rho|done].
  - intros v (rho & Hm & Hv). specialize (Hr rho Hm). unfold false_under in Hr. simpl in Hr.
    rewrite (He rho v Hm Hv) in Hr. by apply b2z_0.
Qed.
End test.

Lemma create_mid x : 0 <= x < 2 ^ width -> ConstantExpr_create x width = Ok (APInt width x).
Proof.
  intros Hx. assert (2 ^ width <= 2 ^ 64) by (apply Z.pow_le_mono_r; lia).
  rewrite create_eq by (done || lia || (unfold inw; lia)). rewrite alloc_eq by (lia || (unfold inw; lia)).
  by rewrite wrap_small.
Qed.

Lemma mid_wf x : 0 <= x < 2 ^ width -> wf (ConstantExpr (APInt width x)).
Proof. intros Hx. split; simpl; [lia|done]. Qed.

(** A comparison of the expression with a constant. *)
Lemma cmp_builds k x : Kind.isCmp k = true -> 0 <= x < 2 ^ width ->
  builds (bin_create k (q_expr q) (ConstantExpr (APInt width x))) (BinExpr k (q_expr q) (ConstantExpr (APInt width x))) /\
  getWidth (BinExpr k (q_expr q) (ConstantExpr (APInt width x))) = Bool.
Proof.
  intros Hk Hx. split; [|simpl; by rewrite Hk].
  apply bin_create_builds; [apply Hq|by apply mid_wf|done|]. apply not_div_ok. by destruct k.
Qed.

Lemma cmp_supported k x e : isDiv k = false -> 0 <= x < 2 ^ width ->
  bin_create k (q_expr q) (ConstantExpr (APInt width x)) = Ok e -> supported e.
Proof.
  intros Hk Hx. apply supported_bin; [done|apply Hq|by apply mid_wf|apply Hq|apply supported_const].
Qed.

Lemma width_lt_pow : width < 2 ^ width.
Proof. apply Z.pow_gt_lin_r; lia. Qed.

Lemma fits_test_ok x s : inv s -> 0 <= x < width ->
  answers inv (fun b : bool => if b then forall v, takes v -> v < 2 ^ x else True) (fits_test q x s).
Proof.
  intros Hs Hx. pose proof width_lt_pow. unfold fits_test. fold width.
  rewrite !create_mid by lia. cbn [mbind result_bind].
  set (c := ConstantExpr (APInt width x)). set (z := ConstantExpr (APInt width 0)).
  assert (Hsh : builds (bin_create Kind.LShr (q_expr q) c) (BinExpr Kind.LShr (q_expr q) c)).
  { apply bin_create_builds; [apply Hq|apply mid_wf; lia|done|by apply not_div_ok]. }
  assert (Hm : builds (sh ← bin_create Kind.LShr (q_expr q) c; bin_create Kind.Eq sh z)
    (BinExpr Kind.Eq (BinExpr Kind.LShr (q_expr q) c) z)).
  { eapply builds_bind; [exact Hsh|]. intros sh (Wsh & Esh & Rsh).
    eapply builds_trans; [apply bin_create_builds; [done|apply mid_wf; lia|rewrite Esh; done|by apply not_div_ok]|].
    apply impl_bin_l; [by split_and!|apply mid_wf; lia|done]. }
  pose proof (must_test _ _ (fun v => v <? 2 ^ x) Hm eq_refl) as H'. 
  eapply returns_weaken; [rewrite <- bind_assoc; apply H'; [| |done]|].
  - intros rho v Hmo Hv. assert (Hi : inw width v) by (apply takes_range; by exists rho).
    simpl. rewrite Hv. simpl. unfold bv_lshr. fold width. rewrite (proj2 (Z.leb_gt width x)) by lia. simpl.
    do 2 f_equal. destruct Hi as [Hv0 _]. assert (0 < 2 ^ x) by (apply Z.pow_pos_nonneg; lia).
    destruct (Z.ltb_spec v (2 ^ x)); [by rewrite Z.div_small by lia|].
    apply Z.eqb_neq. intros E. apply Z.div_small_iff in E; lia.
  - intros e. destruct Hsh as (sh & Esh & Wsh & _). rewrite Esh. cbn [mbind result_bind].
    apply supported_bin; [done|done|apply mid_wf; lia| |apply supported_const].
    apply (cmp_supported Kind.LShr x); [done|lia|exact Esh].
  - intros [b s'] [Hb' Hs']. split; [|done]. simpl in *. destruct b; [|done].
    intros v Hv. apply Z.ltb_lt. by apply Hb'.
Qed.

(** A bound test: [UleExpr::create(e, x)]. *)
Lemma ule_builds x : 0 <= x < 2 ^ width ->
  builds (ule_expr q x) (BinExpr Kind.Ule (q_expr q) (ConstantExpr (APInt width x))) /\
  (forall e, ule_expr q x = Ok e -> supported e) /\
  forall rho v, eval rho (q_expr q) = Some v ->
    eval rho (BinExpr Kind.Ule (q_expr q) (ConstantExpr (APInt width x))) = Some (Z.b2z (v <=? x)).
Proof.
  intros Hx. unfold ule_expr. fold width. rewrite create_mid by done. cbn [mbind result_bind].
  split; [by apply cmp_builds|]. split; [intros e; by apply cmp_supported|]. intros rho v Hv. simpl. by rewrite Hv.
Qed.

Lemma min_test_ok x s : inv s -> 0 <= x < 2 ^ width ->
  answers inv (fun b : bool => if b then exists v, takes v /\ v <= x else forall v, takes v -> x < v) (min_test q x s).
Proof.
  intros Hs Hx. destruct (ule_builds x Hx) as (Hb & Hu & Hv). unfold min_test.
  eapply returns_weaken; [apply (may_test _ _ (fun v => v <=? x) Hb eq_refl); [by auto|done|done]|].
  intros [[] s'] [H Hs']; simpl in *; (split; [|done]).
  - destruct H as (v & ? & ?). exists v. split; [done|]. by apply Z.leb_le.
  - intros v Ht. apply Z.leb_gt. by apply H.
Qed.

Lemma max_test_ok x s : inv s -> 0 <= x < 2 ^ width ->
  answers inv (fun b : bool => if b then forall v, takes v -> v <= x else exists v, takes v /\ x < v) (max_test q x s).
Proof.
  intros Hs Hx. destruct (ule_builds x Hx) as (Hb & Hu & Hv). unfold max_test.
  eapply returns_weaken; [apply (must_test _ _ (fun v => v <=? x) Hb eq_refl); [by auto|done|done]|].
  intros [[] s'] [H Hs']; simpl in *; (split; [|done]).
  - intros v Ht. apply Z.leb_le. by apply H.
  - destruct H as (v & ? & ?). exists v. split; [done|]. by apply Z.leb_gt.
Qed.

(** The range is tight. *)
Definition tight (mn mx : Z) : Prop := takes mn /\ takes mx /\ forall v, takes v -> mn <= v <= mx.

Lemma useful_bits_ok s : inv s ->
  answers inv (fun bits => 0 <= bits <= width /\ forall v, takes v -> v < 2 ^ bits) (useful_bits q s).
Proof.
  intros Hs. unfold useful_bits. fold width.
  eapply returns_weaken.
  - apply (search64_ok inv (fits_test q) (fun x => forall v, takes v -> v < 2 ^ x) (fun _ => True)); try done; try lia.
    + intros v Ht. by apply takes_range.
    + intros m s' Hs' Hm. by apply fits_test_ok.
  - intros [bits s1] [(Hbits & Hfit & _) Hs1]. done.
Qed.

Section bounded.
Context (bits : Z) (Hbits : 0 <= bits <= width) (Hfit : forall v, takes v -> v < 2 ^ bits).

Lemma bits_pow : 0 < 2 ^ bits <= 2 ^ width /\ 2 ^ bits <= 2 ^ 64.
Proof. split_and!; [apply Z.pow_pos_nonneg; lia|apply Z.pow_le_mono_r; lia..]. Qed.

Lemma range_min_ok s : inv s ->
  answers inv (fun mn => takes mn /\ forall v, takes v -> mn <= v) (range_min q bits s).
Proof.
  intros Hs. pose proof bits_pow. unfold range_min. fold width. rewrite create_mid by lia. cbn [mbind result_bind].
  destruct (cmp_builds Kind.Eq 0 eq_refl ltac:(lia)) as [Hb0 W0].
  eapply returns_bind.
  { apply (may_test _ _ (fun v => v =? 0) Hb0 W0); [| |exact Hs]; [intros rho v _ Hv; simpl; by rewrite Hv|].
    intros e. apply cmp_supported; [done|lia]. }
  intros [[] s1] [Hres Hs1]; simpl in Hres, Hs1.
  { destruct Hres as (v & Hv & ->%Z.eqb_eq). apply returns_ok. split; [|done]. split; [done|].
    intros u Hu. by apply takes_range. }
  rewrite maxValueOfNBits_eq by lia. cbn [mbind result_bind]. destruct takes_some as [v0 Hv0].
  eapply returns_weaken.
  - apply (search64_ok inv (min_test q) (fun x => exists v, takes v /\ v <= x) (fun x => forall v, takes v -> x < v)); try done; try lia.
    + intros m m' Hm Hv v Ht. specialize (Hv v Ht). lia.
    + exists v0. split; [done|]. specialize (Hfit v0 Hv0). lia.
    + intros m s' Hs' Hm. apply min_test_ok; [done|lia].
  - intros [mn s2] [(Hr & (v & Hv & Hle) & Hn) Hs2]. simpl in *. split; [|done].
    assert (Hlow : forall v, takes v -> mn <= v).
    { intros u Hu. destruct (Z.le_gt_cases mn u); [done|]. destruct (takes_range u Hu) as [? _].
      specialize (Hn u ltac:(lia) u Hu). lia. }
    split; [|done]. specialize (Hlow v Hv). by replace mn with v by lia.
Qed.

Lemma range_max_ok mn s : inv s -> takes mn ->
  answers inv (fun mx => takes mx /\ forall v, takes v -> v <= mx) (range_max q bits mn s).
Proof.
  intros Hs Hmn. pose proof bits_pow. unfold range_max. rewrite maxValueOfNBits_eq by lia. cbn [mbind result_bind].
  destruct (takes_range mn Hmn) as [Hmn0 _]. pose proof (Hfit mn Hmn).
  eapply returns_weaken.
  - apply (search64_ok inv (max_test q) (fun x => forall v, takes v -> v <= x) (fun x => exists v, takes v /\ x < v)); try done; try lia.
    + intros m m' Hm (v & ? & ?). exists v. split; [done|lia].
    + intros v Hv. specialize (Hfit v Hv). lia.
    + intros m s' Hs' Hm. apply max_test_ok; [done|lia].
  - intros [mx s1] [(Hr & Hup & Hn) Hs1]. simpl in *. split; [|done]. split; [|done].
    destruct (Z.eq_dec mx mn) as [->|]; [done|].
    destruct (Hn (mx - 1) ltac:(lia)) as (v & Hv & Hgt). specialize (Hup v Hv). by replace mx with v by lia.
Qed.
End bounded.

Lemma range_search_ok s : inv s ->
  answers inv (fun r => tight (fst r) (snd r)) (range_search q s).
Proof.
  intros Hs. unfold range_search. eapply returns_bind; [by apply useful_bits_ok|].
  intros [bits s1] [[Hb Hfit] Hs1]. simpl in Hb, Hfit, Hs1.
  eapply returns_bind; [by apply (range_min_ok bits Hb Hfit)|]. intros [mn s2] [[Hmn Hlow] Hs2]. simpl in Hmn, Hlow, Hs2.
  eapply returns_bind; [by apply (range_max_ok bits Hb Hfit)|]. intros [mx s3] [[Hmx Hup] Hs3].
  apply returns_ok. split; [|done]. simpl in *. split_and!; auto.
Qed.
End range.

(** ** TimingSolver *)
Class TimingSolver := {
  simplifyExprs : bool;
  simplify_fuel : expr -> nat;    (* the fuel [simplifyExpr] runs on *)
}.

Module TS.
Section timing.
Context {AP : APIntOps} {CFG : Config} {St : Type} {SI : SolverImpl St} {T : TimingSolver}.

Definition query (state : CState) (e : expr) : Query := {| q_constraints := constraints state; q_expr := e |}.
Definition simplify (state : CState) (e : expr) : result expr :=
  if simplifyExprs then simplifyExpr (simplify_fuel e) e state else Ok e.

(** The call of [simplifyExpr] is commented out in [evaluate]. *)
Definition evaluate (state : CState) (e : expr) (s : St) : result (option Validity * St) :=
  match e with
  | ConstantExpr CE => Ok (Some (if CE_isTrue CE then VTrue else VFalse), s)
  | _ => evaluate (query state e) s
  end.
Definition mustBeTrue (state : CState) (e : expr) (s : St) : result (option bool * St) :=
  match e with
  | ConstantExpr CE => Ok (Some (CE_isTrue CE), s)
  | _ => e ← simplify state e; mustBeTrue (query state e) s
  end.
Definition mustBeFalse (state : CState) (e : expr) (s : St) : result (option bool * St) :=
  z ← createIsZero e; mustBeTrue state z s.
Definition mayBeTrue (state : CState) (e : expr) (s : St) : result (option bool * St) :=
  '(res, s) ← mustBeFalse state e s; Ok (negb <$> (res : option bool), s).
Definition mayBeFalse (state : CState) (e : expr) (s : St) : result (option bool * St) :=
  '(res, s) ← mustBeTrue state e s; Ok (negb <$> (res : option bool), s).
Definition getValue (state : CState) (e : expr) (s : St) : result (option apint * St) :=
  match e with
  | ConstantExpr CE => Ok (Some CE, s)
  | _ => e ← simplify state e; getValue (query state e) s
  end.
Definition getInitialValues (state : CState) (objects : list Array) (s : St) : result (option (list (list Z)) * St) :=
  match objects with
  | [] => Ok (Some [], s)
  | _ => getInitialValues (query state (ConstantExpr (ConstantExpr_alloc 0 Bool))) objects s
  end.
Definition getRange (state : CState) (e : expr) (s : St) : result (apint * apint * St) := getRange (query state e) s.
End timing.
End TS.

Section timing_sound.
Context {AP : APIntOps} {SP : APIntSpec AP} {CFG : Config} {SUP : Supported} {St : Type} {SI : SolverImpl St}.
Context {inv : St -> Prop} {SS : SolverSpec SI inv} {T : TimingSolver}.
Context (state : CState).

(** The path condition can be simplified against: more fuel changes nothing, and the
    result is supported. *)
Definition simplifies : Prop :=
  simplifyExprs = true -> ConstArrayOpt = false /\ (exists N N', st_inv N N' state) /\
  (forall e k, wf e -> (simplify_fuel e <= k)%nat -> simplifyExpr k e state = simplifyExpr (simplify_fuel e) e state) /\
  (forall e k e', wf e -> supported e -> simplifyExpr k e state = Ok e' -> supported e').

Context (Hsim : simplifies) (Hsat : satisfiable (TS.query state (ConstantExpr (APInt Bool 0)))).

Lemma simplify_ok e :
  q_ok (TS.query state e) ->
  returns (TS.simplify state e) (fun e' => q_ok (TS.query state e') /\ getWidth e' = getWidth e /\
    forall rho v, models (TS.query state e) rho -> eval rho e = Some v -> eval rho e' = Some v).
Proof.
  intros Hq. unfold TS.simplify. destruct simplifyExprs eqn:E; [|apply returns_ok; by split_and!].
  destruct (Hsim E) as (Hopt & (N & N' & Hst) & Hfuel & Hsup). pose proof (qk_wf _ Hq) as He. simpl in He.
  assert (Hall : forall rho F, F \/ sat rho state /\ has_value rho e ->
    settles F (fun fuel => simplifyExpr fuel e state) (fun r => rewritten rho (sat rho state) shrinks e r)).
  { intros rho F HF. by apply (simplifyExpr_ok Hopt N N'). }
  destruct (settles_all _ (fun rho => sat rho state /\ has_value rho e) _
    (fun rho => Hall rho True (or_introl I)) (fun rho Hp => Hall rho False (or_intror Hp))) as (r & [n Hr] & _ & Hok & HP).
  destruct Hok as [e' ->].
  { destruct Hsat as [rho Hm]. exists rho. split; [apply Hm|]. by apply (qk_value _ Hq). }
  assert (He'' : supported e') by (eapply (Hsup e (n + simplify_fuel e)%nat); [done|apply Hq|by rewrite Hr by lia]).
  rewrite <- (Hfuel e (n + simplify_fuel e)%nat He), Hr by lia. apply returns_ok.
  specialize (HP e' eq_refl). destruct (HP (fun _ _ => 0)) as [(He' & We & _) _].
  assert (Hval : forall rho v, models (TS.query state e) rho -> eval rho e = Some v -> eval rho e' = Some v).
  { intros rho v Hm Hv. destruct (HP rho) as [(_ & _ & Hv') _]. apply Hv'; [apply Hm|done]. }
  split_and!; try done. constructor; [apply Hq|done|done|]. intros rho Hm.
  destruct (qk_value _ Hq rho Hm) as [v Hv]. exists v. by apply Hval.
Qed.

(** Answers about an expression that has the same values. *)
Lemma transfer e e' :
  q_ok (TS.query state e) -> q_ok (TS.query state e') ->
  (forall rho v, models (TS.query state e) rho -> eval rho e = Some v -> eval rho e' = Some v) ->
  forall rho v, models (TS.query state e) rho -> eval rho e' = Some v -> eval rho e = Some v.
Proof.
  intros Hq Hq' He rho v Hm Hv. destruct (qk_value _ Hq rho Hm) as [u Hu]. simpl in Hu.
  pose proof (He rho u Hm Hu). congruence.
Qed.

Lemma TS_mustBeTrue_ok e s :
  inv s -> q_ok (TS.query state e) -> getWidth e = Bool ->
  answers inv (truth_answer (TS.query state e)) (TS.mustBeTrue state e s).
Proof.
  intros Hs Hq Hw.
  assert (Hgo : answers inv (truth_answer (TS.query state e)) (e' ← TS.simplify state e; mustBeTrue (TS.query state e') s)).
  { eapply returns_bind; [by apply simplify_ok|]. intros e' (Hq' & We & He).
    pose proof (transfer e e' Hq Hq' He) as Hback.
    eapply returns_weaken; [apply mustBeTrue_ok; try done; simpl; congruence|].
    intros [[[]|] s'] [Hr Hs']; (split; [|done]); simpl in *; [| |done].
    - intros rho Hm. apply Hback; [done|]. by apply Hr.
    - destruct Hr as (rho & Hm & Hf). exists rho. split; [done|]. by apply Hback. }
  destruct e as [c| | | | | | | | |]; try exact Hgo. apply returns_ok. split; [|done]. by apply const_truth.
Qed.

Lemma TS_mayBeTrue_ok e s :
  inv s -> q_ok (TS.query state e) -> getWidth e = Bool ->
  answers inv (may_answer (TS.query state e)) (TS.mayBeTrue state e s).
Proof.
  intros Hs Hq Hw. unfold TS.mayBeTrue, TS.mustBeFalse.
  assert (Hev : forall rho v, models (TS.query state e) rho -> eval rho e = Some v ->
    eval rho (notb e) = Some (Z.b2z (v =? 0))).
  { intros rho v _ Hv. simpl. by rewrite Hv. }
  destruct (builds_query (TS.query state e) (notb e) (createIsZero e) Hq) as (z & -> & Hqz & Wz & Rz).
  { intros rho Hm. destruct (qk_value _ Hq rho Hm) as [v Hv]. eexists. by apply Hev. }
  { apply createIsZero_notb; [apply Hq|done]. }
  { intros z. apply negate_supported; apply Hq. }
  cbn [mbind result_bind]. eapply returns_bind; [by apply (TS_mustBeTrue_ok z)|].
  assert (Hz : forall rho, models (TS.query state e) rho ->
    (true_under rho z -> false_under rho e) /\ (false_under rho z -> true_under rho e)).
  { intros rho Hm. destruct (qk_value _ Hq rho Hm) as [v Hv]. simpl in Hv.
    destruct (bool_value rho e) as [Ht|Hf]; [apply Hq|done|by exists v| |].
    - unfold true_under, false_under in *. rewrite (Rz rho _ Hm (Hev rho v Hm Hv)). rewrite Ht in Hv. injection Hv as <-. done.
    - unfold true_under, false_under in *. rewrite (Rz rho _ Hm (Hev rho v Hm Hv)). rewrite Hf in Hv. injection Hv as <-. done. }
  intros [[[]|] s'] [Hr Hs']; apply returns_ok; (split; [|done]); simpl in *; [| |done].
  - intros rho Hm. apply Hz; [done|]. by apply Hr.
  - destruct Hr as (rho & Hm & Hf). exists rho. split; [done|]. by apply Hz.
Qed.

Lemma TS_getValue_ok e s :
  inv s -> q_ok (TS.query state e) ->
  answers inv (fun r => match r with Some c => value_answer (TS.query state e) (Some (ConstantExpr c)) | None => True end)
    (TS.getValue state e s).
Proof.
  intros Hs Hq.
  assert (Hgo : answers inv (fun r => match r with Some c => value_answer (TS.query state e) (Some (ConstantExpr c)) | None => True end)
    (e' ← TS.simplify state e; getValue (TS.query state e') s)).
  { eapply returns_bind; [by apply simplify_ok|]. intros e' (Hq' & We & He).
    eapply returns_weaken; [by apply getValue_ok|]. intros [[c|] s'] [Hr Hs']; (split; [|done]); simpl in *; [|done].
    destruct Hr as (d & [= <-] & ? & ? & rho & Hm & Hv). exists c. split_and!; try done; [congruence|].
    exists rho. split; [done|]. by eapply transfer. }
  destruct e as [c| | | | | | | | |]; try exact Hgo. apply returns_ok. split; [|done].
  destruct Hsat as [rho Hm]. exists c. simpl. split_and!; try done; [apply Hq|]. by exists rho.
Qed.

Lemma TS_evaluate_ok e s :
  inv s -> q_ok (TS.query state e) -> getWidth e = Bool ->
  answers inv (validity_answer (TS.query state e)) (TS.evaluate state e s).
Proof.
  intros Hs Hq Hw. pose proof (evaluate_ok (TS.query state e) s Hs Hq Hsat Hw) as H.
  destruct e; try exact H. unfold evaluate in H. simpl in H, Hw. rewrite Hw in H. exact H.
Qed.
End timing_sound.

(** ** Theorems *)


(** The two ends are values of the expression, and they fit its width. *)
Definition range_ok {CFG : Config} (q : Query) (r : Z * Z) : Prop :=
  tight q (fst r) (snd r) /\ inw (getWidth (q_expr q)) (fst r) /\ inw (getWidth (q_expr q)) (snd r).

Section range_cases.
Context {AP : APIntOps} {SP : APIntSpec AP} {CFG : Config} {SUP : Supported} {St : Type} {SI : SolverImpl St}.
Context {inv : St -> Prop} {SS : SolverSpec SI inv} (q : Query) (s : St).
Context (Hs : inv s) (Hq : q_ok q) (Hsat : satisfiable q).

(** An expression that always has the value [x]. *)
Lemma range_point x : (forall v, takes q v -> v = x) -> range_ok q (x, x).
Proof.
  intros Hall. destruct (takes_some q Hq Hsat) as [v Hv]. pose proof (Hall v Hv) as ->.
  assert (inw (getWidth (q_expr q)) x) by (by apply (takes_range q Hq)).
  split; [|done]. split_and!; [done|done|]. intros v Hv'. simpl. rewrite (Hall v Hv'). lia.
Qed.

Lemma range_bool : getWidth (q_expr q) = 1 -> (forall q s s', computeValidity q s <> Ok (None, s')) ->
  answers inv (range_ok q) ('(r, s) ← evaluate q s; match r with None => AssertFail | Some VTrue => Ok (1, 1, s)
    | Some VFalse => Ok (0, 0, s) | Some VUnknown => Ok (0, 1, s) end).
Proof.
  intros E Hv. destruct (evaluate_ok q s Hs Hq Hsat E) as ([r s1] & Ev & Hr & Hs1). rewrite Ev. cbn [mbind result_bind].
  destruct r as [[]|]; simpl in Hr; try (apply returns_ok; split; [|done]).
  - apply range_point. intros v (rho & Hm & Hx). specialize (Hr rho Hm). unfold true_under in Hr. congruence.
  - apply range_point. intros v (rho & Hm & Hx). specialize (Hr rho Hm). unfold false_under in Hr. congruence.
  - unfold range_ok. rewrite E. split; [|done]. destruct Hr as [(r1 & ? & ?) (r0 & ? & ?)].
    split_and!; [by exists r0|by exists r1|]. intros v Hx. apply (takes_range q Hq) in Hx. rewrite E in Hx.
    destruct (inw1_cases _ Hx) as [-> | ->]; simpl; lia.
  - exfalso. unfold evaluate in Ev. rewrite E in Ev. revert Ev. change (1 =? Bool) with true.
    cbn [massert mbind result_bind]. destruct (q_expr q); try apply Hv. done.
Qed.

Lemma range_const c : q_expr q = ConstantExpr c -> bw c <= 64 ->
  answers inv (range_ok q) (v ← CE_getZExtValue c 64; Ok (v, v, s)).
Proof.
  intros Ee Hw. pose proof (qk_wf _ Hq) as Hc. rewrite Ee in Hc. unfold CE_getZExtValue.
  rewrite massert_true by (by apply Z.leb_le). cbn [mbind result_bind]. rewrite ap_getZExtValue_spec by done.
  apply returns_ok. split; [|done]. apply range_point. intros v (rho & _ & Hx). rewrite Ee in Hx. simpl in Hx. congruence.
Qed.
End range_cases.

(** C36. [Solver::getRange] terminates and returns a tight range: for an expression of
    at most 64 bits both bounds are values the expression takes under the
    constraints, and all of its values lie between them.  The three binary searches
    stay within 64-bit arithmetic.  As the source asserts, the underlying queries
    have to succeed. *)
Theorem getRange_tight {AP : APIntOps} {SP : APIntSpec AP} {CFG : Config} {SUP : Supported} {St : Type} {SI : SolverImpl St}
    {inv : St -> Prop} {SS : SolverSpec SI inv} (q : Query) (s : St) :
  (forall q s s', computeTruth q s <> Ok (None, s')) -> (forall q s s', computeValidity q s <> Ok (None, s')) ->
  inv s -> q_ok q -> satisfiable q -> getWidth (q_expr q) <= 64 ->
  returns (getRange q s) (fun p => let '(a, b, s') := p in
    bw a = getWidth (q_expr q) /\ bw b = getWidth (q_expr q) /\ tight q (raw a) (raw b) /\ inv s').
Proof.
  intros Ht Hv Hs Hq Hsat Hw. pose proof (wf_width _ (qk_wf _ Hq)) as Hpos.
  assert (Hgo : answers inv (range_ok q) (if getWidth (q_expr q) =? 1 then
      '(r, s) ← evaluate q s; match r with None => AssertFail | Some VTrue => Ok (1, 1, s)
        | Some VFalse => Ok (0, 0, s) | Some VUnknown => Ok (0, 1, s) end
      else match q_expr q with ConstantExpr CE => v ← CE_getZExtValue CE 64; Ok (v, v, s) | _ => range_search q s end)).
  { destruct (Z.eqb_spec (getWidth (q_expr q)) 1) as [E|N]; [by apply range_bool|].
    assert (Hrs : answers inv (range_ok q) (range_search q s)).
    { eapply returns_weaken; [apply (range_search_ok Ht q Hq Hsat ltac:(lia) s Hs)|].
      intros [[mn mx] s'] [Hti ?]. simpl in *. split; [|done]. split; [done|]. split; apply (takes_range q Hq), Hti. }
    destruct (q_expr q) as [c| | | | | | | | |] eqn:Ee; try exact Hrs. by apply range_const. }
  unfold getRange. eapply returns_bind; [exact Hgo|]. intros [[mn mx] s'] [(Hti & Hn & Hx) Hs']. simpl in *.
  assert (Hcr : forall x, inw (getWidth (q_expr q)) x ->
    ConstantExpr_create x (getWidth (q_expr q)) = Ok (APInt (getWidth (q_expr q)) x)).
  { intros x Hx'. assert (inw 64 x) by (eapply inw_mono; [|exact Hx']; lia). rewrite create_eq by (done || lia).
    rewrite alloc_eq by (done || lia). by rewrite wrap_small. }
  rewrite !Hcr by done. cbn [mbind result_bind]. by apply returns_ok.
Qed.

(** [TimingSolver] answers about the state's path condition: simplifying the
    expression against the constraints first, as it does by default, changes no
    answer of [mustBeTrue], [mayBeTrue] and [getValue], nor of [evaluate]. *)
Theorem timing_answers {AP : APIntOps} {SP : APIntSpec AP} {CFG : Config} {SUP : Supported} {St : Type} {SI : SolverImpl St}
    {inv : St -> Prop} {SS : SolverSpec SI inv} {T : TimingSolver} (state : CState) (e : expr) (s : St) :
  simplifies state -> satisfiable (TS.query state e) -> inv s -> q_ok (TS.query state e) -> getWidth e = Bool ->
  answers inv (truth_answer (TS.query state e)) (TS.mustBeTrue state e s) /\
  answers inv (may_answer (TS.query state e)) (TS.mayBeTrue state e s) /\
  answers inv (validity_answer (TS.query state e)) (TS.evaluate state e s) /\
  answers inv (fun r => match r with Some c => value_answer (TS.query state e) (Some (ConstantExpr c)) | None => True end)
    (TS.getValue state e s).
Proof.
  intros Hsim Hsat Hs Hq Hw. split_and!;
    [by apply TS_mustBeTrue_ok|by apply TS_mayBeTrue_ok|by apply TS_evaluate_ok|by apply TS_getValue_ok].
Qed.

(** ** An implementation that meets the interface

    A decision procedure that answers every query, by case analysis on what is
    true; it only shows that the laws are consistent. *)
Module Oracle.
Section oracle.
Context {AP : APIntOps} {SP : APIntSpec AP} {CFG : Config} {SUP : Supported}.

Definition truth (q : Query) (s : unit) : result (option bool * unit) :=
  Ok (Some (if excluded_middle_informative (may_fail q) then false else true), s).
Definition value (q : Query) (s : unit) : result (option expr * unit) :=
  Ok (match excluded_middle_informative (exists c, value_answer q (Some (ConstantExpr c))) with
      | left H => Some (ConstantExpr (proj1_sig (constructive_indefinite_description _ H)))
      | right _ => None
      end, s).
Definition initial_values (q : Query) (objects : list Array) (s : unit) : result (option (list (list Z) * bool) * unit) :=
  Ok (match excluded_middle_informative (may_fail q) with
      | left H => Some (map (object_bytes (proj1_sig (constructive_indefinite_description _ H))) objects, true)
      | right _ => Some ([], false)
      end, s).

#[export] Instance impl : SolverImpl unit := {|
  computeTruth := truth; computeValidity := default_computeValidity truth;
  computeValue := value; computeInitialValues := initial_values |}.

Lemma no_fail_valid q : q_ok q -> getWidth (q_expr q) = Bool -> ~ may_fail q -> valid q.
Proof.
  intros Hq Hw Hn rho Hm. destruct (bool_value rho (q_expr q)) as [?|?]; try done; [apply Hq|by apply Hq|].
  exfalso. apply Hn. by exists rho.
Qed.

Lemma truth_ok q s : q_ok q -> getWidth (q_expr q) = Bool -> answers (fun _ => True) (truth_answer q) (truth q s).
Proof.
  intros Hq Hw. apply returns_ok. split; [|done]. simpl.
  destruct (excluded_middle_informative _); [done|]. by apply no_fail_valid.
Qed.

#[export] Instance spec : SolverSpec impl (fun _ => True).
Proof.
  split; intros; cbn [computeTruth computeValidity computeValue computeInitialValues impl].
  - by apply truth_ok.
  - apply (default_computeValidity_ok truth); try done. intros. by apply truth_ok.
  - apply returns_ok. split; [|done]. unfold fst. destruct (excluded_middle_informative _) as [Hc|]; [|done].
    exact (proj2_sig (constructive_indefinite_description _ Hc)).
  - apply returns_ok. split; [|done]. unfold fst. destruct (excluded_middle_informative _) as [Hf|Hf].
    + destruct (constructive_indefinite_description _ Hf) as (rho & ? & ?). by exists rho.
    + by apply no_fail_valid.
Qed.

Lemma truth_total q s s' : computeTruth q s <> Ok (None, s').
Proof. done. Qed.
Lemma validity_total q s s' : computeValidity q s <> Ok (None, s').
Proof.
  cbn [computeValidity impl]. unfold default_computeValidity, truth. cbn [mbind result_bind].
  destruct (excluded_middle_informative _); [|done]. destruct (negateExpr q); [|done|done]. cbn [mbind result_bind].
  by destruct (excluded_middle_informative _).
Qed.
End oracle.
End Oracle.

(** The first byte of a buffer that is constrained to be 1. *)
Definition sample_query (e : expr) : Query := {| q_constraints := [first_is_1]; q_expr := e |}.

(** Every byte of a symbolic array is 1. *)
Definition ones : env := fun a i => if isSymbolicArray a && (0 <=? i) && (i <? arr_size a) then 1 else 0.
Lemma ones_ok : env_ok ones.
Proof.
  intros a i. unfold ones. destruct (isSymbolicArray a), (Z.leb_spec 0 i), (Z.ltb_spec i (arr_size a)); simpl;
    (split; [lia|]); intros [?|?]; try done; lia.
Qed.

Lemma sample_models {CFG : Config} e : models (sample_query e) ones.
Proof. split; [apply ones_ok|]. by repeat constructor. Qed.

Lemma sample_q_ok {AP : APIntOps} {CFG : Config} e :
  wf e -> (forall rho, has_value rho e) -> q_ok (SUP := everything) (sample_query e).
Proof.
  intros He Hv. constructor; [|done|done|by intros rho _]. constructor; [|constructor].
  split_and!; [concrete|reflexivity|done].
Qed.

Lemma flag_value {CFG : Config} rho : has_value rho flag.
Proof. unfold has_value, flag. simpl. eauto. Qed.
Lemma byte_value {CFG : Config} rho : has_value rho (byte 0).
Proof. unfold has_value, byte. simpl. eauto. Qed.


Lemma getRange_tight_witness :
  returns (@getRange ZOps default_config unit (@Oracle.impl ZOps default_config) (sample_query (byte 0)) tt)
    (fun p => let '(a, b, s') := p in bw a = 8 /\ bw b = 8 /\ @tight default_config (sample_query (byte 0)) (raw a) (raw b) /\ True).
Proof.
  apply (@getRange_tight ZOps ZOps_spec default_config everything unit (@Oracle.impl ZOps default_config) (fun _ => True)
    (@Oracle.spec ZOps ZOps_spec default_config everything) (sample_query (byte 0)) tt).
  - apply Oracle.truth_total.
  - apply Oracle.validity_total.
  - exact I.
  - apply sample_q_ok; [concrete|apply byte_value].
  - exists ones. apply sample_models.
  - discriminate.
Defined.

Lemma timing_answers_witness :
  answers (fun _ => True) (@may_answer default_config (TS.query (st_with [first_is_1]) flag))
    (@TS.mayBeTrue ZOps default_config unit (@Oracle.impl ZOps default_config)
      {| simplifyExprs := false; simplify_fuel := fun _ => 0%nat |} (st_with [first_is_1]) flag tt).
Proof.
  destruct (@timing_answers ZOps ZOps_spec default_config everything unit (@Oracle.impl ZOps default_config) (fun _ => True)
    (@Oracle.spec ZOps ZOps_spec default_config everything) {| simplifyExprs := false; simplify_fuel := fun _ => 0%nat |}
    (st_with [first_is_1]) flag tt) as (_ & H & _).
  - intros E. discriminate E.
  - exists ones. apply sample_models.
  - exact I.
  - apply (sample_q_ok flag); [concrete|apply flag_value].
  - reflexivity.
  - exact H.
Defined.
