(* ===== verification/AddressSpace.v ===== *)
(** * AddressSpace: from addresses to memory objects

    Models [klee/lib/Core/AddressSpace.cpp] and [AddressSpace.h].  The address space
    maps memory objects, ordered by address, to the [ObjectState]s that hold their
    contents, in an immutable tree; the states are reached through pointers, so the
    map holds their addresses and the states live in a heap.  Resolving a symbolic
    pointer asks the [TimingSolver]; the readings of the clock in [resolve] are a
    parameter. *)

From S2P Require Import Prelude APInt ExprData Samples Bits ExprCompare ExprCreate ExprCreateSound ExprStructSound ExprVisitor UnionFind ArrayCache ExprUtil ExprWeight Rewriters Constraints ConstraintsSound Solver ImmutableTree Memory.
From Stdlib Require Import Sorting.Sorted.
Local Open Scope Z_scope.

#[export] Instance MemoryObject_eq_dec : EqDecision MemoryObject.
Proof. solve_decision. Defined.

(** [MemoryObjectLT] and [MemoryMap]; a pointer to an [ObjectState] is its address. *)
Definition MemoryObjectLT (a b : MemoryObject) : bool := mo_address a <? mo_address b.
Definition ObjectPair : Type := MemoryObject * Z.
Definition MemoryMap : Type := Tree.node ObjectPair.

(** [MemoryObject hack(address)] *)
Definition hack (address : Z) : MemoryObject :=
  {| mo_address := address; mo_size := 0; isUserSpecified := false |}.

#[export] Instance MemoryMap_order : Tree.TreeOrder MemoryObject ObjectPair :=
  Tree.ImmutableMap_order MemoryObjectLT (hack 0) 0.
#[export] Instance MemoryObjectLT_order : Tree.StrictWeakOrder MemoryObjectLT.
Proof. split; unfold MemoryObjectLT; intros; rewrite ?Z.ltb_lt, ?Z.ltb_ge in *; lia. Qed.

Record AddressSpace := { objects : MemoryMap }.

Definition bindObject (mo : MemoryObject) (os : Z) (a : AddressSpace) : AddressSpace :=
  {| objects := Tree.replace (mo, os) (objects a) |}.
Definition unbindObject (mo : MemoryObject) (a : AddressSpace) : AddressSpace :=
  {| objects := Tree.remove mo (objects a) |}.
Definition findObject (mo : MemoryObject) (a : AddressSpace) : option Z :=
  snd <$> Tree.lookup (objects a) mo.
(** The pointer is returned as it is, without the copy of the original KLEE. *)
Definition getWriteable (heap : Z -> ObjectState) (mo : MemoryObject) (os : Z) : result Z :=
  _ ← massert (negb (readOnly (heap os))); Ok os.

(** ** Resolution *)
Section resolution.
Context {AP : APIntOps} {CFG : Config} {St : Type} {SI : SolverImpl St} {T : TimingSolver}.
Variable pw : Z.    (* Context::get().getPointerWidth() *)

(** [resolveOne] of a constant address *)
Definition resolveOne_const (addr : apint) (a : AddressSpace) : result (option ObjectPair) :=
  address ← CE_getZExtValue addr 64;
  Ok (match Tree.lookup_previous (objects a) (hack address) with
      | Some res =>
          let mo := fst res in
          if ((mo_size mo =? 0) && (address =? mo_address mo)) || (u64 (address - mo_address mo) <? mo_size mo)
          then Some res else None
      | None => None
      end).

(** How a loop over the objects ends: at the object it found, without one, or
    because a query failed. *)
Inductive outcome := Found (p : ObjectPair) | NotFound (oi : Tree.iterator ObjectPair) | Failed.

(** [while (oi!=begin)] *)
Fixpoint search_backwards (fuel : nat) (state : CState) (address : expr) (bgn oi : Tree.iterator ObjectPair) (s : St)
    : result (outcome * St) :=
  match fuel with
  | O => OutOfFuel
  | S k =>
      if Tree.it_eqb oi bgn then Ok (NotFound oi, s)
      else
        oi ← Tree.it_prev oi;
        v ← Tree.deref oi;
        inBounds ← getBoundsCheckPointer pw (fst v) address;
        '(may, s) ← TS.mayBeTrue state inBounds s;
        match may with
        | None => Ok (Failed, s)
        | Some true => Ok (Found v, s)
        | Some false =>
            base ← getBaseExpr pw (fst v);
            above ← bin_create Kind.Uge address base;
            '(must, s) ← TS.mustBeTrue state above s;
            match must with
            | None => Ok (Failed, s)
            | Some true => Ok (NotFound oi, s)
            | Some false => search_backwards k state address bgn oi s
            end
        end
  end.

(** [for (oi=start; oi!=end; ++oi)] *)
Fixpoint search_forwards (fuel : nat) (state : CState) (address : expr) (fin oi : Tree.iterator ObjectPair) (s : St)
    : result (outcome * St) :=
  match fuel with
  | O => OutOfFuel
  | S k =>
      if Tree.it_eqb oi fin then Ok (NotFound oi, s)
      else
        v ← Tree.deref oi;
        base ← getBaseExpr pw (fst v);
        below ← bin_create Kind.Ult address base;
        '(must, s) ← TS.mustBeTrue state below s;
        match must with
        | None => Ok (Failed, s)
        | Some true => Ok (NotFound oi, s)
        | Some false =>
            inBounds ← getBoundsCheckPointer pw (fst v) address;
            '(may, s) ← TS.mayBeTrue state inBounds s;
            match may with
            | None => Ok (Failed, s)
            | Some true => Ok (Found v, s)
            | Some false => oi ← Tree.it_next oi; search_forwards k state address fin oi s
            end
        end
  end.

(** One round per object, and one to stop. *)
Definition loop_fuel (a : AddressSpace) : nat := S (Z.to_nat (Tree.size (objects a))).

(** The searches around the example, after the cheap one failed. *)
Definition resolve_search (state : CState) (address : expr) (example : Z) (a : AddressSpace) (s : St)
    : result (option (option ObjectPair) * St) :=
  oi ← Tree.upper_bound (objects a) (hack example);
  bgn ← Tree.begin (objects a);
  fin ← Tree.end_ (objects a);
  let start := oi in
  '(back, s) ← search_backwards (loop_fuel a) state address bgn oi s;
  match back with
  | Failed => Ok (None, s)
  | Found v => Ok (Some (Some v), s)
  | NotFound oi =>
      oi ← Tree.it_assign oi start;
      '(forth, s) ← search_forwards (loop_fuel a) state address fin oi s;
      Ok (match forth with Failed => None | Found v => Some (Some v) | NotFound _ => Some None end, s)
  end.

(** [resolveOne]: [None] when it returns false (a query failed), otherwise the
    object, if [success]. *)
Definition resolveOne (state : CState) (address : expr) (a : AddressSpace) (s : St)
    : result (option (option ObjectPair) * St) :=
  match address with
  | ConstantExpr CE => r ← resolveOne_const CE a; Ok (Some r, s)
  | _ =>
      '(cex, s) ← TS.getValue state address s;
      match cex with
      | None => Ok (None, s)
      | Some cex =>
          example ← CE_getZExtValue cex 64;
          match Tree.lookup_previous (objects a) (hack example) with
          | Some res =>
              if u64 (example - mo_address (fst res)) <? mo_size (fst res) then Ok (Some (Some res), s)
              else resolve_search state address example a s
          | None => resolve_search state address example a s
          end
      end
  end.

(** *** resolve *)
Variable expired : nat -> bool.     (* whether the clock has run out at its n-th reading *)

(** How a loop of [resolve] ends: it returns, or leaves the list and the position. *)
Inductive progress :=
| Return (incomplete : bool) (rl : list ObjectPair)
| Continue (oi : Tree.iterator ObjectPair) (rl : list ObjectPair) (clock : nat).

(** The object is added to the list if the pointer may be in bounds; the fast path
    ends the resolution at a first object it must be in. *)
Definition consider (state : CState) (p : expr) (maxResolutions : Z) (v : ObjectPair) (rl : list ObjectPair) (s : St)
    : result ((list ObjectPair + bool * list ObjectPair) * St) :=
  inBounds ← getBoundsCheckPointer pw (fst v) p;
  '(may, s) ← TS.mayBeTrue state inBounds s;
  match may with
  | None => Ok (inr (true, rl), s)
  | Some false => Ok (inl rl, s)
  | Some true =>
      let rl := rl ++ [v] in
      let size := u32 (Z.of_nat (length rl)) in
      if size =? 1 then
        '(must, s) ← TS.mustBeTrue state inBounds s;
        match must with
        | None => Ok (inr (true, rl), s)
        | Some true => Ok (inr (false, rl), s)
        | Some false => Ok (inl rl, s)
        end
      else if size =? maxResolutions then Ok (inr (true, rl), s)
      else Ok (inl rl, s)
  end.

Fixpoint resolve_backwards (fuel : nat) (state : CState) (p : expr) (maxResolutions : Z)
    (bgn oi : Tree.iterator ObjectPair) (rl : list ObjectPair) (clock : nat) (s : St) : result (progress * St) :=
  match fuel with
  | O => OutOfFuel
  | S k =>
      if Tree.it_eqb oi bgn then Ok (Continue oi rl clock, s)
      else
        oi ← Tree.it_prev oi;
        v ← Tree.deref oi;
        if expired clock then Ok (Return true rl, s)
        else
          '(r, s) ← consider state p maxResolutions v rl s;
          match r with
          | inr (incomplete, rl) => Ok (Return incomplete rl, s)
          | inl rl =>
              base ← getBaseExpr pw (fst v);
              above ← bin_create Kind.Uge p base;
              '(must, s) ← TS.mustBeTrue state above s;
              match must with
              | None => Ok (Return true rl, s)
              | Some true => Ok (Continue oi rl (S clock), s)
              | Some false => resolve_backwards k state p maxResolutions bgn oi rl (S clock) s
              end
          end
  end.

Fixpoint resolve_forwards (fuel : nat) (state : CState) (p : expr) (maxResolutions : Z)
    (fin oi : Tree.iterator ObjectPair) (rl : list ObjectPair) (clock : nat) (s : St) : result (progress * St) :=
  match fuel with
  | O => OutOfFuel
  | S k =>
      if Tree.it_eqb oi fin then Ok (Continue oi rl clock, s)
      else
        v ← Tree.deref oi;
        if expired clock then Ok (Return true rl, s)
        else
          base ← getBaseExpr pw (fst v);
          below ← bin_create Kind.Ult p base;
          '(must, s) ← TS.mustBeTrue state below s;
          match must with
          | None => Ok (Return true rl, s)
          | Some true => Ok (Continue oi rl (S clock), s)
          | Some false =>
              '(r, s) ← consider state p maxResolutions v rl s;
              match r with
              | inr (incomplete, rl) => Ok (Return incomplete rl, s)
              | inl rl =>
                  oi ← Tree.it_next oi;
                  resolve_forwards k state p maxResolutions fin oi rl (S clock) s
              end
          end
  end.

(** The flag that is returned ("the resolution is incomplete") and the list. *)
Definition resolve (state : CState) (p : expr) (maxResolutions : Z) (a : AddressSpace) (s : St)
    : result (bool * list ObjectPair * St) :=
  match p with
  | ConstantExpr CE => r ← resolveOne_const CE a; Ok (false, match r with Some v => [v] | None => [] end, s)
  | _ =>
      '(cex, s) ← TS.getValue state p s;
      match cex with
      | None => Ok (true, [], s)
      | Some cex =>
          example ← CE_getZExtValue cex 64;
          oi ← Tree.upper_bound (objects a) (hack example);
          bgn ← Tree.begin (objects a);
          fin ← Tree.end_ (objects a);
          let start := oi in
          '(b, s) ← resolve_backwards (loop_fuel a) state p maxResolutions bgn oi [] 0 s;
          match b with
          | Return incomplete rl => Ok (incomplete, rl, s)
          | Continue oi rl clock =>
              oi ← Tree.it_assign oi start;
              '(f, s) ← resolve_forwards (loop_fuel a) state p maxResolutions fin oi rl clock s;
              Ok (match f with Return incomplete rl => (incomplete, rl) | Continue _ rl _ => (false, rl) end, s)
          end
      end
  end.
End resolution.

(** ** Concrete memory *)
(** [memcmp(address, os->concreteStore, size) != 0] *)
Fixpoint differ (m : memory) (x y : Z) (n : nat) : bool :=
  match n with O => false | S k => negb (m x =? m y) || differ m (x + 1) (y + 1) k end.

(** [for (it = begin, ie = end; it != ie; ++it)]: the pairs it visits. *)
Fixpoint visit_pairs (fuel : nat) (ie it : Tree.iterator ObjectPair) : result (list ObjectPair) :=
  match fuel with
  | O => OutOfFuel
  | S k =>
      if Tree.it_eqb it ie then Ok []
      else v ← Tree.deref it; it ← Tree.it_next it; l ← visit_pairs k ie it; Ok (v :: l)
  end.
Definition pairs (a : AddressSpace) : result (list ObjectPair) :=
  it ← Tree.begin (objects a); ie ← Tree.end_ (objects a); visit_pairs (loop_fuel a) ie it.

Section concretes.
Variable heap : Z -> ObjectState.

Definition copy_out (m : memory) (v : ObjectPair) : memory :=
  let '(mo, p) := v in
  if negb (isUserSpecified mo) && negb (readOnly (heap p))
  then memcpy m (mo_address mo) (concreteStore (heap p)) (Z.to_nat (mo_size mo)) else m.
Definition copyOutConcretes (a : AddressSpace) (m : memory) : result memory :=
  l ← pairs a; Ok (fold_left copy_out l m).

Fixpoint copy_in (l : list ObjectPair) (m : memory) : result (bool * memory) :=
  match l with
  | [] => Ok (true, m)
  | (mo, p) :: l' =>
      if negb (isUserSpecified mo) && differ m (mo_address mo) (concreteStore (heap p)) (Z.to_nat (mo_size mo)) then
        if readOnly (heap p) then Ok (false, m)
        else
          wos ← getWriteable heap mo p;
          copy_in l' (memcpy m (concreteStore (heap wos)) (mo_address mo) (Z.to_nat (mo_size mo)))
      else copy_in l' m
  end.
Definition copyInConcretes (a : AddressSpace) (m : memory) : result (bool * memory) :=
  l ← pairs a; copy_in l m.
End concretes.

(** ** Invariant

    The objects lie in the 64-bit address space and do not overlap; an object of
    size zero takes one address. *)
Definition extent (mo : MemoryObject) : Z := Z.max 1 (mo_size mo).
Definition object_ok (v : ObjectPair) : Prop :=
  0 <= mo_address (fst v) /\ 0 <= mo_size (fst v) < 2 ^ 32 /\ mo_address (fst v) + extent (fst v) <= 2 ^ 64.
Definition apart (x y : ObjectPair) : Prop := mo_address (fst x) + extent (fst x) <= mo_address (fst y).

Record as_ok (a : AddressSpace) : Prop := {
  as_tree : Tree.tree_ok (objects a);
  as_objects : Forall object_ok (Tree.elements (objects a));
  as_apart : StronglySorted apart (Tree.elements (objects a));
}.

(** The address [x] belongs to the object. *)
Definition containsb (mo : MemoryObject) (x : Z) : bool :=
  if mo_size mo =? 0 then x =? mo_address mo else (mo_address mo <=? x) && (x <? mo_address mo + mo_size mo).
Definition contains (mo : MemoryObject) (x : Z) : Prop := containsb mo x = true.

Lemma contains_extent mo x : contains mo x -> mo_address mo <= x < mo_address mo + extent mo.
Proof.
  unfold contains, containsb, extent. destruct (Z.eqb_spec (mo_size mo) 0) as [E|N].
  - intros ->%Z.eqb_eq. lia.
  - intros [H1%Z.leb_le H2%Z.ltb_lt]%andb_true_iff. lia.
Qed.

(** The bounds test of the source, with its wrap-around. *)
Lemma bounds_test mo x :
  object_ok (mo, 0) -> 0 <= x < 2 ^ 64 ->
  ((mo_size mo =? 0) && (x =? mo_address mo)) || (u64 (x - mo_address mo) <? mo_size mo) = containsb mo x.
Proof.
  unfold object_ok, containsb, extent, u64, wrap. simpl. intros (Ha & Hs & He) Hx.
  destruct (Z.eqb_spec (mo_size mo) 0) as [E|N]; simpl.
  - rewrite E. destruct (Z.eqb_spec x (mo_address mo)); [done|]. simpl. apply Z.ltb_ge. apply Z.mod_pos_bound. lia.
  - destruct (Z.leb_spec (mo_address mo) x); simpl.
    + rewrite Z.mod_small by lia. destruct (Z.ltb_spec (x - mo_address mo) (mo_size mo)), (Z.ltb_spec x (mo_address mo + mo_size mo)); lia || done.
    + apply Z.ltb_ge. rewrite <- (Z_mod_plus_full _ 1), Z.mod_small by lia. lia.
Qed.

(** *** Objects around an address *)
Lemma apart_before (pre post : list ObjectPair) v x :
  StronglySorted apart (pre ++ v :: post) -> mo_address (fst v) <= x -> Forall (fun u => ~ contains (fst u) x) pre.
Proof.
  intros Hs Hx. induction pre as [|u pre IH]; [constructor|]. inversion Hs as [|? ? Hs' Hu]; subst. constructor.
  - intros Hc%contains_extent. apply Forall_app in Hu as [_ Hu]. apply Forall_cons in Hu as [Hu _]. unfold apart in Hu. lia.
  - by apply IH.
Qed.

Lemma apart_after (pre post : list ObjectPair) v x :
  StronglySorted apart (pre ++ v :: post) -> x < mo_address (fst v) + extent (fst v) -> Forall (fun u => ~ contains (fst u) x) post.
Proof.
  intros Hs Hx. induction pre as [|u pre IH]; inversion Hs as [|? ? Hs' Hu]; subst; [|by apply IH].
  eapply Forall_impl; [exact Hu|]. intros u Hap Hc%contains_extent. unfold apart in Hap. lia.
Qed.

Lemma l_previous_cons x (u : ObjectPair) l :
  Tree.l_previous (hack x) (u :: l) =
  match Tree.l_previous (hack x) l with Some v => Some v | None => if x <? mo_address (fst u) then None else Some u end.
Proof.
  unfold Tree.l_previous. cbn [List.filter Tree.key_compare Tree.key_of_value MemoryMap_order Tree.ImmutableMap_order].
  change (MemoryObjectLT (hack x) (fst u)) with (x <? mo_address (fst u)).
  destruct (x <? mo_address (fst u)); cbn [negb]; [by destruct (last _)|]. rewrite last_cons. by destruct (last _).
Qed.

Lemma previous_split (l : list ObjectPair) x :
  StronglySorted Tree.vlt l ->
  match Tree.l_previous (hack x) l with
  | Some v => exists pre post, l = pre ++ v :: post /\ mo_address (fst v) <= x /\ Forall (fun u => x < mo_address (fst u)) post
  | None => Forall (fun u => x < mo_address (fst u)) l
  end.
Proof.
  induction l as [|u l IH]; intros Hs; [constructor|]. inversion Hs as [|? ? Hs' Hu]; subst.
  specialize (IH Hs'). rewrite l_previous_cons. destruct (Tree.l_previous (hack x) l) as [v|].
  - destruct IH as (pre & post & -> & ? & ?). by exists (u :: pre), post.
  - destruct (Z.ltb_spec x (mo_address (fst u))); [by constructor|]. by exists [], l.
Qed.

Section constant_resolution.
Context {AP : APIntOps} {SP : APIntSpec AP}.

Lemma resolveOne_const_ok a c :
  as_ok a -> apok c -> bw c <= 64 ->
  exists r, resolveOne_const c a = Ok r /\
    match r with
    | Some v => v ∈ Tree.elements (objects a) /\ contains (fst v) (raw c)
    | None => Forall (fun u => ~ contains (fst u) (raw c)) (Tree.elements (objects a))
    end.
Proof.
  intros [Ht Ho Hap] Hc Hw. unfold resolveOne_const, CE_getZExtValue.
  rewrite massert_true by (by apply Z.leb_le). cbn [mbind result_bind]. rewrite ap_getZExtValue_spec by done.
  assert (Hx : 0 <= raw c < 2 ^ 64).
  { destruct Hc as [Hb0 Hc]. unfold inw in Hc. pose proof (Z.pow_le_mono_r 2 (bw c) 64). lia. }
  eexists. split; [reflexivity|]. destruct Ht as (_ & Hb & _). unfold Tree.lookup_previous.
  rewrite Tree.lookup_previous_loop_ok by done. pose proof (previous_split _ (raw c) Hb) as Hp.
  destruct (Tree.l_previous _ _) as [[mo p]|].
  - destruct Hp as (pre & post & E & Hle & Hpost). rewrite E in Ho, Hap |- *. simpl in Hle.
    assert (Hin : (mo, p) ∈ pre ++ (mo, p) :: post) by (rewrite elem_of_app; right; left).
    rewrite Forall_forall in Ho. pose proof (Ho _ Hin) as Hok. cbn [fst].
    rewrite bounds_test by done. destruct (containsb mo (raw c)) eqn:Hcb; [done|].
    apply Forall_app. split; [by eapply apart_before|]. constructor; [simpl; unfold contains; by rewrite Hcb|].
    eapply Forall_impl; [exact Hpost|]. intros u Hu Hcu%contains_extent. simpl in Hu. lia.
  - eapply Forall_impl; [exact Hp|]. intros u Hu Hcu%contains_extent. simpl in Hu. lia.
Qed.
End constant_resolution.
