(* ===== verification/AddressSpaceSound.v ===== *)
(** * AddressSpaceSound: what resolving a pointer promises

    The address space is a map from objects to states whose objects do not overlap;
    [resolveOne] and [resolve] find the objects a pointer can point into.  The
    proofs use the [TimingSolver] and the iterators of the tree through their laws
    only. *)

From S2P Require Import Prelude APInt ExprData Samples Bits ExprCompare ExprCreate ExprCreateSound ExprStructSound ExprVisitor UnionFind ArrayCache ExprUtil ExprWeight Rewriters Constraints ConstraintsSound Solver ImmutableTree Memory AddressSpace.
From Stdlib Require Import Sorting.Sorted.
Local Open Scope Z_scope.

(** ** Resolving a symbolic pointer *)
Section symbolic_resolution.
Context {AP : APIntOps} {SP : APIntSpec AP} {CFG : Config} {SUP : Supported} {St : Type} {SI : SolverImpl St}.
Context {inv : St -> Prop} {SS : SolverSpec SI inv} {T : TimingSolver}.
Context (state : CState) (address : expr) (a : AddressSpace).
Let q : Query := TS.query state address.
Context (Hsim : simplifies state) (Hsat : satisfiable q) (Hq : q_ok q) (Hwid : getWidth address = 64) (Ha : as_ok a).

(** Under some solution of the path condition, the pointer points into the object. *)
Definition may_point (u : ObjectPair) : Prop := exists x, takes q x /\ contains (fst u) x.

(** [t] tests the value of the pointer with [f]. *)
Definition tests (f : Z -> bool) (t : expr) : Prop :=
  q_ok (TS.query state t) /\ getWidth t = Bool /\
  forall rho v, models q rho -> eval rho address = Some v -> eval rho t = Some (Z.b2z (f v)).

Lemma builds_tests m t f :
  builds m t -> getWidth t = Bool -> (forall e, m = Ok e -> supported e) ->
  (forall rho v, models q rho -> eval rho address = Some v -> eval rho t = Some (Z.b2z (f v))) ->
  returns m (tests f).
Proof.
  intros Hb Ht Hsup Hf. eapply returns_weaken; [apply (builds_query q t m Hq); [|done|done]|].
  - intros rho Hm. destruct (qk_value _ Hq rho Hm) as [v Hv]. eexists. by apply Hf.
  - intros e (Hqe & We & Re). split_and!; [done|congruence|]. intros rho v Hm Hv. apply Re; [done|]. by apply Hf.
Qed.

Definition may_reply (f : Z -> bool) (r : option bool) : Prop :=
  match r with
  | Some true => exists v, takes q v /\ f v = true
  | Some false => forall v, takes q v -> f v = false
  | None => True
  end.
Definition must_reply (f : Z -> bool) (r : option bool) : Prop :=
  match r with Some true => forall v, takes q v -> f v = true | _ => True end.

Lemma ask_may f t s : inv s -> tests f t -> answers inv (may_reply f) (TS.mayBeTrue state t s).
Proof.
  intros Hs (Hqt & Wt & Ht). eapply returns_weaken; [by apply TS_mayBeTrue_ok|].
  intros [[[]|] s'] [Hr Hs']; (split; [|done]); simpl in *; [| |done].
  - destruct Hr as (rho & Hm & Hr). destruct (qk_value _ Hq rho Hm) as [v Hv]. exists v. split; [by exists rho|].
    unfold true_under in Hr. simpl in Hr. rewrite (Ht rho v Hm Hv) in Hr. by apply b2z_1.
  - intros v (rho & Hm & Hv). specialize (Hr rho Hm). unfold false_under in Hr. simpl in Hr.
    rewrite (Ht rho v Hm Hv) in Hr. by apply b2z_0.
Qed.

Lemma ask_must f t s : inv s -> tests f t -> answers inv (must_reply f) (TS.mustBeTrue state t s).
Proof.
  intros Hs (Hqt & Wt & Ht). eapply returns_weaken; [by apply TS_mustBeTrue_ok|].
  intros [[[]|] s'] [Hr Hs']; (split; [|done]); simpl in *; [|done|done].
  intros v (rho & Hm & Hv). specialize (Hr rho Hm). unfold true_under in Hr. simpl in Hr.
  rewrite (Ht rho v Hm Hv) in Hr. by apply b2z_1.
Qed.

(** *** The tests *)
Lemma takes64 v : takes q v -> 0 <= v < 2 ^ 64.
Proof. intros H. pose proof (takes_range q Hq v H) as Hi. simpl in Hi. rewrite Hwid in Hi. exact Hi. Qed.

Lemma const64 x : 0 <= x < 2 ^ 64 ->
  ConstantExpr_create x 64 = Ok (APInt 64 x) /\ wf (ConstantExpr (APInt 64 x)).
Proof.
  intros Hx. assert (Hi : inw 64 x) by exact Hx. split; [|split; [simpl; lia|exact Hi]].
  rewrite create_eq by (done || lia). rewrite alloc_eq by (done || lia). by rewrite wrap_small.
Qed.

Lemma base_test k f mo :
  Kind.isCmp k = true -> object_ok mo ->
  (forall v, sem_bin k 64 v (mo_address (fst mo)) = Some (Z.b2z (f v))) ->
  exists b, getBaseExpr 64 (fst mo) = Ok b /\ returns (bin_create k address b) (tests f).
Proof.
  intros Hk (Ho & Hs & He) Hf. unfold extent in He. destruct (const64 (mo_address (fst mo))) as [Ec Hc]; [lia|].
  unfold getBaseExpr. rewrite Ec. cbn [mbind result_bind]. eexists. split; [reflexivity|].
  eapply builds_tests; [apply bin_create_builds; [apply Hq|done|simpl; lia|apply not_div_ok; by destruct k]| | |].
  - simpl. by rewrite Hk.
  - intros e. apply supported_bin; [by destruct k|apply Hq|done|apply Hq|apply supported_const].
  - intros rho v Hm Hv. simpl. rewrite Hv. simpl. rewrite Hwid. apply Hf.
Qed.

(** [getBoundsCheckPointer] tests whether the pointer is in the object: the
    subtraction wraps around, so the one comparison checks both ends. *)
Lemma offset_contains mo x :
  object_ok mo -> 0 <= x < 2 ^ 64 ->
  Z.b2z (if mo_size (fst mo) =? 0 then wrap 64 (x - mo_address (fst mo)) =? 0
         else wrap 64 (x - mo_address (fst mo)) <? mo_size (fst mo)) = Z.b2z (containsb (fst mo) x).
Proof.
  intros Ho Hx. destruct mo as [mo p]. rewrite <- bounds_test by done. destruct Ho as (? & ? & ?). simpl in *.
  unfold u64. destruct (Z.eqb_spec (mo_size mo) 0) as [E|N]; simpl; [|done].
  assert (Hp : 0 <= wrap 64 (x - mo_address mo)) by (apply Z.mod_pos_bound; lia).
  rewrite E, (proj2 (Z.ltb_ge _ 0)), orb_false_r by done. f_equal. apply eq_true_iff_eq. rewrite !Z.eqb_eq.
  unfold wrap in *. split; [|intros ->; by rewrite Z.sub_diag].
  intros Hm. apply Z.mod_divide in Hm; [|lia]. destruct Hm as [k Hk]. unfold extent in *. nia.
Qed.

Lemma bounds_ok mo : object_ok mo -> returns (getBoundsCheckPointer 64 (fst mo) address) (tests (containsb (fst mo))).
Proof.
  intros Ho. pose proof Ho as (Hadr & Hs & He). unfold extent in He.
  destruct (const64 (mo_address (fst mo))) as [Ea Wa]; [lia|].
  destruct (const64 (mo_size (fst mo))) as [Es Ws]; [lia|].
  unfold getBoundsCheckPointer, getOffsetExpr, getBaseExpr, getBoundsCheckOffset, getSizeExpr.
  rewrite Ea, Es. cbn [mbind result_bind]. set (base := ConstantExpr (APInt 64 (mo_address (fst mo)))) in *.
  assert (Hsub : builds (bin_create Kind.Sub address base) (BinExpr Kind.Sub address base)).
  { apply bin_create_builds; [apply Hq|done|simpl; lia|by apply not_div_ok]. }
  set (k := if mo_size (fst mo) =? 0 then Kind.Eq else Kind.Ult).
  set (c := if mo_size (fst mo) =? 0 then ConstantExpr (APInt 64 0) else ConstantExpr (APInt 64 (mo_size (fst mo)))).
  assert (Wc : wf c /\ getWidth c = 64).
  { unfold c. case_match; [|by split]. destruct (const64 0) as [_ ?]; [lia|]. by split. }
  eapply (builds_tests _ (BinExpr k (BinExpr Kind.Sub address base) c)).
  - eapply builds_bind; [exact Hsub|]. intros o (Wo & Eo & Ro). simpl in Eo.
    apply (builds_trans _ (BinExpr k o c)).
    + replace (if mo_size (fst mo) =? 0 then _ else _) with (bin_create k o c).
      * apply bin_create_builds; [done|apply Wc|rewrite Eo; destruct Wc; lia|apply not_div_ok; unfold k; by case_match].
      * unfold k, c. rewrite alloc_eq by (unfold inw; lia). by case_match.
    + apply impl_bin_l; [by split_and!|apply Wc|destruct Wc; simpl; lia].
  - unfold k. by destruct (_ =? 0).
  - intros e. destruct Hsub as (o & Eo & Wo & _). rewrite Eo. cbn [mbind result_bind].
    assert (So : supported o) by (apply (supported_bin Kind.Sub address base); [done|apply Hq|done|apply Hq|apply supported_const|exact Eo]).
    rewrite alloc_eq by (unfold inw; lia). unfold c in Wc.
    destruct (mo_size (fst mo) =? 0); (apply supported_bin; [done|done|apply Wc|done|apply supported_const]).
  - intros rho v Hm Hv. assert (Hx : 0 <= v < 2 ^ 64) by (apply takes64; by exists rho).
    simpl. rewrite Hv. simpl. rewrite Hwid, <- (offset_contains mo v Ho Hx). unfold k, c. by case_match.
Qed.

(** *** The state of a search: the iterator and what is around it *)
Let t : MemoryMap := objects a.
Local Abbreviation elems := (Tree.elements t).

Lemma t_avl : Tree.avl t. Proof. apply Ha. Qed.
Lemma t_bst : Tree.bst t. Proof. apply Ha. Qed.
Lemma t_object u : u ∈ elems -> object_ok u.
Proof. intros H. pose proof (as_objects _ Ha) as Ho. rewrite Forall_forall in Ho. by apply Ho. Qed.

(** Stepping back from a position that is not the beginning. *)
Lemma step_back it : Tree.it_ok t it -> Tree.it_before it <> [] ->
  returns (Tree.it_prev it) (fun it' => Tree.it_ok t it' /\ exists v, Tree.deref it' = Ok v /\
    v ∈ elems /\ Tree.it_before it = Tree.it_before it' ++ [v]).
Proof.
  intros Hit Hne. eapply returns_weaken; [apply (Tree.it_prev_ok t it t_avl t_bst Hit)|].
  intros it' [Hok Hel]. split; [done|]. pose proof (Tree.it_total t it' t_avl t_bst Hok) as Htot.
  destruct (Tree.elts (Tree.it_stack it')) as [|n up]; [done|].
  destruct Hel as [E1 E2]. exists (Tree.nvalue n). split_and!; [by eapply Tree.deref_ok| |done].
  rewrite <- Htot, E2. set_solver.
Qed.

Lemma at_rest it v l : Tree.it_ok t it -> Tree.it_rest it = v :: l -> Tree.deref it = Ok v /\ v ∈ elems.
Proof.
  intros Hit Hr. split; [by eapply Tree.deref_ok|]. rewrite <- (Tree.it_total t it t_avl t_bst Hit), Hr. set_solver.
Qed.

(** When the pointer is always at or above [v], it reaches nothing before [v]; when it
    is always below [v], neither [v] nor anything after it. *)
Lemma none_before pre v post :
  elems = pre ++ v :: post -> (forall x, takes q x -> mo_address (fst v) <= x) -> Forall (fun u => ~ may_point u) pre.
Proof.
  intros E Hx. apply Forall_forall. intros u Hu (x & Htx & Hc).
  pose proof (as_apart _ Ha) as Hap. fold t in Hap. rewrite E in Hap.
  pose proof (apart_before _ _ _ x Hap (Hx x Htx)) as Hf. rewrite Forall_forall in Hf. by apply (Hf u Hu).
Qed.

Lemma none_after pre v post :
  elems = pre ++ v :: post -> (forall x, takes q x -> x < mo_address (fst v)) -> Forall (fun u => ~ may_point u) (v :: post).
Proof.
  intros E Hx. pose proof (as_apart _ Ha) as Hap. fold t in Hap. rewrite E in Hap. constructor.
  - intros (x & Htx & Hc%contains_extent). specialize (Hx x Htx). lia.
  - apply Forall_forall. intros u Hu (x & Htx & Hc). assert (Hlt := Hx x Htx).
    assert (Hf : Forall (fun u => ~ contains (fst u) x) post) by (eapply apart_after; [exact Hap|unfold extent; lia]).
    rewrite Forall_forall in Hf. by apply (Hf u Hu).
Qed.

(** When the pointer is always in [v], it reaches nothing else. *)
Lemma none_else v u :
  v ∈ elems -> u ∈ elems -> (forall x, takes q x -> containsb (fst v) x = true) -> may_point u -> u = v.
Proof.
  intros Hv Hu Hall (x & Htx & Hc). apply list_elem_of_split in Hv as (pre & post & E).
  pose proof (as_apart _ Ha) as Hap. fold t in Hap. rewrite E in Hap, Hu.
  pose proof (contains_extent _ _ (Hall x Htx)) as Hx.
  pose proof (apart_before _ _ _ x Hap ltac:(lia)) as Hb. pose proof (apart_after _ _ _ x Hap ltac:(lia)) as Hf.
  rewrite Forall_forall in Hb, Hf. apply elem_of_app in Hu as [Hu|Hu]; [by destruct (Hb u Hu)|].
  apply elem_of_cons in Hu as [->|Hu]; [done|by destruct (Hf u Hu)].
Qed.

(** The two tests that cut a search short. *)
Lemma above_test mo : object_ok mo ->
  exists b, getBaseExpr 64 (fst mo) = Ok b /\ returns (bin_create Kind.Uge address b) (tests (fun x => mo_address (fst mo) <=? x)).
Proof. intros Ho. by apply base_test. Qed.
Lemma below_test mo : object_ok mo ->
  exists b, getBaseExpr 64 (fst mo) = Ok b /\ returns (bin_create Kind.Ult address b) (tests (fun x => x <? mo_address (fst mo))).
Proof. intros Ho. by apply base_test. Qed.

(** *** resolveOne *)
Definition found_ok (l : list ObjectPair) (r : outcome) : Prop :=
  match r with
  | Found v => v ∈ elems /\ may_point v
  | NotFound it => Tree.it_ok t it /\ Forall (fun u => ~ may_point u) l
  | Failed => True
  end.

Lemma not_pointed v : (forall x, takes q x -> containsb (fst v) x = false) -> ~ may_point v.
Proof. intros H (x & Hx & Hc). unfold contains in Hc. rewrite H in Hc by done. done. Qed.

Lemma search_backwards_ok n : forall it bgn s,
  Tree.it_ok t it -> Tree.it_ok t bgn -> Tree.it_rest bgn = elems -> inv s -> (length (Tree.it_before it) < n)%nat ->
  answers inv (found_ok (Tree.it_before it)) (search_backwards 64 n state address bgn it s).
Proof.
  induction n as [|n IH]; intros it bgn s Hit Hb Eb Hs Hn; [lia|]. cbn [search_backwards].
  rewrite (Tree.it_eqb_begin t it bgn t_avl t_bst) by done. case_bool_decide as Hnil.
  { apply returns_ok. simpl. rewrite Hnil. by split_and!. }
  eapply returns_bind; [by apply step_back|]. intros it' (Hit' & v & Ev & Hv & E). rewrite Ev. cbn [mbind result_bind].
  eapply returns_bind; [by apply bounds_ok, t_object|]. intros tst Htst.
  eapply returns_bind; [by apply (ask_may _ _ _ Hs Htst)|]. intros [[[]|] s1] [Hr Hs1]; simpl in Hr, Hs1; [| |by apply returns_ok].
  { apply returns_ok. simpl. split; [|done]. split; [done|exact Hr]. }
  destruct (above_test v) as (b & Eb' & Hab); [by apply t_object|]. rewrite Eb'. cbn [mbind result_bind].
  eapply returns_bind; [exact Hab|]. intros tst' Htst'.
  eapply returns_bind; [by apply (ask_must _ _ _ Hs1 Htst')|]. intros [[[]|] s2] [Hr2 Hs2]; simpl in Hr2, Hs2; [| |by apply returns_ok].
  - apply returns_ok. simpl. split; [|done]. split; [done|]. rewrite E. apply Forall_app.
    split; [|constructor; [by apply not_pointed|constructor]].
    apply (none_before _ v (Tree.it_rest it)).
    + by rewrite <- (Tree.it_total t it t_avl t_bst Hit), E, <- app_assoc.
    + intros x Hx. apply Z.leb_le. by apply Hr2.
  - rewrite E, length_app in Hn. simpl in Hn.
    eapply returns_weaken; [apply IH; try done; lia|]. intros [[w|it''|] s3] [Hw ?]; (split; [|done]); simpl in *; [done| |done].
    destruct Hw as [? Hw]. split; [done|]. rewrite E. apply Forall_app.
    split; [done|constructor; [by apply not_pointed|constructor]].
Qed.

Lemma search_forwards_ok n : forall it fin s,
  Tree.it_ok t it -> Tree.it_ok t fin -> Tree.it_rest fin = [] -> inv s -> (length (Tree.it_rest it) < n)%nat ->
  answers inv (found_ok (Tree.it_rest it)) (search_forwards 64 n state address fin it s).
Proof.
  induction n as [|n IH]; intros it fin s Hit Hf Ef Hs Hn; [lia|]. cbn [search_forwards].
  rewrite (Tree.it_eqb_end t it fin) by done. destruct (Tree.it_rest it) as [|v l] eqn:Er.
  { rewrite bool_decide_eq_true_2 by done. apply returns_ok. by split_and!. }
  rewrite bool_decide_eq_false_2 by done. destruct (at_rest it v l Hit Er) as [Ev Hv]. rewrite Ev. cbn [mbind result_bind].
  destruct (below_test v) as (b & Eb' & Hbe); [by apply t_object|]. rewrite Eb'. cbn [mbind result_bind].
  eapply returns_bind; [exact Hbe|]. intros tst' Htst'.
  eapply returns_bind; [by apply (ask_must _ _ _ Hs Htst')|]. intros [[[]|] s1] [Hr1 Hs1]; simpl in Hr1, Hs1; [| |by apply returns_ok].
  { apply returns_ok. simpl. split; [|done]. split; [done|]. eapply none_after.
    - symmetry. rewrite <- Er. by apply (Tree.it_total t it t_avl t_bst).
    - intros x Hx. apply Z.ltb_lt. by apply Hr1. }
  eapply returns_bind; [by apply bounds_ok, t_object|]. intros tst Htst.
  eapply returns_bind; [by apply (ask_may _ _ _ Hs1 Htst)|]. intros [[[]|] s2] [Hr Hs2]; simpl in Hr, Hs2; [| |by apply returns_ok].
  { apply returns_ok. simpl. split; [|done]. split; [done|exact Hr]. }
  eapply returns_bind; [by apply (Tree.it_next_ok t it v l t_avl t_bst)|]. intros it' [Hit' Er']. simpl in Hn.
  eapply returns_weaken; [apply IH; try done; rewrite Er'; lia|]. rewrite Er'.
  intros [[w|it''|] s3] [Hw ?]; (split; [|done]); simpl in *; [done| |done].
  destruct Hw as [? Hw]. split; [done|]. constructor; [by apply not_pointed|done].
Qed.

Lemma it_assign_ok it st : Tree.it_ok t it -> Tree.it_ok t st -> Tree.it_assign it st = Ok st.
Proof.
  intros (_ & E1 & _) (_ & E2 & _). unfold Tree.it_assign, Tree.fs_assign. rewrite E1, E2, Z.eqb_refl. simpl.
  by destruct st.
Qed.

Lemma fuel_enough it : Tree.it_ok t it ->
  (length (Tree.it_before it) < loop_fuel a)%nat /\ (length (Tree.it_rest it) < loop_fuel a)%nat.
Proof.
  intros Hit. unfold loop_fuel. fold t. rewrite Tree.size_elements, Nat2Z.id.
  rewrite <- (Tree.it_total t it t_avl t_bst Hit), length_app. lia.
Qed.

(** Where the loops start. *)
Lemma starts x :
  exists oi bgn fin, Tree.upper_bound t (hack x) = Ok oi /\ Tree.begin t = Ok bgn /\ Tree.end_ t = Ok fin /\
    Tree.it_ok t oi /\ Tree.it_ok t bgn /\ Tree.it_ok t fin /\ Tree.it_rest bgn = elems /\ Tree.it_rest fin = [].
Proof.
  destruct (Tree.upper_bound_ok t (hack x) t_avl t_bst) as (oi & -> & Hoi & _).
  destruct (Tree.new_iterator_ok t true t_avl t_bst) as (bgn & Eb & Hb & Rb).
  destruct (Tree.new_iterator_ok t false t_avl t_bst) as (fin & Ef & Hf & Rf).
  unfold Tree.begin, Tree.end_. rewrite Eb, Ef. by exists oi, bgn, fin.
Qed.

(** What a resolution says. *)
Definition resolved (r : option (option ObjectPair)) : Prop :=
  match r with
  | Some (Some v) => v ∈ elems /\ may_point v
  | Some None => forall u, u ∈ elems -> ~ may_point u
  | None => True
  end.

Lemma resolve_search_ok x s : inv s -> answers inv resolved (resolve_search 64 state address x a s).
Proof.
  intros Hs. unfold resolve_search. fold t. destruct (starts x) as (oi & bgn & fin & -> & -> & -> & Hoi & Hb & Hf & Eb & Ef).
  cbn [mbind result_bind]. destruct (fuel_enough oi Hoi) as [F1 F2].
  eapply returns_bind; [by apply search_backwards_ok|]. intros [[v|it|] s1] [Hr Hs1]; simpl in Hr, Hs1; [by apply returns_ok| |by apply returns_ok].
  destruct Hr as [Hit Hbe]. rewrite it_assign_ok by done. cbn [mbind result_bind].
  eapply returns_bind; [by apply search_forwards_ok|]. intros [[v|it'|] s2] [Hr Hs2]; simpl in Hr, Hs2; apply returns_ok; (split; [|done]); simpl; [done| |done].
  destruct Hr as [_ Haf]. intros u Hu. rewrite <- (Tree.it_total t oi t_avl t_bst Hoi) in Hu. rewrite Forall_forall in Hbe, Haf.
  apply elem_of_app in Hu as [Hu|Hu]; auto.
Qed.

(** The example is a value of the pointer. *)
Lemma example_ok s : inv s ->
  answers inv (fun r => match r with Some c => CE_getZExtValue c 64 = Ok (raw c) /\ takes q (raw c) | None => True end)
    (TS.getValue state address s).
Proof.
  intros Hs. eapply returns_weaken; [by apply TS_getValue_ok|]. intros [[c|] s'] [Hr Hs']; (split; [|done]); simpl in *; [|done].
  destruct Hr as (c' & [= <-] & Hc & Wc & rho & Hm & Hv). split; [|by exists rho]. rewrite Hwid in Wc.
  unfold CE_getZExtValue. rewrite Wc. simpl. rewrite ap_getZExtValue_spec by (done || lia). done.
Qed.

Lemma previous_elem x u : Tree.lookup_previous t (hack x) = Some u -> u ∈ elems.
Proof.
  unfold Tree.lookup_previous. rewrite Tree.lookup_previous_loop_ok by apply t_bst.
  pose proof (previous_split elems x t_bst) as Hp. destruct (Tree.l_previous _ _) as [v|]; [|done].
  intros [= <-]. destruct Hp as (pre & post & -> & _). set_solver.
Qed.

Lemma const_takes c : address = ConstantExpr c -> forall x, takes q x <-> x = raw c.
Proof.
  intros E x. unfold takes. subst q. rewrite E. simpl. split; [intros (? & _ & Hx); congruence|]. intros ->.
  destruct Hsat as [rho Hm]. exists rho. split; [|done]. rewrite E in Hm. done.
Qed.

Lemma const_resolution c : address = ConstantExpr c ->
  exists r, resolveOne_const c a = Ok r /\ resolved (Some r).
Proof.
  intros Ea. assert (Hc : apok c) by (pose proof (qk_wf _ Hq) as Hc; simpl in Hc; by rewrite Ea in Hc).
  assert (Wc : bw c = 64) by (rewrite Ea in Hwid; done).
  destruct (resolveOne_const_ok a c Ha Hc) as (r & -> & Hr); [lia|]. exists r. split; [done|].
  pose proof (const_takes c Ea) as Hct. destruct r as [v|]; simpl.
  - destruct Hr as [? Hcv]. split; [done|]. exists (raw c). by rewrite Hct.
  - intros u Hu (x & Hx & Hcx). apply Hct in Hx as ->. rewrite Forall_forall in Hr. by apply (Hr u Hu).
Qed.

Lemma resolveOne_ok s : inv s -> answers inv resolved (resolveOne 64 state address a s).
Proof.
  intros Hs.
  assert (Hgo : answers inv resolved ('(cex, s) ← TS.getValue state address s;
    match cex with
    | None => Ok (None, s)
    | Some cex =>
        example ← CE_getZExtValue cex 64;
        match Tree.lookup_previous t (hack example) with
        | Some res => if u64 (example - mo_address (fst res)) <? mo_size (fst res) then Ok (Some (Some res), s)
            else resolve_search 64 state address example a s
        | None => resolve_search 64 state address example a s
        end
    end)).
  { eapply returns_bind; [by apply example_ok|]. intros [[c|] s1] [Hr Hs1]; simpl in Hr, Hs1; [|by apply returns_ok].
    destruct Hr as [-> Htk]. cbn [mbind result_bind]. pose proof (takes64 _ Htk) as Hrng.
    destruct (Tree.lookup_previous t _) as [[mo p]|] eqn:El; [|by apply resolve_search_ok].
    destruct (u64 _ <? _) eqn:Ein; [|by apply resolve_search_ok]. apply previous_elem in El. apply returns_ok. simpl.
    split; [|done]. split; [done|]. exists (raw c). split; [done|]. unfold contains. simpl in *.
    rewrite <- bounds_test; [by rewrite Ein, orb_true_r|by apply (t_object (mo, p))|done]. }
  unfold resolveOne. fold t. case_eq address; [intros c Ea|intros; match goal with E : address = _ |- _ => rewrite <- E end; exact Hgo..]. clear Hgo.
  destruct (const_resolution c Ea) as (r & -> & Hr). by apply returns_ok.
Qed.

(** *** resolve *)
Section resolve.
Variable expired : nat -> bool.
Variable maxResolutions : Z.

(** Every object of the list is one of the address space the pointer may point
    into; a bound of two or more objects is kept. *)
Record listed (rl : list ObjectPair) (slack : Z) : Prop := {
  listed_sound u : u ∈ rl -> u ∈ elems /\ may_point u;
  listed_bound : 2 <= maxResolutions < 2 ^ 32 -> Z.of_nat (length rl) + slack <= maxResolutions;
}.
Definition covers (l rl : list ObjectPair) : Prop := forall u, u ∈ l -> may_point u -> u ∈ rl.

Lemma listed_nil : listed [] 1.
Proof. split; [intros u Hu; by apply not_elem_of_nil in Hu|simpl; lia]. Qed.

(** What a loop that leaves the list [rl] has added to [rl0]. *)
Definition considered (rl0 l : list ObjectPair) (rl : list ObjectPair) : Prop :=
  listed rl 1 /\ rl0 ⊆ rl /\ covers l rl.
Definition finished (incomplete : bool) (rl : list ObjectPair) : Prop :=
  listed rl 0 /\ (incomplete = false -> covers elems rl).

Lemma listed_weaken rl : listed rl 1 -> listed rl 0.
Proof. intros [? Hb]. split; [done|]. intros H. specialize (Hb H). lia. Qed.

Lemma consider_ok v rl s :
  inv s -> v ∈ elems -> listed rl 1 ->
  answers inv (fun r => match r with
    | inl rl' => considered rl [v] rl'
    | inr (incomplete, rl') => finished incomplete rl'
    end) (consider 64 state address maxResolutions v rl s).
Proof.
  intros Hs Hv Hl. unfold consider. eapply returns_bind; [by apply bounds_ok, t_object|]. intros tst Htst.
  eapply returns_bind; [by apply (ask_may _ _ _ Hs Htst)|]. intros [[[]|] s1] [Hr Hs1]; simpl in Hr, Hs1.
  2:{ apply returns_ok. split; [|done]. split_and!; [done|done|]. intros u Hu%list_elem_of_singleton Hm. subst u.
      by destruct (not_pointed v). }
  2:{ apply returns_ok. split; [|done]. split; [by apply listed_weaken|done]. }
  assert (Hsound : forall u, u ∈ rl ++ [v] -> u ∈ elems /\ may_point u).
  { intros u [Hu|Hu%list_elem_of_singleton]%elem_of_app; [by apply Hl|subst u; by split]. }
  assert (Hlen : Z.of_nat (length (rl ++ [v])) = Z.of_nat (length rl) + 1) by (rewrite length_app; simpl; lia).
  assert (H0 : listed (rl ++ [v]) 0) by (split; [done|]; intros H; pose proof (listed_bound _ _ Hl H); lia).
  assert (Hcov : (2 <= maxResolutions < 2 ^ 32 -> Z.of_nat (length (rl ++ [v])) < maxResolutions) -> considered rl [v] (rl ++ [v])).
  { intros Hb. split_and!; [split; [done|]; intros H; specialize (Hb H); lia| |].
    - intros u Hu. apply elem_of_app. by left.
    - intros u Hu _. apply elem_of_app. by right. }
  assert (Hu : 2 <= maxResolutions < 2 ^ 32 -> u32 (Z.of_nat (length (rl ++ [v]))) = Z.of_nat (length (rl ++ [v]))).
  { intros H. pose proof (listed_bound _ _ Hl H). apply Z.mod_small. lia. }
  destruct (Z.eqb_spec (u32 (Z.of_nat (length (rl ++ [v])))) 1) as [E1|N1].
  - eapply returns_bind; [by apply (ask_must _ _ _ Hs1 Htst)|]. intros [[[]|] s2] [Hr2 Hs2]; simpl in Hr2, Hs2; apply returns_ok; (split; [|done]).
    + split; [done|]. intros _ u Hin Hm. rewrite (none_else v u Hv Hin Hr2 Hm). apply elem_of_app. right. by apply list_elem_of_singleton.
    + apply Hcov. intros H. rewrite Hu in E1 by done. lia.
    + by split.
  - destruct (Z.eqb_spec (u32 (Z.of_nat (length (rl ++ [v])))) maxResolutions) as [E2|N2]; apply returns_ok; (split; [|done]).
    + by split.
    + apply Hcov. intros H. pose proof (listed_bound _ _ Hl H). rewrite Hu in N2 by done. lia.
Qed.

Definition advanced (rl l : list ObjectPair) (r : progress) : Prop :=
  match r with
  | Return incomplete rl' => finished incomplete rl'
  | Continue it rl' _ => Tree.it_ok t it /\ considered rl l rl'
  end.

(** The list grows by what a round considers, then by what the rest of the loop does. *)
Lemma considered_trans rl v rl1 l rl2 : considered rl [v] rl1 -> considered rl1 l rl2 ->
  considered rl (v :: l) rl2 /\ considered rl (l ++ [v]) rl2.
Proof.
  intros (_ & S1 & C1) (L2 & S2 & C2).
  assert (Hv : may_point v -> v ∈ rl2) by (intros H; apply S2, C1; [set_solver|done]).
  split; (split_and!; [done|set_solver|]); intros u Hu Hm.
  - apply elem_of_cons in Hu as [->|Hu]; auto.
  - apply elem_of_app in Hu as [Hu| ->%list_elem_of_singleton]; auto.
Qed.

(** Nothing in [l] can be pointed into, so it need not be considered. *)
Lemma considered_skip rl l : listed rl 1 -> Forall (fun u => ~ may_point u) l -> considered rl l rl.
Proof. intros Hl Hn. split_and!; [done|done|]. intros u Hu Hm. rewrite Forall_forall in Hn. by destruct (Hn u Hu). Qed.

Lemma resolve_backwards_ok n : forall it bgn rl clock s,
  Tree.it_ok t it -> Tree.it_ok t bgn -> Tree.it_rest bgn = elems -> inv s -> listed rl 1 ->
  (length (Tree.it_before it) < n)%nat ->
  answers inv (advanced rl (Tree.it_before it)) (resolve_backwards 64 expired n state address maxResolutions bgn it rl clock s).
Proof.
  induction n as [|n IH]; intros it bgn rl clock s Hit Hb Eb Hs Hl Hn; [lia|]. cbn [resolve_backwards].
  rewrite (Tree.it_eqb_begin t it bgn t_avl t_bst) by done. case_bool_decide as Hnil.
  { apply returns_ok. split; [|done]. rewrite Hnil. split; [done|]. by apply considered_skip. }
  eapply returns_bind; [by apply step_back|]. intros it' (Hit' & v & Ev & Hv & E). rewrite Ev. cbn [mbind result_bind].
  destruct (expired clock). { apply returns_ok. split; [|done]. split; [by apply listed_weaken|done]. }
  eapply returns_bind; [by apply consider_ok|]. intros [[rl1|[inc rl1]] s1] [Hc Hs1]; simpl in Hc, Hs1; [|by apply returns_ok].
  destruct (above_test v) as (b & Eb' & Hab); [by apply t_object|]. rewrite Eb'. cbn [mbind result_bind].
  eapply returns_bind; [exact Hab|]. intros tst' Htst'. pose proof (proj1 Hc) as Hl1.
  eapply returns_bind; [by apply (ask_must _ _ _ Hs1 Htst')|]. intros [[[]|] s2] [Hr2 Hs2]; simpl in Hr2, Hs2.
  - apply returns_ok. split; [|done]. split; [done|]. rewrite E.
    apply (considered_trans rl v rl1); [done|]. apply considered_skip; [done|].
    apply (none_before _ v (Tree.it_rest it)).
    + by rewrite <- (Tree.it_total t it t_avl t_bst Hit), E, <- app_assoc.
    + intros x Hx. apply Z.leb_le. by apply Hr2.
  - rewrite E, length_app in Hn. simpl in Hn. eapply returns_weaken; [apply IH; try done; lia|].
    intros [[inc rl2|it2 rl2 c2] s3] [Hp ?]; (split; [|done]); simpl in *; [done|]. destruct Hp as [? Hp]. split; [done|].
    rewrite E. by apply (considered_trans rl v rl1).
  - apply returns_ok. split; [|done]. split; [by apply listed_weaken|done].
Qed.

Lemma resolve_forwards_ok n : forall it fin rl clock s,
  Tree.it_ok t it -> Tree.it_ok t fin -> Tree.it_rest fin = [] -> inv s -> listed rl 1 ->
  (length (Tree.it_rest it) < n)%nat ->
  answers inv (advanced rl (Tree.it_rest it)) (resolve_forwards 64 expired n state address maxResolutions fin it rl clock s).
Proof.
  induction n as [|n IH]; intros it fin rl clock s Hit Hf Ef Hs Hl Hn; [lia|]. cbn [resolve_forwards].
  rewrite (Tree.it_eqb_end t it fin) by done. destruct (Tree.it_rest it) as [|v l] eqn:Er.
  { rewrite bool_decide_eq_true_2 by done. apply returns_ok. split; [|done]. split; [done|by apply considered_skip]. }
  rewrite bool_decide_eq_false_2 by done. destruct (at_rest it v l Hit Er) as [Ev Hv]. rewrite Ev. cbn [mbind result_bind].
  destruct (expired clock). { apply returns_ok. split; [|done]. split; [by apply listed_weaken|done]. }
  destruct (below_test v) as (b & Eb' & Hbe); [by apply t_object|]. rewrite Eb'. cbn [mbind result_bind].
  eapply returns_bind; [exact Hbe|]. intros tst' Htst'.
  eapply returns_bind; [by apply (ask_must _ _ _ Hs Htst')|]. intros [[[]|] s1] [Hr1 Hs1]; simpl in Hr1, Hs1.
  - apply returns_ok. split; [|done]. split; [done|]. apply considered_skip; [done|]. eapply none_after.
    + symmetry. rewrite <- Er. by apply (Tree.it_total t it t_avl t_bst).
    + intros x Hx. apply Z.ltb_lt. by apply Hr1.
  - eapply returns_bind; [by apply consider_ok|]. intros [[rl1|[inc rl1]] s2] [Hc Hs2]; simpl in Hc, Hs2; [|by apply returns_ok].
    eapply returns_bind; [by apply (Tree.it_next_ok t it v l t_avl t_bst)|]. intros it' [Hit' Er']. simpl in Hn.
    eapply returns_weaken; [apply IH; try done; [apply Hc|rewrite Er'; lia]|]. rewrite Er'.
    intros [[inc rl2|it2 rl2 c2] s3] [Hp ?]; (split; [|done]); simpl in *; [done|]. destruct Hp as [? Hp]. split; [done|].
    by apply (considered_trans rl v rl1).
  - apply returns_ok. split; [|done]. split; [by apply listed_weaken|done].
Qed.

Lemma resolve_ok s : inv s ->
  returns (resolve 64 expired state address maxResolutions a s)
    (fun r => let '(incomplete, rl, s') := r in finished incomplete rl /\ inv s').
Proof.
  intros Hs.
  assert (Hgo : returns ('(cex, s) ← TS.getValue state address s;
    match cex with
    | None => Ok (true, [], s)
    | Some cex =>
        example ← CE_getZExtValue cex 64;
        oi ← Tree.upper_bound t (hack example);
        bgn ← Tree.begin t;
        fin ← Tree.end_ t;
        '(b, s) ← resolve_backwards 64 expired (loop_fuel a) state address maxResolutions bgn oi [] 0 s;
        match b with
        | Return incomplete rl => Ok (incomplete, rl, s)
        | Continue oi' rl clock =>
            oi' ← Tree.it_assign oi' oi;
            '(f, s) ← resolve_forwards 64 expired (loop_fuel a) state address maxResolutions fin oi' rl clock s;
            Ok (match f with Return incomplete rl => (incomplete, rl) | Continue _ rl _ => (false, rl) end, s)
        end
    end) (fun r => let '(incomplete, rl, s') := r in finished incomplete rl /\ inv s')).
  { pose proof listed_nil as Hnil.
    eapply returns_bind; [by apply example_ok|]. intros [[c|] s1] [Hr Hs1]; simpl in Hr, Hs1.
    2:{ apply returns_ok. split; [|done]. split; [by apply listed_weaken|done]. }
    destruct Hr as [-> _]. cbn [mbind result_bind].
    destruct (starts (raw c)) as (oi & bgn & fin & -> & -> & -> & Hoi & Hb & Hf & Eb & Ef). cbn [mbind result_bind].
    destruct (fuel_enough oi Hoi) as [F1 F2].
    eapply returns_bind; [by apply resolve_backwards_ok|]. intros [[inc rl|it rl clock] s2] [Hp Hs2]; simpl in Hp, Hs2; [by apply returns_ok|].
    destruct Hp as [Hit (Hl & _ & Hc1)]. rewrite it_assign_ok by done. cbn [mbind result_bind].
    eapply returns_bind; [by apply resolve_forwards_ok|].
    intros [[inc rl'|it' rl' clock'] s3] [Hp Hs3]; simpl in Hp, Hs3; apply returns_ok; (split; [|done]); [done|].
    destruct Hp as [_ (Hl' & Hsub & Hc2)]. split; [by apply listed_weaken|]. intros _ u Hu Hm.
    rewrite <- (Tree.it_total t oi t_avl t_bst Hoi) in Hu. apply elem_of_app in Hu as [Hu|Hu]; auto. }
  unfold resolve. fold t. case_eq address; [intros c Ea|intros; match goal with E : address = _ |- _ => rewrite <- E end; exact Hgo..].
  clear Hgo. destruct (const_resolution c Ea) as (r & -> & Hr). cbn [mbind result_bind]. apply returns_ok.
  split; [|done]. destruct r as [v|]; split; try done.
  - destruct Hr as [Hv Hr]. split; [|simpl; lia]. intros u Hu%list_elem_of_singleton. subst u. by split.
  - intros _ u Hu Hm. apply list_elem_of_singleton. destruct Hr as [Hv (x & Hx & Hc)].
    apply (none_else v u Hv Hu); [|done]. intros y Hy. apply (const_takes c Ea) in Hx, Hy. by subst.
  - split; [|simpl; lia]. intros u Hu. by apply not_elem_of_nil in Hu.
  - intros _ u Hu Hm. by destruct (Hr u Hu).
Qed.
End resolve.
End symbolic_resolution.

(** ** The address space is a map *)
Lemma equiv_address k (u : ObjectPair) : Tree.equiv k u = (mo_address k =? mo_address (fst u)).
Proof.
  unfold Tree.equiv. simpl. unfold MemoryObjectLT.
  destruct (Z.ltb_spec (mo_address k) (mo_address (fst u))), (Z.ltb_spec (mo_address (fst u)) (mo_address k)),
    (Z.eqb_spec (mo_address k) (mo_address (fst u))); lia || done.
Qed.

Lemma l_lookup_replace k (v : ObjectPair) l :
  Tree.l_lookup k (Tree.l_replace v l) = if Tree.equiv k v then Some v else Tree.l_lookup k l.
Proof.
  unfold Tree.l_lookup. induction l as [|x l IH]; [done|]. cbn [Tree.l_replace].
  change (Tree.key_compare (Tree.key_of_value v) (Tree.key_of_value x)) with (mo_address (fst v) <? mo_address (fst x)).
  change (Tree.key_compare (Tree.key_of_value x) (Tree.key_of_value v)) with (mo_address (fst x) <? mo_address (fst v)).
  destruct (Z.ltb_spec (mo_address (fst v)) (mo_address (fst x))); [done|].
  destruct (Z.ltb_spec (mo_address (fst x)) (mo_address (fst v))); cbn [List.find]; rewrite ?IH, !equiv_address;
    destruct (Z.eqb_spec (mo_address k) (mo_address (fst v))), (Z.eqb_spec (mo_address k) (mo_address (fst x))); lia || done.
Qed.

Lemma l_lookup_remove k k' (l : list ObjectPair) :
  Tree.l_lookup k (Tree.l_remove k' l) = if mo_address k =? mo_address k' then None else Tree.l_lookup k l.
Proof.
  unfold Tree.l_lookup, Tree.l_remove. induction l as [|x l IH]; [by case_match|]. cbn [List.filter].
  rewrite equiv_address. destruct (Z.eqb_spec (mo_address k') (mo_address (fst x))); cbn [negb List.find]; rewrite IH, !equiv_address;
    destruct (Z.eqb_spec (mo_address k) (mo_address k')), (Z.eqb_spec (mo_address k) (mo_address (fst x))); lia || done.
Qed.

Lemma replace_elem (u v : ObjectPair) l : StronglySorted Tree.vlt l ->
  u ∈ Tree.l_replace v l -> u = v \/ u ∈ l /\ mo_address (fst u) <> mo_address (fst v).
Proof.
  induction 1 as [|x l Hs IH Hx]; cbn [Tree.l_replace].
  { intros ->%list_elem_of_singleton. by left. }
  rewrite Forall_forall in Hx.
  assert (Hlt : forall y, y ∈ l -> mo_address (fst x) < mo_address (fst y)).
  { intros y Hy. apply Z.ltb_lt. by apply (Hx y Hy). }
  change (Tree.key_compare (Tree.key_of_value v) (Tree.key_of_value x)) with (mo_address (fst v) <? mo_address (fst x)).
  change (Tree.key_compare (Tree.key_of_value x) (Tree.key_of_value v)) with (mo_address (fst x) <? mo_address (fst v)).
  destruct (Z.ltb_spec (mo_address (fst v)) (mo_address (fst x))).
  { intros [->|[->|Hu]%elem_of_cons]%elem_of_cons; [by left|right|right]; (split; [by constructor|]); [lia|].
    specialize (Hlt u Hu). lia. }
  destruct (Z.ltb_spec (mo_address (fst x)) (mo_address (fst v))).
  - intros [->|Hu]%elem_of_cons; [right; split; [by constructor|lia]|].
    destruct (IH Hu) as [?|[? ?]]; [by left|right; split; [by constructor|done]].
  - intros [->|Hu]%elem_of_cons; [by left|right]. split; [by constructor|]. specialize (Hlt u Hu). lia.
Qed.

Lemma sorted_weaken {A} (R S : A -> A -> Prop) l :
  StronglySorted R l -> (forall x y, x ∈ l -> y ∈ l -> R x y -> S x y) -> StronglySorted S l.
Proof.
  induction 1 as [|x l Hs IH Hx]; intros HRS; constructor.
  - apply IH. intros y z Hy Hz. by apply HRS; constructor.
  - rewrite Forall_forall in Hx |- *. intros y Hy. apply HRS; [by constructor..|]. by apply Hx.
Qed.

(** The object does not overlap the ones at other addresses. *)
Definition fits (v : ObjectPair) (a : AddressSpace) : Prop :=
  object_ok v /\ forall u, u ∈ Tree.elements (objects a) -> mo_address (fst u) <> mo_address (fst v) -> apart u v \/ apart v u.

Lemma sorted_pair {A} (R : A -> A -> Prop) l x y :
  StronglySorted R l -> x ∈ l -> y ∈ l -> x = y \/ R x y \/ R y x.
Proof.
  induction 1 as [|z l Hs IH Hz]; [intros H; by apply not_elem_of_nil in H|]. rewrite Forall_forall in Hz.
  intros [->|Hx]%elem_of_cons [->|Hy]%elem_of_cons; auto.
Qed.

Lemma bind_ok mo os a : as_ok a -> Tree.size (objects a) + 1 < 2 ^ 64 -> fits (mo, os) a -> as_ok (bindObject mo os a).
Proof.
  intros [Ht Ho Hap] Hsz [Hv Hfit]. destruct (Tree.replace_ok (objects a) Ht (mo, os) Hsz) as [Ht' E].
  pose proof Ht as (_ & Hb & _). rewrite Forall_forall in Ho.
  change (Tree.replace (mo, os) (objects a)) with (objects (bindObject mo os a)) in *.
  assert (Hext : forall x y : ObjectPair, mo_address (fst x) < mo_address (fst y) -> ~ apart y x).
  { intros x y. unfold apart, extent. lia. }
  split; [done|rewrite E..].
  - apply Forall_forall. intros u Hu. apply replace_elem in Hu as [->|[? _]]; auto.
  - eapply sorted_weaken; [by apply Tree.l_replace_sorted|]. intros x y Hx Hy Hxy. apply Z.ltb_lt in Hxy. cbn in Hxy.
    pose proof (Hext x y Hxy).
    apply replace_elem in Hx as [Ex|[Hx Nx]]; [| |done]; apply replace_elem in Hy as [Ey|[Hy Ny]]; try done.
    + subst x y. lia.
    + subst x. by destruct (Hfit y Hy Ny).
    + subst y. by destruct (Hfit x Hx Nx).
    + destruct (sorted_pair apart _ x y Hap Hx Hy) as [->|[?|?]]; [lia|done|done].
Qed.

Lemma filter_elem (f : ObjectPair -> bool) l u : u ∈ List.filter f l -> u ∈ l.
Proof. rewrite !list_elem_of_In, List.filter_In. by intros []. Qed.

Lemma unbind_ok mo a : as_ok a -> as_ok (unbindObject mo a).
Proof.
  intros [Ht Ho Hap]. destruct (Tree.remove_ok (objects a) Ht mo) as [Ht' E]. pose proof Ht as (_ & Hb & _).
  change (Tree.remove mo (objects a)) with (objects (unbindObject mo a)) in *. rewrite Forall_forall in Ho.
  split; [done|rewrite E..].
  - apply Forall_forall. intros u Hu%filter_elem. auto.
  - eapply sorted_weaken; [by apply Tree.filter_sorted|]. intros x y Hx%filter_elem Hy%filter_elem Hxy.
    apply Z.ltb_lt in Hxy. cbn in Hxy.
    destruct (sorted_pair apart _ x y Hap Hx Hy) as [->|[?|Hyx]]; [lia|done|]. unfold apart, extent in Hyx. lia.
Qed.

Lemma find_elements mo a : Tree.tree_ok (objects a) -> findObject mo a = snd <$> Tree.l_lookup mo (Tree.elements (objects a)).
Proof. intros (_ & Hb & _). unfold findObject. by rewrite Tree.lookup_elements. Qed.

(** ** Passing memory to external code *)
Section concretes_ok.
Context (heap : Z -> ObjectState) (a : AddressSpace) (Ha : as_ok a).

Lemma visit_pairs_ok n : forall it ie, Tree.it_ok (objects a) it -> Tree.it_ok (objects a) ie -> Tree.it_rest ie = [] ->
  (length (Tree.it_rest it) < n)%nat -> visit_pairs n ie it = Ok (Tree.it_rest it).
Proof.
  destruct Ha as [(Hv & Hb & _) _ _]. induction n as [|n IH]; intros it ie Hit Hie Ei Hn; [lia|]. cbn [visit_pairs].
  rewrite (Tree.it_eqb_end (objects a) it ie) by done. destruct (Tree.it_rest it) as [|v l] eqn:Er.
  { by rewrite bool_decide_eq_true_2. }
  rewrite bool_decide_eq_false_2, (Tree.deref_ok it v l) by done. cbn [mbind result_bind].
  destruct (Tree.it_next_ok (objects a) it v l Hv Hb Hit Er) as (it' & -> & Hit' & Er'). cbn [mbind result_bind].
  rewrite IH by (rewrite ?Er'; simpl in Hn; lia || done). by rewrite Er'.
Qed.

(** The loops visit every object once, in the order of the addresses. *)
Lemma pairs_ok : pairs a = Ok (Tree.elements (objects a)).
Proof.
  unfold pairs. destruct (starts a Ha 0) as (oi & bgn & fin & _ & -> & -> & _ & Hb & Hf & Eb & Ef). cbn [mbind result_bind].
  rewrite visit_pairs_ok by (done || by apply fuel_enough). by rewrite Eb.
Qed.

Lemma memcpy_self d n : forall m m', (forall b, m b = m' b) -> forall b, memcpy m d d n b = m' b.
Proof.
  revert d. induction n as [|n IH]; intros d m m' E b; cbn [memcpy]; [done|]. apply IH. intros c. unfold store8.
  destruct (Z.eqb_spec c d) as [->|]; auto.
Qed.

Lemma differ_self m d n : differ m d d n = false.
Proof. revert d. induction n as [|n IH]; intros d; cbn [differ]; [done|]. by rewrite Z.eqb_refl, IH. Qed.

(** Objects that are mapped in place, as those of the program under test are. *)
Hypothesis in_place : forall v, v ∈ Tree.elements (objects a) -> concreteStore (heap (snd v)) = mo_address (fst v).

Lemma copyOut_in_place m : returns (copyOutConcretes heap a m) (fun m' => forall b, m' b = m b).
Proof.
  unfold copyOutConcretes. rewrite pairs_ok. apply returns_ok.
  assert (Hgo : forall l m', (forall v, v ∈ l -> concreteStore (heap (snd v)) = mo_address (fst v)) ->
    (forall b, m' b = m b) -> forall b, fold_left (copy_out heap) l m' b = m b); [|by apply Hgo].
  induction l as [|[mo p] l IH]; intros m' Hl E b; [done|]. cbn [fold_left]. apply IH; [intros; apply Hl; by constructor|].
  intros c. unfold copy_out. assert (Es := Hl (mo, p) ltac:(constructor)). simpl in Es. rewrite Es. case_match; [|done]. by apply memcpy_self.
Qed.

Lemma copyIn_in_place m : copyInConcretes heap a m = Ok (true, m).
Proof.
  unfold copyInConcretes. rewrite pairs_ok. cbn [mbind result_bind].
  revert in_place. generalize (Tree.elements (objects a)). induction l as [|[mo p] l IH]; intros Hl; [done|].
  cbn [copy_in]. assert (Es := Hl (mo, p) ltac:(constructor)). simpl in Es. rewrite Es, differ_self, andb_false_r.
  apply IH. intros v Hv. apply Hl. by constructor.
Qed.
End concretes_ok.

(** The address space is a map from addresses to states: a bound object is found,
    under any object with its address, an unbound one is not, and other addresses
    are not affected.  Binding an object that overlaps none of the others and
    unbinding keep the objects apart and the tree balanced and ordered. *)
Theorem bind_unbind_find a mo os mo' :
  as_ok a -> Tree.size (objects a) + 1 < 2 ^ 64 -> fits (mo, os) a ->
  (as_ok (bindObject mo os a) /\
   findObject mo' (bindObject mo os a) = if mo_address mo' =? mo_address mo then Some os else findObject mo' a) /\
  (as_ok (unbindObject mo a) /\
   findObject mo' (unbindObject mo a) = if mo_address mo' =? mo_address mo then None else findObject mo' a).
Proof.
  intros Ha Hsz Hfit. pose proof (bind_ok mo os a Ha Hsz Hfit) as Hb. pose proof (unbind_ok mo a Ha) as Hu.
  split; (split; [done|]).
  - rewrite !find_elements by (by apply as_tree).
    destruct (Tree.replace_ok (objects a) (as_tree _ Ha) (mo, os) Hsz) as [_ E].
    change (Tree.replace (mo, os) (objects a)) with (objects (bindObject mo os a)) in E.
    rewrite E, l_lookup_replace, equiv_address. cbn [fst]. by case_match.
  - rewrite !find_elements by (by apply as_tree).
    destruct (Tree.remove_ok (objects a) (as_tree _ Ha) mo) as [_ E].
    change (Tree.remove mo (objects a)) with (objects (unbindObject mo a)) in E.
    rewrite E, l_lookup_remove. by case_match.
Qed.

(** Resolving a pointer to one object: unless a query fails, [resolveOne] gives an
    object the pointer can point into under the path condition, or none when there
    is no such object at all.  The searches around the example visit each object at
    most once, so they end. *)
Theorem resolveOne_correct {AP : APIntOps} {SP : APIntSpec AP} {CFG : Config} {SUP : Supported} {St : Type} {SI : SolverImpl St}
    {inv : St -> Prop} {SS : SolverSpec SI inv} {T : TimingSolver} (state : CState) (address : expr) (a : AddressSpace) (s : St) :
  simplifies state -> satisfiable (TS.query state address) -> q_ok (TS.query state address) ->
  getWidth address = 64 -> as_ok a -> inv s ->
  answers inv (fun r => match r with
    | Some (Some v) => v ∈ Tree.elements (objects a) /\ may_point state address v
    | Some None => forall u, u ∈ Tree.elements (objects a) -> ~ may_point state address u
    | None => True
    end) (resolveOne 64 state address a s).
Proof. intros. by apply resolveOne_ok. Qed.

(** C32. Resolving a pointer to all objects: [resolve] always returns, every object of
    the list is one the pointer can point into, and when the resolution is not
    flagged incomplete the list has all of them.  A bound of two or more objects is
    never exceeded. *)
Theorem resolve_correct {AP : APIntOps} {SP : APIntSpec AP} {CFG : Config} {SUP : Supported} {St : Type} {SI : SolverImpl St}
    {inv : St -> Prop} {SS : SolverSpec SI inv} {T : TimingSolver} (expired : nat -> bool) (maxResolutions : Z)
    (state : CState) (address : expr) (a : AddressSpace) (s : St) :
  simplifies state -> satisfiable (TS.query state address) -> q_ok (TS.query state address) ->
  getWidth address = 64 -> as_ok a -> inv s ->
  returns (resolve 64 expired state address maxResolutions a s) (fun r => let '(incomplete, rl, s') := r in
    (forall u, u ∈ rl -> u ∈ Tree.elements (objects a) /\ may_point state address u) /\
    (incomplete = false -> forall u, u ∈ Tree.elements (objects a) -> may_point state address u -> u ∈ rl) /\
    (2 <= maxResolutions < 2 ^ 32 -> Z.of_nat (length rl) <= maxResolutions) /\ inv s').
Proof.
  intros Hsim Hsat Hq Hw Ha Hs. eapply returns_weaken; [by apply (resolve_ok state address a Hsim Hsat Hq Hw Ha)|].
  intros [[inc rl] s'] [[[Hso Hb] Hc] Hs']. split_and!; [done|done| |done]. intros H. specialize (Hb H). lia.
Qed.

(** ** A concrete address space: two buffers and a pointer into them *)
Module SampleSpace.
Definition low : MemoryObject := {| mo_address := 4096; mo_size := 16; isUserSpecified := false |}.
Definition high : MemoryObject := {| mo_address := 4112; mo_size := 16; isUserSpecified := false |}.
Definition space : AddressSpace := bindObject high 2 (bindObject low 1 {| objects := Tree.Terminator |}).
(** [0x1000 + buf[0]] *)
Definition pointer : expr := BinExpr Kind.Add (cst 64 4096) (ZExtExpr (byte 0) 64).

Lemma space_elements : Tree.elements (objects space) = [(low, 1); (high, 2)].
Proof. vm_compute. reflexivity. Qed.

Lemma space_ok : as_ok space.
Proof.
  split.
  - split; [|split]; [vm_compute; repeat split; discriminate| |vm_compute; reflexivity].
    unfold Tree.bst. rewrite space_elements. repeat constructor.
  - rewrite space_elements. repeat constructor; vm_compute; done.
  - rewrite space_elements. repeat constructor. vm_compute. done.
Qed.

Lemma pointer_value {CFG : Config} rho : has_value rho pointer.
Proof. unfold has_value, pointer. simpl. eauto. Qed.

Lemma pointer_ok {AP : APIntOps} {CFG : Config} : q_ok (SUP := everything) (TS.query (st_with [first_is_1]) pointer).
Proof. apply (sample_q_ok pointer); [concrete|apply pointer_value]. Qed.

(** A decision procedure for the queries about one byte: it tries its values. *)
Section enumeration.
Context {CFG : Config}.
Definition candidates : list env := map (fun b _ _ => Z.of_nat b) (seq 0 256).
Definition holds (rho : env) (e : expr) : bool := bool_decide (eval rho e = Some 1).
Definition solutions (q : Query) : list env := List.filter (fun rho => forallb (holds rho) (q_constraints q)) candidates.
Definition truth (q : Query) (s : unit) : result (option bool * unit) :=
  Ok (Some (forallb (fun rho => holds rho (q_expr q)) (solutions q)), s).
Definition value (q : Query) (s : unit) : result (option expr * unit) :=
  Ok (match solutions q with
      | rho :: _ => v ← eval rho (q_expr q); Some (ConstantExpr (APInt (getWidth (q_expr q)) v))
      | [] => None
      end, s).
Definition enumerating {AP : APIntOps} : SolverImpl unit := {|
  computeTruth := truth; computeValidity := default_computeValidity truth; computeValue := value;
  computeInitialValues := fun _ _ s => Ok (None, s) |}.
End enumeration.

(** The bound of one resolution is not kept: the header promises no more than
    [maxResolutions] pairs, but the first pair is never compared with it. *)
Example one_resolution_gives_two :
  @resolve ZOps default_config unit (enumerating (CFG := default_config) (AP := ZOps))
    {| simplifyExprs := false; simplify_fuel := fun _ => 0%nat |}
    64 (fun _ => false) (st_with []) pointer 1 space tt = Ok (false, [(low, 1); (high, 2)], tt).
Proof. vm_compute. reflexivity. Qed.
End SampleSpace.

Lemma bind_unbind_find_witness :
  findObject (hack 4112) (bindObject SampleSpace.high 7 SampleSpace.space) = Some 7 /\
  findObject (hack 4112) (unbindObject SampleSpace.high SampleSpace.space) = None.
Proof.
  destruct (bind_unbind_find SampleSpace.space SampleSpace.high 7 (hack 4112)) as [[_ E1] [_ E2]].
  - apply SampleSpace.space_ok.
  - vm_compute. reflexivity.
  - split; [vm_compute; repeat split; discriminate|]. rewrite SampleSpace.space_elements.
    intros u Hu Hn. apply elem_of_cons in Hu as [->|Hu]; [left; vm_compute; discriminate|].
    apply list_elem_of_singleton in Hu as ->. by destruct Hn.
  - exact (conj E1 E2).
Defined.

Lemma resolveOne_correct_witness :
  answers (fun _ => True) (fun r => match r with
    | Some (Some v) => v ∈ Tree.elements (objects SampleSpace.space) /\
        @may_point default_config (st_with [first_is_1]) SampleSpace.pointer v
    | Some None => forall u, u ∈ Tree.elements (objects SampleSpace.space) ->
        ~ @may_point default_config (st_with [first_is_1]) SampleSpace.pointer u
    | None => True
    end) (@resolveOne ZOps default_config unit (@Oracle.impl ZOps default_config)
      {| simplifyExprs := false; simplify_fuel := fun _ => 0%nat |} 64 (st_with [first_is_1]) SampleSpace.pointer SampleSpace.space tt).
Proof.
  apply (@resolveOne_correct ZOps ZOps_spec default_config everything unit (@Oracle.impl ZOps default_config) (fun _ => True)
    (@Oracle.spec ZOps ZOps_spec default_config everything) {| simplifyExprs := false; simplify_fuel := fun _ => 0%nat |}
    (st_with [first_is_1]) SampleSpace.pointer SampleSpace.space tt).
  - intros E. discriminate E.
  - exists ones. apply (sample_models SampleSpace.pointer).
  - apply SampleSpace.pointer_ok.
  - reflexivity.
  - apply SampleSpace.space_ok.
  - exact I.
Defined.

Lemma resolve_correct_witness :
  returns (@resolve ZOps default_config unit (@Oracle.impl ZOps default_config)
    {| simplifyExprs := false; simplify_fuel := fun _ => 0%nat |} 64 (fun _ => false)
    (st_with [first_is_1]) SampleSpace.pointer 2 SampleSpace.space tt) (fun r => let '(incomplete, rl, s') := r in
    (forall u, u ∈ rl -> u ∈ Tree.elements (objects SampleSpace.space) /\
      @may_point default_config (st_with [first_is_1]) SampleSpace.pointer u) /\
    (incomplete = false -> forall u, u ∈ Tree.elements (objects SampleSpace.space) ->
      @may_point default_config (st_with [first_is_1]) SampleSpace.pointer u -> u ∈ rl) /\
    (2 <= 2 < 2 ^ 32 -> Z.of_nat (length rl) <= 2) /\ True).
Proof.
  apply (@resolve_correct ZOps ZOps_spec default_config everything unit (@Oracle.impl ZOps default_config) (fun _ => True)
    (@Oracle.spec ZOps ZOps_spec default_config everything) {| simplifyExprs := false; simplify_fuel := fun _ => 0%nat |}
    (fun _ => false) 2 (st_with [first_is_1]) SampleSpace.pointer SampleSpace.space tt).
  - intros E. discriminate E.
  - exists ones. apply (sample_models SampleSpace.pointer).
  - apply SampleSpace.pointer_ok.
  - reflexivity.
  - apply SampleSpace.space_ok.
  - exact I.
Defined.
