(* ===== verification/TaseMemory.v ===== *)
(** * The memory the interpreter works on

    [Executor::tase_helper_read], [tase_helper_write] and [isBufferEntirelyConcrete]
    of [klee/lib/Core/Executor.cpp]: they find the object an address belongs to
    (AddressSpace.v), access its contents (Memory.v) and keep the poison in the
    memory of the running program in step (MemoryPoison.v).  Together the parts
    implement a flat memory of bytes, each the value of an expression: a write
    changes the bytes it is for and no other, and keeps every object's contract with
    native execution. *)

From S2P Require Import Prelude APInt ExprData Samples ExprCreate ExprCreateSound ExprStructSound ExprVisitor ImmutableTree Memory MemorySound MemoryAccess MemoryPoison AddressSpace AddressSpaceSound.
Local Open Scope Z_scope.

(** The objects of [GlobalExecutionStatePtr->addressSpace], their object states by
    the addresses of those, and the globals. *)
Record Store := {
  heap : Z -> ObjectState;
  space : AddressSpace;
  world : World;
}.
Definition set_object (p : Z) (os : ObjectState) (w : World) (st : Store) : Store :=
  {| heap := fun q => if q =? p then os else heap st q; space := space st; world := w |}.

Section helpers.
Context {AP : APIntOps} {CFG : Config} {PR : Process}.

(** The first half of both helpers.  For a constant address [resolveOne] is
    [resolveOne_const]; it reports a missing object in [success], which nobody looks
    at: [op] holds null pointers then, and using them ends the process. *)
Definition locate (addr : Z) (st : Store) : result (Z * expr) :=
  addrExpr ← ConstantExpr_create addr Int64;
  op ← resolveOne_const addrExpr (space st);
  match op with
  | None => AssertFail
  | Some (mo, os) =>
      offset ← getOffsetExpr 64 mo (ConstantExpr addrExpr);
      wos ← getWriteable (heap st) mo os;
      Ok (wos, offset)
  end.

Definition tase_helper_read (addr byteWidth : Z) (st : Store) : result (option expr * Store) :=
  '(wos, offset) ← locate addr st;
  '(returnVal, os, w) ←
    (if byteWidth =? 1 then read_expr offset Int8 (heap st wos) (world st)
     else if byteWidth =? 2 then read_expr offset Int16 (heap st wos) (world st)
     else if byteWidth =? 4 then read_expr offset Int32 (heap st wos) (world st)
     else if byteWidth =? 8 then read_expr offset Int64 (heap st wos) (world st)
     else AssertFail);
  '(os, w) ← applyPsnOnRead offset os w;
  Ok (returnVal, set_object wos os w st).

Definition tase_helper_write (addr : Z) (val : expr) (st : Store) : result Store :=
  '(wos, offset) ← locate addr st;
  '(os, w) ← write_expr offset val (heap st wos) (world st);
  '(os, w) ← applyPsnOnWrite offset val os w;
  Ok (set_object wos os w st).

(** The slow path of [isBufferEntirelyConcrete]; a null reference is no constant. *)
Fixpoint concrete_bytes (byteItr : Z) (n : nat) (i : Z) (st : Store) : result (bool * Store) :=
  match n with
  | O => Ok (true, st)
  | S k =>
      '(byteExpr, st) ← tase_helper_read (u64 (byteItr + i)) 1 st;
      if match byteExpr with Some e => isConst e | None => false end then concrete_bytes byteItr k (i + 1) st
      else Ok (false, st)
  end.
Definition isBufferEntirelyConcrete (addr size : Z) (st : Store) : result (bool * Store) :=
  t ← tase_buf_has_taint (mem (world st)) addr size;
  if t : bool then concrete_bytes addr (Z.to_nat size) 0 st else Ok (true, st).
End helpers.

(** ** The invariant *)
Record object_state_ok {CFG : Config} (m : memory) (mo : MemoryObject) (os : ObjectState) : Prop := {
  so_ok : os_ok os m;
  so_tase : tase_ok os m;
  so_object : object os = mo;
  so_size : os_size os = mo_size mo;
  so_writable : readOnly os = false;
}.
Record store_ok {CFG : Config} (st : Store) : Prop := {
  st_space : as_ok (space st);
  st_objects mo p : (mo, p) ∈ Tree.elements (objects (space st)) -> object_state_ok (mem (world st)) mo (heap st p);
  st_distinct u v : u ∈ Tree.elements (objects (space st)) -> v ∈ Tree.elements (objects (space st)) -> snd u = snd v -> u = v;
}.

(** ** The flat memory

    The byte at the address [a] has the value [x] under the assignment [rho]. *)
Definition cell {CFG : Config} (rho : env) (st : Store) (a x : Z) : Prop :=
  exists mo p, (mo, p) ∈ Tree.elements (objects (space st)) /\ contains mo a /\
    contents rho (heap st p) (mem (world st)) (a - mo_address mo) = Some x.

(** The byte at [a] is in the concrete store of its object. *)
Definition concrete_at (st : Store) (a : Z) : Prop :=
  exists mo p, (mo, p) ∈ Tree.elements (objects (space st)) /\ contains mo a /\
    isByteConcrete (heap st p) (a - mo_address mo) = Ok true.

(** The [n] bytes from [addr] on belong to one object. *)
Definition mapped (addr n : Z) (st : Store) (v : ObjectPair) : Prop :=
  v ∈ Tree.elements (objects (space st)) /\ mo_address (fst v) <= addr /\ addr + n <= mo_address (fst v) + mo_size (fst v).

(** ** Finding the object *)
Section locating.
Context {AP : APIntOps} {SP : APIntSpec AP} {CFG : Config} {PR : Process}.

Lemma contains_unique a u v x : as_ok a ->
  u ∈ Tree.elements (objects a) -> v ∈ Tree.elements (objects a) -> contains (fst u) x -> contains (fst v) x -> u = v.
Proof.
  intros [_ _ Hap] Hu Hv Hcu%contains_extent Hcv%contains_extent. destruct (sorted_pair _ _ u v Hap Hu Hv) as [->|[H|H]];
    [done|unfold apart in H; lia..].
Qed.

(** Different objects have no address in common. *)
Lemma objects_disjoint a u v x : as_ok a ->
  u ∈ Tree.elements (objects a) -> v ∈ Tree.elements (objects a) -> u <> v ->
  mo_address (fst u) <= x < mo_address (fst u) + mo_size (fst u) ->
  x < mo_address (fst v) \/ mo_address (fst v) + mo_size (fst v) <= x.
Proof.
  intros [_ _ Hap] Hu Hv N Hx. destruct (sorted_pair _ _ u v Hap Hu Hv) as [->|[H|H]]; [done|..];
    unfold apart, extent in H; lia.
Qed.

Lemma mapped_contains addr n st v : 0 < n -> mapped addr n st v -> contains (fst v) addr.
Proof.
  intros Hn (_ & H1 & H2). unfold contains, containsb. destruct (Z.eqb_spec (mo_size (fst v)) 0); [lia|].
  apply andb_true_iff. split; [apply Z.leb_le|apply Z.ltb_lt]; lia.
Qed.

Lemma object_range st v : store_ok st -> v ∈ Tree.elements (objects (space st)) -> object_ok v.
Proof. intros [[_ Ho _] _ _] Hv. rewrite Forall_forall in Ho. by apply Ho. Qed.

(** The offset of an address in its object. *)
Lemma offset_const mo addr :
  0 <= mo_address mo <= addr -> addr < 2 ^ 64 ->
  exists c, getOffsetExpr 64 mo (ConstantExpr (APInt 64 addr)) = Ok (ConstantExpr c) /\ apok c /\ raw c = addr - mo_address mo.
Proof.
  intros Hmo Ha. destruct (const64 addr) as [_ Wa]; [lia|]. destruct (const64 (mo_address mo)) as [Em Wm]; [lia|].
  unfold getOffsetExpr, getBaseExpr. rewrite Em. cbn [mbind result_bind].
  destruct (bin_create_builds Kind.Sub (ConstantExpr (APInt 64 addr)) (ConstantExpr (APInt 64 (mo_address mo))))
    as (e & He & Hw & Ew & Re); [done|done|done|by apply not_div_ok|].
  pose proof (bin_create_const _ _ _ _ He) as Hc. destruct e as [c| | | | | | | | |]; try done.
  exists c. split; [done|]. split; [done|]. specialize (Re (fun _ _ => 0) (addr - mo_address mo)). simpl in Re.
  assert (Some (raw c) = Some (addr - mo_address mo)); [|congruence]. apply Re. f_equal.
  apply wrap_small. unfold inw. lia.
Qed.

Lemma locate_ok st addr n v : store_ok st -> 0 < n -> mapped addr n st v ->
  exists c, locate addr st = Ok (snd v, ConstantExpr c) /\ apok c /\ raw c = addr - mo_address (fst v).
Proof.
  intros Hst Hn Hm. pose proof Hm as (Hv & Hlo & Hhi). destruct (object_range st v Hst Hv) as (H0 & Hsz & Hend).
  unfold extent in Hend. assert (Ha : 0 <= addr < 2 ^ 64) by lia. destruct (const64 addr Ha) as [Ec Wc].
  unfold locate, Int64. rewrite Ec. cbn [mbind result_bind].
  destruct (resolveOne_const_ok (space st) (APInt 64 addr)) as (r & -> & Hr); [apply Hst|exact Wc|done|].
  cbn [mbind result_bind]. pose proof (mapped_contains _ _ _ _ Hn Hm) as Hcon. destruct r as [u|].
  - destruct Hr as [Hu Hcu]. rewrite (contains_unique (space st) u v addr) by (done || apply Hst).
    destruct v as [mo p]. simpl in *. destruct (offset_const mo addr) as (c & -> & Hc & Ev); [lia|lia|].
    cbn [mbind result_bind]. unfold getWriteable.
    rewrite (so_writable _ _ _ (st_objects _ Hst _ _ Hv)). cbn [negb massert mbind result_bind]. eauto.
  - rewrite Forall_forall in Hr. by destruct (Hr v Hv).
Qed.

(** A change of one object, inside that object. *)
Lemma set_object_ok st v os w : store_ok st -> v ∈ Tree.elements (objects (space st)) ->
  object_state_ok (mem w) (fst v) os ->
  (forall a, outside (heap st (snd v)) a -> mem w a = mem (world st) a) ->
  store_ok (set_object (snd v) os w st) /\
  forall rho a x, ~ contains (fst v) a -> cell rho st a x -> cell rho (set_object (snd v) os w st) a x.
Proof.
  intros Hst Hv Hos Hout. destruct v as [mo p]. cbn [fst snd] in *.
  pose proof (st_objects _ Hst _ _ Hv) as [Hok Ht Ho Hs _].
  assert (Hother : forall mo' q, (mo', q) ∈ Tree.elements (objects (space st)) -> q <> p ->
    object_state_ok (mem w) mo' (heap st q) /\
    forall rho i, 0 <= i < mo_size mo' -> contents rho (heap st q) (mem w) i = contents rho (heap st q) (mem (world st)) i).
  { intros mo' q Hq N. destruct (st_objects _ Hst _ _ Hq) as [Hok' Ht' Ho' Hs' Hw'].
    assert (Hm : forall i, 0 <= i < os_size (heap st q) ->
      mem w (concreteStore (heap st q) + i) = mem (world st) (concreteStore (heap st q) + i)).
    { intros i Hi. apply Hout. unfold outside. rewrite !(ta_store _ (ta_mapped _ _ Ht)), !(ta_store _ (ta_mapped _ _ Ht')), Ho, Ho', Hs.
      apply (objects_disjoint (space st) (mo', q) (mo, p)); try done; [apply Hst|congruence|]. simpl. lia. }
    destruct (mem_change_ok (heap st q) (mem (world st)) (mem w) Hok') as [Hok2 Hc2].
    - intros i Hi _. by apply Hm.
    - intros i Hi. rewrite Hm by done. destruct Hok' as (vw & _ & Hc). by apply Hc.
    - rewrite Hs' in Hc2. split; [|exact Hc2]. constructor; try done. constructor; [apply Ht'|]. intros k Hk.
      pose proof (ta_size _ (ta_mapped _ _ Ht')). pose proof (Z.div_mod (os_size (heap st q)) 2).
      apply (halfword_keep (heap st q) (heap st q) (mem (world st))); try done; [|by apply (ta_poison _ _ Ht')].
      unfold load16. cbn [load]. rewrite <- !Z.add_assoc, !Hm by lia. done. }
  split.
  - constructor; cbn [space]; [apply Hst| |apply Hst]. intros mo' q Hq. cbn [heap world set_object].
    destruct (Z.eqb_spec q p) as [->|N]; [|by apply Hother].
    by assert ((mo', p) = (mo, p)) as [= ->] by (by apply (st_distinct _ Hst)).
  - intros rho a x Hn (mo' & q & Hq & Hc & Hx). exists mo', q. split; [done|]. split; [done|]. cbn [heap world set_object].
    destruct (Z.eqb_spec q p) as [->|N].
    { by assert ((mo', p) = (mo, p)) as [= ->] by (by apply (st_distinct _ Hst)). }
    destruct (Hother _ _ Hq N) as [_ Hsame]. rewrite Hsame; [exact Hx|]. pose proof (so_size _ _ _ (st_objects _ Hst _ _ Hq)) as E.
    pose proof (size_bound _ _ (so_ok _ _ _ (st_objects _ Hst _ _ Hq))) as Hb. rewrite E in Hb.
    apply contains_extent in Hc. unfold extent in Hc. lia.
Qed.
End locating.

(** ** Writing *)
Section writing.
Context {AP : APIntOps} {SP : APIntSpec AP} {CFG : Config} {PR : Process}.

(** What a write of [n] bytes leaves. *)
Record helper_wrote (st : Store) (addr n : Z) (value : expr) (st' : Store) : Prop := {
  hw_ok : store_ok st';
  hw_space : space st' = space st;
  hw_bytes rho x : eval rho value = Some x -> forall i, 0 <= i < n -> cell rho st' (addr + byte_index n i) (byte_of x i);
  hw_other rho a x : a < addr \/ addr + n <= a -> cell rho st a x -> cell rho st' a x;
}.

Lemma object_stored st v addr n value p : store_ok st -> mapped addr n st v -> 0 < n ->
  stored (heap st (snd v)) (world st) (addr - mo_address (fst v)) n value p ->
  helper_wrote st addr n value (set_object (snd v) (fst p) (snd p) st).
Proof.
  intros Hst Hm Hn [Hf Hok Ht Hb Ho Hmem]. pose proof Hm as (Hv & Hlo & Hhi). destruct v as [mo q]. cbn [fst snd] in *.
  destruct (st_objects _ Hst _ _ Hv) as [Hok0 Ht0 Ho0 Hs0 Hw0]. pose proof Hf as (Eo & Es & Ez & Er & _).
  destruct (set_object_ok st (mo, q) (fst p) (snd p) Hst Hv) as [Hst' Hcell].
  { constructor; try done; cbn [fst]; congruence. }
  { done. }
  cbn [fst snd] in *.
  assert (Hin : forall rho a x, mo_address mo <= a < mo_address mo + mo_size mo ->
    contents rho (fst p) (mem (snd p)) (a - mo_address mo) = Some x -> cell rho (set_object q (fst p) (snd p) st) a x).
  { intros rho a x Ha Hx. exists mo, q. split; [done|]. cbn [heap world set_object]. rewrite Z.eqb_refl. split; [|done].
    apply (mapped_contains a 1 st (mo, q)); [lia|]. split; [done|]. simpl. lia. }
  constructor; [done|done|..].
  - intros rho x Ev i Hi. pose proof (byte_index_range n i Hi). apply Hin; [lia|].
    replace (addr + byte_index n i - mo_address mo) with (addr - mo_address mo + byte_index n i) by lia. by apply Hb.
  - intros rho a x Ha Hx. destruct (containsb mo a) eqn:Hc; [|apply Hcell; [unfold contains; by rewrite Hc|done]].
    destruct Hx as (mo' & q' & Hq' & Hc' & Hx).
    assert ((mo', q') = (mo, q)) as [= -> ->] by (eapply contains_unique; [apply Hst|done..]).
    apply contains_extent in Hc'. unfold extent in Hc'. apply Hin; [lia|]. apply Ho; [lia|lia|done].
Qed.

Lemma tase_helper_write_ok st v addr n value :
  store_ok st -> mapped addr n st v -> wf value -> psn_width n (getWidth value) ->
  sixteen_ok (addr - mo_address (fst v)) value ->
  returns (tase_helper_write addr value st) (helper_wrote st addr n value).
Proof.
  intros Hst Hm Hv Hw H16. assert (Hn : 0 < n) by (unfold psn_width in Hw; lia).
  destruct (locate_ok st addr n v Hst Hn Hm) as (c & E & Hc & Ec). unfold tase_helper_write. rewrite E.
  cbn [mbind result_bind]. pose proof Hm as (Hin & Hlo & Hhi). destruct v as [mo q]. cbn [fst snd] in *.
  destruct (st_objects _ Hst _ _ Hin) as [Hok Ht Ho Hs _].
  destruct (write_and_poison_ok (heap st q) (world st) c value n) as (p & Ep & Hp); try done; try (by rewrite Ec); [rewrite Ec, Hs; lia|].
  unfold write_and_poison in Ep. destruct (write_expr _ _ _ _) as [[os1 w1]| |]; try done. cbn [mbind result_bind] in Ep |- *.
  rewrite Ep. destruct p as [os2 w2]. cbn [mbind result_bind]. apply returns_ok. rewrite Ec in Hp.
  by apply (object_stored st (mo, q) addr n value (os2, w2)).
Qed.

(** A 64-bit constant at an even offset needs no poison. *)
Lemma applyPsnOnWrite_const64 co c os w : tase_mapped os -> apok co -> raw co mod 2 = 0 -> raw co + 8 < 2 ^ 32 ->
  concreteStore os + raw co + 8 <= 2 ^ 64 -> bw c = Int64 ->
  applyPsnOnWrite (ConstantExpr co) (ConstantExpr c) os w = Ok (os, w).
Proof.
  intros Hmap Hco Hev Hfit Hend Hw. unfold applyPsnOnWrite. destruct (const_offset co Hco ltac:(lia)) as (d & -> & Hd & Wd & Rd).
  cbn [mbind result_bind]. unfold CE_getZExtValue. rewrite massert_true by (by rewrite Wd). cbn [mbind result_bind].
  rewrite ap_getZExtValue_spec, Rd by (done || (by rewrite Wd)). cbn [getWidth]. rewrite Hw. change (psn_bytes Int64) with (@Ok Z 8).
  cbn [mbind result_bind isConst]. destruct Hco as [_ [H0 _]]. rewrite <- (ta_store _ Hmap). pose proof (ta_space _ Hmap) as [Hs0 _].
  unfold psn_low_end, psn_high_end, u64. rewrite u32_small by lia. rewrite !wrap_small by (unfold inw; lia).
  assert (Hp : (concreteStore os + raw co) mod 2 = 0) by (rewrite Z.add_mod, Hev, (ta_even _ Hmap); done).
  rewrite Hp. cbn [Z.eqb mbind result_bind]. replace (concreteStore os + (raw co + 8 - 1)) with (concreteStore os + raw co + 1 + 3 * 2) by lia.
  rewrite Z_mod_plus_full, Z.add_mod, Hp by lia. done.
Qed.

(** Such a constant is in memory where it was written, and the rest of the memory is
    as it was. *)
Lemma helper_write_const st v addr c :
  store_ok st -> mapped addr 8 st v -> addr mod 2 = 0 -> apok c -> bw c = Int64 ->
  returns (tase_helper_write addr (ConstantExpr c) st) (fun st' => helper_wrote st addr 8 (ConstantExpr c) st' /\
    (forall i, 0 <= i < 8 -> mem (world st') (addr + byte_index 8 i) = byte_of (raw c) i) /\
    forall a, a < addr \/ addr + 8 <= a -> mem (world st') a = mem (world st) a).
Proof.
  intros Hst Hm Hev Hc Hw.
  destruct (tase_helper_write_ok st v addr 8 (ConstantExpr c)) as (st' & E & Hwr); try done; [by do 3 right|].
  exists st'. split; [done|]. split; [done|]. revert E. unfold tase_helper_write.
  destruct (locate_ok st addr 8 v Hst ltac:(lia) Hm) as (co & -> & Hco & Eco). cbn [mbind result_bind].
  pose proof Hm as (Hin & Hlo & Hhi). destruct v as [mo q]. cbn [fst snd] in *.
  destruct (st_objects _ Hst _ _ Hin) as [Hok Ht Ho Hs _]. pose proof (size_bound _ _ Hok) as Hb.
  assert (Est : concreteStore (heap st q) = mo_address mo) by (rewrite (ta_store _ (ta_mapped _ _ Ht)); by rewrite Ho).
  pose proof (ta_space _ (ta_mapped _ _ Ht)) as [_ Hend].
  unfold write_expr. destruct (const_offset co Hco ltac:(lia)) as (d & -> & Hd & Wd & Rd). cbn [mbind result_bind]. unfold CE_getZExtValue.
  rewrite massert_true by (by rewrite Wd). cbn [mbind result_bind]. rewrite ap_getZExtValue_spec, Rd by (done || (by rewrite Wd)).
  destruct (write_ok (heap st q) (world st) (raw co) (ConstantExpr c)) as ([os1 w1] & -> & Hw1); [done|done|right; cbn; rewrite Hw; done|lia|cbn [getWidth]; rewrite Hw; change (store_bytes Int64) with 8; lia|].
  cbn [fst snd mbind result_bind getWidth] in *. rewrite Hw in Hw1. change (store_bytes Int64) with 8 in Hw1.
  pose proof (wr_frame _ _ _ _ _ _ _ Hw1) as Hf1. pose proof Hf1 as (_ & Es1 & _).
  rewrite (applyPsnOnWrite_const64 co c os1 w1); [|by eapply tase_mapped_frame; [exact Hf1|apply Ht]|done| |lia|rewrite Es1; lia|done].
  2:{ rewrite Eco, <- Est, Zminus_mod, Hev, (ta_even _ (ta_mapped _ _ Ht)). done. }
  cbn [mbind result_bind]. intros [= <-]. cbn [set_object world]. split.
  - intros i Hi. pose proof (byte_index_range 8 i Hi) as Hr.
    pose proof (wr_bytes _ _ _ _ _ _ _ Hw1 (fun _ _ => 0) (raw c) eq_refl i Hi) as Hx. unfold contents in Hx.
    destruct (wr_const _ _ _ _ _ _ _ Hw1 eq_refl (raw co + byte_index 8 i)) as [Hcc _]; [lia|]. rewrite Hcc, Es1, Est in Hx.
    injection Hx as <-. f_equal. lia.
  - intros a Ha. apply (wr_mem _ _ _ _ _ _ _ Hw1). lia.
Qed.
End writing.

(** ** Reading *)
Section reading.
Context {AP : APIntOps} {SP : APIntSpec AP} {CFG : Config} {PR : Process}.

Lemma same_masks_trans os os1 os2 : same_masks os os1 -> same_masks os1 os2 -> same_masks os os2.
Proof. intros [? ?] [? ?]. split; congruence. Qed.

Lemma read_bytes_masks NumBytes offset n : forall i Res os w r os' w',
  read_bytes NumBytes offset n i Res os w = Ok (r, os', w') -> same_masks os os'.
Proof.
  induction n as [|n IH]; intros i Res os w r os' w'; cbn [read_bytes]; [by intros [= <- <- <-]|].
  destruct (read8 _ os w) as [[[b os1] w1]| |] eqn:E; try done. cbn [mbind result_bind].
  destruct (join_byte b Res) as [e| |]; try done. cbn [mbind result_bind]. intros H%IH.
  eapply same_masks_trans; [by eapply read8_masks|done].
Qed.

Lemma read_masks offset width os w r os' w' :
  width <> Bool -> read offset width os w = Ok (r, os', w') -> same_masks os os'.
Proof.
  intros N. unfold read. rewrite (proj2 (Z.eqb_neq _ _)) by done.
  destruct (width =? width / 8 * 8); [|done]. cbn [massert mbind result_bind].
  destruct (if _ || _ || _ then _ else _) as [[]| |]; try done; cbn [mbind result_bind].
  - destruct (ConstantExpr_create _ _) as [c| |]; try done. by intros [= <- <- <-].
  - apply read_bytes_masks.
Qed.

(** The contract depends on the masks and on the poison in memory. *)
Lemma tase_same_masks os os' m : frame os os' -> same_masks os os' -> tase_ok os m -> tase_ok os' m.
Proof.
  intros Hf Hm [Hmap Hp]. pose proof Hf as (_ & Es & Ez & _). constructor; [by eapply tase_mapped_frame|].
  intros k Hk. apply (halfword_keep os os' m); try done; [by apply masks_flags..|]. apply Hp. lia.
Qed.

(** The widths of [tase_helper_read], and where wider reads are made. *)
Definition read_width (byteWidth : Z) : Prop := byteWidth = 1 \/ byteWidth = 2 \/ byteWidth = 4 \/ byteWidth = 8.
Definition reads_ok (addr byteWidth : Z) : Prop :=
  byteWidth = 1 \/ ptrdiff16_ok /\ poisonSize = 2 /\ IsLittleEndian = true /\ addr mod 2 = 0.

(** A read changes no byte. *)
Record helper_read (st : Store) (addr n : Z) (r : option expr) (st' : Store) : Prop := {
  hr_ok : store_ok st';
  hr_space : space st' = space st;
  hr_mem : mem (world st') = mem (world st);
  hr_cells rho a x : cell rho st a x <-> cell rho st' a x;
  hr_concrete a : concrete_at st a <-> concrete_at st' a;
  hr_byte : n = 1 -> concrete_at st addr -> exists c, r = Some (ConstantExpr c);
  hr_value : exists e, r = Some e /\ wf e /\ getWidth e = 8 * n /\
    forall rho f, (forall i, 0 <= i < n -> cell rho st (addr + byte_index n i) (f i)) ->
      eval rho e = Some (wrap (8 * n) (le_num f (Z.to_nat n)));
}.

Lemma iff_under (P Q R S : Prop) : (P -> Q -> R <-> S) -> (P /\ Q /\ R) <-> (P /\ Q /\ S).
Proof. tauto. Qed.

Lemma cell_in st v rho a x : store_ok st -> v ∈ Tree.elements (objects (space st)) -> contains (fst v) a ->
  cell rho st a x <-> contents rho (heap st (snd v)) (mem (world st)) (a - mo_address (fst v)) = Some x.
Proof.
  intros Hst Hv Hc. split; [|intros H; destruct v; by eexists _, _].
  intros (mo & p & Hp & Hc' & Hx). by rewrite (contains_unique (space st) v (mo, p) a) by (done || apply Hst).
Qed.

Lemma object_unchanged st v os w : store_ok st -> v ∈ Tree.elements (objects (space st)) ->
  unchanged (heap st (snd v)) (world st) os w -> same_masks (heap st (snd v)) os ->
  let st' := set_object (snd v) os w st in
  store_ok st' /\ (forall rho a x, cell rho st a x <-> cell rho st' a x) /\ (forall a, concrete_at st a <-> concrete_at st' a).
Proof.
  intros Hst Hv (Hf & Hok & Hm & Hc) Hma st'. destruct v as [mo q]. cbn [fst snd] in *.
  destruct (st_objects _ Hst _ _ Hv) as [Hok0 Ht0 Ho0 Hs0 Hw0]. pose proof Hf as (Eo & Es & Ez & Er & _).
  destruct (set_object_ok st (mo, q) os w Hst Hv) as [Hst' _].
  { constructor; cbn [fst]; try congruence. rewrite Hm. by eapply tase_same_masks. }
  { intros a _. by rewrite Hm. }
  cbn [fst snd] in *. split; [done|]. split.
  2:{ intros a. unfold concrete_at, st'. cbn [heap space set_object]. apply exist_proper. intros mo'. apply exist_proper.
      intros p. destruct (Z.eqb_spec p q) as [->|N]; [|done]. destruct (masks_flags _ _ (a - mo_address mo') Hma) as [-> _]. done. }
  intros rho a x. unfold cell, st'. cbn [heap space world set_object].
  apply exist_proper. intros mo'. apply exist_proper. intros p. destruct (Z.eqb_spec p q) as [->|N]; [|by rewrite Hm].
  apply iff_under. intros Hp Hca. assert ((mo', q) = (mo, q)) as [= ->] by (by apply (st_distinct _ Hst)).
  pose proof (contains_extent _ _ Hca) as Hr. unfold extent in Hr. pose proof (size_bound _ _ Hok0). rewrite Hc by lia. done.
Qed.

Lemma read_expr_const c width os w : apok c -> raw c < 2 ^ 32 ->
  read_expr (ConstantExpr c) width os w = read (raw c) width os w.
Proof.
  intros Hc Hr. unfold read_expr. destruct (const_offset c Hc Hr) as (d & -> & Hd & Wd & Rd).
  cbn [mbind result_bind]. unfold CE_getZExtValue. rewrite massert_true by (by rewrite Wd).
  cbn [mbind result_bind]. by rewrite ap_getZExtValue_spec, Rd by (done || (by rewrite Wd)).
Qed.

Lemma read_concrete_byte offset os w r os' w' : 0 <= offset < 2 ^ 32 - 1 -> isByteConcrete os offset = Ok true ->
  read offset Int8 os w = Ok (r, os', w') -> exists c, r = Some (ConstantExpr c).
Proof.
  intros Ho Hc. unfold read, Int8, Bool. change (8 / 8) with 1. cbn [Z.mul Z.eqb Pos.eqb massert mbind result_bind orb].
  change (Z.to_nat 1) with 1%nat. cbn [read_bytes].
  replace (u32 (offset + byte_index 1 0)) with offset
    by (unfold byte_index; case_match; rewrite u32_small; lia).
  unfold read8. rewrite Hc. cbn [mbind result_bind].
  destruct (ConstantExpr_create _ _) as [c| |]; try done. cbn [mbind result_bind join_byte]. intros [= <- <- <-]. eauto.
Qed.

Lemma tase_helper_read_ok st v addr n :
  store_ok st -> mapped addr n st v -> read_width n -> reads_ok addr n ->
  returns (tase_helper_read addr n st) (fun p => helper_read st addr n (fst p) (snd p)).
Proof.
  intros Hst Hm Hw Hfast. assert (Hn : 0 < n) by (unfold read_width in Hw; lia). assert (Hn8 : n <= 8) by (unfold read_width in Hw; lia).
  destruct (locate_ok st addr n v Hst Hn Hm) as (c & E & Hc & Ec). unfold tase_helper_read. rewrite E.
  cbn [mbind result_bind]. pose proof Hm as (Hin & Hlo & Hhi). destruct v as [mo q]. cbn [fst snd] in *.
  destruct (st_objects _ Hst _ _ Hin) as [Hok Ht Ho Hs _]. pose proof (size_bound _ _ Hok) as Hb.
  rewrite !read_expr_const by (done || lia).
  replace (if n =? 1 then _ else _) with (read (raw c) (8 * n) (heap st q) (world st))
    by (destruct Hw as [->|[->|[->| ->]]]; done).
  assert (En : store_bytes (8 * n) = n) by (destruct Hw as [->|[->|[->| ->]]]; done).
  assert (Hbs : byte_sized (8 * n)) by (right; destruct Hw as [->|[->|[->| ->]]]; done).
  assert (Hev : addr mod 2 = 0 -> raw c mod 2 = 0).
  { intros He. rewrite Ec, <- Ho, <- (ta_store _ (ta_mapped _ _ Ht)).
    rewrite Zminus_mod, He, (ta_even _ (ta_mapped _ _ Ht)). done. }
  destruct (read_ok (heap st q) (world st) (raw c) (8 * n)) as ([[r os] w] & Er & Hu & e & -> & He & We & Re);
    [done|done|lia|lia|rewrite En; lia|intros H; destruct Hfast as [->|(? & ? & ? & ?)]; [lia|by split_and!; auto]|].
  rewrite Er. cbn [mbind result_bind applyPsnOnRead]. apply returns_ok. cbn [fst snd].
  destruct (object_unchanged st (mo, q) os w Hst Hin Hu) as (Hst' & Hcell & Hconc).
  { eapply read_masks; [|exact Er]. unfold Bool. lia. }
  cbn [fst snd] in *. constructor; [done|done|apply Hu|done|done|..].
  { intros -> (mo' & q' & Hq' & Hc' & Hx).
    assert ((mo', q') = (mo, q)) as [= -> ->] by (eapply contains_unique; [apply Hst|done|done|done|by eapply mapped_contains]).
    eapply (read_concrete_byte (raw c)); [lia| |exact Er]. by rewrite Ec. }
  exists e. split_and!; try done.
  intros rho f Hf. rewrite En in Re. apply Re. intros i Hi. pose proof (byte_index_range n i Hi) as Hr. rewrite Ec.
  replace (addr - mo_address mo + byte_index n i) with (addr + byte_index n i - mo_address mo) by lia.
  apply (cell_in st (mo, q)); try done; [|by apply Hf]. cbn [fst].
  apply (mapped_contains _ 1 st (mo, q)); [lia|]. split; [done|]. simpl. lia.
Qed.

(** A byte written is the byte read. *)
Lemma helper_roundtrip st v addr n value :
  store_ok st -> mapped addr n st v -> wf value -> psn_width n (getWidth value) -> getWidth value <> Bool ->
  sixteen_ok (addr - mo_address (fst v)) value -> reads_ok addr n ->
  returns (st' ← tase_helper_write addr value st; tase_helper_read addr n st') (fun p =>
    exists e, fst p = Some e /\ wf e /\ getWidth e = getWidth value /\
      forall rho x, eval rho value = Some x -> eval rho e = Some x).
Proof.
  intros Hst Hm Hv Hw Nb H16 Hr. eapply returns_bind; [by eapply tase_helper_write_ok|]. intros st' [Hok Hsp Hby _].
  assert (Hn : getWidth value = 8 * n /\ read_width n /\ 0 < n).
  { unfold psn_width, Bool, Int8, Int16, Int32, Int64, read_width in *. lia. }
  destruct Hn as (Ew & Hrw & Hn). eapply returns_weaken; [apply (tase_helper_read_ok st' v); try done; unfold mapped; by rewrite Hsp|].
  intros [r st2] [_ _ _ _ _ _ (e & -> & He & We & Re)]. exists e. split; [done|]. split; [done|]. split; [congruence|].
  intros rho x Ev. rewrite (Re rho (byte_of x)) by (by apply Hby).
  pose proof (eval_inw rho _ _ Hv Ev) as Hx. pose proof Hx as [Hx0 _]. f_equal.
  rewrite le_num_bytes by done. rewrite Z2Nat.id, <- Ew by lia.
  change (x mod 2 ^ getWidth value) with (wrap (getWidth value) x). rewrite !wrap_small; done || (by rewrite wrap_small).
Qed.
End reading.

(** ** Concrete buffers *)
Section buffers.
Context {AP : APIntOps} {SP : APIntSpec AP} {CFG : Config} {PR : Process}.

(** The byte has the same value under all assignments. *)
Definition constant_at (st : Store) (a : Z) : Prop := exists y, forall rho x, cell rho st a x -> wrap 8 x = y.

Record same_store (st st' : Store) : Prop := {
  ss_ok : store_ok st';
  ss_space : space st' = space st;
  ss_cells rho a x : cell rho st a x <-> cell rho st' a x;
  ss_concrete a : concrete_at st a <-> concrete_at st' a;
}.

Lemma same_store_refl st : store_ok st -> same_store st st.
Proof. by constructor. Qed.

Lemma same_store_trans st st1 st2 : same_store st st1 -> same_store st1 st2 -> same_store st st2.
Proof.
  intros [? E1 C1 D1] [? E2 C2 D2]. constructor; [done|congruence|..].
  - intros rho a x. by rewrite C1.
  - intros a. by rewrite D1.
Qed.

Lemma helper_read_same st addr n r st' : helper_read st addr n r st' -> same_store st st'.
Proof. intros [? ? ? ? ? _ _]. by constructor. Qed.

Lemma read_constant st addr c st' : helper_read st addr 1 (Some (ConstantExpr c)) st' -> constant_at st addr.
Proof.
  intros [_ _ _ _ _ _ (e & [= <-] & He & We & Re)]. exists (raw c). intros rho x Hx.
  specialize (Re rho (fun _ => x)). simpl in Re.
  assert (Some (raw c) = Some (wrap 8 x)) as [= ->]; [|done].
  rewrite Re; [do 2 f_equal; change (2 ^ (8 * 0)) with 1; lia|].
  intros i Hi. by replace (addr + byte_index 1 i) with addr by (unfold byte_index; case_match; lia).
Qed.

Lemma concrete_bytes_ok n : forall st v addr size i,
  store_ok st -> mapped addr size st v -> 0 <= i -> i + Z.of_nat n = size ->
  returns (concrete_bytes addr n i st) (fun p => same_store st (snd p) /\
    (fst p = true -> forall j, i <= j < size -> constant_at st (addr + j)) /\
    (fst p = false -> exists j, i <= j < size /\ ~ concrete_at st (addr + j))).
Proof.
  induction n as [|n IH]; intros st v addr size i Hst Hm Hi Hn; cbn [concrete_bytes].
  { apply returns_ok. split; [by apply same_store_refl|]. split; [intros _ j Hj; lia|done]. }
  pose proof Hm as (Hv & Hlo & Hhi). destruct (object_range st v Hst Hv) as (H0 & Hsz & Hend). unfold extent in Hend.
  unfold u64. rewrite wrap_small by (unfold inw; lia).
  eapply returns_bind; [apply (tase_helper_read_ok st v (addr + i) 1 Hst); [split; [done|lia]|by left|by left]|].
  intros [r st1] Hr. cbn [fst snd] in Hr. pose proof (helper_read_same _ _ _ _ _ Hr) as Hs.
  pose proof (hr_byte _ _ _ _ _ Hr eq_refl) as Hb. destruct (hr_value _ _ _ _ _ Hr) as (e & -> & _).
  destruct e as [c| | | | | | | | |]; cbn [isConst];
    try (apply returns_ok; split; [done|]; split; [done|]; intros _; exists i; split; [lia|]; intros Hc; destruct (Hb Hc) as [c' [=]]).
  eapply returns_weaken; [apply (IH st1 v addr size (i + 1)); [apply Hs| |lia|lia]|].
  { unfold mapped. by rewrite (ss_space _ _ Hs). }
  intros [b st2] (Hs2 & Ht & Hf). cbn [fst snd] in *. split; [by eapply same_store_trans|]. split.
  - intros Eb j Hj. destruct (Z.eq_dec j i) as [->|N]; [by eapply read_constant|].
    destruct (Ht Eb j ltac:(lia)) as [y Hy]. exists y. intros rho x Hx. apply Hy with rho. by apply (ss_cells _ _ Hs).
  - intros Eb. destruct (Hf Eb) as (j & Hj & Hc). exists j. split; [lia|]. by rewrite (ss_concrete _ _ Hs).
Qed.

(** Untainted bytes of an object are the bytes in memory. *)
Lemma untainted_constant st v addr k i :
  store_ok st -> mapped addr (2 * k) st v -> addr mod 2 = 0 -> 0 <= i < 2 * k ->
  (forall j, 0 <= j < k -> load16 (mem (world st)) (addr + 2 * j) <> poison_val) ->
  concrete_at st (addr + i) /\ forall rho x, cell rho st (addr + i) x -> x = mem (world st) (addr + i).
Proof.
  intros Hst Hm He Hi Hun. pose proof Hm as (Hv & Hlo & Hhi). destruct v as [mo q]. cbn [fst snd] in *.
  destruct (st_objects _ Hst _ _ Hv) as [Hok Ht Ho Hs _].
  assert (Est : concreteStore (heap st q) = mo_address mo) by (rewrite (ta_store _ (ta_mapped _ _ Ht)); by rewrite Ho).
  assert (Hc : isByteConcrete (heap st q) (addr - mo_address mo + i) = Ok true).
  { apply (untainted_concrete _ (mem (world st)) (addr - mo_address mo) k); [done|lia| |lia| |done].
    - rewrite <- Est, Zminus_mod, He, (ta_even _ (ta_mapped _ _ Ht)). done.
    - intros j Hj. rewrite Est. replace (mo_address mo + (addr - mo_address mo) + 2 * j) with (addr + 2 * j) by lia. by apply Hun. }
  replace (addr - mo_address mo + i) with (addr + i - mo_address mo) in Hc by lia.
  assert (Hcon : contains mo (addr + i)) by (apply (mapped_contains _ 1 st (mo, q)); [lia|split; [done|simpl; lia]]).
  split; [by exists mo, q|]. intros rho x Hx. apply (cell_in st (mo, q)) in Hx; try done. cbn [fst snd] in Hx.
  unfold contents in Hx. rewrite Hc, Est in Hx. injection Hx as <-. f_equal. lia.
Qed.
End buffers.

(** ** Theorems *)

(** C17. The helpers the interpreter and the models go through refine a flat memory of
    symbolic bytes.  [tase_helper_write] of a value of 1, 8, 16, 32 or 64 bits to bytes of
    one writable object finds the object, stores the bytes of the value at those addresses
    and changes no other byte, of this object or of another; every object keeps its
    invariants and its contract with native execution, and nothing fails.  Assumed of the
    store ([store_ok]): the objects are writable, have states of their own and meet their
    invariants and the contract.  Assumed of the value ([sixteen_ok]): a symbolic 16-bit value written at an even offset has no constant
    byte; such a byte is lost by the code ([Flaws.aligned_16bit_store_loses_byte]). *)
Theorem helper_write_refines {AP : APIntOps} {SP : APIntSpec AP} {CFG : Config} {PR : Process} st v addr n value :
  store_ok st -> mapped addr n st v -> wf value -> psn_width n (getWidth value) ->
  sixteen_ok (addr - mo_address (fst v)) value ->
  returns (tase_helper_write addr value st) (helper_wrote st addr n value).
Proof. apply tase_helper_write_ok. Qed.

(** C18. [tase_helper_read] of 1, 2, 4 or 8 bytes of one object returns an expression for the
    bytes at the address, of the width asked for, and changes no byte of any object; after
    [tase_helper_write] it has the value of the expression written.  Assumed of reads
    of more than one byte ([reads_ok]): the address is even, the poison size is 2, the
    target is little-endian and differences of even addresses are halved exactly (a read at an odd address misses poison and returns it as
    data: [Flaws.odd_read_misses_poison]); assumed of the write ([sixteen_ok]): a
    symbolic 16-bit value at an even offset has no constant byte
    ([Flaws.aligned_16bit_store_loses_byte]); assumed of the store: [store_ok]. *)
Theorem helper_read_refines {AP : APIntOps} {SP : APIntSpec AP} {CFG : Config} {PR : Process} st v addr n value :
  store_ok st -> mapped addr n st v -> read_width n -> reads_ok addr n ->
  wf value -> getWidth value = 8 * n -> sixteen_ok (addr - mo_address (fst v)) value ->
  returns (tase_helper_read addr n st) (fun p => helper_read st addr n (fst p) (snd p)) /\
  returns (st' ← tase_helper_write addr value st; tase_helper_read addr n st') (fun p =>
    exists e, fst p = Some e /\ wf e /\ getWidth e = 8 * n /\
      forall rho x, eval rho value = Some x -> eval rho e = Some x).
Proof.
  intros Hst Hm Hn Hr Hv Hw H16. split; [by apply (tase_helper_read_ok st v)|]. rewrite <- Hw.
  assert (Hp : psn_width n (getWidth value) /\ getWidth value <> Bool)
    by (unfold psn_width, read_width, Bool, Int8, Int16, Int32, Int64 in *; lia).
  destruct Hp. by apply (helper_roundtrip st v).
Qed.

(** [isBufferEntirelyConcrete] of a buffer in one object returns and changes no
    byte.  When it answers yes no byte of the buffer depends on a symbolic value;
    when every byte is in the concrete store it answers yes, poisoned halfwords or
    not. *)
Theorem buffer_test_correct {AP : APIntOps} {SP : APIntSpec AP} {CFG : Config} {PR : Process} st v addr k :
  store_ok st -> mapped addr (2 * k) st v -> 0 <= k -> addr mod 2 = 0 -> ptrdiff16_ok -> poisonSize = 2 ->
  returns (isBufferEntirelyConcrete addr (2 * k) st) (fun p => same_store st (snd p) /\
    (fst p = true -> forall i, 0 <= i < 2 * k -> constant_at st (addr + i)) /\
    ((forall i, 0 <= i < 2 * k -> concrete_at st (addr + i)) -> fst p = true)).
Proof.
  intros Hst Hm Hk He Hd Hp. unfold isBufferEntirelyConcrete.
  eapply returns_bind; [by apply tase_buf_has_taint_ok|]. intros [] Hun.
  - eapply returns_weaken; [apply (concrete_bytes_ok _ st v addr (2 * k) 0 Hst Hm); lia|].
    intros [b st'] (Hs & Ht & Hf). cbn [fst snd] in *. split; [done|]. split; [done|]. intros Hall.
    destruct b; [done|]. destruct (Hf eq_refl) as (j & Hj & []). by apply Hall.
  - apply returns_ok. cbn [fst snd]. split; [by apply same_store_refl|]. split; [|done]. intros _ i Hi.
    destruct (untainted_constant st v addr k i) as [_ Hc]; try done; [by apply Hun|]. eexists.
    intros rho x Hx. by rewrite (Hc rho x Hx).
Qed.

(** ** Witnesses *)
Module SampleStore2.
Definition heap2 (p : Z) : ObjectState := if p =? 1 then blank SampleSpace.low 4096 None else blank SampleSpace.high 4112 None.
Definition sample : Store := {| heap := heap2; space := SampleSpace.space; world := SampleObject.world |}.
Definition value : expr := ConcatExpr (cst Int32 7) (ConcatExpr (byte 1) (ConcatExpr (cst Int8 5) (ZExtExpr (byte 3) Int16))).

Lemma blank_ok {CFG : Config} mo : mo_size mo = 16 -> mo_address mo mod 2 = 0 -> 0 <= mo_address mo <= 8192 ->
  object_state_ok (mem SampleObject.world) mo (blank mo (mo_address mo) None).
Proof.
  intros Hs He Ha. constructor; try done.
  - apply all_concrete_ok; try done; [simpl; lia|]. intros i _. apply SampleObject.bytes.
  - constructor; [constructor; simpl; try done; rewrite ?Hs; lia || done|]. intros k Hk. right. by split.
Qed.

Lemma sample_store_ok {CFG : Config} : store_ok sample.
Proof.
  constructor; [apply SampleSpace.space_ok| |]; cbn [SampleSpace.space sample space]; rewrite SampleSpace.space_elements.
  - intros mo p. rewrite !elem_of_cons, elem_of_nil. intros [[= -> ->]|[[= -> ->]|[]]]; (apply blank_ok; [done|done|]); simpl; lia.
  - intros u v. rewrite !elem_of_cons, !elem_of_nil. intros [->|[->|[]]] [->|[->|[]]]; simpl; done.
Qed.

Lemma at_high addr n : 4112 <= addr -> addr + n <= 4128 -> mapped addr n sample (SampleSpace.high, 2).
Proof. intros. split; [|simpl; lia]. cbn [sample space]. rewrite SampleSpace.space_elements. right. left. Qed.

Lemma process_ptrdiff : @ptrdiff16_ok SampleObject.process.
Proof. intros k. unfold ptrdiff16, SampleObject.process. rewrite Z.mul_comm. by apply Z.div_mul. Qed.
End SampleStore2.

Lemma helper_write_refines_witness :
  returns (@tase_helper_write ZOps default_config SampleObject.process 4117 SampleStore2.value SampleStore2.sample)
    (@helper_wrote default_config SampleObject.process SampleStore2.sample 4117 8 SampleStore2.value).
Proof.
  apply (@helper_write_refines ZOps ZOps_spec default_config SampleObject.process SampleStore2.sample (SampleSpace.high, 2) 4117 8 SampleStore2.value).
  - apply SampleStore2.sample_store_ok.
  - apply SampleStore2.at_high; done.
  - concrete.
  - do 3 right. done.
  - intros _ E. discriminate E.
Defined.

Lemma helper_read_refines_witness :
  returns (st' ← @tase_helper_write ZOps default_config SampleObject.process 4116 SampleStore2.value SampleStore2.sample;
           @tase_helper_read ZOps default_config SampleObject.process 4116 8 st') (fun p =>
    exists e, fst p = Some e /\ wf e /\ getWidth e = 64 /\
      forall rho x, @eval default_config rho SampleStore2.value = Some x -> @eval default_config rho e = Some x).
Proof.
  apply (@helper_read_refines ZOps ZOps_spec default_config SampleObject.process SampleStore2.sample (SampleSpace.high, 2) 4116 8 SampleStore2.value).
  - apply SampleStore2.sample_store_ok.
  - apply SampleStore2.at_high; done.
  - do 3 right. done.
  - right. split; [apply SampleStore2.process_ptrdiff|done].
  - concrete.
  - reflexivity.
  - intros _ E. discriminate E.
Defined.

Lemma buffer_test_correct_witness :
  returns (@isBufferEntirelyConcrete ZOps default_config SampleObject.process 4112 16 SampleStore2.sample) (fun p => fst p = true).
Proof.
  destruct (@buffer_test_correct ZOps ZOps_spec default_config SampleObject.process SampleStore2.sample (SampleSpace.high, 2) 4112 8)
    as (p & E & _ & _ & Hp).
  - apply SampleStore2.sample_store_ok.
  - apply SampleStore2.at_high; done.
  - done.
  - done.
  - apply SampleStore2.process_ptrdiff.
  - done.
  - exists p. split; [exact E|]. apply Hp. intros i Hi. exists SampleSpace.high, 2. split.
    { cbn [SampleStore2.sample space]. rewrite SampleSpace.space_elements. right. left. }
    split; [|done]. unfold contains, containsb. simpl. apply andb_true_iff. split; [apply Z.leb_le|apply Z.ltb_lt]; lia.
Defined.

(** A symbolic byte turns the answer. *)
Example buffer_test_symbolic :
  (st ← @tase_helper_write ZOps default_config SampleObject.process 4120 (byte 3) SampleStore2.sample;
   p ← @isBufferEntirelyConcrete ZOps default_config SampleObject.process 4112 16 st; Ok (fst p)) = Ok false.
Proof. vm_compute. reflexivity. Qed.
