(* ===== verification/Interp.v ===== *)
(** * The trap handler

    The program under test runs natively in transactions.  When one aborts,
    [klee_interp] of [klee/lib/Core/Executor.cpp] classifies the abort, bounces back
    to native execution with a smaller transaction, or interprets
    ([klee_interp_internal]) until the registers are concrete at the head of a
    cartridge, and [transferToTarget] of [klee/tools/klee/main.cpp] enters the program
    again.  The registers are a buffer in memory, one of the objects of TaseMemory.v.

    What the machine, the compiler and the rest of KLEE do are parameters: native
    execution ([tase_inject]), the interpretation of a cartridge
    ([runCoreInterpreter]), the models of functions, the fork on the values of RIP
    and the enumeration of values. *)

From S2P Require Import Prelude APInt ExprData Samples ExprCreate ExprCreateSound ImmutableTree Memory MemorySound MemoryAccess MemoryPoison AddressSpace AddressSpaceSound TaseMemory.
Local Open Scope Z_scope.

(** ** Executor.h *)
Module ABORT_TYPE.
Definition MODEL : Z := 1.
Definition POISON : Z := 2.
Definition UNKNOWN : Z := 4.
Definition OTHER : Z := 8.
End ABORT_TYPE.

Record ABORT_COUNTS := { unknown : Z; model : Z; poison : Z; other : Z }.
Record ABORT_INFO := { counts : ABORT_COUNTS; type : Z; value : Z }.

Module INTERP_STATE.
Definition FAULT : Z := 1.
Definition MODEL : Z := 2.
Definition PROHIB : Z := 4.
Definition RESUME : Z := 8.
Definition SKIP : Z := 16.
Definition INTERP : Z := 32.
Definition PROHIB_RESUME : Z := 64.
Definition PROHIB_FAULT : Z := 128.
Definition BOUNCEBACK : Z := 256.
End INTERP_STATE.
Import INTERP_STATE.

Module EXECUTION_MODE.
Definition MIXED : Z := 1.
Definition SSTEP : Z := 2.
Definition BOUNCE : Z := 4.
End EXECUTION_MODE.
Import EXECUTION_MODE.

Module TRANSACTION_STATUS.
Definition CONCRETE : Z := 1.
Definition TXN_START : Z := 2.
End TRANSACTION_STATUS.
Import TRANSACTION_STATUS.

Record EXECUTION_STATE := { istate : Z; mode : Z; txn_status : Z }.

Definition EXECUTION_STATE_new (mixed sstep bounce : bool) : EXECUTION_STATE :=
  {| istate := if mixed then RESUME else INTERP;
     mode := Z.lor (Z.lor (if mixed then MIXED else 0) (if mixed && bounce && negb sstep then BOUNCE else 0))
                   (if sstep then SSTEP else 0);
     txn_status := 0 |}.

(** [(x & flag) != 0] *)
Definition has (x flag : Z) : bool := negb (Z.land x flag =? 0).

(** The comparisons: equality tests a bit, inequality compares. *)
Definition istate_is (e : EXECUTION_STATE) (o : Z) : bool := has (istate e) o.
Definition istate_is_not (e : EXECUTION_STATE) (o : Z) : bool := negb (istate e =? o).
Definition set_istate (o : Z) (e : EXECUTION_STATE) : EXECUTION_STATE :=
  {| istate := o; mode := mode e; txn_status := txn_status e |}.

Definition is_concrete (e : EXECUTION_STATE) : bool := has (txn_status e) CONCRETE.
Definition is_txn_start (e : EXECUTION_STATE) : bool := has (txn_status e) TXN_START.
Definition is_singleStepping (e : EXECUTION_STATE) : bool := has (mode e) SSTEP.
Definition is_mixedMode (e : EXECUTION_STATE) : bool := has (mode e) MIXED.
Definition is_bouncing (e : EXECUTION_STATE) : bool := has (mode e) BOUNCE.
Definition istate_none_of (e : EXECUTION_STATE) (mask : Z) : bool := Z.land (istate e) mask =? 0.

(** ** The target *)
Inductive greg := RAX | RBX | RCX | RDX | RSI | RDI | R8 | R9 | R10 | R11 | R12 | R13 | R14 | RBP | RSP | RIP | EFL.
#[export] Instance greg_eq_dec : EqDecision greg.
Proof. solve_decision. Defined.

(** What the headers of TASE, the compiler's tables and the command line supply. *)
Class Target := {
  target_ctx_gregs : Z;                          (* where the registers are *)
  GREG : greg -> Z;                              (* the index of a register *)
  TASE_NGREG : Z;
  TASE_GREG_SIZE : Z;
  TSX_XABORT : Z;
  TSX_XABORT_MASK : Z;
  cartridge_entry_points : Z -> bool;
  kill_flags : Z -> bool;
  cartridge_regstatus : Z -> option (Z * Z);
  saved_rax : Z;                                 (* the address of the variable *)
  tranMaxArg : Z;
  taseDebug : bool;
  TASEIVC : bool;
}.

Definition bounceback_offset : Z := 0.
(** [regmap], in the order of the compiler's masks *)
Definition regmap : list greg := [RAX; RBX; RCX; RDX; RSI; RDI; R8; R9; R10; R11; R12; R13].

(** A native store of 64 bits. *)
Fixpoint store_le (m : memory) (a v : Z) (n : nat) : memory :=
  match n with O => m | S k => store_le (store8 m a (v mod 256)) (a + 1) (v / 256) k end.
Definition set_mem (m : memory) (st : Store) : Store :=
  {| heap := heap st; space := space st; world := with_mem m (world st) |}.

Section registers.
Context {AP : APIntOps} {CFG : Config} {PR : Process} {TG : Target}.

(** [&target_ctx_gregs[r].u64] and its value. *)
Definition greg_addr (r : greg) : Z := target_ctx_gregs + TASE_GREG_SIZE * GREG r.
Definition greg_u64 (r : greg) (st : Store) : Z := load (mem (world st)) (greg_addr r) 8.
Definition set_greg (r : greg) (v : Z) (st : Store) : Store :=
  set_mem (store_le (mem (world st)) (greg_addr r) (u64 v) 8) st.

Definition gregs_tainted (st : Store) : result bool :=
  tase_buf_has_taint (mem (world st)) target_ctx_gregs (TASE_NGREG * TASE_GREG_SIZE).
Definition greg_tainted (r : greg) (st : Store) : result bool :=
  tase_buf_has_taint (mem (world st)) (greg_addr r) 8.

Definition write_greg (r : greg) (v : Z) (st : Store) : result Store :=
  c ← ConstantExpr_create v Int64; tase_helper_write (greg_addr r) (ConstantExpr c) st.

(** ** Dead registers *)
Fixpoint kill_regs (live : Z) (i : Z) (rs : list greg) (st : Store) : result Store :=
  match rs with
  | [] => Ok st
  | r :: rs =>
      t ← greg_tainted r st;
      st ← (if (t : bool) && negb (has live (Z.shiftl 1 i)) then write_greg r 0 st else Ok st);
      kill_regs live (i + 1) rs st
  end.
Definition killDeadRegs (prev_rip : Z) (st : Store) : result Store :=
  match cartridge_regstatus prev_rip with
  | None => Ok st
  | Some it => kill_regs (snd it) 0 regmap st
  end.

(** The body of [calleeWipePastStack] is commented out. *)
Fixpoint write_gregs (rs : list greg) (st : Store) : result Store :=
  match rs with [] => Ok st | r :: rs => st ← write_greg r 0 st; write_gregs rs st end.
Definition calleeKillDeadRegs (st : Store) : result Store :=
  write_gregs [R8; R9; R10; R11; RCX; RDX; RDI; RSI] st.

Definition tryKillFlags (e : EXECUTION_STATE) (rip : Z) (st : Store) : result Store :=
  if is_txn_start e && kill_flags rip then write_greg EFL 2 st else Ok st.
End registers.

(** ** The state of the handler

    [R] is the rest of the process: solver, path condition, logs. *)
Class Environment (R : Type) := {
  (** Native execution with transactions of [tran_max] cartridges, until one aborts. *)
  tase_inject : Z -> R -> Store -> result (Z * R * Store);   (* [target_ctx.abort_status] *)
  runCoreInterpreter : R -> Store -> result (R * Store);
  (** A model may assign [ex_state], which sets [istate] only. *)
  fnModelMap : Z -> option (EXECUTION_STATE -> R -> Store -> result (Z * R * Store));
  forkOnPossibleRIPValues : expr -> Z -> R -> Store -> result (R * Store);
  getNPossibleValues : R -> expr -> Z -> bool -> result (list expr * R);
}.

Record Trap (R : Type) := {
  ex_state : EXECUTION_STATE;
  abort_info : ABORT_INFO;
  abort_status : Z;
  tran_max : Z;
  init_trap_RIP : Z;
  cartridge_rip : Z;
  run_interp_traps : Z;
  run_interp_insts : Z;
  interpCtr : Z;
  rest : R;
  store : Store;
}.
Arguments ex_state {R} t.
Arguments abort_info {R} t.
Arguments abort_status {R} t.
Arguments tran_max {R} t.
Arguments init_trap_RIP {R} t.
Arguments cartridge_rip {R} t.
Arguments run_interp_traps {R} t.
Arguments run_interp_insts {R} t.
Arguments interpCtr {R} t.
Arguments rest {R} t.
Arguments store {R} t.

Section updates.
Context {R : Type}.
Definition with_ex (e : EXECUTION_STATE) (s : Trap R) : Trap R :=
  {| ex_state := e; abort_info := abort_info s; abort_status := abort_status s; tran_max := tran_max s;
     init_trap_RIP := init_trap_RIP s; cartridge_rip := cartridge_rip s; run_interp_traps := run_interp_traps s;
     run_interp_insts := run_interp_insts s; interpCtr := interpCtr s; rest := rest s; store := store s |}.
Definition with_tran_max (n : Z) (s : Trap R) : Trap R :=
  {| ex_state := ex_state s; abort_info := abort_info s; abort_status := abort_status s; tran_max := n;
     init_trap_RIP := init_trap_RIP s; cartridge_rip := cartridge_rip s; run_interp_traps := run_interp_traps s;
     run_interp_insts := run_interp_insts s; interpCtr := interpCtr s; rest := rest s; store := store s |}.
Definition with_abort (a : ABORT_INFO) (s : Trap R) : Trap R :=
  {| ex_state := ex_state s; abort_info := a; abort_status := abort_status s; tran_max := tran_max s;
     init_trap_RIP := init_trap_RIP s; cartridge_rip := cartridge_rip s; run_interp_traps := run_interp_traps s;
     run_interp_insts := run_interp_insts s; interpCtr := interpCtr s; rest := rest s; store := store s |}.
Definition with_trap_RIP (rip : Z) (s : Trap R) : Trap R :=
  {| ex_state := ex_state s; abort_info := abort_info s; abort_status := abort_status s; tran_max := tran_max s;
     init_trap_RIP := rip; cartridge_rip := cartridge_rip s; run_interp_traps := run_interp_traps s;
     run_interp_insts := run_interp_insts s; interpCtr := interpCtr s; rest := rest s; store := store s |}.
Definition with_cartridge (rip : Z) (s : Trap R) : Trap R :=
  {| ex_state := ex_state s; abort_info := abort_info s; abort_status := abort_status s; tran_max := tran_max s;
     init_trap_RIP := init_trap_RIP s; cartridge_rip := rip; run_interp_traps := run_interp_traps s;
     run_interp_insts := run_interp_insts s; interpCtr := interpCtr s; rest := rest s; store := store s |}.
Definition with_counters (traps insts ctr : Z) (s : Trap R) : Trap R :=
  {| ex_state := ex_state s; abort_info := abort_info s; abort_status := abort_status s; tran_max := tran_max s;
     init_trap_RIP := init_trap_RIP s; cartridge_rip := cartridge_rip s; run_interp_traps := traps;
     run_interp_insts := insts; interpCtr := ctr; rest := rest s; store := store s |}.
Definition with_process (r : R) (st : Store) (s : Trap R) : Trap R :=
  {| ex_state := ex_state s; abort_info := abort_info s; abort_status := abort_status s; tran_max := tran_max s;
     init_trap_RIP := init_trap_RIP s; cartridge_rip := cartridge_rip s; run_interp_traps := run_interp_traps s;
     run_interp_insts := run_interp_insts s; interpCtr := interpCtr s; rest := r; store := st |}.
Definition with_status (status : Z) (s : Trap R) : Trap R :=
  {| ex_state := ex_state s; abort_info := abort_info s; abort_status := status; tran_max := tran_max s;
     init_trap_RIP := init_trap_RIP s; cartridge_rip := cartridge_rip s; run_interp_traps := run_interp_traps s;
     run_interp_insts := run_interp_insts s; interpCtr := interpCtr s; rest := rest s; store := store s |}.
Definition assign (o : Z) (s : Trap R) : Trap R := with_ex (set_istate o (ex_state s)) s.
Definition with_store (st : Store) (s : Trap R) : Trap R := with_process (rest s) st s.
End updates.

Section handler.
Context {AP : APIntOps} {CFG : Config} {PR : Process} {TG : Target} {R : Type} {EN : Environment R}.

(** The first half of both [update]s: whether the registers are concrete and a
    transaction can start. *)
Definition refresh (e : EXECUTION_STATE) (st : Store) : result (bool * bool * EXECUTION_STATE) :=
  conc ← (if has (mode e) MIXED then t ← gregs_tainted st; Ok (negb t) else Ok false);
  let start := has (mode e) SSTEP || cartridge_entry_points (greg_u64 RIP st) in
  Ok (conc, start, {| istate := istate e; mode := mode e;
                      txn_status := Z.lor (if conc : bool then CONCRETE else 0) (if start then TXN_START else 0) |}).

(** [update(ABORT_TYPE)] *)
Definition update_abort (ty : Z) (s : Trap R) : result (Trap R) :=
  '(conc, start, e) ← refresh (ex_state s) (store s);
  let s := with_ex e s in
  if ty =? ABORT_TYPE.MODEL then Ok (assign MODEL s)
  else if (ty =? ABORT_TYPE.POISON) && has (mode e) SSTEP then Ok (assign INTERP s)
  else if (ty =? ABORT_TYPE.POISON) || (ty =? ABORT_TYPE.UNKNOWN) || (ty =? ABORT_TYPE.OTHER) then
    if has (mode e) BOUNCE then
      if 0 <? tran_max s then
        Ok (assign BOUNCEBACK (with_store (set_greg RIP (greg_u64 RIP (store s) - bounceback_offset) (store s)) s))
      else Ok (assign FAULT s)
    else Ok s
  else Ok s.

(** [update()] *)
Definition update (s : Trap R) : result (Trap R) :=
  '(conc, start, e) ← refresh (ex_state s) (store s);
  let s := with_ex e s in
  let s := if conc && start then assign RESUME s else s in
  Ok (if negb conc then assign INTERP s else s).

Definition reset_counts (a : ABORT_INFO) : ABORT_INFO :=
  {| counts := {| unknown := 0; model := 0; poison := 0; other := 0 |}; type := type a; value := value a |}.

(** The type of an abort, and the next bound on the length of a transaction. *)
Definition high_bits (status : Z) : Z := Z.shiftr (Z.land status TSX_XABORT_MASK) 24 mod 256.
Definition abort_type (status : Z) : Z :=
  if has status (Z.shiftl 1 TSX_XABORT) then
    if high_bits status =? 0xff then ABORT_TYPE.MODEL
    else if high_bits status <? 16 then ABORT_TYPE.POISON else ABORT_TYPE.UNKNOWN
  else if high_bits status =? 0 then ABORT_TYPE.UNKNOWN else ABORT_TYPE.OTHER.
Definition next_tran_max (status ty tran_max : Z) : Z :=
  let retry := (status =? 0) || has status 0xe in
  if Z.land ty (Z.lor ABORT_TYPE.UNKNOWN ABORT_TYPE.OTHER) =? 0 then
    if Z.land ty ABORT_TYPE.POISON =? 0 then tran_max else high_bits status
  else if retry then tran_max / 2 else 0.
Definition count (ty : Z) (c : ABORT_COUNTS) : ABORT_COUNTS :=
  if ty =? ABORT_TYPE.MODEL then {| unknown := unknown c; model := i32 (model c + 1); poison := poison c; other := other c |}
  else if ty =? ABORT_TYPE.POISON then {| unknown := unknown c; model := model c; poison := i32 (poison c + 1); other := other c |}
  else if ty =? ABORT_TYPE.UNKNOWN then {| unknown := i32 (unknown c + 1); model := model c; poison := poison c; other := other c |}
  else if ty =? ABORT_TYPE.OTHER then {| unknown := unknown c; model := model c; poison := poison c; other := i32 (other c + 1) |}
  else c.
Definition classify_and_count (s : Trap R) : Trap R :=
  let status := abort_status s in
  let ty := abort_type status in
  let s := with_tran_max (next_tran_max status ty (tran_max s)) s in
  let s := with_abort {| counts := count ty (counts (abort_info s)); type := ty; value := Z.land status 0x1f |} s in
  if ty =? ABORT_TYPE.MODEL then assign MODEL s else s.

(** ** Interpretation *)

(** [scan<I>] *)
Definition scan (I target pattern mask : Z) : Z :=
  if I =? 8 then -1 else if Z.land (Z.shiftr target (8 * I)) mask =? pattern then I else -1.

(** The displacement the handler takes out of [leaq disp(%rip), %r15]; the mask is a
    32-bit number. *)
Fixpoint leaq_offset (cc : Z) (n : nat) (i offset : Z) : Z :=
  match n with
  | O => offset
  | S k => leaq_offset cc k (i + 1)
             (u32 (Z.lor offset (Z.shiftr (Z.land cc (u32 (Z.shiftl 0xff000000 (8 * i)))) 24)))
  end.

(** Concretize a register that has one value. *)
Definition write_unique (r : greg) (vals : list expr) (st : Store) : result Store :=
  match vals with [v] => tase_helper_write (greg_addr r) v st | _ => Ok st end.
Definition as_expr (e : option expr) : result expr := or_fail e.

Fixpoint conc_regs (rs : list greg) (p : R * Store) : result (R * Store) :=
  match rs with
  | [] => Ok p
  | r :: rs =>
      '(e, st) ← tase_helper_read (greg_addr r) 8 (snd p);
      e ← as_expr e;
      p ← (if isConst e then Ok (fst p, st)
           else '(vals, rr) ← getNPossibleValues (fst p) e 3 false; st ← write_unique r vals st; Ok (rr, st));
      conc_regs rs p
  end.
Definition impliedValueConcRegs : R * Store -> result (R * Store) := conc_regs [RBX; RAX; RDX; RBP].

(** The statements for the instruction at 0x5b4096. *)
Definition special_debug (p : R * Store) : result (R * Store) :=
  '(R12Expr, st) ← tase_helper_read (greg_addr R12) 8 (snd p);
  '(RBXExpr, st) ← tase_helper_read (greg_addr RBX) 8 st;
  R12Expr ← as_expr R12Expr; RBXExpr ← as_expr RBXExpr;
  '(R12Vals, rr) ← getNPossibleValues (fst p) R12Expr 10 false;
  '(RBXVals, rr) ← getNPossibleValues rr RBXExpr 10 false;
  st ← write_unique R12 R12Vals st; st ← write_unique RBX RBXVals st;
  Ok (rr, st).

(** The case of [SKIP], [FAULT], [PROHIB_FAULT], [PROHIB] and [INTERP]. *)
Definition interpret (cc : Z) (s : Trap R) : result (Trap R) :=
  let rip := greg_u64 RIP (store s) in
  if 0 <=? scan 0 cc 0x3d8d4c 0xffffff then
    let offset := leaq_offset cc 4 0 0 in
    let st := set_greg RIP (rip + u32 (7 + offset)) (store s) in
    let rax := if Z.land cc 0xff00000000000000 =? 0x9c00000000000000 then 1 else 0 in
    let st := set_mem (store_le (mem (world st)) saved_rax rax 8) st in
    Ok (assign SKIP (with_cartridge rip (with_store st s)))
  else if 0 <=? scan 0 cc 0xf6314d 0xffffff then
    st ← write_greg EFL 2 (store s);
    Ok (assign SKIP (with_store (set_greg RIP (greg_u64 RIP st + 3) st) s))
  else
    p ← (if rip =? 0x5b4096 then special_debug (rest s, store s) else Ok (rest s, store s));
    p ← runCoreInterpreter (fst p) (snd p);
    st ← tryKillFlags (ex_state s) (cartridge_rip s) (snd p);
    st ← killDeadRegs (cartridge_rip s) st;
    p ← (if TASEIVC then impliedValueConcRegs (fst p, st) else Ok (fst p, st));
    Ok (assign INTERP (with_process (fst p) (snd p) s)).

(** The model a round may run: the cartridge's, or the one at RIP. *)
Definition find_model (s : Trap R) : option (EXECUTION_STATE -> R -> Store -> result (Z * R * Store)) :=
  match fnModelMap (cartridge_rip s) with Some f => Some f | None => fnModelMap (greg_u64 RIP (store s)) end.

(** RIP is made concrete.  The last check reads the object of the registers. *)
Definition settle_RIP (rip_init : Z) (s : Trap R) : result (Trap R) :=
  t ← (if is_concrete (ex_state s) then Ok true else greg_tainted RIP (store s));
  if t : bool then
    '(RIPExpr, st) ← tase_helper_read (greg_addr RIP) 8 (store s);
    RIPExpr ← as_expr RIPExpr;
    if isConst RIPExpr then Ok (with_store st s)
    else
      '(r, st) ← forkOnPossibleRIPValues RIPExpr rip_init (rest s) st;
      '(Final, st) ← (if taseDebug then tase_helper_read (greg_addr RIP) 8 st else Ok (None, st));
      _ ← massert (match Final with Some e => isConst e | None => true end);
      Ok (with_process r st s)
  else Ok s.

Inductive flow := Continue | Return.

(** The [switch]; a value that is no enumerator matches no case. *)
Definition dispatch (cc : Z) (s : Trap R) : result (flow * Trap R) :=
  let i := istate (ex_state s) in
  if i =? PROHIB_RESUME then
    Ok (Return, if is_concrete (ex_state s) && (tran_max s =? 0) && (greg_u64 RIP (store s) =? init_trap_RIP s)
                then assign PROHIB_FAULT s else s)
  else if i =? RESUME then Ok (Return, s)
  else if i =? MODEL then
    match find_model s with
    | None => AssertFail     (* worker_error, exit(1) *)
    | Some fp =>
        '(o, r, st) ← fp (ex_state s) (rest s) (store s);
        let s := with_cartridge 0 (assign o (with_process r st s)) in
        Ok (Continue, assign (if is_mixedMode (ex_state s) then RESUME else INTERP) s)
    end
  else if i =? BOUNCEBACK then AssertFail
  else if (i =? SKIP) || (i =? FAULT) || (i =? PROHIB_FAULT) || (i =? PROHIB) || (i =? INTERP) then
    s ← interpret cc s; Ok (Continue, s)
  else Ok (Continue, s).

(** One round of the loop. *)
Definition internal_step (s : Trap R) : result (flow * Trap R) :=
  let s := with_counters (run_interp_traps s) (i32 (run_interp_insts s + 1)) (u64 (interpCtr s + 1)) s in
  let rip := greg_u64 RIP (store s) in
  let s := if istate_is_not (ex_state s) MODEL && istate_is_not (ex_state s) PROHIB &&
              match find_model s with Some _ => true | None => false end
           then assign MODEL s else s in
  let cc := load (mem (world (store s))) rip 8 in
  '(fl, s) ← dispatch cc s;
  match fl with
  | Return => Ok (Return, s)
  | Continue => s ← settle_RIP rip s; s ← update s; Ok (Continue, s)
  end.

Fixpoint internal_loop (fuel : nat) (s : Trap R) : result (Trap R) :=
  match fuel with
  | O => OutOfFuel
  | S k => '(fl, s) ← internal_step s; match fl with Return => Ok s | Continue => internal_loop k s end
  end.
Definition klee_interp_internal (fuel : nat) (s : Trap R) : result (Trap R) :=
  internal_loop fuel (with_counters (i32 (run_interp_traps s + 1)) (run_interp_insts s) (interpCtr s) s).

Definition klee_interp (fuel : nat) (s : Trap R) : result (Trap R) :=
  let s := with_trap_RIP (greg_u64 RIP (store s)) s in
  let s := classify_and_count s in
  s ← update_abort (type (abort_info s)) s;
  if istate_is (ex_state s) BOUNCEBACK then Ok s
  else
    s ← klee_interp_internal fuel (with_store (set_greg R14 0 (store s)) s);
    Ok (with_tran_max tranMaxArg s).

(** [transferToTarget]: the first [n] rounds of its loop. *)
Definition native (s : Trap R) : result (Trap R) :=
  '(status, r, st) ← tase_inject (tran_max s) (rest s) (store s); Ok (with_status status (with_process r st s)).
Fixpoint transfer_rounds (fuel n : nat) (s : Trap R) : result (Trap R) :=
  match n with O => Ok s | S k => s ← klee_interp fuel s; s ← native s; transfer_rounds fuel k s end.
Definition transferToTarget (interp_only : bool) (fuel n : nat) (s : Trap R) : result (Trap R) :=
  if interp_only then klee_interp fuel s else s ← native s; transfer_rounds fuel n s.
End handler.

(** ** Flags *)
Lemma has_lor x y f : has (Z.lor x y) f = has x f || has y f.
Proof.
  unfold has. rewrite Z.land_lor_distr_l. destruct (Z.eqb_spec (Z.lor (Z.land x f) (Z.land y f)) 0) as [E|N].
  - apply Z.lor_eq_0_iff in E as [-> ->]. done.
  - destruct (Z.eqb_spec (Z.land x f) 0) as [E1|], (Z.eqb_spec (Z.land y f) 0) as [E2|]; try done. by rewrite E1, E2 in N.
Qed.

(** The enumerators of [INTERP_STATE]. *)
Definition istates : list Z := [FAULT; MODEL; PROHIB; RESUME; SKIP; INTERP; PROHIB_RESUME; PROHIB_FAULT; BOUNCEBACK].

Section modes.
Context {AP : APIntOps} {CFG : Config} {PR : Process} {TG : Target} {R : Type} {EN : Environment R}.

(** [txn_status] describes the registers. *)
Record refreshed (e : EXECUTION_STATE) (st : Store) : Prop := {
  rf_concrete : if is_mixedMode e then (exists t, gregs_tainted st = Ok t /\ is_concrete e = negb t) else is_concrete e = false;
  rf_start : is_txn_start e = is_singleStepping e || cartridge_entry_points (greg_u64 RIP st);
  rf_range : 0 <= txn_status e < 4;
}.

Lemma refresh_inv e st conc start e' : refresh e st = Ok (conc, start, e') ->
  refreshed e' st /\ is_concrete e' = conc /\ is_txn_start e' = start /\ mode e' = mode e /\ istate e' = istate e.
Proof.
  unfold refresh. intros H.
  destruct (if has (mode e) MIXED then _ else _) as [c| |] eqn:Ec; try done. cbn [mbind result_bind] in H. injection H as -> <- <-.
  unfold is_concrete, is_txn_start, is_mixedMode, is_singleStepping. cbn [mode txn_status istate].
  assert (forall b : bool, has (Z.lor (if conc then CONCRETE else 0) (if b then TXN_START else 0)) CONCRETE = conc /\
    has (Z.lor (if conc then CONCRETE else 0) (if b then TXN_START else 0)) TXN_START = b) as Hh by (by intros []; destruct conc).
  split; [|split_and!; try apply Hh; done]. constructor; unfold is_concrete, is_txn_start, is_mixedMode, is_singleStepping; cbn [mode txn_status];
    rewrite ?(proj1 (Hh _)), ?(proj2 (Hh _)); [|done|by destruct conc, (_ || _)].
  destruct (has (mode e) MIXED); [|by injection Ec]. destruct (gregs_tainted st) as [t| |]; try done. exists t. by injection Ec.
Qed.

Lemma refreshed_istate e st o : refreshed e st -> refreshed (set_istate o e) st.
Proof. intros [? ? ?]. by constructor. Qed.

(** ** A round of the loop *)
Definition settled (s : Trap R) : Prop :=
  refreshed (ex_state s) (store s) /\
  (is_concrete (ex_state s) = false -> istate (ex_state s) = INTERP) /\
  (is_concrete (ex_state s) && is_txn_start (ex_state s) = true -> istate (ex_state s) = RESUME).

Lemma update_settled s s' : update s = Ok s' ->
  settled s' /\ mode (ex_state s') = mode (ex_state s) /\ store s' = store s /\
  (istate (ex_state s') = RESUME \/ istate (ex_state s') = INTERP \/ istate (ex_state s') = istate (ex_state s)).
Proof.
  unfold update. destruct (refresh _ _) as [[[conc start] e]| |] eqn:E; try done. cbn [mbind result_bind].
  destruct (refresh_inv _ _ _ _ _ E) as (Hr & Hc & Hs & Hm & Hi). intros [= <-].
  assert (Hset : forall o, (conc = false -> o = INTERP) -> (conc && start = true -> o = RESUME) ->
    (o = RESUME \/ o = INTERP \/ o = istate (ex_state s)) ->
    settled (with_ex (set_istate o e) s) /\ mode (ex_state (with_ex (set_istate o e) s)) = mode (ex_state s) /\
    store (with_ex (set_istate o e) s) = store s /\
    (istate (ex_state (with_ex (set_istate o e) s)) = RESUME \/ istate (ex_state (with_ex (set_istate o e) s)) = INTERP \/
     istate (ex_state (with_ex (set_istate o e) s)) = istate (ex_state s))).
  { intros o H1 H2 H3. cbn [with_ex ex_state store]. split; [|by split_and!]. unfold settled. cbn [with_ex ex_state store].
    split; [by apply refreshed_istate|]. unfold is_concrete, is_txn_start in *. cbn [set_istate txn_status istate]. rewrite Hc, Hs. by split. }
  destruct conc, start; cbn [andb negb].
  - apply (Hset RESUME); [done|done|auto].
  - specialize (Hset (istate e)). unfold set_istate in Hset. destruct e as [i m t]. apply Hset; [done|done|]. right. right. exact Hi.
  - apply (Hset INTERP); [done|done|auto].
  - apply (Hset INTERP); [done|done|auto].
Qed.

Lemma settle_RIP_ex rip s s' : settle_RIP rip s = Ok s' -> ex_state s' = ex_state s.
Proof.
  unfold settle_RIP. destruct (if is_concrete _ then _ else _) as [[]| |]; try done; cbn [mbind result_bind]; [|by intros [= <-]].
  destruct (tase_helper_read _ _ _) as [[e st]| |]; try done. cbn [mbind result_bind]. destruct (as_expr e) as [e'| |]; try done.
  cbn [mbind result_bind]. destruct (isConst e'); [by intros [= <-]|].
  destruct (forkOnPossibleRIPValues _ _ _ _) as [[r st']| |]; try done. cbn [mbind result_bind].
  destruct (if taseDebug then _ else _) as [[f st2]| |]; try done. cbn [mbind result_bind].
  destruct (match f with Some e => isConst e | None => true end); [|done]. by intros [= <-].
Qed.

Lemma interpret_ex cc s s' : interpret cc s = Ok s' ->
  mode (ex_state s') = mode (ex_state s) /\ (istate (ex_state s') = SKIP \/ istate (ex_state s') = INTERP).
Proof.
  unfold interpret. destruct (0 <=? scan 0 cc 0x3d8d4c 0xffffff); [intros [= <-]; split; [done|by left]|].
  destruct (0 <=? scan 0 cc 0xf6314d 0xffffff).
  - destruct (write_greg _ _ _) as [st| |]; try done. intros [= <-]. split; [done|by left].
  - destruct (if _ =? _ then _ else _) as [p| |]; try done. cbn [mbind result_bind].
    destruct (runCoreInterpreter _ _) as [q| |]; try done. cbn [mbind result_bind].
    destruct (tryKillFlags _ _ _) as [st| |]; try done. cbn [mbind result_bind].
    destruct (killDeadRegs _ _) as [st'| |]; try done. cbn [mbind result_bind].
    destruct (if TASEIVC then _ else _) as [q'| |]; try done. intros [= <-]. split; [done|by right].
Qed.

(** The state in which a round looks at [istate]. *)
Definition entered (s : Trap R) : Trap R :=
  let s := with_counters (run_interp_traps s) (i32 (run_interp_insts s + 1)) (u64 (interpCtr s + 1)) s in
  if istate_is_not (ex_state s) MODEL && istate_is_not (ex_state s) PROHIB &&
     match find_model s with Some _ => true | None => false end
  then assign MODEL s else s.

Lemma entered_same s : store (entered s) = store s /\ rest (entered s) = rest s /\ cartridge_rip (entered s) = cartridge_rip s /\
  mode (ex_state (entered s)) = mode (ex_state s) /\ tran_max (entered s) = tran_max s /\ init_trap_RIP (entered s) = init_trap_RIP s.
Proof. unfold entered. by case_match. Qed.

Lemma internal_step_eq s : internal_step s =
  '(fl, s') ← dispatch (load (mem (world (store s))) (greg_u64 RIP (store s)) 8) (entered s);
  match fl with
  | Return => Ok (Return, s')
  | Continue => s' ← settle_RIP (greg_u64 RIP (store s)) s'; s' ← update s'; Ok (Continue, s')
  end.
Proof.
  unfold internal_step, entered. destruct (_ && _ && _); reflexivity.
Qed.

(** What goes on leaves the mode alone and no state that would end the handler by accident. *)
Lemma dispatch_continue cc s s' : dispatch cc s = Ok (Continue, s') ->
  mode (ex_state s') = mode (ex_state s) /\
  (istate (ex_state s') = (if is_mixedMode (ex_state s) then RESUME else INTERP) \/
   istate (ex_state s') = SKIP \/ istate (ex_state s') = INTERP \/
   ~ istate (ex_state s) ∈ istates).
Proof.
  unfold dispatch. destruct (Z.eqb_spec (istate (ex_state s)) PROHIB_RESUME); [done|].
  destruct (Z.eqb_spec (istate (ex_state s)) RESUME); [done|].
  destruct (Z.eqb_spec (istate (ex_state s)) MODEL).
  { destruct (find_model s) as [fp|]; [|done]. destruct (fp _ _ _) as [[[o r] st]| |]; try done. intros [= <-]. split; [done|].
    left. unfold is_mixedMode. cbn [ex_state assign with_ex set_istate mode with_cartridge with_process]. done. }
  destruct (Z.eqb_spec (istate (ex_state s)) BOUNCEBACK); [done|].
  destruct (_ || _ || _ || _ || _) eqn:Ei.
  - destruct (interpret cc s) as [s1| |] eqn:E; try done. intros [= <-]. apply interpret_ex in E as [? [?|?]]; auto.
  - intros [= <-]. split; [done|]. right. right. right. rewrite !orb_false_iff, !Z.eqb_neq in Ei.
    unfold istates. rewrite !elem_of_cons, elem_of_nil. tauto.
Qed.

Lemma dispatch_return cc s s' : dispatch cc s = Ok (Return, s') ->
  store s' = store s /\ mode (ex_state s') = mode (ex_state s) /\
  (istate (ex_state s) = RESUME /\ s' = s \/
   istate (ex_state s) = PROHIB_RESUME /\ (s' = s \/ s' = assign PROHIB_FAULT s)).
Proof.
  unfold dispatch. destruct (Z.eqb_spec (istate (ex_state s)) PROHIB_RESUME) as [E|].
  { intros [= <-]. destruct (_ && _ && _); (split; [done|]); (split; [done|]); right; auto. }
  destruct (Z.eqb_spec (istate (ex_state s)) RESUME); [intros [= <-]; auto|].
  destruct (Z.eqb_spec (istate (ex_state s)) MODEL).
  { destruct (find_model s) as [fp|]; [|done]. by destruct (fp _ _ _) as [[[o r] st]| |]. }
  destruct (Z.eqb_spec (istate (ex_state s)) BOUNCEBACK); [done|].
  destruct (_ || _ || _ || _ || _); [|done]. by destruct (interpret cc s).
Qed.

(** ** After a round *)
Definition rounds_on (s : Trap R) : Prop :=
  istate (ex_state s) = RESUME \/ istate (ex_state s) = INTERP \/ istate (ex_state s) = SKIP.

Lemma entered_istate s : istate (ex_state s) ∈ istates -> istate (ex_state (entered s)) ∈ istates.
Proof. intros H. unfold entered. case_match; [|done]. right. left. Qed.

Lemma round_settles s s' : istate (ex_state s) ∈ istates -> internal_step s = Ok (Continue, s') ->
  settled s' /\ mode (ex_state s') = mode (ex_state s) /\ rounds_on s'.
Proof.
  intros Hin. rewrite internal_step_eq. destruct (dispatch _ _) as [[[] s1]| |] eqn:E; try done. cbn [mbind result_bind].
  destruct (settle_RIP _ s1) as [s2| |] eqn:E2; try done. cbn [mbind result_bind].
  destruct (update s2) as [s3| |] eqn:E3; try done. intros [= <-]. apply settle_RIP_ex in E2.
  apply update_settled in E3 as (Hs & Hm & _ & Hi). destruct (entered_same s) as (_ & _ & _ & Hme & _).
  apply dispatch_continue in E as [Hm1 Hi1].
  rewrite E2 in Hm, Hi. split; [done|]. split; [congruence|]. unfold rounds_on.
  destruct Hi as [->|[->| ->]]; [auto..|].
  destruct Hi1 as [->|[->|[->|N]]]; [destruct (is_mixedMode _); auto|auto..|].
  by destruct N; apply entered_istate.
Qed.

Lemma rounds_on_istates s : rounds_on s -> istate (ex_state s) ∈ istates.
Proof. unfold rounds_on, istates. rewrite !elem_of_cons. tauto. Qed.

(** A state from which the loop goes on or returns as it should: after a round, or
    when the handler has not been entered in a state that resumes. *)
Definition sound (s : Trap R) : Prop :=
  istate (ex_state s) ∈ istates /\ istate (ex_state s) <> PROHIB_RESUME /\ (istate (ex_state s) = RESUME -> settled s).

Lemma entered_resume s : istate (ex_state (entered s)) <> MODEL ->
  istate (ex_state (entered s)) = istate (ex_state s) /\
  entered s = with_counters (run_interp_traps s) (i32 (run_interp_insts s + 1)) (u64 (interpCtr s + 1)) s.
Proof. unfold entered. by case_match. Qed.

Lemma internal_step_return s s' : sound s -> internal_step s = Ok (Return, s') ->
  s' = with_counters (run_interp_traps s) (i32 (run_interp_insts s + 1)) (u64 (interpCtr s + 1)) s /\ istate (ex_state s) = RESUME /\ settled s.
Proof.
  intros (Hin & N & Hset). rewrite internal_step_eq. destruct (dispatch _ _) as [[[] s1]| |] eqn:E; try done; cbn [mbind result_bind].
  { by destruct (settle_RIP _ s1) as [s2| |]; try done; cbn [mbind result_bind]; destruct (update s2). }
  intros [= <-]. apply dispatch_return in E as (_ & _ & Hc).
  destruct (entered_resume s) as [Ei Ee].
  { destruct Hc as [[-> _]|[-> _]]; done. }
  rewrite Ei in Hc. destruct Hc as [[Hr ->]|[Hr _]]; [|done]. split_and!; auto.
Qed.

Lemma internal_loop_ok fuel : forall s s', sound s -> internal_loop fuel s = Ok s' ->
  istate (ex_state s') = RESUME /\ settled s' /\ mode (ex_state s') = mode (ex_state s).
Proof.
  induction fuel as [|k IH]; intros s s' Hs; cbn [internal_loop]; [done|].
  destruct (internal_step s) as [[[] s1]| |] eqn:E; try done; cbn [mbind result_bind].
  - destruct Hs as (Hin & _). destruct (round_settles s s1 Hin E) as (Hset & Hm & Hr). intros H. rewrite <- Hm. apply (IH s1 s'); [|done].
    split; [by apply rounds_on_istates|]. split; [|done]. by destruct Hr as [->|[->| ->]].
  - intros [= <-]. by destruct (internal_step_return s s1 Hs E) as (-> & ? & ?).
Qed.

(** ** Entering the handler *)
Definition abort_types : list Z := [ABORT_TYPE.MODEL; ABORT_TYPE.POISON; ABORT_TYPE.UNKNOWN; ABORT_TYPE.OTHER].

Lemma abort_type_ok status : abort_type status ∈ abort_types.
Proof. unfold abort_type, abort_types. rewrite !elem_of_cons. repeat case_match; tauto. Qed.

Lemma high_bits_range status : 0 <= high_bits status < 256.
Proof. unfold high_bits. apply Z.mod_pos_bound. lia. Qed.

(** Bouncing is for mixed mode without single steps, as the constructor has it. *)
Definition mode_ok (e : EXECUTION_STATE) : Prop :=
  0 <= mode e < 8 /\ (is_bouncing e = true -> is_mixedMode e = true /\ is_singleStepping e = false).

Lemma new_mode_ok mixed sstep bounce : mode_ok (EXECUTION_STATE_new mixed sstep bounce).
Proof. destruct mixed, sstep, bounce; (split; [vm_compute; by split|done]). Qed.

(** What [update(type)] leaves. *)
Lemma update_abort_ok ty (s s' : Trap R) : update_abort ty s = Ok s' ->
  mode (ex_state s') = mode (ex_state s) /\ tran_max s' = tran_max s /\ abort_info s' = abort_info s /\ rest s' = rest s /\
  refreshed (ex_state s') (store s) /\ cartridge_rip s' = cartridge_rip s /\ abort_status s' = abort_status s /\
  ((ty = ABORT_TYPE.MODEL /\ istate (ex_state s') = MODEL /\ store s' = store s) \/
   (ty <> ABORT_TYPE.MODEL /\ is_singleStepping (ex_state s) = true /\ istate (ex_state s') = INTERP /\ store s' = store s) \/
   (ty <> ABORT_TYPE.MODEL /\ is_bouncing (ex_state s) = true /\ 0 < tran_max s /\ istate (ex_state s') = BOUNCEBACK /\
      store s' = set_greg RIP (greg_u64 RIP (store s) - bounceback_offset) (store s)) \/
   (ty <> ABORT_TYPE.MODEL /\ is_bouncing (ex_state s) = true /\ tran_max s <= 0 /\ istate (ex_state s') = FAULT /\ store s' = store s) \/
   ((is_bouncing (ex_state s) = false \/ ~ ty ∈ abort_types) /\ istate (ex_state s') = istate (ex_state s) /\ store s' = store s)).
Proof.
  unfold update_abort. destruct (refresh _ _) as [[[conc start] e]| |] eqn:E; try done. cbn [mbind result_bind].
  destruct (refresh_inv _ _ _ _ _ E) as (Hr & _ & _ & Hm & Hi). cbn [with_ex ex_state].
  unfold is_singleStepping, is_bouncing in *. rewrite <- Hm, <- Hi.
  destruct (Z.eqb_spec ty ABORT_TYPE.MODEL) as [->|N].
  { intros [= <-]. split_and!; try done; [by apply refreshed_istate|]. by left. }
  destruct (Z.eqb_spec ty ABORT_TYPE.POISON) as [->|N2]; cbn [andb orb].
  - destruct (has (mode e) SSTEP) eqn:Es; cbn [andb].
    { intros [= <-]. split_and!; try done; [by apply refreshed_istate|]. right. by left. }
    destruct (has (mode e) BOUNCE) eqn:Eb.
    + destruct (Z.ltb_spec 0 (tran_max (with_ex e s))) as [Hl|Hl]; intros [= <-]; (split_and!; try done; [by apply refreshed_istate|]);
        [right; right; left|right; right; right; left]; done.
    + intros [= <-]. split_and!; try done. do 4 right. auto.
  - destruct (Z.eqb_spec ty ABORT_TYPE.UNKNOWN) as [->|N3]; cbn [orb]; [|destruct (Z.eqb_spec ty ABORT_TYPE.OTHER) as [->|N4]].
    1,2: destruct (has (mode e) BOUNCE) eqn:Eb;
      [destruct (Z.ltb_spec 0 (tran_max (with_ex e s))) as [Hl|Hl]; intros [= <-]; (split_and!; try done; [by apply refreshed_istate|]);
        [right; right; left|right; right; right; left]; done
      |intros [= <-]; split_and!; try done; do 4 right; auto].
    intros [= <-]. split_and!; try done. do 4 right. split; [|done]. right. unfold abort_types. rewrite !elem_of_cons, elem_of_nil. tauto.
Qed.

(** The counters of the run are two [int]s and a [uint64_t]. *)
Definition is_int (z : Z) : Prop := - 2 ^ 31 <= z < 2 ^ 31.
Definition counters_typed (s : Trap R) : Prop :=
  is_int (run_interp_traps s) /\ is_int (run_interp_insts s) /\ 0 <= interpCtr s < 2 ^ 64.

(** What the loop leaves alone. *)
Definition kept (s s' : Trap R) : Prop :=
  abort_info s' = abort_info s /\ tran_max s' = tran_max s /\ mode (ex_state s') = mode (ex_state s) /\
  (counters_typed s -> counters_typed s').

Lemma dispatch_kept cc s fl s' : dispatch cc s = Ok (fl, s') -> kept s s'.
Proof.
  unfold dispatch, kept. destruct (_ =? PROHIB_RESUME); [intros [= <- <-]; by case_match|].
  destruct (_ =? RESUME); [by intros [= <- <-]|]. destruct (_ =? MODEL).
  { destruct (find_model s) as [fp|]; [|done]. destruct (fp _ _ _) as [[[o r] st]| |]; try done. by intros [= <- <-]. }
  destruct (_ =? BOUNCEBACK); [done|]. destruct (_ || _ || _ || _ || _); [|by intros [= <- <-]].
  destruct (interpret cc s) as [s1| |] eqn:E; try done. intros [= <- <-]. revert E. unfold interpret.
  destruct (0 <=? _); [by intros [= <-]|]. destruct (0 <=? _).
  - destruct (write_greg _ _ _); try done. by intros [= <-].
  - destruct (if _ =? _ then _ else _); try done. cbn [mbind result_bind]. destruct (runCoreInterpreter _ _); try done.
    cbn [mbind result_bind]. destruct (tryKillFlags _ _ _); try done. cbn [mbind result_bind]. destruct (killDeadRegs _ _); try done.
    cbn [mbind result_bind]. destruct (if TASEIVC then _ else _); try done. by intros [= <-].
Qed.

Lemma settle_RIP_kept rip s s' : settle_RIP rip s = Ok s' -> kept s s'.
Proof.
  unfold settle_RIP, kept. destruct (if is_concrete _ then _ else _) as [[]| |]; try done; cbn [mbind result_bind]; [|by intros [= <-]].
  destruct (tase_helper_read _ _ _) as [[e st]| |]; try done. cbn [mbind result_bind]. destruct (as_expr e) as [e'| |]; try done.
  cbn [mbind result_bind]. destruct (isConst e'); [by intros [= <-]|].
  destruct (forkOnPossibleRIPValues _ _ _ _) as [[r st']| |]; try done. cbn [mbind result_bind].
  destruct (if taseDebug then _ else _) as [[f st2]| |]; try done. cbn [mbind result_bind].
  destruct (match f with Some e => isConst e | None => true end); [|done]. by intros [= <-].
Qed.

Lemma update_kept s s' : update s = Ok s' -> kept s s'.
Proof.
  intros H. pose proof (update_settled _ _ H) as (_ & Hm & _). revert H. unfold update.
  destruct (refresh _ _) as [[[conc start] e]| |]; try done. cbn [mbind result_bind]. intros [= <-]. unfold kept. split_and!; try done; by destruct conc, start.
Qed.

Lemma kept_then s s1 s2 : kept s s1 -> kept s1 s2 -> kept s s2.
Proof. unfold kept. intros (? & ? & ? & ?) (? & ? & ? & ?). split_and!; [congruence..|auto]. Qed.
Lemma kept_entered s : kept s (entered s).
Proof.
  assert (H : counters_typed s -> is_int (i32 (run_interp_insts s + 1)) /\ 0 <= u64 (interpCtr s + 1) < 2 ^ 64).
  { intros _. split; [apply i32_range|]. by apply wrap_inw. }
  unfold kept, entered. case_match; (split; [done|]; split; [done|]; split; [done|]); intros Hs; destruct (H Hs) as [H1 H2]; destruct Hs as (Hi0 & _ & _); exact (conj Hi0 (conj H1 H2)).
Qed.

Lemma internal_step_kept s fl s' : internal_step s = Ok (fl, s') -> kept s s'.
Proof.
  rewrite internal_step_eq. destruct (dispatch _ _) as [[fl' s1]| |] eqn:E; try done. cbn [mbind result_bind]. apply dispatch_kept in E.
  assert (Hk : kept s s1) by (eapply kept_then; [apply kept_entered|exact E]). destruct fl'; [|by intros [= <- <-]].
  destruct (settle_RIP _ _) as [s2| |] eqn:E2; try done. cbn [mbind result_bind]. destruct (update s2) as [s3| |] eqn:E3; try done.
  intros [= <- <-]. eapply kept_then; [exact Hk|]. eapply kept_then; [by eapply settle_RIP_kept|by apply update_kept].
Qed.

Lemma internal_loop_kept fuel : forall s s', internal_loop fuel s = Ok s' -> kept s s'.
Proof.
  induction fuel as [|k IH]; intros s s'; cbn [internal_loop]; [done|].
  destruct (internal_step s) as [[[] s1]| |] eqn:E; try done; cbn [mbind result_bind]; apply internal_step_kept in E.
  - intros H%IH. by eapply kept_then.
  - by intros [= <-].
Qed.
End modes.

(** ** The budget of transactions *)
Section budget.
Context {AP : APIntOps} {CFG : Config} {PR : Process} {TG : Target} {R : Type} {EN : Environment R}.

Lemma next_tran_max_cases status t : 0 <= t ->
  let ty := abort_type status in
  (ty = ABORT_TYPE.MODEL /\ next_tran_max status ty t = t) \/
  (ty = ABORT_TYPE.POISON /\ next_tran_max status ty t = high_bits status /\ high_bits status < 16) \/
  (ty <> ABORT_TYPE.MODEL /\ ty <> ABORT_TYPE.POISON /\ (next_tran_max status ty t = t / 2 \/ next_tran_max status ty t = 0)).
Proof.
  intros Ht ty. unfold ty, next_tran_max, abort_type. pose proof (high_bits_range status).
  destruct (has status _), (Z.eqb_spec (high_bits status) 0xff), (Z.ltb_spec (high_bits status) 16), (Z.eqb_spec (high_bits status) 0);
    try lia; cbn; (destruct (_ || _); cbn); auto 10.
Qed.

Lemma klee_interp_cases fuel (s s' : Trap R) : klee_interp fuel s = Ok s' ->
  let c := classify_and_count (with_trap_RIP (greg_u64 RIP (store s)) s) in
  exists u, update_abort (abort_type (abort_status s)) c = Ok u /\
    ((istate_is (ex_state u) BOUNCEBACK = true /\ s' = u) \/
     (istate_is (ex_state u) BOUNCEBACK = false /\ exists v,
        klee_interp_internal fuel (with_store (set_greg R14 0 (store u)) u) = Ok v /\ s' = with_tran_max tranMaxArg v)).
Proof.
  intros H c. unfold klee_interp in H.
  replace (abort_type (abort_status s)) with (type (abort_info c)) by (unfold c, classify_and_count; by case_match).
  fold c in H. destruct (update_abort _ c) as [u| |] eqn:E; try done. cbn [mbind result_bind] in H. exists u. split; [done|].
  destruct (istate_is (ex_state u) BOUNCEBACK); [left; split; [done|congruence]|]. right. split; [done|].
  destruct (klee_interp_internal _ _) as [v| |]; try done. exists v. split; [done|]. by injection H as <-.
Qed.

Lemma classify_facts (s : Trap R) :
  let c := classify_and_count (with_trap_RIP (greg_u64 RIP (store s)) s) in
  mode (ex_state c) = mode (ex_state s) /\ store c = store s /\ tran_max c = next_tran_max (abort_status s) (abort_type (abort_status s)) (tran_max s) /\
  cartridge_rip c = cartridge_rip s /\
  abort_info c = {| counts := count (abort_type (abort_status s)) (counts (abort_info s)); type := abort_type (abort_status s);
                    value := Z.land (abort_status s) 0x1f |} /\
  (abort_type (abort_status s) <> ABORT_TYPE.MODEL -> ex_state c = ex_state s).
Proof. unfold classify_and_count. cbn. destruct (Z.eqb_spec (abort_type (abort_status s)) ABORT_TYPE.MODEL); by split_and!. Qed.

Lemma istate_bounce (e : EXECUTION_STATE) : istate e ∈ istates -> istate_is e BOUNCEBACK = bool_decide (istate e = BOUNCEBACK).
Proof.
  unfold istates, istate_is. rewrite !elem_of_cons, elem_of_nil. intros H. repeat destruct H as [->|H]; try reflexivity. done.
Qed.

Lemma same_mode_flags (e e' : EXECUTION_STATE) : mode e' = mode e ->
  is_bouncing e' = is_bouncing e /\ is_mixedMode e' = is_mixedMode e /\ is_singleStepping e' = is_singleStepping e.
Proof. unfold is_bouncing, is_mixedMode, is_singleStepping. by intros ->. Qed.

(** *** The outcome with bounceback *)
Lemma bouncing_outcome fuel (s s' : Trap R) :
  mode_ok (ex_state s) -> is_bouncing (ex_state s) = true -> klee_interp fuel s = Ok s' ->
  mode (ex_state s') = mode (ex_state s) /\
  ((istate (ex_state s') = BOUNCEBACK /\ 0 < tran_max s' /\ abort_type (abort_status s) <> ABORT_TYPE.MODEL /\
    tran_max s' = next_tran_max (abort_status s) (abort_type (abort_status s)) (tran_max s) /\
    store s' = set_greg RIP (greg_u64 RIP (store s) - bounceback_offset) (store s)) \/
   (istate (ex_state s') = RESUME /\ settled s' /\ gregs_tainted (store s') = Ok false /\ tran_max s' = tranMaxArg)).
Proof.
  intros [_ Hmo] Hb H. destruct (Hmo Hb) as [Hmix Hss]. apply klee_interp_cases in H as (u & Hu & Hcase).
  destruct (classify_facts s) as (Hm & Hst & Htm & _). apply update_abort_ok in Hu as (Hmu & Htu & _ & _ & _ & _ & _ & Hi).
  destruct (same_mode_flags _ _ Hm) as (Eb & _ & Es). rewrite Eb, Es, Hss, Hb in Hi.
  assert (Hloop : istate (ex_state u) = MODEL \/ istate (ex_state u) = FAULT -> forall v,
    klee_interp_internal fuel (with_store (set_greg R14 0 (store u)) u) = Ok v ->
    mode (ex_state v) = mode (ex_state s) /\ istate (ex_state v) = RESUME /\ settled v /\ gregs_tainted (store v) = Ok false).
  { intros Hiu v Hv. apply internal_loop_ok in Hv as (Hr & Hset & Hmv).
    - cbn [with_counters with_store with_process ex_state] in Hmv. split; [congruence|]. split; [done|]. split; [done|].
      destruct Hset as (Href & Hnc & _). pose proof (rf_concrete _ _ Href) as Hrf.
      assert (Hc : is_concrete (ex_state v) = true) by (destruct (is_concrete _); [done|]; rewrite Hnc in Hr by done; discriminate Hr).
      assert (Hmm : is_mixedMode (ex_state v) = true) by (destruct (same_mode_flags (ex_state s) (ex_state v)) as (_ & -> & _); [congruence|done]).
      rewrite Hmm in Hrf. destruct Hrf as (t & -> & Et). rewrite Hc in Et. by destruct t.
    - unfold sound. cbn [with_counters with_store with_process ex_state]. destruct Hiu as [-> | ->];
        (split; [unfold istates; rewrite !elem_of_cons; auto 10|]); done. }
  destruct Hcase as [[Hib ->]|[Hib (v & Hv & ->)]].
  - split; [congruence|]. left. rewrite istate_bounce in Hib by (destruct Hi as [(_ & -> & _)|[(_ & ? & _)|[(_ & _ & _ & -> & _)|[(_ & _ & _ & -> & _)|[[?|N] _]]]]];
      [unfold istates; rewrite !elem_of_cons; auto 10|done|unfold istates; rewrite !elem_of_cons; auto 10
      |unfold istates; rewrite !elem_of_cons; auto 10|done|by destruct N; apply abort_type_ok]).
    apply bool_decide_eq_true in Hib.
    destruct Hi as [(_ & E & _)|[(_ & ? & _)|[(Hn & _ & Hpos & _ & Es')|[(_ & _ & _ & E & _)|[[?|N] _]]]]]; try done.
    + rewrite E in Hib. discriminate Hib.
    + split_and!; congruence || lia.
    + rewrite E in Hib. discriminate Hib.
    + by destruct N; apply abort_type_ok.
  - cbn [with_tran_max ex_state store tran_max].
    assert (Hiu : istate (ex_state u) = MODEL \/ istate (ex_state u) = FAULT).
    { destruct Hi as [(_ & ? & _)|[(_ & ? & _)|[(_ & _ & _ & E & _)|[(_ & _ & _ & ? & _)|[[?|N] _]]]]]; auto; try done.
      - unfold istate_is in Hib. rewrite E in Hib. discriminate Hib.
      - by destruct N; apply abort_type_ok. }
    destruct (Hloop Hiu v Hv) as (? & ? & ? & ?). split; [done|]. right. done.
Qed.
End budget.

(** ** Consecutive bounces *)
Section bounces.
Context {AP : APIntOps} {CFG : Config} {PR : Process} {TG : Target} {R : Type} {EN : Environment R}.

(** [n] traps in a row that all go back to native execution at once. *)
Inductive bounces (fuel : nat) : nat -> Trap R -> Trap R -> Prop :=
| bounces_none s : bounces fuel 0 s s
| bounces_again n s s1 s2 s3 :
    klee_interp fuel s = Ok s1 -> istate (ex_state s1) = BOUNCEBACK -> native s1 = Ok s2 -> bounces fuel n s2 s3 ->
    bounces fuel (S n) s s3.

(** The poisoned cartridge of an aborted transaction is one of its cartridges. *)
Definition poison_within (s : Trap R) : Prop :=
  abort_type (abort_status s) = ABORT_TYPE.POISON -> high_bits (abort_status s) < tran_max s.
Definition native_poison_within : Prop := forall n r st status r' st',
  tase_inject n r st = Ok (status, r', st') -> abort_type status = ABORT_TYPE.POISON -> high_bits status < n.

Lemma bounce_shrinks fuel s s1 : mode_ok (ex_state s) -> is_bouncing (ex_state s) = true -> 0 <= tran_max s -> poison_within s ->
  klee_interp fuel s = Ok s1 -> istate (ex_state s1) = BOUNCEBACK -> 0 < tran_max s1 /\ tran_max s1 + 1 <= tran_max s.
Proof.
  intros Hm Hb Ht Hp H Hi. destruct (bouncing_outcome fuel s s1 Hm Hb H) as (_ & [(_ & Hpos & Hty & E & _)|(Hr & _)]).
  2:{ rewrite Hi in Hr. discriminate Hr. }
  split; [done|]. destruct (next_tran_max_cases (abort_status s) (tran_max s) Ht) as [[? _]|[(Hpo & E' & _)|(_ & _ & [E'|E'])]]; try done.
  - rewrite E, E'. specialize (Hp Hpo). lia.
  - rewrite E' in E. pose proof (Z.div_mod (tran_max s) 2). pose proof (Z.mod_pos_bound (tran_max s) 2). lia.
  - lia.
Qed.

Lemma bounces_bound fuel n : forall s s', native_poison_within ->
  mode_ok (ex_state s) -> is_bouncing (ex_state s) = true -> 0 <= tran_max s -> poison_within s ->
  bounces fuel n s s' -> Z.of_nat n + tran_max s' <= tran_max s /\ (n = 0%nat \/ 0 < tran_max s').
Proof.
  induction n as [|n IH]; intros s s' Hn Hm Hb Ht Hp H; inversion H as [|? ? s1 s2 ? Hk Hi Hnat Hrest]; subst; [split; [lia|by left]|].
  destruct (bounce_shrinks fuel s s1 Hm Hb Ht Hp Hk Hi) as [Hpos Hle].
  destruct (bouncing_outcome fuel s s1 Hm Hb Hk) as (Hm1 & _).
  unfold native in Hnat. destruct (tase_inject _ _ _) as [[[status r] st]| |] eqn:E; try done. injection Hnat as <-.
  assert (Hfl : mode_ok (ex_state s1) /\ is_bouncing (ex_state s1) = true).
  { unfold mode_ok. destruct (same_mode_flags _ _ Hm1) as (-> & -> & ->). rewrite Hm1. done. }
  pose proof (IH (with_status status (with_process r st s1)) s' Hn (proj1 Hfl) (proj2 Hfl)) as IH'.
  cbn [with_status with_process ex_state tran_max] in IH'. destruct IH' as [Hsum Hz]; [lia| |done|].
  { intros Hpo. by apply (Hn _ _ _ _ _ _ E). }
  split; [lia|]. right. destruct Hz as [->|]; [|done]. inversion Hrest; subst. cbn. lia.
Qed.

(** The numbers of rounds after which a round can return. *)
Inductive rounds : nat -> Trap R -> Trap R -> Prop :=
| rounds_none s : rounds 0 s s
| rounds_more n s s1 s2 : internal_step s = Ok (Continue, s1) -> rounds n s1 s2 -> rounds (S n) s s2.

Lemma rounds_mode n s s' : rounds n s s' -> kept s s'.
Proof. induction 1 as [s|n s s1 s2 H _ IH]; [done|]. eapply kept_then; [by eapply internal_step_kept|done]. Qed.

Lemma rounds_settled n s s' : (0 < n)%nat -> istate (ex_state s) ∈ istates -> rounds n s s' -> settled s' /\ rounds_on s'.
Proof.
  intros Hn Hin H. revert Hn. induction H as [s|n s s1 s2 H Hr IH]; [lia|]. intros _. destruct (round_settles s s1 Hin H) as (Hs & _ & Ho).
  destruct n; [by inversion Hr; subst|]. apply IH; [by apply rounds_on_istates|lia].
Qed.

(** A settled state at the head of a cartridge returns in the next round. *)
Lemma settled_returns (s : Trap R) : settled s -> is_concrete (ex_state s) && is_txn_start (ex_state s) = true -> find_model s = None ->
  internal_step s = Ok (Return, with_counters (run_interp_traps s) (i32 (run_interp_insts s + 1)) (u64 (interpCtr s + 1)) s).
Proof.
  intros (_ & _ & Hr) Hc Hf. specialize (Hr Hc). rewrite internal_step_eq. unfold entered.
  replace (find_model (with_counters _ _ _ s)) with (None (A := EXECUTION_STATE -> R -> Store -> result (Z * R * Store))) by (rewrite <- Hf; reflexivity).
  rewrite andb_false_r. unfold dispatch. cbn [with_counters ex_state]. rewrite Hr. reflexivity.
Qed.

Lemma rounds_loop n k s s' s2 : rounds n s s' -> internal_loop k s' = Ok s2 -> internal_loop (n + k) s = Ok s2.
Proof. induction 1 as [s|n s s1 s'' H _ IH]; [done|]. intros Hk. cbn [internal_loop plus]. rewrite H. cbn [mbind result_bind]. auto. Qed.
End bounces.

(** ** Registers in memory *)
Section register_file.
Context {AP : APIntOps} {SP : APIntSpec AP} {CFG : Config} {PR : Process} {TG : Target}.

(** The exact answer of the taint test on whole halfwords. *)
Lemma taint_loop2_iff m (Hd : ptrdiff16_ok) k : forall fuel x, (k < fuel)%nat ->
  exists t, taint_loop2 m (x + 2 * Z.of_nat k) fuel x = Ok t /\
    (t = true <-> exists j, 0 <= j < Z.of_nat k /\ load16 m (x + 2 * j) = poison_val).
Proof.
  induction k as [|k IH]; intros [|fuel] x Hf; try lia; cbn [taint_loop2].
  - replace (x + 2 * Z.of_nat 0 - x) with (2 * 0) by lia. rewrite Hd. exists false. split; [done|]. split; [done|]. intros (j & Hj & _). lia.
  - replace (x + 2 * Z.of_nat (S k) - x) with (2 * Z.of_nat (S k)) by lia. rewrite Hd.
    rewrite (proj2 (Z.ltb_lt 0 _)) by lia. destruct (Z.eqb_spec (load16 m x) poison_val) as [E|N].
    { exists true. split; [done|]. split; [|done]. intros _. exists 0. split; [lia|]. by rewrite Z.mul_0_r, Z.add_0_r. }
    replace (x + 2 * Z.of_nat (S k)) with (x + 2 + 2 * Z.of_nat k) by lia. destruct (IH fuel (x + 2)) as (t & -> & Ht); [lia|].
    exists t. split; [done|]. rewrite Ht. split; intros (j & Hj & E).
    + exists (j + 1). split; [lia|]. by replace (x + 2 * (j + 1)) with (x + 2 + 2 * j) by lia.
    + destruct (Z.eq_dec j 0) as [->|]; [by rewrite Z.mul_0_r, Z.add_0_r in E|]. exists (j - 1). split; [lia|].
      by replace (x + 2 + 2 * (j - 1)) with (x + 2 * j) by lia.
Qed.

Lemma taint_iff m ptr k : ptrdiff16_ok -> poisonSize = 2 -> ptr mod 2 = 0 -> 0 <= k ->
  exists t, tase_buf_has_taint m ptr (2 * k) = Ok t /\
    (t = true <-> exists j, 0 <= j < k /\ load16 m (ptr + 2 * j) = poison_val).
Proof.
  intros Hd Hp He Hk. unfold tase_buf_has_taint. rewrite He, Hp. cbn [Z.eqb].
  pose proof (taint_loop2_iff m Hd (Z.to_nat k) (S (Z.to_nat (2 * k))) ptr ltac:(lia)) as H.
  rewrite Z2Nat.id in H by lia. exact H.
Qed.

(** Where the registers are. *)
Record layout (v : ObjectPair) (st : Store) : Prop := {
  ly_size : TASE_GREG_SIZE = 8;
  ly_index r : 0 <= GREG r < TASE_NGREG;
  ly_distinct r r' : GREG r = GREG r' -> r = r';
  ly_even : target_ctx_gregs mod 2 = 0;
  ly_mapped : mapped target_ctx_gregs (8 * TASE_NGREG) st v;
}.
Definition process_ok : Prop := ptrdiff16_ok /\ poisonSize = 2 /\ IsLittleEndian = true.

Context (Hpr : process_ok).

(** The address belongs to the register. *)
Definition in_greg (r : greg) (a : Z) : Prop := greg_addr r <= a < greg_addr r + 8.

Lemma greg_mapped v st r : layout v st -> mapped (greg_addr r) 8 st v /\ greg_addr r mod 2 = 0.
Proof.
  intros [Hs Hi _ He (Hin & Hlo & Hhi)]. unfold greg_addr. rewrite Hs. specialize (Hi r). split; [split; [done|lia]|].
  replace (8 * GREG r) with (4 * GREG r * 2) by lia. by rewrite Z_mod_plus_full.
Qed.

Lemma in_greg_unique v st r r' a : layout v st -> in_greg r a -> in_greg r' a -> r = r'.
Proof. intros [Hs _ Hd _ _]. unfold in_greg, greg_addr. rewrite Hs. intros. apply Hd. lia. Qed.

Lemma greg_taint_iff v st r : layout v st ->
  exists t, greg_tainted r st = Ok t /\ (t = true <-> exists j, 0 <= j < 4 /\ load16 (mem (world st)) (greg_addr r + 2 * j) = poison_val).
Proof.
  intros Hl. destruct (greg_mapped v st r Hl) as [_ He]. destruct Hpr as (Hd & Hp & _).
  apply (taint_iff (mem (world st)) (greg_addr r) 4); try done.
Qed.

(** The taint of a register depends on its bytes. *)
Lemma greg_taint_same v st st' r : layout v st -> (forall a, in_greg r a -> mem (world st') a = mem (world st) a) ->
  greg_tainted r st' = greg_tainted r st.
Proof.
  intros Hl Hm. destruct (greg_taint_iff v st r Hl) as (t & -> & Ht).
  destruct (greg_mapped v st r Hl) as [_ He]. destruct Hpr as (Hd & Hp & _).
  destruct (taint_iff (mem (world st')) (greg_addr r) 4 Hd Hp He ltac:(lia)) as (t' & Et' & Ht').
  change (2 * 4) with 8 in Et'. unfold greg_tainted. rewrite Et'. f_equal. apply eq_true_iff_eq. rewrite Ht, Ht'.
  assert (forall j, 0 <= j < 4 -> load16 (mem (world st')) (greg_addr r + 2 * j) = load16 (mem (world st)) (greg_addr r + 2 * j)) as E.
  { intros j Hj. unfold load16. cbn [load]. rewrite !Hm by (unfold in_greg; lia). done. }
  split; intros (j & Hj & H); exists j; (split; [done|]); [rewrite <- E|rewrite E]; done.
Qed.

Record greg_written (r : greg) (v : Z) (st st' : Store) : Prop := {
  gw_ok : store_ok st';
  gw_space : space st' = space st;
  gw_bytes i : 0 <= i < 8 -> mem (world st') (greg_addr r + i) = byte_of v i;
  gw_mem a : ~ in_greg r a -> mem (world st') a = mem (world st) a;
  gw_cells rho a x : ~ in_greg r a -> cell rho st a x -> cell rho st' a x;
}.

Lemma write_greg_ok p st r v : store_ok st -> layout p st -> 0 <= v < 2 ^ 64 -> returns (write_greg r v st) (greg_written r v st).
Proof.
  intros Hst Hl Hv. unfold write_greg. destruct (const64 v Hv) as [Ec Wc]. unfold Int64. rewrite Ec. cbn [mbind result_bind].
  destruct (greg_mapped p st r Hl) as [Hm He]. destruct Hpr as (_ & _ & Hle).
  eapply returns_weaken; [by apply (helper_write_const st p (greg_addr r) (APInt 64 v))|].
  intros st' ([Hok Hsp _ Ho] & Hb & Hmem). constructor; try done.
  - intros i Hi. specialize (Hb i Hi). unfold byte_index in Hb. rewrite Hle in Hb. exact Hb.
  - intros a Ha. apply Hmem. unfold in_greg in Ha. lia.
  - intros rho a x Ha. apply Ho. unfold in_greg in Ha. lia.
Qed.

Lemma layout_same v st st' : space st' = space st -> layout v st -> layout v st'.
Proof. intros E [? ? ? ? Hm]. constructor; try done. unfold mapped. by rewrite E. Qed.

(** Zero is no poison. *)
Lemma zero_untainted p st st' r : layout p st -> greg_written r 0 st st' -> greg_u64 r st' = 0 /\ greg_tainted r st' = Ok false.
Proof.
  intros Hl [_ Hsp Hb _ _]. assert (Hz : forall i, 0 <= i < 8 -> mem (world st') (greg_addr r + i) = 0) by (intros i Hi; by rewrite Hb).
  split.
  - unfold greg_u64. rewrite load_le_num, (le_num_ext _ (byte_of 0)) by (intros i Hi; apply Hz; lia). by rewrite le_num_bytes.
  - destruct (greg_taint_iff p st' r (layout_same _ _ _ Hsp Hl)) as (t & -> & Ht). destruct t; [|done].
    destruct (proj1 Ht eq_refl) as (j & Hj & E). unfold load16 in E. cbn [load] in E.
    rewrite <- Z.add_assoc, !Hz in E by lia. discriminate E.
Qed.

(** ** Killing dead registers *)
Definition killed (live i : Z) (rs : list greg) (st : Store) (r : greg) : Prop :=
  exists k, rs !! k = Some r /\ greg_tainted r st = Ok true /\ has live (Z.shiftl 1 (i + Z.of_nat k)) = false.

Record regs_killed (K : greg -> Prop) (st st' : Store) : Prop := {
  rk_ok : store_ok st';
  rk_space : space st' = space st;
  rk_zero r : K r -> greg_u64 r st' = 0 /\ greg_tainted r st' = Ok false;
  rk_mem a : (forall r, K r -> ~ in_greg r a) -> mem (world st') a = mem (world st) a;
  rk_cells rho a x : (forall r, K r -> ~ in_greg r a) -> cell rho st a x -> cell rho st' a x;
}.

Lemma kill_regs_ok live p rs : forall i st, NoDup rs -> store_ok st -> layout p st ->
  returns (kill_regs live i rs st) (regs_killed (killed live i rs st) st).
Proof.
  induction rs as [|r rs IH]; intros i st Hnd Hst Hl; cbn [kill_regs].
  { apply returns_ok. constructor; try done. by intros r (k & ? & _). }
  inversion Hnd as [|? ? Hnin Hnd']; subst. destruct (greg_taint_iff p st r Hl) as (t & Et & _). rewrite Et. cbn [mbind result_bind].
  destruct (t && negb (has live (Z.shiftl 1 i))) eqn:Ek.
  - apply andb_true_iff in Ek as [-> Hdead%negb_true_iff].
    eapply returns_bind; [by apply (write_greg_ok p st r 0)|]. intros st1 Hw. pose proof Hw as [Hok1 Hsp1 _ Hm1 Hc1].
    destruct (zero_untainted p st st1 r Hl Hw) as [Hz0 Hz1].
    pose proof (layout_same _ _ _ Hsp1 Hl) as Hl1.
    eapply returns_weaken; [by apply (IH (i + 1) st1)|]. intros st2 [Hok2 Hsp2 Hz2 Hm2 Hc2].
    assert (Htail : forall r', r' ∈ rs -> greg_tainted r' st1 = greg_tainted r' st).
    { intros r' Hr'. apply (greg_taint_same p); [done|]. intros a Ha. apply Hm1. intros Ha'.
      by rewrite (in_greg_unique _ _ _ _ _ Hl Ha' Ha) in Hnin. }
    assert (Hsub : forall r', killed live (i + 1) rs st1 r' <-> r' ∈ rs /\ killed live i (r :: rs) st r').
    { intros r'. split.
      - intros (k & Hk & Ht & Hb). pose proof (list_elem_of_lookup_2 _ _ _ Hk) as Hin. split; [done|]. exists (S k). split; [done|]. rewrite <- (Htail r' Hin).
        split; [done|]. by replace (i + Z.of_nat (S k)) with (i + 1 + Z.of_nat k) by lia.
      - intros (Hin & [|k] & Hk & Ht & Hb); [injection Hk as <-; done|]. exists k. split; [done|]. rewrite (Htail r' Hin). split; [done|].
        by replace (i + 1 + Z.of_nat k) with (i + Z.of_nat (S k)) by lia. }
    assert (Hkr : killed live i (r :: rs) st r) by (exists 0%nat; split; [done|]; rewrite Z.add_0_r; done).
    assert (Hout : forall a, (forall r', killed live i (r :: rs) st r' -> ~ in_greg r' a) ->
      ~ in_greg r a /\ forall r', killed live (i + 1) rs st1 r' -> ~ in_greg r' a).
    { intros a Ha. split; [by apply Ha|]. intros r' Hr'%Hsub. apply Ha, Hr'. }
    assert (Hr2 : forall a, in_greg r a -> mem (world st2) a = mem (world st1) a).
    { intros a Ha. apply Hm2. intros r' [Hin _]%Hsub Ha'. by rewrite (in_greg_unique _ _ _ _ _ Hl Ha Ha') in Hnin. }
    constructor; [done|congruence|..].
    + intros r' Hr'. destruct (decide (r' = r)) as [->|N].
      * split; [|by rewrite (greg_taint_same p st1 st2 r Hl1 Hr2)]. rewrite <- Hz0. unfold greg_u64. rewrite !load_le_num.
        apply le_num_ext. intros j Hj. apply Hr2. unfold in_greg. lia.
      * apply Hz2, Hsub. split; [|done]. destruct Hr' as ([|k] & Hk & _); [by injection Hk as <-|]. by eapply list_elem_of_lookup_2.
    + intros a Ha. destruct (Hout a Ha). rewrite Hm2, Hm1 by done. done.
    + intros rho a x Ha Hx. destruct (Hout a Ha). apply Hc2; [done|]. by apply Hc1.
  - cbn [mbind result_bind]. eapply returns_weaken; [by apply (IH (i + 1) st)|]. intros st2 [Hok2 Hsp2 Hz2 Hm2 Hc2].
    assert (Hsub : forall r', killed live i (r :: rs) st r' <-> killed live (i + 1) rs st r').
    { intros r'. split; intros (k & Hk & Ht & Hb).
      - destruct k as [|k]; [injection Hk as <-; rewrite Et in Ht; injection Ht as ->; rewrite Z.add_0_r in Hb; by rewrite Hb in Ek|].
        exists k. split_and!; try done. by replace (i + 1 + Z.of_nat k) with (i + Z.of_nat (S k)) by lia.
      - exists (S k). split_and!; try done. by replace (i + Z.of_nat (S k)) with (i + 1 + Z.of_nat k) by lia. }
    constructor; try done; setoid_rewrite Hsub; done.
Qed.
End register_file.

(** ** Theorems *)

(** C5. With bounceback on, a trap has two outcomes only.  Either the handler goes
    straight back, with a budget left, and leaves registers and memory alone but for
    the adjustment of RIP; or it interprets, and comes back only when no register
    holds a poison value, with the full budget: native execution never resumes on
    symbolic registers. *)
Theorem resumes_concrete {AP : APIntOps} {CFG : Config} {PR : Process} {TG : Target} {R : Type} {EN : Environment R}
    fuel (s s' : Trap R) :
  mode_ok (ex_state s) -> is_bouncing (ex_state s) = true -> klee_interp fuel s = Ok s' ->
  mode (ex_state s') = mode (ex_state s) /\
  ((istate (ex_state s') = BOUNCEBACK /\ 0 < tran_max s' /\ abort_type (abort_status s) <> ABORT_TYPE.MODEL /\
    tran_max s' = next_tran_max (abort_status s) (abort_type (abort_status s)) (tran_max s) /\
    store s' = set_greg RIP (greg_u64 RIP (store s) - bounceback_offset) (store s)) \/
   (istate (ex_state s') = RESUME /\ settled s' /\ gregs_tainted (store s') = Ok false /\ tran_max s' = tranMaxArg)).
Proof. apply bouncing_outcome. Qed.

(** Bouncing ends: as long as native execution reports poison in a cartridge of the
    transaction it was given, a trap is followed by fewer than [tran_max] bounces in a
    row before the interpreter gets control. *)
Theorem bounces_terminate {AP : APIntOps} {CFG : Config} {PR : Process} {TG : Target} {R : Type} {EN : Environment R}
    fuel n (s s' : Trap R) :
  native_poison_within -> mode_ok (ex_state s) -> is_bouncing (ex_state s) = true -> 0 <= tran_max s -> poison_within s ->
  bounces fuel n s s' -> Z.of_nat n < Z.max 1 (tran_max s).
Proof. intros Hn Hm Hb Ht Hp H. destruct (bounces_bound fuel n s s' Hn Hm Hb Ht Hp H) as [? [-> |?]]; lia. Qed.


(** Without mixed mode the handler never gives control to native execution:
    [klee_interp] does not return, whatever the models and the interpreter do. *)
Theorem interp_only_stays {AP : APIntOps} {CFG : Config} {PR : Process} {TG : Target} {R : Type} {EN : Environment R}
    fuel (s : Trap R) sstep bounce :
  ex_state s = EXECUTION_STATE_new false sstep bounce -> forall s', klee_interp fuel s <> Ok s'.
Proof.
  intros Hex s' H. apply klee_interp_cases in H as (u & Hu & Hcase).
  destruct (classify_facts s) as (Hm & _ & _ & _ & _ & Hexc). apply update_abort_ok in Hu as (Hmu & _ & _ & _ & _ & _ & _ & Hi).
  assert (Hmode : mode (ex_state u) = mode (EXECUTION_STATE_new false sstep bounce)) by (rewrite Hmu, Hm, Hex; done).
  assert (Hiu : istate (ex_state u) = MODEL \/ istate (ex_state u) = INTERP).
  { destruct (same_mode_flags _ _ Hm) as (Eb & _). rewrite Eb, Hex in Hi.
    assert (Hnb : is_bouncing (EXECUTION_STATE_new false sstep bounce) = false) by (by destruct sstep, bounce).
    rewrite Hnb in Hi. destruct Hi as [(_ & ? & _)|[(_ & _ & ? & _)|[(_ & ? & _)|[(_ & ? & _)|(_ & E & _)]]]]; auto; try done.
    destruct (decide (abort_type (abort_status s) = ABORT_TYPE.MODEL)) as [Hty|Hty].
    - left. rewrite E. unfold classify_and_count. cbn. by rewrite Hty.
    - right. rewrite E, (Hexc Hty), Hex. done. }
  destruct Hcase as [[Hib _]|[_ (v & Hv & _)]].
  - unfold istate_is in Hib. destruct Hiu as [E|E]; rewrite E in Hib; discriminate Hib.
  - apply internal_loop_ok in Hv as (Hr & (Href & Hnc & _) & Hmv).
    + cbn [with_counters with_store with_process ex_state] in Hmv. pose proof (rf_concrete _ _ Href) as Hrf.
      destruct (same_mode_flags (EXECUTION_STATE_new false sstep bounce) (ex_state v)) as (_ & Emix & _); [congruence|].
      replace (is_mixedMode (ex_state v)) with false in Hrf by (rewrite Emix; by destruct sstep, bounce).
      rewrite (Hnc Hrf) in Hr. discriminate Hr.
    + unfold sound. cbn [with_counters with_store with_process ex_state].
      destruct Hiu as [-> | ->]; (split; [unfold istates; rewrite !elem_of_cons; auto 10|]); done.
Qed.

(** The handler's globals hold values of their types. *)
Record trap_typed {TG : Target} {R} (s : Trap R) : Prop := {
  tt_istate : istate (ex_state s) ∈ istates;
  tt_mode : mode_ok (ex_state s);
  tt_txn : 0 <= txn_status (ex_state s) < 4;
  tt_max : 0 <= tran_max s <= Z.max tranMaxArg 15;
  tt_counts : Forall is_int [unknown (counts (abort_info s)); model (counts (abort_info s));
                             poison (counts (abort_info s)); other (counts (abort_info s))];
  tt_counters : counters_typed s;
}.

(** The counter of a kind of trap. *)
Definition counter (ty : Z) (c : ABORT_COUNTS) : Z :=
  if ty =? ABORT_TYPE.MODEL then model c else if ty =? ABORT_TYPE.POISON then poison c
  else if ty =? ABORT_TYPE.UNKNOWN then unknown c else other c.
(** The trap is counted once, by the counter of its type. *)
Definition counted (ty : Z) (c c' : ABORT_COUNTS) : Prop :=
  ty ∈ abort_types /\ counter ty c' = i32 (counter ty c + 1) /\ forall ty', ty' ∈ abort_types -> ty' <> ty -> counter ty' c' = counter ty' c.

Section typing.
Context {AP : APIntOps} {CFG : Config} {PR : Process} {TG : Target} {R : Type} {EN : Environment R}.

Definition ex_typed (e : EXECUTION_STATE) : Prop := istate e ∈ istates /\ 0 <= txn_status e < 4.

Lemma internal_loop_typed fuel : forall s s' : Trap R, ex_typed (ex_state s) -> internal_loop fuel s = Ok s' -> ex_typed (ex_state s').
Proof.
  induction fuel as [|k IH]; intros s s' [Hi Ht]; cbn [internal_loop]; [done|].
  destruct (internal_step s) as [[[] s1]| |] eqn:E; try done; cbn [mbind result_bind].
  - apply round_settles in E as ((Hr & _) & _ & Ho); [|done]. apply IH. split; [by apply rounds_on_istates|apply Hr].
  - intros [= <-]. revert E. rewrite internal_step_eq. destruct (dispatch _ _) as [[[] s2]| |] eqn:E; try done; cbn [mbind result_bind].
    { by destruct (settle_RIP _ s2) as [s3| |]; try done; cbn [mbind result_bind]; destruct (update s3). }
    intros [= ->]. apply dispatch_return in E as (_ & _ & Hc). pose proof (entered_istate s Hi) as He.
    assert (Htx : txn_status (ex_state (entered s)) = txn_status (ex_state s)) by (unfold entered; by case_match).
    destruct Hc as [[_ ->]|[_ [-> | ->]]]; unfold ex_typed; rewrite ?Htx; try done.
    cbn [assign with_ex ex_state set_istate istate txn_status]. rewrite Htx. split; [|done]. unfold istates. rewrite !elem_of_cons. auto 10.
Qed.

Lemma update_abort_typed ty (s s' : Trap R) : istate (ex_state s) ∈ istates -> update_abort ty s = Ok s' -> ex_typed (ex_state s').
Proof.
  intros Hin H. apply update_abort_ok in H as (_ & _ & _ & _ & Hr & _ & _ & Hi). split; [|apply Hr].
  unfold istates in *. rewrite !elem_of_cons in *.
  destruct Hi as [(_ & -> & _)|[(_ & _ & -> & _)|[(_ & _ & _ & -> & _)|[(_ & _ & _ & -> & _)|(_ & -> & _)]]]]; auto 12.
Qed.

Lemma update_abort_counters ty (s s' : Trap R) : update_abort ty s = Ok s' -> counters_typed s -> counters_typed s'.
Proof.
  unfold update_abort. destruct (refresh _ _) as [[[conc start] e]| |]; try done. cbn [mbind result_bind].
  repeat case_match; by intros [= <-].
Qed.

Lemma count_counted ty c : ty ∈ abort_types -> counted ty c (count ty c).
Proof.
  intros H. split; [done|]. unfold abort_types in *. rewrite !elem_of_cons, elem_of_nil in H.
  destruct H as [->|[->|[->|[->|[]]]]]; (split; [reflexivity|]); intros ty';
    rewrite !elem_of_cons, elem_of_nil; intros [->|[->|[->|[->|[]]]]]; try done; by intros [].
Qed.
Lemma count_typed ty c : Forall is_int [unknown c; model c; poison c; other c] ->
  Forall is_int [unknown (count ty c); model (count ty c); poison (count ty c); other (count ty c)].
Proof.
  rewrite !Forall_cons. intros (? & ? & ? & ? & _). pose proof i32_range as Hr. unfold count.
  repeat case_match; cbn; split_and!; try done; apply Hr.
Qed.

(** A trap that bounces returns at once. *)
Lemma bounce_returns fuel (s : Trap R) t :
  is_bouncing (ex_state s) = true -> is_singleStepping (ex_state s) = false ->
  abort_type (abort_status s) <> ABORT_TYPE.MODEL -> 0 < next_tran_max (abort_status s) (abort_type (abort_status s)) (tran_max s) ->
  gregs_tainted (store s) = Ok t -> exists s', klee_interp fuel s = Ok s'.
Proof.
  intros Hb Hss Hty Hmax Ht. unfold klee_interp. destruct (classify_facts s) as (Hm & Hst & Htm & _ & Ha & _).
  set (c := classify_and_count _) in *. destruct (same_mode_flags _ _ Hm) as (Eb & Emix & Ess). rewrite Ha. cbn [type].
  pose proof (abort_type_ok (abort_status s)) as Hin. unfold abort_types in Hin. rewrite !elem_of_cons, elem_of_nil in Hin.
  unfold update_abort, refresh. rewrite Hst, Ht. unfold is_bouncing in Eb, Hb. unfold is_singleStepping in Ess, Hss.
  destruct (has (mode (ex_state c)) MIXED); cbn [mbind result_bind mode with_ex ex_state tran_max]; rewrite Eb, Ess, Hb, Hss, Htm;
    (destruct Hin as [E|[E|[E|[E|[]]]]]; [done|..]); rewrite E in Hmax |- *; cbn [Z.eqb Pos.eqb ABORT_TYPE.MODEL ABORT_TYPE.POISON ABORT_TYPE.UNKNOWN ABORT_TYPE.OTHER andb orb];
    rewrite (proj2 (Z.ltb_lt _ _) Hmax); eexists; reflexivity.
Qed.
End typing.

(** C16. The globals of the handler keep to their types: [istate] is one of its
    enumerators, [mode] never changes and bounces only in mixed mode without single
    steps, the transaction status is two bits, the budget stays between zero and the
    larger of its initial value and the poison codes, and the counters of traps,
    instructions and aborts are 32-bit [int]s, which wrap around, and a [uint64_t].
    Each trap is counted once, by the counter of its type.  This holds of every state
    the handler returns from a state of these types, if the option for the budget is not
    negative; a trap that is to bounce does return, whatever the models and
    the interpreter do, for the others see [returns_when_concrete]. *)
Theorem handler_state_typed {AP : APIntOps} {CFG : Config} {PR : Process} {TG : Target} {R : Type} {EN : Environment R} :
  (forall mixed sstep bounce, mode_ok (EXECUTION_STATE_new mixed sstep bounce) /\ istate (EXECUTION_STATE_new mixed sstep bounce) ∈ istates) /\
  (forall fuel (s s' : Trap R), 0 <= tranMaxArg -> trap_typed s -> klee_interp fuel s = Ok s' ->
    trap_typed s' /\ mode (ex_state s') = mode (ex_state s) /\ type (abort_info s') = abort_type (abort_status s) /\
    counted (abort_type (abort_status s)) (counts (abort_info s)) (counts (abort_info s'))) /\
  (forall fuel (s : Trap R) t, trap_typed s -> is_bouncing (ex_state s) = true -> abort_type (abort_status s) <> ABORT_TYPE.MODEL ->
    0 < next_tran_max (abort_status s) (abort_type (abort_status s)) (tran_max s) -> gregs_tainted (store s) = Ok t ->
    exists s', klee_interp fuel s = Ok s').
Proof.
  split. { intros mixed sstep bounce. split; [apply new_mode_ok|]. unfold istates. rewrite !elem_of_cons. destruct mixed; cbn; auto 10. }
  split. 2:{ intros fuel s t Hs Hb. pose proof (proj2 (tt_mode _ Hs) Hb) as [_ Hss]. by apply bounce_returns. }
  intros fuel s s' Harg [Hi Hmo Htx Hmax Hcs Hcn] H. apply klee_interp_cases in H as (u & Hu & Hcase).
  destruct (classify_facts s) as (Hm & _ & Htm & _ & Ha & _). pose proof (update_abort_ok _ _ _ Hu) as (Hmu & Htu & Hau & _).
  assert (Hcin : istate (ex_state (classify_and_count (with_trap_RIP (greg_u64 RIP (store s)) s))) ∈ istates).
  { unfold classify_and_count. case_match; [|done]. right. left. }
  pose proof (update_abort_typed _ _ _ Hcin Hu) as [Hiu Htxu]. pose proof (update_abort_counters _ _ _ Hu) as Hcu.
  assert (Hcu' : counters_typed u). { apply Hcu. unfold classify_and_count. by case_match. }
  assert (Hbud : 0 <= tran_max u <= Z.max tranMaxArg 15).
  { rewrite Htu, Htm. pose proof (high_bits_range (abort_status s)).
    destruct (next_tran_max_cases (abort_status s) (tran_max s) ltac:(lia)) as [[_ ->]|[(_ & -> & ?)|(_ & _ & [->| ->])]]; try lia.
    pose proof (Z.div_mod (tran_max s) 2). pose proof (Z.mod_pos_bound (tran_max s) 2). lia. }
  assert (Hmode : forall e, mode e = mode (ex_state s) -> mode_ok e).
  { intros e E. unfold mode_ok. destruct (same_mode_flags _ _ E) as (-> & -> & ->). by rewrite E. }
  assert (Habort : forall a, a = abort_info u -> Forall is_int [unknown (counts a); model (counts a); poison (counts a); other (counts a)] /\
    type a = abort_type (abort_status s) /\ counted (abort_type (abort_status s)) (counts (abort_info s)) (counts a)).
  { intros a ->. rewrite Hau, Ha. cbn [type counts]. split; [by apply count_typed|]. split; [done|]. apply count_counted, abort_type_ok. }
  destruct Hcase as [[_ ->]|[_ (v & Hv & ->)]].
  - destruct (Habort (abort_info u) eq_refl) as (Hc & ? & ?). split; [constructor; try done; apply Hmode; congruence|]. split; [congruence|done].
  - unfold klee_interp_internal in Hv. pose proof (internal_loop_kept _ _ _ Hv) as (Hka & _ & Hkm & Hkc).
    apply internal_loop_typed in Hv as [Hiv Htv]; [|done]. cbn in Hka, Hkm. destruct (Habort _ Hka) as (Hc & ? & ?).
    assert (Hcv : counters_typed v).
    { apply Hkc. destruct Hcu' as (? & ? & ?). split; [apply i32_range|]. by split. }
    split; [constructor; cbn [with_tran_max ex_state tran_max]; try done; [apply Hmode; congruence|lia]|].
    split; [cbn; congruence|done].
Qed.

(** [killDeadRegs] at the end of a cartridge sets exactly the registers to zero that
    hold poison and are not live according to the compiler's table; afterwards no dead
    register is tainted, every other register and every other byte of memory, with
    its symbolic value, is as it was, and the objects keep their contract. *)
Theorem dead_registers_killed {AP : APIntOps} {SP : APIntSpec AP} {CFG : Config} {PR : Process} {TG : Target} p st prev_rip it :
  process_ok -> store_ok st -> layout p st -> cartridge_regstatus prev_rip = Some it ->
  returns (killDeadRegs prev_rip st) (fun st' => regs_killed (killed (snd it) 0 regmap st) st st' /\
    forall k r, regmap !! k = Some r -> has (snd it) (Z.shiftl 1 (Z.of_nat k)) = false -> greg_tainted r st' = Ok false).
Proof.
  intros Hpr Hst Hl E. unfold killDeadRegs. rewrite E.
  assert (Hnd : NoDup regmap) by (apply (bool_decide_eq_true_1 _); vm_compute; reflexivity).
  eapply returns_weaken; [by apply (kill_regs_ok Hpr (snd it) p)|]. intros st' Hk. split; [done|]. intros k r Hr Hdead.
  destruct (greg_taint_iff Hpr p st r Hl) as ([] & Et & _).
  - apply (rk_zero _ _ _ Hk). exists k. by rewrite Z.add_0_l.
  - rewrite (greg_taint_same Hpr p st st' r Hl); [done|]. intros a Ha. apply (rk_mem _ _ _ Hk). intros r' (k' & _ & Et' & _) Ha'.
    rewrite (in_greg_unique _ _ _ _ _ Hl Ha' Ha) in Et'. rewrite Et in Et'. discriminate Et'.
Qed.

(** ** Where the handler does not do what it means to *)

(** In mixed mode without bounceback and single steps a trap that is no model is
    ignored: [istate] is still [RESUME], and the handler returns without interpreting
    anything.  Native execution meets the same poison again. *)
Theorem trap_ignored {AP : APIntOps} {CFG : Config} {PR : Process} {TG : Target} {R : Type} {EN : Environment R} fuel (s : Trap R) t :
  ex_state s = EXECUTION_STATE_new true false false -> abort_type (abort_status s) <> ABORT_TYPE.MODEL ->
  gregs_tainted (store s) = Ok t -> find_model (with_store (set_greg R14 0 (store s)) s) = None ->
  returns (klee_interp (S fuel) s) (fun s' => store s' = set_greg R14 0 (store s) /\ rest s' = rest s /\ istate (ex_state s') = RESUME).
Proof.
  intros Hex Hty Ht Hf. unfold klee_interp.
  assert (Hc : exists c, classify_and_count (with_trap_RIP (greg_u64 RIP (store s)) s) = c /\ type (abort_info c) = abort_type (abort_status s) /\
    ex_state c = EXECUTION_STATE_new true false false /\ store c = store s /\ rest c = rest s /\ cartridge_rip c = cartridge_rip s).
  { eexists. split; [reflexivity|]. unfold classify_and_count. cbn. rewrite (proj2 (Z.eqb_neq _ _)) by done. cbn. split_and!; try done. }
  destruct Hc as (c & -> & Htc & Hec & Hsc & Hrc & Hcc). rewrite Htc. unfold update_abort, refresh. rewrite Hec, Hsc.
  change (has (mode (EXECUTION_STATE_new true false false)) MIXED) with true. cbn iota. rewrite Ht. cbn [mbind result_bind].
  rewrite (proj2 (Z.eqb_neq _ _)) by done. cbn [mode EXECUTION_STATE_new].
  change (has _ SSTEP) with false. change (has _ BOUNCE) with false. rewrite andb_false_r. cbn [andb orb].
  set (e := {| istate := _ |}). replace (if _ || _ || _ then Ok _ else Ok _) with (Ok (with_ex e c)) by (by destruct (_ || _ || _)).
  cbn [mbind result_bind]. change (istate_is (ex_state (with_ex e c)) BOUNCEBACK) with false. cbn iota.
  unfold klee_interp_internal. cbn [internal_loop]. rewrite internal_step_eq. unfold entered.
  set (u := with_counters _ _ _ (with_counters _ _ _ _)).
  replace (find_model u) with (None (A := EXECUTION_STATE -> R -> Store -> result (Z * R * Store))).
  2:{ rewrite <- Hf. unfold find_model, u. cbn. by rewrite Hcc, Hsc. }
  rewrite andb_false_r. unfold dispatch. change (istate (ex_state u)) with RESUME. cbn [Z.eqb Pos.eqb RESUME PROHIB_RESUME mbind result_bind].
  apply returns_ok. cbn. by rewrite Hsc, Hrc.
Qed.

(** Of the displacement of [leaq disp(%rip), %r15] only the lowest byte is used. *)
Lemma leaq_low_byte cc : 0 <= cc < 2 ^ 64 -> leaq_offset cc 4 0 0 = Z.land (Z.shiftr cc 24) 0xff.
Proof.
  intros Hcc. cbn [leaq_offset]. change (u32 (Z.shiftl 0xff000000 (8 * 0))) with 0xff000000.
  change (u32 (Z.shiftl 0xff000000 (8 * (0 + 1)))) with 0. change (u32 (Z.shiftl 0xff000000 (8 * (0 + 1 + 1)))) with 0.
  change (u32 (Z.shiftl 0xff000000 (8 * (0 + 1 + 1 + 1)))) with 0. rewrite !Z.land_0_r, !Z.shiftr_0_l, !Z.lor_0_r, Z.lor_0_l.
  rewrite Z.shiftr_land. change (Z.shiftr 0xff000000 24) with 0xff.
  assert (Hb : 0 <= Z.land (Z.shiftr cc 24) 0xff < 256).
  { change 0xff with (Z.ones 8). rewrite Z.land_ones by lia. apply Z.mod_pos_bound. lia. }
  rewrite !(u32_small (Z.land (Z.shiftr cc 24) 0xff)) by lia. done.
Qed.
Example leaq_far_target : leaq_offset 0x9c_00_00_12_34_3d_8d_4c 4 0 0 = 0x34.
Proof. reflexivity. Qed.

(** What a model assigns to [ex_state] is lost. *)
Theorem model_state_lost {AP : APIntOps} {CFG : Config} {PR : Process} {TG : Target} {R : Type} {EN : Environment R} cc (s s' : Trap R) :
  istate (ex_state s) = MODEL -> dispatch cc s = Ok (Continue, s') ->
  istate (ex_state s') = if is_mixedMode (ex_state s) then RESUME else INTERP.
Proof.
  intros Hi. unfold dispatch. rewrite Hi. cbn [Z.eqb Pos.eqb MODEL PROHIB_RESUME RESUME].
  destruct (find_model s) as [fp|]; [|done]. destruct (fp _ _ _) as [[[o r] st]| |]; try done. by intros [= <-].
Qed.

(** ** Witnesses *)
Module SampleTarget.
Definition index (r : greg) : Z :=
  match r with
  | RAX => 0 | RBX => 1 | RCX => 2 | RDX => 3 | RSI => 4 | RDI => 5 | R8 => 6 | R9 => 7 | R10 => 8 | R11 => 9
  | R12 => 10 | R13 => 11 | R14 => 12 | RBP => 13 | RSP => 14 | RIP => 15 | EFL => 16
  end.
Definition head : Z := 0x2000.
Definition target : Target := {|
  target_ctx_gregs := 4096; GREG := index; TASE_NGREG := 17; TASE_GREG_SIZE := 8; TSX_XABORT := 0;
  TSX_XABORT_MASK := 0xff000000; cartridge_entry_points := fun a => a =? head; kill_flags := fun _ => false;
  cartridge_regstatus := fun a => if a =? 7 then Some (0, 2) else None; saved_rax := 0x9000; tranMaxArg := 16;
  taseDebug := true; TASEIVC := true |}.
Definition gregs_mo : MemoryObject := {| mo_address := 4096; mo_size := 136; isUserSpecified := false |}.
Definition registers : Store := {|
  heap := fun _ => blank gregs_mo 4096 None; space := bindObject gregs_mo 1 {| objects := Tree.Terminator |};
  world := SampleObject.world |}.
#[export] Existing Instances ZOps default_config SampleObject.process target.

(** A cartridge is interpreted by going to the next head. *)
Definition environment : Environment unit := {|
  tase_inject := fun _ r st => Ok (0, r, st);
  runCoreInterpreter := fun r st => Ok (r, set_greg RIP head st);
  fnModelMap := fun _ => None;
  forkOnPossibleRIPValues := fun _ _ r st => Ok (r, st);
  getNPossibleValues := fun r _ _ _ => Ok ([], r) |}.
#[export] Existing Instance environment.
Definition trap (ex : EXECUTION_STATE) (budget : Z) : Trap unit := {|
  ex_state := ex; abort_info := {| counts := {| unknown := 0; model := 0; poison := 0; other := 0 |}; type := 0; value := 0 |};
  abort_status := 0; tran_max := budget; init_trap_RIP := 0; cartridge_rip := 0; run_interp_traps := 0;
  run_interp_insts := 0; interpCtr := 0; rest := tt; store := registers |}.
Definition mixed : EXECUTION_STATE := EXECUTION_STATE_new true false true.
Definition is_ok {A} (m : result A) : bool := match m with Ok _ => true | _ => false end.

Lemma elements : Tree.elements (objects (space registers)) = [(gregs_mo, 1)].
Proof. reflexivity. Qed.

Lemma registers_ok : store_ok registers.
Proof.
  constructor; rewrite ?elements.
  - split.
    + split; [|split]; [vm_compute; repeat split; discriminate| |vm_compute; reflexivity].
      unfold Tree.bst. rewrite elements. repeat constructor.
    + rewrite elements. repeat constructor; vm_compute; done.
    + rewrite elements. repeat constructor.
  - intros mo p [= -> ->]%list_elem_of_singleton. constructor; try done.
    + apply all_concrete_ok; try done. intros i _. apply SampleObject.bytes.
    + constructor; [by constructor|]. intros k Hk. right. by split.
  - intros u v. by rewrite !list_elem_of_singleton; intros -> ->.
Qed.

Lemma registers_layout : layout (gregs_mo, 1) registers.
Proof.
  constructor; try done.
  - intros []; done.
  - intros [] []; done.
  - split; [rewrite elements; by apply list_elem_of_singleton|done].
Qed.

Lemma process_fine : process_ok.
Proof. split; [apply SampleStore2.process_ptrdiff|done]. Qed.
End SampleTarget.
Import SampleTarget.

Lemma resumes_concrete_witness :
  exists s', klee_interp 3 (trap mixed 1) = Ok s' /\ istate (ex_state s') <> INTERP.
Proof.
  assert (H : is_ok (klee_interp 3 (trap mixed 1)) = true) by (vm_compute; reflexivity).
  destruct (klee_interp 3 (trap mixed 1)) as [s'| |] eqn:E; [|discriminate H|discriminate H]. exists s'. split; [reflexivity|].
  destruct (resumes_concrete 3 (trap mixed 1) s' (new_mode_ok _ _ _) eq_refl E) as (_ & [(Hi & _)|(Hi & _)]); rewrite Hi; done.
Defined.

Lemma bounces_terminate_witness : exists s', bounces 1 1 (trap mixed 16) s' /\ 1 < Z.max 1 16.
Proof.
  assert (H : is_ok (klee_interp 1 (trap mixed 16)) = true) by (vm_compute; reflexivity).
  assert (Hb : match klee_interp 1 (trap mixed 16) with Ok s => istate (ex_state s) =? BOUNCEBACK | _ => false end = true)
    by (vm_compute; reflexivity).
  destruct (klee_interp 1 (trap mixed 16)) as [s1| |] eqn:E; [|discriminate H|discriminate H].
  assert (Hs : bounces 1 1 (trap mixed 16) (with_status 0 (with_process (rest s1) (store s1) s1))).
  { eapply bounces_again; [exact E|by apply Z.eqb_eq|reflexivity|apply bounces_none]. }
  eexists. split; [exact Hs|].
  apply (bounces_terminate 1 1 (trap mixed 16) _) in Hs; [exact Hs| |apply new_mode_ok|reflexivity|done|intros Hp; discriminate Hp].
  intros n r st status r' st' [= <- <- <-] Hp. discriminate Hp.
Defined.


Lemma interp_only_stays_witness : forall s', klee_interp 5 (trap (EXECUTION_STATE_new false false true) 16) <> Ok s'.
Proof. apply (interp_only_stays 5 (trap (EXECUTION_STATE_new false false true) 16) false true). reflexivity. Defined.

Lemma mixed_typed budget : 0 <= budget <= 15 -> trap_typed (trap mixed budget).
Proof.
  intros Hb. constructor.
  - unfold istates. rewrite !elem_of_cons. auto 10.
  - apply (new_mode_ok true false true).
  - vm_compute. split; [discriminate|reflexivity].
  - cbn [trap tran_max]. lia.
  - unfold is_int. cbn [trap abort_info counts unknown model poison other]. repeat constructor; lia.
  - unfold counters_typed, is_int. cbn. lia.
Qed.

Lemma handler_state_typed_witness :
  exists s', klee_interp 3 (trap mixed 15) = Ok s' /\ trap_typed s' /\ unknown (counts (abort_info s')) = 1.
Proof.
  destruct (handler_state_typed (R := unit)) as (_ & Htyped & Hret).
  destruct (Hret 3%nat (trap mixed 15) false) as (s' & E).
  - by apply mixed_typed.
  - reflexivity.
  - discriminate.
  - reflexivity.
  - vm_compute. reflexivity.
  - exists s'. split; [exact E|]. destruct (Htyped 3%nat (trap mixed 15) s') as (H1 & _ & _ & _ & H2 & _); [done|by apply mixed_typed|exact E|].
    split; [exact H1|exact H2].
Defined.

Lemma dead_registers_killed_witness :
  returns (killDeadRegs 7 registers) (fun st' => greg_tainted RAX st' = Ok false).
Proof.
  destruct (dead_registers_killed (gregs_mo, 1) registers 7 (0, 2) process_fine registers_ok registers_layout eq_refl) as (st' & E & _ & H).
  exists st'. split; [exact E|]. by apply (H 0%nat).
Defined.

(** A symbolic RAX is set to zero, a symbolic RBX, which is live, is kept. *)
Example kill_symbolic :
  (st ← tase_helper_write (greg_addr RAX) SampleStore2.value registers;
   st ← tase_helper_write (greg_addr RBX) SampleStore2.value st;
   st ← killDeadRegs 7 st; a ← greg_tainted RAX st; b ← greg_tainted RBX st; Ok (a, b, greg_u64 RAX st)) = Ok (false, true, 0).
Proof. vm_compute. reflexivity. Qed.

Lemma trap_ignored_witness : exists s', klee_interp 1 (trap (EXECUTION_STATE_new true false false) 16) = Ok s' /\
  store s' = set_greg R14 0 registers.
Proof.
  destruct (trap_ignored 0 (trap (EXECUTION_STATE_new true false false) 16) false) as (s' & E & Hs & _);
    [reflexivity|discriminate|vm_compute; reflexivity|reflexivity|]. exists s'. split; [exact E|exact Hs].
Defined.
