(* ===== verification/Canonical.v ===== *)
(** * Canonical: queries that do not depend on the names of arrays

    Models [klee/lib/Solver/CanonicalSolver.cpp].  [CanonicalVisitor] renames the
    symbolic arrays of a query, in the order it meets them, to arrays "c_<size>_<n>",
    so that the caches below recognise a query that differs from an earlier one only
    in its arrays.  [CanonicalSolver] is a layer of the chain (it keeps its arrays from
    one query to the next); [klee::canonicalize] renames with arrays of its own.

    The theorem is that a renamed query has the same answers, if no array of the query
    has the name of a canonical one; [merged_arrays] shows what happens otherwise. *)

From stdpp Require Import gmap pretty.
From S2P Require Import Prelude APInt ExprData Samples Bits ExprCompare ExprCreate ExprCreateSound ExprStructSound ExprVisitor UnionFind ArrayCache ExprUtil ExprWeight Rewriters Constraints ConstraintsSound Solver.
Local Open Scope Z_scope.

(** ** Canonical arrays *)

(** The references a [CanonicalVisitor] holds, and the array cache. *)
Record Canonical := {
  arrayIndexMap : list (Array * Z);
  sizeLRUMap : gmap Z Z;
  canonicalArrayMap : gmap Z (list Array);
  canonicalArraySet : list Array;
  array_cache : ACState;
}.

Class ArrayAllocator := {
  cheat_constraints : bool;        (* [useCheatCons] *)
  unset_element : nat;             (* [UFE_Cheat] of an array when it is not set *)
  array_address : ACState -> Z;    (* where the allocator puts a new [Array] *)
}.

Section canonical.
Context {AP : APIntOps} {CFG : Config} {AL : ArrayAllocator}.

Fixpoint index_find (l : list (Array * Z)) (a : Array) : option Z :=
  match l with [] => None | (b, i) :: l => if decide (a = b) then Some i else index_find l a end.
Definition arrays_of_size (sz : Z) (u : Canonical) : list Array := default [] (canonicalArrayMap u !! sz).

(** The canonical array for one that has none yet. *)
Definition new_canonical (root : Array) (u : Canonical) : result (Array * Canonical) :=
  let sz := arr_size root in
  let LRUIndex := default (-1) (sizeLRUMap u !! sz) in
  let remember array u :=
    (array, {| arrayIndexMap := (root, LRUIndex + 1) :: arrayIndexMap u;
               sizeLRUMap := <[sz := LRUIndex + 1]> (sizeLRUMap u);
               canonicalArrayMap := canonicalArrayMap u; canonicalArraySet := canonicalArraySet u;
               array_cache := array_cache u |}) in
  match arrays_of_size sz u !! Z.to_nat (LRUIndex + 1) with
  | Some array => Ok (remember array u)
  | None =>
      let arrayName := "c_" +:+ pretty (Z.to_N sz) +:+ "_" +:+ pretty (N.of_nat (length (arrays_of_size sz u)) + 1)%N in
      '(array, cache) ← CreateArray cheat_constraints unset_element (array_address (array_cache u)) arrayName sz [] Int32 Int8 (array_cache u);
      Ok (remember array
            {| arrayIndexMap := arrayIndexMap u; sizeLRUMap := sizeLRUMap u;
               canonicalArrayMap := <[sz := arrays_of_size sz u ++ [array]]> (canonicalArrayMap u);
               canonicalArraySet := array :: canonicalArraySet u; array_cache := cache |})
  end.

Definition canonical_array (root : Array) : M Canonical Array := fun s =>
  if isConstantArray root then Ok (root, s)
  else match index_find (arrayIndexMap (snd s)) root with
       | Some i => match arrays_of_size (arr_size root) (snd s) !! Z.to_nat i with Some a => Ok (a, s) | None => AssertFail end
       | None => '(a, u) ← new_canonical root (snd s); Ok (a, (fst s, u))
       end.

(** The writes in the order they were made. *)
Fixpoint rebuild_updates (visit : expr -> M Canonical expr) (ws : list (expr * expr)) (ul : UpdateList) : M Canonical UpdateList :=
  match ws with
  | [] => mret ul
  | (i, v) :: ws =>
      i ← visit i; v ← visit v; ul ← lift (UpdateList_extend ul i v); rebuild_updates visit ws ul
  end.
Fixpoint node_writes (un : UpdateNode) : list (expr * expr) :=
  match un with NullNode => [] | Node next i v => node_writes next ++ [(i, v)] end.

Definition canonical_visitRead (visit : expr -> M Canonical expr) (root : Array) (un : UpdateNode) (index : expr)
    : M Canonical Action := fun s =>
  if bool_decide (root ∈ canonicalArraySet (snd s)) then Ok (DoChildren, s)
  else
    (array ← canonical_array root;
     updates ← rebuild_updates visit (node_writes un) {| ul_root := array; ul_head := NullNode |};
     index ← visit index;
     r ← lift (ReadExpr_create updates index);
     mret (ChangeTo r)) s.

Definition CanonicalVisitor : ExprVisitor Canonical := {|
  recursive := true;
  visitExpr := base_visitExpr;
  visitKind := fun k visit e => match e with ReadExpr root un index => canonical_visitRead visit root un index | _ => mret DoChildren end;
  visitExprPost := base_visitExprPost;
|}.

Fixpoint visit_all (fuel : nat) (es : list expr) : M Canonical (list expr) :=
  match es with
  | [] => mret []
  | e :: es => e ← visit CanonicalVisitor fuel e; es ← visit_all fuel es; mret (e :: es)
  end.

(** [CanonicalSolver::canonicalize] and [Canonicalizer::canonicalize]: the maps of the
    object are kept, those of the visitor are new. *)
Definition canonicalize_with (fuel : nat) (e : expr) (cons : list expr) (arrays : gmap Z (list Array)) (set : list Array) (cache : ACState)
    : result (expr * list expr * Canonical) :=
  let u := {| arrayIndexMap := []; sizeLRUMap := ∅; canonicalArrayMap := arrays; canonicalArraySet := set; array_cache := cache |} in
  '(e, s) ← visit CanonicalVisitor fuel e ([], u);
  '(cons, s) ← visit_all fuel cons s;
  Ok (e, cons, snd s).

(** [klee::canonicalize]: a new [Canonicalizer] for every call. *)
Definition canonicalize (fuel : nat) (e : expr) (cons : list expr) (cache : ACState) : result (expr * list expr * ACState) :=
  '(e, cons', u) ← canonicalize_with fuel e cons ∅ [] cache;
  Ok (e, cons', array_cache u).
End canonical.

(** ** CanonicalSolver *)
Record CanonicalState (St : Type) := {
  cs_map : gmap Z (list Array);       (* canonicalArrayMap *)
  cs_set : list Array;                (* canonicalArraySet *)
  cs_arrays : ACState;                (* the array cache of the executor *)
  cs_inner : St;                      (* solver->impl *)
}.
Arguments cs_map {St}.
Arguments cs_set {St}.
Arguments cs_arrays {St}.
Arguments cs_inner {St}.

Module CanonicalSolver.
Section solver.
Context {AP : APIntOps} {CFG : Config} {AL : ArrayAllocator} {St : Type} {SI : SolverImpl St}.
Variable fuel : nat.

Definition canonicalQuery (q : Query) (s : CanonicalState St) : result (Query * Canonical) :=
  '(e, cons', u) ← canonicalize_with fuel (q_expr q) (q_constraints q) (cs_map s) (cs_set s) (cs_arrays s);
  Ok ({| q_constraints := cons'; q_expr := e |}, u).
Definition leave (u : Canonical) (inner : St) : CanonicalState St :=
  {| cs_map := canonicalArrayMap u; cs_set := canonicalArraySet u; cs_arrays := array_cache u; cs_inner := inner |}.

(** A call of the solver below with the renamed query. *)
Definition renamed {A} (call : Query -> St -> result (A * St)) (q : Query) (s : CanonicalState St) : result (A * CanonicalState St) :=
  '(q', u) ← canonicalQuery q s;
  '(r, inner) ← call q' (cs_inner s);
  Ok (r, leave u inner).

Definition computeValidity := renamed Solver.computeValidity.
Definition computeTruth := renamed Solver.computeTruth.
Definition computeValue := renamed Solver.computeValue.
Definition computeInitialValues (q : Query) (objects : list Array) (s : CanonicalState St) : result (option (list (list Z) * bool) * CanonicalState St) :=
  '(r, inner) ← Solver.computeInitialValues q objects (cs_inner s);
  Ok (r, {| cs_map := cs_map s; cs_set := cs_set s; cs_arrays := cs_arrays s; cs_inner := inner |}).
#[export] Instance impl : SolverImpl (CanonicalState St) := {|
  Solver.computeTruth := computeTruth; Solver.computeValidity := computeValidity; Solver.computeValue := computeValue;
  Solver.computeInitialValues := computeInitialValues |}.
End solver.
End CanonicalSolver.

(** ** Arrays *)
Section arrays.
Definition canonical_name (s : string) : bool := String.prefix "c_" s.

(** The name of the canonical array [k] of a size. *)
Definition cname (sz : Z) (k : nat) : string := "c_" +:+ pretty (Z.to_N sz) +:+ "_" +:+ pretty (N.of_nat k + 1)%N.

Lemma cname_canonical sz k : canonical_name (cname sz k) = true.
Proof. unfold canonical_name, cname. generalize (pretty (Z.to_N sz) +:+ "_" +:+ pretty (N.of_nat k + 1)%N). by intros []. Qed.

Lemma cname_inj sz j k : cname sz j = cname sz k -> j = k.
Proof. unfold cname. intros H. do 3 apply (inj _) in H. apply (inj pretty) in H. lia. Qed.

(** The arrays the program under test makes symbolic: bytes, indexed by words. *)
Definition bytes_array (a : Array) : Prop := isSymbolicArray a = true /\ wf_array a /\ domain a = Int32 /\ range a = Int8.
Definition foreign_array (a : Array) : Prop := bytes_array a /\ canonical_name (name a) = false.
Definition canonical_ok (c : Array) : Prop := bytes_array c /\ canonical_name (name c) = true.

Lemma foreign_not_canonical a : foreign_array a -> canonical_ok a -> False.
Proof. intros [_ H] [_ H']. congruence. Qed.

(** The cache has its invariant, and what it holds under canonical names is canonical. *)
Record cache_ok (st : ACState) : Prop := {
  co_inv : ac_inv st;
  co_canonical a : a ∈ cachedSymbolicArrays st -> canonical_name (name a) = true -> bytes_array a;
}.

(** The allocator returns memory that is not in use. *)
Class FreshAllocator {AL : ArrayAllocator} : Prop := {
  fa_cheat : cheat_constraints = true;
  fa_uf st : ac_inv st -> fresh_addr (array_address st) (ac_uf st);
  fa_cheat_uf st : ac_inv st -> fresh_addr (array_address st) (ac_uf_cheat st);
}.

Lemma create_canonical {AL : ArrayAllocator} {FA : FreshAllocator} nm sz st :
  cache_ok st -> canonical_name nm = true -> 0 <= sz < 2 ^ 32 ->
  returns (CreateArray cheat_constraints unset_element (array_address st) nm sz [] Int32 Int8 st) (fun p =>
    cache_ok p.2 /\ bytes_array p.1 /\ name p.1 = nm /\ arr_size p.1 = sz).
Proof.
  intros [Hst Hcan] Hnm Hsz. rewrite fa_cheat.
  destruct (list_find (fun b => name b = nm /\ arr_size b = sz) (cachedSymbolicArrays st)) as [[i c]|] eqn:E.
  - apply list_find_Some in E as (Hi & [En Es] & _). apply list_elem_of_lookup_2 in Hi.
    rewrite (CreateArray_hit _ nm sz Int32 Int8 _ st c Hst (fa_uf st Hst) (fa_cheat_uf st Hst) Hi En Es).
    apply returns_ok. cbn. split_and!; try done. apply Hcan; [done|by rewrite En].
  - apply list_find_None in E.
    destruct (CreateArray_miss (array_address st) nm sz Int32 Int8 unset_element st Hst E)
      as (a & st' & -> & Hst' & Ec & _ & Hn & Hs & Hd & Hr & Hsym).
    assert (Hb : bytes_array a).
    { split_and!; try done. unfold wf_array. rewrite Hd, Hr, Hs. unfold isSymbolicArray in Hsym. unfold Int32, Int8.
      split_and!; try lia. left. by destruct (constantValues a). }
    apply returns_ok. cbn. split_and!; try done. split; [done|]. rewrite Ec. intros x [Hx| ->%list_elem_of_singleton]%elem_of_app; auto.
Qed.
End arrays.

(** ** Expressions over a set of arrays *)
Section over.
Context {CFG : Config}.

(** Counts the reads of arrays that are not in the set. *)
Definition wset (S : list Array) (a : Array) : nat := if bool_decide (a ∈ S) then 0 else 1.
Definition over (S : list Array) (e : expr) : Prop := wt 0 0 0 (wset S) e = 0%nat.
Definition over_node (S : list Array) (un : UpdateNode) : Prop := wt_node 0 0 0 (wset S) un = 0%nat.

#[export] Instance over_dec S e : Decision (over S e) := decide (_ = 0%nat).

Lemma wset_0 S a : wset S a = 0%nat <-> a ∈ S.
Proof. unfold wset. case_bool_decide; by split. Qed.

Lemma over_mono_mut S S' : S ⊆ S' -> (forall e, over S e -> over S' e) /\ (forall un, over_node S un -> over_node S' un).
Proof.
  intros HS. enough ((forall e, wt 0 0 0 (wset S') e <= wt 0 0 0 (wset S) e) /\
    (forall un, wt_node 0 0 0 (wset S') un <= wt_node 0 0 0 (wset S) un))%nat as [H1 H2].
  { unfold over, over_node. split; [intros e He; specialize (H1 e)|intros un Hu; specialize (H2 un)]; lia. }
  assert (Ha : forall a, (wset S' a <= wset S a)%nat).
  { intros a. unfold wset. repeat case_bool_decide; try lia. exfalso; auto. }
  apply expr_node_ind; intros; simpl; try lia; match goal with |- context [wset S ?r] => specialize (Ha r) end; lia.
Qed.

Lemma over_mono S S' : S ⊆ S' -> forall e, over S e -> over S' e.
Proof. intros H. apply (over_mono_mut S S' H). Qed.

Lemma over_kids S e : over S e -> Forall (over S) (kids e).
Proof.
  unfold over. intros H. pose proof (wt_own 0 0 0 (wset S) e) as Ho.
  assert (Hk : wts 0 0 0 (wset S) (kids e) = 0%nat) by lia. clear H Ho. induction (kids e); [constructor|]. cbn [wts foldr] in Hk.
  constructor; [lia|]. apply IHl. unfold wts. lia.
Qed.

Lemma over_wts S ks : Forall (over S) ks -> wts 0 0 0 (wset S) ks = 0%nat.
Proof. induction 1 as [|k ks Hk HF IH]; [done|]. cbn [wts foldr]. unfold over in Hk. unfold wts in IH. lia. Qed.

Lemma over_of_kids S e : (forall root un i, e <> ReadExpr root un i) -> Forall (over S) (kids e) -> over S e.
Proof.
  intros Hr H%over_wts. unfold over. destruct e; simpl in *; try lia; [by destruct (Hr _ _ _ eq_refl)|]. destruct (zero_divisor _ _); lia.
Qed.

(** Environments that agree on the arrays give the same value. *)
Lemma eval_over S rho rho' : Forall (fun a => isSymbolicArray a = true) S -> (forall a i, a ∈ S -> rho a i = rho' a i) ->
  forall e, over S e -> eval rho e = eval rho' e.
Proof.
  intros HS Hag. rewrite Forall_forall in HS. unfold over.
  enough ((forall e, wt 0 0 0 (wset S) e = 0%nat -> eval rho e = eval rho' e) /\
    (forall un, wt_node 0 0 0 (wset S) un = 0%nat -> forall root i, root ∈ S -> eval_node rho root un i = eval_node rho' root un i)) as [H _] by exact H.
  apply expr_node_ind; intros; simpl in *;
    repeat match goal with IH : ?P = 0%nat -> eval _ _ = _ |- _ => rewrite IH by lia; clear IH end; try done.
  - destruct (eval rho' index) as [i|]; [|done]. cbn [mbind option_bind]. apply H; [lia|]. apply wset_0. lia.
  - unfold initial. rewrite HS by done. by rewrite Hag.
  - destruct (eval rho' index) as [j|]; [|done]. cbn [mbind option_bind]. case_match; [done|]. apply H; [lia|done].
Qed.
End over.

(** ** The renaming *)
Section renaming.
Context {AL : ArrayAllocator} {FA : FreshAllocator}.

(** The canonical array of an array, if it has one. *)
Definition canon (u : Canonical) (a : Array) : option Array :=
  i ← index_find (arrayIndexMap u) a; arrays_of_size (arr_size a) u !! Z.to_nat i.
Definition lru (u : Canonical) (sz : Z) : Z := default (-1) (sizeLRUMap u !! sz).

(** What the maps promise. *)
Record canon_inv (u : Canonical) : Prop := {
  ci_cache : cache_ok (array_cache u);
  ci_set : Forall canonical_ok (canonicalArraySet u);
  ci_map sz k c : arrays_of_size sz u !! k = Some c -> c ∈ canonicalArraySet u /\ arr_size c = sz /\ name c = cname sz k;
  ci_index a i : index_find (arrayIndexMap u) a = Some i -> foreign_array a /\ 0 <= i <= lru u (arr_size a);
  ci_lru sz : -1 <= lru u sz < Z.of_nat (length (arrays_of_size sz u));
  ci_inj a b i : index_find (arrayIndexMap u) a = Some i -> index_find (arrayIndexMap u) b = Some i -> arr_size a = arr_size b -> a = b;
}.

(** Later maps keep what was renamed. *)
Record extends (u u' : Canonical) : Prop := {
  ex_set : canonicalArraySet u ⊆ canonicalArraySet u';
  ex_canon a c : canon u a = Some c -> canon u' a = Some c;
}.
#[export] Instance extends_preorder : PreOrder extends.
Proof. split; [by split|]. intros u v w [H1 H2] [H3 H4]. split; [by etrans|auto]. Qed.

Lemma canon_ok u a c : canon_inv u -> canon u a = Some c ->
  foreign_array a /\ c ∈ canonicalArraySet u /\ canonical_ok c /\ arr_size c = arr_size a.
Proof.
  intros Hu H. unfold canon in H. destruct (index_find _ a) as [i|] eqn:Ei; [|done]. cbn [mbind option_bind] in H.
  apply (ci_index u Hu) in Ei as [Ha _]. apply (ci_map u Hu) in H as (Hc & Hs & _).
  split_and!; try done. pose proof (ci_set u Hu) as Hset. rewrite Forall_forall in Hset. auto.
Qed.

(** Different arrays have different canonical arrays. *)
Lemma canon_inj u a b c : canon_inv u -> canon u a = Some c -> canon u b = Some c -> a = b.
Proof.
  intros Hu Ha Hb. pose proof (canon_ok u a c Hu Ha) as (_ & _ & _ & Sa). pose proof (canon_ok u b c Hu Hb) as (_ & _ & _ & Sb).
  unfold canon in Ha, Hb. destruct (index_find _ a) as [i|] eqn:Ei; [|done]. destruct (index_find _ b) as [j|] eqn:Ej; [|done].
  cbn [mbind option_bind] in Ha, Hb. rewrite <- Sa in Ha. rewrite <- Sb in Hb.
  apply (ci_map u Hu) in Ha as (_ & _ & Na). apply (ci_map u Hu) in Hb as (_ & _ & Nb).
  assert (Z.to_nat i = Z.to_nat j) as Hij by (apply (cname_inj (arr_size c)); congruence).
  pose proof (ci_index u Hu _ _ Ei) as [_ ?]. pose proof (ci_index u Hu _ _ Ej) as [_ ?].
  assert (i = j) as -> by lia. eapply (ci_inj u Hu); [exact Ei|exact Ej|congruence].
Qed.

Lemma index_find_cons a i l b : index_find ((a, i) :: l) b = if decide (b = a) then Some i else index_find l b.
Proof. done. Qed.

(** Giving [root] the next array of its size, once there is one. *)
Definition remembered (root : Array) (u : Canonical) : Canonical :=
  {| arrayIndexMap := (root, lru u (arr_size root) + 1) :: arrayIndexMap u;
     sizeLRUMap := <[arr_size root := lru u (arr_size root) + 1]> (sizeLRUMap u);
     canonicalArrayMap := canonicalArrayMap u; canonicalArraySet := canonicalArraySet u; array_cache := array_cache u |}.

Lemma remembered_ok root u c : canon_inv u -> foreign_array root -> index_find (arrayIndexMap u) root = None ->
  arrays_of_size (arr_size root) u !! Z.to_nat (lru u (arr_size root) + 1) = Some c ->
  canon_inv (remembered root u) /\ extends u (remembered root u) /\ canon (remembered root u) root = Some c.
Proof.
  intros Hu Hr Hi Hc. pose proof (lookup_lt_Some _ _ _ Hc) as Hlt. pose proof (ci_lru u Hu (arr_size root)) as Hl.
  assert (El : forall sz, lru (remembered root u) sz = if decide (sz = arr_size root) then lru u (arr_size root) + 1 else lru u sz).
  { intros sz. unfold lru at 1. cbn [remembered sizeLRUMap]. case_decide as E; [subst; by rewrite lookup_insert_eq|by rewrite lookup_insert_ne]. }
  split_and!; [|split; [done|]|].
  - destruct Hu as [H1 H2 H3 H4 H5 H6]. split; try done.
    + cbn [remembered arrayIndexMap]. intros a i. rewrite index_find_cons, El. case_decide as E.
      * intros [= <-]. subst. rewrite decide_True by done. split; [done|lia].
      * intros H. apply H4 in H as [Ha Hia]. split; [done|]. case_decide as E'; [rewrite <- E'; lia|lia].
    + intros sz. rewrite El. change (arrays_of_size sz (remembered root u)) with (arrays_of_size sz u). case_decide; [subst; lia|apply H5].
    + cbn [remembered arrayIndexMap]. intros a b i. rewrite !index_find_cons. do 2 case_decide; subst; try done.
      * intros [= <-] Hb E. apply H4 in Hb as [_ Hb]. rewrite <- E in Hb. lia.
      * intros Ha [= <-] E. apply H4 in Ha as [_ Ha]. rewrite E in Ha. lia.
      * by apply H6.
  - intros a c'. unfold canon. cbn [remembered arrayIndexMap]. rewrite index_find_cons. case_decide as E; [subst; by rewrite Hi|done].
  - unfold canon. cbn [remembered arrayIndexMap]. rewrite index_find_cons, decide_True by done. exact Hc.
Qed.

(** The maps with a new array of a size. *)
Definition grown (sz : Z) (a : Array) (cache : ACState) (u : Canonical) : Canonical :=
  {| arrayIndexMap := arrayIndexMap u; sizeLRUMap := sizeLRUMap u;
     canonicalArrayMap := <[sz := arrays_of_size sz u ++ [a]]> (canonicalArrayMap u);
     canonicalArraySet := a :: canonicalArraySet u; array_cache := cache |}.

Lemma grow_ok sz a cache u : canon_inv u -> cache_ok cache -> bytes_array a -> arr_size a = sz ->
  name a = cname sz (length (arrays_of_size sz u)) ->
  canon_inv (grown sz a cache u) /\ extends u (grown sz a cache u) /\
  arrays_of_size sz (grown sz a cache u) !! length (arrays_of_size sz u) = Some a.
Proof.
  intros Hu Hcache Hb Hs Hn.
  assert (Ea : forall s, arrays_of_size s (grown sz a cache u) = if decide (s = sz) then arrays_of_size sz u ++ [a] else arrays_of_size s u).
  { intros s. unfold arrays_of_size at 1. cbn [grown canonicalArrayMap]. case_decide as E; [subst; by rewrite lookup_insert_eq|by rewrite lookup_insert_ne]. }
  assert (Hp : forall s k c, arrays_of_size s u !! k = Some c -> arrays_of_size s (grown sz a cache u) !! k = Some c).
  { intros s k c H. rewrite Ea. case_decide; [subst; by apply lookup_app_l_Some|done]. }
  destruct Hu as [H1 H2 H3 H4 H5 H6]. split_and!.
  - split; try done.
    + constructor; [|done]. split; [done|]. rewrite Hn. apply cname_canonical.
    + intros s k c. rewrite Ea. cbn [grown canonicalArraySet]. case_decide as E.
      * subst s. intros [H|[Hk H]]%lookup_app_Some.
        { apply H3 in H as (? & ? & ?). split_and!; [by right|done|done]. }
        apply list_lookup_singleton_Some in H as [Hk0 <-]. split_and!; [by left|done|]. rewrite Hn. f_equal. lia.
      * intros H%H3. destruct H as (? & ? & ?). split_and!; [by right|done|done].
    + intros s. change (lru (grown sz a cache u) s) with (lru u s). pose proof (H5 s). rewrite Ea. case_decide; [subst s; rewrite length_app; simpl; lia|lia].
  - split; [intros x Hx; by right|]. intros x c. unfold canon. cbn [grown arrayIndexMap]. destruct (index_find _ x); [|done].
    cbn [mbind option_bind]. apply Hp.
  - rewrite Ea, decide_True by done. apply list_lookup_middle. done.
Qed.

Lemma new_canonical_ok root u : canon_inv u -> foreign_array root -> index_find (arrayIndexMap u) root = None ->
  exists c u', new_canonical root u = Ok (c, u') /\ canon_inv u' /\ extends u u' /\ canon u' root = Some c.
Proof.
  intros Hu Hr Hi. unfold new_canonical. fold (lru u (arr_size root)). pose proof (ci_lru u Hu (arr_size root)) as Hl.
  destruct (arrays_of_size (arr_size root) u !! Z.to_nat (lru u (arr_size root) + 1)) as [c|] eqn:Ec.
  - destruct (remembered_ok root u c Hu Hr Hi Ec) as (? & ? & ?). by eexists c, _.
  - apply lookup_ge_None in Ec. set (k := length (arrays_of_size (arr_size root) u)).
    destruct (create_canonical (cname (arr_size root) k) (arr_size root) (array_cache u)) as ([a cache] & E & Hcache & Hb & Hn & Hs).
    { apply Hu. } { apply cname_canonical. } { apply Hr. }
    unfold cname in E. rewrite E. cbn [mbind result_bind]. cbn [fst snd] in *.
    destruct (grow_ok (arr_size root) a cache u Hu Hcache Hb Hs Hn) as (Hg & Hx & Hk).
    destruct (remembered_ok root (grown (arr_size root) a cache u) a Hg Hr Hi) as (H1 & H2 & H3).
    { change (lru (grown (arr_size root) a cache u)) with (lru u). replace (Z.to_nat (lru u (arr_size root) + 1)) with k by (unfold k; lia). exact Hk. }
    eexists a, _. split; [reflexivity|]. split; [exact H1|]. split; [by etrans|exact H3].
Qed.

Lemma canonical_array_total root s : canon_inv (snd s) -> foreign_array root ->
  exists c u', canonical_array root s = Ok (c, (fst s, u')) /\ canon_inv u' /\ extends (snd s) u' /\ canon u' root = Some c.
Proof.
  intros Hu Hr. unfold canonical_array, isConstantArray. pose proof Hr as [(-> & _) _]. cbn [negb].
  destruct (index_find (arrayIndexMap (snd s)) root) as [i|] eqn:Ei.
  - destruct (ci_index _ Hu _ _ Ei) as [_ Hi]. pose proof (ci_lru _ Hu (arr_size root)).
    destruct (lookup_lt_is_Some_2 (arrays_of_size (arr_size root) (snd s)) (Z.to_nat i)) as [c Hc]; [lia|]. rewrite Hc.
    exists c, (snd s). destruct s; split_and!; try done. unfold canon. cbn [snd] in *. by rewrite Ei.
  - destruct (new_canonical_ok root (snd s) Hu Hr Ei) as (c & u' & -> & H). by exists c, u'.
Qed.
End renaming.

(** ** What the visitor maintains *)
Section visiting.
Context {AP : APIntOps} {SP : APIntSpec AP} {CFG : Config} {AL : ArrayAllocator} {FA : FreshAllocator}.
Hypothesis Hopt : ConstArrayOpt = false.

(** The arrays of the query are foreign, and each of its parts always has a value. *)
Fixpoint renamable (e : expr) : Prop :=
  (forall rho, has_value rho e) /\
  match e with
  | ConstantExpr _ => True
  | ReadExpr root un i => foreign_array root /\ renamable_node un /\ renamable i
  | NotOptimizedExpr e | ExtractExpr e _ _ | ZExtExpr e _ | SExtExpr e _ | NotExpr e => renamable e
  | SelectExpr c t f => renamable c /\ renamable t /\ renamable f
  | ConcatExpr l r | BinExpr _ l r => renamable l /\ renamable r
  end
with renamable_node (un : UpdateNode) : Prop :=
  match un with
  | NullNode => True
  | Node next i v => renamable_node next /\ renamable i /\ renamable v
  end.

Lemma renamable_value rho e : renamable e -> has_value rho e.
Proof. destruct e; simpl; intros [H _]; apply H. Qed.

Lemma renamable_kids e : renamable e -> Forall renamable (kids e).
Proof. destruct e; simpl; intros [_ H]; destruct_and?; by rewrite ?Forall_cons, ?Forall_nil. Qed.

(** [tau] has the same bytes for an array and its canonical array, and [tau'] those
    of [tau] for the canonical arrays. *)
Definition linked (u : Canonical) (tau tau' : env) : Prop :=
  (forall a c i, canon u a = Some c -> tau c i = tau a i) /\ (forall c i, c ∈ canonicalArraySet u -> tau' c i = tau c i).

(** [r] is [e] over canonical arrays. *)
Record stands (u : Canonical) (e r : expr) : Prop := {
  sd_wf : wf r;
  sd_width : getWidth r = getWidth e;
  sd_over : over (canonicalArraySet u) r;
  sd_eval tau tau' v : linked u tau tau' -> eval tau e = Some v -> eval tau' r = Some v;
}.

Lemma linked_mono u u' tau tau' : extends u u' -> linked u' tau tau' -> linked u tau tau'.
Proof. intros [Hs Hc] [H1 H2]. split; [eauto|]. intros c i Hi. apply H2. by apply Hs. Qed.

Lemma linked_self u tau tau' : linked u tau tau' -> linked u tau tau.
Proof. by intros [H _]. Qed.

Lemma stands_mono u u' e r : extends u u' -> stands u e r -> stands u' e r.
Proof.
  intros Hx [H1 H2 H3 H4]. split; try done; [eapply over_mono; [apply Hx|done]|].
  intros tau tau' v Hl. apply H4. by eapply linked_mono.
Qed.

Lemma set_symbolic u : canon_inv u -> Forall (fun a => isSymbolicArray a = true) (canonicalArraySet u).
Proof. intros Hu. eapply Forall_impl; [apply Hu|]. by intros a [[? _] _]. Qed.

(** What is already canonical stands for itself. *)
Lemma stands_fixed u e : canon_inv u -> wf e -> over (canonicalArraySet u) e -> stands u e e.
Proof.
  intros Hu He Ho. split; try done. intros tau tau' v [_ Hl] <-. symmetry.
  apply (eval_over (canonicalArraySet u)); [by apply set_symbolic| |done]. intros a i Ha. symmetry. by apply Hl.
Qed.

Lemma stands_over u ks ks' : Forall2 (stands u) ks ks' -> Forall (over (canonicalArraySet u)) ks'.
Proof. induction 1 as [|? ? ? ? []]; by constructor. Qed.

(** An expression that is both foreign and canonical has no arrays. *)
Lemma foreign_over u e : canon_inv u -> renamable e -> over (canonicalArraySet u) e -> over [] e.
Proof.
  intros Hu. pose proof (ci_set u Hu) as Hs. rewrite Forall_forall in Hs. unfold over. revert e.
  enough ((forall e, renamable e -> wt 0 0 0 (wset (canonicalArraySet u)) e = 0%nat -> wt 0 0 0 (wset []) e = 0%nat) /\
    (forall un, renamable_node un -> wt_node 0 0 0 (wset (canonicalArraySet u)) un = 0%nat -> wt_node 0 0 0 (wset []) un = 0%nat)) as [H _] by exact H.
  apply expr_node_ind; intros; simpl in *; destruct_and?; try done;
    repeat match goal with IH : ?R -> ?P = 0%nat -> _ = 0%nat, Hr : ?R |- _ => specialize (IH Hr ltac:(lia)) end; try lia.
  exfalso. eapply foreign_not_canonical; [done|]. apply Hs, wset_0. lia.
Qed.

(** The memo table: foreign expressions with what stands for them, and canonical ones. *)
Definition entry (u : Canonical) (p : expr * expr) : Prop :=
  wf p.1 /\ (renamable p.1 /\ stands u p.1 p.2 /\ (over [] p.1 -> p.2 = p.1) \/ over (canonicalArraySet u) p.1 /\ p.2 = p.1).
Definition sok (s : visited_ty * Canonical) : Prop := canon_inv (snd s) /\ Forall (entry (snd s)) (fst s).

Lemma entry_mono u u' p : extends u u' -> entry u p -> entry u' p.
Proof.
  intros Hx [Hw [(H1 & H2 & H3)|[H1 H2]]]; (split; [done|]); [left|right].
  - split_and!; try done. by eapply stands_mono.
  - split; [|done]. eapply over_mono; [apply Hx|done].
Qed.

Lemma sok_extend t u u' : sok (t, u) -> canon_inv u' -> extends u u' -> sok (t, u').
Proof. intros [_ H] Hu Hx. split; [done|]. eapply Forall_impl; [exact H|]. intros p. by apply entry_mono. Qed.

Lemma entry_found s e r : sok s -> wf e -> visited_find (fst s) e = Some r -> entry (snd s) (e, r).
Proof.
  intros [_ H] He. induction H as [|[k x] t [Hk Hx] Ht IH]; simpl; [done|].
  destruct (expr_eqb k e) eqn:E; [|done]. intros [= <-]. apply expr_eqb_eq in E; [subst; by split|done..].
Qed.

Lemma sok_insert t u e r : sok (t, u) -> entry u (e, r) -> sok (visited_insert t e r, u).
Proof. intros [Hu H] He. split; [done|]. unfold visited_insert. cbn [fst snd]. case_match; [done|]. by constructor. Qed.

Abbreviation V := CanonicalVisitor.

(** Memoisation, for either kind of expression. *)
Lemma memo_settles e s (P : expr -> Canonical -> Prop) :
  wf e -> sok s ->
  settles False (fun n => visitActual V (visit V n) e s) (fun p => P p.1 (snd p.2) /\ sok p.2 /\ extends (snd s) (snd p.2)) ->
  (forall r, entry (snd s) (e, r) -> P r (snd s)) -> (forall r u, canon_inv u -> extends (snd s) u -> P r u -> entry u (e, r)) ->
  settles False (fun n => visit V n e s) (fun p => P p.1 (snd p.2) /\ sok p.2 /\ extends (snd s) (snd p.2)).
Proof.
  intros He Hs HA Hhit Hins. eapply settles_S; [reflexivity|]. cbn [visit]. unfold visit'.
  destruct (negb UseVisitorHash || isConst e); [exact HA|]. destruct (visited_find (fst s) e) as [r|] eqn:Hf.
  { apply settles_const, runs_ok. cbn. split_and!; [|done|done]. apply Hhit. by apply entry_found. }
  destruct HA as (r & n & Hn & Hr). destruct Hr as [([x [t u]] & -> & Hx & Hm & HJ)|[[[] _]|[[] _]]].
  eexists _, n. split; [intros j Hj; unfold visit'; rewrite (Hn j Hj); reflexivity|]. apply runs_ok. cbn in *.
  split_and!; [done| |done]. apply sok_insert; [done|]. apply Hins; [apply Hm|done|done].
Qed.

(** ** Expressions that are canonical stay as they are *)
Definition stays (s : visited_ty * Canonical) (e : expr) (p : expr * (visited_ty * Canonical)) : Prop :=
  (p.1 = e /\ snd p.2 = snd s) /\ sok p.2 /\ extends (snd s) (snd p.2).
Definition fixed_spec (e : expr) : Prop :=
  forall s, sok s -> over (canonicalArraySet (snd s)) e -> settles False (fun n => visit V n e s) (stays s e).

Lemma do_children s (f : nat -> result (Action * (visited_ty * Canonical))) :
  (forall n, f n = Ok (DoChildren, s)) -> settles False f (fun p => p = (DoChildren, s)).
Proof. intros H. apply (settles_at False _ (Ok (DoChildren, s))); [done|]. by apply runs_ok. Qed.

Lemma fixed_kids ks : Forall (fun k => wf k /\ fixed_spec k) ks -> forall s, sok s -> Forall (over (canonicalArraySet (snd s))) ks ->
  settles False (fun n => visit_kids (visit V n) ks s) (fun p => (p.1 = (ks, false) /\ snd p.2 = snd s) /\ sok p.2).
Proof.
  induction 1 as [|k ks [Wk Hk] HF IH]; intros s Hs Ho; cbn [visit_kids].
  { by apply settles_const, runs_ok. }
  apply Forall_cons in Ho as [Ho1 Ho2].
  eapply settles_M_bind; [by apply Hk|]. intros k' s1 [[E1 E2] [Hs1 _]]. cbn [fst snd] in E1, E2, Hs1. subst k'.
  eapply settles_M_bind; [apply IH; [done|by rewrite E2]|]. intros [ks' ch] s2 [[E3 E4] Hs2]. cbn [fst snd] in E3, E4. injection E3 as -> ->.
  apply settles_const, runs_ok. cbn. rewrite (proj2 (expr_eqb_spec k k Wk Wk) eq_refl). cbn. split_and!; [done|congruence|done].
Qed.

Lemma visitKind_over n e s : over (canonicalArraySet (snd s)) e -> visitKind V (getKind e) (visit V n) e s = Ok (DoChildren, s).
Proof.
  intros Ho. destruct e; try done. cbn [visitKind V]. unfold canonical_visitRead. rewrite bool_decide_eq_true_2; [done|].
  unfold over in Ho. simpl in Ho. apply wset_0. lia.
Qed.

Lemma fixed k : forall e, (vsize e <= k)%nat -> wf e -> fixed_spec e.
Proof.
  induction k as [|k IH]; intros e Hk He s Hs Ho; [pose proof (vsize_pos e); lia|].
  apply (memo_settles e s (fun r u => r = e /\ u = snd s)); try done.
  - unfold visitActual. destruct (isConst e); [by apply settles_const, runs_ok|].
    eapply settles_M_bind; [by apply do_children|]. intros ? ? [= -> ->].
    eapply settles_M_bind; [apply do_children; intros n; by apply visitKind_over|]. intros ? ? [= -> ->].
    eapply settles_M_bind.
    { apply fixed_kids; [|done|by apply over_kids]. apply Forall_forall. intros x Hx. pose proof (wf_kids e He) as Hw. pose proof (vsize_kids e) as Hv.
      rewrite Forall_forall in Hw, Hv. specialize (Hv x Hx). split; [auto|]. apply IH; [lia|auto]. }
    intros [ks ch] s1 [[E1 E2] Hs1]. cbn [fst snd] in E1, E2, Hs1. injection E1 as -> ->.
    eapply (settles_M_bind False _ _ _ (fun p => p = (e, s1))); [by apply (settles_at False _ (Ok (e, s1))); [|apply runs_ok]|]. intros ? ? [= -> ->].
    assert (Hx : extends (snd s) (snd s1)) by (by rewrite E2). destruct (isConst e); apply settles_const, runs_ok; by split_and!.
  - intros r [_ [(H1 & H2 & H3)|[_ H3]]]; cbn [fst snd] in *; [|done]. split; [|done]. apply H3. apply (foreign_over (snd s)); [apply Hs|done|done].
  - intros r u Hu _ [-> ->]. split; [done|]. right. by split.
Qed.

(** ** Foreign expressions are renamed *)
Definition becomes (s : visited_ty * Canonical) (e : expr) (p : expr * (visited_ty * Canonical)) : Prop :=
  stands (snd p.2) e p.1 /\ sok p.2 /\ extends (snd s) (snd p.2).
Definition rename_spec (e : expr) : Prop :=
  forall s, sok s -> settles False (fun n => visit V n e s) (becomes s e).

Lemma renamed_kids ks : Forall (fun k => wf k /\ rename_spec k) ks -> forall s, sok s ->
  settles False (fun n => visit_kids (visit V n) ks s) (fun p =>
    Forall2 (stands (snd p.2)) ks p.1.1 /\ (p.1.2 = false <-> p.1.1 = ks) /\ sok p.2 /\ extends (snd s) (snd p.2)).
Proof.
  induction 1 as [|k ks [Wk Hk] HF IH]; intros s Hs; cbn [visit_kids].
  { apply settles_const, runs_ok. by cbn. }
  eapply settles_M_bind; [by apply Hk|]. intros k' s1 (H1 & Hs1 & X1). cbn [fst snd] in H1, Hs1, X1.
  eapply settles_M_bind; [by apply IH|]. intros [ks' ch] s2 (H2 & Hch & Hs2 & X2). cbn [fst snd] in H2, Hch, Hs2, X2.
  apply settles_const, runs_ok. cbn. split_and!; [constructor; [by eapply stands_mono|done]| |done|by etrans].
  rewrite orb_false_iff, negb_false_iff, expr_eqb_spec, Hch by (done || apply H1). split; [by intros [-> ->]|by intros [= -> ->]].
Qed.

Lemma with_kids_eval2 tau tau' e ks e' v :
  (forall root un i, e <> ReadExpr root un i) -> with_kids e ks = Some e' ->
  Forall2 (fun k k' => getWidth k' = getWidth k /\ forall v, eval tau k = Some v -> eval tau' k' = Some v) (kids e) ks ->
  eval tau e = Some v -> eval tau' e' = Some v.
Proof.
  intros Hr Hw HF Hv. destruct e; simpl in *; [done| |by destruct (Hr _ _ _ eq_refl)|..]; split_kids; simplify_eq; simpl; destruct_and?; inv_option;
    repeat match goal with
    | H : forall v, eval tau ?x = Some v -> _, E : eval tau ?x = Some _ |- _ => rewrite (H _ E); clear H; simpl
    | E : getWidth _ = getWidth _ |- _ => rewrite E; clear E
    end; auto.
Qed.

(** Some environment that is linked. *)
Definition linking (u : Canonical) (rho : env) : env := fun a i =>
  match List.find (fun p => bool_decide (canon u p.1 = Some a)) (arrayIndexMap u) with Some p => rho p.1 i | None => rho a i end.

Lemma index_find_elem l a i : index_find l a = Some i -> (a, i) ∈ l.
Proof.
  induction l as [|[b j] l IH]; [done|]. rewrite index_find_cons. case_decide; [intros [= ->]; subst; left|right; auto].
Qed.

Lemma linking_canon u rho a c i : canon_inv u -> canon u a = Some c -> linking u rho c i = rho a i.
Proof.
  intros Hu Hc. unfold linking. destruct (List.find _ _) as [p|] eqn:E.
  - apply find_some in E as [_ E%bool_decide_eq_true]. by rewrite (canon_inj u p.1 a c Hu E Hc).
  - exfalso. pose proof Hc as Hc'. unfold canon in Hc'. destruct (index_find _ a) as [j|] eqn:Ej; [|done]. clear Hc'.
    apply index_find_elem, list_elem_of_In in Ej. apply (find_none _ _ E) in Ej. by apply bool_decide_eq_false in Ej.
Qed.

Lemma linking_other u rho a i : canon_inv u -> ~ canonical_ok a -> linking u rho a i = rho a i.
Proof.
  intros Hu Ha. unfold linking. destruct (List.find _ _) as [p|] eqn:E; [|done].
  apply find_some in E as [_ E%bool_decide_eq_true]. by destruct Ha, (canon_ok u p.1 a Hu E) as (_ & _ & ? & _).
Qed.

Lemma linking_linked u rho : canon_inv u -> linked u (linking u rho) (linking u rho).
Proof.
  intros Hu. split; [|done]. intros a c i Hc. rewrite (linking_canon u rho a c i Hu Hc). symmetry. apply linking_other; [done|].
  intros Hca. eapply foreign_not_canonical; [|exact Hca]. by eapply canon_ok.
Qed.

(** A node other than a read over renamed kids. *)
Lemma rebuild_stands u e ks : canon_inv u -> wf e -> renamable e -> isConst e = false -> (forall root un i, e <> ReadExpr root un i) ->
  Forall2 (stands u) (kids e) ks -> returns (rebuild e ks) (fun r => stands u e r).
Proof.
  intros Hu He Hre Hc Hread HF. destruct (with_kids_total e ks Hc) as [e' Hw]; [by rewrite (Forall2_length _ _ _ HF)|].
  destruct (with_kids_wf e ks e' He Hw) as [We Ee]; [eapply Forall2_impl; [exact HF|]; intros ? ? []; done|].
  assert (Hev : forall tau tau' v, linked u tau tau' -> eval tau e = Some v -> eval tau' e' = Some v).
  { intros tau tau' v Hl. eapply with_kids_eval2; [done|exact Hw|]. eapply Forall2_impl; [exact HF|]. intros ? ? [_ ? _ H]. split; [done|]. intros w. by apply H. }
  assert (Hd : root_div_ok e').
  { eapply (value_div_ok (linking u (fun _ _ => 0))). destruct (renamable_value (linking u (fun _ _ => 0)) e Hre) as [v Hv].
    exists v. eapply Hev; [by apply linking_linked|done]. }
  destruct (rebuild_builds e ks e' Hw We Hd) as (r & Er & Wr & Gr & Rr). exists r. split; [done|]. split; [done|congruence| |].
  - pose proof (rebuild_light 0 0 0 (wset (canonicalArraySet u)) (fun _ => Nat.le_0_l _) (le_n 0) Hopt e ks eq_refl r Er) as Hlt.
    assert (Hks : wts 0 0 0 (wset (canonicalArraySet u)) ks = 0%nat).
    { by eapply over_wts, stands_over. }
    assert (Ho : own_wt 0 0 0 (wset (canonicalArraySet u)) e = 0%nat) by (destruct e; try done; by destruct (Hread _ _ _ eq_refl)).
    unfold over. lia.
  - intros tau tau' v Hl Hv. apply Rr. by eapply Hev.
Qed.

(** The update list of a read. *)
Record node_stands (u : Canonical) (root c : Array) (un un' : UpdateNode) : Prop := {
  ns_wf : wf_node c un';
  ns_over : over_node (canonicalArraySet u) un';
  ns_eval tau tau' i v : linked u tau tau' -> eval_node tau root un i = Some v -> eval_node tau' c un' i = Some v;
}.

Lemma rebuild_updates_app vis ws ws' ul s :
  rebuild_updates vis (ws ++ ws') ul s = (ul ← rebuild_updates vis ws ul; rebuild_updates vis ws' ul) s.
Proof.
  revert ul s. induction ws as [|[i v] ws IH]; intros ul s; [done|]. cbn [rebuild_updates app]. unfold mbind, M_bind.
  destruct (vis i s) as [[i' s1]| |]; try done. destruct (vis v s1) as [[v' s2]| |]; try done. destruct (lift _ s2) as [[ul' s3]| |]; try done.
Qed.

Lemma null_stands u root c : canon_inv u -> canon u root = Some c -> node_stands u root c NullNode NullNode.
Proof.
  intros Hu Hc. destruct (canon_ok u root c Hu Hc) as ([(Sr & _ & _ & Rr) _] & Hin & [(Sc & _ & _ & Rc) _] & _).
  split; try done. intros tau tau' i v [H1 H2]. simpl. unfold initial. rewrite Sr, Sc, Rr, Rc. by rewrite (H2 c i Hin), (H1 root c i Hc).
Qed.

Lemma node_extend u root c next i v next' i' v' : foreign_array root -> canonical_ok c ->
  wf_node root (Node next i v) -> node_stands u root c next next' -> stands u i i' -> stands u v v' ->
  exists ul, UpdateList_extend {| ul_root := c; ul_head := next' |} i' v' = Ok ul /\ ul_root ul = c /\ node_stands u root c (Node next i v) (ul_head ul).
Proof.
  intros [(_ & _ & Dr & Rr) _] [(_ & _ & Dc & Rc) _] (_ & Hi & Hv & Ei & Ev) [N1 N2 N3] [I1 I2 I3 I4] [V1 V2 V3 V4].
  unfold UpdateList_extend. cbn [ul_root ul_head]. rewrite (proj2 (Z.eqb_eq _ _)) by congruence. rewrite (proj2 (Z.eqb_eq _ _)) by congruence.
  cbn [massert mbind result_bind]. eexists. split; [reflexivity|]. cbn [ul_root ul_head]. split; [done|]. split.
  - simpl. split_and!; try done; congruence.
  - unfold over_node, over in *. simpl. lia.
  - intros tau tau' k x Hl (j & Hj & Hx)%eval_node_inv. simpl. rewrite (I4 tau tau' j Hl Hj). simpl. case_match; [by apply (V4 tau)|by apply (N3 tau)].
Qed.

Lemma node_stands_mono u u' root c un un' : extends u u' -> node_stands u root c un un' -> node_stands u' root c un un'.
Proof.
  intros Hx [H1 H2 H3]. split; [done|by eapply over_mono_mut; [apply Hx|]|]. intros tau tau' i v Hl. apply H3. by eapply linked_mono.
Qed.

(** One more write. *)
Lemma renamed_write root c next i v un' s : foreign_array root -> wf_node root (Node next i v) -> rename_spec i -> rename_spec v ->
  sok s -> canon (snd s) root = Some c -> node_stands (snd s) root c next un' ->
  settles False (fun n => rebuild_updates (visit V n) [(i, v)] {| ul_root := c; ul_head := un' |} s) (fun p =>
    ul_root p.1 = c /\ node_stands (snd p.2) root c (Node next i v) (ul_head p.1) /\ sok p.2 /\ extends (snd s) (snd p.2)).
Proof.
  intros Hr Hw Hi Hv Hs Hc Hn. cbn [rebuild_updates].
  eapply settles_M_bind; [by apply Hi|]. intros i' s2 (H2 & Hs2 & X2). cbn [fst snd] in H2, Hs2, X2.
  eapply settles_M_bind; [by apply Hv|]. intros v' s3 (H3 & Hs3 & X3). cbn [fst snd] in H3, Hs3, X3.
  assert (Hx : extends (snd s) (snd s3)) by (by etrans).
  assert (Hc3 : canon (snd s3) root = Some c) by (by apply Hx).
  destruct (node_extend (snd s3) root c next i v un' i' v') as (ul & Eu & Er & Hu); try done.
  { destruct (canon_ok (snd s3) root c) as (_ & _ & ? & _); [apply Hs3|done|done]. } { eapply node_stands_mono; [exact Hx|exact Hn]. } { eapply stands_mono; [exact X3|exact H2]. }
  apply settles_const. unfold mbind, M_bind, lift. rewrite Eu. by apply runs_ok.
Qed.

Lemma renamed_updates root c un : foreign_array root -> wf_node root un -> renamable_node un ->
  (forall x, (vsize x <= vsize_node un)%nat -> wf x -> renamable x -> rename_spec x) ->
  forall s, sok s -> canon (snd s) root = Some c ->
  settles False (fun n => rebuild_updates (visit V n) (node_writes un) {| ul_root := c; ul_head := NullNode |} s) (fun p =>
    ul_root p.1 = c /\ node_stands (snd p.2) root c un (ul_head p.1) /\ sok p.2 /\ extends (snd s) (snd p.2)).
Proof.
  intros Hr. induction un as [|next IH i v] using UpdateNode_ind; intros Hw Hren Hvis s Hs Hc; cbn [node_writes].
  { apply (settles_at False _ (Ok ({| ul_root := c; ul_head := NullNode |}, s))); [done|]. apply runs_ok. cbn.
    split_and!; try done. apply null_stands; [apply Hs|done]. }
  destruct Hren as (Rn & Ri & Rv). pose proof Hw as (Wn & Wi & Wv & _). simpl in Hvis.
  enough (HS : settles False (fun n => (ul ← rebuild_updates (visit V n) (node_writes next) {| ul_root := c; ul_head := NullNode |};
     rebuild_updates (visit V n) [(i, v)] ul) s) (fun p =>
    ul_root p.1 = c /\ node_stands (snd p.2) root c (Node next i v) (ul_head p.1) /\ sok p.2 /\ extends (snd s) (snd p.2))).
  { destruct HS as (r & n & Hn & Hp). exists r, n. split; [|done]. intros k Hk. rewrite rebuild_updates_app. by apply Hn. }
  eapply settles_M_bind; [apply IH; try done; intros x Hx; apply Hvis; lia|]. intros [root' un1] s1 (E1 & H1 & Hs1 & X1).
  cbn [ul_root ul_head fst snd] in E1, H1, Hs1, X1. subst root'. eapply settles_weaken.
  { apply (renamed_write root c next i v un1 s1); try done; [apply Hvis; (done || lia)..|by apply X1]. }
  intros p (? & ? & ? & ?). split_and!; try done. by etrans.
Qed.

(** ** Every renamable expression is renamed *)
Lemma read_stands u root c un un' i i' : canon_inv u -> canon u root = Some c -> wf (ReadExpr root un i) ->
  node_stands u root c un un' -> stands u i i' ->
  returns (ReadExpr_create {| ul_root := c; ul_head := un' |} i') (stands u (ReadExpr root un i)).
Proof.
  intros Hu Hc (Wr & Wn & Wi & Ei) [N1 N2 N3] [I1 I2 I3 I4].
  destruct (canon_ok u root c Hu Hc) as ([(_ & _ & Dr & Rr) _] & Hin & [(_ & Wc & Dc & Rc) _] & _).
  destruct (ReadExpr_create_builds {| ul_root := c; ul_head := un' |} i') as (r & Er & W & G & R).
  { simpl. split_and!; try done. congruence. }
  exists r. split; [done|]. split; [done|rewrite G; simpl; congruence| |].
  - pose proof (ReadExpr_create_light 0 0 0 (wset (canonicalArraySet u)) (le_n 0) _ _ r Er) as Hlt.
    cbn [ul_root ul_head] in Hlt. apply wset_0 in Hin. unfold over, over_node in *. lia.
  - intros tau tau' v Hl Hv. apply R. simpl in *. inv_option. rewrite (I4 tau tau' _ Hl) by eassumption. simpl. by apply (N3 tau).
Qed.

Lemma renamed_read root un i s : wf (ReadExpr root un i) -> renamable (ReadExpr root un i) ->
  (forall x, (vsize x < vsize (ReadExpr root un i))%nat -> wf x -> renamable x -> rename_spec x) -> sok s ->
  settles False (fun n => visitKind V (getKind (ReadExpr root un i)) (visit V n) (ReadExpr root un i) s) (fun p =>
    exists r, p.1 = ChangeTo r /\ becomes s (ReadExpr root un i) (r, p.2)).
Proof.
  intros He (_ & Hr & Rn & Ri) Hvis Hs. pose proof He as (_ & Wn & Wi & _). simpl in Hvis. cbn [visitKind V]. unfold canonical_visitRead.
  rewrite bool_decide_eq_false_2.
  2:{ intros Hin. destruct Hs as [Hu _]. pose proof (ci_set _ Hu) as Hset. rewrite Forall_forall in Hset. eapply foreign_not_canonical; [exact Hr|auto]. }
  destruct (canonical_array_total root s) as (c & u1 & Ec & Hu1 & X1 & Hc); [apply Hs|done|].
  eapply (settles_M_bind False _ _ _ (fun p => p = (c, (fst s, u1)))).
  { apply (settles_at False _ (Ok (c, (fst s, u1)))); [done|by apply runs_ok]. }
  intros ? ? [= -> ->]. assert (Hs1 : sok (fst s, u1)) by (apply (sok_extend (fst s) (snd s)); [by destruct s|done|done]).
  eapply settles_M_bind; [apply (renamed_updates root c un); try done; intros x Hx; apply Hvis; lia|].
  intros [root' un'] s2 (E2 & H2 & Hs2 & X2). cbn [ul_root ul_head fst snd] in E2, H2, Hs2, X2. subst root'.
  eapply settles_M_bind; [apply (Hvis i); try done; lia|]. intros i' s3 (H3 & Hs3 & X3). cbn [fst snd] in H3, Hs3, X3.
  destruct (read_stands (snd s3) root c un un' i i') as (r & Er & Hst); try done; [apply Hs3|by apply X3, X2|by eapply node_stands_mono|].
  apply settles_const. unfold mbind, M_bind, lift. rewrite Er. apply runs_ok. exists r. split; [done|]. split; [done|]. split; [done|].
  cbn [fst snd] in *. etrans; [exact X1|]. by etrans.
Qed.

(** A node other than a read: its kids, then [rebuild], then a second visit that
    changes nothing. *)
Lemma renamed_node e s : wf e -> renamable e -> isConst e = false -> (forall root un i, e <> ReadExpr root un i) ->
  Forall (fun k => wf k /\ rename_spec k) (kids e) -> sok s ->
  settles False (fun n => (ks ← visit_kids (visit V n) (kids e);
    e' ← (if snd ks : bool then e' ← lift (rebuild e (fst ks)); visit V n e' else mret e);
    if isConst e' then mret e' else act ← base_visitExprPost e'; mret (match act with ChangeTo a => a | _ => e' end)) s) (becomes s e).
Proof.
  intros He Hre Hc Hread Hk Hs. eapply settles_M_bind; [by apply renamed_kids|]. intros [ks ch] s1 (Hks & Hch & Hs1 & X1).
  cbn [fst snd] in Hks, Hch, Hs1, X1. eapply (settles_M_bind False _ _ _ (becomes s e)).
  - destruct (rebuild_stands (snd s1) e ks) as (r & Er & Hst); try done; [apply Hs1|]. destruct ch.
    + eapply (settles_M_bind False _ _ _ (fun p => p = (r, s1))).
      { apply (settles_at False _ (Ok (r, s1))); [intros n; unfold lift; cbn [fst]; by rewrite Er|by apply runs_ok]. }
      intros ? ? [= -> ->]. eapply settles_weaken; [apply (fixed (vsize r)); [done|apply Hst|done|apply Hst]|].
      intros [r' s'] ([E0 E] & Hs' & X2). cbn [fst snd] in *. subst r'. split; cbn [fst snd]; [by rewrite E|]. split; [done|by etrans].
    + apply (settles_at False _ (Ok (e, s1))); [done|]. apply runs_ok. split; cbn [fst snd]; [|done]. apply stands_fixed; [apply Hs1|done|].
      apply over_of_kids; [done|]. assert (ks = kids e) as -> by (by apply Hch). by eapply stands_over.
  - intros r s2 H. apply (settles_at False _ (Ok (r, s2))); [|by apply runs_ok]. intros n. by destruct (isConst r).
Qed.

Lemma renames k : forall e, (vsize e <= k)%nat -> wf e -> renamable e -> rename_spec e.
Proof.
  induction k as [|k IH]; intros e Hk He Hre s Hs; [pose proof (vsize_pos e); lia|].
  destruct (decide (over [] e)) as [Hg|Hg].
  { eapply settles_weaken; [apply (fixed (vsize e)); try done; eapply over_mono; [|exact Hg]; apply list_subseteq_nil|].
    intros [r s'] ([E1 E2] & Hs' & Hx). cbn [fst snd] in *. subst r. split_and!; try done. apply stands_fixed; [apply Hs'|done|].
    eapply over_mono; [|exact Hg]. apply list_subseteq_nil. }
  assert (Hsm : forall x, (vsize x < vsize e)%nat -> wf x -> renamable x -> rename_spec x) by (intros x Hx; apply IH; lia).
  apply (memo_settles e s (fun r u => stands u e r)); try done.
  - unfold visitActual. destruct (isConst e) eqn:Hc; [destruct e; try done; by destruct Hg|].
    eapply settles_M_bind; [by apply do_children|]. intros ? ? [= -> ->].
    destruct (match e with ReadExpr _ _ _ => true | _ => false end) eqn:Er.
    + destruct e as [| |root un i| | | | | | |]; try discriminate.
      eapply settles_M_bind; [by apply renamed_read|]. intros act s1 (r & Ea & H). cbn [fst snd] in Ea, H. subst act. by apply (settles_at False _ (Ok (r, s1))); [|apply runs_ok].
    + assert (Hread : forall root un i, e <> ReadExpr root un i) by (intros ? ? ? ->; discriminate).
      eapply settles_M_bind; [apply do_children; by destruct e|]. intros ? ? [= -> ->]. apply renamed_node; try done.
      apply Forall_forall. intros x Hx. pose proof (wf_kids e He) as H1. pose proof (vsize_kids e) as H2. pose proof (renamable_kids e Hre) as H3.
      rewrite Forall_forall in H1, H2, H3. auto.
  - intros r [_ [(_ & H & _)|[Ho E]]]; cbn [fst snd] in *; [done|]. subst. apply stands_fixed; [apply Hs|done|done].
  - intros r u Hu _ H. split; [done|]. left. by split_and!.
Qed.

(** ** Renaming a query *)
Definition new_maps (arrays : gmap Z (list Array)) (set : list Array) (cache : ACState) : Canonical :=
  {| arrayIndexMap := []; sizeLRUMap := ∅; canonicalArrayMap := arrays; canonicalArraySet := set; array_cache := cache |}.

(** The maps of the visitor are dropped after a query, those of the solver are kept. *)
Lemma canon_inv_reset u : canon_inv u -> canon_inv (new_maps (canonicalArrayMap u) (canonicalArraySet u) (array_cache u)).
Proof.
  intros [H1 H2 H3 H4 H5 H6]. split; try done. intros sz. change (lru (new_maps _ _ _) sz) with (default (-1) ((∅ : gmap Z Z) !! sz)).
  rewrite lookup_empty. simpl. lia.
Qed.

Lemma canon_inv_new cache : cache_ok cache -> canon_inv (new_maps ∅ [] cache).
Proof.
  intros H. by split.
Qed.

Lemma visit_all_ok es : Forall (fun e => wf e /\ renamable e) es -> forall s, sok s ->
  settles False (fun n => visit_all n es s) (fun p => Forall2 (stands (snd p.2)) es p.1 /\ sok p.2 /\ extends (snd s) (snd p.2)).
Proof.
  induction 1 as [|e es [We He] HF IH]; intros s Hs; cbn [visit_all].
  { apply (settles_at False _ (Ok ([], s))); [done|]. apply runs_ok. by split_and!. }
  eapply settles_M_bind; [by apply (renames (vsize e))|]. intros e' s1 (H1 & Hs1 & X1). cbn [fst snd] in H1, Hs1, X1.
  eapply settles_M_bind; [by apply IH|]. intros es' s2 (H2 & Hs2 & X2). cbn [fst snd] in H2, Hs2, X2.
  apply settles_const, runs_ok. cbn. split_and!; [constructor; [by eapply stands_mono|done]|done|by etrans].
Qed.

Lemma canonicalize_with_ok e cons arrays set cache :
  canon_inv (new_maps arrays set cache) -> wf e -> renamable e -> Forall (fun e => wf e /\ renamable e) cons ->
  settles False (fun n => canonicalize_with n e cons arrays set cache) (fun p => let '(e', cons', u) := p in
    canon_inv u /\ stands u e e' /\ Forall2 (stands u) cons cons').
Proof.
  intros Hu We He Hc. assert (Hs : sok ([], new_maps arrays set cache)) by (split; [done|constructor]).
  unfold canonicalize_with. eapply settles_bind; [by apply (renames (vsize e))|]. intros [e' s1] (H1 & Hs1 & X1). cbn [fst snd] in H1, Hs1, X1.
  eapply settles_bind; [by apply visit_all_ok|]. intros [cons' s2] (H2 & Hs2 & X2). cbn [fst snd] in H2, Hs2, X2.
  apply settles_const, runs_ok. split_and!; [apply Hs2|by eapply stands_mono|done].
Qed.

(** Environments that agree on the foreign arrays. *)
Lemma eval_foreign rho rho' : (forall a i, foreign_array a -> rho a i = rho' a i) -> forall e, renamable e -> eval rho e = eval rho' e.
Proof.
  intros Hag. enough ((forall e, renamable e -> eval rho e = eval rho' e) /\
    (forall un, renamable_node un -> forall root i, foreign_array root -> eval_node rho root un i = eval_node rho' root un i)) as [H _] by exact H.
  apply expr_node_ind; intros; simpl in *; destruct_and?; try done;
    repeat match goal with IH : ?R -> eval _ ?x = _, Hr : ?R |- _ => rewrite (IH Hr); clear IH end; try done.
  - destruct (eval rho' index); [|done]. cbn [mbind option_bind]. by apply H.
  - unfold initial. match goal with H : foreign_array _ |- _ => pose proof H as [(-> & _) _] end. by rewrite Hag.
  - destruct (eval rho' index) as [j|]; [|done]. cbn [mbind option_bind]. case_match; [done|]. by apply H.
Qed.

(** From a solution of the renamed query to one of the query. *)
Definition pulling (u : Canonical) (rho : env) : env := fun a i => match canon u a with Some c => rho c i | None => rho a i end.

Lemma canon_canonical u c : canon_inv u -> c ∈ canonicalArraySet u -> canon u c = None.
Proof.
  intros Hu Hc. destruct (canon u c) as [d|] eqn:E; [|done]. exfalso. apply canon_ok in E as [Hf _]; [|done].
  pose proof (ci_set u Hu) as Hs. rewrite Forall_forall in Hs. eapply foreign_not_canonical; [exact Hf|auto].
Qed.

Lemma pulling_linked u rho : canon_inv u -> linked u (pulling u rho) rho.
Proof.
  intros Hu. split.
  - intros a c i Hc. unfold pulling. rewrite Hc. by rewrite canon_canonical by (done || by eapply canon_ok).
  - intros c i Hc. unfold pulling. by rewrite canon_canonical.
Qed.

Lemma pulling_ok u rho : canon_inv u -> env_ok rho -> env_ok (pulling u rho).
Proof.
  intros Hu Hrho a i. unfold pulling. destruct (canon u a) as [c|] eqn:E; [|apply Hrho].
  destruct (canon_ok u a c Hu E) as ([(Sa & _) _] & _ & _ & Sz). destruct (Hrho c i) as [Hr Hz]. split; [done|].
  intros [H|H]; [congruence|]. apply Hz. right. lia.
Qed.

Lemma linking_ok u rho : canon_inv u -> env_ok rho -> env_ok (linking u rho).
Proof.
  intros Hu Hrho a i. unfold linking. destruct (List.find _ _) as [p|] eqn:E; [|apply Hrho].
  apply find_some in E as [_ E%bool_decide_eq_true]. destruct (canon_ok u p.1 a Hu E) as (_ & _ & [(Sa & _) _] & Sz).
  destruct (Hrho p.1 i) as [Hr Hz]. split; [done|]. intros [H|H]; [congruence|]. apply Hz. right. lia.
Qed.

(** Each solution of one query has one of the other under which the expressions agree. *)
Definition mirrors (q q' : Query) : Prop := forall rho, models q rho -> exists rho', models q' rho' /\ eval rho' (q_expr q') = eval rho (q_expr q).

Lemma stands_value u e e' tau tau' : renamable e -> stands u e e' -> linked u tau tau' -> eval tau' e' = eval tau e.
Proof. intros Hre H Hl. destruct (renamable_value tau e Hre) as [v Hv]. rewrite Hv. by apply (sd_eval _ _ _ H tau tau'). Qed.

Lemma renamed_mirrors u q q' : canon_inv u -> renamable (q_expr q) -> Forall renamable (q_constraints q) ->
  stands u (q_expr q) (q_expr q') -> Forall2 (stands u) (q_constraints q) (q_constraints q') -> mirrors q q' /\ mirrors q' q.
Proof.
  intros Hu He Hc Hst Hcs. split.
  - intros rho [Hrho Hm]. exists (linking u rho). pose proof (linking_linked u rho Hu) as Hl.
    assert (Hf : forall x, renamable x -> eval (linking u rho) x = eval rho x).
    { intros x. apply eval_foreign. intros a i Ha. apply linking_other; [done|]. intros Hca. by eapply foreign_not_canonical. }
    split; [split; [by apply linking_ok|]|rewrite <- (Hf (q_expr q) He); by apply (stands_value u)].
    revert Hm Hc. induction Hcs as [|c c' l l' Hcc HF IH]; [constructor|]. intros [H1 H2]%Forall_cons [R1 R2]%Forall_cons. constructor; [|auto].
    unfold true_under. by rewrite (stands_value u c c' (linking u rho) (linking u rho) R1 Hcc Hl), Hf.
  - intros rho [Hrho Hm]. exists (pulling u rho). pose proof (pulling_linked u rho Hu) as Hl.
    split; [split; [by apply pulling_ok|]|symmetry; by apply (stands_value u)].
    revert Hm Hc. induction Hcs as [|c c' l l' Hcc HF IH]; [constructor|]. intros [H1 H2]%Forall_cons [R1 R2]%Forall_cons. constructor; [|auto].
    unfold true_under. by rewrite <- (stands_value u c c' (pulling u rho) rho R1 Hcc Hl).
Qed.
End visiting.

(** ** Answers of a mirrored query *)
Section mirrored.
Context {AP : APIntOps} {CFG : Config}.
Context (q q' : Query) (H1 : mirrors q q') (H2 : mirrors q' q) (Hw : getWidth (q_expr q') = getWidth (q_expr q)).

Lemma mirror_takes v : takes q' v <-> takes q v.
Proof.
  split; intros (rho & Hm & Hv); [destruct (H2 rho Hm) as (rho' & ? & E)|destruct (H1 rho Hm) as (rho' & ? & E)]; exists rho'; split; congruence || done.
Qed.

Lemma mirror_sat : satisfiable q -> satisfiable q'.
Proof. intros [rho Hm]. destruct (H1 rho Hm) as (rho' & ? & _). by exists rho'. Qed.

Lemma mirror_valid : valid q' -> valid q.
Proof. intros H rho Hm. destruct (H1 rho Hm) as (rho' & Hm' & E). unfold true_under. rewrite <- E. by apply H. Qed.

Lemma mirror_refuted : refuted q' -> refuted q.
Proof. intros H rho Hm. destruct (H1 rho Hm) as (rho' & Hm' & E). unfold false_under. rewrite <- E. by apply H. Qed.

Lemma mirror_may_hold : may_hold q' -> may_hold q.
Proof. intros (rho & Hm & H). destruct (H2 rho Hm) as (rho' & Hm' & E). exists rho'. split; [done|]. unfold true_under. by rewrite E. Qed.

Lemma mirror_may_fail : may_fail q' -> may_fail q.
Proof. intros (rho & Hm & H). destruct (H2 rho Hm) as (rho' & Hm' & E). exists rho'. split; [done|]. unfold false_under. by rewrite E. Qed.

Lemma mirror_truth r : truth_answer q' r -> truth_answer q r.
Proof. destruct r as [[]|]; [apply mirror_valid|apply mirror_may_fail|done]. Qed.

Lemma mirror_validity r : validity_answer q' r -> validity_answer q r.
Proof. destruct r as [[]|]; [apply mirror_valid|apply mirror_refuted|intros []; split; [by apply mirror_may_hold|by apply mirror_may_fail]|done]. Qed.

Lemma mirror_value r : value_answer q' r -> value_answer q r.
Proof.
  destruct r as [e|]; [|done]. intros (c & -> & Hc & Wc & rho & Hm & Hv). exists c. split_and!; try congruence; try done.
  destruct (H2 rho Hm) as (rho' & Hm' & E). exists rho'. split; congruence || done.
Qed.
End mirrored.

(** ** The layer of the chain *)
Section layer.
Context {AP : APIntOps} {SP : APIntSpec AP} {CFG : Config} {SUP : Supported} {AL : ArrayAllocator} {FA : FreshAllocator}.
Context {St : Type} {SI : SolverImpl St} {inv : St -> Prop} {SS : SolverSpec SI inv}.

(** A query the layer can rename, for a solver below that supports all expressions. *)
Record renamable_query (q : Query) : Prop := {
  rq_opt : ConstArrayOpt = false;
  rq_ok : q_ok q;
  rq_expr : renamable (q_expr q);
  rq_constraints : Forall renamable (q_constraints q);
  rq_supported e : wf e -> supported e;
}.

Definition maps_ok (s : CanonicalState St) : Prop := canon_inv (new_maps (cs_map s) (cs_set s) (cs_arrays s)).
Definition canonical_solver_inv (s : CanonicalState St) : Prop := inv (cs_inner s) /\ maps_ok s.

(** What is known of the renamed query. *)
Record mirrored (q q' : Query) : Prop := {
  mi_ok : q_ok q';
  mi_width : getWidth (q_expr q') = getWidth (q_expr q);
  mi_to : mirrors q q';
  mi_from : mirrors q' q;
}.

Lemma stands_mirrored u q e' cons' : renamable_query q -> canon_inv u -> stands u (q_expr q) e' -> Forall2 (stands u) (q_constraints q) cons' ->
  mirrored q {| q_constraints := cons'; q_expr := e' |}.
Proof.
  intros [Ho Hq He Hc Hs] Hu Hst Hcs. destruct (renamed_mirrors u q {| q_constraints := cons'; q_expr := e' |}) as [M1 M2]; try done.
  split; try done; [|apply Hst]. split; cbn [q_constraints q_expr].
  - pose proof (qk_constraints q Hq) as Hk. revert Hk. clear -Hcs Hs. induction Hcs as [|c c' l l' [W G _ _] HF IH]; [constructor|].
    intros [(_ & B & _) Hk]%Forall_cons. constructor; [|auto]. split_and!; [done|congruence|auto].
  - apply Hst.
  - apply Hs, Hst.
  - intros rho Hm. destruct (M2 rho Hm) as (rho' & Hm' & E). destruct (qk_value q Hq rho' Hm') as [v Hv]. exists v. cbn [q_expr] in E. congruence.
Qed.

Lemma canonicalQuery_ok q s : renamable_query q -> maps_ok s ->
  settles False (fun n => CanonicalSolver.canonicalQuery n q s) (fun p => mirrored q p.1 /\ canon_inv p.2).
Proof.
  intros Hq Hs. unfold CanonicalSolver.canonicalQuery. eapply settles_bind.
  { apply canonicalize_with_ok; [apply Hq|exact Hs|apply Hq|apply Hq|]. pose proof (rq_constraints q Hq) as Hr. pose proof (qk_constraints q (rq_ok q Hq)) as Hk.
    rewrite Forall_forall in Hr, Hk. apply Forall_forall. intros c Hc. split; [by apply Hk|auto]. }
  intros [[e' cons'] u] (Hu & He & Hc). apply settles_const, runs_ok. split; [|done]. by apply (stands_mirrored u).
Qed.

(** A call below, whose answers carry over. *)
Lemma renamed_call {A} (call : Query -> St -> result (A * St)) (ans : Query -> A -> Prop) q s : renamable_query q -> canonical_solver_inv s ->
  (forall q', mirrored q q' -> answers inv (ans q') (call q' (cs_inner s))) -> (forall q' r, mirrored q q' -> ans q' r -> ans q r) ->
  exists n0, forall fuel, (n0 <= fuel)%nat -> answers canonical_solver_inv (ans q) (CanonicalSolver.renamed fuel call q s).
Proof.
  intros Hq [Hs Hu] Hcall Hans. destruct (canonicalQuery_ok q s Hq Hu) as (r & n0 & Hn & Hr). exists n0. intros fuel Hf.
  unfold CanonicalSolver.renamed. rewrite (Hn fuel Hf). destruct Hr as [([q' u] & -> & Hm & Hu')|[[[] _]|[[] _]]]. cbn [mbind result_bind fst snd] in *.
  destruct (Hcall q' Hm) as ([a inner] & -> & Ha & Hin). cbn [mbind result_bind]. apply returns_ok. cbn [fst snd] in *. split; [by apply (Hans q')|].
  split; [done|]. by apply canon_inv_reset.
Qed.
End layer.

(** ** Theorem *)

(** C9. [CanonicalSolver] answers queries whose arrays have no canonical names as the solver
    below it would: with enough fuel for the visitor, [computeTruth], [computeValidity] and
    [computeValue] return what holds of the original query, and leave a state in which
    the next query is answered as well; [computeInitialValues] is passed on.  Assumed
    ([renamable_query]): the constraints are satisfiable; the arrays read are symbolic
    arrays of bytes indexed by 32 bits whose names are not of the form "c_..._...", and
    each part of the query has a value under every assignment; the option for constant arrays is off; the solver
    below supports every expression.  A query over arrays with canonical names, such as
    one that [getNPossibleValues] has renamed before, is excluded: there the answer can be
    wrong ([CanonicalSamples.merged_arrays]). *)
Theorem canonical_solver_correct {AP : APIntOps} {SP : APIntSpec AP} {CFG : Config} {SUP : Supported} {AL : ArrayAllocator} {FA : FreshAllocator}
    {St : Type} {SI : SolverImpl St} {inv : St -> Prop} {SS : SolverSpec SI inv} q s :
  renamable_query q -> satisfiable q -> canonical_solver_inv (inv := inv) s ->
  exists n0, forall fuel, (n0 <= fuel)%nat ->
    answers (canonical_solver_inv (inv := inv)) (value_answer q) (CanonicalSolver.computeValue fuel q s) /\
    (getWidth (q_expr q) = Bool ->
      answers (canonical_solver_inv (inv := inv)) (truth_answer q) (CanonicalSolver.computeTruth fuel q s) /\
      answers (canonical_solver_inv (inv := inv)) (validity_answer q) (CanonicalSolver.computeValidity fuel q s) /\
      forall objects, answers (canonical_solver_inv (inv := inv)) (initial_answer q objects) (CanonicalSolver.computeInitialValues q objects s)).
Proof.
  intros Hq Hsat Hs. assert (Hin : inv (cs_inner s)) by apply Hs.
  destruct (renamed_call computeValue value_answer q s Hq Hs) as [n1 H1].
  { intros q' [? ? ? ?]. apply computeValue_spec; try done. by apply (mirror_sat q). } { intros q' r []. by apply mirror_value. }
  destruct (decide (getWidth (q_expr q) = Bool)) as [Hb|Hb]; [|exists n1; intros fuel Hf; split; [by apply H1|done]].
  destruct (renamed_call computeTruth truth_answer q s Hq Hs) as [n2 H2].
  { intros q' [? ? ? ?]. apply computeTruth_spec; try done; [by apply (mirror_sat q)|congruence]. } { intros q' r []. by apply mirror_truth. }
  destruct (renamed_call computeValidity validity_answer q s Hq Hs) as [n3 H3].
  { intros q' [? ? ? ?]. apply computeValidity_spec; try done; [by apply (mirror_sat q)|congruence]. } { intros q' r []. by apply mirror_validity. }
  exists (n1 `max` n2 `max` n3)%nat. intros fuel Hf. split; [apply H1; lia|]. intros _. split; [apply H2; lia|]. split; [apply H3; lia|].
  intros objects. unfold CanonicalSolver.computeInitialValues.
  destruct (computeInitialValues_spec q objects (cs_inner s) Hin (rq_ok q Hq) Hb) as ([r inner] & -> & Hr & Hi).
  apply returns_ok. split; [done|]. by split; [|apply Hs].
Qed.

(** ** Samples *)
Module CanonicalSamples.
#[local] Existing Instances ZOps ZOps_spec default_config everything.

(** An allocator that never reuses an address. *)
Definition top (m : UFManager) : Z := foldr (fun x => Z.max (uf_arr x)) 65535 m.
Definition alloc : ArrayAllocator :=
  {| cheat_constraints := true; unset_element := 0%nat; array_address := fun st => 1 + Z.max (top (ac_uf st)) (top (ac_uf_cheat st)) |}.
#[local] Existing Instance alloc.

Lemma top_fresh m x : top m < x -> fresh_addr x m.
Proof.
  unfold fresh_addr, top. induction m as [|a m IH]; intros H; [constructor|]. cbn [foldr] in H. constructor; [lia|]. apply IH. lia.
Qed.
#[export] Instance alloc_fresh : FreshAllocator.
Proof. split; [done|intros st _; apply top_fresh; cbn [array_address alloc]; lia..]. Qed.

Definition no_arrays : ACState := {| cachedSymbolicArrays := []; concreteArrays := []; ac_uf := []; ac_uf_cheat := [] |}.
Lemma no_arrays_ok : cache_ok no_arrays.
Proof. split; [split; try constructor; by intros [] |]. intros a []%elem_of_nil. Qed.

Definition cell0 (a : Array) : expr := ReadExpr a NullNode (cst Int32 0).
Definition is_one (a : Array) : expr := BinExpr Kind.Eq (cst Int8 1) (cell0 a).
Definition sample : Query := {| q_constraints := [is_one buf]; q_expr := is_one buf |}.

Lemma buf_foreign : foreign_array buf.
Proof. split; [|done]. split_and!; try done. apply (bool_decide_unpack _). by vm_compute. Qed.

Lemma cell0_eval rho a : isSymbolicArray a = true -> eval rho (cell0 a) = Some (wrap (range a) (rho a 0)).
Proof. intros H. unfold cell0. simpl. unfold initial. by rewrite H. Qed.

Lemma is_one_renamable : renamable (is_one buf).
Proof.
  assert (Hc : forall rho, has_value rho (cell0 buf)) by (intros rho; eexists; by apply cell0_eval).
  assert (Hk : forall w v rho, has_value rho (cst w v)) by (intros; by eexists).
  split; [|split; [split; [apply Hk|done]|]].
  - intros rho. destruct (Hc rho) as [x Hx]. exists (Z.b2z (1 =? x)). unfold is_one. cbn [eval]. by rewrite Hx.
  - split; [exact Hc|]. split; [apply buf_foreign|]. split; [done|]. split; [apply Hk|done].
Qed.

Lemma sample_query_ok : renamable_query sample /\ satisfiable sample.
Proof.
  split.
  - split; try done; [|apply is_one_renamable|repeat constructor; apply is_one_renamable]. split; cbn.
    + constructor; [|constructor]. split_and!; try done. concrete.
    + concrete.
    + done.
    + intros rho _. by apply renamable_value, is_one_renamable.
  - exists ones. split; [apply ones_ok|]. by repeat constructor.
Qed.

(** A query over arrays that have canonical names themselves.  The array of the name
    "c_8_2" is met first and renamed to that of the name "c_8_1", which is then
    taken for a canonical array and kept: the two are merged, and a condition that
    may fail becomes true. *)
Definition first : Array := {| arr_addr := 4096; name := "c_8_1"; UFE := 0; UFE_Cheat := 0; arr_size := 8; domain := Int32; range := Int8; constantValues := [] |}.
Definition second : Array := {| arr_addr := 8192; name := "c_8_2"; UFE := 1; UFE_Cheat := 1; arr_size := 8; domain := Int32; range := Int8; constantValues := [] |}.
Definition both : ACState :=
  {| cachedSymbolicArrays := [first; second]; concreteArrays := []; ac_uf := (create (create [] 4096).2 8192).2; ac_uf_cheat := (create (create [] 4096).2 8192).2 |}.
Definition differing : env := fun a _ => if bool_decide (a = first) then 1 else 0.

Lemma merged_arrays :
  eval differing (BinExpr Kind.Eq (cell0 second) (cell0 first)) = Some 0 /\
  exists cache, canonicalize 9 (BinExpr Kind.Eq (cell0 second) (cell0 first)) [] both = Ok (ConstantExpr (APInt Bool 1), [], cache).
Proof. split; [vm_compute; reflexivity|]. eexists. vm_compute. reflexivity. Qed.
End CanonicalSamples.

Lemma canonical_solver_correct_witness :
  exists fuel r s', @CanonicalSolver.computeTruth ZOps default_config CanonicalSamples.alloc unit (@Oracle.impl ZOps default_config) fuel CanonicalSamples.sample
    {| cs_map := ∅; cs_set := []; cs_arrays := CanonicalSamples.no_arrays; cs_inner := tt |} = Ok (r, s') /\ r <> Some false.
Proof.
  destruct (@canonical_solver_correct ZOps ZOps_spec default_config everything CanonicalSamples.alloc CanonicalSamples.alloc_fresh
    unit (@Oracle.impl ZOps default_config) (fun _ => True) (@Oracle.spec ZOps ZOps_spec default_config everything)
    CanonicalSamples.sample {| cs_map := ∅; cs_set := []; cs_arrays := CanonicalSamples.no_arrays; cs_inner := tt |}) as [n0 H].
  - apply CanonicalSamples.sample_query_ok.
  - apply CanonicalSamples.sample_query_ok.
  - split; [exact I|]. apply canon_inv_new, CanonicalSamples.no_arrays_ok.
  - exists n0. destruct (H n0 (le_n n0)) as [_ H0]. destruct (H0 eq_refl) as [H1 _]. destruct H1 as (p & E & Hr & Hi). exists (fst p), (snd p).
    split; [rewrite E; destruct p; reflexivity|]. intros Er. rewrite Er in Hr. destruct Hr as (rho & Hm & Hf). destruct Hm as [_ Hm].
    apply Forall_cons in Hm as [Hm _]. exact (not_both rho _ Hm Hf).
Defined.
