(* ===== verification/PossibleValues.v ===== *)
(** * The possible values of an expression

    [Executor::getNPossibleValues] of [klee/lib/Tase/TASETetriNETVerModels.cpp]
    enumerates what an expression can evaluate to under the path condition: the
    targets of an indirect jump, the addresses of an access, the value of a register
    that is not symbolic after all.  It renames the arrays of the query to canonical
    ones ([klee::canonicalize], [klee/lib/Solver/CanonicalSolver.cpp]), looks the query
    up in a cache keyed by a sum of hashes, and otherwise asks the solver for one value
    after the other. *)

From Stdlib Require ClassicalEpsilon.
From stdpp Require Import gmap pretty.
From S2P Require Import Prelude APInt ExprData Samples Bits ExprCompare ExprCreate ExprCreateSound ExprStructSound ExprVisitor UnionFind ArrayCache ExprUtil ExprWeight Rewriters Constraints ConstraintsSound Solver Canonical.
Local Open Scope Z_scope.

(** ** The cache and the enumeration *)
Definition values_cache := gmap Z (list expr).

Section values.
Context {AP : APIntOps} {CFG : Config} {AL : ArrayAllocator} {St : Type} {SI : SolverImpl St} {T : TimingSolver}.

Definition getExprConstraintHashKey (cons : list expr) (e : expr) : Z :=
  fold_left (fun hashSum c => u32 (hashSum + hash c)) cons (hash e).

(** [std::map::insert] keeps an entry that is there. *)
Definition updateGetNPossibleValuesCache (cons : list expr) (e : expr) (vals : list expr) (cache : values_cache) : values_cache :=
  let key := getExprConstraintHashKey cons e in
  match cache !! key with Some _ => cache | None => <[key := vals]> cache end.
Definition checkGetNPossibleValuesCache (cons : list expr) (e : expr) (cache : values_cache) : list expr :=
  if negb (getWidth e =? Int64) then []
  else default [] (cache !! getExprConstraintHashKey cons e).

(** [ExecutionState(constraints)] *)
Definition state_of (cons : list expr) : CState :=
  {| constraints := cons; cheatConstraints := []; ufmanager := []; ufmanager_cheat := [] |}.

(** The loop: the values, and whether they are all.  A failed [getValue] ends the
    process; [mbt] is not initialised when [mustBeTrue] fails. *)
Fixpoint enumerate (n : nat) (e : expr) (cons : list expr) (sols : list expr) (s : St) : result (list expr * bool * St) :=
  match n with
  | O => Ok (sols, false, s)
  | S k =>
      '(res, s) ← TS.getValue (state_of cons) e s;
      match res with
      | None => AssertFail
      | Some res =>
          let sols := sols ++ [ConstantExpr res] in
          t ← bin_create Kind.Eq e (ConstantExpr res);
          '(mbt, s) ← TS.mustBeTrue (state_of cons) t s;
          match mbt with
          | None => AssertFail
          | Some true => Ok (sols, true, s)
          | Some false =>
              t ← bin_create Kind.Eq e (ConstantExpr res);
              neg ← NotExpr_create t;
              enumerate k e (cons ++ [neg]) sols s
          end
      end
  end.

Definition getNPossibleValues (fuel : nat) (cons : list expr) (e : expr) (n : Z) (failOnTooBig : bool)
    (arrays : ACState) (cache : values_cache) (s : St) : result (list expr * ACState * values_cache * St) :=
  '(e, cons, arrays) ← canonicalize fuel e cons arrays;
  match checkGetNPossibleValuesCache cons e cache with
  | (_ :: _) as sols => Ok (sols, arrays, cache, s)
  | [] =>
      '(sols, complete, s) ← enumerate (Z.to_nat n) e cons [] s;
      if complete : bool then
        Ok (sols, arrays, (if getWidth e =? Int64 then updateGetNPossibleValuesCache cons e sols cache else cache), s)
      else if failOnTooBig then AssertFail
      else Ok (sols, arrays, cache, s)
  end.
End values.

(** ** Correctness of the enumeration *)
Section enumeration.
Context {AP : APIntOps} {SP : APIntSpec AP} {CFG : Config} {SUP : Supported} {St : Type} {SI : SolverImpl St}.
Context {inv : St -> Prop} {SS : SolverSpec SI inv} {T : TimingSolver}.

(** A condition of a query. *)
Definition cond_ok (c : expr) : Prop := wf c /\ getWidth c = Bool /\ supported c.

(** The solver answers what it is asked, path conditions can be simplified against,
    and it supports negations. *)
Record answering : Prop := {
  an_truth q s s' : computeTruth q s <> Ok (None, s');
  an_value q s s' : q_ok q -> satisfiable q -> computeValue q s <> Ok (None, s');
  an_simplify cons : Forall cond_ok cons -> simplifies (state_of cons);
  an_not e e' : wf e -> supported e -> NotExpr_create e = Ok e' -> supported e';
}.
Context (Han : answering).

Definition vq (cons : list expr) (e : expr) : Query := TS.query (state_of cons) e.
Definition constant (w v : Z) : expr := ConstantExpr (APInt w v).

Lemma TS_value_some cons e s p : q_ok (vq cons e) -> satisfiable (vq cons e) ->
  TS.getValue (state_of cons) e s = Ok p -> fst p <> None.
Proof.
  intros Hq Hsat. pose proof (an_simplify Han cons (qk_constraints _ Hq)) as Hsim.
  assert (Hgo : (e' ← TS.simplify (state_of cons) e; getValue (TS.query (state_of cons) e') s) = Ok p -> fst p <> None).
  { destruct (simplify_ok (state_of cons) Hsim Hsat e Hq) as (e' & -> & Hq' & _). cbn [mbind result_bind]. unfold getValue.
    pose proof (fun s' => an_value Han (TS.query (state_of cons) e') s s' Hq' Hsat) as Hn.
    assert (Hc : ('(tmp, s) ← computeValue (TS.query (state_of cons) e') s;
      match tmp with None => Ok (None, s) | Some (ConstantExpr c) => Ok (Some c, s) | Some _ => AssertFail end) = Ok p -> fst p <> None).
    { destruct (computeValue _ _) as [[[v|] s1]| |] eqn:E; try done; [|by destruct (Hn s1)]. cbn [mbind result_bind].
      destruct v; try done. by intros [= <-]. }
    destruct (q_expr _); try exact Hc. by intros [= <-]. }
  unfold TS.getValue. destruct e; try exact Hgo. by intros [= <-].
Qed.

Lemma TS_must_some cons e s p : TS.mustBeTrue (state_of cons) e s = Ok p -> fst p <> None.
Proof.
  unfold TS.mustBeTrue. pose proof (an_truth Han) as Ht.
  destruct e; try (destruct (TS.simplify _ _) as [e'| |]; try done; cbn [mbind result_bind]; by apply must_total).
  by intros [= <-].
Qed.

(** The test for one value, and its negation. *)
Lemma value_test cons e v : q_ok (vq cons e) -> inw (getWidth e) v ->
  returns (bin_create Kind.Eq e (constant (getWidth e) v)) (fun t =>
    q_ok (vq cons t) /\ getWidth t = Bool /\
    forall rho x, models (vq cons e) rho -> eval rho e = Some x -> eval rho t = Some (Z.b2z (x =? v))).
Proof.
  intros Hq Hv. pose proof (wf_width _ (qk_wf _ Hq)) as Hw. simpl in Hw.
  assert (Wc : wf (constant (getWidth e) v)) by (by split).
  destruct (bin_create_builds Kind.Eq e (constant (getWidth e) v)) as (t & Et & Wt & Ew & Rt); [apply Hq|done|done|by apply not_div_ok|].
  exists t. split; [done|]. assert (Hev : forall rho x, models (vq cons e) rho -> eval rho e = Some x -> eval rho t = Some (Z.b2z (x =? v))).
  { intros rho x Hm Hx. apply Rt. simpl. by rewrite Hx. }
  split; [|split; [done|exact Hev]]. constructor; [apply Hq|done| |].
  - eapply (supported_bin Kind.Eq e (constant (getWidth e) v)); try done; [apply Hq|apply Hq|apply supported_const].
  - intros rho Hm. destruct (qk_value _ Hq rho Hm) as [x Hx]. eexists. by apply Hev.
Qed.

Lemma negated_test cons e v : q_ok (vq cons e) -> inw (getWidth e) v ->
  returns (t ← bin_create Kind.Eq e (constant (getWidth e) v); NotExpr_create t) (fun neg =>
    cond_ok neg /\ forall rho x, models (vq cons e) rho -> eval rho e = Some x -> true_under rho neg <-> x <> v).
Proof.
  intros Hq Hv. eapply returns_bind; [by apply (value_test cons)|]. intros t (Hqt & Wt & Et).
  destruct (NotExpr_create_builds t) as (n & En & Wn & Ew & Rn); [apply Hqt|]. exists n. split; [done|]. split.
  - split; [done|]. split; [simpl in Ew; congruence|]. eapply (an_not Han); [apply Hqt|apply Hqt|exact En].
  - intros rho x Hm Hx. assert (E : eval rho n = Some (Z.b2z (negb (x =? v)))).
    { apply Rn. simpl. rewrite (Et rho x Hm Hx), Wt. by destruct (x =? v). }
    unfold true_under. rewrite E. destruct (Z.eqb_spec x v) as [->|N]; simpl; split; done.
Qed.

(** Excluding a value removes it and no other. *)
Lemma exclude cons e v neg : q_ok (vq cons e) -> cond_ok neg ->
  (forall rho x, models (vq cons e) rho -> eval rho e = Some x -> true_under rho neg <-> x <> v) ->
  q_ok (vq (cons ++ [neg]) e) /\ forall x, takes (vq (cons ++ [neg]) e) x <-> takes (vq cons e) x /\ x <> v.
Proof.
  intros Hq Hneg Hn.
  assert (Hm : forall rho, models (vq (cons ++ [neg]) e) rho <-> models (vq cons e) rho /\ true_under rho neg).
  { intros rho. unfold models, vq. cbn [TS.query q_constraints state_of constraints]. rewrite Forall_app, Forall_singleton. tauto. }
  split.
  - constructor; [|apply Hq|apply Hq|].
    + cbn. apply Forall_app. split; [apply Hq|]. by constructor.
    + intros rho [H _]%Hm. by apply (qk_value _ Hq).
  - intros x. unfold takes. split.
    + intros (rho & [H1 H2]%Hm & Hx). split; [by exists rho|]. by apply (Hn rho x).
    + intros [(rho & H1 & Hx) N]. exists rho. split; [|done]. apply Hm. split; [done|]. by apply (Hn rho x).
Qed.

(** The values found: all of them, or as many as were asked for and there are more. *)
Definition enumerated (n : nat) (q : Query) (vs : list Z) (complete : bool) : Prop :=
  NoDup vs /\ (forall v, v ∈ vs -> takes q v) /\ (length vs <= n)%nat /\
  if complete then forall x, takes q x -> x ∈ vs else length vs = n /\ exists x, takes q x /\ ~ x ∈ vs.

Lemma enumerate_ok e n : forall cons sols s, inv s -> q_ok (vq cons e) -> satisfiable (vq cons e) ->
  returns (enumerate n e cons sols s) (fun p => let '(sols', complete, s') := p in inv s' /\
    exists vs, sols' = sols ++ map (constant (getWidth e)) vs /\ enumerated n (vq cons e) vs complete).
Proof.
  induction n as [|n IH]; intros cons sols s Hs Hq Hsat; cbn [enumerate].
  { apply returns_ok. split; [done|]. exists []. rewrite app_nil_r. split; [done|]. destruct Hsat as [rho Hm].
    destruct (qk_value _ Hq rho Hm) as [x Hx]. split; [constructor|]. split; [by intros v Hv%elem_of_nil|]. split; [done|].
    split; [done|]. exists x. split; [by exists rho|]. by intros ?%elem_of_nil. }
  pose proof (an_simplify Han cons (qk_constraints _ Hq)) as Hsim.
  destruct (TS_getValue_ok (state_of cons) Hsim Hsat e s Hs Hq) as ([r s1] & Er & Hr & Hs1). rewrite Er. cbn [mbind result_bind].
  apply TS_value_some in Er; [|done|done]. destruct r as [c|]; [|done]. cbn [fst snd] in *.
  destruct Hr as (d & [= <-] & Hc & Wc & rho0 & Hm0 & Hx0). cbn [TS.query q_expr] in Wc, Hx0.
  assert (Ec : ConstantExpr c = constant (getWidth e) (raw c)) by (unfold constant; destruct c; simpl in *; congruence).
  rewrite Ec. assert (Hin : inw (getWidth e) (raw c)) by (rewrite <- Wc; apply Hc).
  destruct (value_test cons e (raw c) Hq Hin) as (t & Et & Hqt & Wt & Ht). rewrite Et. cbn [mbind result_bind].
  destruct (TS_mustBeTrue_ok (state_of cons) Hsim Hsat t s1 Hs1 Hqt Wt) as ([b s2] & Eb & Hb & Hs2). rewrite Eb. cbn [mbind result_bind].
  apply TS_must_some in Eb. cbn [fst snd] in *. destruct b as [[]|]; [| |done].
  - apply returns_ok. split; [done|]. exists [raw c]. split; [done|]. split; [apply NoDup_singleton|].
    split; [intros v ->%list_elem_of_singleton; by exists rho0|]. split; [simpl; lia|]. intros x (rho & Hm & Hx).
    specialize (Hb rho Hm). unfold true_under in Hb. cbn [TS.query q_expr] in Hb. rewrite (Ht rho x Hm Hx) in Hb.
    apply list_elem_of_singleton. destruct (Z.eqb_spec x (raw c)); [done|discriminate Hb].
  - destruct (negated_test cons e (raw c) Hq Hin) as (neg & En & Hneg & Hn). rewrite Et in En. cbn [mbind result_bind] in En. rewrite En. cbn [mbind result_bind].
    destruct (exclude cons e (raw c) neg Hq Hneg Hn) as [Hq' Htk].
    assert (Hsat' : satisfiable (vq (cons ++ [neg]) e)).
    { destruct Hb as (rho & Hm & Hf). destruct (qk_value _ Hq rho Hm) as [x Hx].
      assert (takes (vq (cons ++ [neg]) e) x) as (rho' & H' & _); [|by exists rho'].
      apply Htk. split; [by exists rho|]. unfold false_under in Hf. cbn [TS.query q_expr] in Hf. rewrite (Ht rho x Hm Hx) in Hf.
      intros ->. rewrite Z.eqb_refl in Hf. discriminate Hf. }
    eapply returns_weaken; [by apply (IH (cons ++ [neg]) (sols ++ [constant (getWidth e) (raw c)]) s2)|].
    intros [[sols' complete] s3] (Hs3 & vs & -> & Hnd & Hvs & Hlen & Hcomp). split; [done|]. exists (raw c :: vs).
    split; [by rewrite <- app_assoc|]. split.
    { constructor; [|done]. intros Hv%Hvs. by apply Htk in Hv as [_ ?]. }
    split; [intros v [->|Hv]%elem_of_cons; [by exists rho0|by apply Htk, Hvs]|]. split; [simpl; lia|]. destruct complete.
    + intros x Hx. destruct (Z.eq_dec x (raw c)) as [->|N]; [left|right]. apply Hcomp, Htk. done.
    + destruct Hcomp as [<- (x & Hx & Hnx)]. split; [done|]. apply Htk in Hx as [Hx N]. exists x. split; [done|].
      by intros [->|?]%elem_of_cons.
Qed.
End enumeration.

(** ** getNPossibleValues *)
Section possible_values.
Context {AP : APIntOps} {SP : APIntSpec AP} {CFG : Config} {SUP : Supported} {AL : ArrayAllocator} {FA : FreshAllocator} {St : Type} {SI : SolverImpl St}.
Context {inv : St -> Prop} {SS : SolverSpec SI inv} {T : TimingSolver}.

(** Renaming the arrays gives the query [cons'], [e'] with the same values. *)
Record canonicalizes (fuel : nat) (cons : list expr) (e : expr) (arrays : ACState) (cons' : list expr) (e' : expr) : Prop := {
  ca_result : exists arrays', canonicalize fuel e cons arrays = Ok (e', cons', arrays') /\ cache_ok arrays';
  ca_width : getWidth e' = getWidth e;
  ca_ok : q_ok (vq cons' e');
  ca_values x : takes (vq cons' e') x <-> takes (vq cons e) x;
}.

Lemma canonicalize_settles cons e arrays : renamable_query (vq cons e) -> cache_ok arrays ->
  exists n0 cons' e', forall fuel, (n0 <= fuel)%nat -> canonicalizes fuel cons e arrays cons' e'.
Proof.
  intros Hq Ha. destruct (canonicalize_with_ok (rq_opt _ Hq) e cons ∅ [] arrays) as (r & n0 & Hn & Hr).
  { by apply canon_inv_new. } { apply (qk_wf _ (rq_ok _ Hq)). } { apply (rq_expr _ Hq). }
  { pose proof (rq_constraints _ Hq) as Hc. pose proof (qk_constraints _ (rq_ok _ Hq)) as Hk. rewrite Forall_forall in Hc, Hk.
    apply Forall_forall. intros c Hin. split; [by apply Hk|by apply Hc]. }
  destruct Hr as [([[e' cons'] u] & -> & Hu & He & Hcs)|[[[] _]|[[] _]]]. exists n0, cons', e'. intros fuel Hf.
  destruct (stands_mirrored u (vq cons e) e' cons' Hq Hu He Hcs) as [M1 M2 M3 M4]. split; [|done|exact M1|by apply mirror_takes].
  exists (array_cache u). split; [|apply Hu]. unfold canonicalize. by rewrite (Hn fuel Hf).
Qed.

(** What the cache holds after the renamed queries [asked]: under the key of one of
    them, all its values. *)
Definition exactly (q : Query) (vs : list Z) : Prop := NoDup vs /\ forall x, takes q x <-> x ∈ vs.
Definition key_of (p : list expr * expr) : Z := getExprConstraintHashKey (fst p) (snd p).
Definition stored_for (asked : list (list expr * expr)) (cache : values_cache) : Prop :=
  forall key vals, cache !! key = Some vals -> exists p vs, p ∈ asked /\ key_of p = key /\
    vals = map (constant (getWidth (snd p))) vs /\ exactly (vq (fst p) (snd p)) vs.
(** The queries with the key of [p] are [p], up to the order of the constraints. *)
Definition no_collision (asked : list (list expr * expr)) (p : list expr * expr) : Prop :=
  forall p', p' ∈ asked -> key_of p' = key_of p -> snd p' = snd p /\ fst p' ≡ₚ fst p.

Lemma stored_empty : stored_for [] ∅.
Proof. intros key vals Hl. unfold values_cache in *. by rewrite lookup_empty in Hl. Qed.

Lemma stored_more asked p cache : stored_for asked cache -> stored_for (p :: asked) cache.
Proof. intros H key vals (p' & vs & Hp & Hr)%H. exists p', vs. split; [by right|done]. Qed.

Lemma takes_permuted cons cons' e x : cons ≡ₚ cons' -> takes (vq cons e) x <-> takes (vq cons' e) x.
Proof.
  intros Hp. unfold takes, models, vq. cbn [TS.query q_constraints q_expr state_of constraints].
  split; intros (rho & [Ho Hc] & Hx); exists rho; (split; [split; [done|]|done]); [by rewrite <- Hp|by rewrite Hp].
Qed.

Lemma exactly_same q q' vs : (forall x, takes q' x <-> takes q x) -> exactly q' vs -> exactly q vs.
Proof. intros H [? Hx]. split; [done|]. intros x. by rewrite <- H. Qed.

(** The entry that is found is for the query. *)
Lemma stored_lookup asked cache cons e vals : stored_for asked cache -> no_collision asked (cons, e) ->
  cache !! getExprConstraintHashKey cons e = Some vals -> exists vs, vals = map (constant (getWidth e)) vs /\ exactly (vq cons e) vs.
Proof.
  intros Hst Hnc (p & vs & Hp & Hk & -> & Hex)%Hst. destruct (Hnc p Hp Hk) as [E Hperm]. cbn [fst snd] in *. rewrite E in *.
  exists vs. split; [done|]. eapply exactly_same; [|exact Hex]. intros x. by apply takes_permuted.
Qed.

Lemma stored_update asked cache cons e vs : stored_for asked cache -> exactly (vq cons e) vs ->
  stored_for ((cons, e) :: asked) (updateGetNPossibleValuesCache cons e (map (constant (getWidth e)) vs) cache).
Proof.
  intros Hst Hex. unfold updateGetNPossibleValuesCache. destruct (cache !! _) eqn:El; [by apply stored_more|].
  intros key vals Hl. destruct (decide (key = getExprConstraintHashKey cons e)) as [->|N].
  - assert (Some vals = Some (map (constant (getWidth e)) vs)) as [= ->] by (rewrite <- Hl; apply (lookup_insert_eq (M := gmap Z))).
    exists (cons, e), vs. split; [left|done].
  - apply (stored_more asked _ cache Hst). rewrite <- Hl. symmetry. by apply (lookup_insert_ne (M := gmap Z)).
Qed.

(** The outcome of a call. *)
Definition values_outcome (q : Query) (n : Z) (failOnTooBig : bool) (ok : values_cache -> Prop)
    (m : result (list expr * ACState * values_cache * St)) : Prop :=
  match m with
  | Ok (sols, arrays, cache, s) => inv s /\ cache_ok arrays /\ ok cache /\ exists vs, sols = map (constant (getWidth (q_expr q))) vs /\
      (exactly q vs \/
       failOnTooBig = false /\ NoDup vs /\ Z.of_nat (length vs) = n /\ (forall x, x ∈ vs -> takes q x) /\ exists x, takes q x /\ ~ x ∈ vs)
  | AssertFail => failOnTooBig = true /\
      exists vs, NoDup vs /\ Z.of_nat (length vs) = n + 1 /\ forall x, x ∈ vs -> takes q x
  | OutOfFuel => False
  end.

Lemma getNPossibleValues_ok (Han : answering) fuel cons e n b arrays asked cache s cons' e' :
  0 <= n -> inv s -> satisfiable (vq cons e) -> q_ok (vq cons e) -> canonicalizes fuel cons e arrays cons' e' ->
  stored_for asked cache -> no_collision asked (cons', e') ->
  values_outcome (vq cons e) n b (stored_for ((cons', e') :: asked)) (getNPossibleValues fuel cons e n b arrays cache s).
Proof.
  intros Hn Hs Hsat Hq0 [(arrays' & Ec & Harr) Wc Hq Htk] Hst Hnc. unfold getNPossibleValues. rewrite Ec. cbn [mbind result_bind].
  pose proof (stored_more asked (cons', e') cache Hst) as Hmore.
  assert (Hsat' : satisfiable (vq cons' e')).
  { destruct (takes_some (vq cons e) Hq0 Hsat) as [x Hx]. apply Htk in Hx as (rho & Hm & _). by exists rho. }
  destruct (checkGetNPossibleValuesCache cons' e' cache) as [|v0 vals] eqn:Ek.
  2:{ unfold checkGetNPossibleValuesCache in Ek. destruct (getWidth e' =? Int64); [|discriminate Ek]. cbn [negb] in Ek.
      destruct (cache !! _) as [l|] eqn:El; [|discriminate Ek]. assert (l = v0 :: vals) as -> by exact Ek.
      destruct (stored_lookup asked cache cons' e' _ Hst Hnc El) as (vs & Ev & Hex). split_and!; try done. exists vs.
      split; [rewrite Ev; cbn [q_expr vq TS.query]; by rewrite Wc|]. left. by eapply exactly_same. }
  destruct (enumerate_ok Han e' (Z.to_nat n) cons' [] s Hs Hq Hsat') as ([[sols complete] s'] & Ee & Hs' & vs & Es & Hnd & Hvs & Hlen & Hcomp).
  rewrite Ee. cbn [mbind result_bind]. cbn [app] in Es.
  assert (Ew : sols = map (constant (getWidth (q_expr (vq cons e)))) vs) by (rewrite Es; cbn [q_expr vq TS.query]; by rewrite Wc).
  destruct complete.
  - assert (Hex : exactly (vq cons' e') vs) by (split; [done|]; intros x; split; [apply Hcomp|apply Hvs]).
    split_and!; try done; [|exists vs; split; [done|]; left; by eapply exactly_same].
    destruct (getWidth e' =? Int64); [|done]. rewrite Es. by apply stored_update.
  - destruct Hcomp as [Hl (x & Hx & Hnx)]. destruct b.
    + split; [done|]. exists (x :: vs). split; [by constructor|]. split; [simpl; lia|].
      intros y [->|Hy]%elem_of_cons; apply Htk; auto.
    + split_and!; try done. exists vs. split; [done|]. right. split; [done|]. split; [done|]. split; [lia|].
      split; [intros y Hy; apply Htk; auto|]. exists x. split; [by apply Htk|done].
Qed.

(** A single value is the value under every solution. *)
Lemma single_value q n b ok sols arrays cache s v : 1 < n -> values_outcome q n b ok (Ok (sols, arrays, cache, s)) -> sols = [v] ->
  exists x, v = constant (getWidth (q_expr q)) x /\ forall rho y, models q rho -> eval rho (q_expr q) = Some y -> y = x.
Proof.
  intros Hn (_ & _ & _ & vs & -> & Hvs) E. destruct vs as [|x [|]]; try discriminate E. injection E as <-. exists x. split; [done|].
  intros rho y Hm Hy. destruct Hvs as [[_ H]|(_ & _ & Hl & _)]; [|simpl in Hl; lia].
  assert (Hty : takes q y) by (by exists rho). by apply H, list_elem_of_singleton in Hty.
Qed.
End possible_values.

(** ** Theorem *)

(** C10. [getNPossibleValues] enumerates exactly what an expression can be.  The cache
    starts empty; suppose that it has been filled by the queries [asked] (renamed).  A
    call returns without duplicates all the values the expression takes under the path
    condition, unless there are more than [n]: then it returns [n] of them or, with
    [failOnTooBig], ends the process; the cache is then the one after [asked] and this
    query, and the state is ready for the next call.  A result of one value is the
    value under every solution of the path condition.  Assumed: the path condition is
    satisfiable and [n] is above 1; the arrays of the query are symbolic arrays of bytes
    without canonical names, each part of it has a value, and the options leave constant
    arrays out ([renamable_query]); the solver below answers every question; there is enough fuel
    for the renaming; and no earlier query with the same 32-bit key is a different one
    ([no_collision]: [Collision.same_key] below has two queries where the code returns
    the values of the wrong one). *)
Theorem possible_values_exact {AP : APIntOps} {SP : APIntSpec AP} {CFG : Config} {SUP : Supported} {AL : ArrayAllocator} {FA : FreshAllocator}
    {St : Type} {SI : SolverImpl St} {inv : St -> Prop} {SS : SolverSpec SI inv} {T : TimingSolver} cons e n failOnTooBig arrays s :
  answering -> 1 < n -> inv s -> satisfiable (vq cons e) -> renamable_query (vq cons e) -> cache_ok arrays ->
  stored_for [] ∅ /\
  exists n0 cons' e', forall fuel, (n0 <= fuel)%nat ->
    (exists arrays', canonicalize fuel e cons arrays = Ok (e', cons', arrays')) /\
    forall asked cache, stored_for asked cache -> no_collision asked (cons', e') ->
      let m := getNPossibleValues fuel cons e n failOnTooBig arrays cache s in
      values_outcome (inv := inv) (vq cons e) n failOnTooBig (stored_for ((cons', e') :: asked)) m /\
      forall v arrays' cache' s', m = Ok ([v], arrays', cache', s') ->
        exists x, v = constant (getWidth e) x /\ forall rho y, models (vq cons e) rho -> eval rho e = Some y -> y = x.
Proof.
  intros Han Hn Hs Hsat Hq Ha. split; [exact stored_empty|]. destruct (canonicalize_settles cons e arrays Hq Ha) as (n0 & cons' & e' & Hcan).
  exists n0, cons', e'. intros fuel Hf. specialize (Hcan fuel Hf).
  split; [destruct (ca_result _ _ _ _ _ _ Hcan) as (arrays' & ? & _); by exists arrays'|]. intros asked cache Hst Hnc m.
  assert (H : values_outcome (inv := inv) (vq cons e) n failOnTooBig (stored_for ((cons', e') :: asked)) m).
  { apply getNPossibleValues_ok; (done || lia || apply Hq). }
  split; [exact H|]. intros v arrays' cache' s' Em. rewrite Em in H.
  exact (single_value (vq cons e) n failOnTooBig _ [v] arrays' cache' s' v Hn H eq_refl).
Qed.

(** ** Where the cache goes wrong *)

(** The key of a query is a sum of 32-bit hashes, and the hash of an [ExtractExpr] is
    symmetric in offset and width: different expressions have the same key, and the
    values of one are returned for the other. *)
Module Collision.
#[local] Existing Instances ZOps default_config.
Definition word : expr := ConcatExpr (byte 3) (ConcatExpr (byte 2) (ConcatExpr (byte 1) (byte 0))).
Definition upper : expr := ZExtExpr (ExtractExpr word 8 16) Int64.
Definition third : expr := ZExtExpr (ExtractExpr word 16 8) Int64.

Lemma same_key : getExprConstraintHashKey [] upper = getExprConstraintHashKey [] third /\
  eval ramp upper = Some 0x0201 /\ eval ramp third = Some 2.
Proof. split_and!; vm_compute; reflexivity. Qed.

End Collision.

(** ** Witness *)
Module SampleValues.
Import CanonicalSamples.
#[local] Existing Instances ZOps ZOps_spec default_config everything alloc.
#[local] Instance plain : TimingSolver := {| simplifyExprs := false; simplify_fuel := fun _ => 0%nat |}.
Definition wide (a : Array) : expr := ZExtExpr (cell0 a) Int64.

Lemma wide_eval rho : exists b, eval rho (wide buf) = Some b /\ eval rho (is_one buf) = Some (Z.b2z (1 =? b)).
Proof.
  exists (wrap 8 (rho buf 0)). assert (eval rho (cell0 buf) = Some (wrap 8 (rho buf 0))) as E by (by apply cell0_eval).
  unfold wide, is_one. cbn [eval]. rewrite E. simpl. unfold bv_zext.
  assert (inw 8 (wrap 8 (rho buf 0))) as Hb by (apply wrap_inw; lia).
  rewrite wrap_small; [done|]. unfold inw in *. unfold Int64. lia.
Qed.

Lemma one_value : satisfiable (vq [is_one buf] (wide buf)) /\ forall x, takes (vq [is_one buf] (wide buf)) x <-> x = 1.
Proof.
  assert (Hones : models (vq [is_one buf] (wide buf)) ones) by (split; [apply ones_ok|]; by repeat constructor).
  split; [by exists ones|]. intros x. split.
  - intros (rho & [_ Hc] & Hx). apply Forall_cons in Hc as [H1 _]. destruct (wide_eval rho) as (b & E1 & E2). unfold true_under in H1.
    rewrite E2 in H1. cbn [vq TS.query q_expr] in Hx. rewrite E1 in Hx. destruct (Z.eqb_spec 1 b); [congruence|discriminate H1].
  - intros ->. by exists ones.
Qed.

Lemma query_renamable : renamable_query (vq [is_one buf] (wide buf)).
Proof.
  destruct sample_query_ok as [[_ [Hc _ _ _] _ Hr _] _]. pose proof is_one_renamable as (_ & _ & Hcell).
  assert (Hv : forall rho, has_value rho (wide buf)) by (intros rho; destruct (wide_eval rho) as (b & ? & _); by exists b).
  split; [done| |split; [exact Hv|exact Hcell]|exact Hr|done]. split; [exact Hc|concrete|done|]. intros rho _. apply Hv.
Qed.

Lemma oracle_answers : @answering ZOps default_config everything unit (@Oracle.impl ZOps default_config) plain.
Proof.
  constructor; try done. intros q s s' Hq [rho Hm]. cbn [computeValue Oracle.impl]. unfold Oracle.value.
  destruct (ClassicalEpsilon.excluded_middle_informative _) as [?|N]; [done|]. destruct N. destruct (qk_value _ Hq rho Hm) as [x Hx].
  pose proof (eval_inw rho _ _ (qk_wf _ Hq) Hx) as Hi. pose proof (wf_width _ (qk_wf _ Hq)).
  exists (APInt (getWidth (q_expr q)) x), (APInt (getWidth (q_expr q)) x). split; [done|]. split; [by split|]. split; [done|]. by exists rho.
Qed.

(** A list without duplicates of the only value. *)
Lemma only_one (vs : list Z) : NoDup vs -> (forall y, y ∈ vs -> y = 1) -> 1 ∈ vs \/ length vs = 3%nat -> vs = [1].
Proof.
  intros Hnd Hall H1. destruct vs as [|y [|z vs]]; [by destruct H1 as [?%elem_of_nil|?]|by rewrite (Hall y) by left|].
  exfalso. inversion Hnd as [|? ? Hy _]; subst. apply Hy. rewrite (Hall y), (Hall z) by set_solver. left.
Qed.
End SampleValues.

Lemma possible_values_exact_witness :
  exists fuel, match @getNPossibleValues ZOps default_config CanonicalSamples.alloc unit (@Oracle.impl ZOps default_config) SampleValues.plain
    fuel [CanonicalSamples.is_one buf] (SampleValues.wide buf) 3 false CanonicalSamples.no_arrays ∅ tt with
  | Ok (sols, _, _, _) => sols = [constant 64 1] | _ => False end.
Proof.
  destruct SampleValues.one_value as (Hsat & Htk).
  destruct (@possible_values_exact ZOps ZOps_spec default_config everything CanonicalSamples.alloc CanonicalSamples.alloc_fresh
    unit (@Oracle.impl ZOps default_config) (fun _ => True) (@Oracle.spec ZOps ZOps_spec default_config everything) SampleValues.plain
    [CanonicalSamples.is_one buf] (SampleValues.wide buf) 3 false CanonicalSamples.no_arrays tt) as (_ & n0 & cons' & e' & H).
  - exact SampleValues.oracle_answers.
  - lia.
  - exact I.
  - exact Hsat.
  - exact SampleValues.query_renamable.
  - exact CanonicalSamples.no_arrays_ok.
  - exists n0. destruct (H n0 (le_n n0)) as [_ H']. clear H.
    destruct (H' [] ∅ stored_empty) as [H _]; [by intros p Hp%elem_of_nil|]. clear H'.
    destruct (getNPossibleValues _ _ _ _ _ _ _ _) as [[[[sols arrays] cache] s]| |]; [|destruct H as [H _]; discriminate H|exact H].
    destruct H as (_ & _ & _ & vs & -> & Hvs). assert (vs = [1]) as ->; [|reflexivity].
    destruct Hvs as [[Hnd Hx]|(_ & Hnd & Hl & Hx & _)]; (apply SampleValues.only_one; [exact Hnd|intros y Hy; by apply Htk, Hx|]);
      [left; by apply Hx, Htk|right; lia].
Defined.
