(* ===== verification/MapOfSets.v ===== *)
(** * MapOfSets: maps keyed by finite sets

    Models [klee/include/klee/Internal/ADT/MapOfSets.h], the trie ("UBTree") behind
    the counterexample cache.  A key is a [std::set], here its elements in
    increasing order; an edge of the trie is labelled by an element, and the
    children of a node are a [std::map], kept in the order of the labels.  The
    pointers the searches return are dereferenced by the callers at once, so the
    model returns the value.  The iterator of the class is not used in the
    repository and is left out. *)

From S2P Require Import Prelude.
From Stdlib Require Import Sorting.Sorted.

(** [operator<] and [operator==] of the key type. *)
Class KeyOrder (K : Type) := { klt : K -> K -> bool; keq : K -> K -> bool }.

(** Their laws, on the keys that satisfy [P]. *)
Class KeyLaws {K} (O : KeyOrder K) (P : K -> Prop) : Prop := {
  keq_spec a b : P a -> P b -> keq a b = true <-> a = b;
  klt_irrefl a : P a -> klt a a = false;
  klt_trans a b c : P a -> P b -> P c -> klt a b = true -> klt b c = true -> klt a c = true;
  klt_total a b : P a -> P b -> klt a b = false -> klt b a = false -> a = b;
}.

Module MOS.
Section trie.
Context {K V : Type} {KO : KeyOrder K} (uninitialised : V).

Inductive node : Type :=
| MNode (isEndOfSet : bool) (value : V) (children : forest)
with forest : Type :=
| FNil
| FCons (key : K) (child : node) (rest : forest).

Definition isEndOfSet (n : node) : bool := match n with MNode e _ _ => e end.
Definition value (n : node) : V := match n with MNode _ v _ => v end.
Definition children (n : node) : forest := match n with MNode _ _ c => c end.

(** [Node()] *)
Definition new_node : node := MNode false uninitialised FNil.

(** [std::set::insert] *)
Fixpoint set_insert (x : K) (s : list K) : list K :=
  match s with
  | [] => [x]
  | y :: s' => if klt y x then y :: set_insert x s' else if klt x y then x :: s else s
  end.

(** [std::map::find] *)
Fixpoint find (f : forest) (x : K) : option node :=
  match f with
  | FNil => None
  | FCons k c f' => if klt k x then find f' x else if klt x k then None else Some c
  end.

(** [children.insert(std::make_pair(x, Node())).first->second], to which [g] is applied. *)
Fixpoint at_child (f : forest) (x : K) (g : node -> node) : forest :=
  match f with
  | FNil => FCons x (g new_node) FNil
  | FCons k c f' =>
      if klt k x then FCons k c (at_child f' x g)
      else if klt x k then FCons x (g new_node) f else FCons k (g c) f'
  end.

Fixpoint insert (set : list K) (v : V) (n : node) : node :=
  match set with
  | [] => MNode true v (children n)
  | x :: set' => MNode (isEndOfSet n) (value n) (at_child (children n) x (insert set' v))
  end.

Fixpoint lookup (set : list K) (n : node) : option V :=
  match set with
  | [] => if isEndOfSet n then Some (value n) else None
  | x :: set' => match find (children n) x with Some c => lookup set' c | None => None end
  end.

Definition clear : node := new_node.

(** *** All subsets, all supersets *)
Definition here (n : node) (accum : list K) : list (list K * V) :=
  if isEndOfSet n then [(accum, value n)] else [].

(** The loop over the elements of [findSubsets]. *)
Fixpoint findSubsets_loop (set : list K) (n : node) (accum : list K) : list (list K * V) :=
  match set with
  | [] => []
  | elt :: set' =>
      match find (children n) elt with
      | Some c => let nacc := set_insert elt accum in here c nacc ++ findSubsets_loop set' c nacc
      | None => []
      end ++ findSubsets_loop set' n accum
  end.
Definition findSubsets (n : node) (accum set : list K) : list (list K * V) :=
  here n accum ++ findSubsets_loop set n accum.
Definition subsets (n : node) (set : list K) : list (list K * V) := findSubsets n [] set.

Fixpoint findSupersets (n : node) (accum set : list K) : list (list K * V) :=
  match n with
  | MNode e v ch =>
      match set with
      | [] => (if e then [(accum, v)] else []) ++ supersets_all ch accum
      | elt :: next => supersets_upto ch accum elt next
      end
  end
with supersets_all (f : forest) (accum : list K) : list (list K * V) :=
  match f with
  | FNil => []
  | FCons k c f' => findSupersets c (set_insert k accum) [] ++ supersets_all f' accum
  end
with supersets_upto (f : forest) (accum : list K) (elt : K) (next : list K) : list (list K * V) :=
  match f with
  | FNil => []
  | FCons k c f' =>
      let nacc := set_insert k accum in
      if keq elt k then findSupersets c nacc next ++ supersets_upto f' accum elt next
      else if klt k elt then findSupersets c nacc (elt :: next) ++ supersets_upto f' accum elt next
      else []
  end.
Definition supersets (n : node) (set : list K) : list (list K * V) := findSupersets n [] set.

(** *** Searches *)
Section search.
Variable p : V -> bool.

(** [while ( *it < kbegin->first) ++it] *)
Fixpoint skip (k : K) (it : list K) : list K :=
  match it with [] => [] | x :: it' => if klt x k then skip k it' else it end.

(** [subset_loop] is the loop over the children; its first test is both
    [lower_bound( *begin)] and the last [while]. *)
Fixpoint findSubset (n : node) (set : list K) : option V :=
  match n with
  | MNode e v ch => if e && p v then Some v else match set with [] => None | _ => subset_loop ch set end
  end
with subset_loop (kbegin : forest) (it : list K) : option V :=
  match kbegin with
  | FNil => None
  | FCons k c k' =>
      match it with
      | [] => None
      | x :: _ =>
          if klt k x then subset_loop k' it
          else match skip k it with
               | [] => None
               | y :: it' =>
                   if keq y k then
                     match findSubset c it' with
                     | Some res => Some res
                     | None => match it' with [] => None | _ => subset_loop k' it' end
                     end
                   else subset_loop k' (y :: it')
               end
      end
  end.

Fixpoint findSuperset (n : node) (set : list K) : option V :=
  match n with
  | MNode e v ch =>
      match set with
      | [] => if e && p v then Some v else superset_each ch []
      | x :: next => match superset_each ch set with Some res => Some res | None => superset_mid ch x next end
      end
  end
with superset_each (f : forest) (set : list K) : option V :=
  match f with
  | FNil => None
  | FCons k c f' => match findSuperset c set with Some res => Some res | None => superset_each f' set end
  end
(** [kmid = lower_bound( *begin)] *)
with superset_mid (f : forest) (x : K) (next : list K) : option V :=
  match f with
  | FNil => None
  | FCons k c f' => if klt k x then superset_mid f' x next else if keq x k then findSuperset c next else None
  end.
End search.
End trie.
Arguments node : clear implicits.
Arguments forest : clear implicits.

(** ** What a trie holds *)
Section meaning.
Context {K V : Type} {KO : KeyOrder K} {P : K -> Prop} {KL : KeyLaws KO P} `{EqDecision K} (uninitialised : V).

(** The trie maps the path [s] to [v]. *)
Fixpoint holds (n : node K V) (s : list K) (v : V) : Prop :=
  match n with
  | MNode e w ch => match s with [] => e = true /\ w = v | k :: s' => holds_in ch k s' v end
  end
with holds_in (f : forest K V) (k : K) (s : list K) (v : V) : Prop :=
  match f with
  | FNil => False
  | FCons k' c f' => (k = k' /\ holds c s v) \/ holds_in f' k s v
  end.

(** Labels increase along a path and from left to right. *)
Definition after (lo : option K) (k : K) : Prop := match lo with Some l => P l /\ klt l k = true | None => True end.
Fixpoint node_ok (lo : option K) (n : node K V) : Prop := match n with MNode _ _ ch => forest_ok lo ch end
with forest_ok (left : option K) (f : forest K V) : Prop :=
  match f with
  | FNil => True
  | FCons k c f' => P k /\ after left k /\ node_ok (Some k) c /\ forest_ok (Some k) f'
  end.

Scheme node_mut := Induction for node Sort Prop with forest_mut := Induction for forest Sort Prop.
Combined Scheme trie_ind from node_mut, forest_mut.

(** A key: increasing elements of [P] above a bound. *)
Fixpoint key_ok (lo : option K) (s : list K) : Prop :=
  match s with [] => True | k :: s' => P k /\ after lo k /\ key_ok (Some k) s' end.

Lemma key_asym a b : P a -> P b -> klt a b = true -> klt b a = false.
Proof.
  intros Ha Hb H. destruct (klt b a) eqn:E; [|done].
  pose proof (klt_trans (P := P) a b a Ha Hb Ha H E) as H'. rewrite (klt_irrefl (P := P) a Ha) in H'. done.
Qed.

Lemma after_trans lo j k : P j -> P k -> after lo j -> klt j k = true -> after lo k.
Proof. destruct lo as [l|]; simpl; [|done]. intros ? ? [? ?] ?. split; [done|]. by apply (klt_trans (P := P) l j k). Qed.

Lemma after_neq lo k : P k -> after lo k -> lo <> Some k.
Proof. intros Hk Ha ->. destruct Ha as [_ Ha]. rewrite (klt_irrefl (P := P) k Hk) in Ha. done. Qed.

(** A weaker bound. *)
Lemma forest_weaken k left f : P k -> after left k -> forest_ok (Some k) f -> forest_ok left f.
Proof.
  intros Hk Hl. destruct f as [|j c f]; [done|]. intros (Hj & [_ Ha] & ?). split; [done|]. split; [|done].
  by apply (after_trans left k j).
Qed.
Lemma key_weaken k left s : P k -> after left k -> key_ok (Some k) s -> key_ok left s.
Proof.
  intros Hk Hl. destruct s as [|j s]; [done|]. intros (Hj & [_ Ha] & ?). split; [done|]. split; [|done].
  by apply (after_trans left k j).
Qed.

Lemma key_elem lo s k : key_ok lo s -> k ∈ s -> P k /\ after lo k.
Proof.
  revert lo. induction s as [|j s IH]; intros lo Hs; [intros H; by apply not_elem_of_nil in H|].
  destruct Hs as (Hj & Ha & Hs). intros [->|Hk]%elem_of_cons; [done|].
  destruct (IH (Some j) Hs Hk) as [? [_ ?]]. split; [done|]. by apply (after_trans lo j k).
Qed.

(** *** Children *)
Lemma holds_in_after left f k s v : forest_ok left f -> holds_in f k s v -> P k /\ after left k.
Proof.
  revert left. induction f as [|j c f IH]; intros left; [done|]. intros (Hj & Ha & _ & Hf) [[-> _]|H]; [done|].
  destruct (IH (Some j) Hf H) as [? [_ ?]]. split; [done|]. by apply (after_trans left j k).
Qed.

(** Paths are keys. *)
Lemma holds_key :
  (forall n lo s v, node_ok lo n -> holds n s v -> key_ok lo s) /\
  (forall f left k s v, forest_ok left f -> holds_in f k s v -> key_ok left (k :: s)).
Proof.
  apply trie_ind.
  - intros e w ch IH lo s v Hn. destruct s as [|k s]; [done|]. simpl. by apply IH.
  - done.
  - intros j c IHc f IHf left k s v (Hj & Ha & Hc & Hf) [[-> H]|H]; simpl.
    + split_and!; try done. by eapply IHc.
    + destruct (IHf _ _ _ _ Hf H) as (Hk & [_ Hjk] & Hs). split_and!; try done. by apply (after_trans left j k).
Qed.

Lemma find_holds left f x s v : forest_ok left f -> P x ->
  holds_in f x s v <-> exists c, find f x = Some c /\ holds c s v.
Proof.
  revert left. induction f as [|k c f IH]; intros left Hf Hx; simpl.
  { split; [done|]. by intros (? & ? & _). }
  destruct Hf as (Hk & _ & Hc & Hf).
  assert (Hlater : klt k x = false -> ~ holds_in f x s v).
  { intros E H. destruct (holds_in_after _ _ _ _ _ Hf H) as [_ [_ ?]]. congruence. }
  destruct (klt k x) eqn:E1.
  - rewrite <- (IH (Some k)) by done. split; [|by right]. intros [[-> _]|?]; [|done].
    rewrite (klt_irrefl (P := P) k Hk) in E1. done.
  - specialize (Hlater eq_refl). destruct (klt x k) eqn:E2.
    + split; [|by intros (? & ? & _)]. intros [[-> _]|?]; [|done]. rewrite (klt_irrefl (P := P) k Hk) in E2. done.
    + pose proof (klt_total (P := P) k x Hk Hx E1 E2) as ->.
      split; [intros [[_ ?]|?]; [by exists c|done]|]. intros (c' & [= <-] & ?). by left.
Qed.

Lemma find_child_ok left f x c : forest_ok left f -> P x -> find f x = Some c -> node_ok (Some x) c /\ after left x.
Proof.
  revert left. induction f as [|k c' f IH]; intros left Hf Hx; simpl; [done|]. destruct Hf as (Hk & Ha & Hc & Hf).
  destruct (klt k x) eqn:E1.
  - intros H. destruct (IH _ Hf Hx H) as [? [_ ?]]. split; [done|]. by apply (after_trans left k x).
  - destruct (klt x k) eqn:E2; [done|]. intros [= <-]. by rewrite (klt_total (P := P) x k).
Qed.

Lemma lookup_holds s : forall lo n v, node_ok lo n -> Forall P s -> lookup s n = Some v <-> holds n s v.
Proof.
  induction s as [|k s IH]; intros lo [e w ch] v Hn HP; simpl.
  - destruct e; naive_solver.
  - inversion_clear HP as [|? ? Hk HPs]. rewrite (find_holds lo ch k s v) by done.
    destruct (find ch k) as [c|] eqn:Ef; [|naive_solver]. destruct (find_child_ok lo ch k c Hn Hk Ef) as [Hc _].
    rewrite (IH _ _ v Hc HPs). naive_solver.
Qed.

(** *** insert *)
Abbreviation new_node := (new_node uninitialised).
Abbreviation at_child := (at_child uninitialised).
Abbreviation insert := (insert uninitialised).

Lemma at_child_holds left f x g k s v : forest_ok left f -> P x ->
  holds_in (at_child f x g) k s v <->
  (k = x /\ holds (g (default new_node (find f x))) s v) \/ (k <> x /\ holds_in f k s v).
Proof.
  revert left. induction f as [|j c f IH]; intros left Hf Hx; simpl; [naive_solver|]. destruct Hf as (Hj & _ & Hc & Hf).
  assert (Hlater : klt j x = false -> ~ holds_in f x s v).
  { intros E H. destruct (holds_in_after _ _ _ _ _ Hf H) as [_ [_ ?]]. congruence. }
  assert (Hne : klt j x = true \/ klt x j = true -> j <> x).
  { intros E ->. rewrite (klt_irrefl (P := P) x Hx) in E. by destruct E. }
  destruct (klt j x) eqn:E1; simpl.
  - specialize (Hne ltac:(by left)). rewrite (IH _ Hf Hx). naive_solver.
  - destruct (klt x j) eqn:E2; simpl.
    + specialize (Hne ltac:(by right)). specialize (Hlater eq_refl). naive_solver.
    + pose proof (klt_total (P := P) j x Hj Hx E1 E2) as ->. specialize (Hlater eq_refl). naive_solver.
Qed.

Lemma at_child_ok left f x g : forest_ok left f -> P x -> after left x ->
  (forall c, node_ok (Some x) c -> node_ok (Some x) (g c)) -> forest_ok left (at_child f x g).
Proof.
  intros Hf Hx Ha Hg. revert left Hf Ha. induction f as [|j c f IH]; intros left Hf Ha; simpl; [by split_and!; [..|apply Hg|]|].
  destruct Hf as (Hj & Hl & Hc & Hf). destruct (klt j x) eqn:E1; simpl.
  - split_and!; try done. by apply IH.
  - destruct (klt x j) eqn:E2; simpl.
    + split_and!; try done. by apply Hg.
    + pose proof (klt_total (P := P) j x Hj Hx E1 E2) as ->. split_and!; try done. by apply Hg.
Qed.

Lemma insert_node_ok s v : forall lo n, node_ok lo n -> key_ok lo s -> node_ok lo (insert s v n).
Proof.
  induction s as [|x s IH]; intros lo [e w ch] Hn Hs; [done|]. destruct Hs as (Hx & Ha & Hs). simpl.
  apply at_child_ok; try done. intros c Hc. by apply IH.
Qed.

Lemma holds_new s v : ~ holds new_node s v.
Proof. destruct s; simpl; [by intros [? _]|tauto]. Qed.

Lemma insert_holds s v : forall lo n s' v', node_ok lo n -> key_ok lo s ->
  holds (insert s v n) s' v' <-> (s' = s /\ v' = v) \/ (s' <> s /\ holds n s' v').
Proof.
  induction s as [|x s IH]; intros lo [e w ch] s' v' Hn Hs.
  { destruct s'; simpl; naive_solver. }
  destruct Hs as (Hx & Ha & Hs). destruct s' as [|k s']; [simpl; naive_solver|].
  assert (Hc : node_ok (Some x) (default new_node (find ch x))).
  { destruct (find ch x) as [c|] eqn:Ef; [|done]. by destruct (find_child_ok lo ch x c Hn Hx Ef). }
  cbn [MOS.insert holds children]. rewrite (at_child_holds lo) by done. rewrite (IH _ _ _ _ Hc Hs).
  assert (Hh : holds (default new_node (find ch x)) s' v' <-> holds_in ch x s' v').
  { rewrite (find_holds lo ch x s' v' Hn Hx). destruct (find ch x); simpl; [naive_solver|].
    pose proof (holds_new s' v'). naive_solver. }
  rewrite Hh. destruct (decide (k = x)) as [->|]; naive_solver.
Qed.

(** *** findSubset *)
Lemma sub_above k s it : key_ok (Some k) s -> s ⊆ k :: it -> s ⊆ it.
Proof.
  intros Hs Hsub j Hj. destruct (key_elem _ _ _ Hs Hj) as [HP [Hk Hlt]].
  apply Hsub, elem_of_cons in Hj as [->|?]; [|done]. by rewrite (klt_irrefl (P := P) k Hk) in Hlt.
Qed.

Lemma skip_spec k lo it : P k -> key_ok lo it ->
  skip k it ⊆ it /\ key_ok lo (skip k it) /\ (forall y, y ∈ it -> klt y k = false -> y ∈ skip k it) /\
  match skip k it with y :: _ => klt y k = false | [] => True end.
Proof.
  intros Hk. revert lo. induction it as [|x it IH]; intros lo Hit; simpl; [done|]. destruct Hit as (Hx & Ha & Hit).
  destruct (klt x k) eqn:E.
  - destruct (IH (Some x) Hit) as (H1 & H2 & H3 & H4). split_and!; try done.
    + intros y Hy. right. by apply H1.
    + by apply (key_weaken x).
    + intros y [->|Hy]%elem_of_cons Hlt; [congruence|]. by apply H3.
  - split_and!; done.
Qed.

(** A key that contains [x :: next] and starts with [k]: either [k] is [x], or it is
    one of the smaller elements in between. *)
Lemma superset_cases x next k s lo :
  P x -> key_ok (Some x) next -> key_ok lo (k :: s) ->
  x :: next ⊆ k :: s <-> (k = x /\ next ⊆ s) \/ (x :: next ⊆ s).
Proof.
  intros Hx Hn (Hk & _ & Hs). split.
  - intros Hsub. destruct (decide (k = x)) as [->|Ne].
    { left. split; [done|]. apply (sub_above x); [done|]. intros j Hj. apply Hsub. by right. }
    right. assert (Hxs : x ∈ s) by (assert (x ∈ k :: s) by (apply Hsub; by left); set_solver).
    destruct (key_elem _ _ _ Hs Hxs) as [_ [_ Hkx]].
    intros j Hj. assert (Hjs : j ∈ k :: s) by (by apply Hsub). apply elem_of_cons in Hjs as [->|?]; [|done].
    apply elem_of_cons in Hj as [->|Hj]; [done|]. destruct (key_elem _ _ _ Hn Hj) as [_ [_ Hxk]].
    rewrite (key_asym k x) in Hxk by done. done.
  - intros [[-> Hsub]|Hsub] j Hj; [|right; by apply Hsub].
    apply elem_of_cons in Hj as [->|Hj]; [by left|right; by apply Hsub].
Qed.

(** What a search for a value with [p] returns: one at a key related to the set by
    [R], or the assurance that there is none. *)
Section search_spec.
Variable p : V -> bool.
Definition sought (has : list K -> V -> Prop) (R : list K -> Prop) (r : option V) : Prop :=
  match r with
  | Some v => p v = true /\ exists s, has s v /\ R s
  | None => forall s v, has s v -> R s -> p v = false
  end.
Definition in_forest (f : forest K V) (s : list K) (v : V) : Prop :=
  match s with [] => False | k :: s' => holds_in f k s' v end.

(** The labels of the forest from [k] on only meet the elements from [k] on. *)
Lemma path_skip k c f left it lo s v :
  forest_ok left (FCons k c f) -> key_ok lo it -> in_forest (FCons k c f) s v -> s ⊆ it -> s ⊆ skip k it.
Proof.
  intros Hf Hit Hs Hsub j Hj. destruct Hf as (Hk & Ha & Hc & Hf). destruct (skip_spec k lo it Hk Hit) as (_ & _ & H3 & _).
  apply H3; [by apply Hsub|]. destruct s as [|i s]; [done|].
  assert (Hi : i = k \/ (P i /\ klt k i = true)).
  { destruct Hs as [[-> _]|Hs]; [by left|right]. by destruct (holds_in_after _ _ _ _ _ Hf Hs) as [? [_ ?]]. }
  assert (Hks : key_ok None (i :: s)).
  { apply (proj2 holds_key (FCons k c f) None i s v); [|exact Hs]. split_and!; done. }
  assert (Hkj : k = j \/ (P j /\ klt k j = true)).
  { destruct Hks as (Pi & _ & Hks). apply elem_of_cons in Hj as [->|Hj]; [naive_solver|]. right.
    destruct (key_elem _ _ _ Hks Hj) as [? [_ ?]]. split; [done|].
    destruct Hi as [->|[_ ?]]; [done|]. by apply (klt_trans (P := P) k i j). }
  destruct Hkj as [<-|[? ?]]; [by apply (klt_irrefl (P := P))|by apply key_asym].
Qed.

Lemma not_sub_nil f s v : in_forest f s v -> ~ s ⊆ [].
Proof. destruct s as [|k s]; [done|]. intros _ H. apply (not_elem_of_nil k). apply H. by left. Qed.

(** Dropping the first child, whose label is not in the set. *)
Lemma sought_rest left k c f it r :
  forest_ok left (FCons k c f) -> k ∉ it -> sought (in_forest f) (.⊆ it) r -> sought (in_forest (FCons k c f)) (.⊆ it) r.
Proof.
  intros Hf Hk. destruct r as [v|]; simpl.
  - intros (Hp & [|j s] & Hs & Hsub); [done|]. split; [done|]. exists (j :: s). split; [by right|done].
  - intros H [|j s] v Hs Hsub; [done|]. destruct Hs as [[-> _]|Hs]; [|by apply (H (j :: s))].
    destruct Hk. apply Hsub. by left.
Qed.

Lemma findSubset_node e v ch set :
  findSubset p (MNode e v ch) set =
  if e && p v then Some v else match set with [] => None | _ => subset_loop p ch set end.
Proof. done. Qed.
Lemma subset_loop_cons k c k' (x : K) it :
  subset_loop p (FCons k c k') (x :: it) =
  if klt k x then subset_loop p k' (x :: it)
  else match skip k (x :: it) with
       | [] => None
       | y :: it' =>
           if keq y k then
             match findSubset p c it' with
             | Some res => Some res
             | None => match it' with [] => None | _ => subset_loop p k' it' end
             end
           else subset_loop p k' (y :: it')
       end.
Proof. done. Qed.

Lemma findSubset_ok :
  (forall n lo set, node_ok lo n -> key_ok lo set -> sought (holds n) (.⊆ set) (findSubset p n set)) /\
  (forall f left lo it, forest_ok left f -> key_ok lo it -> sought (in_forest f) (.⊆ it) (subset_loop p f it)).
Proof.
  apply trie_ind.
  - intros e w ch IH lo set Hn Hset. rewrite findSubset_node. destruct (e && p w) eqn:E.
    { apply andb_true_iff in E as [-> E]. split; [done|]. exists []. split; [done|]. intros j Hj. by apply not_elem_of_nil in Hj. }
    assert (Hhere : forall v, holds (MNode e w ch) [] v -> p v = false) by (by intros v [-> <-]).
    assert (Hgo : sought (in_forest ch) (.⊆ set) (match set with [] => None | _ => subset_loop p ch set end)).
    { destruct set as [|x set]; [intros s v Hs Hsub; by destruct (not_sub_nil _ _ _ Hs)|]. by apply (IH lo lo). }
    destruct (match set with [] => None | _ => _ end) as [v|]; unfold sought in Hgo |- *.
    + destruct Hgo as (Hp & [|k s] & Hs & Hsub); [done|]. split; [done|]. by exists (k :: s).
    + intros [|k s] v Hs Hsub; [by apply Hhere|]. by apply (Hgo (k :: s)).
  - intros left lo it _ _ [|k s] v Hs; by destruct Hs.
  - intros k c IHc f IHf left lo it Hf Hit. pose proof Hf as (Hk & Ha & Hc & Hf').
    destruct it as [|x it0]; [intros s v Hs Hsub; by destruct (not_sub_nil _ _ _ Hs)|]. rewrite subset_loop_cons.
    destruct (klt k x) eqn:Ekx.
    { apply (sought_rest left); [done| |by apply (IHf (Some k) lo)]. destruct Hit as (Hx & _ & Hit0).
      intros [->|Hin]%elem_of_cons; [by rewrite (klt_irrefl (P := P) x Hx) in Ekx|].
      destruct (key_elem _ _ _ Hit0 Hin) as [_ [_ Hxk]]. rewrite (key_asym x k) in Ekx by done. done. }
    destruct (skip_spec k lo (x :: it0) Hk Hit) as (Hsub & Hsk & _ & Hhd).
    pose proof (fun s v => path_skip k c f left (x :: it0) lo s v Hf Hit) as Hall.
    set (it2 := skip k (x :: it0)) in *. clearbody it2.
    assert (Hred : forall r, sought (in_forest (FCons k c f)) (.⊆ it2) r -> sought (in_forest (FCons k c f)) (.⊆ x :: it0) r).
    { intros [v|]; simpl.
      - intros (Hp & s & Hs & Hs2). split; [done|]. exists s. split; [done|]. intros j Hj. by apply Hsub, Hs2.
      - intros Hn s v Hs Hs2. apply (Hn s v Hs). by apply (Hall s v). }
    apply Hred. destruct it2 as [|y it']; [intros s v Hs Hs2; by destruct (not_sub_nil _ _ _ Hs)|].
    destruct Hsk as (Hy & Hay & Hit'). destruct (keq y k) eqn:Eq.
    + apply (keq_spec (P := P)) in Eq as ->; [|done..]. specialize (IHc (Some k) it' Hc Hit').
      destruct (findSubset p c it') as [v|]; unfold sought in IHc |- *.
      { destruct IHc as (Hp & s & Hs & Hs2). split; [done|]. exists (k :: s). split; [by left|].
        intros j [->|Hj]%elem_of_cons; [by left|right; by apply Hs2]. }
      assert (Hkid : forall s v, holds c s v -> k :: s ⊆ k :: it' -> p v = false).
      { intros s v Hs Hs2. apply (IHc s v Hs). apply (sub_above k); [by apply (proj1 holds_key c _ _ v)|].
        intros j Hj. apply Hs2. by right. }
      assert (Hrest : sought (in_forest f) (.⊆ it') (match it' with [] => None | _ => subset_loop p f it' end)).
      { destruct it' as [|z it']; [intros s v Hs Hs2; by destruct (not_sub_nil _ _ _ Hs)|]. by apply (IHf (Some k) (Some k)). }
      destruct (match it' with [] => None | _ => _ end) as [v|]; unfold sought in Hrest |- *.
      * destruct Hrest as (Hp & [|j s] & Hs & Hs2); [done|]. split; [done|]. exists (j :: s). split; [by right|].
        intros i Hi. right. by apply Hs2.
      * intros [|j s] v Hs Hs2; [done|]. destruct Hs as [[-> Hs]|Hs]; [by apply (Hkid s v)|].
        apply (Hrest (j :: s) v Hs). apply (sub_above k); [|done]. by apply (proj2 holds_key f _ _ _ v).
    + apply (sought_rest left); [done| |by apply (IHf (Some k) lo); [|split_and!]].
      intros [<-|Hin]%elem_of_cons; [by rewrite (proj2 (keq_spec (P := P) k k Hk Hk) eq_refl) in Eq|].
      destruct (key_elem _ _ _ Hit' Hin) as [_ [_ Hyk]]. congruence.
Qed.

(** *** findSuperset *)
Lemma findSuperset_node e v ch set :
  findSuperset p (MNode e v ch) set =
  match set with
  | [] => if e && p v then Some v else superset_each p ch []
  | x :: next => match superset_each p ch set with Some res => Some res | None => superset_mid p ch x next end
  end.
Proof. done. Qed.
Lemma superset_each_cons k c f set :
  superset_each p (FCons k c f) set = match findSuperset p c set with Some res => Some res | None => superset_each p f set end.
Proof. done. Qed.
Lemma superset_mid_cons k c f x next :
  superset_mid p (FCons k c f) x next =
  if klt k x then superset_mid p f x next else if keq x k then findSuperset p c next else None.
Proof. done. Qed.

(** Joining a search among the first child with one among the others. *)
Lemma sought_join k c f (R : list K -> Prop) (r1 r2 : option V) :
  sought (holds c) (fun s => R (k :: s)) r1 -> sought (in_forest f) R r2 ->
  sought (in_forest (FCons k c f)) R (match r1 with Some v => Some v | None => r2 end).
Proof.
  intros H1 H2. destruct r1 as [v|]; [|destruct r2 as [v|]]; unfold sought in *.
  - destruct H1 as (Hp & s & Hs & HR). split; [done|]. exists (k :: s). split; [by left|done].
  - destruct H2 as (Hp & [|j s] & Hs & HR); [done|]. split; [done|]. exists (j :: s). split; [by right|done].
  - intros [|j s] v Hs HR; [done|]. destruct Hs as [[-> Hs]|Hs]; [by apply (H1 s)|by apply (H2 (j :: s))].
Qed.

Lemma findSuperset_ok :
  (forall n lo lo' set, node_ok lo n -> key_ok lo' set -> sought (holds n) (fun s => set ⊆ s) (findSuperset p n set)) /\
  (forall f left,  forest_ok left f ->
    (forall lo' set, key_ok lo' set -> sought (in_forest f) (fun s => set ⊆ tail s) (superset_each p f set)) /\
    (forall x next, P x -> key_ok (Some x) next ->
      sought (in_forest f) (fun s => head s = Some x /\ next ⊆ tail s) (superset_mid p f x next))).
Proof.
  apply trie_ind.
  - intros e w ch IH lo lo' set Hn Hset. rewrite findSuperset_node. destruct (IH lo Hn) as [Heach Hmid].
    destruct set as [|x next].
    + destruct (e && p w) eqn:E.
      { apply andb_true_iff in E as [-> E]. split; [done|]. by exists []. }
      specialize (Heach lo' [] Hset). destruct (superset_each p ch []) as [v|]; unfold sought in *.
      * destruct Heach as (Hp & [|k s] & Hs & _); [done|]. split; [done|]. exists (k :: s). split; [done|].
        intros j Hj. by apply not_elem_of_nil in Hj.
      * intros [|k s] v Hs _; [by destruct Hs as [-> <-]|]. apply (Heach (k :: s) v Hs). intros j Hj. by apply not_elem_of_nil in Hj.
    + pose proof Hset as (Hx & _ & Hnext). specialize (Heach lo' (x :: next) Hset). specialize (Hmid x next Hx Hnext).
      assert (Hkey : forall k s v, holds_in ch k s v -> key_ok lo (k :: s)) by (intros k s v H; by apply (proj2 holds_key ch lo k s v)).
      destruct (superset_each p ch (x :: next)) as [v|]; [|destruct (superset_mid p ch x next) as [v|]]; unfold sought in *.
      * destruct Heach as (Hp & [|k s] & Hs & Hsub); [done|]. split; [done|]. exists (k :: s). split; [done|].
        intros j Hj. right. by apply Hsub.
      * destruct Hmid as (Hp & [|k s] & Hs & [Hh Hsub]); [done|]. injection Hh as ->. split; [done|]. exists (x :: s). split; [done|].
        apply (superset_cases x next x s lo); [done|done|by eapply Hkey|by left].
      * intros [|k s] v Hs Hsub; [by destruct (not_elem_of_nil x); apply Hsub; left|].
        apply (superset_cases x next k s lo) in Hsub as [[-> Hsub]|Hsub]; [|by apply (Heach (k :: s))|done|done|by eapply Hkey].
        by apply (Hmid (x :: s) v Hs).
  - intros left _. split; intros; intros [|k s] v Hs; by destruct Hs.
  - intros k c IHc f IHf left Hf. pose proof Hf as (Hk & Ha & Hc & Hf'). destruct (IHf (Some k) Hf') as [Heach Hmid]. split.
    + intros lo' set Hset. rewrite superset_each_cons. apply sought_join; [by apply (IHc (Some k) lo')|by apply (Heach lo')].
    + intros x next Hx Hnext. rewrite superset_mid_cons.
      assert (Hlater : klt k x = false -> sought (in_forest f) (fun s => head s = Some x /\ next ⊆ tail s) None).
      { intros E [|j s] v Hs [Hh _]; [done|]. injection Hh as ->. destruct (holds_in_after _ _ _ _ _ Hf' Hs) as [_ [_ ?]]. congruence. }
      destruct (klt k x) eqn:E; [|specialize (Hlater eq_refl); destruct (keq x k) eqn:Eq].
      * apply (sought_join k c f _ None); [|by apply Hmid]. intros s v _ [[= ->] _].
        by rewrite (klt_irrefl (P := P) x Hx) in E.
      * apply (keq_spec (P := P)) in Eq as ->; [|done..].
        assert (Hj : sought (holds c) (fun s => head (k :: s) = Some k /\ next ⊆ tail (k :: s)) (findSuperset p c next)).
        { specialize (IHc (Some k) (Some k) next Hc Hnext). destruct (findSuperset p c next) as [v|]; unfold sought in *.
          - destruct IHc as (Hp & s & Hs & Hsub). split; [done|]. by exists s.
          - intros s v Hs [_ Hsub]. by apply (IHc s v). }
        pose proof (sought_join k c f (fun s => head s = Some k /\ next ⊆ tail s) _ None Hj Hlater) as H'.
        by destruct (findSuperset p c next).
      * apply (sought_join k c f _ None None); [|done]. intros s v _ [[= ->] _].
        by rewrite (proj2 (keq_spec (P := P) x x Hx Hx) eq_refl) in Eq.
Qed.
End search_spec.

(** *** subsets and supersets *)
(** [std::set::insert] adds one element. *)
Lemma set_insert_ok x s : forall lo, P x -> after lo x -> key_ok lo s ->
  key_ok lo (set_insert x s) /\ forall y, y ∈ set_insert x s <-> y = x \/ y ∈ s.
Proof.
  induction s as [|k s IH]; intros lo Hx Ha Hs; cbn [set_insert].
  { split; [done|]. intros y. rewrite list_elem_of_singleton, elem_of_nil. tauto. }
  destruct Hs as (Hk & Hak & Hs). destruct (klt k x) eqn:E1; [|destruct (klt x k) eqn:E2].
  - destruct (IH (Some k) Hx (conj Hk E1) Hs) as [H1 H2]. split; [done|]. intros y. rewrite !elem_of_cons, H2. tauto.
  - split; [|intros y; by rewrite !elem_of_cons]. split; [done|]. split; [done|]. by split; [|split].
  - rewrite (klt_total (P := P) k x Hk Hx E1 E2) in *. split; [by split; [|split]|]. intros y. rewrite elem_of_cons. tauto.
Qed.

Lemma set_insert_last x acc : P x -> Forall (fun a => P a /\ klt a x = true) acc -> set_insert x acc = acc ++ [x].
Proof. intros Hx. induction 1 as [|a acc [_ Ha] _ IH]; simpl; [done|]. by rewrite Ha, IH. Qed.

(** Everything in [acc] is below every label that comes after [lo]. *)
Definition below (acc : list K) (lo : option K) : Prop :=
  forall k, P k -> after lo k -> Forall (fun a => P a /\ klt a k = true) acc.

Lemma below_snoc acc lo k : P k -> after lo k -> below acc lo -> below (acc ++ [k]) (Some k).
Proof.
  intros Hk Ha Hb j Hj [_ Hkj]. apply Forall_app. split; [|by repeat constructor].
  eapply Forall_impl; [by apply (Hb k)|]. intros a [? ?]. split; [done|]. by apply (klt_trans (P := P) a k j).
Qed.

Lemma elem_here (n : node K V) acc t v : (t, v) ∈ here n acc <-> t = acc /\ holds n [] v.
Proof.
  unfold here. destruct n as [[] w ch]; simpl.
  - rewrite list_elem_of_singleton. naive_solver.
  - rewrite elem_of_nil. naive_solver.
Qed.

(** A key below [x :: set] that starts with [k]. *)
Lemma subset_cases x set k s lo : P x -> key_ok (Some x) set -> key_ok lo (k :: s) ->
  k :: s ⊆ x :: set <-> (k = x /\ s ⊆ set) \/ k :: s ⊆ set.
Proof.
  intros Hx Hset (Hk & _ & Hks). split.
  - intros Hsub. destruct (decide (k = x)) as [->|Ne].
    + left. split; [done|]. apply (sub_above x); [done|]. intros j Hj. apply Hsub. by right.
    + right. assert (Hkset : k ∈ set) by (assert (k ∈ x :: set) by (apply Hsub; by left); set_solver).
      destruct (key_elem _ _ _ Hset Hkset) as [_ [_ Hxk]]. intros j Hj.
      assert (Hjk : j = k \/ (P j /\ klt k j = true)).
      { apply elem_of_cons in Hj as [->|Hj]; [by left|right]. by destruct (key_elem _ _ _ Hks Hj) as [? [_ ?]]. }
      apply Hsub, elem_of_cons in Hj as [->|?]; [|done].
      destruct Hjk as [->|[_ Hlt]]; [done|]. rewrite (key_asym x k) in Hlt by done. done.
  - intros [[-> Hsub]|Hsub] j Hj; [|right; by apply Hsub].
    apply elem_of_cons in Hj as [->|Hj]; [by left|right; by apply Hsub].
Qed.

Lemma findSubsets_loop_ok set : forall n acc lo left t v, node_ok left n -> key_ok lo set -> below acc lo ->
  (t, v) ∈ findSubsets_loop set n acc <-> exists k s, t = acc ++ k :: s /\ holds n (k :: s) v /\ k :: s ⊆ set.
Proof.
  induction set as [|x set IH]; intros n acc lo left t v Hn Hset Hb; cbn [findSubsets_loop].
  { rewrite elem_of_nil. split; [done|]. intros (k & s & _ & _ & Hsub). apply (not_elem_of_nil k). apply Hsub. by left. }
  destruct Hset as (Hx & Ha & Hset). destruct n as [e w ch]. cbn [children holds].
  assert (Hb' : below acc (Some x)).
  { intros k Hk [_ Hxk]. apply Hb; [done|]. by apply (after_trans lo x k). }
  rewrite elem_of_app, (IH (MNode e w ch) acc (Some x) left) by done. cbn [holds].
  assert (Hsplit : forall k s, holds_in ch k s v -> k :: s ⊆ x :: set <-> (k = x /\ s ⊆ set) \/ k :: s ⊆ set).
  { intros k s Hs. apply (subset_cases x set k s left); [done|done|]. by apply (proj2 holds_key ch left k s v). }
  assert (Hfirst : (t, v) ∈ match find ch x with
      | Some c => let nacc := set_insert x acc in here c nacc ++ findSubsets_loop set c nacc | None => [] end <->
    exists s, t = acc ++ x :: s /\ holds_in ch x s v /\ s ⊆ set).
  { setoid_rewrite (find_holds left ch x _ v Hn Hx). destruct (find ch x) as [c|] eqn:Ef.
    - destruct (find_child_ok left ch x c Hn Hx Ef) as [Hc _]. cbn zeta.
      rewrite (set_insert_last x acc) by (try done; by apply Hb).
      rewrite elem_of_app, elem_here, (IH c (acc ++ [x]) (Some x) (Some x)) by (try done; by apply (below_snoc acc lo)).
      split.
      + intros [[-> Hh]|(k & s & -> & Hh & Hsub)]; [exists []|exists (k :: s); rewrite <- app_assoc]; (split; [done|]).
        * split; [by exists c|]. intros j Hj. by apply not_elem_of_nil in Hj.
        * split; [by exists c|done].
      + intros (s & -> & (c' & [= <-] & Hh) & Hsub). destruct s as [|k s]; [by left|right]. exists k, s.
        by rewrite <- app_assoc.
    - rewrite elem_of_nil. naive_solver. }
  rewrite Hfirst. split.
  - intros [(s & -> & Hh & Hsub)|(k & s & -> & Hh & Hsub)]; [exists x, s|exists k, s]; (split; [done|split; [done|]]);
      apply Hsplit; auto.
  - intros (k & s & -> & Hh & Hsub). apply Hsplit in Hsub as [[-> Hsub]|Hsub]; [|right; by exists k, s|done].
    left. by exists s.
Qed.

Lemma subsets_ok n set s v : node_ok None n -> key_ok None set ->
  (s, v) ∈ subsets n set <-> holds n s v /\ s ⊆ set.
Proof.
  intros Hn Hset. unfold subsets, findSubsets. rewrite elem_of_app, elem_here.
  rewrite (findSubsets_loop_ok set n [] None None) by (try done; constructor).
  split.
  - intros [[-> Hh]|(k & s' & -> & Hh & Hsub)]; [|done]. split; [done|]. intros j Hj. by apply not_elem_of_nil in Hj.
  - intros [Hh Hsub]. destruct s as [|k s]; [by left|right]. by exists k, s.
Qed.

Lemma findSupersets_node e (v : V) (ch : forest K V) acc set :
  findSupersets (MNode e v ch) acc set =
  match set with
  | [] => (if e then [(acc, v)] else []) ++ supersets_all ch acc
  | elt :: next => supersets_upto ch acc elt next
  end.
Proof. done. Qed.
Lemma supersets_all_cons k (c : node K V) f acc :
  supersets_all (FCons k c f) acc = findSupersets c (set_insert k acc) [] ++ supersets_all f acc.
Proof. done. Qed.
Lemma supersets_upto_cons k (c : node K V) f acc elt next :
  supersets_upto (FCons k c f) acc elt next =
  if keq elt k then findSupersets c (set_insert k acc) next ++ supersets_upto f acc elt next
  else if klt k elt then findSupersets c (set_insert k acc) (elt :: next) ++ supersets_upto f acc elt next
  else [].
Proof. done. Qed.

(** The entries below a child, then those below its right siblings. *)
Lemma below_child acc left k : P k -> after left k -> below acc left ->
  set_insert k acc = acc ++ [k] /\ below (acc ++ [k]) (Some k) /\ below acc (Some k).
Proof.
  intros Hk Ha Hb. split; [by apply set_insert_last, Hb|]. split; [by apply (below_snoc acc left)|].
  intros j Hj [_ Hkj]. apply Hb; [done|]. by apply (after_trans left k j).
Qed.

Lemma findSupersets_ok :
  (forall n lo lo' acc set t v, node_ok lo n -> key_ok lo' set -> below acc lo ->
    (t, v) ∈ findSupersets n acc set <-> exists s, t = acc ++ s /\ holds n s v /\ set ⊆ s) /\
  (forall f left acc t v, forest_ok left f -> below acc left ->
    ((t, v) ∈ supersets_all f acc <-> exists k s, t = acc ++ k :: s /\ holds_in f k s v) /\
    (forall x next, P x -> key_ok (Some x) next ->
      (t, v) ∈ supersets_upto f acc x next <-> exists k s, t = acc ++ k :: s /\ holds_in f k s v /\ x :: next ⊆ k :: s)).
Proof.
  apply trie_ind.
  - intros e w ch IH lo lo' acc set t v Hn Hset Hb. rewrite findSupersets_node.
    destruct (IH lo acc t v Hn Hb) as [Hall Hup]. destruct set as [|x next].
    + assert (Hnil : forall s : list K, [] ⊆ s) by (intros s j Hj; by apply not_elem_of_nil in Hj).
      change (if e then [(acc, w)] else []) with (here (MNode e w ch) acc). rewrite elem_of_app, elem_here, Hall. split.
      * intros [[-> Hh]|(k & s & -> & Hh)]; [exists []; by rewrite app_nil_r|by exists (k :: s)].
      * intros ([|k s] & -> & Hh & _); [left; by rewrite app_nil_r|right]. by exists k, s.
    + destruct Hset as (Hx & _ & Hnext). rewrite Hup by done. split.
      * intros (k & s & -> & Hh & Hsub). by exists (k :: s).
      * intros ([|k s] & -> & Hh & Hsub); [by destruct (not_elem_of_nil x); apply Hsub; left|]. by exists k, s.
  - intros left acc t v _ _. split; [|intros x next _ _]; simpl; rewrite elem_of_nil; naive_solver.
  - intros k c IHc f IHf left acc t v Hf Hb. destruct Hf as (Hk & Ha & Hc & Hf).
    destruct (below_child acc left k Hk Ha Hb) as (Ei & Hb1 & Hb2). destruct (IHf (Some k) acc t v Hf Hb2) as [Hall Hup].
    assert (Hchild : forall lo' set, key_ok lo' set ->
      (t, v) ∈ findSupersets c (set_insert k acc) set <-> exists s, t = acc ++ k :: s /\ holds c s v /\ set ⊆ s).
    { intros lo' set Hset. rewrite Ei, (IHc (Some k) lo' (acc ++ [k]) set t v Hc Hset Hb1).
      split; intros (s & -> & ?); exists s; by rewrite <- app_assoc. }
    split.
    + rewrite supersets_all_cons, elem_of_app, (Hchild None []), Hall by done. simpl. split.
      * intros [(s & -> & Hh & _)|(j & s & -> & Hh)]; [exists k, s; auto|exists j, s; auto].
      * intros (j & s & -> & [[-> Hh]|Hh]); [left; exists s|right; by exists j, s].
        split_and!; try done. intros i Hi. by apply not_elem_of_nil in Hi.
    + intros x next Hx Hnext. rewrite supersets_upto_cons.
      assert (Hkey : forall s, holds c s v -> key_ok None (k :: s)) by (intros s Hs; split_and!; [done..|by apply (proj1 holds_key c _ _ v)]).
      destruct (keq x k) eqn:Eq; [|destruct (klt k x) eqn:E].
      * apply (keq_spec (P := P)) in Eq as ->; [|done..].
        rewrite elem_of_app, (Hchild (Some k) next), Hup by done. cbn [holds_in]. split.
        -- intros [(s & -> & Hh & Hsub)|(j & s & -> & Hh & Hsub)]; [exists k, s|exists j, s; auto]. split; [done|].
           split; [by left|]. apply (superset_cases k next k s None); auto.
        -- intros (j & s & -> & [[-> Hh]|Hh] & Hsub); [left; exists s|right; by exists j, s]. split_and!; [done|done|].
           apply (superset_cases k next k s None) in Hsub as [[_ ?]|Hsub]; auto. intros i Hi. apply Hsub. by right.
      * rewrite elem_of_app, (Hchild None (x :: next)), Hup by (try done; by split_and!). cbn [holds_in]. split.
        -- intros [(s & -> & Hh & Hsub)|(j & s & -> & Hh & Hsub)]; [exists k, s|exists j, s; auto]. split; [done|].
           split; [by left|]. intros i Hi. right. by apply Hsub.
        -- intros (j & s & -> & [[-> Hh]|Hh] & Hsub); [left; exists s|right; by exists j, s]. split_and!; [done|done|].
           apply (superset_cases x next k s None) in Hsub as [[-> _]|Hsub]; auto.
           by rewrite (klt_irrefl (P := P) x Hx) in E.
      * rewrite elem_of_nil. split; [done|]. intros (j & s & _ & Hh & Hsub).
        pose proof (proj2 holds_key (FCons k c f) left j s v ltac:(by split_and!) Hh) as (Hj & _ & Hjs).
        assert (Hkj : j = k \/ klt k j = true).
        { destruct Hh as [[-> _]|Hh]; [by left|right]. by destruct (holds_in_after _ _ _ _ _ Hf Hh) as [_ [_ ?]]. }
        assert (Nxk : x <> k) by (intros ->; by rewrite (proj2 (keq_spec (P := P) k k Hk Hk) eq_refl) in Eq).
        assert (Hxjs : x ∈ j :: s) by (apply Hsub; by left). apply elem_of_cons in Hxjs as [->|Hxs].
        -- destruct Hkj; congruence.
        -- destruct (key_elem _ _ _ Hjs Hxs) as [_ [_ Hjx]]. destruct Hkj as [->|Hkj]; [congruence|].
           rewrite (klt_trans (P := P) k j x) in E by done. done.
Qed.

Lemma supersets_ok n set s v : node_ok None n -> key_ok None set ->
  (s, v) ∈ supersets n set <-> holds n s v /\ set ⊆ s.
Proof.
  intros Hn Hset. unfold supersets. rewrite (proj1 findSupersets_ok n None None [] set s v) by (try done; constructor).
  naive_solver.
Qed.
End meaning.
End MOS.

(** Sets of integers. *)
#[export] Instance Z_KeyOrder : KeyOrder Z := {| klt := Z.ltb; keq := Z.eqb |}.
#[export] Instance Z_KeyLaws : KeyLaws Z_KeyOrder (fun _ => True).
Proof. split; cbn [klt keq Z_KeyOrder]; intros; rewrite ?Z.eqb_eq, ?Z.ltb_lt, ?Z.ltb_ge in *; lia. Qed.

Definition sample_trie : MOS.node Z Z :=
  MOS.insert 0%Z [2; 3]%Z 23%Z (MOS.insert 0%Z [1; 2; 3]%Z 123%Z (MOS.insert 0%Z [2]%Z 2%Z (MOS.clear 0%Z))).

(** A [MapOfSets] is a map from sets: after [insert] the set is mapped to the new
    value and every other set to what it was before, [clear] maps none, and the
    labels stay ordered, which every operation relies on. *)
Theorem map_of_sets_laws {K V : Type} {KO : KeyOrder K} {P : K -> Prop} {KL : KeyLaws KO P} `{EqDecision K}
    (v0 : V) (n : MOS.node K V) (s s' : list K) (v : V) :
  MOS.node_ok (P := P) None n -> MOS.key_ok (P := P) None s -> MOS.key_ok (P := P) None s' ->
  MOS.node_ok (P := P) None (MOS.insert v0 s v n) /\
  MOS.lookup s' (MOS.insert v0 s v n) = (if decide (s' = s) then Some v else MOS.lookup s' n) /\
  MOS.node_ok (P := P) None (MOS.clear v0) /\ MOS.lookup s' (MOS.clear v0) = None.
Proof.
  intros Hn Hs Hs'. assert (HP : Forall P s') by (apply Forall_forall; intros k Hk; by destruct (MOS.key_elem _ _ _ Hs' Hk)).
  assert (Hc : MOS.node_ok (P := P) None (MOS.clear v0)) by done.
  pose proof (MOS.insert_node_ok v0 s v None n Hn Hs) as Hi. split; [done|]. split; [|split; [done|]].
  - apply option_eq. intros w. rewrite (MOS.lookup_holds s' None _ w Hi HP), (MOS.insert_holds v0 s v None n s' w Hn Hs).
    case_decide; [naive_solver|]. rewrite (MOS.lookup_holds s' None n w Hn HP). naive_solver.
  - destruct (MOS.lookup s' (MOS.clear v0)) as [w|] eqn:E; [|done].
    apply (MOS.lookup_holds s' None _ w Hc HP) in E. by destruct (MOS.holds_new v0 s' w).
Qed.

Lemma map_of_sets_laws_witness :
  MOS.lookup [2; 3]%Z (MOS.insert 0%Z [2]%Z 7%Z sample_trie) = Some 23%Z.
Proof.
  destruct (map_of_sets_laws (P := fun _ => True) 0%Z sample_trie [2]%Z [2; 3]%Z 7%Z) as (_ & E & _).
  - vm_compute. tauto.
  - vm_compute. tauto.
  - vm_compute. tauto.
  - exact E.
Defined.

(** The searches of a [MapOfSets] are exact: [findSubset] returns a value with the
    property that is mapped from some subset of the given set, or null when there is
    none, and [findSuperset] likewise for supersets, although both skip the branches
    the order rules out; [subsets] and [supersets] list all the pairs. *)
Theorem searches_exact {K V : Type} {KO : KeyOrder K} {P : K -> Prop} {KL : KeyLaws KO P} `{EqDecision K}
    (p : V -> bool) (n : MOS.node K V) (set : list K) :
  MOS.node_ok (P := P) None n -> MOS.key_ok (P := P) None set ->
  match MOS.findSubset p n set with
  | Some v => p v = true /\ exists s, MOS.holds n s v /\ s ⊆ set
  | None => forall s v, MOS.holds n s v -> s ⊆ set -> p v = false
  end /\
  match MOS.findSuperset p n set with
  | Some v => p v = true /\ exists s, MOS.holds n s v /\ set ⊆ s
  | None => forall s v, MOS.holds n s v -> set ⊆ s -> p v = false
  end /\
  (forall s v, (s, v) ∈ MOS.subsets n set <-> MOS.holds n s v /\ s ⊆ set) /\
  (forall s v, (s, v) ∈ MOS.supersets n set <-> MOS.holds n s v /\ set ⊆ s).
Proof.
  intros Hn Hset. split; [exact (proj1 (MOS.findSubset_ok p) n None set Hn Hset)|].
  split; [exact (proj1 (MOS.findSuperset_ok p) n None None set Hn Hset)|].
  split; intros s v; [by apply MOS.subsets_ok|by apply MOS.supersets_ok].
Qed.

Lemma searches_exact_witness :
  MOS.findSuperset (fun v => v >? 100)%Z sample_trie [3]%Z = Some 123%Z /\
  (([2], 2) ∈ MOS.subsets sample_trie [0; 2; 4])%Z.
Proof.
  destruct (searches_exact (P := fun _ => True) (fun v => v >? 100)%Z sample_trie [0; 2; 4]%Z) as (_ & _ & H & _).
  - vm_compute. tauto.
  - vm_compute. tauto.
  - split; [reflexivity|]. apply H. split; [vm_compute; tauto|]. intros j Hj. apply list_elem_of_singleton in Hj. subst j.
    right. left.
Defined.
