(* ===== verification/SolverChain.v ===== *)
(** * SolverChain: caching and staging of solvers

    Models [klee/lib/Solver/CachingSolver.cpp], [IncompleteSolver.cpp] and
    [DummySolver.cpp].  Each is an implementation of [SolverImpl] over another one,
    [solver->impl], through which it is proved to keep the laws [SolverSpec].  The
    cache is an [unordered_map]: which bucket an entry is in does not matter, so it
    is a list searched with the equality of the entries. *)

From S2P Require Import Prelude APInt ExprData Samples Bits ExprCompare ExprCreate ExprCreateSound ExprStructSound ExprVisitor UnionFind ExprUtil ExprWeight Rewriters Constraints ConstraintsSound Solver.
Local Open Scope Z_scope.

(** ** IncompleteSolver *)
Inductive PartialValidity := MustBeTrue | MustBeFalse | MayBeTrue | MayBeFalse | TrueOrFalse | PVNone.

Definition negatePartialValidity (pv : PartialValidity) : result PartialValidity :=
  match pv with
  | MustBeTrue => Ok MustBeFalse
  | MustBeFalse => Ok MustBeTrue
  | MayBeTrue => Ok MayBeFalse
  | MayBeFalse => Ok MayBeTrue
  | TrueOrFalse => Ok TrueOrFalse
  | PVNone => AssertFail
  end.

Class IncompleteSolver := {
  ic_computeValidity : Query -> result PartialValidity;
  ic_computeTruth : Query -> result PartialValidity;
  ic_computeValue : Query -> result (option expr);
  ic_computeInitialValues : Query -> list Array -> result (option (list (list Z) * bool));
}.

Section incomplete.
Context {AP : APIntOps} {CFG : Config}.
Variable truth : Query -> result PartialValidity.

(** [IncompleteSolver::computeValidity], unless a derived class overrides it *)
Definition incomplete_computeValidity (query : Query) : result PartialValidity :=
  trueResult ← truth query;
  match trueResult with
  | MustBeTrue => Ok MustBeTrue
  | _ =>
      nq ← negateExpr query;
      falseResult ← truth nq;
      match falseResult with
      | MustBeTrue => Ok MustBeFalse
      | _ =>
          let trueCorrect := match trueResult with PVNone => false | _ => true end in
          let falseCorrect := match falseResult with PVNone => false | _ => true end in
          Ok (if trueCorrect && falseCorrect then TrueOrFalse
              else if trueCorrect then MayBeFalse
              else if falseCorrect then MayBeTrue
              else PVNone)
      end
  end.
End incomplete.

(** ** StagedSolverImpl *)
Module Staged.
Section staged.
Context {AP : APIntOps} {CFG : Config} {primary : IncompleteSolver} {St : Type} {secondary : SolverImpl St}.

Definition truth (query : Query) (s : St) : result (option bool * St) :=
  trueResult ← ic_computeTruth query;
  match trueResult with
  | PVNone => computeTruth query s
  | MustBeTrue => Ok (Some true, s)
  | _ => Ok (Some false, s)
  end.

Definition validity (query : Query) (s : St) : result (option Validity * St) :=
  pv ← ic_computeValidity query;
  match pv with
  | MustBeTrue => Ok (Some VTrue, s)
  | MustBeFalse => Ok (Some VFalse, s)
  | TrueOrFalse => Ok (Some VUnknown, s)
  | MayBeTrue =>
      '(tmp, s) ← computeTruth query s;
      Ok ((fun b : bool => if b then VTrue else VUnknown) <$> (tmp : option bool), s)
  | MayBeFalse =>
      nq ← negateExpr query;
      '(tmp, s) ← computeTruth nq s;
      Ok ((fun b : bool => if b then VFalse else VUnknown) <$> (tmp : option bool), s)
  | PVNone => computeValidity query s
  end.

Definition value (query : Query) (s : St) : result (option expr * St) :=
  r ← ic_computeValue query;
  match r with Some e => Ok (Some e, s) | None => computeValue query s end.

Definition initial_values (query : Query) (objects : list Array) (s : St)
    : result (option (list (list Z) * bool) * St) :=
  r ← ic_computeInitialValues query objects;
  match r with Some v => Ok (Some v, s) | None => computeInitialValues query objects s end.

#[export] Instance impl : SolverImpl St := {|
  computeTruth := truth; computeValidity := validity; computeValue := value; computeInitialValues := initial_values |}.
End staged.
Arguments impl {AP CFG} primary {St} secondary.
End Staged.

(** ** DummySolverImpl: every query fails *)
Definition DummySolverImpl {St : Type} : SolverImpl St := {|
  computeTruth := fun _ s => Ok (None, s); computeValidity := fun _ s => Ok (None, s);
  computeValue := fun _ s => Ok (None, s); computeInitialValues := fun _ _ s => Ok (None, s) |}.

(** ** CachingSolver *)
Module Caching.
Section caching.
Context {AP : APIntOps} {CFG : Config} {St : Type} {solver : SolverImpl St}.

Definition CacheEntry : Type := list expr * expr.
Definition cache_map : Type := list (CacheEntry * PartialValidity).

(** [CacheEntry::operator==] *)
Fixpoint constraints_eqb (a b : list expr) : bool :=
  match a, b with
  | [], [] => true
  | x :: a', y :: b' => expr_eqb x y && constraints_eqb a' b'
  | _, _ => false
  end.
Definition entry_eqb (a b : CacheEntry) : bool := constraints_eqb (fst a) (fst b) && expr_eqb (snd a) (snd b).

(** [unordered_map::find] and [insert], which keeps an entry that is there *)
Fixpoint cache_find (ce : CacheEntry) (cache : cache_map) : option PartialValidity :=
  match cache with
  | [] => None
  | (k, v) :: c => if entry_eqb k ce then Some v else cache_find ce c
  end.
Definition cache_insert (ce : CacheEntry) (v : PartialValidity) (cache : cache_map) : cache_map :=
  match cache_find ce cache with Some _ => cache | None => (ce, v) :: cache end.

Definition canonicalizeQuery (originalQuery : expr) : result (expr * bool) :=
  negatedQuery ← createIsZero originalQuery;
  Ok (if expr_ltb originalQuery negatedQuery then (originalQuery, false) else (negatedQuery, true)).

Definition cacheLookup (query : Query) (cache : cache_map) : result (option PartialValidity) :=
  '(canonicalQuery, negationUsed) ← canonicalizeQuery (q_expr query);
  match cache_find (q_constraints query, canonicalQuery) cache with
  | None => Ok None
  | Some pv => if negationUsed : bool then Some <$> negatePartialValidity pv else Ok (Some pv)
  end.

Definition cacheInsert (query : Query) (res : PartialValidity) (cache : cache_map) : result cache_map :=
  '(canonicalQuery, negationUsed) ← canonicalizeQuery (q_expr query);
  cachedResult ← (if negationUsed : bool then negatePartialValidity res else Ok res);
  Ok (cache_insert (q_constraints query, canonicalQuery) cachedResult cache).

Definition state : Type := St * cache_map.

(** A result that is stored and returned. *)
Definition remember {A} (query : Query) (pv : PartialValidity) (a : A) (s : St) (cache : cache_map)
    : result (option A * state) :=
  cache ← cacheInsert query pv cache; Ok (Some a, (s, cache)).

Definition validity (query : Query) (st : state) : result (option Validity * state) :=
  let '(s, cache) := st in
  hit ← cacheLookup query cache;
  match hit with
  | Some MustBeTrue => Ok (Some VTrue, st)
  | Some MustBeFalse => Ok (Some VFalse, st)
  | Some TrueOrFalse => Ok (Some VUnknown, st)
  | Some MayBeTrue =>
      '(tmp, s) ← computeTruth query s;
      match tmp with
      | None => Ok (None, (s, cache))
      | Some true => remember query MustBeTrue VTrue s cache
      | Some false => remember query TrueOrFalse VUnknown s cache
      end
  | Some MayBeFalse =>
      nq ← negateExpr query;
      '(tmp, s) ← computeTruth nq s;
      match tmp with
      | None => Ok (None, (s, cache))
      | Some true => remember query MustBeFalse VFalse s cache
      | Some false => remember query TrueOrFalse VUnknown s cache
      end
  | Some PVNone => AssertFail
  | None =>
      '(r, s) ← computeValidity query s;
      match r with
      | None => Ok (None, (s, cache))
      | Some VTrue => remember query MustBeTrue VTrue s cache
      | Some VFalse => remember query MustBeFalse VFalse s cache
      | Some VUnknown => remember query TrueOrFalse VUnknown s cache
      end
  end.

Definition truth (query : Query) (st : state) : result (option bool * state) :=
  let '(s, cache) := st in
  hit ← cacheLookup query cache;
  let ask (refined : PartialValidity) :=
    '(isValid, s) ← computeTruth query s;
    match isValid with
    | None => Ok (None, (s, cache))
    | Some true => remember query MustBeTrue true s cache
    | Some false => remember query refined false s cache
    end in
  match hit with
  | Some MayBeTrue => ask TrueOrFalse
  | None => ask MayBeFalse
  | Some pv => Ok (Some (match pv with MustBeTrue => true | _ => false end), st)
  end.

Definition value (query : Query) (st : state) : result (option expr * state) :=
  let '(s, cache) := st in '(r, s) ← computeValue query s; Ok (r, (s, cache)).
Definition initial_values (query : Query) (objects : list Array) (st : state)
    : result (option (list (list Z) * bool) * state) :=
  let '(s, cache) := st in '(r, s) ← computeInitialValues query objects s; Ok (r, (s, cache)).

#[export] Instance impl : SolverImpl state := {|
  computeTruth := truth; computeValidity := validity; computeValue := value; computeInitialValues := initial_values |}.
End caching.
Arguments impl {AP CFG St} solver.
Arguments state : clear implicits.
End Caching.

(** ** What partial validities mean *)
Section meaning.
Context {AP : APIntOps} {SP : APIntSpec AP} {CFG : Config} {SUP : Supported}.

Definition pv_answer (q : Query) (pv : PartialValidity) : Prop :=
  match pv with
  | MustBeTrue => valid q
  | MustBeFalse => refuted q
  | MayBeTrue => may_hold q
  | MayBeFalse => may_fail q
  | TrueOrFalse => may_hold q /\ may_fail q
  | PVNone => True
  end.

(** [computeTruth] of an incomplete solver finds a proof, a counterexample or nothing. *)
Definition ic_truth_answer (q : Query) (pv : PartialValidity) : Prop :=
  match pv with MustBeTrue => valid q | MayBeFalse => may_fail q | PVNone => True | _ => False end.

Class IncompleteSpec (I : IncompleteSolver) : Prop := {
  ic_truth_spec q : q_ok q -> getWidth (q_expr q) = Bool -> returns (ic_computeTruth q) (ic_truth_answer q);
  ic_validity_spec q : q_ok q -> satisfiable q -> getWidth (q_expr q) = Bool -> returns (ic_computeValidity q) (pv_answer q);
  ic_value_spec q : q_ok q -> satisfiable q -> returns (ic_computeValue q) (value_answer q);
  ic_initial_spec q objects : q_ok q -> getWidth (q_expr q) = Bool ->
    returns (ic_computeInitialValues q objects) (initial_answer q objects);
}.

(** A query whose expression is the negation of the other's. *)
Definition opposite (q nq : Query) : Prop :=
  q_constraints nq = q_constraints q /\
  forall rho, models q rho -> (true_under rho (q_expr nq) <-> false_under rho (q_expr q)) /\
    (false_under rho (q_expr nq) <-> true_under rho (q_expr q)).

Lemma opposite_models q nq rho : opposite q nq -> models nq rho <-> models q rho.
Proof. intros [E _]. unfold models. by rewrite E. Qed.

Lemma opposite_sat q nq : opposite q nq -> satisfiable q -> satisfiable nq.
Proof. intros H [rho Hm]. exists rho. by apply (opposite_models q nq). Qed.

Lemma negate_opposite q : q_ok q -> getWidth (q_expr q) = Bool ->
  returns (negateExpr q) (fun nq => q_ok nq /\ getWidth (q_expr nq) = Bool /\ opposite q nq).
Proof.
  intros Hq Hw. eapply returns_weaken; [by apply negate_ok|]. intros nq (Hnq & Wn & En & Hn). split; [done|]. split; [done|]. split; [done|].
  intros rho Hm. specialize (Hn rho Hm). split; [done|].
  destruct (bool_value rho (q_expr q)) as [Ht|Hf]; [apply Hq|done|by apply Hq| |].
  - split; [done|]. intros _.
    destruct (bool_value rho (q_expr nq)) as [Ht'|Ht']; [apply Hnq|done|apply (qk_value _ Hnq); unfold models; by rewrite En| |exact Ht'].
    apply Hn in Ht'. by destruct (not_both _ _ Ht Ht').
  - split; intros H; [|by destruct (not_both _ _ H Hf)]. apply Hn in Hf. by destruct (not_both _ _ Hf H).
Qed.

Lemma opposite_pv q nq pv npv : opposite q nq -> negatePartialValidity pv = Ok npv ->
  pv_answer nq pv <-> pv_answer q npv.
Proof.
  intros Ho. pose proof (fun rho => opposite_models q nq rho Ho) as Hm. destruct Ho as [E Ho].
  assert (Ht : forall rho, models q rho -> true_under rho (q_expr nq) <-> false_under rho (q_expr q)) by apply Ho.
  assert (Hf : forall rho, models q rho -> false_under rho (q_expr nq) <-> true_under rho (q_expr q)) by apply Ho.
  assert (Hall : forall P Q : env -> Prop, (forall rho, models q rho -> P rho <-> Q rho) ->
    ((forall rho, models nq rho -> P rho) <-> (forall rho, models q rho -> Q rho)) /\
    ((exists rho, models nq rho /\ P rho) <-> (exists rho, models q rho /\ Q rho))).
  { intros P Q HPQ. split; split.
    - intros H rho Hr. apply HPQ; [done|]. by apply H, Hm.
    - intros H rho Hr. apply HPQ; [by apply Hm|]. by apply H, Hm.
    - intros (rho & Hr & H). apply Hm in Hr. exists rho. split; [done|]. by apply HPQ.
    - intros (rho & Hr & H). exists rho. split; [by apply Hm|]. by apply HPQ. }
  destruct (Hall _ _ Ht) as [H1 H2]. destruct (Hall _ _ Hf) as [H3 H4].
  unfold pv_answer, valid, refuted, may_hold, may_fail. destruct pv; simpl; intros [= <-]; tauto.
Qed.

(** The default of [IncompleteSolver::computeValidity] keeps the law. *)
Lemma incomplete_validity_ok truth q :
  (forall q, q_ok q -> getWidth (q_expr q) = Bool -> returns (truth q) (ic_truth_answer q)) ->
  q_ok q -> getWidth (q_expr q) = Bool -> returns (incomplete_computeValidity truth q) (pv_answer q).
Proof.
  intros Ht Hq Hw. unfold incomplete_computeValidity. eapply returns_bind; [by apply Ht|]. intros tr Htr.
  assert (Hrest : tr <> MustBeTrue -> returns (nq ← negateExpr q; falseResult ← truth nq;
      match falseResult with
      | MustBeTrue => Ok MustBeFalse
      | _ =>
          let trueCorrect := match tr with PVNone => false | _ => true end in
          let falseCorrect := match falseResult with PVNone => false | _ => true end in
          Ok (if trueCorrect && falseCorrect then TrueOrFalse
              else if trueCorrect then MayBeFalse else if falseCorrect then MayBeTrue else PVNone)
      end) (pv_answer q)).
  { intros Hne. eapply returns_bind; [by apply negate_opposite|]. intros nq (Hnq & Wn & Ho).
    eapply returns_bind; [by apply Ht|]. intros fr Hfr.
    pose proof (opposite_pv q nq MustBeTrue MustBeFalse Ho eq_refl) as H1.
    pose proof (opposite_pv q nq MayBeFalse MayBeTrue Ho eq_refl) as H2. simpl in H1, H2.
    destruct fr; try done; [apply returns_ok; by apply H1|..]; destruct tr; try done; apply returns_ok; simpl in *; tauto. }
  destruct tr; try done; [by apply returns_ok|by apply Hrest..].
Qed.
End meaning.

(** ** The layers keep the laws *)
Section layers.
Context {AP : APIntOps} {SP : APIntSpec AP} {CFG : Config} {SUP : Supported}.
Context {St : Type} {SI : SolverImpl St} {inv : St -> Prop} {SS : SolverSpec SI inv}.

Lemma Dummy_spec : SolverSpec DummySolverImpl inv.
Proof. split; intros; by apply returns_ok. Qed.

(** Knowing one side, the truth of the query or of its negation decides. *)
Lemma decide_validity q s : inv s -> q_ok q -> satisfiable q -> getWidth (q_expr q) = Bool -> may_hold q ->
  answers inv (fun r => match r with Some true => valid q | Some false => may_hold q /\ may_fail q | None => True end)
    (computeTruth q s).
Proof.
  intros Hs Hq Hsat Hw Hh. eapply returns_weaken; [by apply computeTruth_spec|].
  intros [[[]|] s'] [Hr Hs']; (split; [|done]); simpl in *; tauto.
Qed.

Lemma decide_refutation q s : inv s -> q_ok q -> satisfiable q -> getWidth (q_expr q) = Bool -> may_fail q ->
  answers inv (fun r => match r with Some true => refuted q | Some false => may_hold q /\ may_fail q | None => True end)
    (nq ← negateExpr q; computeTruth nq s).
Proof.
  intros Hs Hq Hsat Hw Hf. eapply returns_bind; [by apply negate_opposite|]. intros nq (Hnq & Wn & Ho).
  eapply returns_weaken; [apply computeTruth_spec; try done; by apply (opposite_sat q)|].
  pose proof (opposite_pv q nq MustBeTrue MustBeFalse Ho eq_refl) as H1.
  pose proof (opposite_pv q nq MayBeFalse MayBeTrue Ho eq_refl) as H2. simpl in H1, H2.
  intros [[[]|] s'] [Hr Hs']; (split; [|done]); simpl in *; tauto.
Qed.

(** *** StagedSolverImpl *)
Context {I : IncompleteSolver} {IS : IncompleteSpec I}.

Lemma Staged_truth_ok q s : inv s -> q_ok q -> satisfiable q -> getWidth (q_expr q) = Bool ->
  answers inv (truth_answer q) (Staged.truth q s).
Proof.
  intros Hs Hq Hsat Hw. unfold Staged.truth. eapply returns_bind; [by apply ic_truth_spec|].
  intros [] Hr; try done; try (by apply returns_ok). by apply computeTruth_spec.
Qed.

Lemma Staged_validity_ok q s : inv s -> q_ok q -> satisfiable q -> getWidth (q_expr q) = Bool ->
  answers inv (validity_answer q) (Staged.validity q s).
Proof.
  intros Hs Hq Hsat Hw. unfold Staged.validity. eapply returns_bind; [by apply ic_validity_spec|].
  intros [] Hr; simpl in Hr; try (by apply returns_ok).
  - eapply returns_bind; [by apply decide_validity|]. intros [[[]|] s'] [H Hs']; by apply returns_ok.
  - pose proof (decide_refutation q s Hs Hq Hsat Hw Hr) as Hd. destruct (negateExpr q) as [nq| |]; [|by destruct Hd as (? & ? & _)..].
    cbn [mbind result_bind] in *. eapply returns_bind; [exact Hd|]. intros [[[]|] s'] [H Hs']; by apply returns_ok.
  - by apply computeValidity_spec.
Qed.

Lemma Staged_keeps : SolverSpec (Staged.impl I SI) inv.
Proof.
  split; cbn [computeTruth computeValidity computeValue computeInitialValues Staged.impl].
  - intros. by apply Staged_truth_ok.
  - intros. by apply Staged_validity_ok.
  - intros q s Hs Hq Hsat. unfold Staged.value. eapply returns_bind; [by apply ic_value_spec|].
    intros [e|] Hr; [by apply returns_ok|]. by apply computeValue_spec.
  - intros q objects s Hs Hq Hw. unfold Staged.initial_values. eapply returns_bind; [by apply ic_initial_spec|].
    intros [e|] Hr; [by apply returns_ok|]. by apply computeInitialValues_spec.
Qed.

(** *** CachingSolver *)

(** What is cached about a query is true of it. *)
Definition entry_ok (e : Caching.CacheEntry * PartialValidity) : Prop :=
  let q := {| q_constraints := fst (fst e); q_expr := snd (fst e) |} in
  q_ok q /\ snd e <> PVNone /\ pv_answer q (snd e).
Definition cache_inv (st : Caching.state St) : Prop := inv (fst st) /\ Forall entry_ok (snd st).

Lemma constraints_eqb_eq a b : Forall wf a -> Forall wf b -> Caching.constraints_eqb a b = true -> a = b.
Proof.
  intros Ha. revert b. induction Ha as [|x a Hx Ha IH]; intros [|y b] Hb; simpl; try done.
  inversion_clear Hb as [|? ? Hy Hb']. intros [Hxy%expr_eqb_eq Hab]%andb_true_iff; [|done..]. f_equal; auto.
Qed.

Lemma q_ok_wf q : q_ok q -> Forall wf (q_constraints q).
Proof. intros Hq. eapply Forall_impl; [apply Hq|]. by intros c []. Qed.

Lemma cache_find_ok cache q pv : Forall entry_ok cache -> q_ok q ->
  Caching.cache_find (q_constraints q, q_expr q) cache = Some pv -> pv <> PVNone /\ pv_answer q pv.
Proof.
  intros Hc Hq. induction Hc as [|[[cs e] v] cache Hv Hc IH]; simpl; [done|].
  destruct (Caching.entry_eqb (cs, e) (q_constraints q, q_expr q)) eqn:E; [|done]. intros [= <-].
  destruct Hv as (Hq' & Hn & Hp). unfold Caching.entry_eqb in E. simpl in *. apply andb_true_iff in E as [E1 E2].
  apply constraints_eqb_eq in E1; [|by apply (q_ok_wf _ Hq')|by apply q_ok_wf].
  apply expr_eqb_eq in E2; [|apply Hq'|apply Hq]. subst cs e. by destruct q.
Qed.

Lemma canonicalize_ok q : q_ok q -> getWidth (q_expr q) = Bool ->
  returns (Caching.canonicalizeQuery (q_expr q)) (fun r => let '(e, neg) := r in
    q_ok (withExpr q e) /\ if neg : bool then opposite q (withExpr q e) else e = q_expr q).
Proof.
  intros Hq Hw. unfold Caching.canonicalizeQuery. destruct (negate_opposite q Hq Hw) as (nq & E & Hnq & _ & Ho).
  unfold negateExpr in E. destruct (createIsZero (q_expr q)) as [z| |]; try discriminate. injection E as <-.
  cbn [mbind result_bind]. apply returns_ok. destruct (expr_ltb _ _); [|done]. by destruct q.
Qed.

Lemma negate_some pv : pv <> PVNone -> exists npv, negatePartialValidity pv = Ok npv /\ npv <> PVNone.
Proof. destruct pv; simpl; intros; try done; eexists; (split; [reflexivity|done]). Qed.

Lemma cacheLookup_ok cache q : Forall entry_ok cache -> q_ok q -> getWidth (q_expr q) = Bool ->
  returns (Caching.cacheLookup q cache) (fun hit => match hit with Some pv => pv <> PVNone /\ pv_answer q pv | None => True end).
Proof.
  intros Hc Hq Hw. unfold Caching.cacheLookup. eapply returns_bind; [by apply canonicalize_ok|]. intros [e neg] [Hqe Hneg].
  destruct (Caching.cache_find _ cache) as [pv|] eqn:E; [|by apply returns_ok].
  apply (cache_find_ok cache (withExpr q e)) in E as [Hn Hp]; [|done|done]. destruct neg; [|subst e; apply returns_ok; by destruct q].
  destruct (negate_some pv Hn) as (npv & En & Hnn). rewrite En. apply returns_ok. split; [done|].
  by apply (opposite_pv q (withExpr q e) pv).
Qed.

Lemma cacheInsert_ok cache q pv : Forall entry_ok cache -> q_ok q -> getWidth (q_expr q) = Bool -> pv <> PVNone -> pv_answer q pv ->
  returns (Caching.cacheInsert q pv cache) (Forall entry_ok).
Proof.
  intros Hc Hq Hw Hn Hp. unfold Caching.cacheInsert. eapply returns_bind; [by apply canonicalize_ok|]. intros [e neg] [Hqe Hneg].
  assert (Hcr : returns (if neg : bool then negatePartialValidity pv else Ok pv) (fun c => c <> PVNone /\ pv_answer (withExpr q e) c)).
  { destruct neg; [|subst e; apply returns_ok; by destruct q]. destruct (negate_some pv Hn) as (npv & En & Hnn). exists npv.
    split; [done|]. split; [done|]. apply (opposite_pv q (withExpr q e) npv pv Hneg); [|done].
    destruct pv; simpl in En; try done; injection En as <-; done. }
  eapply returns_bind; [exact Hcr|]. intros c [Hcn Hcp]. apply returns_ok. unfold Caching.cache_insert.
  destruct (Caching.cache_find _ cache); [done|]. constructor; [|done]. done.
Qed.

Lemma remember_ok {A} (P : A -> Prop) cache q pv (a : A) s :
  inv s -> Forall entry_ok cache -> q_ok q -> getWidth (q_expr q) = Bool -> pv <> PVNone -> pv_answer q pv -> P a ->
  answers cache_inv (fun r => match r with Some x => P x | None => True end) (Caching.remember q pv a s cache).
Proof.
  intros Hs Hc Hq Hw Hn Hp Ha. unfold Caching.remember. eapply returns_bind; [by apply cacheInsert_ok|].
  intros cache' Hc'. apply returns_ok. by split.
Qed.

Lemma remember_validity cache q pv v s :
  inv s -> Forall entry_ok cache -> q_ok q -> getWidth (q_expr q) = Bool -> pv <> PVNone -> pv_answer q pv ->
  validity_answer q (Some v) -> answers cache_inv (validity_answer q) (Caching.remember q pv v s cache).
Proof.
  intros Hs Hc Hq Hw Hn Hp Hv.
  eapply returns_weaken; [by apply (remember_ok (fun v => validity_answer q (Some v)))|]. by intros [[x|] st'] [H ?].
Qed.

Lemma remember_truth cache q pv b s :
  inv s -> Forall entry_ok cache -> q_ok q -> getWidth (q_expr q) = Bool -> pv <> PVNone -> pv_answer q pv ->
  truth_answer q (Some b) -> answers cache_inv (truth_answer q) (Caching.remember q pv b s cache).
Proof.
  intros Hs Hc Hq Hw Hn Hp Hv.
  eapply returns_weaken; [by apply (remember_ok (fun v => truth_answer q (Some v)))|]. by intros [[x|] st'] [H ?].
Qed.

Lemma refuted_may_fail q : satisfiable q -> refuted q -> may_fail q.
Proof. intros [rho Hm] H. exists rho. auto. Qed.

Lemma Caching_truth_ok q st : cache_inv st -> q_ok q -> satisfiable q -> getWidth (q_expr q) = Bool ->
  answers cache_inv (truth_answer q) (Caching.truth q st).
Proof.
  destruct st as [s cache]. intros [Hs Hc] Hq Hsat Hw. simpl in Hs, Hc. unfold Caching.truth.
  eapply returns_bind; [by apply cacheLookup_ok|]. intros hit Hhit.
  assert (Hask : forall refined, (may_fail q -> pv_answer q refined) -> refined <> PVNone ->
    answers cache_inv (truth_answer q) ('(isValid, s) ← computeTruth q s;
      match isValid with
      | None => Ok (None, (s, cache))
      | Some true => Caching.remember q MustBeTrue true s cache
      | Some false => Caching.remember q refined false s cache
      end)).
  { intros refined Href Hn. eapply returns_bind; [by apply computeTruth_spec|].
    intros [[[]|] s'] [Hr Hs']; simpl in Hr, Hs'; [by apply remember_truth| |by apply returns_ok].
    apply remember_truth; try done. by apply Href. }
  destruct hit as [[]|]; try (destruct Hhit as [Hnn Hp]; simpl in Hp); try (by apply returns_ok); try done.
  - apply returns_ok. split; [|done]. simpl. by apply refuted_may_fail.
  - apply Hask; [|done]. by intros.
  - apply returns_ok. split; [|done]. simpl. tauto.
  - by apply Hask.
Qed.

Lemma Caching_validity_ok q st : cache_inv st -> q_ok q -> satisfiable q -> getWidth (q_expr q) = Bool ->
  answers cache_inv (validity_answer q) (Caching.validity q st).
Proof.
  destruct st as [s cache]. intros [Hs Hc] Hq Hsat Hw. simpl in Hs, Hc. unfold Caching.validity.
  eapply returns_bind; [by apply cacheLookup_ok|]. intros hit Hhit.
  destruct hit as [[]|]; try (destruct Hhit as [Hnn Hp]; simpl in Hp); try (by apply returns_ok); try done.
  - eapply returns_bind; [by apply decide_validity|].
    intros [[[]|] s'] [Hr Hs']; simpl in Hr, Hs'; [by apply remember_validity|by apply remember_validity|by apply returns_ok].
  - pose proof (decide_refutation q s Hs Hq Hsat Hw Hp) as Hd. destruct (negateExpr q) as [nq| |]; [|by destruct Hd as (? & ? & _)..].
    cbn [mbind result_bind] in *. eapply returns_bind; [exact Hd|].
    intros [[[]|] s'] [Hr Hs']; simpl in Hr, Hs'; [by apply remember_validity|by apply remember_validity|by apply returns_ok].
  - eapply returns_bind; [by apply computeValidity_spec|].
    intros [[[]|] s'] [Hr Hs']; simpl in Hr, Hs'; [by apply remember_validity..|by apply returns_ok].
Qed.

Lemma Caching_keeps : SolverSpec (Caching.impl SI) cache_inv.
Proof.
  split; cbn [computeTruth computeValidity computeValue computeInitialValues Caching.impl].
  - intros. by apply Caching_truth_ok.
  - intros. by apply Caching_validity_ok.
  - intros q [s cache] [Hs Hc] Hq Hsat. unfold Caching.value. eapply returns_bind; [by apply computeValue_spec|].
    intros [r s'] [Hr Hs']. apply returns_ok. by split; [|split].
  - intros q objects [s cache] [Hs Hc] Hq Hw. unfold Caching.initial_values.
    eapply returns_bind; [by apply computeInitialValues_spec|]. intros [r s'] [Hr Hs']. apply returns_ok. by split; [|split].
Qed.
End layers.

(** A refined answer is never stored: [unordered_map::insert] keeps the entry that is
    there, so what was known before the query stays what the cache says. *)
Lemma refinement_is_lost {AP : APIntOps} ce pv (cache : Caching.cache_map) old :
  Caching.cache_find ce cache = Some old -> Caching.cache_find ce (Caching.cache_insert ce pv cache) = Some old.
Proof. intros H. unfold Caching.cache_insert. by rewrite H. Qed.

(** ** The claims *)

(** [CachingSolver]: over any implementation that keeps the laws, the caching
    layer starts with an invariant of its cache (the empty cache has it) under which
    every answer, cached, refined from a cached one or asked for, is right, and which
    every call keeps. *)
Theorem caching_solver_correct {AP : APIntOps} {SP : APIntSpec AP} {CFG : Config} {SUP : Supported}
    {St : Type} (SI : SolverImpl St) (inv : St -> Prop) :
  SolverSpec SI inv ->
  (forall s, inv s -> cache_inv (inv := inv) (s, [])) /\ SolverSpec (Caching.impl SI) (cache_inv (inv := inv)).
Proof. intros HS. split; [intros s Hs; split; [done|constructor]|]. apply Caching_keeps. Qed.

(** [StagedSolverImpl] and the default of [IncompleteSolver::computeValidity]:
    a solver that may give up, put in front of a complete one, keeps the laws of the
    complete one, its validity being derived from its truth when it is not its own. *)
Theorem staged_solver_correct {AP : APIntOps} {SP : APIntSpec AP} {CFG : Config} {SUP : Supported}
    {St : Type} (SI : SolverImpl St) (inv : St -> Prop) (I : IncompleteSolver) :
  SolverSpec SI inv -> IncompleteSpec I ->
  SolverSpec (Staged.impl I SI) inv /\
  SolverSpec (Staged.impl {| ic_computeValidity := incomplete_computeValidity ic_computeTruth; ic_computeTruth := ic_computeTruth;
    ic_computeValue := ic_computeValue; ic_computeInitialValues := ic_computeInitialValues |} SI) inv.
Proof.
  intros HS HI. split; [apply Staged_keeps|]. unshelve eapply Staged_keeps. destruct HI as [Ht Hv He Hi].
  split; cbn; try done. intros q Hq _ Hw. by apply incomplete_validity_ok.
Qed.

(** An incomplete solver that decides constants and gives up on the rest. *)
#[local] Instance constants_only : IncompleteSolver := {|
  ic_computeTruth q := Ok (match q_expr q with ConstantExpr c => if raw c =? 1 then MustBeTrue else PVNone | _ => PVNone end);
  ic_computeValidity q := Ok (match q_expr q with ConstantExpr c => if raw c =? 1 then MustBeTrue else PVNone | _ => PVNone end);
  ic_computeValue _ := Ok None;
  ic_computeInitialValues _ _ := Ok None |}.

#[local] Instance constants_only_spec {AP : APIntOps} {CFG : Config} {SUP : Supported} : IncompleteSpec constants_only.
Proof.
  assert (H : forall q c, q_expr q = ConstantExpr c -> raw c = 1 -> valid q).
  { intros q c E Er rho _. unfold true_under. by rewrite E, <- Er. }
  split; intros; cbn [ic_computeTruth ic_computeValidity ic_computeValue ic_computeInitialValues constants_only];
    try (by apply returns_ok); destruct (q_expr q) as [c| | | | | | | | |] eqn:E; try (by apply returns_ok);
    destruct (Z.eqb_spec (raw c) 1); apply returns_ok; try done; by apply (H q c).
Qed.

Lemma caching_solver_correct_witness :
  exists inv, @SolverSpec ZOps default_config everything _ (@Caching.impl ZOps default_config unit (@Oracle.impl ZOps default_config)) inv /\ inv (tt, []).
Proof.
  destruct (@caching_solver_correct ZOps ZOps_spec default_config everything unit (@Oracle.impl ZOps default_config) (fun _ => True)
    (@Oracle.spec ZOps ZOps_spec default_config everything)) as [H0 H].
  eexists. split; [exact H|]. by apply H0.
Defined.

Lemma staged_solver_correct_witness :
  @SolverSpec ZOps default_config everything _ (@Staged.impl ZOps default_config constants_only unit (@Oracle.impl ZOps default_config)) (fun _ => True).
Proof.
  exact (proj1 (@staged_solver_correct ZOps ZOps_spec default_config everything unit (@Oracle.impl ZOps default_config) (fun _ => True)
    constants_only (@Oracle.spec ZOps ZOps_spec default_config everything) constants_only_spec)).
Defined.
