(* ===== verification/ValueRange.v ===== *)
(** * ValueRange: intervals of unsigned values

    Models the bounds of Hacker's Delight and the class [ValueRange] of
    [klee/lib/Solver/FastCexSolver.cpp], and the template [ExprRangeEvaluator] of
    [klee/include/klee/util/ExprRangeEvaluator.h], which computes with the interface
    [RangeDomain].  Values and bounds are [uint64_t]; the empty range is [1, 0]. *)

From S2P Require Import Prelude APInt ExprData Samples Bits ExprCreate.
Local Open Scope Z_scope.

Definition not64 (a : Z) : Z := u64 (Z.lnot a).

(** ** The bounds

    [while (m)] runs over [m = 2^63, ..., 2^0]: [S i] stands for [m = 2^i], [0] for
    [m = 0]. *)
Fixpoint minOR_loop (n : nat) (a b c d : Z) : Z :=
  match n with
  | O => Z.lor a c
  | S i =>
      let m := 2 ^ Z.of_nat i in
      if negb (Z.land (Z.land (not64 a) c) m =? 0) then
        let temp := Z.land (Z.lor a m) (u64 (- m)) in
        if temp <=? b then Z.lor temp c else minOR_loop i a b c d
      else if negb (Z.land (Z.land a (not64 c)) m =? 0) then
        let temp := Z.land (Z.lor c m) (u64 (- m)) in
        if temp <=? d then Z.lor a temp else minOR_loop i a b c d
      else minOR_loop i a b c d
  end.
Definition minOR : Z -> Z -> Z -> Z -> Z := minOR_loop 64.

Fixpoint maxOR_loop (n : nat) (a b c d : Z) : Z :=
  match n with
  | O => Z.lor b d
  | S i =>
      let m := 2 ^ Z.of_nat i in
      if negb (Z.land (Z.land b d) m =? 0) then
        let temp := Z.lor (u64 (b - m)) (u64 (m - 1)) in
        if a <=? temp then Z.lor temp d
        else
          let temp := Z.lor (u64 (d - m)) (u64 (m - 1)) in
          if c <=? temp then Z.lor b temp else maxOR_loop i a b c d
      else maxOR_loop i a b c d
  end.
Definition maxOR : Z -> Z -> Z -> Z -> Z := maxOR_loop 64.

Fixpoint minAND_loop (n : nat) (a b c d : Z) : Z :=
  match n with
  | O => Z.land a c
  | S i =>
      let m := 2 ^ Z.of_nat i in
      if negb (Z.land (Z.land (not64 a) (not64 c)) m =? 0) then
        let temp := Z.land (Z.lor a m) (u64 (- m)) in
        if temp <=? b then Z.land temp c
        else
          let temp := Z.land (Z.lor c m) (u64 (- m)) in
          if temp <=? d then Z.land a temp else minAND_loop i a b c d
      else minAND_loop i a b c d
  end.
Definition minAND : Z -> Z -> Z -> Z -> Z := minAND_loop 64.

Fixpoint maxAND_loop (n : nat) (a b c d : Z) : Z :=
  match n with
  | O => Z.land b d
  | S i =>
      let m := 2 ^ Z.of_nat i in
      if negb (Z.land (Z.land b (not64 d)) m =? 0) then
        let temp := Z.lor (Z.land b (not64 m)) (u64 (m - 1)) in
        if a <=? temp then Z.land temp d else maxAND_loop i a b c d
      else if negb (Z.land (Z.land (not64 b) d) m =? 0) then
        let temp := Z.lor (Z.land d (not64 m)) (u64 (m - 1)) in
        if c <=? temp then Z.land b temp else maxAND_loop i a b c d
      else maxAND_loop i a b c d
  end.
Definition maxAND : Z -> Z -> Z -> Z -> Z := maxAND_loop 64.

(** *** Words bit by bit *)
Lemma not64_eq a : inw 64 a -> not64 a = 2 ^ 64 - 1 - a.
Proof. intros Ha. unfold not64, u64, wrap, inw in *. rewrite <- Z.opp_lnot in *. unfold Z.lnot. symmetry. apply (Z.mod_unique _ _ (-1)); lia. Qed.

Lemma not64_inw a : inw 64 (not64 a).
Proof. by apply wrap_inw. Qed.

Lemma not64_not64 a : inw 64 a -> not64 (not64 a) = a.
Proof. intros Ha. pose proof (not64_inw a). rewrite !not64_eq by done. lia. Qed.

Lemma not64_testbit a i : 0 <= i < 64 -> Z.testbit (not64 a) i = negb (Z.testbit a i).
Proof. intros Hi. unfold not64, u64, wrap. rewrite Z.mod_pow2_bits_low by lia. apply Z.lnot_spec; lia. Qed.

Lemma not64_high a i : 64 <= i -> Z.testbit (not64 a) i = false.
Proof. intros. apply (inw_testbit 64); [lia|apply not64_inw|done]. Qed.

(** [x & m] for a single bit [m]. *)
Lemma land_bit x i : 0 <= i -> negb (Z.land x (2 ^ i) =? 0) = Z.testbit x i.
Proof.
  intros Hi. destruct (Z.testbit x i) eqn:E.
  - apply negb_true_iff, Z.eqb_neq. intros H. assert (Z.testbit (Z.land x (2 ^ i)) i = true) by (by rewrite Z.land_spec, E, Z.pow2_bits_true).
    rewrite H, Z.bits_0 in *. done.
  - apply negb_false_iff, Z.eqb_eq. apply Z.bits_inj'. intros n Hn. rewrite Z.land_spec, Z.bits_0, Z.pow2_bits_eqb by done.
    destruct (Z.eqb_spec i n) as [<-|]; [by rewrite E|by rewrite andb_false_r].
Qed.

Lemma neg_bit i n : 0 <= i < 64 -> 0 <= n -> Z.testbit (u64 (- 2 ^ i)) n = (i <=? n) && (n <? 64).
Proof.
  intros Hi Hn. unfold u64, wrap. destruct (Z.ltb_spec n 64).
  - rewrite Z.mod_pow2_bits_low by done. replace (- 2 ^ i) with (Z.lnot (Z.ones i)) by (rewrite Z.ones_equiv; unfold Z.lnot; lia).
    rewrite Z.lnot_spec, Z.testbit_ones_nonneg, andb_true_r by lia. destruct (Z.ltb_spec n i), (Z.leb_spec i n); lia || done.
  - rewrite Z.mod_pow2_bits_high by lia. by rewrite andb_false_r.
Qed.

Lemma mul_pow2_testbit x i n : 0 <= i -> 0 <= n -> Z.testbit (x * 2 ^ i) n = (i <=? n) && Z.testbit x (n - i).
Proof.
  intros Hi Hn. destruct (Z.leb_spec i n).
  - by rewrite Z.mul_pow2_bits by done.
  - rewrite Z.mul_pow2_bits by done. apply Z.testbit_neg_r. lia.
Qed.

(** [(a | m) & -m]: the next multiple of [m] whose bit [m] is set. *)
Lemma raise_eq a i : inw 64 a -> 0 <= i < 64 -> Z.testbit a i = false ->
  Z.land (Z.lor a (2 ^ i)) (u64 (- 2 ^ i)) = (a / 2 ^ i + 1) * 2 ^ i.
Proof.
  intros Ha Hi Hb. assert (E : a / 2 ^ i + 1 = Z.lor (a / 2 ^ i) 1).
  { symmetry. rewrite <- Z.shiftr_div_pow2 by lia.
    change 1 with (2 ^ 0) at 1. rewrite <- Z.lxor_lor, <- Z.add_nocarry_lxor; [by rewrite Z.pow_0_r|..];
      (apply Z.bits_inj'; intros n Hn; rewrite Z.land_spec, Z.bits_0, Z.pow2_bits_eqb by lia;
       destruct (Z.eqb_spec 0 n) as [<-|]; [rewrite Z.shiftr_spec, Z.add_0_l by lia; by rewrite Hb|by rewrite andb_false_r]). }
  rewrite E. apply Z.bits_inj'. intros n Hn.
  rewrite Z.land_spec, Z.lor_spec, neg_bit, mul_pow2_testbit, Z.pow2_bits_eqb by lia.
  destruct (Z.leb_spec i n); [|by rewrite andb_false_r]. simpl.
  rewrite Z.lor_spec, <- Z.shiftr_div_pow2, Z.shiftr_spec by lia. replace (n - i + i) with n by lia.
  change 1 with (2 ^ 0). rewrite Z.pow2_bits_eqb by lia.
  destruct (Z.ltb_spec n 64); [|rewrite (inw_testbit 64 a) by (lia || done)]; destruct (Z.eqb_spec i n), (Z.eqb_spec 0 (n - i)); try lia; destruct (Z.testbit a n); done || lia.
Qed.

(** Halving. *)
Lemma half_bit x i : 0 <= i -> x / 2 ^ i = 2 * (x / 2 ^ (i + 1)) + Z.b2z (Z.testbit x i).
Proof.
  intros Hi. rewrite Z.testbit_spec' by done. rewrite pow2_split, <- Z.div_div by lia. change (2 ^ 1) with 2.
  apply Z.div_mod. lia.
Qed.
Lemma lor_half x y : Z.lor x y = 2 * Z.lor (x / 2) (y / 2) + Z.b2z (Z.odd x || Z.odd y).
Proof.
  pose proof (half_bit (Z.lor x y) 0 ltac:(lia)) as H. change (0 + 1) with 1 in H. change (2 ^ 1) with 2 in H. rewrite Z.pow_0_r, Z.div_1_r in H.
  rewrite Z.lor_spec, !Z.bit0_odd in H. rewrite H at 1. f_equal. f_equal. rewrite <- !Z.div2_div. rewrite !Z.div2_spec. apply Z.shiftr_lor.
Qed.
Lemma land_half x y : Z.land x y = 2 * Z.land (x / 2) (y / 2) + Z.b2z (Z.odd x && Z.odd y).
Proof.
  pose proof (half_bit (Z.land x y) 0 ltac:(lia)) as H. change (0 + 1) with 1 in H. change (2 ^ 1) with 2 in H. rewrite Z.pow_0_r, Z.div_1_r in H.
  rewrite Z.land_spec, !Z.bit0_odd in H. rewrite H at 1. f_equal. f_equal. rewrite <- !Z.div2_div. rewrite !Z.div2_spec. apply Z.shiftr_land.
Qed.
Lemma lor_div x y i : 0 <= i -> Z.lor x y / 2 ^ i = Z.lor (x / 2 ^ i) (y / 2 ^ i).
Proof. intros. rewrite <- !Z.shiftr_div_pow2 by done. apply Z.shiftr_lor. Qed.
Lemma land_div x y i : 0 <= i -> Z.land x y / 2 ^ i = Z.land (x / 2 ^ i) (y / 2 ^ i).
Proof. intros. rewrite <- !Z.shiftr_div_pow2 by done. apply Z.shiftr_land. Qed.
Lemma lor_mod x y i : 0 <= i -> Z.lor x y mod 2 ^ i = Z.lor (x mod 2 ^ i) (y mod 2 ^ i).
Proof. intros. rewrite <- !Z.land_ones by done. by rewrite Z.land_lor_distr_l. Qed.
Lemma land_mod x y i : 0 <= i -> Z.land x y mod 2 ^ i = Z.land (x mod 2 ^ i) (y mod 2 ^ i).
Proof.
  intros. rewrite <- !Z.land_ones by done. apply Z.bits_inj'. intros n Hn. rewrite !Z.land_spec.
  destruct (Z.testbit x n), (Z.testbit y n), (Z.testbit (Z.ones i) n); done.
Qed.
Lemma lor_ge x y : 0 <= x -> 0 <= y -> y <= Z.lor x y.
Proof.
  intros Hx Hy. enough (0 <= Z.lor x y - y) by lia. rewrite Z.sub_nocarry_ldiff.
  - apply Z.ldiff_nonneg. left. by apply Z.lor_nonneg.
  - apply Z.bits_inj'. intros n Hn. rewrite Z.ldiff_spec, Z.lor_spec, Z.bits_0. destruct (Z.testbit x n), (Z.testbit y n); done.
Qed.
Lemma pos_mul_le x y m : 0 < m -> x / m = y / m -> x mod m <= y mod m -> x <= y.
Proof. intros Hm H1 H2. rewrite (Z.div_mod x m), (Z.div_mod y m) by lia. lia. Qed.
Lemma lt_of_div x y m : 0 < m -> x / m < y / m -> x < y.
Proof. intros Hm H. apply Z.nle_gt. intros Hle. pose proof (Z.div_le_mono y x m Hm Hle). lia. Qed.
Lemma strict_down u v i : 0 <= i -> u / 2 ^ (i + 1) < v / 2 ^ (i + 1) -> u / 2 ^ i < v / 2 ^ i.
Proof. intros Hi. rewrite (half_bit u i), (half_bit v i) by done. destruct (Z.testbit u i), (Z.testbit v i); simpl; lia. Qed.

Lemma div2_succ k : (2 * k + 1) / 2 = 2 * k / 2.
Proof. Z.to_euclidean_division_equations. lia. Qed.

(** *** The least values

    From bit [j] up, [x] and [y] are [a] and [c], or [x op y] is greater than [a op c]. *)
Definition ahead (op : Z -> Z -> Z) (a c x y j : Z) : Prop :=
  x / 2 ^ j = a / 2 ^ j /\ y / 2 ^ j = c / 2 ^ j \/ op a c / 2 ^ j < op x y / 2 ^ j.

Lemma ahead_top op a c x y : inw 64 a -> inw 64 c -> inw 64 x -> inw 64 y -> ahead op a c x y 64.
Proof. unfold inw. intros. left. by rewrite !Z.div_small. Qed.
Lemma ahead_end op a c x y : ahead op a c x y 0 -> op a c <= op x y.
Proof. unfold ahead. rewrite Z.pow_0_r, !Z.div_1_r. intros [[-> ->]|]; lia. Qed.

Lemma raise_bounds a i : inw 64 a -> 0 <= i -> a <= (a / 2 ^ i + 1) * 2 ^ i /\ (a / 2 ^ i + 1) * 2 ^ i / 2 ^ i = a / 2 ^ i + 1 /\ (a / 2 ^ i + 1) * 2 ^ i mod 2 ^ i = 0.
Proof.
  intros Ha Hi. pose proof (pow2_pos i Hi). rewrite Z.div_mul, Z.mod_mul by lia. split_and!; try done.
  pose proof (Z.div_mod a (2 ^ i)). pose proof (Z.mod_pos_bound a (2 ^ i)). lia.
Qed.

(** A value that is not raised within its bound has the bits of the lower one. *)
Lemma not_raised a b x i : 0 <= i -> b < (a / 2 ^ i + 1) * 2 ^ i -> a <= x <= b -> x / 2 ^ i = a / 2 ^ i.
Proof.
  intros Hi Hb Hx. pose proof (pow2_pos i Hi). pose proof (Z.div_le_mono a x (2 ^ i) ltac:(lia) ltac:(lia)).
  pose proof (Z.div_lt_upper_bound x (2 ^ i) (a / 2 ^ i + 1) ltac:(lia) ltac:(lia)). lia.
Qed.

(** One bit of the loop when nothing is raised. *)
Lemma minOR_pass a b c d x y i : 0 <= i < 64 -> a <= x <= b -> c <= y <= d ->
  (Z.testbit a i = false -> Z.testbit c i = true -> x / 2 ^ i = a / 2 ^ i \/ x / 2 ^ (i + 1) <> a / 2 ^ (i + 1)) ->
  (Z.testbit a i = true -> Z.testbit c i = false -> y / 2 ^ i = c / 2 ^ i \/ y / 2 ^ (i + 1) <> c / 2 ^ (i + 1)) ->
  ahead Z.lor a c x y (i + 1) -> ahead Z.lor a c x y i.
Proof.
  intros Hi Hx Hy H1 H2 [[Ex Ey]|H]; [|right; apply strict_down; [lia|done]]. pose proof (pow2_pos i ltac:(lia)).
  pose proof (Z.div_le_mono a x (2 ^ i) ltac:(lia) ltac:(lia)) as Lx. pose proof (Z.div_le_mono c y (2 ^ i) ltac:(lia) ltac:(lia)) as Ly.
  unfold ahead. rewrite (half_bit (Z.lor a c) i), (half_bit (Z.lor x y) i), !lor_div, Ex, Ey, !Z.lor_spec by lia.
  rewrite (half_bit x i), (half_bit a i) in H1, Lx |- * by lia. rewrite (half_bit y i), (half_bit c i) in H2, Ly |- * by lia. rewrite Ex in *. rewrite Ey in *.
  destruct (Z.testbit a i), (Z.testbit c i), (Z.testbit x i), (Z.testbit y i); simpl in *; try lia;
    first [destruct (H1 eq_refl eq_refl); lia|destruct (H2 eq_refl eq_refl); lia].
Qed.

(** Raising [a] over a bit that [c] has. *)
Lemma minOR_raise a c x y i : inw 64 a -> inw 64 c -> 0 <= i -> a <= x -> c <= y -> Z.testbit a i = false -> Z.testbit c i = true ->
  ahead Z.lor a c x y (i + 1) -> Z.lor ((a / 2 ^ i + 1) * 2 ^ i) c <= Z.lor x y.
Proof.
  intros Ha Hc Hi Hx Hy Ba Bc H. destruct (raise_bounds a i Ha Hi) as (_ & Rd & Rm). set (t := (a / 2 ^ i + 1) * 2 ^ i) in *.
  pose proof (pow2_pos i Hi) as Hp. pose proof (half_bit a i Hi) as Ea. pose proof (half_bit c i Hi) as Ec. rewrite Ba, Z.add_0_r in Ea. rewrite Bc in Ec. simpl in Ec.
  assert (Et : t / 2 ^ (i + 1) = a / 2 ^ (i + 1)) by (rewrite pow2_split, <- !Z.div_div by lia; change (2 ^ 1) with 2; rewrite Rd, Ea; apply div2_succ).
  destruct H as [[Ex Ey]|H].
  - pose proof (Z.div_le_mono c y (2 ^ i) Hp Hy) as Ly. pose proof (half_bit y i Hi) as Ey'. assert (Yi : Z.testbit y i = true) by (destruct (Z.testbit y i); simpl in *; lia).
    rewrite Yi in Ey'. simpl in Ey'. apply (pos_mul_le _ _ (2 ^ i) Hp).
    + rewrite (half_bit (Z.lor t c) i), (half_bit (Z.lor x y) i), !lor_div, !Z.lor_spec, Yi, Bc, !orb_true_r, Et, Ex, Ey by lia. done.
    + rewrite !lor_mod, Rm, Z.lor_0_l by done. transitivity (y mod 2 ^ i).
      * pose proof (Z.div_mod c (2 ^ i)). pose proof (Z.div_mod y (2 ^ i)). nia.
      * apply lor_ge; apply Z.mod_pos_bound; lia.
  - apply Z.lt_le_incl, (lt_of_div _ _ (2 ^ (i + 1))); [apply pow2_pos; lia|]. rewrite !lor_div in H |- * by lia. by rewrite Et.
Qed.

Lemma minOR_loop_le n a b c d x y : (n <= 64)%nat -> inw 64 a -> inw 64 c -> a <= x <= b -> c <= y <= d ->
  ahead Z.lor a c x y (Z.of_nat n) -> minOR_loop n a b c d <= Z.lor x y.
Proof.
  intros Hn Ha Hc Hx Hy. induction n as [|i IH]; intros H; cbn [minOR_loop]; [by apply ahead_end|]. rewrite Nat2Z.inj_succ, <- Z.add_1_r in H.
  rewrite !land_bit, !Z.land_spec, !not64_testbit by lia. specialize (IH ltac:(lia)). set (k := Z.of_nat i) in *. assert (Hk : 0 <= k < 64) by lia.
  pose proof (minOR_pass a b c d x y k Hk Hx Hy) as Hp.
  destruct (Z.testbit a k) eqn:Ba, (Z.testbit c k) eqn:Bc; cbn [negb andb]; try (by apply IH, Hp).
  - rewrite raise_eq by done. case_match; [|apply IH, Hp; try done; intros _ _; left; eapply not_raised; [lia| |exact Hy]; bool_to_prop; lia].
    rewrite Z.lor_comm, (Z.lor_comm x). apply minOR_raise; try done; try lia. destruct H as [[]|H]; [by left|right]. by rewrite (Z.lor_comm c), (Z.lor_comm y).
  - rewrite raise_eq by done. case_match; [apply minOR_raise; done || lia|apply IH, Hp; try done; intros _ _; left; eapply not_raised; [lia| |exact Hx]; bool_to_prop; lia].
Qed.

Lemma minOR_loop_attained n a b c d : (n <= 64)%nat -> inw 64 a -> inw 64 c -> a <= b -> c <= d ->
  exists x y, a <= x <= b /\ c <= y <= d /\ minOR_loop n a b c d = Z.lor x y.
Proof.
  intros Hn Ha Hc Hab Hcd. induction n as [|i IH]; cbn [minOR_loop]; [by exists a, c|]. specialize (IH ltac:(lia)).
  rewrite !land_bit, !Z.land_spec, !not64_testbit by lia. set (k := Z.of_nat i) in *.
  pose proof (raise_bounds a k Ha ltac:(lia)) as [? _]. pose proof (raise_bounds c k Hc ltac:(lia)) as [? _].
  destruct (Z.testbit a k) eqn:Ba, (Z.testbit c k) eqn:Bc; cbn [negb andb]; try done; (rewrite raise_eq by (done || lia)); case_match; try done; bool_to_prop.
  - by exists a, ((c / 2 ^ k + 1) * 2 ^ k).
  - by exists ((a / 2 ^ k + 1) * 2 ^ k), c.
Qed.

(** [minAND] *)
Lemma minAND_pass a b c d x y i : 0 <= i < 64 -> a <= x <= b -> c <= y <= d ->
  (Z.testbit a i = false -> Z.testbit c i = false -> x / 2 ^ i = a / 2 ^ i /\ y / 2 ^ i = c / 2 ^ i \/ x / 2 ^ (i + 1) <> a / 2 ^ (i + 1) \/ y / 2 ^ (i + 1) <> c / 2 ^ (i + 1)) ->
  ahead Z.land a c x y (i + 1) -> ahead Z.land a c x y i.
Proof.
  intros Hi Hx Hy H1 [[Ex Ey]|H]; [|right; apply strict_down; [lia|done]]. pose proof (pow2_pos i ltac:(lia)).
  pose proof (Z.div_le_mono a x (2 ^ i) ltac:(lia) ltac:(lia)) as Lx. pose proof (Z.div_le_mono c y (2 ^ i) ltac:(lia) ltac:(lia)) as Ly.
  unfold ahead. rewrite (half_bit (Z.land a c) i), (half_bit (Z.land x y) i), !land_div, Ex, Ey, !Z.land_spec by lia.
  rewrite (half_bit x i), (half_bit a i) in H1, Lx |- * by lia. rewrite (half_bit y i), (half_bit c i) in H1, Ly |- * by lia. rewrite Ex in *. rewrite Ey in *.
  destruct (Z.testbit a i), (Z.testbit c i), (Z.testbit x i), (Z.testbit y i); simpl in *; try lia; destruct (H1 eq_refl eq_refl); lia.
Qed.

Lemma minAND_raise a c x y i : inw 64 a -> inw 64 c -> 0 <= x -> 0 <= y -> 0 <= i -> Z.testbit a i = false -> Z.testbit c i = false ->
  ahead Z.land a c x y (i + 1) -> Z.land ((a / 2 ^ i + 1) * 2 ^ i) c <= Z.land x y.
Proof.
  intros Ha Hc Hx Hy Hi Ba Bc H. destruct (raise_bounds a i Ha Hi) as (_ & Rd & Rm). set (t := (a / 2 ^ i + 1) * 2 ^ i) in *.
  pose proof (pow2_pos i Hi) as Hp. pose proof (half_bit a i Hi) as Ea. rewrite Ba, Z.add_0_r in Ea.
  assert (Et : t / 2 ^ (i + 1) = a / 2 ^ (i + 1)) by (rewrite pow2_split, <- !Z.div_div by lia; change (2 ^ 1) with 2; rewrite Rd, Ea; apply div2_succ).
  assert (Hle : Z.land t c / 2 ^ (i + 1) <= Z.land x y / 2 ^ (i + 1)).
  { destruct H as [[Ex Ey]|H]; rewrite !land_div in * by lia; rewrite Et; [rewrite Ex, Ey|]; lia. }
  assert (Hm : Z.land t c mod 2 ^ (i + 1) = 0).
  { pose proof (half_bit (Z.land t c) i Hi) as Eh. rewrite Z.land_spec, Bc, andb_false_r, Z.add_0_r in Eh.
    pose proof (land_mod t c i Hi) as El. rewrite Rm, Z.land_0_l in El.
    pose proof (Z.div_mod (Z.land t c) (2 ^ i) ltac:(lia)) as D1. pose proof (Z.div_mod (Z.land t c) (2 ^ (i + 1))) as D2.
    rewrite pow2_split in * by lia. change (2 ^ 1) with 2 in *. lia. }
  pose proof (pow2_pos (i + 1) ltac:(lia)). pose proof (Z.div_mod (Z.land t c) (2 ^ (i + 1))). pose proof (Z.div_mod (Z.land x y) (2 ^ (i + 1))).
  pose proof (Z.mod_pos_bound (Z.land x y) (2 ^ (i + 1))). nia.
Qed.

Lemma minAND_loop_le n a b c d x y : (n <= 64)%nat -> inw 64 a -> inw 64 c -> a <= x <= b -> c <= y <= d ->
  ahead Z.land a c x y (Z.of_nat n) -> minAND_loop n a b c d <= Z.land x y.
Proof.
  intros Hn Ha Hc Hx Hy. induction n as [|i IH]; intros H; cbn [minAND_loop]; [by apply ahead_end|]. rewrite Nat2Z.inj_succ, <- Z.add_1_r in H.
  rewrite !land_bit, !Z.land_spec, !not64_testbit by lia. specialize (IH ltac:(lia)). set (k := Z.of_nat i) in *. assert (Hk : 0 <= k < 64) by lia.
  pose proof (minAND_pass a b c d x y k Hk Hx Hy) as Hp. unfold inw in *.
  destruct (Z.testbit a k) eqn:Ba, (Z.testbit c k) eqn:Bc; cbn [negb andb]; try (by apply IH, Hp).
  rewrite !raise_eq by done. case_match; [apply minAND_raise; done || lia|]. case_match.
  - rewrite Z.land_comm, (Z.land_comm x). apply minAND_raise; try done; try lia. destruct H as [[]|H]; [by left|right]. by rewrite (Z.land_comm c), (Z.land_comm y).
  - apply IH, Hp; [|done]. intros _ _. left. split; (eapply not_raised; [lia| |eassumption]; bool_to_prop; lia).
Qed.

Lemma minAND_loop_attained n a b c d : (n <= 64)%nat -> inw 64 a -> inw 64 c -> a <= b -> c <= d ->
  exists x y, a <= x <= b /\ c <= y <= d /\ minAND_loop n a b c d = Z.land x y.
Proof.
  intros Hn Ha Hc Hab Hcd. induction n as [|i IH]; cbn [minAND_loop]; [by exists a, c|]. specialize (IH ltac:(lia)).
  rewrite !land_bit, !Z.land_spec, !not64_testbit by lia. set (k := Z.of_nat i) in *.
  pose proof (raise_bounds a k Ha ltac:(lia)) as [? _]. pose proof (raise_bounds c k Hc ltac:(lia)) as [? _].
  destruct (Z.testbit a k) eqn:Ba, (Z.testbit c k) eqn:Bc; cbn [negb andb]; try done. rewrite !raise_eq by (done || lia). case_match; [|case_match; [|done]]; bool_to_prop.
  - by exists ((a / 2 ^ k + 1) * 2 ^ k), c.
  - by exists a, ((c / 2 ^ k + 1) * 2 ^ k).
Qed.

(** *** The greatest values, by complement *)
Lemma not64_leb a b : inw 64 a -> inw 64 b -> (not64 a <=? b) = (not64 b <=? a).
Proof. intros Ha Hb. rewrite !not64_eq by done. destruct (Z.leb_spec (2 ^ 64 - 1 - a) b), (Z.leb_spec (2 ^ 64 - 1 - b) a); lia || done. Qed.
Lemma leb_not64 a b : inw 64 a -> inw 64 b -> (a <=? not64 b) = (b <=? not64 a).
Proof. intros Ha Hb. rewrite !not64_eq by done. destruct (Z.leb_spec a (2 ^ 64 - 1 - b)), (Z.leb_spec b (2 ^ 64 - 1 - a)); lia || done. Qed.
Lemma not64_le a b : inw 64 a -> inw 64 b -> not64 a <= not64 b <-> b <= a.
Proof. intros Ha Hb. rewrite !not64_eq by done. lia. Qed.

(** Words are equal if their bits are. *)
Lemma word_eq a b : inw 64 a -> inw 64 b -> (forall n, 0 <= n < 64 -> Z.testbit a n = Z.testbit b n) -> a = b.
Proof.
  intros Ha Hb H. apply Z.bits_inj'. intros n Hn. destruct (Z.lt_ge_cases n 64); [by apply H|]. by rewrite !(inw_testbit 64) by (done || lia).
Qed.
Lemma not64_land a b : inw 64 a -> inw 64 b -> not64 (Z.land a b) = Z.lor (not64 a) (not64 b).
Proof.
  intros Ha Hb. apply word_eq; [apply not64_inw|apply lor_inw; [lia|apply not64_inw..]|]. intros n Hn.
  rewrite Z.lor_spec, !not64_testbit, Z.land_spec, negb_andb by done. done.
Qed.
Lemma not64_lor a b : inw 64 a -> inw 64 b -> not64 (Z.lor a b) = Z.land (not64 a) (not64 b).
Proof.
  intros Ha Hb. apply word_eq; [apply not64_inw|apply land_inw; [lia|apply not64_inw..]|]. intros n Hn.
  rewrite Z.land_spec, !not64_testbit, Z.lor_spec, negb_orb by done. done.
Qed.

Lemma ones_bit i n : 0 <= i < 64 -> 0 <= n < 64 -> Z.testbit (u64 (2 ^ i - 1)) n = (n <? i).
Proof.
  intros Hi Hn. unfold u64, wrap. rewrite Z.mod_pow2_bits_low by lia. rewrite Z.sub_1_r, <- Z.ones_equiv. by rewrite Z.testbit_ones_nonneg by lia.
Qed.
Lemma clear_inw b i : inw 64 b -> 0 <= i < 64 -> inw 64 (Z.lor (Z.land b (not64 (2 ^ i))) (u64 (2 ^ i - 1))).
Proof. intros Hb Hi. apply lor_inw; [lia|apply land_inw; [lia|done|apply not64_inw]|by apply wrap_inw]. Qed.
Lemma raise_inw a i : inw 64 a -> 0 <= i < 64 -> inw 64 (Z.land (Z.lor a (2 ^ i)) (u64 (- 2 ^ i))).
Proof.
  intros Ha Hi. apply land_inw; [lia| |by apply wrap_inw]. apply lor_inw; [lia|done|]. split; [apply pow2_pos'|]. apply Z.pow_lt_mono_r; lia.
Qed.

(** Clearing a bit and setting the lower ones is raising the complement. *)
Lemma lower_eq b i : inw 64 b -> 0 <= i < 64 ->
  Z.lor (Z.land b (not64 (2 ^ i))) (u64 (2 ^ i - 1)) = not64 (Z.land (Z.lor (not64 b) (2 ^ i)) (u64 (- 2 ^ i))).
Proof.
  intros Hb Hi. apply word_eq; [by apply clear_inw|apply not64_inw|]. intros n Hn.
  rewrite Z.lor_spec, Z.land_spec, !not64_testbit, Z.land_spec, Z.lor_spec, not64_testbit, neg_bit, ones_bit, Z.pow2_bits_eqb by lia.
  rewrite (proj2 (Z.ltb_lt n 64)) by lia. destruct (Z.testbit b n), (Z.eqb_spec i n), (Z.ltb_spec n i), (Z.leb_spec i n); try lia; done.
Qed.
Lemma sub_bit b i : inw 64 b -> 0 <= i < 64 -> Z.testbit b i = true -> u64 (b - 2 ^ i) = Z.land b (not64 (2 ^ i)).
Proof.
  intros Hb Hi Bb. rewrite Z.sub_nocarry_ldiff.
  - apply word_eq; [by apply wrap_inw|apply land_inw; [lia|done|apply not64_inw]|]. intros n Hn. unfold u64, wrap.
    by rewrite Z.mod_pow2_bits_low, Z.ldiff_spec, Z.land_spec, not64_testbit by lia.
  - apply Z.bits_inj'. intros n Hn. rewrite Z.ldiff_spec, Z.bits_0, Z.pow2_bits_eqb by lia. destruct (Z.eqb_spec i n) as [<-|]; [by rewrite Bb|done].
Qed.

Lemma maxOR_dual n a b c d : (n <= 64)%nat -> inw 64 a -> inw 64 b -> inw 64 c -> inw 64 d ->
  maxOR_loop n a b c d = not64 (minAND_loop n (not64 b) (not64 a) (not64 d) (not64 c)).
Proof.
  intros Hn Ha Hb Hc Hd. pose proof (not64_inw b). pose proof (not64_inw d).
  induction n as [|i IH]; cbn [maxOR_loop minAND_loop]; [by rewrite not64_land, !not64_not64 by done|]. specialize (IH ltac:(lia)).
  rewrite !(not64_not64 b), !(not64_not64 d), !land_bit, !Z.land_spec by (done || lia). set (k := Z.of_nat i) in *.
  assert (Hk : 0 <= k < 64) by lia. destruct (Z.testbit b k) eqn:Bb, (Z.testbit d k) eqn:Bd; cbn [andb]; try done.
  rewrite (sub_bit b), (sub_bit d), (lower_eq b), (lower_eq d) by done.
  pose proof (raise_inw (not64 b) k ltac:(done) Hk). pose proof (raise_inw (not64 d) k ltac:(done) Hk).
  set (tb := Z.land (Z.lor (not64 b) _) _) in *. set (td := Z.land (Z.lor (not64 d) _) _) in *.
  rewrite (leb_not64 a tb), (leb_not64 c td) by done. case_match; [|case_match; [|done]]; by rewrite not64_land, not64_not64 by done.
Qed.

Lemma maxAND_dual n a b c d : (n <= 64)%nat -> inw 64 a -> inw 64 b -> inw 64 c -> inw 64 d ->
  maxAND_loop n a b c d = not64 (minOR_loop n (not64 b) (not64 a) (not64 d) (not64 c)).
Proof.
  intros Hn Ha Hb Hc Hd. pose proof (not64_inw b). pose proof (not64_inw d).
  induction n as [|i IH]; cbn [maxAND_loop minOR_loop]; [by rewrite not64_lor, !not64_not64 by done|]. specialize (IH ltac:(lia)).
  rewrite !(not64_not64 b), !(not64_not64 d), !land_bit, !Z.land_spec by (done || lia). set (k := Z.of_nat i) in *.
  assert (Hk : 0 <= k < 64) by lia. rewrite !(lower_eq b), !(lower_eq d) by done.
  pose proof (raise_inw (not64 b) k ltac:(done) Hk). pose proof (raise_inw (not64 d) k ltac:(done) Hk).
  set (tb := Z.land (Z.lor (not64 b) _) _) in *. set (td := Z.land (Z.lor (not64 d) _) _) in *.
  rewrite (leb_not64 a tb), (leb_not64 c td) by done. repeat case_match; try done; by rewrite not64_lor, not64_not64 by done.
Qed.

(** What the four functions return is the least, or the greatest, value of the
    operation on values of the two intervals. *)
Definition least (op : Z -> Z -> Z) (a b c d m : Z) : Prop :=
  (forall x y, a <= x <= b -> c <= y <= d -> m <= op x y) /\ exists x y, a <= x <= b /\ c <= y <= d /\ m = op x y.
Definition greatest (op : Z -> Z -> Z) (a b c d m : Z) : Prop :=
  (forall x y, a <= x <= b -> c <= y <= d -> op x y <= m) /\ exists x y, a <= x <= b /\ c <= y <= d /\ m = op x y.

Section bounds.
Context (a b c d : Z) (Ha : 0 <= a <= b) (Hb : b < 2 ^ 64) (Hc : 0 <= c <= d) (Hd : d < 2 ^ 64).

Lemma minOR_least : least Z.lor a b c d (minOR a b c d).
Proof.
  split; [|apply minOR_loop_attained; unfold inw; lia]. intros x y Hx Hy. apply minOR_loop_le; unfold inw; try lia. apply ahead_top; unfold inw; lia.
Qed.
Lemma minAND_least : least Z.land a b c d (minAND a b c d).
Proof.
  split; [|apply minAND_loop_attained; unfold inw; lia]. intros x y Hx Hy. apply minAND_loop_le; unfold inw; try lia. apply ahead_top; unfold inw; lia.
Qed.
End bounds.

(** The complement of a least value is the greatest of the dual operation. *)
Lemma dual_greatest op op' a b c d m : 0 <= a <= b -> b < 2 ^ 64 -> 0 <= c <= d -> d < 2 ^ 64 ->
  (forall x y, inw 64 x -> inw 64 y -> inw 64 (op x y) /\ not64 (op x y) = op' (not64 x) (not64 y)) ->
  least op (not64 b) (not64 a) (not64 d) (not64 c) m -> greatest op' a b c d (not64 m).
Proof.
  intros Ha Hb Hc Hd Hop [Hle (x & y & Hx & Hy & ->)]. rewrite !not64_eq in Hle, Hx, Hy by (unfold inw; lia).
  assert (inw 64 x /\ inw 64 y) as [Ix Iy] by (unfold inw; lia). destruct (Hop x y Ix Iy) as [Im E]. split.
  - intros u v Hu Hv. assert (inw 64 u /\ inw 64 v) as [Iu Iv] by (unfold inw; lia).
    specialize (Hle (not64 u) (not64 v)). destruct (Hop (not64 u) (not64 v) (not64_inw u) (not64_inw v)) as [In En].
    rewrite !not64_not64 in En by done. rewrite <- En. apply not64_le; [done..|]. apply Hle; rewrite !not64_eq by (unfold inw; lia); lia.
  - exists (not64 x), (not64 y). rewrite E. split_and!; rewrite ?not64_eq by done; try lia; done.
Qed.

Lemma maxOR_minAND a b c d : inw 64 a -> inw 64 b -> inw 64 c -> inw 64 d -> maxOR a b c d = not64 (minAND (not64 b) (not64 a) (not64 d) (not64 c)).
Proof. exact (maxOR_dual 64 a b c d (le_n _)). Qed.
Lemma maxAND_minOR a b c d : inw 64 a -> inw 64 b -> inw 64 c -> inw 64 d -> maxAND a b c d = not64 (minOR (not64 b) (not64 a) (not64 d) (not64 c)).
Proof. exact (maxAND_dual 64 a b c d (le_n _)). Qed.

Lemma maxOR_greatest a b c d : 0 <= a <= b -> b < 2 ^ 64 -> 0 <= c <= d -> d < 2 ^ 64 -> greatest Z.lor a b c d (maxOR a b c d).
Proof.
  intros Ha Hb Hc Hd. rewrite maxOR_minAND by (unfold inw; lia). apply (dual_greatest Z.land); [done..| |].
  - intros x y Hx Hy. split; [by apply land_inw|by apply not64_land].
  - apply minAND_least; clear -Ha Hb Hc Hd; rewrite !not64_eq by (unfold inw; lia); lia.
Qed.
Lemma maxAND_greatest a b c d : 0 <= a <= b -> b < 2 ^ 64 -> 0 <= c <= d -> d < 2 ^ 64 -> greatest Z.land a b c d (maxAND a b c d).
Proof.
  intros Ha Hb Hc Hd. rewrite maxAND_minOR by (unfold inw; lia). apply (dual_greatest Z.lor); [done..| |].
  - intros x y Hx Hy. split; [by apply lor_inw|by apply not64_lor].
  - apply minOR_least; clear -Ha Hb Hc Hd; rewrite !not64_eq by (unfold inw; lia); lia.
Qed.
#[global] Opaque minOR maxOR minAND maxAND.

(** ** ValueRange *)
Record ValueRange := VR { m_min : Z; m_max : Z }.

#[export] Instance ValueRange_eq_dec : EqDecision ValueRange.
Proof. solve_decision. Defined.

Module Range.
Definition empty : ValueRange := VR 1 0.
Definition of_constant {AP : APIntOps} (ce : apint) : ValueRange := let v := CE_getLimitedValue ce (2 ^ 64 - 1) in VR v v.
Definition of_value (value : Z) : ValueRange := VR value value.

Definition isEmpty (r : ValueRange) : bool := m_max r <? m_min r.
Definition set_intersection (r b : ValueRange) : ValueRange := VR (Z.max (m_min r) (m_min b)) (Z.min (m_max r) (m_max b)).
Definition intersects (r b : ValueRange) : bool := negb (isEmpty (set_intersection r b)).
Definition contains (r : ValueRange) (value : Z) : bool := intersects r (of_value value).
Definition isFullRange (r : ValueRange) (bits : Z) : result bool :=
  if m_min r =? 0 then mx ← bits64.maxValueOfNBits bits; Ok (m_max r =? mx) else Ok false.
Definition set_union (r b : ValueRange) : ValueRange := VR (Z.min (m_min r) (m_min b)) (Z.max (m_max r) (m_max b)).
Definition set_difference (r b : ValueRange) : ValueRange :=
  if isEmpty b || (m_max r <? m_min b) || (m_max b <? m_min r) then r
  else if (m_min b <=? m_min r) && (m_max r <=? m_max b) then VR 1 0
  else if m_min b <=? m_min r then VR (u64 (m_max b + 1)) (m_max r)
  else if m_max r <=? m_max b then VR (m_min r) (u64 (m_min b - 1))
  else VR (m_min r) (u64 (m_min b - 1)).

Definition isFixed (r : ValueRange) : bool := m_min r =? m_max r.

Definition binaryAnd (r b : ValueRange) : result ValueRange :=
  _ ← massert (negb (isEmpty r) && negb (isEmpty b));
  Ok (if isFixed r && isFixed b then of_value (Z.land (m_min r) (m_min b))
      else VR (minAND (m_min r) (m_max r) (m_min b) (m_max b)) (maxAND (m_min r) (m_max r) (m_min b) (m_max b))).
Definition binaryOr (r b : ValueRange) : result ValueRange :=
  _ ← massert (negb (isEmpty r) && negb (isEmpty b));
  Ok (if isFixed r && isFixed b then of_value (Z.lor (m_min r) (m_min b))
      else VR (minOR (m_min r) (m_max r) (m_min b) (m_max b)) (maxOR (m_min r) (m_max r) (m_min b) (m_max b))).

(** [while (!isPowerOfTwo(t)) t = withoutRightmostBit(t);] *)
Fixpoint leading_bit (fuel : nat) (t : Z) : result Z :=
  match fuel with
  | O => OutOfFuel
  | S fuel => if bits64.isPowerOfTwo t then Ok t else leading_bit fuel (bits64.withoutRightmostBit t)
  end.
Definition binaryXor (r b : ValueRange) : result ValueRange :=
  if isFixed r && isFixed b then Ok (of_value (Z.lxor (m_min r) (m_min b)))
  else t ← leading_bit 64 (Z.lor (m_max r) (m_max b)); Ok (VR 0 (u64 (u64 (Z.shiftl t 1) - 1))).

(** Shifts by 64 bits or more are undefined. *)
Definition binaryShiftLeft (r : ValueRange) (bits : Z) : result ValueRange :=
  _ ← massert (bits <? 64); Ok (VR (u64 (Z.shiftl (m_min r) bits)) (u64 (Z.shiftl (m_max r) bits))).
Definition binaryShiftRight (r : ValueRange) (bits : Z) : result ValueRange :=
  _ ← massert (bits <? 64); Ok (VR (Z.shiftr (m_min r) bits) (Z.shiftr (m_max r) bits)).
Definition concat (r b : ValueRange) (bits : Z) : result ValueRange := s ← binaryShiftLeft r bits; binaryOr s b.
Definition extract (r : ValueRange) (lowBit maxBit : Z) : result ValueRange :=
  s ← binaryShiftRight r lowBit; mx ← bits64.maxValueOfNBits (u32 (maxBit - lowBit)); binaryAnd s (of_value mx).

(** [add], [sub], [mul], [udiv], [sdiv], [urem] and [srem] have the same body. *)
Definition arith (r b : ValueRange) (width : Z) : result ValueRange := mx ← bits64.maxValueOfNBits width; Ok (VR 0 mx).

Definition mustEqual_value (r : ValueRange) (b : Z) : bool := (m_min r =? m_max r) && (m_min r =? b).
Definition mayEqual_value (r : ValueRange) (b : Z) : bool := (m_min r <=? b) && (b <=? m_max r).
Definition mustEqual (r b : ValueRange) : bool := isFixed r && isFixed b && (m_min r =? m_min b).
Definition mayEqual (r b : ValueRange) : bool := intersects r b.

Definition min (r : ValueRange) : result Z := _ ← massert (negb (isEmpty r)); Ok (m_min r).
Definition max (r : ValueRange) : result Z := _ ← massert (negb (isEmpty r)); Ok (m_max r).

(** The assertion of both shifts by [bits]. *)
Definition fits (r : ValueRange) (bits : Z) : result unit :=
  _ ← massert (bits <? 64); massert ((Z.shiftr (m_min r) bits =? 0) && (Z.shiftr (m_max r) bits =? 0)).
Definition minSigned (r : ValueRange) (bits : Z) : result Z :=
  _ ← fits r bits;
  let smallest := Z.shiftl 1 (bits - 1) in
  if smallest <=? m_max r then ints.as_int64 smallest bits else Ok (sgn 64 (m_min r)).
Definition maxSigned (r : ValueRange) (bits : Z) : result Z :=
  _ ← fits r bits;
  let smallest := Z.shiftl 1 (bits - 1) in
  if (m_min r <? smallest) && (smallest <=? m_max r) then Ok (smallest - 1) else ints.as_int64 (m_max r) bits.
End Range.

(** ** ExprRangeEvaluator

    The members of the template parameter that the evaluator uses. *)
Class RangeOps {AP : APIntOps} (T : Type) := {
  r_empty : T;
  r_constant : apint -> T;
  r_value : Z -> T;
  r_range : Z -> Z -> T;
  r_mustEqual_value : T -> Z -> bool;
  r_mustEqual : T -> T -> bool;
  r_mayEqual : T -> T -> bool;
  r_isFullRange : T -> Z -> result bool;
  r_set_union : T -> T -> T;
  r_and : T -> T -> result T;
  r_or : T -> T -> result T;
  r_xor : T -> T -> result T;
  r_concat : T -> T -> Z -> result T;
  r_arith : Kind.bin -> T -> T -> Z -> result T;
  r_min : T -> result Z;
  r_max : T -> result Z;
  r_minSigned : T -> Z -> result Z;
  r_maxSigned : T -> Z -> result Z;
}.

Section evaluator.
Context {AP : APIntOps} {T : Type} {R : RangeOps T}.
Variable getInitialReadRange : Array -> T -> result T.

(** [T(0, bits64::maxValueOfNBits(e->getWidth()))] *)
Definition full_range (w : Z) : result T := mx ← bits64.maxValueOfNBits w; Ok (r_range 0 mx).

(** A comparison of [T(1)] and [T(0)], or the range of a [Bool]. *)
Definition decided (one zero : result bool) (w : Z) : result T :=
  t ← one; if t : bool then Ok (r_value 1) else f ← zero; if f : bool then Ok (r_value 0) else full_range w.

Definition compared (k : Kind.bin) (left right : T) (bits w : Z) : result T :=
  match k with
  | Kind.Eq => decided (Ok (r_mustEqual left right)) (Ok (negb (r_mayEqual left right))) w
  | Kind.Ult =>
      decided (a ← r_max left; b ← r_min right; Ok (a <? b)) (a ← r_min left; b ← r_max right; Ok (b <=? a)) w
  | Kind.Ule =>
      decided (a ← r_max left; b ← r_min right; Ok (a <=? b)) (a ← r_min left; b ← r_max right; Ok (b <? a)) w
  | Kind.Slt =>
      decided (a ← r_maxSigned left bits; b ← r_minSigned right bits; Ok (a <? b))
        (a ← r_minSigned left bits; b ← r_maxSigned right bits; Ok (b <=? a)) w
  | Kind.Sle =>
      decided (a ← r_maxSigned left bits; b ← r_minSigned right bits; Ok (a <=? b))
        (a ← r_minSigned left bits; b ← r_maxSigned right bits; Ok (b <? a)) w
  | _ => AssertFail
  end.

(** [ExprRangeEvaluator::evaluate] and the loop of [evalRead]. *)
Fixpoint range_evaluate (e : expr) : result T :=
  match e with
  | ConstantExpr c => Ok (r_constant c)
  | ReadExpr root un i => index ← range_evaluate i; range_evalRead root un index r_empty
  | SelectExpr c t f =>
      cond ← range_evaluate c;
      if r_mustEqual_value cond 1 then range_evaluate t
      else if r_mustEqual_value cond 0 then range_evaluate f
      else a ← range_evaluate t; b ← range_evaluate f; Ok (r_set_union a b)
  | ConcatExpr l r =>
      a ← range_evaluate l; res ← r_concat (r_value 0) a 8;
      b ← range_evaluate r; r_concat res b 8
  | BinExpr ((Kind.Shl | Kind.LShr | Kind.AShr)) l r => full_range (getWidth e)
  | BinExpr ((Kind.Ne | Kind.Ugt | Kind.Uge | Kind.Sgt | Kind.Sge)) l r => AssertFail
  | BinExpr k l r =>
      a ← range_evaluate l; b ← range_evaluate r;
      match k with
      | Kind.And => r_and a b
      | Kind.Or => r_or a b
      | Kind.Xor => r_xor a b
      | Kind.Add | Kind.Sub | Kind.Mul | Kind.UDiv | Kind.SDiv | Kind.URem | Kind.SRem => r_arith k a b (getWidth l)
      | _ => compared k a b (getWidth l) (getWidth e)
      end
  | NotOptimizedExpr _ | ExtractExpr _ _ _ | ZExtExpr _ _ | SExtExpr _ _ | NotExpr _ => full_range (getWidth e)
  end
with range_evalRead (root : Array) (un : UpdateNode) (index res : T) : result T :=
  match un with
  | NullNode => i ← getInitialReadRange root index; Ok (r_set_union res i)
  | Node next uindex value =>
      ui ← range_evaluate uindex;
      if r_mustEqual ui index then v ← range_evaluate value; Ok (r_set_union res v)
      else if r_mayEqual ui index then
        v ← range_evaluate value;
        let res := r_set_union res v in
        full ← r_isFullRange res 8;
        if full : bool then Ok res else range_evalRead root next index res
      else range_evalRead root next index res
  end.
End evaluator.

#[export] Instance ValueRange_ops {AP : APIntOps} : RangeOps ValueRange := {|
  r_empty := Range.empty; r_constant := Range.of_constant; r_value := Range.of_value; r_range := VR;
  r_mustEqual_value := Range.mustEqual_value; r_mustEqual := Range.mustEqual; r_mayEqual := Range.mayEqual;
  r_isFullRange := Range.isFullRange; r_set_union := Range.set_union; r_and := Range.binaryAnd; r_or := Range.binaryOr;
  r_xor := Range.binaryXor; r_concat := Range.concat; r_arith := fun _ => Range.arith; r_min := Range.min; r_max := Range.max;
  r_minSigned := Range.minSigned; r_maxSigned := Range.maxSigned |}.

(** [CexRangeEvaluator::getInitialReadRange]; the ranges of the objects are not consulted. *)
Definition getInitialReadRange {AP : APIntOps} (array : Array) (index : ValueRange) : result ValueRange :=
  if isConstantArray array && Range.isFixed index && (m_min index <? arr_size array) then
    match constantValues array !! Z.to_nat (m_min index) with
    | Some c => v ← CE_getZExtValue c 8; Ok (Range.of_value v)
    | None => AssertFail
    end
  else Ok (VR 0 255).
Definition evalRangeForExpr {AP : APIntOps} : expr -> result ValueRange := range_evaluate getInitialReadRange.

(** ** What the evaluator relies on

    [range_ok w r]: a range of values of [w] bits, not empty; [in_range v r]: [v] is in it. *)
Class RangeSpec {AP : APIntOps} {T : Type} (R : RangeOps T) := {
  range_ok : Z -> T -> Prop;
  in_range : Z -> T -> Prop;
  constant_range c : apok c -> bw c <= 64 -> range_ok (bw c) (r_constant c) /\ in_range (raw c) (r_constant c);
  value_range w v : 0 < w <= 64 -> inw w v -> range_ok w (r_value v) /\ in_range v (r_value v);
  whole_range w : 0 < w <= 64 -> range_ok w (r_range 0 (2 ^ w - 1)) /\ forall v, inw w v -> in_range v (r_range 0 (2 ^ w - 1));
  mustEqual_value_range r n v : in_range v r -> r_mustEqual_value r n = true -> v = n;
  mustEqual_range r s u v : in_range u r -> in_range v s -> r_mustEqual r s = true -> u = v;
  mayEqual_range r s u v : in_range u r -> in_range v s -> r_mayEqual r s = false -> u <> v;
  isFullRange_range r : returns (r_isFullRange r 8) (fun b => b = true -> forall v, inw 8 v -> in_range v r);
  union_range w r s : range_ok w r -> range_ok w s ->
    range_ok w (r_set_union r s) /\ forall v, in_range v r \/ in_range v s -> in_range v (r_set_union r s);
  empty_range v : ~ in_range v r_empty;
  union_empty w s : 0 < w -> range_ok w s -> range_ok w (r_set_union r_empty s) /\ forall v, in_range v s -> in_range v (r_set_union r_empty s);
  and_range w r s : 0 < w <= 64 -> range_ok w r -> range_ok w s ->
    returns (r_and r s) (fun t => range_ok w t /\ forall u v, in_range u r -> in_range v s -> in_range (Z.land u v) t);
  or_range w r s : 0 < w <= 64 -> range_ok w r -> range_ok w s ->
    returns (r_or r s) (fun t => range_ok w t /\ forall u v, in_range u r -> in_range v s -> in_range (Z.lor u v) t);
  xor_range w r s : 0 < w <= 64 -> range_ok w r -> range_ok w s ->
    returns (r_xor r s) (fun t => range_ok w t /\ forall u v, in_range u r -> in_range v s -> in_range (Z.lxor u v) t);
  concat_first w r : 0 < w <= 64 -> range_ok w r ->
    returns (r_concat (r_value 0) r 8) (fun t => range_ok w t /\ forall v, in_range v r -> in_range v t);
  concat_range w r s : 0 < w -> w + 8 <= 64 -> range_ok w r -> range_ok 8 s ->
    returns (r_concat r s 8) (fun t => range_ok (w + 8) t /\ forall u v, in_range u r -> in_range v s -> in_range (sem_concat 8 u v) t);
  arith_range k w r s : 0 < w <= 64 -> returns (r_arith k r s w) (fun t => range_ok w t /\ forall v, inw w v -> in_range v t);
  min_range w r : range_ok w r -> returns (r_min r) (fun m => forall v, in_range v r -> m <= v);
  max_range w r : range_ok w r -> returns (r_max r) (fun m => forall v, in_range v r -> v <= m);
  minSigned_range w r : 0 < w < 64 -> range_ok w r -> returns (r_minSigned r w) (fun m => forall v, in_range v r -> m <= sgn w v);
  maxSigned_range w r : 0 < w < 64 -> range_ok w r -> returns (r_maxSigned r w) (fun m => forall v, in_range v r -> sgn w v <= m);
}.

(** ** ValueRange keeps the promise *)
Section laws.
Context {AP : APIntOps} {SP : APIntSpec AP}.
Definition vr_ok (w : Z) (r : ValueRange) : Prop := 0 <= m_min r <= m_max r /\ m_max r < 2 ^ w.
Definition vr_in (v : Z) (r : ValueRange) : Prop := m_min r <= v <= m_max r.

Lemma nonempty w r : vr_ok w r -> Range.isEmpty r = false.
Proof. intros [? _]. apply Z.ltb_ge. lia. Qed.

(** The loop of [binaryXor] ends at the leading bit of any word other than zero. *)
Lemma leading_bit_ok fuel k m : (0 < fuel)%nat -> 64 <= Z.of_nat fuel + k -> 0 <= k -> 0 <= m -> (2 * m + 1) * 2 ^ k < 2 ^ 64 ->
  Range.leading_bit fuel ((2 * m + 1) * 2 ^ k) = Ok (2 ^ Z.log2 ((2 * m + 1) * 2 ^ k)).
Proof.
  revert k m. induction fuel as [|fuel IH]; intros k m Hf Hk Hk0 Hm Hlt; [lia|]. cbn [Range.leading_bit]. pose proof (pow2_pos k Hk0) as Hp.
  pose proof (rightmost_lt 64 k m Hk0 Hm Hlt) as Hk64. unfold bits64.isPowerOfTwo, bits64.withoutRightmostBit, u64.
  rewrite clear_rightmost by lia. rewrite (proj2 (Z.eqb_neq ((2 * m + 1) * 2 ^ k) 0)) by nia. destruct (Z.eqb_spec (2 * m * 2 ^ k) 0) as [E|E].
  { assert (m = 0) as -> by nia. rewrite Z.mul_0_r, Z.add_0_l, Z.mul_1_l, Z.log2_pow2 by lia. done. }
  assert (Hm0 : 0 < m) by nia. destruct (odd_pow2_decomposition m) as (j & n & Hj & Hn & Em); [lia|].
  assert (E2 : 2 * m * 2 ^ k = (2 * n + 1) * 2 ^ (k + 1 + j)) by (rewrite !pow2_split, Em by lia; change (2 ^ 1) with 2; ring).
  assert (Hf1 : (0 < fuel)%nat).
  { destruct fuel; [|lia]. assert (k = 63) as -> by lia. lia. }
  rewrite E2, IH; [|done|lia|lia|lia|rewrite <- E2; lia]. rewrite <- E2. do 2 f_equal.
  replace ((2 * m + 1) * 2 ^ k) with (2 * m * 2 ^ k + 2 ^ k) by lia. rewrite !Z.log2_mul_pow2 by lia.
  symmetry. apply Z.log2_unique; [pose proof (Z.log2_nonneg (2 * m)); lia|].
  destruct (Z.log2_spec (2 * m) ltac:(lia)) as [L1 L2]. set (g := Z.log2 (2 * m)) in *. assert (0 < g) by (apply Z.log2_pos; lia).
  rewrite Z.add_comm, <- Z.add_succ_l, !pow2_split by lia.
  assert (2 * m + 1 < 2 ^ Z.succ g) by (rewrite Z.pow_succ_r in * by lia; lia). nia.
Qed.

Lemma leading_bit_log2 t : 0 < t < 2 ^ 64 -> Range.leading_bit 64 t = Ok (2 ^ Z.log2 t).
Proof. intros Ht. destruct (odd_pow2_decomposition t) as (k & m & Hk & Hm & ->); [lia|]. by apply leading_bit_ok; lia. Qed.

(** An interval between the least and the greatest value. *)
Lemma between_ok op w a b c d mn mx : 0 <= a <= b -> 0 <= c <= d -> b < 2 ^ w -> d < 2 ^ w ->
  (forall x y, inw w x -> inw w y -> inw w (op x y)) -> least op a b c d mn -> greatest op a b c d mx ->
  vr_ok w (VR mn mx) /\ forall u v, a <= u <= b -> c <= v <= d -> vr_in (op u v) (VR mn mx).
Proof.
  intros Ha Hc Hb Hd Hop [L (x & y & Hx & Hy & Ex)] [G (x' & y' & Hx' & Hy' & Ey)]. split; [|by split; auto].
  pose proof (Hop x y) as H1. pose proof (Hop x' y') as H2. pose proof (L x' y' Hx' Hy') as H3. unfold inw in *. split; simpl; lia.
Qed.
Lemma fixed_ok op w a c : inw w (op a c) -> vr_ok w (Range.of_value (op a c)) /\ forall u v, a <= u <= a -> c <= v <= c -> vr_in (op u v) (Range.of_value (op a c)).
Proof. intros [H1 H2]. split; [split; simpl; lia|]. intros u v Hu Hv. assert (u = a) as -> by lia. assert (v = c) as -> by lia. split; simpl; lia. Qed.

Lemma le64 w : 0 < w <= 64 -> 2 ^ w <= 2 ^ 64.
Proof. intros. apply pow2_le. lia. Qed.

Lemma binaryAnd_ok w r s : 0 < w <= 64 -> vr_ok w r -> vr_ok w s ->
  returns (Range.binaryAnd r s) (fun t => vr_ok w t /\ forall u v, vr_in u r -> vr_in v s -> vr_in (Z.land u v) t).
Proof.
  intros Hw Hr Hs. pose proof (le64 w Hw). unfold Range.binaryAnd. rewrite (nonempty w r), (nonempty w s) by done. apply returns_ok. destruct r as [a b], s as [c d], Hr as [Hr1 Hr2], Hs as [Hs1 Hs2]. unfold Range.isFixed. cbn [m_min m_max] in *.
  destruct ((a =? b) && (c =? d)) eqn:E; [bool_to_prop; subst; apply fixed_ok; apply land_inw; unfold inw; lia|].
  apply (between_ok Z.land w a b c d); try lia; [intros; apply land_inw; done || lia|apply minAND_least; lia|apply maxAND_greatest; lia].
Qed.
Lemma binaryOr_ok w r s : 0 < w <= 64 -> vr_ok w r -> vr_ok w s ->
  returns (Range.binaryOr r s) (fun t => vr_ok w t /\ forall u v, vr_in u r -> vr_in v s -> vr_in (Z.lor u v) t).
Proof.
  intros Hw Hr Hs. pose proof (le64 w Hw). unfold Range.binaryOr. rewrite (nonempty w r), (nonempty w s) by done. apply returns_ok. destruct r as [a b], s as [c d], Hr as [Hr1 Hr2], Hs as [Hs1 Hs2]. unfold Range.isFixed. cbn [m_min m_max] in *.
  destruct ((a =? b) && (c =? d)) eqn:E; [bool_to_prop; subst; apply fixed_ok; apply lor_inw; unfold inw; lia|].
  apply (between_ok Z.lor w a b c d); try lia; [intros; apply lor_inw; done || lia|apply minOR_least; lia|apply maxOR_greatest; lia].
Qed.

Lemma double_pred l : 0 <= l < 64 -> u64 (u64 (Z.shiftl (2 ^ l) 1) - 1) = 2 ^ (l + 1) - 1.
Proof.
  intros Hl. rewrite Z.shiftl_mul_pow2, <- pow2_split by lia. destruct (Z.eq_dec l 63) as [->|]; [done|].
  pose proof (pow2_le (l + 1) 63 ltac:(lia)). pose proof (pow2_pos (l + 1) ltac:(lia)). rewrite (u64_small (2 ^ (l + 1))), u64_small by lia. done.
Qed.

Lemma binaryXor_ok w r s : 0 < w <= 64 -> vr_ok w r -> vr_ok w s ->
  returns (Range.binaryXor r s) (fun t => vr_ok w t /\ forall u v, vr_in u r -> vr_in v s -> vr_in (Z.lxor u v) t).
Proof.
  intros Hw Hr Hs. pose proof (le64 w Hw). unfold Range.binaryXor, Range.isFixed. destruct r as [a b], s as [c d], Hr as [Hr1 Hr2], Hs as [Hs1 Hs2]. cbn [m_min m_max] in *.
  destruct ((a =? b) && (c =? d)) eqn:E; [apply returns_ok; bool_to_prop; subst; apply fixed_ok; apply lxor_inw; unfold inw; lia|].
  pose proof (lor_ge b d ltac:(lia) ltac:(lia)) as Gd. pose proof (lor_ge d b ltac:(lia) ltac:(lia)) as Gb. rewrite Z.lor_comm in Gb.
  assert (Ht : 0 < Z.lor b d < 2 ^ w).
  { pose proof (lor_inw w b d ltac:(lia) ltac:(unfold inw; lia) ltac:(unfold inw; lia)) as [H1 H2]. split; [|done].
    apply andb_false_iff in E as [E%Z.eqb_neq|E%Z.eqb_neq]; lia. }
  rewrite leading_bit_log2 by lia. cbn [mbind result_bind]. apply returns_ok. destruct (Z.log2_spec (Z.lor b d) ltac:(lia)) as [L1 L2].
  assert (Hl : 0 <= Z.log2 (Z.lor b d) < w) by (split; [apply Z.log2_nonneg|apply Z.log2_lt_pow2; lia]).
  set (l := Z.log2 (Z.lor b d)) in *. rewrite double_pred by lia. rewrite <- Z.add_1_r in L2. pose proof (pow2_le (l + 1) w ltac:(lia)). pose proof (pow2_pos (l + 1) ltac:(lia)).
  split; [split; cbn [m_min m_max]; lia|]. intros u v Hu Hv. unfold vr_in in *. cbn [m_min m_max] in *.
  destruct (lxor_inw (l + 1) u v ltac:(lia) ltac:(unfold inw; lia) ltac:(unfold inw; lia)). lia.
Qed.

(** Concatenation with a byte. *)
Lemma concat_lor a b : 0 <= a -> inw 8 b -> Z.lor (a * 2 ^ 8) b = sem_concat 8 a b.
Proof.
  intros Ha Hb. unfold sem_concat. rewrite <- Z.lxor_lor; [symmetry; apply Z.add_nocarry_lxor|];
    (apply Z.bits_inj'; intros n Hn; rewrite Z.land_spec, Z.bits_0, mul_pow2_testbit by lia;
     destruct (Z.leb_spec 8 n); [rewrite (inw_testbit 8 b) by (done || lia); by rewrite andb_false_r|done]).
Qed.

Lemma concat_ok w r s : 0 < w -> w + 8 <= 64 -> vr_ok w r -> vr_ok 8 s ->
  returns (Range.concat r s 8) (fun t => vr_ok (w + 8) t /\ forall u v, vr_in u r -> vr_in v s -> vr_in (sem_concat 8 u v) t).
Proof.
  intros Hw Hw8 [Hr1 Hr2] [Hs1 Hs2]. pose proof (pow2_le (w + 8) 64 ltac:(lia)) as H64. pose proof (pow2_pos w ltac:(lia)). rewrite pow2_split in H64 by lia. unfold Range.concat, Range.binaryShiftLeft.
  rewrite massert_true by done. cbn [mbind result_bind]. rewrite !Z.shiftl_mul_pow2, !u64_small by lia.
  eapply returns_weaken; [apply (binaryOr_ok (w + 8)); [lia|..]; (split; cbn [m_min m_max]); rewrite ?pow2_split by lia; nia|].
  intros t [Ht Hin]. split; [done|]. intros u v Hu Hv. unfold vr_in in Hu, Hv. rewrite <- concat_lor by (unfold inw; lia). apply Hin; [|done].
  split; cbn [m_min m_max]; nia.
Qed.

Lemma concat_first_ok w r : 0 < w <= 64 -> vr_ok w r ->
  returns (Range.concat (Range.of_value 0) r 8) (fun t => vr_ok w t /\ forall v, vr_in v r -> vr_in v t).
Proof.
  intros Hw Hr. unfold Range.concat, Range.binaryShiftLeft. rewrite massert_true by done. cbn [mbind result_bind].
  eapply returns_weaken; [apply (binaryOr_ok w); [done| |exact Hr]|].
  - split; cbn [m_min m_max Range.of_value]; rewrite Z.shiftl_0_l; [done|]. apply pow2_pos. lia.
  - intros t [Ht Hin]. split; [done|]. intros v Hv. rewrite <- (Z.lor_0_l v). by apply Hin.
Qed.

(** The bounds as signed values. *)
Lemma fits_ok w r : 0 < w < 64 -> vr_ok w r -> Range.fits r w = Ok tt.
Proof.
  intros Hw [H1 H2]. unfold Range.fits. rewrite (massert_true (w <? 64)) by (apply Z.ltb_lt; lia). cbn [mbind result_bind].
  apply massert_true. rewrite !Z.shiftr_div_pow2, !Z.div_small by lia. done.
Qed.

Lemma minSigned_ok w r : 0 < w < 64 -> vr_ok w r -> returns (Range.minSigned r w) (fun m => forall v, vr_in v r -> m <= sgn w v).
Proof.
  intros Hw Hr. unfold Range.minSigned. rewrite (fits_ok w) by done. cbn [mbind result_bind]. destruct Hr as [H1 H2].
  pose proof (pow2_half w ltac:(lia)) as Eh. pose proof (pow2_pos (w - 1) ltac:(lia)). rewrite Z.shiftl_mul_pow2, Z.mul_1_l by lia. destruct (Z.leb_spec (2 ^ (w - 1)) (m_max r)).
  - rewrite ints.as_int64_eq by (unfold inw; lia). apply returns_ok. intros v [Hv1 Hv2].
    pose proof (sgn_range w v ltac:(lia) ltac:(unfold inw; lia)). unfold sgn at 1. rewrite Z.ltb_irrefl. lia.
  - apply returns_ok. intros v [Hv1 Hv2]. unfold sgn. pose proof (pow2_le (w - 1) 63 ltac:(lia)).
    rewrite (proj2 (Z.ltb_lt (m_min r) (2 ^ (64 - 1)))), (proj2 (Z.ltb_lt v _)) by (change (64 - 1) with 63; lia). done.
Qed.
Lemma maxSigned_ok w r : 0 < w < 64 -> vr_ok w r -> returns (Range.maxSigned r w) (fun m => forall v, vr_in v r -> sgn w v <= m).
Proof.
  intros Hw Hr. unfold Range.maxSigned. rewrite (fits_ok w) by done. cbn [mbind result_bind]. destruct Hr as [H1 H2].
  pose proof (pow2_half w ltac:(lia)) as Eh. pose proof (pow2_pos (w - 1) ltac:(lia)). rewrite Z.shiftl_mul_pow2, Z.mul_1_l by lia.
  destruct (Z.ltb_spec (m_min r) (2 ^ (w - 1))), (Z.leb_spec (2 ^ (w - 1)) (m_max r)); cbn [andb].
  - apply returns_ok. intros v [Hv1 Hv2]. pose proof (sgn_range w v ltac:(lia) ltac:(unfold inw; lia)). lia.
  - rewrite ints.as_int64_eq by (unfold inw; lia). apply returns_ok. intros v [Hv1 Hv2]. unfold sgn. repeat case_match; bool_to_prop; lia.
  - rewrite ints.as_int64_eq by (unfold inw; lia). apply returns_ok. intros v [Hv1 Hv2]. unfold sgn. repeat case_match; bool_to_prop; lia.
  - lia.
Qed.

#[export, refine] Instance ValueRange_spec : RangeSpec ValueRange_ops := {| range_ok := vr_ok; in_range := vr_in |}.
Proof.
  all: cbn [r_constant r_value r_range r_mustEqual_value r_mustEqual r_mayEqual r_isFullRange r_set_union r_empty r_and r_or r_xor r_concat r_arith r_min r_max r_minSigned r_maxSigned ValueRange_ops].
  - intros c [Hc1 [Hc2 Hc3]] H64. unfold Range.of_constant, CE_getLimitedValue. pose proof (pow2_le (bw c) 64 ltac:(lia)).
    rewrite ap_getLimitedValue_spec, Z.min_l by (done || unfold inw; lia). split; split; cbn [m_min m_max]; lia.
  - intros w v Hw [? ?]. split; split; cbn [m_min m_max Range.of_value]; lia.
  - intros w Hw. pose proof (pow2_pos w). split; [split; cbn [m_min m_max]; lia|]. intros v [? ?]. split; cbn [m_min m_max]; lia.
  - intros r n v [? ?] E. unfold Range.mustEqual_value in E. bool_to_prop. lia.
  - intros r s u v [? ?] [? ?] E. unfold Range.mustEqual, Range.isFixed in E. bool_to_prop. lia.
  - intros r s u v [? ?] [? ?] E ->. unfold Range.mayEqual, Range.intersects, Range.isEmpty, Range.set_intersection in E. apply negb_false_iff in E. cbn [m_min m_max] in E. bool_to_prop. lia.
  - intros r. unfold Range.isFullRange. case_match; [|by apply returns_ok]. rewrite maxValueOfNBits_eq by lia. cbn [mbind result_bind]. apply returns_ok.
    intros E v [? ?]. bool_to_prop. split; lia.
  - intros w r s [? ?] [? ?]. split; [split; cbn [m_min m_max Range.set_union]; lia|]. intros v [[? ?]|[? ?]]; split; cbn [m_min m_max Range.set_union]; lia.
  - intros v [? ?]. cbn [m_min m_max Range.empty] in *. lia.
  - intros w s Hw [? ?]. pose proof (pow2_le 1 w ltac:(lia)). split; [split; cbn [m_min m_max Range.set_union Range.empty]; lia|]. intros v [? ?]; split; cbn [m_min m_max Range.set_union Range.empty]; lia.
  - apply binaryAnd_ok.
  - apply binaryOr_ok.
  - apply binaryXor_ok.
  - apply concat_first_ok.
  - apply concat_ok.
  - intros k w r s Hw. unfold Range.arith. rewrite maxValueOfNBits_eq by lia. cbn [mbind result_bind]. apply returns_ok. pose proof (pow2_pos w).
    split; [split; cbn [m_min m_max]; lia|]. intros v [? ?]. split; cbn [m_min m_max]; lia.
  - intros w r Hr. unfold Range.min. rewrite (nonempty w) by done. apply returns_ok. by intros v [? ?].
  - intros w r Hr. unfold Range.max. rewrite (nonempty w) by done. apply returns_ok. by intros v [? ?].
  - apply minSigned_ok.
  - apply maxSigned_ok.
Defined.
End laws.

(** ** Soundness of the evaluator

    The expressions it is sound for: of at most 64 bits, canonical comparisons, signed
    ones below 64 bits, reads of bytes, and concatenations whose right part is a byte
    (see [concat_unsound] for the others). *)
Fixpoint rangeable (e : expr) : bool :=
  (getWidth e <=? 64) &&
  match e with
  | ReadExpr root un i => (range root =? 8) && rangeable_node un && rangeable i
  | SelectExpr c t f => rangeable c && rangeable t && rangeable f
  | ConcatExpr l r => (getWidth r =? 8) && rangeable l && rangeable r
  | BinExpr (Kind.Shl | Kind.LShr | Kind.AShr) _ _ => true
  | BinExpr (Kind.Ne | Kind.Ugt | Kind.Uge | Kind.Sgt | Kind.Sge) _ _ => false
  | BinExpr (Kind.Slt | Kind.Sle) l r => (getWidth l <? 64) && rangeable l && rangeable r
  | BinExpr _ l r => rangeable l && rangeable r
  | _ => true
  end
with rangeable_node (un : UpdateNode) : bool :=
  match un with
  | NullNode => true
  | Node next i v => rangeable_node next && rangeable i && rangeable v
  end.

Section sound.
Context {AP : APIntOps} {SP : APIntSpec AP} {CFG : Config} {T : Type} {R : RangeOps T} {RS : RangeSpec R}.
Variable gIRR : Array -> T -> result T.
(** The range of an initial read has the bytes that may be read. *)
Hypothesis gIRR_ok : forall root index, wf_array root -> range root = 8 -> range_ok (domain root) index ->
  returns (gIRR root index) (fun r => range_ok 8 r /\ forall rho i v, in_range i index -> 0 <= i -> initial rho root i = Some v -> in_range v r).

(** [r] covers the values of [e]. *)
Definition covers (e : expr) (r : T) : Prop := range_ok (getWidth e) r /\ forall rho v, eval rho e = Some v -> in_range v r.

Lemma full_range_ok e : wf e -> getWidth e <= 64 -> returns (full_range (getWidth e)) (covers e).
Proof.
  intros He Hw. pose proof (wf_width e He). unfold full_range. rewrite maxValueOfNBits_eq by lia. cbn [mbind result_bind]. apply returns_ok.
  destruct (whole_range (getWidth e) ltac:(lia)) as [H1 H2]. split; [done|]. intros rho v Hv. by apply H2, (eval_inw rho).
Qed.

(** The three outcomes of a comparison. *)
Lemma decided_ok e one zero : wf e -> getWidth e = Bool ->
  returns one (fun b => b = true -> forall rho v, eval rho e = Some v -> v = 1) ->
  returns zero (fun b => b = true -> forall rho v, eval rho e = Some v -> v = 0) ->
  returns (decided one zero (getWidth e)) (covers e).
Proof.
  intros He Hw H1 H0. unfold decided. eapply returns_bind; [exact H1|]. intros [] Ht.
  { apply returns_ok. destruct (value_range Bool 1 ltac:(unfold Bool; lia) ltac:(by apply inw_1)) as [V1 V2]. rewrite <- Hw in V1. split; [done|]. intros rho v Hv. by rewrite (Ht eq_refl rho v Hv). }
  eapply returns_bind; [exact H0|]. intros [] Hf.
  { apply returns_ok. destruct (value_range Bool 0 ltac:(unfold Bool; lia) ltac:(by apply inw_0)) as [V1 V2]. rewrite <- Hw in V1. split; [done|]. intros rho v Hv. by rewrite (Hf eq_refl rho v Hv). }
  apply full_range_ok; [done|]. rewrite Hw. unfold Bool. lia.
Qed.

(** Two bounds and a test of them. *)
Lemma two_bounds (m1 m2 : result Z) (P1 P2 : Z -> Prop) (f : Z -> Z -> bool) (Q : Prop) :
  returns m1 P1 -> returns m2 P2 -> (forall a b, P1 a -> P2 b -> f a b = true -> Q) -> returns (a ← m1; b ← m2; Ok (f a b)) (fun b => b = true -> Q).
Proof. intros H1 H2 H. eapply returns_bind; [exact H1|]. intros a Ha. eapply returns_bind; [exact H2|]. intros b Hb. apply returns_ok. eauto. Qed.

Lemma comparison_ok k l r a b : wf (BinExpr k l r) -> covers l a -> covers r b -> getWidth l <= 64 ->
  match k with Kind.Eq | Kind.Ult | Kind.Ule => True | Kind.Slt | Kind.Sle => getWidth l < 64 | _ => False end ->
  returns (compared k a b (getWidth l) (getWidth (BinExpr k l r))) (covers (BinExpr k l r)).
Proof.
  intros He [Oa Ia] [Ob Ib] Hw Hk. pose proof He as (Hl & Hr & Elr). pose proof (wf_width l Hl). rewrite <- Elr in Ob.
  assert (Hev : forall rho v, eval rho (BinExpr k l r) = Some v -> exists x y, in_range x a /\ in_range y b /\ sem_bin k (getWidth l) x y = Some v).
  { intros rho v Hv. simpl in Hv. inv_option. eauto 8. }
  destruct k; try done; cbn [compared]; (apply decided_ok; [done|done|..]).
  1: { apply returns_ok. intros E rho v Hv. destruct (Hev rho v Hv) as (x & y & Hx & Hy & [= <-]). by rewrite (mustEqual_range a b x y Hx Hy E), Z.eqb_refl. }
  1: { apply returns_ok. intros E%negb_true_iff rho v Hv. destruct (Hev rho v Hv) as (x & y & Hx & Hy & [= <-]). by rewrite (proj2 (Z.eqb_neq _ _) (mayEqual_range a b x y Hx Hy E)). }
  all: eapply two_bounds;
      [first [by eapply max_range; eauto|by eapply min_range; eauto|apply maxSigned_range; [lia|done]|apply minSigned_range; [lia|done]]
      |first [by eapply max_range; eauto|by eapply min_range; eauto|apply maxSigned_range; [lia|done]|apply minSigned_range; [lia|done]]|].
  all: intros m n Hm Hn E rho v Hv; destruct (Hev rho v Hv) as (x & y & Hx & Hy & [= <-]); apply Hm in Hx; apply Hn in Hy.
  all: unfold bv_slt, bv_sle; match goal with |- Z.b2z ?b = _ => destruct b eqn:? end; bool_to_prop; simpl; lia.
Qed.

Lemma rangeable_width e : rangeable e = true -> getWidth e <= 64.
Proof. destruct e; simpl; intros H; apply andb_true_iff in H as [H _]; by apply Z.leb_le. Qed.

Ltac andbs := repeat match goal with H : _ && _ = true |- _ => apply andb_true_iff in H; destruct H end.

(** What an accumulated range of a read is: still empty, or a range of bytes. *)
Definition acc_ok (r : T) : Prop := r = r_empty \/ range_ok 8 r.
Lemma acc_union r s : acc_ok r -> range_ok 8 s ->
  range_ok 8 (r_set_union r s) /\ forall v, in_range v r \/ in_range v s -> in_range v (r_set_union r s).
Proof.
  intros [->|Hr] Hs; [|by apply union_range]. destruct (union_empty 8 s ltac:(lia) Hs) as [H1 H2]. split; [done|]. intros v [Hv|Hv]; [by destruct (empty_range v)|auto].
Qed.

(** An update list, from an accumulated range on. *)
Definition read_covers (root : Array) (un : UpdateNode) (index res r : T) : Prop :=
  range_ok 8 r /\ (forall v, in_range v res -> in_range v r) /\
  forall rho i v, in_range i index -> 0 <= i -> eval_node rho root un i = Some v -> in_range v r.

Lemma evaluate_arith k l r : wf (BinExpr k l r) -> getWidth l <= 64 -> Kind.isCmp k = false ->
  returns (range_evaluate gIRR l) (covers l) -> returns (range_evaluate gIRR r) (covers r) ->
  match k with Kind.And | Kind.Or | Kind.Xor => False | _ => True end ->
  returns (a ← range_evaluate gIRR l; b ← range_evaluate gIRR r; r_arith k a b (getWidth l)) (covers (BinExpr k l r)).
Proof.
  intros He Hw Hk Hl Hr _. pose proof He as (Wl & _ & _). pose proof (wf_width l Wl). eapply returns_bind; [exact Hl|]. intros a _. eapply returns_bind; [exact Hr|]. intros b _.
  eapply returns_weaken; [apply (arith_range k (getWidth l)); lia|]. intros t [Ot It]. assert (E : getWidth (BinExpr k l r) = getWidth l) by (simpl; by rewrite Hk).
  split; [by rewrite E|]. intros rho v Hv. apply It. rewrite <- E. by apply (eval_inw rho).
Qed.

Lemma range_sound_mut :
  (forall e, wf e -> rangeable e = true -> returns (range_evaluate gIRR e) (covers e)) /\
  (forall un root index res, wf_array root -> range root = 8 -> wf_node root un -> rangeable_node un = true -> range_ok (domain root) index -> acc_ok res ->
     returns (range_evalRead gIRR root un index res) (read_covers root un index res)).
Proof.
  apply expr_node_ind; cbn [range_evaluate range_evalRead rangeable rangeable_node].
  - intros c Hc Hw. andbs. bool_to_prop. apply returns_ok. destruct (constant_range c Hc) as [H1 H2]; [done|]. split; [done|]. by intros rho v [= <-].
  - intros e _ He Hw. andbs. bool_to_prop. by apply (full_range_ok (NotOptimizedExpr e)).
  - intros root un IHun i IHi (Ha & Hn & Wi & Ei) Hw. andbs. bool_to_prop. eapply returns_bind; [by apply IHi|]. intros index [Oi Ii]. rewrite Ei in Oi.
    eapply returns_weaken; [apply IHun; try done; by left|]. intros r (Or & _ & Ir). split; [simpl; congruence|]. intros rho v Hv. simpl in Hv. inv_option.
    eapply Ir; [by eapply Ii| |done]. apply (eval_inw rho i); done.
  - intros c IHc t IHt f IHf (Wc & Wt & Wf & Ec & Etf) Hw. andbs. bool_to_prop. eapply returns_bind; [by apply IHc|]. intros cond [_ Icond].
    assert (Hsel : forall rho v, eval rho (SelectExpr c t f) = Some v -> exists x, in_range x cond /\ (if x =? 0 then eval rho f else eval rho t) = Some v).
    { intros rho v Hv. simpl in Hv. inv_option. eexists. split; [by eapply Icond|]. unfold sem_select. by case_match. }
    case_match eqn:E1; [|case_match eqn:E0].
    + eapply returns_weaken; [by apply IHt|]. intros r [Or Ir]. split; [done|]. intros rho v Hv. destruct (Hsel rho v Hv) as (x & Hx & Hv'). rewrite (mustEqual_value_range cond 1 x Hx E1) in Hv'. cbn in Hv'. eauto.
    + eapply returns_weaken; [by apply IHf|]. intros r [Or Ir]. split; [simpl; by rewrite Etf|]. intros rho v Hv. destruct (Hsel rho v Hv) as (x & Hx & Hv'). rewrite (mustEqual_value_range cond 0 x Hx E0) in Hv'. cbn in Hv'. eauto.
    + eapply returns_bind; [by apply IHt|]. intros a [Oa Ia]. eapply returns_bind; [by apply IHf|]. intros b [Ob Ib]. apply returns_ok. rewrite <- Etf in Ob.
      destruct (union_range _ a b Oa Ob) as [O U]. split; [done|]. intros rho v Hv. destruct (Hsel rho v Hv) as (x & _ & Hv'). apply U. case_match; eauto.
  - intros l IHl r IHr He Hw. pose proof (getWidth_concat l r He) as Ew. rewrite Ew in Hw. apply andb_true_iff in Hw as [Hw%Z.leb_le Hk]. apply andb_true_iff in Hk as [[E8%Z.eqb_eq Rl]%andb_true_iff Rr]. destruct He as (Wl & Wr & _). pose proof (wf_width l Wl).
    eapply returns_bind; [by apply IHl|]. intros a [Oa Ia]. eapply returns_bind; [apply (concat_first (getWidth l)); [lia|done]|]. intros res [Or Ir].
    eapply returns_bind; [by apply IHr|]. intros b [Ob Ib]. rewrite E8 in Ob. eapply returns_weaken; [apply (concat_range (getWidth l)); done || lia|].
    intros t [Ot It]. split; [by rewrite Ew, E8|]. intros rho v Hv. simpl in Hv. inv_option. rewrite E8. eauto.
  - intros e _ o w He Hw. andbs. bool_to_prop. by apply (full_range_ok (ExtractExpr e o w)).
  - intros e _ w He Hw. andbs. bool_to_prop. by apply (full_range_ok (ZExtExpr e w)).
  - intros e _ w He Hw. andbs. bool_to_prop. by apply (full_range_ok (SExtExpr e w)).
  - intros e _ He Hw. andbs. bool_to_prop. by apply (full_range_ok (NotExpr e)).
  - intros k l IHl r IHr He Hw. apply andb_true_iff in Hw as [Hw%Z.leb_le Hk]. pose proof He as (Wl & Wr & Elr).
    destruct k; try discriminate Hk; try (by apply full_range_ok); andbs; bool_to_prop;
      try (by apply evaluate_arith; auto);
      (eapply returns_bind; [by apply IHl|]; intros a Ha; eapply returns_bind; [by apply IHr|]; intros b Hb);
      try (apply comparison_ok; [done|done|done|by apply rangeable_width|done]);
      destruct Ha as [Oa Ia], Hb as [Ob Ib]; rewrite <- Elr in Ob; pose proof (wf_width l Wl); simpl in Hw;
      (eapply returns_weaken; [first [apply (and_range (getWidth l))|apply (or_range (getWidth l))|apply (xor_range (getWidth l))]; done || lia|]);
      intros t [Ot It]; (split; [done|]); intros rho v Hv; simpl in Hv; inv_option; eauto.
  - intros root index res Ha Hr8 _ _ Hi Hacc. eapply returns_bind; [by apply gIRR_ok|]. intros r [Or Ir]. apply returns_ok. destruct (acc_union res r Hacc Or) as [O U].
    split; [done|]. split; [auto|]. intros rho i v Hi' Hi0 Hv. apply U. right. eapply Ir; eauto.
  - intros next IHn ui IHi val IHv root index res Ha Hr8 (Wn & Wui & Wval & Eui & Eval) Hw Hi Hacc. andbs.
    eapply returns_bind; [by apply IHi|]. intros u [Ou Iu]. rewrite Hr8 in Eval.
    case_match eqn:Em; [|case_match eqn:Ey].
    + eapply returns_bind; [by apply IHv|]. intros r [Or Ir]. apply returns_ok. rewrite Eval in Or. destruct (acc_union res r Hacc Or) as [O U].
      split; [done|]. split; [auto|]. intros rho i v Hi' Hi0 Hv. apply eval_node_inv in Hv as (j & Hj & Hv). assert (j = i) as -> by (eapply (mustEqual_range u index); eauto). rewrite Z.eqb_refl in Hv. eauto.
    + eapply returns_bind; [by apply IHv|]. intros r [Or Ir]. rewrite Eval in Or. destruct (acc_union res r Hacc Or) as [O U].
      eapply returns_bind; [apply isFullRange_range|]. intros [] Hfull.
      * apply returns_ok. split; [done|]. split; [auto|]. intros rho i v Hi' Hi0 Hv. apply Hfull; [done|]. rewrite <- Hr8. eapply (proj2 (eval_inw_mut rho) (Node next ui val) root i); [done| |done|done]. cbn [wf_node]. by rewrite Hr8.
      * eapply returns_weaken; [apply IHn; try done; by right|]. intros t (Ot & At & It). split; [done|]. split; [auto|].
        intros rho i v Hi' Hi0 Hv. apply eval_node_inv in Hv as (j & Hj & Hv). case_match; eauto.
    + eapply returns_weaken; [by apply IHn|]. intros t (Ot & At & It). split; [done|]. split; [done|].
      intros rho i v Hi' Hi0 Hv. apply eval_node_inv in Hv as (j & Hj & Hv). rewrite (proj2 (Z.eqb_neq j i)) in Hv; [eauto|]. by eapply (mayEqual_range u index); eauto.
Qed.
End sound.

(** ** CexRangeEvaluator *)
Section cex_ranges.
Context {AP : APIntOps} {SP : APIntSpec AP} {CFG : Config}.

Lemma byte_range_ok : vr_ok 8 (VR 0 255) /\ forall v, inw 8 v -> vr_in v (VR 0 255).
Proof. split; [by split; cbn|]. intros v [H1 H2]. split; cbn [m_min m_max]; lia. Qed.

Lemma getInitialReadRange_ok root index : wf_array root -> range root = 8 -> vr_ok (domain root) index ->
  returns (getInitialReadRange root index) (fun r => vr_ok 8 r /\ forall rho i v, vr_in i index -> 0 <= i -> initial rho root i = Some v -> vr_in v r).
Proof.
  intros Ha H8 [Hi1 Hi2]. unfold getInitialReadRange. destruct byte_range_ok as [B1 B2].
  assert (Hall : returns (Ok (VR 0 255)) (fun r => vr_ok 8 r /\ forall rho i v, vr_in i index -> 0 <= i -> initial rho root i = Some v -> vr_in v r)).
  { apply returns_ok. split; [done|]. intros rho i v _ Hi0 Hv. apply B2. rewrite <- H8. by eapply initial_inw. }
  destruct (_ && _) eqn:E; [|done]. apply andb_true_iff in E as [[Hc Hf%Z.eqb_eq]%andb_true_iff Hlt%Z.ltb_lt].
  unfold isConstantArray in Hc. apply negb_true_iff in Hc. destruct (constantValues root) as [|c0 cs] eqn:Ecs; [by unfold isSymbolicArray in Hc; rewrite Ecs in Hc|]. rewrite <- Ecs.
  pose proof Ha as (_ & _ & _ & _ & [E0|[Hlen Hall']]); [congruence|].
  destruct (lookup_lt_is_Some_2 (constantValues root) (Z.to_nat (m_min index))) as [c Hl]; [lia|]. rewrite Hl.
  pose proof (Forall_lookup_1 _ _ _ _ Hall' Hl) as [Hok Hbw]. unfold CE_getZExtValue. rewrite massert_true by (apply Z.leb_le; lia). cbn [mbind result_bind].
  rewrite ap_getZExtValue_spec by (done || lia). apply returns_ok. destruct Hok as [_ Hok]. rewrite Hbw, H8 in Hok. destruct Hok. split; [by split; cbn [m_min m_max Range.of_value]|].
  intros rho i v [Hv1 Hv2] Hi0. assert (i = m_min index) as -> by lia. unfold initial. rewrite Hc, (proj2 (Z.ltb_lt _ _) Hlt), Hl. cbn. intros [= <-]. split; cbn [m_min m_max Range.of_value]; lia.
Qed.

Lemma evalRange_ok e : wf e -> rangeable e = true ->
  returns (evalRangeForExpr e) (fun r => vr_ok (getWidth e) r /\ forall rho v, eval rho e = Some v -> vr_in v r).
Proof. intros He Hr. by apply (range_sound_mut (RS := ValueRange_spec) getInitialReadRange getInitialReadRange_ok). Qed.
End cex_ranges.

(** C8.  The bounds of Hacker's Delight are exact: for intervals of 64-bit words, [minOR],
    [maxOR], [minAND] and [maxAND] return the least and the greatest value of [x | y] and
    [x & y], not only bounds of them. *)
Theorem bit_bounds_exact a b c d : 0 <= a <= b -> b < 2 ^ 64 -> 0 <= c <= d -> d < 2 ^ 64 ->
  least Z.lor a b c d (minOR a b c d) /\ greatest Z.lor a b c d (maxOR a b c d) /\
  least Z.land a b c d (minAND a b c d) /\ greatest Z.land a b c d (maxAND a b c d).
Proof.
  intros Ha Hb Hc Hd. split_and!; [by apply minOR_least|by apply maxOR_greatest|by apply minAND_least|by apply maxAND_greatest].
Qed.

Lemma bit_bounds_exact_witness :
  least Z.lor 0x12 0x35 0x41 0x48 0x52 /\ greatest Z.lor 0x12 0x35 0x41 0x48 0x7D /\
  least Z.land 0x12 0x35 0x41 0x48 0 /\ greatest Z.land 0x12 0x35 0x41 0x48 8.
Proof.
  pose proof (bit_bounds_exact 0x12 0x35 0x41 0x48 ltac:(lia) ltac:(lia) ltac:(lia) ltac:(lia)) as H.
  assert (minOR 0x12 0x35 0x41 0x48 = 0x52) as E1 by (vm_compute; reflexivity). assert (maxOR 0x12 0x35 0x41 0x48 = 0x7D) as E2 by (vm_compute; reflexivity).
  assert (minAND 0x12 0x35 0x41 0x48 = 0) as E3 by (vm_compute; reflexivity). assert (maxAND 0x12 0x35 0x41 0x48 = 8) as E4 by (vm_compute; reflexivity).
  by rewrite E1, E2, E3, E4 in H.
Defined.

(** C7. Range evaluation is sound and does not fail on the expressions it is made for: for a
    well-typed expression that is [rangeable], [evalRangeForExpr] returns an interval that is
    not empty, lies within the width of the expression, and has the value of the
    expression under every assignment.  [rangeable]: every part is of at most 64 bits;
    arrays hold bytes; the right part of a concatenation is a byte (for a nested
    concatenation on the right the result is wrong: [RangeSamples.concat_unsound]); signed
    comparisons are of less than 64 bits (at 64 the code shifts by the width:
    [RangeSamples.signed64_undefined]); and comparisons are the canonical ones (no [Ne],
    [Ugt], [Uge], [Sgt], [Sge]). *)
Theorem range_evaluation_sound {AP : APIntOps} {SP : APIntSpec AP} {CFG : Config} e :
  wf e -> rangeable e = true ->
  exists r, evalRangeForExpr e = Ok r /\ Range.isEmpty r = false /\ 0 <= m_min r /\ m_max r < 2 ^ getWidth e /\
    forall rho v, eval rho e = Some v -> Range.contains r v = true.
Proof.
  intros He Hr. destruct (evalRange_ok e He Hr) as (r & E & Ok & In). exists r. split; [done|]. split; [by eapply nonempty|].
  destruct Ok as [O1 O2]. split_and!; [lia|done|]. intros rho v Hv. destruct (In rho v Hv) as [H1 H2].
  unfold Range.contains, Range.intersects, Range.isEmpty, Range.set_intersection, Range.of_value. cbn [m_min m_max]. apply negb_true_iff, Z.ltb_ge. lia.
Qed.

Module RangeSamples.
#[local] Existing Instance ZOps.
#[local] Existing Instance default_config.

(** Two masked bytes. *)
Definition sum : expr := ConcatExpr (BinExpr Kind.And (byte 0) (cst Int8 0x0F)) (BinExpr Kind.Or (byte 1) (cst Int8 0x10)).
Lemma range_evaluation_sound_witness : exists r, evalRangeForExpr sum = Ok r /\ r = VR 0x10 0xFFF /\
  forall rho v, eval rho sum = Some v -> Range.contains r v = true.
Proof.
  destruct (range_evaluation_sound sum ltac:(concrete) ltac:(concrete)) as (r & E & _ & _ & _ & H). exists r. split; [exact E|]. split; [|exact H].
  assert (E' : evalRangeForExpr sum = Ok (VR 0x10 0xFFF)) by (vm_compute; reflexivity). rewrite E in E'. by injection E'.
Defined.

(** The parts of a concatenation are taken to be bytes, but [ConcatExpr::create] nests
    them to the right: here the range of 0x010000 is [256, 256].  The condition of
    [chosen] always holds, which the constructors do not see. *)
Definition holds : expr := BinExpr Kind.Ult (BinExpr Kind.And (cst Int8 15) (byte 0)) (cst Int8 16).
Definition chosen (v : Z) : expr := SelectExpr holds (cst Int8 v) (cst Int8 9).
Definition nested : expr := ConcatExpr (chosen 1) (ConcatExpr (chosen 0) (chosen 0)).
Lemma chosen_value rho v : eval rho (chosen v) = Some v.
Proof.
  simpl. rewrite Z.land_comm. change 15 with (2 ^ 4 - 1). rewrite land_ones_wrap by lia. pose proof (wrap_inw 4 (wrap Int8 (rho buf 0)) ltac:(lia)) as [_ H].
  by rewrite (proj2 (Z.ltb_lt _ 16) H).
Qed.
Lemma concat_unsound rho : wf nested /\ evalRangeForExpr nested = Ok (VR 256 256) /\ eval rho nested = Some 65536.
Proof.
  split; [concrete|]. split; [by vm_compute|]. unfold nested. cbn [eval]. by rewrite !chosen_value.
Qed.

(** [T res] is the empty range [1, 0], and its union with a range has 1 in it: the range of
    [table[0]], which is 7, is [1, 7]. *)
Lemma union_imprecise : evalRangeForExpr (ReadExpr table NullNode (cst Int32 0)) = Ok (VR 1 7).
Proof. by vm_compute. Qed.

(** The shift of the assertion in [minSigned] is undefined for signed comparisons of 64 bits. *)
Lemma signed64_undefined l r : evalRangeForExpr (BinExpr Kind.Slt (cst Int64 l) (cst Int64 r)) = AssertFail.
Proof. reflexivity. Qed.
End RangeSamples.
