(* ===== verification/FastCex.v ===== *)
(** * FastCex: counterexamples from propagated ranges

    Models [CexObjectData], [CexData], the two evaluators, [propogateValues] and the class
    [FastCexSolver] of [klee/lib/Solver/FastCexSolver.cpp] (its spelling is kept).  A
    solution is guessed by pushing the wanted values down to the bytes that are read
    ("possible" contents), and validity is proved from the bytes that the constraints fix
    ("exact" contents).  The objects of a query are a store, [CexData], that the two
    propagations update in turn.  Reading outside a vector and shifting by too many bits
    are undefined: [AssertFail]. *)

From S2P Require Import Prelude APInt ExprData Samples Bits ExprCompare ExprCreate ExprCreateSound ExprStructSound ExprVisitor ExprEvaluator UnionFind ExprUtil ExprWeight Rewriters Constraints ConstraintsSound Solver SolverChain ValueRange.
Local Open Scope Z_scope.

(** ** CexObjectData *)
Record CexObjectData := {
  possibleContents : list ValueRange;
  exactContents : list ValueRange;
}.

Definition CexObjectData_create (size : Z) : CexObjectData := {|
  possibleContents := replicate (Z.to_nat size) (VR 0 255);
  exactContents := replicate (Z.to_nat size) (VR 0 255) |}.

(** An element of a vector, which must be there. *)
Definition at_index {A} (l : list A) (index : Z) : result A :=
  match l !! Z.to_nat index with Some a => Ok a | None => AssertFail end.

Definition getPossibleValues (o : CexObjectData) (index : Z) : result ValueRange := at_index (possibleContents o) index.
Definition setPossibleValues (o : CexObjectData) (index : Z) (values : ValueRange) : CexObjectData :=
  {| possibleContents := <[Z.to_nat index := values]> (possibleContents o); exactContents := exactContents o |}.
(** The value is passed as an [unsigned char]. *)
Definition setPossibleValue (o : CexObjectData) (index value : Z) : CexObjectData :=
  setPossibleValues o index (Range.of_value (wrap 8 value)).
Definition getExactValues (o : CexObjectData) (index : Z) : result ValueRange := at_index (exactContents o) index.
Definition setExactValues (o : CexObjectData) (index : Z) (values : ValueRange) : CexObjectData :=
  {| possibleContents := possibleContents o; exactContents := <[Z.to_nat index := values]> (exactContents o) |}.
Definition getPossibleValue (o : CexObjectData) (index : Z) : result Z :=
  cvd ← getPossibleValues o index;
  mn ← Range.min cvd; mx ← Range.max cvd; Ok (wrap 8 (u64 (mn + u64 (mx - mn) / 2))).

(** ** CexData

    [objects] is a [std::map] from arrays to their data, kept as a list of its entries. *)
Definition CexData : Type := list (Array * CexObjectData).

Fixpoint find_object (d : CexData) (a : Array) : option CexObjectData :=
  match d with
  | [] => None
  | (k, o) :: d => if decide (k = a) then Some o else find_object d a
  end.
(** Assigning through the reference to an entry. *)
Fixpoint set_object (d : CexData) (a : Array) (o : CexObjectData) : CexData :=
  match d with
  | [] => [(a, o)]
  | (k, o') :: d => if decide (k = a) then (k, o) :: d else (k, o') :: set_object d a o
  end.
(** [getObjectData]: the entry, made when there is none. *)
Definition getObjectData (d : CexData) (a : Array) : CexObjectData * CexData :=
  match find_object d a with
  | Some o => (o, d)
  | None => let o := CexObjectData_create (arr_size a) in (o, set_object d a o)
  end.

Section propagation.
Context {AP : APIntOps} {CFG : Config}.

(** A read at a constant index. *)
Definition possible_read (root : Array) (index : expr) (range : ValueRange) (d : CexData) : result CexData :=
  let '(cod, d) := getObjectData d root in
  match index with
  | ConstantExpr CE =>
      index ← CE_getZExtValue CE 64;
      if index <? arr_size root then
        if Range.isFixed range then Ok (set_object d root (setPossibleValue cod index (m_min range)))
        else
          cvd ← getPossibleValues cod index;
          let tmp := Range.set_intersection cvd range in
          Ok (if Range.isEmpty tmp then d else set_object d root (setPossibleValues cod index tmp))
      else Ok d
  | _ => Ok d
  end.

(** The range of the operand of a sign extension; [1 << (inBits-1)] is an [int]. *)
Definition sext_input (range : ValueRange) (inBits outBits : Z) : result ValueRange :=
  _ ← massert (inBits - 1 <? 32);
  let low := u64 (sgn 32 (u32 (Z.shiftl 1 (inBits - 1)))) in
  mo ← bits64.maxValueOfNBits outBits; mi ← bits64.maxValueOfNBits (inBits - 1);
  let output := Range.set_difference range (VR low (u64 (mo - mi - 1))) in
  m ← bits64.maxValueOfNBits inBits;
  Range.binaryAnd output (Range.of_value m).

(** [C_0 + X \in [MIN, MAX)] *)
Definition add_input (CE : apint) (range : ValueRange) : result ValueRange :=
  let W := bw CE in
  mn ← Range.min range; lo ← CE_getZExtValue (ap_sub (ConstantExpr_alloc mn W) CE) 64;
  mx ← Range.max range; hi ← CE_getZExtValue (ap_sub (ConstantExpr_alloc mx W) CE) 64;
  Ok (VR lo hi).

(** [if (cond) m(d)] *)
Definition when (b : bool) (m : CexData -> result CexData) (d : CexData) : result CexData := if b then m d else Ok d.

(** [propogatePossibleValues]; [propogatePossibleValue e v] is its instance at [(v, v)]. *)
Fixpoint propogatePossibleValues (e : expr) (range : ValueRange) (d : CexData) : result CexData :=
  match e with
  | ConstantExpr _ | NotOptimizedExpr _ | ExtractExpr _ _ _ => Ok d
  | ReadExpr root un index => possible_read root index range d
  | SelectExpr c t f =>
      cond ← evalRangeForExpr c;
      if Range.isFixed cond then
        if negb (m_min cond =? 0) then propogatePossibleValues t range d else propogatePossibleValues f range d
      else d ← propogatePossibleValues t range d; propogatePossibleValues f range d
  | ConcatExpr l r =>
      let LSBWidth := getWidth r in
      let MSBWidth := getWidth r in
      hi ← Range.extract range LSBWidth (u32 (LSBWidth + MSBWidth));
      d ← propogatePossibleValues l hi d;
      lo ← Range.extract range 0 LSBWidth;
      propogatePossibleValues r lo d
  | ZExtExpr src w =>
      mx ← bits64.maxValueOfNBits (getWidth src);
      propogatePossibleValues src (Range.set_intersection range (VR 0 mx)) d
  | SExtExpr src w =>
      input ← sext_input range (getWidth src) w;
      propogatePossibleValues src input d
  | NotExpr e' =>
      if (getWidth e =? Bool) && Range.isFixed range then
        propogatePossibleValues e' (Range.of_value (Z.b2z (m_min range =? 0))) d
      else Ok d
  | BinExpr Kind.Add l r =>
      match l with
      | ConstantExpr CE =>
          if (bw CE <=? 64) && negb (Range.isEmpty range) then
            nrange ← add_input CE range;
            when (negb (Range.isEmpty nrange)) (propogatePossibleValues r nrange) d
          else Ok d
      | _ => Ok d
      end
  | BinExpr Kind.And l r =>
      if (getWidth e =? Bool) && Range.isFixed range then
        left ← evalRangeForExpr l; right ← evalRangeForExpr r;
        if m_min range =? 0 then
          if Range.mustEqual_value left 0 || Range.mustEqual_value right 0 then Ok d
          else
            d ← propogatePossibleValues l (Range.of_value 0) d;
            left ← evalRangeForExpr l;
            when (negb (Range.mustEqual_value left 1)) (propogatePossibleValues r (Range.of_value 0)) d
        else
          d ← when (negb (Range.mustEqual_value left 1)) (propogatePossibleValues l (Range.of_value 1)) d;
          when (negb (Range.mustEqual_value right 1)) (propogatePossibleValues r (Range.of_value 1)) d
      else Ok d
  | BinExpr Kind.Or l r =>
      if (getWidth e =? Bool) && Range.isFixed range then
        left ← evalRangeForExpr l; right ← evalRangeForExpr r;
        if negb (m_min range =? 0) then
          if Range.mustEqual_value left 1 || Range.mustEqual_value right 1 then Ok d
          else
            d ← propogatePossibleValues l (Range.of_value 1) d;
            left ← evalRangeForExpr l;
            when (negb (Range.mustEqual_value left 1)) (propogatePossibleValues r (Range.of_value 1)) d
        else
          d ← when (negb (Range.mustEqual_value left 0)) (propogatePossibleValues l (Range.of_value 0)) d;
          when (negb (Range.mustEqual_value right 0)) (propogatePossibleValues r (Range.of_value 0)) d
      else Ok d
  | BinExpr Kind.Eq l r =>
      match l with
      | ConstantExpr CE =>
          if Range.isFixed range && (bw CE <=? 64) then
            value ← CE_getZExtValue CE 64;
            if negb (m_min range =? 0) then propogatePossibleValues r (Range.of_value value) d
            else
              range ← (if value =? 0 then mx ← bits64.maxValueOfNBits (bw CE); Ok (VR 1 mx) else Ok (VR 0 (value - 1)));
              propogatePossibleValues r range d
          else Ok d
      | _ => Ok d
      end
  | BinExpr Kind.Ult l r =>
      if Range.isFixed range then
        left ← evalRangeForExpr l; right ← evalRangeForExpr r;
        maxValue ← bits64.maxValueOfNBits (getWidth r);
        if Range.isFixed left then
          if negb (m_min range =? 0) then propogatePossibleValues r (VR (u64 (m_min left + 1)) maxValue) d
          else propogatePossibleValues r (VR 0 (m_min left)) d
        else if Range.isFixed right then
          if negb (m_min range =? 0) then propogatePossibleValues l (VR 0 (u64 (m_min right - 1))) d
          else propogatePossibleValues l (VR (m_min right) maxValue) d
        else Ok d
      else Ok d
  | BinExpr Kind.Ule l r =>
      if Range.isFixed range then
        left ← evalRangeForExpr l; right ← evalRangeForExpr r;
        maxValue ← bits64.maxValueOfNBits (getWidth r);
        if Range.isFixed left then
          if negb (m_min range =? 0) then propogatePossibleValues r (VR (m_min left) maxValue) d
          else propogatePossibleValues r (VR 0 (u64 (m_min left - 1))) d
        else if Range.isFixed right then
          if negb (m_min range =? 0) then propogatePossibleValues l (VR 0 (m_min right)) d
          else propogatePossibleValues l (VR (u64 (m_min right + 1)) maxValue) d
        else Ok d
      else Ok d
  | BinExpr (Kind.Ne | Kind.Ugt | Kind.Uge | Kind.Sgt | Kind.Sge) _ _ => AssertFail
  | BinExpr _ _ _ => Ok d
  end.

(** The part of a known range that is in a new one, which must not be empty. *)
Definition narrowed (cvd range : ValueRange) : result ValueRange :=
  rmin ← Range.min range; cmin ← Range.min cvd;
  cvd ← (if cmin <? rmin then cmax ← Range.max cvd; _ ← massert (rmin <=? cmax); Ok (VR rmin cmax) else Ok cvd);
  rmax ← Range.max range; cmax ← Range.max cvd;
  if rmax <? cmax then cmin ← Range.min cvd; _ ← massert (cmin <=? rmax); Ok (VR cmin rmax) else Ok cvd.

(** The initial byte of a read at a fixed index. *)
Definition exact_initial (root : Array) (index range : ValueRange) (d : CexData) : result CexData :=
  if negb (Range.isFixed index) then Ok d
  else if isConstantArray root then _ ← at_index (constantValues root) (m_min index); Ok d
  else
    let '(cod, d) := getObjectData d root in
    cvd ← getExactValues cod (m_min index);
    cvd ← narrowed cvd range;
    Ok (set_object d root (setExactValues cod (m_min index) cvd)).

(** [propogateExactValues] and its loop over the updates of a read; a constant is not
    propagated into. *)
Fixpoint propogateExactValues (e : expr) (range : ValueRange) (d : CexData) : result CexData :=
  match e with
  | ReadExpr root un i =>
      let '(_, d) := getObjectData d root in
      index ← evalRangeForExpr i;
      exact_updates root i index un range d
  | BinExpr Kind.Eq l r =>
      match l with
      | ConstantExpr CE =>
          if Range.isFixed range && (bw CE <=? 64) then
            value ← CE_getZExtValue CE 64;
            if negb (m_min range =? 0) then propogateExactValues r (Range.of_value value) d
            else if getWidth r =? Bool then propogateExactValues r (Range.of_value (Z.b2z (value =? 0))) d
            else Ok d
          else Ok d
      | _ => Ok d
      end
  | NotExpr e' =>
      if (getWidth e =? Bool) && Range.isFixed range then propogateExactValues e' (Range.of_value (Z.b2z (m_min range =? 0))) d
      else Ok d
  | BinExpr (Kind.Ne | Kind.Ugt | Kind.Uge | Kind.Sgt | Kind.Sge) _ _ => AssertFail
  | _ => Ok d
  end
with exact_updates (root : Array) (i : expr) (index : ValueRange) (un : UpdateNode) (range : ValueRange) (d : CexData) : result CexData :=
  match un with
  | NullNode => exact_initial root index range d
  | Node next uindex value =>
      ui ← evalRangeForExpr uindex;
      if negb (Range.mayEqual ui index) then exact_updates root i index next range d
      else if Range.mustEqual ui index || expr_eqb i uindex then propogateExactValues value range d
      else Ok d
  end.

(** [CexPossibleEvaluator::getInitialValue] and [CexExactEvaluator::getInitialValue] *)
Definition symbolic_read (array : Array) (index : Z) : result expr :=
  ReadExpr_create {| ul_root := array; ul_head := NullNode |} (ConstantExpr (ConstantExpr_alloc index (domain array))).
Definition possible_initial_value (d : CexData) (array : Array) (index : Z) : result expr :=
  if arr_size array <=? index then symbolic_read array index
  else
    v ← match find_object d array with None => Ok 127 | Some o => getPossibleValue o index end;
    Ok (ConstantExpr (ConstantExpr_alloc v (range array))).
Definition exact_initial_value (d : CexData) (array : Array) (index : Z) : result expr :=
  if arr_size array <=? index then symbolic_read array index
  else
    match find_object d array with
    | None => symbolic_read array index
    | Some o =>
        cvd ← getExactValues o index;
        if Range.isFixed cvd then Ok (ConstantExpr (ConstantExpr_alloc (m_min cvd) (range array))) else symbolic_read array index
    end.
Definition evaluatePossible (d : CexData) (e : expr) : result expr :=
  fst <$> visit (ExprEvaluator (possible_initial_value d)) (vsize e) e ([], tt).
Definition evaluateExact (d : CexData) (e : expr) : result expr :=
  fst <$> visit (ExprEvaluator (exact_initial_value d)) (vsize e) e ([], tt).

(** ** propogateValues *)
Definition propogate (v : Z) (e : expr) (d : CexData) : result CexData :=
  d ← propogatePossibleValues e (Range.of_value v) d; propogateExactValues e (Range.of_value v) d.
Fixpoint propogate_all (cs : list expr) (d : CexData) : result CexData :=
  match cs with [] => Ok d | c :: cs => d ← propogate 1 c d; propogate_all cs d end.

(** The second loop over the constraints, from what is known of the assignment on. *)
Fixpoint check_constraints (cs : list expr) (hasSatisfyingAssignment : bool) (d : CexData) : result (option bool) :=
  match cs with
  | [] => Ok (if hasSatisfyingAssignment then Some false else None)
  | c :: cs =>
      has ← (if hasSatisfyingAssignment then p ← evaluatePossible d c; Expr_isTrue p else Ok false);
      x ← evaluateExact d c;
      f ← Expr_isFalse x;
      if f : bool then Ok (Some true) else check_constraints cs has d
  end.

(** The answer is [isValid], when there is one. *)
Definition propogateValues (query : Query) (checkExpr : bool) : result (option bool * CexData) :=
  d ← propogate_all (q_constraints query) [];
  d ← when checkExpr (propogate 0 (q_expr query)) d;
  r ← (if checkExpr then
         p ← evaluatePossible d (q_expr query);
         has ← Expr_isFalse p;
         x ← evaluateExact d (q_expr query);
         t ← Expr_isTrue x;
         if t : bool then Ok (Some true) else check_constraints (q_constraints query) has d
       else check_constraints (q_constraints query) true d);
  Ok (r, d).

(** ** FastCexSolver *)
Definition fast_computeTruth (query : Query) : result PartialValidity :=
  '(r, _) ← propogateValues query true;
  Ok (match r with None => PVNone | Some true => MustBeTrue | Some false => MayBeFalse end).

Definition fast_computeValue (query : Query) : result (option expr) :=
  '(r, cd) ← propogateValues query false;
  match r with
  | None | Some true => Ok None
  | Some false =>
      value ← evaluatePossible cd (q_expr query);
      Ok (if isConst value then Some value else None)
  end.

(** The bytes of an object from index [i] on, or nothing if one is not a constant. *)
Fixpoint object_values (cd : CexData) (array : Array) (n : nat) (i : Z) : result (option (list Z)) :=
  match n with
  | O => Ok (Some [])
  | S n =>
      index ← ConstantExpr_create i (domain array);
      read ← ReadExpr_create {| ul_root := array; ul_head := NullNode |} (ConstantExpr index);
      value ← evaluatePossible cd read;
      match value with
      | ConstantExpr CE =>
          v ← CE_getZExtValue CE 8;
          rest ← object_values cd array n (i + 1);
          Ok (cons (wrap 8 v) <$> (rest : option (list Z)))
      | _ => Ok None
      end
  end.
Fixpoint objects_values (cd : CexData) (objects : list Array) : result (option (list (list Z))) :=
  match objects with
  | [] => Ok (Some [])
  | array :: objects =>
      data ← object_values cd array (Z.to_nat (arr_size array)) 0;
      match data with
      | None => Ok None
      | Some data => rest ← objects_values cd objects; Ok (cons data <$> (rest : option (list (list Z))))
      end
  end.
Definition fast_computeInitialValues (query : Query) (objects : list Array) : result (option (list (list Z) * bool)) :=
  '(r, cd) ← propogateValues query true;
  match r with
  | None => Ok None
  | Some true => Ok (Some ([], false))
  | Some false => values ← objects_values cd objects; Ok ((fun v => (v, true)) <$> (values : option (list (list Z))))
  end.

#[export] Instance FastCexSolver : IncompleteSolver := {|
  ic_computeValidity := incomplete_computeValidity fast_computeTruth;
  ic_computeTruth := fast_computeTruth;
  ic_computeValue := fast_computeValue;
  ic_computeInitialValues := fast_computeInitialValues;
|}.
(** [createFastCexSolver] *)
Definition createFastCexSolver {St : Type} (s : SolverImpl St) : SolverImpl St := Staged.impl FastCexSolver s.
End propagation.

(** ** The store

    Every entry has a range of bytes, not empty, for each index of its array. *)
Definition contents_ok (a : Array) (l : list ValueRange) : Prop := length l = Z.to_nat (arr_size a) /\ Forall (vr_ok 8) l.
Definition data_ok (d : CexData) : Prop :=
  forall a o, find_object d a = Some o -> contents_ok a (possibleContents o) /\ contents_ok a (exactContents o).

(** The exact range of a byte; all bytes when nothing is known. *)
Definition exact_of (d : CexData) (a : Array) (i : Z) : ValueRange :=
  match find_object d a with Some o => default (VR 0 255) (exactContents o !! Z.to_nat i) | None => VR 0 255 end.

(** What the propagation of possible values keeps. *)
Definition keeps (d d' : CexData) : Prop := data_ok d' /\ forall a i, exact_of d' a i = exact_of d a i.

Lemma find_after_set d a o b : find_object (set_object d a o) b = if decide (a = b) then Some o else find_object d b.
Proof.
  induction d as [|[k o'] d IH]; simpl; [done|]. destruct (decide (k = a)) as [->|Hk]; simpl; [by case_decide|].
  rewrite IH. destruct (decide (k = b)) as [->|]; [|done]. by rewrite decide_False by congruence.
Qed.

Lemma created_ok a : contents_ok a (replicate (Z.to_nat (arr_size a)) (VR 0 255)).
Proof. split; [apply length_replicate|]. apply Forall_replicate, byte_range_ok. Qed.

Lemma set_data_ok d a o : data_ok d -> contents_ok a (possibleContents o) -> contents_ok a (exactContents o) -> data_ok (set_object d a o).
Proof. intros Hd Hp He b o' Hb. rewrite find_after_set in Hb. case_decide; [naive_solver|by apply Hd]. Qed.

Lemma getObjectData_ok d a o d' : data_ok d -> getObjectData d a = (o, d') ->
  keeps d d' /\ find_object d' a = Some o /\ contents_ok a (possibleContents o) /\ contents_ok a (exactContents o).
Proof.
  intros Hd. unfold getObjectData. destruct (find_object d a) as [o'|] eqn:E; intros [= <- <-].
  - destruct (Hd a o' E). by split_and!.
  - pose proof (created_ok a). split; [split; [by apply set_data_ok|]|by rewrite find_after_set, decide_True].
    intros b i. unfold exact_of. rewrite find_after_set. case_decide; [|done]. subst b. rewrite E. simpl.
    destruct (replicate _ _ !! _) eqn:El; [|done]. by apply lookup_replicate in El as [-> _].
Qed.

Lemma insert_contents a l i r : contents_ok a l -> vr_ok 8 r -> contents_ok a (<[i := r]> l).
Proof. intros [H1 H2] Hr. split; [by rewrite length_insert|by apply Forall_insert]. Qed.

Lemma contents_at a l i : contents_ok a l -> 0 <= i < arr_size a -> exists r, l !! Z.to_nat i = Some r /\ at_index l i = Ok r /\ vr_ok 8 r.
Proof.
  intros [Hl Hf] Hi. destruct (lookup_lt_is_Some_2 l (Z.to_nat i)) as [r Hr]; [lia|]. exists r. unfold at_index. rewrite Hr. split_and!; try done. by eapply Forall_lookup_1.
Qed.

Lemma keeps_refl d : data_ok d -> keeps d d.
Proof. by split. Qed.
Lemma keeps_trans d1 d2 d3 : keeps d1 d2 -> keeps d2 d3 -> keeps d1 d3.
Proof. intros [_ H1] [H2 H3]. split; [done|]. intros a i. by rewrite H3. Qed.

(** Changing the possible contents of an object. *)
Lemma set_possible_keeps d a o i r : data_ok d -> find_object d a = Some o -> vr_ok 8 r -> keeps d (set_object d a (setPossibleValues o i r)).
Proof.
  intros Hd Ho Hr. destruct (Hd a o Ho) as [Hp He]. split.
  - apply set_data_ok; [done|by apply insert_contents|done].
  - intros b j. unfold exact_of. rewrite find_after_set. case_decide; [|done]. subst b. by rewrite Ho.
Qed.

(** ** Possible values: propagation does not fail

    [propagates empty e]: ranges can be pushed into [e], empty ones too if [empty] is true.
    [extract] and the sign extension fail on empty ranges, which comparisons and zero
    extensions can give. *)
Fixpoint propagates (empty : bool) (e : expr) : bool :=
  match e with
  | ConstantExpr _ | NotOptimizedExpr _ | ExtractExpr _ _ _ | ReadExpr _ _ _ => true
  | SelectExpr c t f => rangeable c && propagates empty t && propagates empty f
  | ConcatExpr l r => negb empty && (getWidth r <? 64) && propagates false l && propagates false r
  | ZExtExpr src _ => (getWidth src <=? 64) && propagates true src
  | SExtExpr _ _ => false
  | NotExpr e => propagates false e
  | BinExpr (Kind.Add | Kind.Eq) l r => propagates false r
  | BinExpr (Kind.And | Kind.Or) l r => negb (getWidth l =? Bool) || rangeable l && rangeable r && propagates false l && propagates false r
  | BinExpr (Kind.Ult | Kind.Ule) l r => rangeable l && rangeable r && propagates true l && propagates true r
  | BinExpr (Kind.Ne | Kind.Ugt | Kind.Uge | Kind.Sgt | Kind.Sge) _ _ => false
  | BinExpr _ _ _ => true
  end.

Definition pushable (empty : bool) (r : ValueRange) : Prop := inw 64 (m_min r) /\ inw 64 (m_max r) /\ (empty = false -> m_min r <= m_max r).

Lemma vr_ok_pushable w b r : 0 < w <= 64 -> vr_ok w r -> pushable b r.
Proof. intros Hw [H1 H2]. pose proof (pow2_le w 64 ltac:(lia)). unfold pushable, inw. lia. Qed.
Lemma value_pushable b v : inw 64 v -> pushable b (Range.of_value v).
Proof. intros. unfold pushable. cbn [m_min m_max Range.of_value]. by split_and!. Qed.

Section possible.
Context {AP : APIntOps} {SP : APIntSpec AP} {CFG : Config}.

Lemma possible_read_keeps root index r d : wf_array root -> wf index -> getWidth index = domain root -> data_ok d ->
  returns (possible_read root index r d) (keeps d).
Proof.
  intros Ha Hi Ei Hd. unfold possible_read. destruct (getObjectData d root) as [cod d'] eqn:E.
  destruct (getObjectData_ok d root cod d' Hd E) as (Hk & Hf & Hp & _). pose proof Hk as [Hd' _].
  destruct index as [CE| | | | | | | | |]; try (by apply returns_ok). simpl in Hi, Ei. pose proof Hi as [_ [Hr0 _]].
  rewrite (zext_index CE) by (destruct Ha as [? _]; done || lia). cbn [mbind result_bind]. destruct (Z.ltb_spec (raw CE) (arr_size root)) as [Hlt|]; [|by apply returns_ok].
  destruct (Range.isFixed r).
  - apply returns_ok. eapply keeps_trans; [exact Hk|]. apply set_possible_keeps; [done|done|].
    pose proof (wrap_inw 8 (m_min r) ltac:(lia)) as [H1 H2]. split; cbn [m_min m_max Range.of_value]; lia.
  - destruct (contents_at root (possibleContents cod) (raw CE) Hp ltac:(lia)) as (cvd & _ & Ec & [Hc1 Hc2]). unfold getPossibleValues. rewrite Ec. cbn [mbind result_bind].
    apply returns_ok. case_match eqn:Em; [done|]. eapply keeps_trans; [exact Hk|]. apply set_possible_keeps; [done|done|].
    unfold Range.isEmpty, Range.set_intersection in *. cbn [m_min m_max] in *. bool_to_prop. split; cbn [m_min m_max]; lia.
Qed.

Lemma extract_pushable r lo w : pushable false r -> 0 <= lo < 64 -> 0 < w <= 64 -> u32 (lo + w) = lo + w ->
  returns (Range.extract r lo (lo + w)) (pushable false).
Proof.
  intros (H1 & H2 & H3) Hlo Hw Hs. specialize (H3 eq_refl). unfold Range.extract, Range.binaryShiftRight. rewrite massert_true by (apply Z.ltb_lt; lia). cbn [mbind result_bind].
  replace (lo + w - lo) with w by lia. rewrite u32_small, maxValueOfNBits_eq by lia. cbn [mbind result_bind]. rewrite !Z.shiftr_div_pow2 by lia.
  pose proof (pow2_pos lo ltac:(lia)). pose proof (pow2_pos w ltac:(lia)). pose proof (pow2_le w 64 ltac:(lia)). unfold inw in *.
  eapply returns_weaken; [apply (binaryAnd_ok 64); [lia|..]|].
  - split; cbn [m_min m_max].
    + split; [apply Z.div_pos; lia|apply Z.div_le_mono; lia].
    + apply Z.div_lt_upper_bound; [lia|]. nia.
  - split; cbn [m_min m_max Range.of_value]; lia.
  - intros t [Ht _]. by apply (vr_ok_pushable 64).
Qed.

Lemma zext_ok CE : apok CE -> bw CE <= 64 -> CE_getZExtValue CE 64 = Ok (raw CE) /\ inw 64 (raw CE).
Proof. intros Hc Hw. split; [by apply zext_index|]. destruct Hc as [H1 H2]. eapply inw_mono; [|exact H2]. lia. Qed.

Lemma add_input_ok CE r : apok CE -> bw CE <= 64 -> pushable false r -> returns (add_input CE r) (pushable true).
Proof.
  intros Hc Hw (H1 & H2 & H3). specialize (H3 eq_refl). pose proof Hc as [Hb _]. unfold add_input.
  assert (Hv : forall v, inw 64 v -> exists x, CE_getZExtValue (ap_sub (ConstantExpr_alloc v (bw CE)) CE) 64 = Ok x /\ inw 64 x).
  { intros v Hv. pose proof (alloc_apok v (bw CE) ltac:(lia) Hv) as Ha. rewrite ap_sub_spec by (split_and!; [done|done|by rewrite alloc_eq by (done || lia)]).
    eexists. apply zext_ok; rewrite alloc_eq by (done || lia); cbn [bw raw]; [|lia]. split; [done|]. apply wrap_inw. lia. }
  destruct (Hv _ H1) as (x & Ex & Hx), (Hv _ H2) as (y & Ey & Hy).
  unfold Range.min, Range.max. rewrite massert_true by (apply negb_true_iff, Z.ltb_ge; lia). cbn [mbind result_bind]. rewrite Ex. cbn [mbind result_bind].
  rewrite Ey. cbn [mbind result_bind]. apply returns_ok. by split_and!.
Qed.

(** Two propagations, one after the other. *)
Lemma keeps_bind d (m : result CexData) (f : CexData -> result CexData) :
  returns m (keeps d) -> (forall d', data_ok d' -> returns (f d') (keeps d')) -> returns (m ≫= f) (keeps d).
Proof.
  intros Hm Hf. eapply returns_bind; [exact Hm|]. intros d' Hd'. eapply returns_weaken; [apply Hf, Hd'|]. intros d2. by apply keeps_trans.
Qed.
Lemma when_keeps b d m : data_ok d -> (b = true -> returns (m d) (keeps d)) -> returns (when b m d) (keeps d).
Proof. intros Hd Hm. destruct b; [by apply Hm|]. by apply returns_ok, keeps_refl. Qed.

(** Pushing into an expression. *)
Definition pushes (empty : bool) (e : expr) : Prop :=
  forall r d, pushable empty r -> data_ok d -> returns (propogatePossibleValues e r d) (keeps d).

(** The conjunction and the disjunction of conditions: first one part, then the other. *)
Lemma pushes_fixed e v d : pushes false e -> inw 64 v -> data_ok d -> returns (propogatePossibleValues e (Range.of_value v) d) (keeps d).
Proof. intros H Hv Hd. apply H; [by apply value_pushable|done]. Qed.

Lemma pushes_connective k l r : k = Kind.And \/ k = Kind.Or -> wf (BinExpr k l r) -> rangeable l = true -> rangeable r = true ->
  pushes false l -> pushes false r -> pushes true (BinExpr k l r).
Proof.
  intros Hk (Wl & Wr & _) Rl Rr Hl Hr rg d Hp Hd. pose proof (evalRange_ok l Wl Rl) as (left & El & _). pose proof (evalRange_ok r Wr Rr) as (right & Er & _).
  pose proof (keeps_refl d Hd) as Hrefl. pose proof (inw_0 64 ltac:(lia)) as I0. pose proof (inw_1 64 ltac:(lia)) as I1.
  destruct Hk as [-> | ->]; cbn [propogatePossibleValues]; (case_match; [|by apply returns_ok]); rewrite El, Er; cbn [mbind result_bind].
  - case_match; [case_match; [by apply returns_ok|]|]; (apply keeps_bind; [|intros d' Hd'; cbn [mbind result_bind]; apply when_keeps; [done|]; intros _; by apply pushes_fixed]).
    + by apply pushes_fixed.
    + apply when_keeps; [done|]. intros _. by apply pushes_fixed.
  - case_match; [case_match; [by apply returns_ok|]|]; (apply keeps_bind; [|intros d' Hd'; cbn [mbind result_bind]; apply when_keeps; [done|]; intros _; by apply pushes_fixed]).
    + by apply pushes_fixed.
    + apply when_keeps; [done|]. intros _. by apply pushes_fixed.
Qed.

Lemma pushes_comparison k l r : k = Kind.Ult \/ k = Kind.Ule -> wf (BinExpr k l r) -> rangeable l = true -> rangeable r = true ->
  pushes true l -> pushes true r -> pushes true (BinExpr k l r).
Proof.
  intros Hk (Wl & Wr & Elr) Rl Rr Hl Hr rg d Hp Hd. pose proof (rangeable_width l Rl). pose proof (rangeable_width r Rr). pose proof (wf_width l Wl). pose proof (wf_width r Wr).
  pose proof (evalRange_ok l Wl Rl) as (left & El & Ol & _). pose proof (evalRange_ok r Wr Rr) as (right & Er & Or & _).
  destruct (vr_ok_pushable (getWidth l) true left ltac:(lia) Ol) as (L1 & L2 & _). destruct (vr_ok_pushable (getWidth r) true right ltac:(lia) Or) as (R1 & R2 & _).
  pose proof (keeps_refl d Hd) as Hrefl. pose proof (pow2_pos (getWidth r)). pose proof (pow2_le (getWidth r) 64 ltac:(lia)).
  assert (Im : inw 64 (2 ^ getWidth r - 1)) by (unfold inw; lia). pose proof (inw_0 64 ltac:(lia)).
  assert (Iu : forall z, inw 64 (u64 z)) by (intros; by apply wrap_inw).
  destruct Hk as [-> | ->]; cbn [propogatePossibleValues]; (case_match; [|by apply returns_ok]); rewrite El, Er; cbn [mbind result_bind];
    rewrite maxValueOfNBits_eq by lia; cbn [mbind result_bind]; repeat case_match; try (by apply returns_ok); first [apply Hr|apply Hl]; done || (split_and!; cbn [m_min m_max]; done).
Qed.

Lemma possible_ok e : forall b, wf e -> propagates b e = true -> pushes b e.
Proof.
  induction e as [c|e IH|root un i IH|c IHc t IHt f IHf|l IHl r IHr|e IH o w|e IH w|e IH w|e IH|k l IHl r IHr]; intros b He Hp rg d Hg Hd; cbn [propagates] in Hp;
    try (by apply returns_ok, keeps_refl); try discriminate Hp.
  - destruct He as (? & ? & ? & ?). by apply possible_read_keeps.
  - destruct He as (Wc & Wt & Wf & _). split_andb. cbn [propogatePossibleValues]. destruct (evalRange_ok c) as (cond & Ec & _); [done|done|]. rewrite Ec. cbn [mbind result_bind].
    case_match; [case_match; [by eapply IHt|by eapply IHf]|]. apply keeps_bind; [by eapply IHt|]. intros d' Hd'. by eapply IHf.
  - destruct He as (Wl & Wr & _). split_andb. bool_to_prop. pose proof (wf_width r Wr). destruct b; [done|]. cbn [propogatePossibleValues].
    rewrite (u32_small (getWidth r + getWidth r)) by lia. eapply returns_bind; [apply extract_pushable; [done|lia|lia|apply u32_small; lia]|]. intros hi Hhi.
    apply keeps_bind; [by apply (IHl false)|]. intros d' Hd'. eapply returns_bind; [apply (extract_pushable rg 0 (getWidth r)); [done|lia|lia|apply u32_small; lia]|]. intros lo Hlo. by apply (IHr false).
  - destruct He as (We & _). split_andb. bool_to_prop. pose proof (wf_width e We). cbn [propogatePossibleValues]. rewrite maxValueOfNBits_eq by lia. cbn [mbind result_bind].
    pose proof (pow2_pos (getWidth e)). pose proof (pow2_le (getWidth e) 64 ltac:(lia)). apply (IH true); try done. destruct Hg as (H1' & H2' & _). unfold pushable, inw, Range.set_intersection in *. cbn [m_min m_max]. lia.
  - cbn [propogatePossibleValues]. case_match; [|by apply returns_ok, keeps_refl]. apply pushes_fixed; [by intros ??; apply (IH false)|apply b2z_inw; lia|done].
  - pose proof He as (Wl & Wr & Elr). destruct k; try discriminate Hp; try (by apply returns_ok, keeps_refl).
    + cbn [propogatePossibleValues]. destruct l as [CE| | | | | | | | |]; try (by apply returns_ok, keeps_refl). destruct (_ && _) eqn:E; [|by apply returns_ok, keeps_refl].
      apply andb_true_iff in E as [Hw%Z.leb_le Hne%negb_true_iff]. apply Z.ltb_ge in Hne. destruct Hg as (G1 & G2 & _).
      eapply returns_bind; [apply add_input_ok; [done|done|by split_and!]|]. intros nr (N1 & N2 & _). apply when_keeps; [done|]. intros E%negb_true_iff%Z.ltb_ge. apply (IHr false); try done.
    + apply orb_true_iff in Hp as [Hp%negb_true_iff|Hp].
      * cbn [propogatePossibleValues]. replace (getWidth (BinExpr Kind.And l r)) with (getWidth l) by done. rewrite Hp. by apply returns_ok, keeps_refl.
      * split_andb. apply (pushes_connective Kind.And); try done; [by left|by intros ??; apply IHl|by intros ??; apply IHr|]. by destruct Hg as (? & ? & _).
    + apply orb_true_iff in Hp as [Hp%negb_true_iff|Hp].
      * cbn [propogatePossibleValues]. replace (getWidth (BinExpr Kind.Or l r)) with (getWidth l) by done. rewrite Hp. by apply returns_ok, keeps_refl.
      * split_andb. apply (pushes_connective Kind.Or); try done; [by right|by intros ??; apply IHl|by intros ??; apply IHr|]. by destruct Hg as (? & ? & _).
    + cbn [propogatePossibleValues]. destruct l as [CE| | | | | | | | |]; try (by apply returns_ok, keeps_refl). destruct (_ && _) eqn:E; [|by apply returns_ok, keeps_refl].
      apply andb_true_iff in E as [_ Hw%Z.leb_le]. destruct (zext_ok CE Wl Hw) as [-> Hv]. cbn [mbind result_bind]. pose proof Wl as [Hb _].
      case_match; [apply pushes_fixed; [by intros ??; apply (IHr false)|done|done]|]. pose proof (pow2_le (bw CE) 64 ltac:(lia)). pose proof (pow2_half (bw CE) ltac:(lia)). pose proof (pow2_pos (bw CE - 1) ltac:(lia)). unfold inw in Hv.
      destruct (Z.eqb_spec (raw CE) 0); [rewrite maxValueOfNBits_eq by lia|]; cbn [mbind result_bind]; apply (IHr false); try done; unfold pushable, inw; cbn [m_min m_max]; lia.
    + split_andb. apply (pushes_comparison Kind.Ult); try done; [by left|by intros ??; apply IHl|by intros ??; apply IHr|]. by destruct Hg as (? & ? & _).
    + split_andb. apply (pushes_comparison Kind.Ule); try done; [by right|by intros ??; apply IHl|by intros ??; apply IHr|]. by destruct Hg as (? & ? & _).
Qed.
End possible.

(** ** Exact values

    What can be pushed into: reads whose indices have a range, and, when it is a single
    index, one within the array. *)
Section exact.
Context {AP : APIntOps} {SP : APIntSpec AP} {CFG : Config}.

Definition in_bounds (root : Array) (i : expr) : bool :=
  match evalRangeForExpr i with Ok r => negb (Range.isFixed r) || (m_min r <? arr_size root) | _ => false end.
Fixpoint exactable (e : expr) : bool :=
  match e with
  | ReadExpr root un i => (range root =? 8) && rangeable i && in_bounds root i && exactable_node un
  | BinExpr Kind.Eq _ r => exactable r
  | NotExpr e => exactable e
  | BinExpr (Kind.Ne | Kind.Ugt | Kind.Uge | Kind.Sgt | Kind.Sge) _ _ => false
  | _ => true
  end
with exactable_node (un : UpdateNode) : bool :=
  match un with
  | NullNode => true
  | Node next ui v => exactable_node next && rangeable ui && exactable v
  end.

(** The bytes of the assignment are in the exact ranges. *)
Definition exact_holds (d : CexData) (rho : env) : Prop :=
  forall a i, isSymbolicArray a = true -> 0 <= i < arr_size a -> vr_in (rho a i) (exact_of d a i).

(** A step that may use the fact [P]: the assignments with [P] stay within the exact
    ranges, and an assertion fails only if there are none. *)
Definition learns (P : env -> Prop) (d : CexData) (m : result CexData) : Prop :=
  runs (~ exists rho, env_ok rho /\ exact_holds d rho /\ P rho) False m
    (fun d' => data_ok d' /\ forall rho, env_ok rho -> exact_holds d rho -> P rho -> exact_holds d' rho).

Lemma learns_weaken (P Q : env -> Prop) d m :
  (forall rho, env_ok rho -> P rho -> Q rho) -> learns Q d m -> learns P d m.
Proof.
  intros HPQ [(d' & -> & Hd & H)|[[HF ->]|[[] _]]].
  - apply runs_ok. split; [done|]. intros rho ? ? ?. eauto.
  - right. left. split; [|done]. intros (rho & ? & ? & ?). apply HF. exists rho. auto.
Qed.
Lemma learns_same P d : data_ok d -> learns P d (Ok d).
Proof. intros. by apply runs_ok. Qed.
Lemma learns_keeps P d m : returns m (keeps d) -> learns P d m.
Proof.
  intros (d' & -> & Hd & He). apply runs_ok. split; [done|]. intros rho _ H _ a i Ha Hi. rewrite He. by apply H.
Qed.
Lemma learns_bind P d m f : learns P d m -> (forall d', data_ok d' -> learns P d' (f d')) -> learns P d (m ≫= f).
Proof.
  intros [(d' & -> & Hd & H)|[[HF ->]|[[] _]]] Hf; [|by right; left]. cbn [mbind result_bind].
  destruct (Hf d' Hd) as [(d2 & -> & Hd2 & H2)|[[HF ->]|[[] _]]].
  - apply runs_ok. split; [done|]. eauto 8.
  - right. left. split; [|done]. intros (rho & ? & ? & ?). apply HF. exists rho. auto 8.
Qed.

Lemma set_exact_ok d a o i r : data_ok d -> find_object d a = Some o -> vr_ok 8 r -> data_ok (set_object d a (setExactValues o i r)).
Proof. intros Hd Ho Hr. destruct (Hd a o Ho) as [Hp He]. apply set_data_ok; [done|done|by apply insert_contents]. Qed.

Lemma narrowed_value lo hi v : lo <= hi ->
  narrowed (VR lo hi) (Range.of_value v) = if (lo <=? v) && (v <=? hi) then Ok (Range.of_value v) else AssertFail.
Proof.
  intros Hle. unfold narrowed, Range.min, Range.max, Range.isEmpty. cbn [m_min m_max Range.of_value].
  rewrite (proj2 (Z.ltb_ge v v)), (proj2 (Z.ltb_ge hi lo)) by lia. cbn [negb massert mbind result_bind].
  destruct (Z.leb_spec lo v), (Z.leb_spec v hi), (Z.ltb_spec lo v); try lia; cbn [andb negb massert mbind result_bind m_min m_max]; try done;
    rewrite ?(proj2 (Z.ltb_ge hi v)), ?(proj2 (Z.ltb_ge hi lo)) by lia; cbn [negb massert mbind result_bind];
    (destruct (Z.ltb_spec v hi); [|try lia]); rewrite ?(proj2 (Z.leb_le lo v)), ?(proj2 (Z.leb_le v v)), ?(proj2 (Z.leb_gt lo v)) by lia; cbn [massert mbind result_bind]; try done; unfold Range.of_value; repeat f_equal; lia.
Qed.

(** The exact range of the byte at a single index becomes the value. *)
Lemma exact_initial_learns root index v d : wf_array root -> range root = 8 -> data_ok d -> 0 <= m_min index ->
  (Range.isFixed index = true -> m_min index < arr_size root) ->
  learns (fun rho => exists i, vr_in i index /\ initial rho root i = Some v) d (exact_initial root index (Range.of_value v) d).
Proof.
  intros Ha H8 Hd H0 Hb. unfold exact_initial. destruct (Range.isFixed index) eqn:Hf; [|by apply learns_same]. specialize (Hb eq_refl). cbn [negb]. apply Z.eqb_eq in Hf.
  destruct (isConstantArray root) eqn:Hc.
  { unfold isConstantArray, isSymbolicArray in Hc. pose proof Ha as (_ & _ & _ & _ & [E0|[Hlen _]]); [by rewrite E0 in Hc|].
    unfold at_index. destruct (lookup_lt_is_Some_2 (constantValues root) (Z.to_nat (m_min index))) as [c ->]; [lia|]. by apply learns_same. }
  unfold isConstantArray in Hc. apply negb_false_iff in Hc.
  destruct (getObjectData d root) as [cod d'] eqn:E. destruct (getObjectData_ok d root cod d' Hd E) as ([Hd' Hsame] & Hfind & _ & Hex).
  destruct (contents_at root (exactContents cod) (m_min index) Hex ltac:(lia)) as ([lo hi] & Hl & Ec & [Hc1 Hc2]). unfold getExactValues. rewrite Ec. cbn [mbind result_bind m_min m_max] in *.
  assert (Hcvd : exact_of d root (m_min index) = VR lo hi) by (rewrite <- Hsame; unfold exact_of; by rewrite Hfind, Hl).
  assert (Hv : forall rho i, env_ok rho -> exact_holds d rho -> vr_in i index -> initial rho root i = Some v -> i = m_min index /\ rho root i = v /\ lo <= v <= hi).
  { intros rho i Henv Hhold [Hi1 Hi2] Hini. assert (i = m_min index) as -> by lia. unfold initial in Hini. rewrite Hc, H8 in Hini.
    destruct (Henv root (m_min index)) as [Hr _]. rewrite wrap_small in Hini by (unfold inw; lia). injection Hini as Hini.
    pose proof (Hhold root (m_min index) Hc ltac:(lia)) as Hin. rewrite Hcvd in Hin. destruct Hin as [Hin1 Hin2]. cbn [m_min m_max] in *. lia. }
  rewrite narrowed_value by lia. destruct (_ && _) eqn:Hin; cbn [mbind result_bind].
  - bool_to_prop. apply runs_ok. split; [apply set_exact_ok; [done|done|split; cbn [m_min m_max Range.of_value]; lia]|].
    intros rho Henv Hhold (i & Hi & Hini) a j Hs Hj. destruct (Hv rho i Henv Hhold Hi Hini) as (-> & Hr & _).
    pose proof (Hhold a j Hs Hj) as Hold. rewrite <- Hsame in Hold. unfold exact_of in *. rewrite find_after_set. case_decide as Ea; [|done]. subst a. rewrite Hfind in Hold. cbn [setExactValues exactContents].
    destruct (decide (m_min index = j)) as [<-|Hne]; [|by rewrite list_lookup_insert_ne by lia].
    rewrite list_lookup_insert_eq by (apply lookup_lt_is_Some; eauto). rewrite Hr. cbn. split; cbn [m_min m_max Range.of_value]; lia.
  - right. left. split; [|done]. intros (rho & Henv & Hhold & i & Hi & Hini). destruct (Hv rho i Henv Hhold Hi Hini) as (_ & _ & Hb1 & Hb2).
    by rewrite (proj2 (Z.leb_le _ _) Hb1), (proj2 (Z.leb_le _ _) Hb2) in Hin.
Qed.

Lemma exact_mut :
  (forall e, wf e -> exactable e = true -> forall v d, data_ok d ->
     learns (fun rho => eval rho e = Some v) d (propogateExactValues e (Range.of_value v) d)) /\
  (forall un root i index, wf_array root -> range root = 8 -> wf_node root un -> exactable_node un = true -> wf i ->
     (forall rho x, eval rho i = Some x -> vr_in x index) -> 0 <= m_min index -> (Range.isFixed index = true -> m_min index < arr_size root) ->
     forall v d, data_ok d ->
     learns (fun rho => exists x, eval rho i = Some x /\ eval_node rho root un x = Some v) d (exact_updates root i index un (Range.of_value v) d)).
Proof.
  apply expr_node_ind; cbn [propogateExactValues exact_updates exactable exactable_node].
  - intros. by apply learns_same.
  - intros. by apply learns_same.
  - intros root un IHun i _ (Ha & Hn & Wi & Ei) Hx v d Hd. split_andb. bool_to_prop. destruct (getObjectData d root) as [cod d'] eqn:E.
    destruct (getObjectData_ok d root cod d' Hd E) as (Hk & _). destruct (evalRange_ok i) as (index & Er & [O1 _] & Hin); [done|done|]. unfold in_bounds in *. rewrite Er in *. cbn [mbind result_bind].
    assert (Hstep : forall d0, data_ok d0 -> learns (fun rho => eval rho (ReadExpr root un i) = Some v) d0 (exact_updates root i index un (Range.of_value v) d0)).
    { intros d0 Hd0. eapply learns_weaken; [|apply IHun; try done; [lia|]].
      - intros rho _ Hv. simpl in Hv. inv_option. eauto.
      - intros Hf. match goal with H : negb _ || _ = true |- _ => rewrite Hf in H; by apply Z.ltb_lt in H end. }
    apply (learns_bind _ d (Ok d') (fun d0 => exact_updates root i index un (Range.of_value v) d0)); [|done]. apply learns_keeps. by apply returns_ok.
  - intros. by apply learns_same.
  - intros. by apply learns_same.
  - intros. by apply learns_same.
  - intros. by apply learns_same.
  - intros. by apply learns_same.
  - intros e IH He Hx v d Hd. destruct (_ && _) eqn:E; [|by apply learns_same]. apply andb_true_iff in E as [E%Z.eqb_eq _]. simpl in E. cbn [m_min Range.of_value].
    eapply learns_weaken; [|by apply IH]. intros rho _ Hv. simpl in Hv. inv_option. pose proof (eval_inw rho e _ He H) as Hi. rewrite E in Hi |- *.
    rewrite H. f_equal. by destruct (inw1_cases _ Hi) as [-> | ->].
  - intros k l _ r IHr (Wl & Wr & Elr) Hx v d Hd. destruct k; try discriminate Hx; try (by apply learns_same). destruct l as [CE| | | | | | | | |]; try (by apply learns_same).
    destruct (_ && _) eqn:E; [|by apply learns_same]. apply andb_true_iff in E as [_ Hw%Z.leb_le]. rewrite zext_index by done. cbn [mbind result_bind m_min Range.of_value].
    destruct (Z.eqb_spec v 0) as [->|Hv0]; cbn [negb].
    + destruct (Z.eqb_spec (getWidth r) Bool) as [Eb|]; [|by apply learns_same]. eapply learns_weaken; [|by apply IHr]. intros rho _ Hv. simpl in Hv. inv_option.
      pose proof (eval_inw rho r _ Wr H) as Hi. rewrite Eb in Hi. destruct Wl as [_ Hc]. simpl in Elr. rewrite Elr, Eb in Hc. rewrite H. f_equal.
      destruct (inw1_cases _ Hi) as [-> | ->], (inw1_cases _ Hc) as [Ec|Ec]; rewrite Ec in *; done.
    + eapply learns_weaken; [|by apply IHr]. intros rho _ Hv. simpl in Hv. inv_option. rewrite H. match type of H with _ = Some ?y => destruct (Z.eqb_spec (raw CE) y) as [->|]; [done|] end. by simpl in Hv0.
  - intros root i index Ha H8 _ _ Wi Hin H0 Hb v d Hd. eapply learns_weaken; [|by apply exact_initial_learns]. intros rho _ (x & Hx & Hv). eauto.
  - intros next IHn ui _ val IHv root i index Ha H8 (Wn & Wui & Wval & Eui & Eval) Hx Wi Hin H0 Hb v d Hd. split_andb.
    destruct (evalRange_ok ui) as (u & Eu & _ & Hu); [done|done|]. rewrite Eu. cbn [mbind result_bind]. destruct (Range.mayEqual u index) eqn:Ey; cbn [negb].
    + destruct (_ || _) eqn:Em; [|by apply learns_same]. eapply learns_weaken; [|by apply IHv]. intros rho _ (x & Hx & Hv). apply eval_node_inv in Hv as (j & Hj & Hv).
      assert (j = x) as ->; [|by rewrite Z.eqb_refl in Hv]. apply orb_true_iff in Em as [Em|Em]; [eapply (mustEqual_range u index); [by apply (Hu rho)|by apply (Hin rho)|done]|].
      apply expr_eqb_eq in Em as <-; [congruence|done|done].
    + eapply learns_weaken; [|by apply IHn]. intros rho _ (x & Hx & Hv). exists x. split; [done|]. apply eval_node_inv in Hv as (j & Hj & Hv).
      rewrite (proj2 (Z.eqb_neq j x)) in Hv; [done|]. eapply (mayEqual_range u index); [by apply (Hu rho)|by apply (Hin rho)|done].
Qed.
End exact.

(** ** The evaluators *)
Section evaluators.
Context {AP : APIntOps} {SP : APIntSpec AP} {CFG : Config}.

(** The assignment of the possible values. *)
Definition possible_byte (d : CexData) (a : Array) (i : Z) : Z :=
  match find_object d a with None => 127 | Some o => match getPossibleValue o i with Ok v => v | _ => 0 end end.
Definition possible_env (d : CexData) : env := fun a i =>
  if isSymbolicArray a && (0 <=? i) && (i <? arr_size a) then possible_byte d a i else 0.

Lemma possible_byte_ok d a i : data_ok d -> 0 <= i < arr_size a ->
  match find_object d a with None => Ok 127 | Some o => getPossibleValue o i end = Ok (possible_byte d a i) /\ inw 8 (possible_byte d a i).
Proof.
  intros Hd Hi. unfold possible_byte. destruct (find_object d a) as [o|] eqn:E; [|by split]. destruct (Hd a o E) as [Hp _].
  destruct (contents_at a (possibleContents o) i Hp Hi) as (r & _ & Er & Hr). unfold getPossibleValue, getPossibleValues. rewrite Er. cbn [mbind result_bind].
  unfold Range.min, Range.max. rewrite (nonempty 8 r Hr). cbn [negb massert mbind result_bind]. split; [done|]. by apply wrap_inw.
Qed.

Lemma possible_env_ok d : data_ok d -> env_ok (possible_env d).
Proof.
  intros Hd a i. unfold possible_env. destruct (_ && _) eqn:E; [|by split]. apply andb_true_iff in E as [[Hs Hi%Z.leb_le]%andb_true_iff Hlt%Z.ltb_lt].
  destruct (possible_byte_ok d a i Hd ltac:(lia)) as [_ [H1 H2]]. split; [lia|]. intros [H|H]; [congruence|lia].
Qed.

(** A read that stays symbolic, and a byte that is known. *)
Definition reads_as (root : Array) (i : Z) (adm : env -> Prop) (x : expr) : Prop :=
  wf x /\ getWidth x = range root /\ (False -> isConst x = true) /\ forall rho, adm rho -> eval rho x = initial rho root i \/ initial rho root i = None.

Lemma symbolic_read_ok root i adm : wf_array root -> 0 <= i < 2 ^ domain root -> returns (symbolic_read root i) (reads_as root i adm).
Proof.
  intros Ha Hi. unfold symbolic_read. destruct (index_const root i Ha Hi) as [-> Hc].
  eapply returns_weaken; [apply (ReadExpr_create_builds {| ul_root := root; ul_head := NullNode |}); by simpl|].
  intros x (Wx & Ex & Rx). split_and!; try done. intros rho _. destruct (initial rho root i) as [v|] eqn:E; [|by right]. left. by apply Rx.
Qed.

Lemma known_byte_ok root i v (adm : env -> Prop) : wf_array root -> isSymbolicArray root = true -> inw 8 v -> (forall rho, adm rho -> rho root i = v) ->
  reads_as root i adm (ConstantExpr (ConstantExpr_alloc v (range root))).
Proof.
  intros (_ & Hr & _) Hs Hv Had. assert (inw 64 v) by (eapply inw_mono; [|exact Hv]; lia).
  split_and!; [by apply alloc_apok|by rewrite alloc_eq by (done || lia)|done|]. intros rho Hrho. left. cbn [eval]. rewrite alloc_eq by (done || lia). unfold initial. by rewrite Hs, (Had rho Hrho).
Qed.

#[export] Instance possible_initial_values d : data_ok d -> InitialValues (possible_initial_value d) (eq (possible_env d)) False.
Proof.
  intros Hd. constructor. intros root i Ha Hi Hor. unfold possible_initial_value. destruct (Z.leb_spec (arr_size root) i) as [Hge|Hlt]; [by apply symbolic_read_ok|].
  destruct Hor as [Hs|]; [|lia]. destruct (possible_byte_ok d root i Hd ltac:(lia)) as [-> Hv]. cbn [mbind result_bind]. apply returns_ok.
  apply known_byte_ok; try done. intros rho <-. unfold possible_env. by rewrite Hs, (proj2 (Z.leb_le 0 i)), (proj2 (Z.ltb_lt i (arr_size root))) by lia.
Qed.

#[export] Instance exact_initial_values d : data_ok d -> InitialValues (exact_initial_value d) (fun rho => env_ok rho /\ exact_holds d rho) False.
Proof.
  intros Hd. constructor. intros root i Ha Hi Hor. unfold exact_initial_value. destruct (Z.leb_spec (arr_size root) i) as [Hge|Hlt]; [by apply symbolic_read_ok|].
  destruct Hor as [Hs|]; [|lia]. destruct (find_object d root) as [o|] eqn:E; [|by apply symbolic_read_ok]. destruct (Hd root o E) as [_ He].
  destruct (contents_at root (exactContents o) i He ltac:(lia)) as (r & Hl & Er & [R1 R2]). unfold getExactValues. rewrite Er. cbn [mbind result_bind].
  destruct (Range.isFixed r) eqn:Hf; [|by apply symbolic_read_ok]. apply Z.eqb_eq in Hf. apply returns_ok. apply known_byte_ok; try done; [unfold inw; lia|].
  intros rho [_ Hh]. pose proof (Hh root i Hs ltac:(lia)) as Hin. unfold exact_of in Hin. rewrite E, Hl in Hin. cbn in Hin. destruct Hin. lia.
Qed.

Lemma evaluatePossible_ok d e : data_ok d -> edom e -> returns (evaluatePossible d e) (same_value (eq (possible_env d)) e).
Proof.
  intros Hd He. pose proof (possible_initial_values d Hd) as HIV.
  destruct (evaluator_sound (fun _ : unit => True) (possible_initial_value d) (eq (possible_env d)) False (vsize e) e ([], tt)) as ([r s] & Hr & [Hg _] & _); [done|lia|by split; [constructor|]|].
  unfold evaluatePossible. rewrite Hr. simpl. by exists r.
Qed.
Lemma evaluateExact_ok d e : data_ok d -> edom e -> returns (evaluateExact d e) (same_value (fun rho => env_ok rho /\ exact_holds d rho) e).
Proof.
  intros Hd He. pose proof (exact_initial_values d Hd) as HIV.
  destruct (evaluator_sound (fun _ : unit => True) (exact_initial_value d) (fun rho => env_ok rho /\ exact_holds d rho) False (vsize e) e ([], tt)) as ([r s] & Hr & [Hg _] & _); [done|lia|by split; [constructor|]|].
  unfold evaluateExact. rewrite Hr. simpl. by exists r.
Qed.

(** What a constant result says of the condition. *)
Lemma verdict_true (A : env -> Prop) e r : same_value A e r -> getWidth e = Bool ->
  returns (Expr_isTrue r) (fun t => t = true -> forall rho, A rho -> has_value rho e -> true_under rho e).
Proof.
  intros (Wr & Er & Hv) Hw. unfold Expr_isTrue. rewrite Er, Hw. cbn [massert mbind result_bind Z.eqb]. apply returns_ok. destruct r as [c| | | | | | | | |]; try done.
  simpl in Er. rewrite isTrue_eq by (done || congruence). intros E%Z.eqb_eq rho Ha [v Hev]. unfold true_under. pose proof (Hv rho v Ha Hev) as Hc. simpl in Hc. congruence.
Qed.
Lemma verdict_false (A : env -> Prop) e r : same_value A e r -> getWidth e = Bool ->
  returns (Expr_isFalse r) (fun t => t = true -> forall rho, A rho -> has_value rho e -> false_under rho e).
Proof.
  intros (Wr & Er & Hv) Hw. unfold Expr_isFalse. rewrite Er, Hw. cbn [massert mbind result_bind Z.eqb]. apply returns_ok. destruct r as [c| | | | | | | | |]; try done.
  simpl in Er. rewrite isFalse_eq by (done || congruence). intros E%Z.eqb_eq rho Ha [v Hev]. unfold false_under. pose proof (Hv rho v Ha Hev) as Hc. simpl in Hc. congruence.
Qed.
End evaluators.

(** ** The solver *)
Section solver.
Context {AP : APIntOps} {SP : APIntSpec AP} {CFG : Config} {SUP : Supported}.

(** The conditions it is correct for: they always have a value, the evaluator takes them,
    and both propagations can push into them. *)
Record fast_condition (e : expr) : Prop := {
  fc_dom : edom e;
  fc_bool : getWidth e = Bool;
  fc_value rho : has_value rho e;
  fc_possible : propagates false e = true;
  fc_exact : exactable e = true;
}.

Lemma propogate_learns v e d : fast_condition e -> inw 1 v -> data_ok d -> learns (fun rho => eval rho e = Some v) d (propogate v e d).
Proof.
  intros He Hv Hd. assert (inw 64 v) by (eapply inw_mono; [|exact Hv]; lia). unfold propogate. destruct (fc_dom e He) as [We _]. apply learns_bind.
  - apply learns_keeps. apply (possible_ok e false); [done|apply He|by apply value_pushable|done].
  - intros d' Hd'. apply (proj1 exact_mut); [done|apply He|done].
Qed.

Lemma propogate_all_learns cs : Forall fast_condition cs -> forall d, data_ok d -> learns (fun rho => Forall (true_under rho) cs) d (propogate_all cs d).
Proof.
  induction 1 as [|c cs Hc Hcs IH]; intros d Hd; cbn [propogate_all]; [by apply learns_same|]. apply learns_bind.
  - eapply learns_weaken; [|apply propogate_learns; [done|by apply inw_1|done]]. intros rho _ [H _]%Forall_cons. exact H.
  - intros d' Hd'. eapply learns_weaken; [|by apply IH]. by intros rho _ [_ H]%Forall_cons.
Qed.

(** The assignments an answer is about. *)
Definition refutes (q : Query) (checkExpr : bool) (rho : env) : Prop :=
  Forall (true_under rho) (q_constraints q) /\ (checkExpr = true -> false_under rho (q_expr q)).

Lemma check_constraints_ok cs : Forall fast_condition cs -> forall has d, data_ok d ->
  returns (check_constraints cs has d) (fun r => match r with
    | Some true => forall rho, env_ok rho -> exact_holds d rho -> ~ Forall (true_under rho) cs
    | Some false => has = true /\ Forall (true_under (possible_env d)) cs
    | None => True end).
Proof.
  induction 1 as [|c cs Hc Hcs IH]; intros has d Hd; cbn [check_constraints].
  { apply returns_ok. by destruct has. }
  eapply (returns_bind _ _ (fun h => h = true -> has = true /\ true_under (possible_env d) c)).
  { destruct has; [|by apply returns_ok]. eapply returns_bind; [apply evaluatePossible_ok; [done|apply Hc]|]. intros p Hp.
    eapply returns_weaken; [apply (verdict_true _ c p Hp), Hc|]. intros t Ht E. split; [done|]. by apply Ht; [|done|apply Hc]. }
  intros h Hh. eapply returns_bind; [apply evaluateExact_ok; [done|apply Hc]|]. intros x Hx.
  eapply returns_bind; [apply (verdict_false _ c x Hx), Hc|]. intros [] Hf.
  - apply returns_ok. intros rho He Hh' [Ht _]%Forall_cons. eapply not_both; [exact Ht|]. apply Hf; [done|done|apply Hc].
  - eapply returns_weaken; [by apply IH|]. intros [[]|]; [| |done].
    + intros H rho He Hh' [_ Ht]%Forall_cons. by eapply H.
    + intros [Eh Ht]. destruct (Hh Eh) as [-> Hc']. split; [done|]. by constructor.
Qed.

Lemma exact_holds_start rho : env_ok rho -> exact_holds [] rho.
Proof. intros He a i Ha Hi. destruct (He a i) as [H _]. split; cbn; lia. Qed.

Lemma propogateValues_ok q checkExpr : Forall fast_condition (q_constraints q) -> (checkExpr = true -> fast_condition (q_expr q)) ->
  runs (~ exists rho, env_ok rho /\ refutes q checkExpr rho) False (propogateValues q checkExpr)
    (fun p => data_ok (snd p) /\ match fst p with
       | Some true => ~ exists rho, env_ok rho /\ refutes q checkExpr rho
       | Some false => refutes q checkExpr (possible_env (snd p))
       | None => True end).
Proof.
  intros Hcs Hq. unfold propogateValues.
  assert (Hall : learns (refutes q checkExpr) [] (d ← propogate_all (q_constraints q) []; when checkExpr (propogate 0 (q_expr q)) d)).
  { apply learns_bind.
    - eapply learns_weaken; [|by apply propogate_all_learns]. by intros rho _ [H _].
    - intros d Hd. destruct checkExpr; [|by apply learns_same]. eapply learns_weaken; [|apply propogate_learns; [by apply Hq|by apply inw_0|done]]. intros rho _ [_ H]. by apply H. }
  destruct (propogate_all (q_constraints q) []) as [d0| |]; cbn [mbind result_bind] in *;
    [|destruct Hall as [(? & [=] & _)|[[HF _]|[[] _]]]; right; left; (split; [|done]); intros (rho & He & Hr); apply HF; exists rho; split_and!; [done|by apply exact_holds_start|done]
     |by destruct Hall as [(? & [=] & _)|[[_ [=]]|[[] _]]]].
  destruct Hall as [(d & -> & Hd & Hh)|[[HF ->]|[[] _]]]; cbn [mbind result_bind].
  2:{ right. left. split; [|done]. intros (rho & He & Hr). apply HF. exists rho. split_and!; [done|by apply exact_holds_start|done]. }
  assert (Hno : forall rho, env_ok rho -> refutes q checkExpr rho -> exact_holds d rho) by (intros; apply Hh; [done|by apply exact_holds_start|done]).
  apply returns_runs. eapply (returns_bind _ _ (fun r => match r with
       | Some true => ~ exists rho, env_ok rho /\ refutes q checkExpr rho | Some false => refutes q checkExpr (possible_env d) | None => True end)); [|intros r Hr; by apply returns_ok].
  destruct checkExpr.
  - specialize (Hq eq_refl). eapply returns_bind; [apply evaluatePossible_ok; [done|apply Hq]|]. intros p Hp. eapply returns_bind; [apply (verdict_false _ _ p Hp), Hq|]. intros has Hhas.
    eapply returns_bind; [apply evaluateExact_ok; [done|apply Hq]|]. intros x Hx. eapply returns_bind; [apply (verdict_true _ _ x Hx), Hq|]. intros [] Ht.
    + apply returns_ok. intros (rho & He & Hr). pose proof Hr as [_ Hf]. eapply not_both; [|by apply Hf]. apply Ht; [done|by split; [|apply Hno]|apply Hq].
    + eapply returns_weaken; [by apply check_constraints_ok|]. intros [[]|]; [| |done].
      * intros H (rho & He & Hr). eapply H; [exact He|by apply Hno|apply Hr].
      * intros [Eh Hc]. split; [done|]. intros _. apply Hhas; [done|done|apply Hq].
  - eapply returns_weaken; [by apply check_constraints_ok|]. intros [[]|]; [| |done].
    + intros H (rho & He & Hr). eapply H; [exact He|by apply Hno|apply Hr].
    + intros [_ Hc]. by split.
Qed.

(** The bytes of an object. *)
Definition plain_object (a : Array) : Prop := wf_array a /\ isSymbolicArray a = true /\ range a = 8 /\ domain a <= 32.

Lemma object_values_ok d a n : data_ok d -> plain_object a -> forall i, 0 <= i -> i + Z.of_nat n <= arr_size a ->
  returns (object_values d a n i) (fun r => match r with
    | Some l => l = map (fun k => wrap 8 (possible_env d a (i + Z.of_nat k))) (seq 0 n) | None => True end).
Proof.
  intros Hd (Ha & Hs & H8 & H32). induction n as [|n IH]; intros i Hi Hn; cbn [object_values]; [by apply returns_ok|].
  pose proof Ha as (Hdom & _ & _ & Hsz & _). assert (Hi' : 0 <= i < 2 ^ domain a) by lia. destruct (index_const a i Ha Hi') as [Ealloc Hok].
  pose proof (pow2_le (domain a) 64 ltac:(lia)). rewrite create_eq by (unfold inw; lia). cbn [mbind result_bind]. rewrite Ealloc. unfold ReadExpr_create. cbn [ReadExpr_rollback ul_head ul_root mbind result_bind].
  unfold isConstantArray. rewrite Hs. cbn [negb].
  assert (He : edom (ReadExpr a NullNode (ConstantExpr (APInt (domain a) i)))).
  { split; [by cbn|]. cbn [evaluable evaluable_node]. by rewrite (proj2 (Z.leb_le _ _) H32). }
  cbn [mbind result_bind]. eapply returns_bind; [by apply evaluatePossible_ok|]. intros x (Wx & Ex & Vx). destruct x as [CE| | | | | | | | |]; try (by apply returns_ok).
  specialize (Vx _ (wrap 8 (possible_env d a i)) eq_refl). cbn [eval eval_node raw mbind option_bind] in Vx. unfold initial in Vx. rewrite Hs, H8 in Vx. specialize (Vx eq_refl). injection Vx as Vx.
  simpl in Ex, Wx. unfold CE_getZExtValue. rewrite massert_true by (apply Z.leb_le; lia). cbn [mbind result_bind]. rewrite ap_getZExtValue_spec by (done || lia).
  eapply returns_bind; [apply IH; lia|]. intros [l|] Hl; [|by apply returns_ok]. apply returns_ok. cbn. rewrite Vx, wrap_wrap, Z.add_0_r by lia. f_equal. rewrite Hl, <- seq_shift, map_map.
  apply map_ext. intros k. do 2 f_equal. lia.
Qed.

Lemma objects_values_ok d objects : data_ok d -> Forall plain_object objects ->
  returns (objects_values d objects) (fun r => match r with Some l => l = map (object_bytes (possible_env d)) objects | None => True end).
Proof.
  intros Hd. induction 1 as [|a objects Ha Ho IH]; cbn [objects_values]; [by apply returns_ok|]. pose proof Ha as ((_ & _ & Hsz & _) & _).
  eapply returns_bind; [apply object_values_ok; [done|done|lia|lia]|]. intros [l|] Hl; [|by apply returns_ok].
  eapply returns_bind; [exact IH|]. intros [ls|] Hls; [|by apply returns_ok]. apply returns_ok. cbn. by rewrite Hl, Hls.
Qed.

Lemma no_refutation q : fast_condition (q_expr q) -> ~ (exists rho, env_ok rho /\ refutes q true rho) -> valid q.
Proof.
  intros Hq H rho [He Hm]. destruct (bool_value rho (q_expr q)) as [Ht|Hf]; [apply (fc_dom _ Hq)|apply Hq|apply (fc_value _ Hq)|done|]. destruct H. exists rho. by split_and!.
Qed.
End solver.

(** *** In front of another solver *)
Section staged.
Context {AP : APIntOps} {SP : APIntSpec AP} {CFG : Config} {SUP : Supported} {St : Type} {SI : SolverImpl St} {inv : St -> Prop} {SS : SolverSpec SI inv}.

Lemma fast_truth_ok q : Forall fast_condition (q_constraints q) -> fast_condition (q_expr q) ->
  match fast_computeTruth q with Ok pv => ic_truth_answer q pv | AssertFail => valid q | OutOfFuel => False end.
Proof.
  intros Hcs Hq. pose proof (no_refutation q Hq) as Hval. unfold fast_computeTruth.
  destruct (propogateValues_ok q true Hcs (fun _ => Hq)) as [([[[]|] d] & -> & Hd & Hr)|[[HF ->]|[[] _]]]; cbn [mbind result_bind fst snd] in *; [by apply Hval| |done|by apply Hval].
  exists (possible_env d). destruct Hr as [? Hf]. split; [by split; [apply possible_env_ok|]|by apply Hf].
Qed.

(** What the fast solver does not decide is passed on, and the pair answers rightly. *)
Lemma createFastCexSolver_truth q s : inv s -> q_ok q -> satisfiable q -> Forall fast_condition (q_constraints q) -> fast_condition (q_expr q) ->
  match @computeTruth St (createFastCexSolver SI) q s with Ok (r, s') => truth_answer q r /\ inv s' | AssertFail => valid q | OutOfFuel => False end.
Proof.
  intros Hs Hq Hsat Hcs Hc. pose proof (fast_truth_ok q Hcs Hc) as Ht. cbn [computeTruth createFastCexSolver Staged.impl]. unfold Staged.truth. cbn [ic_computeTruth FastCexSolver].
  destruct (fast_computeTruth q) as [pv| |]; cbn [mbind result_bind]; [|done|done]. destruct pv; try done.
  destruct (computeTruth_spec q s Hs Hq Hsat (fc_bool _ Hc)) as ([r s'] & -> & Hr & Hs'). done.
Qed.
End staged.

(** C6.  The fast counterexample solver is right whatever it answers: on queries of the
    supported form it says that a query is valid only if it is, and invalid only with an
    assignment that satisfies the constraints and not the query; a value it returns is a
    value of the expression under the constraints, and initial values are those of a
    counterexample.  Its loops end, and an assertion can fail only for a valid query
    (for [computeValue], for unsatisfiable constraints). *)
Theorem fast_cex_correct {AP : APIntOps} {SP : APIntSpec AP} {CFG : Config} {SUP : Supported} q objects :
  Forall fast_condition (q_constraints q) -> Forall plain_object objects ->
  (fast_condition (q_expr q) ->
     match fast_computeTruth q with Ok pv => ic_truth_answer q pv | AssertFail => valid q | OutOfFuel => False end /\
     match fast_computeInitialValues q objects with Ok r => initial_answer q objects r | AssertFail => valid q | OutOfFuel => False end) /\
  (edom (q_expr q) -> (forall rho, has_value rho (q_expr q)) ->
     match fast_computeValue q with Ok r => value_answer q r | AssertFail => ~ satisfiable q | OutOfFuel => False end).
Proof.
  intros Hcs Hobj. split.
  - intros Hq. split; [by apply fast_truth_ok|]. pose proof (no_refutation q Hq) as Hval. unfold fast_computeInitialValues.
    destruct (propogateValues_ok q true Hcs (fun _ => Hq)) as [([r d] & -> & Hd & Hr)|[[HF ->]|[[] _]]]; cbn [mbind result_bind fst snd] in *; [|by apply Hval].
    destruct r as [[]|]; [by apply Hval| |done].
    assert (Hm : models q (possible_env d) /\ false_under (possible_env d) (q_expr q)) by (destruct Hr as [? Hf]; split; [by split; [apply possible_env_ok|]|by apply Hf]).
    destruct (objects_values_ok d objects Hd Hobj) as ([l|] & -> & Hl); cbn [mbind result_bind]; [|done]. cbn. exists (possible_env d). by destruct Hm.
  - intros He Hv. unfold fast_computeValue.
    destruct (propogateValues_ok q false Hcs ltac:(done)) as [([r d] & -> & Hd & Hr)|[[HF ->]|[[] _]]]; cbn [mbind result_bind fst snd] in *.
    2:{ intros (rho & Henv & Hm). apply HF. exists rho. by split_and!. }
    destruct r as [[]|]; try done. destruct (evaluatePossible_ok d (q_expr q) Hd He) as (x & -> & Wx & Ex & Vx). cbn [mbind result_bind].
    destruct x as [c| | | | | | | | |]; try done. cbn. exists c. split_and!; [done|done|done|]. exists (possible_env d). split; [split; [by apply possible_env_ok|apply Hr]|].
    destruct (Hv (possible_env d)) as [v Hev]. pose proof (Vx _ v eq_refl Hev) as Hx. simpl in Hx. congruence.
Qed.

Module FastSamples.
#[local] Existing Instance ZOps.
#[local] Existing Instance default_config.
#[local] Existing Instance everything.

Definition query (cs : list expr) (e : expr) : Query := {| q_constraints := cs; q_expr := e |}.
Definition is8 (v : Z) (e : expr) : expr := BinExpr Kind.Eq (cst Int8 v) e.
Definition below : expr := BinExpr Kind.Ult (byte 2) (cst Int8 9).
Definition constraints : list expr := [is8 3 (byte 0); below].

Ltac condition := split; [split; concrete|reflexivity|intros rho; eexists; reflexivity|reflexivity|reflexivity].
Lemma is8_condition v i : 0 <= v < 256 -> 0 <= i < 8 -> fast_condition (is8 v (byte i)).
Proof.
  intros Hv Hi. assert (i = 0 \/ i = 1 \/ i = 2 \/ i = 3 \/ i = 4 \/ i = 5 \/ i = 6 \/ i = 7) as E by lia.
  assert (Hw : wf (byte i)) by (destruct_or? E; subst; concrete).
  split; [split; [split_and!; [split; [done|change (0 <= v < 2 ^ 8); lia]|exact Hw|done]|done]|done|intros rho; eexists; reflexivity|done|]. destruct_or? E; subst; reflexivity.
Qed.
Lemma constraints_ok : Forall fast_condition constraints.
Proof. constructor; [by apply is8_condition|]. constructor; [condition|constructor]. Qed.

(** A valid query, one with a counterexample, and a value. *)
Lemma fast_cex_correct_witness :
  valid (query constraints (is8 3 (byte 0))) /\
  initial_answer (query constraints (is8 5 (byte 1))) [buf] (Some ([[3; 2; 4; 127; 127; 127; 127; 127]], true)) /\
  value_answer (query constraints (BinExpr Kind.Add (byte 1) (byte 2))) (Some (cst Int8 131)).
Proof.
  assert (Hb : Forall plain_object [buf]) by (constructor; [split_and!; concrete|constructor]).
  destruct (fast_cex_correct (query constraints (is8 3 (byte 0))) [buf] constraints_ok Hb) as [H1 _].
  destruct (fast_cex_correct (query constraints (is8 5 (byte 1))) [buf] constraints_ok Hb) as [H2 _].
  destruct (fast_cex_correct (query constraints (BinExpr Kind.Add (byte 1) (byte 2))) [buf] constraints_ok Hb) as [_ H3].
  specialize (H1 (is8_condition 3 0 ltac:(lia) ltac:(lia))). specialize (H2 (is8_condition 5 1 ltac:(lia) ltac:(lia))).
  specialize (H3 ltac:(split; concrete) ltac:(intros rho; eexists; reflexivity)).
  destruct H1 as [H1 _], H2 as [_ H2].
  assert (E1 : fast_computeTruth (query constraints (is8 3 (byte 0))) = Ok MustBeTrue) by (vm_compute; reflexivity).
  assert (E2 : fast_computeInitialValues (query constraints (is8 5 (byte 1))) [buf] = Ok (Some ([[3; 2; 4; 127; 127; 127; 127; 127]], true))) by (vm_compute; reflexivity).
  assert (E3 : fast_computeValue (query constraints (BinExpr Kind.Add (byte 1) (byte 2))) = Ok (Some (cst Int8 131))) by (vm_compute; reflexivity).
  rewrite E1 in H1. rewrite E2 in H2. rewrite E3 in H3. by split_and!.
Defined.

(** Asked whether [byte 0] differs from 4 when it is known to be 3, the solver fails the
    assertion on the exact range instead of answering that it does. *)
Lemma contradiction_aborts :
  fast_computeTruth (query [is8 3 (byte 0)] (BinExpr Kind.Eq (cst Bool 0) (is8 4 (byte 0)))) = AssertFail /\
  valid (query [is8 3 (byte 0)] (BinExpr Kind.Eq (cst Bool 0) (is8 4 (byte 0)))).
Proof.
  split; [by vm_compute|]. intros rho [_ [Ht _]%Forall_cons]. unfold true_under in *. cbn [query q_expr is8 byte cst eval eval_node mbind option_bind raw] in *.
  unfold initial in *. cbn [isSymbolicArray constantValues buf] in *. cbn [sem_bin mbind option_bind] in *. destruct (Z.eqb_spec 3 (wrap (range buf) (rho buf 0))) as [E|]; [|discriminate Ht]. by rewrite <- E.
Qed.

(** The range of a nested concatenation is wrong, so the write that the constraint fixes is
    taken to be at index 256 instead of 65536, and the query is "proved". *)
Definition big : Array := {|
  arr_addr := 65536; name := "big"; UFE := 3; UFE_Cheat := 3; arr_size := 65537; domain := 24; range := Int8; constantValues := [] |}.
Definition confused : Query :=
  query [is8 5 (ReadExpr big NullNode RangeSamples.nested)] (is8 5 (ReadExpr big NullNode (cst 24 256))).
Definition other : env := fun a i => if decide (a = big) then if i =? 65536 then 5 else 0 else 0.
Lemma nested_concat_unsound : fast_computeTruth confused = Ok MustBeTrue /\ models confused other /\ false_under other (q_expr confused).
Proof.
  split; [by vm_compute|]. split; [|by vm_compute]. split; [|constructor; [by vm_compute|constructor]].
  intros a i. unfold other. case_decide as E; [|by split]. subst a. case_match; [|by split]. bool_to_prop. subst i. split; [lia|]. intros [[=]|H]. cbn in H. lia.
Qed.

(** A zero-extended byte cannot be 0x100, and the empty range for it reaches [extract],
    which asserts that its range is not empty. *)
Definition impossible : expr :=
  BinExpr Kind.Eq (cst 24 0x10000) (ZExtExpr (ConcatExpr (byte 1) (byte 0)) 24).
Lemma empty_range_aborts : fast_computeTruth (query [] (BinExpr Kind.Eq (cst Bool 0) impossible)) = AssertFail.
Proof. by vm_compute. Qed.
End FastSamples.
