(* ===== verification/CexCaching.v ===== *)
(** * CexCaching: the counterexample cache

    Models [klee/lib/Solver/CexCachingSolver.cpp].  A query is turned into the set of
    its constraints and of the negation of its expression; the cache maps such sets
    to a satisfying assignment, or to null when there is none.  A pointer to an
    assignment is the assignment, null is [None]; [std::set]s and [std::map]s are the
    lists of their elements in increasing order.  Proved against the laws of the
    solver below, for the expressions that assignments can evaluate ([cex_supported]). *)

From S2P Require Import Prelude APInt ExprData Samples Bits ExprCompare ExprCreate ExprCreateSound ExprStructSound ExprVisitor ExprEvaluator UnionFind ExprUtil ExprWeight Rewriters Constraints ConstraintsSound Solver MapOfSets SolverChain.
Local Open Scope Z_scope.

(** The command line options of the file. *)
Class CexOptions := {
  DebugCexCacheCheckBinding : bool;
  CexCacheTryAll : bool;
  CexCacheSuperSet : bool;
  CexCacheExperimental : bool;
}.

(** ** Orders *)

(** [operator<] of [std::vector<unsigned char>] *)
Fixpoint bytes_ltb (a b : list Z) : bool :=
  match a, b with
  | _, [] => false
  | [], _ :: _ => true
  | x :: a', y :: b' => if x <? y then true else if y <? x then false else bytes_ltb a' b'
  end.
(** [operator<] of the entries of a binding *)
Definition entry_ltb (p q : Array * list Z) : bool :=
  if arr_addr p.1 <? arr_addr q.1 then true
  else if arr_addr q.1 <? arr_addr p.1 then false else bytes_ltb p.2 q.2.
(** [AssignmentLessThan]: [operator<] of [std::map] *)
Fixpoint bindings_ltb (a b : list (Array * list Z)) : bool :=
  match a, b with
  | _, [] => false
  | [], _ :: _ => true
  | p :: a', q :: b' => if entry_ltb p q then true else if entry_ltb q p then false else bindings_ltb a' b'
  end.
Definition AssignmentLessThan (a b : Assignment) : bool := bindings_ltb (bindings a) (bindings b).

(** [assignmentsTable.insert(binding)]: the table, and the entry for the binding,
    which is the one that was there if there was one. *)
Fixpoint table_insert (x : Assignment) (t : list Assignment) : list Assignment * Assignment :=
  match t with
  | [] => ([x], x)
  | y :: t' =>
      if AssignmentLessThan y x then let '(t'', r) := table_insert x t' in (y :: t'', r)
      else if AssignmentLessThan x y then (x :: t, x) else (t, y)
  end.

Section keys.
Context {AP : APIntOps}.

#[export] Instance expr_KeyOrder : KeyOrder expr := {| klt := expr_ltb; keq := expr_eqb |}.

(** [KeyType(begin, end)] *)
Definition KeyType_of (cs : list expr) : list expr := foldl (fun s c => MOS.set_insert c s) [] cs.
End keys.

Definition NullAssignment (a : option Assignment) : bool := match a with None => true | Some _ => false end.
Definition NonNullAssignment (a : option Assignment) : bool := negb (NullAssignment a).

Module CexCaching.
Section cex.
Context {AP : APIntOps} {CFG : Config} {OPT : CexOptions} {St : Type} {solver : SolverImpl St}.

Record state := {
  inner : St;
  cache : MOS.node expr (option Assignment);
  assignmentsTable : list Assignment;
}.

Definition cache_find (key : list expr) (st : state) : option (option Assignment) := MOS.lookup key (cache st).

(** [NullOrSatisfyingAssignment]: a search with this predicate ends where the
    predicate holds or fails an assertion, *)
Definition NullOrSatisfying (key : list expr) (a : option Assignment) : bool :=
  match a with
  | None => true
  | Some b => match satisfies b key with Ok false => false | _ => true end
  end.
(** which has then been the last thing to happen. *)
Definition NullOrSatisfying_result (key : list expr) (a : option Assignment) : result (option Assignment) :=
  match a with None => Ok None | Some b => _ ← satisfies b key; Ok (Some b) end.

(** The loop over [assignmentsTable]. *)
Fixpoint first_satisfying (key : list expr) (t : list Assignment) : result (option (option Assignment)) :=
  match t with
  | [] => Ok None
  | a :: t' => s ← satisfies a key; if s : bool then Ok (Some (Some a)) else first_satisfying key t'
  end.

Definition searchForAssignment (key : list expr) (st : state) : result (option (option Assignment)) :=
  match cache_find key st with
  | Some r => Ok (Some r)
  | None =>
      let super := if CexCacheSuperSet then MOS.findSuperset NonNullAssignment (cache st) key else None in
      match super with
      | Some r => Ok (Some r)
      | None =>
          if CexCacheTryAll then
            match MOS.findSubset NullAssignment (cache st) key with
            | Some r => Ok (Some r)
            | None => first_satisfying key (assignmentsTable st)
            end
          else
            match MOS.findSubset (NullOrSatisfying key) (cache st) key with
            | Some r => Some <$> NullOrSatisfying_result key r
            | None => Ok None
            end
      end
  end.

(** The key of the query, and the cached result. *)
Definition lookupAssignment (query : Query) (st : state) : result (list expr * option (option Assignment)) :=
  let key := KeyType_of (q_constraints query) in
  neg ← createIsZero (q_expr query);
  match neg with
  | ConstantExpr CE =>
      if CE_isFalse CE then Ok (key, Some None)
      else r ← searchForAssignment key st; Ok (key, r)
  | _ => let key := MOS.set_insert neg key in r ← searchForAssignment key st; Ok (key, r)
  end.

(** [klee_error] ends the program. *)
Definition check_binding (binding : Assignment) (key : list expr) : result unit :=
  if DebugCexCacheCheckBinding then ok ← satisfies binding key; massert ok else Ok tt.

(** The answer and the new state; [None]: the solver failed. *)
Definition getAssignment (query : Query) (st : state) : result (option (option Assignment) * state) :=
  '(key, found) ← lookupAssignment query st;
  match found with
  | Some r => Ok (Some r, st)
  | None =>
      objects ← findSymbolicObjects key [];
      '(r, s) ← computeInitialValues query objects (inner st);
      let st := {| inner := s; cache := cache st; assignmentsTable := assignmentsTable st |} in
      match r with
      | None => Ok (None, st)
      | Some (values, hasSolution) =>
          '(binding, table) ← (if hasSolution : bool then
              b ← Assignment_create objects values false;
              let '(table, b) := table_insert b (assignmentsTable st) in
              _ ← check_binding b key;
              Ok (Some b, table)
            else Ok (None, assignmentsTable st));
          Ok (Some binding, {| inner := inner st; cache := MOS.insert None key binding (cache st);
                               assignmentsTable := table |})
      end
  end.

(** [assert(a)], [a->evaluate(e)], [assert(isa<ConstantExpr>)] *)
Definition evaluate_const (a : option Assignment) (e : expr) : result apint :=
  match a with
  | None => AssertFail
  | Some a => v ← Assignment_evaluate a e; match v with ConstantExpr c => Ok c | _ => AssertFail end
  end.

Definition validity (query : Query) (st : state) : result (option Validity * state) :=
  '(a, st) ← getAssignment (withFalse query) st;
  match a with
  | None => Ok (None, st)
  | Some a =>
      q ← evaluate_const a (q_expr query);
      if CE_isTrue q then
        '(a, st) ← getAssignment query st;
        Ok ((fun a => match a with None => VTrue | Some _ => VUnknown end) <$> (a : option (option Assignment)), st)
      else
        nq ← negateExpr query;
        '(a, st) ← getAssignment nq st;
        Ok ((fun a => match a with None => VFalse | Some _ => VUnknown end) <$> (a : option (option Assignment)), st)
  end.

Definition truth (query : Query) (st : state) : result (option bool * state) :=
  stop ← (if CexCacheExperimental then
               nq ← negateExpr query;
               '(_, found) ← lookupAssignment nq st;
               Ok (match found with Some None => true | _ => false end)
             else Ok false);
  if stop : bool then Ok (None, st)
  else
    '(a, st) ← getAssignment query st;
    Ok (NullAssignment <$> (a : option (option Assignment)), st).

Definition value (query : Query) (st : state) : result (option expr * state) :=
  '(a, st) ← getAssignment (withFalse query) st;
  match a with
  | None => Ok (None, st)
  | Some a => c ← evaluate_const a (q_expr query); Ok (Some (ConstantExpr c), st)
  end.

(** [std::vector<unsigned char>(os->size, 0)] *)
Definition value_of (a : Assignment) (os : Array) : list Z :=
  match bindings_find (bindings a) os with
  | None => replicate (Z.to_nat (arr_size os)) 0
  | Some bytes => bytes
  end.

Definition initial_values (query : Query) (objects : list Array) (st : state)
    : result (option (list (list Z) * bool) * state) :=
  '(a, st) ← getAssignment query st;
  Ok ((fun a => match a with
        | None => ([], false)
        | Some a => (map (value_of a) objects, true)
        end) <$> (a : option (option Assignment)), st).

#[export] Instance impl : SolverImpl state := {|
  computeTruth := truth; computeValidity := validity; computeValue := value; computeInitialValues := initial_values |}.

(** The constructor. *)
Definition initial (s : St) : state := {| inner := s; cache := MOS.clear None; assignmentsTable := [] |}.
End cex.
Arguments state : clear implicits.
Arguments impl {AP CFG OPT St} solver.
End CexCaching.

(** ** The supported expressions

    Reads of live arrays, which are told apart by their addresses and indexed by at
    most 32 bits; no [NotOptimizedExpr] and no division by a literal zero; and a value
    under every assignment.  The simplifying constructors stay among them. *)
Section supported.
Context {AP : APIntOps} {SP : APIntSpec AP} {CFG : Config}.
Variable live : Array -> bool.
Hypothesis Hlive : forall a b, live a = true -> live b = true -> arr_addr a = arr_addr b -> a = b.
Hypothesis Hopt : ConstArrayOpt = false.

Definition foreign (a : Array) : nat := if live a && (domain a <=? 32) then 0%nat else 1%nat.
Definition flaws : expr -> nat := wt 1 1 0 foreign.
Definition cex_expr (e : expr) : Prop := flaws e = 0%nat /\ forall rho, env_ok rho -> has_value rho e.

(** Every constructor asserts that its operands have the same width. *)
Lemma BCREATE_widths op cr l r e : BCREATE op cr l r = Ok e -> getWidth l = getWidth r.
Proof. unfold BCREATE. by destruct (Z.eqb_spec (getWidth l) (getWidth r)). Qed.
Lemma BCREATE_R_widths op pL pR cr l r e : BCREATE_R op pL pR cr l r = Ok e -> getWidth l = getWidth r.
Proof. unfold BCREATE_R. by destruct (Z.eqb_spec (getWidth l) (getWidth r)). Qed.
Lemma AddSub_widths n l r e :
  AddExpr_go n l r = Ok e \/ SubExpr_go n l r = Ok e -> getWidth l = getWidth r.
Proof. destruct n as [|n]; intros [E|E]; try discriminate; by eapply BCREATE_R_widths. Qed.
Lemma bin_create_widths k l r e : bin_create k l r = Ok e -> getWidth l = getWidth r.
Proof.
  destruct k; cbn [bin_create]; intros E;
    first [by eapply AddSub_widths; eauto|by eapply BCREATE_widths; exact E|by eapply BCREATE_R_widths; exact E
      |by symmetry; eapply BCREATE_widths; exact E|idtac].
  unfold NeExpr_create in E. destruct (ConstantExpr_create 0 Bool); try discriminate. cbn [mbind result_bind] in E.
  destruct (EqExpr_create l r) eqn:E1; try discriminate. by eapply BCREATE_R_widths; exact E1.
Qed.

Lemma eval_bin_value rho k l r : isDiv k = false -> has_value rho l -> has_value rho r -> has_value rho (BinExpr k l r).
Proof. intros Hk [vl El] [vr Er]. unfold has_value. simpl. rewrite El, Er. simpl. destruct k; try discriminate Hk; simpl; eauto. Qed.

Lemma cex_bin k l r e : isDiv k = false -> wf l -> wf r -> cex_expr l -> cex_expr r ->
  bin_create k l r = Ok e -> cex_expr e.
Proof.
  intros Hk Wl Wr [Fl Vl] [Fr Vr] E. split.
  - pose proof (bin_create_light 1 1 0 foreign (fun _ => Nat.le_0_l _) (Nat.le_0_l _) Hopt k l r (or_introl Hk) e E).
    unfold flaws in *. lia.
  - intros rho Hr. destruct (eval_bin_value rho k l r Hk (Vl rho Hr) (Vr rho Hr)) as [v Ev].
    destruct (bin_create_builds k l r) as (e' & E' & _ & _ & Hv); [done|done|by eapply bin_create_widths|by apply not_div_ok|].
    rewrite E in E'. injection E' as ->. exists v. by apply Hv.
Qed.

#[local] Instance cex_supported : Supported :=
  {| supported := cex_expr; supported_const := fun c => conj eq_refl (fun rho _ => ex_intro _ (raw c) eq_refl);
     supported_bin := cex_bin |}.

(** What the weight rules out. *)
Lemma flawless_mut :
  (forall e, flaws e = 0%nat -> evaluable e = true /\ arrays_live (fun a => live a = true) e) /\
  (forall un, wt_node 1 1 0 foreign un = 0%nat -> evaluable_node un = true /\ node_live (fun a => live a = true) un).
Proof.
  unfold flaws. apply expr_node_ind; intros; cbn [wt wt_node evaluable evaluable_node arrays_live node_live] in *;
    rewrite ?Nat.max_0_l, ?Nat.eq_add_0 in *; rewrite ?andb_true_iff; destruct_and?; try done; try tauto.
  - unfold foreign in *. destruct (live root), (domain root <=? 32); try discriminate. simpl. tauto.
  - unfold zero_divisor in *. destruct (isDiv k && _); try discriminate. simpl. tauto.
Qed.

Lemma cex_edom e : wf e -> cex_expr e -> edom e.
Proof. intros He [Hf _]. split; [done|]. by apply flawless_mut in Hf as [? _]. Qed.
Lemma cex_live e : cex_expr e -> arrays_live (fun a => live a = true) e.
Proof. intros [Hf _]. by apply flawless_mut in Hf as [_ ?]. Qed.

(** The elements of the keys, and their order. *)
Definition key_expr (e : expr) : Prop := wf e /\ getWidth e = Bool /\ cex_expr e.

#[local] Instance key_laws : KeyLaws expr_KeyOrder key_expr.
Proof.
  assert (HT : forall a b c, key_expr a -> key_expr b -> key_expr c -> T (compare a b) (compare b c) (compare a c)).
  { intros a b c (Wa & _ & La%cex_live) (Wb & _ & Lb%cex_live) (Wc & _ & Lc%cex_live). by apply (compare_T _ Hlive). }
  split; cbn [klt keq expr_KeyOrder].
  - intros a b (Wa & _) (Wb & _). split; [by apply expr_eqb_eq|]. intros <-. unfold expr_eqb. by rewrite compare_refl.
  - intros a (Wa & _). unfold expr_ltb. by rewrite compare_refl.
  - intros a b c Ha Hb Hc. specialize (HT a b c Ha Hb Hc). unfold expr_ltb, T in *. rewrite !Z.ltb_lt. lia.
  - intros a b Ha Hb. pose proof (HT a b a Ha Hb Ha) as H. destruct Ha as (Wa & _), Hb as (Wb & _).
    rewrite (compare_refl a Wa) in H. unfold expr_ltb, T in *. rewrite !Z.ltb_ge. intros. apply expr_eqb_eq; [done..|].
    unfold expr_eqb. apply Z.eqb_eq. lia.
Qed.

(** ** Assignments *)

(** An index is never negative. *)
Definition clamped (rho : env) : env := fun a i => rho a (Z.max 0 i).

Lemma eval_clamped_mut rho :
  (forall e, wf e -> eval (clamped rho) e = eval rho e) /\
  (forall un root i, wf_node root un -> 0 <= i -> eval_node (clamped rho) root un i = eval_node rho root un i).
Proof.
  apply expr_node_ind; simpl; intros; destruct_and?;
    repeat match goal with H : wf ?e -> eval _ ?e = _, H' : wf ?e |- _ => rewrite (H H'); clear H end; try done.
  - destruct (eval rho index) as [i|] eqn:E; [|done]. simpl. apply H; [done|].
    match goal with H : wf index |- _ => destruct (eval_inw rho index i H E) end. done.
  - unfold initial, clamped. by rewrite Z.max_r.
  - match goal with IH : forall root i, wf_node root _ -> _ |- _ => by rewrite IH end.
Qed.
Lemma eval_clamped rho e : wf e -> eval (clamped rho) e = eval rho e.
Proof. apply (proj1 (eval_clamped_mut rho)). Qed.

Lemma syms_live_mut a :
  (forall e, arrays_live (fun a => live a = true) e -> a ∈ syms e -> live a = true /\ isSymbolicArray a = true) /\
  (forall un, node_live (fun a => live a = true) un -> a ∈ syms_node un -> live a = true /\ isSymbolicArray a = true).
Proof.
  apply expr_node_ind; simpl; intros; destruct_and?;
    repeat match goal with H : _ ∈ _ ++ _ |- _ => apply elem_of_app in H as [H|H] end;
    try (by apply not_elem_of_nil in H); try (by apply not_elem_of_nil in H0); auto.
  destruct (isSymbolicArray root) eqn:E; [|by apply not_elem_of_nil in H2]. apply list_elem_of_singleton in H2. by subst a.
Qed.

(** Whole live symbolic arrays, bound to bytes. *)
Definition entry_good (p : Array * list Z) : Prop :=
  live p.1 = true /\ isSymbolicArray p.1 = true /\ Forall (inw 8) p.2 /\ length p.2 = Z.to_nat (arr_size p.1).
Record good (b : Assignment) : Prop := {
  good_free : allowFreeValues b = false;
  good_entries : Forall entry_good (bindings b);
}.

Lemma good_bytes b : good b -> bytes_ok b.
Proof. intros [_ Hb]. unfold bytes_ok. eapply Forall_impl; [exact Hb|]. by intros p (_ & _ & ? & _). Qed.

Lemma bindings_find_elem b a v : bindings_find b a = Some v -> (a, v) ∈ b.
Proof.
  induction b as [|[k w] b IH]; simpl; [done|]. case_decide; [intros [= <-]; subst; left|]. intros H'. right. auto.
Qed.

Lemma good_find b a v : good b -> bindings_find (bindings b) a = Some v -> entry_good (a, v).
Proof. intros [_ Hb] E%bindings_find_elem. by eapply Forall_forall in Hb. Qed.

Lemma env_of_ok b : good b -> env_ok (env_of b).
Proof.
  intros Hb a i. unfold env_of, binds. destruct (bindings_find (bindings b) a) as [v|] eqn:E; [|simpl; split; [lia|done]].
  destruct (good_find b a v Hb E) as (_ & Hs & Hv & Hl). simpl in *. split.
  - destruct (v !! Z.to_nat i) as [x|] eqn:Ex; simpl; [|lia]. by apply (Forall_lookup_1 _ _ _ _ Hv Ex).
  - intros [Hn|Hn]; [congruence|]. rewrite lookup_ge_None_2; [done|lia].
Qed.

Lemma object_bytes_lookup rho a k : object_bytes rho a !! k =
  if decide (k < Z.to_nat (arr_size a))%nat then Some (wrap 8 (rho a (Z.of_nat k))) else None.
Proof.
  unfold object_bytes. rewrite list_lookup_fmap. case_decide.
  - by rewrite lookup_seq_lt.
  - by rewrite lookup_seq_ge by lia.
Qed.

(** What [computeInitialValues] returns for an array. *)
Lemma value_of_bytes b a : good b -> CexCaching.value_of b a = object_bytes (env_of b) a.
Proof.
  intros Hb. apply list_eq. intros k. rewrite object_bytes_lookup. unfold CexCaching.value_of, env_of, binds.
  destruct (bindings_find (bindings b) a) as [v|] eqn:E.
  - destruct (good_find b a v Hb E) as (_ & _ & Hv & Hl). simpl in *. rewrite Nat2Z.id. case_decide as Hd.
    + destruct (lookup_lt_is_Some_2 v k) as [x Hx]; [lia|]. rewrite Hx. simpl. f_equal. symmetry. apply wrap_small.
      by apply (Forall_lookup_1 _ _ _ _ Hv Hx).
    + apply lookup_ge_None_2. lia.
  - case_decide; [by apply lookup_replicate_2|]. apply lookup_ge_None_2. rewrite length_replicate. lia.
Qed.

(** *** A new assignment from the bytes of a solution *)
Section create.
Context (rho : env) (Hrho : env_ok rho).

Lemma bindings_insert_elem b a v p : p ∈ bindings_insert b a v -> p = (a, v) \/ p ∈ b.
Proof.
  induction b as [|[k w] b IH]; simpl; [by intros ->%list_elem_of_singleton; left|].
  case_decide; [by right|]. destruct (_ <? _); rewrite !elem_of_cons; [tauto|]. intros [H'|H'%IH]; tauto.
Qed.
Lemma bindings_insert_keys b a v c : c ∈ (bindings_insert b a v).*1 <-> c = a \/ c ∈ b.*1.
Proof.
  induction b as [|[k w] b IH]; simpl; [by rewrite list_elem_of_singleton, elem_of_nil; tauto|].
  case_decide; [subst; simpl; rewrite !elem_of_cons; tauto|]. destruct (_ <? _); simpl; rewrite !elem_of_cons; [tauto|]. rewrite IH. tauto.
Qed.

Definition bytes_of (p : Array * list Z) : Prop := p.2 = object_bytes rho p.1.

Lemma insert_all_ok objects : forall b, Forall bytes_of b ->
  exists b', insert_all b objects (map (object_bytes rho) objects) = Ok b' /\ Forall bytes_of b' /\
    forall c, c ∈ b'.*1 <-> c ∈ objects \/ c ∈ b.*1.
Proof.
  induction objects as [|o objects IH]; intros b Hb; simpl.
  { exists b. split; [done|]. split; [done|]. intros c. rewrite elem_of_nil. tauto. }
  destruct (IH (bindings_insert b o (object_bytes rho o))) as (b' & E & Hb' & Hk).
  { apply Forall_forall. intros p [->|Hp]%bindings_insert_elem; [done|]. by eapply Forall_forall in Hb. }
  exists b'. split; [done|]. split; [done|]. intros c. rewrite Hk, bindings_insert_keys, elem_of_cons. tauto.
Qed.

Lemma find_bytes b c : Forall bytes_of b ->
  bindings_find b c = if decide (c ∈ b.*1) then Some (object_bytes rho c) else None.
Proof.
  intros Hb. destruct (bindings_find b c) as [v|] eqn:E.
  - apply bindings_find_elem in E. rewrite decide_True by (by apply (list_elem_of_fmap_2 fst) in E).
    eapply Forall_forall in Hb; [|exact E]. by f_equal.
  - case_decide as Hc; [|done]. exfalso. clear Hb. induction b as [|[k w] b IH]; [by apply not_elem_of_nil in Hc|].
    simpl in E, Hc. case_decide; [done|]. apply elem_of_cons in Hc as [->|Hc]; [done|auto].
Qed.

Lemma object_bytes_ok a : Forall (inw 8) (object_bytes rho a) /\ length (object_bytes rho a) = Z.to_nat (arr_size a).
Proof.
  split; [|unfold object_bytes; by rewrite length_map, length_seq].
  apply Forall_lookup_2. intros k x. rewrite object_bytes_lookup. case_decide; [|done]. intros [= <-]. by apply wrap_inw.
Qed.

(** It agrees with the solution on the expressions over its arrays. *)
Lemma Assignment_create_ok objects :
  Forall (fun a => live a = true /\ isSymbolicArray a = true) objects ->
  returns (Assignment_create objects (map (object_bytes rho) objects) false)
    (fun b => good b /\ agree_on objects (clamped rho) (env_of b)).
Proof.
  intros Ho. destruct (insert_all_ok objects [] (Forall_nil_2 _)) as (b & E & Hb & Hk). unfold Assignment_create.
  rewrite E. cbn [mbind result_bind]. apply returns_ok. split.
  - split; [done|]. simpl. apply Forall_forall. intros [a v] Hp. pose proof Hp as Hv. eapply Forall_forall in Hv; [|exact Hb].
    unfold bytes_of in Hv. simpl in Hv. subst v. apply (list_elem_of_fmap_2 fst), Hk in Hp as [Hp|Hp%not_elem_of_nil]; [|done].
    eapply Forall_forall in Ho; [|exact Hp]. destruct Ho, (object_bytes_ok a). by split_and!.
  - intros a i Ha. unfold env_of, binds, clamped. simpl. rewrite (find_bytes b a Hb).
    destruct (Hrho a (Z.max 0 i)) as [Hr Hz]. case_decide as Hd; simpl.
    + rewrite object_bytes_lookup. case_decide; simpl.
      * replace (Z.of_nat (Z.to_nat i)) with (Z.max 0 i) by lia. symmetry. apply wrap_small. unfold inw. lia.
      * apply Hz. right. lia.
    + apply Hz. left. destruct Ha as [Ha|Ha]; [|done]. exfalso. apply Hd, Hk. by left.
Qed.
End create.

(** *** The memo table *)
Lemma bytes_ltb_total a b : bytes_ltb a b = false -> bytes_ltb b a = false -> a = b.
Proof.
  revert b. induction a as [|x a IH]; intros [|y b]; try done. simpl.
  destruct (Z.ltb_spec x y), (Z.ltb_spec y x); try done. intros. f_equal; [lia|auto].
Qed.
Lemma bindings_ltb_total a b : Forall entry_good a -> Forall entry_good b ->
  bindings_ltb a b = false -> bindings_ltb b a = false -> a = b.
Proof.
  intros Ha. revert b. induction Ha as [|[x v] a (Lx & _) Ha IH]; intros [|[y w] b] Hb; try done.
  inversion_clear Hb as [|? ? (Ly & _) Hb']. simpl in *. unfold entry_ltb. simpl.
  destruct (Z.ltb_spec (arr_addr x) (arr_addr y)), (Z.ltb_spec (arr_addr y) (arr_addr x)); try done.
  destruct (bytes_ltb v w) eqn:E1; [done|]. destruct (bytes_ltb w v) eqn:E2; [done|]. intros.
  f_equal; [f_equal; [apply Hlive; [done..|lia]|by apply bytes_ltb_total]|by apply IH].
Qed.

Lemma table_insert_ok x t : good x -> Forall good t ->
  Forall good (table_insert x t).1 /\ (table_insert x t).2 = x.
Proof.
  intros Hx Ht. induction Ht as [|y t Hy Ht [IH1 IH2]]; simpl; [by split; [constructor|]|].
  destruct (AssignmentLessThan y x) eqn:E1.
  { destruct (table_insert x t) as [t' r]. simpl in *. split; [by constructor|done]. }
  destruct (AssignmentLessThan x y) eqn:E2; [by split; [constructor; [|constructor]|]|]. split; [by constructor|]. simpl.
  destruct Hx as [Fx Gx], Hy as [Fy Gy]. pose proof (bindings_ltb_total _ _ Gy Gx E1 E2) as E.
  destruct x as [fx bx], y as [fy by_]. simpl in *. congruence.
Qed.

Lemma satisfies_ok b key : good b -> Forall key_expr key ->
  returns (satisfies b key) (fun s => s = true <-> Forall (true_under (env_of b)) key).
Proof.
  intros Hb Hk. eexists. split.
  - apply satisfies_loop_ok; [by apply good_bytes|apply Hb| |by split; [constructor|]].
    eapply Forall_impl; [exact Hk|]. intros e (We & Hw & Hc). split; [by apply cex_edom|]. split; [done|].
    destruct Hc as [_ Hc]. destruct (Hc (env_of b) (env_of_ok b Hb)) as [v Hv]. by exists v.
  - rewrite forallb_forall, List.Forall_forall.
    split; intros H x Hx; specialize (H x Hx); by apply bool_decide_eq_true in H || apply bool_decide_eq_true.
Qed.

(** ** The cache *)
Section cached.
Context {OPT : CexOptions} {St : Type} {SI : SolverImpl St} {inv : St -> Prop} {SS : SolverSpec SI inv}.

(** What an entry says about its key. *)
Definition result_ok (key : list expr) (r : option Assignment) : Prop :=
  match r with
  | None => forall rho, env_ok rho -> ~ Forall (true_under rho) key
  | Some b => good b /\ Forall (true_under (env_of b)) key
  end.

Record cex_inv (st : CexCaching.state St) : Prop := {
  ci_inner : inv (CexCaching.inner st);
  ci_trie : MOS.node_ok (P := key_expr) None (CexCaching.cache st);
  ci_holds s v : MOS.holds (CexCaching.cache st) s v -> result_ok s v;
  ci_table : Forall good (CexCaching.assignmentsTable st);
}.

Definition found_ok (key : list expr) (r : option (option Assignment)) : Prop :=
  match r with Some v => result_ok key v | None => True end.

Lemma Forall_sub {A} (Q : A -> Prop) (s t : list A) : s ⊆ t -> Forall Q t -> Forall Q s.
Proof. rewrite !Forall_forall. intros Hs Ht x Hx. by apply Ht, Hs. Qed.

Lemma sub_unsat s key : s ⊆ key -> result_ok s None -> result_ok key None.
Proof. intros Hs H rho Hr Hk. apply (H rho Hr). by eapply Forall_sub. Qed.

Lemma key_forall lo key : MOS.key_ok (P := key_expr) lo key -> Forall key_expr key.
Proof. intros Hk. apply Forall_forall. intros e He. by destruct (MOS.key_elem lo key e Hk He). Qed.

Lemma first_satisfying_ok key t : Forall key_expr key -> Forall good t ->
  returns (CexCaching.first_satisfying key t) (found_ok key).
Proof.
  intros Hk Ht. induction Ht as [|a t Ha Ht IH]; [by apply returns_ok|]. cbn [CexCaching.first_satisfying].
  eapply returns_bind; [by apply satisfies_ok|]. intros [] Hs; [|done]. apply returns_ok. split; [done|]. by apply Hs.
Qed.

Lemma searchForAssignment_ok key st : cex_inv st -> MOS.key_ok (P := key_expr) None key ->
  returns (CexCaching.searchForAssignment key st) (found_ok key).
Proof.
  intros [_ Ht Hh Htab] Hk. pose proof (key_forall _ _ Hk) as HP.
  unfold CexCaching.searchForAssignment, CexCaching.cache_find.
  destruct (MOS.lookup key _) as [r|] eqn:El.
  { apply returns_ok. apply Hh. by apply (MOS.lookup_holds key None _ r Ht HP). }
  pose proof (proj1 (MOS.findSuperset_ok NonNullAssignment) _ None None key Ht Hk) as Hsup.
  destruct (if CexCacheSuperSet then _ else None) as [r|] eqn:Es.
  { destruct CexCacheSuperSet; [|done]. rewrite Es in Hsup. destruct Hsup as (Hp & s & Hs & Hsub). apply returns_ok.
    apply Hh in Hs. destruct r as [b|]; [|done]. destruct Hs as [Hb Hs]. split; [done|]. by eapply Forall_sub. }
  destruct CexCacheTryAll.
  - pose proof (proj1 (MOS.findSubset_ok NullAssignment) _ None key Ht Hk) as Hsub.
    destruct (MOS.findSubset _ _ _) as [r|]; [|by apply first_satisfying_ok].
    destruct Hsub as (Hp & s & Hs & Hsub). apply returns_ok. apply Hh in Hs. destruct r; [done|]. by apply (sub_unsat s).
  - pose proof (proj1 (MOS.findSubset_ok (CexCaching.NullOrSatisfying key)) _ None key Ht Hk) as Hsub.
    destruct (MOS.findSubset _ _ _) as [r|]; [|by apply returns_ok].
    destruct Hsub as (Hp & s & Hs & Hsub). apply Hh in Hs. destruct r as [b|]; [|by apply returns_ok, (sub_unsat s)].
    destruct Hs as [Hb _]. destruct (satisfies_ok b key Hb HP) as (ok & E & Hok). unfold CexCaching.NullOrSatisfying in Hp.
    unfold CexCaching.NullOrSatisfying_result. rewrite E in *. apply returns_ok. split; [done|]. apply Hok. by destruct ok.
Qed.

(** The key of a query. *)
Definition key_for (q : Query) (key : list expr) : Prop := forall rho, env_ok rho ->
  Forall (true_under rho) key <-> Forall (true_under rho) (q_constraints q) /\ false_under rho (q_expr q).

(** A counterexample of the query, or a proof. *)
Definition cex_answer (q : Query) (r : option Assignment) : Prop :=
  match r with
  | None => valid q
  | Some b => good b /\ models q (env_of b) /\ false_under (env_of b) (q_expr q)
  end.

Lemma key_answer q key r : q_ok q -> getWidth (q_expr q) = Bool -> key_for q key -> result_ok key r -> cex_answer q r.
Proof.
  intros Hq Hw Hk. destruct r as [b|]; simpl.
  - intros [Hb Ht]. pose proof (env_of_ok b Hb) as He. apply (Hk _ He) in Ht as [Hc Hf]. by split_and!.
  - intros H rho Hm. destruct (bool_value rho (q_expr q)) as [?|Hf]; [apply Hq|done|by apply (qk_value _ Hq)|done|].
    destruct Hm as [He Hc]. exfalso. apply (H rho He), (Hk rho He). done.
Qed.

Lemma KeyType_of_ok cs : Forall key_expr cs ->
  MOS.key_ok (P := key_expr) None (KeyType_of cs) /\ forall e, e ∈ KeyType_of cs <-> e ∈ cs.
Proof.
  intros Hcs. unfold KeyType_of.
  assert (H : forall s, MOS.key_ok (P := key_expr) None s ->
    MOS.key_ok (P := key_expr) None (foldl (fun s c => MOS.set_insert c s) s cs) /\
    forall e, e ∈ foldl (fun s c => MOS.set_insert c s) s cs <-> e ∈ cs \/ e ∈ s).
  { induction Hcs as [|c cs Hc Hcs IH]; intros s Hs; simpl.
    - split; [done|]. intros e. rewrite elem_of_nil. tauto.
    - destruct (MOS.set_insert_ok c s None Hc I Hs) as [H1 H2]. destruct (IH _ H1) as [H3 H4]. split; [done|].
      intros e. rewrite H4, H2, elem_of_cons. tauto. }
  destruct (H [] I) as [H1 H2]. split; [done|]. intros e. rewrite H2, elem_of_nil. tauto.
Qed.

Lemma lookupAssignment_ok q st : cex_inv st -> q_ok q -> getWidth (q_expr q) = Bool ->
  returns (CexCaching.lookupAssignment q st) (fun p => match snd p with
    | Some v => cex_answer q v
    | None => MOS.key_ok (P := key_expr) None (fst p) /\ key_for q (fst p)
    end).
Proof.
  intros Hst Hq Hw. unfold CexCaching.lookupAssignment.
  destruct (negate_opposite q Hq Hw) as (nq & En & Hnq & Wn & Ho). unfold negateExpr in En.
  destruct (createIsZero (q_expr q)) as [neg| |]; try discriminate. injection En as <-. destruct Ho as [_ Ho]. simpl in Wn, Ho.
  pose proof (qk_wf _ Hnq) as Wneg. pose proof (qk_supported _ Hnq) as Sneg. simpl in Wneg, Sneg.
  destruct (KeyType_of_ok (q_constraints q) (qk_constraints _ Hq)) as [Hk Hin].
  assert (Hc : forall rho, Forall (true_under rho) (KeyType_of (q_constraints q)) <-> Forall (true_under rho) (q_constraints q)).
  { intros rho. rewrite !Forall_forall. by setoid_rewrite Hin. }
  assert (Hsearch : forall key, MOS.key_ok (P := key_expr) None key -> key_for q key ->
    returns (r ← CexCaching.searchForAssignment key st; Ok (key, r)) (fun p => match snd p with
      | Some v => cex_answer q v
      | None => MOS.key_ok (P := key_expr) None (fst p) /\ key_for q (fst p) end)).
  { intros key H1 H2. eapply returns_bind; [by apply searchForAssignment_ok|]. intros [v|] Hv; apply returns_ok; simpl; [|done].
    by apply (key_answer q key). }
  assert (Hneg : forall rho, env_ok rho -> Forall (true_under rho) (q_constraints q) -> true_under rho neg <-> false_under rho (q_expr q)).
  { intros rho He H. by apply Ho. }
  cbn [mbind result_bind].
  destruct neg as [c| | | | | | | | |]; try (apply Hsearch; [by apply MOS.set_insert_ok|]; intros rho He;
    destruct (MOS.set_insert_ok _ _ None (conj Wneg (conj Wn Sneg)) I Hk) as [_ Hi];
    rewrite <- (Hc rho), Forall_forall; setoid_rewrite Hi; rewrite Forall_forall;
    (split; [intros H; assert (H' : Forall (true_under rho) (q_constraints q)) by (apply Hc, Forall_forall; auto);
             split; [auto|apply (Hneg rho He H'); auto]
            |intros [H1 H2] e [->|He']; [|auto]; apply (Hneg rho He); [apply Hc; by apply Forall_forall|done]])).
  simpl in Wn. destruct (CE_isFalse c) eqn:Ec.
  - apply returns_ok. simpl. intros rho Hm. destruct (bool_value rho (q_expr q)) as [?|Hf]; [apply Hq|done|by apply (qk_value _ Hq)|done|].
    apply (Ho rho Hm) in Hf. unfold true_under in Hf. simpl in Hf. injection Hf as Hf.
    rewrite isFalse_eq, Hf in Ec by done. discriminate Ec.
  - apply Hsearch; [done|]. intros rho He. rewrite Hc. split; [|tauto]. intros H. split; [done|]. apply (Hneg rho He H).
    unfold true_under. simpl. f_equal. destruct (inw1_cases (raw c)) as [E|E]; [destruct Wneg as [_ Hi]; by rewrite Wn in Hi| |done].
    rewrite isFalse_eq, E in Ec by done. discriminate Ec.
Qed.

(** *** getAssignment *)
Lemma objects_ok key : Forall key_expr key ->
  returns (findSymbolicObjects key []) (fun objects =>
    Forall (fun a => live a = true /\ isSymbolicArray a = true) objects /\
    forall e a, e ∈ key -> a ∈ syms e -> a ∈ objects).
Proof.
  intros Hk. destruct (findSymbolicObjects_ok key []) as (new & E & _ & Hn).
  { eapply Forall_impl; [exact Hk|]. by intros e (We & _). }
  exists new. split; [done|]. split; [|intros e a He Ha; apply Hn; eauto].
  apply Forall_forall. intros a (e & He & Ha)%Hn. eapply Forall_forall in Hk as (_ & _ & Hl%cex_live); [|exact He].
  by apply (proj1 (syms_live_mut a) e).
Qed.

(** The assignment made from a solution satisfies the key. *)
Lemma new_binding_ok rho key objects b : env_ok rho -> Forall key_expr key -> Forall (true_under rho) key ->
  (forall e a, e ∈ key -> a ∈ syms e -> a ∈ objects) -> agree_on objects (clamped rho) (env_of b) ->
  Forall (true_under (env_of b)) key.
Proof.
  intros Hr Hk Ht Hs Ha. apply Forall_forall. intros e He. eapply Forall_forall in Ht; [|exact He].
  eapply Forall_forall in Hk as (We & _); [|exact He]. unfold true_under in *. rewrite <- Ht, <- (eval_clamped rho e We).
  symmetry. apply (proj1 (eval_agree_mut _ _)). eapply agree_on_sub; [|exact Ha]. eauto.
Qed.

Lemma check_binding_ok b key : good b -> Forall key_expr key -> Forall (true_under (env_of b)) key ->
  returns (CexCaching.check_binding b key) (fun _ => True).
Proof.
  intros Hb Hk Ht. unfold CexCaching.check_binding. destruct DebugCexCacheCheckBinding; [|by apply returns_ok].
  destruct (satisfies_ok b key Hb Hk) as (ok & -> & Hok). cbn [mbind result_bind]. rewrite (proj2 Hok Ht). by apply returns_ok.
Qed.

Lemma insert_inv st s key r table : cex_inv st -> inv s -> MOS.key_ok (P := key_expr) None key -> result_ok key r ->
  Forall good table ->
  cex_inv {| CexCaching.inner := s; CexCaching.cache := MOS.insert None key r (CexCaching.cache st);
             CexCaching.assignmentsTable := table |}.
Proof.
  intros [_ Ht Hh _] Hs Hk Hr Htab. split; simpl; [done|by apply MOS.insert_node_ok| |done].
  intros k v H. apply (MOS.insert_holds None key r None _ k v Ht Hk) in H as [[-> ->]|[_ H]]; [done|by apply Hh].
Qed.

Lemma getAssignment_ok q st : cex_inv st -> q_ok q -> getWidth (q_expr q) = Bool ->
  answers cex_inv (fun r => match r with Some v => cex_answer q v | None => True end) (CexCaching.getAssignment q st).
Proof.
  intros Hst Hq Hw. unfold CexCaching.getAssignment. eapply returns_bind; [by apply lookupAssignment_ok|].
  intros [key [v|]] Hv; simpl in Hv; [by apply returns_ok|]. destruct Hv as [Hk Hkf]. pose proof (key_forall _ _ Hk) as HP.
  eapply returns_bind; [by apply objects_ok|]. intros objects [Ho Hs].
  eapply returns_bind; [apply (computeInitialValues_spec q objects _ (ci_inner _ Hst) Hq Hw)|].
  intros [[[values has]|] s] [Hr Hsi]; cbn [fst snd] in Hr, Hsi; [|by apply returns_ok; split; [|destruct Hst; split]].
  destruct has; cbn [initial_answer] in Hr.
  - destruct Hr as (rho & [Hrho Hc] & Hf & ->). pose proof (proj2 (Hkf rho Hrho) (conj Hc Hf)) as Hkey.
    eapply returns_bind.
    { eapply returns_bind; [by apply (Assignment_create_ok rho Hrho)|]. intros b [Hb Ha].
      pose proof (new_binding_ok rho key objects b Hrho HP Hkey Hs Ha) as Hbk.
      pose proof (table_insert_ok b (CexCaching.assignmentsTable st) Hb (ci_table _ Hst)) as [Ht Hbb].
      cbn [CexCaching.assignmentsTable]. destruct (table_insert b _) as [table b']. simpl in Ht, Hbb. subst b'.
      eapply returns_bind; [by apply check_binding_ok|]. intros _ _.
      apply (returns_ok _ (fun p => result_ok key (fst p) /\ Forall good (snd p))). simpl. tauto. }
    intros [r table] [Hr Ht]. apply returns_ok. split; [by apply (key_answer q key)|]. by apply (insert_inv st).
  - cbn [mbind result_bind]. apply returns_ok. split; [done|]. apply (insert_inv st); try done; [|apply Hst].
    intros rho Hrho H. apply (Hkf rho Hrho) in H as [Hc Hf]. apply (not_both rho (q_expr q)); [|done]. by apply Hr.
Qed.

(** *** The operations *)
Lemma withFalse_ok q : q_ok q -> q_ok (withFalse q) /\ getWidth (q_expr (withFalse q)) = Bool /\
  forall rho, models (withFalse q) rho <-> models q rho.
Proof.
  intros Hq. assert (Hc : apok (ConstantExpr_alloc 0 Bool)) by (apply alloc_apok; [done|by apply inw_0]).
  split; [|split; [|by intros]].
  2: { simpl. rewrite alloc_eq by (done || by apply inw_0). done. }
  apply withExpr_ok; [done|exact Hc|apply supported_const|]. intros rho _. by eexists.
Qed.

(** An assignment for the constraints alone. *)
Lemma some_assignment q st : cex_inv st -> q_ok q -> satisfiable q ->
  answers cex_inv (fun r => match r with Some (Some b) => good b /\ models q (env_of b) | Some None => False | None => True end)
    (CexCaching.getAssignment (withFalse q) st).
Proof.
  intros Hst Hq [rho Hm]. destruct (withFalse_ok q Hq) as (Hf & Wf & Em).
  eapply returns_weaken; [by apply getAssignment_ok|]. intros [[[b|]|] st'] [Hr Hst']; cbn [fst snd cex_answer] in *; split; try done.
  - destruct Hr as (Hb & Hr & _). split; [done|]. by apply Em.
  - specialize (Hr rho (proj2 (Em rho) Hm)). unfold true_under in Hr. simpl in Hr.
    rewrite alloc_eq in Hr by (done || by apply inw_0). discriminate Hr.
Qed.

Lemma evaluate_const_ok q b : q_ok q -> good b -> models q (env_of b) ->
  returns (CexCaching.evaluate_const (Some b) (q_expr q)) (fun c =>
    apok c /\ bw c = getWidth (q_expr q) /\ eval (env_of b) (q_expr q) = Some (raw c)).
Proof.
  intros Hq Hb Hm. pose proof (qk_wf _ Hq) as We. destruct (qk_value _ Hq _ Hm) as [v Hv].
  unfold CexCaching.evaluate_const. eapply returns_bind.
  { apply Assignment_evaluate_ok; [by apply good_bytes|]. apply cex_edom; [done|apply (qk_supported _ Hq)]. }
  intros r Hr. rewrite (evaluates_value b (q_expr q) r v (good_free _ Hb) Hr Hv). apply returns_ok. simpl. split_and!; try done.
  pose proof (eval_inw _ _ _ We Hv). split; [by apply wf_width|done].
Qed.

Lemma cex_truth_ok q st : cex_inv st -> q_ok q -> getWidth (q_expr q) = Bool ->
  answers cex_inv (truth_answer q) (CexCaching.truth q st).
Proof.
  intros Hst Hq Hw. unfold CexCaching.truth. eapply (returns_bind _ _ (fun _ => True)).
  { destruct CexCacheExperimental; [|by apply returns_ok]. eapply returns_bind; [by apply negate_opposite|].
    intros nq (Hnq & Wn & _). eapply returns_bind; [by apply lookupAssignment_ok|]. intros [k f] _. by apply returns_ok. }
  intros [] _; [by apply returns_ok|]. eapply returns_bind; [by apply getAssignment_ok|].
  intros [[[b|]|] st'] [Hr Hst']; apply returns_ok; (split; [|done]); simpl in *; [|done|done].
  destruct Hr as (_ & Hm & Hf). by exists (env_of b).
Qed.

Lemma cex_validity_ok q st : cex_inv st -> q_ok q -> satisfiable q -> getWidth (q_expr q) = Bool ->
  answers cex_inv (validity_answer q) (CexCaching.validity q st).
Proof.
  intros Hst Hq Hsat Hw. unfold CexCaching.validity. eapply returns_bind; [by apply some_assignment|].
  intros [[[b|]|] st1] [Hr Hst1]; cbn [fst snd] in *; [|done|by apply returns_ok]. destruct Hr as [Hb Hm].
  eapply returns_bind; [by apply evaluate_const_ok|]. intros c (Wc & Bc & Ec). rewrite isTrue_eq by congruence.
  destruct (Z.eqb_spec (raw c) 1) as [E|E].
  - eapply returns_bind; [by apply getAssignment_ok|]. intros [[[b'|]|] st2] [Hr' Hst2]; apply returns_ok; (split; [|done]); simpl in *; [|done|done].
    destruct Hr' as (_ & Hm' & Hf'). split; [exists (env_of b); split; [done|]; unfold true_under; by rewrite Ec, E|by exists (env_of b')].
  - assert (Hf : false_under (env_of b) (q_expr q)).
    { destruct Wc as [_ Wc]. rewrite Bc, Hw in Wc. destruct (inw1_cases _ Wc) as [E'|]; [|done]. unfold false_under. by rewrite Ec, E'. }
    eapply returns_bind; [by apply negate_opposite|]. intros nq (Hnq & Wn & Ho).
    eapply returns_bind; [by apply getAssignment_ok|]. intros [[[b'|]|] st2] [Hr' Hst2]; apply returns_ok; (split; [|done]); simpl in *; [| |done].
    + destruct Hr' as (_ & Hm' & Hf'). apply (opposite_models q nq _ Ho) in Hm'. split; [exists (env_of b'); split; [done|]; by apply Ho|by exists (env_of b)].
    + intros rho Hrho. apply Ho; [done|]. apply Hr'. by apply (opposite_models q nq).
Qed.

Lemma CexCaching_keeps : SolverSpec (CexCaching.impl SI) cex_inv.
Proof.
  split; cbn [computeTruth computeValidity computeValue computeInitialValues CexCaching.impl].
  - intros. by apply cex_truth_ok.
  - intros. by apply cex_validity_ok.
  - intros q st Hst Hq Hsat. unfold CexCaching.value. eapply returns_bind; [by apply some_assignment|].
    intros [[[b|]|] st1] [Hr Hst1]; cbn [fst snd] in *; [|done|by apply returns_ok]. destruct Hr as [Hb Hm].
    eapply returns_bind; [by apply evaluate_const_ok|]. intros c (Wc & Bc & Ec). apply returns_ok. split; [|done].
    exists c. split_and!; [done|done|done|]. by exists (env_of b).
  - intros q objects st Hst Hq Hw. unfold CexCaching.initial_values. eapply returns_bind; [by apply getAssignment_ok|].
    intros [[[b|]|] st1] [Hr Hst1]; apply returns_ok; (split; [|done]); simpl in *; [|done|done].
    destruct Hr as (Hb & Hm & Hf). exists (env_of b). split_and!; [done|done|]. apply map_ext. intros a. by apply value_of_bytes.
Qed.

Lemma CexCaching_starts s : inv s -> cex_inv (CexCaching.initial s).
Proof. intros Hs. split; [done|done| |constructor]. intros k v H. by apply MOS.holds_new in H. Qed.
End cached.
End supported.

(** ** The claims *)

(** A session: queries asked one after the other through [Solver::evaluate]. *)
Fixpoint ask_all {AP : APIntOps} {CFG : Config} {St : Type} {SI : SolverImpl St} (qs : list Query) (s : St)
    : result (list (option Validity) * St) :=
  match qs with
  | [] => Ok ([], s)
  | q :: qs' =>
      '(r, s) ← evaluate q s;
      '(rs, s) ← ask_all qs' s;
      Ok (r :: rs, s)
  end.

Lemma ask_all_ok {AP : APIntOps} {SP : APIntSpec AP} {CFG : Config} {SUP : Supported} {St : Type} (SI : SolverImpl St)
    (inv : St -> Prop) (SS : SolverSpec SI inv) qs : forall s, inv s ->
  Forall (fun q => q_ok q /\ satisfiable q /\ getWidth (q_expr q) = Bool) qs ->
  answers inv (Forall2 validity_answer qs) (ask_all qs s).
Proof.
  induction qs as [|q qs IH]; intros s Hs Hqs; cbn [ask_all]; [by apply returns_ok|].
  inversion_clear Hqs as [|? ? (Hq & Hsat & Hw) Hqs']. eapply returns_bind; [by apply evaluate_ok|].
  intros [r s1] [Hr Hs1]. eapply returns_bind; [by apply IH|]. intros [rs s2] [Hrs Hs2]. apply returns_ok.
  by split; [constructor|].
Qed.

(** C28. [CexCachingSolver]: for every choice of its options and over any implementation
    that keeps the laws, the counterexample cache starts with an invariant (each cached
    assignment satisfies its key, each key cached as null has no solution, the memo
    table holds well-formed assignments) which every call keeps and under which every
    answer is right: found by an exact lookup, taken from a superset or from an
    unsatisfiable subset, from another query's assignment that happens to satisfy
    the key, or asked for. *)
Theorem cex_caching_correct {AP : APIntOps} {SP : APIntSpec AP} {CFG : Config} {OPT : CexOptions} (live : Array -> bool)
    (Hlive : forall a b, live a = true -> live b = true -> arr_addr a = arr_addr b -> a = b)
    (Hopt : ConstArrayOpt = false) {St : Type} (SI : SolverImpl St) (inv : St -> Prop) :
  @SolverSpec AP CFG (cex_supported live Hopt) St SI inv ->
  (forall s, inv s -> cex_inv live (inv := inv) (CexCaching.initial s)) /\
  @SolverSpec AP CFG (cex_supported live Hopt) _ (CexCaching.impl SI) (cex_inv live (inv := inv)).
Proof.
  intros HS. split; [intros s Hs; by apply CexCaching_starts|]. by apply CexCaching_keeps.
Qed.

(** C31. The layers compose: over any lawful core solver, the counterexample cache
    below the query cache, both empty at the start, answers every query of a session
    rightly, whatever the earlier queries have left in the caches. *)
Theorem solver_chain_session {AP : APIntOps} {SP : APIntSpec AP} {CFG : Config} {OPT : CexOptions} (live : Array -> bool)
    (Hlive : forall a b, live a = true -> live b = true -> arr_addr a = arr_addr b -> a = b)
    (Hopt : ConstArrayOpt = false) {St : Type} (core : SolverImpl St) (inv : St -> Prop) (s : St) (qs : list Query) :
  @SolverSpec AP CFG (cex_supported live Hopt) St core inv -> inv s ->
  Forall (fun q => q_ok (SUP := cex_supported live Hopt) q /\ satisfiable q /\ getWidth (q_expr q) = Bool) qs ->
  returns (ask_all (SI := Caching.impl (CexCaching.impl core)) qs (CexCaching.initial s, []))
    (fun p => Forall2 validity_answer qs (fst p)).
Proof.
  intros HS Hs Hqs.
  eapply returns_weaken.
  - eapply (ask_all_ok (SUP := cex_supported live Hopt) _ (cache_inv (inv := cex_inv live (inv := inv)))).
    + unshelve eapply Caching_keeps. by apply CexCaching_keeps.
    + split; [by apply CexCaching_starts|constructor].
    + exact Hqs.
  - by intros p [H _].
Qed.

(** *** Witnesses *)
Definition live_buf (a : Array) : bool := bool_decide (a = buf).
Lemma live_buf_inj a b : live_buf a = true -> live_buf b = true -> arr_addr a = arr_addr b -> a = b.
Proof. unfold live_buf. rewrite !bool_decide_eq_true. congruence. Qed.

Definition every_option : CexOptions :=
  {| DebugCexCacheCheckBinding := true; CexCacheTryAll := true; CexCacheSuperSet := true; CexCacheExperimental := false |}.

Lemma flag_cex : cex_expr (CFG := default_config) live_buf flag /\ cex_expr (CFG := default_config) live_buf first_is_1.
Proof. split; (split; [by vm_compute|]); intros rho _; unfold has_value; simpl; eauto. Qed.

Lemma sample_cex_ok : q_ok (SUP := @cex_supported ZOps ZOps_spec default_config live_buf eq_refl) (sample_query flag).
Proof.
  destruct flag_cex as [H1 H2]. constructor; [|concrete|exact H1|intros rho _; apply flag_value].
  constructor; [|constructor]. split_and!; [concrete|reflexivity|exact H2].
Qed.

Lemma cex_caching_correct_witness :
  exists inv, @SolverSpec ZOps default_config (@cex_supported ZOps ZOps_spec default_config live_buf eq_refl) _
    (@CexCaching.impl ZOps default_config every_option unit (@Oracle.impl ZOps default_config)) inv /\
    inv (CexCaching.initial tt).
Proof.
  destruct (@cex_caching_correct ZOps ZOps_spec default_config every_option live_buf live_buf_inj eq_refl unit
    (@Oracle.impl ZOps default_config) (fun _ => True) (@Oracle.spec ZOps ZOps_spec default_config _)) as [H1 H2].
  eexists. split; [exact H2|]. by apply H1.
Defined.

Lemma solver_chain_session_witness :
  returns (@ask_all ZOps default_config _ (@Caching.impl ZOps default_config _
      (@CexCaching.impl ZOps default_config every_option unit (@Oracle.impl ZOps default_config)))
      [sample_query flag; sample_query flag] (CexCaching.initial tt, []))
    (fun p => Forall2 (@validity_answer default_config) [sample_query flag; sample_query flag] (fst p)).
Proof.
  apply (@solver_chain_session ZOps ZOps_spec default_config every_option live_buf live_buf_inj eq_refl unit
    (@Oracle.impl ZOps default_config) (fun _ => True) tt).
  - apply Oracle.spec.
  - exact I.
  - assert (H : q_ok (SUP := @cex_supported ZOps ZOps_spec default_config live_buf eq_refl) (sample_query flag) /\
      @satisfiable default_config (sample_query flag) /\ getWidth (q_expr (sample_query flag)) = Bool).
    { split; [apply sample_cex_ok|]. split; [exists ones; apply sample_models|reflexivity]. }
    constructor; [exact H|]. constructor; [exact H|constructor].
Defined.
