(* ===== verification/ValidatingSolver.v ===== *)
(** * ValidatingSolver: solvers checked against another one

    Models [klee/lib/Solver/ValidatingSolver.cpp], which compares the answers of a solver
    with those of an oracle, and [klee/lib/Solver/AssignmentValidatingSolver.cpp], which
    evaluates the query under the solution a solver returns.  Both end the process when
    a check fails.  What they are for is shown without any assumption on the solver that
    is checked; that they do not disturb a correct one, with it. *)

From S2P Require Import Prelude APInt ExprData Samples Bits ExprCompare ExprCreate ExprCreateSound ExprStructSound ExprVisitor ExprEvaluator UnionFind ExprUtil ExprWeight Rewriters Constraints ConstraintsSound Solver MapOfSets SolverChain CexCaching.
Local Open Scope Z_scope.

#[export] Instance Validity_eq_dec : EqDecision Validity.
Proof. solve_decision. Defined.

Module Validating.
Section validating.
Context {AP : APIntOps} {CFG : Config} {St1 St2 : Type} {solver : SolverImpl St1} {oracle : SolverImpl St2}.
Abbreviation state := (St1 * St2)%type.

(** Two answers to one question. *)
Definition compared {A} `{EqDecision A} (a : St1 -> result (option A * St1)) (b : St2 -> result (option A * St2)) (s : state)
    : result (option A * state) :=
  '(result, s1) ← a (fst s);
  match result with
  | None => Ok (None, (s1, snd s))
  | Some result =>
      '(answer, s2) ← b (snd s);
      match answer with
      | None => Ok (None, (s1, s2))
      | Some answer => if decide (result = answer) then Ok (Some result, (s1, s2)) else AssertFail
      end
  end.

Definition truth (q : Query) : state -> result (option bool * state) :=
  compared (@computeTruth _ solver q) (@computeTruth _ oracle q).
Definition validity (q : Query) : state -> result (option Validity * state) :=
  compared (@computeValidity _ solver q) (@computeValidity _ oracle q).

(** A result is kept if the oracle gives the expected answer to the question. *)
Definition checked {A} (q : Query) (expected : bool) (r : A) (s1 : St1) (s2 : St2) : result (option A * state) :=
  '(answer, s2) ← @computeTruth _ oracle q s2;
  match answer with
  | None => Ok (None, (s1, s2))
  | Some answer => if Bool.eqb answer expected then Ok (Some r, (s1, s2)) else AssertFail
  end.

Definition value (q : Query) (s : state) : result (option expr * state) :=
  '(r, s1) ← @computeValue _ solver q (fst s);
  match r with
  | None => Ok (None, (s1, snd s))
  | Some r => ne ← bin_create Kind.Ne (q_expr q) r; checked (withExpr q ne) false r s1 (snd s)
  end.

(** The conjunction of the negated expression and the constraints. *)
Fixpoint conjoin (e : expr) (cs : list expr) : result expr :=
  match cs with [] => Ok e | c :: cs => e ← bin_create Kind.And e c; conjoin e cs end.

Definition initial_values (q : Query) (objects : list Array) (s : state) : result (option (list (list Z) * bool) * state) :=
  '(r, s1) ← @computeInitialValues _ solver q objects (fst s);
  match r with
  | None => Ok (None, (s1, snd s))
  | Some (values, true) =>
      bindings ← createConstraintsFromAssignment_loop (zip objects values);
      z ← createIsZero (q_expr q);
      constraints ← conjoin z (q_constraints q);
      checked {| q_constraints := bindings; q_expr := constraints |} true (values, true) s1 (snd s)
  | Some (values, false) => checked q true (values, false) s1 (snd s)
  end.

#[export] Instance impl : SolverImpl state := {|
  computeTruth := truth; computeValidity := validity; computeValue := value; computeInitialValues := initial_values |}.
End validating.
End Validating.

Module AssignmentValidating.
Section validating.
Context {AP : APIntOps} {CFG : Config} {St : Type} {solver : SolverImpl St}.

(** An expression under the solution: it must be a constant. *)
Definition evaluated (a : Assignment) (e : expr) : result apint :=
  r ← Assignment_evaluate a e; match r with ConstantExpr c => Ok c | _ => AssertFail end.
Fixpoint satisfied (a : Assignment) (cs : list expr) : result unit :=
  match cs with
  | [] => Ok tt
  | c :: cs => CE ← evaluated a c; if CE_isFalse CE then AssertFail else satisfied a cs
  end.
(** After a failed call [hasSolution] may not have been set; it is taken to be false. *)
Definition initial_values (q : Query) (objects : list Array) (s : St) : result (option (list (list Z) * bool) * St) :=
  '(r, s) ← computeInitialValues q objects s;
  match r with
  | Some (values, true) =>
      a ← Assignment_create objects values true;
      _ ← satisfied a (q_constraints q);
      CE ← evaluated a (q_expr q);
      if CE_isTrue CE then AssertFail else Ok (Some (values, true), s)
  | _ => Ok (r, s)
  end.
#[export] Instance impl : SolverImpl St := {|
  computeTruth := computeTruth; computeValidity := computeValidity; computeValue := computeValue; computeInitialValues := initial_values |}.
End validating.
End AssignmentValidating.

(** ** Answers that passed a check *)
Section meaning.
Context {AP : APIntOps} {SP : APIntSpec AP} {CFG : Config} {SUP : Supported}.

(** Answers to one query do not contradict each other. *)
Lemma truth_agree q a b : truth_answer q (Some a) -> truth_answer q (Some b) -> a = b.
Proof.
  destruct a, b; try done; simpl; [intros Hv (rho & Hm & Hf)|intros (rho & Hm & Hf) Hv]; exfalso; eapply not_both; [by apply Hv|done|by apply Hv|done].
Qed.

Lemma validity_agree q a b : satisfiable q -> validity_answer q (Some a) -> validity_answer q (Some b) -> a = b.
Proof.
  intros [rho Hm].
  assert (H1 : valid q -> refuted q -> False) by (intros Hv Hr; exact (not_both rho _ (Hv rho Hm) (Hr rho Hm))).
  assert (H2 : valid q -> may_fail q -> False) by (intros Hv (r & Hr & Hf); exact (not_both r _ (Hv r Hr) Hf)).
  assert (H3 : refuted q -> may_hold q -> False) by (intros Hv (r & Hr & Hf); exact (not_both r _ Hf (Hv r Hr))).
  destruct a, b; try done; simpl; intros; destruct_and?; exfalso; eauto.
Qed.

(** Queries whose parts always have a value, for solvers that support all expressions. *)
Record total_query (q : Query) : Prop := {
  tq_ok : q_ok q;
  tq_value rho : has_value rho (q_expr q);
  tq_values : Forall (fun c => forall rho, has_value rho c) (q_constraints q);
  tq_supported e : wf e -> supported e;
}.

(** The question for the value of an expression. *)
Lemma ne_query q r : total_query q -> wf r -> getWidth r = getWidth (q_expr q) -> (forall rho, has_value rho r) ->
  returns (bin_create Kind.Ne (q_expr q) r) (fun ne => q_ok (withExpr q ne) /\ getWidth ne = Bool /\
    forall rho v w, eval rho (q_expr q) = Some v -> eval rho r = Some w -> eval rho ne = Some (Z.b2z (negb (v =? w)))).
Proof.
  intros Hq Hr Hw Hv. destruct (bin_create_builds Kind.Ne (q_expr q) r) as (ne & E & Wn & Gn & Rn); [apply (tq_ok _ Hq)|done|done|by apply not_div_ok|].
  exists ne. split; [done|]. assert (Hev : forall rho v w, eval rho (q_expr q) = Some v -> eval rho r = Some w -> eval rho ne = Some (Z.b2z (negb (v =? w)))).
  { intros rho v w H1 H2. apply Rn. simpl. by rewrite H1, H2. }
  split_and!; [|done|done]. apply withExpr_ok; [apply Hq|done|by apply (tq_supported _ Hq)|].
  intros rho _. destruct (tq_value _ Hq rho) as [v H1], (Hv rho) as [w H2]. eexists. by apply Hev.
Qed.

(** The conjunction of conditions that have a value. *)
Lemma conjoin_ok cs : forall e, wf e -> getWidth e = Bool -> (forall rho, has_value rho e) ->
  Forall (fun c => wf c /\ getWidth c = Bool /\ forall rho, has_value rho c) cs ->
  returns (Validating.conjoin e cs) (fun r => wf r /\ getWidth r = Bool /\ (forall rho, has_value rho r) /\
    forall rho, true_under rho r <-> true_under rho e /\ Forall (true_under rho) cs).
Proof.
  induction cs as [|c cs IH]; intros e He Ge Ve Hcs; cbn [Validating.conjoin].
  { apply returns_ok. split_and!; try done. intros rho. split; [by intros ?|by intros []]. }
  apply Forall_cons in Hcs as [(Hc & Gc & Vc) Hcs].
  destruct (bin_create_builds Kind.And e c) as (a & E & Wa & Ga & Ra); [done|done|congruence|by apply not_div_ok|]. rewrite E. cbn [mbind result_bind].
  assert (Hev : forall rho v w, eval rho e = Some v -> eval rho c = Some w -> eval rho a = Some (Z.land v w)).
  { intros rho v w H1 H2. apply Ra. simpl. by rewrite H1, H2. }
  eapply returns_weaken; [apply IH; try done; [simpl in Ga; congruence|]|].
  { intros rho. destruct (Ve rho) as [v H1], (Vc rho) as [w H2]. eexists. by apply Hev. }
  intros r (Wr & Gr & Vr & Hr). split_and!; try done. intros rho. rewrite Hr, Forall_cons.
  destruct (bool_value rho e He Ge (Ve rho)) as [H1|H1], (bool_value rho c Hc Gc (Vc rho)) as [H2|H2];
    pose proof (Hev rho _ _ H1 H2) as H3; unfold true_under, false_under in *; rewrite H1, H2, H3; simpl; naive_solver.
Qed.

(** The question for a solution: the bindings, and the negated query. *)
Lemma solution_query q bindings : total_query q -> getWidth (q_expr q) = Bool -> Forall (fun c => wf c /\ getWidth c = Bool) bindings ->
  returns (z ← createIsZero (q_expr q); Validating.conjoin z (q_constraints q)) (fun r =>
    q_ok {| q_constraints := bindings; q_expr := r |} /\ getWidth r = Bool /\
    forall rho, true_under rho r <-> false_under rho (q_expr q) /\ Forall (true_under rho) (q_constraints q)).
Proof.
  intros Hq Gq Hb. pose proof (tq_ok _ Hq) as Hok. pose proof (qk_wf _ Hok) as We.
  destruct (createIsZero_notb (q_expr q) We Gq) as (z & Ez & Wz & Gz & Rz). rewrite Ez. cbn [mbind result_bind].
  assert (Hz : forall rho v, eval rho (q_expr q) = Some v -> eval rho z = Some (Z.b2z (v =? 0))) by (intros rho v Hv; apply Rz; simpl; by rewrite Hv).
  eapply returns_weaken; [apply (conjoin_ok (q_constraints q) z); try done|].
  - intros rho. destruct (tq_value _ Hq rho) as [v Hv]. eexists. by apply Hz.
  - pose proof (qk_constraints _ Hok) as Hc. pose proof (tq_values _ Hq) as Hv. rewrite Forall_forall in Hc, Hv. apply Forall_forall.
    intros c Hin. destruct (Hc c Hin) as (? & ? & _). split_and!; auto.
  - intros r (Wr & Gr & Vr & Hr). split_and!; [|done|].
    + constructor; cbn [q_constraints q_expr]; [|done|by apply (tq_supported _ Hq)|by intros]. eapply Forall_impl; [exact Hb|].
      intros c [? ?]. split_and!; try done. by apply (tq_supported _ Hq).
    + intros rho. rewrite Hr. destruct (bool_value rho _ We Gq (tq_value _ Hq rho)) as [H1|H1]; pose proof (Hz rho _ H1) as H2;
        unfold true_under, false_under in *; rewrite H1, H2; simpl; naive_solver.
Qed.
End meaning.

(** ** Solutions as environments *)
Section solutions.
Context {AP : APIntOps} {SP : APIntSpec AP} {CFG : Config} {SUP : Supported}.

(** Distinct byte arrays, and values of their sizes. *)
Definition objects_ok (objects : list Array) : Prop :=
  NoDup objects /\ Forall (fun a => wf_array a /\ isSymbolicArray a = true /\ range a = Int8) objects.
Definition shaped (objects : list Array) (values : list (list Z)) : Prop :=
  Forall2 (fun o v => Z.of_nat (length v) = arr_size o /\ Forall (inw 8) v) objects values.

Lemma bytes_shaped rho objects : objects_ok objects -> shaped objects (map (object_bytes rho) objects).
Proof.
  intros [_ Ho]. induction Ho as [|o objects (Wo & _ & _) Ho IH]; [constructor|]. constructor; [|done].
  destruct (object_bytes_ok rho o) as [H1 H2]. split; [|done]. rewrite H2. destruct Wo as (_ & _ & ? & _). lia.
Qed.

(** The bindings hold exactly where the objects have the values. *)
Lemma bindings_pin objects values : objects_ok objects -> shaped objects values ->
  returns (createConstraintsFromAssignment_loop (zip objects values)) (fun cs => Forall (fun c => wf c /\ getWidth c = Bool) cs /\
    forall rho, Forall (true_under rho) cs <-> values = map (object_bytes rho) objects).
Proof.
  intros [_ Ho] Hs. eapply returns_weaken.
  { apply createConstraints_ok. revert Ho. induction Hs as [|o v objects values [Hl Hv] Hs IH]; [constructor|].
    intros [(Wo & So & Ro) Ho]%Forall_cons. constructor; [|by apply IH]. cbn. split; [exact Wo|]. split; [done|]. split; [done|]. split; [done|lia]. }
  intros cs [Hcs Hp]. split; [done|]. intros rho. unfold true_under. rewrite Hp. clear Hcs Hp cs Ho.
  induction Hs as [|o v objects values [Hl Hv] Hs IH]; [done|]. cbn [zip zip_with map]. rewrite Forall_cons, IH. cbn [fst snd]. split.
  - intros [H1 ->]. f_equal. apply list_eq. intros k. rewrite object_bytes_lookup. case_decide as Hk.
    + destruct (lookup_lt_is_Some_2 v k) as [x Hx]; [lia|]. rewrite Hx. f_equal. symmetry. apply (H1 k x); [lia|done].
    + apply lookup_ge_None. lia.
  - intros [= -> ->]. split; [|done]. intros k x Hk. rewrite object_bytes_lookup. case_decide; [|done]. by intros [= <-].
Qed.

(** The environment of the values. *)
Definition solution (objects : list Array) (values : list (list Z)) : env := fun a i =>
  default 0 (v ← bindings_find (zip objects values) a; if 0 <=? i then v !! Z.to_nat i else None).

Lemma zip_find objects values o v : NoDup objects -> shaped objects values -> (o, v) ∈ zip objects values -> bindings_find (zip objects values) o = Some v.
Proof.
  intros Hn Hs. revert Hn. induction Hs as [|o' v' objects values _ Hs IH]; [by intros _ ?%elem_of_nil|].
  intros [Hni Hn]%NoDup_cons. cbn [zip zip_with bindings_find]. intros [[= -> ->]|Hin]%elem_of_cons; [by rewrite decide_True|].
  rewrite decide_False; [auto|]. intros ->. apply Hni. by apply elem_of_zip_l in Hin.
Qed.

Lemma solution_ok objects values : objects_ok objects -> shaped objects values -> env_ok (solution objects values).
Proof.
  intros [Hn Ho] Hs a i. unfold solution. destruct (bindings_find (zip objects values) a) as [v|] eqn:E; cbn; [|done].
  apply bindings_find_elem in E. assert (Ha : a ∈ objects) by (by apply elem_of_zip_l in E).
  assert (Hav : Z.of_nat (length v) = arr_size a /\ Forall (inw 8) v).
  { clear Ho Hn Ha. induction Hs as [|o w objects values Hw Hs IH]; [by apply elem_of_nil in E|].
    cbn [zip zip_with] in E. apply elem_of_cons in E as [[= -> ->]|E]; [done|auto]. }
  destruct Hav as [Hl Hv]. rewrite Forall_forall in Ho. destruct (Ho a Ha) as (_ & Sa & _).
  destruct (Z.leb_spec 0 i); [|done]. destruct (v !! Z.to_nat i) as [x|] eqn:Ex; cbn; [|done]. split.
  - apply (Forall_lookup_1 _ _ _ _ Hv) in Ex. unfold inw in Ex. simpl in Ex. lia.
  - apply lookup_lt_Some in Ex. intros [?|?]; [congruence|lia].
Qed.

Lemma solution_values objects values : objects_ok objects -> shaped objects values -> values = map (object_bytes (solution objects values)) objects.
Proof.
  intros [Hn _] Hs. assert (Hall : forall o v, (o, v) ∈ zip objects values -> v = object_bytes (solution objects values) o).
  { intros o v Hin. pose proof (zip_find objects values o v Hn Hs Hin) as Hf.
    assert (Hl : Z.of_nat (length v) = arr_size o /\ Forall (inw 8) v).
    { clear Hf Hn. induction Hs as [|o' w objects values Hw Hs IH]; [by apply elem_of_nil in Hin|].
      cbn [zip zip_with] in Hin. apply elem_of_cons in Hin as [[= -> ->]|Hin]; [done|auto]. }
    destruct Hl as [Hl Hv]. apply list_eq. intros k. rewrite object_bytes_lookup. unfold solution. rewrite Hf. cbn.
    destruct (Z.leb_spec 0 (Z.of_nat k)); [|lia]. rewrite Nat2Z.id. case_decide as Hk.
    - destruct (lookup_lt_is_Some_2 v k) as [x Hx]; [lia|]. rewrite Hx. cbn. f_equal. symmetry. apply wrap_small. by eapply Forall_lookup_1.
    - apply lookup_ge_None. lia. }
  clear Hn. revert Hall. generalize (solution objects values) as rho. intros rho Hall.
  induction Hs as [|o v objects values _ Hs IH]; [done|]. cbn [map]. f_equal; [apply Hall; left|]. apply IH. intros o' v' Hin. apply Hall. by right.
Qed.

(** Solutions that agree on the objects agree on the query. *)
Lemma same_bytes rho rho' objects e : env_ok rho -> env_ok rho' -> map (object_bytes rho) objects = map (object_bytes rho') objects ->
  wf e -> (forall a, a ∈ syms e -> a ∈ objects) -> eval rho e = eval rho' e.
Proof.
  intros Hr Hr' E He Hs. rewrite <- (eval_clamped rho e He), <- (eval_clamped rho' e He). apply (proj1 (eval_agree_mut _ _)).
  intros a i Ha. unfold clamped. destruct (Hr a (Z.max 0 i)) as [H1 H2], (Hr' a (Z.max 0 i)) as [H3 H4].
  destruct Ha as [Ha%Hs|Ha]; [|rewrite H2, H4 by auto; done]. destruct (Z.le_gt_cases (arr_size a) (Z.max 0 i)); [rewrite H2, H4 by auto; done|].
  assert (Eb : object_bytes rho a = object_bytes rho' a).
  { clear -E Ha. induction objects as [|o objects IH]; [by apply elem_of_nil in Ha|]. injection E as E1 E2. apply elem_of_cons in Ha as [->|Ha]; auto. }
  assert (El : object_bytes rho a !! Z.to_nat (Z.max 0 i) = object_bytes rho' a !! Z.to_nat (Z.max 0 i)) by congruence.
  rewrite !object_bytes_lookup in El. case_decide; [|lia]. injection El as El. rewrite Z2Nat.id in El by lia.
  rewrite !wrap_small in El by (unfold inw; simpl; lia). done.
Qed.
End solutions.

(** ** ValidatingSolver *)
Section validated.
Context {AP : APIntOps} {SP : APIntSpec AP} {CFG : Config} {SUP : Supported} {St1 St2 : Type} {solver : SolverImpl St1} {oracle : SolverImpl St2}.
Context {inv2 : St2 -> Prop} {SS2 : SolverSpec oracle inv2}.

(** What is returned is right, whatever the solver that is checked answered. *)
Definition sound {A} (P : A -> Prop) (m : result (option A * (St1 * St2))) : Prop :=
  match m with Ok (Some r, s) => P r /\ inv2 (snd s) | Ok (None, s) => inv2 (snd s) | _ => True end.

Lemma compared_sound {A} `{EqDecision A} (a : St1 -> result (option A * St1)) (b : St2 -> result (option A * St2)) (P : option A -> Prop) s :
  inv2 (snd s) -> answers inv2 P (b (snd s)) -> sound (fun r => P (Some r)) (Validating.compared a b s).
Proof.
  intros Hs ([r s2] & Eb & Hr & Hs2). unfold Validating.compared. destruct (a (fst s)) as [[[x|] s1]| |]; try done. cbn [mbind result_bind]. rewrite Eb.
  cbn [mbind result_bind fst snd] in *. destruct r as [y|]; [|done]. case_decide; [subst; by split|done].
Qed.

Lemma checked_sound {A} q expected (r : A) (P : A -> Prop) s1 s2 : inv2 s2 -> q_ok q -> satisfiable q -> getWidth (q_expr q) = Bool ->
  (truth_answer q (Some expected) -> P r) -> sound P (Validating.checked q expected r s1 s2).
Proof.
  intros Hs Hq Hsat Hw HP. unfold Validating.checked. destruct (computeTruth_spec q s2 Hs Hq Hsat Hw) as ([a s2'] & -> & Ha & Hs2). cbn [mbind result_bind fst snd] in *.
  destruct a as [a|]; [|done]. destruct (Bool.eqb_spec a expected) as [->|]; [|done]. split; [by apply HP|done].
Qed.

(** The values a solver returns are of the right shape; what they are is checked. *)
Definition typed_value (q : Query) (s1 : St1) : Prop := forall r s',
  @computeValue _ solver q s1 = Ok (Some r, s') -> wf r /\ getWidth r = getWidth (q_expr q) /\ forall rho, has_value rho r.
Definition typed_initial (q : Query) (objects : list Array) (s1 : St1) : Prop := forall values s',
  @computeInitialValues _ solver q objects s1 = Ok (Some (values, true), s') -> shaped objects values.

Lemma value_sound q s : total_query q -> satisfiable q -> inv2 (snd s) -> typed_value q (fst s) ->
  sound (fun r => exists rho, models q rho /\ eval rho r = eval rho (q_expr q)) (Validating.value q s).
Proof.
  intros Hq [rho0 Hm0] Hs Ht. unfold Validating.value. destruct (@computeValue _ solver q (fst s)) as [[[r|] s1]| |] eqn:Er; try done.
  cbn [mbind result_bind]. destruct (Ht r s1 Er) as (Wr & Gr & Vr). destruct (ne_query q r Hq Wr Gr Vr) as (ne & -> & Hne & Gne & Rne). cbn [mbind result_bind].
  apply checked_sound; try done; [by exists rho0|]. intros (rho & Hm & Hf). exists rho. split; [exact Hm|]. unfold false_under in Hf. cbn [withExpr q_expr] in Hf.
  destruct (tq_value _ Hq rho) as [v H1], (Vr rho) as [w H2]. rewrite (Rne rho v w H1 H2) in Hf. rewrite H1, H2. destruct (Z.eqb_spec v w); [congruence|discriminate Hf].
Qed.

Lemma initial_sound q objects s : total_query q -> satisfiable q -> getWidth (q_expr q) = Bool -> objects_ok objects -> inv2 (snd s) -> typed_initial q objects (fst s) ->
  sound (fun r => initial_answer q objects (Some r)) (Validating.initial_values q objects s).
Proof.
  intros Hq Hsat Gq Ho Hs Ht. unfold Validating.initial_values. destruct (@computeInitialValues _ solver q objects (fst s)) as [[[[values []]|] s1]| |] eqn:Er; try done; cbn [mbind result_bind].
  - pose proof (Ht values s1 Er) as Hsh. destruct (bindings_pin objects values Ho Hsh) as (bs & -> & Hbs & Hpin). cbn [mbind result_bind].
    destruct (solution_query q bs Hq Gq Hbs) as (c & Ec & Hc & Gc & Rc). destruct (createIsZero (q_expr q)) as [z| |]; try discriminate Ec. cbn [mbind result_bind] in *.
    rewrite Ec. cbn [mbind result_bind].
    assert (Hm : models {| q_constraints := bs; q_expr := c |} (solution objects values)).
    { split; [by apply solution_ok|]. apply Hpin. by apply solution_values. }
    apply checked_sound; try done; [by exists (solution objects values)|]. intros Hv. specialize (Hv _ Hm). apply Rc in Hv as [H1 H2].
    exists (solution objects values). split; [split; [apply Hm|done]|]. split; [done|]. by apply solution_values.
  - apply checked_sound; try done. apply Hq.
Qed.
End validated.

(** A correct solver is not disturbed. *)
Section transparent.
Context {AP : APIntOps} {SP : APIntSpec AP} {CFG : Config} {SUP : Supported} {St1 St2 : Type} {solver : SolverImpl St1} {oracle : SolverImpl St2}.
Context {inv1 : St1 -> Prop} {inv2 : St2 -> Prop} {SS1 : SolverSpec solver inv1} {SS2 : SolverSpec oracle inv2}.
Definition both (s : St1 * St2) : Prop := inv1 (fst s) /\ inv2 (snd s).

Lemma compared_ok {A} `{EqDecision A} (a : St1 -> result (option A * St1)) (b : St2 -> result (option A * St2)) (P : option A -> Prop) s :
  both s -> P None -> answers inv1 P (a (fst s)) -> answers inv2 P (b (snd s)) -> (forall x y, P (Some x) -> P (Some y) -> x = y) ->
  answers both P (Validating.compared a b s).
Proof.
  intros [Hs1 Hs2] HN ([r s1] & Ea & Hr & Hi1) ([r' s2] & Eb & Hr' & Hi2) Hag. unfold Validating.compared. rewrite Ea. cbn [mbind result_bind fst snd] in *.
  destruct r as [x|]; [|apply returns_ok; by split]. rewrite Eb. cbn [mbind result_bind]. destruct r' as [y|]; [|apply returns_ok; by split].
  rewrite decide_True by (by apply Hag). apply returns_ok. by split.
Qed.

Lemma checked_ok {A} q expected (r : A) (P : option A -> Prop) s1 s2 : inv1 s1 -> inv2 s2 -> q_ok q -> satisfiable q -> getWidth (q_expr q) = Bool ->
  P None -> P (Some r) -> (forall b, truth_answer q (Some b) -> b = expected) -> answers both P (Validating.checked q expected r s1 s2).
Proof.
  intros H1 H2 Hq Hsat Hw HN HP Hex. unfold Validating.checked. destruct (computeTruth_spec q s2 H2 Hq Hsat Hw) as ([a s2'] & -> & Ha & Hs2). cbn [mbind result_bind fst snd] in *.
  destruct a as [a|]; [|apply returns_ok; by split]. rewrite (Hex a Ha), Bool.eqb_reflx. apply returns_ok. by split.
Qed.

Lemma value_ok q s : total_query q -> satisfiable q -> both s -> answers both (value_answer q) (Validating.value q s).
Proof.
  intros Hq Hsat [H1 H2]. unfold Validating.value. destruct (computeValue_spec q (fst s) H1 (tq_ok _ Hq) Hsat) as ([r s1] & -> & Hr & Hi). cbn [mbind result_bind fst snd] in *.
  destruct r as [r|]; [|apply returns_ok; by split]. pose proof Hr as (c & -> & Hc & Wc & rho & Hm & Hv).
  destruct (ne_query q (ConstantExpr c) Hq Hc Wc) as (ne & -> & Hne & Gne & Rne); [intros; by eexists|]. cbn [mbind result_bind].
  apply checked_ok; try done. intros [] Hb; [|done]. exfalso. specialize (Hb rho Hm). unfold true_under in Hb. cbn [withExpr q_expr] in Hb.
  rewrite (Rne rho _ _ Hv eq_refl), Z.eqb_refl in Hb. discriminate Hb.
Qed.

(** For the objects to determine the query, they are all its arrays. *)
Definition covers (q : Query) (objects : list Array) : Prop :=
  (forall a, a ∈ syms (q_expr q) -> a ∈ objects) /\ Forall (fun c => forall a, a ∈ syms c -> a ∈ objects) (q_constraints q).

Lemma initial_ok q objects s : total_query q -> satisfiable q -> getWidth (q_expr q) = Bool -> objects_ok objects -> covers q objects -> both s ->
  answers both (initial_answer q objects) (Validating.initial_values q objects s).
Proof.
  intros Hq Hsat Gq Ho [Hce Hcc] [H1 H2]. unfold Validating.initial_values.
  destruct (computeInitialValues_spec q objects (fst s) H1 (tq_ok _ Hq) Gq) as ([r s1] & -> & Hr & Hi). cbn [mbind result_bind fst snd] in *.
  destruct r as [[values []]|]; [| |apply returns_ok; by split].
  - pose proof Hr as (rho & [Hrho Hc] & Hf & ->). pose proof (bytes_shaped rho objects Ho) as Hsh.
    destruct (bindings_pin objects _ Ho Hsh) as (bs & -> & Hbs & Hpin). cbn [mbind result_bind].
    destruct (solution_query q bs Hq Gq Hbs) as (c & Ec & Hcq & Gc & Rc). destruct (createIsZero (q_expr q)) as [z| |]; try discriminate Ec. cbn [mbind result_bind] in *.
    rewrite Ec. cbn [mbind result_bind]. apply checked_ok; try done; [exists rho; split; [done|by apply Hpin]|].
    intros [] Hb; [done|]. exfalso. destruct Hb as (rho' & [Hrho' Hm'] & Hf'). apply Hpin in Hm'. apply (not_both rho' c); [|done]. apply Rc.
    assert (Hsame : forall e, wf e -> (forall a, a ∈ syms e -> a ∈ objects) -> eval rho' e = eval rho e) by (intros e; by apply (same_bytes rho' rho objects)).
    split; [unfold false_under; rewrite Hsame; [done|apply (tq_ok _ Hq)|done]|]. pose proof (qk_constraints _ (tq_ok _ Hq)) as Hk. rewrite Forall_forall in Hk, Hcc, Hc |- *.
    intros x Hx. unfold true_under. rewrite Hsame; [by apply Hc|by apply Hk|by apply Hcc].
  - apply checked_ok; try done; [apply Hq|]. intros [] Hb; [done|]. exfalso. destruct Hb as (rho & Hm & Hf). exact (not_both rho _ (Hr rho Hm) Hf).
Qed.
End transparent.

(** ** Theorem *)

(** C12. [ValidatingSolver] returns only right answers, whatever the solver it checks
    answers, as long as the oracle is right; and if that solver is right too, it is not
    disturbed: the process does not end and the answers are right ones.  Both hold of
    [computeValue] for an expression of any width, and of [computeTruth],
    [computeValidity] and [computeInitialValues] for a condition.  Assumed of the query:
    it is satisfiable and its parts have a value under every assignment (no division by
    zero), and the oracle supports every expression.  Assumed of the checked solver in the
    first part: values have the width of the expression, initial values the sizes of the
    objects.  Assumed for [computeInitialValues]: the objects are different symbolic byte
    arrays, and, for the second part only, they are all the arrays of the query
    ([covers]).  Callers that ask for fewer ([CVAssignment::solveForBindings]) are not
    covered: there a right solution trips the assertion ([subset_trips] below). *)
Theorem validating_solver_correct {AP : APIntOps} {SP : APIntSpec AP} {CFG : Config} {SUP : Supported} {St1 St2 : Type}
    {solver : SolverImpl St1} {oracle : SolverImpl St2} {inv2 : St2 -> Prop} {SS2 : SolverSpec oracle inv2} q s :
  total_query q -> satisfiable q -> inv2 (snd s) ->
  (typed_value (solver := solver) q (fst s) ->
    sound (inv2 := inv2) (fun r => exists rho, models q rho /\ eval rho r = eval rho (q_expr q)) (Validating.value q s)) /\
  (getWidth (q_expr q) = Bool ->
    sound (inv2 := inv2) (fun b => truth_answer q (Some b)) (Validating.truth q s) /\
    sound (inv2 := inv2) (fun v => validity_answer q (Some v)) (Validating.validity q s) /\
    forall objects, objects_ok objects -> typed_initial (solver := solver) q objects (fst s) ->
      sound (inv2 := inv2) (fun r => initial_answer q objects (Some r)) (Validating.initial_values q objects s)) /\
  (forall inv1 : St1 -> Prop, SolverSpec solver inv1 -> inv1 (fst s) ->
    answers (both (inv1 := inv1) (inv2 := inv2)) (value_answer q) (Validating.value q s) /\
    (getWidth (q_expr q) = Bool ->
      answers (both (inv1 := inv1) (inv2 := inv2)) (truth_answer q) (Validating.truth q s) /\
      answers (both (inv1 := inv1) (inv2 := inv2)) (validity_answer q) (Validating.validity q s) /\
      forall objects, objects_ok objects -> covers q objects ->
        answers (both (inv1 := inv1) (inv2 := inv2)) (initial_answer q objects) (Validating.initial_values q objects s))).
Proof.
  intros Hq Hsat H2. pose proof (tq_ok _ Hq) as Hok. split; [intros Ht; by apply value_sound|]. split.
  - intros Gq. split; [|split].
    + apply (compared_sound _ _ (truth_answer q)); [done|by apply computeTruth_spec].
    + apply (compared_sound _ _ (validity_answer q)); [done|by apply computeValidity_spec].
    + intros objects Ho Ht. by apply initial_sound.
  - intros inv1 SS1 H1. split; [by apply value_ok|]. intros Gq. split; [|split].
    + apply (compared_ok _ _ (truth_answer q)); [done|done|by apply computeTruth_spec|by apply computeTruth_spec|apply truth_agree].
    + apply (compared_ok _ _ (validity_answer q)); [done|done|by apply computeValidity_spec|by apply computeValidity_spec|by intros x y; apply validity_agree].
    + intros objects Ho Hc. by apply initial_ok.
Qed.

(** ** Sample *)
Module SampleValidated.
#[local] Existing Instances ZOps ZOps_spec default_config everything.
Definition cell0 : expr := ReadExpr buf NullNode (cst Int32 0).
Definition is_one : expr := BinExpr Kind.Eq (cst Int8 1) cell0.
Definition sample : Query := {| q_constraints := [is_one]; q_expr := is_one |}.

Lemma is_one_value rho : has_value rho is_one.
Proof.
  assert (E : eval rho cell0 = Some (wrap 8 (rho buf 0))) by done. exists (Z.b2z (1 =? wrap 8 (rho buf 0))). unfold is_one. cbn [eval]. by rewrite E.
Qed.

Lemma sample_total : total_query sample.
Proof.
  split; [split|apply is_one_value|repeat constructor; apply is_one_value|done]; cbn.
  - constructor; [|constructor]. split_and!; try done. concrete.
  - concrete.
  - done.
  - intros rho _. apply is_one_value.
Qed.

(** A query over an array that is not among the objects: the check asks whether the
    constraint holds for every content of that array, so a right solution is rejected. *)
Definition subset : Query := {| q_constraints := [is_one]; q_expr := cst Bool 0 |}.
Definition zeros : env := fun _ _ => 0.

Lemma is_one_may_fail : may_fail {| q_constraints := []; q_expr := is_one |}.
Proof. exists zeros. split; [|by vm_compute]. split; [|constructor]. intros a i. unfold zeros. split; [lia|done]. Qed.

Lemma subset_trips {St1 St2 : Type} {solver : SolverImpl St1} {oracle : SolverImpl St2} {inv2 : St2 -> Prop} {SS2 : SolverSpec oracle inv2} s values s1 :
  inv2 (snd s) -> @computeInitialValues _ solver subset [] (fst s) = Ok (Some (values, true), s1) ->
  (forall q s2 s2', @computeTruth _ oracle q s2 <> Ok (None, s2')) ->
  initial_answer subset [] (Some ([], true)) /\ Validating.initial_values subset [] s = AssertFail.
Proof.
  intros H2 E Hans. split.
  { exists ones. split; [split; [apply ones_ok|repeat constructor]|]. split; by vm_compute. }
  unfold Validating.initial_values. rewrite E. cbn [mbind result_bind]. change (zip [] values) with (@nil (Array * list Z)).
  cbn [createConstraintsFromAssignment_loop mbind result_bind].
  assert (Ec : (z ← createIsZero (q_expr subset); Validating.conjoin z (q_constraints subset)) = Ok is_one) by (by vm_compute).
  destruct (createIsZero (q_expr subset)) as [z| |]; try discriminate Ec. cbn [mbind result_bind] in *. rewrite Ec. cbn [mbind result_bind].
  unfold Validating.checked. destruct (computeTruth_spec {| q_constraints := []; q_expr := is_one |} (snd s) H2) as ([a s2] & Et & Ha & _); [| |done|].
  - destruct (tq_ok _ sample_total) as [_ ? ? _]. constructor; [constructor|done|done|]. intros rho _. apply is_one_value.
  - exists ones. split; [apply ones_ok|constructor].
  - rewrite Et. cbn [mbind result_bind].
    destruct a as [[]|]; [|done|by apply Hans in Et]. exfalso. destruct is_one_may_fail as (rho & Hm & Hf). exact (not_both rho _ (Ha rho Hm) Hf).
Qed.

Lemma buf_objects : objects_ok [buf].
Proof. split; [apply NoDup_singleton|]. repeat constructor; try done; apply (bool_decide_unpack _); by vm_compute. Qed.
Lemma sample_covers : covers sample [buf].
Proof. split; [|constructor; [|constructor]]; intros a Ha; vm_compute in Ha; exact Ha. Qed.
End SampleValidated.

Lemma validating_solver_correct_witness :
  exists r s', @Validating.truth unit unit (@Oracle.impl ZOps default_config) (@Oracle.impl ZOps default_config) SampleValidated.sample (tt, tt) = Ok (r, s') /\ r <> Some false.
Proof.
  destruct (@validating_solver_correct ZOps ZOps_spec default_config everything unit unit (@Oracle.impl ZOps default_config) (@Oracle.impl ZOps default_config)
    (fun _ => True) (@Oracle.spec ZOps ZOps_spec default_config everything) SampleValidated.sample (tt, tt)) as (_ & _ & H).
  - exact SampleValidated.sample_total.
  - exists ones. split; [apply ones_ok|]. repeat constructor.
  - exact I.
  - destruct (H (fun _ => True) (@Oracle.spec ZOps ZOps_spec default_config everything) I) as [_ Hb]. destruct (Hb eq_refl) as [Ht Hi].
    destruct Hi as [_ Hi]. pose proof (Hi [buf] SampleValidated.buf_objects SampleValidated.sample_covers) as _.
    destruct Ht as ([r s'] & E & Hr & _). exists r, s'. split; [exact E|]. intros Er. cbn [fst] in Hr. rewrite Er in Hr. destruct Hr as (rho & [_ Hm] & Hf).
    apply Forall_cons in Hm as [Hm _]. exact (not_both rho _ Hm Hf).
Defined.

(** ** AssignmentValidatingSolver *)
Section assignment_validated.
Context {AP : APIntOps} {SP : APIntSpec AP} {CFG : Config} {SUP : Supported} {St : Type} {solver : SolverImpl St}.

Lemma bindings_insert_find b a v c : a ∉ b.*1 -> bindings_find (bindings_insert b a v) c = if decide (c = a) then Some v else bindings_find b c.
Proof.
  induction b as [|[k w] b IH]; cbn [bindings_insert bindings_find fmap list_fmap].
  { intros _. repeat case_decide; congruence. }
  intros [Hk Hn]%not_elem_of_cons. cbn [fst] in Hk. rewrite decide_False by congruence. destruct (arr_addr a <? arr_addr k); cbn [bindings_find].
  - repeat case_decide; congruence.
  - rewrite IH by done. repeat case_decide; congruence.
Qed.

Lemma insert_all_find objects values : NoDup objects -> shaped objects values -> forall b, (forall o, o ∈ objects -> o ∉ b.*1) ->
  exists b', insert_all b objects values = Ok b' /\ (forall p, p ∈ b' -> p ∈ zip objects values \/ p ∈ b) /\
    forall c, bindings_find b' c = match bindings_find (zip objects values) c with Some v => Some v | None => bindings_find b c end.
Proof.
  intros Hn Hs. revert Hn. induction Hs as [|o v objects values _ Hs IH]; intros Hn b Hb; cbn [insert_all zip zip_with bindings_find].
  { exists b. split; [done|]. split; [by right|done]. }
  apply NoDup_cons in Hn as [Hno Hn]. destruct (IH Hn (bindings_insert b o v)) as (b' & E & Hp & Hf).
  { intros x Hx Hin. apply (bindings_insert_keys b o v x) in Hin as [->|Hin]; [done|]. apply (Hb x); [by right|done]. }
  exists b'. split; [done|]. split.
  { intros p [H|H%bindings_insert_elem]%Hp; [left; by right|]. destruct H as [->|H]; [left; left|by right]. }
  intros c. rewrite Hf, bindings_insert_find by (apply Hb; left). destruct (bindings_find (zip objects values) c) as [w|] eqn:Ew.
  - case_decide as Eo; [|done]. subst c. apply bindings_find_elem, elem_of_zip_l in Ew. done.
  - repeat case_decide; congruence.
Qed.

Lemma zip_shaped objects values o v : shaped objects values -> (o, v) ∈ zip objects values -> Forall (inw 8) v.
Proof.
  induction 1 as [|o' w objects values [_ Hw] Hs IH]; [by intros ?%elem_of_nil|]. cbn [zip zip_with]. intros [[= -> ->]|H]%elem_of_cons; [done|auto].
Qed.

Lemma created_adm objects values : objects_ok objects -> shaped objects values ->
  exists a, Assignment_create objects values true = Ok a /\ bytes_ok a /\ adm a (solution objects values).
Proof.
  intros [Hn Ho] Hs. unfold Assignment_create. destruct (insert_all_find objects values Hn Hs []) as (b & E & Hp & Hf); [by intros ? _ ?%elem_of_nil|].
  rewrite E. cbn [mbind result_bind]. eexists. split; [reflexivity|]. split.
  - apply Forall_forall. intros [o v] [H|H%elem_of_nil]%Hp; [|done]. by eapply zip_shaped.
  - intros arr i Hi. unfold binds. cbn [bindings]. destruct (bindings_find b arr) as [v|] eqn:Ev; cbn; [|done].
    destruct (v !! Z.to_nat i) as [x|] eqn:Ex; [|done]. unfold solution. rewrite Hf in Ev.
    destruct (bindings_find (zip objects values) arr) as [w|]; [|discriminate Ev]. injection Ev as ->. cbn. destruct (Z.leb_spec 0 i); [|lia]. by rewrite Ex.
Qed.

(** A constant that a condition evaluates to is its value. *)
Lemma evaluated_value a rho e : bytes_ok a -> adm a rho -> edom e -> getWidth e = Bool -> has_value rho e ->
  match AssignmentValidating.evaluated a e with
  | Ok c => (CE_isFalse c = false <-> true_under rho e) /\ (CE_isTrue c = false <-> false_under rho e)
  | _ => True
  end.
Proof.
  intros Hb Ha He Gw [v Hv]. unfold AssignmentValidating.evaluated. destruct (Assignment_evaluate_ok a e Hb He) as (r & -> & [(Wr & Gr & Hr) _]). cbn [mbind result_bind].
  destruct r as [c| | | | | | | | |]; try done. specialize (Hr rho v Ha Hv). cbn in Hr. injection Hr as Hr. cbn in Gr. pose proof Wr as [_ Hi]. rewrite Gr, Gw in Hi.
  rewrite isTrue_eq, isFalse_eq by (exact Wr || congruence). unfold true_under, false_under. rewrite Hv, <- Hr. destruct (inw1_cases _ Hi) as [-> | ->]; simpl; naive_solver.
Qed.

(** Whatever the solver answers, a solution that is returned satisfies the constraints and
    falsifies the expression. *)
Lemma assignment_validated q objects s values s' : total_query q -> edom (q_expr q) -> Forall edom (q_constraints q) -> getWidth (q_expr q) = Bool ->
  objects_ok objects -> (forall s'', @computeInitialValues _ solver q objects s = Ok (Some (values, true), s'') -> shaped objects values) ->
  AssignmentValidating.initial_values q objects s = Ok (Some (values, true), s') -> initial_answer q objects (Some (values, true)).
Proof.
  intros Hq He Hcs Gq Ho Hsh. unfold AssignmentValidating.initial_values. destruct (@computeInitialValues _ solver q objects s) as [[r s1]| |] eqn:Er; try done. cbn [mbind result_bind].
  destruct r as [[vs []]|]; [| done|done]. intros E. assert (vs = values) as ->.
  { destruct (Assignment_create objects vs true) as [a| |]; try done. cbn [mbind result_bind] in E. destruct (AssignmentValidating.satisfied _ _); try done. cbn [mbind result_bind] in E.
    destruct (AssignmentValidating.evaluated _ _) as [c| |]; try done. cbn [mbind result_bind] in E. destruct (CE_isTrue c); congruence. }
  specialize (Hsh s1 eq_refl). destruct (created_adm objects values Ho Hsh) as (a & Ea & Hb & Hadm). rewrite Ea in E. cbn [mbind result_bind] in E.
  set (rho := solution objects values) in *. exists rho. assert (Hval : forall x, edom x -> getWidth x = Bool -> (forall rho, has_value rho x) -> _) by (intros x Hx Gx Vx; exact (evaluated_value a rho x Hb Hadm Hx Gx (Vx rho))).
  destruct (AssignmentValidating.satisfied a (q_constraints q)) as [[]| |] eqn:Es; try done. cbn [mbind result_bind] in E.
  pose proof (Hval (q_expr q) He Gq (tq_value _ Hq)) as Hqe. destruct (AssignmentValidating.evaluated a (q_expr q)) as [c| |]; try done. cbn [mbind result_bind] in E.
  destruct (CE_isTrue c) eqn:Ec; [done|]. split; [split; [by apply solution_ok|]|split; [by apply Hqe|by apply solution_values]].
  pose proof (qk_constraints _ (tq_ok _ Hq)) as Hk. pose proof (tq_values _ Hq) as Hv. clear -Es Hk Hv Hcs Hval.
  induction (q_constraints q) as [|x cs IH]; [constructor|]. apply Forall_cons in Hk as [(Wx & Gx & _) Hk], Hv as [Vx Hv], Hcs as [Ex Hcs].
  cbn [AssignmentValidating.satisfied] in Es. pose proof (Hval x Ex Gx Vx) as Hx. destruct (AssignmentValidating.evaluated a x) as [c| |]; try done. cbn [mbind result_bind] in Es.
  destruct (CE_isFalse c) eqn:Ec; [done|]. constructor; [by apply Hx|auto].
Qed.
End assignment_validated.
