(* ===== verification/IndependentSolver.v ===== *)
(** * IndependentSolver: the constraints a query depends on

    Models [klee/lib/Solver/IndependentSolver.cpp].  The layer passes on only the
    constraints that share array cells with the expression of the query, found either by
    a closure over sets of cells ([IndependentElementSet]) or in the union-find manager
    of the path condition.  A [std::set] or [std::map] is the sequence of its entries in
    order; an [unordered_set] is iterated in an order that is a parameter.  Reading a
    vector out of range fails.  [getAllIndependentConstraintsSets], which nothing calls,
    printing and timing are left out. *)

From stdpp Require Import pretty.
From S2P Require Import Prelude APInt ExprData Samples Bits ExprCompare ExprCreate ExprCreateSound ExprStructSound ExprVisitor ExprEvaluator UnionFind ExprUtil Solver.
Local Open Scope Z_scope.

(** ** DenseSet<unsigned> *)
Abbreviation DenseSet := (list Z).
Fixpoint ds_insert (x : Z) (s : DenseSet) : DenseSet :=
  match s with
  | [] => [x]
  | y :: s' => if x =? y then s else if x <? y then x :: s else y :: ds_insert x s'
  end.
Definition ds_mem (x : Z) (s : DenseSet) : bool := existsb (Z.eqb x) s.
(** [bool add(const DenseSet &b)] *)
Fixpoint ds_add (s b : DenseSet) (modified : bool) : DenseSet * bool :=
  match b with
  | [] => (s, modified)
  | x :: b' => if modified || ds_mem x s then ds_add (ds_insert x s) b' true else ds_add s b' modified
  end.
Definition ds_intersects (s b : DenseSet) : bool := existsb (fun x => ds_mem x b) s.

(** ** IndependentElementSet *)
Record IndependentElementSet := {
  elements : list (Array * DenseSet);
  wholeObjects : list Array;
  exprs : list expr;
}.
Fixpoint whole_insert (a : Array) (s : list Array) : list Array :=
  match s with
  | [] => [a]
  | b :: s' => if decide (a = b) then s else if arr_addr a <? arr_addr b then a :: s else b :: whole_insert a s'
  end.
Definition whole_mem (a : Array) (s : list Array) : bool := bool_decide (a ∈ s).
Definition elements_erase (a : Array) (m : list (Array * DenseSet)) : list (Array * DenseSet) := filter (fun p => p.1 <> a) m.
Definition elements_set (a : Array) (f : DenseSet -> DenseSet) (m : list (Array * DenseSet)) : list (Array * DenseSet) :=
  map (fun p => if decide (p.1 = a) then (a, f p.2) else p) m.

Definition IES_empty : IndependentElementSet := {| elements := []; wholeObjects := []; exprs := [] |}.
(** [empty()] *)
Definition is_empty (s : IndependentElementSet) : bool :=
  match wholeObjects s, exprs s with [], [] => true | _, _ => false end.

Section independent.
Context {AP : APIntOps} {CFG : Config}.

(** The body of the loop of the constructor. *)
Definition add_read (s : IndependentElementSet) (re : expr) : result IndependentElementSet :=
  match re with
  | ReadExpr array head index =>
      if isConstantArray array && match head with NullNode => true | _ => false end then Ok s
      else if whole_mem array (wholeObjects s) then Ok s
      else match index with
           | ConstantExpr CE =>
               i ← CE_getZExtValue CE 32;
               Ok {| elements := elements_set array (ds_insert i) (bindings_insert (elements s) array []);
                     wholeObjects := wholeObjects s; exprs := exprs s |}
           | _ => Ok {| elements := elements_erase array (elements s);
                        wholeObjects := whole_insert array (wholeObjects s); exprs := exprs s |}
           end
  | _ => AssertFail
  end.
Fixpoint add_reads (s : IndependentElementSet) (reads : list expr) : result IndependentElementSet :=
  match reads with [] => Ok s | re :: reads' => s ← add_read s re; add_reads s reads' end.
Definition IES_create (e : expr) : result IndependentElementSet :=
  reads ← findReads e true [];
  add_reads {| elements := []; wholeObjects := []; exprs := [e] |} reads.

Definition intersects (s b : IndependentElementSet) : bool :=
  existsb (fun array => whole_mem array (wholeObjects b) || match bindings_find (elements b) array with Some _ => true | None => false end)
    (wholeObjects s) ||
  existsb (fun p => whole_mem p.1 (wholeObjects b) ||
                    match bindings_find (elements b) p.1 with Some d => ds_intersects p.2 d | None => false end) (elements s).

(** [bool add(const IndependentElementSet &b)]: the arrays accessed as a whole, then the
    others. *)
Definition add_whole (sm : IndependentElementSet * bool) (array : Array) : IndependentElementSet * bool :=
  let '(s, modified) := sm in
  match bindings_find (elements s) array with
  | Some _ => ({| elements := elements_erase array (elements s); wholeObjects := whole_insert array (wholeObjects s);
                  exprs := exprs s |}, true)
  | None => if whole_mem array (wholeObjects s) then (s, modified)
            else ({| elements := elements s; wholeObjects := whole_insert array (wholeObjects s); exprs := exprs s |}, true)
  end.
Definition add_elements (sm : IndependentElementSet * bool) (p : Array * DenseSet) : IndependentElementSet * bool :=
  let '(s, modified) := sm in
  if whole_mem p.1 (wholeObjects s) then (s, modified)
  else match bindings_find (elements s) p.1 with
       | None => ({| elements := bindings_insert (elements s) p.1 p.2; wholeObjects := wholeObjects s; exprs := exprs s |}, true)
       | Some d =>
           let '(d', m) := ds_add d p.2 false in
           ({| elements := elements_set p.1 (fun _ => d') (elements s); wholeObjects := wholeObjects s; exprs := exprs s |},
            modified || m)
       end.
Definition add (s b : IndependentElementSet) : IndependentElementSet * bool :=
  let s := {| elements := elements s; wholeObjects := wholeObjects s; exprs := exprs s ++ exprs b |} in
  fold_left add_elements (elements b) (fold_left add_whole (wholeObjects b) (s, false)).

(** ** getIndependentConstraints *)
Abbreviation work := (list (expr * IndependentElementSet)).
Fixpoint make_worklist (cs : list expr) : result work :=
  match cs with [] => Ok [] | c :: cs' => s ← IES_create c; l ← make_worklist cs'; Ok ((c, s) :: l) end.
(** One pass: the closure, the constraints found, those left, whether nothing changed. *)
Fixpoint closure_pass (worklist : work) (eltsClosure : IndependentElementSet) (res : list expr) (done : bool) :
    IndependentElementSet * list expr * work * bool :=
  match worklist with
  | [] => (eltsClosure, res, [], done)
  | (c, s) :: worklist' =>
      if intersects s eltsClosure then
        let '(eltsClosure', modified) := add eltsClosure s in
        closure_pass worklist' eltsClosure' (res ++ [c]) (if modified then false else done)
      else
        let '(cl, r, l, d) := closure_pass worklist' eltsClosure res done in (cl, r, (c, s) :: l, d)
  end.
Fixpoint closure_loop (fuel : nat) (worklist : work) (eltsClosure : IndependentElementSet) (res : list expr) :
    result (IndependentElementSet * list expr) :=
  match fuel with
  | O => OutOfFuel
  | S n =>
      let '(cl, r, l, done) := closure_pass worklist eltsClosure res true in
      if done then Ok (cl, r) else closure_loop n l cl r
  end.
Definition getIndependentConstraints (q : Query) : result (IndependentElementSet * list expr) :=
  eltsClosure ← IES_create (q_expr q);
  worklist ← make_worklist (q_constraints q);
  closure_loop (S (length worklist)) worklist eltsClosure [].

(** ** The factors of the constraints, by union-find *)
Record UFElement2 := { parent2 : nat; rank2 : Z; size2 : Z; accessName : string; ies : IndependentElementSet }.
Definition UFElement2_add (x : IndependentElementSet) (u : UFElement2) : UFElement2 :=
  {| parent2 := parent2 u; rank2 := rank2 u; size2 := size2 u; accessName := accessName u;
     ies := if is_empty (ies u) then x else (add (ies u) x).1 |}.
Definition set_parent2 (p : nat) (u : UFElement2) : UFElement2 :=
  {| parent2 := p; rank2 := rank2 u; size2 := size2 u; accessName := accessName u; ies := ies u |}.
Definition incr_rank2 (u : UFElement2) : UFElement2 :=
  {| parent2 := parent2 u; rank2 := rank2 u + 1; size2 := size2 u; accessName := accessName u; ies := ies u |}.
Abbreviation UFManager2 := (list UFElement2).
(** [create]: the parent and the result count from 1. *)
Definition create2 (m : UFManager2) (an : string) : nat * UFManager2 :=
  (S (length m), m ++ [{| parent2 := S (length m); rank2 := 0; size2 := 1; accessName := an; ies := IES_empty |}]).
Definition get2 (m : UFManager2) (i : nat) : result UFElement2 := match m !! i with Some x => Ok x | None => AssertFail end.
Fixpoint find2_go (fuel : nat) (m : UFManager2) (i : nat) : result (nat * UFManager2) :=
  match fuel with
  | O => OutOfFuel
  | S n =>
      x ← get2 m i;
      _ ← get2 m (parent2 x);
      if decide (parent2 x = i) then Ok (i, m)
      else p ← find2_go n m (parent2 x); Ok (p.1, alter (set_parent2 p.1) i p.2)
  end.
Definition find2 (m : UFManager2) (i : nat) : result (nat * UFManager2) := find2_go (S (length m)) m i.
Definition join2 (m : UFManager2) (a b : nat) : result (nat * UFManager2) :=
  _ ← get2 m a;
  _ ← get2 m b;
  '(i, m) ← find2 m a;
  '(j, m) ← find2 m b;
  if decide (i = j) then Ok (i, m)
  else
    x ← get2 m a;
    y ← get2 m b;
    let both := negb (is_empty (ies x)) && negb (is_empty (ies y)) in
    if rank2 y <=? rank2 x then
      let m := alter (set_parent2 i) j m in
      let m := if rank2 y <? rank2 x then alter incr_rank2 a m else m in
      Ok (i, if both then alter (UFElement2_add (ies y)) a m else m)
    else
      let m := alter (set_parent2 j) i m in
      Ok (j, if both then alter (UFElement2_add (ies x)) b m else m).

Definition access_string (array : Array) (u : Z) : string := name array +:+ "__" +:+ pretty (Z.to_N u).
Abbreviation uf_state := (list (string * nat) * list nat * UFManager2)%type.   (* allElements, uniqueSReps, manager *)
Fixpoint all_find (k : string) (l : list (string * nat)) : option nat :=
  match l with [] => None | (k', v) :: l' => if decide (k = k') then Some v else all_find k l' end.
(** The element of one access, created if it is new. *)
Definition access_element (st : uf_state) (accessString : string) : nat * uf_state :=
  let '(allElements, uniqueSReps, manager) := st in
  match all_find accessString allElements with
  | Some ufe => (ufe, st)
  | None => let '(ufe, manager') := create2 manager accessString in
            (ufe, ((accessString, ufe) :: allElements, uniqueSReps ++ [ufe], manager'))
  end.
Fixpoint access_all (st : uf_state) (l : list string) : list nat * uf_state :=
  match l with
  | [] => ([], st)
  | s :: l' => let '(ufe, st) := access_element st s in let '(r, st) := access_all st l' in (ufe :: r, st)
  end.
Definition accesses (s : IndependentElementSet) : list string :=
  concat (map (fun p => map (access_string p.1) p.2) (elements s)).
(** The loop over the accesses of one constraint. *)
Fixpoint join_accesses (st : uf_state) (ff curr : nat) (rest : list nat) : result (nat * uf_state) :=
  match rest with
  | [] => Ok (ff, st)
  | next :: rest' =>
      let '(allElements, uniqueSReps, manager) := st in
      '(a, manager) ← find2 manager curr;
      '(b, manager) ← find2 manager next;
      let reps := filter (fun r => r <> a /\ r <> b) uniqueSReps in
      '(ff, manager) ← join2 manager curr next;
      join_accesses (allElements, if decide (ff ∈ reps) then reps else reps ++ [ff], manager) ff next rest'
  end.
Fixpoint uf_constraints2 (cs : list expr) (st : uf_state) : result uf_state :=
  match cs with
  | [] => Ok st
  | c :: cs' =>
      s ← IES_create c;
      let '(constraintAccesses, st) := access_all st (accesses s) in
      match constraintAccesses with
      | [] => AssertFail                       (* the end iterator is dereferenced *)
      | i :: rest =>
          let '(allElements, uniqueSReps, manager) := st in
          '(ff, manager) ← find2 manager i;
          '(ff, st) ← join_accesses (allElements, uniqueSReps, manager) ff i rest;
          let '(allElements, uniqueSReps, manager) := st in
          _ ← get2 manager ff;
          uf_constraints2 cs' (allElements, uniqueSReps, alter (UFElement2_add s) ff manager)
      end
  end.
Fixpoint take_factors (m : UFManager2) (reps : list nat) : result (list IndependentElementSet) :=
  match reps with [] => Ok [] | r :: reps' => x ← get2 m r; l ← take_factors m reps'; Ok (ies x :: l) end.
Variable unordered : list nat -> list nat.
Definition getAllIndependentConstraintSetsUF (q : Query) : result (list IndependentElementSet) :=
  '(_, uniqueSReps, manager) ← uf_constraints2 (q_constraints q) ([], [], []);
  take_factors manager (unordered uniqueSReps).
Definition calculateArrayReferences (s : IndependentElementSet) : list Array :=
  fold_left (fun r a => whole_insert a r) (wholeObjects s) (fold_left (fun r p => whole_insert p.1 r) (elements s) []).

(** [getTrivialSolution]: the value of a single constraint [Eq constant (Read ...)]. *)
Definition getTrivialSolution (q : Query) : result (option (list (list Z))) :=
  match q_constraints q with
  | [BinExpr Kind.Eq (ConstantExpr ve) rhs] =>
      value ← CE_getZExtValue ve 8;
      match rhs with
      | ReadExpr array _ (ConstantExpr CE) =>
          index ← CE_getZExtValue CE 32;
          _ ← massert (index <? arr_size array);
          Ok (Some [<[Z.to_nat index := value]> (replicate (Z.to_nat (arr_size array)) 0)])
      | _ => Ok None
      end
  | _ => Ok None
  end.

(** ** The layer *)
Context {St : Type} {SI : SolverImpl St}.
Variable useUF legacy_mode : bool.

(** The state of the solver below and [ufmanager], the manager of the path condition. *)
Abbreviation state := (St * UFManager)%type.
Fixpoint uf_required (m : UFManager) (arrs : list Array) : result (list expr) :=
  match arrs with
  | [] => Ok []
  | a :: arrs' => rep ← get m (UFE a); l ← uf_required m arrs'; Ok (uf_constraints rep ++ l)
  end.
Definition independent_validity (q : Query) (st : state) : result (option Validity * state) :=
  required ← (if useUF then arrs ← findSymbolicObjects [q_expr q] []; uf_required st.2 arrs
              else snd <$> getIndependentConstraints q);
  '(r, s) ← computeValidity {| q_constraints := required; q_expr := q_expr q |} st.1;
  Ok (r, (s, st.2)).
Definition computeValidityCheat (q : Query) (st : state) : result (option Validity * state) :=
  '(r, s) ← computeValidity {| q_constraints := []; q_expr := q_expr q |} st.1; Ok (r, (s, st.2)).
Definition independent_truth (q : Query) (st : state) : result (option bool * state) :=
  '(_, required) ← getIndependentConstraints q;
  '(r, s) ← computeTruth {| q_constraints := required; q_expr := q_expr q |} st.1;
  Ok (r, (s, st.2)).
Definition independent_value (q : Query) (st : state) : result (option expr * state) :=
  '(_, required) ← getIndependentConstraints q;
  '(r, s) ← computeValue {| q_constraints := required; q_expr := q_expr q |} st.1;
  Ok (r, (s, st.2)).

(** [assertCreatedPointEvaluatesToTrue] *)
Fixpoint all_true (a : Assignment) (cs : list expr) : result bool :=
  match cs with
  | [] => Ok true
  | c :: cs' =>
      ret ← Assignment_evaluate a c;
      match ret with ConstantExpr v => if CE_isFalse v then Ok false else all_true a cs' | _ => AssertFail end
  end.
Definition assertCreatedPointEvaluatesToTrue (q : Query) (objects : list Array) (values : list (list Z))
    (retMap : list (Array * list Z)) : result bool :=
  a ← Assignment_create objects values true;
  let a := {| allowFreeValues := true; bindings := fold_left (fun b p => bindings_insert b p.1 p.2) retMap (bindings a) |} in
  ok ← all_true a (q_constraints q);
  if negb ok then Ok false
  else
    neg ← createIsZero (q_expr q);
    r ← Assignment_evaluate a neg;
    match r with ConstantExpr v => Ok (CE_isTrue v) | _ => AssertFail end.

(** Copying the values of one factor into [retMap]. *)
Fixpoint copy_indices (indices : list Z) (from to : list Z) : result (list Z) :=
  match indices with
  | [] => Ok to
  | i :: indices' =>
      match from !! Z.to_nat i, to !! Z.to_nat i with
      | Some v, Some _ => copy_indices indices' from (<[Z.to_nat i := v]> to)
      | _, _ => AssertFail
      end
  end.
Fixpoint merge_values (x : IndependentElementSet) (arrays : list Array) (vals : list (list Z)) (retMap : list (Array * list Z)) :
    result (list (Array * list Z)) :=
  match arrays, vals with
  | a :: arrays', v :: vals' =>
      retMap ← match bindings_find retMap a with
               | Some old => _ ← massert (length old =? length v)%nat;
                             new ← copy_indices (default [] (bindings_find (elements x) a)) v old;
                             Ok (elements_set a (fun _ => new) retMap)
               | None => Ok (bindings_insert retMap a v)
               end;
      merge_values x arrays' vals' retMap
  | _, _ => Ok retMap
  end.
(** The loop over the factors: [None] if the solver fails, [Some None] without solution. *)
Fixpoint solve_factors (factors : list IndependentElementSet) (retMap : list (Array * list Z)) (s : St) :
    result (option (option (list (Array * list Z))) * St) :=
  match factors with
  | [] => Ok (Some (Some retMap), s)
  | x :: factors' =>
      let arraysInFactor := calculateArrayReferences x in
      _ ← massert (negb (length (exprs x) =? 0)%nat);
      if (length arraysInFactor =? 0)%nat then solve_factors factors' retMap s
      else
        let q := {| q_constraints := exprs x; q_expr := ConstantExpr (ConstantExpr_alloc 0 Bool) |} in
        cheap ← getTrivialSolution q;
        '(r, s) ← match cheap with
                  | Some values => Ok (Some (values, true), s)
                  | None => computeInitialValues q arraysInFactor s
                  end;
        match r with
        | None => Ok (None, s)
        | Some (_, false) => Ok (Some None, s)
        | Some (tempValues, true) =>
            _ ← massert (length tempValues =? length arraysInFactor)%nat;
            retMap ← merge_values x arraysInFactor tempValues retMap;
            solve_factors factors' retMap s
        end
  end.
Definition object_values (retMap : list (Array * list Z)) (arr : Array) : list Z :=
  default (replicate (Z.to_nat (arr_size arr)) 0) (bindings_find retMap arr).
Definition independent_initial_values (q : Query) (objects : list Array) (st : state) :
    result (option (list (list Z) * bool) * state) :=
  if legacy_mode then '(r, s) ← computeInitialValues q objects st.1; Ok (r, (s, st.2))
  else
    factors ← getAllIndependentConstraintSetsUF q;
    '(r, s) ← solve_factors factors [] st.1;
    match r with
    | None => Ok (None, (s, st.2))
    | Some None => Ok (Some ([], false), (s, st.2))
    | Some (Some retMap) =>
        let values := map (object_values retMap) objects in
        ok ← assertCreatedPointEvaluatesToTrue q objects values retMap;
        _ ← massert ok;
        Ok (Some (values, true), (s, st.2))
    end.

Definition IndependentSolver : SolverImpl state := {|
  computeTruth := independent_truth; computeValidity := independent_validity;
  computeValue := independent_value; computeInitialValues := independent_initial_values |}.
End independent.
