(* ===== verification/IndependentSound.v ===== *)
(** * IndependentSound: when a part of the constraints is enough

    Proves about [IndependentSolver] that the cells of the arrays that an
    [IndependentElementSet] lists are all its expressions depend on, that constraints
    left out share none of them with what is kept, and what follows for the answers of
    the layer. *)

From Stdlib Require Import Sorted.
From S2P Require Import Prelude APInt ExprData Samples Bits ExprCompare ExprCreate ExprCreateSound ExprStructSound ExprVisitor ExprEvaluator UnionFind ExprUtil ExprWeight Rewriters Constraints ConstraintsSound Solver IndependentSolver.
Local Open Scope Z_scope.

(** ** Maps of arrays *)
Lemma find_set (a b : Array) f m :
  bindings_find (elements_set a f m) b = if decide (a = b) then f <$> bindings_find m a else bindings_find m b.
Proof.
  induction m as [|[k v] m IH]; simpl; [by case_decide|]. destruct (decide (k = a)) as [->|Hk]; simpl.
  - destruct (decide (a = b)) as [->|]; [done|]. by rewrite IH.
  - destruct (decide (k = b)) as [->|]; [by case_decide|]. apply IH.
Qed.
Lemma find_erase (a b : Array) m : bindings_find (elements_erase a m) b = if decide (a = b) then None else bindings_find m b.
Proof.
  unfold elements_erase. induction m as [|[k v] m IH]; simpl; [by case_decide|]. rewrite filter_cons. simpl.
  destruct (decide (k <> a)) as [Hk|Hk]; simpl.
  - destruct (decide (k = b)) as [->|]; [by case_decide|done].
  - apply dec_stable in Hk as ->. rewrite IH. by destruct (decide (a = b)).
Qed.
Abbreviation by_addr := (StronglySorted (fun p q : Array * list Z => arr_addr p.1 <= arr_addr q.1)).
Lemma find_insert a b v m : by_addr m ->
  bindings_find (bindings_insert m a v) b = if decide (a = b) then Some (default v (bindings_find m a)) else bindings_find m b.
Proof.
  induction 1 as [|[k w] m Hs IH Hall]; simpl; [done|]. destruct (decide (k = a)) as [->|Hk]; simpl; [by case_decide|].
  destruct (Z.ltb_spec (arr_addr a) (arr_addr k)) as [Hlt|Hge]; simpl.
  - destruct (decide (a = b)) as [->|]; [|done]. destruct (bindings_find m b) as [v'|] eqn:E; [|done]. exfalso.
    assert (Hin : exists w', (b, w') ∈ m).
    { clear -E. induction m as [|[k' w'] m IH]; simpl in E; [done|]. case_decide; [subst; eexists; by left|].
      destruct (IH E) as [w'' ?]. exists w''. by right. }
    destruct Hin as [w' Hin]. rewrite Forall_forall in Hall. specialize (Hall _ Hin). simpl in Hall. lia.
  - rewrite IH. destruct (decide (k = b)) as [->|]; [by case_decide|]. by destruct (decide (a = b)).
Qed.
Lemma insert_sorted_addr a v m : by_addr m -> by_addr (bindings_insert m a v).
Proof.
  induction 1 as [|[k w] m Hs IH Hall]; simpl; [by repeat constructor|]. destruct (decide (k = a)); [by constructor|].
  destruct (Z.ltb_spec (arr_addr a) (arr_addr k)) as [Hlt|Hge].
  - repeat (constructor; try done); simpl; [lia|]. eapply Forall_impl; [exact Hall|]. simpl. intros [? ?]; simpl. lia.
  - constructor; [done|]. clear -Hall Hge. induction m as [|[k' w'] m IH']; simpl; [by repeat constructor|].
    apply Forall_cons in Hall as [? Hall]. destruct (decide (k' = a)); [by constructor|].
    destruct (_ <? _); repeat constructor; auto.
Qed.
Lemma set_sorted_addr a f m : by_addr m -> by_addr (elements_set a f m).
Proof.
  induction 1 as [|[k w] m Hs IH Hall]; simpl; constructor; [done|]. rewrite Forall_forall in *. intros [k' w'] Hin.
  apply list_elem_of_fmap in Hin as ([k2 w2] & E & Hin). specialize (Hall _ Hin). simpl in *.
  repeat case_decide; simplify_eq; done.
Qed.
Lemma erase_sorted_addr a m : by_addr m -> by_addr (elements_erase a m).
Proof.
  unfold elements_erase. induction 1 as [|p m Hs IH Hall]; [constructor|]. rewrite filter_cons. case_decide; [|done]. constructor; [done|].
  rewrite Forall_forall in *. intros q [_ Hq]%list_elem_of_filter. by apply Hall.
Qed.
Lemma find_elem a v m : bindings_find m a = Some v -> (a, v) ∈ m.
Proof.
  induction m as [|[k w] m IH]; simpl; [done|]. case_decide; [subst; intros [= ->]; left|]. intros Hf. right. auto.
Qed.

Lemma elem_of_whole_insert a b s : b ∈ whole_insert a s <-> b = a \/ b ∈ s.
Proof.
  induction s as [|c s IH]; simpl; [rewrite list_elem_of_singleton; set_solver|]. case_decide; [subst; set_solver|].
  destruct (_ <? _); rewrite ?elem_of_cons, ?IH; set_solver.
Qed.
Lemma whole_mem_true a s : whole_mem a s = true <-> a ∈ s.
Proof. apply bool_decide_eq_true. Qed.
Lemma elem_of_ds_insert x y s : y ∈ ds_insert x s <-> y = x \/ y ∈ s.
Proof.
  induction s as [|z s IH]; simpl; [rewrite list_elem_of_singleton; set_solver|]. destruct (Z.eqb_spec x z) as [->|]; [set_solver|].
  destruct (_ <? _); rewrite ?elem_of_cons, ?IH; set_solver.
Qed.
Lemma ds_mem_true x s : ds_mem x s = true <-> x ∈ s.
Proof.
  unfold ds_mem. rewrite existsb_exists. setoid_rewrite <- list_elem_of_In. split.
  - intros (y & Hy & E%Z.eqb_eq). by subst.
  - intros Hx. exists x. split; [done|]. apply Z.eqb_refl.
Qed.

(** ** Cells *)
Definition covers (s : IndependentElementSet) (a : Array) (i : Z) : Prop :=
  a ∈ wholeObjects s \/ exists d, bindings_find (elements s) a = Some d /\ i ∈ d.
Definition coversb (s : IndependentElementSet) (a : Array) (i : Z) : bool :=
  whole_mem a (wholeObjects s) || match bindings_find (elements s) a with Some d => ds_mem i d | None => false end.
Lemma coversb_true s a i : coversb s a i = true <-> covers s a i.
Proof.
  unfold coversb, covers. rewrite orb_true_iff, whole_mem_true. split; intros [?|H]; auto; right.
  - destruct (bindings_find (elements s) a) as [d|]; [|done]. exists d. by rewrite <- ds_mem_true.
  - destruct H as (d & -> & Hd). by rewrite ds_mem_true.
Qed.
Abbreviation sorted s := (by_addr (elements s)).

Lemma intersects_false s b a i : intersects s b = false -> covers s a i -> ~ covers b a i.
Proof.
  unfold intersects. intros [H1 H2]%orb_false_iff [Ha|(d & Hd & Hi)] Hb.
  - assert (H : existsb (fun array => whole_mem array (wholeObjects b) || match bindings_find (elements b) array with Some _ => true | None => false end)
      (wholeObjects s) = true); [|by rewrite H1 in H]. apply existsb_exists. exists a. split; [by apply list_elem_of_In|]. apply orb_true_iff.
    destruct Hb as [Hb|(d & -> & _)]; [left; by apply whole_mem_true|by right].
  - assert (H : existsb (fun p => whole_mem p.1 (wholeObjects b) ||
      match bindings_find (elements b) p.1 with Some d => ds_intersects p.2 d | None => false end) (elements s) = true); [|by rewrite H2 in H].
    apply existsb_exists. exists (a, d). split; [apply list_elem_of_In; by apply find_elem|]. simpl. apply orb_true_iff.
    destruct Hb as [Hb|(d' & -> & Hd')]; [left; by apply whole_mem_true|right]. unfold ds_intersects. apply existsb_exists.
    exists i. split; [by apply list_elem_of_In|by apply ds_mem_true].
Qed.

(** Sets with the same arrays and the same cells of each. *)
Definition same_cells (s s' : IndependentElementSet) : Prop :=
  (forall a, bindings_find (elements s) a = bindings_find (elements s') a) /\ forall a, a ∈ wholeObjects s <-> a ∈ wholeObjects s'.
#[export] Instance same_cells_equiv : Equivalence same_cells.
Proof.
  split.
  - by split.
  - intros s s' [H1 H2]. split; intros a; symmetry; auto.
  - intros s1 s2 s3 [H1 H2] [H3 H4]. split; intros a; [by rewrite H1|by rewrite H2].
Qed.
#[export] Instance intersects_proper : Proper (eq ==> same_cells ==> eq) intersects.
Proof.
  intros s ? <- b b' [H1 H2]. unfold intersects.
  assert (Hw : forall a, whole_mem a (wholeObjects b) = whole_mem a (wholeObjects b')).
  { intros a. unfold whole_mem. apply bool_decide_ext, H2. }
  f_equal; [induction (wholeObjects s) as [|x l IH]|induction (elements s) as [|x l IH]]; simpl; try done; by rewrite Hw, H1, IH.
Qed.
Lemma covers_same s s' a i : same_cells s s' -> covers s a i <-> covers s' a i.
Proof. intros [H1 H2]. unfold covers. by rewrite H1, H2. Qed.

(** ** Adding sets *)
Definition grows (s s' : IndependentElementSet) : Prop :=
  (forall a, a ∈ wholeObjects s -> a ∈ wholeObjects s') /\ forall a i, covers s a i -> covers s' a i.
#[export] Instance grows_preorder : PreOrder grows.
Proof. split; [by split|]. intros s1 s2 s3 [H1 H2] [H3 H4]. split; auto. Qed.

Lemma grows_whole a s : grows s {| elements := elements_erase a (elements s); wholeObjects := whole_insert a (wholeObjects s); exprs := exprs s |}.
Proof.
  split; [intros b Hb; simpl; apply elem_of_whole_insert; by right|]. intros b i Hb. unfold covers. simpl. rewrite elem_of_whole_insert, find_erase.
  destruct (decide (a = b)) as [->|]; [left; by left|]. destruct Hb as [Hb|Hb]; [left; by right|by right].
Qed.
Lemma grows_elements s m : (forall a d, bindings_find (elements s) a = Some d -> exists d', bindings_find m a = Some d' /\ forall i, i ∈ d -> i ∈ d') ->
  grows s {| elements := m; wholeObjects := wholeObjects s; exprs := exprs s |}.
Proof.
  intros H. split; [done|]. intros a i [Ha|(d & Hd & Hi)]; [by left|]. right. destruct (H _ _ Hd) as (d' & ? & ?). eauto.
Qed.

Lemma ds_add_grows b : forall s m, (forall i, i ∈ s -> i ∈ (ds_add s b m).1) /\ ((ds_add s b m).2 = false -> m = false /\ (ds_add s b m).1 = s).
Proof.
  induction b as [|x b IH]; intros s m; simpl; [done|]. destruct (m || ds_mem x s) eqn:E.
  - destruct (IH (ds_insert x s) true) as [H1 H2]. split; [intros i Hi; apply H1, elem_of_ds_insert; by right|]. intros H. by destruct (H2 H).
  - destruct (IH s m). done.
Qed.

Lemma add_whole_ok s m a : sorted s ->
  let r := add_whole (s, m) a in sorted r.1 /\ grows s r.1 /\ a ∈ wholeObjects r.1 /\ (r.2 = false -> m = false /\ same_cells s r.1).
Proof.
  intros Hs. unfold add_whole. destruct (bindings_find (elements s) a) as [d|] eqn:E; cbn [fst snd].
  - split_and!; [by apply erase_sorted_addr|apply grows_whole|apply elem_of_whole_insert; by left|done].
  - destruct (whole_mem a (wholeObjects s)) eqn:Em; cbn [fst snd].
    + apply whole_mem_true in Em. by split_and!.
    + split_and!; [done| |apply elem_of_whole_insert; by left|done]. split; [intros b Hb; apply elem_of_whole_insert; by right|].
      intros b i [Hb|Hb]; [left; apply elem_of_whole_insert; by right|by right].
Qed.
Lemma add_elements_ok s m p : sorted s ->
  let r := add_elements (s, m) p in sorted r.1 /\ grows s r.1 /\ (r.2 = false -> m = false /\ same_cells s r.1).
Proof.
  intros Hs. unfold add_elements. destruct (whole_mem p.1 (wholeObjects s)); cbn [fst snd]; [by split_and!|].
  destruct (bindings_find (elements s) p.1) as [d|] eqn:E; cbn [fst snd].
  - destruct (ds_add_grows p.2 d false) as [H1 H2]. destruct (ds_add d p.2 false) as [d' m']. cbn [fst snd] in *. split_and!.
    + by apply set_sorted_addr.
    + apply grows_elements. intros a d0 Hd. rewrite find_set. destruct (decide (p.1 = a)) as [<-|]; [|by eexists].
      rewrite E in Hd |- *. simplify_eq. by eexists.
    + intros [-> ->]%orb_false_iff. destruct (H2 eq_refl) as [_ ->]. split; [done|]. split; [|done]. intros a. simpl. rewrite find_set.
      destruct (decide (p.1 = a)) as [<-|]; [|done]. by rewrite E.
  - split_and!; [by apply insert_sorted_addr| |done]. apply grows_elements. intros a d Hd. rewrite find_insert by done.
    destruct (decide (p.1 = a)) as [<-|]; [by rewrite E in Hd|]. by eexists.
Qed.

Lemma fold_add_ok {B} (step : IndependentElementSet * bool -> B -> IndependentElementSet * bool)
    (Hstep : forall s m x, sorted s -> let r := step (s, m) x in sorted r.1 /\ grows s r.1 /\ (r.2 = false -> m = false /\ same_cells s r.1)) l :
  forall s m, sorted s -> let r := fold_left step l (s, m) in sorted r.1 /\ grows s r.1 /\ (r.2 = false -> m = false /\ same_cells s r.1).
Proof.
  induction l as [|x l IH]; intros s m Hs; simpl; [by split_and!|]. destruct (Hstep s m x Hs) as (H1 & H2 & H3).
  destruct (step (s, m) x) as [s1 m1]. cbn [fst snd] in *. destruct (IH s1 m1 H1) as (K1 & K2 & K3). split_and!; [done|by transitivity s1|].
  intros E. destruct (K3 E) as [-> K4]. destruct (H3 eq_refl) as [-> H4]. split; [done|]. by transitivity s1.
Qed.
Lemma add_ok s b : sorted s -> let r := add s b in sorted r.1 /\ grows s r.1 /\ (r.2 = false -> same_cells s r.1).
Proof.
  intros Hs. unfold add. set (s0 := {| elements := elements s; wholeObjects := wholeObjects s; exprs := exprs s ++ exprs b |}).
  assert (Hg : grows s s0) by (by split). assert (He : same_cells s s0) by (by split).
  destruct (fold_add_ok add_whole ltac:(intros s' m x H; destruct (add_whole_ok s' m x H) as (? & ? & _ & ?); by split_and!) (wholeObjects b) s0 false Hs) as (H1 & H2 & H3).
  destruct (fold_left add_whole (wholeObjects b) (s0, false)) as [s1 m1]. cbn [fst snd] in *.
  destruct (fold_add_ok add_elements add_elements_ok (elements b) s1 m1 H1) as (K1 & K2 & K3).
  split_and!; [done|transitivity s0; [done|]; by transitivity s1|]. intros E. destruct (K3 E) as [-> K4]. destruct (H3 eq_refl) as [_ H4].
  transitivity s0; [done|]. by transitivity s1.
Qed.

(** ** The cells of an expression *)
Definition read_covered (s : IndependentElementSet) (x : expr) : Prop :=
  match x with
  | ReadExpr a head index =>
      isSymbolicArray a = false /\ head = NullNode \/
      match index with ConstantExpr c => covers s a (raw c) | _ => a ∈ wholeObjects s end
  | _ => True
  end.
Definition narrow (e : expr) : Prop := forall a un i, ReadExpr a un i ∈ subs e -> domain a <= 32.

Lemma read_covered_grows s s' x : grows s s' -> read_covered s x -> read_covered s' x.
Proof. intros [H1 H2]. destruct x as [| |a head index| | | | | | |]; try done. intros [?|H]; [by left|]. right. destruct index; auto. Qed.

Section create.
Context {AP : APIntOps} {SP : APIntSpec AP}.

Lemma add_read_ok s a un i : sorted s -> wf (ReadExpr a un i) -> domain a <= 32 ->
  returns (add_read s (ReadExpr a un i)) (fun s' => sorted s' /\ grows s s' /\ read_covered s' (ReadExpr a un i)).
Proof.
  intros Hs (_ & _ & Hi & Hw) Hd. unfold add_read. destruct (isConstantArray a && _) eqn:Ec.
  { apply returns_ok. split_and!; [done..|]. left. apply andb_true_iff in Ec as [Ec Eh]. unfold isConstantArray in Ec.
    split; [by destruct (isSymbolicArray a)|by destruct un]. }
  destruct (whole_mem a (wholeObjects s)) eqn:Em.
  { apply whole_mem_true in Em. apply returns_ok. split_and!; [done..|]. right. destruct i; try done. by left. }
  assert (Hwhole : returns (Ok {| elements := elements_erase a (elements s); wholeObjects := whole_insert a (wholeObjects s); exprs := exprs s |})
    (fun s' => sorted s' /\ grows s s' /\ a ∈ wholeObjects s')).
  { apply returns_ok. split_and!; [by apply erase_sorted_addr|apply grows_whole|]. apply elem_of_whole_insert. by left. }
  destruct i as [c| | | | | | | | |]; try (eapply returns_weaken; [exact Hwhole|]; intros s' (? & ? & ?); split_and!; [done..|by right]).
  unfold CE_getZExtValue. simpl in Hw. rewrite massert_true by (apply Z.leb_le; lia). cbn [mbind result_bind].
  rewrite ap_getZExtValue_spec by (done || lia). apply returns_ok. cbn [elements]. split_and!.
  - by apply set_sorted_addr, insert_sorted_addr.
  - apply grows_elements. intros b d Hb. rewrite find_set, !find_insert by done. destruct (decide (a = b)) as [->|]; [|by eexists].
    rewrite decide_True by done. rewrite Hb. cbn. eexists. split; [done|]. intros i Hi'. apply elem_of_ds_insert. by right.
  - right. right. simpl. rewrite find_set, find_insert by done. rewrite !decide_True by done. cbn. eexists. split; [done|].
    apply elem_of_ds_insert. by left.
Qed.
Lemma add_reads_ok reads : forall s, sorted s ->
  Forall (fun x => exists a un i, x = ReadExpr a un i /\ wf x /\ domain a <= 32) reads ->
  returns (add_reads s reads) (fun s' => sorted s' /\ grows s s' /\ Forall (read_covered s') reads).
Proof.
  induction reads as [|x reads IH]; intros s Hs Hall; cbn [add_reads]; [apply returns_ok; by split_and!|].
  apply Forall_cons in Hall as [(a & un & i & -> & Hw & Hd) Hall].
  eapply returns_bind; [by apply add_read_ok|]. intros s1 (H1 & H2 & H3). eapply returns_weaken; [by apply IH|].
  intros s2 (K1 & K2 & K3). split_and!; [done|by transitivity s1|]. constructor; [|done]. by eapply read_covered_grows.
Qed.
Lemma subs_reach_mut :
  (forall e x, x ∈ subs e -> reach true e x) /\
  (forall un x, x ∈ subs_node un -> exists y, y ∈ node_exprs un /\ reach true y x).
Proof.
  assert (Htr : forall e y x, y ∈ succs true e -> reach true y x -> reach true e x).
  { intros e y x Hy H. induction H as [|x z Hx IH Hz]; [eapply reach_step; [apply reach_here|done]|by eapply reach_step]. }
  apply expr_node_ind; intros; cbn [subs subs_node] in *;
    repeat match goal with
    | H : _ ∈ _ :: _ |- _ => apply elem_of_cons in H as [->|H]; [apply reach_here|]
    | H : _ ∈ _ ++ _ |- _ => apply elem_of_app in H as [H|H]
    | H : _ ∈ [] |- _ => by apply elem_of_nil in H
    end; try (by eapply Htr; [|eauto]; cbn [succs kids]; set_solver).
  - match goal with IH : forall x, x ∈ subs_node _ -> _, H : _ ∈ subs_node _ |- _ => destruct (IH _ H) as (y & Hy & Hr) end.
    eapply Htr; [|exact Hr]. cbn [succs]. by right.
  - match goal with IH : forall x, x ∈ subs_node _ -> _, H : _ ∈ subs_node _ |- _ => destruct (IH _ H) as (y & Hy & Hr) end.
    exists y. split; [|done]. cbn [node_exprs]. right. by right.
  - eexists. split; [|eauto]. cbn [node_exprs]. by left.
  - eexists. split; [|eauto]. cbn [node_exprs]. right. by left.
Qed.

(** The set of an expression covers every read in it. *)
Lemma IES_create_ok e : wf e -> narrow e ->
  returns (IES_create e) (fun s => sorted s /\ forall x, x ∈ subs e -> read_covered s x).
Proof.
  intros Hw Hn. unfold IES_create. destruct (findReads_correct e true [] Hw) as (reads & E & _ & Hr). rewrite E. cbn [mbind result_bind app].
  eapply returns_weaken; [apply add_reads_ok; [constructor|]|].
  - apply Forall_forall. intros x Hx. apply Hr in Hx as [Hx1 Hx2]. destruct x as [| |a un i| | | | | | |]; try done. exists a, un, i.
    split; [done|]. pose proof (reach_subs _ _ _ Hx2) as Hin. split; [|by eapply Hn].
    pose proof (proj1 subs_wf_mut e Hw) as Hall. rewrite Forall_forall in Hall. by apply Hall.
  - intros s (H1 & _ & H3). split; [done|]. intros x Hx. destruct (is_read x) eqn:Ex; [|by destruct x].
    rewrite Forall_forall in H3. apply H3, Hr. split; [done|]. by apply subs_reach_mut.
Qed.
End create.

(** ** Expressions depend on their cells only *)
Definition agree_cells (P : Array -> Z -> Prop) (rho rho' : env) : Prop :=
  (forall a i, P a i -> rho a i = rho' a i) /\ forall a i, isSymbolicArray a = false -> rho a i = rho' a i.
Lemma eval_cells_mut {CFG : Config} s rho rho' : agree_cells (covers s) rho rho' ->
  (forall e, (forall x, x ∈ subs e -> read_covered s x) -> eval rho e = eval rho' e) /\
  (forall un root i, (forall x, x ∈ subs_node un -> read_covered s x) -> initial rho root i = initial rho' root i ->
     eval_node rho root un i = eval_node rho' root un i).
Proof.
  intros [Hc Hk]. assert (Hconst : forall a i, isSymbolicArray a = false -> initial rho a i = initial rho' a i).
  { intros a i Ha. unfold initial. rewrite Ha. by rewrite (Hk a i Ha). }
  apply expr_node_ind; intros; simpl in *;
    repeat match goal with
    | IH : (forall x, x ∈ subs ?e -> _) -> eval _ ?e = _ |- _ =>
        rewrite IH by (intros ? ?; match goal with H : forall x, x ∈ _ -> read_covered _ _ |- _ => apply H; set_solver end); clear IH
    end; try done.
  - destruct (eval rho' index) as [i|] eqn:Ei; [|done]. cbn. apply H; [intros x Hx; apply H1; set_solver|].
    destruct (H1 _ (list_elem_of_here _ _)) as [[Ha _]|Hcov]; [by apply Hconst|]. unfold initial. destruct (isSymbolicArray root) eqn:Ea; [|by rewrite (Hk root i Ea)].
    assert (Hr : rho root i = rho' root i); [|by rewrite Hr]. apply Hc. destruct index; try (by left). cbn in Ei. by simplify_eq.
  - destruct (eval rho' index) as [j|]; [|done]. cbn. destruct (j =? i); [done|]. apply H; [|done]. intros x Hx. apply H2. set_solver.
Qed.

(** ** A part of the constraints that shares no cell with the rest *)
Definition reduced (q : Query) (required : list expr) : Query := {| q_constraints := required; q_expr := q_expr q |}.
Definition inside (keep : Array -> Z -> bool) (b : bool) (e : expr) : Prop :=
  exists s, (forall x, x ∈ subs e -> read_covered s x) /\ forall a i, covers s a i -> keep a i = b.
Record separates (keep : Array -> Z -> bool) (q : Query) (required : list expr) : Prop := {
  sep_sub c : c ∈ required -> c ∈ q_constraints q;
  sep_expr : inside keep true (q_expr q);
  sep_kept c : c ∈ required -> inside keep true c;
  sep_left c : c ∈ q_constraints q -> c ∈ required \/ inside keep false c;
}.

Section split.
Context {AP : APIntOps} {CFG : Config} {SUP : Supported} (q : Query) (required : list expr).

Lemma models_reduced rho : (forall c, c ∈ required -> c ∈ q_constraints q) -> models q rho -> models (reduced q required) rho.
Proof. intros Hsub [H1 H2]. split; [done|]. apply Forall_forall. intros c Hc. rewrite Forall_forall in H2. by apply H2, Hsub. Qed.

Lemma inside_eval keep b e rho rho' : inside keep b e -> (forall a i, keep a i = b -> rho a i = rho' a i) -> env_ok rho -> env_ok rho' ->
  eval rho e = eval rho' e.
Proof.
  intros (s & Hs & Hk) Hag H1 H2. apply (proj1 (eval_cells_mut s rho rho' ltac:(split; [intros a i Ha; by apply Hag, Hk|intros a i Ha;
    rewrite (proj2 (H1 a i)), (proj2 (H2 a i)); auto]))). done.
Qed.

Context (keep : Array -> Z -> bool) (Hsep : separates keep q required).

(** A solution of the part and one of the whole make one of the whole. *)
Lemma combine rho1 rho0 : models (reduced q required) rho1 -> models q rho0 ->
  exists rho, models q rho /\ eval rho (q_expr q) = eval rho1 (q_expr q).
Proof.
  intros [H1 C1] [H0 C0]. set (rho := fun a i => if keep a i then rho1 a i else rho0 a i).
  assert (Hrho : env_ok rho) by (intros a i; unfold rho; destruct (keep a i); [apply H1|apply H0]).
  exists rho. split; [split; [done|]|].
  - apply Forall_forall. intros c Hc. unfold true_under. rewrite Forall_forall in C0, C1. destruct (sep_left _ _ _ Hsep c Hc) as [Hr|Hl].
    + rewrite (inside_eval keep true c rho rho1); [by apply C1|by apply Hsep|intros a i E; unfold rho; by rewrite E|done|done].
    + rewrite (inside_eval keep false c rho rho0); [by apply C0|done|intros a i E; unfold rho; by rewrite E|done|done].
  - apply (inside_eval keep true); [apply Hsep|intros a i E; unfold rho; by rewrite E|done|done].
Qed.

Hypothesis (Hq : q_ok q) (Hsat : satisfiable q).
Lemma reduced_ok : q_ok (reduced q required).
Proof.
  destruct Hq as [K1 K2 K3 K4]. split; [|done|done|].
  - apply Forall_forall. intros c Hc. rewrite Forall_forall in K1. by apply K1, Hsep.
  - intros rho Hm. destruct Hsat as [rho0 H0]. destruct (combine rho rho0 Hm H0) as (rho' & Hm' & E). destruct (K4 _ Hm') as [v Hv]. exists v. cbn [reduced q_expr]. by rewrite <- E.
Qed.
Lemma reduced_sat : satisfiable (reduced q required).
Proof. destruct Hsat as [rho H]. exists rho. apply models_reduced; [apply Hsep|done]. Qed.
Lemma reduced_some (P : option Z -> Prop) : (exists rho, models (reduced q required) rho /\ P (eval rho (q_expr q))) ->
  exists rho, models q rho /\ P (eval rho (q_expr q)).
Proof.
  intros (rho & Hm & HP). destruct Hsat as [rho0 H0]. destruct (combine rho rho0 Hm H0) as (rho' & Hm' & E). exists rho'. by rewrite E.
Qed.
Lemma reduced_all (P : option Z -> Prop) : (forall rho, models (reduced q required) rho -> P (eval rho (q_expr q))) ->
  forall rho, models q rho -> P (eval rho (q_expr q)).
Proof. intros H rho Hm. apply H, models_reduced; [apply Hsep|done]. Qed.
Lemma reduced_truth r : truth_answer (reduced q required) r -> truth_answer q r.
Proof. destruct r as [[]|]; [exact (reduced_all (fun v => v = Some 1))|exact (reduced_some (fun v => v = Some 0))|done]. Qed.
Lemma reduced_validity r : validity_answer (reduced q required) r -> validity_answer q r.
Proof.
  destruct r as [[]|]; [exact (reduced_all (fun v => v = Some 1))|exact (reduced_all (fun v => v = Some 0))| |done].
  intros [H1 H2]. split; [by apply (reduced_some (fun v => v = Some 1))|by apply (reduced_some (fun v => v = Some 0))].
Qed.
Lemma reduced_value r : value_answer (reduced q required) r -> value_answer q r.
Proof.
  destruct r as [e|]; [|done]. intros (c & ? & ? & ? & H). exists c. split_and!; [done..|]. by apply (reduced_some (fun v => v = Some (raw c))).
Qed.
End split.

(** ** The closure *)
Section closure.
Context {AP : APIntOps} {SP : APIntSpec AP}.

Lemma closure_pass_ok (wl : list (expr * IndependentElementSet)) : forall cl res done, sorted cl ->
  match closure_pass wl cl res done with
  | (cl', r, l, d) => sorted cl' /\ grows cl cl' /\ (exists taken, r = res ++ taken.*1 /\ wl ≡ₚ taken ++ l) /\
      (d = true -> done = true /\ same_cells cl cl' /\ Forall (fun p => intersects p.2 cl' = false) l) /\
      (d = false -> done = false \/ (length l < length wl)%nat)
  end.
Proof.
  induction wl as [|[c s] wl IH]; intros cl res done Hs; cbn [closure_pass].
  { split_and!; [done|done|exists []; by rewrite app_nil_r|intros ->; by split_and!|by left]. }
  destruct (intersects s cl) eqn:Ei.
  - destruct (add_ok cl s Hs) as (A1 & A2 & A3). destruct (add cl s) as [cl1 modified]. cbn [fst snd] in *.
    specialize (IH cl1 (res ++ [c]) (if modified then false else done) A1). destruct (closure_pass wl cl1 _ _) as [[[cl' r] l] d].
    destruct IH as (I1 & I2 & (taken & -> & Hp) & I4 & _). split_and!; [done|by transitivity cl1| | |].
    + exists ((c, s) :: taken). cbn. rewrite <- app_assoc. split; [done|]. by rewrite Hp.
    + intros Hd. destruct (I4 Hd) as (E & I5 & I6). destruct modified; [done|]. split_and!; [done| |done]. transitivity cl1; [by apply A3|done].
    + intros _. right. apply Permutation_length in Hp. rewrite length_app in Hp. cbn. lia.
  - specialize (IH cl res done Hs). destruct (closure_pass wl cl res done) as [[[cl' r] l] d].
    destruct IH as (I1 & I2 & (taken & -> & Hp) & I4 & I5). split_and!; [done|done| | |].
    + exists taken. split; [done|]. rewrite Hp. apply Permutation_middle.
    + intros Hd. destruct (I4 Hd) as (? & Hsame & ?). split_and!; [done|done|]. constructor; [|done]. cbn. by rewrite <- Hsame.
    + intros Hd. destruct (I5 Hd) as [?|?]; [by left|right]. cbn. lia.
Qed.
Lemma closure_loop_ok n : forall wl cl res, sorted cl -> (length wl < n)%nat ->
  returns (closure_loop n wl cl res) (fun p => sorted p.1 /\ grows cl p.1 /\
    exists taken l, p.2 = res ++ taken.*1 /\ wl ≡ₚ taken ++ l /\ Forall (fun p' => intersects p'.2 p.1 = false) l).
Proof.
  induction n as [|n IH]; intros wl cl res Hs Hn; [lia|]. cbn [closure_loop]. pose proof (closure_pass_ok wl cl res true Hs) as H.
  destruct (closure_pass wl cl res true) as [[[cl' r] l] d]. destruct H as (H1 & H2 & (taken & -> & Hp) & H4 & H5). destruct d.
  - destruct (H4 eq_refl) as (_ & _ & Hall). apply returns_ok. split_and!; [done|done|]. by exists taken, l.
  - destruct (H5 eq_refl) as [?|Hlt]; [done|]. eapply returns_weaken; [apply IH; [done|lia]|].
    intros [cl2 r2] (K1 & K2 & (taken2 & l2 & E & Hp2 & Hall)). cbn [fst snd] in *. split_and!; [done|by transitivity cl'|].
    exists (taken ++ taken2), l2. split_and!; [by rewrite E, fmap_app, app_assoc|by rewrite Hp, Hp2, app_assoc|done].
Qed.
Lemma make_worklist_ok cs : Forall (fun c => wf c /\ narrow c) cs ->
  returns (make_worklist cs) (fun wl => wl.*1 = cs /\ Forall (fun p => IES_create p.1 = Ok p.2 /\ sorted p.2 /\ forall x, x ∈ subs p.1 -> read_covered p.2 x) wl).
Proof.
  induction 1 as [|c cs [Hw Hn] Hcs IH]; cbn [make_worklist]; [by apply returns_ok|].
  destruct (IES_create_ok c Hw Hn) as (s & E & H1 & H2). rewrite E. cbn [mbind result_bind].
  eapply returns_bind; [exact IH|]. intros wl [<- Hall]. apply returns_ok. split; [done|]. by constructor.
Qed.
End closure.

(** ** What the closure must cover *)
Definition growsb (s s' : IndependentElementSet) : bool :=
  forallb (fun a => whole_mem a (wholeObjects s')) (wholeObjects s) &&
  forallb (fun p => forallb (coversb s' p.1) p.2) (elements s).
Lemma growsb_grows s s' : growsb s s' = true -> grows s s'.
Proof.
  unfold growsb. rewrite andb_true_iff, !forallb_forall. intros [H1 H2].
  assert (Hw : forall a, a ∈ wholeObjects s -> a ∈ wholeObjects s') by (intros a Ha; apply whole_mem_true, H1; by apply list_elem_of_In).
  split; [done|]. intros a i [Ha|(d & Hd & Hi)]; [left; auto|]. apply find_elem, list_elem_of_In in Hd. specialize (H2 _ Hd).
  rewrite forallb_forall in H2. by apply coversb_true, H2, list_elem_of_In.
Qed.

Section query.
Context {AP : APIntOps} {SP : APIntSpec AP} {CFG : Config} {SUP : Supported}.

(** The cells of every constraint that was taken are in the closure. *)
Definition covered (cl : IndependentElementSet) (required : list expr) : Prop :=
  Forall (fun c => returns (IES_create c) (fun s => grows s cl)) required.
Definition narrow_query (q : Query) : Prop := Forall narrow (q_expr q :: q_constraints q).

Lemma q_ok_wfs q : q_ok q -> narrow_query q -> Forall (fun c => wf c /\ narrow c) (q_constraints q).
Proof.
  intros [H _ _ _] Hn. apply Forall_cons in Hn as [_ Hn]. rewrite Forall_forall in *. intros c Hc. split; [by apply H|by apply Hn].
Qed.
Lemma getIndependentConstraints_ok q : q_ok q -> narrow_query q ->
  returns (getIndependentConstraints q) (fun p =>
    (forall c, c ∈ p.2 -> c ∈ q_constraints q) /\ (covered p.1 p.2 -> separates (coversb p.1) q p.2)).
Proof.
  intros Hq Hn. pose proof (q_ok_wfs q Hq Hn) as Hwfs. apply Forall_cons in Hn as [Hne _]. unfold getIndependentConstraints.
  destruct (IES_create_ok (q_expr q) (qk_wf _ Hq) Hne) as (s0 & E0 & H1 & H2). rewrite E0. cbn [mbind result_bind].
  destruct (make_worklist_ok (q_constraints q) Hwfs) as (wl & E1 & H3 & H4). rewrite E1. cbn [mbind result_bind].
  eapply returns_weaken; [apply closure_loop_ok; [done|lia]|]. intros [cl required] (K1 & K2 & (taken & l & E & Hp & Hall)). cbn [fst snd app] in *. subst required.
  assert (Hin : forall c, c ∈ q_constraints q <-> c ∈ taken.*1 \/ c ∈ l.*1).
  { intros c. rewrite <- H3, Hp, fmap_app. apply elem_of_app. }
  assert (Hall' : Forall (fun p => IES_create p.1 = Ok p.2 /\ sorted p.2 /\ forall x, x ∈ subs p.1 -> read_covered p.2 x) (taken ++ l)) by (by rewrite <- Hp).
  rewrite Forall_forall in Hall, Hall'. split; [intros c Hc; apply Hin; by left|]. intros Hcov. unfold covered in Hcov. rewrite Forall_forall in Hcov. split.
  - intros c Hc. apply Hin. by left.
  - exists s0. split; [done|]. intros a i Ha. apply coversb_true. by apply K2.
  - intros c Hc. apply list_elem_of_fmap in Hc as ([c' s] & -> & Hc). cbn [fst]. destruct (Hcov c') as (s' & Es' & Hg); [apply list_elem_of_fmap; by exists (c', s)|].
    destruct (Hall' (c', s)) as (Es & _ & Hs); [apply elem_of_app; by left|]. cbn [fst snd] in *. rewrite Es in Es'. simplify_eq.
    exists s'. split; [done|]. intros a i Ha. apply coversb_true. by apply Hg.
  - intros c [Hc|Hc]%Hin; [by left|right]. apply list_elem_of_fmap in Hc as ([c' s] & -> & Hc).
    destruct (Hall' (c', s)) as (_ & _ & Hs); [apply elem_of_app; by right|]. exists s. split; [done|]. intros a i Ha.
    destruct (coversb cl a i) eqn:Ec; [|done]. apply coversb_true in Ec. by destruct (intersects_false s cl a i (Hall _ Hc) Ha).
Qed.

(** ** Queries that read every array at one cell or as a whole *)
Definition one_cell (f : Array -> Z) (e : expr) : Prop := forall a un c, ReadExpr a un (ConstantExpr c) ∈ subs e -> raw c = f a.
Abbreviation cell_set f s := (Forall (fun p : Array * list Z => p.2 = [f p.1]) (elements s)).

Lemma one_cell_insert f a v m : Forall (fun p : Array * list Z => p.2 = [f p.1]) m -> v = [f a] \/ bindings_find m a <> None ->
  by_addr m -> Forall (fun p : Array * list Z => p.2 = [f p.1]) (bindings_insert m a v).
Proof.
  intros Hm Hv Hs. induction Hs as [|[k w] m Hs IH Hall]; simpl in *; [destruct Hv as [->|?]; [by repeat constructor|done]|].
  apply Forall_cons in Hm as [Hk Hm]. destruct (decide (k = a)) as [->|Hne]; [by constructor|].
  destruct (Z.ltb_spec (arr_addr a) (arr_addr k)).
  - constructor; [|by constructor]. cbn. destruct Hv as [?|Hf]; [done|]. destruct (bindings_find m a) as [w'|] eqn:E; [|done].
    apply find_elem in E. rewrite Forall_forall in Hall. specialize (Hall _ E). cbn in Hall. lia.
  - constructor; [done|]. by apply IH.
Qed.
Lemma cell_find f s a d : cell_set f s -> bindings_find (elements s) a = Some d -> d = [f a].
Proof. intros H E. apply find_elem in E. rewrite Forall_forall in H. exact (H _ E). Qed.
Lemma cell_erase f a m : Forall (fun p : Array * list Z => p.2 = [f p.1]) m -> Forall (fun p : Array * list Z => p.2 = [f p.1]) (elements_erase a m).
Proof. intros H. rewrite Forall_forall in *. intros p [_ Hp]%list_elem_of_filter. by apply H. Qed.

Lemma cell_add_whole f l : forall s m, sorted s -> cell_set f s ->
  let r := fold_left add_whole l (s, m) in sorted r.1 /\ cell_set f r.1 /\ forall a, a ∈ l -> a ∈ wholeObjects r.1.
Proof.
  induction l as [|a l IH]; intros s m Hs Hc; cbn [fold_left]; [split_and!; [done..|]; intros a Ha; by apply elem_of_nil in Ha|].
  destruct (add_whole_ok s m a Hs) as (H1 & H2 & H3 & _).
  assert (Hc' : cell_set f (add_whole (s, m) a).1).
  { unfold add_whole. destruct (bindings_find (elements s) a); [by apply cell_erase|]. by destruct (whole_mem a (wholeObjects s)). }
  destruct (add_whole (s, m) a) as [s1 m1]. cbn [fst] in *. destruct (IH s1 m1 H1 Hc') as (K1 & K2 & K3). split_and!; [done..|].
  intros b [->|Hb]%elem_of_cons; [|by apply K3].
  destruct (fold_add_ok add_whole ltac:(intros s' m' x H; destruct (add_whole_ok s' m' x H) as (? & ? & _ & ?); by split_and!) l s1 m1 H1) as (_ & [Hg _] & _). by apply Hg.
Qed.
Lemma cell_add_elements f l : forall s m, sorted s -> cell_set f s -> Forall (fun p : Array * list Z => p.2 = [f p.1]) l ->
  let r := fold_left add_elements l (s, m) in cell_set f r.1 /\ forall p, p ∈ l -> covers r.1 p.1 (f p.1).
Proof.
  induction l as [|p l IH]; intros s m Hs Hc Hl; cbn [fold_left]; [split; [done|]; intros p Hp; by apply elem_of_nil in Hp|].
  apply Forall_cons in Hl as [Hp Hl]. destruct (add_elements_ok s m p Hs) as (H1 & _ & _).
  assert (Hc' : cell_set f (add_elements (s, m) p).1 /\ covers (add_elements (s, m) p).1 p.1 (f p.1)).
  { unfold add_elements. destruct (whole_mem p.1 (wholeObjects s)) eqn:Ew; [split; [done|]; left; by apply whole_mem_true|].
    destruct (bindings_find (elements s) p.1) as [d|] eqn:E; cbn [fst].
    - rewrite (cell_find _ _ _ _ Hc E), Hp. cbn [ds_add ds_mem existsb ds_insert orb]. rewrite Z.eqb_refl. cbn. rewrite ?Z.eqb_refl. cbn. split.
      + rewrite Forall_forall in *. intros p' Hp'. apply list_elem_of_fmap in Hp' as (p2 & -> & Hp2). case_decide; [done|by apply Hc].
      + right. cbn. rewrite find_set, decide_True by done. rewrite E. cbn. eexists. split; [done|]. by left.
    - split; [apply one_cell_insert; auto|]. right. cbn. rewrite find_insert, decide_True by done. rewrite E. cbn. eexists. split; [done|]. rewrite Hp. by left. }
  destruct (add_elements (s, m) p) as [s1 m1]. cbn [fst] in *. destruct Hc' as [Hc' Hcov]. destruct (IH s1 m1 H1 Hc' Hl) as (K1 & K2). split; [done|].
  intros p' [->|Hp']%elem_of_cons; [|by apply K2]. destruct (fold_add_ok add_elements add_elements_ok l s1 m1 H1) as (_ & [_ Hg] & _). by apply Hg.
Qed.
Lemma cell_add f s b : sorted s -> cell_set f s -> cell_set f b -> cell_set f (add s b).1 /\ grows b (add s b).1.
Proof.
  intros Hs Hc Hb. unfold add. set (s0 := {| elements := elements s; wholeObjects := wholeObjects s; exprs := exprs s ++ exprs b |}).
  destruct (cell_add_whole f (wholeObjects b) s0 false Hs Hc) as (H1 & H2 & H3). destruct (fold_left add_whole (wholeObjects b) (s0, false)) as [s1 m1]. cbn [fst] in *.
  destruct (cell_add_elements f (elements b) s1 m1 H1 H2 Hb) as [K1 K2]. split; [done|].
  destruct (fold_add_ok add_elements add_elements_ok (elements b) s1 m1 H1) as (_ & [Hg _] & _).
  apply growsb_grows. unfold growsb. rewrite andb_true_iff, !forallb_forall. split.
  - intros a Ha%list_elem_of_In. apply whole_mem_true, Hg, H3. done.
  - intros p Hp%list_elem_of_In. rewrite Forall_forall in Hb. rewrite (Hb _ Hp). cbn. rewrite andb_true_r. apply coversb_true. by apply K2.
Qed.
End query.

Section one_cell.
Context {AP : APIntOps} {SP : APIntSpec AP} {CFG : Config} {SUP : Supported} (f : Array -> Z).
Abbreviation cell_set f s := (Forall (fun p : Array * list Z => p.2 = [f p.1]) (elements s)).

Lemma cell_add_reads reads : forall s s', sorted s -> cell_set f s ->
  Forall (fun x => exists a un i, x = ReadExpr a un i /\ wf x /\ domain a <= 32) reads ->
  (forall a un c, ReadExpr a un (ConstantExpr c) ∈ reads -> raw c = f a) -> add_reads s reads = Ok s' -> cell_set f s'.
Proof.
  induction reads as [|x reads IH]; intros s s' Hs Hc Hall Hone E; cbn [add_reads] in E; [by simplify_eq|].
  apply Forall_cons in Hall as [(a & un & i & -> & Hw & Hd) Hall]. destruct (add_read_ok s a un i Hs Hw Hd) as (s1 & E1 & H1 & _).
  rewrite E1 in E. cbn [mbind result_bind] in E. eapply IH; [exact H1| |exact Hall| |exact E]; [|intros b un' c Hin; eapply Hone; by right].
  clear E IH. unfold add_read in E1. destruct (isConstantArray a && _); [by simplify_eq|]. destruct (whole_mem a (wholeObjects s)); [by simplify_eq|].
  destruct i as [c| | | | | | | | |]; try (injection E1 as <-; by apply cell_erase).
  destruct Hw as (_ & _ & Hi & Hwi). cbn in Hwi, Hi. unfold CE_getZExtValue in E1. rewrite massert_true in E1 by (apply Z.leb_le; lia). cbn [mbind result_bind] in E1.
  rewrite ap_getZExtValue_spec in E1 by (done || lia). rewrite (Hone a un c ltac:(left)) in E1. injection E1 as <-. cbn [elements].
  apply Forall_forall. intros p Hp. apply list_elem_of_fmap in Hp as ([k w] & -> & Hp). cbn [fst snd].
  assert (Hkw : k = a /\ w = [] \/ (k, w) ∈ elements s).
  { clear -Hp. induction (elements s) as [|[k' w'] m IH]; cbn in Hp; [left; apply list_elem_of_singleton in Hp; by simplify_eq|].
    case_decide; [by right|]. destruct (_ <? _); [apply elem_of_cons in Hp as [Hp|Hp]; [simplify_eq; by left|by right]|].
    apply elem_of_cons in Hp as [->|Hp]; [right; by left|]. destruct (IH Hp) as [?|?]; [by left|right; by right]. }
  rewrite Forall_forall in Hc. destruct Hkw as [[-> ->]|Hin].
  - rewrite decide_True by done. done.
  - specialize (Hc _ Hin). cbn in Hc. subst w. destruct (decide (k = a)) as [->|]; [|done]. cbn. by rewrite Z.eqb_refl.
Qed.
Lemma cell_create e s : wf e -> narrow e -> one_cell f e -> IES_create e = Ok s -> sorted s /\ cell_set f s.
Proof.
  intros Hw Hn Ho E. destruct (IES_create_ok e Hw Hn) as (s' & E' & Hs & _). rewrite E in E'. simplify_eq. split; [done|].
  unfold IES_create in E. destruct (findReads_correct e true [] Hw) as (reads & Er & _ & Hr). rewrite Er in E. cbn [mbind result_bind app] in E.
  eapply cell_add_reads; [| | | |exact E]; [constructor|constructor| |].
  - apply Forall_forall. intros x Hx. apply Hr in Hx as [Hx1 Hx2]. destruct x as [| |a un i| | | | | | |]; try done. exists a, un, i.
    split; [done|]. pose proof (reach_subs _ _ _ Hx2) as Hin. split; [|by eapply Hn].
    pose proof (proj1 subs_wf_mut e Hw) as Hall. rewrite Forall_forall in Hall. by apply Hall.
  - intros a un c Hin. apply Hr in Hin as [_ Hx]. eapply Ho. by eapply reach_subs.
Qed.

Abbreviation prepared := (Forall (fun p : expr * IndependentElementSet => IES_create p.1 = Ok p.2 /\ cell_set f p.2)).
Lemma covered_grows cl cl' r : grows cl cl' -> covered cl r -> covered cl' r.
Proof. intros Hg H. eapply Forall_impl; [exact H|]. cbn. intros c (s & E & Hgs). exists s. split; [done|]. by transitivity cl. Qed.

Lemma cell_pass (wl : list (expr * IndependentElementSet)) : forall cl res dn, sorted cl -> cell_set f cl -> prepared wl -> covered cl res ->
  match closure_pass wl cl res dn with (cl', r, l, _) => sorted cl' /\ cell_set f cl' /\ prepared l /\ covered cl' r end.
Proof.
  induction wl as [|[c s] wl IH]; intros cl res dn Hs Hc Hp Hcov; cbn [closure_pass]; [done|]. apply Forall_cons in Hp as [[E Hcs] Hp].
  destruct (intersects s cl).
  - destruct (add_ok cl s Hs) as (A1 & A2 & _). destruct (cell_add f cl s Hs Hc Hcs) as [A3 A4]. destruct (add cl s) as [cl1 modified]. cbn [fst] in *.
    apply IH; try done. apply Forall_app. split; [exact (covered_grows _ _ _ A2 Hcov)|]. constructor; [|done]. by exists s.
  - specialize (IH cl res dn Hs Hc Hp Hcov). destruct (closure_pass wl cl res dn) as [[[cl' r] l] d]. destruct IH as (? & ? & ? & ?).
    split_and!; try done. by constructor.
Qed.
Lemma cell_loop n : forall wl cl res p, sorted cl -> cell_set f cl -> prepared wl -> covered cl res ->
  closure_loop n wl cl res = Ok p -> covered p.1 p.2.
Proof.
  induction n as [|n IH]; intros wl cl res p Hs Hc Hp Hcov E; cbn [closure_loop] in E; [done|].
  pose proof (cell_pass wl cl res true Hs Hc Hp Hcov) as H. destruct (closure_pass wl cl res true) as [[[cl' r] l] d].
  destruct H as (H1 & H2 & H3 & H4). destruct d; [by simplify_eq|]. by eapply IH.
Qed.
Lemma one_cell_covered q p : q_ok q -> narrow_query q -> Forall (one_cell f) (q_expr q :: q_constraints q) ->
  getIndependentConstraints q = Ok p -> covered p.1 p.2.
Proof.
  intros Hq Hn Ho E. pose proof (q_ok_wfs q Hq Hn) as Hwfs. apply Forall_cons in Hn as [Hne _]. apply Forall_cons in Ho as [Hoe Ho].
  unfold getIndependentConstraints in E. destruct (IES_create_ok (q_expr q) (qk_wf _ Hq) Hne) as (s0 & E0 & _). rewrite E0 in E. cbn [mbind result_bind] in E.
  destruct (cell_create (q_expr q) s0 (qk_wf _ Hq) Hne Hoe E0) as [Hs0 Hc0].
  destruct (make_worklist_ok (q_constraints q) Hwfs) as (wl & E1 & H3 & H4). rewrite E1 in E. cbn [mbind result_bind] in E.
  eapply cell_loop; [exact Hs0|exact Hc0| |constructor|exact E]. rewrite Forall_forall in Ho. rewrite Forall_forall in H4. rewrite Forall_forall. intros [c s] Hin. destruct (H4 _ Hin) as [Ec _]. cbn in *. split; [done|].
  assert (Hcin : c ∈ q_constraints q) by (rewrite <- H3; apply list_elem_of_fmap; by exists (c, s)).
  destruct (proj1 (Forall_forall _ _) Hwfs c Hcin). destruct (cell_create c s) as [_ ?]; auto.
Qed.
End one_cell.

(** ** The factors *)
Definition chain (m : list UFElement2) : Prop := forall k x, m !! k = Some x -> parent2 x = S k.
Lemma find2_chain m : chain m -> forall n i, (length m < n + i)%nat -> (1 <= i)%nat -> find2_go n m i = AssertFail \/ n = O.
Proof.
  intros Hm. induction n as [|n IH]; intros i Hn Hi; [by right|]. left. cbn [find2_go].
  unfold get2. destruct (m !! i) as [x|] eqn:E; cbn [mbind result_bind]; [|done]. rewrite (Hm _ _ E).
  destruct (m !! S i) as [y|] eqn:E2; cbn [mbind result_bind]; [|done].
  rewrite decide_False by lia. destruct (IH (S i)) as [->| ->]; [lia|lia|done|]. apply lookup_lt_Some in E2. lia.
Qed.
Lemma access_all_chain l : forall all reps m ufes st, chain m -> Forall (fun p : string * nat => (1 <= p.2)%nat) all ->
  access_all (all, reps, m) l = (ufes, st) -> length ufes = length l /\ chain st.2 /\ Forall (fun u => 1 <= u)%nat ufes.
Proof.
  induction l as [|s l IH]; intros all reps m ufes st Hm Hall E; cbn [access_all] in E; [by simplify_eq|]. unfold access_element in E.
  destruct (all_find s all) as [u|] eqn:Ef.
  - destruct (access_all (all, reps, m) l) as [r st'] eqn:E'. simplify_eq. destruct (IH _ _ _ _ _ Hm Hall E') as (? & ? & ?).
    split_and!; [cbn; lia|done|]. constructor; [|done]. clear -Ef Hall. induction Hall as [|[k v] all Hv Hall IH]; cbn in Ef; [done|].
    case_decide; [by simplify_eq|by apply IH].
  - cbn [create2] in E. destruct (access_all _ l) as [r st'] eqn:E'. simplify_eq. edestruct IH as (? & ? & ?); [| |exact E'|].
    + intros k x Hk. apply lookup_app_Some in Hk as [Hk|[Hk Hx]]; [by apply Hm|]. apply list_lookup_singleton_Some in Hx as [Hx <-]. cbn. lia.
    + constructor; [cbn; lia|done].
    + split_and!; [cbn; lia|done|]. constructor; [lia|done].
Qed.

(** ** The properties *)
Section claims.
Context {AP : APIntOps} {SP : APIntSpec AP} {CFG : Config} {SUP : Supported} {St : Type} {SI : SolverImpl St} (inv : St -> Prop) {SS : SolverSpec SI inv}.
Abbreviation inv' := (fun st : St * UFManager => inv st.1).

Lemma pass_down {A} (P : A -> Prop) (m : result (A * St)) (ufm : UFManager) :
  answers inv P m -> answers inv' P ('(r, s) ← m; Ok (r, (s, ufm))).
Proof. intros H. eapply returns_bind; [exact H|]. intros [r s] [H1 H2]. by apply returns_ok. Qed.
Lemma closure_query q : q_ok q -> narrow_query q -> satisfiable q ->
  ((exists f, Forall (one_cell f) (q_expr q :: q_constraints q)) \/ forall p, getIndependentConstraints q = Ok p -> covered p.1 p.2) ->
  exists cl required, getIndependentConstraints q = Ok (cl, required) /\ separates (coversb cl) q required.
Proof.
  intros Hq Hn Hsat Hc. destruct (getIndependentConstraints_ok q Hq Hn) as ([cl required] & E & _ & Hsep). exists cl, required. split; [done|].
  apply Hsep. destruct Hc as [[f Hf]|Hc]; [by apply (one_cell_covered f q (cl, required))|by apply (Hc (cl, required))].
Qed.
End claims.

Definition first_is_0 : expr := BinExpr Kind.Eq (cst Int8 0) (byte 0).
Lemma first_query_ok {AP : APIntOps} : q_ok (CFG := default_config) (SUP := everything) (sample_query first_is_0).
Proof. apply sample_q_ok; [concrete|]. intros rho. unfold has_value, first_is_0. simpl. eauto. Qed.
Lemma sample_narrow : narrow_query (sample_query first_is_0).
Proof.
  repeat (constructor; [intros a un i Hin; cbn in Hin; repeat (apply elem_of_cons in Hin as [E|Hin]; [simplify_eq; done|]); by apply elem_of_nil in Hin|]). constructor.
Qed.
(** Half of the answers: what is said to be valid or refuted is. *)
Definition truth_sound {CFG : Config} (q : Query) (r : option bool) : Prop := r = Some true -> valid q.
Definition validity_sound {CFG : Config} (q : Query) (r : option Validity) : Prop :=
  (r = Some VTrue -> valid q) /\ (r = Some VFalse -> refuted q).

Section sound.
Context {AP : APIntOps} {SP : APIntSpec AP} {CFG : Config} {SUP : Supported} (q : Query) (required : list expr).
Hypothesis Hsub : forall c, c ∈ required -> c ∈ q_constraints q.
Lemma part_ok : q_ok q -> (forall rho, env_ok rho -> has_value rho (q_expr q)) -> q_ok (reduced q required).
Proof.
  intros [H1 H2 H3 _] Hv. split; [|done|done|intros rho [? _]; by apply Hv]. rewrite Forall_forall in *. intros c Hc. by apply H1, Hsub.
Qed.
Lemma part_truth r : truth_answer (reduced q required) r -> truth_sound q r.
Proof. intros H ->. intros rho Hm. by apply H, models_reduced. Qed.
Lemma part_validity r : validity_answer (reduced q required) r -> validity_sound q r.
Proof. intros H. split; intros ->; intros rho Hm; by apply H, models_reduced. Qed.
Lemma part_sat : satisfiable q -> satisfiable (reduced q required).
Proof. intros [rho H]. exists rho. by apply models_reduced. Qed.
End sound.

Lemma uf_required_ok (m : UFManager) (cs : list expr) arrs : Forall (fun x => forall c, c ∈ uf_constraints x -> c ∈ cs) m ->
  (forall a, a ∈ arrs -> UFE a < length m)%nat -> returns (uf_required m arrs) (fun required => forall c, c ∈ required -> c ∈ cs).
Proof.
  intros Hm. induction arrs as [|a arrs IH]; intros Ha; cbn [uf_required]; [apply returns_ok; intros c Hc; by apply elem_of_nil in Hc|].
  unfold UnionFind.get. destruct (lookup_lt_is_Some_2 m (UFE a)) as [x Hx]; [apply Ha; left|]. rewrite Hx. cbn [mbind result_bind].
  eapply returns_bind; [apply IH; intros b Hb; apply Ha; by right|]. intros l Hl. apply returns_ok. intros c [Hc|Hc]%elem_of_app; [|by apply Hl].
  rewrite Forall_forall in Hm. eapply Hm; [|exact Hc]. by eapply list_elem_of_lookup_2.
Qed.

(** Whichever constraints the independent solver picks, what it calls valid or
    invalid is: the constraints passed on are constraints of the query. *)
Section picked.
Context {AP : APIntOps} {SP : APIntSpec AP} {CFG : Config} {SUP : Supported} {St : Type} {SI : SolverImpl St} (inv : St -> Prop) {SS : SolverSpec SI inv}.

Lemma picked_validity q required (st : St * UFManager) : inv st.1 -> q_ok q -> satisfiable q -> getWidth (q_expr q) = Bool ->
  (forall rho, env_ok rho -> has_value rho (q_expr q)) -> (forall c, c ∈ required -> c ∈ q_constraints q) ->
  answers (fun st => inv st.1) (validity_sound q) ('(r, s) ← computeValidity (reduced q required) st.1; Ok (r, (s, st.2))).
Proof.
  intros Hinv Hq Hsat Hw Hv Hr. apply pass_down. eapply returns_weaken; [apply computeValidity_spec; [done|by apply part_ok|by apply part_sat|done]|].
  intros p [? ?]. split; [|done]. by eapply part_validity.
Qed.

(** The manager of the path condition knows the arrays of the expression and records only
    constraints of the query. *)
Record manager_for (q : Query) (m : UFManager) : Prop := {
  mf_constraints : Forall (fun x => forall c, c ∈ uf_constraints x -> c ∈ q_constraints q) m;
  mf_arrays a : a ∈ syms (q_expr q) -> (UFE a < length m)%nat;
}.
Lemma uf_picks q (m : UFManager) : wf (q_expr q) -> manager_for q m ->
  returns (arrs ← findSymbolicObjects [q_expr q] []; uf_required m arrs) (fun required => forall c, c ∈ required -> c ∈ q_constraints q).
Proof.
  intros We [Hm Ha]. destruct (findSymbolicObjects_ok [q_expr q] []) as (new & En & _ & Hnew); [by repeat constructor|]. rewrite En. cbn [mbind result_bind app].
  apply uf_required_ok; [done|]. intros a Hin. apply Ha. apply Hnew in Hin as (e & He & Hin). by apply list_elem_of_singleton in He as ->.
Qed.

(** The arrays that an expression reads, and constraints that share none with [l]. *)
Definition reads_array (e : expr) (a : Array) : Prop := exists un i, ReadExpr a un i ∈ subs e.
Definition read_arrays (e : expr) : list Array := omap (fun x => match x with ReadExpr a _ _ => Some a | _ => None end) (subs e).
Lemma read_arrays_iff e a : a ∈ read_arrays e <-> reads_array e a.
Proof.
  unfold read_arrays. rewrite list_elem_of_omap. split.
  - intros (x & Hx & E). destruct x; try done. injection E as ->. by eexists _, _.
  - intros (un & i & H). by eexists.
Qed.
Definition connected (q : Query) (required : list expr) : Prop := forall c, c ∈ q_constraints q -> c ∈ required \/
  forall a e, e ∈ q_expr q :: required -> reads_array e a -> ~ reads_array c a.

Lemma inside_arrays keep b e : (forall a, reads_array e a -> forall i, keep a i = b) -> inside keep b e.
Proof.
  intros H. exists {| elements := []; wholeObjects := read_arrays e; exprs := [] |}. split.
  - intros x Hx. destruct x as [| |a un i| | | | | | |]; try done. right.
    assert (Ha : a ∈ read_arrays e) by (apply read_arrays_iff; by eexists _, _). destruct i; try done. by left.
  - intros a i [Ha|(l & Hl & _)]; [|discriminate Hl]. cbn in Ha. by apply H, read_arrays_iff.
Qed.
Lemma connected_separates q required : (forall c, c ∈ required -> c ∈ q_constraints q) -> connected q required ->
  separates (fun a _ => bool_decide (a ∈ (q_expr q :: required) ≫= read_arrays)) q required.
Proof.
  intros Hsub Hc. assert (Hin : forall e a, e ∈ q_expr q :: required -> reads_array e a -> a ∈ (q_expr q :: required) ≫= read_arrays).
  { intros e a He Ha. apply list_elem_of_bind. exists e. split; [by apply read_arrays_iff|done]. }
  split; [done| | |].
  - apply inside_arrays. intros a Ha _. apply bool_decide_eq_true_2. by apply (Hin (q_expr q)); [left|].
  - intros c Hr. apply inside_arrays. intros a Ha _. apply bool_decide_eq_true_2. by apply (Hin c); [right|].
  - intros c Hq. destruct (Hc c Hq) as [?|Hn]; [by left|]. right. apply inside_arrays. intros a Ha _. apply bool_decide_eq_false_2.
    intros (e & He' & He)%list_elem_of_bind. apply (Hn a e He); [by apply read_arrays_iff|done].
Qed.
End picked.

(** C27. The independent solver answers as if it had passed on all the constraints, as long
    as what it passes on is not connected with the rest.  For a well-typed condition over
    arrays indexed by at most 32 bits with satisfiable constraints:

    (1) [computeTruth] and [computeValue], and [computeValidity] when [useUF] is off, are
    exact if the expressions read every array at one constant cell or as a whole, or in
    general if the closure covers the cells of the constraints it took (the insertion of
    the closure loses cells otherwise);

    (2) [computeValidity] when [useUF] is on, as the program sets it: if the manager of
    the path condition records only constraints of the query and knows the arrays of the
    expression, which has a value under every assignment, then what is called valid or
    invalid is; and the answer is exact if moreover every constraint that the manager does
    not keep with the arrays of the expression shares no array with the expression and
    those it keeps ([connected]).  The code does not guarantee the latter
    ([no_representative]);

    (3) in legacy mode [computeInitialValues] is passed on. *)
Theorem independent_exact {AP : APIntOps} {SP : APIntSpec AP} {CFG : Config} {SUP : Supported} {St : Type} {SI : SolverImpl St}
    (inv : St -> Prop) {SS : SolverSpec SI inv} unordered (q : Query) objects (st : St * UFManager) :
  inv st.1 -> q_ok q -> narrow_query q -> satisfiable q -> getWidth (q_expr q) = Bool ->
  ((exists f, Forall (one_cell f) (q_expr q :: q_constraints q)) \/ (forall p, getIndependentConstraints q = Ok p -> covered p.1 p.2) ->
    answers (fun st => inv st.1) (truth_answer q) (independent_truth q st) /\
    answers (fun st => inv st.1) (value_answer q) (independent_value q st) /\
    answers (fun st => inv st.1) (validity_answer q) (independent_validity false q st)) /\
  (manager_for q st.2 ->
    ((forall rho, env_ok rho -> has_value rho (q_expr q)) ->
      answers (fun st => inv st.1) (validity_sound q) (independent_validity true q st)) /\
    ((forall arrs required, findSymbolicObjects [q_expr q] [] = Ok arrs -> uf_required st.2 arrs = Ok required -> connected q required) ->
      answers (fun st => inv st.1) (validity_answer q) (independent_validity true q st))) /\
  answers (fun st => inv st.1) (initial_answer q objects) (independent_initial_values unordered true q objects st).
Proof.
  intros Hinv Hq Hn Hsat Hw.
  assert (Hmap : forall A (P Q : A -> Prop) (m : result (A * St)), (forall a, P a -> Q a) -> answers inv P m -> answers inv Q m).
  { intros A P Q m HPQ Hm. eapply returns_weaken; [exact Hm|]. intros p [? ?]. auto. }
  assert (Hval : forall keep required, separates keep q required ->
    answers (fun st => inv st.1) (validity_answer q) ('(r, s) ← computeValidity (reduced q required) st.1; Ok (r, (s, st.2)))).
  { intros keep required Hsep. apply pass_down. eapply Hmap; [apply (reduced_validity q required _ Hsep Hsat)|].
    apply computeValidity_spec; [done|by eapply reduced_ok|by eapply reduced_sat|done]. }
  split_and!.
  - intros Hc. destruct (closure_query q Hq Hn Hsat Hc) as (cl & required & E & Hsep).
    pose proof (reduced_ok q required _ Hsep Hq Hsat) as Hq'. pose proof (reduced_sat q required _ Hsep Hsat) as Hsat'. split_and!.
    + unfold independent_truth. rewrite E. cbn [mbind result_bind]. apply pass_down. eapply Hmap; [apply (reduced_truth q required _ Hsep Hsat)|].
      by apply computeTruth_spec.
    + unfold independent_value. rewrite E. cbn [mbind result_bind]. apply pass_down. eapply Hmap; [apply (reduced_value q required _ Hsep Hsat)|].
      by apply computeValue_spec.
    + unfold independent_validity. rewrite E. cbn [mbind result_bind fmap result_fmap snd]. by eapply Hval.
  - intros Hm. destruct (uf_picks q st.2 (qk_wf _ Hq) Hm) as (required & E & Hr). unfold independent_validity. rewrite E. cbn [mbind result_bind]. split.
    + intros Hv. by apply picked_validity.
    + intros Hc. eapply Hval. apply connected_separates; [done|]. destruct (findSymbolicObjects [q_expr q] []) as [arrs| |]; try discriminate E. by apply (Hc arrs).
  - unfold independent_initial_values. apply pass_down. by apply computeInitialValues_spec.
Qed.

Lemma independent_exact_witness :
  answers (fun _ => True) (@truth_answer default_config (sample_query first_is_0))
    (@independent_truth ZOps unit (@Oracle.impl ZOps default_config) (sample_query first_is_0) (tt, fresh_uf 1)) /\
  answers (fun _ => True) (@validity_sound default_config (sample_query first_is_0))
    (@independent_validity ZOps default_config unit (@Oracle.impl ZOps default_config) true (sample_query first_is_0) (tt, fresh_uf 1)).
Proof.
  destruct (@independent_exact ZOps ZOps_spec default_config everything unit (@Oracle.impl ZOps default_config) (fun _ => True)
    (@Oracle.spec ZOps ZOps_spec default_config everything) id (sample_query first_is_0) [] (tt, fresh_uf 1) I) as (H1 & H2 & _).
  - apply first_query_ok.
  - apply sample_narrow.
  - exists ones. apply sample_models.
  - reflexivity.
  - split.
    + apply H1. left. exists (fun _ => 0).
      repeat (constructor; [intros a un c Hin; cbn in Hin; repeat (apply elem_of_cons in Hin as [E|Hin]; [simplify_eq; done|]); by apply elem_of_nil in Hin|]). constructor.
    + apply H2; [|intros rho _; unfold has_value; simpl; eauto]. split.
      * constructor; [|constructor]. cbn. intros c0 Hc0. by apply elem_of_nil in Hc0.
      * cbn. intros a Ha. apply list_elem_of_singleton in Ha as ->. cbn. lia.
Defined.

(** C29. Outside legacy mode initial values cannot be computed at all: the elements of
    [UFManager2] are numbered from 1 and each starts with its successor as parent, so
    the factors of a query with a constraint always end in a read past the end of the
    vector, or of an empty one. *)
Theorem factors_undefined {AP : APIntOps} {SP : APIntSpec AP} {CFG : Config} {SUP : Supported} {St : Type} {SI : SolverImpl St}
    unordered (q : Query) c cs objects (st : St * UFManager) :
  q_constraints q = c :: cs -> wf c -> narrow c ->
  getAllIndependentConstraintSetsUF unordered q = AssertFail /\ independent_initial_values unordered false q objects st = AssertFail.
Proof.
  intros Eq Hw Hn. assert (H : getAllIndependentConstraintSetsUF unordered q = AssertFail); [|unfold independent_initial_values; by rewrite H].
  unfold getAllIndependentConstraintSetsUF. rewrite Eq. cbn [uf_constraints2]. destruct (IES_create_ok c Hw Hn) as (s & E & _). rewrite E. cbn [mbind result_bind].
  destruct (access_all ([], [], []) (accesses s)) as [ufes [[all reps] m]] eqn:Ea.
  destruct (access_all_chain _ _ _ _ _ _ ltac:(intros k x Hk; by rewrite lookup_nil in Hk) ltac:(constructor) Ea) as (_ & Hm & Hall).
  destruct ufes as [|i rest]; [done|]. apply Forall_cons in Hall as [Hi _]. cbn [snd] in Hm. unfold find2.
  destruct (find2_chain m Hm (S (length m)) i ltac:(lia) Hi) as [->|?]; done.
Qed.
Lemma factors_undefined_witness : @independent_initial_values ZOps default_config id unit (@Oracle.impl ZOps default_config) false (sample_query first_is_0) [buf] (tt, []) = AssertFail.
Proof.
  apply (@factors_undefined ZOps ZOps_spec default_config everything unit (@Oracle.impl ZOps default_config) id (sample_query first_is_0) first_is_1 [] [buf] (tt, []));
    [reflexivity|concrete|]. pose proof sample_narrow as H. apply Forall_cons in H as [_ H]. by apply Forall_cons in H as [H _].
Defined.

(** ** Where the layer goes wrong *)
Definition is_5 (i : Z) : expr := BinExpr Kind.Eq (cst Int8 5) (byte i).
Definition equal_bytes : expr := BinExpr Kind.Eq (byte 0) (byte 1).

(** [DenseSet::add] drops the cells before the first common one: the closure of byte 1
    over a constraint on bytes 0 and 1 loses byte 0, so that the constraint on byte 0
    alone is not found and a valid query can fail. *)
Example lost_cell :
  let q := {| q_constraints := [equal_bytes; is_5 0]; q_expr := is_5 1 |} in
  ds_add [1] [0; 1] false = ([1], true) /\
  snd <$> getIndependentConstraints (AP := ZOps) q = Ok [equal_bytes] /\
  valid (CFG := default_config) q /\ may_fail (CFG := default_config) (reduced q [equal_bytes]).
Proof.
  split; [done|]. split; [vm_compute; reflexivity|]. split.
  - intros rho [_ Hc]. apply Forall_cons in Hc as [H1 Hc]. apply Forall_cons in Hc as [H2 _]. unfold true_under in *. cbn in *.
    destruct (wrap Int8 (rho buf 0) =? wrap Int8 (rho buf 1)) eqn:E; [|done]. apply Z.eqb_eq in E. by rewrite <- E.
  - exists ones. split; [|reflexivity]. split; [apply ones_ok|]. constructor; [reflexivity|constructor].
Qed.

(** A second symbolic buffer, whose class is represented by the first. *)
Definition other : Array := {| arr_addr := 12288; name := "other"; UFE := 1; UFE_Cheat := 1;
  arr_size := 8; domain := Int32; range := Int8; constantValues := [] |}.
Definition other_byte (i : Z) : expr := ReadExpr other NullNode (cst Int32 i).
Definition buffers_equal : expr := BinExpr Kind.Eq (byte 0) (other_byte 0).

(** [computeValidity] reads the constraints of the element of an array, not of its
    representative: a constraint over two arrays is kept with the first, so a query
    about the second is asked without it. *)
Example no_representative :
  exists m, update_uf (fresh_uf 2) [UFE buf; UFE other] buffers_equal = Ok m /\
    uf_required m [buf] = Ok [buffers_equal] /\ uf_required m [other] = Ok [].
Proof. eexists. by split_and!. Qed.

(** [getTrivialSolution] ignores the updates of the read it solves for: the answer for
    [5 = (write buf at 0 the byte 5)\[0\]] sets byte 0 to 5, and for [6 = ...], which has
    no solution, it still gives one. *)
Example trivial_ignores_updates :
  let c v := BinExpr Kind.Eq (cst Int8 v) (ReadExpr buf (Node NullNode (cst Int32 0) (cst Int8 5)) (cst Int32 0)) in
  getTrivialSolution (AP := ZOps) {| q_constraints := [c 6]; q_expr := cst Bool 0 |} = Ok (Some [[6; 0; 0; 0; 0; 0; 0; 0]]) /\
  ~ satisfiable (CFG := default_config) {| q_constraints := [c 6]; q_expr := cst Bool 0 |}.
Proof.
  split; [vm_compute; reflexivity|]. intros (rho & _ & Hc). apply Forall_cons in Hc as [H _]. done.
Qed.
