(* ===== verification/ImpliedValue.v ===== *)
(** * ImpliedValue: reads whose value follows from an equation

    Models [ImpliedValue::getImpliedValues] of [klee/lib/Core/ImpliedValue.cpp], which
    the executor calls when an expression is known to be equal to a constant, to replace
    reads by their values.  A [ref<ConstantExpr>] may be null, so the value is an
    [option]; using a null value fails.  Whether two constants are the same object is a
    parameter.  [checkForImpliedValues], which only asserts, is left out. *)

From S2P Require Import Prelude APInt ExprData Samples Bits ExprCompare ExprCreate ExprCreateSound ExprStructSound.
Local Open Scope Z_scope.

Abbreviation ImpliedValueList := (list (expr * option apint)).

Section implied.
Context {AP : APIntOps}.
Variable same_object : expr -> expr -> bool.

(** [value->...] *)
Definition deref (value : option apint) : result apint := match value with Some v => Ok v | None => AssertFail end.

Fixpoint getImpliedValues (e : expr) (value : option apint) (results : ImpliedValueList) : result ImpliedValueList :=
  match e with
  | ConstantExpr c => v ← deref value; _ ← massert (bool_decide (v = c)); Ok results
  | NotOptimizedExpr _ => Ok results
  | ReadExpr _ _ _ => Ok (results ++ [(e, value)])
  | SelectExpr cond (ConstantExpr TrueCE) (ConstantExpr FalseCE) =>
      if same_object (ConstantExpr TrueCE) (ConstantExpr FalseCE) then Ok results
      else
        v ← deref value;
        if bool_decide (v = TrueCE) then getImpliedValues cond (Some (ConstantExpr_alloc 1 Bool)) results
        else
          _ ← massert (bool_decide (v = FalseCE));
          getImpliedValues cond (Some (ConstantExpr_alloc 0 Bool)) results
  | SelectExpr _ _ _ => Ok results
  | ConcatExpr l r =>
      v ← deref value;
      results ← getImpliedValues l (Some (CE_Extract v (getWidth r) (getWidth l))) results;
      getImpliedValues r (Some (CE_Extract v 0 (getWidth r))) results
  | ExtractExpr _ _ _ => Ok results
  | ZExtExpr src _ | SExtExpr src _ =>
      v ← deref value; getImpliedValues src (Some (CE_Extract v 0 (getWidth src))) results
  | NotExpr _ => Ok results
  | BinExpr Kind.Add l r =>
      match l with
      | ConstantExpr CE => v ← deref value; getImpliedValues r (Some (CE_Sub v CE)) results
      | _ => Ok results
      end
  | BinExpr Kind.Sub l r =>
      match l with
      | ConstantExpr CE => v ← deref value; getImpliedValues r (Some (CE_Sub CE v)) results
      | _ => Ok results
      end
  | BinExpr Kind.And l r =>
      if getWidth e =? Bool then
        v ← deref value;
        if CE_isTrue v then results ← getImpliedValues l value results; getImpliedValues r value results
        else Ok results
      else Ok results
  | BinExpr Kind.Or l r =>
      v ← deref value;
      if CE_isZero v then results ← getImpliedValues l None results; getImpliedValues r None results
      else Ok results
  | BinExpr Kind.Xor l r =>
      match l with
      | ConstantExpr CE => v ← deref value; getImpliedValues r (Some (CE_Xor v CE)) results
      | _ => Ok results
      end
  | BinExpr Kind.Ne _ _ => _ ← deref value; AssertFail     (* cast<EqExpr> of a NeExpr *)
  | BinExpr Kind.Eq l r =>
      v ← deref value;
      match l with
      | ConstantExpr CE =>
          if CE_isTrue v then getImpliedValues r (Some CE) results
          else if bw CE =? Bool then getImpliedValues r (Some (CE_Not CE)) results
          else Ok results
      | _ => Ok results
      end
  | BinExpr _ _ _ => Ok results
  end.

(** What the recursion can handle: no [Ne], which the constructors never build, no [Or],
    and no select between equal constants held by different objects. *)
Fixpoint propagates (e : expr) : Prop :=
  match e with
  | SelectExpr cond (ConstantExpr t) (ConstantExpr f) => propagates cond /\ (t <> f \/ same_object (ConstantExpr t) (ConstantExpr f) = true)
  | ConcatExpr l r => propagates l /\ propagates r
  | ZExtExpr src _ | SExtExpr src _ => propagates src
  | BinExpr k l r =>
      match k with
      | Kind.Or | Kind.Ne => False
      | Kind.And => propagates l /\ propagates r
      | Kind.Add | Kind.Sub | Kind.Xor | Kind.Eq => isConst l = true -> propagates r
      | _ => True
      end
  | _ => True
  end.

Context {SP : APIntSpec AP} {CFG : Config} (rho : env).

(** The constant is the value of the expression. *)
Definition means (e : expr) (v : apint) : Prop := apok v /\ bw v = getWidth e /\ eval rho e = Some (raw v).
Definition implied (p : expr * option apint) : Prop := is_Some p.2 /\ forall v, p.2 = Some v -> means p.1 v.

Lemma means_unique e v c : means e v -> eval rho e = Some (raw c) -> bw c = getWidth e -> v = c.
Proof. intros (_ & Hw & E) E' Hw'. destruct v, c. simpl in *. congruence. Qed.

Lemma means_extract e v o w x : means e v -> 0 <= o -> 0 < w -> o + w <= getWidth e -> wf x -> getWidth x = w ->
  eval rho x = Some (sem_extract o w (raw v)) -> means x (CE_Extract v o w).
Proof.
  intros (Hv & Hw & E) Ho Hpos Hin Hx Hxw Ex. destruct (CE_Extract_impl v o w) as (K1 & K2 & K3); [done|done|done|lia|].
  simpl in K1, K2. split; [done|]. split; [congruence|]. rewrite Ex. symmetry. exact (K3 rho _ eq_refl).
Qed.

Lemma concat_high wl wr a b : 0 <= wr -> inw wl a -> inw wr b -> sem_extract wr wl (sem_concat wr a b) = a.
Proof.
  unfold sem_extract, sem_concat, inw. intros Hr Ha Hb. rewrite Z.add_comm, Z.div_add by lia. rewrite Z.div_small, Z.add_0_l by lia. by apply wrap_small.
Qed.
Lemma concat_low wr a b : 0 <= wr -> inw wr b -> sem_extract 0 wr (sem_concat wr a b) = b.
Proof.
  unfold sem_extract, sem_concat, inw. intros Hr Hb. rewrite Z.pow_0_r, Z.div_1_r. unfold wrap.
  rewrite Z.add_comm, Z_mod_plus_full. by apply Z.mod_small.
Qed.

Lemma means_sub e v c x : means e v -> apok c -> bw c = getWidth x -> wf x -> getWidth e = getWidth x ->
  forall a, eval rho x = Some a -> raw v = bv_add (getWidth x) (raw c) a -> means x (CE_Sub v c).
Proof.
  intros (Hv & Hw & _) Hc Hcw Hx Hex a Ea Hr. assert (Hp : appair v c) by (split_and!; [done|done|congruence]).
  destruct (CE_Sub_apok v c Hp) as [K1 K2]. split; [done|]. split; [congruence|]. rewrite CE_Sub_eq by done. simpl. rewrite Ea. f_equal.
  pose proof (eval_inw rho x a Hx Ea) as Ha. pose proof (wf_width x Hx). rewrite Hw, Hex, Hr. unfold bv_sub, bv_add. rewrite wrap_sub_l by lia.
  replace (raw c + a - raw c) with a by lia. symmetry. by apply wrap_small.
Qed.
Lemma means_rsub e v c x : means e v -> apok c -> bw c = getWidth x -> wf x -> getWidth e = getWidth x ->
  forall a, eval rho x = Some a -> raw v = bv_sub (getWidth x) (raw c) a -> means x (CE_Sub c v).
Proof.
  intros (Hv & Hw & _) Hc Hcw Hx Hex a Ea Hr. assert (Hp : appair c v) by (split_and!; [done|done|congruence]).
  destruct (CE_Sub_apok c v Hp) as [K1 K2]. split; [done|]. split; [congruence|]. rewrite CE_Sub_eq by done. simpl. rewrite Ea. f_equal.
  pose proof (eval_inw rho x a Hx Ea) as Ha. pose proof (wf_width x Hx). rewrite Hcw, Hr. unfold bv_sub. rewrite wrap_sub_r by lia.
  replace (raw c - (raw c - a)) with a by lia. symmetry. by apply wrap_small.
Qed.
Lemma means_xor e v c x : means e v -> apok c -> bw c = getWidth x -> wf x -> getWidth e = getWidth x ->
  forall a, eval rho x = Some a -> raw v = Z.lxor (raw c) a -> means x (CE_Xor v c).
Proof.
  intros (Hv & Hw & _) Hc Hcw Hx Hex a Ea Hr. assert (Hp : appair v c) by (split_and!; [done|done|congruence]).
  unfold CE_Xor. rewrite ap_xor_spec by done. pose proof (eval_inw rho x a Hx Ea) as Ha. pose proof (wf_width x Hx).
  assert (E : Z.lxor (raw v) (raw c) = a) by (rewrite Hr, (Z.lxor_comm (raw c) a), Z.lxor_assoc, Z.lxor_nilpotent; apply Z.lxor_0_r).
  rewrite E. split; [|split; [simpl; congruence|done]]. split; [apply Hv|]. simpl. by rewrite Hw, Hex.
Qed.
Lemma bool_constant b : means (ConstantExpr (ConstantExpr_alloc (Z.b2z b) Bool)) (ConstantExpr_alloc (Z.b2z b) Bool) /\
  raw (ConstantExpr_alloc (Z.b2z b) Bool) = Z.b2z b /\ bw (ConstantExpr_alloc (Z.b2z b) Bool) = Bool.
Proof.
  unfold ConstantExpr_alloc. rewrite ap_of_spec by (first [done|by destruct b]). simpl. assert (E : wrap Bool (Z.b2z b) = Z.b2z b) by (by destruct b). rewrite E. split_and!; try done. split_and!; [|done|done].
  split; [done|]. simpl. by destruct b.
Qed.

Lemma isTrue_raw v : apok v -> bw v = Bool -> CE_isTrue v = (raw v =? 1).
Proof.
  intros Hv Hw. unfold CE_isTrue. rewrite Hw, ap_getBoolValue_spec by done. destruct Hv as [_ Hv]. unfold inw in Hv. rewrite Hw in Hv. change (2 ^ Bool) with 2 in Hv.
  cbn. destruct (Z.eqb_spec (raw v) 0), (Z.eqb_spec (raw v) 1); try done; lia.
Qed.

Lemma eval_bin_inv k l r v : eval rho (BinExpr k l r) = Some v ->
  exists a b, eval rho l = Some a /\ eval rho r = Some b /\ sem_bin k (getWidth l) a b = Some v.
Proof. simpl. destruct (eval rho l) as [a|]; [|done]. destruct (eval rho r) as [b|]; [|done]. simpl. eauto. Qed.

(** A constant on the left determines the right side. *)
Lemma implied_bin k l r :
  (forall v results, wf l -> propagates l -> means l v -> Forall implied results -> returns (getImpliedValues l (Some v) results) (Forall implied)) ->
  (forall v results, wf r -> propagates r -> means r v -> Forall implied results -> returns (getImpliedValues r (Some v) results) (Forall implied)) ->
  forall v results, wf (BinExpr k l r) -> propagates (BinExpr k l r) -> means (BinExpr k l r) v -> Forall implied results ->
  returns (getImpliedValues (BinExpr k l r) (Some v) results) (Forall implied).
Proof.
  intros IHl IHr v results (Hl & Hr & Hlr) Hp Hm Hres. pose proof Hm as (Hv & Hvw & E). destruct (eval_bin_inv _ _ _ _ E) as (a & b & Ea & Eb & Es).
  pose proof (eval_inw rho l a Hl Ea) as Ha. pose proof (eval_inw rho r b Hr Eb) as Hb.
  assert (Hconst : forall c, l = ConstantExpr c -> apok c /\ bw c = getWidth r /\ raw c = a) by (intros c ->; simpl in Ea, Hlr; by simplify_eq).
  destruct k; cbn [getImpliedValues deref mbind result_bind propagates] in *; try (by apply returns_ok); try done; cbn [sem_bin] in Es.
  - destruct l as [c| | | | | | | | |]; try (by apply returns_ok). destruct (Hconst c eq_refl) as (Hc & Hcw & <-).
    apply IHr; try done; [by apply Hp|]. eapply means_sub; [exact Hm|done|done|done|done|exact Eb|]. simpl in Es. rewrite <- Hcw. congruence.
  - destruct l as [c| | | | | | | | |]; try (by apply returns_ok). destruct (Hconst c eq_refl) as (Hc & Hcw & <-).
    apply IHr; try done; [by apply Hp|]. eapply means_rsub; [exact Hm|done|done|done|done|exact Eb|]. simpl in Es. rewrite <- Hcw. congruence.
  - destruct (Z.eqb_spec (getWidth (BinExpr Kind.And l r)) Bool) as [Ew|]; [|by apply returns_ok]. simpl in Ew.
    rewrite isTrue_raw by (simpl in Hvw; congruence || done). destruct (Z.eqb_spec (raw v) 1) as [E1|]; [|by apply returns_ok].
    rewrite E1 in Es. injection Es as Es. unfold inw in Ha, Hb. rewrite <- Hlr, Ew in Hb. rewrite Ew in Ha. change (2 ^ Bool) with 2 in Ha, Hb.
    assert (Hab : a = 1 /\ b = 1).
    { assert (a = 0 \/ a = 1) as [-> | ->] by lia; [by rewrite Z.land_0_l in Es|]. assert (b = 0 \/ b = 1) as [-> | ->] by lia; done. }
    destruct Hab as [-> ->]. destruct Hp as [Hpl Hpr]. simpl in Hvw.
    eapply returns_bind; [apply IHl; try done; split_and!; [done|done|congruence]|]. intros results' Hres'. apply IHr; try done. split_and!; [done|congruence|congruence].
  - destruct l as [c| | | | | | | | |]; try (by apply returns_ok). destruct (Hconst c eq_refl) as (Hc & Hcw & <-).
    apply IHr; try done; [by apply Hp|]. eapply means_xor; [exact Hm|done|done|done|done|exact Eb|]. congruence.
  - destruct l as [c| | | | | | | | |]; try (by apply returns_ok). destruct (Hconst c eq_refl) as (Hc & Hcw & <-).
    simpl in Hvw. rewrite isTrue_raw by done. injection Es as Es. destruct (Z.eqb_spec (raw v) 1) as [E1|Hn].
    + apply IHr; try done; [by apply Hp|]. split_and!; [done|done|]. rewrite Eb. f_equal. destruct (Z.eqb_spec (raw c) b); [done|]. simpl in Es. lia.
    + destruct (Z.eqb_spec (bw c) Bool) as [Ew|]; [|by apply returns_ok]. apply IHr; try done; [by apply Hp|].
      unfold CE_Not. rewrite ap_not_spec by done. destruct Hc as [Hc1 Hc2]. rewrite <- Hcw, Ew in Hb. rewrite Ew in Hc2 |- *. unfold inw in Hb, Hc2. change (2 ^ Bool) with 2 in Hb, Hc2.
      destruct (Z.eqb_spec (raw c) b) as [|Hcb]; [simpl in Es; lia|].
      assert (Enot : bv_not Bool (raw c) = b) by (assert (raw c = 0 /\ b = 1 \/ raw c = 1 /\ b = 0) as [[-> ->]|[-> ->]] by lia; done).
      rewrite Enot. split_and!; [|simpl; congruence|done]. split; [done|]. simpl. unfold inw. change (2 ^ Bool) with 2. lia.
Qed.

Lemma getImpliedValues_ok e : forall v results, wf e -> propagates e -> means e v -> Forall implied results ->
  returns (getImpliedValues e (Some v) results) (Forall implied).
Proof.
  induction e as [c|src IH|root un index IH|cond IHc t IHt f IHf|l IHl r IHr|src IH o w|src IH w|src IH w|src IH|k l IHl r IHr]; intros v results Hw Hp Hm Hres;
    cbn [getImpliedValues deref mbind result_bind]; try (by apply returns_ok).
  - pose proof Hm as (_ & Hb & E). simpl in E, Hb. assert (v = c) as -> by (destruct v, c; simpl in *; congruence).
    rewrite bool_decide_true by done. by apply returns_ok.
  - apply returns_ok. apply Forall_app. split; [done|]. constructor; [|done]. split; [by eexists|]. by intros v' [= <-].
  - destruct t as [TC| | | | | | | | |]; try (by apply returns_ok). destruct f as [FC| | | | | | | | |]; try (by apply returns_ok).
    destruct (same_object (ConstantExpr TC) (ConstantExpr FC)) eqn:Es; [by apply returns_ok|].
    destruct Hw as (Hc & HT & HF & Hcw & Hww). destruct Hp as [Hpc [Hne|?]]; [|congruence]. pose proof Hm as (Hv & Hvw & E). simpl in E, Hvw.
    destruct (eval rho cond) as [vc|] eqn:Ec; [|done]. simpl in E. injection E as E. unfold sem_select in E. simpl in Hww.
    pose proof (eval_inw rho cond vc Hc Ec) as Hvc. unfold inw in Hvc. rewrite Hcw in Hvc. change (2 ^ Bool) with 2 in Hvc.
    case_bool_decide as Hd.
    + apply IHc; try done. destruct (bool_constant true) as ((K1 & _) & K2 & K3). cbn [Z.b2z] in K1, K2, K3. split_and!; [done|by rewrite Hcw, K3|]. rewrite Ec, K2. f_equal.
      assert (vc <> 0); [|simpl; lia]. intros ->. apply Hne. subst v. simpl in E. destruct TC, FC; simpl in *; congruence.
    + assert (Hvf : v = FC /\ vc = 0).
      { destruct (Z.eqb_spec vc 1) as [->|]; [exfalso; apply Hd; simpl in E; destruct v, TC; simpl in *; congruence|].
        assert (vc = 0) as -> by lia. split; [|done]. simpl in E. destruct v, FC; simpl in *; congruence. }
      destruct Hvf as [-> ->]. rewrite bool_decide_true by done. cbn [massert mbind result_bind]. apply IHc; try done.
      destruct (bool_constant false) as ((K1 & _) & K2 & K3). cbn [Z.b2z] in K1, K2, K3. split_and!; [done|by rewrite Hcw, K3|]. by rewrite Ec, K2.
  - destruct Hw as (Hl & Hr & Hs). destruct Hp as [Hpl Hpr]. pose proof Hm as (Hv & Hvw & E). rewrite getWidth_concat in Hvw by done. simpl in E.
    destruct (eval rho l) as [a|] eqn:El; [|done]. destruct (eval rho r) as [b|] eqn:Er; [|done]. simpl in E. injection E as E.
    pose proof (wf_width l Hl). pose proof (wf_width r Hr). pose proof (eval_inw rho l a Hl El). pose proof (eval_inw rho r b Hr Er).
    eapply returns_bind.
    + apply IHl; try done. eapply means_extract; [exact Hm|lia|lia|rewrite getWidth_concat by done; lia|done|done|].
      rewrite <- E, concat_high by (done || lia). done.
    + intros results' Hres'. apply IHr; try done. eapply means_extract; [exact Hm|lia|lia|rewrite getWidth_concat by done; lia|done|done|].
      rewrite <- E, concat_low by (done || lia). done.
  - destruct Hw as (Hs & Hsw). pose proof Hm as (Hv & Hvw & E). simpl in E. destruct (eval rho src) as [a|] eqn:Ea; [|done]. simpl in E. injection E as E.
    pose proof (wf_width src Hs). pose proof (eval_inw rho src a Hs Ea). apply IH; try done. eapply means_extract; [exact Hm|lia|lia|simpl; lia|done|done|].
    unfold sem_extract. rewrite Z.pow_0_r, Z.div_1_r, <- E, zext_trunc by (done || lia). done.
  - destruct Hw as (Hs & Hsw). pose proof Hm as (Hv & Hvw & E). simpl in E. destruct (eval rho src) as [a|] eqn:Ea; [|done]. simpl in E. injection E as E.
    pose proof (wf_width src Hs). pose proof (eval_inw rho src a Hs Ea). apply IH; try done. eapply means_extract; [exact Hm|lia|lia|simpl; lia|done|done|].
    unfold sem_extract. rewrite Z.pow_0_r, Z.div_1_r, <- E, sext_trunc by (done || lia). done.
  - by apply implied_bin.
Qed.
End implied.

(** C30. The implied values are implied: if a well-typed expression equals the constant under
    an assignment, [getImpliedValues] fails no assertion, and every read it reports has the
    reported constant, of the right width, as its value under that assignment.  Assumed
    ([propagates]): among the parts the recursion visits there is no [Or] (its operands get
    a null constant: [or_without_value]), no [Ne] (the case falls through to a failing
    cast; the constructors never build one), and no select between two equal constants
    that are different objects. *)
Theorem implied_values_correct {AP : APIntOps} {SP : APIntSpec AP} {CFG : Config} same_object rho (e : expr) (v : apint) :
  wf e -> propagates same_object e -> means rho e v ->
  returns (getImpliedValues same_object e (Some v) []) (Forall (fun p => exists c, p.2 = Some c /\ means rho p.1 c)).
Proof.
  intros Hw Hp Hm. eapply returns_weaken; [by apply (getImpliedValues_ok same_object rho e v [])|]. intros l Hl.
  eapply Forall_impl; [exact Hl|]. intros p [[c Hc] H]. exists c. auto.
Qed.
(** [263 + (byte 1, byte 0)], which is 519 if every byte holds its index. *)
Definition word_sum : expr := BinExpr Kind.Add (cst Int16 263) (ConcatExpr (byte 1) (byte 0)).
Lemma implied_values_correct_witness :
  getImpliedValues (AP := ZOps) (fun _ _ => false) word_sum (Some (APInt Int16 519)) [] = Ok [(byte 1, Some (APInt Int8 1)); (byte 0, Some (APInt Int8 0))] /\
  returns (getImpliedValues (AP := ZOps) (fun _ _ => false) word_sum (Some (APInt Int16 519)) [])
    (Forall (fun p => exists c, p.2 = Some c /\ means (CFG := default_config) ramp p.1 c)).
Proof.
  split; [vm_compute; reflexivity|]. apply (implied_values_correct (AP := ZOps) (CFG := default_config)); [concrete|by cbn|].
  split_and!; [concrete|reflexivity|vm_compute; reflexivity].
Defined.

(** The two sides of an [Or] that is zero are visited with a null constant: a read gets
    no value, and a further operation uses the null pointer. *)
Example or_without_value :
  let flag i := BinExpr Kind.Eq (cst Int8 0) (byte i) in
  getImpliedValues (AP := ZOps) (fun _ _ => false) (BinExpr Kind.Or (byte 0) (byte 1)) (Some (APInt Int8 0)) [] = Ok [(byte 0, None); (byte 1, None)] /\
  getImpliedValues (AP := ZOps) (fun _ _ => false) (BinExpr Kind.Or (flag 0) (flag 1)) (Some (APInt Bool 0)) [] = AssertFail.
Proof. split; vm_compute; reflexivity. Qed.
