(* ===== verification/ConstantDivision.v ===== *)
(** * ConstantDivision: arithmetic with constants by shifts and additions

    Models [klee/lib/Solver/ConstantDivision.cpp] and the values of the bit vectors that
    [constructMulByConstant], [constructUDivByConstant] and [constructSDivByConstant] of
    [klee/lib/Solver/STPBuilder.cpp] build with it: a multiplication becomes a sum of
    shifts, a division by a constant a multiplication by a reciprocal.  Words are numbers
    with their wrap-around; the operations of the STP library on bit vectors have their
    documented meaning. *)

From S2P Require Import Prelude Bits.
Local Open Scope Z_scope.

(** ** Counting bits *)
Definition ones (x : Z) : Z :=
  let x := u32 (x - Z.land (Z.shiftr x 1) 0x55555555) in
  let x := u32 (Z.land (Z.shiftr x 2) 0x33333333 + Z.land x 0x33333333) in
  let x := Z.land (u32 (Z.shiftr x 4 + x)) 0x0f0f0f0f in
  let x := u32 (x + Z.shiftr x 8) in
  let x := u32 (x + Z.shiftr x 16) in
  Z.land x 0x3f.
Definition smear (x : Z) : Z :=
  let x := Z.lor x (Z.shiftr x 1) in
  let x := Z.lor x (Z.shiftr x 2) in
  let x := Z.lor x (Z.shiftr x 4) in
  let x := Z.lor x (Z.shiftr x 8) in
  Z.lor x (Z.shiftr x 16).
Definition ldz (x : Z) : Z := u32 (32 - ones (smear x)).
(** [x] is 1 if [n] is a shift of a 32-bit word, and 0 otherwise. *)
Definition exp_base_2 (n : Z) : Z :=
  let x := u32 (Z.land (Z.lnot n) (n - 32)) in
  u32 (Z.shiftl (Z.shiftr x 31) n).
Definition LOG2_CEIL (x : Z) : Z := u32 (32 - ldz (u32 (x - 1))).

(** ** ComputeMultConstants64: [add] and [sub] *)
Fixpoint mult_loop (fuel : nat) (x add sub : Z) : result (Z * Z) :=
  if x =? 0 then Ok (add, sub)
  else
    match fuel with
    | O => OutOfFuel
    | S n =>
        low ← bits64.indexOfRightmostBit x;
        let lowbit := u64 (Z.shiftl 1 low) in
        let p := u64 (x + lowbit) in
        let q := bits64.isolateRightmostBit p in
        high ← (if q =? 0 then Ok 64 else bits64.indexOfSingleBit q);
        let '(add, sub) :=
          if high =? low + 1 then (Z.lor add lowbit, sub)
          else
            let '(add, sub) :=
              if negb (low =? 0) && negb (Z.land add (Z.shiftr lowbit 1) =? 0)
              then (Z.lxor add (Z.shiftr lowbit 1), Z.lxor sub (Z.shiftr lowbit 1))
              else (add, Z.lor sub lowbit) in
            (if high =? 64 then add else Z.lor add (u64 (Z.shiftl 1 high)), sub) in
        mult_loop n (Z.lxor p q) add sub
    end.
Definition ComputeMultConstants64 (multiplicand : Z) : result (Z * Z) :=
  '(add, sub) ← mult_loop 33 multiplicand 0 0;
  _ ← massert (multiplicand =? u64 (add - sub));
  Ok (add, sub).

(** ** The reciprocals *)
Definition ComputeUDivConstants32 (d : Z) : result (Z * Z * Z) :=
  let l := LOG2_CEIL d in
  let mid := u32 (exp_base_2 l - d) in
  _ ← massert (negb (d =? 0));                    (* division by zero *)
  let mprime := u32 (u64 (u64 (2 ^ 32 * mid) / d + 1)) in
  Ok (mprime, Z.min l 1, Z.max (l - 1) 0).
Definition ComputeSDivConstants32 (d : Z) : result (Z * Z * Z) :=
  let abs_d := if 0 <? d then d else - d in
  let l := Z.max 1 (LOG2_CEIL (u32 abs_d)) in
  let l := if abs_d =? 2 ^ 31 then 31 else l in
  let mid := exp_base_2 (l - 1) in
  _ ← massert (negb (abs_d =? 0));                (* division by zero *)
  let m := u64 (u64 (2 ^ 32 * mid) / abs_d + 1) in
  Ok (sgn 32 (u32 (m - 2 ^ 32)), Z.shiftr d 31, l - 1).

(** ** Logarithms *)
Lemma smear_step k x y : 0 < k -> (forall i, 0 <= i -> Z.testbit y i = true <-> exists j, 0 <= j < k /\ Z.testbit x (i + j) = true) ->
  forall i, 0 <= i -> Z.testbit (Z.lor y (Z.shiftr y k)) i = true <-> exists j, 0 <= j < k + k /\ Z.testbit x (i + j) = true.
Proof.
  intros Hk Hy i Hi. rewrite Z.lor_spec, Z.shiftr_spec by done. rewrite orb_true_iff, !Hy by lia. split.
  - intros [(j & Hj & H)|(j & Hj & H)]; [exists j; split; [lia|done]|exists (k + j); split; [lia|]]. by rewrite Z.add_assoc.
  - intros (j & Hj & H). destruct (Z.lt_ge_cases j k); [left; exists j; split; [lia|done]|right; exists (j - k)]. split; [lia|]. by replace (i + k + (j - k)) with (i + j) by lia.
Qed.
Lemma smear_spec x : 0 < x < 2 ^ 32 -> smear x = 2 ^ (Z.log2 x + 1) - 1.
Proof.
  intros Hx. assert (H : forall i, 0 <= i -> Z.testbit (smear x) i = true <-> exists j, 0 <= j < 32 /\ Z.testbit x (i + j) = true).
  { unfold smear. apply (smear_step 16 x), (smear_step 8 x), (smear_step 4 x), (smear_step 2 x), (smear_step 1 x); try lia. intros i Hi. split; [intros Hb; exists 0; rewrite Z.add_0_r; split; [lia|done]|].
    intros (j & Hj & Hb). by replace (i + j) with i in Hb by lia. }
  pose proof (Z.log2_nonneg x). assert (Hlog : Z.log2 x < 32) by (apply Z.log2_lt_pow2; lia).
  rewrite Z.sub_1_r, <- Z.ones_equiv. apply Z.bits_inj'. intros i Hi. apply eq_true_iff_eq. rewrite H by done. rewrite Z.testbit_ones_nonneg, Z.ltb_lt by lia. split.
  - intros (j & Hj & Hb). destruct (Z.lt_ge_cases (Z.log2 x) (i + j)) as [Hlt|]; [|lia]. rewrite Z.bits_above_log2 in Hb by lia. done.
  - intros Hl. exists (Z.log2 x - i). split; [lia|]. replace (i + (Z.log2 x - i)) with (Z.log2 x) by lia. apply Z.bit_log2. lia.
Qed.
Lemma ldz_spec x : 0 < x < 2 ^ 32 -> ldz x = 31 - Z.log2 x.
Proof.
  intros Hx. unfold ldz. rewrite smear_spec by done. pose proof (Z.log2_nonneg x). assert (Hlog : Z.log2 x < 32) by (apply Z.log2_lt_pow2; lia).
  pose (test k := u32 (32 - ones (2 ^ (k + 1) - 1)) =? 31 - k). assert (H1 : test (Z.log2 x) = true) by (apply (forallb_below test 32); [by vm_compute|lia]).
  by apply Z.eqb_eq in H1.
Qed.
Lemma LOG2_CEIL_spec d : 0 < d < 2 ^ 32 -> 0 <= LOG2_CEIL d <= 32 /\ d <= 2 ^ LOG2_CEIL d /\
  (LOG2_CEIL d = 0 /\ d = 1 \/ 0 < LOG2_CEIL d /\ 2 ^ (LOG2_CEIL d - 1) < d).
Proof.
  intros Hd. unfold LOG2_CEIL. rewrite (u32_small (d - 1)) by lia. destruct (Z.eq_dec d 1) as [->|].
  { change (u32 (32 - ldz (1 - 1))) with 0. lia. }
  rewrite ldz_spec by lia. pose proof (Z.log2_nonneg (d - 1)). assert (Hlog : Z.log2 (d - 1) < 32) by (apply Z.log2_lt_pow2; lia).
  destruct (Z.log2_spec (d - 1)) as [L1 L2]; [lia|]. replace (32 - (31 - Z.log2 (d - 1))) with (Z.log2 (d - 1) + 1) by lia.
  rewrite u32_small by lia. rewrite <- Z.add_1_r in L2. split_and!; try lia. right. split; [lia|]. rewrite Z.add_simpl_r. lia.
Qed.
Lemma exp_base_2_spec n : 0 <= n <= 32 -> exp_base_2 n = wrap 32 (2 ^ n).
Proof.
  intros Hn. pose (test k := exp_base_2 k =? wrap 32 (2 ^ k)). assert (H : test n = true) by (apply (forallb_below test 33); [by vm_compute|lia]). by apply Z.eqb_eq in H.
Qed.

(** ** Sums of shifts *)
Lemma run_of_ones x : 0 < x < 2 ^ 64 -> exists k H, bits64.indexOfRightmostBit x = Ok k /\ 0 <= k < 64 /\ k < H <= 64 /\ (2 ^ k | x) /\
  let p := u64 (x + 2 ^ k) in let q := bits64.isolateRightmostBit p in
  (if q =? 0 then Ok 64 else bits64.indexOfSingleBit q) = Ok H /\ Z.lxor p q = x + 2 ^ k - 2 ^ H /\
  (2 ^ (H + 1) | x + 2 ^ k - 2 ^ H) /\ 0 <= x + 2 ^ k - 2 ^ H.
Proof.
  intros Hx. destruct (odd_pow2_decomposition x) as (k & m & Hk & Hm & ->); [lia|].
  assert (Hk64 : k < 64) by (apply (rightmost_lt 64 k m); lia). pose proof (pow2_pos k Hk) as Hpk.
  exists k. assert (Hp : (2 * m + 1) * 2 ^ k + 2 ^ k = (m + 1) * 2 ^ (k + 1)) by (rewrite Z.pow_add_r by lia; lia).
  assert (Hk1 : bits64.indexOfRightmostBit ((2 * m + 1) * 2 ^ k) = Ok k).
  { unfold bits64.indexOfRightmostBit, bits64.isolateRightmostBit, u64. by rewrite isolate_rightmost, bits64.indexOfSingleBit_pow2 by lia. }
  assert (Hdiv : (2 ^ k | (2 * m + 1) * 2 ^ k)) by apply Z.divide_factor_r.
  rewrite Hp. destruct (odd_pow2_decomposition (m + 1)) as (j & m' & Hj & Hm' & Em); [lia|].
  assert (Hp2 : (m + 1) * 2 ^ (k + 1) = (2 * m' + 1) * 2 ^ (k + 1 + j)) by (rewrite Em, (Z.pow_add_r 2 (k + 1) j) by lia; lia).
  assert (Hle : (m + 1) * 2 ^ (k + 1) <= 2 ^ 64).
  { rewrite <- Hp. assert (E64 : 2 ^ 64 = 2 ^ (64 - k) * 2 ^ k) by (rewrite <- Z.pow_add_r by lia; f_equal; lia). destruct Hx as [_ Hx].
    rewrite E64 in Hx |- *. apply Z.mul_lt_mono_pos_r in Hx; [|done]. replace ((2 * m + 1) * 2 ^ k + 2 ^ k) with ((2 * m + 2) * 2 ^ k) by lia.
    apply Z.mul_le_mono_nonneg_r; lia. }
  assert (Hlow : 0 < 2 ^ (k + 1 + j)) by (apply pow2_pos; lia).
  destruct (Z.eq_dec ((m + 1) * 2 ^ (k + 1)) (2 ^ 64)) as [E|E].
  - exists 64. assert (Eu : u64 ((m + 1) * 2 ^ (k + 1)) = 0) by (rewrite E; done). rewrite Eu. rewrite E. cbv zeta. split_and!; try done; try lia. rewrite Z.sub_diag. apply Z.divide_0_r.
  - exists (k + 1 + j). assert (H64 : k + 1 + j < 64) by (apply (rightmost_lt 64 _ m'); lia).
    rewrite u64_small by (rewrite Hp2 in *; nia). rewrite Hp2. unfold bits64.isolateRightmostBit, u64. rewrite isolate_rightmost by lia.
    replace (2 ^ (k + 1 + j) =? 0) with false by lia. rewrite bits64.indexOfSingleBit_pow2 by lia.
    assert (Ediff : (2 * m' + 1) * 2 ^ (k + 1 + j) - 2 ^ (k + 1 + j) = m' * 2 ^ (k + 1 + j + 1)) by (rewrite (Z.pow_add_r 2 _ 1) by lia; lia).
    rewrite Ediff. cbv zeta. split_and!; try done; try lia; try apply Z.divide_factor_r.
    apply Z.bits_inj'. intros n Hn. rewrite Z.lxor_spec, testbit_odd_shift, Z.pow2_bits_eqb by lia.
    rewrite <- Z.shiftl_mul_pow2 by lia. destruct (Z.ltb_spec n (k + 1 + j)), (Z.eqb_spec n (k + 1 + j)), (Z.eqb_spec (k + 1 + j) n); try lia; cbn.
    + by rewrite Z.shiftl_spec_low by lia.
    + by rewrite Z.shiftl_spec_low by lia.
    + rewrite xorb_false_r, Z.shiftl_spec by lia. f_equal. lia.
Qed.

Definition disjoint_bits (a b : Z) : Prop := forall n, 0 <= n -> Z.testbit a n && Z.testbit b n = false.
Lemma disjoint_lor a b : 0 <= a -> 0 <= b -> disjoint_bits a b -> Z.lor a b = a + b.
Proof.
  intros Ha Hb H. rewrite Z.add_nocarry_lxor, Z.lxor_lor; [done| |];
    (apply Z.bits_inj'; intros n Hn; rewrite Z.land_spec, Z.bits_0; by apply H).
Qed.
Lemma bit_above a k n : 0 <= a < 2 ^ k -> k <= n -> Z.testbit a n = false.
Proof.
  intros Ha Hn. destruct (Z.eq_dec a 0) as [->|]; [apply Z.bits_0|]. assert (0 <= k) by (destruct (Z.lt_ge_cases k 0) as [H|]; [rewrite Z.pow_neg_r in Ha by done; lia|done]).
  apply Z.bits_above_log2; [lia|]. assert (Z.log2 a < k) by (apply Z.log2_lt_pow2; lia). lia.
Qed.
Lemma disjoint_pow2 a k : 0 <= k -> Z.testbit a k = false -> disjoint_bits a (2 ^ k).
Proof. intros Hk H n Hn. rewrite Z.pow2_bits_eqb by done. destruct (Z.eqb_spec k n) as [<-|]; [by rewrite H|by rewrite andb_false_r]. Qed.
Lemma set_bit a k : 0 <= k -> 0 <= a -> Z.testbit a k = false -> Z.lor a (2 ^ k) = a + 2 ^ k.
Proof. intros Hk Ha H. apply disjoint_lor; [done|apply Z.pow_nonneg; lia|by apply disjoint_pow2]. Qed.
Lemma flip_bit a k : 0 <= k -> Z.testbit a k = true -> Z.lxor a (2 ^ k) = a - 2 ^ k.
Proof.
  intros Hk H. set (b := Z.lxor a (2 ^ k)). assert (E : b + 2 ^ k = Z.lxor b (2 ^ k)).
  { apply Z.add_nocarry_lxor. apply Z.bits_inj'. intros n Hn. unfold b. rewrite Z.land_spec, Z.lxor_spec, Z.bits_0, Z.pow2_bits_eqb by done.
    destruct (Z.eqb_spec k n) as [<-|]; [by rewrite H|by rewrite andb_false_r]. }
  assert (E2 : Z.lxor b (2 ^ k) = a) by (unfold b; by rewrite Z.lxor_assoc, Z.lxor_nilpotent, Z.lxor_0_r). lia.
Qed.
Lemma land_pow2 a k : 0 <= k -> (Z.land a (2 ^ k) =? 0) = negb (Z.testbit a k).
Proof.
  intros Hk. destruct (Z.testbit a k) eqn:E; cbn.
  - apply Z.eqb_neq. intros H. apply (f_equal (fun z => Z.testbit z k)) in H. rewrite Z.land_spec, E, Z.pow2_bits_true, Z.bits_0 in H by done. done.
  - apply Z.eqb_eq. apply Z.bits_inj'. intros n Hn. rewrite Z.land_spec, Z.bits_0, Z.pow2_bits_eqb by done. destruct (Z.eqb_spec k n) as [<-|]; [by rewrite E|by rewrite andb_false_r].
Qed.

(** Two words without common bits below [2 ^ B] that differ by [v]. *)
Definition split_word (B v : Z) (p : Z * Z) : Prop :=
  0 <= p.1 < 2 ^ B /\ 0 <= p.2 < 2 ^ B /\ disjoint_bits p.1 p.2 /\ p.1 - p.2 = v.
Lemma split_add_bit B v a s k B' : split_word B v (a, s) -> 0 <= B <= k -> k < B' -> split_word B' (v + 2 ^ k) (Z.lor a (2 ^ k), s).
Proof.
  intros (Ha & Hs & Hd & Hv) Hk Hb. cbn [fst snd] in *. assert (Hak : Z.testbit a k = false) by (eapply bit_above; [exact Ha|lia]).
  assert (Hsk : Z.testbit s k = false) by (eapply bit_above; [exact Hs|lia]). pose proof (Z.pow_le_mono_r 2 B k ltac:(lia) ltac:(lia)). pose proof (Z.pow_le_mono_r 2 (k + 1) B' ltac:(lia) ltac:(lia)). rewrite (Z.pow_add_r 2 k 1) in * by lia.
  unfold split_word. cbn [fst snd]. rewrite set_bit by (done || lia). split_and!; try lia. rewrite <- set_bit by (done || lia). intros n Hn. rewrite Z.lor_spec, Z.pow2_bits_eqb by lia.
  destruct (Z.eqb_spec k n) as [<-|]; [by rewrite Hsk, andb_false_r|]. rewrite orb_false_r. by apply Hd.
Qed.
Lemma split_swap B v a s : split_word B v (a, s) -> split_word B (- v) (s, a).
Proof. intros (Ha & Hs & Hd & Hv). cbn in *. split_and!; cbn; try lia. intros n Hn. rewrite andb_comm. by apply Hd. Qed.
Lemma split_move_bit B v a s k : split_word B v (a, s) -> 0 <= k < B -> Z.testbit a k = true ->
  split_word B (v - 2 * 2 ^ k) (Z.lxor a (2 ^ k), Z.lxor s (2 ^ k)).
Proof.
  intros (Ha & Hs & Hd & Hv) Hk Hbit. cbn [fst snd] in *. assert (Hsk : Z.testbit s k = false) by (specialize (Hd k ltac:(lia)); by rewrite Hbit in Hd).
  assert (E2 : Z.lxor s (2 ^ k) = s + 2 ^ k).
  { symmetry. apply Z.add_nocarry_lxor. apply Z.bits_inj'. intros n Hn. rewrite Z.land_spec, Z.bits_0. apply disjoint_pow2; (done || lia). }
  assert (Hin : inw B (Z.lxor a (2 ^ k)) /\ inw B (Z.lxor s (2 ^ k))).
  { assert (inw B (2 ^ k)) by (unfold inw; split; [apply Z.pow_nonneg; lia|apply Z.pow_lt_mono_r; lia]). split; apply lxor_inw; unfold inw in *; lia. }
  unfold inw in Hin. unfold split_word. cbn [fst snd]. split_and!; try apply Hin.
  - intros n Hn. rewrite !Z.lxor_spec, Z.pow2_bits_eqb by lia. destruct (Z.eqb_spec k n) as [<-|]; [by rewrite Hbit|]. rewrite !xorb_false_r. by apply Hd.
  - rewrite flip_bit, E2 by (done || lia). lia.
Qed.

Lemma split_weaken B B' v p : split_word B v p -> 0 <= B <= B' -> split_word B' v p.
Proof. intros (H1 & H2 & H3 & H4) HB. pose proof (Z.pow_le_mono_r 2 B B' ltac:(lia) ltac:(lia)). split_and!; try done; lia. Qed.
(** A run of ones starts: its lowest bit is subtracted, or the bit below moves. *)
Lemma mult_low_bit k B v add sub : split_word B v (add, sub) -> 0 <= B -> B <= k < 64 -> exists add' sub',
  (if negb (k =? 0) && negb (Z.land add (Z.shiftr (2 ^ k) 1) =? 0) then (Z.lxor add (Z.shiftr (2 ^ k) 1), Z.lxor sub (Z.shiftr (2 ^ k) 1))
   else (add, Z.lor sub (2 ^ k))) = (add', sub') /\ split_word (k + 1) (v - 2 ^ k) (add', sub').
Proof.
  intros Hs HB Hk. destruct (Z.eqb_spec k 0) as [->|Hk0]; cbn [negb andb].
  { exists add, (Z.lor sub (2 ^ 0)). split; [done|]. rewrite <- (Z.opp_involutive (v - 2 ^ 0)). apply split_swap. replace (- (v - 2 ^ 0)) with (- v + 2 ^ 0) by lia.
    eapply split_add_bit; [apply split_swap; exact Hs|lia|lia]. }
  assert (Eh : Z.shiftr (2 ^ k) 1 = 2 ^ (k - 1)) by (rewrite Z.shiftr_div_pow2, Z.pow_sub_r by lia; done). rewrite Eh, land_pow2, negb_involutive by lia.
  destruct (Z.testbit add (k - 1)) eqn:Eb.
  - eexists _, _. split; [done|]. assert (HkB : k - 1 < B).
    { destruct (Z.lt_ge_cases (k - 1) B); [done|]. destruct Hs as (Ha & _). rewrite (bit_above add B) in Eb; [done|exact Ha|lia]. }
    eapply split_weaken; [|split; [exact HB|lia]]. replace (2 ^ k) with (2 * 2 ^ (k - 1)) by (rewrite <- Z.pow_succ_r by lia; f_equal; lia). apply split_move_bit; [done|lia|done].
  - eexists _, _. split; [done|]. rewrite <- (Z.opp_involutive (v - 2 ^ k)). apply split_swap. replace (- (v - 2 ^ k)) with (- v + 2 ^ k) by lia.
    eapply split_add_bit; [apply split_swap; exact Hs|lia|lia].
Qed.

Lemma mult_loop_ok n : forall B x add sub v, 0 <= B <= 64 -> (x = 0 \/ 64 - B < 2 * Z.of_nat n) -> 0 <= x < 2 ^ 64 -> (2 ^ B | x) -> split_word B v (add, sub) ->
  returns (mult_loop n x add sub) (fun p => exists v', split_word 64 v' p /\ wrap 64 v' = wrap 64 (v + x)).
Proof.
  induction n as [|n IH]; intros B x add sub v HB Hfuel Hx Hdiv Hs; cbn [mult_loop]; destruct (Z.eqb_spec x 0) as [->|Hnz].
  1,3: apply returns_ok; exists v; rewrite Z.add_0_r; split; [|done]; destruct Hs as (H1 & H2 & H3 & H4); pose proof (Z.pow_le_mono_r 2 B 64 ltac:(lia) ltac:(lia)); split_and!; try done; lia.
  { lia. }
  destruct (run_of_ones x ltac:(lia)) as (k & H & Ek & Hk & HH & Hkx & Erun). cbv zeta in Erun. destruct Erun as (EH & Ex & Hdiv' & Hpos).
  rewrite Ek. cbn [mbind result_bind]. rewrite Z.shiftl_1_l, u64_small by (split; [apply Z.pow_nonneg; lia|apply Z.pow_lt_mono_r; lia]). rewrite EH. cbn [mbind result_bind]. rewrite Ex.
  assert (HBk : B <= k).
  { destruct (bits64.indexOfRightmostBit_spec x ltac:(lia)) as (k' & Ek' & _ & _ & Hn). rewrite Ek in Ek'. injection Ek' as <-.
    destruct (Z.le_gt_cases B k); [done|]. exfalso. apply Hn. eapply Z.divide_trans; [|exact Hdiv]. exists (2 ^ (B - (k + 1))). rewrite <- Z.pow_add_r by lia. f_equal. lia. }
  set (x' := x + 2 ^ k - 2 ^ H) in *. assert (Hx' : x' < 2 ^ 64) by (pose proof (Z.pow_lt_mono_r 2 k H ltac:(lia) ltac:(lia)); lia).
  assert (Hgoal : forall w add' sub', split_word (Z.min (H + 1) 64) w (add', sub') -> wrap 64 (w + x') = wrap 64 (v + x) ->
    returns (mult_loop n x' add' sub') (fun p => exists v', split_word 64 v' p /\ wrap 64 v' = wrap 64 (v + x))).
  { intros w add' sub' Hp Ew. eapply returns_weaken; [eapply (IH (Z.min (H + 1) 64))|]; [lia| |done| |exact Hp|].
    - destruct (Z.eqb_spec H 64) as [->|]; [left|right; lia]. destruct Hdiv' as [z Hz]. change (2 ^ (64 + 1)) with (2 * 2 ^ 64) in Hz. nia.
    - eapply Z.divide_trans; [|exact Hdiv']. exists (2 ^ (H + 1 - Z.min (H + 1) 64)). rewrite <- Z.pow_add_r by lia. f_equal. lia.
    - intros p (v' & Hv' & E'). exists v'. split; [done|]. by rewrite E'. }
  destruct (Z.eqb_spec H (k + 1)) as [E1|E1].
  { apply (Hgoal (v + 2 ^ k)); [eapply split_add_bit; [exact Hs|lia|lia]|]. f_equal. unfold x'. rewrite E1, Z.pow_add_r by lia. lia. }
  destruct (mult_low_bit k B v add sub) as (add1 & sub1 & Elow & Hs1); [done|lia|lia|]. rewrite Elow.
  destruct (Z.eqb_spec H 64) as [E64|E64].
  - apply (Hgoal (v - 2 ^ k)); [eapply split_weaken; [exact Hs1|lia]|]. unfold x'. rewrite E64. unfold wrap.
    replace (v - 2 ^ k + (x + 2 ^ k - 2 ^ 64)) with (v + x + (-1) * 2 ^ 64) by lia. apply Z_mod_plus_full.
  - rewrite Z.shiftl_1_l, u64_small by (split; [apply Z.pow_nonneg; lia|apply Z.pow_lt_mono_r; lia]).
    apply (Hgoal (v - 2 ^ k + 2 ^ H)); [eapply split_add_bit; [exact Hs1|lia|lia]|]. f_equal. unfold x'. lia.
Qed.

Lemma mult_constants_ok x : 0 <= x < 2 ^ 64 -> returns (ComputeMultConstants64 x) (fun p => exists v, split_word 64 v p /\ wrap 64 v = x).
Proof.
  intros Hx. unfold ComputeMultConstants64. eapply returns_bind.
  - apply (mult_loop_ok 33 0 x 0 0 0); [lia|right; lia|done|exists x; lia|]. split_and!; try (cbn; lia). intros n Hn. by rewrite Z.bits_0.
  - intros [add sub] (v & Hs & Ev). rewrite Z.add_0_l, (wrap_small 64 x) in Ev by done. pose proof Hs as (_ & _ & _ & E). cbn in E. unfold u64. rewrite E, Ev, Z.eqb_refl. apply returns_ok. by exists v.
Qed.

(** ** Unsigned reciprocals *)
Lemma udiv_round P d m' n : 0 < P <= 2 ^ 31 -> P < d <= 2 * P -> 0 <= n < 2 ^ 32 -> 2 ^ 32 * (2 * P - d) < d * m' <= 2 ^ 32 * (2 * P - d) + d ->
  (n + m' * n / 2 ^ 32) / (2 * P) = n / d.
Proof.
  intros HP Hd Hn Hm. rewrite <- (Z.div_add_l n (2 ^ 32)), Z.div_div by lia. set (M := n * 2 ^ 32 + m' * n).
  assert (HM : exists e, 0 < e <= d /\ d * M = n * (2 ^ 32 * (2 * P)) + n * e).
  { exists (d * m' - 2 ^ 32 * (2 * P - d)). split; [lia|]. unfold M. ring. }
  destruct HM as (e & He & EM). assert (Hne : 0 <= n * e < 2 ^ 32 * (2 * P)) by nia.
  pose proof (Z.div_mod n d ltac:(lia)) as En. pose proof (Z.mod_pos_bound n d ltac:(lia)) as Hr. set (q := n / d) in *. set (r := n mod d) in *.
  set (K := 2 ^ 32 * (2 * P)) in *. assert (HK : 0 < K) by (unfold K; lia). symmetry. apply Z.div_unique with (r := M - K * q); [|lia]. left.
  assert (E2 : d * (M - K * q) = r * K + n * e) by (rewrite Z.mul_sub_distr_l, EM; rewrite En at 1; ring). clearbody K M. nia.
Qed.

Lemma half_sum n t : 0 <= t <= n -> (n - t) / 2 + t = (n + t) / 2.
Proof. intros H. replace (n + t) with (n - t + t * 2) by lia. by rewrite Z.div_add by lia. Qed.

(** The constants of an unsigned division. *)
Definition udiv_constants (d : Z) (c : Z * Z * Z) : Prop :=
  let '(mprime, sh1, sh2) := c in
  inw 32 mprime /\ 0 <= sh1 <= 1 /\ 0 <= sh2 <= 31 /\
  forall n, inw 32 n -> let t1 := n * mprime / 2 ^ 32 in
    wrap 32 (wrap 32 (n - t1) / 2 ^ sh1 + t1) / 2 ^ sh2 = n / d.
Lemma udiv_constants_ok d : 0 < d < 2 ^ 32 -> returns (ComputeUDivConstants32 d) (udiv_constants d).
Proof.
  intros Hd. unfold ComputeUDivConstants32. replace (d =? 0) with false by lia. cbn [negb massert mbind result_bind]. apply returns_ok.
  destruct (LOG2_CEIL_spec d Hd) as (Hl & Hle & [[E0 ->]|[Hl0 Hlt]]).
  { change (LOG2_CEIL 1) with 0. change (Z.min 0 1) with 0. change (Z.max (0 - 1) 0) with 0.
    change (u32 (u64 (u64 (2 ^ 32 * u32 (exp_base_2 0 - 1)) / 1 + 1))) with 1. split_and!; try lia; [by apply inw_1|]. intros n Hn. cbn zeta. rewrite Z.mul_1_r, (Z.div_small n) by done. change (2 ^ 0) with 1. rewrite Z.sub_0_r, !Z.div_1_r, Z.add_0_r. by rewrite !wrap_small by (rewrite ?wrap_small; done). }
  set (l := LOG2_CEIL d) in *. set (P := 2 ^ (l - 1)) in *. assert (EP : 2 ^ l = 2 * P) by (by apply pow2_half).
  assert (HP : 0 < P <= 2 ^ 31) by (split; [apply pow2_pos; lia|apply Z.pow_le_mono_r; lia]).
  assert (Emid : u32 (exp_base_2 l - d) = 2 * P - d).
  { rewrite exp_base_2_spec by lia. unfold u32, wrap. rewrite Zminus_mod_idemp_l, EP. apply Z.mod_small. lia. }
  rewrite Emid. pose proof (Z.div_mod (2 ^ 32 * (2 * P - d)) d ltac:(lia)) as Ed. pose proof (Z.mod_pos_bound (2 ^ 32 * (2 * P - d)) d ltac:(lia)) as Hr.
  rewrite (u64_small (2 ^ 32 * (2 * P - d))) by lia. set (k := 2 ^ 32 * (2 * P - d) / d) in *. assert (Hk : 0 <= k < 2 ^ 32 - 1) by nia.
  rewrite (u64_small (k + 1)), u32_small by lia. rewrite Z.min_r, Z.max_l by lia. split_and!; try lia; [unfold inw; lia|].
  intros n Hn. unfold inw in Hn. cbn zeta. set (t1 := n * (k + 1) / 2 ^ 32).
  assert (Ht : 0 <= t1 <= n) by (unfold t1; split; [apply Z.div_pos; nia|apply Z.div_le_upper_bound; nia]).
  rewrite (wrap_small 32 (n - t1)) by (unfold inw; lia). change (2 ^ 1) with 2. rewrite half_sum, wrap_small by (done || (unfold inw; split; [apply Z.div_pos|apply Z.div_lt_upper_bound]; lia)).
  rewrite Z.div_div by (try apply pow2_pos; lia). fold P. unfold t1. rewrite (Z.mul_comm n). apply udiv_round; nia.
Qed.

(** ** Signed reciprocals *)
Lemma sdiv_round P a m n : 0 < P -> P < a <= 2 * P -> 2 ^ 32 * P < a * m <= 2 ^ 32 * P + a -> - 2 ^ 31 <= n < 2 ^ 31 ->
  n * m / 2 ^ 32 / P + (if n <? 0 then 1 else 0) = Z.quot n a.
Proof.
  intros HP Ha Hm Hn. rewrite Z.div_div by lia. set (K := 2 ^ 32 * P) in *.
  assert (HM : exists e, 0 < e <= a /\ a * m = K + e) by (exists (a * m - K); lia). destruct HM as (e & He & EM).
  assert (HK : 0 < K) by (unfold K; lia). assert (Hne : Z.abs n * e <= K) by (unfold K; nia). assert (Hne' : 0 <= n -> n * e < K) by (unfold K; nia). clearbody K.
  destruct (Z.ltb_spec n 0) as [Hneg|Hpos].
  - replace n with (- (- n)) by lia. rewrite Z.quot_opp_l, Z.quot_div_nonneg by lia. set (k := - n) in *. rewrite Z.mul_opp_l.
    pose proof (Z.div_mod k a ltac:(lia)) as En. pose proof (Z.mod_pos_bound k a ltac:(lia)) as Hr. set (q := k / a) in *. set (r := k mod a) in *.
    assert (E2 : a * (k * m - K * q) = r * K + k * e) by (replace (a * (k * m - K * q)) with (k * (a * m) - K * q * a) by ring; rewrite EM, Z.mul_add_distr_l; rewrite En at 1; ring).
    enough (E : - (k * m) / K = - (q + 1)) by lia. symmetry. apply Z.div_unique with (r := K * (q + 1) - k * m); [|lia]. left. assert (0 < k) by lia. assert (k * e <= K) by lia. nia.
  - rewrite Z.quot_div_nonneg, Z.add_0_r by lia. specialize (Hne' Hpos).
    pose proof (Z.div_mod n a ltac:(lia)) as En. pose proof (Z.mod_pos_bound n a ltac:(lia)) as Hr. set (q := n / a) in *. set (r := n mod a) in *.
    assert (E2 : a * (n * m - K * q) = r * K + n * e) by (replace (a * (n * m - K * q)) with (n * (a * m) - K * q * a) by ring; rewrite EM, Z.mul_add_distr_l; rewrite En at 1; ring).
    symmetry. apply Z.div_unique with (r := n * m - K * q); [|lia]. left. assert (0 <= n * e) by nia. nia.
Qed.

(** The constants of a signed division. *)
Definition sdiv_constants (d : Z) (c : Z * Z * Z) : Prop :=
  let '(mprime, dsign, shpost) := c in
  - 2 ^ 31 <= mprime < 2 ^ 31 /\ dsign = (if d <? 0 then -1 else 0) /\ 0 <= shpost <= 31 /\
  forall n, - 2 ^ 31 <= n < 2 ^ 31 ->
    wrap 32 (sgn 32 (wrap 32 (n + n * mprime / 2 ^ 32)) / 2 ^ shpost + (if n <? 0 then 1 else 0)) = wrap 32 (Z.quot n (Z.abs d)).
Lemma shiftr_31 d : - 2 ^ 31 <= d < 2 ^ 31 -> Z.shiftr d 31 = if d <? 0 then -1 else 0.
Proof. intros Hd. rewrite Z.shiftr_div_pow2 by lia. destruct (Z.ltb_spec d 0); [symmetry; apply Z.div_unique with (r := d + 2 ^ 31); lia|apply Z.div_small; lia]. Qed.
Lemma mulh_range n x B M : - B <= n < B -> 0 < x <= M -> - B <= n * x / M < B.
Proof. intros Hn Hx. split; [apply Z.div_le_lower_bound; nia|apply Z.div_lt_upper_bound; nia]. Qed.
Lemma sdiv_constants_ok d : - 2 ^ 31 <= d < 2 ^ 31 -> d <> 0 -> returns (ComputeSDivConstants32 d) (sdiv_constants d).
Proof.
  intros Hd Hnz. unfold ComputeSDivConstants32. replace (if 0 <? d then d else - d) with (Z.abs d) by (destruct (Z.ltb_spec 0 d); lia).
  set (a := Z.abs d). replace (a =? 0) with false by lia. cbn [negb massert mbind result_bind]. apply returns_ok. assert (Ha : 0 < a <= 2 ^ 31) by lia.
  rewrite (u32_small a) by lia. destruct (LOG2_CEIL_spec a ltac:(lia)) as (Hl & Hle & Hcase).
  assert (Hl31 : LOG2_CEIL a <= 31). { destruct Hcase as [[-> _]|[H0 Hlt]]; [lia|]. destruct (Z.le_gt_cases (LOG2_CEIL a) 31); [done|]. pose proof (Z.pow_le_mono_r 2 31 (LOG2_CEIL a - 1) ltac:(lia) ltac:(lia)). lia. }
  assert (El : (if a =? 2 ^ 31 then 31 else Z.max 1 (LOG2_CEIL a)) = Z.max 1 (LOG2_CEIL a)).
  { destruct (Z.eqb_spec a (2 ^ 31)) as [E|]; [|done]. rewrite E. done. }
  rewrite El. rewrite shiftr_31 by done. destruct Hcase as [[El0 Ea]|[Hl0 Hlt]].
  - rewrite El0, Ea. change (Z.max 1 0) with 1. change (sgn 32 (u32 (u64 (u64 (2 ^ 32 * exp_base_2 (1 - 1)) / 1 + 1) - 2 ^ 32))) with 1. split_and!; try lia.
    intros n Hn. fold a. rewrite Ea, Z.quot_1_r, Z.mul_1_r. change (2 ^ (1 - 1)) with 1. rewrite Z.div_1_r.
    assert (En : n / 2 ^ 32 = if n <? 0 then -1 else 0) by (destruct (Z.ltb_spec n 0); [symmetry; apply Z.div_unique with (r := n + 2 ^ 32); lia|apply Z.div_small; lia]).
    rewrite En. set (s := if n <? 0 then -1 else 0). assert (Es : (if n <? 0 then 1 else 0) = - s) by (unfold s; destruct (n <? 0); done). rewrite Es.
    transitivity (wrap 32 (wrap 32 (sgn 32 (wrap 32 (n + s))) - s)); [unfold wrap; by rewrite Zminus_mod_idemp_l|]. rewrite sgn_mod by lia. unfold wrap. rewrite Z.mod_mod, Zminus_mod_idemp_l by lia. f_equal. lia.
  - rewrite Z.max_r by lia. set (l := LOG2_CEIL a) in *. set (P := 2 ^ (l - 1)) in *. assert (EP : 2 ^ l = 2 * P) by (by apply pow2_half).
    assert (HP : 0 < P <= 2 ^ 30) by (split; [apply pow2_pos; lia|apply Z.pow_le_mono_r; lia]).
    rewrite exp_base_2_spec by lia. fold P. rewrite (wrap_small 32 P) by (unfold inw; lia). rewrite (u64_small (2 ^ 32 * P)) by lia.
    pose proof (Z.div_mod (2 ^ 32 * P) a ltac:(lia)) as Ed. pose proof (Z.mod_pos_bound (2 ^ 32 * P) a ltac:(lia)) as Hr. set (k := 2 ^ 32 * P / a) in *.
    assert (Hk : 2 ^ 31 <= k < 2 ^ 32) by nia. rewrite (u64_small (k + 1)) by lia. set (mp := sgn 32 (u32 (k + 1 - 2 ^ 32))).
    assert (Emp : mp = k + 1 - 2 ^ 32) by (unfold mp, u32; apply sgn_wrap; lia). split_and!; try lia.
    intros n Hn. fold a. rewrite Emp. rewrite <- (Z.div_add_l n (2 ^ 32)) by lia. rewrite <- Z.mul_add_distr_l, Zplus_minus.
    rewrite sgn_wrap; [|lia|]. { f_equal. apply sdiv_round; lia. }
    apply mulh_range; lia.
Qed.
