(* ===== verification/VC.v ===== *)
(** * VC: the interface of the STP decision procedure

    [klee/lib/Solver/STPBuilder.cpp] translates expressions through the C interface of
    STP, which is not part of the repository.  [VCOps] has the functions the builder
    calls and [VCSpec] what their documentation promises: which terms are formulas,
    bit vectors and arrays, and the value of each in a model.  A model gives the array
    variables their contents, by name.  Nothing is promised about terms that are not
    well sorted, and about divisions by zero only that they have some value.
    [SemOps] is a computable model of the interface. *)

From S2P Require Import Prelude APInt ExprData.
Local Open Scope Z_scope.

Class VCOps := {
  VCExpr : Type;
  VCType : Type;
  vc_bvType : Z -> VCType;
  vc_arrayType : VCType -> VCType -> VCType;
  vc_varExpr : string -> VCType -> VCExpr;
  vc_getBVLength : VCExpr -> Z;
  vc_trueExpr : VCExpr;
  vc_falseExpr : VCExpr;
  vc_notExpr : VCExpr -> VCExpr;
  vc_andExpr : VCExpr -> VCExpr -> VCExpr;
  vc_orExpr : VCExpr -> VCExpr -> VCExpr;
  vc_iffExpr : VCExpr -> VCExpr -> VCExpr;
  vc_iteExpr : VCExpr -> VCExpr -> VCExpr -> VCExpr;
  vc_eqExpr : VCExpr -> VCExpr -> VCExpr;
  vc_bvConstExprFromInt : Z -> Z -> VCExpr;
  vc_bvConstExprFromLL : Z -> Z -> VCExpr;
  vc_bvConcatExpr : VCExpr -> VCExpr -> VCExpr;
  vc_bvExtract : VCExpr -> Z -> Z -> VCExpr;
  vc_bvSignExtend : VCExpr -> Z -> VCExpr;
  vc_bvPlusExpr : Z -> VCExpr -> VCExpr -> VCExpr;
  vc_bvMinusExpr : Z -> VCExpr -> VCExpr -> VCExpr;
  vc_bvMultExpr : Z -> VCExpr -> VCExpr -> VCExpr;
  vc_bvDivExpr : Z -> VCExpr -> VCExpr -> VCExpr;
  vc_bvModExpr : Z -> VCExpr -> VCExpr -> VCExpr;
  vc_sbvDivExpr : Z -> VCExpr -> VCExpr -> VCExpr;
  vc_sbvRemExpr : Z -> VCExpr -> VCExpr -> VCExpr;
  vc_bvUMinusExpr : VCExpr -> VCExpr;
  vc_bvNotExpr : VCExpr -> VCExpr;
  vc_bvAndExpr : VCExpr -> VCExpr -> VCExpr;
  vc_bvOrExpr : VCExpr -> VCExpr -> VCExpr;
  vc_bvXorExpr : VCExpr -> VCExpr -> VCExpr;
  vc_bvLtExpr : VCExpr -> VCExpr -> VCExpr;
  vc_bvLeExpr : VCExpr -> VCExpr -> VCExpr;
  vc_sbvLtExpr : VCExpr -> VCExpr -> VCExpr;
  vc_sbvLeExpr : VCExpr -> VCExpr -> VCExpr;
  vc_readExpr : VCExpr -> VCExpr -> VCExpr;
  vc_writeExpr : VCExpr -> VCExpr -> VCExpr -> VCExpr;
}.

(** A model: the contents of the array variables. *)
Definition interp := string -> Z -> Z.

(** [t op u] has the value [op] gives unless the divisor is zero. *)
Definition total_div (op : Z -> Z -> Z -> Z) (w : Z) (f g h : interp -> Z) : Prop :=
  forall I, g I <> 0 -> h I = op w (f I) (g I).

(** ** The promises *)
Class VCSpec (VC : VCOps) := {
  is_bool : VCExpr -> (interp -> bool) -> Prop;
  is_bv : VCExpr -> Z -> (interp -> Z) -> Prop;
  is_arr : VCExpr -> Z -> Z -> (interp -> Z -> Z) -> Prop;
  is_bool_ext t f g : is_bool t f -> (forall I, f I = g I) -> is_bool t g;
  is_bv_ext t w f g : is_bv t w f -> (forall I, f I = g I) -> is_bv t w g;
  is_arr_ext t d r f g : is_arr t d r f -> (forall I i, inw d i -> f I i = g I i) -> is_arr t d r g;
  is_bv_range t w f : is_bv t w f -> 0 < w /\ forall I, inw w (f I);
  bv_length t w f : is_bv t w f -> vc_getBVLength t = w;
  true_is : is_bool vc_trueExpr (fun _ => true);
  false_is : is_bool vc_falseExpr (fun _ => false);
  not_is a f : is_bool a f -> is_bool (vc_notExpr a) (fun I => negb (f I));
  and_is a b f g : is_bool a f -> is_bool b g -> is_bool (vc_andExpr a b) (fun I => f I && g I);
  or_is a b f g : is_bool a f -> is_bool b g -> is_bool (vc_orExpr a b) (fun I => f I || g I);
  iff_is a b f g : is_bool a f -> is_bool b g -> is_bool (vc_iffExpr a b) (fun I => eqb (f I) (g I));
  ite_bool_is c a b f g h : is_bool c f -> is_bool a g -> is_bool b h ->
    is_bool (vc_iteExpr c a b) (fun I => if f I then g I else h I);
  ite_bv_is c a b w f g h : is_bool c f -> is_bv a w g -> is_bv b w h ->
    is_bv (vc_iteExpr c a b) w (fun I => if f I then g I else h I);
  eq_is a b w f g : is_bv a w f -> is_bv b w g -> is_bool (vc_eqExpr a b) (fun I => f I =? g I);
  const_int_is w v : 0 < w -> inw w v -> inw 32 v -> is_bv (vc_bvConstExprFromInt w v) w (fun _ => v);
  const_ll_is w v : 0 < w <= 64 -> inw 64 v -> is_bv (vc_bvConstExprFromLL w v) w (fun _ => wrap w v);
  concat_is a b wa wb f g : is_bv a wa f -> is_bv b wb g ->
    is_bv (vc_bvConcatExpr a b) (wa + wb) (fun I => sem_concat wb (f I) (g I));
  extract_is a w f hi lo : is_bv a w f -> 0 <= lo <= hi -> hi < w ->
    is_bv (vc_bvExtract a hi lo) (hi - lo + 1) (fun I => sem_extract lo (hi - lo + 1) (f I));
  sext_is a w f w' : is_bv a w f -> w <= w' -> is_bv (vc_bvSignExtend a w') w' (fun I => bv_sext w w' (f I));
  plus_is a b w f g : is_bv a w f -> is_bv b w g -> is_bv (vc_bvPlusExpr w a b) w (fun I => bv_add w (f I) (g I));
  minus_is a b w f g : is_bv a w f -> is_bv b w g -> is_bv (vc_bvMinusExpr w a b) w (fun I => bv_sub w (f I) (g I));
  mult_is a b w f g : is_bv a w f -> is_bv b w g -> is_bv (vc_bvMultExpr w a b) w (fun I => bv_mul w (f I) (g I));
  div_is a b w f g : is_bv a w f -> is_bv b w g -> exists h, is_bv (vc_bvDivExpr w a b) w h /\ total_div bv_udiv w f g h;
  mod_is a b w f g : is_bv a w f -> is_bv b w g -> exists h, is_bv (vc_bvModExpr w a b) w h /\ total_div bv_urem w f g h;
  sdiv_is a b w f g : is_bv a w f -> is_bv b w g -> exists h, is_bv (vc_sbvDivExpr w a b) w h /\ total_div bv_sdiv w f g h;
  srem_is a b w f g : is_bv a w f -> is_bv b w g -> exists h, is_bv (vc_sbvRemExpr w a b) w h /\ total_div bv_srem w f g h;
  uminus_is a w f : is_bv a w f -> is_bv (vc_bvUMinusExpr a) w (fun I => bv_neg w (f I));
  bvnot_is a w f : is_bv a w f -> is_bv (vc_bvNotExpr a) w (fun I => bv_not w (f I));
  bvand_is a b w f g : is_bv a w f -> is_bv b w g -> is_bv (vc_bvAndExpr a b) w (fun I => Z.land (f I) (g I));
  bvor_is a b w f g : is_bv a w f -> is_bv b w g -> is_bv (vc_bvOrExpr a b) w (fun I => Z.lor (f I) (g I));
  bvxor_is a b w f g : is_bv a w f -> is_bv b w g -> is_bv (vc_bvXorExpr a b) w (fun I => Z.lxor (f I) (g I));
  lt_is a b w f g : is_bv a w f -> is_bv b w g -> is_bool (vc_bvLtExpr a b) (fun I => f I <? g I);
  le_is a b w f g : is_bv a w f -> is_bv b w g -> is_bool (vc_bvLeExpr a b) (fun I => f I <=? g I);
  slt_is a b w f g : is_bv a w f -> is_bv b w g -> is_bool (vc_sbvLtExpr a b) (fun I => bv_slt w (f I) (g I));
  sle_is a b w f g : is_bv a w f -> is_bv b w g -> is_bool (vc_sbvLeExpr a b) (fun I => bv_sle w (f I) (g I));
  var_is n d r : 0 < d -> 0 < r ->
    is_arr (vc_varExpr n (vc_arrayType (vc_bvType d) (vc_bvType r))) d r (fun I i => wrap r (I n i));
  read_is a b d r f g : is_arr a d r f -> is_bv b d g -> is_bv (vc_readExpr a b) r (fun I => f I (g I));
  write_is a b c d r f g h : is_arr a d r f -> is_bv b d g -> is_bv c r h ->
    is_arr (vc_writeExpr a b c) d r (fun I i => if i =? g I then h I else f I i);
}.

(** Meanings are compared model by model. *)
#[export] Instance is_bool_proper {VC : VCOps} {SP : VCSpec VC} t : Proper (pointwise_relation _ eq ==> iff) (is_bool t).
Proof. intros f g E. split; intros H; (eapply is_bool_ext; [exact H|]); intros I; by rewrite (E I). Qed.
#[export] Instance is_bv_proper {VC : VCOps} {SP : VCSpec VC} t w : Proper (pointwise_relation _ eq ==> iff) (is_bv t w).
Proof. intros f g E. split; intros H; (eapply is_bv_ext; [exact H|]); intros I; by rewrite (E I). Qed.

(** ** A computable model of the interface

    A term is its meaning; ill-sorted terms have none.  A division by zero is zero. *)
Inductive sem :=
| SBool (f : interp -> bool)
| SBV (w : Z) (f : interp -> Z)
| SArr (d r : Z) (f : interp -> Z -> Z)
| SBad.
Inductive semtype := TBV (w : Z) | TArr (d r : Z) | TBad.

Definition sbv2 (op : Z -> Z -> Z -> Z) (a b : sem) : sem :=
  match a, b with
  | SBV w f, SBV w' g => if w =? w' then SBV w (fun I => op w (f I) (g I)) else SBad
  | _, _ => SBad
  end.
Definition sbvc (op : Z -> Z -> Z -> bool) (a b : sem) : sem :=
  match a, b with
  | SBV w f, SBV w' g => if w =? w' then SBool (fun I => op w (f I) (g I)) else SBad
  | _, _ => SBad
  end.
Definition sbool2 (op : bool -> bool -> bool) (a b : sem) : sem :=
  match a, b with SBool f, SBool g => SBool (fun I => op (f I) (g I)) | _, _ => SBad end.
Definition div_or_0 (op : Z -> Z -> Z -> Z) (w a b : Z) : Z := if b =? 0 then 0 else op w a b.

Definition SemOps : VCOps := {|
  VCExpr := sem;
  VCType := semtype;
  vc_bvType := TBV;
  vc_arrayType d r := match d, r with TBV d, TBV r => TArr d r | _, _ => TBad end;
  vc_varExpr n t := match t with TArr d r => SArr d r (fun I i => wrap r (I n i)) | _ => SBad end;
  vc_getBVLength t := match t with SBV w _ => w | _ => 0 end;
  vc_trueExpr := SBool (fun _ => true);
  vc_falseExpr := SBool (fun _ => false);
  vc_notExpr a := match a with SBool f => SBool (fun I => negb (f I)) | _ => SBad end;
  vc_andExpr := sbool2 andb;
  vc_orExpr := sbool2 orb;
  vc_iffExpr := sbool2 eqb;
  vc_iteExpr c a b :=
    match c, a, b with
    | SBool f, SBool g, SBool h => SBool (fun I => if f I then g I else h I)
    | SBool f, SBV w g, SBV w' h => if w =? w' then SBV w (fun I => if f I then g I else h I) else SBad
    | _, _, _ => SBad
    end;
  vc_eqExpr := sbvc (fun _ => Z.eqb);
  vc_bvConstExprFromInt w v := SBV w (fun _ => v);
  vc_bvConstExprFromLL w v := SBV w (fun _ => wrap w v);
  vc_bvConcatExpr a b :=
    match a, b with SBV wa f, SBV wb g => SBV (wa + wb) (fun I => sem_concat wb (f I) (g I)) | _, _ => SBad end;
  vc_bvExtract a hi lo :=
    match a with SBV _ f => SBV (hi - lo + 1) (fun I => sem_extract lo (hi - lo + 1) (f I)) | _ => SBad end;
  vc_bvSignExtend a w' := match a with SBV w f => SBV w' (fun I => bv_sext w w' (f I)) | _ => SBad end;
  vc_bvPlusExpr _ := sbv2 bv_add;
  vc_bvMinusExpr _ := sbv2 bv_sub;
  vc_bvMultExpr _ := sbv2 bv_mul;
  vc_bvDivExpr _ := sbv2 (div_or_0 bv_udiv);
  vc_bvModExpr _ := sbv2 (div_or_0 bv_urem);
  vc_sbvDivExpr _ := sbv2 (div_or_0 bv_sdiv);
  vc_sbvRemExpr _ := sbv2 (div_or_0 bv_srem);
  vc_bvUMinusExpr a := match a with SBV w f => SBV w (fun I => bv_neg w (f I)) | _ => SBad end;
  vc_bvNotExpr a := match a with SBV w f => SBV w (fun I => bv_not w (f I)) | _ => SBad end;
  vc_bvAndExpr := sbv2 (fun _ => Z.land);
  vc_bvOrExpr := sbv2 (fun _ => Z.lor);
  vc_bvXorExpr := sbv2 (fun _ => Z.lxor);
  vc_bvLtExpr := sbvc (fun _ => Z.ltb);
  vc_bvLeExpr := sbvc (fun _ => Z.leb);
  vc_sbvLtExpr := sbvc bv_slt;
  vc_sbvLeExpr := sbvc bv_sle;
  vc_readExpr a b := match a, b with SArr _ r f, SBV _ g => SBV r (fun I => f I (g I)) | _, _ => SBad end;
  vc_writeExpr a b c :=
    match a, b, c with
    | SArr d r f, SBV _ g, SBV _ h => SArr d r (fun I i => if i =? g I then h I else f I i)
    | _, _, _ => SBad
    end;
|}.

Definition sem_is_bool (t : sem) (f : interp -> bool) : Prop :=
  match t with SBool g => forall I, g I = f I | _ => False end.
Definition sem_is_bv (t : sem) (w : Z) (f : interp -> Z) : Prop :=
  match t with SBV w' g => w' = w /\ 0 < w /\ forall I, inw w (f I) /\ g I = f I | _ => False end.
Definition sem_is_arr (t : sem) (d r : Z) (f : interp -> Z -> Z) : Prop :=
  match t with
  | SArr d' r' g => d' = d /\ r' = r /\ 0 < r /\ forall I i, inw d i -> inw r (f I i) /\ g I i = f I i
  | _ => False
  end.

Lemma sem_bv2 op a b w f g : (forall x y, inw w x -> inw w y -> inw w (op w x y)) ->
  sem_is_bv a w f -> sem_is_bv b w g -> sem_is_bv (sbv2 op a b) w (fun I => op w (f I) (g I)).
Proof.
  intros Hop. destruct a, b; simpl; try tauto. intros (-> & Hw & Hf) (-> & _ & Hg). rewrite Z.eqb_refl. simpl. split_and!; try done.
  intros I. destruct (Hf I) as [? ->], (Hg I) as [? ->]. auto.
Qed.
Lemma sem_bvc op a b w f g : sem_is_bv a w f -> sem_is_bv b w g -> sem_is_bool (sbvc op a b) (fun I => op w (f I) (g I)).
Proof.
  destruct a, b; simpl; try tauto. intros (-> & Hw & Hf) (-> & _ & Hg). rewrite Z.eqb_refl. simpl. intros I.
  by destruct (Hf I) as [_ ->], (Hg I) as [_ ->].
Qed.
Lemma sem_div op a b w f g : (forall x y, inw w x -> inw w y -> y <> 0 -> inw w (op w x y)) -> sem_is_bv a w f -> sem_is_bv b w g ->
  exists h, sem_is_bv (sbv2 (div_or_0 op) a b) w h /\ total_div op w f g h.
Proof.
  intros Hop Ha Hb. exists (fun I => div_or_0 op w (f I) (g I)). split.
  - apply sem_bv2; try done. assert (0 < w) by (destruct a; simpl in Ha; tauto). intros x y Hx Hy. unfold div_or_0. destruct (Z.eqb_spec y 0); [apply inw_0; lia|auto].
  - intros I Hne. unfold div_or_0. by rewrite (proj2 (Z.eqb_neq _ _) Hne).
Qed.
Lemma sem_pos t w f : sem_is_bv t w f -> 0 < w.
Proof. destruct t; simpl; tauto. Qed.

(** Opens the operands by their sorts and reads their values in a model. *)
Ltac sem_open :=
  intros; repeat match goal with t : sem |- _ => destruct t; simpl in *; try tauto end;
  repeat match goal with H : _ /\ _ |- _ => destruct H end; subst; rewrite ?Z.eqb_refl; simpl.
Ltac sem_at :=
  let I := fresh "I" in intros I;
  repeat match goal with
  | H : forall J : interp, inw _ _ /\ _ |- _ => destruct (H I) as [? ->]; clear H
  | H : forall J : interp, _ = _ |- _ => rewrite (H I); clear H
  end.

#[export] Instance SemSpec : VCSpec SemOps.
Proof.
  refine {| is_bool (t : VCExpr (VCOps := SemOps)) := sem_is_bool t; is_bv (t : VCExpr (VCOps := SemOps)) := sem_is_bv t;
            is_arr (t : VCExpr (VCOps := SemOps)) := sem_is_arr t |}; simpl.
  all: lazymatch goal with
       | |- context [sbv2 (div_or_0 ?op)] => intros a b w f g Ha Hb; pose proof (sem_pos _ _ _ Ha); apply (sem_div op); auto with klee
       | |- context [sbv2 ?op] => intros a b w f g Ha Hb; pose proof (sem_pos _ _ _ Ha); apply (sem_bv2 op); auto with klee
       | |- context [sbvc ?op] => intros a b w f g Ha Hb; apply (sem_bvc op _ _ w); auto
       | _ => idtac
       end.
  all: try (intros; apply land_inw || apply lor_inw || apply lxor_inw; try done; lia).
  all: try (sem_open; sem_at; reflexivity).
  - intros t w f g Ht E. destruct t; simpl in *; try tauto. destruct Ht as (-> & Hw & Ht). split_and!; try done. intros I. rewrite <- E. apply Ht.
  - intros t d r f g Ht E. destruct t; simpl in *; try tauto. destruct Ht as (-> & -> & Hr & Ht). split_and!; try done. intros I i Hi. rewrite <- E by done. by apply Ht.
  - intros t w f Ht. destruct t; simpl in *; try tauto. destruct Ht as (-> & Hw & Ht). split; [done|]. intros I. apply Ht.
  - done.
  - done.
  - sem_open. split_and!; try done. intros I. rewrite H. destruct (H5 I) as [? ->], (H3 I) as [? ->]. by case_match.
  - done.
  - intros w v Hw Hv. split_and!; try lia. intros I. split; [apply wrap_inw; lia|done].
  - sem_open. split_and!; [done|lia|]. sem_at. split; [apply sem_concat_inw; try done; lia|done].
  - sem_open. split_and!; [done|lia|]. sem_at. split; [apply wrap_inw; lia|done].
  - sem_open. split_and!; [done|lia|]. sem_at. split; [apply wrap_inw; lia|done].
  - sem_open. split_and!; [done|lia|]. sem_at. split; [apply bv_neg_inw; lia|done].
  - sem_open. split_and!; [done|lia|]. sem_at. split; [apply bv_not_inw; (done || lia)|done].
  - intros n d r Hd Hr. split_and!; try done. intros I i Hi. split; [apply wrap_inw; lia|done].
  - intros a b d r f g Ha Hb. destruct a; simpl in *; try tauto. destruct b; simpl in *; try tauto. destruct Ha as (-> & -> & Hr & Ha), Hb as (-> & Hd & Hb).
    split_and!; try done. intros I. destruct (Hb I) as [? ->]. by apply Ha.
  - intros a b c d r f g h Ha Hb Hc. destruct a; simpl in *; try tauto. destruct b; simpl in *; try tauto. destruct c; simpl in *; try tauto.
    destruct Ha as (-> & -> & Hr & Ha), Hb as (-> & Hd & Hb), Hc as (-> & _ & Hc). split_and!; try done.
    intros I i Hi. destruct (Hb I) as [? ->], (Hc I) as [? ->]. case_match; [done|by apply Ha].
Defined.
