(* ===== verification/STPBuilder.v ===== *)
(** * STPBuilder: translating expressions for the STP decision procedure

    Models [klee/lib/Solver/STPBuilder.cpp] and [klee/include/klee/util/ArrayExprHash.h]
    over the interface [VCOps].  A [ref<ExprHandle>] is the term it holds; the caches of
    the builder are its state.  An [UpdateNode] is looked up by address, here by the
    array it belongs to and its contents.  Where the arguments of a call have no
    order in the language, they are constructed from left to right.  The statistics
    counter and the reference counts of the handles are left out. *)

From S2P Require Import Prelude APInt ExprData Bits ExprCompare ExprCreate ExprUtil ConstantDivision VC.
From stdpp Require Import pretty.
Local Open Scope Z_scope.

Section handles.
Context {VC : VCOps}.

(** ** Constants *)
Definition bvConst32 (width value : Z) : VCExpr := vc_bvConstExprFromInt width value.
Definition bvConst64 (width value : Z) : VCExpr := vc_bvConstExprFromLL width value.
(** [for (width -= 64; width > 64; width -= 64)] after its initialisation. *)
Fixpoint zext_loop (fuel : nat) (width : Z) (zero e : VCExpr) : result (Z * VCExpr) :=
  if 64 <? width then
    match fuel with
    | O => OutOfFuel
    | S n => zext_loop n (width - 64) zero (vc_bvConcatExpr zero e)
    end
  else Ok (width, e).
Definition bvZExtConst (width value : Z) : result VCExpr :=
  if width <=? 64 then Ok (bvConst64 width value)
  else
    let e := bvConst64 64 value in
    let zero := bvConst64 64 0 in
    '(width, e) ← zext_loop (Z.to_nat (width / 64)) (width - 64) zero e;
    Ok (vc_bvConcatExpr (bvConst64 width 0) e).
Definition bvSExtConst (width value : Z) : VCExpr :=
  if width <=? 64 then bvConst64 width value
  else vc_bvSignExtend (bvConst64 64 value) width.
Definition bvOne (width : Z) : result VCExpr := bvZExtConst width 1.
Definition bvZero (width : Z) : result VCExpr := bvZExtConst width 0.
Definition bvMinusOne (width : Z) : VCExpr := bvSExtConst width (u64 (-1)).

Definition bvExtract (e : VCExpr) (top bottom : Z) : VCExpr := vc_bvExtract e top bottom.
Definition bvBoolExtract (e : VCExpr) (bit : Z) : result VCExpr :=
  one ← bvOne 1; Ok (vc_eqExpr (bvExtract e bit bit) one).
Definition eqExpr (a b : VCExpr) : result VCExpr :=
  _ ← massert (vc_getBVLength a =? vc_getBVLength b); Ok (vc_eqExpr a b).

(** ** Shifts *)
Definition bvRightShift (e : VCExpr) (shift : Z) : result VCExpr :=
  let width := vc_getBVLength e in
  if shift =? 0 then Ok e
  else if width <=? shift then bvZero width
  else z ← bvZero shift; Ok (vc_bvConcatExpr z (bvExtract e (width - 1) shift)).
Definition bvLeftShift (e : VCExpr) (shift : Z) : result VCExpr :=
  let width := vc_getBVLength e in
  if shift =? 0 then Ok e
  else if width <=? shift then bvZero width
  else z ← bvZero shift; Ok (vc_bvConcatExpr (bvExtract e (width - shift - 1) 0) z).

(** [APInt(32, width).getActiveBits()] *)
Definition activeBits (width : Z) : Z := if width =? 0 then 0 else Z.log2 width + 1.
Definition extractPartialShiftValue (shift : VCExpr) (width : Z) : VCExpr * Z :=
  let shiftBits := activeBits width in (vc_bvExtract shift (shiftBits - 1) 0, shiftBits).

(** The loops over the shift amounts [i - 1], ..., [0], an [int]. *)
Fixpoint shift_cases (i : nat) (shift_ext : VCExpr) (shiftBits : Z) (by_ : Z -> result VCExpr)
    (res : VCExpr) : result VCExpr :=
  match i with
  | O => Ok res
  | S j =>
      c ← eqExpr shift_ext (bvConst32 shiftBits (Z.of_nat j));
      t ← by_ (Z.of_nat j);
      shift_cases j shift_ext shiftBits by_ (vc_iteExpr c t res)
  end.
Definition int_loop (first : Z) : nat := Z.to_nat (sgn 32 (u32 first) + 1).
(** "If overshifting, shift to zero" *)
Definition no_overshift (shift res : VCExpr) (width : Z) : result VCExpr :=
  let ex := vc_bvLtExpr shift (bvConst32 (vc_getBVLength shift) width) in
  z ← bvZero width; Ok (vc_iteExpr ex res z).

Definition bvVarLeftShift (e shift : VCExpr) : result VCExpr :=
  let width := vc_getBVLength e in
  res ← bvZero width;
  let '(shift_ext, shiftBits) := extractPartialShiftValue shift width in
  res ← shift_cases (int_loop (width - 1)) shift_ext shiftBits (bvLeftShift e) res;
  no_overshift shift res width.
Definition bvVarRightShift (e shift : VCExpr) : result VCExpr :=
  let width := vc_getBVLength e in
  res ← bvZero width;
  let '(shift_ext, shiftBits) := extractPartialShiftValue shift width in
  res ← shift_cases (int_loop (width - 1)) shift_ext shiftBits (bvRightShift e) res;
  no_overshift shift res width.

Definition constructAShrByConstant (e : VCExpr) (shift : Z) (isSigned : VCExpr) : result VCExpr :=
  let width := vc_getBVLength e in
  if shift =? 0 then Ok e
  else if width <=? shift then bvZero width
  else
    r ← bvRightShift e shift;
    Ok (vc_iteExpr isSigned (vc_bvConcatExpr (bvMinusOne shift) (bvExtract e (width - 1) shift)) r).
Definition bvVarArithRightShift (e shift : VCExpr) : result VCExpr :=
  let width := vc_getBVLength e in
  let '(shift_ext, shiftBits) := extractPartialShiftValue shift width in
  signedBool ← bvBoolExtract e (width - 1);
  res ← constructAShrByConstant e (width - 1) signedBool;
  res ← shift_cases (int_loop (width - 2)) shift_ext shiftBits
          (fun i => constructAShrByConstant e i signedBool) res;
  no_overshift shift res width.

(** ** Multiplication and division by a constant *)

(** The loop of [constructMulByConstant], from bit [j - 1] down; no term is a null handle. *)
Fixpoint mul_bits (j : nat) (e : VCExpr) (width add sub : Z) (res : option VCExpr) : result (option VCExpr) :=
  match j with
  | O => Ok res
  | S j' =>
      let a := Z.testbit add (Z.of_nat j') in
      let s := Z.testbit sub (Z.of_nat j') in
      if a || s then
        _ ← massert (negb (a && s));
        op ← bvLeftShift e (Z.of_nat j');
        mul_bits j' e width add sub
          (Some (match res, a with
                 | Some r, true => vc_bvPlusExpr width r op
                 | None, true => op
                 | Some r, false => vc_bvMinusExpr width r op
                 | None, false => vc_bvUMinusExpr op
                 end))
      else mul_bits j' e width add sub res
  end.
Definition constructMulByConstant (e : VCExpr) (width x : Z) : result VCExpr :=
  '(add, sub) ← ComputeMultConstants64 x;
  add ← bits64.truncateToNBits add width;
  sub ← bits64.truncateToNBits sub width;
  res ← mul_bits 64 e width add sub None;
  match res with Some r => Ok r | None => bvZero width end.

Definition constructUDivByConstant (expr_n : VCExpr) (width d : Z) : result VCExpr :=
  _ ← massert (width =? 32);
  '(mprime, sh1, sh2) ← ComputeUDivConstants32 (u32 d);
  let expr_sh1 := bvConst32 32 sh1 in
  let expr_sh2 := bvConst32 32 sh2 in
  zero ← bvZero 32;
  let expr_n_64 := vc_bvConcatExpr zero expr_n in
  t1_64bits ← constructMulByConstant expr_n_64 64 mprime;
  let t1 := vc_bvExtract t1_64bits 63 32 in
  let n_minus_t1 := vc_bvMinusExpr width expr_n t1 in
  shift_sh1 ← bvVarRightShift n_minus_t1 expr_sh1;
  let plus_t1 := vc_bvPlusExpr width shift_sh1 t1 in
  bvVarRightShift plus_t1 expr_sh2.

Definition constructSDivByConstant (expr_n : VCExpr) (width d : Z) : result VCExpr :=
  _ ← massert (width =? 32);
  '(mprime, dsign, shpost) ← ComputeSDivConstants32 (sgn 32 (u32 d));
  let expr_dsign := bvConst32 32 (u32 dsign) in
  let expr_shpost := bvConst32 32 (u32 shpost) in
  let mprime_64 := u64 mprime in
  let expr_n_64 := vc_bvSignExtend expr_n 64 in
  mult_64 ← constructMulByConstant expr_n_64 64 mprime_64;
  let mulsh := vc_bvExtract mult_64 63 32 in
  let n_plus_mulsh := vc_bvPlusExpr width expr_n mulsh in
  let extend_npm := vc_bvSignExtend n_plus_mulsh 64 in
  shift_npm ← bvVarRightShift extend_npm expr_shpost;
  let shift_shpost := vc_bvExtract shift_npm 31 0 in
  is_signed ← bvBoolExtract expr_n 31;
  zero ← bvZero 32;
  let xsign_of_n := vc_iteExpr is_signed (bvMinusOne 32) zero in
  let q0 := vc_bvMinusExpr width shift_shpost xsign_of_n in
  let q0_xor_dsign := vc_bvXorExpr q0 expr_dsign in
  Ok (vc_bvMinusExpr width q0_xor_dsign expr_dsign).
End handles.

(** ** The state of the builder *)

(** The address of an update node, in the list of updates of an array: terms of nodes are
    cached under it.  Nodes are values here, so that equal nodes are one object. *)
Class NodeAddress := node_address : Array -> UpdateNode -> Z.

Section builder.
Context {AP : APIntOps} {VC : VCOps} {NA : NodeAddress}.

(** [constructed] and [_arr_hash]; arrays in the order they were hashed. *)
Record bst := {
  constructed : list (expr * (VCExpr * Z));
  array_hash : list (Array * VCExpr);
  update_node_hash : list (Z * VCExpr);
}.
Definition B (A : Type) : Type := bst -> result (A * bst).
#[export] Instance B_ret : MRet B := fun A a s => Ok (a, s).
#[export] Instance B_bind : MBind B := fun A C f m s => '(a, s') ← m s; f a s'.
Definition liftB {A} (m : result A) : B A := fun s => a ← m; Ok (a, s).

Fixpoint constructed_find (t : list (expr * (VCExpr * Z))) (e : expr) : option (VCExpr * Z) :=
  match t with
  | [] => None
  | (k, v) :: t' => if expr_eqb k e then Some v else constructed_find t' e
  end.
(** [lookupArrayExpr] and [lookupUpdateNodeExpr] *)
Fixpoint hash_find {K} `{EqDecision K} (t : list (K * VCExpr)) (k : K) : option VCExpr :=
  match t with
  | [] => None
  | (k', v) :: t' => if decide (k' = k) then Some v else hash_find t' k
  end.
(** [_array_hash[array] = exp], for a new key, and [_update_node_hash[un] = exp], which
    hides an older entry. *)
Definition hashArrayExpr (root : Array) (t : VCExpr) : B unit := fun s =>
  Ok (tt, {| constructed := constructed s; array_hash := array_hash s ++ [(root, t)];
             update_node_hash := update_node_hash s |}).
Definition hashUpdateNodeExpr (root : Array) (un : UpdateNode) (t : VCExpr) : B unit := fun s =>
  Ok (tt, {| constructed := constructed s; array_hash := array_hash s;
             update_node_hash := (node_address root un, t) :: update_node_hash s |}).
Definition insert_constructed (e : expr) (p : VCExpr * Z) : B unit := fun s =>
  Ok (tt, {| constructed := (e, p) :: constructed s; array_hash := array_hash s;
             update_node_hash := update_node_hash s |}).

(** ** Constants of the expression language *)

(** [while (Tmp->getWidth() > 64)] *)
Fixpoint const_loop (fuel : nat) (Tmp : apint) (Res : VCExpr) : result VCExpr :=
  if 64 <? bw Tmp then
    match fuel with
    | O => OutOfFuel
    | S n =>
        let Tmp := CE_Extract Tmp 64 (bw Tmp - 64) in
        let Width := Z.min 64 (bw Tmp) in
        v ← CE_getZExtValue (CE_Extract Tmp 0 Width) 64;
        const_loop n Tmp (vc_bvConcatExpr (bvConst64 Width v) Res)
    end
  else Ok Res.
Definition constructConstant (CE : apint) : result (VCExpr * Z) :=
  let width := bw CE in
  if width =? 1 then Ok (if CE_isTrue CE then vc_trueExpr else vc_falseExpr, width)
  else if width <=? 32 then v ← CE_getZExtValue CE 32; Ok (bvConst32 width v, width)
  else if width <=? 64 then v ← CE_getZExtValue CE 64; Ok (bvConst64 width v, width)
  else
    v ← CE_getZExtValue (CE_Extract CE 0 64) 64;
    Res ← const_loop (Z.to_nat (width / 64)) CE (bvConst64 64 v);
    Ok (Res, width).

(** ** Arrays *)
Definition buildArray (nm : string) (indexWidth valueWidth : Z) : VCExpr :=
  vc_varExpr nm (vc_arrayType (vc_bvType indexWidth) (vc_bvType valueWidth)).
(** "STP uniques arrays by name, so we make sure the name is unique by using the size of
    the array hash as a counter." *)
Definition unique_name (root : Array) (size : nat) : string :=
  let unique_id := pretty (N.of_nat size) in
  let uid_length := String.length unique_id in
  let space := if bool_decide (32 - uid_length < String.length (name root))%nat then (32 - uid_length)%nat
               else String.length (name root) in
  String.substring 0 space (name root) +:+ unique_id.
(** The concrete values flushed into the array, from index [i] on. *)
Fixpoint write_constants (values : list apint) (i domain : Z) (array_expr : VCExpr) : result VCExpr :=
  match values with
  | [] => Ok array_expr
  | v :: rest =>
      '(index, _) ← constructConstant (ConstantExpr_alloc i domain);
      '(value, _) ← constructConstant v;
      write_constants rest (i + 1) domain (vc_writeExpr array_expr index value)
  end.
Definition getInitialArray (root : Array) : B VCExpr := fun s =>
  match hash_find (array_hash s) root with
  | Some array_expr => Ok (array_expr, s)
  | None =>
      let array_expr := buildArray (unique_name root (length (array_hash s))) (domain root) (range root) in
      array_expr ← (if isConstantArray root then write_constants (constantValues root) 0 (domain root) array_expr
                    else Ok array_expr);
      '(_, s) ← hashArrayExpr root array_expr s;
      Ok (array_expr, s)
  end.
Definition getInitialRead (root : Array) (index : Z) : B VCExpr :=
  a ← getInitialArray root; mret (vc_readExpr a (bvConst32 32 index)).

(** ** The expression kinds *)
Section kinds.
Variables (optimizeDivides UseConstructHash : bool).

(** [CE = dyn_cast<ConstantExpr>(e)] of at most 64 bits. *)
Definition small_const (e : expr) : option apint :=
  match e with ConstantExpr CE => if bw CE <=? 64 then Some CE else None | _ => None end.

(** The shortcuts of the division by a constant. *)
Definition udiv_shortcut (left_ : VCExpr) (width : Z) (right_ : expr) : result (option VCExpr) :=
  match small_const right_ with
  | Some CE =>
      divisor ← CE_getZExtValue CE 64;
      if bits64.isPowerOfTwo divisor then
        k ← bits64.indexOfSingleBit divisor; t ← bvRightShift left_ k; Ok (Some t)
      else if optimizeDivides && (width =? 32) then
        t ← constructUDivByConstant left_ width (u32 divisor); Ok (Some t)
      else Ok None
  | None => Ok None
  end.
Definition sdiv_shortcut (left_ : VCExpr) (width : Z) (right_ : expr) : result (option VCExpr) :=
  match right_ with
  | ConstantExpr CE =>
      if optimizeDivides && negb (ap_eq CE (ap_of (bw CE) 1)) && negb (ap_isAllOnesValue CE) && (width =? 32) then
        d ← CE_getZExtValue CE 32; t ← constructSDivByConstant left_ width d; Ok (Some t)
      else Ok None
  | _ => Ok None
  end.
Definition urem_shortcut (left_ : VCExpr) (width : Z) (right_ : expr) : result (option VCExpr) :=
  match small_const right_ with
  | Some CE =>
      divisor ← CE_getZExtValue CE 64;
      if bits64.isPowerOfTwo divisor then
        bits ← bits64.indexOfSingleBit divisor;
        if bits =? 0 then z ← bvZero width; Ok (Some z)
        else z ← bvZero (width - bits); Ok (Some (vc_bvConcatExpr z (bvExtract left_ (bits - 1) 0)))
      else if optimizeDivides && (width =? 32) then
        quotient ← constructUDivByConstant left_ width (u32 divisor);
        quot_times_divisor ← constructMulByConstant quotient width divisor;
        Ok (Some (vc_bvMinusExpr width left_ quot_times_divisor))
      else Ok None
  | None => Ok None
  end.
(** A shortcut, or the operation on both operands. *)
Definition or_else (shortcut : result (option VCExpr)) (width : Z) (cr : B (VCExpr * Z)) (op : Z -> VCExpr -> VCExpr) : B (VCExpr * Z) :=
  s ← liftB shortcut;
  match s with
  | Some t => mret (t, width)
  | None => '(right_, width) ← cr; mret (op width right_, width)
  end.

(** [(unsigned) CE->getLimitedValue()] *)
Definition shift_amount (CE : apint) : Z := u32 (CE_getLimitedValue CE (2 ^ 64 - 1)).

Definition ashr_by (left_ : VCExpr) (width shift : Z) : result VCExpr :=
  signedBool ← bvBoolExtract left_ (width - 1);
  constructAShrByConstant left_ shift signedBool.

Definition bool_or_bv (width : Z) (b v : VCExpr) : VCExpr := if width =? 1 then b else v.

Definition not_bool (width : Z) : B unit := liftB (massert (negb (width =? 1))).

(** The binary kinds, given the construction of their operands: arithmetic, bitwise
    operations and shifts, comparisons. *)
Definition construct_arith (k : Kind.bin) (l r : expr) (cl cr : B (VCExpr * Z)) : B (VCExpr * Z) :=
  match k with
  | Kind.Add =>
      '(left_, _) ← cl; '(right_, width) ← cr;
      _ ← not_bool width;
      mret (vc_bvPlusExpr width left_ right_, width)
  | Kind.Sub =>
      '(left_, _) ← cl; '(right_, width) ← cr;
      _ ← not_bool width;
      mret (vc_bvMinusExpr width left_ right_, width)
  | Kind.Mul =>
      '(right_, width) ← cr;
      _ ← not_bool width;
      match small_const l with
      | Some CE =>
          x ← liftB (CE_getZExtValue CE 64);
          t ← liftB (constructMulByConstant right_ width x); mret (t, width)
      | None => '(left_, width) ← cl; mret (vc_bvMultExpr width left_ right_, width)
      end
  | Kind.UDiv =>
      '(left_, width) ← cl;
      _ ← not_bool width;
      or_else (udiv_shortcut left_ width r) width cr (fun width right_ => vc_bvDivExpr width left_ right_)
  | Kind.SDiv =>
      '(left_, width) ← cl;
      _ ← not_bool width;
      or_else (sdiv_shortcut left_ width r) width cr (fun width right_ => vc_sbvDivExpr width left_ right_)
  | Kind.URem =>
      '(left_, width) ← cl;
      _ ← not_bool width;
      or_else (urem_shortcut left_ width r) width cr (fun width right_ => vc_bvModExpr width left_ right_)
  | Kind.SRem =>
      '(left_, _) ← cl; '(right_, width) ← cr;
      _ ← not_bool width;
      mret (vc_sbvRemExpr width left_ right_, width)
  | _ => liftB AssertFail
  end.
Definition construct_bits (k : Kind.bin) (l r : expr) (cl cr : B (VCExpr * Z)) : B (VCExpr * Z) :=
  match k with
  | Kind.And =>
      '(left_, _) ← cl; '(right_, width) ← cr;
      mret (bool_or_bv width (vc_andExpr left_ right_) (vc_bvAndExpr left_ right_), width)
  | Kind.Or =>
      '(left_, _) ← cl; '(right_, width) ← cr;
      mret (bool_or_bv width (vc_orExpr left_ right_) (vc_bvOrExpr left_ right_), width)
  | Kind.Xor =>
      '(left_, _) ← cl; '(right_, width) ← cr;
      mret (bool_or_bv width (vc_iteExpr left_ (vc_notExpr right_) right_) (vc_bvXorExpr left_ right_), width)
  | Kind.Shl =>
      '(left_, width) ← cl;
      _ ← not_bool width;
      match r with
      | ConstantExpr CE => t ← liftB (bvLeftShift left_ (shift_amount CE)); mret (t, width)
      | _ => '(amount, _) ← cr; t ← liftB (bvVarLeftShift left_ amount); mret (t, width)
      end
  | Kind.LShr =>
      '(left_, width) ← cl;
      _ ← not_bool width;
      match r with
      | ConstantExpr CE => t ← liftB (bvRightShift left_ (shift_amount CE)); mret (t, width)
      | _ => '(amount, _) ← cr; t ← liftB (bvVarRightShift left_ amount); mret (t, width)
      end
  | Kind.AShr =>
      '(left_, width) ← cl;
      _ ← not_bool width;
      match r with
      | ConstantExpr CE => t ← liftB (ashr_by left_ width (shift_amount CE)); mret (t, width)
      | _ => '(amount, _) ← cr; t ← liftB (bvVarArithRightShift left_ amount); mret (t, width)
      end
  | _ => liftB AssertFail
  end.
Definition construct_cmp (k : Kind.bin) (l r : expr) (cl cr : B (VCExpr * Z)) : B (VCExpr * Z) :=
  match k with
  | Kind.Eq =>
      '(left_, _) ← cl; '(right_, width) ← cr;
      if width =? 1 then
        mret (match l with
              | ConstantExpr CE => if CE_isTrue CE then right_ else vc_notExpr right_
              | _ => vc_iffExpr left_ right_
              end, width)
      else mret (vc_eqExpr left_ right_, 1)
  | Kind.Ult =>
      '(left_, _) ← cl; '(right_, width) ← cr;
      _ ← not_bool width; mret (vc_bvLtExpr left_ right_, 1)
  | Kind.Ule =>
      '(left_, _) ← cl; '(right_, width) ← cr;
      _ ← not_bool width; mret (vc_bvLeExpr left_ right_, 1)
  | Kind.Slt =>
      '(left_, _) ← cl; '(right_, width) ← cr;
      _ ← not_bool width; mret (vc_sbvLtExpr left_ right_, 1)
  | Kind.Sle =>
      '(left_, _) ← cl; '(right_, width) ← cr;
      _ ← not_bool width; mret (vc_sbvLeExpr left_ right_, 1)
  | _ => liftB AssertFail   (* unhandled Expr type *)
  end.
Definition construct_bin (k : Kind.bin) (l r : expr) (cl cr : B (VCExpr * Z)) : B (VCExpr * Z) :=
  match k with
  | Kind.Add | Kind.Sub | Kind.Mul | Kind.UDiv | Kind.SDiv | Kind.URem | Kind.SRem => construct_arith k l r cl cr
  | Kind.And | Kind.Or | Kind.Xor | Kind.Shl | Kind.LShr | Kind.AShr => construct_bits k l r cl cr
  | _ => construct_cmp k l r cl cr
  end.

Definition construct_ext (signed : bool) (width : Z) (csrc : B (VCExpr * Z)) : B (VCExpr * Z) :=
  '(src, srcWidth) ← csrc;
  if srcWidth =? 1 then
    one ← liftB (if signed then Ok (bvMinusOne width) else bvOne width);
    zero ← liftB (bvZero width);
    mret (vc_iteExpr src one zero, width)
  else if signed then mret (vc_bvSignExtend src width, width)
  else zero ← liftB (bvZero (width - srcWidth)); mret (vc_bvConcatExpr zero src, width).

(** The memo table of [construct] around [constructActual]. *)
Definition memoized (e : expr) (actual : B (VCExpr * Z)) : B (VCExpr * Z) := fun s =>
  if negb UseConstructHash || isConst e then actual s
  else
    match constructed_find (constructed s) e with
    | Some p => Ok (p, s)
    | None => '(p, s) ← actual s; '(_, s) ← insert_constructed e p s; Ok (p, s)
    end.

(** [construct] with [constructActual], and [getArrayForUpdate]. *)
Fixpoint construct (e : expr) : B (VCExpr * Z) :=
  memoized e
    match e with
    | ConstantExpr CE => liftB (constructConstant CE)
    | NotOptimizedExpr src => construct src
    | ReadExpr root un index =>
        a ← getArrayForUpdate root un; '(i, _) ← construct index;
        mret (vc_readExpr a i, range root)
    | SelectExpr c t f =>
        '(cond, _) ← construct c; '(tExpr, _) ← construct t; '(fExpr, width) ← construct f;
        mret (vc_iteExpr cond tExpr fExpr, width)
    | ConcatExpr l r =>
        '(res, _) ← construct r; '(kid, _) ← construct l;
        mret (vc_bvConcatExpr kid res, getWidth e)
    | ExtractExpr src offset width =>
        '(src, _) ← construct src;
        if width =? 1 then t ← liftB (bvBoolExtract src offset); mret (t, width)
        else mret (vc_bvExtract src (offset + width - 1) offset, width)
    | ZExtExpr src width => construct_ext false width (construct src)
    | SExtExpr src width => construct_ext true width (construct src)
    | NotExpr e =>
        '(x, width) ← construct e; mret (bool_or_bv width (vc_notExpr x) (vc_bvNotExpr x), width)
    | BinExpr k l r => construct_bin k l r (construct l) (construct r)
    end
with getArrayForUpdate (root : Array) (un : UpdateNode) : B VCExpr :=
  match un with
  | NullNode => getInitialArray root
  | Node next index value => fun s =>
      match hash_find (update_node_hash s) (node_address root un) with
      | Some un_expr => Ok (un_expr, s)
      | None =>
          (a ← getArrayForUpdate root next; '(i, _) ← construct index; '(v, _) ← construct value;
           let un_expr := vc_writeExpr a i v in
           _ ← hashUpdateNodeExpr root un un_expr; mret un_expr) s
      end
  end.

(** The public [construct] *)
Definition STPBuilder_construct (e : expr) : B VCExpr := fun s =>
  '((res, _), s) ← construct e s;
  Ok (res, {| constructed := []; array_hash := array_hash s; update_node_hash := update_node_hash s |}).
End kinds.
End builder.
