(* ===== verification/STPBuilderSound.v ===== *)
(** * STPBuilderSound: what the terms of the builder mean

    The shifts, multiplications and divisions that [STPBuilder.cpp] assembles from simpler
    operations have the bit-vector meaning ([bv_shl], [bv_lshr], [bv_ashr], [bv_mul],
    [bv_udiv], [bv_sdiv]) in every model. *)

From S2P Require Import Prelude APInt ExprData Bits ConstantDivision VC STPBuilder.
Local Open Scope Z_scope.

Section handles.
Context {VC : VCOps} {SP : VCSpec VC}.

(** [m] returns a bit vector of width [w] and meaning [f]. *)
Abbreviation gives m w f := (returns m (fun t => is_bv t w f)).

Ltac bv_is H := eapply is_bv_ext; [exact H|]; intros.

(** ** Constants *)
Lemma sem_concat_0 w v : sem_concat w 0 v = v.
Proof. unfold sem_concat. lia. Qed.
Lemma zext_loop_is n : forall width W zero e v, 0 < width -> width <= 64 * Z.of_nat n + 64 -> is_bv zero 64 (fun _ => 0) -> is_bv e W (fun _ => v) ->
  returns (zext_loop n width zero e) (fun p => 0 < p.1 <= 64 /\ is_bv p.2 (W + width - p.1) (fun _ => v)).
Proof.
  induction n as [|n IH]; intros width W zero e v Hw Hn Hz He; cbn [zext_loop]; destruct (Z.ltb_spec 64 width).
  1: lia.
  1,3: apply returns_ok; cbn; rewrite Z.add_simpl_r; (split; [lia|done]).
  eapply returns_weaken; [apply (IH (width - 64) (64 + W) zero _ v)|]; [lia|lia|done| |].
  - bv_is (concat_is _ _ _ _ _ _ Hz He). apply sem_concat_0.
  - intros [w' e'] [H1 H2]. split; [done|]. cbn [fst snd] in *. by replace (W + width - w') with (64 + W + (width - 64) - w') by lia.
Qed.
Lemma bvZExtConst_is w v : 0 < w -> inw w v -> inw 64 v -> gives (bvZExtConst w v) w (fun _ => v).
Proof.
  intros Hw Hv H64. unfold bvZExtConst, bvConst64. destruct (Z.leb_spec w 64).
  - apply returns_ok. bv_is (const_ll_is w v ltac:(lia) H64). by apply wrap_small.
  - eapply returns_bind.
    + apply (zext_loop_is _ (w - 64) 64 _ _ v); [lia| | |].
      * pose proof (Z.div_mod w 64 ltac:(lia)). pose proof (Z.mod_pos_bound w 64 ltac:(lia)). lia.
      * bv_is (const_ll_is 64 0 ltac:(lia) ltac:(by apply inw_0)). done.
      * bv_is (const_ll_is 64 v ltac:(lia) H64). by apply wrap_small.
    + intros [w' e'] [Hw' He']. cbn [fst snd] in *. apply returns_ok.
      pose proof (concat_is _ _ _ _ _ _ (const_ll_is w' 0 ltac:(lia) ltac:(by apply inw_0)) He') as H1.
      replace (w' + (64 + (w - 64) - w')) with w in H1 by lia. bv_is H1. cbv beta. rewrite wrap_small by (apply inw_0; lia). apply sem_concat_0.
Qed.
Lemma bvZero_is w : 0 < w -> gives (bvZero w) w (fun _ => 0).
Proof. intros. apply bvZExtConst_is; [done|apply inw_0; lia..]. Qed.
Lemma bvOne_is w : 0 < w -> gives (bvOne w) w (fun _ => 1).
Proof. intros. apply bvZExtConst_is; [done|apply inw_1; lia..]. Qed.
Lemma bvConst32_is w v : 0 < w -> inw w v -> inw 32 v -> is_bv (bvConst32 w v) w (fun _ => v).
Proof. apply const_int_is. Qed.
Lemma bvMinusOne_is w : 0 < w -> is_bv (bvMinusOne w) w (fun _ => 2 ^ w - 1).
Proof.
  intros Hw. unfold bvMinusOne, bvSExtConst, bvConst64. assert (Hm : forall n, 0 < n -> wrap n (-1) = 2 ^ n - 1).
  { intros n Hn. unfold wrap. symmetry. apply Z.mod_unique with (q := -1); [|lia]. left. pose proof (pow2_pos n ltac:(lia)). lia. }
  assert (H64 : inw 64 (u64 (-1))) by (by apply wrap_inw). destruct (Z.leb_spec w 64).
  - bv_is (const_ll_is w (u64 (-1)) ltac:(lia) H64). cbv beta. rewrite <- Hm by done. change (u64 (-1)) with (2 ^ 64 - 1). unfold wrap.
    replace (2 ^ 64 - 1) with (-1 + 2 ^ (64 - w) * 2 ^ w) by (rewrite <- Z.pow_add_r by lia; replace (64 - w + w) with 64 by lia; lia). apply Z_mod_plus_full.
  - bv_is (sext_is _ _ _ w (const_ll_is 64 (u64 (-1)) ltac:(lia) H64) ltac:(lia)). cbv beta. rewrite wrap_small by done. unfold bv_sext. change (sgn 64 (u64 (-1))) with (-1). by apply Hm.
Qed.

Lemma sem_extract_bit b x : 0 <= b -> (sem_extract b 1 x =? 1) = Z.testbit x b.
Proof. intros Hb. unfold sem_extract, wrap. change (2 ^ 1) with 2. rewrite <- Z.testbit_spec' by done. by destruct (Z.testbit x b). Qed.
Lemma bvBoolExtract_is e w f bit : is_bv e w f -> 0 <= bit < w -> returns (bvBoolExtract e bit) (fun t => is_bool t (fun I => Z.testbit (f I) bit)).
Proof.
  intros He Hb. unfold bvBoolExtract, bvExtract. eapply returns_bind; [by apply bvOne_is|]. intros one Hone. apply returns_ok.
  pose proof (extract_is e w f bit bit He ltac:(lia) ltac:(lia)) as Hx. replace (bit - bit + 1) with 1 in Hx by lia.
  eapply is_bool_ext; [exact (eq_is _ _ _ _ _ Hx Hone)|]. intros I. apply sem_extract_bit. lia.
Qed.

(** ** Shifts by a known amount *)
Lemma bvRightShift_is e w f s : is_bv e w f -> 0 <= s -> gives (bvRightShift e s) w (fun I => bv_lshr w (f I) s).
Proof.
  intros He Hs. pose proof (is_bv_range _ _ _ He) as [Hw Hf]. unfold bvRightShift. rewrite (bv_length _ _ _ He). unfold bv_lshr.
  destruct (Z.eqb_spec s 0) as [->|]; [|destruct (Z.leb_spec w s)].
  - apply returns_ok. bv_is He. replace (w <=? 0) with false by lia. by rewrite Z.div_1_r.
  - by apply bvZero_is.
  - eapply returns_bind; [apply bvZero_is; lia|]. intros z Hz. apply returns_ok. unfold bvExtract.
    pose proof (concat_is _ _ _ _ _ _ Hz (extract_is e w f (w - 1) s He ltac:(lia) ltac:(lia))) as H1. replace (s + (w - 1 - s + 1)) with w in H1 by lia.
    bv_is H1. cbv beta. rewrite sem_concat_0. unfold sem_extract. apply wrap_small. destruct (Hf I) as [H2 H3]. split; [apply Z.div_pos; [lia|by apply pow2_pos]|].
    apply Z.div_lt_upper_bound; [by apply pow2_pos|]. rewrite <- Z.pow_add_r by lia. by replace (s + (w - 1 - s + 1)) with w by lia.
Qed.
Lemma bvLeftShift_is e w f s : is_bv e w f -> 0 <= s -> gives (bvLeftShift e s) w (fun I => bv_shl w (f I) s).
Proof.
  intros He Hs. pose proof (is_bv_range _ _ _ He) as [Hw Hf]. unfold bvLeftShift. rewrite (bv_length _ _ _ He). unfold bv_shl.
  destruct (Z.eqb_spec s 0) as [->|]; [|destruct (Z.leb_spec w s)].
  - apply returns_ok. bv_is He. replace (w <=? 0) with false by lia. by rewrite Z.mul_1_r, wrap_small.
  - by apply bvZero_is.
  - eapply returns_bind; [apply bvZero_is; lia|]. intros z Hz. apply returns_ok. unfold bvExtract.
    pose proof (concat_is _ _ _ _ _ _ (extract_is e w f (w - s - 1) 0 He ltac:(lia) ltac:(lia)) Hz) as H1. replace (w - s - 1 - 0 + 1 + s) with w in H1 by lia.
    bv_is H1. cbv beta. unfold sem_concat, sem_extract. rewrite Z.add_0_r, Z.div_1_r. replace (w - s - 1 - 0 + 1) with (w - s) by lia. unfold wrap.
    rewrite <- Zmult_mod_distr_r, <- Z.pow_add_r by lia. by replace (w - s + s) with w by lia.
Qed.
Lemma bv_shl_wrap w a s : 0 <= w -> 0 <= s -> bv_shl w a s = wrap w (a * 2 ^ s).
Proof.
  intros Hw Hs. unfold bv_shl. destruct (Z.leb_spec w s); [|done]. unfold wrap. replace (2 ^ s) with (2 ^ (s - w) * 2 ^ w) by (rewrite <- Z.pow_add_r by lia; f_equal; lia).
  by rewrite Z.mul_assoc, Z_mod_mult.
Qed.
Lemma testbit_sign w a : 0 < w -> inw w a -> Z.testbit a (w - 1) = negb (a <? 2 ^ (w - 1)).
Proof.
  intros Hw Ha. destruct (Z.ltb_spec a (2 ^ (w - 1))) as [Hl|Hl]; cbn.
  - apply (inw_testbit (w - 1)); [lia|unfold inw in *; lia|lia].
  - rewrite Z.testbit_true by lia. pose proof (pow2_half w Hw). unfold inw in Ha. replace (a / 2 ^ (w - 1)) with 1; [done|]. apply Z.div_unique with (r := a - 2 ^ (w - 1)); lia.
Qed.
Lemma constructAShr_is e w f s b : is_bv e w f -> is_bool b (fun I => Z.testbit (f I) (w - 1)) -> 0 <= s < w ->
  gives (constructAShrByConstant e s b) w (fun I => bv_ashr w (f I) s).
Proof.
  intros He Hb Hs. pose proof (is_bv_range _ _ _ He) as [Hw Hf]. unfold constructAShrByConstant. rewrite (bv_length _ _ _ He).
  destruct (Z.eqb_spec s 0) as [->|]; [|replace (w <=? s) with false by lia].
  - apply returns_ok. bv_is He. unfold bv_ashr. rewrite Z.min_l, Z.div_1_r, sgn_mod, wrap_small by (done || lia). done.
  - eapply returns_bind; [apply (bvRightShift_is e w f s He); lia|]. intros r Hr. apply returns_ok. unfold bvExtract.
    pose proof (concat_is _ _ _ _ _ _ (bvMinusOne_is s ltac:(lia)) (extract_is e w f (w - 1) s He ltac:(lia) ltac:(lia))) as H1. replace (s + (w - 1 - s + 1)) with w in H1 by lia.
    bv_is (ite_bv_is _ _ _ _ _ _ _ Hb H1 Hr). cbv beta. rewrite testbit_sign by done. destruct (Hf I) as [H2 H3]. pose proof (pow2_half w Hw). pose proof (pow2_pos s ltac:(lia)).
    assert (E : 2 ^ w = 2 ^ (w - s) * 2 ^ s) by (rewrite <- Z.pow_add_r by lia; f_equal; lia). unfold bv_ashr, bv_lshr, sgn. rewrite Z.min_l by lia. replace (w <=? s) with false by lia.
    destruct (Z.ltb_spec (f I) (2 ^ (w - 1))); cbn [negb].
    + symmetry. apply wrap_small. split; [apply Z.div_pos; lia|]. apply Z.div_lt_upper_bound; nia.
    + unfold sem_concat, sem_extract. replace (w - 1 - s + 1) with (w - s) by lia. rewrite wrap_small.
      * unfold wrap. apply Z.mod_unique with (q := -1); [|].
        -- left. split; [|]; pose proof (Z.div_pos (f I) (2 ^ s) ltac:(lia) ltac:(lia)); assert (f I / 2 ^ s < 2 ^ (w - s)) by (apply Z.div_lt_upper_bound; nia); nia.
        -- replace (f I - 2 ^ w) with (f I + - 2 ^ (w - s) * 2 ^ s) by lia. rewrite Z.div_add by lia. nia.
      * split; [apply Z.div_pos; lia|apply Z.div_lt_upper_bound; nia].
Qed.

(** ** Shifts by a computed amount *)
Lemma shift_cases_is n : forall x k g w by_ (F : Z -> interp -> Z) res R, is_bv x k g -> Z.of_nat n <= 2 ^ k -> Z.of_nat n <= 2 ^ 32 ->
  (forall i, 0 <= i < Z.of_nat n -> gives (by_ i) w (F i)) -> is_bv res w R ->
  gives (shift_cases n x k by_ res) w (fun I => if g I <? Z.of_nat n then F (g I) I else R I).
Proof.
  induction n as [|n IH]; intros x k g w by_ F res R Hx Hk H32 Hby Hres; pose proof (is_bv_range _ _ _ Hx) as [Hk0 Hg]; cbn [shift_cases].
  { apply returns_ok. bv_is Hres. cbv beta. specialize (Hg I). unfold inw in Hg. destruct (Z.ltb_spec (g I) (Z.of_nat 0)); [lia|done]. }
  assert (Hc : is_bv (bvConst32 k (Z.of_nat n)) k (fun _ => Z.of_nat n)) by (apply bvConst32_is; unfold inw; lia).
  unfold eqExpr. rewrite (bv_length _ _ _ Hx), (bv_length _ _ _ Hc), Z.eqb_refl. cbn [massert mbind result_bind].
  eapply returns_bind; [apply (Hby (Z.of_nat n)); lia|]. intros t Ht. eapply returns_weaken.
  - apply (IH x k g w by_ F (vc_iteExpr (vc_eqExpr x (bvConst32 k (Z.of_nat n))) t res) (fun I => if g I =? Z.of_nat n then F (Z.of_nat n) I else R I)); try done; try lia.
    + intros i Hi. apply Hby. lia.
    + apply ite_bv_is; [by apply eq_is with k|done..].
  - intros r Hr. bv_is Hr. cbv beta. destruct (Z.eqb_spec (g I) (Z.of_nat n)) as [E|], (Z.ltb_spec (g I) (Z.of_nat n)), (Z.ltb_spec (g I) (Z.of_nat (S n))); try lia; try done. by rewrite E.
Qed.
Lemma activeBits_spec w : 0 < w -> 0 < activeBits w /\ w < 2 ^ activeBits w /\ forall k, 0 <= k -> w < 2 ^ k -> activeBits w <= k.
Proof.
  intros Hw. unfold activeBits. replace (w =? 0) with false by lia. pose proof (Z.log2_nonneg w). destruct (Z.log2_spec w Hw) as [H1 H2]. split_and!; [lia|by rewrite Z.add_1_r|].
  intros k Hk Hlt. apply Z.log2_lt_pow2 in Hlt; lia.
Qed.
Lemma int_loop_eq n : 0 <= n <= 2 ^ 31 -> Z.of_nat (int_loop (n - 1)) = n.
Proof.
  intros Hn. unfold int_loop. destruct (Z.eq_dec n 0) as [->|]; [done|]. rewrite u32_small by lia. unfold sgn. change (2 ^ (32 - 1)) with (2 ^ 31). replace (n - 1 <? 2 ^ 31) with true by lia. lia.
Qed.

(** An amount below [w] is what its low bits say, another shifts to zero. *)
Lemma no_overshift_is sh ws g res w R : is_bv sh ws g -> is_bv res w R -> w < 2 ^ ws -> w < 2 ^ 32 ->
  gives (no_overshift sh res w) w (fun I => if g I <? w then R I else 0).
Proof.
  intros Hs Hr Hw H32. pose proof (is_bv_range _ _ _ Hr) as [Hw0 _]. pose proof (is_bv_range _ _ _ Hs) as [Hs0 _]. unfold no_overshift. rewrite (bv_length _ _ _ Hs).
  eapply returns_bind; [by apply bvZero_is|]. intros z Hz. apply returns_ok. apply ite_bv_is; [|done..]. eapply is_bool_ext; [exact (lt_is _ _ _ _ _ Hs (bvConst32_is ws w ltac:(lia) ltac:(unfold inw; lia) ltac:(unfold inw; lia)))|done].
Qed.
Lemma shift_bits_is sh ws g w : is_bv sh ws g -> 0 < w -> w < 2 ^ ws ->
  is_bv (extractPartialShiftValue sh w).1 (activeBits w) (fun I => wrap (activeBits w) (g I)).
Proof.
  intros Hs Hw Hlt. pose proof (is_bv_range _ _ _ Hs) as [Hs0 _]. destruct (activeBits_spec w Hw) as (A1 & A2 & A3). specialize (A3 ws ltac:(lia) Hlt). cbn.
  pose proof (extract_is sh ws g (activeBits w - 1) 0 Hs ltac:(lia) ltac:(lia)) as H1. replace (activeBits w - 1 - 0 + 1) with (activeBits w) in H1 by lia. bv_is H1. unfold sem_extract. by rewrite Z.div_1_r.
Qed.
Lemma low_bits w x : 0 < w -> 0 <= x < w -> wrap (activeBits w) x = x.
Proof. intros Hw Hx. destruct (activeBits_spec w Hw) as (A1 & A2 & _). apply wrap_small. unfold inw. lia. Qed.

Section var_shift.
Context (e sh : VCExpr) (w ws : Z) (f g : interp -> Z) (He : is_bv e w f) (Hsh : is_bv sh ws g) (Hw : w <= 2 ^ 31) (Hlt : w < 2 ^ ws).

Lemma var_shift_range : 0 < w /\ (forall I, inw w (f I)) /\ (forall I, 0 <= g I) /\ w <= 2 ^ activeBits w.
Proof.
  pose proof (is_bv_range _ _ _ He) as [H1 H2]. pose proof (is_bv_range _ _ _ Hsh) as [_ H3]. split_and!; try done; [intros I; apply H3|]. destruct (activeBits_spec w H1) as (_ & H & _). lia.
Qed.
Lemma bvVarRightShift_is : gives (bvVarRightShift e sh) w (fun I => bv_lshr w (f I) (g I)).
Proof.
  destruct var_shift_range as (Hw0 & Hf & Hg & Hk). unfold bvVarRightShift. rewrite (bv_length _ _ _ He). eapply returns_bind; [by apply bvZero_is|]. intros z Hz. cbv beta.
  eapply returns_bind; [eapply (shift_cases_is _ _ _ _ w _ (fun i I => bv_lshr w (f I) i) z (fun _ => 0)); [by apply (shift_bits_is sh ws g w)|rewrite int_loop_eq; lia..|intros i Hi; apply bvRightShift_is; [done|lia]|done]|].
  intros r Hr. cbv beta in Hr. eapply returns_weaken; [apply (no_overshift_is sh ws g _ w _ Hsh Hr); lia|]. intros t Ht. bv_is Ht. cbv beta. specialize (Hg I). rewrite int_loop_eq by lia.
  destruct (Z.ltb_spec (g I) w) as [H1|H1]; [rewrite low_bits by lia; by replace (g I <? w) with true by lia|unfold bv_lshr; by replace (w <=? g I) with true by lia].
Qed.
Lemma bvVarLeftShift_is : gives (bvVarLeftShift e sh) w (fun I => bv_shl w (f I) (g I)).
Proof.
  destruct var_shift_range as (Hw0 & Hf & Hg & Hk). unfold bvVarLeftShift. rewrite (bv_length _ _ _ He). eapply returns_bind; [by apply bvZero_is|]. intros z Hz. cbv beta.
  eapply returns_bind; [eapply (shift_cases_is _ _ _ _ w _ (fun i I => bv_shl w (f I) i) z (fun _ => 0)); [by apply (shift_bits_is sh ws g w)|rewrite int_loop_eq; lia..|intros i Hi; apply bvLeftShift_is; [done|lia]|done]|].
  intros r Hr. cbv beta in Hr. eapply returns_weaken; [apply (no_overshift_is sh ws g _ w _ Hsh Hr); lia|]. intros t Ht. bv_is Ht. cbv beta. specialize (Hg I). rewrite int_loop_eq by lia.
  destruct (Z.ltb_spec (g I) w) as [H1|H1]; [rewrite low_bits by lia; by replace (g I <? w) with true by lia|unfold bv_shl; by replace (w <=? g I) with true by lia].
Qed.
(** An arithmetic shift by at least the width also gives zero. *)
Lemma bvVarArithRightShift_is : gives (bvVarArithRightShift e sh) w (fun I => if g I <? w then bv_ashr w (f I) (g I) else 0).
Proof.
  destruct var_shift_range as (Hw0 & Hf & Hg & Hk). unfold bvVarArithRightShift. rewrite (bv_length _ _ _ He). cbv beta.
  eapply returns_bind; [apply (bvBoolExtract_is e w f _ He); lia|]. intros sb Hsb. eapply returns_bind; [apply (constructAShr_is e w f (w - 1) sb He Hsb); lia|]. intros z Hz. cbv beta.
  replace (w - 2) with (w - 1 - 1) by lia.
  eapply returns_bind; [eapply (shift_cases_is _ _ _ _ w _ (fun i I => bv_ashr w (f I) i) z _); [by apply (shift_bits_is sh ws g w)|rewrite int_loop_eq; lia..|intros i Hi; rewrite int_loop_eq in Hi by lia; apply constructAShr_is; [done|done|lia]|exact Hz]|].
  intros r Hr. cbv beta in Hr. eapply returns_weaken; [apply (no_overshift_is sh ws g _ w _ Hsh Hr); lia|]. intros t Ht. bv_is Ht. cbv beta. specialize (Hg I). rewrite int_loop_eq by lia.
  destruct (Z.ltb_spec (g I) w) as [H1|H1]; [rewrite low_bits by lia|done]. destruct (Z.ltb_spec (g I) (w - 1)); [done|]. by replace (g I) with (w - 1) by lia.
Qed.
End var_shift.

(** ** Multiplication by a constant *)
Lemma mod_next_bit a j : 0 <= j -> a mod 2 ^ (j + 1) = Z.b2z (Z.testbit a j) * 2 ^ j + a mod 2 ^ j.
Proof. intros Hj. rewrite Z.pow_add_r, Z.rem_mul_r by (try apply Z.pow_nonzero; lia). change (2 ^ 1) with 2. rewrite <- Z.testbit_spec' by done. lia. Qed.
(** What has been added up so far: nothing, or the operand times [V]. *)
Definition partial_sum (w : Z) (f : interp -> Z) (V : Z) (res : option VCExpr) : Prop :=
  match res with Some r => is_bv r w (fun I => wrap w (f I * V)) | None => V = 0 end.
Lemma mul_bits_is j : forall e w f add sub V res, is_bv e w f -> disjoint_bits add sub -> partial_sum w f V res ->
  returns (mul_bits j e w add sub res) (partial_sum w f (V + add mod 2 ^ Z.of_nat j - sub mod 2 ^ Z.of_nat j)).
Proof.
  induction j as [|j IH]; intros e w f add sub V res He Hd Hres; cbn [mul_bits].
  { apply returns_ok. change (2 ^ Z.of_nat 0) with 1. rewrite !Z.mod_1_r. by replace (V + 0 - 0) with V by lia. }
  pose proof (is_bv_range _ _ _ He) as [Hw _]. rewrite Nat2Z.inj_succ, <- Z.add_1_r, !mod_next_bit by lia. set (p := 2 ^ Z.of_nat j). specialize (Hd (Z.of_nat j) ltac:(lia)) as Hj.
  destruct (Z.testbit add (Z.of_nat j)) eqn:Ea, (Z.testbit sub (Z.of_nat j)) eqn:Es; try done; cbn [orb andb negb massert mbind result_bind Z.b2z].
  3: eapply returns_weaken; [by eapply IH|]; intros r Hr; by replace (V + (0 * p + add mod p) - (0 * p + sub mod p)) with (V + add mod p - sub mod p) by lia.
  - eapply returns_bind; [apply (bvLeftShift_is e w f); [done|lia]|]. intros op Hop. eapply returns_weaken; [apply (IH e w f add sub (V + p)); [done..|]|].
    + destruct res as [r|]; cbn in Hres |- *.
      * bv_is (plus_is _ _ _ _ _ Hres Hop). unfold bv_add. rewrite bv_shl_wrap, wrap_add_l, wrap_add_r by lia. f_equal. unfold p. ring.
      * bv_is Hop. cbv beta. rewrite bv_shl_wrap by lia. by rewrite Hres.
    + intros r Hr. by replace (V + (1 * p + add mod p) - (0 * p + sub mod p)) with (V + p + add mod p - sub mod p) by lia.
  - eapply returns_bind; [apply (bvLeftShift_is e w f); [done|lia]|]. intros op Hop. eapply returns_weaken; [apply (IH e w f add sub (V - p)); [done..|]|].
    + destruct res as [r|]; cbn in Hres |- *.
      * bv_is (minus_is _ _ _ _ _ Hres Hop). unfold bv_sub. rewrite bv_shl_wrap, wrap_sub_l, wrap_sub_r by lia. f_equal. unfold p. ring.
      * bv_is (uminus_is _ _ _ Hop). unfold bv_neg. rewrite bv_shl_wrap, <- Z.sub_0_l, wrap_sub_r, Hres by lia. f_equal. unfold p. ring.
    + intros r Hr. by replace (V + (0 * p + add mod p) - (1 * p + sub mod p)) with (V - p + add mod p - sub mod p) by lia.
Qed.
Lemma wrap_mono w w' a b : 0 <= w <= w' -> wrap w' a = wrap w' b -> wrap w a = wrap w b.
Proof.
  intros Hw E. unfold wrap in *. replace (2 ^ w') with (2 ^ w * 2 ^ (w' - w)) in E by (rewrite <- Z.pow_add_r by lia; f_equal; lia).
  apply (f_equal (fun z => z mod 2 ^ w)) in E. pose proof (pow2_pos w ltac:(lia)). pose proof (pow2_pos (w' - w) ltac:(lia)). rewrite !Z.rem_mul_r in E by lia.
  by rewrite !(Z.mul_comm (2 ^ w)), !Z_mod_plus_full, !Z.mod_mod in E by lia.
Qed.
Lemma truncate_returns x w : 0 < w <= 64 -> returns (bits64.truncateToNBits x w) (eq (wrap w x)).
Proof. intros Hw. rewrite bits64.truncateToNBits_eq by done. by apply returns_ok. Qed.
Lemma disjoint_wrap w a b : 0 <= w -> disjoint_bits a b -> disjoint_bits (wrap w a) (wrap w b).
Proof.
  intros Hw Hd n Hn. unfold wrap. destruct (Z.lt_ge_cases n w); [rewrite !Z.mod_pow2_bits_low by lia; by apply Hd|by rewrite Z.mod_pow2_bits_high by lia].
Qed.
Lemma mul_sum_is j e w f add sub x : is_bv e w f -> disjoint_bits add sub -> w <= Z.of_nat j -> wrap w (add - sub) = wrap w x ->
  gives (res ← mul_bits j e w (wrap w add) (wrap w sub) None; match res with Some r => Ok r | None => bvZero w end) w (fun I => bv_mul w (f I) x).
Proof.
  intros He Hd Hj Ex. pose proof (is_bv_range _ _ _ He) as [Hw _]. eapply returns_bind; [apply (mul_bits_is j e w f (wrap w add) (wrap w sub) 0 None); [done|apply disjoint_wrap; [lia|done]|done]|].
  assert (Hsmall : forall a, wrap w a mod 2 ^ Z.of_nat j = wrap w a).
  { intros a. apply Z.mod_small. pose proof (wrap_inw w a ltac:(lia)) as [H1 H2]. pose proof (Z.pow_le_mono_r 2 w (Z.of_nat j) ltac:(lia) ltac:(lia)). lia. }
  rewrite !Hsmall. set (V := 0 + wrap w add - wrap w sub).
  assert (EV : wrap w V = wrap w x) by (unfold V; by rewrite Z.add_0_l, wrap_sub_l, wrap_sub_r by lia).
  assert (Ef : forall a, wrap w (a * V) = wrap w (a * x)) by (intros a; unfold wrap in *; by rewrite <- (Zmult_mod_idemp_r V), EV, Zmult_mod_idemp_r).
  intros [r|] Hr; cbn in Hr.
  - apply returns_ok. bv_is Hr. unfold bv_mul. apply Ef.
  - eapply returns_weaken; [by apply bvZero_is|]. intros t Ht. bv_is Ht. unfold bv_mul. rewrite <- Ef, Hr, Z.mul_0_r. symmetry. apply wrap_small. apply inw_0. lia.
Qed.
Lemma constructMul_is e w f x : is_bv e w f -> w <= 64 -> inw 64 x -> gives (constructMulByConstant e w x) w (fun I => bv_mul w (f I) x).
Proof.
  intros He Hw64 Hx. pose proof (is_bv_range _ _ _ He) as [Hw _]. unfold constructMulByConstant. eapply returns_bind; [by apply mult_constants_ok|].
  intros [add sub] (v & (Ha & Hs & Hd & Ev) & Ex). cbn [fst snd] in *. eapply returns_bind; [apply truncate_returns; lia|]. intros a' <-.
  eapply returns_bind; [apply truncate_returns; lia|]. intros s' <-. apply mul_sum_is; [done|done|lia|]. rewrite Ev, <- Ex. apply (wrap_mono w 64); [lia|]. by rewrite wrap_wrap.
Qed.

(** ** Division by a constant *)
Lemma sem_extract_high x : inw 64 x -> sem_extract 32 (63 - 32 + 1) x = x / 2 ^ 32.
Proof. intros [H1 H2]. unfold sem_extract. apply wrap_small. split; [apply Z.div_pos; lia|]. change (2 ^ 64) with (2 ^ 32 * 2 ^ 32) in H2. apply Z.div_lt_upper_bound; lia. Qed.
Lemma constructUDiv_is e f d : is_bv e 32 f -> 0 < d < 2 ^ 32 -> gives (constructUDivByConstant e 32 d) 32 (fun I => f I / d).
Proof.
  intros He Hd. pose proof (is_bv_range _ _ _ He) as [_ Hf]. unfold constructUDivByConstant. rewrite Z.eqb_refl, u32_small by lia. cbn [massert mbind result_bind]. eapply returns_bind; [by apply udiv_constants_ok|]. intros [[mprime sh1] sh2] (Hm & Hs1 & Hs2 & Hdiv). cbv beta.
  eapply returns_bind; [by apply bvZero_is|]. intros z Hz. pose proof (concat_is _ _ _ _ _ _ Hz He) as Hn64. change (32 + 32) with 64 in Hn64.
  eapply returns_bind; [apply (constructMul_is _ _ _ mprime Hn64); [lia|eapply inw_mono; [|exact Hm]; lia]|]. intros t1 Ht1. cbv beta in Ht1.
  assert (Et1 : is_bv (vc_bvExtract t1 63 32) 32 (fun I => f I * mprime / 2 ^ 32)).
  { bv_is (extract_is _ _ _ 63 32 Ht1 ltac:(lia) ltac:(lia)). cbv beta. pose proof (is_bv_range _ _ _ Ht1) as [_ H2]. specialize (H2 I). specialize (Hf I). cbv beta in H2. unfold bv_mul in *. rewrite sem_extract_high by done.
    rewrite sem_concat_0. rewrite wrap_small; [done|]. unfold inw in *. change (2 ^ 64) with (2 ^ 32 * 2 ^ 32). nia. }
  assert (Hsh : forall s, 0 <= s <= 31 -> is_bv (bvConst32 32 s) 32 (fun _ => s)) by (intros s Hs; apply bvConst32_is; unfold inw; lia).
  eapply returns_bind; [apply (bvVarRightShift_is _ _ 32 32 _ _ (minus_is _ _ _ _ _ He Et1) (Hsh sh1 ltac:(lia))); lia|]. intros s1 Hs1'. cbv beta in Hs1'.
  eapply returns_weaken; [apply (bvVarRightShift_is _ _ 32 32 _ _ (plus_is _ _ _ _ _ Hs1' Et1) (Hsh sh2 ltac:(lia))); lia|]. intros t Ht. bv_is Ht. cbv beta. unfold bv_lshr, bv_sub, bv_add.
  replace (32 <=? sh1) with false by lia. replace (32 <=? sh2) with false by lia. by apply Hdiv.
Qed.

Lemma sem_extract_high_signed n m : - 2 ^ 31 <= n < 2 ^ 31 -> - 2 ^ 31 <= m < 2 ^ 31 ->
  sem_extract 32 (63 - 32 + 1) (bv_mul 64 (wrap 64 n) (wrap 64 m)) = wrap 32 (n * m / 2 ^ 32).
Proof.
  intros Hn Hm. unfold bv_mul, sem_extract. change (63 - 32 + 1) with 32. set (p := n * m). assert (E : wrap 64 (wrap 64 n * wrap 64 m) = wrap 64 p) by (unfold wrap; by rewrite <- Zmult_mod).
  rewrite E. unfold wrap. change (2 ^ 64) with (2 ^ 32 * 2 ^ 32). rewrite Z.rem_mul_r by lia. rewrite (Z.mul_comm (2 ^ 32)), Z.div_add by lia. rewrite (Z.div_small (p mod 2 ^ 32)) by (apply Z.mod_pos_bound; lia).
  rewrite Z.add_0_l. by rewrite Z.mod_mod by lia.
Qed.
Lemma sar_32 x s : inw 32 x -> 0 <= s <= 31 -> sem_extract 0 (31 - 0 + 1) (bv_lshr 64 (bv_sext 32 64 x) s) = wrap 32 (sgn 32 x / 2 ^ s).
Proof.
  intros Hx Hs. unfold bv_lshr, bv_sext, sem_extract. replace (64 <=? s) with false by lia. rewrite Z.div_1_r. change (31 - 0 + 1) with 32. set (y := sgn 32 x).
  apply Z.bits_inj'. intros i Hi. unfold wrap. destruct (Z.lt_ge_cases i 32); [|by rewrite !Z.mod_pow2_bits_high by lia]. rewrite !Z.mod_pow2_bits_low, !Z.div_pow2_bits, Z.mod_pow2_bits_low by lia. done.
Qed.
Lemma negate_by_sign q b : inw 32 q -> let ds := u32 (if b : bool then -1 else 0) in bv_sub 32 (Z.lxor q ds) ds = wrap 32 (if b then - q else q).
Proof.
  intros Hq. destruct b; cbn zeta.
  - change (u32 (-1)) with (2 ^ 32 - 1). assert (E : Z.lxor q (2 ^ 32 - 1) = 2 ^ 32 - 1 - q).
    { rewrite Z.sub_1_r, <- Z.ones_equiv. enough (Z.lxor q (Z.ones 32) + q = Z.ones 32) by lia. rewrite Z.add_nocarry_lxor.
      - by rewrite (Z.lxor_comm q), Z.lxor_assoc, Z.lxor_nilpotent, Z.lxor_0_r.
      - apply Z.bits_inj'. intros i Hi. rewrite Z.land_spec, Z.lxor_spec, Z.testbit_ones_nonneg, Z.bits_0 by lia. destruct (Z.ltb_spec i 32); [by destruct (Z.testbit q i)|]. by rewrite (inw_testbit 32 q i). }
    unfold bv_sub. rewrite E. unfold wrap. replace (2 ^ 32 - 1 - q - (2 ^ 32 - 1)) with (- q) by lia. done.
  - change (u32 0) with 0. unfold bv_sub. by rewrite Z.lxor_0_r, Z.sub_0_r.
Qed.
Lemma constructSDiv_is e f d : is_bv e 32 f -> inw 32 d -> d <> 0 -> gives (constructSDivByConstant e 32 d) 32 (fun I => bv_sdiv 32 (f I) d).
Proof.
  intros He Hd Hnz. pose proof (is_bv_range _ _ _ He) as [_ Hf]. unfold constructSDivByConstant. rewrite Z.eqb_refl, u32_small by done. cbn [massert mbind result_bind].
  pose proof (sgn_range 32 d ltac:(lia) Hd) as Hsd. change (2 ^ (32 - 1)) with (2 ^ 31) in Hsd. assert (Hsnz : sgn 32 d <> 0) by (unfold sgn, inw in *; destruct (Z.ltb_spec d (2 ^ (32 - 1))); lia).
  eapply returns_bind; [by apply sdiv_constants_ok|]. intros [[mprime dsign] shpost] (Hm & Eds & Hsh & Hdiv). cbv beta.
  assert (Hn64 : is_bv (vc_bvSignExtend e 64) 64 (fun I => wrap 64 (sgn 32 (f I)))) by (bv_is (sext_is _ _ _ 64 He ltac:(lia)); done).
  eapply returns_bind; [apply (constructMul_is _ _ _ (u64 mprime) Hn64); [lia|by apply wrap_inw]|]. intros t1 Ht1. cbv beta in Ht1.
  assert (Hrange : forall I, - 2 ^ 31 <= sgn 32 (f I) < 2 ^ 31) by (intros I; apply (sgn_range 32 (f I)); [lia|apply Hf]).
  assert (Emul : is_bv (vc_bvExtract t1 63 32) 32 (fun I => wrap 32 (sgn 32 (f I) * mprime / 2 ^ 32))).
  { bv_is (extract_is _ _ _ 63 32 Ht1 ltac:(lia) ltac:(lia)). cbv beta. by apply sem_extract_high_signed. }
  assert (Enpm : is_bv (vc_bvPlusExpr 32 e (vc_bvExtract t1 63 32)) 32 (fun I => wrap 32 (sgn 32 (f I) + sgn 32 (f I) * mprime / 2 ^ 32))).
  { bv_is (plus_is _ _ _ _ _ He Emul). cbv beta. unfold bv_add. rewrite wrap_add_r, <- wrap_add_l, <- (sgn_mod 32 (f I)), wrap_add_l by lia. done. }
  assert (Hsp : is_bv (bvConst32 32 (u32 shpost)) 32 (fun _ => shpost)) by (rewrite u32_small by lia; apply bvConst32_is; unfold inw; lia).
  eapply returns_bind; [apply (bvVarRightShift_is _ _ 64 32 _ _ (sext_is _ _ _ 64 Enpm ltac:(lia)) Hsp); lia|]. intros s1 Hs1. cbv beta in Hs1.
  assert (Esh : is_bv (vc_bvExtract s1 31 0) 32 (fun I => wrap 32 (sgn 32 (wrap 32 (sgn 32 (f I) + sgn 32 (f I) * mprime / 2 ^ 32)) / 2 ^ shpost))).
  { bv_is (extract_is _ _ _ 31 0 Hs1 ltac:(lia) ltac:(lia)). cbv beta. apply sar_32; [by apply wrap_inw|done]. }
  eapply returns_bind; [apply (bvBoolExtract_is e 32 f 31 He); lia|]. intros sg Hsg. eapply returns_bind; [by apply bvZero_is|]. intros z Hz. cbv beta. apply returns_ok.
  pose proof (ite_bv_is _ _ _ _ _ _ _ Hsg (bvMinusOne_is 32 ltac:(lia)) Hz) as Hx. cbv beta in Hx.
  assert (Hq0 : is_bv (vc_bvMinusExpr 32 (vc_bvExtract s1 31 0) (vc_iteExpr sg (bvMinusOne 32) z)) 32 (fun I => wrap 32 (Z.quot (sgn 32 (f I)) (Z.abs (sgn 32 d))))).
  { bv_is (minus_is _ _ _ _ _ Esh Hx). cbv beta. rewrite <- Hdiv by done. change 31 with (32 - 1). rewrite (testbit_sign 32) by (done || lia). unfold bv_sub. rewrite wrap_sub_l by lia.
    assert (Es : (sgn 32 (f I) <? 0) = negb (f I <? 2 ^ (32 - 1))). { specialize (Hf I). unfold sgn, inw in *. destruct (Z.ltb_spec (f I) (2 ^ (32 - 1))); cbn [negb]; [apply Z.ltb_ge|apply Z.ltb_lt]; lia. }
    rewrite Es. destruct (negb (f I <? 2 ^ (32 - 1))); [|by rewrite Z.sub_0_r, Z.add_0_r]. unfold wrap. set (y := _ / _). replace (y - (2 ^ 32 - 1)) with (y + 1 + (-1) * 2 ^ 32) by lia. apply Z_mod_plus_full. }
  assert (Hds : is_bv (bvConst32 32 (u32 dsign)) 32 (fun _ => u32 dsign)) by (apply bvConst32_is; [lia|by apply wrap_inw..]).
  bv_is (minus_is _ _ _ _ _ (bvxor_is _ _ _ _ _ Hq0 Hds) Hds). cbv beta. rewrite Eds, negate_by_sign by (by apply wrap_inw). unfold bv_sdiv.
  destruct (Z.ltb_spec (sgn 32 d) 0).
  - rewrite Z.abs_neq by lia. rewrite <- Z.sub_0_l, wrap_sub_r, Z.sub_0_l, Z.quot_opp_r, Z.opp_involutive by lia. done.
  - rewrite Z.abs_eq, wrap_wrap by lia. done.
Qed.
End handles.
