(* ===== verification/STPConstruct.v ===== *)
(** * STPConstruct: the translation of expressions for STP is correct

    The term [STPBuilder::construct] returns for a well-typed expression has the value
    of the expression in every model that gives the named array variables the contents
    of the arrays, whatever the caches of the builder already hold. *)

From S2P Require Import Prelude APInt ExprData Samples Bits ExprCompare ExprCreate ExprCreateSound ExprStructSound ExprUtil ConstantDivision VC STPBuilder STPBuilderSound.
From stdpp Require Import pretty.
Local Open Scope Z_scope.

(** ** What can be translated

    A bit vector of width one is a formula of STP: the builder handles formulas as
    conditions and in the bitwise operations only.  A division by the literal zero is
    not computed, a literal shift must fit 32 bits. *)
Definition literal_zero (e : expr) : bool := match e with ConstantExpr c => raw c =? 0 | _ => false end.
Definition small_shift (e : expr) : bool := match e with ConstantExpr c => raw c <? 2 ^ 32 | _ => true end.
Definition constructible_op (k : Kind.bin) (l r : expr) : bool :=
  let w := getWidth l in
  match k with
  | Kind.And | Kind.Or | Kind.Xor | Kind.Eq => true
  | Kind.Add | Kind.Sub | Kind.Mul | Kind.Ult | Kind.Ule | Kind.Slt | Kind.Sle => negb (w =? 1)
  | Kind.UDiv | Kind.SDiv | Kind.URem | Kind.SRem => negb (w =? 1) && negb (literal_zero r)
  | Kind.Shl | Kind.LShr | Kind.AShr => negb (w =? 1) && (w <=? 2 ^ 31) && small_shift r
  | Kind.Ne | Kind.Ugt | Kind.Uge | Kind.Sgt | Kind.Sge => false
  end.
Fixpoint constructible (e : expr) : bool :=
  match e with
  | ConstantExpr _ => true
  | NotOptimizedExpr src => constructible src
  | ReadExpr root un i => negb (domain root =? 1) && negb (range root =? 1) && constructible_node un && constructible i
  | SelectExpr c t f => constructible c && constructible t && constructible f
  | ConcatExpr l r => negb (getWidth l =? 1) && negb (getWidth r =? 1) && constructible l && constructible r
  | ExtractExpr src _ _ => negb (getWidth src =? 1) && constructible src
  | ZExtExpr src w => (getWidth src <? w) && constructible src
  | SExtExpr src w => negb (w =? 1) && constructible src
  | NotExpr src => constructible src
  | BinExpr k l r => constructible_op k l r && constructible l && constructible r
  end
with constructible_node (un : UpdateNode) : bool :=
  match un with
  | NullNode => true
  | Node next i v => constructible_node next && constructible i && constructible v
  end.

(** The value of an expression, undefined where an arithmetic shift is by at least the
    width: the builder shifts to zero there, the constant folder copies the sign. *)
Definition ssem_bin (k : Kind.bin) (w a b : Z) : option Z :=
  match k with
  | Kind.AShr => if w <=? b then None else Some (bv_ashr w a b)
  | _ => sem_bin k w a b
  end.
Section seval.
Context {CFG : Config}.
Variable rho : env.
Fixpoint seval (e : expr) : option Z :=
  match e with
  | ConstantExpr v => Some (raw v)
  | NotOptimizedExpr src => seval src
  | ReadExpr root un index => i ← seval index; seval_node root un i
  | SelectExpr c t f => vc ← seval c; vt ← seval t; vf ← seval f; Some (sem_select vc vt vf)
  | ConcatExpr l r => a ← seval l; b ← seval r; Some (sem_concat (getWidth r) a b)
  | ExtractExpr e o w => a ← seval e; Some (sem_extract o w a)
  | ZExtExpr src w => a ← seval src; Some (bv_zext (getWidth src) w a)
  | SExtExpr src w => a ← seval src; Some (bv_sext (getWidth src) w a)
  | NotExpr e => a ← seval e; Some (bv_not (getWidth e) a)
  | BinExpr k l r => a ← seval l; b ← seval r; ssem_bin k (getWidth l) a b
  end
with seval_node (root : Array) (un : UpdateNode) (i : Z) : option Z :=
  match un with
  | NullNode => initial rho root i
  | Node next index value => j ← seval index; if j =? i then seval value else seval_node root next i
  end.

Lemma ssem_sem k w a b v : ssem_bin k w a b = Some v -> sem_bin k w a b = Some v.
Proof. destruct k; try done. cbn. by case_match. Qed.
Lemma seval_eval_mut : (forall e v, seval e = Some v -> eval rho e = Some v) /\
  (forall un root i v, seval_node root un i = Some v -> eval_node rho root un i = Some v).
Proof.
  apply expr_node_ind; try (intros next IHn index IHi value IHv root i v H);
    [cbn [seval eval]; intros;
     repeat match goal with H : (_ ≫= _) = Some _ |- _ => apply bind_Some_inv in H as (? & ? & ?) end;
     repeat match goal with IH : forall v, seval ?e = Some v -> _, H : seval ?e = Some _ |- _ => apply IH in H; rewrite H; cbn end; try done; eauto using ssem_sem..|done|].
  change (eval_node rho root (Node next index value) i) with (j ← eval rho index; if j =? i then eval rho value else eval_node rho root next i).
  change ((j ← seval index; if j =? i then seval value else seval_node root next i) = Some v) in H.
  apply bind_Some_inv in H as (j & Hj & H). rewrite (IHi _ Hj). cbn. destruct (j =? i); eauto.
Qed.
(** Where it is defined it is the value of the expression. *)
Lemma seval_eval e v : seval e = Some v -> eval rho e = Some v.
Proof. apply seval_eval_mut. Qed.
End seval.

(** The update nodes that exist, and those of an expression. *)
Section live.
Variable live : Array -> UpdateNode -> Prop.
Fixpoint live_in (e : expr) : Prop :=
  match e with
  | ConstantExpr _ => True
  | ReadExpr root un i => live_node root un /\ live_in i
  | SelectExpr c t f => live_in c /\ live_in t /\ live_in f
  | ConcatExpr l r | BinExpr _ l r => live_in l /\ live_in r
  | NotOptimizedExpr e | ExtractExpr e _ _ | ZExtExpr e _ | SExtExpr e _ | NotExpr e => live_in e
  end
with live_node (root : Array) (un : UpdateNode) : Prop :=
  match un with
  | NullNode => True
  | Node next i v => live root un /\ live_node root next /\ live_in i /\ live_in v
  end.
End live.
(** Different nodes have different addresses. *)
Definition addresses_ok {NA : NodeAddress} (live : Array -> UpdateNode -> Prop) : Prop := forall root un root' un',
  live root un -> live root' un' -> node_address root un = node_address root' un' -> root = root' /\ un = un'.

Section construct.
Context {AP : APIntOps} {SPA : APIntSpec AP} {CFG : Config} {VC : VCOps} {SP : VCSpec VC} {NA : NodeAddress}.
Variable live : Array -> UpdateNode -> Prop.
Hypothesis Haddr : addresses_ok live.
Ltac bv_is H := eapply is_bv_ext; [exact H|]; intros; cbv beta.

(** ** Terms of a width: formulas for width one, bit vectors otherwise *)
Definition den (t : VCExpr) (w : Z) (g : interp -> Z) : Prop :=
  if decide (w = 1) then is_bool t (fun I => g I =? 1) /\ (forall I, inw 1 (g I)) else is_bv t w g.
Lemma den_bv t w g : w <> 1 -> den t w g <-> is_bv t w g.
Proof. intros Hw. unfold den. by rewrite decide_False by done. Qed.
Lemma den_bool t g : den t 1 g <-> is_bool t (fun I => g I =? 1) /\ (forall I, inw 1 (g I)).
Proof. unfold den. by rewrite decide_True by done. Qed.
Lemma den_range t w g : den t w g -> forall I, inw w (g I).
Proof. unfold den. case_decide as E; [rewrite E; intros [_ H]; exact H|]. intros H. by apply is_bv_range in H as [_ H]. Qed.
Lemma den_formula t f : is_bool t f -> den t 1 (fun I => Z.b2z (f I)).
Proof. intros H. apply den_bool. split; [|intros I; by apply b2z_inw]. eapply is_bool_ext; [exact H|]. intros I. by destruct (f I). Qed.

(** ** Literals *)
Lemma CE_Extract_eq c o w : apok c -> 0 <= o -> 0 < w -> o + w <= bw c -> CE_Extract c o w = APInt w (sem_extract o w (raw c)).
Proof.
  intros Hc Ho Hw Hin. pose proof Hc as [Hb Hv]. unfold CE_Extract. rewrite ap_ashr_u_spec by (done || lia). rewrite ap_zextOrTrunc_spec; [|split; simpl; [done|apply bv_ashr_inw; lia]|done].
  cbn. unfold bv_zext. by rewrite extract_ashr by lia.
Qed.
Lemma zext_value c n : apok c -> bw c <= n -> n <= 64 -> CE_getZExtValue c n = Ok (raw c).
Proof. intros Hc Hn H64. unfold CE_getZExtValue. rewrite massert_true by lia. cbn. rewrite ap_getZExtValue_spec; [done|done|lia]. Qed.
Lemma sem_concat_assoc W a b : 0 <= W -> sem_concat (64 + W) (a / 2 ^ 64) (sem_concat W (a mod 2 ^ 64) b) = sem_concat W a b.
Proof. intros HW. unfold sem_concat. rewrite Z.pow_add_r by lia. pose proof (Z.div_mod a (2 ^ 64) ltac:(lia)). nia. Qed.
Lemma const_loop_is n : forall c Res W r, apok c -> 64 <= bw c <= 64 * Z.of_nat n + 64 -> 0 < W -> is_bv Res W (fun _ => r) ->
  returns (const_loop n c Res) (fun t => is_bv t (W + bw c - 64) (fun _ => sem_concat W (raw c / 2 ^ 64) r)).
Proof.
  induction n as [|n IH]; intros c Res W r Hc Hb HW HR; pose proof Hc as [Hbw Hv]; cbn [const_loop]; destruct (Z.ltb_spec 64 (bw c)).
  1: lia.
  1,3: apply returns_ok; assert (Eb : bw c = 64) by lia; rewrite Eb in *; rewrite Z.add_simpl_r; bv_is HR; by rewrite Z.div_small, sem_concat_0 by done.
  rewrite CE_Extract_eq by (done || lia). set (c' := APInt (bw c - 64) (sem_extract 64 (bw c - 64) (raw c))).
  assert (Hr' : raw c' = raw c / 2 ^ 64). { unfold c', sem_extract. cbn. apply wrap_small. destruct Hv as [H1 H2]. split; [apply Z.div_pos; lia|]. apply Z.div_lt_upper_bound; [lia|]. rewrite <- Z.pow_add_r by lia. by replace (64 + (bw c - 64)) with (bw c) by lia. }
  assert (Hc' : apok c') by (split; [cbn; lia|cbn; apply wrap_inw; lia]).
  rewrite CE_Extract_eq by (cbn; done || lia). rewrite zext_value by (cbn; first [lia|split; cbn; [lia|apply wrap_inw; lia]]). cbn [raw mbind result_bind].
  set (Wd := Z.min 64 (bw c')). assert (HWd : 0 < Wd <= 64) by (unfold Wd; cbn; lia). rewrite <- Hr'.
  assert (Hs : is_bv (vc_bvConcatExpr (bvConst64 Wd (sem_extract 0 Wd (raw c'))) Res) (Wd + W) (fun _ => sem_concat W (wrap Wd (raw c')) r)).
  { assert (Hi : inw Wd (sem_extract 0 Wd (raw c'))) by (apply wrap_inw; lia). bv_is (concat_is _ _ _ _ _ _ (const_ll_is Wd (sem_extract 0 Wd (raw c')) HWd ltac:(eapply inw_mono; [|exact Hi]; lia)) HR).
    rewrite wrap_small by done. unfold sem_extract. by rewrite Z.div_1_r. }
  destruct (Z.le_gt_cases 64 (bw c')) as [Hge|Hlt].
  - assert (E64 : Wd = 64) by (unfold Wd; lia). rewrite E64 in *. eapply returns_weaken; [eapply (IH c' _ (64 + W)); [exact Hc'|cbn in *; lia|lia|exact Hs]|].
    intros t Ht. cbn [bw c'] in Ht. replace (64 + W + (bw c - 64) - 64) with (W + bw c - 64) in Ht by lia. bv_is Ht. unfold wrap. apply sem_concat_assoc. lia.
  - assert (EW : Wd = bw c') by (unfold Wd; lia). assert (Ew : wrap Wd (raw c') = raw c') by (rewrite EW; apply wrap_small; apply Hc').
    replace (Wd + W) with (W + bw c - 64) in Hs by (rewrite EW; cbn; lia). rewrite Ew in Hs.
    destruct n; cbn [const_loop]; (destruct (Z.ltb_spec 64 (bw c')); [lia|]); by apply returns_ok.
Qed.
Lemma constructConstant_is c : apok c -> returns (constructConstant c) (fun p => p.2 = bw c /\ den p.1 (bw c) (fun _ => raw c)).
Proof.
  intros Hc. pose proof Hc as [Hb Hv]. unfold constructConstant. destruct (Z.eqb_spec (bw c) 1) as [E|E].
  { apply returns_ok. split; [done|]. cbn [fst]. rewrite E in *. assert (Er : raw c = Z.b2z (CE_isTrue c)).
    { unfold CE_isTrue. rewrite E, ap_getBoolValue_spec by done. destruct (inw1_cases _ Hv) as [->| ->]; done. }
    rewrite Er. destruct (CE_isTrue c); apply den_formula; [apply true_is|apply false_is]. }
  destruct (Z.leb_spec (bw c) 32); [|destruct (Z.leb_spec (bw c) 64)].
  - rewrite zext_value by (done || lia). apply returns_ok. split; [done|]. apply den_bv; [done|]. apply bvConst32_is; [lia|done|]. eapply inw_mono; [|exact Hv]. lia.
  - rewrite zext_value by (done || lia). apply returns_ok. split; [done|]. apply den_bv; [done|]. assert (inw 64 (raw c)) by (eapply inw_mono; [|exact Hv]; lia). bv_is (const_ll_is (bw c) (raw c) ltac:(lia) ltac:(done)). by apply wrap_small.
  - rewrite CE_Extract_eq by (done || lia). assert (Hi : inw 64 (sem_extract 0 64 (raw c))) by (by apply wrap_inw). rewrite zext_value by (cbn; first [lia|split; cbn; [lia|done]]). cbn [raw mbind result_bind].
    eapply returns_bind; [apply (const_loop_is _ c _ 64 (sem_extract 0 64 (raw c)) Hc); [|lia|]|].
    + pose proof (Z.div_mod (bw c) 64 ltac:(lia)). pose proof (Z.mod_pos_bound (bw c) 64 ltac:(lia)). pose proof (Z.div_pos (bw c) 64 ltac:(lia) ltac:(lia)). lia.
    + bv_is (const_ll_is 64 (sem_extract 0 64 (raw c)) ltac:(lia) Hi). by apply wrap_small.
    + intros t Ht. apply returns_ok. split; [done|]. apply den_bv; [done|]. cbn [fst]. replace (64 + bw c - 64) with (bw c) in Ht by lia. bv_is Ht. unfold sem_concat, sem_extract, wrap. rewrite Z.div_1_r. pose proof (Z.div_mod (raw c) (2 ^ 64) ltac:(lia)). lia.
Qed.

(** ** Models and environments

    A model agrees with an environment if each hashed array has its contents under the
    name it was given. *)
Definition agree (rho : env) (I : interp) (s : bst) : Prop :=
  forall k root h, array_hash s !! k = Some (root, h) -> forall i, inw (domain root) i ->
    wrap (range root) (I (unique_name root k) i) = wrap (range root) (rho root i).
(** [h] means [ev] wherever [ev] is defined. *)
Definition means (s : bst) (h : VCExpr) (w : Z) (ev : env -> option Z) : Prop :=
  exists g, den h w g /\ forall rho I v, agree rho I s -> ev rho = Some v -> g I = v.
Definition means_arr (s : bst) (h : VCExpr) (root : Array) (ev : env -> Z -> option Z) : Prop :=
  exists g, is_arr h (domain root) (range root) g /\
    forall rho I i v, agree rho I s -> inw (domain root) i -> ev rho i = Some v -> g I i = v.
(** Arrays are only added to the hash. *)
Definition sub (s s' : bst) : Prop := array_hash s `prefix_of` array_hash s'.

Lemma agree_sub rho I s s' : sub s s' -> agree rho I s' -> agree rho I s.
Proof. intros Hs Ha k root h Hk. apply (Ha k root h). by eapply prefix_lookup_Some. Qed.
Lemma means_later s s' h w ev : sub s s' -> means s h w ev -> means s' h w ev.
Proof. intros Hs (g & Hg & Hv). exists g. split; [done|]. intros rho I v Ha. apply Hv. by eapply agree_sub. Qed.
Lemma means_arr_later s s' h root ev : sub s s' -> means_arr s h root ev -> means_arr s' h root ev.
Proof. intros Hs (g & Hg & Hv). exists g. split; [done|]. intros rho I i v Ha. apply Hv. by eapply agree_sub. Qed.
#[local] Instance sub_preorder : PreOrder sub.
Proof. unfold sub. split; [by intros s|]. intros s1 s2 s3 H1 H2. by etrans. Qed.

(** ** The invariant of the builder *)
Definition array_ok (root : Array) : Prop := wf_array root /\ domain root <> 1 /\ range root <> 1.
Record Inv (s : bst) : Prop := {
  inv_arrays : Forall (fun p => array_ok p.1 /\ means_arr s p.2 p.1 (fun rho => initial rho p.1)) (array_hash s);
  inv_nodup : NoDup (array_hash s).*1;
  inv_nodes : Forall (fun p => forall root un, live root un -> node_address root un = p.1 ->
    means_arr s p.2 root (fun rho => seval_node rho root un)) (update_node_hash s);
  inv_constructed : Forall (fun p => wf p.1 /\ p.2.2 = getWidth p.1 /\ means s p.2.1 p.2.2 (fun rho => seval rho p.1)) (constructed s);
}.

(** [m] keeps the invariant and its result satisfies [Q] in the final state. *)
Definition spec {A} (s : bst) (m : B A) (Q : bst -> A -> Prop) : Prop :=
  Inv s -> returns (m s) (fun p => sub s p.2 /\ Inv p.2 /\ Q p.2 p.1).
Lemma spec_ret {A} s (a : A) (Q : bst -> A -> Prop) : Q s a -> spec s (mret a) Q.
Proof. intros HQ Hi. apply returns_ok. by split. Qed.
Lemma spec_bind {A C} s (m : B A) (f : A -> B C) Q R :
  spec s m Q -> (forall a s1, sub s s1 -> Q s1 a -> spec s1 (f a) R) -> spec s (m ≫= f) R.
Proof.
  intros Hm Hf Hi. unfold mbind, B_bind. eapply returns_bind; [by apply Hm|]. intros [a s1] (Hs & Hi1 & HQ). cbn [fst snd] in *.
  eapply returns_weaken; [by apply Hf|]. intros [b s2] (Hs2 & Hi2 & HR). split; [|done]. by etrans.
Qed.
Lemma spec_lift {A C} s (m : result A) (f : A -> B C) P R :
  returns m P -> (forall a, P a -> spec s (f a) R) -> spec s (liftB m ≫= f) R.
Proof.
  intros (a & -> & Ha) Hf Hi. by apply (Hf a Ha).
Qed.
Lemma spec_weaken {A} s (m : B A) (Q R : bst -> A -> Prop) : spec s m Q -> (forall s' a, Q s' a -> R s' a) -> spec s m R.
Proof. intros Hm HQ Hi. eapply returns_weaken; [by apply Hm|]. intros [a s'] (? & ? & ?). split_and!; auto. Qed.

(** ** The initial array *)
Lemma write_constants_is d r : 0 < d <= 64 -> d <> 1 -> r <> 1 -> forall values i a (f : interp -> Z -> Z), Forall (fun c => apok c /\ bw c = r) values -> 0 <= i -> i + Z.of_nat (length values) <= 2 ^ d -> is_arr a d r f ->
  returns (write_constants values i d a) (fun t => is_arr t d r (fun I j => if i <=? j then default (f I j) (raw <$> values !! Z.to_nat (j - i)) else f I j)).
Proof.
  intros Hd Hd1 Hr1. induction values as [|c values IH]; intros i a f Hv Hi Hlen Ha; cbn [write_constants].
  { apply returns_ok. eapply is_arr_ext; [exact Ha|]. intros I j Hj. cbn. by case_match. }
  apply Forall_cons in Hv as [[Hc Hcr] Hv]. cbn [length] in Hlen. assert (Hid : inw d i) by (unfold inw; lia). assert (Hi64 : inw 64 i) by (eapply inw_mono; [|exact Hid]; lia).
  assert (Hci : apok (ConstantExpr_alloc i d) /\ bw (ConstantExpr_alloc i d) = d /\ raw (ConstantExpr_alloc i d) = i).
  { unfold ConstantExpr_alloc. rewrite ap_of_spec by (done || lia). rewrite wrap_small by done. split_and!; [split; cbn; [lia|done]|done|done]. }
  destruct Hci as (Hci & Hcb & Hcr'). eapply returns_bind; [by apply constructConstant_is|]. intros [index wi] [_ Hidx]. cbn [fst snd] in *. rewrite Hcb, Hcr' in Hidx. apply den_bv in Hidx; [|done].
  eapply returns_bind; [by apply constructConstant_is|]. intros [value wv] [_ Hval]. cbn [fst snd] in *. rewrite Hcr in Hval. apply den_bv in Hval; [|done].
  eapply returns_weaken; [apply (IH (i + 1) _ _ Hv ltac:(lia) ltac:(lia) (write_is _ _ _ _ _ _ _ _ Ha Hidx Hval))|].
  intros t Ht. eapply is_arr_ext; [exact Ht|]. intros I j Hj. cbv beta.
  destruct (Z.leb_spec (i + 1) j), (Z.leb_spec i j), (Z.eqb_spec j i); try lia; try done.
  - replace (Z.to_nat (j - i)) with (S (Z.to_nat (j - (i + 1)))) by lia. done.
  - replace (Z.to_nat (j - i)) with 0%nat by lia. done.
Qed.
Lemma hash_find_Some {K} `{EqDecision K} (t : list (K * VCExpr)) k v : hash_find t k = Some v -> (k, v) ∈ t.
Proof.
  induction t as [|[k' v'] t IH]; cbn; [done|]. case_decide as E; [intros [= <-]; rewrite E; left|]. intros Hf. right. by apply IH.
Qed.
Lemma hash_find_None {K} `{EqDecision K} (t : list (K * VCExpr)) k : hash_find t k = None -> k ∉ t.*1.
Proof.
  induction t as [|[k' v'] t IH]; cbn; [intros _ Hin; inversion Hin|]. case_decide as E; [done|]. intros Hf Hin. apply list_elem_of_In in Hin as [Hin|Hin]; [by apply E|]. by apply IH, list_elem_of_In.
Qed.

(** Adding an array keeps what the caches hold. *)
Lemma Inv_hash s root h : Inv s -> array_ok root -> root ∉ (array_hash s).*1 ->
  let s' := {| constructed := constructed s; array_hash := array_hash s ++ [(root, h)]; update_node_hash := update_node_hash s |} in
  means_arr s' h root (fun rho => initial rho root) -> sub s s' /\ Inv s'.
Proof.
  intros [Ha Hn Hu Hc] Hr Hnew s' Hm. assert (Hs : sub s s') by (by apply prefix_app_r). split; [done|]. constructor; cbn.
  - apply Forall_app. split; [|by apply Forall_singleton]. eapply Forall_impl; [exact Ha|]. intros p [H1 H2]. split; [done|]. by eapply means_arr_later.
  - rewrite fmap_app. apply NoDup_app. split_and!; [done| |by apply NoDup_singleton]. intros x Hx Hin. apply list_elem_of_singleton in Hin. cbn in Hin. by subst x.
  - eapply Forall_impl; [exact Hu|]. intros p H1 root' un' Hl E. eapply means_arr_later; [exact Hs|]. by apply H1.
  - eapply Forall_impl; [exact Hc|]. intros p (H1 & H2 & H3). split_and!; try done. by eapply means_later.
Qed.
Lemma initial_contents root (f : interp -> Z -> Z) rho I i v : wf_array root -> inw (domain root) i -> f I i = wrap (range root) (rho root i) -> initial rho root i = Some v ->
  (if isConstantArray root then if 0 <=? i then default (f I i) (raw <$> constantValues root !! Z.to_nat (i - 0)) else f I i else f I i) = v.
Proof.
  intros (Hd & Hr & Hsz & Hsd & Hcv) Hi Ef Hv. unfold initial in Hv. unfold isConstantArray. destruct (isSymbolicArray root) eqn:Es; cbn [negb].
  { rewrite Ef. by injection Hv. }
  assert (Hne : constantValues root <> []) by (unfold isSymbolicArray in Es; by destruct (constantValues root)). destruct Hcv as [?|[Hlen _]]; [done|]. destruct Hi as [Hi _].
  replace (0 <=? i) with true by lia. rewrite Z.sub_0_r. destruct (Z.ltb_spec i (arr_size root)); [by rewrite Hv|].
  assert (El : constantValues root !! Z.to_nat i = None) by (apply lookup_ge_None; lia). rewrite El. cbn. destruct ConstArrayOpt; [done|]. rewrite Ef. by injection Hv.
Qed.
Lemma getInitialArray_is root s : array_ok root -> spec s (getInitialArray root) (fun s' h => means_arr s' h root (fun rho => initial rho root)).
Proof.
  intros Hr Hi. unfold getInitialArray. destruct (hash_find (array_hash s) root) as [h|] eqn:Eh.
  { apply returns_ok. split; [done|]. split; [done|]. apply hash_find_Some in Eh. pose proof (inv_arrays s Hi) as Ha. rewrite List.Forall_forall in Ha.
    apply list_elem_of_In in Eh. by apply (Ha _ Eh). }
  pose proof Hr as ((Hd & Hrg & Hsz & Hsd & Hcv) & Hd1 & Hr1). set (nm := unique_name root (length (array_hash s))).
  pose proof (var_is nm (domain root) (range root) ltac:(lia) ltac:(lia)) as Hvar. set (f := fun (I : interp) i => wrap (range root) (I nm i)) in Hvar.
  eapply (returns_bind _ _ (fun t => is_arr t (domain root) (range root)
    (fun I i => if isConstantArray root then if 0 <=? i then default (f I i) (raw <$> constantValues root !! Z.to_nat (i - 0)) else f I i else f I i))).
  { unfold isConstantArray, isSymbolicArray. destruct (constantValues root) as [|c cs] eqn:Ec; cbn [negb]; [by apply returns_ok|].
    destruct Hcv as [?|[Hlen Hall]]; [done|]. apply (write_constants_is (domain root) (range root)); try done; lia. }
  intros h Hh. cbn [hashArrayExpr mbind result_bind]. apply returns_ok. cbn [fst snd].
  match goal with |- _ /\ _ /\ means_arr ?S _ _ _ => assert (Hm : means_arr S h root (fun rho => initial rho root)) end.
  { eexists. split; [exact Hh|]. intros rho I i v Ha Hin Hv. cbv beta. apply (initial_contents root f rho); [by apply Hr|done| |done].
    apply (Ha (length (array_hash s)) root h); [|done]. cbn. by rewrite list_lookup_middle. }
  destruct (Inv_hash s root h Hi Hr (hash_find_None _ _ Eh) Hm) as [Hs Hi']. done.
Qed.

(** ** Meanings of compound expressions *)
Definition mean_by (s : bst) (g : interp -> Z) (ev : env -> option Z) : Prop :=
  forall rho I v, agree rho I s -> ev rho = Some v -> g I = v.
Lemma mean_by_sub s s' g ev : sub s s' -> mean_by s g ev -> mean_by s' g ev.
Proof. intros Hs H rho I v Ha. apply H. by eapply agree_sub. Qed.
Lemma mean_by1 s f h ea op : mean_by s f ea -> (forall I v, op (f I) = Some v -> h I = v) -> mean_by s h (fun rho => x ← ea rho; op x).
Proof. intros Hf H rho I v Ha Hv. apply bind_Some_inv in Hv as (x & Hx & Hv). apply H. by rewrite (Hf rho I x Ha Hx). Qed.
Lemma mean_by2 s f g h ea eb op : mean_by s f ea -> mean_by s g eb -> (forall I v, op (f I) (g I) = Some v -> h I = v) -> mean_by s h (fun rho => x ← ea rho; y ← eb rho; op x y).
Proof.
  intros Hf Hg H rho I v Ha Hv. apply bind_Some_inv in Hv as (x & Hx & Hv). apply bind_Some_inv in Hv as (y & Hy & Hv). apply H. by rewrite (Hf rho I x Ha Hx), (Hg rho I y Ha Hy).
Qed.
(** [c] translates [e]. *)
Definition translates (c : B (VCExpr * Z)) (e : expr) : Prop :=
  forall s, spec s c (fun s' p => p.2 = getWidth e /\ means s' p.1 (getWidth e) (fun rho => seval rho e)).

Lemma den_ite c a b w f ga gb : is_bool c f -> den a w ga -> den b w gb -> den (vc_iteExpr c a b) w (fun I => if f I then ga I else gb I).
Proof.
  intros Hc. unfold den. case_decide; [|by apply ite_bv_is]. intros [Ha Ra] [Hb Rb]. split; [|intros I; destruct (f I); [apply Ra|apply Rb]].
  eapply is_bool_ext; [exact (ite_bool_is _ _ _ _ _ _ Hc Ha Hb)|]. intros I. cbv beta. by destruct (f I).
Qed.

(** ** Divisions *)
Section shortcuts.
Variables (optimizeDivides : bool) (left_ : VCExpr) (w : Z) (f : interp -> Z) (r : expr).
Hypotheses (Hl : is_bv left_ w f) (Hr : wf r) (Hw : getWidth r = w) (Hz : literal_zero r = false).

(** A shortcut that applies computes [F] with the divisor. *)
Definition shortcut_ok (F : Z -> Z -> Z) (o : option VCExpr) : Prop :=
  match o with Some t => exists c, r = ConstantExpr c /\ is_bv t w (fun I => F (f I) (raw c)) | None => True end.

Lemma small_const_Some c : small_const r = Some c -> r = ConstantExpr c /\ apok c /\ bw c = w /\ w <= 64 /\ 0 < raw c < 2 ^ w.
Proof.
  unfold small_const. destruct r as [c'| | | | | | | | |]; try done. destruct (Z.leb_spec (bw c') 64); [|done]. intros [= <-]. cbn in *. apply Z.eqb_neq in Hz. destruct Hr as [H1 H2]. unfold inw in H2. subst w. split_and!; done || lia.
Qed.
Lemma power_of_two x : 0 < x < 2 ^ w -> w <= 64 -> bits64.isPowerOfTwo x = true -> exists k, 0 <= k < w /\ x = 2 ^ k /\ bits64.indexOfSingleBit x = Ok k.
Proof.
  intros Hx H64 Hp. pose proof (is_bv_range _ _ _ Hl) as [Hw0 _]. assert (inw 64 x) by (unfold inw; pose proof (Z.pow_le_mono_r 2 w 64 ltac:(lia) ltac:(lia)); lia). apply bits64.isPowerOfTwo_spec in Hp as (k & Hk & ->); [|done].
  exists k. split_and!; [lia| |done|by apply bits64.indexOfSingleBit_pow2]. apply (Z.pow_lt_mono_r_iff 2); lia.
Qed.
Lemma udiv_shortcut_is : returns (udiv_shortcut optimizeDivides left_ w r) (shortcut_ok (bv_udiv w)).
Proof.
  pose proof (is_bv_range _ _ _ Hl) as [Hw0 Hf]. unfold udiv_shortcut. destruct (small_const r) as [c|] eqn:Ec; [|by apply returns_ok]. apply small_const_Some in Ec as (Er & Hc & Hb & H64 & Hx).
  rewrite zext_value by (done || lia). cbn [mbind result_bind]. destruct (bits64.isPowerOfTwo (raw c)) eqn:Ep; [|destruct (optimizeDivides && (w =? 32)) eqn:Eo].
  - destruct (power_of_two _ Hx H64 Ep) as (k & Hk & Ek & Ei). rewrite Ei. cbn [mbind result_bind]. eapply returns_bind; [apply (bvRightShift_is _ _ _ k Hl); lia|]. intros t Ht. apply returns_ok. exists c. split; [done|].
    bv_is Ht. unfold bv_lshr, bv_udiv. replace (w <=? k) with false by lia. by rewrite Ek.
  - apply andb_true_iff in Eo as [_ Ew%Z.eqb_eq]. assert (E32 : w = 32) by done. rewrite E32 in *. rewrite u32_small by lia. eapply returns_bind; [by apply (constructUDiv_is _ _ (raw c) Hl)|]. intros t Ht. apply returns_ok. exists c. split; [done|]. rewrite E32. exact Ht.
  - by apply returns_ok.
Qed.
Lemma urem_shortcut_is : returns (urem_shortcut optimizeDivides left_ w r) (shortcut_ok (bv_urem w)).
Proof.
  pose proof (is_bv_range _ _ _ Hl) as [Hw0 Hf]. unfold urem_shortcut. destruct (small_const r) as [c|] eqn:Ec; [|by apply returns_ok]. apply small_const_Some in Ec as (Er & Hc & Hb & H64 & Hx).
  rewrite zext_value by (done || lia). cbn [mbind result_bind]. destruct (bits64.isPowerOfTwo (raw c)) eqn:Ep; [|destruct (optimizeDivides && (w =? 32)) eqn:Eo].
  - destruct (power_of_two _ Hx H64 Ep) as (k & Hk & Ek & Ei). rewrite Ei. cbn [mbind result_bind]. destruct (Z.eqb_spec k 0) as [E0|E0].
    + eapply returns_bind; [by apply bvZero_is|]. intros t Ht. apply returns_ok. exists c. split; [done|]. bv_is Ht. unfold bv_urem. rewrite Ek, E0. by rewrite Z.mod_1_r.
    + eapply returns_bind; [apply bvZero_is; lia|]. intros z Hz'. apply returns_ok. exists c. split; [done|]. unfold bvExtract.
      pose proof (concat_is _ _ _ _ _ _ Hz' (extract_is _ _ _ (k - 1) 0 Hl ltac:(lia) ltac:(lia))) as H1. replace (w - k + (k - 1 - 0 + 1)) with w in H1 by lia.
      bv_is H1. rewrite sem_concat_0. unfold sem_extract, bv_urem. rewrite Z.div_1_r, Ek. by replace (k - 1 - 0 + 1) with k by lia.
  - apply andb_true_iff in Eo as [_ Ew%Z.eqb_eq]. assert (E32 : w = 32) by done. rewrite E32 in *. rewrite u32_small by lia. eapply returns_bind; [by apply (constructUDiv_is _ _ (raw c) Hl)|]. intros q Hq.
    eapply returns_bind; [apply (constructMul_is _ _ _ (raw c) Hq); [lia|unfold inw; lia]|]. intros m Hm. apply returns_ok. exists c. split; [done|]. rewrite E32. bv_is (minus_is _ _ _ _ _ Hl Hm).
    unfold bv_sub, bv_mul, bv_urem. rewrite wrap_sub_r by lia. pose proof (Z.div_mod (f I) (raw c) ltac:(lia)). pose proof (Z.mod_pos_bound (f I) (raw c) ltac:(lia)).
    replace (f I - f I / raw c * raw c) with (f I mod raw c) by lia. apply wrap_small. unfold inw. lia.
  - by apply returns_ok.
Qed.
Lemma sdiv_shortcut_is : returns (sdiv_shortcut optimizeDivides left_ w r) (shortcut_ok (bv_sdiv w)).
Proof.
  unfold sdiv_shortcut. destruct r as [c| | | | | | | | |] eqn:Er; try by apply returns_ok. case_match eqn:Eo; [|by apply returns_ok].
  apply andb_true_iff in Eo as [_ Ew%Z.eqb_eq]. assert (E32 : w = 32) by done. cbn in Hr, Hw, Hz. apply Z.eqb_neq in Hz. rewrite zext_value by (done || lia). cbn [mbind result_bind]. rewrite E32 in *.
  eapply returns_bind; [apply (constructSDiv_is _ _ (raw c) Hl); [rewrite <- Hw; apply Hr|done]|]. intros t Ht. apply returns_ok. exists c. split; [done|]. rewrite E32. exact Ht.
Qed.
End shortcuts.

(** ** Binary kinds *)
Section binary.
Variables (optimizeDivides : bool) (l r : expr) (cl cr : B (VCExpr * Z)).
Hypotheses (Wl : wf l) (Wr : wf r) (Ew : getWidth l = getWidth r) (Hl : translates cl l) (Hr : translates cr r).
Abbreviation w := (getWidth l).
Abbreviation goal_spec k s m := (spec s m (fun s' p => p.2 = getWidth (BinExpr k l r) /\ means s' p.1 (getWidth (BinExpr k l r)) (fun rho => seval rho (BinExpr k l r)))).

(** One operand, and both. *)
Ltac run_left s1 gl Dl Vl :=
  eapply spec_bind; [apply Hl|]; let x := fresh "t" in let y := fresh "z" in intros [x y] s1 _ [? (gl & Dl & Vl)]; cbn [fst snd] in *; subst.
Ltac run_right s1 gr Dr Vr :=
  eapply spec_bind; [apply Hr|]; let x := fresh "t" in let y := fresh "z" in intros [x y] s1 ? [? (gr & Dr & Vr)]; cbn [fst snd] in *; subst; rewrite <- Ew in Dr; try rewrite <- Ew.
Ltac run_both s1 gl Dl Vl s2 gr Dr Vr :=
  run_left s1 gl Dl Vl; run_right s2 gr Dr Vr; apply (mean_by_sub s1 s2) in Vl; [|done].
Ltac pass_not_bool :=
  unfold not_bool; eapply (spec_lift _ _ _ (fun _ => True)); [rewrite massert_true by (by apply negb_true_iff, Z.eqb_neq); by apply returns_ok|]; intros _ _.
Ltac ret h := apply spec_ret; split; [reflexivity|]; exists h; split.

Lemma bv_binop k (op : Z -> VCExpr -> VCExpr -> VCExpr) (F : Z -> Z -> Z -> Z) s :
  w <> 1 -> Kind.isCmp k = false -> (forall a b, ssem_bin k w a b = Some (F w a b)) ->
  (forall a b f g, is_bv a w f -> is_bv b w g -> is_bv (op w a b) w (fun I => F w (f I) (g I))) ->
  goal_spec k s ('(left_, _) ← cl; '(right_, width) ← cr; _ ← not_bool width; mret (op width left_ right_, width)).
Proof.
  intros H1 Hk Hs Hop. run_both s1 gl Dl Vl s2 gr Dr Vr. pass_not_bool. cbn [getWidth]. rewrite Hk. apply den_bv in Dl, Dr; [|done..]. ret (fun I => F w (gl I) (gr I)).
  - apply den_bv; [done|]. by apply Hop.
  - apply (mean_by2 _ _ _ _ _ _ _ Vl Vr). intros I v. rewrite Hs. by intros [= <-].
Qed.
Lemma bv_compare k (op : VCExpr -> VCExpr -> VCExpr) (F : Z -> Z -> Z -> bool) s :
  w <> 1 -> Kind.isCmp k = true -> (forall a b, ssem_bin k w a b = Some (Z.b2z (F w a b))) ->
  (forall a b f g, is_bv a w f -> is_bv b w g -> is_bool (op a b) (fun I => F w (f I) (g I))) ->
  goal_spec k s ('(left_, _) ← cl; '(right_, width) ← cr; _ ← not_bool width; mret (op left_ right_, 1)).
Proof.
  intros H1 Hk Hs Hop. run_both s1 gl Dl Vl s2 gr Dr Vr. pass_not_bool. cbn [getWidth]. rewrite Hk. apply den_bv in Dl, Dr; [|done..]. ret (fun I => Z.b2z (F w (gl I) (gr I))).
  - apply den_formula. by apply Hop.
  - apply (mean_by2 _ _ _ _ _ _ _ Vl Vr). intros I v. rewrite Hs. by intros [= <-].
Qed.
(** The bitwise operations, on formulas and on bit vectors. *)
Lemma bitwise k (opb opv : VCExpr -> VCExpr -> VCExpr) (Fb : bool -> bool -> bool) (F : Z -> Z -> Z) s :
  Kind.isCmp k = false -> (forall a b, ssem_bin k w a b = Some (F a b)) -> (forall a b, F (Z.b2z a) (Z.b2z b) = Z.b2z (Fb a b)) ->
  (forall a b f g, is_bool a f -> is_bool b g -> is_bool (opb a b) (fun I => Fb (f I) (g I))) ->
  (forall a b f g, is_bv a w f -> is_bv b w g -> is_bv (opv a b) w (fun I => F (f I) (g I))) ->
  goal_spec k s ('(left_, _) ← cl; '(right_, width) ← cr; mret (bool_or_bv width (opb left_ right_) (opv left_ right_), width)).
Proof.
  intros Hk Hs Hb Hopb Hopv. run_both s1 gl Dl Vl s2 gr Dr Vr. cbn [getWidth]. rewrite Hk. unfold bool_or_bv. ret (fun I => F (gl I) (gr I)).
  - destruct (Z.eqb_spec w 1) as [E|E]; cbn [fst].
    + rewrite E in *. apply den_bool in Dl as [Dl Rl]. apply den_bool in Dr as [Dr Rr]. pose proof (den_formula _ _ (Hopb _ _ _ _ Dl Dr)) as Hf. apply den_bool in Hf as [Hf R].
      assert (EF : forall I, F (gl I) (gr I) = Z.b2z (Fb (gl I =? 1) (gr I =? 1))) by (intros I; rewrite <- Hb; destruct (inw1_cases _ (Rl I)) as [->| ->], (inw1_cases _ (Rr I)) as [->| ->]; done).
      apply den_bool. split; [|intros I; rewrite EF; apply R]. eapply is_bool_ext; [exact Hf|]. intros I. by rewrite EF.
    + apply den_bv in Dl, Dr; [|done..]. apply den_bv; [done|]. by apply Hopv.
  - apply (mean_by2 _ _ _ _ _ _ _ Vl Vr). intros I v. rewrite Hs. by intros [= <-].
Qed.
Lemma or_else_is k (F : Z -> Z -> Z -> Z) (op : VCExpr -> Z -> VCExpr -> VCExpr) (shortcut : VCExpr -> Z -> expr -> result (option VCExpr)) s :
  w <> 1 -> Kind.isCmp k = false -> (forall a b, ssem_bin k w a b = if b =? 0 then None else Some (F w a b)) ->
  (forall a f, is_bv a w f -> returns (shortcut a w r) (shortcut_ok w f r (F w))) ->
  (forall a b f g, is_bv a w f -> is_bv b w g -> exists h, is_bv (op a w b) w h /\ total_div F w f g h) ->
  goal_spec k s ('(left_, width) ← cl; _ ← not_bool width; or_else (shortcut left_ width r) width cr (op left_)).
Proof.
  intros H1 Hk Hs Hsh Hop. run_left s1 gl Dl Vl. pass_not_bool. cbn [getWidth]. rewrite Hk. apply den_bv in Dl; [|done]. unfold or_else. eapply spec_lift; [by apply Hsh|].
  intros [t'|] Ht.
  - destruct Ht as (c & Er & Ht). ret (fun I => F w (gl I) (raw c)); [by apply den_bv|]. rewrite Er. intros rho I v Ha Hv. cbn [seval] in Hv. apply bind_Some_inv in Hv as (x & Hx & Hv). cbn in Hv. rewrite Hs in Hv.
    destruct (raw c =? 0); [done|]. injection Hv as <-. by rewrite (Vl rho I x Ha Hx).
  - run_right s2 gr Dr Vr. apply (mean_by_sub s1 s2) in Vl; [|done]. apply den_bv in Dr; [|done]. destruct (Hop _ _ _ _ Dl Dr) as (h & Hh & Hd). ret h; [by apply den_bv|].
    apply (mean_by2 _ _ _ _ _ _ _ Vl Vr). intros I v. rewrite Hs. destruct (Z.eqb_spec (gr I) 0); [done|]. intros [= <-]. by apply Hd.
Qed.

Lemma shift_is k (opc : VCExpr -> Z -> Z -> result VCExpr) (opv : VCExpr -> VCExpr -> result VCExpr) s :
  w <> 1 -> Kind.isCmp k = false -> small_shift r = true ->
  (forall a f n, is_bv a w f -> 0 <= n -> returns (opc a w n) (fun t => exists h, is_bv t w h /\ forall I v, ssem_bin k w (f I) n = Some v -> h I = v)) ->
  (forall a b f g, is_bv a w f -> is_bv b w g -> returns (opv a b) (fun t => exists h, is_bv t w h /\ forall I v, ssem_bin k w (f I) (g I) = Some v -> h I = v)) ->
  goal_spec k s ('(left_, width) ← cl; _ ← not_bool width;
    match r with
    | ConstantExpr CE => t ← liftB (opc left_ width (shift_amount CE)); mret (t, width)
    | _ => '(amount, _) ← cr; t ← liftB (opv left_ amount); mret (t, width)
    end).
Proof.
  intros H1 Hk Hss Hopc Hopv. run_left s1 gl Dl Vl. pass_not_bool. cbn [getWidth]. rewrite Hk. apply den_bv in Dl; [|done].
  assert (Hvar : spec s1 ('(amount, _) ← cr; t' ← liftB (opv t amount); mret (t', w)) (fun s' p => p.2 = w /\ means s' p.1 w (fun rho => seval rho (BinExpr k l r)))).
  { run_right s2 gr Dr Vr. apply (mean_by_sub s1 s2) in Vl; [|done]. apply den_bv in Dr; [|done]. eapply spec_lift; [by apply (Hopv _ _ _ _ Dl Dr)|]. intros t' (h & Hh & Hv).
    ret h; [by apply den_bv|]. by apply (mean_by2 _ _ _ _ _ _ _ Vl Vr). }
  destruct r as [c| | | | | | | | |]; try exact Hvar. clear Hvar. cbn in Hss, Wr. apply Z.ltb_lt in Hss. destruct Wr as [Hb [Hv0 Hv1]].
  assert (Ea : shift_amount c = raw c). { unfold shift_amount, CE_getLimitedValue. rewrite ap_getLimitedValue_spec by done. rewrite Z.min_l by lia. apply u32_small. lia. }
  rewrite Ea. eapply spec_lift; [by apply (Hopc _ _ (raw c) Dl)|]. intros t' (h & Hh & Hv). ret h; [by apply den_bv|].
  intros rho I v Ha Hs. cbn [seval] in Hs. apply bind_Some_inv in Hs as (x & Hx & Hs). cbn in Hs. apply Hv. by rewrite (Vl rho I x Ha Hx).
Qed.
Lemma mul_is s : w <> 1 -> goal_spec Kind.Mul s (construct_bin optimizeDivides Kind.Mul l r cl cr).
Proof.
  intros H1. cbn [construct_bin construct_arith construct_cmp]. run_right s1 gr Dr Vr. pass_not_bool. cbn [getWidth Kind.isCmp]. apply den_bv in Dr; [|done]. destruct (small_const l) as [c|] eqn:Ec.
  - unfold small_const in Ec. destruct l as [c'| | | | | | | | |] eqn:El; try done. destruct (Z.leb_spec (bw c') 64); [|done]. injection Ec as ->. cbn in Wl, H1, Dr. cbn [getWidth].
    assert (Hc64 : inw 64 (raw c)) by (eapply inw_mono; [|apply Wl]; destruct Wl; lia). rewrite zext_value by (done || lia).
    eapply (spec_lift _ _ _ (fun x => x = raw c)); [by apply returns_ok|]. intros x ->. eapply spec_lift; [apply (constructMul_is _ _ _ (raw c) Dr); [lia|done]|]. intros t' Ht'.
    ret (fun I => bv_mul (bw c) (gr I) (raw c)); [by apply den_bv|]. intros rho I v Ha Hs. cbn [seval] in Hs. cbn in Hs. apply bind_Some_inv in Hs as (y & Hy & Hs). injection Hs as <-.
    rewrite (Vr rho I y Ha Hy). unfold bv_mul. by rewrite Z.mul_comm.
  - eapply spec_bind; [apply Hl|]. intros [tl zl] s2 Hs2 [E (gl & Dl & Vl)]. cbn [fst snd] in *. subst zl. apply (mean_by_sub s1 s2) in Vr; [|done]. apply den_bv in Dl; [|done].
    ret (fun I => bv_mul w (gl I) (gr I)); [apply den_bv; [done|by apply mult_is]|]. apply (mean_by2 _ _ _ _ _ _ _ Vl Vr). by intros I v [= <-].
Qed.
Lemma eq_kind_is s : goal_spec Kind.Eq s (construct_bin optimizeDivides Kind.Eq l r cl cr).
Proof.
  cbn [construct_bin construct_arith construct_cmp]. run_both s1 gl Dl Vl s2 gr Dr Vr. cbn [getWidth Kind.isCmp]. change (if Kind.isCmp Kind.Eq then Bool else w) with 1. destruct (Z.eqb_spec w 1) as [E|E].
  2: { apply den_bv in Dl, Dr; [|done..]. ret (fun I => Z.b2z (gl I =? gr I)); [by apply den_formula, eq_is with w|]. apply (mean_by2 _ _ _ _ _ _ _ Vl Vr). by intros I v [= <-]. }
  rewrite E in *. apply den_bool in Dr as [Dr Rr]. apply den_bool in Dl as [Dl Rl].
  assert (Hiff : den (vc_iffExpr t t0) 1 (fun I => Z.b2z (gl I =? gr I))).
  { pose proof (den_formula _ _ (iff_is _ _ _ _ Dl Dr)) as Hf. apply den_bool in Hf as [Hf _]. apply den_bool. split; [|intros I; by apply b2z_inw]. eapply is_bool_ext; [exact Hf|]. intros I. cbv beta.
    destruct (inw1_cases _ (Rl I)) as [->| ->], (inw1_cases _ (Rr I)) as [->| ->]; done. }
  assert (Hmean : mean_by s2 (fun I => Z.b2z (gl I =? gr I)) (fun rho => seval rho (BinExpr Kind.Eq l r))) by (apply (mean_by2 _ _ _ _ _ _ _ Vl Vr); by intros I v [= <-]).
  apply spec_ret. split; [done|]. destruct l as [c| | | | | | | | |]; try by (eexists; split; [exact Hiff|exact Hmean]). clear Hiff Hmean. cbn in Wl, E. exists (fun I => Z.b2z (raw c =? gr I)). split.
  - cbn [fst]. assert (Er : raw c = Z.b2z (CE_isTrue c)). { pose proof Wl as [_ Hv]. unfold CE_isTrue. rewrite E in Hv |- *. rewrite ap_getBoolValue_spec by done. destruct (inw1_cases _ Hv) as [->| ->]; done. }
    rewrite Er. apply den_bool. split; [|intros I; by apply b2z_inw]. destruct (CE_isTrue c); (eapply is_bool_ext; [first [exact Dr|exact (not_is _ _ Dr)]|]); intros I; cbv beta; destruct (inw1_cases _ (Rr I)) as [->| ->]; done.
  - intros rho I v Ha Hs. cbn [seval] in Hs. cbn in Hs. apply bind_Some_inv in Hs as (y & Hy & Hs). injection Hs as <-. by rewrite (Vr rho I y Ha Hy).
Qed.

Lemma pow_gt w0 : 0 < w0 -> w0 < 2 ^ w0.
Proof. intros H. apply Z.pow_gt_lin_r; lia. Qed.
(** Every kind the builder handles. *)
Lemma construct_bin_is k : constructible_op k l r = true -> translates (construct_bin optimizeDivides k l r cl cr) (BinExpr k l r).
Proof.
  intros Hk s. pose proof (wf_width l Wl) as Hw. pose proof (pow_gt w ltac:(lia)) as Hpow. unfold constructible_op in Hk.
  destruct k; try done; rewrite ?andb_true_iff, ?negb_true_iff, ?Z.eqb_neq, ?Z.leb_le in Hk.
  - by apply (bv_binop Kind.Add vc_bvPlusExpr bv_add); [| | |intros; apply plus_is].
  - by apply (bv_binop Kind.Sub vc_bvMinusExpr bv_sub); [| | |intros; apply minus_is].
  - by apply mul_is.
  - destruct Hk as [H1 Hz]. apply (or_else_is Kind.UDiv bv_udiv (fun a width b => vc_bvDivExpr width a b) (udiv_shortcut optimizeDivides)); try done; [|intros; by apply div_is].
    intros a f Ha. by apply udiv_shortcut_is.
  - destruct Hk as [H1 Hz]. apply (or_else_is Kind.SDiv bv_sdiv (fun a width b => vc_sbvDivExpr width a b) (sdiv_shortcut optimizeDivides)); try done; [|intros; by apply sdiv_is].
    intros a f Ha. by apply sdiv_shortcut_is.
  - destruct Hk as [H1 Hz]. apply (or_else_is Kind.URem bv_urem (fun a width b => vc_bvModExpr width a b) (urem_shortcut optimizeDivides)); try done; [|intros; by apply mod_is].
    intros a f Ha. by apply urem_shortcut_is.
  - destruct Hk as [H1 Hz]. cbn [construct_bin construct_arith construct_cmp]. run_both s1 gl Dl Vl s2 gr Dr Vr. pass_not_bool. apply den_bv in Dl, Dr; [|done..]. destruct (srem_is _ _ _ _ _ Dl Dr) as (h & Hh & Hd).
    ret h; [by apply den_bv|]. apply (mean_by2 _ _ _ _ _ _ _ Vl Vr). intros I v. cbn. destruct (Z.eqb_spec (gr I) 0); [done|]. intros [= <-]. by apply Hd.
  - by apply (bitwise Kind.And vc_andExpr vc_bvAndExpr andb Z.land); [| |intros [] []|intros; apply and_is|intros; apply bvand_is].
  - by apply (bitwise Kind.Or vc_orExpr vc_bvOrExpr orb Z.lor); [| |intros [] []|intros; apply or_is|intros; apply bvor_is].
  - apply (bitwise Kind.Xor (fun a b => vc_iteExpr a (vc_notExpr b) b) vc_bvXorExpr xorb Z.lxor); [done|done|by intros [] []| |intros; by apply bvxor_is].
    intros a b f g Ha Hb. eapply is_bool_ext; [exact (ite_bool_is _ _ _ _ _ _ Ha (not_is _ _ Hb) Hb)|]. intros I. cbv beta. by destruct (f I), (g I).
  - destruct Hk as [[H1 H31] Hss]. apply (shift_is Kind.Shl (fun a _ n => bvLeftShift a n) bvVarLeftShift); try done.
    + intros a f n Ha Hn. eapply returns_weaken; [by apply bvLeftShift_is|]. intros t Ht. eexists. split; [exact Ht|]. by intros I v [= <-].
    + intros a b f g Ha Hb. eapply returns_weaken; [by apply (bvVarLeftShift_is a b w w f g)|]. intros t Ht. eexists. split; [exact Ht|]. by intros I v [= <-].
  - destruct Hk as [[H1 H31] Hss]. apply (shift_is Kind.LShr (fun a _ n => bvRightShift a n) bvVarRightShift); try done.
    + intros a f n Ha Hn. eapply returns_weaken; [by apply bvRightShift_is|]. intros t Ht. eexists. split; [exact Ht|]. by intros I v [= <-].
    + intros a b f g Ha Hb. eapply returns_weaken; [by apply (bvVarRightShift_is a b w w f g)|]. intros t Ht. eexists. split; [exact Ht|]. by intros I v [= <-].
  - destruct Hk as [[H1 H31] Hss]. apply (shift_is Kind.AShr ashr_by bvVarArithRightShift); try done.
    + intros a f n Ha Hn. unfold ashr_by. eapply returns_bind; [apply (bvBoolExtract_is a w f _ Ha); lia|]. intros sb Hsb. destruct (Z.lt_ge_cases n w) as [Hlt|Hge].
      * eapply returns_weaken; [by apply (constructAShr_is a w f n sb)|]. intros t Ht. eexists. split; [exact Ht|]. intros I v. cbn. destruct (w <=? n); [done|]. by intros [= <-].
      * unfold constructAShrByConstant. rewrite (bv_length _ _ _ Ha). replace (n =? 0) with false by lia. replace (w <=? n) with true by lia. eapply returns_weaken; [apply bvZero_is; lia|].
        intros t Ht. eexists. split; [exact Ht|]. intros I v. cbn. by replace (w <=? n) with true by lia.
    + intros a b f g Ha Hb. eapply returns_weaken; [by apply (bvVarArithRightShift_is a b w w f g)|]. intros t Ht. eexists. split; [exact Ht|]. intros I v. cbn.
      destruct (Z.leb_spec w (g I)); [done|]. intros [= <-]. by replace (g I <? w) with true by lia.
  - apply eq_kind_is.
  - by apply (bv_compare Kind.Ult vc_bvLtExpr (fun _ => Z.ltb)); [| | |intros; eapply lt_is].
  - by apply (bv_compare Kind.Ule vc_bvLeExpr (fun _ => Z.leb)); [| | |intros; eapply le_is].
  - by apply (bv_compare Kind.Slt vc_sbvLtExpr bv_slt); [| | |intros; eapply slt_is].
  - by apply (bv_compare Kind.Sle vc_sbvLeExpr bv_sle); [| | |intros; eapply sle_is].
Qed.
End binary.

(** ** Extensions and the memo table *)
Lemma bv_ext1 signed w0 a : 1 < w0 -> inw 1 a ->
  (if signed : bool then bv_sext 1 w0 a else bv_zext 1 w0 a) = if a =? 1 then if signed then 2 ^ w0 - 1 else 1 else 0.
Proof.
  intros Hw Ha. assert (2 ^ 1 < 2 ^ w0) by (apply Z.pow_lt_mono_r; lia). destruct (inw1_cases a Ha) as [->| ->], signed; unfold bv_sext, bv_zext; rewrite ?Z.eqb_refl; change (0 =? 1) with false; cbv iota.
  1,2: change (sgn 1 0) with 0; apply wrap_small; apply inw_0; lia.
  - change (sgn 1 1) with (-1). unfold wrap. symmetry. apply Z.mod_unique with (q := -1); lia.
  - apply wrap_small. apply inw_1. lia.
Qed.
Lemma construct_ext_is (signed : bool) e w0 c : wf e -> getWidth e <= w0 -> w0 <> 1 -> (signed = false -> getWidth e < w0) -> translates c e ->
  translates (construct_ext signed w0 c) (if signed then SExtExpr e w0 else ZExtExpr e w0).
Proof.
  intros We Hle H1 Hlt Hc s. pose proof (wf_width e We) as Hw. unfold construct_ext. eapply spec_bind; [apply Hc|]. intros [t z] s1 _ [E (g & D & V)]. cbn [fst snd] in *. subst z.
  set (F := fun a => if signed then bv_sext (getWidth e) w0 a else bv_zext (getWidth e) w0 a).
  assert (Hmean : mean_by s1 (fun I => F (g I)) (fun rho => seval rho (if signed then SExtExpr e w0 else ZExtExpr e w0))).
  { unfold F. destruct signed; cbn [seval]; apply (mean_by1 _ _ _ _ _ V); by intros I v [= <-]. }
  assert (Hwd : getWidth (if signed then SExtExpr e w0 else ZExtExpr e w0) = w0) by (by destruct signed). rewrite Hwd.
  destruct (Z.eqb_spec (getWidth e) 1) as [E1|E1].
  - eapply (spec_lift _ _ _ (fun o => is_bv o w0 (fun _ => if signed then 2 ^ w0 - 1 else 1))); [destruct signed; [apply returns_ok, bvMinusOne_is; lia|apply bvOne_is; lia]|]. intros one Hone.
    eapply spec_lift; [apply bvZero_is; lia|]. intros zero Hzero. apply spec_ret. split; [done|]. exists (fun I => F (g I)). split; [|exact Hmean]. apply den_bv; [done|]. cbn [fst].
    rewrite E1 in D. apply den_bool in D as [D R]. bv_is (ite_bv_is _ _ _ _ _ _ _ D Hone Hzero). unfold F. rewrite E1. symmetry. apply bv_ext1; [lia|apply R].
  - apply den_bv in D; [|done]. pose proof (is_bv_range _ _ _ D) as [_ R]. destruct signed.
    + apply spec_ret. split; [done|]. exists (fun I => F (g I)). split; [|exact Hmean]. apply den_bv; [done|]. by apply sext_is.
    + eapply spec_lift; [apply bvZero_is; specialize (Hlt eq_refl); lia|]. intros zero Hzero. apply spec_ret. split; [done|]. exists (fun I => F (g I)). split; [|exact Hmean]. apply den_bv; [done|]. cbn [fst].
      pose proof (concat_is _ _ _ _ _ _ Hzero D) as Hcat. replace (w0 - getWidth e + getWidth e) with w0 in Hcat by lia. bv_is Hcat. rewrite sem_concat_0. unfold F, bv_zext. symmetry. apply wrap_small. eapply inw_mono; [|apply R]. lia.
Qed.
Lemma constructed_find_Some t e p : Forall (fun q => wf q.1) t -> wf e -> constructed_find t e = Some p -> (e, p) ∈ t.
Proof.
  intros Ht He. induction t as [|[k v] t IH]; cbn; [done|]. apply Forall_cons in Ht as [Hk Ht]. destruct (expr_eqb k e) eqn:Eq.
  - intros [= <-]. apply expr_eqb_eq in Eq; [|done..]. subst k. left.
  - intros Hf. right. by apply IH.
Qed.
Lemma memoized_is hash e c : wf e -> translates c e -> translates (memoized hash e c) e.
Proof.
  intros We Hc s Hi. unfold memoized. destruct (negb hash || isConst e); [by apply Hc|]. destruct (constructed_find (constructed s) e) as [[t z]|] eqn:Ef.
  - apply returns_ok. split; [done|]. split; [done|]. pose proof (inv_constructed s Hi) as Hcs. apply constructed_find_Some in Ef; [|eapply Forall_impl; [exact Hcs|]; by intros q (? & _)|done].
    rewrite List.Forall_forall in Hcs. apply list_elem_of_In in Ef. destruct (Hcs _ Ef) as (_ & E & M). cbn [fst snd] in *. subst z. done.
  - eapply returns_bind; [by apply Hc|]. intros [[t z] s1] (Hs & Hi1 & E & M). cbn [fst snd] in *. subst z. cbn [insert_constructed mbind result_bind]. apply returns_ok. cbn [fst snd].
    split; [exact Hs|]. split; [|done]. destruct Hi1 as [Ia In Iu Ic]. constructor; try done. cbn. apply Forall_cons. split; [|done]. done.
Qed.

(** ** The translation *)
Section translation.
Variables (optimizeDivides hash : bool).
Abbreviation tr := (construct optimizeDivides hash).
Abbreviation arr := (getArrayForUpdate optimizeDivides hash).
Ltac run H x s1 g D V := eapply spec_bind; [apply H|]; let z := fresh "z" in intros [x z] s1 ? [? (g & D & V)]; cbn [fst snd] in *; subst.

Lemma select_is c t f cc ct cf : getWidth c = Bool -> getWidth t = getWidth f -> translates cc c -> translates ct t -> translates cf f ->
  translates ('(cond, _) ← cc; '(tExpr, _) ← ct; '(fExpr, width) ← cf; mret (vc_iteExpr cond tExpr fExpr, width)) (SelectExpr c t f).
Proof.
  intros Ec Et Hc Ht Hf s. run Hc xc s1 gc Dc Vc. run Ht xt s2 gtr Dt Vt. run Hf xf s3 gf Df Vf. cbn [getWidth]. rewrite Et in *. apply spec_ret. split; [done|].
  unfold Bool in Ec. rewrite Ec in Dc. apply den_bool in Dc as [Dc Rc]. exists (fun I => if gc I =? 1 then gtr I else gf I). split; [by apply den_ite|].
  apply (mean_by_sub s2 s3) in Vt; [|done]. apply (mean_by_sub s1 s3) in Vc; [|by etrans]. intros rho I v Ha Hv. cbn [seval] in Hv.
  apply bind_Some_inv in Hv as (a & Ha' & Hv). apply bind_Some_inv in Hv as (b & Hb & Hv). apply bind_Some_inv in Hv as (d & Hd & Hv). injection Hv as <-.
  rewrite <- (Vc rho I a Ha Ha'), <- (Vt rho I b Ha Hb), <- (Vf rho I d Ha Hd). unfold sem_select. destruct (inw1_cases _ (Rc I)) as [->| ->]; done.
Qed.
Lemma concat_kind_is l r cl cr : wf (ConcatExpr l r) -> getWidth l <> 1 -> getWidth r <> 1 -> translates cl l -> translates cr r ->
  translates ('(res, _) ← cr; '(kid, _) ← cl; mret (vc_bvConcatExpr kid res, getWidth (ConcatExpr l r))) (ConcatExpr l r).
Proof.
  intros Hwf Hl1 Hr1 Hl Hr s. run Hr xr s1 gr Dr Vr. run Hl xl s2 gl Dl Vl. apply spec_ret. split; [done|]. rewrite (getWidth_concat l r Hwf). destruct Hwf as (Wl & Wr & _). pose proof (wf_width l Wl). pose proof (wf_width r Wr).
  apply den_bv in Dl, Dr; [|done..]. apply (mean_by_sub s1 s2) in Vr; [|done]. eexists. split; [apply den_bv; [lia|]; exact (concat_is _ _ _ _ _ _ Dl Dr)|].
  apply (mean_by2 _ _ _ _ _ _ _ Vl Vr). by intros I v [= <-].
Qed.
Lemma extract_kind_is e o w0 c : wf (ExtractExpr e o w0) -> getWidth e <> 1 -> translates c e ->
  translates ('(src, _) ← c; if w0 =? 1 then t ← liftB (bvBoolExtract src o); mret (t, w0) else mret (vc_bvExtract src (o + w0 - 1) o, w0)) (ExtractExpr e o w0).
Proof.
  intros (We & Ho & Hw & Hin) H1 Hc s. run Hc x s1 g D V. apply den_bv in D; [|done]. cbn [getWidth].
  assert (Hmean : mean_by s1 (fun I => sem_extract o w0 (g I)) (fun rho => seval rho (ExtractExpr e o w0))) by (apply (mean_by1 _ _ _ _ _ V); by intros I v [= <-]).
  destruct (Z.eqb_spec w0 1) as [->|E].
  - eapply spec_lift; [apply (bvBoolExtract_is x (getWidth e) g o D); lia|]. intros t Ht. apply spec_ret. split; [done|]. eexists. split; [|exact Hmean]. apply den_bool. split; [|intros I; apply wrap_inw; lia].
    eapply is_bool_ext; [exact Ht|]. intros I. cbv beta. by rewrite sem_extract_bit.
  - apply spec_ret. split; [done|]. eexists. split; [|exact Hmean]. apply den_bv; [done|]. pose proof (extract_is x (getWidth e) g (o + w0 - 1) o D ltac:(lia) ltac:(lia)) as Hx. by replace (o + w0 - 1 - o + 1) with w0 in Hx by lia.
Qed.
Lemma not_kind_is e c : wf e -> translates c e -> translates ('(x, width) ← c; mret (bool_or_bv width (vc_notExpr x) (vc_bvNotExpr x), width)) (NotExpr e).
Proof.
  intros We Hc s. run Hc x s1 g D V. cbn [getWidth]. apply spec_ret. split; [done|]. exists (fun I => bv_not (getWidth e) (g I)). split.
  - unfold bool_or_bv. cbn [fst]. destruct (Z.eqb_spec (getWidth e) 1) as [E|E].
    + rewrite E in *. apply den_bool in D as [D R]. apply den_bool. split; [|intros I; apply bv_not_inw; [apply R]]. eapply is_bool_ext; [exact (not_is _ _ D)|]. intros I. cbv beta. destruct (inw1_cases _ (R I)) as [->| ->]; done.
    + apply den_bv in D; [|done]. apply den_bv; [done|]. by apply bvnot_is.
  - apply (mean_by1 _ _ _ _ _ V). by intros I v [= <-].
Qed.
Lemma read_is_kind root un i ca ci : array_ok root -> wf i -> getWidth i = domain root ->
  (forall s, spec s ca (fun s' h => means_arr s' h root (fun rho => seval_node rho root un))) -> translates ci i ->
  translates (a ← ca; '(x, _) ← ci; mret (vc_readExpr a x, range root)) (ReadExpr root un i).
Proof.
  intros (Ha & Hd & Hr) Wi Ei Hca Hci s. eapply spec_bind; [apply Hca|]. intros a s1 _ (ga & Da & Va). run Hci x s2 g D V. rewrite Ei in D. apply den_bv in D; [|done]. pose proof (is_bv_range _ _ _ D) as [_ R]. cbn [getWidth].
  apply spec_ret. split; [done|]. eexists. split; [apply den_bv; [done|]; exact (read_is _ _ _ _ _ _ Da D)|]. intros rho I v Hag Hv. cbn [seval] in Hv. apply bind_Some_inv in Hv as (j & Hj & Hv). pose proof (V rho I j Hag Hj) as Ej.
  cbv beta. apply (Va rho); [by eapply agree_sub|apply R|]. by rewrite Ej.
Qed.
(** A write to an array. *)
Lemma node_is root next i v s : live root (Node next i v) -> array_ok root -> getWidth i = domain root -> getWidth v = range root ->
  (forall s, spec s (arr root next) (fun s' h => means_arr s' h root (fun rho => seval_node rho root next))) -> translates (tr i) i -> translates (tr v) v ->
  spec s (arr root (Node next i v)) (fun s' h => means_arr s' h root (fun rho => seval_node rho root (Node next i v))).
Proof.
  intros Hl (Ha & Hd & Hr) Ei Ev Hn Hi Hv Hinv. cbn [getArrayForUpdate]. destruct (hash_find (update_node_hash s) (node_address root (Node next i v))) as [h|] eqn:Eh.
  { apply returns_ok. split; [done|]. split; [done|]. apply hash_find_Some, list_elem_of_In in Eh. pose proof (inv_nodes s Hinv) as Hu. rewrite List.Forall_forall in Hu. by apply (Hu _ Eh root (Node next i v)). }
  revert Hinv. change (spec s (a ← arr root next; '(x, _) ← tr i; '(y, _) ← tr v; _ ← hashUpdateNodeExpr root (Node next i v) (vc_writeExpr a x y); mret (vc_writeExpr a x y))
    (fun s' h => means_arr s' h root (fun rho => seval_node rho root (Node next i v)))).
  eapply spec_bind; [apply Hn|]. intros a s1 _ (ga & Da & Va). run Hi x s2 gi Di Vi. run Hv y s3 gv Dv Vv. rewrite Ei in Di. rewrite Ev in Dv. apply den_bv in Di, Dv; [|done..].
  assert (Hm : means_arr s3 (vc_writeExpr a x y) root (fun rho => seval_node rho root (Node next i v))).
  { eexists. split; [exact (write_is _ _ _ _ _ _ _ _ Da Di Dv)|]. intros rho I k u Hag Hk Hu. cbn [seval_node] in Hu.
    change ((j ← seval rho i; if j =? k then seval rho v else seval_node rho root next k) = Some u) in Hu. apply bind_Some_inv in Hu as (j & Hj & Hu).
    assert (Hag2 : agree rho I s2) by (by eapply agree_sub). rewrite (Vi rho I j Hag2 Hj), Z.eqb_sym. destruct (j =? k); [by apply (Vv rho)|]. apply (Va rho); try done. by eapply agree_sub. }
  intros Hinv. unfold hashUpdateNodeExpr. apply returns_ok. cbn [fst snd]. split; [unfold sub; cbn; reflexivity|]. split; [|exact Hm]. destruct Hinv as [Ia In Iu Ic]. constructor; try done. cbn. constructor; [|done]. cbn [fst snd]. intros root' un' Hl' E. destruct (Haddr _ _ _ _ Hl' Hl E) as [-> ->]. exact Hm.
Qed.

Lemma construct_mut :
  (forall e, wf e -> constructible e = true -> live_in live e -> translates (tr e) e) /\
  (forall un root s, array_ok root -> wf_node root un -> constructible_node un = true -> live_node live root un ->
     spec s (arr root un) (fun s' h => means_arr s' h root (fun rho => seval_node rho root un))).
Proof.
  apply expr_node_ind.
  - intros c Hc _ _. apply (memoized_is hash (ConstantExpr c)); [done|]. intros s Hi. unfold liftB. eapply returns_bind; [by apply constructConstant_is|]. intros [t z] [E D]. cbn [fst snd] in *. subst z. apply returns_ok. split; [done|]. split; [done|].
    split; [done|]. exists (fun _ => raw c). split; [done|]. by intros rho I v _ [= <-].
  - intros src IH Hw Hc Hl. apply (memoized_is hash (NotOptimizedExpr src)); [done|]. by apply IH.
  - intros root un IHun i IHi Hw Hc [Hln Hli]. apply (memoized_is hash (ReadExpr root un i)); [exact Hw|]. cbn in Hw, Hc. rewrite !andb_true_iff, !negb_true_iff, !Z.eqb_neq in Hc. destruct Hw as (Wa & Wn & Wi & Ei), Hc as [[[Hd Hr] Hcn] Hci].
    apply read_is_kind; [done|done|done| |by apply IHi]. intros s. by apply IHun.
  - intros c IHc t IHt f IHf Hw Hc (Hl1 & Hl2 & Hl3). apply (memoized_is hash (SelectExpr c t f)); [done|]. cbn in Hw, Hc. rewrite !andb_true_iff in Hc. destruct Hw as (Wc & Wt & Wf & Ec & Et), Hc as [[Hcc Hct] Hcf]. apply select_is; auto.
  - intros l IHl r IHr Hw Hc [Hll Hlr]. apply (memoized_is hash (ConcatExpr l r)); [done|]. pose proof Hw as (Wl & Wr & _). cbn in Hc. rewrite !andb_true_iff, !negb_true_iff, !Z.eqb_neq in Hc. destruct Hc as [[[Hl1 Hr1] Hcl] Hcr]. apply concat_kind_is; auto.
  - intros e IHe o w0 Hw Hc Hl. apply (memoized_is hash (ExtractExpr e o w0)); [done|]. cbn in Hc. rewrite andb_true_iff, negb_true_iff, Z.eqb_neq in Hc. destruct Hc as [H1 Hc]. apply extract_kind_is; [done|done|]. apply IHe; [apply Hw|done|done].
  - intros e IHe w0 Hw Hc Hl. apply (memoized_is hash (ZExtExpr e w0)); [done|]. cbn in Hw, Hc. rewrite andb_true_iff, Z.ltb_lt in Hc. pose proof (wf_width e (proj1 Hw)). apply (construct_ext_is false); [apply Hw|lia|lia|lia|]. apply IHe; [apply Hw|apply Hc|done].
  - intros e IHe w0 Hw Hc Hl. apply (memoized_is hash (SExtExpr e w0)); [done|]. cbn in Hw, Hc. rewrite andb_true_iff, negb_true_iff, Z.eqb_neq in Hc. apply (construct_ext_is true); [apply Hw|apply Hw|apply Hc|done|]. apply IHe; [apply Hw|apply Hc|done].
  - intros e IHe Hw Hc Hl. apply (memoized_is hash (NotExpr e)); [done|]. cbn in Hw. apply not_kind_is; [done|]. by apply IHe.
  - intros k l IHl r IHr Hw Hc [Hll Hlr]. apply (memoized_is hash (BinExpr k l r)); [done|]. cbn in Hw, Hc. rewrite !andb_true_iff in Hc. destruct Hw as (Wl & Wr & Ew), Hc as [[Hk Hcl] Hcr]. apply construct_bin_is; auto.
  - intros root s Ha _ _ _. by apply getInitialArray_is.
  - intros next IHn i IHi v IHv root s Ha (Wn & Wi & Wv & Ei & Ev) Hc (Hl & Hln & Hli & Hlv). cbn in Hc. rewrite !andb_true_iff in Hc. destruct Hc as [[Hcn Hci] Hcv]. apply node_is; auto.
Qed.
End translation.
End construct.

(** ** Models from environments, environments from models *)
Section models.
Context {VC : VCOps}.

(** The arrays of the hash with the names they were given. *)
Definition named (s : bst) : list (string * Array) := imap (fun k p => (unique_name p.1 k, p.1)) (array_hash s).
Fixpoint assoc {K V} `{EqDecision K} (l : list (K * V)) (k : K) : option V :=
  match l with [] => None | (k', v) :: l' => if decide (k' = k) then Some v else assoc l' k end.
Definition interp_of (rho : env) (s : bst) : interp := fun nm i => match assoc (named s) nm with Some a => rho a i | None => 0 end.
Definition env_of_interp (I : interp) (s : bst) : env := fun a i => match assoc ((fun p => (p.2, p.1)) <$> named s) a with Some nm => I nm i | None => 0 end.

Lemma assoc_NoDup {K V} `{EqDecision K} (l : list (K * V)) k v : NoDup l.*1 -> (k, v) ∈ l -> assoc l k = Some v.
Proof.
  induction l as [|[k' v'] l IH]; cbn; intros Hn Hin; [by apply not_elem_of_nil in Hin|]. apply NoDup_cons in Hn as [Hk Hn]. apply elem_of_cons in Hin as [[= -> ->]|Hin]; [by rewrite decide_True|].
  rewrite decide_False; [by apply IH|]. intros ->. apply Hk. apply list_elem_of_fmap. by exists (k, v).
Qed.
Lemma named_lookup s k root h : array_hash s !! k = Some (root, h) -> (unique_name root k, root) ∈ named s.
Proof. intros Hk. apply list_elem_of_lookup. exists k. unfold named. by rewrite list_lookup_imap, Hk. Qed.
Lemma interp_of_agree rho s : NoDup (named s).*1 -> agree rho (interp_of rho s) s.
Proof. intros Hn k root h Hk i Hi. unfold interp_of. by rewrite (assoc_NoDup _ _ _ Hn (named_lookup _ _ _ _ Hk)). Qed.
Lemma named_roots s : (named s).*2 = (array_hash s).*1.
Proof. unfold named. apply list_eq. intros k. rewrite !list_lookup_fmap, list_lookup_imap. by destruct (array_hash s !! k). Qed.
Lemma env_of_interp_agree I s : NoDup (array_hash s).*1 -> agree (env_of_interp I s) I s.
Proof.
  intros Hn k root h Hk i Hi. unfold env_of_interp. rewrite (assoc_NoDup _ root (unique_name root k)); [done| |].
  - rewrite <- list_fmap_compose. rewrite <- named_roots in Hn. exact Hn.
  - apply list_elem_of_fmap. exists (unique_name root k, root). split; [done|]. by eapply named_lookup.
Qed.
Definition init_builder : bst := {| constructed := []; array_hash := []; update_node_hash := [] |}.
End models.
Lemma init_builder_ok {CFG : Config} {VC : VCOps} {SP : VCSpec VC} {NA : NodeAddress} live : Inv live init_builder.
Proof. constructor; cbn; [constructor|constructor|constructor|constructor]. Qed.

(** ** The claims *)

(** C23. [STPBuilder::construct] translates every expression that it handles
    ([constructible]), from any state of its caches that is correct for the nodes that
    exist now ([Inv], which holds of a new builder and afterwards): it returns a well-sorted
    term (a formula for width one) whose value, in every model that gives the named
    arrays the contents of an environment, is the value [seval] of the expression there;
    the memo table is empty again and the caches are still correct.

    [constructible]: comparisons are canonical; operands of arithmetic, order comparisons,
    divisions, shifts, concatenations and extractions and the indices and cells of arrays
    have more than one bit (otherwise [concat_of_formula]), extensions are proper; no
    divisor is the literal zero ([division_by_literal_zero]), a literal shift amount is
    below 2^32 ([literal_shift_truncated]) and a shifted operand has at most 2^31 bits.
    [seval] is the value of the expression except that it is undefined for an arithmetic
    shift by the width or more, where the term has another value
    ([arithmetic_overshift]).  Also assumed: the update nodes of the expression are alive
    and live nodes have different addresses; entries cached for a freed node whose
    address is used again are excluded by [Inv]. *)
Theorem construct_correct {AP : APIntOps} {SPA : APIntSpec AP} {CFG : Config} {VC : VCOps} {SP : VCSpec VC} {NA : NodeAddress}
    (optimizeDivides hash : bool) live e s :
  addresses_ok live -> Inv live s -> wf e -> constructible e = true -> live_in live e ->
  returns (STPBuilder_construct optimizeDivides hash e s) (fun p =>
    Inv live p.2 /\ sub s p.2 /\ constructed p.2 = [] /\
    exists g, den p.1 (getWidth e) g /\ forall rho I v, agree rho I p.2 -> seval rho e = Some v -> g I = v).
Proof.
  intros Ha Hi We Hc Hl. unfold STPBuilder_construct. eapply returns_bind; [by apply (proj1 (construct_mut live Ha optimizeDivides hash) e)|]. intros [[t z] s1] (Hs & Hi1 & E & M). cbn [fst snd] in *.
  apply returns_ok. cbn [fst snd]. split_and!; [|done|done|exact M]. destruct Hi1 as [Ia In Iu Ic]. by constructor.
Qed.

(** C24. The query STP decides is the query asked: for a condition that the builder handles
    and whose value [seval] is defined under every assignment (no division by zero, no
    arithmetic shift by the width or more), if the arrays got different names
    ([names_collide] has two that do not), the formula built for it has a model exactly if
    some assignment makes the condition true.  The condition is [constructible], the
    caches are correct, and the update nodes of the condition are alive, with different
    addresses, as for the translation of expressions. *)
Theorem query_equisatisfiable {AP : APIntOps} {SPA : APIntSpec AP} {CFG : Config} {VC : VCOps} {SP : VCSpec VC} {NA : NodeAddress}
    (optimizeDivides hash : bool) live e s :
  addresses_ok live -> Inv live s -> wf e -> constructible e = true -> live_in live e -> getWidth e = Bool -> (forall rho, is_Some (seval rho e)) ->
  returns (STPBuilder_construct optimizeDivides hash e s) (fun p =>
    exists f, is_bool p.1 f /\ (NoDup (named p.2).*1 -> (exists I, f I = true) <-> (exists rho, eval rho e = Some 1))).
Proof.
  intros Ha Hi We Hc Hl Ew Hall. unfold STPBuilder_construct. eapply returns_bind; [by apply (proj1 (construct_mut live Ha optimizeDivides hash) e)|]. intros [[t z] s1] (Hs & Hi1 & E & (g & D & V)). cbn [fst snd] in *.
  apply returns_ok. cbn [fst snd]. rewrite Ew in D. unfold Bool in D. apply den_bool in D as [D R]. exists (fun I => g I =? 1). split; [done|].
  intros Hn. split.
  - intros [I HI%Z.eqb_eq]. exists (env_of_interp I s1). destruct (Hall (env_of_interp I s1)) as [v Hv]. rewrite (seval_eval _ _ _ Hv). f_equal. rewrite <- HI. symmetry. apply (V (env_of_interp I s1)); [|done]. apply env_of_interp_agree, Hi1.
  - intros [rho Hrho]. exists (interp_of rho s1). destruct (Hall rho) as [v Hv]. rewrite (V rho (interp_of rho s1) v (interp_of_agree rho s1 Hn) Hv). apply seval_eval in Hv. rewrite Hrho in Hv. by injection Hv as <-.
Qed.

(** C25. The sums of shifts and the reciprocals compute what they replace: a product with a
    64-bit constant at every width up to 64, and 32-bit unsigned and signed quotients by
    every non-zero constant, for all operands. *)
Theorem constant_arithmetic_correct {VC : VCOps} {SP : VCSpec VC} e f :
  (forall w x, is_bv e w f -> w <= 64 -> inw 64 x -> returns (constructMulByConstant e w x) (fun t => is_bv t w (fun I => bv_mul w (f I) x))) /\
  (forall d, is_bv e 32 f -> 0 < d < 2 ^ 32 -> returns (constructUDivByConstant e 32 d) (fun t => is_bv t 32 (fun I => bv_udiv 32 (f I) d))) /\
  (forall d, is_bv e 32 f -> inw 32 d -> d <> 0 -> returns (constructSDivByConstant e 32 d) (fun t => is_bv t 32 (fun I => bv_sdiv 32 (f I) d))).
Proof.
  split_and!; intros.
  - by apply constructMul_is.
  - by apply constructUDiv_is.
  - by apply constructSDiv_is.
Qed.

(** ** Instances *)
Definition sample_query : expr :=
  BinExpr Kind.Eq (cst Int32 3)
    (BinExpr Kind.UDiv (ZExtExpr (ReadExpr buf (Node NullNode (cst Int32 1) (byte 0)) (cst Int32 1)) Int32) (cst Int32 7)).
(** The only update node. *)
Definition sample_node : UpdateNode := Node NullNode (cst Int32 1) (byte 0).
Definition sample_live (root : Array) (un : UpdateNode) : Prop := root = buf /\ un = sample_node.
#[local] Instance sample_address : NodeAddress := fun _ _ => 4096.
Lemma sample_addresses : addresses_ok sample_live.
Proof. by intros root un root' un' [-> ->] [-> ->] _. Qed.
Lemma construct_correct_witness :
  returns (STPBuilder_construct (AP := ZOps) (VC := SemOps) true true sample_query init_builder) (fun p =>
    exists g, den (SP := SemSpec) p.1 1 g /\ forall I, agree (VC := SemOps) ramp I p.2 -> g I = 0).
Proof.
  destruct (construct_correct (AP := ZOps) (CFG := default_config) (SP := SemSpec) true true sample_live sample_query init_builder) as (p & E & _ & _ & _ & g & D & V).
  - exact sample_addresses.
  - apply init_builder_ok.
  - concrete.
  - reflexivity.
  - repeat split.
  - exists p. split; [exact E|]. exists g. split; [exact D|]. intros I Ha. apply (V ramp I 0 Ha). reflexivity.
Defined.
Lemma query_equisatisfiable_witness :
  returns (STPBuilder_construct (AP := ZOps) (VC := SemOps) true true sample_query init_builder) (fun p =>
    exists f, is_bool (VCSpec := SemSpec) p.1 f /\ exists I, f I = true).
Proof.
  destruct (query_equisatisfiable (AP := ZOps) (CFG := default_config) (SP := SemSpec) true true sample_live sample_query init_builder) as (p & E & f & Hf & Hn).
  - exact sample_addresses.
  - apply init_builder_ok.
  - concrete.
  - reflexivity.
  - repeat split.
  - reflexivity.
  - intros rho. eexists. reflexivity.
  - exists p. split; [exact E|]. exists f. split; [exact Hf|]. apply Hn; [|exists (fun _ _ => 21); reflexivity].
    assert (En : match STPBuilder_construct (AP := ZOps) (VC := SemOps) true true sample_query init_builder with Ok p => (named p.2).*1 | _ => [] end = ["buf0"]) by (vm_compute; reflexivity).
    rewrite E in En. rewrite En. apply NoDup_singleton.
Defined.
Lemma constant_arithmetic_correct_witness :
  let x : VCExpr (VCOps := SemOps) := SBV 32 (fun I => wrap 32 (I "x" 0)) in
  returns (constructSDivByConstant x 32 (2 ^ 32 - 7)) (fun t => is_bv (VCSpec := SemSpec) t 32 (fun I => bv_sdiv 32 (wrap 32 (I "x" 0)) (2 ^ 32 - 7))).
Proof.
  intros x. apply (constant_arithmetic_correct (SP := SemSpec) x (fun I => wrap 32 (I "x" 0))); [|split; lia|lia].
  change (32 = 32 /\ 0 < 32 /\ forall I : interp, inw 32 (wrap 32 (I "x" 0)) /\ wrap 32 (I "x" 0) = wrap 32 (I "x" 0)).
  split; [reflexivity|]. split; [lia|]. intros I. split; [apply wrap_inw; lia|reflexivity].
Defined.

(** ** What the translation gets wrong *)

(** The value of the term built for [e] in the model [I]. *)
Definition stp_value (e : expr) (I : interp) : option Z :=
  match STPBuilder_construct (AP := ZOps) (VC := SemOps) true true e init_builder with
  | Ok (SBV _ f, _) => Some (f I)
  | Ok (SBool f, _) => Some (Z.b2z (f I))
  | _ => None
  end.

(** A literal shift amount is cut to 32 bits: shifting left by [2 ^ 32] changes nothing. *)
Example literal_shift_truncated :
  stp_value (BinExpr Kind.Shl (ZExtExpr (byte 0) Int64) (cst Int64 (2 ^ 32))) (fun _ _ => 5) = Some 5 /\
  eval (CFG := default_config) (fun _ _ => 5) (BinExpr Kind.Shl (ZExtExpr (byte 0) Int64) (cst Int64 (2 ^ 32))) = Some 0.
Proof. split; vm_compute; reflexivity. Qed.
(** An arithmetic shift by the width gives zero, constant folding copies the sign. *)
Example arithmetic_overshift :
  stp_value (BinExpr Kind.AShr (byte 0) (cst Int8 8)) (fun _ _ => 128) = Some 0 /\
  eval (CFG := default_config) (fun _ _ => 128) (BinExpr Kind.AShr (byte 0) (cst Int8 8)) = Some 255.
Proof. split; vm_compute; reflexivity. Qed.
(** A one-bit operand of a concatenation is a formula: the term is not well sorted. *)
Example concat_of_formula :
  stp_value (ConcatExpr flag (byte 0)) (fun _ _ => 0) = None /\ wf (ConcatExpr flag (byte 0)).
Proof. split; [vm_compute; reflexivity|concrete]. Qed.
(** A division by the literal zero divides by zero while the query is built. *)
Example division_by_literal_zero :
  STPBuilder_construct (AP := ZOps) (VC := SemOps) true true (BinExpr Kind.UDiv (ZExtExpr (byte 0) Int32) (cst Int32 0)) init_builder = AssertFail.
Proof. vm_compute. reflexivity. Qed.

(** Names are not unique: an array "a1" hashed first and an array "a" hashed eleventh are
    the same variable of STP, although a query is about the contents of both. *)
Definition array_named (addr : Z) (nm : string) : Array := {|
  arr_addr := addr; name := nm; UFE := 0; UFE_Cheat := 0; arr_size := 8; domain := Int32; range := Int8; constantValues := [] |}.
Definition first_byte (a : Array) : expr := ReadExpr a NullNode (cst Int32 0).
Definition eleven_arrays : expr :=
  BinExpr Kind.Ult
    (foldr (fun k e => BinExpr Kind.Xor e (first_byte (array_named (Z.of_nat k) "b"))) (first_byte (array_named 100 "a1")) (seq 0 9))
    (first_byte (array_named 200 "a")).
Definition query_names (e : expr) : list string :=
  match STPBuilder_construct (AP := ZOps) (VC := SemOps) true true e init_builder with Ok p => (named p.2).*1 | _ => [] end.
Example names_collide :
  wf eleven_arrays /\ query_names eleven_arrays = ["a10"; "b1"; "b2"; "b3"; "b4"; "b5"; "b6"; "b7"; "b8"; "b9"; "a10"].
Proof. split; [concrete|vm_compute; reflexivity]. Qed.
