(* ===== verification/Loops.v ===== *)
(** * Loops: counting loops and checked arrays

    Shared by the components whose code is loops over C arrays: [for_loop] is
    [for (i = lo; i < lo + n; ++i)] over a state, with its invariant rule; [get] and
    [put] access an array and fail outside it, where C++ has undefined behaviour. *)

From S2P Require Import Prelude.
Local Open Scope Z_scope.

Fixpoint for_loop {St} (n : nat) (i : Z) (body : Z -> St -> result St) (s : St) : result St :=
  match n with
  | O => Ok s
  | S n' => s ← body i s; for_loop n' (i + 1) body s
  end.

(** [for (i = lo; i < hi; ++i)] *)
Definition for_between {St} (lo hi : Z) (body : Z -> St -> result St) (s : St) : result St :=
  for_loop (Z.to_nat (hi - lo)) lo body s.

Lemma for_loop_inv {St} (I : Z -> St -> Prop) n body : forall i s,
  I i s -> (forall k s, i <= k < i + Z.of_nat n -> I k s -> returns (body k s) (I (k + 1))) ->
  returns (for_loop n i body s) (I (i + Z.of_nat n)).
Proof.
  induction n as [|n IH]; intros i s Hs Hb; cbn [for_loop].
  { apply returns_ok. by rewrite Z.add_0_r. }
  eapply returns_bind; [apply Hb; [lia|done]|]. intros s' Hs'.
  replace (i + Z.of_nat (S n)) with (i + 1 + Z.of_nat n) by lia. apply IH; [done|]. intros k s'' Hk. apply Hb. lia.
Qed.

Lemma for_between_inv {St} (I : Z -> St -> Prop) lo hi body s :
  lo <= hi -> I lo s -> (forall k s, lo <= k < hi -> I k s -> returns (body k s) (I (k + 1))) ->
  returns (for_between lo hi body s) (I hi).
Proof.
  intros Hle Hs Hb. unfold for_between.
  pose proof (for_loop_inv I (Z.to_nat (hi - lo)) body lo s Hs) as H. rewrite Z2Nat.id in H by lia.
  replace (lo + (hi - lo)) with hi in H by lia. apply H. exact Hb.
Qed.

Definition get {A} (v : list A) (i : Z) : result A :=
  if 0 <=? i then match v !! Z.to_nat i with Some x => Ok x | None => AssertFail end else AssertFail.
Definition put {A} (v : list A) (i : Z) (x : A) : result (list A) :=
  if (0 <=? i) && (i <? Z.of_nat (length v)) then Ok (<[Z.to_nat i := x]> v) else AssertFail.

(** [new int\[size\]] with whatever the memory holds; a negative size is refused. *)
Definition new_array (garbage : nat -> Z) (size : Z) : result (list Z) :=
  if size <? 0 then AssertFail else Ok (map garbage (seq 0 (Z.to_nat size))).
Lemma new_array_ok garbage size : 0 <= size -> returns (new_array garbage size) (fun v => Z.of_nat (length v) = size).
Proof.
  intros H. unfold new_array. rewrite (proj2 (Z.ltb_ge _ _)) by lia. apply returns_ok. rewrite length_map, length_seq. lia.
Qed.

Lemma get_put {A} (v v' : list A) i k x : put v i x = Ok v' -> get v' k = if i =? k then Ok x else get v k.
Proof.
  unfold put, get. destruct (Z.leb_spec 0 i); [|done]. destruct (Z.ltb_spec i (Z.of_nat (length v))); [|done].
  intros [= <-]. destruct (Z.eqb_spec i k) as [->|Hne].
  - destruct (Z.leb_spec 0 k); [|lia]. by rewrite list_lookup_insert_eq by lia.
  - destruct (Z.leb_spec 0 k); [|done]. by rewrite list_lookup_insert_ne by lia.
Qed.

Lemma put_ok {A} (v : list A) i x : 0 <= i < Z.of_nat (length v) ->
  returns (put v i x) (fun v' => length v' = length v /\ forall k, get v' k = if i =? k then Ok x else get v k).
Proof.
  intros Hi. assert (Hr : (0 <=? i) && (i <? Z.of_nat (length v)) = true) by lia.
  assert (E : put v i x = Ok (<[Z.to_nat i := x]> v)) by (unfold put; by rewrite Hr).
  eexists. split; [exact E|]. split; [apply length_insert|]. intros k. by eapply get_put.
Qed.

Lemma get_ok {A} (v : list A) i : 0 <= i < Z.of_nat (length v) -> exists x, get v i = Ok x.
Proof.
  intros Hi. destruct (lookup_lt_is_Some_2 v (Z.to_nat i)) as [x Hx]; [lia|]. exists x. unfold get.
  rewrite Hx. by destruct (Z.leb_spec 0 i); [|lia].
Qed.

Lemma get_nat {A} (v : list A) (k : nat) : get v (Z.of_nat k) = match v !! k with Some x => Ok x | None => AssertFail end.
Proof. unfold get. rewrite Nat2Z.id. by destruct (Z.leb_spec 0 (Z.of_nat k)); [|lia]. Qed.
