(* ===== verification/EditDistance.v ===== *)
(** * EditDistance: the tables of [klee/lib/Tase/EditDistance.h]

    The distances between execution fragments that path selection ranks workers by.
    This file holds the score, the reference (edit scripts and their least cost) and
    the three tabulating classes [EditDistanceTable], [EditDistanceRow] and
    [EditDistanceRowIt]; the algorithms after Ukkonen are in [Ukkonen].  [m_], [n_] and
    the costs are [int]s ([i32]) and the places in the arrays are [unsigned] ([u32]), so
    the sizes and the indices of long sequences wrap around, as in the code.  What an
    array holds that the code does not initialise is a parameter of the model. *)

From S2P Require Import Prelude Loops.
Local Open Scope Z_scope.

(** The template parameters of [Score]. *)
Class Costs := { MatchCost : Z; DeleteCost : Z; InsertCost : Z }.
Definition unit_costs : Costs := {| MatchCost := 1; DeleteCost := 1; InsertCost := 1 |}.

Section score.
Context {A : Type} `{EqDecision A} {C : Costs}.

Definition Score_match (e1 e2 : A) : Z := if decide (e1 = e2) then 0 else MatchCost.
Definition Score_insert (e1 e2 : A) : Z := InsertCost.
Definition Score_del (e1 e2 : A) : Z := DeleteCost.

(** ** What is computed: the least cost of an edit script *)
Inductive edits : list A -> list A -> Z -> Prop :=
| edits_nil : edits [] [] 0
| edits_match a b s t c : edits s t c -> edits (a :: s) (b :: t) (Score_match a b + c)
| edits_insert b s t c : edits s t c -> edits s (b :: t) (InsertCost + c)
| edits_delete a s t c : edits s t c -> edits (a :: s) t (DeleteCost + c).

Definition distance (s t : list A) (d : Z) : Prop := edits s t d /\ forall c, edits s t c -> d <= c.

(** ** EditDistanceTable *)

(** One cell; [slot i j] is its place in [costs_]. *)
Definition keep_smaller (p : Z) (opt : Z) (costs : list Z) : result (list Z) :=
  cur ← get costs p; if opt <? cur then put costs p opt else Ok costs.
Definition update_cell (slot : Z -> Z -> Z) (s t : list A) (j i : Z) (costs : list Z) : result (list Z) :=
  let s_pos := i - 1 in let t_pos := j - 1 in
  x ← get s s_pos;
  y ← get t t_pos;
  a ← get costs (slot (i - 1) (j - 1));
  b ← get costs (slot i (j - 1));
  c ← get costs (slot (i - 1) j);
  let opt_match := i32 (a + Score_match x y) in
  let opt_insert := i32 (b + Score_insert x y) in
  let opt_delete := i32 (c + Score_del x y) in
  costs ← put costs (slot i j) opt_match;
  costs ← keep_smaller (slot i j) opt_match costs;
  costs ← keep_smaller (slot i j) opt_insert costs;
  keep_smaller (slot i j) opt_delete costs.

Definition update_cells (m : Z) (slot : Z -> Z -> Z) (s t : list A) (j : Z) (costs : list Z) : result (list Z) :=
  for_between 1 m (update_cell slot s t j) costs.

(** [m_] and [n_]: [int]s, made from a [size_t]. *)
Definition dim (s : list A) : Z := i32 (Z.of_nat (length s) + 1).

Definition Table_slot (m i j : Z) : Z := u32 (i + j * m).
Definition Table_update_row (s t : list A) (j : Z) (costs : list Z) : result (list Z) :=
  update_cells (dim s) (Table_slot (dim s)) s t j costs.
Definition Table_compute_editdistance (s t : list A) : result Z :=
  let m := dim s in let n := dim t in
  let slot := Table_slot m in
  costs ← new_array (fun _ => 0) (i32 (m * n));
  costs ← for_between 0 m (fun i costs => put costs (slot i 0) i) costs;
  costs ← for_between 0 n (fun j costs => put costs (slot 0 j) j) costs;
  costs ← for_between 1 n (Table_update_row s t) costs;
  get costs (slot (m - 1) (n - 1)).

(** ** EditDistanceRow *)

(** The constructor makes [s_] the longer sequence. *)
Definition longer (s t : list A) : list A * list A := if (length t <? length s)%nat then (s, t) else (t, s).

Definition Row_slot (m i j : Z) : Z := u32 (i + (j mod 2) * m).
Definition Row_update_row (s t : list A) (j : Z) (costs : list Z) : result (list Z) :=
  let slot := Row_slot (dim s) in
  costs ← put costs (slot 0 j) j;
  update_cells (dim s) slot s t j costs.

(** [costs_] is [new ValueType[m_*2]]. *)
Definition Row_run (garbage : nat -> Z) (s t : list A) : result Z :=
  let m := dim s in let n := dim t in
  let slot := Row_slot m in
  costs ← new_array garbage (i32 (m * 2));
  costs ← for_between 0 m (fun i costs => put costs (slot i 0) i) costs;
  costs ← for_between 1 n (Row_update_row s t) costs;
  get costs (slot (m - 1) (n - 1)).
Definition Row_compute_editdistance (garbage : nat -> Z) (s t : list A) : result Z :=
  let '(s, t) := longer s t in Row_run garbage s t.
End score.

(** ** EditDistanceRowIt

    Elements are read through iterators into a [uint8_t]; nothing is swapped. *)
Definition RowIt_compute_editdistance {C : Costs} (garbage : nat -> Z) (s t : list Z) : result Z :=
  Row_run garbage (map (wrap 8) s) (map (wrap 8) t).

(** ** Prefix distances *)
Section prefixes.
(** [mis i j]: the cost of aligning the [i]-th and [j]-th elements. *)
Variable mis : nat -> nat -> Z.

Fixpoint D (i : nat) : nat -> Z :=
  match i with
  | O => fun j => Z.of_nat j
  | S i' => fix row (j : nat) : Z :=
      match j with
      | O => Z.of_nat (S i')
      | S j' => Z.min (D i' j' + mis i' j') (Z.min (row j' + 1) (D i' (S j') + 1))
      end
  end.

Lemma D_0 j : D 0 j = Z.of_nat j.
Proof. done. Qed.
Lemma D_i0 i : D i 0 = Z.of_nat i.
Proof. by destruct i. Qed.
Lemma D_SS i j : D (S i) (S j) = Z.min (D i j + mis i j) (Z.min (D (S i) j + 1) (D i (S j) + 1)).
Proof. done. Qed.

Lemma D_insert i j : D i (S j) <= D i j + 1.
Proof. destruct i; [rewrite (D_0 j), (D_0 (S j)); lia|rewrite D_SS; lia]. Qed.
Lemma D_delete i j : D (S i) j <= D i j + 1.
Proof. destruct j; [rewrite (D_i0 i), (D_i0 (S i)); lia|rewrite D_SS; lia]. Qed.
Lemma D_match i j : D (S i) (S j) <= D i j + mis i j.
Proof. rewrite D_SS. lia. Qed.
Lemma D_bound i j : (forall i j, 0 <= mis i j) -> 0 <= D i j <= Z.of_nat i + Z.of_nat j.
Proof.
  intros Hm. revert j. induction i as [|i IHi]; intros j; [rewrite D_0; lia|].
  induction j as [|j IHj]; [rewrite D_i0; lia|]. rewrite D_SS. pose proof (Hm i j). pose proof (IHi j). pose proof (IHi (S j)). lia.
Qed.
End prefixes.

Section reference.
Context {A : Type} `{EqDecision A} {C : Costs}.
(** The tables count the borders with 1. *)
Hypothesis Hunit : InsertCost = 1 /\ DeleteCost = 1.

Definition mis (s t : list A) (i j : nat) : Z :=
  match s !! i, t !! j with Some a, Some b => Score_match a b | _, _ => MatchCost end.

Lemma edits_app (s t : list A) c s' t' c' : edits s t c -> edits s' t' c' -> edits (s ++ s') (t ++ t') (c + c').
Proof.
  intros H H'. induction H; simpl; [done|rewrite <- Z.add_assoc; by constructor..].
Qed.

(** The table cannot beat a script, *)
Lemma D_below (s t : list A) i j l1 l2 c : edits l1 l2 c -> drop i s = l1 -> drop j t = l2 -> (i <= length s)%nat -> (j <= length t)%nat ->
  D (mis s t) (length s) (length t) <= D (mis s t) i j + c.
Proof.
  intros H. revert i j. destruct Hunit as [HI HD].
  assert (Hstep : forall (l : list A) k a r, drop k l = a :: r -> (k < length l)%nat /\ l !! k = Some a /\ drop (S k) l = r).
  { intros l k a r E. assert (Hk : (k < length l)%nat) by (apply (f_equal length) in E; rewrite length_drop in E; simpl in E; lia).
    destruct (lookup_lt_is_Some_2 l k Hk) as [a' Ha]. rewrite (drop_S l a' k Ha) in E. naive_solver. }
  induction H as [|a b l1 l2 c H IH|b l1 l2 c H IH|a l1 l2 c H IH]; intros i j E1 E2 Hi Hj.
  - apply (f_equal length) in E1, E2. rewrite length_drop in E1, E2. simpl in *.
    replace i with (length s) by lia. replace j with (length t) by lia. lia.
  - destruct (Hstep _ _ _ _ E1) as (H1 & La & E1'), (Hstep _ _ _ _ E2) as (H2 & Lb & E2').
    specialize (IH (S i) (S j) E1' E2' ltac:(lia) ltac:(lia)). pose proof (D_match (mis s t) i j) as Hm.
    unfold mis at 3 in Hm. rewrite La, Lb in Hm. lia.
  - destruct (Hstep _ _ _ _ E2) as (H2 & Lb & E2'). specialize (IH i (S j) E1 E2' Hi ltac:(lia)).
    pose proof (D_insert (mis s t) i j). lia.
  - destruct (Hstep _ _ _ _ E1) as (H1 & La & E1'). specialize (IH (S i) j E1' E2 ltac:(lia) Hj).
    pose proof (D_delete (mis s t) i j). lia.
Qed.

(** and there is a script for every entry. *)
Lemma D_script (s t : list A) : forall i j, (i <= length s)%nat -> (j <= length t)%nat -> edits (take i s) (take j t) (D (mis s t) i j).
Proof.
  destruct Hunit as [HI HD].
  assert (Hins : forall i j b c, t !! j = Some b -> edits (take i s) (take j t) c -> edits (take i s) (take (S j) t) (c + 1)).
  { intros i j b c Hb H. rewrite (take_S_r _ _ _ Hb), <- (app_nil_r (take i s)). apply edits_app; [done|].
    replace 1 with (InsertCost + 0) by lia. do 2 constructor. }
  assert (Hdel : forall i j a c, s !! i = Some a -> edits (take i s) (take j t) c -> edits (take (S i) s) (take j t) (c + 1)).
  { intros i j a c Ha H. rewrite (take_S_r _ _ _ Ha), <- (app_nil_r (take j t)). apply edits_app; [done|].
    replace 1 with (DeleteCost + 0) by lia. do 2 constructor. }
  induction i as [|i IHi].
  - induction j as [|j IHj]; intros Hi Hj; [constructor|]. destruct (lookup_lt_is_Some_2 t j ltac:(lia)) as [b Hb].
    replace (D _ 0 (S j)) with (D (mis s t) 0 j + 1) by (cbn [D]; lia). eapply Hins; [exact Hb|]. apply IHj; lia.
  - destruct (decide (i < length s)%nat) as [Hlt|]; [|intros; lia]. destruct (lookup_lt_is_Some_2 s i Hlt) as [a Ha].
    induction j as [|j IHj]; intros Hi Hj.
    + replace (D _ (S i) 0) with (D (mis s t) i 0 + 1) by (rewrite (D_i0 _ i), (D_i0 _ (S i)); lia). eapply Hdel; [exact Ha|]. apply IHi; lia.
    + destruct (lookup_lt_is_Some_2 t j ltac:(lia)) as [b Hb]. rewrite D_SS.
      destruct (Z.min_dec (D (mis s t) i j + mis s t i j) (Z.min (D (mis s t) (S i) j + 1) (D (mis s t) i (S j) + 1))) as [-> | ->].
      * rewrite (take_S_r _ _ _ Ha), (take_S_r _ _ _ Hb). apply edits_app; [apply IHi; lia|]. unfold mis. rewrite Ha, Hb.
        rewrite <- (Z.add_0_r (Score_match a b)). do 2 constructor.
      * destruct (Z.min_dec (D (mis s t) (S i) j + 1) (D (mis s t) i (S j) + 1)) as [-> | ->].
        -- eapply Hins; [exact Hb|]. apply IHj; lia.
        -- eapply Hdel; [exact Ha|]. apply IHi; lia.
Qed.

Lemma D_distance (s t : list A) : distance s t (D (mis s t) (length s) (length t)).
Proof.
  split.
  - pose proof (D_script s t (length s) (length t) ltac:(lia) ltac:(lia)) as H. by rewrite !firstn_all in H.
  - intros c Hc. pose proof (D_below s t 0 0 s t c Hc eq_refl eq_refl ltac:(lia) ltac:(lia)) as H. rewrite D_0 in H. lia.
Qed.

Lemma edits_sym (s t : list A) c : edits s t c -> edits t s c.
Proof.
  destruct Hunit as [HI HD]. induction 1 as [|a b s t c H IH|b s t c H IH|a s t c H IH]; [constructor| | |].
  - replace (Score_match a b) with (Score_match b a); [by constructor|]. unfold Score_match. repeat case_decide; congruence.
  - replace InsertCost with DeleteCost by congruence. by constructor.
  - replace DeleteCost with InsertCost by congruence. by constructor.
Qed.
Lemma distance_sym (s t : list A) d : distance s t d -> distance t s d.
Proof. intros [H1 H2]. split; [by apply edits_sym|]. intros c Hc. by apply H2, edits_sym. Qed.
Lemma distance_unique (s t : list A) d d' : distance s t d -> distance s t d' -> d = d'.
Proof. intros [H1 H2] [H3 H4]. pose proof (H2 _ H3). pose proof (H4 _ H1). lia. Qed.
End reference.

(** ** The tables hold the prefix distances *)
(** No cost of a script and no border of a table leaves the range of an [int]. *)
Definition fits_int {A} {C : Costs} (s t : list A) : Prop :=
  0 <= MatchCost /\ Z.of_nat (length s) + Z.of_nat (length t) + MatchCost + 1 < 2 ^ 31.

Section tables.
Context {A : Type} `{EqDecision A} {C : Costs}.
Hypothesis Hunit : InsertCost = 1 /\ DeleteCost = 1.
Variables s t : list A.
Hypothesis Hfit : fits_int s t.

Abbreviation m := (Z.of_nat (length s) + 1).
Abbreviation n := (Z.of_nat (length t) + 1).
Definition DZ (i j : Z) : Z := D (mis s t) (Z.to_nat i) (Z.to_nat j).

Lemma dim_s : dim s = m.
Proof. destruct Hfit. unfold dim. apply i32_small. lia. Qed.
Lemma dim_t : dim t = n.
Proof. destruct Hfit. unfold dim. apply i32_small. lia. Qed.
Lemma mis_bound i j : 0 <= mis s t i j <= MatchCost.
Proof. destruct Hfit. unfold mis, Score_match. repeat case_match; lia. Qed.
Lemma DZ_bound i j : 0 <= i -> 0 <= j -> 0 <= DZ i j <= i + j.
Proof. intros. unfold DZ. pose proof (D_bound (mis s t) (Z.to_nat i) (Z.to_nat j) (fun i j => proj1 (mis_bound i j))). lia. Qed.

Lemma DZ_0 j : 0 <= j -> DZ 0 j = j.
Proof. intros. unfold DZ. simpl. lia. Qed.
Lemma DZ_i0 i : 0 <= i -> DZ i 0 = i.
Proof. intros. unfold DZ. simpl. rewrite D_i0. lia. Qed.
Lemma DZ_step i j x y : 1 <= i -> 1 <= j -> get s (i - 1) = Ok x -> get t (j - 1) = Ok y ->
  DZ i j = Z.min (DZ (i - 1) (j - 1) + Score_match x y) (Z.min (DZ i (j - 1) + 1) (DZ (i - 1) j + 1)).
Proof.
  intros Hi Hj Hx Hy. unfold DZ. replace (Z.to_nat i) with (S (Z.to_nat (i - 1))) by lia.
  replace (Z.to_nat j) with (S (Z.to_nat (j - 1))) by lia. rewrite D_SS. do 2 f_equal. unfold mis.
  unfold get in Hx, Hy. destruct (Z.leb_spec 0 (i - 1)); [|lia]. destruct (Z.leb_spec 0 (j - 1)); [|lia].
  destruct (s !! _); [|done]. destruct (t !! _); [|done]. congruence.
Qed.

Lemma keep_smaller_ok p o costs v : 0 <= p < Z.of_nat (length costs) -> get costs p = Ok v ->
  returns (keep_smaller p o costs) (fun c' => length c' = length costs /\ get c' p = Ok (Z.min o v) /\
    forall q, q <> p -> get c' q = get costs q).
Proof.
  intros Hp Hv. unfold keep_smaller. rewrite Hv. cbn [mbind result_bind]. destruct (Z.ltb_spec o v).
  - eapply returns_weaken; [by apply put_ok|]. intros c' [Hl Hg]. split; [done|]. split.
    + rewrite Hg, Z.eqb_refl. f_equal. lia.
    + intros q Hq. rewrite Hg. by destruct (Z.eqb_spec p q); [congruence|].
  - apply returns_ok. split; [done|]. split; [rewrite Hv; f_equal; lia|done].
Qed.

Section row.
Variables (slot : Z -> Z -> Z) (L : nat) (j : Z).
Hypothesis Hj : 1 <= j < n.
Hypothesis Hrange : forall i, 0 <= i < m -> 0 <= slot i j < Z.of_nat L.
Hypothesis Hinj : forall i i', 0 <= i < m -> 0 <= i' < m -> slot i j = slot i' j -> i = i'.
Hypothesis Hrows : forall i i', 0 <= i < m -> 0 <= i' < m -> slot i j <> slot i' (j - 1).

Definition filled (costs : list Z) (j hi : Z) : Prop := forall i, 0 <= i < hi -> get costs (slot i j) = Ok (DZ i j).

Lemma update_cell_ok i costs : 1 <= i < m -> length costs = L -> filled costs (j - 1) m -> filled costs j i ->
  returns (update_cell slot s t j i costs) (fun c' => length c' = L /\ filled c' j (i + 1) /\
    forall q, q <> slot i j -> get c' q = get costs q).
Proof.
  intros Hi Hl Hp Hc. destruct Hunit as [HI HD]. unfold update_cell.
  destruct (get_ok s (i - 1) ltac:(lia)) as [x Hx]. destruct (get_ok t (j - 1) ltac:(lia)) as [y Hy].
  rewrite Hx, Hy. cbn [mbind result_bind]. rewrite (Hp (i - 1) ltac:(lia)), (Hp i ltac:(lia)), (Hc (i - 1) ltac:(lia)).
  cbn [mbind result_bind]. unfold Score_insert, Score_del. rewrite HI, HD. pose proof (Hrange i ltac:(lia)) as Hr.
  pose proof (DZ_bound (i - 1) (j - 1) ltac:(lia) ltac:(lia)). pose proof (DZ_bound i (j - 1) ltac:(lia) ltac:(lia)).
  pose proof (DZ_bound (i - 1) j ltac:(lia) ltac:(lia)). destruct Hfit as [Hm0 Hm1].
  assert (Hs : 0 <= Score_match x y <= MatchCost) by (unfold Score_match; case_decide; lia). rewrite !i32_small by lia.
  eapply returns_bind; [apply put_ok; lia|]. intros c1 [L1 G1].
  eapply returns_bind; [apply (keep_smaller_ok _ _ c1 (DZ (i - 1) (j - 1) + Score_match x y)); [lia|by rewrite G1, Z.eqb_refl]|].
  intros c2 (L2 & V2 & G2). eapply returns_bind; [apply keep_smaller_ok; [lia|exact V2]|]. intros c3 (L3 & V3 & G3).
  eapply returns_weaken; [apply keep_smaller_ok; [lia|exact V3]|]. intros c4 (L4 & V4 & G4).
  assert (Hq : forall q, q <> slot i j -> get c4 q = get costs q).
  { intros q Hq. rewrite G4, G3, G2, G1 by done. by destruct (Z.eqb_spec (slot i j) q); [congruence|]. }
  split; [lia|]. split; [|done]. intros k Hk. destruct (decide (k = i)) as [->|].
  - rewrite V4, (DZ_step i j x y) by (done || lia). f_equal. lia.
  - rewrite Hq; [apply Hc; lia|]. intros E. apply Hinj in E; lia.
Qed.

Lemma update_cells_ok costs : length costs = L -> filled costs (j - 1) m -> get costs (slot 0 j) = Ok j ->
  returns (update_cells m slot s t j costs) (fun c' => length c' = L /\ filled c' j m /\
    forall q, (forall i, 1 <= i < m -> q <> slot i j) -> get c' q = get costs q).
Proof.
  intros Hl Hp H0. unfold update_cells.
  eapply returns_weaken; [apply (for_between_inv (fun i c => length c = L /\ filled c j i /\
    forall q, (forall i, 1 <= i < m -> q <> slot i j) -> get c q = get costs q)); [lia| |]|done].
  - split; [done|]. split; [|done]. intros i Hi. replace i with 0 by lia. rewrite H0, DZ_0 by lia. done.
  - intros i c Hi (Hlc & Hc & Hq). eapply returns_weaken; [apply update_cell_ok; try done|].
    + intros k Hk. rewrite Hq; [by apply Hp|]. intros i' Hi' E. symmetry in E. revert E. apply Hrows; lia.
    + intros c' (Hl' & Hc' & Hq'). split; [done|]. split; [done|]. intros q Hne. rewrite Hq' by (apply Hne; lia). by apply Hq.
Qed.
End row.

(** [for (i = 0; i < m; ++i) set_cost(i, 0, 0, i)] *)
Lemma borders_ok (p : Z -> Z) hi costs : 0 <= hi -> (forall i, 0 <= i < hi -> 0 <= p i < Z.of_nat (length costs)) ->
  (forall i i', 0 <= i < hi -> 0 <= i' < hi -> p i = p i' -> i = i') ->
  returns (for_between 0 hi (fun i costs => put costs (p i) i) costs) (fun c' => length c' = length costs /\
    (forall i, 0 <= i < hi -> get c' (p i) = Ok i) /\ forall q, (forall i, 0 <= i < hi -> q <> p i) -> get c' q = get costs q).
Proof.
  intros Hhi Hr Hinj. apply (for_between_inv (fun k c => length c = length costs /\
    (forall i, 0 <= i < k -> get c (p i) = Ok i) /\ forall q, (forall i, 0 <= i < hi -> q <> p i) -> get c q = get costs q)); [done| |].
  - split; [done|]. split; [intros; lia|done].
  - intros k c Hk (Hl & Hc & Hq). eapply returns_weaken; [apply put_ok; rewrite Hl; by apply Hr|]. intros c' [Hl' Hg].
    split; [lia|]. split.
    + intros i Hi. rewrite Hg. destruct (Z.eqb_spec (p k) (p i)) as [E|E]; [apply Hinj in E; [by subst|lia|lia]|].
      apply Hc. destruct (decide (i = k)); [by subst|lia].
    + intros q Hne. rewrite Hg. destruct (Z.eqb_spec (p k) q) as [E|E]; [|by apply Hq]. exfalso. by apply (Hne k).
Qed.

(** The table has less than 2^31 cells. *)
Hypothesis Harea : m * n < 2 ^ 31.
Lemma Table_slot_eq i j : 0 <= i < m -> 0 <= j < n -> Table_slot m i j = i + j * m.
Proof. intros. unfold Table_slot. apply u32_small. nia. Qed.
Lemma Table_slot_inj i i' j j' : 0 <= i < m -> 0 <= i' < m -> 0 <= j < n -> 0 <= j' < n ->
  Table_slot m i j = Table_slot m i' j' -> i = i' /\ j = j'.
Proof. intros Hi Hi' Hj Hj'. rewrite !Table_slot_eq by done. intros E. assert (j = j') by nia. subst. lia. Qed.
Lemma Table_slot_range i j : 0 <= i < m -> 0 <= j < n -> 0 <= Table_slot m i j < m * n.
Proof. intros. rewrite Table_slot_eq by done. nia. Qed.

Lemma Table_ok : returns (Table_compute_editdistance s t) (fun d => d = DZ (m - 1) (n - 1)).
Proof.
  unfold Table_compute_editdistance, Table_update_row. rewrite dim_s, dim_t, i32_small by nia. set (slot := Table_slot m). set (L := Z.to_nat (m * n)).
  assert (HL : Z.of_nat L = m * n) by (unfold L; nia).
  eapply returns_bind; [apply new_array_ok; nia|]. intros c0 L0. cbv beta in L0.
  eapply returns_bind; [apply borders_ok; [lia|intros i Hi; rewrite L0; apply Table_slot_range; lia|]|].
  { intros i i' Hi Hi' E. apply (Table_slot_inj i i' 0 0); [lia..|done]. }
  intros c1 (L1 & B1 & _). assert (length c0 = L) as E0 by lia. rewrite E0 in L1.
  eapply returns_bind; [apply (borders_ok (fun j => slot 0 j)); [lia|intros j Hj; rewrite L1, HL; apply Table_slot_range; lia|]|].
  { intros i i' Hi Hi' E. apply (Table_slot_inj 0 0 i i') in E as [_ ?]; lia. }
  intros c2 (L2 & B2 & G2).
  eapply returns_bind; [apply (for_between_inv (fun j c => length c = L /\ filled slot c (j - 1) m /\
    forall j', j <= j' < n -> get c (slot 0 j') = Ok j')); [lia| |]|].
  - split; [lia|]. split; [|intros j' Hj'; apply B2; lia]. intros i Hi. rewrite DZ_i0 by lia. destruct (decide (i = 0)) as [->|].
    + by apply (B2 0); lia.
    + rewrite G2; [by apply B1|]. intros j Hj E. apply (Table_slot_inj i 0 0 j) in E as [? _]; lia.
  - intros j c Hj (Hl & Hf & Hb).
    eapply returns_weaken; [apply (update_cells_ok slot L j)|]; try done.
    + intros i Hi. rewrite HL. apply Table_slot_range; lia.
    + intros i i' Hi Hi' E. apply (Table_slot_inj i i' j j) in E as [? _]; lia.
    + intros i i' Hi Hi' E. apply (Table_slot_inj i i' j (j - 1)) in E as [_ ?]; lia.
    + apply Hb. lia.
    + intros c' (Hl' & Hf' & Hg). split; [done|]. replace (j + 1 - 1) with j by lia. split; [done|]. intros j' Hj'.
      rewrite Hg; [apply Hb; lia|]. intros i Hi E. apply (Table_slot_inj 0 i j' j) in E; lia.
  - intros c (Hl & Hf & _). exists (DZ (m - 1) (n - 1)). split; [|done]. by apply Hf; lia.
Qed.

Lemma mod2_cases j : 0 <= j -> j mod 2 = 0 \/ j mod 2 = 1.
Proof. intros. pose proof (Z.mod_pos_bound j 2). lia. Qed.
Lemma mod2_prev j : 1 <= j -> (j - 1) mod 2 = 1 - j mod 2.
Proof. intros. rewrite (Z.mod_eq j), (Z.mod_eq (j - 1)) by lia. pose proof (Z.div_mod j 2). pose proof (Z.div_mod (j - 1) 2). pose proof (Z.mod_pos_bound j 2). pose proof (Z.mod_pos_bound (j - 1) 2). lia. Qed.

(** Twice the longer dimension is an [int]. *)
Hypothesis Hwide : m * 2 < 2 ^ 31.
Lemma Row_slot_eq i j : 0 <= i < m -> 0 <= j -> Row_slot m i j = i + (j mod 2) * m.
Proof. intros. unfold Row_slot. apply u32_small. destruct (mod2_cases j) as [-> | ->]; lia. Qed.
Lemma Row_slot_range i j : 0 <= i < m -> 0 <= j -> 0 <= Row_slot m i j < m * 2.
Proof. intros. rewrite Row_slot_eq by done. destruct (mod2_cases j) as [-> | ->]; lia. Qed.

Lemma Row_ok garbage : returns (Row_run garbage s t) (fun d => d = DZ (m - 1) (n - 1)).
Proof.
  unfold Row_run, Row_update_row. rewrite dim_s, dim_t, i32_small by lia. set (slot := Row_slot m).
  eapply returns_bind; [apply new_array_ok; lia|]. intros costs HL. cbv beta in HL.
  assert (Hinj : forall j i i', 0 <= j -> 0 <= i < m -> 0 <= i' < m -> slot i j = slot i' j -> i = i').
  { intros j i i' Hj Hi Hi'. unfold slot. rewrite !Row_slot_eq by done. lia. }
  eapply returns_bind; [apply borders_ok; [lia|intros i Hi; rewrite HL; apply Row_slot_range; lia|]|].
  { intros i i' Hi Hi'. by apply Hinj. }
  intros c1 (L1 & B1 & _).
  eapply returns_bind; [apply (for_between_inv (fun j c => length c = length costs /\ filled slot c (j - 1) m)); [lia| |]|].
  - split; [done|]. intros i Hi. rewrite DZ_i0 by lia. by apply B1.
  - intros j c Hj [Hl Hf].
    eapply returns_bind; [apply put_ok; rewrite Hl, HL; apply Row_slot_range; lia|]. intros c' [Hl' Hg].
    assert (Hrows : forall i i', 0 <= i < m -> 0 <= i' < m -> slot i j <> slot i' (j - 1)).
    { intros i i' Hi Hi'. unfold slot. rewrite !Row_slot_eq, mod2_prev by lia. destruct (mod2_cases j) as [-> | ->]; lia. }
    eapply returns_weaken; [apply (update_cells_ok slot (length costs) j)|]; try done.
    + intros i Hi. rewrite HL. apply Row_slot_range; lia.
    + intros i i' Hi Hi'. apply Hinj; lia.
    + congruence.
    + intros i Hi. rewrite Hg. destruct (Z.eqb_spec (slot 0 j) (slot i (j - 1))) as [E|E]; [|by apply Hf].
      exfalso. revert E. by apply (Hrows 0 i); lia.
    + rewrite Hg. by rewrite Z.eqb_refl.
    + intros c'' (Hl'' & Hf' & _). split; [congruence|]. by replace (j + 1 - 1) with j by lia.
  - intros c [Hl Hf]. exists (DZ (m - 1) (n - 1)). split; [|done]. by apply Hf; lia.
Qed.

Lemma DZ_distance : distance s t (DZ (m - 1) (n - 1)).
Proof. unfold DZ. rewrite !Z.add_simpl_r, !Nat2Z.id. by apply D_distance. Qed.
End tables.

Section rows.
Context {A : Type} `{EqDecision A} {C : Costs}.
Hypothesis Hunit : InsertCost = 1 /\ DeleteCost = 1.

(** Two rows of the longer sequence can be indexed. *)
Definition row_fits (s t : list A) : Prop :=
  fits_int s t /\ (Z.of_nat (length s `max` length t) + 1) * 2 < 2 ^ 31.

Lemma fits_int_sym (s t : list A) : fits_int s t -> fits_int t s.
Proof. unfold fits_int. lia. Qed.

Lemma Row_distance garbage s t : row_fits s t -> returns (Row_compute_editdistance garbage s t) (distance s t).
Proof.
  intros [Hf Hw]. unfold Row_compute_editdistance, longer. destruct (Nat.ltb_spec (length t) (length s)).
  - eapply returns_weaken; [apply (Row_ok Hunit s t Hf); lia|]. intros d ->. by apply DZ_distance.
  - eapply returns_weaken; [apply (Row_ok Hunit t s (fits_int_sym _ _ Hf)); lia|]. intros d ->. by apply distance_sym, DZ_distance.
Qed.
End rows.

(** ** The claims *)

(** C38. [EditDistanceTable], [EditDistanceRow] and [EditDistanceRowIt] with insertions and
    deletions of cost 1 and any cost of a mismatch that is not negative.  For sequences
    so short that the costs are [int]s ([fits_int]), and with a table of less than 2^31
    cells, or rows of together less than 2^31 cells, [compute_editdistance] terminates,
    stays within the array it allocates, whatever that holds, and returns the least cost
    of an edit script; exchanging the sequences, as [EditDistanceRow] does, changes
    nothing, and [EditDistanceRowIt] compares the elements as bytes.  Both conditions are
    needed: [table_too_large] is a table whose allocation wraps around, and with other
    costs of insertions and deletions the borders are wrong ([border_costs_ignored]). *)
Theorem edit_tables_correct {A : Type} `{EqDecision A} {C : Costs} (garbage : nat -> Z) (s t : list A) (u v : list Z) :
  InsertCost = 1 /\ DeleteCost = 1 ->
  (fits_int s t -> (Z.of_nat (length s) + 1) * (Z.of_nat (length t) + 1) < 2 ^ 31 ->
    returns (Table_compute_editdistance s t) (distance s t)) /\
  (row_fits s t -> returns (Row_compute_editdistance garbage s t) (distance s t)) /\
  (row_fits u v -> returns (RowIt_compute_editdistance garbage u v) (distance (map (wrap 8) u) (map (wrap 8) v))).
Proof.
  intros Hunit. split; [|split; [by apply Row_distance|]].
  - intros Hf Ha. eapply returns_weaken; [by apply Table_ok|]. intros d ->. by apply DZ_distance.
  - intros [Hf Hw]. eapply returns_weaken; [apply Row_ok; [done|unfold fits_int in *; by rewrite !length_map|rewrite length_map; lia]|].
    intros d ->. by apply DZ_distance.
Qed.

Lemma edit_tables_correct_witness :
  Table_compute_editdistance (C := unit_costs) [1; 2; 3; 3; 4; 5] [6; 2; 3; 3; 2; 5; 7] = Ok 3 /\
  Row_compute_editdistance (C := unit_costs) (fun k => Z.of_nat k) [1; 2; 3; 3; 4; 5] [6; 2; 3; 3; 2; 5; 7] = Ok 3 /\
  distance (C := unit_costs) [1; 2; 3; 3; 4; 5] [6; 2; 3; 3; 2; 5; 7] 3.
Proof.
  destruct (@edit_tables_correct Z _ unit_costs (fun k => Z.of_nat k) [1; 2; 3; 3; 4; 5] [6; 2; 3; 3; 2; 5; 7] [] [])
    as (_ & Hrow & _); [done|]. destruct Hrow as (d & Hd & H); [split; [split; [done|]|]; reflexivity|].
  split; [vm_compute; reflexivity|]. split; [vm_compute; reflexivity|].
  assert (E : Ok d = Ok 3) by (rewrite <- Hd; vm_compute; reflexivity). injection E as ->. exact H.
Defined.

(** A table for two sequences of 65536 elements: [m_ * n_] wraps around to 131073 cells,
    and the third row is outside. *)
Lemma table_too_large {A} (s t : list A) : length s = Z.to_nat 65536 -> length t = Z.to_nat 65536 ->
  let slot := Table_slot (dim s) in
  new_array (fun _ => 0) (i32 (dim s * dim t)) = Ok (map (fun _ => 0) (seq 0 (Z.to_nat 131073))) /\
  slot 0 2 = 131074 /\ forall (costs : list Z) x, Z.of_nat (length costs) = 131073 -> put costs (slot 0 2) x = AssertFail.
Proof.
  intros Hs Ht slot. assert (Es : dim s = 65537) by (unfold dim; rewrite Hs; reflexivity).
  assert (Et : dim t = 65537) by (unfold dim; rewrite Ht; reflexivity). unfold slot. rewrite Es, Et.
  split; [by change (i32 (65537 * 65537)) with 131073|]. split; [reflexivity|]. intros costs x Hl. unfold put. rewrite Hl. reflexivity.
Qed.

(** The borders of the tables do not use the parameters of the score: with deletions
    of cost 2 the distance to the empty sequence is reported as 1. *)
Example border_costs_ignored :
  let C := {| MatchCost := 1; DeleteCost := 2; InsertCost := 1 |} in
  Table_compute_editdistance (C := C) [7] [] = Ok 1 /\ ~ distance (C := C) [7] [] 1.
Proof.
  simpl. split; [reflexivity|]. intros [H _]. inversion H; subst. simpl in *. match goal with H : edits [] [] _ |- _ => inversion H end.
  lia.
Qed.
