(* ===== verification/Ukkonen.v ===== *)
(** * Ukkonen: edit distances by furthest reaching diagonals

    Models the classes [EditDistanceUkkonen], [EditDistanceUKK],
    [EditDistanceDynamicUKK], [EditDistanceStaticUKK] and [EditDistanceFullUKK] of
    [klee/lib/Tase/EditDistance.h].  Entry [(k, d)] of their table is the furthest
    position in [s_] that [d] edits reach on the diagonal [k].  The classes differ in
    how the table is stored; those that share the function [UKK] are instances of the
    class [UTable], against which it is verified.  Positions, costs, rows and sizes of
    arrays are [int]s, whose arithmetic wraps around ([i32]). *)

From S2P Require Import Prelude Loops EditDistance.
Local Open Scope Z_scope.

Definition INT_MIN : Z := - 2 ^ 31.
Definition UDIM : Z := 100.

(** ** The storage of a table *)
Class UTable (T : Type) := {
  tU : Z -> Z -> T -> result (Z * T);
  tcomputed : Z -> Z -> T -> result bool;
  tset : Z -> Z -> Z -> T -> result T;
}.

(** [ValueType U_v[UDIM][UDIM], U_c[UDIM][UDIM]]: a cell is in the map when its
    [U_c] is true; [fresh] is what [U_v] holds where nothing was stored. *)
Definition fixed : Type := gmap (Z * Z) Z.
Definition fixed_in (i j : Z) : bool :=
  (0 <=? i + UDIM `div` 2) && (i + UDIM `div` 2 <? UDIM) && (0 <=? j) && (j <? UDIM).
Definition fixed_get (fresh : result Z) (i j : Z) (u : fixed) : result Z :=
  _ ← massert (fixed_in i j); match u !! (i, j) with Some v => Ok v | None => fresh end.
Definition fixed_computed (i j : Z) (u : fixed) : result bool :=
  _ ← massert (fixed_in i j); Ok (bool_decide (is_Some (u !! (i, j)))).
Definition fixed_set (i j v : Z) (u : fixed) : result fixed :=
  _ ← massert (fixed_in i j); Ok (<[(i, j) := v]> u).

(** [EditDistanceUKK] *)
#[export] Instance UKK_table : UTable fixed := {|
  tU i j u := if j <? Z.abs i then Ok (INT_MIN, u) else v ← fixed_get (Ok INT_MIN) i j u; Ok (v, u);
  tcomputed i j u := if j <? Z.abs i then Ok true else fixed_computed i j u;
  tset := fixed_set;
|}.

(** [EditDistanceStaticUKK]: [operator\[\]] of the map adds a missing entry. *)
Definition static : Type := gmap (Z * Z) Z.
Definition Static_table : UTable static := {|
  tU i j u :=
    if j <? Z.abs i then Ok (INT_MIN, u)
    else match u !! (i, j) with Some v => Ok (v, u) | None => Ok (0, <[(i, j) := 0]> u) end;
  tcomputed i j u := if j <? Z.abs i then Ok true else Ok (bool_decide (is_Some (u !! (i, j))));
  tset i j v u := Ok (<[(i, j) := v]> u);
|}.

(** [EditDistanceDynamicUKK]: [cols] are the allocated columns, as many as
    [max_edit_distance_], each with its length [U_col_\[j\]]; [U_] has room for
    [capacity] of them. *)
Record dynamic := { capacity : Z; cols : list (list Z) }.
Definition ROW_INDEX (x : Z) : Z := if x <? 0 then i32 (i32 (x * -2) - 1) else i32 (x * 2).
(** The same, returned as an [unsigned]. *)
Definition get_row (i : Z) : Z := u32 (ROW_INDEX i).
Definition max_edit_distance (u : dynamic) : Z := Z.of_nat (length (cols u)).
(** The length of an allocated column. *)
Definition U_col (u : dynamic) (j : Z) : result Z := c ← get (cols u) j; Ok (Z.of_nat (length c)).
Definition alloc_column (i j : Z) (u : dynamic) : result dynamic :=
  col_size ← (if j =? 0 then Ok 1
              else prev ← U_col u (j - 1); _ ← massert (0 <? prev); Ok (i32 (u32 (Z.max prev (get_row i) + 1))));
  if max_edit_distance u <=? j then
    _ ← massert ((j =? max_edit_distance u) && (j <? capacity u));
    Ok {| capacity := capacity u; cols := cols u ++ [replicate (Z.to_nat col_size) (-1)] |}
  else
    old ← get (cols u) j;
    let new := take (Z.to_nat col_size) old ++ replicate (Z.to_nat col_size - length old) (-1) in
    cols' ← put (cols u) j new;
    Ok {| capacity := capacity u; cols := cols' |}.
Definition dynamic_U (i j : Z) (u : dynamic) : result Z :=
  if j <? Z.abs i then Ok INT_MIN
  else
    c ← (_ ← massert (j <? max_edit_distance u); get (cols u) j);
    _ ← massert (get_row i <? Z.of_nat (length c));
    get c (get_row i).
Definition missing (i j : Z) (u : dynamic) : result bool :=
  if max_edit_distance u <=? j then Ok true else n ← U_col u j; Ok (n <=? get_row i).
Definition dynamic_computed (i j : Z) (u : dynamic) : result bool :=
  if j <? Z.abs i then Ok true
  else
    miss ← missing i j u;
    if miss : bool then Ok false else c ← get (cols u) j; v ← get c (get_row i); Ok (negb (v =? -1)).
(** [assert(v = INT_MIN)] assigns, and holds. *)
Definition dynamic_set (i j v : Z) (u : dynamic) : result dynamic :=
  if j <? Z.abs i then Ok u
  else
    miss ← missing i j u;
    u ← (if miss : bool then alloc_column i j u else Ok u);
    c ← get (cols u) j;
    c ← put c (get_row i) v;
    cols' ← put (cols u) j c;
    Ok {| capacity := capacity u; cols := cols' |}.
Definition Dynamic_table : UTable dynamic := {|
  tU i j u := v ← dynamic_U i j u; Ok (v, u);
  tcomputed := dynamic_computed;
  tset := dynamic_set;
|}.

(** ** The algorithms *)
Section algorithms.
Context {A : Type} `{EqDecision A} {C : Costs}.
Variables s t : list A.

Definition matches (x y : Z) : result bool := a ← get s x; b ← get t y; Ok (Score_match a b =? 0).

(** [while (dist < s_.size() && dist-ab < t_.size() && match == 0) dist++]; [below]
    is the comparison with a size. *)
Fixpoint slide (below : Z -> nat -> bool) (fuel : nat) (ab dist : Z) : result Z :=
  match fuel with
  | O => OutOfFuel
  | S fuel' =>
      if below dist (length s) && below (i32 (dist - ab)) (length t) then
        b ← matches dist (i32 (dist - ab));
        if b : bool then slide below fuel' ab (i32 (dist + 1)) else Ok dist
      else Ok dist
  end.
(** [(int)s_.size()], and the comparison that converts the [int] instead. *)
Definition signed_below (x : Z) (n : nat) : bool := x <? i32 (Z.of_nat n).
Definition unsigned_below (x : Z) (n : nat) : bool := u64 x <? Z.of_nat n.
Definition slide_fuel : nat := S (length s).

(** [while (i < t_.size()+1 && match(s_, t_, i-1, i-1) == 0) ++i], from [i]. *)
Fixpoint common_prefix (fuel : nat) (i : Z) : result Z :=
  match fuel with
  | O => OutOfFuel
  | S fuel' =>
      if i <? i32 (i32 (Z.of_nat (length t)) + 1) then
        b ← matches (i - 1) (i - 1);
        if b : bool then common_prefix fuel' (i32 (i + 1)) else Ok i
      else Ok i
  end.

(** [while (reach(edit_cost) < s_size) edit_cost++] *)
Fixpoint search_cost {T} (reach : Z -> T -> result (Z * T)) (fuel : nat) (edit_cost : Z) (u : T) : result Z :=
  match fuel with
  | O => OutOfFuel
  | S fuel' =>
      '(v, u) ← reach edit_cost u;
      if v <? i32 (Z.of_nat (length s)) then search_cost reach fuel' (i32 (edit_cost + 1)) u else Ok edit_cost
  end.
(** The distance is at most the length of the longer sequence. *)
Definition cost_fuel : nat := S (length s).
Definition ab : Z := i32 (Z.of_nat (length s) - Z.of_nat (length t)).

(** [EditDistanceUkkonen::Ukkonen]; the calls are independent of their order. *)
Fixpoint Ukkonen (fuel : nat) (ab d : Z) (u : fixed) : result (Z * fixed) :=
  match fuel with
  | O => OutOfFuel
  | S fuel' =>
      if d <? Z.abs ab then Ok (INT_MIN, u)
      else
        c ← fixed_computed ab d u;
        if c : bool then v ← fixed_get AssertFail ab d u; Ok (v, u)
        else
          '(v1, u) ← Ukkonen fuel' (ab + 1) (d - 1) u;
          '(v2, u) ← Ukkonen fuel' ab (d - 1) u;
          '(v3, u) ← Ukkonen fuel' (ab - 1) (d - 1) u;
          dist ← slide signed_below slide_fuel ab (Z.max (Z.max v1 (i32 (v2 + 1))) (i32 (v3 + 1)));
          u ← fixed_set ab d dist u;
          Ok (dist, u)
  end.
Definition Ukkonen_run : result Z :=
  _ ← massert (Z.of_nat (length s) + 1 <? UDIM);
  i ← common_prefix slide_fuel 1;
  u ← fixed_set 0 0 (i - 1) ∅;
  search_cost (fun d => Ukkonen (S (Z.to_nat d)) ab d) cost_fuel 0 u.

(** [compute_U] of the classes with a table. *)
Definition compute_new {T} {UT : UTable T} (below : Z -> nat -> bool) (ab d : Z) (u : T) : result (Z * T) :=
  c1 ← tcomputed (ab - 1) (d - 1) u; _ ← massert c1;
  c2 ← tcomputed ab (d - 1) u; _ ← massert c2;
  c3 ← tcomputed (ab + 1) (d - 1) u; _ ← massert c3;
  '(d1, u) ← tU (ab + 1) (d - 1) u;
  '(d2, u) ← tU ab (d - 1) u;
  '(d3, u) ← tU (ab - 1) (d - 1) u;
  dist ← slide below slide_fuel ab (Z.max d1 (Z.max (i32 (d2 + 1)) (i32 (d3 + 1))));
  Ok (dist, u).
Definition compute_U {T} {UT : UTable T} (below : Z -> nat -> bool) (ab d : Z) (u : T) : result (Z * T) :=
  c ← tcomputed ab d u;
  if c : bool then tU ab d u else compute_new below ab d u.
(** That of [EditDistanceDynamicUKK] slides at [(0, 0)]. *)
Definition compute_U_dynamic (ab d : Z) (u : dynamic) : result (Z * dynamic) :=
  let UT := Dynamic_table in
  c ← tcomputed ab d u;
  if c : bool then
    '(dist, u) ← tU ab d u;
    dist ← (if (ab =? 0) && (d =? 0) then slide signed_below slide_fuel ab dist else Ok dist);
    Ok (dist, u)
  else compute_new signed_below ab d u.

Section UKK.
Context {T : Type} {UT : UTable T}.
Variable compute : Z -> Z -> T -> result (Z * T).

(** The uncomputed cells of column [d-i], in the order they are pushed. *)
Fixpoint level (n : nat) (j : Z) (ab d i : Z) (u : T) : result (list (Z * Z)) :=
  match n with
  | O => Ok []
  | S n' =>
      c ← tcomputed (ab + j) (d - i) u;
      rest ← level n' (j + 1) ab d i u;
      Ok (if c : bool then rest else (ab + j, d - i) :: rest)
  end.
(** The stack [to_compute], its top first. *)
Fixpoint gather (fuel : nat) (i : Z) (ab d : Z) (u : T) (stack : list (Z * Z)) : result (list (Z * Z)) :=
  match fuel with
  | O => OutOfFuel
  | S fuel' =>
      if i <? d then
        cells ← level (Z.to_nat (2 * i + 1)) (- i) ab d i u;
        match cells with
        | [] => Ok stack
        | _ => gather fuel' (i + 1) ab d u (rev cells ++ stack)
        end
      else Ok stack
  end.
Fixpoint drain (stack : list (Z * Z)) (u : T) : result T :=
  match stack with
  | [] => Ok u
  | (i, j) :: stack' => '(v, u) ← compute i j u; u ← tset i j v u; drain stack' u
  end.
Definition UKK (ab d : Z) (u : T) : result (Z * T) :=
  stack ← gather (S (Z.to_nat d)) 1 ab d u [];
  u ← drain stack u;
  '(dist, u) ← compute ab d u;
  u ← tset ab d dist u;
  Ok (dist, u).
Definition UKK_run (u : T) : result Z :=
  i ← common_prefix slide_fuel 1;
  u ← tset 0 0 (i - 1) u;
  search_cost (fun d => UKK ab d) cost_fuel 0 u.
End UKK.

(** [EditDistanceFullUKK]: two rows in one array. *)
Definition full_slot (i j : Z) : Z := i32 (ROW_INDEX i + i32 ((j mod 2) * i32 (dim s * 2))).
Definition full_U (i j : Z) (u : list Z) : result Z := if j <? Z.abs i then Ok INT_MIN else get u (full_slot i j).
Definition full_compute (k d : Z) (u : list Z) : result Z :=
  if d <? Z.abs k then Ok INT_MIN
  else
    dist ← (if (k =? 0) && (d =? 0) then full_U k d u
            else d1 ← full_U (k + 1) (d - 1) u; d2 ← full_U k (d - 1) u; d3 ← full_U (k - 1) (d - 1) u;
                 Ok (Z.max d1 (Z.max (i32 (d2 + 1)) (i32 (d3 + 1)))));
    slide signed_below slide_fuel k dist.
Definition full_cell (d k : Z) (u : list Z) : result (list Z) := dist ← full_compute k d u; put u (full_slot k d) dist.
Definition full_UKK (k d : Z) (u : list Z) : result (Z * list Z) :=
  u ← for_between 0 (d + 1) (fun i => full_cell d (- i)) u;
  u ← for_between 1 (d + 1) (full_cell d) u;
  v ← (if d <? Z.abs k then Ok INT_MIN else full_U k d u);
  Ok (v, u).
Definition Full_run (garbage : nat -> Z) : result Z :=
  u ← new_array garbage (i32 (dim s * 4));
  i ← common_prefix slide_fuel 1;
  u ← put u (full_slot 0 0) (i - 1);
  search_cost (fun d => full_UKK ab d) cost_fuel 0 u.
End algorithms.

(** ** The constructors and [compute_editdistance] *)
Section classes.
Context {A : Type} `{EqDecision A} {C : Costs}.

Definition Ukkonen_compute (s t : list A) : result Z := let '(s, t) := longer s t in Ukkonen_run s t.
Definition UKK_compute (s t : list A) : result Z :=
  let '(s, t) := longer s t in UKK_run s t (compute_U s t signed_below) (∅ : fixed).
Definition Static_compute (s t : list A) : result Z :=
  let '(s, t) := longer s t in let UT := Static_table in UKK_run s t (compute_U s t unsigned_below) (∅ : static).
Definition Dynamic_compute (s t : list A) : result Z :=
  let '(s, t) := longer s t in let UT := Dynamic_table in
  u ← alloc_column 0 0 {| capacity := Z.of_nat (length s) + 1; cols := [] |};
  UKK_run s t (compute_U_dynamic s t) u.
Definition Full_compute (garbage : nat -> Z) (s t : list A) : result Z := let '(s, t) := longer s t in Full_run s t garbage.
End classes.

(** ** Furthest reaching points *)
Section furthest.
Context {A : Type} `{EqDecision A} {C : Costs}.
Hypothesis Hunit : MatchCost = 1.
Variables s t : list A.
Abbreviation m := (Z.of_nat (length s)).
Abbreviation n := (Z.of_nat (length t)).
Abbreviation dist := (D (mis s t)).

Lemma mis_range i j : 0 <= mis s t i j <= 1.
Proof. unfold mis, Score_match. repeat case_match; lia. Qed.

(** Neighbouring entries differ by at most 1, and diagonals never descend. *)
Lemma dist_up i j : dist i j <= dist (S i) j + 1.
Proof.
  induction j as [|j IH]; [rewrite !D_i0; lia|]. rewrite D_SS. pose proof (mis_range i j). pose proof (D_insert (mis s t) i j). lia.
Qed.
Lemma dist_right i j : dist i j <= dist i (S j) + 1.
Proof.
  induction i as [|i IH]; [cbn [D]; lia|]. rewrite D_SS. pose proof (mis_range i j). pose proof (D_delete (mis s t) i j). lia.
Qed.
Lemma dist_diagonal i j : dist i j <= dist (S i) (S j).
Proof. rewrite D_SS. pose proof (mis_range i j). pose proof (dist_up i j). pose proof (dist_right i j). lia. Qed.
Lemma dist_gap i j : Z.abs (Z.of_nat i - Z.of_nat j) <= dist i j.
Proof.
  revert j. induction i as [|i IHi]; [intros j; cbn [D]; lia|].
  induction j as [|j IHj]; [rewrite D_i0; lia|]. rewrite D_SS. pose proof (mis_range i j).
  pose proof (IHi j). pose proof (IHi (S j)). lia.
Qed.
Lemma dist_max i j : dist i j <= Z.max (Z.of_nat i) (Z.of_nat j).
Proof.
  revert j. induction i as [|i IHi]; [intros j; cbn [D]; lia|]. destruct j as [|j]; [rewrite D_i0; lia|].
  rewrite D_SS. pose proof (mis_range i j). pose proof (IHi j). lia.
Qed.

(** The entry at position [i] of the diagonal [k]. *)
Definition E (k i : Z) : Z := dist (Z.to_nat i) (Z.to_nat (i - k)).
Definition on_grid (k i : Z) : Prop := 0 <= i /\ 0 <= i - k.

(** [v] is the furthest position on diagonal [k] that [d] edits reach. *)
Definition furthest (k d v : Z) : Prop :=
  if Z.abs k <=? d then on_grid k v /\ E k v <= d /\ forall i, on_grid k i -> E k i <= d -> i <= v
  else v = INT_MIN.

Lemma furthest_off k d v : d < Z.abs k -> furthest k d v <-> v = INT_MIN.
Proof. intros H. unfold furthest. by destruct (Z.leb_spec (Z.abs k) d); [lia|]. Qed.
Lemma furthest_on k d v : Z.abs k <= d -> furthest k d v <->
  on_grid k v /\ E k v <= d /\ forall i, on_grid k i -> E k i <= d -> i <= v.
Proof. intros H. unfold furthest. by destruct (Z.leb_spec (Z.abs k) d); [|lia]. Qed.
Lemma furthest_ge k d v : furthest k d v -> INT_MIN <= v.
Proof. unfold furthest, on_grid, INT_MIN. destruct (Z.leb_spec (Z.abs k) d); lia. Qed.

Lemma E_match k i : on_grid k i -> E k (i + 1) <= E k i + mis s t (Z.to_nat i) (Z.to_nat (i - k)).
Proof.
  intros [? ?]. unfold E. replace (Z.to_nat (i + 1)) with (S (Z.to_nat i)) by lia.
  replace (Z.to_nat (i + 1 - k)) with (S (Z.to_nat (i - k))) by lia. apply D_match.
Qed.
Lemma E_insert k i : on_grid (k + 1) i -> E k i <= E (k + 1) i + 1.
Proof.
  intros [? ?]. unfold E. replace (Z.to_nat (i - k)) with (S (Z.to_nat (i - (k + 1)))) by lia. apply D_insert.
Qed.
Lemma E_delete k i : on_grid (k - 1) i -> E k (i + 1) <= E (k - 1) i + 1.
Proof.
  intros [? ?]. unfold E. replace (Z.to_nat (i + 1)) with (S (Z.to_nat i)) by lia.
  replace (Z.to_nat (i + 1 - k)) with (Z.to_nat (i - (k - 1))) by lia. apply D_delete.
Qed.
(** How a point is reached. *)
Lemma E_cases k i d : on_grid k i -> 0 < i -> 0 < i - k -> E k i <= d ->
  (mis s t (Z.to_nat (i - 1)) (Z.to_nat (i - 1 - k)) = 0 /\ E k (i - 1) <= d) \/ E k (i - 1) <= d - 1 \/
  E (k + 1) i <= d - 1 \/ E (k - 1) (i - 1) <= d - 1.
Proof.
  intros Hg H1 H2. unfold E. replace (Z.to_nat i) with (S (Z.to_nat (i - 1))) at 1 by lia.
  replace (Z.to_nat (i - k)) with (S (Z.to_nat (i - 1 - k))) by lia. rewrite D_SS.
  replace (Z.to_nat (i - (k + 1))) with (Z.to_nat (i - 1 - k)) by lia.
  replace (Z.to_nat (i - 1 - (k - 1))) with (S (Z.to_nat (i - 1 - k))) by lia.
  replace (S (Z.to_nat (i - 1))) with (Z.to_nat i) by lia.
  pose proof (mis_range (Z.to_nat (i - 1)) (Z.to_nat (i - 1 - k))). lia.
Qed.
Lemma E_border k i : on_grid k i -> i = 0 \/ i - k = 0 -> E k i = Z.abs k.
Proof.
  intros [? ?] [->|Hk]; unfold E; [change (Z.to_nat 0) with 0%nat; rewrite D_0; lia|]. replace (i - k) with 0 by lia. change (Z.to_nat 0) with 0%nat.
  rewrite D_i0. lia.
Qed.

(** Where the diagonal matches, and where sliding stops. *)
Definition matching (k x : Z) : Prop := mis s t (Z.to_nat x) (Z.to_nat (x - k)) = 0.
Record slid (k b v : Z) : Prop := {
  slid_from : b <= v;
  slid_over x : b <= x < v -> matching k x;
  slid_stop : ~ matching k v;
}.

Lemma slid_E k b v d : on_grid k b -> slid k b v -> E k b <= d -> E k v <= d.
Proof.
  intros Hg [Hle Ho _] Hd. assert (H : forall j : nat, Z.of_nat j <= v - b -> E k (b + Z.of_nat j) <= d).
  { induction j as [|j IH]; intros Hj; [by rewrite Z.add_0_r|].
    replace (b + Z.of_nat (S j)) with (b + Z.of_nat j + 1) by lia. specialize (IH ltac:(lia)).
    pose proof (E_match k (b + Z.of_nat j) ltac:(destruct Hg; split; lia)) as H.
    pose proof (Ho (b + Z.of_nat j) ltac:(lia)) as Hm. unfold matching in Hm. lia. }
  specialize (H (Z.to_nat (v - b)) ltac:(lia)). by replace (b + Z.of_nat (Z.to_nat (v - b))) with v in H by lia.
Qed.

Lemma furthest_base v : slid 0 0 v -> furthest 0 0 v.
Proof.
  intros Hs. apply furthest_on; [done|]. pose proof (slid_from _ _ _ Hs) as Hv. split; [split; lia|]. split.
  - apply (slid_E 0 0 v 0); [split; lia|done|]. unfold E. simpl. lia.
  - intros i [Hi _]. replace i with (Z.of_nat (Z.to_nat i)) by lia. generalize (Z.to_nat i) as j. clear i Hi.
    induction j as [|j IH]; intros Hd; [lia|].
    destruct (E_cases 0 (Z.of_nat (S j)) 0) as [[Hm He]|[He|[He|He]]]; try (split; lia); try lia; try done.
    + replace (Z.of_nat (S j) - 1) with (Z.of_nat j) in * by lia. specialize (IH He).
      destruct (decide (Z.of_nat j = v)) as [<-|]; [|lia]. exfalso. apply (slid_stop _ _ _ Hs). exact Hm.
    + unfold E in He. pose proof (dist_gap (Z.to_nat (Z.of_nat (S j) - 1)) (Z.to_nat (Z.of_nat (S j) - 1 - 0))). lia.
    + unfold E in He. pose proof (dist_gap (Z.to_nat (Z.of_nat (S j))) (Z.to_nat (Z.of_nat (S j) - (0 + 1)))). lia.
    + unfold E in He. pose proof (dist_gap (Z.to_nat (Z.of_nat (S j) - 1)) (Z.to_nat (Z.of_nat (S j) - 1 - (0 - 1)))). lia.
Qed.

(** The three ways to the next column, and the slide. *)
Definition best (d1 d2 d3 : Z) : Z := Z.max d1 (Z.max (d2 + 1) (d3 + 1)).

Lemma best_on_grid k d d1 d2 d3 : 1 <= d -> Z.abs k <= d ->
  furthest (k + 1) (d - 1) d1 -> furthest k (d - 1) d2 -> furthest (k - 1) (d - 1) d3 ->
  on_grid k (best d1 d2 d3) /\ E k (best d1 d2 d3) <= d.
Proof.
  intros Hd Hk H1 H2 H3.
  assert (G1 : d1 = INT_MIN \/ on_grid k d1 /\ E k d1 <= d).
  { unfold furthest in H1. destruct (Z.leb_spec (Z.abs (k + 1)) (d - 1)); [right|by left]. destruct H1 as (Hg & He & _).
    pose proof (E_insert k d1 Hg). destruct Hg. unfold on_grid. lia. }
  assert (G2 : d2 = INT_MIN \/ on_grid k (d2 + 1) /\ E k (d2 + 1) <= d).
  { unfold furthest in H2. destruct (Z.leb_spec (Z.abs k) (d - 1)); [right|by left]. destruct H2 as (Hg & He & _).
    pose proof (E_match k d2 Hg). pose proof (mis_range (Z.to_nat d2) (Z.to_nat (d2 - k))). destruct Hg. unfold on_grid. lia. }
  assert (G3 : d3 = INT_MIN \/ on_grid k (d3 + 1) /\ E k (d3 + 1) <= d).
  { unfold furthest in H3. destruct (Z.leb_spec (Z.abs (k - 1)) (d - 1)); [right|by left]. destruct H3 as (Hg & He & _).
    pose proof (E_delete k d3 Hg). destruct Hg. unfold on_grid. lia. }
  assert (Hone : ~ (d1 = INT_MIN /\ d2 = INT_MIN /\ d3 = INT_MIN)).
  { intros (-> & -> & ->). unfold furthest, on_grid, INT_MIN in H1, H2, H3. simpl in H1, H2, H3.
    destruct (Z.leb_spec (Z.abs (k + 1)) (d - 1)); [lia|]. destruct (Z.leb_spec (Z.abs k) (d - 1)); [lia|].
    destruct (Z.leb_spec (Z.abs (k - 1)) (d - 1)); lia. }
  assert (Hpick : forall x, x = best d1 d2 d3 -> on_grid k x /\ E k x <= d).
  { intros x Hx. unfold best, INT_MIN in *. unfold on_grid in *.
    assert (x = d1 /\ 0 <= d1 \/ x = d2 + 1 /\ 0 <= d2 + 1 \/ x = d3 + 1 /\ 0 <= d3 + 1) as [[-> ?]|[[-> ?]|[-> ?]]] by lia;
      [destruct G1|destruct G2|destruct G3]; lia || tauto. }
  by apply Hpick.
Qed.

Lemma furthest_step k d d1 d2 d3 v : 1 <= d -> Z.abs k <= d ->
  furthest (k + 1) (d - 1) d1 -> furthest k (d - 1) d2 -> furthest (k - 1) (d - 1) d3 ->
  slid k (best d1 d2 d3) v -> furthest k d v.
Proof.
  intros Hd Hk H1 H2 H3 Hs. destruct (best_on_grid k d d1 d2 d3 Hd Hk H1 H2 H3) as [Hb Eb].
  pose proof (slid_from _ _ _ Hs) as Hv. apply furthest_on; [done|].
  split; [destruct Hb; split; lia|]. split; [by apply (slid_E k (best d1 d2 d3))|].
  intros i Hi. pose proof Hi as [Hi0 _]. replace i with (Z.of_nat (Z.to_nat i)) in * by lia. revert Hi. generalize (Z.to_nat i) as j.
  clear i Hi0. induction j as [|j IH]; intros Hi HE; [destruct Hb; lia|]. set (i := Z.of_nat (S j)) in *.
  destruct (decide (i - k = 0)) as [E0|]; [destruct Hb; lia|].
  destruct (E_cases k i d) as [[Hm He]|[He|[He|He]]]; try done; try (unfold on_grid in Hi; lia).
  - replace (i - 1) with (Z.of_nat j) in * by lia. specialize (IH ltac:(unfold on_grid in *; lia) He).
    destruct (decide (Z.of_nat j = v)) as [Ej|]; [|lia]. exfalso. apply (slid_stop _ _ _ Hs). rewrite <- Ej. exact Hm.
  - assert (Hr : i - 1 <= d2); [|unfold best in *; lia]. assert (Hk' : Z.abs k <= d - 1).
    { unfold E in He. pose proof (dist_gap (Z.to_nat (i - 1)) (Z.to_nat (i - 1 - k))). unfold on_grid in Hi. lia. }
    apply furthest_on in H2 as (_ & _ & Hmax); [|done]. apply Hmax; [unfold on_grid in *; lia|done].
  - assert (Hr : i <= d1); [|unfold best in *; lia]. assert (Hk' : Z.abs (k + 1) <= d - 1).
    { unfold E in He. pose proof (dist_gap (Z.to_nat i) (Z.to_nat (i - (k + 1)))). unfold on_grid in Hi. lia. }
    apply furthest_on in H1 as (_ & _ & Hmax); [|done]. apply Hmax; [unfold on_grid in *; lia|done].
  - assert (Hr : i - 1 <= d3); [|unfold best in *; lia]. assert (Hk' : Z.abs (k - 1) <= d - 1).
    { unfold E in He. pose proof (dist_gap (Z.to_nat (i - 1)) (Z.to_nat (i - 1 - (k - 1)))). unfold on_grid in Hi. lia. }
    apply furthest_on in H3 as (_ & _ & Hmax); [|done]. apply Hmax; [unfold on_grid in *; lia|done].
Qed.

(** *** The loops *)
Lemma matches_ok x y : 0 <= x < m -> 0 <= y < n ->
  matches s t x y = Ok (mis s t (Z.to_nat x) (Z.to_nat y) =? 0).
Proof.
  intros Hx Hy. unfold matches. destruct (get_ok s x Hx) as [a Ha], (get_ok t y Hy) as [b Hb]. rewrite Ha, Hb.
  cbn [mbind result_bind]. do 2 f_equal. unfold get in *. destruct (Z.leb_spec 0 x); [|lia]. destruct (Z.leb_spec 0 y); [|lia].
  unfold mis. destruct (s !! _); [|done]. destruct (t !! _); [|done]. congruence.
Qed.

Lemma mis_out x y : m <= Z.of_nat x \/ n <= Z.of_nat y -> mis s t x y = 1.
Proof.
  intros H. unfold mis. destruct (s !! x) eqn:E1; [|done]. destruct (t !! y) eqn:E2; [|done].
  apply lookup_lt_Some in E1, E2. lia.
Qed.

Definition agrees (below : Z -> nat -> bool) : Prop :=
  forall x k, 0 <= x < 2 ^ 31 -> Z.of_nat k < 2 ^ 31 -> below x k = (x <? Z.of_nat k).
Lemma signed_agrees : agrees signed_below.
Proof. intros x k Hx Hk. unfold signed_below. by rewrite i32_small by lia. Qed.
Lemma unsigned_agrees : agrees unsigned_below.
Proof. intros x k Hx Hk. unfold unsigned_below, u64, wrap. by rewrite Z.mod_small by lia. Qed.

Lemma slide_ok below fuel : forall k b, agrees below -> on_grid k b -> b < 2 ^ 31 -> b - k < 2 ^ 31 ->
  m < 2 ^ 31 -> n < 2 ^ 31 -> (Z.to_nat (m - b) < fuel)%nat -> returns (slide s t below fuel k b) (slid k b).
Proof.
  induction fuel as [|fuel IH]; intros k b Hb Hg H1 H2 Hm Hn Hf; [lia|]. cbn [slide]. destruct Hg as [Hg1 Hg2].
  rewrite (i32_small (b - k)) by lia. rewrite !Hb by lia.
  destruct (Z.ltb_spec b m), (Z.ltb_spec (b - k) n); simpl;
    try (apply returns_ok; split; [lia|intros; lia|]; unfold matching; rewrite mis_out by lia; lia).
  rewrite matches_ok by lia. cbn [mbind result_bind]. destruct (Z.eqb_spec (mis s t (Z.to_nat b) (Z.to_nat (b - k))) 0) as [E0|E0].
  - rewrite i32_small by lia. eapply returns_weaken; [apply IH; try done; try lia; split; lia|]. intros v [Hf1 Ho Hst]. split; [lia| |done].
    intros x Hx. destruct (decide (x = b)) as [->|]; [exact E0|apply Ho; lia].
  - apply returns_ok. split; [lia|intros; lia|done].
Qed.

Lemma common_prefix_ok fuel : forall i, n <= m -> n + 1 < 2 ^ 31 -> 1 <= i <= n + 1 -> (Z.to_nat (n + 1 - i) < fuel)%nat ->
  returns (common_prefix s t fuel i) (fun r => slid 0 (i - 1) (r - 1)).
Proof.
  induction fuel as [|fuel IH]; intros i Hnm Hn Hi Hf; [lia|]. cbn [common_prefix].
  rewrite (i32_small n), (i32_small (n + 1)) by lia.
  destruct (Z.ltb_spec i (n + 1)).
  - rewrite matches_ok by lia. cbn [mbind result_bind].
    destruct (Z.eqb_spec (mis s t (Z.to_nat (i - 1)) (Z.to_nat (i - 1))) 0) as [E0|E0].
    + rewrite i32_small by lia. eapply returns_weaken; [apply IH; lia|]. intros r [H1 Ho Hst]. split; [lia| |done]. intros x Hx.
      destruct (decide (x = i - 1)) as [->|]; [|apply Ho; lia]. unfold matching. by rewrite Z.sub_0_r.
    + apply returns_ok. split; [lia|intros; lia|]. unfold matching. by rewrite Z.sub_0_r.
  - apply returns_ok. split; [lia|intros; lia|]. unfold matching. rewrite mis_out by lia. lia.
Qed.

(** The distance is the first cost that reaches the end on the last diagonal. *)
Lemma ab_eq : n <= m < 2 ^ 31 -> ab s t = m - n.
Proof. intros. unfold ab. apply i32_small. lia. Qed.
Lemma reaches_end d v : furthest (ab s t) d v -> n <= m < 2 ^ 31 -> 0 <= d -> v < m <-> d < dist (length s) (length t).
Proof.
  intros Hf Hnm Hd. rewrite ab_eq in Hf by lia. destruct (decide (Z.abs (m - n) <= d)) as [Hk|Hk].
  - apply furthest_on in Hf as (Hg & He & Hmax); [|done].
    assert (HE : E (m - n) m = dist (length s) (length t)).
    { unfold E. replace (m - (m - n)) with n by lia. by rewrite !Nat2Z.id. }
    split; intros H.
    + destruct (Z.le_gt_cases (dist (length s) (length t)) d); [|done]. rewrite <- HE in *.
      specialize (Hmax m ltac:(split; lia) ltac:(lia)). lia.
    + destruct (Z.lt_ge_cases v m); [done|]. exfalso.
      assert (Hmono : forall j : nat, E (m - n) m <= E (m - n) (m + Z.of_nat j)).
      { induction j as [|j IHj]; [by rewrite Z.add_0_r|]. etransitivity; [exact IHj|]. unfold E.
        replace (Z.to_nat (m + Z.of_nat (S j))) with (S (Z.to_nat (m + Z.of_nat j))) by lia.
        replace (Z.to_nat (m + Z.of_nat (S j) - (m - n))) with (S (Z.to_nat (m + Z.of_nat j - (m - n)))) by lia. apply dist_diagonal. }
      specialize (Hmono (Z.to_nat (v - m))). replace (m + Z.of_nat (Z.to_nat (v - m))) with v in Hmono by lia. lia.
  - apply furthest_off in Hf; [|lia]. pose proof (dist_gap (length s) (length t)). unfold INT_MIN in Hf. lia.
Qed.

Section search.
Context {T : Type} (I : Z -> T -> Prop) (reach : Z -> T -> result (Z * T)).
Hypothesis Hnm : n <= m < 2 ^ 31 - 1.
Hypothesis Hreach : forall d u, 0 <= d <= dist (length s) (length t) -> I d u ->
  returns (reach d u) (fun p => furthest (ab s t) d (fst p) /\ I (d + 1) (snd p)).

Lemma search_cost_ok fuel : forall d u, 0 <= d <= dist (length s) (length t) -> I d u ->
  (Z.to_nat (dist (length s) (length t) - d) < fuel)%nat ->
  returns (search_cost s reach fuel d u) (fun r => r = dist (length s) (length t)).
Proof.
  induction fuel as [|fuel IH]; intros d u Hd Hu Hf; [lia|]. cbn [search_cost].
  pose proof (dist_max (length s) (length t)). rewrite (i32_small m), (i32_small (d + 1)) by lia.
  eapply returns_bind; [by apply Hreach|]. intros [v u'] [Hv Hu']. simpl in Hv, Hu'.
  pose proof (reaches_end d v Hv ltac:(lia) ltac:(lia)) as He. destruct (Z.ltb_spec v m) as [Hlt|Hge].
  - apply He in Hlt. apply IH; [lia|done|lia].
  - apply returns_ok. destruct (Z.lt_ge_cases d (dist (length s) (length t))) as [Hd'|]; [apply He in Hd'|]; lia.
Qed.
End search.
End furthest.

#[export] Hint Resolve signed_agrees unsigned_agrees : core.

(** ** The interface of a table, and [UKK] against it *)

(** [look] is the contents; accesses stay in the storage at the cells that [fits]; a
    cell can be written to once it or the column before it has an entry. *)
Class UTableSpec {T : Type} (UT : UTable T) (inv : T -> Prop) (look : T -> Z -> Z -> option Z) (fits : Z -> Z -> Prop) : Prop := {
  tcomputed_spec i j u : inv u -> Z.abs i <= j -> fits i j -> tcomputed i j u = Ok (bool_decide (is_Some (look u i j)));
  tcomputed_off i j u : inv u -> j < Z.abs i -> tcomputed i j u = Ok true;
  tU_spec i j u v : inv u -> Z.abs i <= j -> fits i j -> look u i j = Some v -> tU i j u = Ok (v, u);
  tU_off i j u : inv u -> j < Z.abs i -> tU i j u = Ok (INT_MIN, u);
  tset_spec i j u v : inv u -> Z.abs i <= j -> fits i j -> 0 <= v ->
    (is_Some (look u i j) \/ j = 0 \/ exists i', Z.abs i' <= j - 1 /\ is_Some (look u i' (j - 1))) ->
    returns (tset i j v u) (fun u' => inv u' /\ forall i' j', Z.abs i' <= j' ->
      look u' i' j' = if decide (i' = i /\ j' = j) then Some v else look u i' j');
  tset_off i j u v : inv u -> j < Z.abs i -> fits i j ->
    returns (tset i j v u) (fun u' => inv u' /\ forall i' j', Z.abs i' <= j' -> look u' i' j' = look u i' j');
}.

Section UKK_correct.
Context {A : Type} `{EqDecision A} {C : Costs}.
Hypothesis Hunit : MatchCost = 1.
Variables s t : list A.
Hypothesis Hnm : Z.of_nat (length t) <= Z.of_nat (length s) < 2 ^ 29 - 1.
Abbreviation X := (D (mis s t) (length s) (length t)).
Abbreviation fur := (furthest s t).

Lemma X_le : 0 <= X <= Z.of_nat (length s).
Proof. pose proof (dist_gap Hunit s t (length s) (length t)). pose proof (dist_max Hunit s t (length s) (length t)). lia. Qed.

(** A row past the end of [s_] costs an edit. *)
Lemma dist_rows i j : Z.of_nat i - Z.of_nat (length s) <= D (mis s t) i j.
Proof.
  revert j. induction i as [|i IHi]; [intros j; cbn [D]; lia|]. induction j as [|j IHj]; [rewrite D_i0; lia|].
  rewrite D_SS. pose proof (IHi j). pose proof (IHi (S j)). pose proof (mis_range Hunit s t i j).
  pose proof (dist_gap Hunit s t i j).
  destruct (decide (length s <= i)%nat); [rewrite (mis_out Hunit s t) by lia|]; lia.
Qed.
Lemma furthest_bound k d v : fur k d v -> Z.abs k <= d -> 0 <= v <= Z.of_nat (length s) + d.
Proof.
  intros Hf Hk. apply furthest_on in Hf as ((? & ?) & He & _); [|done]. unfold E in He.
  pose proof (dist_rows (Z.to_nat v) (Z.to_nat (v - k))). lia.
Qed.

(** The step to the next column stays within an [int]. *)
Lemma step_fits k d v : fur k d v -> d < X -> i32 (v + 1) = v + 1.
Proof.
  intros Hf Hd. pose proof X_le. apply i32_small. destruct (decide (Z.abs k <= d)).
  - pose proof (furthest_bound k d v Hf ltac:(lia)). lia.
  - apply furthest_off in Hf as ->; [|lia]. unfold INT_MIN. lia.
Qed.

Lemma slide_best below k d d1 d2 d3 : agrees below -> 1 <= d <= X -> Z.abs k <= d ->
  fur (k + 1) (d - 1) d1 -> fur k (d - 1) d2 -> fur (k - 1) (d - 1) d3 ->
  returns (slide s t below (slide_fuel s) k (best d1 d2 d3)) (fur k d).
Proof.
  intros Hb Hd Hk H1 H2 H3. destruct (best_on_grid Hunit s t k d d1 d2 d3 ltac:(lia) Hk H1 H2 H3) as [Hg He].
  assert (Hle : best d1 d2 d3 <= Z.of_nat (length s) + d).
  { unfold E in He. pose proof (dist_rows (Z.to_nat (best d1 d2 d3)) (Z.to_nat (best d1 d2 d3 - k))). destruct Hg. lia. }
  pose proof X_le. eapply returns_weaken; [apply slide_ok; try done; try lia|].
  - unfold slide_fuel. destruct Hg. lia.
  - intros v Hv. apply (furthest_step Hunit s t k d d1 d2 d3); try done. lia.
Qed.

Context {T : Type} {UT : UTable T} {inv : T -> Prop} {look : T -> Z -> Z -> option Z} {fits : Z -> Z -> Prop}.
Context {TS : UTableSpec UT inv look fits}.
Hypothesis Hfits : forall i j, Z.abs i <= j <= X -> fits i j.
Hypothesis Hfits_ab : forall j, 0 <= j <= X -> fits (ab s t) j.

Record sound (u : T) : Prop := {
  sound_inv : inv u;
  sound_cells i j v : Z.abs i <= j -> look u i j = Some v -> fur i j v;
  sound_start : is_Some (look u 0 0);
}.
Definition known (u : T) (i j : Z) : Prop := j < Z.abs i \/ is_Some (look u i j).
Definition extends (u u' : T) : Prop := forall i j, known u i j -> known u' i j.

Lemma known_column_0 u i j : sound u -> j <= 0 -> known u i j.
Proof.
  intros Hu Hj. destruct (decide (j < Z.abs i)); [by left|]. right. replace i with 0 by lia. replace j with 0 by lia. apply Hu.
Qed.

Lemma tcomputed_known u i j : sound u -> j <= X -> returns (tcomputed i j u) (fun b => b = true <-> known u i j).
Proof.
  intros Hu Hj. destruct (decide (j < Z.abs i)).
  - rewrite tcomputed_off by (apply Hu || done). apply returns_ok. split; [by left|done].
  - rewrite tcomputed_spec by (apply Hu || apply Hfits || lia; lia). apply returns_ok. rewrite bool_decide_eq_true.
    split; [by right|]. intros [?|?]; [lia|done].
Qed.

Lemma tU_known u i j : sound u -> j <= X -> known u i j -> returns (tU i j u) (fun p => snd p = u /\ fur i j (fst p)).
Proof.
  intros Hu Hj Hk. destruct (decide (j < Z.abs i)) as [Ho|Ho].
  - rewrite tU_off by (apply Hu || done). apply returns_ok. split; [done|]. by apply furthest_off.
  - destruct Hk as [?|[v Hv]]; [lia|]. erewrite tU_spec; [|apply Hu|lia|apply Hfits; lia|exact Hv].
    apply returns_ok. split; [done|]. apply (sound_cells _ Hu); [lia|done].
Qed.

Definition ready (u : T) (i j : Z) : Prop :=
  known u (i - 1) (j - 1) /\ known u i (j - 1) /\ known u (i + 1) (j - 1).

Lemma compute_new_ok below u i j : agrees below -> sound u -> Z.abs i <= j -> 1 <= j <= X -> ready u i j ->
  returns (compute_new s t below i j u) (fun p => snd p = u /\ fur i j (fst p)).
Proof.
  intros Hb Hu Hi Hj (K1 & K2 & K3). unfold compute_new.
  eapply returns_bind; [by apply tcomputed_known; [|lia]|]. intros c1 H1. rewrite (proj2 H1 K1). cbn [massert mbind result_bind].
  eapply returns_bind; [by apply tcomputed_known; [|lia]|]. intros c2 H2. rewrite (proj2 H2 K2). cbn [massert mbind result_bind].
  eapply returns_bind; [by apply tcomputed_known; [|lia]|]. intros c3 H3. rewrite (proj2 H3 K3). cbn [massert mbind result_bind].
  eapply returns_bind; [by apply tU_known; [|lia|]|]. intros [d1 u1] [E1 F1]. simpl in E1, F1. subst u1.
  eapply returns_bind; [by apply tU_known; [|lia|]|]. intros [d2 u2] [E2 F2]. simpl in E2, F2. subst u2.
  eapply returns_bind; [by apply tU_known; [|lia|]|]. intros [d3 u3] [E3 F3]. simpl in E3, F3. subst u3.
  rewrite (step_fits i (j - 1) d2), (step_fits (i - 1) (j - 1) d3) by (done || lia).
  eapply returns_bind; [by apply (slide_best below i j)|]. intros v Hv. by apply returns_ok.
Qed.

(** What [UKK] needs of [compute_U]. *)
Definition computes (compute : Z -> Z -> T -> result (Z * T)) : Prop := forall u i j, sound u -> j <= X ->
  known u i j \/ (Z.abs i <= j /\ 1 <= j /\ ready u i j) ->
  returns (compute i j u) (fun p => snd p = u /\ fur i j (fst p)).

Lemma compute_U_ok below : agrees below -> computes (compute_U s t below).
Proof.
  intros Hb u i j Hu Hj Hk. unfold compute_U. eapply returns_bind; [by apply tcomputed_known|].
  intros [] Hc; [by apply tU_known; [| |apply Hc]|]. destruct Hk as [Hk|(? & ? & ?)]; [apply Hc in Hk; done|].
  by apply compute_new_ok.
Qed.

Section with_compute.
Context (compute : Z -> Z -> T -> result (Z * T)) (Hcompute : computes compute).

(** Computing a cell and storing it. *)
Lemma store_ok u i j : sound u -> j <= X -> Z.abs i <= j -> known u i j \/ (1 <= j /\ ready u i j) ->
  returns ('(v, u) ← compute i j u; u ← tset i j v u; Ok (v, u))
    (fun p => fur i j (fst p) /\ sound (snd p) /\ extends u (snd p) /\ known (snd p) i j).
Proof.
  intros Hu Hj Hi Hk. eapply returns_bind; [apply Hcompute; [done|done|tauto]|]. intros [v u'] [Eu Hv]. simpl in Eu, Hv. subst u'.
  pose proof (furthest_bound i j v Hv Hi) as Hpos.
  assert (Hset : is_Some (look u i j) \/ j = 0 \/ exists i', Z.abs i' <= j - 1 /\ is_Some (look u i' (j - 1))).
  { destruct Hk as [[?|?]|(Hj1 & K1 & K2 & K3)]; [lia|by left|]. do 2 right. unfold known in *.
    destruct (decide (Z.abs i <= j - 1)) as [Ha|]; [exists i; split; [done|]; destruct K2; [lia|done]|].
    destruct (decide (Z.abs (i - 1) <= j - 1)) as [Ha|]; [exists (i - 1); split; [done|]; destruct K1; [lia|done]|].
    destruct (decide (Z.abs (i + 1) <= j - 1)) as [Ha|]; [exists (i + 1); split; [done|]; destruct K3; [lia|done]|]. lia. }
  eapply returns_bind; [apply (tset_spec i j u v); [apply Hu|done|apply Hfits; lia|lia|done]|]. intros u' [Hi' Hl]. apply returns_ok.
  assert (Hext : extends u u').
  { intros i' j' [?|Hs]; [by left|]. destruct (decide (j' < Z.abs i')); [by left|]. right. rewrite Hl by lia. case_decide; [by eexists|done]. }
  simpl. split; [done|]. split; [|split; [done|]].
  - split; [done| |rewrite Hl by lia; case_decide; [by eexists|apply Hu]]. intros i' j' v' Ha. rewrite Hl by done.
    case_decide as Hd; [destruct Hd as [-> ->]; intros [= <-]; done|]. by apply Hu.
  - right. rewrite Hl by done. rewrite decide_True by done. by eexists.
Qed.

Lemma extends_refl u : extends u u.
Proof. by intros i j. Qed.
Lemma extends_trans u v w : extends u v -> extends v w -> extends u w.
Proof. intros H1 H2 i j H. by apply H2, H1. Qed.
Lemma ready_extends u u' i j : extends u u' -> ready u i j -> ready u' i j.
Proof. intros H (? & ? & ?). by repeat split; apply H. Qed.

(** Cells whose neighbours in the column before are known. *)
Lemma drain_ok cells : forall u, sound u ->
  Forall (fun c => snd c <= X /\ Z.abs (fst c) <= snd c /\ 1 <= snd c /\ ready u (fst c) (snd c)) cells ->
  returns (drain compute cells u) (fun u' => sound u' /\ extends u u' /\ Forall (fun c => known u' (fst c) (snd c)) cells).
Proof.
  induction cells as [|[i j] cells IH]; intros u Hu Hc; cbn [drain].
  { apply returns_ok. split; [done|]. split; [apply extends_refl|constructor]. }
  apply Forall_cons in Hc as [(Hj & Hi & Hj1 & Hr) Hc']. simpl in *.
  destruct (store_ok u i j Hu Hj Hi (or_intror (conj Hj1 Hr))) as ((v & u1) & E & Hv & Hu1 & Hx & Hk).
  destruct (compute i j u) as [[v' u']| |]; try discriminate. cbn [mbind result_bind] in *.
  destruct (tset i j v' u') as [u''| |]; try discriminate. injection E as -> ->. simpl in *.
  eapply returns_weaken; [apply (IH u1 Hu1)|].
  - eapply Forall_impl; [exact Hc'|]. intros c (? & ? & ? & ?). split_and!; try done. by apply (ready_extends u).
  - intros u2 (Hu2 & Hx2 & Hk2). split; [done|]. split; [by apply (extends_trans u u1)|]. constructor; [by apply Hx2|done].
Qed.

Lemma drain_app a : forall b u, drain compute (a ++ b) u = (u ← drain compute a u; drain compute b u).
Proof.
  induction a as [|[i j] a IH]; intros b u; [done|]. cbn [drain app]. destruct (compute i j u) as [[v u']| |]; [|done|done].
  cbn [mbind result_bind]. destruct (tset i j v u'); [|done|done]. cbn [mbind result_bind]. apply IH.
Qed.

(** The cells of a column the final one depends on. *)
Lemma level_ok k d i u : sound u -> d - i <= X -> forall n j0,
  returns (level n j0 k d i u) (fun cells =>
    Forall (fun c => exists j, c = (k + j, d - i) /\ j0 <= j < j0 + Z.of_nat n /\ ~ known u (k + j) (d - i)) cells /\
    forall j, j0 <= j < j0 + Z.of_nat n -> known u (k + j) (d - i) \/ (k + j, d - i) ∈ cells).
Proof.
  intros Hu Hd. induction n as [|n IH]; intros j0; cbn [level].
  { apply returns_ok. split; [constructor|]. intros; lia. }
  eapply returns_bind; [by apply tcomputed_known|]. intros c Hc. eapply returns_bind; [apply (IH (j0 + 1))|]. intros rest [H1 H2].
  apply returns_ok. assert (H1' : Forall (fun c => exists j, c = (k + j, d - i) /\ j0 <= j < j0 + Z.of_nat (S n) /\ ~ known u (k + j) (d - i)) rest).
  { eapply Forall_impl; [exact H1|]. intros c' (j & ? & ? & ?). exists j. split_and!; [done|lia|lia|done]. }
  destruct c.
  - split; [done|]. intros j Hj. destruct (decide (j = j0)) as [->|]; [left; by apply Hc|apply H2; lia].
  - split; [constructor; [|done]; exists j0; split_and!; [done|lia|lia|]; intros Hk; apply Hc in Hk; done|].
    intros j Hj. destruct (decide (j = j0)) as [->|]; [right; left|]. destruct (H2 j ltac:(lia)); [by left|right; by right].
Qed.

Definition level_known (k d i : Z) (u : T) : Prop := forall j, - i <= j <= i -> known u (k + j) (d - i).

Lemma gather_ok k d fuel : forall i u stack, sound u -> 0 <= d <= X -> 1 <= i -> (Z.to_nat (d - i) < fuel)%nat ->
  returns (gather fuel i k d u stack) (fun st => exists front, st = front ++ stack /\
    forall u', sound u' -> extends u u' ->
      returns (drain compute front u') (fun u'' => sound u'' /\ extends u' u'' /\ level_known k d i u'')).
Proof.
  induction fuel as [|fuel IH]; intros i u stack Hu Hd Hi Hf; [lia|]. cbn [gather]. destruct (Z.ltb_spec i d) as [Hlt|Hge].
  - eapply returns_bind; [apply (level_ok k d i u Hu ltac:(lia))|]. intros cells [H1 H2].
    replace (- i + Z.of_nat (Z.to_nat (2 * i + 1))) with (i + 1) in H1, H2 by lia.
    destruct cells as [|c cells].
    { apply returns_ok. exists []. split; [done|]. intros u' Hu' Hx. apply returns_ok. split; [done|]. split; [apply extends_refl|].
      intros j Hj. apply Hx. destruct (H2 j ltac:(lia)) as [?|Hc]; [done|by apply not_elem_of_nil in Hc]. }
    set (cs := c :: cells) in *. eapply returns_weaken; [apply (IH (i + 1) u (rev cs ++ stack) Hu Hd ltac:(lia) ltac:(lia))|].
    intros st (front & -> & Hfront). exists (front ++ rev cs). split; [by rewrite <- app_assoc|]. intros u' Hu' Hx. rewrite drain_app.
    eapply returns_bind; [by apply Hfront|]. intros u1 (Hu1 & Hx1 & Hl1).
    eapply returns_weaken; [apply (drain_ok (rev cs) u1 Hu1)|].
    + apply Forall_rev. eapply Forall_impl; [exact H1|]. intros c' (j & -> & Hj & Hn). simpl. split; [lia|].
      split; [destruct (decide (d - i < Z.abs (k + j))); [exfalso; apply Hn; by left|lia]|]. split; [lia|].
      unfold ready. replace (d - i - 1) with (d - (i + 1)) by lia.
      replace (k + j - 1) with (k + (j - 1)) by lia. replace (k + j + 1) with (k + (j + 1)) by lia.
      split_and!; apply Hl1; lia.
    + intros u2 (Hu2 & Hx2 & Hk2). split; [done|]. split; [by apply (extends_trans u' u1)|]. intros j Hj.
      destruct (H2 j ltac:(lia)) as [Hk|Hc]; [by apply Hx2, Hx1, Hx|]. apply Forall_rev in Hk2. rewrite rev_involutive in Hk2.
      eapply Forall_forall in Hk2; [|exact Hc]. done.
  - apply returns_ok. exists []. split; [done|]. intros u' Hu' Hx. apply returns_ok. split; [done|]. split; [apply extends_refl|].
    intros j Hj. apply known_column_0; [done|lia].
Qed.

Lemma UKK_ok d u : sound u -> 0 <= d <= X ->
  returns (UKK compute (ab s t) d u) (fun p => fur (ab s t) d (fst p) /\ sound (snd p)).
Proof.
  intros Hu Hd. unfold UKK. eapply returns_bind; [apply (gather_ok (ab s t) d _ 1 u [] Hu Hd); lia|].
  intros st (front & -> & Hfront). rewrite app_nil_r. eapply returns_bind; [by apply Hfront; [|apply extends_refl]|].
  intros u1 (Hu1 & _ & Hl). destruct (decide (d < Z.abs (ab s t))) as [Ho|Ho].
  - eapply returns_bind; [apply Hcompute; [done|lia|left; by left]|]. intros [v u'] [Eu Hv]. simpl in Eu, Hv. subst u'.
    eapply returns_bind; [apply (tset_off (ab s t) d u1 v); [apply Hu1|done|by apply Hfits_ab]|]. intros u2 [Hi2 Hl2].
    apply returns_ok. split; [done|]. simpl. destruct Hu1 as [? Hc Hst]. split; [done| |by rewrite Hl2].
    intros i j v' Ha. rewrite Hl2 by done. by apply Hc.
  - eapply returns_weaken; [apply (store_ok u1 (ab s t) d Hu1); [lia|lia|]|by intros [v u2] (? & ? & _)].
    destruct (decide (d = 0)) as [->|]; [left; apply known_column_0; [done|lia]|right]. split; [lia|].
    unfold ready. replace (ab s t - 1) with (ab s t + (- 1)) by lia. replace (ab s t) with (ab s t + 0) at 2 by lia.
    split_and!; apply Hl; lia.
Qed.

Lemma UKK_run_ok u : inv u -> (forall i j, Z.abs i <= j -> look u i j = None) ->
  returns (UKK_run s t compute u) (fun r => r = X).
Proof.
  intros Hi He. pose proof X_le. unfold UKK_run.
  eapply returns_bind; [apply (common_prefix_ok Hunit s t); [lia|lia|lia|unfold slide_fuel; lia]|]. intros r Hr.
  pose proof (furthest_base Hunit s t (r - 1) Hr) as Hf. pose proof (slid_from _ _ _ _ _ Hr) as Hge.
  eapply returns_bind; [apply (tset_spec 0 0 u (r - 1)); [done|lia|apply Hfits; lia|lia|by right; left]|]. intros u' [Hi' Hl].
  assert (Hu' : sound u').
  { split; [done| |rewrite Hl by lia; rewrite decide_True by done; by eexists]. intros i j v Ha. rewrite Hl by done.
    case_decide as Hd; [destruct Hd as [-> ->]; intros [= <-]; done|]. by rewrite He. }
  apply (search_cost_ok Hunit s t (fun _ => sound)); [lia| |lia|done|unfold cost_fuel; lia].
  intros d u1 Hd Hu1. by apply UKK_ok.
Qed.
End with_compute.
End UKK_correct.

(** ** The tables keep the interface *)
Lemma cell_insert (u : gmap (Z * Z) Z) i j v i' j' :
  <[(i, j) := v]> u !! (i', j') = if decide (i' = i /\ j' = j) then Some v else u !! (i', j').
Proof.
  case_decide as H; [destruct H as [-> ->]; by rewrite lookup_insert_eq|].
  rewrite lookup_insert_ne; [done|]. intros [=]. apply H. by split.
Qed.
#[export] Instance UKK_table_spec : UTableSpec UKK_table (fun _ => True) (fun u i j => u !! (i, j)) (fun i j => fixed_in i j = true).
Proof.
  split; cbn [tU tcomputed tset UKK_table]; unfold fixed_computed, fixed_get, fixed_set.
  - intros i j u _ Hi ->. by destruct (Z.ltb_spec j (Z.abs i)); [lia|].
  - intros i j u _ Hi. by destruct (Z.ltb_spec j (Z.abs i)); [|lia].
  - intros i j u v _ Hi -> Hv. destruct (Z.ltb_spec j (Z.abs i)); [lia|]. simpl. by rewrite Hv.
  - intros i j u _ Hi. by destruct (Z.ltb_spec j (Z.abs i)); [|lia].
  - intros i j u v _ Hi -> _ _. apply returns_ok. split; [done|]. intros i' j' _. apply cell_insert.
  - intros i j u v _ Hi ->. apply returns_ok. split; [done|]. intros i' j' Hi'. etransitivity; [apply cell_insert|]. by rewrite decide_False by lia.
Qed.

Lemma Static_table_spec : UTableSpec Static_table (fun _ => True) (fun u i j => u !! (i, j)) (fun _ _ => True).
Proof.
  split; cbn [tU tcomputed tset Static_table].
  - intros i j u _ Hi _. by destruct (Z.ltb_spec j (Z.abs i)); [lia|].
  - intros i j u _ Hi. by destruct (Z.ltb_spec j (Z.abs i)); [|lia].
  - intros i j u v _ Hi _ Hv. destruct (Z.ltb_spec j (Z.abs i)); [lia|]. by rewrite Hv.
  - intros i j u _ Hi. by destruct (Z.ltb_spec j (Z.abs i)); [|lia].
  - intros i j u v _ Hi _ _ _. apply returns_ok. split; [done|]. intros i' j' _. apply cell_insert.
  - intros i j u v _ Hi _. apply returns_ok. split; [done|]. intros i' j' Hi'. etransitivity; [apply cell_insert|]. by rewrite decide_False by lia.
Qed.

(** *** Columns on demand *)
Lemma ROW_INDEX_eq i : Z.abs i < 2 ^ 30 -> ROW_INDEX i = if i <? 0 then - i * 2 - 1 else i * 2.
Proof.
  intros H. unfold ROW_INDEX. destruct (Z.ltb_spec i 0); [|by rewrite i32_small by lia].
  rewrite (i32_small (i * -2)), i32_small by lia. lia.
Qed.
Lemma get_row_eq i : Z.abs i < 2 ^ 30 -> get_row i = if i <? 0 then - i * 2 - 1 else i * 2.
Proof.
  intros H. unfold get_row. rewrite ROW_INDEX_eq by done. apply u32_small. destruct (Z.ltb_spec i 0); lia.
Qed.
Lemma get_row_nonneg i : 0 <= get_row i.
Proof. unfold get_row, u32, wrap. by apply Z.mod_pos_bound. Qed.
Lemma get_row_inj i i' : Z.abs i < 2 ^ 30 -> Z.abs i' < 2 ^ 30 -> get_row i = get_row i' -> i = i'.
Proof. intros. rewrite !get_row_eq in * by done. destruct (Z.ltb_spec i 0), (Z.ltb_spec i' 0); lia. Qed.
Lemma get_row_bound i j : Z.abs i <= j < 2 ^ 30 -> get_row i <= 2 * j.
Proof. intros. rewrite get_row_eq by lia. destruct (Z.ltb_spec i 0); lia. Qed.

(** Column [j] has at most [2j+1] rows. *)
Definition dynamic_inv (cap : Z) (u : dynamic) : Prop :=
  capacity u = cap /\ max_edit_distance u <= cap < 2 ^ 29 /\
  forall j c, get (cols u) j = Ok c -> 0 < Z.of_nat (length c) <= 2 * j + 1.
Definition dynamic_look (u : dynamic) (i j : Z) : option Z :=
  match get (cols u) j with
  | Ok c => match get c (get_row i) with Ok v => if v =? -1 then None else Some v | _ => None end
  | _ => None
  end.

Lemma column_ok cap u j : dynamic_inv cap u -> 0 <= j < max_edit_distance u ->
  exists c, get (cols u) j = Ok c /\ 0 < Z.of_nat (length c) <= 2 * j + 1.
Proof. intros (_ & _ & Hc) Hj. destruct (get_ok (cols u) j Hj) as [c Ec]. exists c. split; [done|]. by apply Hc. Qed.
Lemma get_some {A} (v : list A) i x : get v i = Ok x -> 0 <= i < Z.of_nat (length v).
Proof.
  unfold get. destruct (Z.leb_spec 0 i); [|done]. destruct (v !! _) eqn:E; [|done]. apply lookup_lt_Some in E. lia.
Qed.
Lemma look_column u i j : is_Some (dynamic_look u i j) -> exists c, get (cols u) j = Ok c /\ get_row i < Z.of_nat (length c).
Proof.
  unfold dynamic_look. intros [v Hv]. destruct (get (cols u) j) as [c| |]; try done. exists c. split; [done|].
  destruct (get c (get_row i)) eqn:E; try done. apply get_some in E. lia.
Qed.

Lemma missing_ok cap u i j : dynamic_inv cap u -> 0 <= j ->
  returns (missing i j u) (fun b => b = false <-> exists c, get (cols u) j = Ok c /\ get_row i < Z.of_nat (length c)).
Proof.
  intros Hu Hj. unfold missing. destruct (Z.leb_spec (max_edit_distance u) j).
  - apply returns_ok. split; [done|]. intros (c & Hc & _). apply get_some in Hc. unfold max_edit_distance in *. lia.
  - destruct (column_ok cap u j Hu ltac:(lia)) as (c & Hc & _). unfold U_col. rewrite Hc. apply returns_ok. simpl.
    rewrite Z.leb_gt. split; [by exists c|]. by intros (c' & [= <-] & ?).
Qed.

(** Making room for a cell changes no entry. *)
Lemma alloc_column_ok cap u i j : dynamic_inv cap u -> Z.abs i <= j < cap ->
  (j = 0 \/ 0 <= j - 1 < max_edit_distance u) -> ~ (exists c, get (cols u) j = Ok c /\ get_row i < Z.of_nat (length c)) ->
  returns (alloc_column i j u) (fun u' => dynamic_inv cap u' /\ (forall i' j', dynamic_look u' i' j' = dynamic_look u i' j') /\
    exists c, get (cols u') j = Ok c /\ get_row i < Z.of_nat (length c)).
Proof.
  intros Hu Hi Hprev Hmiss. pose proof Hu as (Hcap & Hmax & Hne). pose proof (get_row_nonneg i) as Hrow.
  assert (Hsize : exists size, get_row i < size <= 2 * j + 1 /\ alloc_column i j u =
    if max_edit_distance u <=? j then
      _ ← massert ((j =? max_edit_distance u) && (j <? capacity u));
      Ok {| capacity := capacity u; cols := cols u ++ [replicate (Z.to_nat size) (-1)] |}
    else
      old ← get (cols u) j;
      cols' ← put (cols u) j (take (Z.to_nat size) old ++ replicate (Z.to_nat size - length old) (-1));
      Ok {| capacity := capacity u; cols := cols' |}).
  { unfold alloc_column. destruct (Z.eqb_spec j 0) as [->|Hj].
    - exists 1. split; [|done]. replace i with 0 by lia. by vm_compute.
    - destruct Hprev as [?|Hprev]; [done|]. destruct (column_ok cap u (j - 1) Hu Hprev) as (c & Hc & Hl).
      pose proof (get_row_bound i j ltac:(lia)).
      exists (Z.max (Z.of_nat (length c)) (get_row i) + 1). split; [lia|]. unfold U_col. rewrite Hc. cbn [mbind result_bind].
      assert (0 <? Z.of_nat (length c) = true) as -> by lia. cbn [massert mbind result_bind].
      by rewrite u32_small, i32_small by lia. }
  destruct Hsize as (size & Hsz & ->). destruct (Z.leb_spec (max_edit_distance u) j) as [Hj|Hj].
  - assert (j = max_edit_distance u) as Ej by (unfold max_edit_distance in *; lia).
    assert ((j =? max_edit_distance u) && (j <? capacity u) = true) as -> by lia. apply returns_ok.
    assert (Hg : forall j', get (cols u ++ [replicate (Z.to_nat size) (-1)]) j' =
      if j' =? j then Ok (replicate (Z.to_nat size) (-1)) else get (cols u) j').
    { intros j'. unfold get, max_edit_distance in *. destruct (Z.leb_spec 0 j'), (Z.eqb_spec j' j); try lia; try done.
      - rewrite lookup_app_r by lia. by replace (Z.to_nat j' - length (cols u))%nat with 0%nat by lia.
      - destruct (decide (Z.to_nat j' < length (cols u))%nat); [by rewrite lookup_app_l|].
        rewrite (lookup_ge_None_2 (cols u)) by lia. rewrite lookup_ge_None_2; [done|]. rewrite length_app. simpl. lia. }
    split; [|split].
    + split; [done|]. split; [unfold max_edit_distance in *; cbn [cols]; rewrite length_app; simpl; lia|].
      cbn [cols]. intros j' c. rewrite Hg. destruct (Z.eqb_spec j' j) as [->|]; [intros [= <-]; rewrite length_replicate; lia|apply Hne].
    + intros i' j'. unfold dynamic_look. cbn [cols]. rewrite Hg. destruct (Z.eqb_spec j' j) as [->|]; [|done].
      destruct (get (cols u) j) eqn:E1; try (apply get_some in E1; unfold max_edit_distance in *; lia);
        destruct (get (replicate _ _) (get_row i')) as [v| |] eqn:E2; try done;
        unfold get in E2; destruct (0 <=? _); try done; destruct (replicate _ _ !! _) eqn:E3; try done;
        apply lookup_replicate in E3 as [-> _]; by injection E2 as <-.
    + exists (replicate (Z.to_nat size) (-1)). cbn [cols]. rewrite Hg, Z.eqb_refl. split; [done|]. rewrite length_replicate. lia.
  - assert (Hj0 : 0 <= j) by lia. destruct (column_ok cap u j Hu ltac:(lia)) as (old & Hold & Hlen). rewrite Hold. cbn [mbind result_bind].
    assert (Hshort : Z.of_nat (length old) <= get_row i). { destruct (Z.le_gt_cases (Z.of_nat (length old)) (get_row i)); [done|]. exfalso. eauto. }
    rewrite take_ge by lia. set (new := old ++ replicate (Z.to_nat size - length old) (-1)).
    eapply returns_bind; [apply put_ok; unfold max_edit_distance in *; lia|]. intros cs [Hl Hg]. apply returns_ok.
    assert (Hnew : Z.of_nat (length new) = size) by (unfold new; rewrite length_app, length_replicate; lia).
    split; [|split].
    + split; [done|]. split; [unfold max_edit_distance in *; cbn [cols]; lia|]. cbn [cols]. intros j' c. rewrite Hg.
      destruct (Z.eqb_spec j j') as [<-|]; [intros [= <-]; lia|apply Hne].
    + intros i' j'. unfold dynamic_look. cbn [cols]. rewrite Hg. destruct (Z.eqb_spec j j') as [<-|]; [|done]. rewrite Hold.
      pose proof (get_row_nonneg i'). unfold get. destruct (Z.leb_spec 0 (get_row i')); [|lia]. unfold new.
      destruct (decide (Z.to_nat (get_row i') < length old)%nat); [by rewrite lookup_app_l|].
      rewrite lookup_app_r, (lookup_ge_None_2 old) by lia. destruct (replicate _ _ !! _) eqn:E3; [|done].
      apply lookup_replicate in E3 as [-> _]. done.
    + exists new. cbn [cols]. rewrite Hg, Z.eqb_refl. split; [done|lia].
Qed.

Lemma dynamic_U_ok cap u i j v : dynamic_inv cap u -> Z.abs i <= j -> dynamic_look u i j = Some v -> dynamic_U i j u = Ok v.
Proof.
  intros Hu Hi Hv. unfold dynamic_U. destruct (Z.ltb_spec j (Z.abs i)); [lia|].
  destruct (look_column u i j (mk_is_Some _ _ Hv)) as (c & Hc & Hlen). pose proof (get_some _ _ _ Hc).
  unfold dynamic_look in Hv. rewrite Hc in *. unfold max_edit_distance. assert (j <? Z.of_nat (length (cols u)) = true) as -> by lia.
  cbn [massert mbind result_bind]. assert (get_row i <? Z.of_nat (length c) = true) as -> by lia. cbn [massert mbind result_bind].
  destruct (get c (get_row i)) as [w| |]; try done. destruct (Z.eqb_spec w (-1)); [done|]. congruence.
Qed.

Lemma dynamic_computed_ok cap u i j : dynamic_inv cap u -> Z.abs i <= j ->
  dynamic_computed i j u = Ok (bool_decide (is_Some (dynamic_look u i j))).
Proof.
  intros Hu Hi. unfold dynamic_computed. destruct (Z.ltb_spec j (Z.abs i)); [lia|].
  destruct (missing_ok cap u i j Hu ltac:(lia)) as (b & -> & Hb). cbn [mbind result_bind]. destruct b.
  - rewrite bool_decide_eq_false_2; [done|]. intros Hs. apply look_column in Hs. by apply Hb in Hs.
  - destruct (proj1 Hb eq_refl) as (c & Hc & Hl). unfold dynamic_look. rewrite Hc. cbn [mbind result_bind].
    destruct (get_ok c (get_row i)) as [v Hv]; [pose proof (get_row_nonneg i); lia|]. rewrite Hv. cbn [mbind result_bind].
    destruct (Z.eqb_spec v (-1)); cbn [negb]; [by rewrite bool_decide_eq_false_2 by (by intros [])|].
    by rewrite bool_decide_eq_true_2 by (by eexists).
Qed.

(** Writing to a cell that has room. *)
Lemma dynamic_write_ok cap u i j v : dynamic_inv cap u -> 0 <= v -> Z.abs i <= j < cap ->
  (exists c, get (cols u) j = Ok c /\ get_row i < Z.of_nat (length c)) ->
  returns (c ← get (cols u) j; c ← put c (get_row i) v; cols' ← put (cols u) j c; Ok {| capacity := capacity u; cols := cols' |})
    (fun u' => dynamic_inv cap u' /\
      forall i' j', Z.abs i' <= j' -> dynamic_look u' i' j' = if decide (i' = i /\ j' = j) then Some v else dynamic_look u i' j').
Proof.
  intros (Hcap & Hmax & Hne) Hv Hij (c & Hc & Hl). rewrite Hc. cbn [mbind result_bind].
  eapply returns_bind; [apply put_ok; pose proof (get_row_nonneg i); lia|]. intros c' [Hl' Hg'].
  eapply returns_bind; [apply put_ok; by apply get_some in Hc|]. intros cs [Hls Hgs]. apply returns_ok. split.
  - split; [done|]. split; [unfold max_edit_distance in *; cbn [cols]; lia|]. cbn [cols]. intros j' x. rewrite Hgs. destruct (Z.eqb_spec j j') as [<-|]; [|apply Hne].
    intros [= <-]. rewrite Hl'. by apply Hne.
  - intros i' j' Hi'. unfold dynamic_look. cbn [cols]. rewrite Hgs. destruct (Z.eqb_spec j j') as [<-|Hj]; [|by rewrite decide_False by (intros [? ?]; done)].
    rewrite Hg', Hc. destruct (Z.eqb_spec (get_row i) (get_row i')) as [Hr|Hr].
    + apply get_row_inj in Hr as <-; [|lia..]. rewrite decide_True by done. by destruct (Z.eqb_spec v (-1)); [lia|].
    + rewrite decide_False; [done|]. by intros [-> _].
Qed.

Lemma Dynamic_table_spec cap :
  UTableSpec Dynamic_table (dynamic_inv cap) dynamic_look (fun i j => 0 <= j < cap).
Proof.
  split; cbn [tU tcomputed tset Dynamic_table].
  - intros. by eapply dynamic_computed_ok.
  - intros i j u _ Hi. unfold dynamic_computed. by destruct (Z.ltb_spec j (Z.abs i)); [|lia].
  - intros i j u v Hu Hi _ Hv. by rewrite (dynamic_U_ok cap u i j v).
  - intros i j u _ Hi. unfold dynamic_U. by destruct (Z.ltb_spec j (Z.abs i)); [|lia].
  - intros i j u v Hu Hi Hj Hv Hroom. unfold dynamic_set. destruct (Z.ltb_spec j (Z.abs i)); [lia|].
    eapply returns_bind; [by apply (missing_ok cap); [|lia]|]. intros b Hb.
    eapply (returns_bind _ _ (fun u' => dynamic_inv cap u' /\ (forall i' j', dynamic_look u' i' j' = dynamic_look u i' j') /\
      exists c, get (cols u') j = Ok c /\ get_row i < Z.of_nat (length c))).
    + destruct b; [|apply returns_ok; split; [done|]; split; [done|by apply Hb]].
      assert (Hn : ~ exists c, get (cols u) j = Ok c /\ get_row i < Z.of_nat (length c)) by (intros Hx; by apply Hb in Hx).
      apply (alloc_column_ok cap u i j Hu ltac:(lia)); [|done].
      destruct Hroom as [Hs|[->|(i' & Hi' & Hs)]]; [by apply look_column in Hs|by left|right].
      apply look_column in Hs as (c & Hc & _). apply get_some in Hc. done.
    + intros u' (Hu' & Hl & Hr). eapply returns_weaken; [apply (dynamic_write_ok cap u' i j v Hu' Hv ltac:(lia) Hr)|].
      intros u'' [Hu'' Hl'']. split; [done|]. intros i' j' Hi'. by rewrite Hl'', Hl.
  - intros i j u v Hu Hi Hj. unfold dynamic_set. destruct (Z.ltb_spec j (Z.abs i)); [|lia]. by apply returns_ok.
Qed.

(** ** The algorithms return the distance *)
Section results.
Context {A : Type} `{EqDecision A} {C : Costs}.
Hypothesis Hunit : MatchCost = 1.
Variables s t : list A.
Hypothesis Hnm : Z.of_nat (length t) <= Z.of_nat (length s) < 2 ^ 29 - 1.
Abbreviation X := (D (mis s t) (length s) (length t)).
Abbreviation fur := (furthest s t).

(** The first cell has been slid when it was stored. *)
Lemma slide_again v : fur 0 0 v -> returns (slide s t signed_below (slide_fuel s) 0 v) (fun w => w = v).
Proof.
  intros Hv. pose proof (furthest_bound Hunit s t 0 0 v Hv ltac:(lia)) as Hb.
  apply furthest_on in Hv as (Hg & He & Hmax); [|lia].
  eapply returns_weaken; [apply slide_ok; try done; try lia|].
  - unfold slide_fuel. lia.
  - intros w Hw. pose proof (slid_E s t 0 v w 0 Hg Hw He) as Hew. pose proof (slid_from _ _ _ _ _ Hw).
    specialize (Hmax w ltac:(destruct Hg; split; lia) Hew). lia.
Qed.

Lemma UKK_fixed : (forall i j, Z.abs i <= j <= X -> fixed_in i j = true) -> (forall j, 0 <= j <= X -> fixed_in (ab s t) j = true) ->
  returns (UKK_run s t (compute_U s t signed_below) (∅ : fixed)) (fun r => r = X).
Proof.
  intros H1 H2. eapply (UKK_run_ok Hunit s t Hnm (TS := UKK_table_spec)); try done.
  by apply (compute_U_ok Hunit s t Hnm (TS := UKK_table_spec)).
Qed.

Lemma UKK_static : returns (UKK_run (UT := Static_table) s t (compute_U (UT := Static_table) s t unsigned_below) (∅ : static)) (fun r => r = X).
Proof.
  eapply (UKK_run_ok Hunit s t Hnm (TS := Static_table_spec)); try done.
  apply (compute_U_ok Hunit s t Hnm (TS := Static_table_spec)); try done.
Qed.

Lemma UKK_dynamic u : dynamic_inv (Z.of_nat (length s) + 1) u -> (forall i j, dynamic_look u i j = None) ->
  returns (UKK_run (UT := Dynamic_table) s t (compute_U_dynamic s t) u) (fun r => r = X).
Proof.
  intros Hu He. pose proof (X_le Hunit s t Hnm). pose proof (Dynamic_table_spec (Z.of_nat (length s) + 1)) as TS.
  assert (Hfits : forall i j, Z.abs i <= j <= X -> 0 <= j < Z.of_nat (length s) + 1) by (intros; lia).
  eapply (UKK_run_ok Hunit s t Hnm (TS := TS)); try done; [intros; lia|].
  intros u1 i j Hs Hj Hk. unfold compute_U_dynamic. cbv zeta.
  eapply returns_bind; [by apply (tcomputed_known s t (TS := TS) Hfits)|]. intros [] Hc.
  - eapply returns_bind; [by apply (tU_known s t (TS := TS) Hfits); [| |apply Hc]|]. intros [v u2] [E2 Hv]. simpl in E2, Hv. subst u2.
    eapply (returns_bind _ _ (fun w => w = v)); [|intros w ->; by apply returns_ok].
    destruct (Z.eqb_spec i 0) as [->|], (Z.eqb_spec j 0) as [->|]; simpl; try by apply returns_ok. by apply slide_again.
  - destruct Hk as [Hk|(? & ? & ?)]; [by apply Hc in Hk|]. by apply (compute_new_ok Hunit s t Hnm (TS := TS) Hfits).
Qed.

(** *** The recursion with a table of results *)
Abbreviation fsound := (sound s t (inv := fun _ : fixed => True) (look := fun u i j => u !! (i, j))).

Lemma fsound_insert u k d v : fsound u -> Z.abs k <= d -> fur k d v -> fsound (<[(k, d) := v]> u).
Proof.
  intros [_ Hc Hs] Hk Hv. split; [done| |].
  - intros i j w Hi Hw. pose proof (eq_trans (eq_sym (cell_insert u k d v i j)) Hw) as E. case_decide as Hd; [|by apply Hc].
    destruct Hd as [-> ->]. by injection E as <-.
  - pose proof (cell_insert u k d v 0 0) as E. cbv beta. unfold fixed in *. rewrite E. case_decide; [by eexists|done].
Qed.

Lemma Ukkonen_ok : (forall i j, Z.abs i <= j <= X -> fixed_in i j = true) ->
  forall fuel k d u, d <= X -> fsound u -> d < Z.of_nat fuel -> (0 < fuel)%nat ->
  returns (Ukkonen s t fuel k d u) (fun p => fur k d (fst p) /\ fsound (snd p)).
Proof.
  intros Hin. induction fuel as [|fuel IH]; intros k d u Hd Hu Hf Hpos; [lia|]. cbn [Ukkonen].
  destruct (Z.ltb_spec d (Z.abs k)) as [Ho|Ho]; [apply returns_ok; split; [by apply furthest_off|done]|].
  unfold fixed_computed, fixed_get. rewrite Hin by lia. cbn [massert mbind result_bind].
  case_bool_decide as Hc.
  - destruct Hc as [v Hv]. rewrite Hv. apply returns_ok. split; [|done]. by apply Hu.
  - assert (1 <= d). { destruct (decide (d = 0)) as [->|]; [|lia]. exfalso. apply Hc. replace k with 0 by lia. apply Hu. }
    eapply returns_bind; [apply IH; [lia|done|lia|lia]|]. intros [v1 u1] [F1 S1].
    eapply returns_bind; [apply IH; [lia|done|lia|lia]|]. intros [v2 u2] [F2 S2].
    eapply returns_bind; [apply IH; [lia|done|lia|lia]|]. intros [v3 u3] [F3 S3]. cbn [fst snd] in *.
    rewrite (step_fits Hunit s t Hnm k (d - 1) v2), (step_fits Hunit s t Hnm (k - 1) (d - 1) v3) by (done || lia).
    replace (Z.max (Z.max v1 (v2 + 1)) (v3 + 1)) with (best v1 v2 v3) by (unfold best; lia).
    eapply returns_bind; [by apply (slide_best Hunit s t Hnm signed_below k d)|]. intros v Hv.
    unfold fixed_set. rewrite Hin by lia. apply returns_ok. split; [done|]. by apply fsound_insert.
Qed.

Lemma Ukkonen_run_ok : (forall i j, Z.abs i <= j <= X -> fixed_in i j = true) -> Z.of_nat (length s) + 1 < UDIM ->
  returns (Ukkonen_run s t) (fun r => r = X).
Proof.
  intros Hin Hm. pose proof (X_le Hunit s t Hnm). unfold Ukkonen_run. apply returns_assert; [by apply Z.ltb_lt|].
  eapply returns_bind; [apply (common_prefix_ok Hunit s t); [lia|lia|lia|unfold slide_fuel; lia]|]. intros r Hr.
  pose proof (furthest_base Hunit s t (r - 1) Hr) as Hf. unfold fixed_set. rewrite Hin by lia. cbn [massert mbind result_bind].
  apply (search_cost_ok Hunit s t (fun _ => fsound)); [lia| |lia| |unfold cost_fuel; lia].
  - intros d u Hd Hu. apply Ukkonen_ok; [done|lia|done|lia|lia].
  - split; [done| |by eexists; apply lookup_insert_eq]. intros i j v Hi Hv.
    pose proof (eq_trans (eq_sym (cell_insert ∅ 0 0 (r - 1) i j)) Hv) as E. case_decide as Hd; [|done].
    destruct Hd as [-> ->]. by injection E as <-.
Qed.

(** *** Two rows in one array *)
Abbreviation m := (Z.of_nat (length s)).
Definition filled (u : list Z) (d k : Z) : Prop := exists v, get u (full_slot s k d) = Ok v /\ fur k d v.
Definition room (u : list Z) : Prop := Z.of_nat (length u) = (m + 1) * 4.

Lemma dim_eq : dim s = m + 1.
Proof. unfold dim. apply i32_small. lia. Qed.
Lemma full_slot_eq k d : Z.abs k <= d <= m -> full_slot s k d = ROW_INDEX k + (d mod 2) * ((m + 1) * 2).
Proof.
  intros H. unfold full_slot. rewrite dim_eq, ROW_INDEX_eq by lia. pose proof (Z.mod_pos_bound d 2).
  rewrite (i32_small ((m + 1) * 2)) by lia. rewrite (i32_small (d mod 2 * _)) by nia.
  apply i32_small. destruct (Z.ltb_spec k 0); nia.
Qed.
Lemma full_slot_range k d : Z.abs k <= d <= m -> 0 <= full_slot s k d < (m + 1) * 4.
Proof.
  intros H. rewrite full_slot_eq, ROW_INDEX_eq by lia. pose proof (Z.mod_pos_bound d 2). destruct (Z.ltb_spec k 0); nia.
Qed.
Lemma full_slot_inj k d k' d' : Z.abs k <= d <= m -> Z.abs k' <= d' <= m -> full_slot s k d = full_slot s k' d' ->
  k = k' /\ d mod 2 = d' mod 2.
Proof.
  intros H1 H2. rewrite !full_slot_eq by done.
  assert (Hlt : forall x, Z.abs x <= m -> 0 <= ROW_INDEX x < (m + 1) * 2) by (intros x Hx; rewrite ROW_INDEX_eq by lia; destruct (Z.ltb_spec x 0); lia).
  pose proof (Hlt k ltac:(lia)). pose proof (Hlt k' ltac:(lia)). pose proof (Z.mod_pos_bound d 2). pose proof (Z.mod_pos_bound d' 2).
  intros E. assert (d mod 2 = d' mod 2) as Em by nia. split; [|done]. rewrite Em, !ROW_INDEX_eq in E by lia.
  destruct (Z.ltb_spec k 0), (Z.ltb_spec k' 0); lia.
Qed.

Lemma full_U_ok u k d : (Z.abs k <= d -> filled u d k) -> returns (full_U s k d u) (fur k d).
Proof.
  intros H. unfold full_U. destruct (Z.ltb_spec d (Z.abs k)); [apply returns_ok; by apply furthest_off|].
  destruct (H ltac:(lia)) as (v & -> & Hv). by apply returns_ok.
Qed.

(** The row before column [d]; for column 0 its own cell. *)
Definition previous (d : Z) (u : list Z) : Prop :=
  room u /\ forall k, Z.abs k <= Z.max (d - 1) 0 -> filled u (Z.max (d - 1) 0) k.

Lemma full_compute_ok u d k : 0 <= d <= X -> Z.abs k <= d -> previous d u -> returns (full_compute s t k d u) (fur k d).
Proof.
  intros Hd Hk [_ Hp]. unfold full_compute. destruct (Z.ltb_spec d (Z.abs k)); [lia|].
  destruct (Z.eqb_spec d 0) as [->|Hd0].
  - replace k with 0 by lia. simpl. eapply returns_bind; [by apply full_U_ok; intros; apply Hp|]. intros v Hv.
    eapply returns_weaken; [by apply slide_again|]. by intros w ->.
  - rewrite andb_false_r. rewrite Z.max_l in Hp by lia.
    destruct (full_U_ok u (k + 1) (d - 1) (Hp (k + 1))) as (d1 & -> & F1).
    destruct (full_U_ok u k (d - 1) (Hp k)) as (d2 & -> & F2).
    destruct (full_U_ok u (k - 1) (d - 1) (Hp (k - 1))) as (d3 & -> & F3). cbn [mbind result_bind].
    rewrite (step_fits Hunit s t Hnm k (d - 1) d2), (step_fits Hunit s t Hnm (k - 1) (d - 1) d3) by (done || lia).
    apply (slide_best Hunit s t Hnm signed_below k d); try done; lia.
Qed.

Lemma full_cell_ok u d k (P : Z -> Prop) : 0 <= d <= X -> Z.abs k <= d -> previous d u ->
  (forall i, P i -> Z.abs i <= d /\ filled u d i) ->
  returns (full_cell s t d k u) (fun u' => previous d u' /\ forall i, P i \/ i = k -> filled u' d i).
Proof.
  intros Hd Hk Hp HP. pose proof (X_le Hunit s t Hnm). unfold full_cell. eapply returns_bind; [by apply full_compute_ok|]. intros v Hv.
  destruct Hp as [Hroom Hp]. pose proof (full_slot_range k d ltac:(lia)) as Hslot.
  eapply returns_weaken; [apply put_ok; unfold room in Hroom; lia|]. intros u' [Hl Hg].
  assert (Hkeep : forall d' i, Z.abs i <= d' <= m -> (d' = d \/ d' = d - 1) -> filled u d' i -> filled u' d' i).
  { intros d' i Hi Hd' (w & Hw & Fw). unfold filled. rewrite Hg. destruct (Z.eqb_spec (full_slot s k d) (full_slot s i d')) as [E|].
    - apply full_slot_inj in E as [-> Em]; [|lia|lia]. destruct Hd' as [->| ->]; [by exists v|].
      exfalso. revert Em. rewrite Zminus_mod. pose proof (Z.mod_pos_bound d 2).
      assert (d mod 2 = 0 \/ d mod 2 = 1) as [-> | ->] by lia; done.
    - by exists w. }
  split.
  - split; [unfold room in *; lia|]. intros i Hi. apply Hkeep; [lia|lia|by apply Hp].
  - intros i [Hi| ->]; [destruct (HP i Hi) as [Hi1 Hi2]; apply Hkeep; [lia|by left|done]|].
    exists v. rewrite Hg, Z.eqb_refl. done.
Qed.

Lemma full_UKK_ok u d : 0 <= d <= X -> previous d u ->
  returns (full_UKK s t (ab s t) d u) (fun p => fur (ab s t) d (fst p) /\ previous (d + 1) (snd p)).
Proof.
  intros Hd Hu. unfold full_UKK.
  eapply (returns_bind _ _ (fun u => previous d u /\ forall k, - (d + 1) < k <= 0 -> filled u d k)).
  { apply (for_between_inv (fun i u => previous d u /\ forall k, - i < k <= 0 -> filled u d k)); [lia|by split; [|intros; lia]|].
    intros i u1 Hi [Hp Hf]. eapply returns_weaken; [apply (full_cell_ok u1 d (- i) (fun k => - i < k <= 0)); [lia|lia|done|]|].
    - intros k Hk. split; [lia|by apply Hf].
    - intros u2 [Hp2 Hf2]. split; [done|]. intros k Hk. apply Hf2. lia. }
  intros u1 [Hp1 Hf1].
  eapply (returns_bind _ _ (fun u => previous d u /\ forall k, - (d + 1) < k < d + 1 -> filled u d k)).
  { apply (for_between_inv (fun i u => previous d u /\ forall k, - (d + 1) < k < i -> filled u d k)); [lia|split; [done|intros; apply Hf1; lia]|].
    intros i u2 Hi [Hp Hf]. eapply returns_weaken; [apply (full_cell_ok u2 d i (fun k => - (d + 1) < k < i)); [lia|lia|done|]|].
    - intros k Hk. split; [lia|by apply Hf].
    - intros u3 [Hp3 Hf3]. split; [done|]. intros k Hk. apply Hf3. lia. }
  intros u2 [Hp2 Hf2]. destruct (Z.ltb_spec d (Z.abs (ab s t))).
  - apply returns_ok. split; [by apply furthest_off|]. split; [apply Hp2|]. intros k Hk. simpl. replace (Z.max (d + 1 - 1) 0) with d in * by lia.
    apply Hf2. lia.
  - eapply returns_bind; [apply full_U_ok; intros; apply Hf2; lia|]. intros v Hv. apply returns_ok. split; [done|].
    split; [apply Hp2|]. intros k Hk. simpl. replace (Z.max (d + 1 - 1) 0) with d in * by lia. apply Hf2. lia.
Qed.

Lemma Full_run_ok garbage : returns (Full_run s t garbage) (fun r => r = X).
Proof.
  pose proof (X_le Hunit s t Hnm). unfold Full_run. rewrite dim_eq, i32_small by lia.
  eapply returns_bind; [apply new_array_ok; lia|]. intros u Hu. change (room u) in Hu.
  eapply returns_bind; [apply (common_prefix_ok Hunit s t); [lia|lia|lia|unfold slide_fuel; lia]|]. intros r Hr.
  pose proof (furthest_base Hunit s t (r - 1) Hr) as Hf. pose proof (full_slot_range 0 0 ltac:(lia)).
  eapply returns_bind; [apply put_ok; unfold room in Hu; lia|]. intros u' [Hl Hg].
  apply (search_cost_ok Hunit s t previous); [lia| |lia| |unfold cost_fuel; lia].
  - intros d u1 Hd Hu1. by apply full_UKK_ok.
  - split; [unfold room in *; lia|]. simpl. intros k Hk. replace k with 0 by lia. exists (r - 1). rewrite Hg, Z.eqb_refl. done.
Qed.
End results.

Section exchanged.
Context {A : Type} `{EqDecision A} {C : Costs}.
Hypothesis Hunit : MatchCost = 1 /\ InsertCost = 1 /\ DeleteCost = 1.

(** The longer sequence comes first; the distance is the same. *)
Lemma longer_ok (s t s' t' : list A) : longer s t = (s', t') ->
  Z.of_nat (length t') <= Z.of_nat (length s') /\ (length s' = length s `max` length t)%nat /\
  distance s t (D (mis s' t') (length s') (length t')).
Proof.
  destruct Hunit as (_ & Hi & Hd). unfold longer. destruct (Nat.ltb_spec (length t) (length s)); intros [= <- <-];
    split_and!; try lia; [by apply D_distance|by apply distance_sym, D_distance].
Qed.

Lemma alloc_first m : 0 <= m < 2 ^ 29 - 1 -> returns (alloc_column 0 0 {| capacity := m + 1; cols := [] |})
  (fun u => dynamic_inv (m + 1) u /\ forall i j, dynamic_look u i j = None).
Proof.
  intros Hm. eapply returns_weaken; [apply (alloc_column_ok (m + 1)); [|lia|by left|]|].
  - split; [done|]. split; [unfold max_edit_distance; simpl; lia|]. intros j c Hc. apply get_some in Hc. simpl in Hc. lia.
  - by intros (c & ? & _).
  - intros u (Hu & Hl & _). split; [done|]. intros i j. rewrite Hl. unfold dynamic_look, get. cbn [cols]. by destruct (0 <=? j).
Qed.

Lemma fixed_in_near i j : Z.abs i <= 49 -> 0 <= j <= 49 -> fixed_in i j = true.
Proof. intros. unfold fixed_in, UDIM. change (100 `div` 2) with 50. lia. Qed.
End exchanged.

(** ** The claims *)

(** C39. [EditDistanceStaticUKK], [EditDistanceDynamicUKK] and [EditDistanceFullUKK]:
    with unit costs and sequences of at most 2^29 - 2 elements, [compute_editdistance]
    terminates, none of its assertions fails, no [int] of it overflows, every access to
    the columns allocated on demand and to the two rows of together [4 * m_] entries stays
    within them, whatever they held before, and the result is the least cost of an edit
    script.  The bound is where [4 * m_] leaves the [int]s: see [rows_too_large]. *)
Theorem ukkonen_correct {A : Type} `{EqDecision A} {C : Costs} (garbage : nat -> Z) (s t : list A) :
  MatchCost = 1 /\ InsertCost = 1 /\ DeleteCost = 1 -> Z.of_nat (length s `max` length t) < 2 ^ 29 - 1 ->
  returns (Static_compute s t) (distance s t) /\ returns (Dynamic_compute s t) (distance s t) /\
  returns (Full_compute garbage s t) (distance s t).
Proof.
  intros Hunit Hlen. unfold Static_compute, Dynamic_compute, Full_compute.
  destruct (longer s t) as [s' t'] eqn:E. destruct (longer_ok Hunit s t s' t' E) as (Hle & Hs & HD). rewrite <- Hs in *.
  split_and!.
  - eapply returns_weaken; [apply UKK_static; [apply Hunit|lia]|]. by intros d ->.
  - eapply returns_bind; [apply alloc_first; lia|]. intros v [Hv He].
    eapply returns_weaken; [apply UKK_dynamic; [apply Hunit|lia|done|done]|]. by intros d ->.
  - eapply returns_weaken; [apply Full_run_ok; [apply Hunit|lia]|]. by intros d ->.
Qed.

Lemma ukkonen_correct_witness :
  Dynamic_compute (C := unit_costs) [1; 2; 3; 3; 4; 5] [6; 2; 3; 3; 2; 5; 7] = Ok 3 /\
  distance (C := unit_costs) [1; 2; 3; 3; 4; 5] [6; 2; 3; 3; 2; 5; 7] 3.
Proof.
  destruct (@ukkonen_correct Z _ unit_costs (fun _ => 7) [1; 2; 3; 3; 4; 5] [6; 2; 3; 3; 2; 5; 7]) as (_ & (d & Hd & H) & _);
    [done|reflexivity|].
  split; [vm_compute; reflexivity|]. assert (E : Ok d = Ok 3) by (rewrite <- Hd; vm_compute; reflexivity). injection E as ->. exact H.
Defined.

(** From 2^29 - 1 elements on the size of the two rows is negative, and for 2^30 - 1
    elements it is 0, so that the first entry is outside. *)
Lemma rows_too_large {A} (s : list A) :
  (Z.of_nat (length s) = 2 ^ 29 - 1 -> forall garbage, new_array garbage (i32 (dim s * 4)) = AssertFail) /\
  (Z.of_nat (length s) = 2 ^ 30 - 1 -> forall garbage, new_array garbage (i32 (dim s * 4)) = Ok []).
Proof. unfold dim. split; intros ->; reflexivity. Qed.

(** [EditDistanceUKK] and [EditDistanceUkkonen], whose tables have [UDIM] = 100 rows
    around the diagonal 0: with unit costs and a distance of at most 49, every
    diagonal and column they visit is inside the table, and they return the
    distance ([EditDistanceUkkonen] also asserts that the sequences are shorter than
    99). *)
Theorem ukkonen_fixed_tables {A : Type} `{EqDecision A} {C : Costs} (s t : list A) (d : Z) :
  MatchCost = 1 /\ InsertCost = 1 /\ DeleteCost = 1 -> Z.of_nat (length s `max` length t) < 2 ^ 29 - 1 -> distance s t d -> d <= 49 ->
  UKK_compute s t = Ok d /\ (Z.of_nat (length s `max` length t) + 1 < UDIM -> Ukkonen_compute s t = Ok d).
Proof.
  intros Hunit Hlen Hd Hsmall. unfold UKK_compute, Ukkonen_compute.
  destruct (longer s t) as [s' t'] eqn:E. destruct (longer_ok Hunit s t s' t' E) as (Hle & Hs & HD). rewrite <- Hs in *.
  pose proof (distance_unique s t _ _ Hd HD) as ->. pose proof (proj1 Hunit) as Hm.
  pose proof (dist_gap Hm s' t' (length s') (length t')) as Hgap.
  assert (Hin : forall i j, Z.abs i <= j <= D (mis s' t') (length s') (length t') -> fixed_in i j = true)
    by (intros; apply fixed_in_near; lia).
  split.
  - destruct (UKK_fixed Hm s' t' ltac:(lia) Hin) as (r & -> & ->); [|done].
    intros j Hj. apply fixed_in_near; rewrite ?ab_eq by lia; lia.
  - intros Hdim. by destruct (Ukkonen_run_ok Hm s' t' ltac:(lia) Hin Hdim) as (r & -> & ->).
Qed.

Lemma ukkonen_fixed_tables_witness : Ukkonen_compute (C := unit_costs) [1; 2; 3] [1; 3] = Ok 1.
Proof.
  apply (@ukkonen_fixed_tables Z _ unit_costs [1; 2; 3] [1; 3] 1); [done|reflexivity| |done|reflexivity].
  pose proof (@D_distance Z _ unit_costs ltac:(done) [1; 2; 3] [1; 3]) as H. exact H.
Defined.

(** Past that distance the rows of the table do not suffice, although the
    constructor's assertion holds. *)
Example fixed_table_too_small :
  Ukkonen_compute (C := unit_costs) (replicate 60 0) [] = AssertFail /\
  UKK_compute (C := unit_costs) (replicate 60 0) [] = AssertFail /\
  Z.of_nat (length (replicate 60 0)) + 1 < UDIM /\ Static_compute (C := unit_costs) (replicate 60 0) [] = Ok 60.
Proof. vm_compute. split_and!; reflexivity. Qed.
