(* ===== verification/EditDistanceOracle.v ===== *)
(** * EditDistanceOracle: priorities of workers

    Models the part of [klee/lib/Tase/EditDistanceOracle.cpp] that selects fragments of
    the training data for a message and ranks the path of a worker by its edit
    distance to the prefixes of those fragments.  The training data is loaded in
    [ClusterFiles].

    [new_ints] is what the memory of [new int\[n\]] holds, [shuffle] is [std::shuffle] with the
    random engine of the call.  Distances are [double]s with integral values far below
    2^53, kept as integers; [alpha] is 1.25, exact as a [double], and the products with
    it are exact as well. *)

From Stdlib Require Import QArith.
From S2P Require Import Prelude Loops EditDistance.
Local Open Scope Z_scope.

(** [std::map]: the entries in the order of the keys. *)
Definition kmap (K V : Type) : Type := list (K * V).
Section kmap.
Context {K V : Type} `{EqDecision K}.
Fixpoint kfind (k : K) (m : kmap K V) : option V :=
  match m with
  | [] => None
  | (k', v) :: m' => if decide (k = k') then Some v else kfind k m'
  end.
End kmap.

Abbreviation bytes := (list Z) (only parsing).
Abbreviation fragment := (list Z) (only parsing).
Definition msgToMedoidsMap : Type := kmap bytes (list fragment).
Definition medoidToMsgsMap : Type := kmap fragment (list bytes).
Definition msgType2MsgToMedoidsMap : Type := kmap bytes msgToMedoidsMap.
Definition msgType2MedoidToMsgsMap : Type := kmap bytes medoidToMsgsMap.

Definition alpha : Q := 5 # 4.
Definition beta : Z := 8.

(** [for (i = 0; i < v.size(); i++)] with [v\[i\]]. *)
Definition for_each {A St} (v : list A) (body : A -> St -> result St) (st : St) : result St :=
  for_between 0 (Z.of_nat (length v)) (fun i st => x ← get v i; body x st) st.

Section oracle.
Variable new_ints : nat -> Z.
Variable shuffle : list fragment -> list fragment.

(** [BBEDR], [StringEDR] and [BVEDR] are [EditDistanceRow] with the default costs. *)
Definition EDR (v1 v2 : list Z) : result Z := Row_compute_editdistance (C := unit_costs) new_ints v1 v2.
Definition getFragmentEditDistanceNaive (v1 v2 : fragment) : result Z := EDR v1 v2.
Definition getStringEditDistance (s1 s2 : bytes) : result Z := EDR s1 s2.
Definition getByteVecEditDistance (v1 v2 : bytes) : result Z := EDR v1 v2.

Definition getMinEditDistancePrefixNaive (currPath medoidPath : fragment) : result Z :=
  for_between 0 (Z.of_nat (length medoidPath) + 1) (fun i bestDist =>
    let medoidPrefix := take (Z.to_nat i) medoidPath in
    currDist ← getFragmentEditDistanceNaive currPath medoidPrefix;
    Ok (if currDist <? bestDist then currDist else bestDist)) 10000000.

Definition getMinEditDistancePrefixes (path : fragment) (medoids : list fragment) : result Z :=
  for_each medoids (fun medoid bestDist =>
    currDist ← getMinEditDistancePrefixNaive path medoid;
    Ok (if currDist <? bestDist then currDist else bestDist)) 1000000.

(** The closest key; it is only printed. *)
Definition closest (msg : bytes) (keys : list bytes) : result (Z * bytes) :=
  for_each keys (fun key '(bestDistance, bestMatch) =>
    currDistance ← getByteVecEditDistance msg key;
    Ok (if currDistance <? bestDistance then (currDistance, key) else (bestDistance, bestMatch))) (10000000, []).
Definition getSimilarMessages (msg : bytes) (m : msgToMedoidsMap) (alphaVal : Q) : result (list bytes) :=
  let keys := map fst m in
  '(bestDistance, _) ← closest msg keys;
  let alphaDist := (inject_Z bestDistance * alphaVal)%Q in
  for_each keys (fun key similarMsgs =>
    currDistance ← getByteVecEditDistance msg key;
    Ok (if Qle_bool (inject_Z currDistance) alphaDist then similarMsgs ++ [key] else similarMsgs)) [].

(** [inputFrags.size() <= betaVal] compares as [size_t]. *)
Definition getRandomFragSubset (inputFrags : list fragment) (betaVal : Z) : result (list fragment) :=
  if Z.of_nat (length inputFrags) <=? u64 betaVal then Ok inputFrags
  else
    let inputFragsCopy := shuffle inputFrags in
    for_between 0 betaVal (fun i result => x ← get inputFragsCopy i; Ok (result ++ [x])) [].

Definition generatePhiN (msgType msg : bytes) (fullMap : msgType2MsgToMedoidsMap) : result (list fragment) :=
  let m := default [] (kfind msgType fullMap) in
  if (length m =? 0)%nat then Ok []
  else
    similarMessages ← getSimilarMessages msg m alpha;
    allSimilarFrags ← for_each similarMessages (fun message frags =>
      match kfind message m with
      | None => AssertFail
      | Some matchedFrags => for_each matchedFrags (fun f frags => Ok (frags ++ [f])) frags
      end) [];
    getRandomFragSubset allSimilarFrags beta.

(** [messageIsIndicatorForCurrCluster] *)
Definition is_indicator (similarMessages indicatorMsgs : list bytes) : bool :=
  existsb (fun s => existsb (fun i => bool_decide (s = i)) indicatorMsgs) similarMessages.
Definition generatePhiN_medoid2Msgs (msgType msg : bytes) (mt2MedToMsgsMap : msgType2MedoidToMsgsMap)
    (mt2MsgToMedsMap : msgType2MsgToMedoidsMap) : result (list fragment) :=
  let medToMsgs := default [] (kfind msgType mt2MedToMsgsMap) in
  let msgToMedoids := default [] (kfind msgType mt2MsgToMedsMap) in
  if (length medToMsgs =? 0)%nat || (length msgToMedoids =? 0)%nat then Ok []
  else
    similarMessages ← getSimilarMessages msg msgToMedoids alpha;
    candidateMedoids ← for_each medToMsgs (fun '(currCluster, indicatorMsgs) candidates =>
      Ok (if is_indicator similarMessages indicatorMsgs then candidates ++ [currCluster] else candidates)) [];
    getRandomFragSubset candidateMedoids beta.

Definition getWorkerPriorityEditDistanceWithPhiN (workerBasicBlockPath : fragment) (PhiN : list fragment) : result Z :=
  if (length PhiN =? 0)%nat then Ok 1000 else getMinEditDistancePrefixes workerBasicBlockPath PhiN.
Definition getWorkerPriorityEditDistance (workerBasicBlockPath : fragment) (msgType msg : bytes)
    (clusteredTrainingData_msg2Medoids : msgType2MsgToMedoidsMap) : result Z :=
  PhiN ← generatePhiN msgType msg clusteredTrainingData_msg2Medoids;
  if (length PhiN =? 0)%nat then Ok 1000 else getMinEditDistancePrefixes workerBasicBlockPath PhiN.
End oracle.

(** ** Loops over a vector *)
Lemma for_each_inv {A St} (I : list A -> St -> Prop) v (body : A -> St -> result St) st :
  I [] st -> (forall pre x suf st, v = pre ++ x :: suf -> I pre st -> returns (body x st) (I (pre ++ [x]))) ->
  returns (for_each v body st) (I v).
Proof.
  intros H0 Hb. unfold for_each.
  eapply returns_weaken; [apply (for_between_inv (fun i => I (take (Z.to_nat i) v))); [lia|done|]|].
  - intros k s Hk Hs. destruct (get_ok v k Hk) as [x Hx]. rewrite Hx. cbn [mbind result_bind].
    unfold get in Hx. destruct (Z.leb_spec 0 k); [|lia]. destruct (v !! Z.to_nat k) as [y|] eqn:E; [|done]. injection Hx as ->.
    replace (Z.to_nat (k + 1)) with (S (Z.to_nat k)) by lia. rewrite (take_S_r _ _ _ E).
    apply (Hb _ _ (drop (S (Z.to_nat k)) v)); [|done]. by rewrite take_drop_middle.
  - intros s. rewrite Nat2Z.id, take_ge by done. done.
Qed.

(** The least of a set of numbers, or a cap. *)
Record least (cap : Z) (P : Z -> Prop) (r : Z) : Prop := {
  least_cap : r <= cap;
  least_below d : P d -> r <= d;
  least_attained : r = cap \/ P r;
}.

Lemma least_min cap (P Q : Z -> Prop) r d : least cap P r -> (forall x, Q x <-> P x \/ x = d) ->
  least cap Q (if d <? r then d else r).
Proof.
  intros [Hc Hb Ha] HQ. split; [destruct (Z.ltb_spec d r); lia| |].
  - intros x [Hx| ->]%HQ; [apply Hb in Hx|]; destruct (Z.ltb_spec d r); lia.
  - destruct (Z.ltb_spec d r); [right; apply HQ; by right|]. destruct Ha as [?|Hp]; [by left|right; apply HQ; by left].
Qed.
Lemma least_none cap (P : Z -> Prop) : (forall d, ~ P d) -> least cap P cap.
Proof. intros H. split; [lia| |by left]. intros d Hd. by destruct (H d). Qed.

(** ** What the oracle computes *)
Abbreviation edit_distance := (distance (C := unit_costs)) (only parsing).

Section correct.
Variable new_ints : nat -> Z.

(** Short enough for the [int]s of [EditDistanceRow]. *)
Definition short (v : list Z) : Prop := Z.of_nat (length v) < 2 ^ 29.
Definition short_map (m : msgToMedoidsMap) : Prop := Forall (fun p => short p.1 /\ Forall short p.2) m.

Lemma EDR_ok (v1 v2 : list Z) : short v1 -> short v2 -> returns (EDR new_ints v1 v2) (edit_distance v1 v2).
Proof. unfold short. intros. apply Row_distance; [by split|]. unfold row_fits, fits_int. cbn [MatchCost unit_costs]. lia. Qed.
Lemma short_take k v : short v -> short (take k v).
Proof. unfold short. rewrite length_take. lia. Qed.
Lemma short_keys m : short_map m -> Forall short (map fst m).
Proof. intros H. apply Forall_fmap. eapply Forall_impl; [exact H|]. by intros p []. Qed.
Lemma short_at (v : list (list Z)) pre x suf : Forall short v -> v = pre ++ x :: suf -> short x.
Proof. intros H ->. apply Forall_app in H as [_ H]. by apply Forall_cons in H as [? _]. Qed.

(** The distances from a path to the prefixes of some fragments. *)
Definition prefix_distance (path : list Z) (medoids : list (list Z)) (d : Z) : Prop :=
  exists medoid p, medoid ∈ medoids /\ p `prefix_of` medoid /\ edit_distance path p d.

Lemma getMinEditDistancePrefixNaive_ok path medoid : short path -> short medoid ->
  returns (getMinEditDistancePrefixNaive new_ints path medoid) (least 10000000 (prefix_distance path [medoid])).
Proof.
  intros Hp Hm. unfold getMinEditDistancePrefixNaive.
  eapply returns_weaken; [apply (for_between_inv (fun i => least 10000000 (fun d =>
    exists j, 0 <= j < i /\ edit_distance path (take (Z.to_nat j) medoid) d))); [lia| |]|].
  - apply least_none. intros d (j & ? & _). lia.
  - intros k r Hk Hr. eapply returns_bind; [apply EDR_ok; [done|by apply short_take]|]. intros d Hd. apply returns_ok.
    apply (least_min _ _ _ _ _ Hr). intros x. split.
    + intros (j & Hj & Hx). destruct (decide (j = k)) as [->|]; [right; by eapply distance_unique|left]. exists j. split; [lia|done].
    + intros [(j & Hj & Hx)| ->]; [exists j|exists k]; split; try done; lia.
  - intros r [Hc Hb Ha]. split; [done| |].
    + intros d (m' & p & ->%list_elem_of_singleton & [suf ->] & Hd). apply Hb. exists (Z.of_nat (length p)).
      rewrite length_app. split; [lia|]. by rewrite Nat2Z.id, take_app_length.
    + destruct Ha as [?|(j & Hj & Hd)]; [by left|right]. exists medoid, (take (Z.to_nat j) medoid).
      split_and!; [by apply list_elem_of_singleton|apply prefix_take|done].
Qed.

Lemma getMinEditDistancePrefixes_ok path medoids : short path -> Forall short medoids ->
  returns (getMinEditDistancePrefixes new_ints path medoids) (least 1000000 (prefix_distance path medoids)).
Proof.
  intros Hpath Hms. unfold getMinEditDistancePrefixes.
  apply (for_each_inv (fun pre => least 1000000 (prefix_distance path pre))).
  - apply least_none. intros d (m' & p & Hm & _). by apply not_elem_of_nil in Hm.
  - intros pre medoid suf r E Hr. eapply returns_bind; [apply getMinEditDistancePrefixNaive_ok; [done|by eapply short_at]|]. intros d [Hdc Hdb Hda].
    apply returns_ok. destruct Hr as [Hc Hb Ha]. split; [destruct (Z.ltb_spec d r); lia| |].
    + intros x (m' & p & [Hm|Hm]%elem_of_app & Hp & Hx).
      * specialize (Hb x ltac:(by exists m', p)). destruct (Z.ltb_spec d r); lia.
      * specialize (Hdb x ltac:(by exists m', p)). destruct (Z.ltb_spec d r); lia.
    + assert (Hleft : prefix_distance path pre r -> prefix_distance path (pre ++ [medoid]) r)
        by (intros (m' & p & ? & ? & ?); exists m', p; split_and!; [set_solver|done|done]).
      assert (Hright : prefix_distance path [medoid] d -> prefix_distance path (pre ++ [medoid]) d)
        by (intros (m' & p & ? & ? & ?); exists m', p; split_and!; [set_solver|done|done]).
      destruct (Z.ltb_spec d r); [destruct Hda as [->|]; [lia|right; by apply Hright]|].
      destruct Ha as [->|]; [by left|right; by apply Hleft].
Qed.

(** The distance to the closest key, and the keys within [alphaVal] times it. *)
Definition best_distance (msg : list Z) (keys : list (list Z)) : Z -> Prop :=
  least 10000000 (fun d => exists k, k ∈ keys /\ edit_distance msg k d).
Definition near (alphaVal : Q) (msg : list Z) (keys : list (list Z)) (k : list Z) : Prop :=
  exists best d, best_distance msg keys best /\ edit_distance msg k d /\ (inject_Z d <= inject_Z best * alphaVal)%Q.

Lemma closest_ok msg keys : short msg -> Forall short keys -> returns (closest new_ints msg keys) (fun p => best_distance msg keys (fst p)).
Proof.
  intros Hmsg Hkeys. apply (for_each_inv (fun pre p => best_distance msg pre (fst p))).
  - apply least_none. intros d (k & Hk & _). by apply not_elem_of_nil in Hk.
  - intros pre k suf [r bm] E Hr. eapply returns_bind; [apply EDR_ok; [done|by eapply short_at]|]. intros d Hd. apply returns_ok.
    replace (fst _) with (if d <? r then d else r) by (by destruct (d <? r)).
    apply (least_min _ _ _ _ _ Hr). intros x. split.
    + intros (k' & [Hk|Hk]%elem_of_app & Hx); [left; by exists k'|right]. apply list_elem_of_singleton in Hk as ->. by eapply distance_unique.
    + intros [(k' & Hk & Hx)| ->]; [exists k'|exists k]; split; try done; set_solver.
Qed.

Lemma least_unique cap P r r' : least cap P r -> least cap P r' -> r = r'.
Proof.
  intros [Hc Hb Ha] [Hc' Hb' Ha']. destruct Ha as [->|Ha], Ha' as [->|Ha']; try done;
    repeat match goal with H : P _ |- _ => first [apply Hb in H as ?; apply Hb' in H; revert H] end; lia.
Qed.

Lemma getSimilarMessages_ok msg m alphaVal : short msg -> short_map m -> returns (getSimilarMessages new_ints msg m alphaVal) (fun ms =>
  ms `sublist_of` map fst m /\ forall k, k ∈ ms <-> k ∈ map fst m /\ near alphaVal msg (map fst m) k).
Proof.
  intros Hmsg Hmap%short_keys. unfold getSimilarMessages. eapply returns_bind; [by apply closest_ok|]. intros [best bm] Hbest. simpl in Hbest.
  set (keys := map fst m) in *.
  eapply returns_weaken; [apply (for_each_inv (fun pre ms => ms `sublist_of` pre /\
    forall k, k ∈ ms <-> k ∈ pre /\ near alphaVal msg keys k))|done].
  - split; [constructor|]. intros k. split; [by intros Hk%not_elem_of_nil|by intros [Hk%not_elem_of_nil _]].
  - intros pre k suf ms E [Hsub Hms]. eapply returns_bind; [apply EDR_ok; [done|by eapply short_at]|]. intros d Hd. apply returns_ok.
    assert (Hnear : near alphaVal msg keys k <-> Qle_bool (inject_Z d) (inject_Z best * alphaVal)%Q = true).
    { rewrite Qle_bool_iff. split; [|intros Hq; by exists best, d]. intros (best' & d' & Hb' & Hd' & Hq).
      by rewrite (least_unique _ _ _ _ Hbest Hb'), (distance_unique _ _ _ _ Hd Hd'). }
    destruct (Qle_bool _ _).
    + split; [by apply sublist_app|]. intros k'. rewrite !elem_of_app, Hms, !list_elem_of_singleton. split; [|tauto].
      intros [[? ?]| ->]; [tauto|]. split; [by right|by apply Hnear].
    + split; [by apply sublist_inserts_r|]. intros k'. rewrite elem_of_app, Hms, list_elem_of_singleton. split; [tauto|].
      intros [[?| ->] Hn]; [done|]. by apply Hnear in Hn.
Qed.

Lemma push_all {A} (v acc : list A) : for_each v (fun x acc => Ok (acc ++ [x])) acc = Ok (acc ++ v).
Proof.
  destruct (for_each_inv (fun pre a => a = acc ++ pre) v (fun x acc => Ok (acc ++ [x])) acc) as (r & -> & ->); [by rewrite app_nil_r| |done].
  intros pre x suf a _ ->. apply returns_ok. by rewrite app_assoc.
Qed.

Variable shuffle : list (list Z) -> list (list Z).
Hypothesis Hshuffle : forall l, Permutation l (shuffle l).

Lemma getRandomFragSubset_ok frags betaVal : 0 <= betaVal < 2 ^ 31 ->
  returns (getRandomFragSubset shuffle frags betaVal) (fun res =>
    Z.of_nat (length res) = Z.min (Z.of_nat (length frags)) betaVal /\ res ⊆+ frags /\
    (Z.of_nat (length frags) <= betaVal -> res = frags)).
Proof.
  intros Hb. unfold getRandomFragSubset. replace (u64 betaVal) with betaVal by (unfold u64, wrap; rewrite Z.mod_small; lia).
  destruct (Z.leb_spec (Z.of_nat (length frags)) betaVal); [apply returns_ok; split_and!; [lia|done|done]|].
  pose proof (Permutation_length (Hshuffle frags)) as Hlen.
  eapply returns_weaken; [apply (for_between_inv (fun i res => res = take (Z.to_nat i) (shuffle frags))); [lia|done|]|].
  - intros k s Hk ->. destruct (get_ok (shuffle frags) k ltac:(lia)) as [x Hx]. rewrite Hx. cbn [mbind result_bind]. apply returns_ok.
    unfold get in Hx. destruct (Z.leb_spec 0 k); [|lia]. destruct (shuffle frags !! _) as [y|] eqn:E; [|done]. injection Hx as ->.
    replace (Z.to_nat (k + 1)) with (S (Z.to_nat k)) by lia. by rewrite (take_S_r _ _ _ E).
  - intros r ->. rewrite length_take. split_and!; [lia| |lia]. rewrite (Hshuffle frags) at 2. apply submseteq_take.
Qed.

(** *** Candidates *)

(** A fragment of a message near [msg]; one of a cluster with such an indicator. *)
Definition from_near (msg : list Z) (m : msgToMedoidsMap) (f : list Z) : Prop :=
  exists k frags, kfind k m = Some frags /\ near alpha msg (map fst m) k /\ f ∈ frags.
Definition indicated (msg : list Z) (medToMsgs : medoidToMsgsMap) (m : msgToMedoidsMap) (f : list Z) : Prop :=
  exists msgs k, (f, msgs) ∈ medToMsgs /\ k ∈ msgs /\ k ∈ map fst m /\ near alpha msg (map fst m) k.
(** At most [beta] of the candidates; fewer only if they are all of them. *)
Definition selection (P : list Z -> Prop) (PhiN : list (list Z)) : Prop :=
  Z.of_nat (length PhiN) <= beta /\ Forall P PhiN /\ (Z.of_nat (length PhiN) < beta -> forall f, P f -> f ∈ PhiN).

Lemma selection_ok P candidates : (forall f, f ∈ candidates <-> P f) ->
  returns (getRandomFragSubset shuffle candidates beta) (selection P).
Proof.
  intros HP. eapply returns_weaken; [by apply getRandomFragSubset_ok|]. intros res (Hlen & Hsub & Hall). split; [lia|]. split.
  - apply Forall_forall. intros f Hf. apply HP. by apply (elem_of_submseteq _ _ _ Hf Hsub).
  - intros Hlt f Hf. rewrite Hall by lia. by apply HP.
Qed.

Lemma kfind_key {V} k (m : kmap (list Z) V) : k ∈ map fst m -> is_Some (kfind k m).
Proof.
  induction m as [|[k' v] m IH]; intros Hk; [by apply not_elem_of_nil in Hk|]. simpl in *.
  destruct (decide (k = k')); [by eexists|]. apply IH. by apply elem_of_cons in Hk as [?|?].
Qed.
Lemma kfind_in {V} k v (m : kmap (list Z) V) : kfind k m = Some v -> (k, v) ∈ m.
Proof.
  induction m as [|[k' v'] m IH]; [done|]. simpl. destruct (decide (k = k')) as [->|]; [intros [= ->]; by left|].
  intros Hk. right. by apply IH.
Qed.
Lemma kfind_fst {V} k v (m : kmap (list Z) V) : kfind k m = Some v -> k ∈ map fst m.
Proof. intros H%kfind_in. by apply (list_elem_of_fmap_2 fst) in H. Qed.

Lemma generatePhiN_ok msgType msg fullMap : let m := default [] (kfind msgType fullMap) in
  short msg -> short_map m -> returns (generatePhiN new_ints shuffle msgType msg fullMap) (selection (from_near msg m)).
Proof.
  intros m Hmsg Hmap. unfold generatePhiN. change (default [] (kfind msgType fullMap)) with m. cbv zeta. destruct (Nat.eqb_spec (length m) 0) as [E0|_].
  { apply returns_ok. apply length_zero_iff_nil in E0. split; [simpl; unfold beta; lia|]. split; [constructor|].
    intros _ f (k & frags & Hk & _). by rewrite E0 in Hk. }
  eapply returns_bind; [by apply getSimilarMessages_ok|]. intros sim [_ Hsim].
  eapply returns_bind; [apply (for_each_inv (fun pre frags => forall f, f ∈ frags <->
    exists k fs, k ∈ pre /\ kfind k m = Some fs /\ f ∈ fs))|].
  - intros f. split; [by intros ?%not_elem_of_nil|by intros (k & fs & ?%not_elem_of_nil & _)].
  - intros pre k suf frags Esim Hpre. assert (Hk : k ∈ map fst m) by (apply Hsim; rewrite Esim; set_solver).
    destruct (kfind_key k m Hk) as [fs Hfs]. rewrite Hfs, push_all. apply returns_ok. intros f. rewrite elem_of_app, Hpre. split.
    + intros [(k' & fs' & ? & ? & ?)|?]; [exists k', fs'|exists k, fs]; split_and!; try done; set_solver.
    + intros (k' & fs' & [?| ->%list_elem_of_singleton]%elem_of_app & ? & ?); [left; by exists k', fs'|right; congruence].
  - intros cand Hc. apply selection_ok. intros f. etransitivity; [apply Hc|]. split.
    + intros (k & fs & Hk & ? & ?). exists k, fs. split_and!; [done|by apply Hsim|done].
    + intros (k & fs & Hk & ? & ?). exists k, fs. split_and!; try done. apply Hsim. split; [by eapply kfind_fst|done].
Qed.

Lemma is_indicator_ok sim ind : is_indicator sim ind = true <-> exists k, k ∈ sim /\ k ∈ ind.
Proof.
  unfold is_indicator. rewrite existsb_exists. setoid_rewrite existsb_exists. setoid_rewrite bool_decide_eq_true.
  setoid_rewrite <- list_elem_of_In. split; [intros (k & ? & k' & ? & ->); by exists k'|intros (k & ? & ?); exists k; eauto].
Qed.

Lemma generatePhiN_medoid2Msgs_ok msgType msg medMap msgMap :
  let med := default [] (kfind msgType medMap) in let m := default [] (kfind msgType msgMap) in
  short msg -> short_map m -> returns (generatePhiN_medoid2Msgs new_ints shuffle msgType msg medMap msgMap) (selection (indicated msg med m)).
Proof.
  intros med m Hmsg Hmap. unfold generatePhiN_medoid2Msgs. change (default [] (kfind msgType medMap)) with med.
  change (default [] (kfind msgType msgMap)) with m. cbv zeta.
  destruct (_ || _) eqn:E0.
  { apply returns_ok. split; [simpl; unfold beta; lia|]. split; [constructor|]. intros _ f (msgs & k & H1 & _ & H2 & _).
    apply orb_true_iff in E0 as [E0|E0]; apply Nat.eqb_eq, length_zero_iff_nil in E0; rewrite E0 in *; by (apply not_elem_of_nil in H1 || apply not_elem_of_nil in H2). }
  eapply returns_bind; [by apply getSimilarMessages_ok|]. intros sim [_ Hsim].
  eapply returns_bind; [apply (for_each_inv (fun pre cands => forall f, f ∈ cands <->
    exists msgs k, (f, msgs) ∈ pre /\ k ∈ msgs /\ k ∈ sim))|].
  - intros f. split; [by intros ?%not_elem_of_nil|by intros (k & fs & ?%not_elem_of_nil & _)].
  - intros pre [c ind] suf cands _ Hpre. apply returns_ok. pose proof (is_indicator_ok sim ind) as Hind.
    assert (Hstep : forall f, (exists msgs k, (f, msgs) ∈ pre ++ [(c, ind)] /\ k ∈ msgs /\ k ∈ sim) <->
      f ∈ cands \/ (f = c /\ is_indicator sim ind = true)).
    { intros f. rewrite Hpre, Hind. split.
      - intros (msgs & k & [?|[= -> ->]%list_elem_of_singleton]%elem_of_app & ? & ?); [left; eauto|right; eauto].
      - intros [(msgs & k & ? & ? & ?)|(-> & k & ? & ?)]; [exists msgs, k|exists ind, k]; split_and!; try done; set_solver. }
    intros f. rewrite Hstep. destruct (is_indicator sim ind); [rewrite elem_of_app, list_elem_of_singleton|]; intuition done.
  - intros cand Hc. apply selection_ok. intros f. etransitivity; [apply Hc|]. split.
    + intros (msgs & k & ? & ? & Hk). exists msgs, k. apply Hsim in Hk as [? ?]. done.
    + intros (msgs & k & ? & ? & ? & ?). exists msgs, k. split_and!; try done. by apply Hsim.
Qed.
End correct.

(** ** The claims *)

(** [generatePhiN] and [generatePhiN_medoid2Msgs]: for any training data, the set of
    fragments for a message is found without reaching the exit for a message that is
    missing from the map; it has at most [beta] fragments, each of a message (or of a
    cluster with an indicator message) whose edit distance is within [alpha] times the
    distance of the closest message, and if it has fewer than [beta] it has them all.
    The messages and fragments have less than 2^29 elements. *)
Theorem phiN_correct (new_ints : nat -> Z) (shuffle : list (list Z) -> list (list Z)) msgType msg msgMap medMap :
  (forall l, Permutation l (shuffle l)) ->
  let m : msgToMedoidsMap := default [] (kfind msgType (msgMap : msgType2MsgToMedoidsMap)) in
  let med : medoidToMsgsMap := default [] (kfind msgType (medMap : msgType2MedoidToMsgsMap)) in
  short msg -> short_map m ->
  returns (generatePhiN new_ints shuffle msgType msg msgMap) (selection (from_near msg m)) /\
  returns (generatePhiN_medoid2Msgs new_ints shuffle msgType msg medMap msgMap) (selection (indicated msg med m)).
Proof. intros Hs m med Hmsg Hm. split; [by apply generatePhiN_ok|by apply generatePhiN_medoid2Msgs_ok]. Qed.

(** Two messages at distances 4 and 5 are both near; one at distance 6 is not. *)
Definition sample_map : msgType2MsgToMedoidsMap :=
  [([83], [([1; 2; 3; 4], [[10; 11]]); ([1; 2; 3; 4; 5], [[10; 12]; [13]]); ([1; 2; 3; 4; 5; 6], [[14]])])].
Lemma phiN_correct_witness :
  generatePhiN (fun _ => 0) (fun l => rev l) [83] [] sample_map = Ok [[10; 11]; [10; 12]; [13]] /\
  from_near [] (default [] (kfind [83] sample_map)) [13].
Proof.
  destruct (phiN_correct (fun _ => 0) (fun l => rev l) [83] [] sample_map []) as [(r & Hr & Hsel) _];
    [intros; apply Permutation_rev|reflexivity|repeat constructor|].
  assert (E : Ok r = Ok [[10; 11]; [10; 12]; [13]]) by (rewrite <- Hr; vm_compute; reflexivity). injection E as ->.
  split; [vm_compute; reflexivity|]. destruct Hsel as (_ & Hin & _).
  by apply (Forall_lookup_1 _ _ 2 _ Hin).
Defined.

(** [getWorkerPriorityEditDistance] and [getWorkerPriorityEditDistanceWithPhiN]: the
    priority of a worker is the least edit distance from its path to a prefix of a
    fragment of the set, at most 1000000, and 1000 when the set is empty; the
    computation terminates without leaving its arrays.  The path, the message and the
    training data have less than 2^29 elements. *)
Theorem worker_priority_correct (new_ints : nat -> Z) (shuffle : list (list Z) -> list (list Z)) path PhiN msgType msg data :
  (forall l, Permutation l (shuffle l)) -> short path -> Forall short PhiN -> short msg ->
  short_map (default [] (kfind msgType (data : msgType2MsgToMedoidsMap))) ->
  let ranked PhiN r := if decide (PhiN = []) then r = 1000 else least 1000000 (prefix_distance path PhiN) r in
  returns (getWorkerPriorityEditDistanceWithPhiN new_ints path PhiN) (ranked PhiN) /\
  returns (getWorkerPriorityEditDistance new_ints shuffle path msgType msg data) (fun r =>
    exists PhiN, generatePhiN new_ints shuffle msgType msg data = Ok PhiN /\ ranked PhiN r).
Proof.
  intros Hs Hpath HPhi Hmsg Hmap ranked.
  assert (H : forall PhiN, Forall short PhiN -> returns (if (length PhiN =? 0)%nat then Ok 1000 else getMinEditDistancePrefixes new_ints path PhiN) (ranked PhiN)).
  { intros P HP. unfold ranked. destruct P as [|f P]; simpl; [by apply returns_ok|]. by apply getMinEditDistancePrefixes_ok. }
  split; [by apply H|]. unfold getWorkerPriorityEditDistance.
  destruct (generatePhiN_ok new_ints shuffle Hs msgType msg data Hmsg Hmap) as (P & -> & _ & Hin & _).
  cbn [mbind result_bind]. eapply returns_weaken; [apply H|].
  { eapply Forall_impl; [exact Hin|]. intros f (k & frags & Hk%kfind_in & _ & Hf). unfold short_map in Hmap.
    eapply Forall_forall in Hmap; [|exact Hk]. destruct Hmap as [_ Hfr]. by eapply Forall_forall in Hfr. } intros r Hr. by exists P.
Qed.

Lemma worker_priority_correct_witness :
  getWorkerPriorityEditDistance (fun _ => 0) (fun l => rev l) [9; 10] [83] [] sample_map = Ok 1 /\
  getWorkerPriorityEditDistanceWithPhiN (fun _ => 0) [9; 10] [] = Ok 1000.
Proof.
  destruct (worker_priority_correct (fun _ => 0) (fun l => rev l) [9; 10] [] [83] [] sample_map) as [(r & -> & Hr) (r' & Hr' & _)];
    [intros; apply Permutation_rev|reflexivity|constructor|reflexivity|repeat constructor|].
  split; [vm_compute; reflexivity|]. simpl in Hr. by rewrite Hr.
Defined.

(** A worker whose messages have no clusters can rank before one that has them. *)
Example empty_phiN_not_last :
  getWorkerPriorityEditDistanceWithPhiN (fun _ => 0) (replicate 1001 7) [[]] = Ok 1001 /\
  getWorkerPriorityEditDistanceWithPhiN (fun _ => 0) (replicate 1001 7) [] = Ok 1000.
Proof. split; vm_compute; reflexivity. Qed.
