(* ===== verification/Exits.v ===== *)
(** * Exits: code that can end the process

    The code under [klee/lib/Tase] calls [exit] on errors and keeps its state in globals
    and streams.  [io S A] is code over a state [S] that returns an [A]; [outcome] says
    how it ends: with a value, by [exit], or by reading something the source leaves
    uninitialised or out of range. *)

From S2P Require Import Prelude.

Inductive outcome (A : Type) := Done (a : A) | Exited (code : Z) | Undefined.
Arguments Done {A} a.
Arguments Exited {A} code.
Arguments Undefined {A}.

Definition io (St A : Type) : Type := St -> outcome (A * St).
#[export] Instance io_ret {St} : MRet (io St) := fun A a st => Done (a, st).
#[export] Instance io_bind {St} : MBind (io St) := fun A B f m st =>
  match m st with Done (a, st) => f a st | Exited c => Exited c | Undefined => Undefined end.
Definition exit {St A} (code : Z) : io St A := fun _ => Exited code.
Definition undefined {St A} : io St A := fun _ => Undefined.

(** [v\[i\]] of a vector: out of range nothing is known. *)
Definition at_index {St A} (v : list A) (i : Z) : io St A :=
  if (0 <=? i)%Z then match v !! Z.to_nat i with Some x => mret x | None => undefined end else undefined.

(** ** What code guarantees

    [safe m st P]: [m] does not depend on an undefined value, and what it returns, if it
    does not exit, satisfies [P]; [completes m st P]: it returns. *)
Definition safe {St A} (m : io St A) (st : St) (P : A -> St -> Prop) : Prop :=
  match m st with Done (a, st') => P a st' | Exited _ => True | Undefined => False end.
Definition completes {St A} (m : io St A) (st : St) (P : A -> St -> Prop) : Prop :=
  exists a st', m st = Done (a, st') /\ P a st'.

Section rules.
Context {St : Type}.

Lemma safe_ret {A} (a : A) st (P : A -> St -> Prop) : P a st -> safe (mret a) st P.
Proof. done. Qed.
Lemma safe_exit {A} c st (P : A -> St -> Prop) : safe (exit c) st P.
Proof. done. Qed.
Lemma safe_bind {A B} (m : io St A) (f : A -> io St B) st P Q :
  safe m st P -> (forall a st', P a st' -> safe (f a) st' Q) -> safe (m ≫= f) st Q.
Proof.
  unfold safe, mbind, io_bind. intros H1 H2. destruct (m st) as [[a st']| |]; [by apply H2|done|done].
Qed.
Lemma safe_ret_bind {A B} (a : A) (f : A -> io St B) st P : safe (f a) st P -> safe (mret a ≫= f) st P.
Proof. done. Qed.
Lemma safe_assoc {A B C} (m : io St A) (f : A -> io St B) (g : B -> io St C) st P :
  safe (m ≫= fun x => f x ≫= g) st P -> safe ((m ≫= f) ≫= g) st P.
Proof. unfold safe, mbind, io_bind. by destruct (m st) as [[a st']| |]. Qed.
Lemma safe_weaken {A} (m : io St A) st (P Q : A -> St -> Prop) : safe m st P -> (forall a st', P a st' -> Q a st') -> safe m st Q.
Proof. unfold safe. intros H1 H2. destruct (m st) as [[a st']| |]; [by apply H2|done|done]. Qed.
Lemma completes_safe {A} (m : io St A) st P : completes m st P -> safe m st P.
Proof. intros (a & st' & E & H). unfold safe. by rewrite E. Qed.
Lemma completes_ret {A} (a : A) st (P : A -> St -> Prop) : P a st -> completes (mret a) st P.
Proof. intros H. by exists a, st. Qed.
Lemma completes_bind {A B} (m : io St A) (f : A -> io St B) st P Q :
  completes m st P -> (forall a st', P a st' -> completes (f a) st' Q) -> completes (m ≫= f) st Q.
Proof.
  intros (a & st' & E & H) Hf. destruct (Hf a st' H) as (b & st'' & E' & H'). exists b, st''. split; [|done].
  unfold mbind, io_bind. by rewrite E.
Qed.
Lemma completes_weaken {A} (m : io St A) st (P Q : A -> St -> Prop) :
  completes m st P -> (forall a st', P a st' -> Q a st') -> completes m st Q.
Proof. intros (a & st' & E & H) HQ. exists a, st'. auto. Qed.
Lemma at_index_lookup {A} (v : list A) (k : nat) x (st : St) : v !! k = Some x -> at_index v (Z.of_nat k) st = Done (x, st).
Proof. intros H. unfold at_index. destruct (Z.leb_spec 0 (Z.of_nat k)); [|lia]. by rewrite Nat2Z.id, H. Qed.
Lemma bind_done {A B} (m : io St A) (f : A -> io St B) st a st' : m st = Done (a, st') -> (m ≫= f) st = f a st'.
Proof. intros E. unfold mbind, io_bind. by rewrite E. Qed.
End rules.
