(* ===== verification/ClusterFiles.v ===== *)
(** * ClusterFiles: the training data of the oracle

    Models the functions of [klee/lib/Tase/EditDistanceOracle.cpp] that read the files of
    clustered training data.  A file is its bytes; reading is code over the stream
    ([Exits]), in which a value that the source leaves uninitialised makes the outcome
    [Undefined].  Strings are lists of bytes. *)

From Stdlib Require Import Ascii String Sorted.
From S2P Require Import Prelude Exits EditDistanceOracle.
Local Open Scope Z_scope.

(** A string literal. *)
Definition str (s : string) : list Z := map (fun c => Z.of_N (N_of_ascii c)) (list_ascii_of_string s).
Abbreviation newline := 10.
Abbreviation comma := 44.
Abbreviation colon := 58.

(** ** Streams *)
(** [std::ifstream]: what is left, and [eofbit]. *)
Record ifstream := { rest : list Z; eof : bool }.
Abbreviation reader := (io ifstream).

(** The text before the first [sep], and what follows it. *)
Fixpoint split_at (sep : Z) (s : list Z) : list Z * option (list Z) :=
  match s with
  | [] => ([], None)
  | c :: s' => if c =? sep then ([], Some s') else let '(a, b) := split_at sep s' in (c :: a, b)
  end.
(** [std::getline(input, line)]: at the end of the file [line] keeps its value. *)
Definition getline (line : list Z) : reader (list Z) := fun st =>
  if eof st then Done (line, st)
  else match split_at newline (rest st) with
       | (l, Some r) => Done (l, {| rest := r; eof := false |})
       | (l, None) => Done (l, {| rest := []; eof := true |})
       end.

(** ** Text *)

(** [s.find(p) != npos] *)
Fixpoint is_prefix (p s : list Z) : bool :=
  match p, s with
  | [], _ => true
  | a :: p', b :: s' => (a =? b) && is_prefix p' s'
  | _ :: _, [] => false
  end.
Fixpoint contains (p s : list Z) : bool :=
  is_prefix p s || match s with [] => false | _ :: s' => contains p s' end.
(** [line.substr(line.find(":") + 1)]; [npos + 1] is 0. *)
Definition after_colon (line : list Z) : list Z :=
  match split_at colon line with (_, Some r) => r | (_, None) => line end.

Definition is_space (c : Z) : bool := (c =? 32) || ((9 <=? c) && (c <=? 13)).
Fixpoint skip_spaces (s : list Z) : list Z :=
  match s with c :: s' => if is_space c then skip_spaces s' else s | [] => [] end.
Definition sign (s : list Z) : bool * list Z :=
  match s with 45 :: s' => (true, s') | 43 :: s' => (false, s') | _ => (false, s) end.
Definition digit (base c : Z) : option Z :=
  let v := if (48 <=? c) && (c <=? 57) then c - 48
           else if (97 <=? c) && (c <=? 102) then c - 87
           else if (65 <=? c) && (c <=? 70) then c - 55 else 99 in
  if v <? base then Some v else None.
(** The digits at the front: their value, and whether there are any. *)
Fixpoint number (base : Z) (acc : Z) (s : list Z) : Z :=
  match s with
  | c :: s' => match digit base c with Some d => number base (acc * base + d) s' | None => acc end
  | [] => acc
  end.
Definition has_digit (base : Z) (s : list Z) : bool :=
  match s with c :: _ => match digit base c with Some _ => true | None => false end | [] => false end.

(** [atoi]: out of the range of [int] the behaviour is undefined. *)
Definition atoi (s : list Z) : reader Z :=
  let '(neg, s) := sign (skip_spaces s) in
  let v := if neg : bool then - number 10 0 s else number 10 0 s in
  if (- 2 ^ 31 <=? v) && (v <? 2 ^ 31) then mret v else undefined.
(** [sscanf(tok, "%hhx", &currByte)] *)
Definition hex_prefix (s : list Z) : list Z :=
  match s with 48 :: c :: s' => if (c =? 120) || (c =? 88) then s' else s | _ => s end.
Definition scan_byte (tok : list Z) : reader Z :=
  let '(neg, s) := sign (skip_spaces tok) in
  let s := hex_prefix s in
  if has_digit 16 s then
    let v := Z.min (number 16 0 s) (2 ^ 64 - 1) in
    mret (wrap 8 (if neg : bool then - v else v))
  else undefined.
(** [conv >> val] for a [uint64_t]: without a character nothing is stored, without a
    digit 0, out of range the largest value. *)
Definition scan_u64 (s : list Z) : reader Z :=
  match skip_spaces s with
  | [] => undefined
  | s => let '(neg, s) := sign s in
         let v := number 10 0 s in
         mret (if 2 ^ 64 <=? v then 2 ^ 64 - 1 else wrap 64 (if neg : bool then - v else v))
  end.

(** [for (int i = 0; i < n; i++)] *)
Fixpoint times {A} (n : nat) (body : A -> reader A) (a : A) : reader A :=
  match n with O => mret a | S n' => a ← body a; times n' body a end.
Definition for_int {A} (n : Z) (body : A -> reader A) (a : A) : reader A := times (Z.to_nat n) body a.

(** ** Fields of the files *)

(** A line with a header, and what follows the colon. *)
Definition header_line (header : list Z) : reader (list Z) :=
  line ← getline [];
  if contains header line then mret (after_colon line) else exit 1.
Definition getNextMsgType : reader (list Z) := header_line (str "MSG TYPE:").
Definition getNextMsg : reader (list Z) := header_line (str "MSG:").
Definition getMsgTypeNum : reader Z := numStr ← header_line (str "MSG TYPE NUM:"); atoi numStr.
Definition getNumEntries : reader Z := numberString ← header_line (str "NUM ENTRIES:"); atoi numberString.

(** The bytes of [line.c_str()]. *)
Definition c_str (line : list Z) : list Z := fst (split_at 0 line).
(** [strtok(..., ",")]: separators at the front are skipped. *)
Fixpoint strtok (cur : list Z) (s : list Z) : list (list Z) :=
  match s with
  | [] => match cur with [] => [] | _ => [cur] end
  | c :: s' =>
      if c =? comma then match cur with [] => strtok [] s' | _ => cur :: strtok [] s' end
      else strtok (cur ++ [c]) s'
  end.
Fixpoint scan_all {A} (scan : list Z -> reader A) (toks : list (list Z)) : reader (list A) :=
  match toks with [] => mret [] | t :: toks' => v ← scan t; vs ← scan_all scan toks'; mret (v :: vs) end.
Definition getNextMsgBytes : reader (list Z) :=
  line ← getline [];
  scan_all scan_byte (strtok [] (c_str line)).

(** [while (std::getline(stream, numStr, ','))]: nothing after a final separator. *)
Fixpoint fields (cur : list Z) (s : list Z) : list (list Z) :=
  match s with
  | [] => match cur with [] => [] | _ => [cur] end
  | c :: s' => if c =? comma then cur :: fields [] s' else fields (cur ++ [c]) s'
  end.
Definition fragVecFromString (input : list Z) : reader (list Z) := scan_all scan_u64 (fields [] input).

Definition getNextMsgs : reader (list (list Z)) :=
  msg ← header_line (str "MSGS:");
  numMsgs ← atoi msg;
  for_int numMsgs (fun msgs => msg ← getNextMsgBytes; mret (msgs ++ [msg])) [].
Definition getNextFrag : reader (list Z) := line ← getline []; fragVecFromString line.
(** [line] is shared by the header and the fragments. *)
Definition getNextFragList : reader (list (list Z)) :=
  line ← getline [];
  if contains (str "FRAGS:") line then
    numFrags ← atoi (after_colon line);
    '(_, fragList) ← for_int numFrags (fun '(line, fragList) =>
      line ← getline line; frag ← fragVecFromString line; mret (line, fragList ++ [frag])) (line, []);
    mret fragList
  else exit 1.

(** ** The files *)

(** [operator<] of vectors and strings, and [std::map::insert], which keeps an entry. *)
Fixpoint lex_ltb (a b : list Z) : bool :=
  match a, b with
  | _, [] => false
  | [], _ :: _ => true
  | x :: a', y :: b' => (x <? y) || ((x =? y) && lex_ltb a' b')
  end.
Fixpoint kinsert {V} (k : list Z) (v : V) (m : kmap (list Z) V) : kmap (list Z) V :=
  match m with
  | [] => [(k, v)]
  | (k', v') :: m' => if lex_ltb k k' then (k, v) :: m else if lex_ltb k' k then (k', v') :: kinsert k v m' else m
  end.

(** A message type with its entries, a key and a value each. *)
Definition read_type {V} (entry : reader (list Z * V)) (res : kmap (list Z) (kmap (list Z) V)) : reader (kmap (list Z) (kmap (list Z) V)) :=
  currMsgType ← getNextMsgType;
  num_map_entries ← getNumEntries;
  currMap ← for_int num_map_entries (fun currMap => '(k, v) ← entry; mret (kinsert k v currMap)) [];
  mret (kinsert currMsgType currMap res).
Definition load {V} (entry : reader (list Z * V)) : reader (kmap (list Z) (kmap (list Z) V)) :=
  num_msg_types ← getMsgTypeNum;
  for_int num_msg_types (read_type entry) [].
Definition open_file {A} (file : list Z) (load : reader A) : outcome A :=
  match file with
  | [] => Exited 0
  | _ => match load {| rest := file; eof := false |} with Done (a, _) => Done a | Exited c => Exited c | Undefined => Undefined end
  end.
Definition loadClusterMap (file : list Z) : outcome msgType2MsgToMedoidsMap :=
  open_file file (load (msg ← getNextMsgBytes; fragList ← getNextFragList; mret (msg, fragList))).
Definition loadClustermap_medoid2Msgs (file : list Z) : outcome msgType2MedoidToMsgsMap :=
  open_file file (load (medoid ← getNextFrag; msgs ← getNextMsgs; mret (medoid, msgs))).

(** ** The format *)
Definition digit_char (d : Z) : Z := if d <? 10 then 48 + d else 87 + d.
Fixpoint digits (fuel : nat) (base n : Z) : list Z :=
  match fuel with
  | O => []
  | S fuel' => if n <? base then [digit_char n] else digits fuel' base (n `div` base) ++ [digit_char (n mod base)]
  end.
(** 64 digits suffice for every number below 2^64. *)
Definition decimal (n : Z) : list Z := digits 64 10 n.
Definition hexadecimal (n : Z) : list Z := digits 64 16 n.
Fixpoint join (toks : list (list Z)) : list Z :=
  match toks with [] => [] | [t] => t | t :: toks' => t ++ comma :: join toks' end.

Definition header_text (header : string) (x : list Z) : list Z := str header ++ x ++ [newline].
Definition bytes_text (msg : list Z) : list Z := join (map hexadecimal msg) ++ [newline].
Definition frag_text (frag : list Z) : list Z := join (map decimal frag) ++ [newline].
Definition count {A} (l : list A) : list Z := decimal (Z.of_nat (length l)).
Definition msg_entry_text (e : list Z * list (list Z)) : list Z :=
  bytes_text (fst e) ++ header_text "FRAGS:" (count (snd e)) ++ concat (map frag_text (snd e)).
Definition medoid_entry_text (e : list Z * list (list Z)) : list Z :=
  frag_text (fst e) ++ header_text "MSGS:" (count (snd e)) ++ concat (map bytes_text (snd e)).
Definition type_text {V} (entry : list Z * V -> list Z) (e : list Z * kmap (list Z) V) : list Z :=
  header_text "MSG TYPE:" (fst e) ++ header_text "NUM ENTRIES:" (count (snd e)) ++ concat (map entry (snd e)).
Definition file_text {V} (entry : list Z * V -> list Z) (m : kmap (list Z) (kmap (list Z) V)) : list Z :=
  header_text "MSG TYPE NUM:" (count m) ++ concat (map (type_text entry) m).

(** *** Digits *)
Definition plain (c : Z) : Prop := 48 <= c <= 57 \/ 97 <= c <= 102.

Lemma digit_char_ok base d : 0 <= d < base -> base <= 16 ->
  digit base (digit_char d) = Some d /\ plain (digit_char d).
Proof.
  intros Hd Hb. unfold digit, digit_char, plain. destruct (Z.ltb_spec d 10).
  - split; [|lia]. replace ((48 <=? 48 + d) && (48 + d <=? 57)) with true by lia. replace (48 + d - 48 <? base) with true by lia. f_equal; lia.
  - split; [|lia]. replace ((48 <=? 87 + d) && (87 + d <=? 57)) with false by lia.
    replace ((97 <=? 87 + d) && (87 + d <=? 102)) with true by lia. replace (87 + d - 87 <? base) with true by lia. f_equal; lia.
Qed.

Lemma number_digits fuel base n r : 2 <= base <= 16 -> 0 <= n < base ^ Z.of_nat fuel -> (0 < fuel)%nat -> forall acc,
  exists e, number base acc (digits fuel base n ++ r) = number base (acc * e + n) r.
Proof.
  intros Hb. revert n r. induction fuel as [|fuel IH]; intros n r Hn Hf acc; [lia|]. cbn [digits]. destruct (Z.ltb_spec n base).
  - exists base. cbn [app number]. by destruct (digit_char_ok base n ltac:(lia) ltac:(lia)) as [-> _].
  - assert (Hdm := Z.div_mod n base ltac:(lia)). assert (Hmod := Z.mod_pos_bound n base ltac:(lia)).
    rewrite Nat2Z.inj_succ, Z.pow_succ_r in Hn by lia.
    assert (Hq : 0 <= n `div` base < base ^ Z.of_nat fuel) by (split; [apply Z.div_pos; lia|apply Z.div_lt_upper_bound; lia]).
    assert (0 < fuel)%nat by (destruct fuel; [simpl in Hq; nia|lia]).
    destruct (IH (n `div` base) ([digit_char (n mod base)] ++ r) Hq ltac:(done) acc) as [e He]. exists (e * base).
    rewrite <- app_assoc, He. cbn [app number]. destruct (digit_char_ok base (n mod base) ltac:(lia) ltac:(lia)) as [-> _]. f_equal. nia.
Qed.

Lemma digits_plain fuel base n : 2 <= base <= 16 -> 0 <= n -> Forall plain (digits fuel base n).
Proof.
  intros Hb. revert n. induction fuel as [|fuel IH]; intros n Hn; [constructor|]. cbn [digits]. destruct (Z.ltb_spec n base).
  - constructor; [|constructor]. apply (digit_char_ok base); lia.
  - apply Forall_app. split; [apply IH, Z.div_pos; lia|]. constructor; [|constructor]. apply (digit_char_ok base); [|lia]. apply Z.mod_pos_bound. lia.
Qed.
Lemma digits_head fuel base n : 2 <= base <= 16 -> 0 <= n < base ^ Z.of_nat fuel -> (0 < fuel)%nat ->
  exists c l, digits fuel base n = c :: l /\ is_Some (digit base c).
Proof.
  intros Hb. revert n. induction fuel as [|fuel IH]; intros n Hn Hf; [lia|]. cbn [digits]. destruct (Z.ltb_spec n base).
  - exists (digit_char n), []. split; [done|]. destruct (digit_char_ok base n ltac:(lia) ltac:(lia)) as [-> _]. by eexists.
  - rewrite Nat2Z.inj_succ, Z.pow_succ_r in Hn by lia.
    assert (Hq : 0 <= n `div` base < base ^ Z.of_nat fuel) by (split; [apply Z.div_pos; lia|apply Z.div_lt_upper_bound; lia]).
    assert (0 < fuel)%nat by (destruct fuel; [simpl in Hq; assert (n `div` base = 0) by lia; apply Z.div_small_iff in H0; lia|lia]).
    destruct (IH _ Hq ltac:(done)) as (c & l & -> & Hc). by exists c, (l ++ [digit_char (n mod base)]).
Qed.

(** A number as it is printed, before any separator. *)
Record printed (base n : Z) (tok : list Z) : Prop := {
  printed_plain : Forall plain tok;
  printed_number : number base 0 tok = n;
  printed_head : exists c l, tok = c :: l /\ is_Some (digit base c);
}.
Lemma digits_printed base n : 10 <= base <= 16 -> 0 <= n < 2 ^ 64 -> printed base n (digits 64 base n).
Proof.
  intros Hb Hn. assert (Hlt : n < base ^ Z.of_nat 64).
  { eapply Z.lt_le_trans; [apply Hn|]. change (Z.of_nat 64) with 64. apply Z.pow_le_mono_l. lia. }
  split; [apply digits_plain; lia| |apply digits_head; lia].
  destruct (number_digits 64 base n [] ltac:(lia) ltac:(lia) ltac:(lia) 0) as [e He]. rewrite app_nil_r in He. rewrite He. cbn [number]. lia.
Qed.

(** *** Tokens *)
Ltac plain_cases H :=
  match type of H with plain ?c => unfold plain in H; destruct H end.

Lemma skip_spaces_plain tok : Forall plain tok -> skip_spaces tok = tok.
Proof.
  intros H. destruct tok as [|c l]; [done|]. apply Forall_cons in H as [Hc _]. simpl.
  assert (is_space c = false) as -> by (unfold is_space; plain_cases Hc; lia). done.
Qed.
Lemma sign_plain tok : Forall plain tok -> sign tok = (false, tok).
Proof.
  intros H. destruct tok as [|c l]; [done|]. apply Forall_cons in H as [Hc _]. unfold sign.
  assert (c <> 45 /\ c <> 43) as [? ?] by (plain_cases Hc; lia).
  destruct c as [|p|p]; try done. do 6 (destruct p as [p|p|]; try done).
Qed.
Lemma hex_prefix_plain tok : Forall plain tok -> hex_prefix tok = tok.
Proof.
  intros H. destruct tok as [|c [|c' l]]; [done|by destruct c; repeat (destruct p; try done)|].
  apply Forall_cons in H as [_ [Hc _]%Forall_cons]. unfold hex_prefix.
  assert ((c' =? 120) || (c' =? 88) = false) as Hx by (plain_cases Hc; lia). rewrite Hx.
  destruct c as [|p|p]; try done. do 6 (destruct p as [p|p|]; try done).
Qed.
Lemma has_digit_printed base n tok : printed base n tok -> has_digit base tok = true.
Proof. intros [_ _ (c & l & -> & [d Hd])]. simpl. by rewrite Hd. Qed.

Lemma atoi_printed n tok st : printed 10 n tok -> 0 <= n < 2 ^ 31 -> atoi tok st = Done (n, st).
Proof.
  intros Hp Hn. unfold atoi. destruct Hp as [H1 H2 _]. rewrite skip_spaces_plain, sign_plain by done. rewrite H2.
  assert ((- 2 ^ 31 <=? n) && (n <? 2 ^ 31) = true) as -> by lia. done.
Qed.
Lemma scan_byte_printed n tok st : printed 16 n tok -> 0 <= n < 256 -> scan_byte tok st = Done (n, st).
Proof.
  intros Hp Hn. unfold scan_byte. pose proof (has_digit_printed _ _ _ Hp) as Hd. destruct Hp as [H1 H2 _].
  rewrite skip_spaces_plain, sign_plain, hex_prefix_plain, Hd, H2 by done. rewrite Z.min_l by lia.
  unfold wrap. by rewrite Z.mod_small by lia.
Qed.
Lemma scan_u64_printed n tok st : printed 10 n tok -> 0 <= n < 2 ^ 64 -> scan_u64 tok st = Done (n, st).
Proof.
  intros [H1 H2 (c & l & -> & _)] Hn. unfold scan_u64. rewrite skip_spaces_plain, sign_plain by done. rewrite H2.
  destruct (Z.leb_spec (2 ^ 64) n); [lia|]. unfold wrap. by rewrite Z.mod_small by lia.
Qed.

Lemma scan_all_ok {A} (scan : list Z -> reader A) (text : A -> list Z) vs st :
  Forall (fun v => forall st, scan (text v) st = Done (v, st)) vs -> scan_all scan (map text vs) st = Done (vs, st).
Proof.
  induction 1 as [|v vs Hv _ IH]; [done|]. simpl. unfold mbind, io_bind. by rewrite Hv, IH.
Qed.

(** A token has characters, none of them a separator. *)
Definition token (tok : list Z) : Prop := tok <> [] /\ Forall plain tok.
Lemma strtok_token cur tok s : Forall plain tok -> strtok cur (tok ++ s) = strtok (cur ++ tok) s.
Proof.
  intros H. revert cur. induction H as [|c tok Hc _ IH]; intros cur; [by rewrite app_nil_r|]. simpl.
  assert (c =? comma = false) as -> by (plain_cases Hc; lia). rewrite IH. by rewrite <- app_assoc.
Qed.
Lemma fields_token cur tok s : Forall plain tok -> fields cur (tok ++ s) = fields (cur ++ tok) s.
Proof.
  intros H. revert cur. induction H as [|c tok Hc _ IH]; intros cur; [by rewrite app_nil_r|]. simpl.
  assert (c =? comma = false) as -> by (plain_cases Hc; lia). rewrite IH. by rewrite <- app_assoc.
Qed.
Lemma tokens_join toks : Forall token toks -> strtok [] (join toks) = toks /\ fields [] (join toks) = toks.
Proof.
  induction 1 as [|t toks [Hne Ht] _ [IH1 IH2]]; [done|].
  assert (Hlast : strtok t [] = [t] /\ fields t [] = [t]) by (by destruct t).
  destruct toks as [|t' toks].
  - cbn [join]. rewrite <- (app_nil_r t) at 1 3. by rewrite strtok_token, fields_token.
  - change (join (t :: t' :: toks)) with (t ++ comma :: join (t' :: toks)).
    rewrite strtok_token, fields_token by done. cbn [strtok fields app]. rewrite Z.eqb_refl, IH1, IH2. by destruct t.
Qed.
Lemma join_chars (P : Z -> Prop) toks : P comma -> Forall (Forall P) toks -> Forall P (join toks).
Proof.
  intros Hc. induction 1 as [|t toks Ht Hts IH]; [constructor|]. destruct toks as [|t' toks]; [done|].
  change (join (t :: t' :: toks)) with (t ++ comma :: join (t' :: toks)). apply Forall_app. split; [done|]. by constructor.
Qed.

(** ** Reading what was printed *)
Definition reads {A} (r : reader A) (text : list Z) (a : A) : Prop := forall tail,
  r {| rest := text ++ tail; eof := false |} = Done (a, {| rest := tail; eof := false |}).

Lemma reads_ret {A} (a : A) : reads (mret a) [] a.
Proof. done. Qed.
Lemma reads_bind {A B} (r : reader A) (f : A -> reader B) t1 t2 a b :
  reads r t1 a -> reads (f a) t2 b -> reads (r ≫= f) (t1 ++ t2) b.
Proof. intros H1 H2 tail. unfold mbind, io_bind. by rewrite <- app_assoc, H1, H2. Qed.
Lemma reads_pure {A B} (r : reader A) (f : A -> reader B) t a b :
  reads (f a) t b -> (forall st, r st = Done (a, st)) -> reads (r ≫= f) t b.
Proof. intros H2 H1 tail. unfold mbind, io_bind. by rewrite H1, H2. Qed.
Lemma reads_map {A B} (r : reader A) (f : A -> reader B) t a b :
  reads r t a -> (forall st, f a st = Done (b, st)) -> reads (r ≫= f) t b.
Proof. intros H1 H2 tail. unfold mbind, io_bind. by rewrite H1, H2. Qed.

(** A loop that reads the elements of a list in turn. *)
Lemma reads_times {A X} (l : list X) (text : X -> list Z) (acc : list X -> A) body :
  (forall pre x suf, l = pre ++ x :: suf -> reads (body (acc pre)) (text x) (acc (pre ++ [x]))) ->
  reads (for_int (Z.of_nat (length l)) body (acc [])) (concat (map text l)) (acc l).
Proof.
  unfold for_int. rewrite Nat2Z.id. intros H.
  assert (Hgen : forall suf pre, l = pre ++ suf -> reads (times (length suf) body (acc pre)) (concat (map text suf)) (acc l)).
  { induction suf as [|x suf IH]; intros pre E; simpl; [rewrite E, app_nil_r; apply reads_ret|].
    eapply reads_bind; [by apply (H pre x suf)|]. apply IH. rewrite E. by rewrite <- app_assoc. }
  by apply (Hgen l []).
Qed.

Lemma split_at_app sep l r : Forall (fun c => c <> sep) l -> split_at sep (l ++ sep :: r) = (l, Some r).
Proof.
  induction 1 as [|c l Hc _ IH]; simpl; [by rewrite Z.eqb_refl|]. apply Z.eqb_neq in Hc as ->. by rewrite IH.
Qed.
Lemma split_at_none sep l : Forall (fun c => c <> sep) l -> split_at sep l = (l, None).
Proof. induction 1 as [|c l Hc _ IH]; simpl; [done|]. apply Z.eqb_neq in Hc as ->. by rewrite IH. Qed.
Lemma getline_reads line l : Forall (fun c => c <> newline) l -> reads (getline line) (l ++ [newline]) l.
Proof. intros Hl tail. unfold getline. cbn [eof rest]. rewrite <- app_assoc. cbn [app]. by rewrite split_at_app. Qed.

(** Lines have no newline in them; a message type is one. *)
Abbreviation one_line := (Forall (fun c => c <> newline)).
Definition short {A} (l : list A) : Prop := Z.of_nat (length l) < 2 ^ 31.

Lemma plain_one_line l : Forall plain l -> one_line l.
Proof. intros H. eapply Forall_impl; [exact H|]. intros c Hc. plain_cases Hc; lia. Qed.
Lemma count_printed {A} (l : list A) : short l -> printed 10 (Z.of_nat (length l)) (count l).
Proof. intros H. unfold short in H. apply digits_printed; lia. Qed.

(** The headers: found in their line, the first colon at their end. *)
Definition is_header (h : string) : Prop :=
  one_line (str h) /\ forall x, contains (str h) (str h ++ x) = true /\ after_colon (str h ++ x) = x.
Ltac header := split; [repeat constructor; done|intros x; split; reflexivity].

Lemma header_reads h x : is_header h -> one_line x -> reads (header_line (str h)) (header_text h x) x.
Proof.
  intros [H1 H2] Hx. unfold header_line, header_text. rewrite app_assoc.
  eapply reads_map; [apply getline_reads, Forall_app; by split|]. intros st. destruct (H2 x) as [-> ->]. done.
Qed.
Lemma count_reads {A} h (l : list A) : is_header h -> short l ->
  reads (x ← header_line (str h); atoi x) (header_text h (count l)) (Z.of_nat (length l)).
Proof.
  intros Hh Hl. pose proof (count_printed l Hl) as Hc.
  eapply reads_map; [apply header_reads; [done|apply plain_one_line, Hc]|].
  intros st. unfold short in Hl. by apply atoi_printed; [|lia].
Qed.

(** *** Messages and fragments *)
Definition msg_ok (msg : list Z) : Prop := Forall (fun b => 0 <= b < 256) msg.
Definition frag_ok (frag : list Z) : Prop := Forall (fun v => 0 <= v < 2 ^ 64) frag.

Lemma printed_token base n tok : printed base n tok -> token tok.
Proof. intros [H1 _ (c & l & -> & _)]. by split. Qed.
Lemma tokens_one_line toks : Forall token toks -> one_line (join toks) /\ Forall (fun c => c <> 0) (join toks).
Proof.
  intros H. split; (apply join_chars; [lia|]); eapply Forall_impl; try exact H; intros t [_ Ht];
    eapply Forall_impl; try exact Ht; intros c Hc; plain_cases Hc; lia.
Qed.

Lemma msg_reads msg : msg_ok msg -> reads getNextMsgBytes (bytes_text msg) msg.
Proof.
  intros H. assert (Ht : Forall token (map hexadecimal msg)).
  { apply Forall_map. eapply Forall_impl; [exact H|]. intros b Hb. cbv beta in Hb. eapply printed_token, (digits_printed 16); lia. }
  destruct (tokens_one_line _ Ht) as [H1 H2]. unfold getNextMsgBytes, bytes_text. eapply reads_map; [by apply getline_reads|].
  intros st. unfold c_str. rewrite split_at_none by done. cbn [fst]. rewrite (proj1 (tokens_join _ Ht)).
  apply scan_all_ok. eapply Forall_impl; [exact H|]. intros b Hb st'. cbv beta in Hb. apply scan_byte_printed; [|done]. apply digits_printed; lia.
Qed.

Lemma frag_tokens frag : frag_ok frag -> Forall token (map decimal frag).
Proof. intros H. apply Forall_map. eapply Forall_impl; [exact H|]. intros b Hb. cbv beta in Hb. eapply printed_token, (digits_printed 10); lia. Qed.
Lemma frag_scan frag st : frag_ok frag -> fragVecFromString (join (map decimal frag)) st = Done (frag, st).
Proof.
  intros H. unfold fragVecFromString. rewrite (proj2 (tokens_join _ (frag_tokens _ H))). apply scan_all_ok.
  eapply Forall_impl; [exact H|]. intros b Hb st'. cbv beta in Hb. apply scan_u64_printed; [|done]. apply digits_printed; lia.
Qed.
Lemma frag_line_reads line frag : frag_ok frag -> reads (getline line) (frag_text frag) (join (map decimal frag)).
Proof. intros H. apply getline_reads, tokens_one_line, frag_tokens, H. Qed.
Lemma frag_reads frag : frag_ok frag -> reads getNextFrag (frag_text frag) frag.
Proof. intros H. eapply reads_map; [by apply frag_line_reads|]. intros st. by apply frag_scan. Qed.

Lemma msgs_reads msgs : short msgs -> Forall msg_ok msgs ->
  reads getNextMsgs (header_text "MSGS:" (count msgs) ++ concat (map bytes_text msgs)) msgs.
Proof.
  intros Hs H. unfold getNextMsgs.
  assert (Hassoc : forall (r : reader (list Z)) (f : list Z -> reader Z) (g : Z -> reader (list (list Z))) t a,
    reads ((r ≫= f) ≫= g) t a -> reads (r ≫= fun x => f x ≫= g) t a).
  { intros r f g t a Hr tail. specialize (Hr tail). unfold mbind, io_bind in *. by destruct (r _) as [[]| |]. }
  apply Hassoc. eapply reads_bind; [apply count_reads; [header|done]|].
  apply (reads_times msgs bytes_text (fun pre => pre)). intros pre msg suf E.
  eapply reads_map; [apply msg_reads|done]. rewrite E in H. by apply Forall_app in H as [_ [? _]%Forall_cons].
Qed.

Lemma frags_reads frags : short frags -> Forall frag_ok frags ->
  reads getNextFragList (header_text "FRAGS:" (count frags) ++ concat (map frag_text frags)) frags.
Proof.
  intros Hs H. assert (Hh : is_header "FRAGS:") by header. destruct Hh as [H1 H2]. pose proof (count_printed frags Hs) as Hc.
  unfold getNextFragList, header_text. rewrite (app_assoc (str _)).
  eapply reads_bind; [apply getline_reads, Forall_app; split; [done|]; apply plain_one_line, Hc|].
  destruct (H2 (count frags)) as [-> ->]. eapply reads_pure; [|intros st; apply atoi_printed; [done|unfold short in Hs; lia]].
  set (line := str "FRAGS:" ++ count frags).
  eapply reads_map; [apply (reads_times frags frag_text
    (fun pre => (match last pre with Some f => join (map decimal f) | None => line end, pre)))|done].
  intros pre f suf E. assert (Hf : frag_ok f) by (rewrite E in H; by apply Forall_app in H as [_ [? _]%Forall_cons]).
  rewrite last_snoc. eapply reads_map; [by apply frag_line_reads|]. intros st. unfold mbind, io_bind. by rewrite frag_scan.
Qed.

(** *** Maps *)
Abbreviation key_lt := (fun e e' => lex_ltb (fst e) (fst e') = true).
Definition ordered {V} (m : kmap (list Z) V) : Prop := StronglySorted key_lt m.

Lemma lex_asym a b : lex_ltb a b = true -> lex_ltb b a = false.
Proof.
  revert b. induction a as [|x a IH]; intros [|y b]; simpl; try done. intros H.
  apply orb_true_iff in H as [H|[H1 H2]%andb_true_iff].
  - replace (y <? x) with false by lia. by replace (y =? x) with false by lia.
  - apply IH in H2. rewrite H2, andb_false_r. by replace (y <? x) with false by lia.
Qed.
Lemma kinsert_last {V} k (v : V) m : Forall (fun e => lex_ltb (fst e) k = true) m -> kinsert k v m = m ++ [(k, v)].
Proof.
  induction 1 as [|[k' v'] m Hk _ IH]; [done|]. simpl in *. by rewrite (lex_asym _ _ Hk), Hk, IH.
Qed.
Lemma ordered_before {V} (pre : kmap (list Z) V) e suf : ordered (pre ++ e :: suf) ->
  Forall (fun e' => lex_ltb (fst e') (fst e) = true) pre.
Proof.
  induction pre as [|e' pre IH]; intros H; [constructor|]. apply StronglySorted_inv in H as [H1 H2]. constructor; [|by apply IH].
  by apply Forall_app in H2 as [_ [? _]%Forall_cons].
Qed.

Section load.
Context {V : Type} (entry : reader (list Z * V)) (text : list Z * V -> list Z) (entry_ok : list Z * V -> Prop).
Hypothesis Hentry : forall e, entry_ok e -> reads entry (text e) e.

Definition type_ok (e : list Z * kmap (list Z) V) : Prop :=
  one_line (fst e) /\ short (snd e) /\ ordered (snd e) /\ Forall entry_ok (snd e).
Definition data_ok (m : kmap (list Z) (kmap (list Z) V)) : Prop := short m /\ ordered m /\ Forall type_ok m.

Lemma entries_reads m : ordered m -> Forall entry_ok m ->
  reads (for_int (Z.of_nat (length m)) (fun cur => '(k, v) ← entry; mret (kinsert k v cur)) []) (concat (map text m)) m.
Proof.
  intros Ho He. apply (reads_times m text (fun pre => pre)). intros pre [k v] suf E. rewrite E in *.
  apply Forall_app in He as [_ [He _]%Forall_cons]. eapply reads_map; [by apply Hentry|]. intros st. cbv beta iota.
  by rewrite kinsert_last by (by apply ordered_before in Ho).
Qed.

Lemma types_reads m : ordered m -> Forall type_ok m ->
  reads (times (length m) (read_type entry) []) (concat (map (type_text text) m)) m.
Proof.
  intros Ho Ht. pose proof (reads_times m (type_text text) (fun pre => pre) (read_type entry)) as H. unfold for_int in H.
  rewrite Nat2Z.id in H. apply H. intros pre [ty cur] suf E. rewrite E in *.
  apply Forall_app in Ht as [_ [(T1 & T2 & T3 & T4) _]%Forall_cons]. simpl in *. unfold type_text. cbn [fst snd].
  eapply reads_bind; [apply header_reads; [header|done]|]. eapply reads_bind; [apply count_reads; [header|done]|].
  eapply reads_map; [by apply entries_reads|]. intros st. cbv beta iota. by rewrite kinsert_last by (by apply ordered_before in Ho).
Qed.

Lemma load_reads m : data_ok m -> reads (load entry) (file_text text m) m.
Proof.
  intros (Hs & Ho & Ht). unfold load, file_text. eapply reads_bind; [apply count_reads; [header|done]|].
  unfold for_int. rewrite Nat2Z.id. by apply types_reads.
Qed.

Lemma times_app {A} a b (body : A -> reader A) x st : times (a + b) body x st = (times a body x ≫= times b body) st.
Proof.
  revert x st. induction a as [|a IH]; intros x st; [done|]. simpl. unfold mbind, io_bind in *.
  by destruct (body x st) as [[y st']| |].
Qed.

(** Fewer message types than announced. *)
Lemma load_truncated (n : list nat) m : short n -> (length m < length n)%nat -> ordered m -> Forall type_ok m ->
  load entry {| rest := header_text "MSG TYPE NUM:" (count n) ++ concat (map (type_text text) m); eof := false |} = Exited 1.
Proof.
  intros Hn Hlt Ho Ht. unfold load, mbind, io_bind at 1.
  rewrite (count_reads "MSG TYPE NUM:" n ltac:(header) Hn).
  unfold for_int. rewrite Nat2Z.id. replace (length n) with (length m + S (length n - length m - 1))%nat by lia.
  change (times (length m + S (length n - length m - 1)) (read_type entry) [] {| rest := concat (map (type_text text) m); eof := false |} = Exited 1).
  rewrite times_app. unfold mbind, io_bind.
  pose proof (types_reads m Ho Ht []) as H. rewrite app_nil_r in H. by rewrite H.
Qed.
End load.

(** ** The claims *)
Definition msg_entry_ok (e : list Z * list (list Z)) : Prop := msg_ok (fst e) /\ short (snd e) /\ Forall frag_ok (snd e).
Definition medoid_entry_ok (e : list Z * list (list Z)) : Prop := frag_ok (fst e) /\ short (snd e) /\ Forall msg_ok (snd e).

Lemma open_file_text {A} file (load : reader A) a : file <> [] -> reads load file a -> open_file file load = Done a.
Proof.
  intros Hf H. unfold open_file. destruct file; [done|]. specialize (H []). rewrite app_nil_r in H. by rewrite H.
Qed.

(** [loadClusterMap] and [loadClustermap_medoid2Msgs]: training data printed in the
    format of the files is loaded unchanged: message types that are single lines,
    messages of bytes in hexadecimal, fragments of 64-bit numbers in decimal, in the
    order of the keys of the maps, empty messages, fragments, lists and maps
    included. *)
Theorem load_roundtrip msgs medoids :
  data_ok msg_entry_ok msgs -> data_ok medoid_entry_ok medoids ->
  loadClusterMap (file_text msg_entry_text msgs) = Done msgs /\
  loadClustermap_medoid2Msgs (file_text medoid_entry_text medoids) = Done medoids.
Proof.
  intros H1 H2. split; (apply open_file_text; [by unfold file_text, header_text|]).
  - apply (load_reads _ _ msg_entry_ok); [|done]. intros [k v] (? & ? & ?). unfold msg_entry_text. cbn [fst snd] in *.
    eapply reads_bind; [by apply msg_reads|]. by eapply reads_map; [apply frags_reads|].
  - apply (load_reads _ _ medoid_entry_ok); [|done]. intros [k v] (? & ? & ?). unfold medoid_entry_text. cbn [fst snd] in *.
    eapply reads_bind; [by apply frag_reads|]. by eapply reads_map; [apply msgs_reads|].
Qed.

Lemma load_roundtrip_witness :
  loadClusterMap (file_text msg_entry_text [(str "ENTRY,SEND,", []); (str "SEND,SEND,", [([], []); ([22; 3; 255], [[]; [4198400; 2 ^ 64 - 1]])])]) =
    Done [(str "ENTRY,SEND,", []); (str "SEND,SEND,", [([], []); ([22; 3; 255], [[]; [4198400; 2 ^ 64 - 1]])])].
Proof.
  apply (load_roundtrip _ []).
  - split; [done|]. split; [repeat constructor|]. repeat constructor; simpl; try done.
  - split; [done|]. split; constructor.
Defined.

(** Errors of [loadClusterMap] and [loadClustermap_medoid2Msgs]: an empty file ends
    the process with status 0; a file whose first line is not the number of message
    types, and a file that announces more message types than it has, end it with a
    failure. *)
Theorem load_errors {V} (entry : reader (list Z * V)) text entry_ok (file : list Z) (announced : list nat) m :
  (forall e, entry_ok e -> reads entry (text e) e) ->
  contains (str "MSG TYPE NUM:") (fst (split_at newline file)) = false ->
  short announced -> (length m < length announced)%nat -> ordered m -> Forall (type_ok entry_ok) m ->
  open_file file (load entry) = Exited (if decide (file = []) then 0 else 1) /\
  open_file (header_text "MSG TYPE NUM:" (count announced) ++ concat (map (type_text text) m)) (load entry) = Exited 1.
Proof.
  intros He Hc Hs Hlt Ho Ht. split.
  - unfold open_file. destruct file as [|c file]; [done|]. rewrite decide_False by done.
    assert (H : load entry {| rest := c :: file; eof := false |} = Exited 1); [|by rewrite H].
    unfold load, getMsgTypeNum, header_line, getline, mbind, io_bind. cbn [eof rest].
    destruct (split_at newline (c :: file)) as [l [r|]]; cbn [fst] in Hc; by rewrite Hc.
  - pose proof (load_truncated entry text entry_ok He announced m Hs Hlt Ho Ht) as H. unfold open_file.
    destruct (_ ++ _) as [|c l] eqn:E; [done|]. by rewrite H.
Qed.

Lemma load_errors_witness :
  loadClusterMap (str "MSG TYPE:SEND,") = Exited 1 /\
  loadClusterMap (header_text "MSG TYPE NUM:" (count (replicate 2 0%nat)) ++ concat (map (type_text msg_entry_text) [(str "SEND,SEND,", [([1], [[2]])])])) = Exited 1.
Proof.
  apply (load_errors (msg ← getNextMsgBytes; fragList ← getNextFragList; mret (msg, fragList)) msg_entry_text (fun e => e = ([1], [[2]]))
    (str "MSG TYPE:SEND,") (replicate 2 0%nat) [(str "SEND,SEND,", [([1], [[2]])])]);
    [|reflexivity|reflexivity|simpl; lia|repeat constructor|repeat constructor; simpl; done].
  intros e ->. intros tail. reflexivity.
Defined.

(** At the end of the file the missing fragments of a list are copies of the last. *)
Example truncated_fragments : exists f, f = str "FRAGS:3" ++ [newline] ++ str "1,2" /\
  getNextFragList {| rest := f; eof := false |} = Done ([[1; 2]; [1; 2]; [1; 2]], {| rest := []; eof := true |}).
Proof. eexists. split; [reflexivity|]. vm_compute. reflexivity. Qed.
