(* ===== verification/KTest.v ===== *)
(** * KTest: recorded sessions

    Models [klee/lib/Basic/KTest.cpp]: the format of the files of recorded sessions, the
    vector of recorded objects, and the functions that stand for the system calls of the
    program under test, which pass through, record, or play back.  Also the two functions
    that look ahead in a recording, [peekNextNetworkMessage] of
    [klee/lib/Tase/TASESSLVerModels.cpp] and [getNextNetworkMsgType] of
    [klee/lib/Tase/TASEControl.cpp].

    A file is its bytes.  Whether an allocation call_succeeds and what the operating system
    returns are parameters.  [TASE_OPENSSL] is taken to be defined.  [select], output for
    debugging and [ktest_time]'s clock are left out. *)

From Stdlib Require Import Ascii String Permutation.
From S2P Require Import Prelude Exits.
Local Open Scope Z_scope.

Definition bytes_of (s : string) : list Z := map (fun c => Z.of_N (N_of_ascii c)) (list_ascii_of_string s).

(** ** Data *)
Inductive kTestMode := KTEST_NONE | KTEST_RECORD | KTEST_PLAYBACK.

(** [numBytes] is the length of [bytes]. *)
Record KTestObject := { name : list Z; tv_sec : Z; tv_usec : Z; bytes : list Z }.
#[export] Instance KTestObject_eq_dec : EqDecision KTestObject.
Proof. solve_decision. Defined.

(** [numArgs] and [numObjects] are the lengths of the lists. *)
Record KTest := { version : Z; args : list (list Z); symArgvs : Z; symArgvLen : Z; objects : list KTestObject }.

Definition KTEST_VERSION : Z := 4.
Definition KTEST_MAGIC : list Z := bytes_of "KTEST".
Definition BOUT_MAGIC : list Z := bytes_of "BOUT" ++ [10].

(** A C string ends at its first zero; [strcmp(a, b) == 0] compares up to there. *)
Fixpoint cstr (s : list Z) : list Z := match s with [] => [] | c :: s => if c =? 0 then [] else c :: cstr s end.
Definition streq (a b : list Z) : bool := bool_decide (cstr a = cstr b).

(** ** Reading *)

(** What a function that reads from a file does: it fails, it writes outside the memory
    it allocated, or it returns a value and leaves the rest of the file. *)
Inductive reading (A : Type) := Failed | Overrun | Got (a : A) (rest : list Z).
Arguments Failed {A}.
Arguments Overrun {A}.
Arguments Got {A} a rest.
Definition reader (A : Type) : Type := list Z -> reading A.
#[export] Instance reader_ret : MRet reader := fun A a s => Got a s.
#[export] Instance reader_bind : MBind reader := fun A B f m s =>
  match m s with Got a s => f a s | Failed => Failed | Overrun => Overrun end.
Definition failed {A} : reader A := fun _ => Failed.
(** [fread] into memory that is not there. *)
Definition overrun {A} : reader A := fun s => match s with [] => Failed | _ => Overrun end.

(** [fread(data, n, 1, f) == 1]: a read of no bytes reads no item. *)
Definition fread1 (n : Z) : reader (list Z) := fun s =>
  if (n =? 0) || (Z.of_nat (length s) <? n) then Failed else Got (take (Z.to_nat n) s) (drop (Z.to_nat n) s).

(** The bytes of a number, most significant first. *)
Definition int32 (z : Z) : Z := sgn 32 (wrap 32 z).
Definition be_int (data : list Z) : Z := fold_left (fun acc d => int32 (int32 (acc * 256) + d)) data 0.

Definition read_uint32 : reader Z := data ← fread1 4; mret (u32 (be_int data)).
(** The shifts are on [int], and the sum is converted at the end. *)
Definition read_uint64 : reader Z := data ← fread1 8; mret (u64 (be_int data)).

Section reading.
Variable malloc : Z -> bool.   (* whether a block of the size can be had *)

Definition read_string : reader (list Z) :=
  len ← read_uint32;
  if negb (malloc (u32 (len + 1))) then failed
  else if len + 1 =? 2 ^ 32 then overrun
  else fread1 len.

Definition kTest_checkHeader : reader unit :=
  header ← fread1 5;
  if bool_decide (header = KTEST_MAGIC) || bool_decide (header = BOUT_MAGIC) then mret tt else failed.

Fixpoint repeat_read {A} (n : nat) (r : reader A) : reader (list A) :=
  match n with O => mret [] | S n => x ← r; xs ← repeat_read n r; mret (x :: xs) end.

(** The loop over the objects; [calloc] has cleared the time. *)
Definition read_object (version : Z) : reader KTestObject :=
  name ← read_string;
  sec ← (if 4 <=? version then read_uint64 else mret 0);
  usec ← (if 4 <=? version then read_uint64 else mret 0);
  numBytes ← read_uint32;
  if numBytes =? 0 then mret {| name := name; tv_sec := sec; tv_usec := usec; bytes := [] |}
  else if negb (malloc numBytes) then overrun
  else data ← fread1 numBytes; mret {| name := name; tv_sec := sec; tv_usec := usec; bytes := data |}.

Definition kTest_read : reader KTest :=
  _ ← kTest_checkHeader;
  version ← read_uint32;
  if KTEST_VERSION <? version then failed
  else
    numArgs ← read_uint32;
    if negb (malloc (numArgs * 8)) then failed
    else
      args ← repeat_read (Z.to_nat numArgs) read_string;
      symArgvs ← (if 2 <=? version then read_uint32 else mret 0);
      symArgvLen ← (if 2 <=? version then read_uint32 else mret 0);
      numObjects ← read_uint32;
      if negb (malloc (numObjects * 40)) then failed
      else
        objects ← repeat_read (Z.to_nat numObjects) (read_object version);
        mret {| version := version; args := args; symArgvs := symArgvs; symArgvLen := symArgvLen; objects := objects |}.

(** [kTest_fromFile] of a file that can be opened: [Done None] is the null pointer. *)
Definition kTest_fromFile (file : list Z) : outcome (option KTest) :=
  match kTest_read file with Got k _ => Done (Some k) | Failed => Done None | Overrun => Undefined end.
Definition kTest_isKTestFile (file : list Z) : bool := match kTest_checkHeader file with Got _ _ => true | _ => false end.
End reading.

(** ** Writing *)
Definition byte (z : Z) : Z := wrap 8 z.
Definition be32 (v : Z) : list Z := [byte (Z.shiftr v 24); byte (Z.shiftr v 16); byte (Z.shiftr v 8); byte v].
Definition be64 (v : Z) : list Z :=
  [byte (Z.shiftr v 56); byte (Z.shiftr v 48); byte (Z.shiftr v 40); byte (Z.shiftr v 32);
   byte (Z.shiftr v 24); byte (Z.shiftr v 16); byte (Z.shiftr v 8); byte v].

(** What a function writes, and whether it call_succeeds; [fwrite(p, 0, 1, f)] writes no
    item, which counts as an error. *)
Definition writing : Type := list Z * bool.
Definition then_write (a : writing) (b : writing) : writing := if snd a then (fst a ++ fst b, snd b) else a.
Definition fwrite1 (data : list Z) : writing := (data, negb (Z.of_nat (length data) =? 0)).
Definition write_uint32 (v : Z) : writing := (be32 v, true).
Definition write_string (s : list Z) : writing :=
  then_write (write_uint32 (Z.of_nat (length (cstr s)))) (fwrite1 (cstr s)).
Definition write_all {A} (w : A -> writing) (l : list A) : writing := foldr (fun x r => then_write (w x) r) ([], true) l.

Definition write_object (o : KTestObject) : writing :=
  then_write (write_string (name o)) (then_write (write_uint32 (Z.of_nat (length (bytes o)))) (fwrite1 (bytes o))).
Definition kTest_toFile (bo : KTest) : writing :=
  then_write (fwrite1 KTEST_MAGIC) (then_write (write_uint32 KTEST_VERSION)
   (then_write (write_uint32 (Z.of_nat (length (args bo)))) (then_write (write_all write_string (args bo))
     (then_write (write_uint32 (symArgvs bo)) (then_write (write_uint32 (symArgvLen bo))
       (then_write (write_uint32 (Z.of_nat (length (objects bo)))) (write_all write_object (objects bo)))))))).

Definition kTest_numBytes (bo : KTest) : Z := fold_left (fun res o => u32 (res + Z.of_nat (length (bytes o)))) (objects bo) 0.

(** ** The vector of recorded objects *)
Record KTestObjectVector := { ov_objects : list KTestObject; playback_index : Z }.
Definition ov_size (ov : KTestObjectVector) : Z := Z.of_nat (length (ov_objects ov)).
Definition KTOV_init : KTestObjectVector := {| ov_objects := []; playback_index := 0 |}.

(** [KTOV_append] at the time [now]. *)
Definition KTOV_append (nm : list Z) (now : Z * Z) (data : list Z) (ov : KTestObjectVector) : KTestObjectVector :=
  {| ov_objects := ov_objects ov ++ [{| name := cstr nm; tv_sec := fst now; tv_usec := snd now; bytes := data |}];
     playback_index := playback_index ov |}.

(** The options of the run and the round it is in. *)
Record Round := { enableMultipass : bool; dropS2C : bool; round_count : Z }.

Definition c2s : list Z := bytes_of "c2s".
Definition s2c : list Z := bytes_of "s2c".
(** Records that playback skips in multipass mode. *)
Definition skipped (rd : Round) (o : KTestObject) : bool :=
  negb (streq (name o) c2s) && (negb (streq (name o) s2c) || (dropS2C rd && (3 <=? round_count rd))).

(** The loop from the record [i] on; past the end of the vector it reads memory that
    holds no record. *)
Fixpoint skip (rd : Round) (os : list KTestObject) (i : Z) : option (KTestObject * Z) :=
  match os with
  | [] => None
  | o :: os => if skipped rd o then skip rd os (i + 1) else Some (o, i)
  end.

Definition KTOV_next_object (rd : Round) (nm : list Z) (ov : KTestObjectVector) : outcome (KTestObject * KTestObjectVector) :=
  if ov_size ov <=? playback_index ov then Exited 2
  else
    let from := drop (Z.to_nat (playback_index ov)) (ov_objects ov) in
    match (if enableMultipass rd then skip rd from (playback_index ov) else (fun o => (o, playback_index ov)) <$> head from) with
    | None => Undefined
    | Some (o, i) =>
        if negb (streq (name o) nm) then Exited 2
        else Done (o, {| ov_objects := ov_objects ov; playback_index := i + 1 |})
    end.

Definition peekNextKTestObject (ov : KTestObjectVector) : outcome KTestObject :=
  if ov_size ov <=? playback_index ov then Exited 1
  else match ov_objects ov !! Z.to_nat (playback_index ov) with Some o => Done o | None => Undefined end.

(** [peekNextNetworkMessage]: [Done None] is the null pointer. *)
Definition peekNextNetworkMessage (rd : Round) (ov : KTestObjectVector) : outcome (option KTestObject) :=
  if ov_size ov <=? playback_index ov then Done None
  else match skip rd (drop (Z.to_nat (playback_index ov)) (ov_objects ov)) (playback_index ov) with
       | Some (o, _) => Done (Some o)
       | None => Undefined
       end.

(** [getNextNetworkMsgType] *)
Inductive nextMessageType := C2S | S2C | NONE.
Fixpoint msg_type (os : list KTestObject) : nextMessageType :=
  match os with
  | [] => NONE
  | o :: os => if streq (name o) c2s then C2S else if streq (name o) s2c then S2C else msg_type os
  end.
Definition getNextNetworkMsgType (ov : KTestObjectVector) : outcome nextMessageType :=
  match drop (Z.to_nat (playback_index ov)) (ov_objects ov) with
  | [] => Undefined
  | os => Done (msg_type os)
  end.

(** ** The functions that stand for system calls *)
Record Session := { ktest_mode : kTestMode; ktov : KTestObjectVector; ktest_sockfd : Z }.
Definition with_ktov (ov : KTestObjectVector) (s : Session) : Session :=
  {| ktest_mode := ktest_mode s; ktov := ov; ktest_sockfd := ktest_sockfd s |}.

(** What the operating system answers: the return value, the bytes it puts into the
    buffer, and the time of day. *)
Record Os := { os_ret : Z; os_data : list Z; os_now : Z * Z }.

Section calls.
Variable rd : Round.
Abbreviation call A := (io Session A).

Definition next_object (nm : list Z) : call KTestObject := fun s =>
  match KTOV_next_object rd nm (ktov s) with
  | Done (o, ov) => Done (o, with_ktov ov s)
  | Exited c => Exited c
  | Undefined => Undefined
  end.
Definition append (nm : list Z) (now : Z * Z) (data : list Z) : call unit := fun s => Done (tt, with_ktov (KTOV_append nm now data (ktov s)) s).
Definition mode : call kTestMode := fun s => Done (ktest_mode s, s).

Definition ktest_connect_tase (sockfd : Z) (os : Os) : call Z := fun s =>
  match ktest_mode s with
  | KTEST_NONE => Done (os_ret os, s)
  | KTEST_RECORD => Done (os_ret os, {| ktest_mode := ktest_mode s; ktov := ktov s; ktest_sockfd := sockfd |})
  | KTEST_PLAYBACK => Done (0, {| ktest_mode := ktest_mode s; ktov := ktov s; ktest_sockfd := sockfd |})
  end.

(** The return value; [buf] is what the program writes. *)
Definition ktest_writesocket_tase (buf : list Z) (os : Os) : call Z :=
  m ← mode;
  match m with
  | KTEST_NONE => mret (os_ret os)
  | KTEST_RECORD =>
      if 0 <? os_ret os then _ ← append c2s (os_now os) (take (Z.to_nat (os_ret os)) buf); mret (os_ret os)
      else if os_ret os <? 0 then exit 1
      else mret (os_ret os)
  | KTEST_PLAYBACK =>
      o ← next_object c2s;
      let n := Z.of_nat (length (bytes o)) in
      if Z.of_nat (length buf) <? n then exit 1
      else if (0 <? n) && negb (bool_decide (take (length (bytes o)) buf = bytes o)) then exit 1
      else mret n
  end.

(** The return value, and what is put into the buffer of [count] bytes. *)
Definition ktest_readsocket_tase (count : Z) (os : Os) : call (Z * list Z) :=
  m ← mode;
  match m with
  | KTEST_NONE => mret (os_ret os, os_data os)
  | KTEST_RECORD =>
      if 0 <? os_ret os then _ ← append s2c (os_now os) (take (Z.to_nat (os_ret os)) (os_data os)); mret (os_ret os, os_data os)
      else if os_ret os <? 0 then exit 1
      else mret (os_ret os, os_data os)
  | KTEST_PLAYBACK =>
      o ← next_object s2c;
      if count <? Z.of_nat (length (bytes o)) then exit 2
      else mret (Z.of_nat (length (bytes o)), bytes o)
  end.

Definition ktest_raw_read_stdin_tase (siz : Z) (os : Os) : call (Z * list Z) :=
  m ← mode;
  match m with
  | KTEST_NONE => mret (os_ret os, os_data os)
  | KTEST_RECORD =>
      if os_ret os <? 0 then undefined   (* a record of [(unsigned) -1] bytes at a null pointer *)
      else _ ← append (bytes_of "stdin") (os_now os) (take (Z.to_nat (os_ret os)) (os_data os)); mret (os_ret os, os_data os)
  | KTEST_PLAYBACK =>
      o ← next_object (bytes_of "stdin");
      if siz <? Z.of_nat (length (bytes o)) then exit 2
      else mret (Z.of_nat (length (bytes o)), bytes o)
  end.

(** [ktest_RAND_bytes_tase] and [ktest_RAND_pseudo_bytes_tase] differ in the name of
    the record. *)
Definition ktest_random (nm : list Z) (num : Z) (os : Os) : call (Z * list Z) :=
  m ← mode;
  match m with
  | KTEST_NONE => mret (os_ret os, os_data os)
  | KTEST_RECORD => _ ← append nm (os_now os) (take (Z.to_nat num) (os_data os)); mret (os_ret os, os_data os)
  | KTEST_PLAYBACK =>
      o ← next_object nm;
      if negb (Z.of_nat (length (bytes o)) =? num) then exit 2 else mret (1, bytes o)
  end.
Definition ktest_RAND_bytes_tase := ktest_random (bytes_of "rng").
Definition ktest_RAND_pseudo_bytes_tase := ktest_random (bytes_of "prng").

(** What the master secret is afterwards. *)
Definition ktest_master_secret_tase (ms : list Z) (now : Z * Z) : call (list Z) :=
  m ← mode;
  match m with
  | KTEST_NONE => mret ms
  | KTEST_RECORD => _ ← append (bytes_of "master_secret") now ms; mret ms
  | KTEST_PLAYBACK =>
      o ← next_object (bytes_of "master_secret");
      if negb (Z.of_nat (length (bytes o)) =? Z.of_nat (length ms)) then exit 2 else mret (bytes o)
  end.
End calls.

(** ** Starting and finishing *)

(** [ktest_start_tase]: the name of the file of network events. *)
Definition ends_with (suffix s : list Z) : bool := bool_decide (drop (length s - length suffix) s = suffix).
Definition network_file (filename : list Z) : list Z :=
  if (Nat.ltb 6 (length filename)) && ends_with (bytes_of ".ktest") filename
  then take (length filename - 6) filename ++ bytes_of ".net.ktest"
  else filename ++ bytes_of ".net.ktest".

Definition KTO_deepcopy (src : KTestObject) : KTestObject :=
  {| name := cstr (name src); tv_sec := tv_sec src; tv_usec := tv_usec src; bytes := bytes src |}.

Definition ktest_start_tase (malloc : Z -> bool) (file : list Z) (m : kTestMode) : outcome Session :=
  match m with
  | KTEST_PLAYBACK =>
      match kTest_fromFile malloc file with
      | Done (Some k) => Done {| ktest_mode := m; ktov := {| ov_objects := map KTO_deepcopy (objects k); playback_index := 0 |}; ktest_sockfd := -1 |}
      | Done None => Exited 1
      | Exited c => Exited c
      | Undefined => Undefined
      end
  | _ => Done {| ktest_mode := m; ktov := KTOV_init; ktest_sockfd := -1 |}
  end.

(** Network events are swapped to the front. *)
Definition network (o : KTestObject) : bool := streq (name o) s2c || streq (name o) c2s.
Fixpoint to_front (n : nat) (i filtered_i : nat) (os : list KTestObject) : list KTestObject * nat :=
  match n with
  | O => (os, filtered_i)
  | S n =>
      match os !! i, os !! filtered_i with
      | Some o, Some temp => if network o then to_front n (S i) (S filtered_i) (<[i := temp]> (<[filtered_i := o]> os)) else to_front n (S i) filtered_i os
      | _, _ => (os, filtered_i)
      end
  end.

(** [ktest_finish_tase] while recording: the two files. *)
Definition session_of (os : list KTestObject) : KTest := {| version := 0; args := []; symArgvs := 0; symArgvLen := 0; objects := os |}.
Definition ktest_finish_tase (s : Session) : outcome (option (list Z * list Z)) :=
  match ktest_mode s with
  | KTEST_RECORD =>
      let os := ov_objects (ktov s) in
      let '(full, ok) := kTest_toFile (session_of os) in
      if negb ok then Exited 1
      else
        let '(os, n) := to_front (length os) 0 0 os in
        let '(net, ok) := kTest_toFile (session_of (take n os)) in
        if negb ok then Exited 1 else Done (Some (full, net))
  | _ => Done None
  end.

(** ** Numbers *)
Fixpoint be_val (acc : Z) (data : list Z) : Z := match data with [] => acc | d :: data => be_val (acc * 256 + d) data end.

Lemma int32_wrap z : wrap 32 (int32 z) = wrap 32 z.
Proof. unfold int32. rewrite sgn_mod by lia. apply wrap_wrap. lia. Qed.

Lemma int32_cong a b : wrap 32 a = wrap 32 b -> int32 a = int32 b.
Proof. unfold int32. by intros ->. Qed.

Lemma be_int_val data : be_int data = int32 (be_val 0 data).
Proof.
  unfold be_int. enough (forall acc acc', acc = int32 acc' -> fold_left (fun acc d => int32 (int32 (acc * 256) + d)) data acc = int32 (be_val acc' data)) as H
    by (by apply H).
  induction data as [|d data IH]; intros acc acc' E; cbn [fold_left be_val]; [done|]. apply IH. subst acc. apply int32_cong.
  unfold wrap. rewrite <- Zplus_mod_idemp_l. fold (wrap 32 (int32 (int32 acc' * 256))). rewrite int32_wrap. unfold wrap.
  rewrite <- Zmult_mod_idemp_l. fold (wrap 32 (int32 acc')). rewrite int32_wrap. unfold wrap.
  rewrite Zmult_mod_idemp_l, Zplus_mod_idemp_l. done.
Qed.

Lemma shift_byte v k : 0 <= k -> Z.shiftr v k = Z.shiftr v (k + 8) * 256 + byte (Z.shiftr v k).
Proof.
  intros Hk. unfold byte, wrap. rewrite !Z.shiftr_div_pow2 by lia. rewrite Z.pow_add_r by lia. rewrite <- Z.div_div by lia.
  rewrite (Z.div_mod (v / 2 ^ k) 256) at 1 by lia. change (2 ^ 8) with 256. lia.
Qed.

Lemma be_val_32 v acc : be_val acc (be32 v) = acc * 2 ^ 32 + (v - Z.shiftr v 32 * 2 ^ 32).
Proof.
  unfold be32. cbn [be_val]. pose proof (shift_byte v 24 ltac:(lia)) as H3. pose proof (shift_byte v 16 ltac:(lia)) as H2.
  pose proof (shift_byte v 8 ltac:(lia)) as H1. pose proof (shift_byte v 0 ltac:(lia)) as H0. rewrite Z.shiftr_0_r in H0.
  change (24 + 8) with 32 in H3. change (16 + 8) with 24 in H2. change (8 + 8) with 16 in H1. change (0 + 8) with 8 in H0.
  change (2 ^ 32) with 4294967296. lia.
Qed.

Lemma read_be32 v rest : 0 <= v < 2 ^ 32 -> read_uint32 (be32 v ++ rest) = Got v rest.
Proof.
  intros Hv. unfold read_uint32, mbind, reader_bind, fread1. rewrite length_app. change (length (be32 v)) with 4%nat.
  replace (_ || _) with false by (symmetry; apply orb_false_iff; split; [done|apply Z.ltb_ge; lia]).
  change (Z.to_nat 4) with (length (be32 v)). rewrite take_app_length, drop_app_length. unfold mret, reader_ret. f_equal.
  unfold u32. rewrite be_int_val, int32_wrap, be_val_32. rewrite Z.shiftr_div_pow2, Z.div_small by lia.
  rewrite wrap_small by (unfold inw; lia). lia.
Qed.

Lemma be64_halves v : be64 v = be32 (Z.shiftr v 32) ++ be32 v.
Proof. unfold be64, be32. rewrite !Z.shiftr_shiftr by lia. done. Qed.

(** The upper half of a 64-bit number is shifted out, and the lower one extended. *)
Lemma read_be64 v rest : 0 <= v < 2 ^ 64 -> read_uint64 (be64 v ++ rest) = Got (u64 (int32 v)) rest.
Proof.
  intros Hv. unfold read_uint64, mbind, reader_bind, fread1. rewrite length_app. change (length (be64 v)) with 8%nat.
  replace (_ || _) with false by (symmetry; apply orb_false_iff; split; [done|apply Z.ltb_ge; lia]).
  change (Z.to_nat 8) with (length (be64 v)). rewrite take_app_length, drop_app_length. unfold mret, reader_ret. do 2 f_equal.
  rewrite be_int_val. apply int32_cong. rewrite be64_halves.
  assert (forall a b acc, be_val acc (a ++ b) = be_val (be_val acc a) b) as Happ.
  { induction a as [|x a IH]; intros b acc; [done|]. apply IH. }
  rewrite Happ, be_val_32, be_val_32. unfold wrap. set (x := 0 * 2 ^ 32 + _). 
  replace (x * 2 ^ 32 + (v - Z.shiftr v 32 * 2 ^ 32)) with (v + (x - Z.shiftr v 32) * 2 ^ 32) by ring. apply Z_mod_plus_full.
Qed.

Lemma read_be64_small v rest : 0 <= v < 2 ^ 31 -> read_uint64 (be64 v ++ rest) = Got v rest.
Proof.
  intros Hv. rewrite read_be64 by lia. f_equal. unfold int32. rewrite sgn_wrap by (simpl; lia). unfold u64. apply wrap_small. unfold inw. lia.
Qed.

(** ** The format

    The bytes the reader expects, to reason about it; the program's own writer is
    [kTest_toFile] above. *)
Definition encode_string (s : list Z) : list Z := be32 (Z.of_nat (length s)) ++ s.
Definition encode_object (v : Z) (o : KTestObject) : list Z :=
  encode_string (name o) ++ (if 4 <=? v then be64 (tv_sec o) ++ be64 (tv_usec o) else []) ++
  be32 (Z.of_nat (length (bytes o))) ++ bytes o.
Definition encode (k : KTest) : list Z :=
  KTEST_MAGIC ++ be32 (version k) ++ be32 (Z.of_nat (length (args k))) ++ concat (map encode_string (args k)) ++
  (if 2 <=? version k then be32 (symArgvs k) ++ be32 (symArgvLen k) else []) ++
  be32 (Z.of_nat (length (objects k))) ++ concat (map (encode_object (version k)) (objects k)).

(** What a file can hold: strings that are not empty, sizes that fit, and times before
    2038; fields that a version does not have are zero. *)
Definition string_ok (s : list Z) : Prop := 0 < Z.of_nat (length s) < 2 ^ 32 - 1.
Definition object_ok (v : Z) (o : KTestObject) : Prop :=
  string_ok (name o) /\ Z.of_nat (length (bytes o)) < 2 ^ 32 /\
  if 4 <=? v then 0 <= tv_sec o < 2 ^ 31 /\ 0 <= tv_usec o < 2 ^ 31 else tv_sec o = 0 /\ tv_usec o = 0.
Record ktest_ok (k : KTest) : Prop := {
  ko_version : 0 <= version k <= KTEST_VERSION;
  ko_args : Forall string_ok (args k) /\ Z.of_nat (length (args k)) < 2 ^ 32;
  ko_sym : if 2 <=? version k then 0 <= symArgvs k < 2 ^ 32 /\ 0 <= symArgvLen k < 2 ^ 32 else symArgvs k = 0 /\ symArgvLen k = 0;
  ko_objects : Forall (object_ok (version k)) (objects k) /\ Z.of_nat (length (objects k)) < 2 ^ 32;
}.

Lemma fread1_app s rest : s <> [] -> fread1 (Z.of_nat (length s)) (s ++ rest) = Got s rest.
Proof.
  intros Hs. unfold fread1. rewrite length_app. destruct s as [|c s]; [done|].
  replace (_ || _) with false by (symmetry; apply orb_false_iff; split; [apply Z.eqb_neq|apply Z.ltb_ge]; simpl; lia).
  by rewrite Nat2Z.id, take_app_length, drop_app_length.
Qed.

(** A reader goes through an encoding. *)
Definition decodes {A} (r : reader A) (enc : list Z) (a : A) : Prop := forall rest, r (enc ++ rest) = Got a rest.

Lemma decodes_ret {A} (a : A) : decodes (mret a) [] a.
Proof. by intros rest. Qed.

Lemma decodes_bind {A B} (r : reader A) (f : A -> reader B) e1 e2 a b :
  decodes r e1 a -> decodes (f a) e2 b -> decodes (r ≫= f) (e1 ++ e2) b.
Proof. intros H1 H2 rest. unfold mbind, reader_bind. rewrite <- app_assoc, H1. apply H2. Qed.

Lemma decodes_last {A B} (r : reader A) (f : A -> reader B) e a b : decodes r e a -> decodes (f a) [] b -> decodes (r ≫= f) e b.
Proof. intros H1 H2. rewrite <- (app_nil_r e). by eapply decodes_bind. Qed.

Lemma decodes_be32 v : 0 <= v < 2 ^ 32 -> decodes read_uint32 (be32 v) v.
Proof. intros H rest. by apply read_be32. Qed.

Lemma decodes_fread s : s <> [] -> decodes (fread1 (Z.of_nat (length s))) s s.
Proof. intros H rest. by apply fread1_app. Qed.

Lemma decodes_repeat {A} (r : reader A) enc xs : Forall (fun x => decodes r (enc x) x) xs ->
  decodes (repeat_read (length xs) r) (concat (map enc xs)) xs.
Proof.
  induction 1 as [|x xs Hx HF IH]; [apply decodes_ret|]. cbn [length repeat_read map concat].
  eapply decodes_bind; [exact Hx|]. eapply decodes_last; [exact IH|]. apply decodes_ret.
Qed.

Section format.
Variable malloc : Z -> bool.
Hypothesis Hmem : forall n, malloc n = true.

Lemma decodes_string s : string_ok s -> decodes (read_string malloc) (encode_string s) s.
Proof.
  intros Hs. unfold read_string, encode_string. eapply decodes_bind; [apply decodes_be32; unfold string_ok in Hs; lia|].
  rewrite Hmem. cbn [negb]. destruct (Z.eqb_spec (Z.of_nat (length s) + 1) (2 ^ 32)) as [E|_]; [unfold string_ok in Hs; lia|].
  apply decodes_fread. intros ->. unfold string_ok in Hs. simpl in Hs. lia.
Qed.

Lemma decodes_time v x : (if 4 <=? v then 0 <= x < 2 ^ 31 else x = 0) ->
  decodes (if 4 <=? v then read_uint64 else mret 0) (if 4 <=? v then be64 x else []) x.
Proof. destruct (4 <=? v); [intros H rest; by apply read_be64_small|intros ->; apply decodes_ret]. Qed.

Lemma decodes_word v x : (if 2 <=? v then 0 <= x < 2 ^ 32 else x = 0) ->
  decodes (if 2 <=? v then read_uint32 else mret 0) (if 2 <=? v then be32 x else []) x.
Proof. destruct (2 <=? v); [apply decodes_be32|intros ->; apply decodes_ret]. Qed.

Lemma decodes_object v o : object_ok v o -> decodes (read_object malloc v) (encode_object v o) o.
Proof.
  intros (Hn & Hb & Ht). unfold read_object, encode_object. eapply decodes_bind; [by apply decodes_string|].
  replace (if 4 <=? v then be64 (tv_sec o) ++ be64 (tv_usec o) else []) with
    ((if 4 <=? v then be64 (tv_sec o) else []) ++ (if 4 <=? v then be64 (tv_usec o) else [])) by (by destruct (4 <=? v)).
  rewrite <- app_assoc. eapply decodes_bind; [apply decodes_time; destruct (4 <=? v); apply Ht|].
  eapply decodes_bind; [apply decodes_time; destruct (4 <=? v); apply Ht|].
  eapply decodes_bind; [apply decodes_be32; lia|]. rewrite Hmem. cbn [negb]. destruct o as [nm sec usec data]. cbn [bytes name tv_sec tv_usec].
  destruct data as [|b data]; [apply decodes_ret|]. cbn match.
  eapply decodes_last; [by apply decodes_fread|]. apply decodes_ret.
Qed.

Lemma decodes_header : decodes kTest_checkHeader KTEST_MAGIC tt.
Proof. eapply decodes_last; [by apply (decodes_fread KTEST_MAGIC)|]. apply decodes_ret. Qed.

Lemma decodes_file k : ktest_ok k -> decodes (kTest_read malloc) (encode k) k.
Proof.
  intros [Hv [Ha Hna] Hs [Ho Hno]]. unfold kTest_read, encode. eapply decodes_bind; [apply decodes_header|].
  eapply decodes_bind; [apply decodes_be32; unfold KTEST_VERSION in Hv; lia|]. destruct (Z.ltb_spec KTEST_VERSION (version k)); [lia|].
  eapply decodes_bind; [apply decodes_be32; lia|]. rewrite Hmem. cbn [negb]. rewrite Nat2Z.id.
  eapply decodes_bind; [apply decodes_repeat; eapply Forall_impl; [exact Ha|]; apply decodes_string|].
  replace (if 2 <=? version k then be32 (symArgvs k) ++ be32 (symArgvLen k) else []) with
    ((if 2 <=? version k then be32 (symArgvs k) else []) ++ (if 2 <=? version k then be32 (symArgvLen k) else [])) by (by destruct (2 <=? version k)).
  rewrite <- app_assoc. eapply decodes_bind; [apply decodes_word; destruct (2 <=? version k); apply Hs|].
  eapply decodes_bind; [apply decodes_word; destruct (2 <=? version k); apply Hs|].
  eapply decodes_bind; [apply decodes_be32; lia|]. rewrite Hmem. cbn [negb]. rewrite Nat2Z.id.
  eapply decodes_last.
  { apply decodes_repeat. eapply Forall_impl; [exact Ho|]. apply decodes_object. }
  destruct k. apply decodes_ret.
Qed.

(** ** Files that end early *)

(** What a reader makes of a file does not depend on what follows. *)
Definition extensible {A} (r : reader A) : Prop := forall s t,
  match r s with Got a rest => r (s ++ t) = Got a (rest ++ t) | Overrun => r (s ++ t) = Overrun | Failed => True end.

Lemma ext_ret {A} (a : A) : extensible (mret a).
Proof. by intros s t. Qed.
Lemma ext_failed {A} : extensible (@failed A).
Proof. by intros s t. Qed.
Lemma ext_overrun {A} : extensible (@overrun A).
Proof. by intros [|] t. Qed.
Lemma ext_bind {A B} (r : reader A) (f : A -> reader B) : extensible r -> (forall a, extensible (f a)) -> extensible (r ≫= f).
Proof.
  intros Hr Hf s t. unfold mbind, reader_bind. specialize (Hr s t). destruct (r s) as [| |a rest]; [done|by rewrite Hr|]. rewrite Hr. apply Hf.
Qed.
Lemma ext_fread n : extensible (fread1 n).
Proof.
  intros s t. unfold fread1. destruct (Z.eqb_spec n 0) as [->|Hn]; [done|]. destruct (Z.ltb_spec (Z.of_nat (length s)) n) as [|Hl]; [done|]. cbn [orb].
  destruct (Z.ltb_spec (Z.of_nat (length (s ++ t))) n) as [H|_]; [rewrite length_app in H; lia|].
  rewrite take_app_le, drop_app_le by lia. done.
Qed.
End format.

Create HintDb ext discriminated.
#[export] Hint Resolve ext_ret ext_failed ext_overrun ext_bind ext_fread : ext.

Section truncated.
Variable malloc : Z -> bool.

Lemma ext_uint32 : extensible read_uint32.
Proof. unfold read_uint32. auto with ext. Qed.
Lemma ext_uint64 : extensible read_uint64.
Proof. unfold read_uint64. auto with ext. Qed.
#[local] Hint Resolve ext_uint32 ext_uint64 : ext.
Lemma ext_string : extensible (read_string malloc).
Proof. apply ext_bind; [apply ext_uint32|]. intros n. repeat case_match; auto with ext. Qed.
#[local] Hint Resolve ext_string : ext.
Lemma ext_repeat {A} n (r : reader A) : extensible r -> extensible (repeat_read n r).
Proof. intros Hr. induction n as [|n IH]; cbn [repeat_read]; auto with ext. Qed.
Lemma ext_object v : extensible (read_object malloc v).
Proof.
  apply ext_bind; [apply ext_string|]. intros nm. destruct (4 <=? v); do 2 (apply ext_bind; [auto with ext|]; intros ?);
    (apply ext_bind; [auto with ext|]; intros n); repeat case_match; auto with ext.
Qed.
#[local] Hint Resolve ext_repeat ext_object : ext.

Lemma ext_file : extensible (kTest_read malloc).
Proof.
  apply ext_bind; [unfold kTest_checkHeader; apply ext_bind; [apply ext_fread|]; intros ?; case_match; auto with ext|]. intros _.
  apply ext_bind; [auto with ext|]. intros v. case_match; [auto with ext|]. apply ext_bind; [auto with ext|]. intros n. case_match; [auto with ext|].
  apply ext_bind; [auto with ext|]. intros l. destruct (2 <=? v); do 2 (apply ext_bind; [auto with ext|]; intros ?);
    (apply ext_bind; [auto with ext|]; intros m); case_match; auto with ext.
Qed.

Lemma truncated_fails {A} (r : reader A) p t a : extensible r -> r (p ++ t) = Got a [] -> t <> [] -> r p = Failed.
Proof.
  intros Hr E Ht. specialize (Hr p t). destruct (r p) as [| |b rest]; [done|congruence|]. rewrite E in Hr. injection Hr as _ H.
  symmetry in H. apply app_eq_nil in H as [_ ?]. done.
Qed.
End truncated.

(** A session of the version 4 with a message. *)
Definition hello : KTestObject := {| name := c2s; tv_sec := 1500000000; tv_usec := 42; bytes := [22; 3; 1] |}.
Definition session : KTest := {| version := 4; args := [bytes_of "tase"]; symArgvs := 0; symArgvLen := 0; objects := [hello] |}.

(** ** What the writer does *)

(** It labels its files with version 4 but leaves out the times of version 4, so that a
    file with a message cannot be read back; and it fails on a message of no bytes. *)
Lemma writer_not_read :
  exists file, kTest_toFile session = (file, true) /\ kTest_fromFile (fun _ => true) file = Done None.
Proof. exists (fst (kTest_toFile session)). split; vm_compute; reflexivity. Qed.

Lemma empty_message_not_written nm : snd (write_object {| name := nm; tv_sec := 0; tv_usec := 0; bytes := [] |}) = false.
Proof. unfold write_object. cbn [name bytes]. by destruct (write_string nm) as [w []]. Qed.

(** A time after 2038 is sign-extended. *)
Lemma time_extended rest : read_uint64 (be64 (2 ^ 31) ++ rest) = Got (2 ^ 64 - 2 ^ 31) rest.
Proof. rewrite read_be64 by lia. f_equal. Qed.

(** A string of 2^32 - 1 bytes is read into a block of none. *)
Lemma string_overrun c rest : read_string (fun _ => true) ([255; 255; 255; 255; c] ++ rest) = Overrun.
Proof. change ([255; 255; 255; 255; c] ++ rest) with (be32 (2 ^ 32 - 1) ++ c :: rest). unfold read_string, mbind, reader_bind. by rewrite read_be32. Qed.

(** The files it can write are those of the version 3 but for the label. *)
Definition writable (s : list Z) : Prop := cstr s = s /\ s <> [].

Lemma then_write_ok a b : then_write (a, true) (b, true) = (a ++ b, true).
Proof. done. Qed.

Lemma write_string_ok s : writable s -> write_string s = (encode_string s, true).
Proof.
  intros [E Hs]. unfold write_string, encode_string. rewrite E. unfold fwrite1. destruct (Z.eqb_spec (Z.of_nat (length s)) 0) as [E0|_]; [|done].
  by destruct s.
Qed.

Lemma write_all_encodes {A} (w : A -> writing) enc l : Forall (fun x => w x = (enc x, true)) l -> write_all w l = (concat (map enc l), true).
Proof. induction 1 as [|x l Hx HF IH]; [done|]. cbn [write_all foldr map concat]. fold (write_all w l). by rewrite Hx, IH. Qed.

Lemma toFile_content k : Forall writable (args k) -> Forall (fun o => writable (name o) /\ bytes o <> []) (objects k) ->
  exists head tail, encode {| version := 3; args := args k; symArgvs := symArgvs k; symArgvLen := symArgvLen k; objects := objects k |} = head ++ be32 3 ++ tail /\
    kTest_toFile k = (head ++ be32 4 ++ tail, true).
Proof.
  intros Ha Ho. assert (Hwo : Forall (fun o => write_object o = (encode_object 3 o, true)) (objects k)).
  { eapply Forall_impl; [exact Ho|]. intros o [Hn Hb]. unfold write_object. rewrite write_string_ok by done. unfold fwrite1.
    destruct (Z.eqb_spec (Z.of_nat (length (bytes o))) 0) as [E|_]; [by destruct (bytes o)|done]. }
  exists KTEST_MAGIC. eexists. split; [reflexivity|]. unfold kTest_toFile. rewrite (write_all_encodes write_string encode_string) by (eapply Forall_impl; [exact Ha|]; apply write_string_ok).
  rewrite (write_all_encodes write_object (encode_object 3)) by done. cbn [args objects symArgvs symArgvLen version Z.leb Z.compare Pos.compare Pos.compare_cont].
  unfold fwrite1, write_uint32. cbn [negb Z.eqb length Z.of_nat KTEST_MAGIC]. rewrite !then_write_ok, !app_assoc. done.
Qed.

(** ** Files that are read and written *)

(** The bytes of a session in a file. *)
Definition string_size (s : list Z) : nat := 4 + length s.
Definition object_size (v : Z) (o : KTestObject) : nat :=
  string_size (name o) + (if 4 <=? v then 16 else 0) + (4 + length (bytes o)).
Definition file_size (k : KTest) : nat :=
  5 + 4 + (4 + sum_list_with string_size (args k)) + (if 2 <=? version k then 8 else 0) +
  (4 + sum_list_with (object_size (version k)) (objects k)).

(** A reader uses a first part of the file, of a size that its value determines, and
    does the same whatever follows. *)
Definition uses {A} (r : reader A) (P : A -> nat -> Prop) : Prop := forall s a rest, r s = Got a rest ->
  exists used, s = used ++ rest /\ P a (length used) /\ forall t, r (used ++ t) = Got a t.

Lemma uses_weaken {A} (r : reader A) (P Q : A -> nat -> Prop) : uses r P -> (forall a n, P a n -> Q a n) -> uses r Q.
Proof. intros H HPQ s a rest (u & ? & ? & ?)%H. exists u. auto. Qed.
Lemma uses_ret {A} (a : A) (P : A -> nat -> Prop) : P a 0%nat -> uses (mret a) P.
Proof. intros H s a' rest E. injection E as <- <-. by exists []. Qed.
Lemma uses_failed {A} P : uses (@failed A) P.
Proof. done. Qed.
Lemma uses_overrun {A} P : uses (@overrun A) P.
Proof. by intros [|]. Qed.
Lemma uses_bind {A B} (r : reader A) (f : A -> reader B) P Q : uses r P -> (forall a n, P a n -> uses (f a) (fun b m => Q b (n + m)%nat)) ->
  uses (r ≫= f) Q.
Proof.
  intros Hr Hf s b rest. unfold mbind, reader_bind. destruct (r s) as [| |a s'] eqn:E; try done. intros E'.
  destruct (Hr s a s' E) as (u & -> & HP & Hu). destruct (Hf a _ HP s' b rest E') as (u' & -> & HQ & Hu'). exists (u ++ u').
  split; [by rewrite app_assoc|]. split; [by rewrite length_app|]. intros t. by rewrite <- app_assoc, Hu.
Qed.
Lemma uses_fread n : uses (fread1 n) (fun d m => m = Z.to_nat n /\ length d = Z.to_nat n).
Proof.
  intros s d rest. unfold fread1. destruct (Z.eqb_spec n 0) as [->|Hn]; [done|]. destruct (Z.ltb_spec (Z.of_nat (length s)) n) as [|Hl]; [done|].
  cbn [orb]. intros [= <- <-]. exists (take (Z.to_nat n) s). rewrite take_drop, length_take. split; [done|]. split; [lia|]. intros t.
  destruct (Z.ltb_spec (Z.of_nat (length (take (Z.to_nat n) s ++ t))) n) as [H|_]; [rewrite length_app, length_take in H; lia|].
  assert (E : Z.to_nat n = length (take (Z.to_nat n) s)) by (rewrite length_take; lia). cbn [orb].
  rewrite E at 1. rewrite E at 3. by rewrite take_app_length, drop_app_length.
Qed.
Lemma uses_repeat {A} (r : reader A) (size : A -> nat) n : uses r (fun a m => m = size a) ->
  uses (repeat_read n r) (fun l m => m = sum_list_with size l).
Proof.
  intros Hr. induction n as [|n IH]; cbn [repeat_read]; [by apply uses_ret|].
  eapply uses_bind; [exact Hr|]. intros a m ->. eapply uses_bind; [exact IH|]. intros l m ->. apply uses_ret. cbn. lia.
Qed.

Section files.
Variable malloc : Z -> bool.

Lemma uses_uint32 : uses read_uint32 (fun _ m => m = 4%nat).
Proof. eapply uses_bind; [apply uses_fread|]. intros d m [-> _]. by apply uses_ret. Qed.
Lemma uses_uint64 : uses read_uint64 (fun _ m => m = 8%nat).
Proof. eapply uses_bind; [apply uses_fread|]. intros d m [-> _]. by apply uses_ret. Qed.
Lemma uses_string : uses (read_string malloc) (fun s m => m = string_size s).
Proof.
  eapply uses_bind; [apply uses_uint32|]. intros len m ->. repeat case_match; try apply uses_failed; try apply uses_overrun.
  eapply uses_weaken; [apply uses_fread|]. intros s m [-> E]. unfold string_size. lia.
Qed.
Lemma uses_optional {A} (b : bool) (r : reader A) x n : uses r (fun _ m => m = n) -> uses (if b then r else mret x) (fun _ m => m = if b then n else 0%nat).
Proof. intros H. destruct b; [done|by apply uses_ret]. Qed.

Lemma uses_object v : uses (read_object malloc v) (fun o m => m = object_size v o).
Proof.
  eapply uses_bind; [apply uses_string|]. intros nm m ->. eapply uses_bind; [apply uses_optional, uses_uint64|]. intros sec m ->.
  eapply uses_bind; [apply uses_optional, uses_uint64|]. intros usec m ->. eapply uses_bind; [apply uses_uint32|]. intros n m ->.
  destruct (n =? 0); [apply uses_ret; unfold object_size; cbn; case_match; lia|]. case_match; [apply uses_overrun|].
  eapply uses_bind; [apply uses_fread|]. intros d m [-> E]. apply uses_ret. unfold object_size. cbn. case_match; lia.
Qed.

Lemma uses_file : uses (kTest_read malloc) (fun k m => m = file_size k).
Proof.
  eapply uses_bind.
  { unfold kTest_checkHeader. eapply (uses_bind _ _ _ (fun _ m => m = 5%nat)); [apply uses_fread|]. intros d m [-> _]. case_match; [by apply uses_ret|apply uses_failed]. }
  intros _ m ->. eapply uses_bind; [apply uses_uint32|]. intros v m ->. case_match; [apply uses_failed|].
  eapply uses_bind; [apply uses_uint32|]. intros na m ->. case_match; [apply uses_failed|].
  eapply uses_bind; [apply uses_repeat, uses_string|]. intros l m ->. eapply uses_bind; [apply uses_optional, uses_uint32|]. intros sa m ->.
  eapply uses_bind; [apply uses_optional, uses_uint32|]. intros sl m ->. eapply uses_bind; [apply uses_uint32|]. intros no m ->.
  case_match; [apply uses_failed|]. eapply uses_bind; [apply uses_repeat, uses_object|]. intros os m ->. apply uses_ret.
  unfold file_size. cbn. destruct (2 <=? v); lia.
Qed.

(** The version is the one of the label. *)
Lemma read_version v tail k rest : 0 <= v < 2 ^ 32 -> kTest_read malloc (KTEST_MAGIC ++ be32 v ++ tail) = Got k rest -> version k = v.
Proof.
  intros Hv. unfold kTest_read. unfold mbind at 1, reader_bind at 1. rewrite decodes_header. unfold mbind at 1, reader_bind at 1.
  rewrite read_be32 by done. destruct (KTEST_VERSION <? v); [done|]. unfold mbind, reader_bind. intros E.
  repeat (case_match; try discriminate E); by injection E as <- _.
Qed.
End files.

(** *** The writer *)
Definition labelled (k : KTest) : KTest :=
  {| version := KTEST_VERSION; args := args k; symArgvs := symArgvs k; symArgvLen := symArgvLen k; objects := objects k |}.

Lemma cstr_length s : (length (cstr s) <= length s)%nat.
Proof. induction s as [|c s IH]; cbn [cstr]; [done|]. case_match; cbn; lia. Qed.
Lemma then_write_length a b : (length (fst (then_write a b)) <= length (fst a) + length (fst b))%nat.
Proof. unfold then_write. destruct (snd a); cbn; [rewrite length_app|]; lia. Qed.
Lemma then_write_le a b n m : (length (fst a) <= n -> length (fst b) <= m -> length (fst (then_write a b)) <= n + m)%nat.
Proof. pose proof (then_write_length a b). lia. Qed.
Lemma write_all_length {A} (w : A -> writing) (size : A -> nat) l : (forall x, length (fst (w x)) <= size x)%nat ->
  (length (fst (write_all w l)) <= sum_list_with size l)%nat.
Proof.
  intros Hw. induction l as [|x l IH]; [done|]. cbn [write_all foldr sum_list_with]. fold (write_all w l).
  pose proof (then_write_length (w x) (write_all w l)). specialize (Hw x). lia.
Qed.
Lemma write_string_length s : (length (fst (write_string s)) <= string_size s)%nat.
Proof.
  unfold write_string. pose proof (then_write_length (write_uint32 (Z.of_nat (length (cstr s)))) (fwrite1 (cstr s))) as H.
  pose proof (cstr_length s). unfold string_size. cbn [fst write_uint32 fwrite1 length be32] in H. lia.
Qed.
(** An object is written without its times. *)
Lemma write_object_length o : (length (fst (write_object o)) <= string_size (name o) + (4 + length (bytes o)))%nat.
Proof.
  unfold write_object. pose proof (then_write_length (write_string (name o)) (then_write (write_uint32 (Z.of_nat (length (bytes o)))) (fwrite1 (bytes o)))) as H1.
  pose proof (then_write_length (write_uint32 (Z.of_nat (length (bytes o)))) (fwrite1 (bytes o))) as H2. pose proof (write_string_length (name o)).
  cbn [fst write_uint32 fwrite1 length be32] in H2. lia.
Qed.

Lemma toFile_labelled k : exists tail, fst (kTest_toFile k) = KTEST_MAGIC ++ be32 KTEST_VERSION ++ tail /\
  (9 + length tail + 16 * length (objects k) <= file_size (labelled k))%nat.
Proof.
  unfold kTest_toFile. set (w3 := then_write (write_uint32 (Z.of_nat (length (args k)))) _). exists (fst w3). split; [done|].
  assert (Ha : (length (fst (write_all write_string (args k))) <= sum_list_with string_size (args k))%nat) by apply write_all_length, write_string_length.
  assert (Ho : (length (fst (write_all write_object (objects k))) + 16 * length (objects k) <= sum_list_with (object_size 4) (objects k))%nat).
  { pose proof (write_all_length write_object (fun o => string_size (name o) + (4 + length (bytes o)))%nat (objects k) write_object_length) as H.
    revert H. generalize (length (fst (write_all write_object (objects k)))). intros n.
    assert (E : (sum_list_with (object_size 4) (objects k) = sum_list_with (fun o => string_size (name o) + (4 + length (bytes o))) (objects k) + 16 * length (objects k))%nat).
    { induction (objects k) as [|o os IH]; [done|]. cbn [sum_list_with length]. rewrite IH. unfold object_size. cbn. lia. }
    rewrite E. lia. }
  assert (Hw : (length (fst w3) <= 4 + (sum_list_with string_size (args k) + (4 + (4 + (4 + length (fst (write_all write_object (objects k))))))))%nat)
    by (unfold w3; repeat (apply then_write_le; [done|]); done).
  unfold file_size, labelled. cbn [args objects version]. change (2 <=? KTEST_VERSION) with true. cbv iota.
  change (object_size KTEST_VERSION) with (object_size 4). lia.
Qed.

(** What is recorded: the arguments, and the names and the bytes of the messages. *)
Definition content (k : KTest) : list (list Z) * list (list Z * list Z) := (args k, map (fun o => (name o, bytes o)) (objects k)).
Lemma size_content k k' : content k = content k' -> version k = version k' -> file_size k = file_size k'.
Proof.
  intros [= Ea Eo] Ev. unfold file_size. rewrite Ea, Ev. do 2 f_equal. revert Eo. generalize (objects k') as l'.
  induction (objects k) as [|o l IH]; intros [|o' l'] E; try done. injection E as E1 E2 E. cbn [sum_list_with]. rewrite (IH l' E).
  unfold object_size. by rewrite E1, E2.
Qed.

(** A session without messages that can be written. *)
Record plain_session (k : KTest) : Prop := {
  ps_args : Forall (fun s => writable s /\ string_ok s) (args k) /\ Z.of_nat (length (args k)) < 2 ^ 32;
  ps_sym : 0 <= symArgvs k < 2 ^ 32 /\ 0 <= symArgvLen k < 2 ^ 32;
  ps_objects : objects k = [];
}.
Lemma plain_written malloc k : (forall n, malloc n = true) -> plain_session k ->
  snd (kTest_toFile k) = true /\ kTest_fromFile malloc (fst (kTest_toFile k)) = Done (Some (labelled k)).
Proof.
  intros Hm [[Ha Hn] Hs Ho]. assert (E : kTest_toFile k = (encode (labelled k), true)).
  { unfold kTest_toFile. rewrite (write_all_encodes write_string encode_string) by (eapply Forall_impl; [exact Ha|]; intros s [? _]; by apply write_string_ok).
    rewrite Ho. unfold encode, labelled. cbn [args objects symArgvs symArgvLen version map concat]. rewrite Ho.
    unfold fwrite1, write_uint32. cbn [negb Z.eqb length Z.of_nat KTEST_MAGIC write_all foldr]. rewrite !then_write_ok.
    done. }
  rewrite E. split; [done|]. unfold kTest_fromFile. cbn [fst]. rewrite <- (app_nil_r (encode _)). rewrite (decodes_file malloc Hm); [done|].
  split; cbn; [unfold KTEST_VERSION; lia|split; [|done]|done|by rewrite Ho]. eapply Forall_impl; [exact Ha|]. by intros s [_ ?].
Qed.

(** C14. Session files.  (1) Whenever [kTest_fromFile] accepts a file, of any version, it
    has used exactly the bytes that the session takes in that version; what follows
    them is ignored, and a file that ends before them is rejected.  (2) A session without
    messages, with arguments that are C strings of at least one byte and counts of 32
    bits, is written by [kTest_toFile] and read back unchanged, labelled with version 4,
    if memory suffices.  (3) A session with messages is never read back from what
    [kTest_toFile] writes: whatever [kTest_fromFile] makes of that file, it has not the
    arguments and messages of the session, since the time stamps that version 4
    requires are not written. *)
Theorem session_files_correct (malloc : Z -> bool) :
  (forall file k, kTest_fromFile malloc file = Done (Some k) -> exists used rest, file = used ++ rest /\ length used = file_size k /\
    (forall rest', kTest_fromFile malloc (used ++ rest') = Done (Some k)) /\
    (forall p t, used = p ++ t -> t <> [] -> kTest_fromFile malloc p = Done None)) /\
  (forall k, (forall n, malloc n = true) -> plain_session k ->
    snd (kTest_toFile k) = true /\ kTest_fromFile malloc (fst (kTest_toFile k)) = Done (Some (labelled k))) /\
  (forall k k', objects k <> [] -> kTest_fromFile malloc (fst (kTest_toFile k)) = Done (Some k') -> content k' <> content k).
Proof.
  split; [|split].
  - intros file k. unfold kTest_fromFile. destruct (kTest_read malloc file) as [| |x rest] eqn:E; try done. intros [= ->].
    destruct (uses_file malloc file k rest E) as (used & -> & Hl & Hu). exists used, rest. split; [done|]. split; [done|].
    split; [intros rest'; by rewrite Hu|]. intros p t -> Ht. rewrite (truncated_fails (kTest_read malloc) p t k); [done|apply ext_file| |done].
    rewrite <- (app_nil_r (p ++ t)). apply Hu.
  - intros k. by apply plain_written.
  - intros k k' Ho Hr Hc. unfold kTest_fromFile in Hr. destruct (kTest_read malloc _) as [| |x rest] eqn:E; try done. injection Hr as ->.
    destruct (uses_file malloc _ k' rest E) as (used & Eu & Hl & _). destruct (toFile_labelled k) as (tail & Et & Hs). rewrite Et in E, Eu.
    apply read_version in E; [|unfold KTEST_VERSION; lia].
    assert (Hsz : file_size k' = file_size (labelled k)) by (apply size_content; done).
    apply (f_equal length) in Eu. rewrite !length_app in Eu. change (length KTEST_MAGIC) with 5%nat in Eu. change (length (be32 KTEST_VERSION)) with 4%nat in Eu.
    destruct (objects k) as [|o os]; [done|]. cbn [length] in Hs. lia.
Qed.

Lemma session_files_correct_witness :
  let k := {| version := 0; args := [bytes_of "tase"]; symArgvs := 1; symArgvLen := 2; objects := [] |} in
  kTest_fromFile (fun _ => true) (fst (kTest_toFile k)) = Done (Some (labelled k)).
Proof.
  intros k. destruct (session_files_correct (fun _ => true)) as (_ & H & _). apply (H k (fun _ => eq_refl)).
  split; [split; [constructor; [|constructor]|]| |]; vm_compute; repeat split; discriminate || reflexivity.
Defined.

(** ** Playback *)

(** The records that are still to be played back in multipass mode. *)
Definition remaining (rd : Round) (ov : KTestObjectVector) : list KTestObject :=
  List.filter (fun o => negb (skipped rd o)) (drop (Z.to_nat (playback_index ov)) (ov_objects ov)).
Definition index_ok (ov : KTestObjectVector) : Prop := 0 <= playback_index ov <= ov_size ov.

Lemma skip_remaining rd os i : match skip rd os i with
  | Some (o, j) => exists os', List.filter (fun o => negb (skipped rd o)) os = o :: os' /\ i <= j < i + Z.of_nat (length os) /\
      List.filter (fun o => negb (skipped rd o)) (drop (Z.to_nat (j + 1 - i)) os) = os'
  | None => List.filter (fun o => negb (skipped rd o)) os = []
  end.
Proof.
  revert i. induction os as [|o os IH]; intros i; [done|]. cbn [skip List.filter]. destruct (skipped rd o) eqn:E; cbn [negb].
  - specialize (IH (i + 1)). destruct (skip rd os (i + 1)) as [[x j]|]; [|done]. destruct IH as (os' & H1 & H2 & H3). exists os'.
    split; [done|]. split; [simpl; lia|]. rewrite <- H3. replace (Z.to_nat (j + 1 - i)) with (S (Z.to_nat (j + 1 - (i + 1)))) by lia. done.
  - eexists. split; [reflexivity|]. split; [simpl; lia|]. replace (Z.to_nat (i + 1 - i)) with 1%nat by lia. done.
Qed.

(** C13. In multipass mode the recorded messages are played back in order: a call returns
    the next message that is not skipped if it has the name asked for, ends the process
    if it has another name, and leaves the messages after it; and
    [peekNextNetworkMessage] announces the message the next call returns. *)
Theorem playback_in_order (rd : Round) (ov : KTestObjectVector) (nm : list Z) (o : KTestObject) (todo : list KTestObject) :
  enableMultipass rd = true -> index_ok ov -> remaining rd ov = o :: todo ->
  peekNextNetworkMessage rd ov = Done (Some o) /\
  if streq (name o) nm
  then exists ov', KTOV_next_object rd nm ov = Done (o, ov') /\ index_ok ov' /\ ov_objects ov' = ov_objects ov /\ remaining rd ov' = todo
  else KTOV_next_object rd nm ov = Exited 2.
Proof.
  intros Hm [H0 Hi] Hr. unfold peekNextNetworkMessage, KTOV_next_object, remaining in *. rewrite Hm.
  destruct (Z.leb_spec (ov_size ov) (playback_index ov)) as [Hle|Hlt].
  { rewrite drop_ge in Hr by (unfold ov_size in *; lia). discriminate Hr. }
  pose proof (skip_remaining rd (drop (Z.to_nat (playback_index ov)) (ov_objects ov)) (playback_index ov)) as Hs.
  destruct (skip rd _ _) as [[x j]|]; [|rewrite Hs in Hr; discriminate Hr]. destruct Hs as (os' & E & Hj & E'). rewrite E in Hr. injection Hr as -> ->.
  split; [done|]. destruct (streq (name o) nm); [|done]. eexists. split; [reflexivity|]. rewrite length_drop in Hj. unfold index_ok, ov_size in *.
  cbn [playback_index ov_objects]. split; [lia|]. split; [done|]. rewrite drop_drop in E'. rewrite <- E'. do 2 f_equal. lia.
Qed.

Lemma playback_in_order_witness :
  let rd := {| enableMultipass := true; dropS2C := false; round_count := 0 |} in
  let time := {| name := bytes_of "time"; tv_sec := 0; tv_usec := 0; bytes := [1] |} in
  KTOV_next_object rd c2s {| ov_objects := [time; hello]; playback_index := 0 |} = Done (hello, {| ov_objects := [time; hello]; playback_index := 2 |}).
Proof.
  intros rd time.
  destruct (playback_in_order rd {| ov_objects := [time; hello]; playback_index := 0 |} c2s hello [] eq_refl) as [_ H].
  - unfold index_ok, ov_size. cbn. lia.
  - reflexivity.
  - destruct H as (ov' & E & _ & _ & _). rewrite E. vm_compute in E. injection E as <-. reflexivity.
Defined.

(** When the records left are all skipped, the loop runs past the end of the vector. *)
Lemma skips_past_end : KTOV_next_object {| enableMultipass := true; dropS2C := false; round_count := 0 |} c2s
  {| ov_objects := [{| name := bytes_of "time"; tv_sec := 0; tv_usec := 0; bytes := [] |}]; playback_index := 0 |} = Undefined.
Proof. vm_compute. reflexivity. Qed.

(** ** Recording and playing back *)

(** The calls a program makes, and what it sees of them: a return value, and the bytes
    put into its buffer. *)
Inductive syscall :=
| Connect (sockfd : Z)
| WriteSocket (buf : list Z)
| ReadSocket (count : Z)
| ReadStdin (siz : Z)
| RandBytes (num : Z)
| RandPseudoBytes (num : Z)
| MasterSecret (ms : list Z).

Definition perform (rd : Round) (c : syscall) (os : Os) : io Session (Z * list Z) :=
  match c with
  | Connect fd => r ← ktest_connect_tase fd os; mret (r, [])
  | WriteSocket buf => r ← ktest_writesocket_tase rd buf os; mret (r, [])
  | ReadSocket count => ktest_readsocket_tase rd count os
  | ReadStdin siz => ktest_raw_read_stdin_tase rd siz os
  | RandBytes num => ktest_RAND_bytes_tase rd num os
  | RandPseudoBytes num => ktest_RAND_pseudo_bytes_tase rd num os
  | MasterSecret ms => r ← ktest_master_secret_tase rd ms (os_now os); mret (0, r)
  end.

Fixpoint perform_all (rd : Round) (cs : list (syscall * Os)) : io Session (list (Z * list Z)) :=
  match cs with
  | [] => mret []
  | (c, os) :: cs => r ← perform rd c os; rs ← perform_all rd cs; mret (r :: rs)
  end.

(** The system calls succeed: sockets transfer something, reads fit the buffer. *)
Definition call_succeeds (c : syscall) (os : Os) : Prop :=
  let n := Z.of_nat (length (os_data os)) in
  match c with
  | Connect _ => os_ret os = 0
  | WriteSocket buf => 0 < os_ret os <= Z.of_nat (length buf)
  | ReadSocket count => 0 < os_ret os <= count /\ os_ret os = n
  | ReadStdin siz => 0 <= os_ret os <= siz /\ os_ret os = n
  | RandBytes num | RandPseudoBytes num => os_ret os = 1 /\ num = n
  | MasterSecret _ => True
  end.

(** What is recorded of a call. *)
Definition record_of (c : syscall) (os : Os) : list KTestObject :=
  let rec nm data := [{| name := bytes_of nm; tv_sec := fst (os_now os); tv_usec := snd (os_now os); bytes := data |}] in
  match c with
  | Connect _ => []
  | WriteSocket buf => rec "c2s"%string (take (Z.to_nat (os_ret os)) buf)
  | ReadSocket _ => rec "s2c"%string (os_data os)
  | ReadStdin _ => rec "stdin"%string (os_data os)
  | RandBytes _ => rec "rng"%string (os_data os)
  | RandPseudoBytes _ => rec "prng"%string (os_data os)
  | MasterSecret ms => rec "master_secret"%string ms
  end.
Definition seen (c : syscall) (os : Os) : Z * list Z :=
  match c with
  | Connect _ | WriteSocket _ => (os_ret os, [])
  | MasterSecret ms => (0, ms)
  | _ => (os_ret os, os_data os)
  end.

Definition recording (objs : list KTestObject) (fd : Z) : Session :=
  {| ktest_mode := KTEST_RECORD; ktov := {| ov_objects := objs; playback_index := 0 |}; ktest_sockfd := fd |}.
Definition playing (done todo : list KTestObject) (fd : Z) : Session :=
  {| ktest_mode := KTEST_PLAYBACK; ktov := {| ov_objects := done ++ todo; playback_index := Z.of_nat (length done) |}; ktest_sockfd := fd |}.
Definition socket (c : syscall) (fd : Z) : Z := match c with Connect fd => fd | _ => fd end.

Lemma take_ret {A} (l : list A) n : n = Z.of_nat (length l) -> take (Z.to_nat n) l = l.
Proof. intros ->. rewrite Nat2Z.id. by apply take_ge. Qed.

Lemma record_step rd c os objs fd : call_succeeds c os ->
  perform rd c os (recording objs fd) = Done (seen c os, recording (objs ++ record_of c os) (socket c fd)).
Proof.
  intros H. destruct c; simpl in H; unfold perform, ktest_writesocket_tase, ktest_readsocket_tase, ktest_raw_read_stdin_tase,
    ktest_RAND_bytes_tase, ktest_RAND_pseudo_bytes_tase, ktest_random, ktest_master_secret_tase, mbind, io_bind; cbn [mode recording ktest_mode].
  - by rewrite app_nil_r.
  - destruct (Z.ltb_spec 0 (os_ret os)); [done|lia].
  - destruct H as [? E]. destruct (Z.ltb_spec 0 (os_ret os)); [|lia]. cbn [append]. rewrite take_ret by done. done.
  - destruct H as [? E]. destruct (Z.ltb_spec (os_ret os) 0); [lia|]. cbn [append]. rewrite take_ret by done. done.
  - destruct H as [? ->]. cbn [append]. rewrite take_ret by done. done.
  - destruct H as [? ->]. cbn [append]. rewrite take_ret by done. done.
  - done.
Qed.

(** All the records, and the socket, of a list of calls. *)
Definition records (cs : list (syscall * Os)) : list KTestObject := concat (map (fun p => record_of p.1 p.2) cs).
Definition last_socket (cs : list (syscall * Os)) (fd : Z) : Z := fold_left (fun fd p => socket p.1 fd) cs fd.

Lemma record_all rd cs : forall objs fd, Forall (fun p => call_succeeds p.1 p.2) cs ->
  perform_all rd cs (recording objs fd) = Done (map (fun p => seen p.1 p.2) cs, recording (objs ++ records cs) (last_socket cs fd)).
Proof.
  induction cs as [|[c os] cs IH]; intros objs fd Hs.
  { cbn. by rewrite app_nil_r. }
  apply Forall_cons in Hs as [Hc Hs]. pose proof (IH (objs ++ record_of c os) (socket c fd) Hs) as E.
  unfold records in *. cbn [perform_all map concat fst snd] in *. rewrite (bind_done _ _ _ _ _ (record_step rd c os objs fd Hc)), (bind_done _ _ _ _ _ E). by rewrite app_assoc.
Qed.

Lemma next_played rd nm done o todo fd : enableMultipass rd = false -> streq (KTest.name o) nm = true ->
  next_object rd nm (playing done (o :: todo) fd) = Done (o, playing (done ++ [o]) todo fd).
Proof.
  intros Hm Hn. unfold next_object, KTOV_next_object, playing. cbn [ktov ov_objects playback_index]. rewrite Hm. unfold ov_size. cbn [ov_objects].
  destruct (Z.leb_spec (Z.of_nat (length (done ++ o :: todo))) (Z.of_nat (length done))) as [H|_]; [rewrite length_app in H; simpl in H; lia|].
  rewrite Nat2Z.id, drop_app_length. cbn. rewrite Hn. cbn. unfold with_ktov. cbn. rewrite <- app_assoc, length_app. cbn. repeat f_equal. lia.
Qed.

(** Playback ignores what the operating system would answer. *)
Lemma play_step rd c os os' done todo fd : enableMultipass rd = false -> call_succeeds c os ->
  perform rd c os' (playing done (record_of c os ++ todo) fd) = Done (seen c os, playing (done ++ record_of c os) todo (socket c fd)).
Proof.
  intros Hm H. destruct c; simpl in H; unfold perform, ktest_writesocket_tase, ktest_readsocket_tase, ktest_raw_read_stdin_tase,
    ktest_RAND_bytes_tase, ktest_RAND_pseudo_bytes_tase, ktest_random, ktest_master_secret_tase, mbind, io_bind; cbn [mode playing ktest_mode record_of app].
  - cbn. rewrite app_nil_r. unfold playing. by rewrite H.
  - rewrite next_played by done. cbn [bytes]. rewrite length_take. destruct (Z.ltb_spec (Z.of_nat (length buf)) (Z.of_nat (Z.to_nat (os_ret os) `min` length buf))); [lia|].
    rewrite (Nat.min_l (Z.to_nat (os_ret os))) by lia. rewrite bool_decide_eq_true_2 by done. rewrite andb_false_r. cbn. rewrite Z2Nat.id by lia. done.
  - destruct H as [? E]. rewrite next_played by done. cbn [bytes]. rewrite <- E. destruct (Z.ltb_spec count (os_ret os)); [lia|]. done.
  - destruct H as [? E]. rewrite next_played by done. cbn [bytes]. rewrite <- E. destruct (Z.ltb_spec siz (os_ret os)); [lia|]. done.
  - destruct H as [E ->]. rewrite next_played by done. cbn [bytes]. rewrite Z.eqb_refl. cbn. by rewrite E.
  - destruct H as [E ->]. rewrite next_played by done. cbn [bytes]. rewrite Z.eqb_refl. cbn. by rewrite E.
  - rewrite next_played by done. cbn [bytes]. by rewrite Z.eqb_refl.
Qed.

Lemma play_all rd cs : forall cs' done fd, enableMultipass rd = false -> Forall (fun p => call_succeeds p.1 p.2) cs -> map fst cs' = map fst cs ->
  perform_all rd cs' (playing done (records cs) fd) = Done (map (fun p => seen p.1 p.2) cs, playing (done ++ records cs) [] (last_socket cs fd)).
Proof.
  induction cs as [|[c os] cs IH]; intros cs' done fd Hm Hs E.
  { destruct cs'; [|discriminate E]. cbn. by rewrite app_nil_r. }
  destruct cs' as [|[c' os'] cs']; [discriminate E|]. injection E as -> E. apply Forall_cons in Hs as [Hc Hs].
  pose proof (IH cs' (done ++ record_of c os) (socket c fd) Hm Hs E) as EI. unfold records in *. cbn [perform_all map concat fst snd] in *.
  rewrite (bind_done _ _ _ _ _ (play_step rd c os os' done _ fd Hm Hc)), (bind_done _ _ _ _ _ EI). by rewrite app_assoc.
Qed.



(** A read at the end of the stream is not recorded: playback returns the next message
    instead. *)
Lemma end_of_stream_lost :
  let rd := {| enableMultipass := false; dropS2C := false; round_count := 0 |} in
  let eof := (ReadSocket 8, {| os_ret := 0; os_data := []; os_now := (0, 0) |}) in
  let data := (ReadSocket 8, {| os_ret := 1; os_data := [7]; os_now := (0, 0) |}) in
  exists objs, perform_all rd [eof; data] (recording [] 3) = Done ([(0, []); (1, [7])], recording objs 3) /\
    perform_all rd [eof; data] (playing [] objs 3) = Exited 2.
Proof. eexists. split; [vm_compute; reflexivity|vm_compute; reflexivity]. Qed.

(** ** The network events of a recording *)
Lemma insert_middle {A} (l1 l2 : list A) x y : <[length l1 := y]> (l1 ++ x :: l2) = l1 ++ y :: l2.
Proof. by rewrite insert_app_r_alt, Nat.sub_diag by lia. Qed.

Lemma to_front_spec n : forall A B C, length C = n -> Forall (fun o => network o = false) B ->
  exists B', to_front n (length A + length B) (length A) (A ++ B ++ C) = (A ++ List.filter network C ++ B', length A + length (List.filter network C))%nat /\
    Permutation (A ++ List.filter network C ++ B') (A ++ B ++ C).
Proof.
  induction n as [|n IH]; intros A B C HC HB.
  { destruct C; [|done]. exists B. cbn [to_front List.filter length app]. rewrite app_nil_r, Nat.add_0_r. done. }
  destruct C as [|o C]; [done|]. injection HC as HC. cbn [to_front List.filter].
  assert (Eo : (A ++ B ++ o :: C) !! (length A + length B)%nat = Some o) by (rewrite app_assoc, <- length_app; by apply list_lookup_middle).
  rewrite Eo. destruct B as [|b B].
  - cbn [app length] in *. rewrite Nat.add_0_r in *. rewrite Eo. destruct (network o) eqn:E.
    + assert (El : <[length A := o]> (A ++ o :: C) = A ++ o :: C) by (by apply list_insert_id). rewrite !El. destruct (IH (A ++ [o]) [] C HC ltac:(constructor)) as (B' & E1 & P1). exists B'.
      rewrite length_app in E1. cbn [length app] in *. rewrite Nat.add_0_r, <- !app_assoc, Nat.add_1_r in E1. rewrite <- !app_assoc in P1. cbn [app length] in *.
      rewrite E1. split; [f_equal; lia|done].
    + destruct (IH A [o] C HC ltac:(by repeat constructor)) as (B' & E1 & P1). exists B'. cbn [length app] in *. rewrite Nat.add_1_r in E1. done.
  - assert (Eb : (A ++ (b :: B) ++ o :: C) !! length A = Some b) by (by apply list_lookup_middle). rewrite Eb. destruct (network o) eqn:E.
    + apply Forall_cons in HB as [Hb HB'].
      assert (Es : <[(length A + length (b :: B))%nat := b]> (<[length A := o]> (A ++ (b :: B) ++ o :: C)) = (A ++ [o]) ++ (B ++ [b]) ++ C).
      { cbn [app]. rewrite insert_middle. change (A ++ o :: B ++ o :: C) with (A ++ (o :: B) ++ o :: C). rewrite app_assoc.
        replace (length A + length (b :: B))%nat with (length (A ++ o :: B)) by (rewrite length_app; done). rewrite insert_middle.
        by rewrite <- !app_assoc. }
      rewrite Es. destruct (IH (A ++ [o]) (B ++ [b]) C HC) as (B' & E1 & P1); [apply Forall_app; by split; [|repeat constructor]|]. exists B'.
      rewrite !length_app in E1. cbn [length] in *. replace (S (length A + S (length B)))%nat with (length A + 1 + (length B + 1))%nat by lia.
      replace (S (length A)) with (length A + 1)%nat by lia. rewrite E1. rewrite <- !app_assoc in *. cbn [app length] in *. split; [f_equal; lia|].
      rewrite P1. apply Permutation_app_head. rewrite <- (Permutation_middle (b :: B) C o). constructor. cbn. by rewrite <- (Permutation_middle B C b).
    + destruct (IH A ((b :: B) ++ [o]) C HC) as (B' & E1 & P1); [apply Forall_app; by split; [|repeat constructor]|]. exists B'.
      rewrite length_app in E1. cbn [length] in E1. rewrite <- !app_assoc in E1, P1. cbn [app length] in *.
      replace (S (length A + S (length B)))%nat with (length A + S (length B + 1))%nat by lia. done.
Qed.

(** The network capture holds the messages of the recording in their order, and the
    recording itself is only rearranged. *)
Lemma network_capture (os : list KTestObject) :
  let '(os', n) := to_front (length os) 0 0 os in take n os' = List.filter network os /\ Permutation os' os.
Proof.
  destruct (to_front_spec (length os) [] [] os eq_refl ltac:(constructor)) as (B' & E & P). cbn [app length Nat.add] in *. rewrite E.
  split; [by apply take_app_length|done].
Qed.
