(* ===== verification/WorkerGroup.v ===== *)
(** * WorkerGroup: the queues of workers

    Models [klee/lib/Tase/WorkerInfo.h] and [klee/lib/Tase/WorkerGroup.h]: a group of
    workers as a stack, a queue or a priority queue.  [std::priority_queue] is its vector
    with [push_heap] and [pop_heap]; these algorithms, [make_heap] and [std::sort] leave
    the order of equal priorities open, so they are the class [Algorithms], with what the
    language guarantees in [AlgorithmsSpec].  Priorities are only compared, so rational
    numbers stand for the [double]s. *)

From Stdlib Require Import QArith Sorted.
From S2P Require Import Prelude Exits.
Local Open Scope Z_scope.

Record WorkerInfo := { pid : Z; originator : Z; branches : Z; priority : Q; pinfo : Z }.
Definition with_pid (p : Z) (w : WorkerInfo) : WorkerInfo :=
  {| pid := p; originator := originator w; branches := branches w; priority := priority w; pinfo := pinfo w |}.
Definition with_pinfo (i : Z) (w : WorkerInfo) : WorkerInfo :=
  {| pid := pid w; originator := originator w; branches := branches w; priority := priority w; pinfo := i |}.
#[export] Instance WorkerInfo_eq_dec : EqDecision WorkerInfo.
Proof. intros [p o b [qn qd] i] [p' o' b' [qn' qd'] i']. unfold Decision. repeat decide equality. Defined.

(** ** Algorithms of the standard library, with [MLPQGreaterThan] *)
Class Algorithms := {
  make_heap : list WorkerInfo -> list WorkerInfo;
  push_heap : list WorkerInfo -> list WorkerInfo;
  pop_heap : list WorkerInfo -> list WorkerInfo;
  sort_descending : list WorkerInfo -> list WorkerInfo;
}.
(** No element is above its parent; none is above the one before. *)
Definition heap (l : list WorkerInfo) : Prop := forall i x y,
  (0 < i)%nat -> l !! ((i - 1) `div` 2)%nat = Some x -> l !! i = Some y -> (priority y <= priority x)%Q.
Abbreviation descending := (StronglySorted (fun x y => priority y <= priority x)%Q).

Class AlgorithmsSpec (A : Algorithms) : Prop := {
  make_heap_perm l : make_heap l ≡ₚ l;
  make_heap_heap l : heap (make_heap l);
  push_heap_perm l w : heap l -> push_heap (l ++ [w]) ≡ₚ l ++ [w];
  push_heap_heap l w : heap l -> heap (push_heap (l ++ [w]));
  pop_heap_spec w l : heap (w :: l) -> exists l', pop_heap (w :: l) = l' ++ [w] /\ l' ≡ₚ l /\ heap l';
  sort_perm l : sort_descending l ≡ₚ l;
  sort_sorted l : descending (sort_descending l);
}.

(** ** The group *)
Inductive WorkerGroup_t := STACK | QUEUE | PQ.
Record WorkerGroup := { type : WorkerGroup_t; pq : list WorkerInfo; dq : list WorkerInfo }.
Definition new_WorkerGroup (t : WorkerGroup_t) : WorkerGroup := {| type := t; pq := []; dq := [] |}.

Section operations.
Context {A : Algorithms} {St : Type}.

Definition pop (g : WorkerGroup) : io St (WorkerInfo * WorkerGroup) :=
  match type g with
  | PQ => match pq g with
          | best :: _ => mret (best, {| type := PQ; pq := removelast (pop_heap (pq g)); dq := dq g |})
          | [] => undefined
          end
  | QUEUE => match dq g with
             | best :: dq' => mret (best, {| type := QUEUE; pq := pq g; dq := dq' |})
             | [] => undefined
             end
  | STACK => match last (dq g) with
             | Some best => mret (best, {| type := STACK; pq := pq g; dq := removelast (dq g) |})
             | None => undefined
             end
  end.

Definition push (w : WorkerInfo) (g : WorkerGroup) : WorkerGroup :=
  match type g with
  | PQ => {| type := PQ; pq := push_heap (pq g ++ [w]); dq := dq g |}
  | t => {| type := t; pq := pq g; dq := dq g ++ [w] |}
  end.

Definition empty (g : WorkerGroup) : bool :=
  match type g with PQ => (length (pq g) =? 0)%nat | _ => (length (dq g) =? 0)%nat end.
Definition size (g : WorkerGroup) : Z :=
  match type g with PQ => Z.of_nat (length (pq g)) | _ => Z.of_nat (length (dq g)) end.

(** The processes that are killed, in order. *)
Fixpoint cleanUp_pq (n : nat) (q : list WorkerInfo) : list Z :=
  match n, q with
  | S n', curr :: _ =>
      let killed := cleanUp_pq n' (removelast (pop_heap q)) in
      if pid curr =? -1 then killed else pid curr :: killed
  | _, _ => []
  end.
Fixpoint cleanUp_dq (n : nat) (q : list WorkerInfo) : list Z :=
  match n, last q with
  | S n', Some curr =>
      let killed := cleanUp_dq n' (removelast q) in
      if pid curr =? -1 then killed else pid curr :: killed
  | _, _ => []
  end.
Definition cleanUp (g : WorkerGroup) : list Z * WorkerGroup :=
  match type g with
  | PQ => (cleanUp_pq (length (pq g)) (pq g), {| type := PQ; pq := []; dq := dq g |})
  | t => (cleanUp_dq (length (dq g)) (dq g), {| type := t; pq := pq g; dq := [] |})
  end.

(** The first worker with the pid, and the others. *)
Fixpoint extract (p : Z) (l : list WorkerInfo) : option (WorkerInfo * list WorkerInfo) :=
  match l with
  | [] => None
  | w :: l' => if pid w =? p then Some (w, l')
               else match extract p l' with Some (w', r) => Some (w', w :: r) | None => None end
  end.
Definition find (p : Z) (g : WorkerGroup) : io St (option WorkerInfo) :=
  match type g with
  | PQ => exit 0
  | _ => mret (match extract p (dq g) with Some (w, _) => Some w | None => None end)
  end.
Definition get (p : Z) (g : WorkerGroup) : io St (option WorkerInfo * WorkerGroup) :=
  match type g with
  | PQ => exit 0
  | t => mret (match extract p (dq g) with
               | Some (w, rest) => (Some w, {| type := t; pq := pq g; dq := make_heap rest |})
               | None => (None, g)
               end)
  end.
End operations.

(** ** Sorting as an instance *)
Fixpoint insert_descending (w : WorkerInfo) (l : list WorkerInfo) : list WorkerInfo :=
  match l with
  | [] => [w]
  | x :: l' => if Qle_bool (priority x) (priority w) then w :: l else x :: insert_descending w l'
  end.
Definition insertion_sort (l : list WorkerInfo) : list WorkerInfo := foldr insert_descending [] l.
Definition sorting_algorithms : Algorithms := {|
  make_heap := insertion_sort;
  push_heap := insertion_sort;
  pop_heap l := match l with [] => [] | w :: l' => insertion_sort l' ++ [w] end;
  sort_descending := insertion_sort;
|}.

Lemma insert_perm w l : insert_descending w l ≡ₚ w :: l.
Proof.
  induction l as [|x l IH]; [done|]. simpl. destruct (Qle_bool _ _); [done|]. rewrite IH. constructor.
Qed.
Lemma insertion_sort_perm l : insertion_sort l ≡ₚ l.
Proof. induction l as [|x l IH]; [done|]. simpl. by rewrite insert_perm, IH. Qed.
Lemma insert_sorted w l : descending l -> descending (insert_descending w l).
Proof.
  induction 1 as [|x l Hs IH Hx]; [repeat constructor|]. simpl. destruct (Qle_bool _ _) eqn:E.
  - apply Qle_bool_iff in E. constructor; [by constructor|]. constructor; [done|].
    eapply Forall_impl; [exact Hx|]. intros y Hy. simpl in *. eapply Qle_trans; [exact Hy|exact E].
  - constructor; [done|]. apply Forall_forall. intros y Hy. rewrite insert_perm in Hy.
    apply elem_of_cons in Hy as [->|Hy]; [|by eapply Forall_forall in Hx].
    apply Qlt_le_weak, Qnot_le_lt. intros Hle. apply Qle_bool_iff in Hle. congruence.
Qed.
Lemma insertion_sort_sorted l : descending (insertion_sort l).
Proof. induction l as [|x l IH]; [constructor|]. simpl. by apply insert_sorted. Qed.

Lemma descending_lookup l i j x y : descending l -> (i < j)%nat -> l !! i = Some x -> l !! j = Some y -> (priority y <= priority x)%Q.
Proof.
  intros Hs. revert i j. induction Hs as [|z l Hs IH Hz]; intros i j Hij Hx Hy; [done|].
  destruct i as [|i], j as [|j]; try lia; simpl in *.
  - injection Hx as ->. exact (Forall_lookup_1 _ _ _ _ Hz Hy).
  - apply (IH i j); [lia|done|done].
Qed.
Lemma descending_heap l : descending l -> heap l.
Proof.
  intros Hs i x y Hi Hx Hy. apply (descending_lookup l ((i - 1) `div` 2) i); try done.
  apply Nat.Div0.div_lt_upper_bound. lia.
Qed.

Lemma sorting_algorithms_spec : AlgorithmsSpec sorting_algorithms.
Proof.
  split; cbn [make_heap push_heap pop_heap sort_descending sorting_algorithms]; intros;
    auto using insertion_sort_perm, insertion_sort_sorted, descending_heap.
  exists (insertion_sort l). auto using insertion_sort_perm, insertion_sort_sorted, descending_heap.
Qed.

(** ** The operations keep the contents *)
Definition contents (g : WorkerGroup) : list WorkerInfo := match type g with PQ => pq g | _ => dq g end.
Definition group_ok (g : WorkerGroup) : Prop := type g = PQ -> heap (pq g).
Definition processes (l : list WorkerInfo) : list Z := filter (fun p => p <> -1) (map pid l).

Lemma processes_perm l l' : l ≡ₚ l' -> processes l ≡ₚ processes l'.
Proof. intros H. unfold processes. by rewrite H. Qed.
Lemma processes_app l l' : processes (l ++ l') = processes l ++ processes l'.
Proof. unfold processes. by rewrite map_app, filter_app. Qed.
Lemma processes_cons w l : processes (w :: l) = if pid w =? -1 then processes l else pid w :: processes l.
Proof.
  unfold processes. simpl. rewrite filter_cons. destruct (Z.eqb_spec (pid w) (-1)); [by rewrite decide_False by tauto|by rewrite decide_True].
Qed.

Lemma heap_max w l : heap (w :: l) -> Forall (fun x => priority x <= priority w)%Q (w :: l).
Proof.
  intros H. apply Forall_lookup_2. intros i. induction (lt_wf i) as [i _ IH]. intros x Hx.
  destruct i as [|i]; [injection Hx as <-; apply Qle_refl|].
  assert (Hlt : ((S i - 1) `div` 2 < S i)%nat) by (apply Nat.Div0.div_lt_upper_bound; lia).
  destruct (lookup_lt_is_Some_2 (w :: l) ((S i - 1) `div` 2)) as [y Hy]; [apply lookup_lt_Some in Hx; lia|].
  eapply Qle_trans; [apply (H (S i) y x); [lia|done|done]|]. by apply (IH _ Hlt).
Qed.

Section correct.
Context {A : Algorithms} {S : AlgorithmsSpec A} {St : Type}.

Lemma group_push_ok w g : group_ok g -> group_ok (push w g) /\ type (push w g) = type g /\ contents (push w g) ≡ₚ w :: contents g /\
  (type g <> PQ -> contents (push w g) = contents g ++ [w]).
Proof.
  intros Hg. unfold push, contents, group_ok in *. destruct (type g); simpl;
    (split; [intros; auto using push_heap_heap || done|]); (split; [done|]); (split; [|done]).
  1, 2: by rewrite Permutation_app_comm.
  rewrite push_heap_perm by auto. by rewrite Permutation_app_comm.
Qed.

(** [w] is what the group hands out: the newest, the oldest, or one of the best. *)
Definition handed_out (g : WorkerGroup) (w : WorkerInfo) (g' : WorkerGroup) : Prop :=
  match type g with
  | STACK => contents g = contents g' ++ [w]
  | QUEUE => contents g = w :: contents g'
  | PQ => contents g ≡ₚ w :: contents g' /\ Forall (fun x => priority x <= priority w)%Q (contents g)
  end.

Lemma group_pop_ok g (st : St) : group_ok g -> contents g <> [] -> completes (pop g) st (fun p st' =>
  st' = st /\ group_ok (snd p) /\ type (snd p) = type g /\ contents g ≡ₚ fst p :: contents (snd p) /\ handed_out g (fst p) (snd p)).
Proof.
  intros Hg Hne. unfold handed_out, pop, contents, group_ok in *. destruct (type g) eqn:Et; simpl.
  - destruct (proj2 (last_is_Some (dq g)) Hne) as [w Hw]. rewrite Hw.
    assert (E : dq g = removelast (dq g) ++ [w]).
    { apply last_Some in Hw as [l' ->]. by rewrite removelast_last. }
    apply completes_ret. simpl. split_and!; try done.
    rewrite E at 1. apply Permutation_app_comm.
  - destruct (dq g) as [|w l]; [done|]. apply completes_ret. simpl. by split_and!.
  - destruct (pq g) as [|w l] eqn:Eq; [done|]. apply completes_ret. simpl.
    destruct (pop_heap_spec w l (Hg eq_refl)) as (l' & -> & Hp & Hh). rewrite removelast_last.
    assert (w :: l ≡ₚ w :: l') by (by rewrite Hp). split_and!; try done. by apply heap_max, Hg.
Qed.

Lemma empty_contents g : empty g = true <-> contents g = [].
Proof. unfold empty, contents. destruct (type g); rewrite Nat.eqb_eq; apply length_zero_iff_nil. Qed.
Lemma size_contents g : size g = Z.of_nat (length (contents g)).
Proof. unfold size, contents. by destruct (type g). Qed.

Lemma cleanUp_pq_ok n : forall q, heap q -> length q = n -> cleanUp_pq n q ≡ₚ processes q.
Proof.
  induction n as [|n IH]; intros [|w q] Hq Hn; try done. cbn [cleanUp_pq].
  destruct (pop_heap_spec w q Hq) as (l' & -> & Hp & Hh). rewrite removelast_last.
  assert (Hlen : length l' = n) by (rewrite Hp; simpl in Hn; lia).
  pose proof (IH l' Hh Hlen) as E. rewrite processes_cons. rewrite (processes_perm _ _ Hp) in E.
  destruct (pid w =? -1); [done|]. by constructor.
Qed.
Lemma cleanUp_dq_ok n : forall q, length q = n -> cleanUp_dq n q = rev (processes q).
Proof.
  induction n as [|n IH]; intros q Hn; [by apply length_zero_iff_nil in Hn as ->|].
  destruct q as [|x q'] using rev_ind; [done|]. clear IHq'. rewrite length_app in Hn. simpl in Hn. cbn [cleanUp_dq].
  rewrite last_snoc, removelast_last, IH by lia. rewrite processes_app, processes_cons. simpl.
  destruct (pid x =? -1); [by rewrite app_nil_r|]. by rewrite rev_app_distr.
Qed.
Lemma cleanUp_ok g : group_ok g -> fst (cleanUp g) ≡ₚ processes (contents g) /\ contents (snd (cleanUp g)) = [] /\
  type (snd (cleanUp g)) = type g /\ group_ok (snd (cleanUp g)).
Proof.
  intros Hg. unfold cleanUp, contents, group_ok in *. destruct (type g) eqn:Et; simpl; split_and!; try done.
  1, 2: rewrite cleanUp_dq_ok by done; symmetry; apply Permutation_rev.
  apply cleanUp_pq_ok; [by apply Hg|done].
Qed.

Lemma extract_ok p l : match extract p l with
  | Some (w, r) => pid w = p /\ l ≡ₚ w :: r
  | None => p ∉ map pid l
  end.
Proof.
  induction l as [|x l IH]; simpl; [apply not_elem_of_nil|]. destruct (Z.eqb_spec (pid x) p); [done|].
  destruct (extract p l) as [[w r]|].
  - destruct IH as [? IH]. split; [done|]. rewrite IH. constructor.
  - rewrite not_elem_of_cons. split; [congruence|done].
Qed.
Lemma group_get_ok p g (st : St) : type g <> PQ -> completes (get p g) st (fun r st' =>
  st' = st /\ type (snd r) = type g /\
  match fst r with
  | Some w => pid w = p /\ contents g ≡ₚ w :: contents (snd r)
  | None => p ∉ map pid (contents g) /\ snd r = g
  end).
Proof.
  intros Ht. unfold get, contents. pose proof (extract_ok p (dq g)) as H.
  destruct (type g) eqn:Et; [| |done]; apply completes_ret; (destruct (extract p (dq g)) as [[w r]|]; simpl; [|by rewrite Et]);
    destruct H as [? H]; split_and!; try done; by rewrite make_heap_perm.
Qed.
Lemma group_find_ok p g (st : St) : type g <> PQ -> completes (find p g) st (fun r st' =>
  st' = st /\ match r with Some w => pid w = p /\ w ∈ contents g | None => p ∉ map pid (contents g) end).
Proof.
  intros Ht. unfold find, contents. pose proof (extract_ok p (dq g)) as H.
  destruct (type g) eqn:Et; [| |done]; apply completes_ret; (destruct (extract p (dq g)) as [[w r]|]; simpl; [|done]);
    destruct H as [? H]; (split; [done|]); (split; [done|]); rewrite H; by left.
Qed.
End correct.

(** ** The claims *)

(** All workers of a group, in the order in which [pop] hands them out. *)
Fixpoint pop_all {A : Algorithms} (n : nat) (g : WorkerGroup) : io unit (list WorkerInfo) :=
  match n with O => mret [] | S n => '(w, g) ← pop g; ws ← pop_all n g; mret (w :: ws) end.

Lemma pop_all_S {A : Algorithms} n g w g' ws :
  pop g tt = Done ((w, g'), tt) -> pop_all n g' tt = Done (ws, tt) -> pop_all (S n) g tt = Done (w :: ws, tt).
Proof. intros H1 H2. cbn [pop_all]. unfold mbind, io_bind. by rewrite H1, H2. Qed.
Lemma pop_all_queue {A : Algorithms} g : type g = QUEUE -> pop_all (length (dq g)) g tt = Done (dq g, tt).
Proof.
  destruct g as [t p d]. cbn [type dq]. intros ->. induction d as [|w d IH]; [done|]. by eapply pop_all_S.
Qed.
Lemma pop_all_stack {A : Algorithms} g : type g = STACK -> pop_all (length (dq g)) g tt = Done (rev (dq g), tt).
Proof.
  destruct g as [t p d]. cbn [type dq]. intros ->. induction d as [|w d IH] using rev_ind; [done|].
  rewrite length_app, Nat.add_comm, rev_app_distr. eapply pop_all_S; [|exact IH].
  unfold pop. cbn [type dq pq]. by rewrite last_snoc, removelast_last.
Qed.
Lemma push_all_contents {A : Algorithms} ws : forall g, type g <> PQ ->
  let g' := fold_left (fun g w => push w g) ws g in type g' = type g /\ dq g' = dq g ++ ws.
Proof.
  induction ws as [|w ws IH]; intros g Hg; simpl; [by rewrite app_nil_r|].
  assert (type (push w g) = type g /\ dq (push w g) = dq g ++ [w]) as [Et Ed] by (unfold push; by destruct (type g)).
  destruct (IH (push w g)) as [E1 E2]; [congruence|]. rewrite E1, E2, Ed, <- app_assoc. by split.
Qed.

(** C22. [WorkerGroup] implements a stack, a queue and a priority queue.  [push] puts the
    worker at the end of the deque of a stack or queue and into the heap of a priority
    queue.  [pop] of a group that is not empty takes the last of a stack, the first of a
    queue and one of the highest priority of a priority queue, and leaves the others, in
    their order for a stack and a queue.  So workers pushed into a new queue are handed out
    in that order, and into a new stack in the reverse order.  [get] of a stack or queue
    (it exits for a priority queue) removes the worker with a pid exactly when there is
    one; it keeps the other workers but not their order (see [get_loses_order]).
    [cleanUp] kills the process of every worker that has one, each once, and empties the
    group.  The heap of a priority queue is kept throughout. *)
Theorem worker_group_correct {A : Algorithms} {S : AlgorithmsSpec A} (g : WorkerGroup) (w : WorkerInfo) (p : Z) (ws : list WorkerInfo) :
  group_ok g ->
  (group_ok (push w g) /\ type (push w g) = type g /\
    match type g with PQ => contents (push w g) ≡ₚ w :: contents g | _ => contents (push w g) = contents g ++ [w] end) /\
  (contents g <> [] -> exists w' g', pop g tt = Done ((w', g'), tt) /\ group_ok g' /\ type g' = type g /\ handed_out g w' g') /\
  (pop_all (length ws) (fold_left (fun g w => push w g) ws (new_WorkerGroup QUEUE)) tt = Done (ws, tt) /\
   pop_all (length ws) (fold_left (fun g w => push w g) ws (new_WorkerGroup STACK)) tt = Done (rev ws, tt)) /\
  (type g <> PQ -> exists r g', get p g tt = Done ((r, g'), tt) /\ group_ok g' /\ type g' = type g /\
    match r with
    | Some w' => pid w' = p /\ contents g ≡ₚ w' :: contents g'
    | None => p ∉ map pid (contents g) /\ g' = g
    end) /\
  (fst (cleanUp g) ≡ₚ processes (contents g) /\ empty (snd (cleanUp g)) = true).
Proof.
  intros Hg. split; [|split; [|split; [|split]]].
  - destruct (group_push_ok w g Hg) as (? & ? & ? & Hd). split_and!; try done. destruct (type g); auto; by apply Hd.
  - intros Hne. destruct (group_pop_ok g tt Hg Hne) as ([w' g'] & [] & E & _ & ? & ? & ? & ?). by exists w', g'.
  - destruct (push_all_contents ws (new_WorkerGroup QUEUE)) as [E1 E2]; [done|]. destruct (push_all_contents ws (new_WorkerGroup STACK)) as [E3 E4]; [done|].
    cbn [new_WorkerGroup dq app] in E2, E4. split.
    + rewrite <- E2 at 1 3. by apply pop_all_queue.
    + rewrite <- E4 at 1 3. by apply pop_all_stack.
  - intros Ht. destruct (group_get_ok p g tt Ht) as ([r g'] & [] & E & _ & Ht' & H). exists r, g'. split; [done|]. split; [|done].
    intros E'. simpl in Ht'. congruence.
  - destruct (cleanUp_ok g Hg) as (? & ? & _). split; [done|]. by apply empty_contents.
Qed.

Definition worker (p : Z) (q : Q) : WorkerInfo := {| pid := p; originator := 1; branches := 0; priority := q; pinfo := 8 * p |}.
Lemma worker_group_correct_witness :
  exists w' g', pop (A := sorting_algorithms) {| type := PQ; pq := [worker 7 (1 # 2); worker (-1) (1 # 3)]; dq := [] |} tt = Done ((w', g'), tt) /\
    pid w' = 7 /\ fst (cleanUp (A := sorting_algorithms) g') = [].
Proof.
  destruct (@worker_group_correct sorting_algorithms sorting_algorithms_spec
    {| type := PQ; pq := [worker 7 (1 # 2); worker (-1) (1 # 3)]; dq := [] |} (worker 3 1) 0 []) as (_ & Hp & _).
  - intros _. apply descending_heap. repeat constructor. vm_compute. discriminate.
  - destruct (Hp ltac:(discriminate)) as (w' & g' & E & _). exists w', g'. split; [exact E|].
    vm_compute in E. injection E as <- <-. split; reflexivity.
Defined.

(** [get] rearranges a queue or a stack into a heap: the order of arrival is lost. *)
Example get_loses_order :
  let g := fold_left (fun g w => push (A := sorting_algorithms) w g) [worker 1 1; worker 2 2; worker 3 3] (new_WorkerGroup QUEUE) in
  match get (A := sorting_algorithms) 2 g tt with
  | Done ((_, g'), _) => match pop (A := sorting_algorithms) g' tt with Done ((w, _), _) => pid w = 3 | _ => False end
  | _ => False
  end.
Proof. reflexivity. Qed.
