(* ===== verification/Manager.v ===== *)
(** * Manager: the process that schedules the workers

    Models the manager's side of [klee/lib/Tase/API_Alt.cpp]: it keeps the workers that
    stopped at a branch and those that run, decides which branches of a fork are backed
    by a process and which are replayed later, and starts a new round for each verified
    message.

    The state is the globals of the file.  Workers are other processes: what they write
    to the shared buffer [dinfo] is an argument of the event ([None] when the check of
    the magic numbers fails), and what the manager does to them (signals, waits,
    messages) is the list [trace].  Wall-clock readings are arguments too, over an
    abstract type of [double]s ([DoubleOps]).  The oracle [new_predict] and the last block of a
    worker's slot [getWorkerLastMLBBID] belong to the client and are parameters.  Log
    output, the times and cache counters of the oracle and the message types kept for
    the log are left out. *)

From Stdlib Require Import QArith.
From S2P Require Import Prelude Exits WorkerGroup.
Local Open Scope Z_scope.

Inductive VerTestType := EXPLORATION | TRAIN | REPLAY | VERIFY | SINGLEMSGVER.
Inductive TASEExplorationType := DFS | BFS | ML | ED.

(** The options and the constants set at start. *)
Record config := {
  verTestType : VerTestType;
  explorationType : TASEExplorationType;
  useFallBackOracle : bool;
  fallBackBranchThreshold : Z;
  MAX_RUNNING_WORKERS : Z;
  MAX_STOPPED_WORKERS : Z;
  msgsToVerify : Z;
  singleMsgVerificationIdx : Z;
  printRecordsOnVerFail : bool;
  forkElisionPriorityThreshold : Q;
  mlinfo_cache : Z;
  pinfo_bytes : Z;
}.
Definition MAX_PICKED_WORKERS : Z := 2000.
Definition MAX_MLINFO_SLOTS : Z := 10000.
(** [dest_size], the bytes of [dinfo]. *)
Definition dest_size : Z := 8 * 600.
(** [(int)] of a [uint64_t]. *)
Definition to_int (v : Z) : Z := sgn 32 (wrap 32 v).

(** What was read from [dinfo]. *)
Abbreviation message := (option (list Z)).
Inductive action :=
| Continue (p : Z) (slot : option Z)      (* SIGCONT, with the slot as its value *)
| Kill (p : Z)                            (* SIGKILL *)
| WaitStopped (p : Z)
| WaitKilled (p : Z)
| Send (v : list Z).

(** The [double]s of the records.  [slot_costTime] and [slot_arrTime] are the two times
    that [getNewSlot] reads when it is out of space: it then ends the process, so they
    are read at most once. *)
Class DoubleOps (double : Type) := {
  dadd : double -> double -> double;
  dsub : double -> double -> double;
  dmax : double -> double -> double;
  slot_costTime : double;
  slot_arrTime : double;
}.

Section manager.
Context {A : Algorithms} {double : Type} {D : DoubleOps double}.
Variable new_predict : WorkerInfo -> list Z -> list Z -> list WorkerInfo.
Variable getWorkerLastMLBBID : WorkerInfo -> Z.
Variable cfg : config.

(** The records of the verified messages. *)
Record statistics := {
  firstMessageArrivalTime : double;
  costTimes : list double;
  arrTimes : list double;
  compTimes : list double;
  lagTimes : list double;
  roundBranches : list Z;
  roundReplays : list Z;
}.
Record manager := {
  Stopped : WorkerGroup;
  Running : WorkerGroup;
  replay_pid : Z;
  next_open_mlinfo_slot : Z;
  pickedWorkers : Z;
  fallbackOracleActive : bool;
  curr_worker_is_replay : bool;
  round_replays : Z;
  msgCtr : Z;
  currMsgVerIdx : Z;
  success : bool;
  stats : statistics;
  trace : list action;
}.
Abbreviation M := (io manager).

Definition set_groups (s r : WorkerGroup) (st : manager) : manager := {| Stopped := s; Running := r; replay_pid := replay_pid st;
  next_open_mlinfo_slot := next_open_mlinfo_slot st; pickedWorkers := pickedWorkers st; fallbackOracleActive := fallbackOracleActive st;
  curr_worker_is_replay := curr_worker_is_replay st; round_replays := round_replays st; msgCtr := msgCtr st;
  currMsgVerIdx := currMsgVerIdx st; success := success st; stats := stats st; trace := trace st |}.
Definition set_replay_pid (p : Z) (st : manager) : manager := {| Stopped := Stopped st; Running := Running st; replay_pid := p;
  next_open_mlinfo_slot := next_open_mlinfo_slot st; pickedWorkers := pickedWorkers st; fallbackOracleActive := fallbackOracleActive st;
  curr_worker_is_replay := curr_worker_is_replay st; round_replays := round_replays st; msgCtr := msgCtr st;
  currMsgVerIdx := currMsgVerIdx st; success := success st; stats := stats st; trace := trace st |}.
Definition set_slot (s : Z) (st : manager) : manager := {| Stopped := Stopped st; Running := Running st; replay_pid := replay_pid st;
  next_open_mlinfo_slot := s; pickedWorkers := pickedWorkers st; fallbackOracleActive := fallbackOracleActive st;
  curr_worker_is_replay := curr_worker_is_replay st; round_replays := round_replays st; msgCtr := msgCtr st;
  currMsgVerIdx := currMsgVerIdx st; success := success st; stats := stats st; trace := trace st |}.
(** [pickedWorkers], [fallbackOracleActive], [curr_worker_is_replay], [round_replays]. *)
Definition set_round (picked : Z) (fallback replaying : bool) (replays : Z) (st : manager) : manager :=
  {| Stopped := Stopped st; Running := Running st; replay_pid := replay_pid st;
  next_open_mlinfo_slot := next_open_mlinfo_slot st; pickedWorkers := picked; fallbackOracleActive := fallback;
  curr_worker_is_replay := replaying; round_replays := replays; msgCtr := msgCtr st;
  currMsgVerIdx := currMsgVerIdx st; success := success st; stats := stats st; trace := trace st |}.
Definition set_messages (ctr idx : Z) (done : bool) (s : statistics) (st : manager) : manager :=
  {| Stopped := Stopped st; Running := Running st; replay_pid := replay_pid st;
  next_open_mlinfo_slot := next_open_mlinfo_slot st; pickedWorkers := pickedWorkers st; fallbackOracleActive := fallbackOracleActive st;
  curr_worker_is_replay := curr_worker_is_replay st; round_replays := round_replays st; msgCtr := ctr;
  currMsgVerIdx := idx; success := done; stats := s; trace := trace st |}.
Definition add_trace (l : list action) (st : manager) : manager := {| Stopped := Stopped st; Running := Running st;
  replay_pid := replay_pid st; next_open_mlinfo_slot := next_open_mlinfo_slot st; pickedWorkers := pickedWorkers st;
  fallbackOracleActive := fallbackOracleActive st; curr_worker_is_replay := curr_worker_is_replay st;
  round_replays := round_replays st; msgCtr := msgCtr st; currMsgVerIdx := currMsgVerIdx st; success := success st;
  stats := stats st; trace := trace st ++ l |}.

(** [init_structures], with the initial values of the globals. *)
Definition init_structures (zero : double) : manager := {|
  Stopped := new_WorkerGroup (match explorationType cfg with BFS => QUEUE | DFS => STACK | _ => PQ end);
  Running := new_WorkerGroup QUEUE; replay_pid := -1; next_open_mlinfo_slot := mlinfo_cache cfg; pickedWorkers := 0;
  fallbackOracleActive := false; curr_worker_is_replay := false; round_replays := 0; msgCtr := 0;
  currMsgVerIdx := singleMsgVerificationIdx cfg; success := false;
  stats := {| firstMessageArrivalTime := zero; costTimes := []; arrTimes := []; compTimes := []; lagTimes := [];
              roundBranches := []; roundReplays := [] |};
  trace := [] |}.

Definition gets {B} (f : manager -> B) : M B := fun st => Done (f st, st).
Definition modify (f : manager -> manager) : M unit := fun st => Done (tt, f st).
Definition emit (a : action) : M unit := modify (add_trace [a]).

(** ** Records of a round *)
Definition record_round (costTime arrTime : double) : M unit :=
  st ← gets id;
  let s := stats st in
  let costs := costTimes s ++ [costTime] in
  let first := if msgCtr st =? 0 then arrTime else firstMessageArrivalTime s in
  let arrs := arrTimes s ++ [dsub arrTime first] in
  compTime ← (if msgCtr st =? 0 then mret costTime
              else a ← at_index arrs (msgCtr st);
                   c ← at_index (compTimes s) (msgCtr st - 1);
                   k ← at_index costs (msgCtr st);
                   mret (dadd (dmax a c) k));
  let comps := compTimes s ++ [compTime] in
  c ← at_index comps (msgCtr st);
  a ← at_index arrs (msgCtr st);
  let s' := {| firstMessageArrivalTime := first; costTimes := costs; arrTimes := arrs; compTimes := comps;
               lagTimes := lagTimes s ++ [dsub c a]; roundBranches := roundBranches s ++ [pickedWorkers st];
               roundReplays := roundReplays s ++ [round_replays st] |} in
  modify (fun st => set_messages (msgCtr st) (currMsgVerIdx st) (success st) s' st).

(** ** Slots of worker information *)
Definition resetSlots : M unit := modify (set_slot (mlinfo_cache cfg)).
Definition getNewSlot : M Z :=
  res ← gets next_open_mlinfo_slot;
  modify (set_slot (res + pinfo_bytes cfg));;
  if mlinfo_cache cfg + MAX_MLINFO_SLOTS * pinfo_bytes cfg <=? res + pinfo_bytes cfg then
    (if printRecordsOnVerFail cfg then record_round slot_costTime slot_arrTime else mret tt);;
    exit 0
  else mret res.
Fixpoint getNewSlots (size : nat) : M (list Z) :=
  match size with O => mret [] | S n => s ← getNewSlot; l ← getNewSlots n; mret (s :: l) end.

(** ** Groups *)
Definition clean (g : WorkerGroup) : list action := map Kill (fst (cleanUp g)).
Definition Stopped_cleanUp : M unit := modify (fun st =>
  add_trace (clean (Stopped st)) (set_groups (snd (cleanUp (Stopped st))) (Running st) st)).
Definition Running_cleanUp : M unit := modify (fun st =>
  add_trace (clean (Running st)) (set_groups (Stopped st) (snd (cleanUp (Running st))) st)).
Definition cleanUp_all : M unit := Stopped_cleanUp;; Running_cleanUp.
Definition Stopped_push (w : WorkerInfo) : M unit := modify (fun st => set_groups (push w (Stopped st)) (Running st) st).
Definition Running_push (w : WorkerInfo) : M unit := modify (fun st => set_groups (Stopped st) (push w (Running st)) st).
Definition Stopped_pop : M WorkerInfo :=
  g ← gets Stopped; '(w, g') ← pop g; modify (fun st => set_groups g' (Running st) st);; mret w.
Definition Running_get (p : Z) : M (option WorkerInfo) :=
  g ← gets Running; '(w, g') ← get p g; modify (fun st => set_groups (Stopped st) g' st);; mret w.

(** ** Replays *)
Definition receive_vec_dinfo (m : message) : M (list Z) := match m with Some v => mret v | None => exit 0 end.
(** The size check of [send_vec_dinfo]: two magic numbers, the length and the items. *)
Definition send_vec_dinfo (v : list Z) : M unit :=
  if dest_size <=? u64 (to_int (8 * (Z.of_nat (length v) + 3))) then exit 0 else emit (Send v).

Definition receive_replay_pid (m : message) : M Z :=
  replayPIDVec ← receive_vec_dinfo m;
  if negb (length replayPIDVec =? 1)%nat then exit 0
  else p ← at_index replayPIDVec 0; mret (to_int p).
Definition managerPrepForReplay (m : message) : M Z :=
  res ← receive_replay_pid m;
  emit (WaitStopped res);;
  mret res.
Definition setup_for_replay (w : WorkerInfo) (m : message) : M Z :=
  if negb (pid w =? -1) then exit 0
  else
    res ← gets replay_pid;
    if res <=? 0 then exit 0
    else
      emit (Continue res (Some (pinfo w)));;
      emit (WaitStopped res);;
      p ← receive_replay_pid m;
      modify (set_replay_pid p);;
      emit (WaitStopped p);;
      mret res.

(** The information in the slot is zeroed. *)
Definition resetForBackupOracle (m : message) : M unit :=
  Stopped_cleanUp;;
  resetSlots;;
  slot ← getNewSlot;
  let w := {| pid := -1; originator := -1; branches := 0; priority := -1; pinfo := slot |} in
  assigned_pid ← setup_for_replay w m;
  Stopped_push (with_pid assigned_pid w).

(** ** Scheduling; [m1] and [m2] are what replay processes send. *)
Definition schedule_worker (m1 m2 : message) : M bool :=
  running ← gets Running;
  if size running <? MAX_RUNNING_WORKERS cfg then
    st ← gets id;
    (if useFallBackOracle cfg && negb (fallbackOracleActive st) && (fallBackBranchThreshold cfg <=? pickedWorkers st) then
       modify (fun st => set_round (pickedWorkers st) true (curr_worker_is_replay st) (round_replays st) st);;
       resetForBackupOracle m1;;
       modify (fun st => set_round (pickedWorkers st + 1) (fallbackOracleActive st) (curr_worker_is_replay st) (round_replays st) st)
     else mret tt);;
    curr ← Stopped_pop;
    modify (fun st => set_round (pickedWorkers st + 1) (fallbackOracleActive st) (curr_worker_is_replay st) (round_replays st) st);;
    curr ← (if pid curr =? -1 then
              modify (fun st => set_round (pickedWorkers st) (fallbackOracleActive st) true (round_replays st + 1) st);;
              assigned_pid ← setup_for_replay curr m2;
              mret (with_pid assigned_pid curr)
            else mret curr);
    Running_push curr;;
    emit (Continue (pid curr) (Some (pinfo curr)));;
    mret true
  else mret false.

(** The manager's side of [initial_fork], once the process [p] exists. *)
Definition initial_fork (p self : Z) (m : message) : M unit :=
  slot ← getNewSlot;
  Stopped_push {| pid := p; originator := self; branches := 0; priority := -1; pinfo := slot |};;
  emit (WaitStopped p);;
  r ← managerPrepForReplay m;
  modify (set_replay_pid r).

(** ** Forks *)
Definition choose_branches_to_elide (candidates : list WorkerInfo) : M (list Z) :=
  let candidates := sort_descending candidates in
  match candidates with
  | [] => undefined
  | c :: rest => mret (getWorkerLastMLBBID c ::
      map getWorkerLastMLBBID (filter (fun c => Qle_bool (forkElisionPriorityThreshold cfg) (priority c) = true) rest))
  end.

(** [for (int i = 0; i < n; i++)] *)
Fixpoint for_io {B} (n : nat) (i : Z) (body : Z -> B -> M B) (b : B) : M B :=
  match n with O => mret b | S n' => b ← body i b; for_io n' (i + 1) body b end.

Definition check_candidates (dests : list Z) (candidates : list WorkerInfo) : M unit :=
  for_io (length dests) 0 (fun i _ =>
    c ← at_index candidates i;
    match explorationType cfg with
    | BFS => mret tt
    | _ => if Qle_bool 0 (priority c) then mret tt else exit 0
    end) tt.
(** [BBIDToPID.insert] keeps the first pid of a block. *)
Definition match_pids (chosen pids : list Z) : M (gmap Z Z) :=
  for_io (length pids) 0 (fun i m =>
    b ← at_index chosen i;
    p ← at_index pids i;
    mret (match m !! b with Some _ => m | None => <[b := p]> m end)) ∅.
Definition push_candidates (requester : Z) (dests : list Z) (candidates : list WorkerInfo) (BBIDToPID : gmap Z Z) : M unit :=
  for_io (length candidates) 0 (fun i _ =>
    c ← at_index candidates i;
    d ← at_index dests i;
    match BBIDToPID !! d with
    | Some p =>
        let c := with_pid (to_int p) c in
        (if pid c =? requester then mret tt else emit (WaitStopped (pid c)));;
        Stopped_push c
    | None => Stopped_push (with_pid (-1) c)
    end) tt.

(** Too many workers: the records are kept if the option asks for them. *)
Definition check_limits (costTime arrTime : double) : M unit :=
  st ← gets id;
  if (MAX_STOPPED_WORKERS cfg <=? size (Stopped st)) || (MAX_PICKED_WORKERS <=? pickedWorkers st) then
    (if printRecordsOnVerFail cfg then record_round costTime arrTime else mret tt);;
    cleanUp_all;;
    exit 1
  else mret tt.

(** The first half of a fork request: the branches, their predictions, and the blocks
    the requester is told to fork. *)
Definition fork_choice (p : Z) (m_dests : message) : M (WorkerInfo * list Z * list WorkerInfo * list Z) :=
  running ← gets Running;
  found ← find p running;
  tmp ← match found with Some tmp => mret tmp | None => undefined end;
  emit (WaitStopped (pid tmp));;
  emit (Continue (pid tmp) None);;
  emit (WaitStopped (pid tmp));;
  dests ← receive_vec_dinfo m_dests;
  slots ← getNewSlots (length dests);
  modify (fun st => set_messages (match verTestType cfg with SINGLEMSGVER => singleMsgVerificationIdx cfg | _ => msgCtr st end)
                                 (currMsgVerIdx st) (success st) (stats st) st);;
  let candidates := new_predict tmp dests slots in
  check_candidates dests candidates;;
  chosen ← choose_branches_to_elide candidates;
  send_vec_dinfo chosen;;
  mret (tmp, dests, candidates, chosen).
(** The second half; [answer] is what the requester sends back when it is told which
    blocks to fork. *)
Definition fork_request (p : Z) (m_dests : message) (answer : list Z -> message) (costTime arrTime : double) : M unit :=
  '(tmp, dests, candidates, chosen) ← fork_choice p m_dests;
  emit (Continue (pid tmp) (Some (pinfo tmp)));;
  emit (WaitStopped (pid tmp));;
  pids ← receive_vec_dinfo (answer chosen);
  first ← at_index pids 0;
  if negb (first =? u64 (pid tmp)) then exit 0
  else
    BBIDToPID ← match_pids chosen pids;
    Running_get p;;
    push_candidates (pid tmp) dests candidates BBIDToPID;;
    check_limits costTime arrTime.

(** ** Rounds *)
Definition next_round (p : Z) (m : message) (costTime arrTime : double) : M unit :=
  record_round costTime arrTime;;
  modify (fun st => set_messages (msgCtr st + 1) (currMsgVerIdx st) (success st) (stats st) st);;
  modify (set_round 0 false false 0);;
  Stopped_cleanUp;;
  if msgsToVerify cfg <=? 0 then exit 0
  else
    ctr ← gets msgCtr;
    if msgsToVerify cfg <=? ctr then exit 0
    else
      resetSlots;;
      old ← gets replay_pid;
      emit (Kill old);;
      modify (set_replay_pid (-1));;
      found ← Running_get p;
      tmp ← match found with Some tmp => mret tmp | None => undefined end;
      emit (WaitStopped (pid tmp));;
      r ← managerPrepForReplay m;
      modify (set_replay_pid r);;
      slot ← getNewSlot;
      Stopped_push (with_pinfo slot tmp);;
      modify (fun st => set_messages (msgCtr st) (currMsgVerIdx st + 1) (success st) (stats st) st).

(** ** Signals *)
Inductive signal :=
| ERROR (p : Z)
| ABORT (p : Z)
| SUCCESS (p : Z) (replay : message) (costTime arrTime : double)
| FORK_REQUEST (p : Z) (dests : message) (answer : list Z -> message) (costTime arrTime : double).

(** [true]: go on with the remaining signals. *)
Definition handle_signal (s : signal) : M bool :=
  modify (fun st => set_round (pickedWorkers st) (fallbackOracleActive st) false (round_replays st) st);;
  match s with
  | ERROR _ => cleanUp_all;; exit 1
  | ABORT p => Running_get p;; emit (WaitKilled p);; mret true
  | SUCCESS p m costTime arrTime =>
      match verTestType cfg with
      | TRAIN | REPLAY | SINGLEMSGVER =>
          modify (fun st => set_messages (msgCtr st) (currMsgVerIdx st) true (stats st) st);; cleanUp_all;; exit 0
      | VERIFY => next_round p m costTime arrTime;; mret false
      | EXPLORATION => mret false
      end
  | FORK_REQUEST p dests answer costTime arrTime => fork_request p dests answer costTime arrTime;; mret true
  end.
Fixpoint handle_signals (l : list signal) : M unit :=
  match l with [] => mret tt | s :: l' => more ← handle_signal s; if more : bool then handle_signals l' else mret tt end.

(** ** The loop; a round takes what replay processes send and a batch of signals. *)
Fixpoint schedule_all (l : list (message * message)) : M unit :=
  st ← gets id;
  if negb (empty (Stopped st)) then
    match l with
    | [] => if size (Running st) <? MAX_RUNNING_WORKERS cfg then undefined else mret tt
    | (m1, m2) :: l' => b ← schedule_worker m1 m2; if b : bool then schedule_all l' else mret tt
    end
  else mret tt.
Definition manage_step (l : list (message * message)) (sigs : list signal) : M unit := schedule_all l;; handle_signals sigs.
(** [true]: all workers finished. *)
Fixpoint manage_workers (rounds : list (list (message * message) * list signal)) : M bool :=
  st ← gets id;
  if negb (success st) && negb (empty (Stopped st) && empty (Running st)) then
    match rounds with
    | [] => mret false
    | (l, sigs) :: rounds' => manage_step l sigs;; manage_workers rounds'
    end
  else cleanUp_all;; mret true.
End manager.
