(* ===== verification/ManagerSound.v ===== *)
(** * ManagerSound: the invariant of the manager

    Proves that scheduling, forks and rounds keep the processes and the slots of the
    workers apart, for every behaviour of the workers that an operating system allows:
    new processes have new pids, and signals come from running workers. *)

From Stdlib Require Import QArith.
From S2P Require Import Prelude Exits WorkerGroup Manager.
Local Open Scope Z_scope.

(** ** Rules for the operations on the state *)
Section rules.
Context {double : Type}.
Abbreviation mgr := (@manager double).
Lemma safe_modify {B} (f : mgr -> mgr) (k : unit -> io mgr B) st P : safe (k tt) (f st) P -> safe (modify f ≫= k) st P.
Proof. done. Qed.
Lemma safe_gets {B C} (f : mgr -> B) (k : B -> io mgr C) st P : safe (k (f st)) st P -> safe (gets f ≫= k) st P.
Proof. done. Qed.
Lemma safe_emit {B} a (k : unit -> io mgr B) st P : safe (k tt) (add_trace [a] st) P -> safe (emit a ≫= k) st P.
Proof. done. Qed.
Lemma safe_modify_last (f : mgr -> mgr) st (P : unit -> mgr -> Prop) : P tt (f st) -> safe (modify f) st P.
Proof. done. Qed.
Lemma safe_receive {B} m (k : list Z -> io mgr B) st P :
  (forall v, m = Some v -> safe (k v) st P) -> safe (receive_vec_dinfo m ≫= k) st P.
Proof. destruct m as [v|]; intros H; [by apply H|done]. Qed.
End rules.
Ltac steps := repeat first [apply safe_modify | apply safe_gets | apply safe_emit | apply safe_ret_bind]; cbv beta.

(** ** Lists of pids and slots *)
Lemma NoDup_omap_inj {A B} (f : A -> option B) l : NoDup l ->
  (forall x y b, x ∈ l -> y ∈ l -> f x = Some b -> f y = Some b -> x = y) -> NoDup (omap f l).
Proof.
  induction 1 as [|x l Hx Hl IH]; intros Hf; [constructor|]. simpl.
  assert (Hl' : NoDup (omap f l)) by (apply IH; intros ? ? ? ? ?; apply Hf; by right).
  destruct (f x) as [b|] eqn:E; [|done]. constructor; [|done]. intros (y & Hy & Ey)%list_elem_of_omap.
  apply Hx. by rewrite (Hf x y b ltac:(left) ltac:(by right) E Ey).
Qed.

Lemma NoDup_part {A} (l k : list A) : l ⊆+ k -> NoDup k -> NoDup l.
Proof. intros (k' & E)%submseteq_Permutation H. rewrite E in H. by apply NoDup_app in H as (? & _). Qed.

Section invariant.
Context {A : Algorithms} {S : AlgorithmsSpec A}.
Context {double : Type} {D : DoubleOps double}.
Variable new_predict : WorkerInfo -> list Z -> list Z -> list WorkerInfo.
Variable getWorkerLastMLBBID : WorkerInfo -> Z.
Variable cfg : config.
Abbreviation mgr := (@manager double).
Abbreviation base := (mlinfo_cache cfg).
Abbreviation bytes := (pinfo_bytes cfg).

(** The oracle answers for the branches in order, one slot each. *)
Hypothesis Hpredict : forall w dests slots, length slots = length dests ->
  map pinfo (new_predict w dests slots) = slots /\ map getWorkerLastMLBBID (new_predict w dests slots) = dests.
Hypothesis Hbytes : 0 < bytes.

Definition pid_range (p : Z) : Prop := 0 < p < 2 ^ 31.
Lemma to_int_pid p : pid_range p -> to_int p = p /\ u64 p = p.
Proof.
  unfold pid_range. intros H. unfold to_int. rewrite (wrap_small 32) by (unfold inw; lia). unfold sgn.
  destruct (Z.ltb_spec p (2 ^ (32 - 1))); [|lia]. split; [done|]. apply u64_small. lia.
Qed.

(** The replay process, the stopped and the running workers are different processes. *)
Definition live_pids (r : Z) (s run : list WorkerInfo) : list Z := r :: processes s ++ map pid run.
Definition pids_ok (r : Z) (s run : list WorkerInfo) : Prop :=
  NoDup (live_pids r s run) /\ Forall pid_range (live_pids r s run).
(** The slots in use are different cells of the cache, below the next one. *)
Definition slot_at (k : nat) : Z := base + Z.of_nat k * bytes.
Definition slots_ok (next : Z) (l : list WorkerInfo) : Prop := exists n : nat,
  next = slot_at n /\ Z.of_nat n < MAX_MLINFO_SLOTS /\ NoDup (map pinfo l) /\ Forall (fun s => exists k, (k < n)%nat /\ s = slot_at k) (map pinfo l).

Lemma slot_at_inj j k : slot_at j = slot_at k -> j = k.
Proof. unfold slot_at. nia. Qed.

Lemma pids_perm r s s' run run' : s ≡ₚ s' -> run ≡ₚ run' -> pids_ok r s run -> pids_ok r s' run'.
Proof.
  intros Hs Hr [H1 H2]. assert (E : live_pids r s run ≡ₚ live_pids r s' run').
  { unfold live_pids. by rewrite (processes_perm _ _ Hs), Hr. }
  split; by rewrite <- E.
Qed.
Lemma slots_perm next l l' : l ≡ₚ l' -> slots_ok next l -> slots_ok next l'.
Proof. intros H (n & ? & ? & H1 & H2). exists n. split; [done|]. split; [done|]. by rewrite <- H. Qed.

Definition fresh (q : Z) (l : list Z) : Prop := pid_range q /\ q ∉ l.

Lemma pids_start r w s run : pids_ok r (w :: s) run -> pid w <> -1 -> pids_ok r s (w :: run).
Proof.
  intros [H1 H2] Hw. unfold pids_ok, live_pids in *. rewrite processes_cons in *. destruct (Z.eqb_spec (pid w) (-1)); [done|].
  assert (E : r :: (pid w :: processes s) ++ map pid run ≡ₚ r :: processes s ++ map pid (w :: run)).
  { constructor. simpl. by rewrite Permutation_middle. }
  split; by rewrite <- E.
Qed.
Lemma pids_replay r q w s run : pids_ok r (w :: s) run -> pid w = -1 -> fresh q (live_pids r (w :: s) run) ->
  pids_ok q s (with_pid r w :: run).
Proof.
  unfold pids_ok, live_pids. intros [H1 H2] Hw [Hq Hn]. rewrite processes_cons, Hw in *. simpl in *.
  assert (E : q :: processes s ++ r :: map pid run ≡ₚ q :: r :: processes s ++ map pid run) by (constructor; by rewrite <- Permutation_middle).
  split; rewrite E; constructor; done.
Qed.
Lemma pids_stop r w s run : pids_ok r s (w :: run) -> pids_ok r s run.
Proof.
  unfold pids_ok, live_pids. simpl. intros [H1 H2].
  assert (E : r :: processes s ++ pid w :: map pid run ≡ₚ pid w :: r :: processes s ++ map pid run).
  { rewrite <- Permutation_middle. constructor. }
  rewrite E in H1. rewrite E in H2. apply NoDup_cons in H1 as [_ H1]. by apply Forall_cons in H2 as [_ H2].
Qed.
Lemma pids_round r q w s run : pids_ok r s (w :: run) -> fresh q (live_pids r s (w :: run)) -> pids_ok q [w] run.
Proof.
  unfold pids_ok, live_pids. simpl. intros [H1 H2] [Hq Hn]. apply NoDup_cons in H1 as [_ H1]. apply Forall_cons in H2 as [_ H2].
  apply NoDup_app in H1 as (_ & _ & H1). apply Forall_app in H2 as [_ H2]. rewrite processes_cons.
  assert (pid w =? -1 = false) as ->. { apply Forall_cons in H2 as [Hw _]. unfold pid_range in Hw. lia. }
  simpl. change (processes []) with (@nil Z). simpl. split; [|by constructor]. constructor; [|done]. intros Hin. apply Hn. right. apply elem_of_app. by right.
Qed.
Lemma pids_drop r s s' run : pids_ok r (s ++ s') run -> pids_ok r s' run.
Proof.
  unfold pids_ok, live_pids. rewrite processes_app, <- app_assoc. intros [H1 H2].
  apply NoDup_cons in H1 as [Hr H1]. apply Forall_cons in H2 as [Hr2 H2]. apply NoDup_app in H1 as (_ & _ & H1). apply Forall_app in H2 as [_ H2].
  split; constructor; try done. intros Hin. apply Hr. apply elem_of_app. by right.
Qed.
(** The branches of a fork: the requester's process and new ones. *)
Lemma pids_fork r w s run cands : pids_ok r s (w :: run) -> NoDup (processes cands) ->
  Forall (fun p => p = pid w \/ fresh p (live_pids r s (w :: run))) (processes cands) -> pids_ok r (cands ++ s) run.
Proof.
  intros Hok Hnd Hc. pose proof (pids_stop _ _ _ _ Hok) as [H1 H2]. destruct Hok as [G1 G2].
  unfold pids_ok, live_pids in *. rewrite processes_app.
  assert (E : r :: (processes cands ++ processes s) ++ map pid run ≡ₚ processes cands ++ (r :: processes s ++ map pid run)).
  { rewrite <- app_assoc. by rewrite Permutation_middle. }
  assert (E' : r :: processes s ++ map pid (w :: run) ≡ₚ pid w :: r :: processes s ++ map pid run).
  { simpl. rewrite <- Permutation_middle. constructor. }
  rewrite E' in G1, G2. apply NoDup_cons in G1 as [G1 _]. apply Forall_cons in G2 as [G2 _]. split; rewrite E.
  - apply NoDup_app. split_and!; [done| |done]. intros p Hp Hin. rewrite Forall_forall in Hc.
    destruct (Hc p Hp) as [->|[_ Hf]]; [done|]. apply Hf. rewrite E'. by right.
  - apply Forall_app. split; [|done]. eapply Forall_impl; [exact Hc|]. intros p [->|[? _]]; done.
Qed.

Lemma slots_drop next l l' : slots_ok next (l ++ l') -> slots_ok next l'.
Proof.
  intros (n & ? & ? & H1 & H2). exists n. rewrite map_app in *. apply NoDup_app in H1 as (_ & _ & ?). by apply Forall_app in H2 as [_ ?].
Qed.
Lemma slots_same next l l' : map pinfo l = map pinfo l' -> slots_ok next l -> slots_ok next l'.
Proof. intros E (n & ? & ? & H1 & H2). exists n. by rewrite <- E. Qed.
(** New slots for [l], beside those in use. *)
Lemma slots_new n k l l' : slots_ok (slot_at n) l -> map pinfo l' = map slot_at (seq n k) -> Z.of_nat (n + k) < MAX_MLINFO_SLOTS ->
  slots_ok (slot_at (n + k)) (l' ++ l).
Proof.
  intros (n' & En & _ & H1 & H2) E Hk. apply slot_at_inj in En as <-. exists (n + k)%nat. split; [done|]. split; [done|].
  rewrite map_app, E. split.
  - apply NoDup_app. split_and!; [|intros s Hs Hin|done].
    + apply NoDup_fmap; [intros x y; apply slot_at_inj|apply NoDup_seq].
    + apply list_elem_of_fmap in Hs as (j & -> & Hj%elem_of_seq). rewrite Forall_forall in H2.
      destruct (H2 _ Hin) as (k' & Hk' & Ek%slot_at_inj). lia.
  - apply Forall_app. split.
    + apply Forall_forall. intros s (j & -> & Hj%elem_of_seq)%list_elem_of_fmap. exists j. split; [lia|done].
    + eapply Forall_impl; [exact H2|]. intros s (k' & ? & ->). exists k'. split; [lia|done].
Qed.

(** *** Records *)
Definition stats_ok (ctr : Z) (s : @statistics double) : Prop := 0 <= ctr /\
  Z.of_nat (length (costTimes s)) = ctr /\ Z.of_nat (length (arrTimes s)) = ctr /\ Z.of_nat (length (compTimes s)) = ctr /\
  Z.of_nat (length (lagTimes s)) = ctr /\ Z.of_nat (length (roundBranches s)) = ctr /\ Z.of_nat (length (roundReplays s)) = ctr.
Lemma safe_at_index {B C} (v : list B) (i : nat) x (k : B -> io mgr C) st P : v !! i = Some x -> safe (k x) st P ->
  safe (at_index v (Z.of_nat i) ≫= k) st P.
Proof. intros Hx H. unfold safe. by rewrite (bind_done _ _ _ _ _ (at_index_lookup v i x st Hx)). Qed.
Lemma safe_last {B C} (v : list B) x ctr (k : B -> io mgr C) st P : Z.of_nat (length v) = ctr -> safe (k x) st P ->
  safe (at_index (v ++ [x]) ctr ≫= k) st P.
Proof. intros <- H. eapply safe_at_index; [|exact H]. by rewrite lookup_app_r, Nat.sub_diag by lia. Qed.

Lemma record_round_ok cost arr (st : mgr) : stats_ok (msgCtr st) (stats st) ->
  safe (record_round cost arr) st (fun _ st' => stats_ok (msgCtr st + 1) (stats st') /\
    Stopped st' = Stopped st /\ Running st' = Running st /\ replay_pid st' = replay_pid st /\
    next_open_mlinfo_slot st' = next_open_mlinfo_slot st /\ msgCtr st' = msgCtr st /\ currMsgVerIdx st' = currMsgVerIdx st /\
    trace st' = trace st).
Proof.
  intros (H0 & H1 & H2 & H3 & H4 & H5 & H6). unfold record_round. steps. cbn [id].
  eapply (safe_bind _ _ _ (fun _ st' => st' = st)).
  - destruct (Z.eqb_spec (msgCtr st) 0); [done|]. apply safe_last; [done|].
    destruct (lookup_lt_is_Some_2 (compTimes (stats st)) (Z.to_nat (msgCtr st - 1)) ltac:(lia)) as [x Hx].
    replace (msgCtr st - 1) with (Z.of_nat (Z.to_nat (msgCtr st - 1))) by lia. eapply safe_at_index; [exact Hx|]. by apply safe_last.
  - intros comp st' ->. cbv zeta. apply safe_last; [done|]. apply safe_last; [done|]. apply safe_modify_last. cbn.
    split; [|done]. unfold stats_ok. cbn. rewrite !length_app. simpl. lia.
Qed.

(** Out of space: the records are extended within their range, and the process ends. *)
Lemma out_of_space_ok {B} (st : mgr) (P : B -> mgr -> Prop) : stats_ok (msgCtr st) (stats st) ->
  safe ((if printRecordsOnVerFail cfg then record_round slot_costTime slot_arrTime else mret tt);; exit 0) st P.
Proof.
  intros Hs. eapply (safe_bind _ _ _ (fun _ _ => True)); [|by intros]. destruct (printRecordsOnVerFail cfg); [|done].
  eapply safe_weaken; [by apply record_round_ok|done].
Qed.

Lemma getNewSlots_ok k : forall n (st : mgr), next_open_mlinfo_slot st = slot_at n -> stats_ok (msgCtr st) (stats st) ->
  safe (getNewSlots cfg k) st (fun l st' =>
  l = map slot_at (seq n k) /\ st' = set_slot (slot_at (n + k)) st /\ (k = 0%nat \/ Z.of_nat (n + k) < MAX_MLINFO_SLOTS)).
Proof.
  induction k as [|k IH]; intros n st Hn Hst; cbn [getNewSlots].
  - apply safe_ret. split_and!; [done| |by left]. rewrite Nat.add_0_r. destruct st. cbn in *. by rewrite Hn.
  - unfold getNewSlot. eapply (safe_bind _ _ _ (fun s st' => s = slot_at n /\ st' = set_slot (slot_at (n + 1)) st /\ Z.of_nat (n + 1) < MAX_MLINFO_SLOTS)).
    + steps. rewrite Hn. destruct (Z.leb_spec (base + MAX_MLINFO_SLOTS * bytes) (slot_at n + bytes)); [by apply out_of_space_ok|]. apply safe_ret.
      assert (E : slot_at (n + 1) = slot_at n + bytes) by (unfold slot_at; lia). rewrite E. split_and!; [done|done|]. unfold slot_at in *. nia.
    + intros s st' (-> & -> & Hlt). eapply safe_bind; [apply (IH (n + 1)%nat); done|]. intros l st' (-> & -> & Hk).
      apply safe_ret. replace (n + 1 + k)%nat with (n + Datatypes.S k)%nat in * by lia. rewrite Nat.add_1_r. split_and!; [done|done|].
      right. destruct Hk; lia.
Qed.

(** ** The invariant *)
Record parts_ok (s r : WorkerGroup) (replay next ctr : Z) (t : @statistics double) : Prop := {
  ok_group : group_ok s;
  ok_queue : type r = QUEUE;
  ok_pids : pids_ok replay (contents s) (contents r);
  ok_slots : slots_ok next (contents s ++ contents r);
  ok_size : size r <= 1;
  ok_stats : stats_ok ctr t;
}.
Definition manager_ok (st : mgr) : Prop :=
  parts_ok (Stopped st) (Running st) (replay_pid st) (next_open_mlinfo_slot st) (msgCtr st) (stats st).
Definition live (st : mgr) : list Z := live_pids (replay_pid st) (contents (Stopped st)) (contents (Running st)).
(** A replay process sends the pid of a new process. *)
Definition replay_message (st : mgr) (m : option (list Z)) : Prop := forall q, m = Some [q] -> fresh q (live st).

Lemma safe_receive_replay {B} m (k : Z -> io mgr B) st P : (forall q, m = Some [q] -> pid_range q) ->
  (forall q, m = Some [q] -> safe (k q) st P) -> safe (receive_replay_pid m ≫= k) st P.
Proof.
  intros Hm Hk. unfold receive_replay_pid. apply safe_assoc, safe_receive. intros v ->. destruct v as [|q [|q' v]]; simpl; try done.
  apply safe_assoc. eapply (safe_at_index _ 0); [done|]. apply safe_ret_bind. destruct (to_int_pid q (Hm q eq_refl)) as [-> _]. by apply Hk.
Qed.

Lemma receive_replay_ok m (st : mgr) : replay_message st m ->
  safe (receive_replay_pid m) st (fun q st' => st' = st /\ fresh q (live st)).
Proof.
  intros Hm. unfold receive_replay_pid. apply safe_receive. intros v ->. destruct v as [|q [|q' v]]; simpl; try done.
  destruct (Hm q eq_refl) as [Hq Hf]. unfold mbind, io_bind. simpl. apply safe_ret. split; [done|].
  destruct (to_int_pid q Hq) as [-> _]. done.
Qed.

Lemma setup_for_replay_ok w m (st : mgr) : pid w = -1 -> pid_range (replay_pid st) -> replay_message st m ->
  safe (setup_for_replay w m) st (fun res st' => res = replay_pid st /\ exists q, fresh q (live st) /\
    replay_pid st' = q /\ Stopped st' = Stopped st /\ Running st' = Running st /\ next_open_mlinfo_slot st' = next_open_mlinfo_slot st /\
    msgCtr st' = msgCtr st /\ stats st' = stats st).
Proof.
  intros Hw Hr Hm. unfold setup_for_replay. rewrite Hw. simpl. steps.
  destruct (Z.leb_spec (replay_pid st) 0); [unfold pid_range in Hr; lia|]. steps.
  eapply safe_bind; [by apply receive_replay_ok|]. intros q st' [-> Hq]. steps. apply safe_ret. split; [done|]. by exists q.
Qed.

(** *** Scheduling, with one worker at a time *)
Hypothesis Hone : MAX_RUNNING_WORKERS cfg = 1.

Lemma no_running (st : mgr) : size (Running st) < 1 -> contents (Running st) = [].
Proof. rewrite size_contents. destruct (contents (Running st)); simpl; [done|lia]. Qed.
Lemma replay_in_range (st : mgr) : manager_ok st -> pid_range (replay_pid st).
Proof. intros H. destruct (ok_pids _ _ _ _ _ _ H) as [_ H2]. by apply Forall_cons in H2 as [? _]. Qed.
Lemma singleton_pids r q w : pid_range q -> pid_range r -> q <> r -> pid w = -1 -> pids_ok q [with_pid r w] [].
Proof.
  intros Hq Hr Hne Hw. unfold pids_ok, live_pids. rewrite processes_cons. simpl. unfold pid_range in Hr.
  assert (r =? -1 = false) as -> by lia. change (processes []) with (@nil Z). simpl. split; repeat constructor; unfold pid_range in *; try lia; set_solver.
Qed.

Lemma resetForBackupOracle_ok m (st : mgr) : manager_ok st -> contents (Running st) = [] -> replay_message st m ->
  safe (resetForBackupOracle cfg m) st (fun _ st' => manager_ok st' /\ contents (Running st') = [] /\
    exists w, contents (Stopped st') ≡ₚ [w] /\ pid w <> -1).
Proof.
  intros Hok Hrun Hm. pose proof (replay_in_range st Hok) as Hr. unfold resetForBackupOracle, Stopped_cleanUp, resetSlots. steps.
  pose proof (cleanUp_ok (Stopped st) (ok_group _ _ _ _ _ _ Hok)) as (_ & Hc & _ & Hg).
  set (st1 := set_slot _ _).
  assert (Hslot : safe (getNewSlot cfg) st1 (fun s st' => s = slot_at 0 /\ st' = set_slot (slot_at 1) st1 /\ Z.of_nat 1 < MAX_MLINFO_SLOTS)).
  { pose proof (getNewSlots_ok 1 0 st1) as H. cbn [getNewSlots] in H. unfold safe, mbind, io_bind in *.
    destruct (getNewSlot cfg st1) as [[s st']| |]; cbn in H; [|done|by apply H; [unfold slot_at; cbn; lia|apply Hok]].
    destruct H as ([= ->] & -> & ?); [unfold slot_at; cbn; lia|apply Hok|]. done. }
  eapply safe_bind; [exact Hslot|]. intros slot st' (-> & -> & _).
  set (w := {| pid := -1; originator := -1; branches := 0; priority := -1; pinfo := slot_at 0 |}).
  assert (Hlive : forall q, fresh q (live st) -> fresh q (live (set_slot (slot_at 1) st1))).
  { intros q [Hq Hn]. split; [done|]. intros Hin. apply Hn. unfold live, live_pids in *. cbn in Hin. rewrite Hc in Hin. cbn in Hin.
    rewrite Hrun in *. cbn in *. change (processes []) with (@nil Z) in Hin. set_solver. }
  eapply safe_bind; [apply (setup_for_replay_ok w); [done|done|intros q Eq; apply Hlive; by apply Hm]|].
  intros res st' (-> & q & Hq & Eq & Es & Er & En & Ec & Et). unfold Stopped_push. apply safe_modify_last. cbn in Es, Er, En, Ec, Et.
  pose proof (group_push_ok (with_pid (replay_pid st) w) (Stopped st') ltac:(rewrite Es; done)) as (G1 & _ & G2 & _).
  assert (Hc' : contents (Stopped st') = []) by (by rewrite Es). rewrite Hc' in G2.
  unfold manager_ok. cbn. split; [|split].
  - destruct Hok as [K1 K2 K3 K4 K5 K6]. split; cbn; try done.
    + by rewrite Er.
    + rewrite Er, Hrun, Eq. eapply pids_perm; [symmetry; exact G2|done|]. destruct Hq as [Hq Hn].
      apply singleton_pids; try done. intros ->. apply Hn. left.
    + rewrite Er, En, Hrun, app_nil_r. eapply slots_perm; [symmetry; exact G2|]. exists 1%nat. split_and!; [done|done| |].
      * apply NoDup_singleton.
      * repeat constructor. exists 0%nat. split; [lia|done].
    + by rewrite Er.
    + by rewrite Ec, Et.
  - by rewrite Er.
  - exists (with_pid (replay_pid st) w). split; [done|]. cbn. unfold pid_range in Hr. lia.
Qed.

(** Popping a worker and running it. *)
Lemma run_worker_ok m (st : mgr) : manager_ok st -> contents (Running st) = [] -> contents (Stopped st) <> [] ->
  (forall w, w ∈ contents (Stopped st) -> pid w = -1 -> replay_message st m) ->
  safe (curr ← Stopped_pop;
    modify (fun st => set_round (pickedWorkers st + 1) (fallbackOracleActive st) (curr_worker_is_replay st) (round_replays st) st);;
    curr ← (if pid curr =? -1 then
              modify (fun st => set_round (pickedWorkers st) (fallbackOracleActive st) true (round_replays st + 1) st);;
              assigned_pid ← setup_for_replay curr m;
              mret (with_pid assigned_pid curr)
            else mret curr);
    Running_push curr;;
    emit (Continue (pid curr) (Some (pinfo curr)));;
    mret true) st (fun b st' => manager_ok st' /\ b = true).
Proof.
  intros Hok Hrun Hne Hm. unfold Stopped_pop.
  destruct (group_pop_ok (St := mgr) (Stopped st) st (ok_group _ _ _ _ _ _ Hok) Hne) as ([w g] & st0 & E & -> & Hg & Ht & Hp & _). cbn in Hg, Ht, Hp.
  eapply (safe_bind _ _ _ (fun c st' => c = w /\ st' = set_groups g (Running st) st)).
  { steps. unfold safe, mbind, io_bind. by rewrite E. }
  intros c st' [-> ->]. steps. destruct Hok as [K1 K2 K3 K4 K5 K6]. set (st1 := set_round _ _ _ _ _).
  eapply (safe_bind _ _ _ (fun c st' => manager_ok (set_groups g (push c (Running st)) st') /\ Stopped st' = g /\ Running st' = Running st)).
  - pose proof (pids_perm _ _ _ _ _ Hp (Permutation_refl _) K3) as K3'.
    assert (Hslots : forall c, pinfo c = pinfo w -> slots_ok (next_open_mlinfo_slot st) (contents g ++ contents (push c (Running st)))).
    { intros c Hc. destruct (group_push_ok c (Running st) ltac:(intros E'; congruence)) as (_ & _ & Hpush & _).
      eapply (slots_perm _ (c :: contents g ++ contents (Running st))); [by rewrite Hpush, <- Permutation_middle|].
      eapply (slots_same _ (w :: contents g ++ contents (Running st))); [cbn; by rewrite Hc|]. eapply slots_perm; [|exact K4]. by rewrite Hp. }
    assert (Hsize : forall c, size (push c (Running st)) <= 1).
    { intros c. rewrite size_contents. destruct (group_push_ok c (Running st) ltac:(intros E'; congruence)) as (_ & _ & Hpush & _).
      rewrite Hpush, Hrun. done. }
    assert (Hq : forall c, type (push c (Running st)) = QUEUE).
    { intros c. by destruct (group_push_ok c (Running st) ltac:(intros E'; congruence)) as (_ & -> & _). }
    assert (Hpush : forall c, contents (push c (Running st)) ≡ₚ c :: contents (Running st)).
    { intros c. by destruct (group_push_ok c (Running st) ltac:(intros E'; congruence)) as (_ & _ & ? & _). }
    destruct (Z.eqb_spec (pid w) (-1)) as [Hw|Hw].
    + assert (Hmw : replay_message st m) by (apply (Hm w); [rewrite Hp; left|done]). steps.
      assert (Hlive : live_pids (replay_pid st) (w :: contents g) (contents (Running st)) ≡ₚ live st).
      { unfold live, live_pids. by rewrite (processes_perm _ _ Hp). }
      eapply safe_bind; [apply (setup_for_replay_ok w); [done| |]|].
      * cbn. destruct K3 as [_ K3]. by apply Forall_cons in K3 as [? _].
      * intros q Eq. destruct (Hmw q Eq) as [? Hn]. split; [done|]. intros Hin. apply Hn. rewrite <- Hlive. unfold live, live_pids in *. cbn in Hin.
        rewrite processes_cons, Hw. done.
      * intros res st' (-> & q & [Hqr Hqn] & Eq & Es & Er & En & Ec & Et). apply safe_ret. cbn in Es, Er, En, Ec, Et. split; [|done].
        unfold manager_ok. cbn. split; cbn; try done.
        -- rewrite Eq. eapply pids_perm; [done|symmetry; apply Hpush|]. apply pids_replay; [done|done|]. split; [done|].
           intros Hin. apply Hqn. unfold live, live_pids in *. cbn. by rewrite processes_cons, Hw in Hin.
        -- rewrite En. by apply Hslots.
        -- by rewrite Ec, Et.
    + apply safe_ret. split; [|done]. unfold manager_ok. cbn. split; cbn; try done; [|by apply Hslots].
      eapply pids_perm; [done|symmetry; apply Hpush|]. by apply pids_start.
  - intros c st' (Hc & Es & Er). unfold Running_push. steps. apply safe_ret. split; [|done]. unfold manager_ok in *. cbn in *. by rewrite Es, Er.
Qed.

Lemma schedule_worker_ok m1 m2 (st : mgr) : manager_ok st -> contents (Stopped st) <> [] -> replay_message st m1 -> replay_message st m2 ->
  safe (schedule_worker cfg m1 m2) st (fun b st' => manager_ok st' /\ (b = false -> st' = st) /\ (b = true -> size (Running st) < 1)).
Proof.
  intros Hok Hne Hm1 Hm2. unfold schedule_worker. rewrite Hone. steps.
  destruct (Z.ltb_spec (size (Running st)) 1) as [Hlt|]; [|apply safe_ret; done].
  pose proof (no_running st Hlt) as Hrun. steps.
  eapply (safe_bind _ _ _ (fun _ st' => manager_ok st' /\ contents (Running st') = [] /\ contents (Stopped st') <> [] /\
    forall w, w ∈ contents (Stopped st') -> pid w = -1 -> replay_message st' m2)).
  - destruct (_ && _ && _); [|apply safe_ret; by split_and!]. steps.
    eapply safe_bind; [by apply resetForBackupOracle_ok|]. intros _ st' (H1 & H2 & w & H3 & H4).
    apply safe_modify_last. cbn. split; [done|]. split; [done|]. split; [intros E; rewrite E in H3; by apply Permutation_nil_cons in H3|].
    intros w' Hw'. rewrite H3 in Hw'. apply list_elem_of_singleton in Hw' as ->. done.
  - intros _ st' (H1 & H2 & H3 & H4). eapply safe_weaken; [by apply run_worker_ok|]. intros b st'' [? ->]. by split_and!.
Qed.

(** *** Forks *)
Hypothesis Hmode : verTestType cfg <> SINGLEMSGVER.

Lemma for_io_safe {B} (I : nat -> B -> mgr -> Prop) n (body : Z -> B -> io mgr B) b st : I 0%nat b st ->
  (forall i b st, (i < n)%nat -> I i b st -> safe (body (Z.of_nat i) b) st (I (Datatypes.S i))) -> safe (for_io n 0 body b) st (I n).
Proof.
  intros H0 Hb. assert (Hgen : forall k i b st, (i + k = n)%nat -> I i b st -> safe (for_io k (Z.of_nat i) body b) st (I n)).
  { induction k as [|k IH]; intros i b' st' E Hi; cbn [for_io]; [apply safe_ret; by replace n with i by lia|].
    eapply safe_bind; [apply Hb; [lia|done]|]. intros b'' st'' Hi'. replace (Z.of_nat i + 1) with (Z.of_nat (Datatypes.S i)) by lia.
    apply IH; [lia|done]. }
  apply (Hgen n 0%nat); [lia|done].
Qed.
Lemma check_candidates_ok dests cands (st : mgr) : length cands = length dests ->
  safe (check_candidates cfg dests cands) st (fun _ st' => st' = st).
Proof.
  intros Hl. apply (for_io_safe (fun _ _ st' => st' = st)); [done|]. intros i _ st' Hi ->.
  destruct (lookup_lt_is_Some_2 cands i ltac:(lia)) as [c Hc]. eapply safe_at_index; [exact Hc|].
  destruct (explorationType cfg); try done; by destruct (Qle_bool _ _).
Qed.

(** The branches chosen for a process: one of the highest priority, and exactly the
    others whose priority reaches the threshold. *)
Record elided (cands : list WorkerInfo) (best : WorkerInfo) (rest : list WorkerInfo) : Prop := {
  elided_part : best :: rest ⊆+ cands;
  elided_best : Forall (fun c => priority c <= priority best)%Q cands;
  elided_rest c : c ∈ rest -> (forkElisionPriorityThreshold cfg <= priority c)%Q;
  elided_all c : c ∈ cands -> (forkElisionPriorityThreshold cfg <= priority c)%Q -> c ∈ best :: rest;
}.

Lemma choose_branches_ok cands (st : mgr) : cands <> [] ->
  safe (choose_branches_to_elide getWorkerLastMLBBID cfg cands) st (fun chosen st' => st' = st /\ exists best rest,
    elided cands best rest /\ chosen = map getWorkerLastMLBBID (best :: rest)).
Proof.
  intros Hne. unfold choose_branches_to_elide. pose proof (sort_perm cands) as Hp. pose proof (sort_sorted cands) as Hs.
  destruct (sort_descending cands) as [|c rest]; [by apply Permutation_nil in Hp|].
  apply safe_ret. split; [done|]. eexists c, _. split; [|reflexivity]. split.
  - rewrite <- Hp. apply submseteq_skip. apply sublist_submseteq, sublist_filter.
  - rewrite <- Hp. apply Sorted.StronglySorted_inv in Hs as [_ Hs]. constructor; [apply Qle_refl|done].
  - intros c' [Hc' _]%list_elem_of_filter. by apply Qle_bool_iff.
  - intros c' Hc' Ht. rewrite <- Hp in Hc'. apply elem_of_cons in Hc' as [->|Hc']; [left|right].
    apply list_elem_of_filter. split; [by apply Qle_bool_iff|done].
Qed.

Definition assigns (chosen pids : list Z) (m : gmap Z Z) : Prop := forall d p,
  m !! d = Some p <-> exists j, chosen !! j = Some d /\ pids !! j = Some p.

Lemma match_pids_ok chosen pids (st : mgr) : NoDup chosen -> length pids = length chosen ->
  safe (match_pids chosen pids) st (fun m st' => st' = st /\ assigns chosen pids m).
Proof.
  intros Hnd Hl.
  eapply safe_weaken; [apply (for_io_safe (fun i m st' => st' = st /\ forall d p,
    m !! d = Some p <-> exists j, (j < i)%nat /\ chosen !! j = Some d /\ pids !! j = Some p))|].
  - split; [done|]. intros d p. rewrite lookup_empty. split; [done|]. intros (j & ? & _). lia.
  - intros i m st' Hi [-> Hm]. destruct (lookup_lt_is_Some_2 chosen i ltac:(lia)) as [b Hb].
    destruct (lookup_lt_is_Some_2 pids i Hi) as [q Hq]. eapply safe_at_index; [exact Hb|]. eapply safe_at_index; [exact Hq|].
    apply safe_ret. split; [done|]. intros d p.
    assert (Hnew : m !! b = None).
    { destruct (m !! b) as [x|] eqn:E; [|done]. apply Hm in E as (j & Hj & Hc & _). pose proof (NoDup_lookup _ _ _ _ Hnd Hb Hc). lia. }
    rewrite Hnew. destruct (decide (d = b)) as [->|Hne].
    + rewrite lookup_insert_eq. split; [intros [= <-]; exists i; split_and!; [lia|done|done]|].
      intros (j & Hj & Hc & Hp). rewrite (NoDup_lookup _ _ _ _ Hnd Hc Hb) in Hp. congruence.
    + rewrite lookup_insert_ne by done. rewrite Hm. split; intros (j & Hj & Hc & Hp); exists j; split_and!; try done; [lia|].
      destruct (decide (j = i)) as [->|]; [congruence|lia].
  - intros m st' [-> Hm]. split; [done|]. intros d p. rewrite Hm. split; intros (j & H); exists j; [tauto|].
    destruct H as [H1 H2]. apply lookup_lt_Some in H2 as ?. done.
Qed.

Definition assigned (m : gmap Z Z) (c : WorkerInfo) (d : Z) : WorkerInfo :=
  with_pid (match m !! d with Some p => to_int p | None => -1 end) c.

Lemma push_candidates_ok requester dests cands m (st : mgr) : length cands = length dests -> group_ok (Stopped st) ->
  safe (push_candidates requester dests cands m) st (fun _ st' =>
    contents (Stopped st') ≡ₚ zip_with (assigned m) cands dests ++ contents (Stopped st) /\ group_ok (Stopped st') /\
    Running st' = Running st /\ replay_pid st' = replay_pid st /\ next_open_mlinfo_slot st' = next_open_mlinfo_slot st /\
    msgCtr st' = msgCtr st /\ stats st' = stats st /\ trace st `prefix_of` trace st').
Proof.
  intros Hl Hg. set (ws := zip_with (assigned m) cands dests).
  eapply safe_weaken; [apply (for_io_safe (fun i _ st' => contents (Stopped st') ≡ₚ take i ws ++ contents (Stopped st) /\ group_ok (Stopped st') /\
    Running st' = Running st /\ replay_pid st' = replay_pid st /\ next_open_mlinfo_slot st' = next_open_mlinfo_slot st /\
    msgCtr st' = msgCtr st /\ stats st' = stats st /\ trace st `prefix_of` trace st')); [by split_and!|]|].
  - intros i _ st' Hi (H1 & H2 & H3 & H4 & H5 & H6 & H7 & H8). destruct (lookup_lt_is_Some_2 cands i Hi) as [c Hc].
    destruct (lookup_lt_is_Some_2 dests i ltac:(lia)) as [d Hd]. eapply safe_at_index; [exact Hc|]. eapply safe_at_index; [exact Hd|].
    assert (Hw : ws !! i = Some (assigned m c d)) by (unfold ws; by rewrite lookup_zip_with, Hc, Hd).
    assert (Hpush : forall tr : list action, safe (Stopped_push (assigned m c d)) (add_trace tr st') (fun _ st'' =>
      contents (Stopped st'') ≡ₚ take (Datatypes.S i) ws ++ contents (Stopped st) /\ group_ok (Stopped st'') /\
      Running st'' = Running st /\ replay_pid st'' = replay_pid st /\ next_open_mlinfo_slot st'' = next_open_mlinfo_slot st /\
      msgCtr st'' = msgCtr st /\ stats st'' = stats st /\ trace st `prefix_of` trace st'')).
    { intros tr. apply safe_modify_last. cbn. destruct (group_push_ok (assigned m c d) (Stopped st') H2) as (G1 & _ & G2 & _).
      split_and!; try done; [|by apply prefix_app_r]. rewrite G2, H1, (take_S_r _ _ _ Hw), <- app_assoc. cbn. by rewrite Permutation_middle. }
    assert (Hnil : add_trace [] st' = st') by (destruct st'; unfold add_trace; cbn; by rewrite app_nil_r).
    unfold assigned in Hpush. destruct (m !! d) as [q|]; [|rewrite <- Hnil; apply Hpush].
    cbn [pid with_pid]. destruct (to_int q =? requester); [|apply Hpush].
    eapply safe_bind; [by apply (safe_ret tt _ (fun _ st'' => st'' = st'))|]. intros _ st'' ->. rewrite <- Hnil. apply Hpush.
  - intros _ st' (H1 & H). split; [|done]. rewrite H1. unfold ws. rewrite take_ge; [done|]. rewrite length_zip_with. lia.
Qed.

Lemma assigned_processes m cands dests : length cands = length dests ->
  (forall d p, d ∈ dests -> m !! d = Some p -> pid_range p) ->
  processes (zip_with (assigned m) cands dests) = omap (fun d => m !! d) dests.
Proof.
  revert dests. induction cands as [|c cands IH]; intros [|d dests] Hl Hm; try done. cbn [zip_with omap list_omap].
  rewrite processes_cons, IH; [|simpl in Hl; lia|intros ? ? ?; apply Hm; by right]. unfold assigned. cbn [pid with_pid].
  destruct (m !! d) as [p|] eqn:E; [|done]. pose proof (Hm d p ltac:(left) E) as Hp. destruct (to_int_pid p Hp) as [-> _].
  unfold pid_range in Hp. by destruct (Z.eqb_spec p (-1)); [lia|].
Qed.
Lemma assigned_slots m cands dests : length cands = length dests -> map pinfo (zip_with (assigned m) cands dests) = map pinfo cands.
Proof.
  revert dests. induction cands as [|c cands IH]; intros [|d dests] Hl; try done. simpl. f_equal. apply IH. simpl in Hl. lia.
Qed.
(** The pids sent back go to the chosen branches, one each. *)
Lemma assigned_pids chosen pids dests m : NoDup chosen -> NoDup pids -> NoDup dests -> length pids = length chosen ->
  (forall d, d ∈ chosen -> d ∈ dests) -> assigns chosen pids m -> omap (fun d => m !! d) dests ≡ₚ pids.
Proof.
  intros Hc Hp Hd Hl Hsub Hm. apply NoDup_Permutation; [|done|].
  - apply NoDup_omap_inj; [done|]. intros x y b _ _ (j & J1 & J2)%Hm (j' & J3 & J4)%Hm.
    rewrite (NoDup_lookup _ _ _ _ Hp J2 J4) in J1. congruence.
  - intros p. rewrite list_elem_of_omap. split.
    + intros (d & _ & (j & _ & Hj)%Hm). by eapply list_elem_of_lookup_2.
    + intros (j & Hj)%list_elem_of_lookup. destruct (lookup_lt_is_Some_2 chosen j) as [d Hcj]; [apply lookup_lt_Some in Hj; lia|].
      exists d. split; [apply Hsub; by eapply list_elem_of_lookup_2|]. apply Hm. by exists j.
Qed.

Lemma check_limits_ok cost arr (st : mgr) : stats_ok (msgCtr st) (stats st) ->
  safe (check_limits cfg cost arr) st (fun _ st' => st' = st).
Proof.
  intros Hs. unfold check_limits. steps. destruct (_ || _); [|done].
  eapply (safe_bind _ _ _ (fun _ _ => True)); [|by intros]. destruct (printRecordsOnVerFail cfg); [|done].
  eapply safe_weaken; [by apply record_round_ok|done].
Qed.

(** *** The requests of workers *)

(** A running worker asks for a fork: its branches are different blocks, and it answers
    with its own pid and those of new processes, one for each block it was told. *)
Record fork_message (st : mgr) (p : Z) (dests : option (list Z)) (answer : list Z -> option (list Z)) : Prop := {
  fork_from : p ∈ map pid (contents (Running st));
  fork_dests ds : dests = Some ds -> ds <> [] /\ NoDup ds;
  fork_answer chosen v : answer chosen = Some v -> exists qs, v = p :: qs /\ length v = length chosen /\
    NoDup v /\ Forall (fun q => fresh q (live st)) qs;
}.

(** The process of a branch: the one reported for its block, or none. *)
Definition paired (chosen pids ds : list Z) (cands : list WorkerInfo) : Prop := forall i d c,
  ds !! i = Some d -> cands !! i = Some c ->
  (forall j, chosen !! j = Some d -> pids !! j = Some (pid c)) /\ (d ∉ chosen -> pid c = -1).

(** What a fork does: the requester leaves [Running]; every branch enters [Stopped] with
    its prediction and its own slot; the blocks of [best] and [rest] are sent to the
    requester, and the pids it reports go to the branches of these blocks, in order; the
    other branches wait for a replay. *)
Definition forked (st st' : mgr) (p : Z) (ds : list Z) (answer : list Z -> option (list Z)) : Prop :=
  exists w slots best rest pids cands, let chosen := map getWorkerLastMLBBID (best :: rest) in
  contents (Running st) ≡ₚ w :: contents (Running st') /\ pid w = p /\
  contents (Stopped st') ≡ₚ cands ++ contents (Stopped st) /\
  map (with_pid (-1)) cands = map (with_pid (-1)) (new_predict w ds slots) /\ map pinfo cands = slots /\ length cands = length ds /\
  elided (new_predict w ds slots) best rest /\ Send chosen ∈ trace st' /\ answer chosen = Some (p :: pids) /\
  paired chosen (p :: pids) ds cands /\ processes cands ≡ₚ p :: pids /\ Forall (fun q => fresh q (live st)) pids.

Lemma assigned_paired chosen pids ds cands m : NoDup chosen -> length pids = length chosen -> Forall pid_range pids -> assigns chosen pids m ->
  paired chosen pids ds (zip_with (assigned m) cands ds).
Proof.
  intros Hn Hl Hr Hm i d c Hd Hc. rewrite lookup_zip_with, Hd in Hc. destruct (cands !! i) as [x|]; [|done]. injection Hc as <-. split.
  - intros j Hj. destruct (lookup_lt_is_Some_2 pids j) as [q Hq]; [rewrite Hl; by eapply lookup_lt_Some|].
    assert (E : m !! d = Some q) by (apply Hm; by exists j). unfold assigned. rewrite E, Hq. cbn [pid with_pid].
    destruct (to_int_pid q) as [-> _]; [|done]. by eapply Forall_lookup_1.
  - intros Hnd. unfold assigned. destruct (m !! d) as [q|] eqn:E; [|done]. apply Hm in E as (j & Hj & _).
    by apply list_elem_of_lookup_2 in Hj.
Qed.

Lemma assigned_forget m cands dests : length cands = length dests ->
  map (with_pid (-1)) (zip_with (assigned m) cands dests) = map (with_pid (-1)) cands.
Proof.
  revert dests. induction cands as [|c cands IH]; intros [|d dests] Hl; try done. simpl. f_equal. apply IH. simpl in Hl. lia.
Qed.

Lemma Running_get_ok p (st : mgr) : type (Running st) = QUEUE -> safe (Running_get p) st (fun r st' => exists g,
  type g = QUEUE /\ st' = set_groups (Stopped st) g st /\
  match r with Some w => pid w = p /\ contents (Running st) ≡ₚ w :: contents g | None => p ∉ map pid (contents (Running st)) /\ g = Running st end).
Proof.
  intros Ht. unfold Running_get. steps. destruct (group_get_ok (St := mgr) p (Running st) st ltac:(by rewrite Ht)) as ([r g] & st0 & E & -> & Hg & H).
  unfold safe, mbind, io_bind. rewrite E. cbn in *. exists g. rewrite Hg. done.
Qed.

(** The requester is the only running worker with its pid. *)
Lemma requester_unique (st : mgr) w w' g : manager_ok st -> w ∈ contents (Running st) -> pid w' = pid w ->
  contents (Running st) ≡ₚ w' :: contents g -> w' = w.
Proof.
  intros [_ _ [K3 _] _ _ _] Hin Hp Hperm. apply NoDup_cons in K3 as [_ K3]. apply NoDup_app in K3 as (_ & _ & K3).
  rewrite Hperm in Hin. apply elem_of_cons in Hin as [->|Hin]; [done|]. rewrite Hperm in K3. cbn in K3.
  apply NoDup_cons in K3 as [K3 _]. exfalso. apply K3. rewrite Hp. by apply list_elem_of_fmap_2.
Qed.

(** The branches [ws] take the place of the requester [w]. *)
Lemma fork_parts (st : mgr) w g s' ws qs n k : manager_ok st -> contents (Running st) ≡ₚ w :: contents g -> type g = QUEUE ->
  group_ok s' -> contents s' ≡ₚ ws ++ contents (Stopped st) -> processes ws ≡ₚ pid w :: qs -> NoDup (pid w :: qs) ->
  Forall (fun q => fresh q (live st)) qs -> next_open_mlinfo_slot st = slot_at n -> map pinfo ws = map slot_at (seq n k) ->
  Z.of_nat (n + k) < MAX_MLINFO_SLOTS ->
  parts_ok s' g (replay_pid st) (slot_at (n + k)) (msgCtr st) (stats st).
Proof.
  intros [K1 K2 K3 K4 K5 K6] Hperm Ht Hg Hs Hproc Hnd Hfresh Hn Hslots Hk. split; try done.
  - eapply pids_perm; [symmetry; exact Hs|done|]. apply (pids_fork _ w).
    + eapply pids_perm; [done|exact Hperm|done].
    + by rewrite Hproc.
    + rewrite Hproc. constructor; [by left|]. eapply Forall_impl; [exact Hfresh|]. intros q [? Hq]. right. split; [done|].
      unfold live, live_pids in *. by rewrite Hperm in Hq.
  - eapply (slots_perm _ (ws ++ contents (Stopped st) ++ contents g)); [by rewrite Hs, app_assoc|]. apply (slots_new n); [|done|done]. rewrite <- Hn.
    eapply (slots_drop _ [w]). eapply slots_perm; [|exact K4]. rewrite Hperm. cbn [app]. symmetry. apply Permutation_middle.
  - assert (size g <= size (Running st)); [|lia]. rewrite !size_contents, Hperm. simpl. lia.
Qed.

(** What the requester has been told, and what it answered. *)
Lemma fork_assignment w ds slots chosen pids qs m best rest : NoDup ds -> length slots = length ds ->
  best :: rest ⊆+ new_predict w ds slots -> chosen = map getWorkerLastMLBBID (best :: rest) ->
  pids = pid w :: qs -> length pids = length chosen -> NoDup pids -> pid_range (pid w) -> Forall pid_range qs -> assigns chosen pids m ->
  NoDup chosen /\ processes (zip_with (assigned m) (new_predict w ds slots) ds) ≡ₚ pid w :: qs.
Proof.
  intros Hnd Hlen Hsub Hchosen Ev Hvl Hvn Hp Hqs Hm. destruct (Hpredict w ds slots Hlen) as [_ Hids].
  assert (Hcl : length (new_predict w ds slots) = length ds) by (rewrite <- Hids at 2; by rewrite length_map).
  assert (Hcs : chosen ⊆+ ds). { rewrite Hchosen, <- Hids. by apply fmap_submseteq. }
  assert (Hcn : NoDup chosen) by (by eapply NoDup_part). split; [done|]. rewrite <- Ev. rewrite assigned_processes; [|done|].
  - apply (assigned_pids chosen); try done. intros d Hd. by eapply elem_of_submseteq.
  - intros d q _ (j & _ & Hj)%Hm. apply list_elem_of_lookup_2 in Hj. rewrite Ev in Hj. apply elem_of_cons in Hj as [->|Hj]; [done|].
    by eapply Forall_forall in Hqs.
Qed.

(** The state when the answer arrives: the slots are taken. *)
Abbreviation fork_state n k tr st := (add_trace tr (set_messages (msgCtr st) (currMsgVerIdx st) (success st) (stats st) (set_slot (slot_at (n + k)) st))).

Lemma fork_choice_ok p m_dests answer (st : mgr) : manager_ok st -> fork_message st p m_dests answer ->
  safe (fork_choice new_predict getWorkerLastMLBBID cfg p m_dests) st (fun r st' => exists w ds n slots best rest tr,
    r = (w, ds, new_predict w ds slots, map getWorkerLastMLBBID (best :: rest)) /\ st' = fork_state n (length ds) tr st /\
    w ∈ contents (Running st) /\ pid w = p /\ m_dests = Some ds /\ next_open_mlinfo_slot st = slot_at n /\
    slots = map slot_at (seq n (length ds)) /\ Z.of_nat (n + length ds) < MAX_MLINFO_SLOTS /\ elided (new_predict w ds slots) best rest /\
    Send (map getWorkerLastMLBBID (best :: rest)) ∈ tr).
Proof.
  intros Hok [Hfrom Hdests _]. pose proof Hok as [_ K2 _ (n & Hn & _) _ K6]. unfold fork_choice. steps.
  destruct (group_find_ok (St := mgr) p (Running st) st ltac:(by rewrite K2)) as (found & st0 & E & -> & Hf).
  eapply safe_bind; [apply completes_safe; exists found, st; split; [exact E|exact (conj eq_refl eq_refl : (fun a b => a = found /\ b = st) found st)]|].
  intros f st' [-> ->]. destruct found as [w|]; [|done]. destruct Hf as [Hw Hwin].
  steps. apply safe_receive. intros ds ->. destruct (Hdests ds eq_refl) as [Hne Hnd].
  eapply safe_bind; [by apply (getNewSlots_ok (length ds) n)|]. intros slots st' (-> & -> & Hk).
  set (slots := map slot_at (seq n (length ds))).
  assert (Hlen : length slots = length ds) by (unfold slots; rewrite length_map, length_seq; done).
  destruct (Hpredict w ds slots Hlen) as [_ Hids]. steps.
  assert (Hcl : length (new_predict w ds slots) = length ds) by (rewrite <- Hids at 2; by rewrite length_map).
  eapply safe_bind; [by apply check_candidates_ok|]. intros _ st' ->.
  eapply safe_bind; [apply choose_branches_ok; intros E0; rewrite E0 in Hcl; by destruct ds|]. intros chosen st' (-> & best & rest & Hsub & ->).
  unfold send_vec_dinfo. destruct (_ <=? _); [done|]. steps. apply safe_ret.
  assert (Hctr : match verTestType cfg with SINGLEMSGVER => singleMsgVerificationIdx cfg | _ => msgCtr st end = msgCtr st) by (by destruct (verTestType cfg)).
  destruct Hk as [Hk|Hk]; [by destruct ds|]. exists w, ds, n, slots, best, rest. eexists. split; [done|]. split; [|split_and!; try done].
  - unfold add_trace, set_messages, set_slot. cbn. rewrite Hctr. by rewrite <- !app_assoc.
  - clear. set_solver.
Qed.

Lemma fork_request_ok p m_dests answer cost arr (st : mgr) : manager_ok st -> fork_message st p m_dests answer ->
  safe (fork_request new_predict getWorkerLastMLBBID cfg p m_dests answer cost arr) st (fun _ st' =>
    manager_ok st' /\ exists ds, m_dests = Some ds /\ forked st st' p ds answer).
Proof.
  intros Hok Hfm. pose proof Hok as [K1 K2 K3 _ _ K6]. unfold fork_request.
  eapply safe_bind; [by apply (fork_choice_ok p m_dests answer)|].
  intros r st' (w & ds & n & slots & best & rest & tr & -> & -> & Hwin & Hw & -> & Hn & Hslots & Hk & Hel & Hsend). pose proof (elided_part _ _ _ Hel) as Hsub. destruct Hfm as [_ Hdests Hanswer].
  destruct (Hdests ds eq_refl) as [_ Hnd]. steps. apply safe_receive. intros pids Hpids.
  destruct (Hanswer _ pids Hpids) as (qs & Ev & Hvl & Hvn & Hfresh).
  assert (Hp : pid_range p).
  { destruct K3 as [_ K3]. rewrite Forall_forall in K3. apply K3. right. apply elem_of_app. right. rewrite <- Hw. by apply list_elem_of_fmap_2. }
  eapply (safe_at_index _ 0); [by rewrite Ev|]. rewrite Hw. destruct (to_int_pid p Hp) as [_ ->]. rewrite Z.eqb_refl. cbn [negb].
  assert (Hlen : length slots = length ds) by (rewrite Hslots, length_map, length_seq; done).
  destruct (Hpredict w ds slots Hlen) as [Hpi Hids].
  assert (Hcl : length (new_predict w ds slots) = length ds) by (rewrite <- Hids at 2; by rewrite length_map).
  assert (Hcn : NoDup (map getWorkerLastMLBBID (best :: rest))).
  { eapply NoDup_part; [|exact Hnd]. rewrite <- Hids. by apply fmap_submseteq. }
  eapply safe_bind; [by apply match_pids_ok|]. intros m st' (-> & Hm).
  eapply safe_bind; [by apply Running_get_ok|]. intros r st' (g & Ht & -> & Hr). destruct r as [w'|].
  2:{ destruct Hr as [Hr _]. exfalso. apply Hr. rewrite <- Hw. by apply list_elem_of_fmap_2. }
  destruct Hr as [Hw' Hperm]. cbn in Hperm. rewrite (requester_unique st w w' g Hok Hwin ltac:(congruence) Hperm) in Hperm.
  eapply safe_bind; [by apply push_candidates_ok|]. intros _ st' (S1 & S2 & S3 & S4 & S5 & S6 & S7 & S8). cbn in S1, S3, S4, S5, S6, S7, S8.
  eapply safe_weaken; [apply check_limits_ok; by rewrite S6, S7|]. intros _ st'' ->.
  destruct (fork_assignment w ds slots (map getWorkerLastMLBBID (best :: rest)) pids qs m best rest) as [_ Hproc]; try done; try congruence.
  { eapply Forall_impl; [exact Hfresh|]. by intros q [? _]. }
  assert (Hrange : Forall pid_range pids) by (rewrite Ev; constructor; [done|]; eapply Forall_impl; [exact Hfresh|]; by intros q [? _]).
  split.
  - unfold manager_ok. rewrite S3, S4, S5, S6, S7.
    apply (fork_parts st w g (Stopped st') (zip_with (assigned m) (new_predict w ds slots) ds) qs n (length ds)); try done; [congruence|].
    by rewrite assigned_slots, Hpi.
  - exists ds. split; [done|]. exists w, slots, best, rest, qs, (zip_with (assigned m) (new_predict w ds slots) ds). cbv zeta. rewrite S3, <- Ev, <- Hw.
    split_and!; try done; [by apply assigned_forget|by rewrite assigned_slots|rewrite length_zip_with; lia| | |by rewrite Ev, <- Hw in *].
    + clear -S8 Hsend. destruct S8 as [tr' ->]. set_solver.
    + by apply assigned_paired.
Qed.

(** *** Rounds *)
Lemma getNewSlot_first (st : mgr) : next_open_mlinfo_slot st = base -> stats_ok (msgCtr st) (stats st) ->
  safe (getNewSlot cfg) st (fun s st' => s = slot_at 0 /\ st' = set_slot (slot_at 1) st).
Proof.
  intros Hn Hst. unfold getNewSlot. steps. rewrite Hn. destruct (_ <=? _); [by apply out_of_space_ok|]. apply safe_ret.
  replace (slot_at 0) with base by (unfold slot_at; lia). by replace (slot_at 1) with (base + bytes) by (unfold slot_at; lia).
Qed.

(** A verified message starts a round with its worker alone, in the first slot, and with
    the process that the worker reports for replays; the stopped workers and the old
    replay process have been killed. *)
Definition new_round (st st' : mgr) (p : Z) (m : option (list Z)) : Prop := exists w q,
  w ∈ contents (Running st) /\ pid w = p /\ contents (Stopped st') ≡ₚ [with_pinfo (slot_at 0) w] /\ contents (Running st') = [] /\
  m = Some [q] /\ replay_pid st' = q /\ fresh q (live st) /\ next_open_mlinfo_slot st' = slot_at 1 /\
  (forall k, k ∈ replay_pid st :: processes (contents (Stopped st)) -> Kill k ∈ trace st') /\
  msgCtr st' = msgCtr st + 1 /\ currMsgVerIdx st' = currMsgVerIdx st + 1 /\ pickedWorkers st' = 0 /\ round_replays st' = 0 /\
  fallbackOracleActive st' = false.

Lemma next_round_ok p m cost arr (st : mgr) : manager_ok st -> p ∈ map pid (contents (Running st)) -> replay_message st m ->
  safe (next_round cfg p m cost arr) st (fun _ st' => manager_ok st' /\ new_round st st' p m).
Proof.
  intros [K1 K2 K3 K4 K5 K6] Hp Hm. unfold next_round.
  destruct (cleanUp_ok (Stopped st) K1) as (Hkill & Hc & Htc & Hgc).
  eapply safe_bind; [by apply record_round_ok|]. intros _ st1 (Hst & E1 & E2 & E3 & E4 & E5 & E6 & E7). unfold Stopped_cleanUp, resetSlots. steps.
  destruct (_ <=? _); [done|]. steps. destruct (_ <=? _); [done|]. steps.
  eapply safe_bind; [apply Running_get_ok; cbn; by rewrite E2|]. intros r st2 (g & Ht & -> & Hr). cbn in Hr. rewrite E2 in Hr.
  destruct r as [w|]; [|by destruct Hr]. destruct Hr as [Hw Hperm].
  assert (Hg : contents g = []).
  { rewrite size_contents, Hperm in K5. simpl in K5. apply length_zero_iff_nil. lia. }
  rewrite Hg in Hperm. pose proof (pids_perm _ _ _ _ _ (Permutation_refl _) Hperm K3) as K3'.
  assert (Hlive : live st ≡ₚ live_pids (replay_pid st) (contents (Stopped st)) [w]) by (unfold live, live_pids; by rewrite Hperm).
  steps. unfold managerPrepForReplay. apply safe_assoc. apply safe_receive_replay; [intros q Eq; by destruct (Hm q Eq)|].
  intros q Eq. pose proof (Hm q Eq) as Hq. apply safe_assoc. steps.
  eapply safe_bind; [apply getNewSlot_first; [done|cbn; by rewrite E5]|]. intros slot st' [-> ->]. unfold Stopped_push. steps.
  apply safe_modify_last. set (w1 := with_pinfo (slot_at 0) w).
  destruct (group_push_ok w1 (snd (cleanUp (Stopped st))) Hgc) as (G1 & _ & G2 & _). rewrite Hc in G2. split.
  - unfold manager_ok. cbn. rewrite E1, E5. split; try done.
    + rewrite Hg. eapply pids_perm; [symmetry; exact G2|done|].
      assert (H : pids_ok q [w] []) by (eapply pids_round; [exact K3'|]; destruct Hq; split; [done|by rewrite <- Hlive]).
      destruct H as [H1 H2]. split; [|by unfold live_pids in *; rewrite processes_cons in *]. by unfold live_pids in *; rewrite processes_cons in *.
    + rewrite Hg, app_nil_r. eapply slots_perm; [symmetry; exact G2|]. exists 1%nat. split_and!; [done|done|apply NoDup_singleton|].
      repeat constructor. exists 0%nat. split; [lia|done].
    + rewrite size_contents, Hg. done.
  - exists w, q. cbn. rewrite E1, E3, E5, E6, E7. split_and!; try done; [rewrite Hperm; left|].
    intros k Hk. rewrite <- Hkill in Hk. unfold clean. apply elem_of_cons in Hk as [->|Hk]; [clear; set_solver|].
    apply (list_elem_of_fmap_2 Kill) in Hk. clear -Hk. set_solver.
Qed.

(** *** Signals *)
Abbreviation sig := (@signal double).
Abbreviation handle := (handle_signal new_predict getWorkerLastMLBBID cfg).
Definition signal_ok (st : mgr) (s : sig) : Prop :=
  match s with
  | ERROR _ | ABORT _ => True
  | SUCCESS p m _ _ => p ∈ map pid (contents (Running st)) /\ replay_message st m
  | FORK_REQUEST p dests answer _ _ => fork_message st p dests answer
  end.

Lemma handle_signal_ok s (st : mgr) : manager_ok st -> signal_ok st s -> safe (handle s) st (fun _ st' => manager_ok st').
Proof.
  intros Hok Hs. unfold handle_signal. steps. set (st1 := set_round _ _ _ _ st). assert (Hok1 : manager_ok st1) by exact Hok.
  destruct s as [p|p|p m cost arr|p dests answer cost arr].
  - done.
  - eapply safe_bind; [apply Running_get_ok; apply Hok1|]. intros r st' (g & Ht & -> & Hr). steps. apply safe_ret.
    destruct Hok1 as [K1 K2 K3 K4 K5 K6]. unfold manager_ok. cbn. destruct r as [w|]; [|destruct Hr as [_ ->]; by split].
    destruct Hr as [_ Hperm]. split; try done.
    + apply (pids_stop _ w). by eapply pids_perm; [|exact Hperm|].
    + apply (slots_drop _ [w]). eapply slots_perm; [|exact K4]. rewrite Hperm. cbn [app]. symmetry. apply Permutation_middle.
    + assert (size g <= size (Running st1)); [|lia]. rewrite !size_contents, Hperm. simpl. lia.
  - destruct Hs as [H1 H2]. destruct (verTestType cfg); try done. eapply safe_bind; [by apply next_round_ok|]. by intros _ st' [? _].
  - assert (Hs1 : fork_message st1 p dests answer) by (destruct Hs; by split).
    eapply safe_bind; [by apply fork_request_ok|]. by intros _ st' [? _].
Qed.

(** What the workers do next is judged in the state that is reached. *)
Fixpoint signals_ok (st : mgr) (l : list sig) : Prop :=
  match l with
  | [] => True
  | s :: l' => signal_ok st s /\ forall st', handle s st = Done (true, st') -> signals_ok st' l'
  end.
Lemma handle_signals_ok l : forall st : mgr, manager_ok st -> signals_ok st l ->
  safe (handle_signals new_predict getWorkerLastMLBBID cfg l) st (fun _ st' => manager_ok st').
Proof.
  induction l as [|s l IH]; intros st Hok Hl; cbn [handle_signals]; [done|]. destruct Hl as [Hs Hl].
  pose proof (handle_signal_ok s st Hok Hs) as H. unfold safe in *. unfold mbind, io_bind.
  destruct (handle s st) as [[more st']| |] eqn:E; [|done|done]. destruct more; [|done]. apply IH; [done|by apply Hl].
Qed.

Fixpoint schedules_ok (st : mgr) (l : list (option (list Z) * option (list Z))) : Prop :=
  match l with
  | [] => contents (Stopped st) <> [] -> 1 <= size (Running st)
  | (m1, m2) :: l' => replay_message st m1 /\ replay_message st m2 /\
      forall st', schedule_worker cfg m1 m2 st = Done (true, st') -> schedules_ok st' l'
  end.
Lemma schedule_all_ok l : forall st : mgr, manager_ok st -> schedules_ok st l -> safe (schedule_all cfg l) st (fun _ st' => manager_ok st').
Proof.
  induction l as [|[m1 m2] l IH]; intros st Hok Hl; cbn [schedule_all]; steps; cbn [id].
  - destruct (empty (Stopped st)) eqn:E; [done|]. cbn [negb]. rewrite Hone. destruct (Z.ltb_spec (size (Running st)) 1); [|done].
    exfalso. assert (Hne : contents (Stopped st) <> []) by (intros E'; apply empty_contents in E'; congruence). specialize (Hl Hne). lia.
  - destruct (empty (Stopped st)) eqn:E; [done|]. cbn [negb]. destruct Hl as (H1 & H2 & Hl).
    assert (Hne : contents (Stopped st) <> []) by (intros E'; apply empty_contents in E'; congruence).
    pose proof (schedule_worker_ok m1 m2 st Hok Hne H1 H2) as H. unfold safe in *. unfold mbind, io_bind.
    destruct (schedule_worker cfg m1 m2 st) as [[b st']| |] eqn:E'; [|done|done]. destruct H as [H _]. destruct b; [|done]. apply IH; [done|by apply Hl].
Qed.

Fixpoint rounds_ok (st : mgr) (rounds : list (list (option (list Z) * option (list Z)) * list sig)) : Prop :=
  match rounds with
  | [] => True
  | (l, sigs) :: rounds' => schedules_ok st l /\ forall st1, schedule_all cfg l st = Done (tt, st1) ->
      signals_ok st1 sigs /\ forall st2, handle_signals new_predict getWorkerLastMLBBID cfg sigs st1 = Done (tt, st2) ->
      rounds_ok st2 rounds'
  end.
Lemma manage_workers_ok rounds : forall st : mgr, manager_ok st -> rounds_ok st rounds ->
  safe (manage_workers new_predict getWorkerLastMLBBID cfg rounds) st (fun done st' =>
    if done : bool then contents (Stopped st') = [] /\ contents (Running st') = [] else manager_ok st').
Proof.
  assert (Hfin : forall st : mgr, manager_ok st -> safe (cleanUp_all;; mret true) st (fun (done : bool) (st' : mgr) =>
    if done : bool then contents (Stopped st') = [] /\ contents (Running st') = [] else manager_ok st')).
  { intros st [K1 K2 _ _ _ _]. unfold cleanUp_all, Stopped_cleanUp, Running_cleanUp. apply safe_assoc. steps. apply safe_ret. cbn.
    split; [by apply cleanUp_ok|]. apply cleanUp_ok. intros E. congruence. }
  induction rounds as [|[l sigs] rounds IH]; intros st Hok Hr; cbn [manage_workers]; steps; cbn [id].
  - by destruct (_ && _); [|apply Hfin].
  - destruct (_ && _); [|by apply Hfin]. destruct Hr as [Hl Hr]. unfold manage_step. apply safe_assoc.
    pose proof (schedule_all_ok l st Hok Hl) as H1. unfold safe in H1 |- *. unfold mbind, io_bind in *.
    destruct (schedule_all cfg l st) as [[[] st1]| |] eqn:E1; [|done|done]. destruct (Hr st1 eq_refl) as [Hs Hr2].
    pose proof (handle_signals_ok sigs st1 H1 Hs) as H2. unfold safe in H2.
    destruct (handle_signals _ _ _ sigs st1) as [[[] st2]| |] eqn:E2; [|done|done]. apply IH; [done|by apply Hr2].
Qed.

(** The first worker, and its replay process. *)
Lemma initial_fork_ok zero p self m : pid_range p -> (forall q, m = Some [q] -> pid_range q /\ q <> p) ->
  safe (initial_fork cfg p self m) (init_structures cfg zero) (fun _ st' => manager_ok st').
Proof.
  intros Hp Hm. unfold initial_fork. eapply safe_bind; [by apply getNewSlot_first|]. intros slot st' [-> ->].
  unfold Stopped_push, managerPrepForReplay. steps. apply safe_assoc, safe_receive_replay; [intros q E; by destruct (Hm q E)|].
  intros q Eq. destruct (Hm q Eq) as [Hq Hne]. apply safe_assoc. steps. apply safe_modify_last.
  set (w := {| pid := p; originator := self; branches := 0; priority := -1; pinfo := slot_at 0 |}).
  set (g := Stopped (init_structures (double := double) cfg zero)).
  assert (Hg : group_ok g) by (intros _ i x y _ H; unfold g in H; cbn in H; by rewrite lookup_nil in H).
  destruct (group_push_ok w g Hg) as (G1 & _ & G2 & _). assert (E : contents g = []) by (unfold g, contents; cbn; by destruct (explorationType cfg)). rewrite E in G2.
  unfold manager_ok. cbn. fold g. split; try done.
  - eapply pids_perm; [symmetry; exact G2|done|]. unfold pids_ok, live_pids. rewrite processes_cons. cbn. unfold pid_range in Hp.
    assert (p =? -1 = false) as -> by lia. change (processes []) with (@nil Z). cbn. split; repeat constructor; unfold pid_range in *; try lia; set_solver.
  - cbn. rewrite app_nil_r. eapply slots_perm; [symmetry; exact G2|]. exists 1%nat. split_and!; [done|done|apply NoDup_singleton|].
    repeat constructor. exists 0%nat. split; [lia|done].
Qed.
End invariant.

(** ** The claims *)

(** C4. The manager, started by [initial_fork] and running [manage_workers], is safe: no
    step uses an uninitialised [WorkerInfo], indexes a vector of records out of range or
    pops an empty group; the replay process, the stopped and the running workers stay
    different processes; their slots are different cells inside the cache; there is at
    most one running worker and one record per verified message; and when it ends, all
    workers are gone.  Assumed of the configuration: one worker runs at a time
    ([MAX_RUNNING_WORKERS] is 1), slots have a size, and the mode is not single-message
    verification (there the records of an overfull round are indexed out of range:
    [single_message_records]).  Assumed of the client's oracle: one prediction per
    branch, in order, each in its slot.  Assumed of the workers and the operating system
    ([rounds_ok]), in every state that is reached: requests come from running workers, new
    processes have new pids, a fork request names at least one block and all its blocks are
    different (equal blocks share a process: [shared_block_shares_pid]), and its answer
    has one pid for each block sent. *)
Theorem manager_safe {A : Algorithms} {S : AlgorithmsSpec A} {double : Type} {D : DoubleOps double}
    new_predict getWorkerLastMLBBID cfg zero p self m rounds :
  (forall w dests slots, length slots = length dests ->
    map pinfo (new_predict w dests slots) = slots /\ map getWorkerLastMLBBID (new_predict w dests slots) = dests) ->
  0 < pinfo_bytes cfg -> MAX_RUNNING_WORKERS cfg = 1 -> verTestType cfg <> SINGLEMSGVER ->
  pid_range p -> (forall q, m = Some [q] -> pid_range q /\ q <> p) ->
  (forall st, initial_fork cfg p self m (init_structures cfg zero) = Done (tt, st) ->
    rounds_ok new_predict getWorkerLastMLBBID cfg st rounds) ->
  safe (initial_fork cfg p self m;; manage_workers new_predict getWorkerLastMLBBID cfg rounds) (init_structures cfg zero)
    (fun done st => if done : bool then contents (Stopped st) = [] /\ contents (Running st) = [] else manager_ok cfg st).
Proof.
  intros Hpred Hbytes Hone Hmode Hp Hm Hr.
  pose proof (initial_fork_ok new_predict getWorkerLastMLBBID cfg Hpred Hbytes Hone Hmode zero p self m Hp Hm) as H1. unfold safe in *. unfold mbind, io_bind.
  destruct (initial_fork cfg p self m _) as [[[] st]| |]; [|done|done].
  exact (manage_workers_ok new_predict getWorkerLastMLBBID cfg Hpred Hbytes Hone Hmode rounds st H1 (Hr st eq_refl)).
Qed.

(** Records without times. *)
#[export] Instance unit_double : DoubleOps unit := {|
  dadd _ _ := tt; dsub _ _ := tt; dmax _ _ := tt; slot_costTime := tt; slot_arrTime := tt |}.

(** A client whose workers keep their last block in [branches]. *)
Definition sample_config : config := {| verTestType := VERIFY; explorationType := ML; useFallBackOracle := false;
  fallBackBranchThreshold := 2000; MAX_RUNNING_WORKERS := 1; MAX_STOPPED_WORKERS := 1024; msgsToVerify := 2;
  singleMsgVerificationIdx := 0; printRecordsOnVerFail := true; forkElisionPriorityThreshold := 1 # 2; mlinfo_cache := 4096; pinfo_bytes := 64 |}.
Definition sample_predict (w : WorkerInfo) (dests slots : list Z) : list WorkerInfo :=
  zip_with (fun d s => {| pid := 0; originator := pid w; branches := d; priority := 1 # Z.to_pos d; pinfo := s |}) dests slots.
Lemma sample_predict_ok w dests slots : length slots = length dests ->
  map pinfo (sample_predict w dests slots) = slots /\ map branches (sample_predict w dests slots) = dests.
Proof.
  revert slots. induction dests as [|d dests IH]; intros [|s slots] Hl; try done. simpl in *.
  destruct (IH slots ltac:(lia)) as [H1 H2].
  split; [exact (f_equal (cons s) H1)|exact (f_equal (cons d) H2)].
Qed.
(** The worker 100 runs, 101 is ready for a replay; then 100 forks into 100 and 102, one
    branch is left for a replay. *)
Definition sample_fork : @signal unit := FORK_REQUEST 100 (Some [2; 1; 3])
  (fun chosen => if (length chosen =? 2)%nat then Some [100; 102] else None) tt tt.
Definition run {B} (st : @manager unit) (m : io (@manager unit) B) : @manager unit := match m st with Done (_, st') => st' | _ => st end.
Definition sample_init : @manager unit :=
  run (init_structures sample_config tt) (initial_fork (A := sorting_algorithms) sample_config 100 1 (Some [101])).
Definition sample_start : @manager unit := run sample_init (schedule_worker (A := sorting_algorithms) sample_config None None).
Lemma sample_fork_message (st : @manager unit) : map pid (contents (Running st)) = [100] -> 102 ∉ live st ->
  fork_message st 100 (Some [2; 1; 3]) (fun chosen => if (length chosen =? 2)%nat then Some [100; 102] else None).
Proof.
  intros Hr Hl. split.
  - rewrite Hr. left.
  - intros ds [= <-]. split; [done|]. repeat constructor; set_solver.
  - intros chosen v. destruct (Nat.eqb_spec (length chosen) 2) as [E|]; [|done]. intros [= <-]. exists [102]. split_and!; [done|done| |].
    + repeat constructor; set_solver.
    + repeat constructor; done.
Qed.

Lemma manager_safe_witness :
  safe (initial_fork (A := sorting_algorithms) sample_config 100 1 (Some [101]);;
        manage_workers (A := sorting_algorithms) sample_predict branches sample_config
          [([(None, None)], [sample_fork])]) (init_structures sample_config tt)
    (fun done st => if done : bool then contents (Stopped st) = [] /\ contents (Running st) = [] else manager_ok sample_config st).
Proof.
  apply (@manager_safe sorting_algorithms sorting_algorithms_spec unit); try done.
  - apply sample_predict_ok.
  - intros q [= <-]. done.
  - intros st E. vm_compute in E. injection E as <-. split.
    + split; [done|]. split; [done|]. intros st' E. vm_compute in E. injection E as <-. intros _. vm_compute. discriminate.
    + intros st1 E. vm_compute in E. injection E as <-. split; [|done]. split; [|done].
      apply sample_fork_message; [reflexivity|]. vm_compute. set_solver.
Defined.

(** C20. A fork request over different blocks, outside single-message mode, keeps the
    invariant of the manager and loses no branch.  If it does not end the process, the
    requester has left [Running] and every branch is in [Stopped] exactly once, with the
    prediction of the oracle and a slot of its own.  The blocks sent to the requester are
    those of a branch of the highest priority, first, and of exactly the other branches
    whose priority reaches the threshold; the pids it reports are given to the branches
    of these blocks, the first to the first block and so on, and the branches of the
    other blocks have no process and are replayed.  Assumed of the state:
    the invariant of the manager, which has at most one running worker.  Assumed of the
    request ([fork_message]): it comes from a running worker, its blocks are not none and all
    different ([shared_block_shares_pid] shows what happens with equal ones), and the
    answer has the requester's pid and then new pids, one for each block sent.  Assumed
    of the client: the oracle returns one prediction per block, in order.  In
    single-message mode the records of an overfull round are indexed out of range
    ([single_message_records]). *)
Theorem fork_request_correct {A : Algorithms} {S : AlgorithmsSpec A} {double : Type} {D : DoubleOps double}
    new_predict getWorkerLastMLBBID cfg p m_dests answer cost arr (st : @manager double) :
  (forall w dests slots, length slots = length dests ->
    map pinfo (new_predict w dests slots) = slots /\ map getWorkerLastMLBBID (new_predict w dests slots) = dests) ->
  0 < pinfo_bytes cfg -> verTestType cfg <> SINGLEMSGVER -> manager_ok cfg st -> fork_message st p m_dests answer ->
  safe (fork_request new_predict getWorkerLastMLBBID cfg p m_dests answer cost arr) st (fun _ st' =>
    manager_ok cfg st' /\ exists ds, m_dests = Some ds /\ forked new_predict getWorkerLastMLBBID cfg st st' p ds answer).
Proof. intros Hpred Hbytes Hmode Hok Hfm. by apply fork_request_ok. Qed.

Lemma sample_start_ok : manager_ok sample_config sample_start.
Proof.
  pose proof sorting_algorithms_spec as Spec.
  pose proof (initial_fork_ok (A := sorting_algorithms) (double := unit) sample_predict branches sample_config
    sample_predict_ok ltac:(done) ltac:(done) ltac:(done) tt 100 1 (Some [101]) ltac:(done) ltac:(by intros q [= <-])) as H1.
  assert (E1 : initial_fork (A := sorting_algorithms) sample_config 100 1 (Some [101]) (init_structures sample_config tt) = Done (tt, sample_init))
    by (vm_compute; reflexivity). unfold safe in H1. rewrite E1 in H1.
  pose proof (schedule_worker_ok (A := sorting_algorithms) sample_predict branches sample_config sample_predict_ok ltac:(done) ltac:(done) None None
    sample_init H1 ltac:(vm_compute; discriminate) ltac:(done) ltac:(done)) as H2.
  assert (E2 : schedule_worker (A := sorting_algorithms) sample_config None None sample_init = Done (true, sample_start)) by (vm_compute; reflexivity).
  unfold safe in H2. rewrite E2 in H2. apply H2.
Qed.
Definition sample_answer (chosen : list Z) : option (list Z) := if (length chosen =? 2)%nat then Some [100; 102] else None.
Lemma fork_request_correct_witness :
  safe (fork_request (A := sorting_algorithms) sample_predict branches sample_config 100 (Some [2; 1; 3]) sample_answer tt tt) sample_start
    (fun _ st' => forked sample_predict branches sample_config sample_start st' 100 [2; 1; 3] sample_answer).
Proof.
  assert (H : safe (fork_request (A := sorting_algorithms) sample_predict branches sample_config 100 (Some [2; 1; 3]) sample_answer tt tt) sample_start
    (fun _ st' => manager_ok sample_config st' /\ exists ds, Some [2; 1; 3] = Some ds /\ forked sample_predict branches sample_config sample_start st' 100 ds sample_answer)).
  { apply (@fork_request_correct sorting_algorithms sorting_algorithms_spec unit); try done.
    - apply sample_predict_ok.
    - apply sample_start_ok.
    - apply sample_fork_message; [reflexivity|]. vm_compute. set_solver. }
  eapply safe_weaken; [exact H|]. by intros _ st' (_ & ds & [= <-] & Hf).
Defined.

(** C21. A verified message of the only running worker: the manager kills the stopped
    workers and the replay process, and unless it ends the process starts the next round
    with the worker of the message alone, in the first slot, and with the new process that
    this worker reports as the one for replays; the counters of the round are reset, and
    there is one more record; the records are never indexed out of range.  Assumed: the
    invariant [manager_ok], which has at most one running worker (with more, those of the
    old round survive: [running_workers_survive]), a message from the running worker, and
    a new pid from the operating system. *)
Theorem next_round_correct {A : Algorithms} {S : AlgorithmsSpec A} {double : Type} {D : DoubleOps double}
    cfg p m cost arr (st : @manager double) :
  manager_ok cfg st -> p ∈ map pid (contents (Running st)) -> replay_message st m ->
  safe (next_round cfg p m cost arr) st (fun _ st' => manager_ok cfg st' /\ new_round cfg st st' p m).
Proof. apply next_round_ok. Qed.
Lemma next_round_correct_witness :
  safe (next_round (A := sorting_algorithms) sample_config 100 (Some [103]) tt tt) sample_start
    (fun _ st' => manager_ok sample_config st' /\ new_round sample_config sample_start st' 100 (Some [103])).
Proof.
  apply (@next_round_correct sorting_algorithms sorting_algorithms_spec); [apply sample_start_ok|vm_compute; left|].
  intros q [= <-]. split; [done|]. vm_compute. set_solver.
Defined.

(** ** Outside these hypotheses *)
Definition with_mode (mode : VerTestType) (idx running stopped : Z) : config := {| verTestType := mode; explorationType := ML;
  useFallBackOracle := false; fallBackBranchThreshold := 2000; MAX_RUNNING_WORKERS := running; MAX_STOPPED_WORKERS := stopped; msgsToVerify := 3;
  singleMsgVerificationIdx := idx; printRecordsOnVerFail := true; forkElisionPriorityThreshold := 0; mlinfo_cache := 4096; pinfo_bytes := 64 |}.
Abbreviation start cfg := (run (run (init_structures cfg tt) (initial_fork (A := sorting_algorithms) cfg 100 1 (Some [101])))
  (schedule_worker (A := sorting_algorithms) cfg None None)).
Abbreviation handle_sample cfg := (handle_signal (A := sorting_algorithms) sample_predict branches cfg).

(** When a single message after the first is verified and its workers are too many, the
    records are indexed past their end. *)
Example single_message_records :
  let cfg := with_mode SINGLEMSGVER 4 1 2 in
  handle_sample cfg (FORK_REQUEST 100 (Some [2; 1]) (fun _ => Some [100; 102]) tt tt) (start cfg) = Undefined.
Proof. vm_compute. reflexivity. Qed.

(** Two branches with the same block share a process. *)
Example shared_block_shares_pid :
  let cfg := with_mode VERIFY 0 1 1024 in
  let st := run (start cfg) (handle_sample cfg (FORK_REQUEST 100 (Some [2; 2]) (fun _ => Some [100; 102]) tt tt)) in
  map pid (contents (Stopped st)) = [100; 100].
Proof. vm_compute. reflexivity. Qed.

(** With two running workers, one of the previous message survives into the next round. *)
Example running_workers_survive :
  let cfg := with_mode VERIFY 0 2 1024 in
  let st := run (start cfg) (handle_sample cfg (FORK_REQUEST 100 (Some [2; 1]) (fun _ => Some [100; 102]) tt tt)) in
  let st := run (run st (schedule_worker (A := sorting_algorithms) cfg None None)) (schedule_worker (A := sorting_algorithms) cfg None None) in
  let st := run st (handle_sample cfg (SUCCESS 100 (Some [103]) tt tt)) in
  msgCtr st = 1 /\ map pid (contents (Stopped st)) = [100] /\ map pid (contents (Running st)) = [102].
Proof. vm_compute. split_and!; reflexivity. Qed.
