(* ===== verification/WorkerFork.v ===== *)
(** * WorkerFork: the workers' side of a fork

    Models the shared buffer [dinfo] of [klee/lib/Tase/API_Alt.cpp] and the worker's side
    of the fork protocol, [tase_fork_inner] with its callers, which the manager of
    [Manager] drives.  The state of this code is the buffer.  [call_fork] creates the
    next process of a list of pids; a process of the worker is then known by its pid and
    the index of the branch on which it goes on.  Log output is left out. *)

From S2P Require Import Prelude Exits WorkerGroup Manager ManagerSound.
Local Open Scope Z_scope.

Definition DINFO_MAGIC_START : Z := 0xDEADBEEF0000.
Definition DINFO_MAGIC_END : Z := 0xBEEFDEAD0000.

(** ** The buffer: [dest_size] bytes as words *)
Abbreviation buffer := (list Z).
Abbreviation W := (io buffer).
Definition buffer_ok (b : buffer) : Prop := length b = 600%nat.
Definition read (i : Z) : W Z := fun b => at_index b i b.
Definition write (i v : Z) : W unit := fun b =>
  if (0 <=? i) && (i <? Z.of_nat (length b)) then Done (tt, <[Z.to_nat i := v]> b) else Undefined.
Fixpoint write_all (i : Z) (v : list Z) : W unit :=
  match v with [] => mret tt | x :: v' => write i x;; write_all (i + 1) v' end.
Fixpoint read_all (n : nat) (i : Z) : W (list Z) :=
  match n with O => mret [] | S n' => x ← read i; l ← read_all n' (i + 1); mret (x :: l) end.

Definition send (v : list Z) : W unit :=
  let numItems := Z.of_nat (length v) in
  if dest_size <=? u64 (to_int (8 * (numItems + 3))) then exit 0
  else
    write 0 DINFO_MAGIC_START;;
    write 1 numItems;;
    write_all 2 v;;
    write (2 + numItems) DINFO_MAGIC_END.
Definition receive : W (list Z) :=
  start ← read 0;
  if negb (start =? DINFO_MAGIC_START) then exit 0
  else
    numItems ← read 1;
    res ← read_all (Z.to_nat numItems) 2;
    last ← read (2 + numItems);
    if negb (last =? DINFO_MAGIC_END) then exit 0 else mret res.

(** ** Forking *)
Fixpoint getIdxInVec (vals : list Z) (val : Z) (i : Z) : W Z :=
  match vals with [] => exit 0 | x :: vals' => if x =? val then mret i else getIdxInVec vals' val (i + 1) end.

(** The processes after the loop: the requester and the children, each with its branch. *)
Fixpoint fork_children (dests : list Z) (blocks new_pids : list Z) : W (list (Z * Z)) :=
  match blocks with
  | [] => mret []
  | b :: blocks' =>
      match new_pids with
      | [] => undefined
      | p :: new_pids' =>
          idx ← getIdxInVec dests b 0;
          rest ← fork_children dests blocks' new_pids';
          mret ((p, idx) :: rest)
      end
  end.
(** From the second continuation on: what the manager chose, the forks, the report. *)
Definition fork_chosen (self : Z) (new_pids dests : list Z) : W (list (Z * Z)) :=
  BBIDsToFork ← receive;
  first ← at_index BBIDsToFork 0;
  children ← fork_children dests (tail BBIDsToFork) new_pids;
  send (self :: map fst children);;
  idx ← getIdxInVec dests first 0;
  mret ((self, idx) :: children).

(** Replaying a fragment: the branch taken, the position, whether it goes on. *)
Fixpoint replay_index (dests : list Z) (b : Z) (i : Z) : option Z :=
  match dests with [] => None | d :: dests' => if d =? b then Some i else replay_index dests' b (i + 1) end.
Definition replay_branch (frag : list Z) (forkElisionReplayCtr : Z) (dests : list Z) : W (Z * Z * bool) :=
  match dests with
  | [] => exit 0
  | _ =>
      b ← at_index frag forkElisionReplayCtr;
      match replay_index dests b 0 with
      | None => exit 0
      | Some i =>
          let ctr := forkElisionReplayCtr + 1 in
          mret (if ctr =? Z.of_nat (length frag) then (i, -1, false) else (i, ctr, true))
      end
  end.
(** [tase_fork_inner]: a worker that replays follows its fragment; one that does not
    sends its branches and stops.  With a fallback oracle an empty fragment ends the
    replay. *)
Definition tase_fork_inner (useFallBackOracle : bool) (frag : list Z) (ctr : Z) (inForkElisionReplay : bool) (dests : list Z) :
    W (option (Z * Z * bool)) :=
  let replaying := inForkElisionReplay && negb (useFallBackOracle && (length frag =? 0)%nat) in
  if replaying then r ← replay_branch frag ctr dests; mret (Some r)
  else send dests;; mret None.

(** The callers check the index of the branch; [getMLBBID] is the client's. *)
Definition tase_fork_RIP_branch (dests : list Z) (res : Z) : W Z :=
  if (Z.of_nat (length dests) <=? u64 res) || (res <? 0) then exit 0 else mret res.
(** The false branch comes first, so that 1 is true. *)
Definition tase_fork_IR_dests (trueBranchID falseBranchID : Z) : list Z := [falseBranchID; trueBranchID].
Definition tase_fork_IR_branch (res : Z) : W Z := if negb (res =? 0) && negb (res =? 1) then exit 0 else mret res.

(** The branches of a replaying process one after the other, until it asks the manager. *)
Fixpoint replay_all (useFallBackOracle : bool) (frag : list Z) (ctr : Z) (inForkElisionReplay : bool) (branches : list (list Z)) :
    W (list Z * Z * bool) :=
  match branches with
  | [] => mret ([], ctr, inForkElisionReplay)
  | dests :: branches' =>
      r ← tase_fork_inner useFallBackOracle frag ctr inForkElisionReplay dests;
      match r with
      | None => mret ([], ctr, false)
      | Some (i, ctr', inReplay') =>
          rest ← replay_all useFallBackOracle frag ctr' inReplay' branches';
          mret (i :: rest.1.1, rest.1.2, rest.2)
      end
  end.

(** ** What is sent is received *)
Lemma needed_size n : 0 <= n <= 2 ^ 20 -> u64 (to_int (8 * (n + 3))) = 8 * (n + 3).
Proof.
  intros Hn. unfold to_int. rewrite (wrap_small 32) by (unfold inw; lia). unfold sgn.
  destruct (Z.ltb_spec (8 * (n + 3)) (2 ^ (32 - 1))); [|lia]. apply u64_small. lia.
Qed.
Lemma buffer_write_ok i v (b : buffer) : 0 <= i < Z.of_nat (length b) -> write i v b = Done (tt, <[Z.to_nat i := v]> b).
Proof. intros H. unfold write. by replace ((0 <=? i) && (i <? Z.of_nat (length b))) with true by lia. Qed.
Lemma buffer_read_ok i v (b : buffer) : 0 <= i -> b !! Z.to_nat i = Some v -> read i b = Done (v, b).
Proof. intros Hi H. unfold read, at_index. by rewrite (proj2 (Z.leb_le 0 i) Hi), H. Qed.

Lemma write_all_ok v : forall i (b : buffer), 0 <= i -> i + Z.of_nat (length v) <= Z.of_nat (length b) ->
  exists b', write_all i v b = Done (tt, b') /\ length b' = length b /\
    forall k, 0 <= k -> b' !! Z.to_nat k = if (i <=? k) && (k <? i + Z.of_nat (length v)) then v !! Z.to_nat (k - i) else b !! Z.to_nat k.
Proof.
  induction v as [|x v IH]; intros i b Hi Hl; cbn [write_all].
  { exists b. split; [done|]. split; [done|]. intros k Hk. change (Z.of_nat (length (@nil Z))) with 0.
    destruct (Z.leb_spec i k), (Z.ltb_spec k (i + 0)); cbn [andb]; try done; lia. }
  simpl in Hl. rewrite (bind_done _ _ _ _ _ (buffer_write_ok i x b ltac:(lia))).
  destruct (IH (i + 1) (<[Z.to_nat i := x]> b)) as (b' & E & Hl' & Hb'); [lia|rewrite length_insert; lia|]. rewrite E.
  exists b'. split; [done|]. split; [by rewrite Hl', length_insert|]. intros k Hk. rewrite Hb' by done. simpl length.
  destruct (Z.leb_spec (i + 1) k), (Z.ltb_spec k (i + 1 + Z.of_nat (length v))), (Z.leb_spec i k), (Z.ltb_spec k (i + Z.of_nat (S (length v)))); simpl; try lia.
  - by replace (Z.to_nat (k - i)) with (S (Z.to_nat (k - (i + 1)))) by lia.
  - by rewrite list_lookup_insert_ne by lia.
  - replace k with i by lia. rewrite Z.sub_diag. simpl. by rewrite list_lookup_insert_eq by lia.
  - by rewrite list_lookup_insert_ne by lia.
Qed.

Lemma read_all_ok v : forall i (b : buffer), 0 <= i -> (forall k, (k < length v)%nat -> b !! Z.to_nat (i + Z.of_nat k) = v !! k) ->
  read_all (length v) i b = Done (v, b).
Proof.
  induction v as [|x v IH]; intros i b Hi H; [done|]. cbn [length read_all].
  rewrite (bind_done _ _ _ _ _ (buffer_read_ok i x b Hi ltac:(rewrite <- (Z.add_0_r i); apply (H 0%nat); simpl; lia))).
  rewrite (bind_done _ _ _ v b); [done|]. apply IH; [lia|]. intros k Hk.
  replace (i + 1 + Z.of_nat k) with (i + Z.of_nat (S k)) by lia. apply (H (S k)). simpl. lia.
Qed.

(** What the buffer holds once [v] was sent. *)
Record holds (v : list Z) (b : buffer) : Prop := {
  holds_size : buffer_ok b;
  holds_receive : receive b = Done (v, b);
}.
Definition fits (v : list Z) : Prop := (length v <= 596)%nat.

Lemma buffer_send_ok v (b : buffer) : buffer_ok b -> fits v -> exists b', send v b = Done (tt, b') /\ holds v b'.
Proof.
  unfold buffer_ok, fits. intros Hb Hv. unfold send. set (n := Z.of_nat (length v)).
  rewrite needed_size by lia. destruct (Z.leb_spec dest_size (8 * (n + 3))); [unfold dest_size in *; lia|].
  rewrite (bind_done _ _ _ _ _ (buffer_write_ok 0 _ b ltac:(lia))). set (b1 := <[_ := _]> b). assert (Hl1 : length b1 = 600%nat) by (unfold b1; by rewrite length_insert).
  rewrite (bind_done _ _ _ _ _ (buffer_write_ok 1 n b1 ltac:(lia))). set (b2 := <[_ := _]> b1). assert (Hl2 : length b2 = 600%nat) by (unfold b2; by rewrite length_insert).
  destruct (write_all_ok v 2 b2) as (b3 & E3 & Hl3 & H3); [lia|lia|]. rewrite (bind_done _ _ _ _ _ E3).
  rewrite (buffer_write_ok (2 + n) _ b3) by lia. set (b4 := <[_ := _]> b3). exists b4. split; [done|].
  assert (Hget : forall k, 0 <= k < 2 + n -> b4 !! Z.to_nat k = b3 !! Z.to_nat k) by (intros k Hk; unfold b4; apply list_lookup_insert_ne; lia).
  assert (Hlt : forall k, 0 <= k < 2 -> b4 !! Z.to_nat k = b2 !! Z.to_nat k).
  { intros k Hk. rewrite Hget by lia. rewrite H3 by lia. by replace (2 <=? k) with false by lia. }
  split; [unfold buffer_ok, b4; rewrite length_insert; lia|]. unfold receive.
  rewrite (bind_done _ _ _ _ _ (buffer_read_ok 0 DINFO_MAGIC_START b4 ltac:(lia) ltac:(rewrite Hlt by lia; unfold b2, b1; simpl; rewrite list_lookup_insert_ne, list_lookup_insert_eq; [done|lia|lia]))).
  cbn [negb Z.eqb Pos.eqb DINFO_MAGIC_START].
  rewrite (bind_done _ _ _ _ _ (buffer_read_ok 1 n b4 ltac:(lia) ltac:(rewrite Hlt by lia; unfold b2; apply list_lookup_insert_eq; lia))).
  unfold n. rewrite Nat2Z.id.
  rewrite (bind_done _ _ _ _ _ (read_all_ok v 2 b4 ltac:(lia) ltac:(intros k Hk; rewrite Hget by lia; rewrite H3 by lia;
    replace ((2 <=? 2 + Z.of_nat k) && (2 + Z.of_nat k <? 2 + Z.of_nat (length v))) with true by lia; f_equal; lia))).
  fold n. rewrite (bind_done _ _ _ _ _ (buffer_read_ok (2 + n) DINFO_MAGIC_END b4 ltac:(lia) ltac:(unfold b4; apply list_lookup_insert_eq; lia))). done.
Qed.

(** ** The processes after a fork *)
Definition branch (dests : list Z) (idx d : Z) : Prop := 0 <= idx < Z.of_nat (length dests) /\ dests !! Z.to_nat idx = Some d.

Lemma getIdxInVec_gen vals val : forall i (b : buffer),
  match getIdxInVec vals val i b with
  | Done (idx, b') => b' = b /\ i <= idx < i + Z.of_nat (length vals) /\ vals !! Z.to_nat (idx - i) = Some val
  | Exited _ => val ∉ vals
  | Undefined => False
  end.
Proof.
  induction vals as [|x vals IH]; intros i b; cbn [getIdxInVec]; [apply not_elem_of_nil|]. destruct (Z.eqb_spec x val) as [->|Hne]; cbn.
  { split; [done|]. split; [lia|]. by rewrite Z.sub_diag. }
  specialize (IH (i + 1) b). destruct (getIdxInVec vals val (i + 1) b) as [[idx b']| |]; [|by apply not_elem_of_cons|done].
  destruct IH as (? & ? & IH). split; [done|]. split; [lia|]. by replace (Z.to_nat (idx - i)) with (S (Z.to_nat (idx - (i + 1)))) by lia.
Qed.
Lemma getIdxInVec_done vals val (b b' : buffer) idx : getIdxInVec vals val 0 b = Done (idx, b') -> b' = b /\ branch vals idx val.
Proof.
  intros E. pose proof (getIdxInVec_gen vals val 0 b) as H. rewrite E, Z.sub_0_r in H. destruct H as (? & ? & ?). by split; [|split; [lia|]].
Qed.
Lemma getIdxInVec_ok vals val (b : buffer) : val ∈ vals -> exists idx, getIdxInVec vals val 0 b = Done (idx, b) /\ branch vals idx val.
Proof.
  intros Hin. destruct (getIdxInVec vals val 0 b) as [[idx b']| |] eqn:E.
  - destruct (getIdxInVec_done _ _ _ _ _ E) as [-> ?]. by exists idx.
  - exfalso. pose proof (getIdxInVec_gen vals val 0 b) as H. rewrite E in H. done.
  - exfalso. pose proof (getIdxInVec_gen vals val 0 b) as H. by rewrite E in H.
Qed.

Abbreviation placed dests := (Forall2 (fun pr d => branch dests (snd pr) d)).
Lemma fork_children_done dests blocks : forall new_pids (b b' : buffer) ch, fork_children dests blocks new_pids b = Done (ch, b') ->
  b' = b /\ (length blocks <= length new_pids)%nat /\ map fst ch = take (length blocks) new_pids /\ placed dests ch blocks.
Proof.
  induction blocks as [|d blocks IH]; intros new_pids b b' ch E; cbn [fork_children] in E; [injection E as <- <-; split_and!; [done|simpl; lia|done|constructor]|].
  destruct new_pids as [|p new_pids]; [done|]. unfold mbind, io_bind in E.
  destruct (getIdxInVec dests d 0 b) as [[idx b1]| |] eqn:E1; [|done|done]. destruct (getIdxInVec_done _ _ _ _ _ E1) as [-> Hb].
  destruct (fork_children dests blocks new_pids b) as [[rest b2]| |] eqn:E2; [|done|done]. injection E as <- <-.
  destruct (IH _ _ _ _ E2) as (-> & ? & Hm & Hp). split_and!; [done|simpl; lia|cbn; by rewrite Hm|by constructor].
Qed.
Lemma fork_children_ok dests blocks : forall new_pids (b : buffer), (forall d, d ∈ blocks -> d ∈ dests) -> (length blocks <= length new_pids)%nat ->
  exists ch, fork_children dests blocks new_pids b = Done (ch, b).
Proof.
  induction blocks as [|d blocks IH]; intros new_pids b Hin Hl; cbn [fork_children]; [by eexists|]. destruct new_pids as [|p new_pids]; [simpl in Hl; lia|].
  destruct (getIdxInVec_ok dests d b) as (idx & E1 & _); [apply Hin; left|]. destruct (IH new_pids b) as [ch E2]; [intros d' Hd'; apply Hin; by right|simpl in Hl; lia|].
  exists ((p, idx) :: ch). unfold mbind, io_bind. by rewrite E1, E2.
Qed.

(** The message of [send] fits if it returns. *)
Lemma write_all_done v : forall i (b b' : buffer), 0 <= i -> write_all i v b = Done (tt, b') ->
  length b' = length b /\ (v = [] \/ i + Z.of_nat (length v) <= Z.of_nat (length b)).
Proof.
  induction v as [|x v IH]; intros i b b' Hi E; cbn [write_all] in E; [injection E as <-; split; [done|by left]|].
  unfold mbind, io_bind, write in E. destruct (Z.leb_spec 0 i), (Z.ltb_spec i (Z.of_nat (length b))); simpl in E; try done.
  destruct (IH (i + 1) _ _ ltac:(lia) E) as [Hl Hv]. rewrite length_insert in Hl, Hv. split; [done|]. right.
  destruct Hv as [->|Hv]; cbn [length]; lia.
Qed.
Lemma send_done v (b b' : buffer) : buffer_ok b -> send v b = Done (tt, b') -> fits v.
Proof.
  unfold buffer_ok, fits, send. intros Hb E. set (n := Z.of_nat (length v)) in E. destruct (Z.leb_spec dest_size (u64 (to_int (8 * (n + 3))))) as [|Hsize]; [done|].
  rewrite (bind_done _ _ _ _ _ (buffer_write_ok 0 _ b ltac:(lia))) in E. set (b1 := <[_ := _]> b) in E. assert (Hl1 : length b1 = 600%nat) by (unfold b1; by rewrite length_insert).
  rewrite (bind_done _ _ _ _ _ (buffer_write_ok 1 _ b1 ltac:(lia))) in E. set (b2 := <[_ := _]> b1) in E. assert (Hl2 : length b2 = 600%nat) by (unfold b2; by rewrite length_insert).
  unfold mbind, io_bind in E. destruct (write_all 2 v b2) as [[[] b3]| |] eqn:E3; [|done|done].
  destruct (write_all_done v 2 b2 b3 ltac:(lia) E3) as [Hl3 Hv].
  destruct Hv as [->|Hv]; [simpl; lia|]. rewrite needed_size in Hsize by lia. unfold dest_size in Hsize. lia.
Qed.

Lemma fork_chosen_done self new_pids dests chosen (b b' : buffer) procs : holds chosen b ->
  fork_chosen self new_pids dests b = Done (procs, b') ->
  exists d rest, chosen = d :: rest /\ (length rest <= length new_pids)%nat /\
    map fst procs = self :: take (length rest) new_pids /\ placed dests procs chosen /\ holds (map fst procs) b'.
Proof.
  intros [Hb Hr] E. unfold fork_chosen in E. rewrite (bind_done _ _ _ _ _ Hr) in E. destruct chosen as [|d rest]; [done|].
  rewrite (bind_done _ _ b d b) in E by done. unfold mbind, io_bind in E. cbn [tail] in E.
  destruct (fork_children dests rest new_pids b) as [[ch b1]| |] eqn:E1; [|done|done].
  destruct (fork_children_done _ _ _ _ _ _ E1) as (-> & Hl & Hm & Hp).
  destruct (send (self :: map fst ch) b) as [[[] b2]| |] eqn:E2; [|done|done].
  destruct (buffer_send_ok (self :: map fst ch) b Hb (send_done _ _ _ Hb E2)) as (b3 & E3 & H3). rewrite E2 in E3. injection E3 as <-.
  destruct (getIdxInVec dests d 0 b2) as [[idx b4]| |] eqn:E4; [|done|done]. destruct (getIdxInVec_done _ _ _ _ _ E4) as [-> Hbr].
  injection E as <- <-. exists d, rest. split; [done|]. split; [done|]. cbn. rewrite <- Hm. split; [done|]. by split; [constructor|].
Qed.
Lemma fork_chosen_ok self new_pids dests chosen (b : buffer) : holds chosen b -> chosen <> [] -> fits chosen -> (forall d, d ∈ chosen -> d ∈ dests) ->
  (length chosen <= S (length new_pids))%nat -> exists procs b', fork_chosen self new_pids dests b = Done (procs, b').
Proof.
  intros [Hb Hr] Hne Hf Hin Hl. unfold fork_chosen. rewrite (bind_done _ _ _ _ _ Hr). destruct chosen as [|d rest]; [done|].
  rewrite (bind_done _ _ b d b) by done. cbn [tail]. unfold fits in Hf. simpl in Hf, Hl.
  destruct (fork_children_ok dests rest new_pids b) as [ch E1]; [intros d' Hd'; apply Hin; by right|lia|].
  rewrite (bind_done _ _ _ _ _ E1). destruct (fork_children_done _ _ _ _ _ _ E1) as (_ & _ & Hm & _).
  destruct (buffer_send_ok (self :: map fst ch) b Hb) as (b2 & E2 & _); [unfold fits; rewrite Hm; cbn [length]; rewrite length_take; lia|].
  rewrite (bind_done _ _ _ _ _ E2). destruct (getIdxInVec_ok dests d b2) as (idx & E3 & _); [apply Hin; left|].
  rewrite (bind_done _ _ _ _ _ E3). by eexists _, _.
Qed.

Lemma write_no_exit i v (b : buffer) c : write i v b <> Exited c.
Proof. unfold write. by destruct (_ && _). Qed.
Lemma write_all_no_exit v : forall i (b : buffer) c, write_all i v b <> Exited c.
Proof.
  induction v as [|x v IH]; intros i b c; cbn [write_all]; [done|]. unfold mbind, io_bind.
  destruct (write i x b) as [[[] b']|c'|] eqn:E; [apply IH|by apply write_no_exit in E|done].
Qed.
Lemma send_exit_code v (b : buffer) c : send v b = Exited c -> c = 0.
Proof.
  unfold send. destruct (_ <=? _); [by intros [= <-]|]. unfold mbind, io_bind.
  destruct (write 0 _ b) as [[[] b1]|c'|] eqn:E; [|by apply write_no_exit in E|done]. clear E.
  destruct (write 1 _ b1) as [[[] b2]|c'|] eqn:E; [|by apply write_no_exit in E|done]. clear E.
  destruct (write_all 2 v b2) as [[[] b3]|c'|] eqn:E; [|by apply write_all_no_exit in E|done]. intros E'. by apply write_no_exit in E'.
Qed.

(** ** The two sides together

    What the manager receives when the worker runs between the messages. *)
Definition received {A} (m : W A) (b : buffer) : option (list Z) :=
  match (m;; receive) b with Done (v, _) => Some v | _ => None end.
Definition worker_dests (dests : list Z) (b : buffer) : option (list Z) := received (tase_fork_inner false [] (-1) false dests) b.
Definition worker_answer (self : Z) (new_pids dests : list Z) (b : buffer) (chosen : list Z) : option (list Z) :=
  received (send chosen;; fork_chosen self new_pids dests) b.

Lemma sent_received v (b : buffer) : buffer_ok b -> received (send v) b = if decide (fits v) then Some v else None.
Proof.
  intros Hb. unfold received. destruct (decide (fits v)) as [Hf|Hf].
  - destruct (buffer_send_ok v b Hb Hf) as (b' & E & _ & Hr). by rewrite (bind_done _ _ _ _ _ E), Hr.
  - unfold mbind, io_bind. destruct (send v b) as [[[] b']| |] eqn:E; [|done|done]. by apply send_done in E.
Qed.
Lemma worker_dests_some dests (b : buffer) : buffer_ok b -> worker_dests dests b = if decide (fits dests) then Some dests else None.
Proof.
  intros Hb. rewrite <- (sent_received _ b) by done. unfold worker_dests, received, tase_fork_inner, mbind, io_bind. simpl.
  by destruct (send dests b) as [[[] ?]| |].
Qed.

Section protocol.
Context {A : Algorithms} {S : AlgorithmsSpec A} {double : Type} (st : @manager double).
Lemma worker_answer_ok self new_pids dests (b : buffer) chosen v : buffer_ok b -> worker_answer self new_pids dests b chosen = Some v ->
  exists rest, v = self :: take rest new_pids /\ length v = length chosen /\ (rest <= length new_pids)%nat.
Proof.
  intros Hb. unfold worker_answer, received, mbind, io_bind. destruct (send chosen b) as [[[] b1]| |] eqn:E1; [|done|done].
  destruct (buffer_send_ok chosen b Hb (send_done _ _ _ Hb E1)) as (b1' & E1' & H1). rewrite E1 in E1'. injection E1' as <-.
  destruct (fork_chosen self new_pids dests b1) as [[procs b2]| |] eqn:E2; [|done|done].
  destruct (fork_chosen_done _ _ _ _ _ _ _ H1 E2) as (d & rest & -> & Hl & Hm & _ & [_ Hr]). rewrite Hr. intros [= <-].
  exists (length rest). rewrite Hm. split; [done|]. split; [|done]. cbn. f_equal. rewrite length_take. lia.
Qed.

Lemma worker_fork_message self new_pids dests (b : buffer) : buffer_ok b -> self ∈ map pid (contents (Running st)) -> dests <> [] -> NoDup dests ->
  NoDup new_pids -> Forall (fun q => fresh q (live st)) new_pids ->
  fork_message st self (worker_dests dests b) (worker_answer self new_pids dests b).
Proof.
  intros Hb Hself Hne Hnd Hnew Hfresh. split; [done| |].
  - intros ds. rewrite worker_dests_some by done. destruct (decide (fits dests)); [|done]. by intros [= <-].
  - intros chosen v Hv. destruct (worker_answer_ok _ _ _ _ _ _ Hb Hv) as (rest & -> & Hl & Hr). eexists. split; [done|]. split; [done|].
    split; [|by apply Forall_take]. constructor; [|by eapply sublist_NoDup; [|apply sublist_take]].
    intros Hin. rewrite Forall_forall in Hfresh. eapply elem_of_submseteq in Hin; [|apply sublist_submseteq, sublist_take].
    destruct (Hfresh _ Hin) as [_ Hf]. apply Hf. unfold live, live_pids. right. apply elem_of_app. by right.
Qed.
End protocol.

Lemma branch_passes dests idx d (b : buffer) : fits dests -> branch dests idx d -> tase_fork_RIP_branch dests idx b = Done (idx, b).
Proof.
  unfold fits, branch, tase_fork_RIP_branch. intros Hf [H _]. rewrite u64_small by lia.
  by replace ((Z.of_nat (length dests) <=? idx) || (idx <? 0)) with false by lia.
Qed.

(** ** Replays *)
Lemma replay_index_gen dests d : forall i, match replay_index dests d i with
  | Some idx => i <= idx < i + Z.of_nat (length dests) /\ dests !! Z.to_nat (idx - i) = Some d
  | None => d ∉ dests
  end.
Proof.
  induction dests as [|x dests IH]; intros i; cbn [replay_index]; [apply not_elem_of_nil|]. destruct (Z.eqb_spec x d) as [->|Hne].
  { cbn [length]. split; [lia|]. by rewrite Z.sub_diag. }
  specialize (IH (i + 1)). destruct (replay_index dests d (i + 1)) as [idx|]; [|by apply not_elem_of_cons].
  destruct IH as [? IH]. cbn [length]. split; [lia|]. by replace (Z.to_nat (idx - i)) with (S (Z.to_nat (idx - (i + 1)))) by lia.
Qed.

Lemma replay_step useFallBackOracle pre d suf dests (b : buffer) :
  tase_fork_inner useFallBackOracle (pre ++ d :: suf) (Z.of_nat (length pre)) true dests b =
  match replay_index dests d 0 with
  | None => Exited 0
  | Some i => Done (Some (if suf is [] then (i, -1, false) else (i, Z.of_nat (length (pre ++ [d])), true)), b)
  end.
Proof.
  unfold tase_fork_inner. rewrite !length_app. cbn [length]. rewrite Nat.add_succ_r. cbn [Nat.eqb]. rewrite andb_false_r. cbn [negb andb].
  destruct dests as [|x dests]; [done|]. unfold replay_branch.
  assert (E : at_index (pre ++ d :: suf) (Z.of_nat (length pre)) b = Done (d, b)).
  { apply at_index_lookup. rewrite lookup_app_r by lia. by rewrite Nat.sub_diag. }
  unfold mbind, io_bind. rewrite E. destruct (replay_index (x :: dests) d 0); [|done]. cbn. rewrite length_app.
  destruct (Z.eqb_spec (Z.of_nat (length pre) + 1) (Z.of_nat (length pre + length (d :: suf)))) as [Hc|Hc];
    destruct suf as [|y suf]; cbn [length] in *; try lia; [done|]. by rewrite Nat2Z.inj_add.
Qed.

Lemma replay_all_ok useFallBackOracle (b : buffer) branches : forall pre suf, suf <> [] -> (length branches <= length suf)%nat ->
  Forall2 (fun dests d => d ∈ dests) branches (take (length branches) suf) ->
  exists idxs, replay_all useFallBackOracle (pre ++ suf) (Z.of_nat (length pre)) true branches b =
    Done ((idxs, if (length branches =? length suf)%nat then -1 else Z.of_nat (length pre + length branches), negb (length branches =? length suf)%nat), b) /\
    Forall3 branch branches idxs (take (length branches) suf).
Proof.
  induction branches as [|dests branches IH]; intros pre suf Hne Hl Hin.
  { exists []. destruct suf; [done|]. split; [|constructor]. cbn. by rewrite Nat.add_0_r. }
  destruct suf as [|d suf]; [done|]. cbn [length take] in *. apply Forall2_cons in Hin as [Hd Hin].
  cbn [replay_all]. pose proof (replay_index_gen dests d 0) as Hi. pose proof (replay_step useFallBackOracle pre d suf dests b) as Hs.
  destruct (replay_index dests d 0) as [i|]; [|done]. rewrite (bind_done _ _ _ _ _ Hs). rewrite Z.sub_0_r in Hi.
  destruct suf as [|y suf].
  { destruct branches as [|? ?]; [|simpl in Hl; lia]. exists [i]. split; [done|]. constructor; [split; [lia|apply Hi]|constructor]. }
  destruct (IH (pre ++ [d]) (y :: suf)) as (idxs & E & Hidx); [done|simpl in *; lia|done|].
  rewrite <- app_assoc in E. cbn [app] in E. rewrite (bind_done _ _ _ _ _ E). exists (i :: idxs). split; [|by constructor; [split; [lia|apply Hi]|]].
  cbn [fst snd Nat.eqb]. rewrite length_app. cbn [length]. unfold mret, io_ret. do 4 f_equal. destruct (length branches =? _)%nat; [done|]. f_equal. lia.
Qed.

(** ** The properties *)

(** The buffer between the manager and a worker carries a vector exactly if it has at
    most 596 entries: after [send_vec_dinfo] returns, [receive_vec_dinfo] gives the same
    vector and leaves the buffer as it was.  A longer one whose size does not wrap is refused, and one
    whose size wraps around in [int] never returns either: it would be written past the
    end of the buffer. *)
Theorem dinfo_roundtrip (v : list Z) (b : buffer) : buffer_ok b ->
  match send v b with
  | Done (_, b') => fits v /\ receive b' = Done (v, b')
  | Exited c => c = 0 /\ ~ fits v
  | Undefined => ~ fits v /\ 2 ^ 20 < Z.of_nat (length v)
  end.
Proof.
  intros Hb. destruct (send v b) as [[[] b']|c|] eqn:E.
  - pose proof (send_done _ _ _ Hb E) as Hf. split; [done|]. destruct (buffer_send_ok v b Hb Hf) as (b'' & E' & _ & Hr). rewrite E in E'. by injection E' as <-.
  - assert (~ fits v) by (intros Hf; destruct (buffer_send_ok v b Hb Hf) as (b'' & E' & _); by rewrite E in E'). split; [|done].
    eapply send_exit_code. exact E.
  - assert (Hf : ~ fits v) by (intros Hf; destruct (buffer_send_ok v b Hb Hf) as (b'' & E' & _); by rewrite E in E'). split; [done|].
    destruct (Z.lt_ge_cases (2 ^ 20) (Z.of_nat (length v))); [done|]. exfalso. unfold send in E. rewrite needed_size in E by lia.
    unfold fits in Hf. destruct (Z.leb_spec dest_size (8 * (Z.of_nat (length v) + 3))); [done|]. unfold dest_size in *. lia.
Qed.
Lemma dinfo_roundtrip_witness : receive (match send [7; 8] (replicate 600 0) with Done (_, b') => b' | _ => [] end) =
  Done ([7; 8], match send [7; 8] (replicate 600 0) with Done (_, b') => b' | _ => [] end).
Proof. pose proof (dinfo_roundtrip [7; 8] (replicate 600 0) eq_refl) as H. destruct (send [7; 8] (replicate 600 0)) as [[[] b']|c|] eqn:E; [apply H|vm_compute in E; discriminate|vm_compute in E; discriminate]. Defined.

(** C19. The two sides of a fork fit together.  The fork request, run with the vectors that
    the worker really puts into the buffer, keeps the invariant of the manager and turns
    exactly the worker's branches into workers, each chosen block with the process the
    worker reported for it.  On the other side, told some of its branches the worker
    returns as one process for each: itself for the first, new processes for the others,
    each going on at the index of its block, which the caller accepts, and the buffer
    then holds their pids in that order.  Assumed: the requester is the running worker
    of a manager in its invariant and not in single-message mode ([single_message_records]);
    the branches are not none and lead to different blocks, which neither side checks
    ([shared_block_shares_pid]); the operating system gives new pids; the oracle returns
    one prediction per block, in order; for the second part, the vectors fit the buffer. *)
Theorem fork_protocol_correct {A : Algorithms} {S : AlgorithmsSpec A} {double : Type} {D : DoubleOps double}
    new_predict getWorkerLastMLBBID cfg self new_pids dests cost arr (b : buffer) (st : @manager double) :
  (forall w dests slots, length slots = length dests ->
    map pinfo (new_predict w dests slots) = slots /\ map getWorkerLastMLBBID (new_predict w dests slots) = dests) ->
  0 < pinfo_bytes cfg -> verTestType cfg <> SINGLEMSGVER -> manager_ok cfg st -> buffer_ok b ->
  self ∈ map pid (contents (Running st)) -> dests <> [] -> NoDup dests -> NoDup new_pids -> Forall (fun q => fresh q (live st)) new_pids ->
  safe (fork_request new_predict getWorkerLastMLBBID cfg self (worker_dests dests b) (worker_answer self new_pids dests b) cost arr) st
    (fun _ st' => manager_ok cfg st' /\ forked new_predict getWorkerLastMLBBID cfg st st' self dests (worker_answer self new_pids dests b)) /\
  forall chosen b', fits dests -> holds chosen b' -> chosen <> [] -> fits chosen -> (forall d, d ∈ chosen -> d ∈ dests) ->
    (length (tail chosen) <= length new_pids)%nat ->
    completes (fork_chosen self new_pids dests) b' (fun procs b'' =>
      map fst procs = self :: take (length (tail chosen)) new_pids /\ Forall2 (fun pr d => branch dests (snd pr) d) procs chosen /\
      Forall (fun pr => tase_fork_RIP_branch dests (snd pr) b'' = Done (snd pr, b'')) procs /\ receive b'' = Done (map fst procs, b'')).
Proof.
  intros Hpred Hbytes Hmode Hok Hb Hself Hne Hnd Hnew Hfresh. split.
  - eapply safe_weaken; [apply fork_request_ok; [done|done|done|done|by apply worker_fork_message]|].
    intros _ st' [Hok' (ds & Hds & Hf)]. split; [done|]. rewrite worker_dests_some in Hds by done.
    destruct (decide (fits dests)); [|done]. by injection Hds as <-.
  - intros chosen b' Hfd Hh Hc Hfc Hin Hl. destruct (fork_chosen_ok self new_pids dests chosen b') as (procs & b'' & E); [done|done|done|done|destruct chosen; [done|simpl in Hl; simpl; lia]|].
    exists procs, b''. split; [done|]. destruct (fork_chosen_done _ _ _ _ _ _ _ Hh E) as (d & rest & -> & _ & Hm & Hp & Hh').
    split; [done|]. split; [done|]. split; [|apply Hh']. apply Forall_forall. intros pr Hpr.
    apply list_elem_of_lookup in Hpr as [k Hk]. destruct (Forall2_lookup_l _ _ _ _ _ Hp Hk) as (d' & _ & Hbr). by eapply branch_passes.
Qed.
Lemma fork_protocol_correct_witness :
  safe (fork_request (A := sorting_algorithms) sample_predict branches sample_config 100
      (worker_dests [2; 1; 3] (replicate 600 0)) (worker_answer 100 [102; 104] [2; 1; 3] (replicate 600 0)) tt tt) sample_start (fun _ st' =>
    manager_ok sample_config st' /\ forked sample_predict branches sample_config sample_start st' 100 [2; 1; 3]
      (worker_answer 100 [102; 104] [2; 1; 3] (replicate 600 0))).
Proof.
  destruct (@fork_protocol_correct sorting_algorithms sorting_algorithms_spec unit unit_double
    sample_predict branches sample_config 100 [102; 104] [2; 1; 3] tt tt (replicate 600 0) sample_start) as [H _]; try done.
  - apply sample_predict_ok.
  - apply sample_start_ok.
  - vm_compute. left.
  - repeat constructor; set_solver.
  - repeat constructor; set_solver.
  - repeat constructor; vm_compute; set_solver.
Defined.

(** C26. A replay ends exactly where its fragment ends.  While the forks that a replaying
    process reaches offer the blocks of the fragment, it takes the branch of the next
    block each time, without asking the manager; it is in replay until the last block and
    no longer after it, when the counter is reset.  A fork that does not offer the block
    ends the process. *)
Theorem replay_follows (useFallBackOracle : bool) (frag : list Z) (branches : list (list Z)) (b : buffer) :
  frag <> [] -> (length branches <= length frag)%nat -> Forall2 (fun dests d => d ∈ dests) branches (take (length branches) frag) ->
  (exists idxs, replay_all useFallBackOracle frag 0 true branches b =
    Done ((idxs, if (length branches =? length frag)%nat then -1 else Z.of_nat (length branches), negb (length branches =? length frag)%nat), b) /\
    Forall3 branch branches idxs (take (length branches) frag)) /\
  forall dests d, frag !! length branches = Some d -> d ∉ dests ->
    tase_fork_inner useFallBackOracle frag (Z.of_nat (length branches)) true dests b = Exited 0.
Proof.
  intros Hne Hl Hin. split; [by apply (replay_all_ok useFallBackOracle b branches [] frag)|]. intros dests d Hd Hn.
  rewrite <- (take_drop_middle frag (length branches) d Hd).
  replace (Z.of_nat (length branches)) with (Z.of_nat (length (take (length branches) frag))) by (rewrite length_take; lia).
  rewrite replay_step. pose proof (replay_index_gen dests d 0) as H. destruct (replay_index dests d 0) as [i|]; [|done].
  destruct H as [_ H]. by apply list_elem_of_lookup_2 in H.
Qed.
Lemma replay_follows_witness : exists idxs, replay_all true [5; 6] 0 true [[4; 5]; [6; 9]] [] = Done ((idxs, -1, false), []).
Proof.
  destruct (replay_follows true [5; 6] [[4; 5]; [6; 9]] []) as [(idxs & E & _) _]; [done|simpl; lia|repeat constructor; set_solver|].
  by exists idxs.
Defined.
